(* ===== verification/_CoqProject ===== *)
-Q . S2P
Prelude.v
Async.v
AsyncTokens.v
JsValue.v
Text.v
BrowserStorage.v
ScopedMetadata.v
JsMap.v
FeatureKeys.v
MultiPartyPolicy.v
SafeAddressPolicy.v
RecordLifecyclePolicy.v
Resolver.v
ResolverTheorems.v
ExtractForm.v
ExtractTheorems.v
SafeAddress.v
Composing.v
Coherence.v
CoherenceTheorems.v
IdempotencyKey.v
Submission.v
PaymentStub.v
SubmitStub.v
SubmissionTheorems.v
Base64.v
AttachmentStore.v
AttachmentTheorems.v
DraftKeys.v
DraftStore.v
MultiPartyFlow.v
MultiPartyTheorems.v
EntryGates.v
Schema.v
RespondentPlace.v
RespondentGuards.v
RespondentSources.v
CompositeIdentity.v
OidcSession.v
OidcTheorems.v
LifecycleClient.v
ResponseAction.v
Url.v
Oracle.v
PublicApp.v
Admission.v
BundleSource.v
CohortState.v
HttpClient.v
DraftBindings.v
SigningFence.v
HttpDraftStore.v
ResponseSigning.v
SigningOperations.v
SigningRecovery.v
HttpCohort.v
CohortConditions.v
CohortCalculus.v
HttpDraftSafety.v
FenceSafety.v
MarkerSafety.v
SigningSafety.v
RecoverySafety.v
CohortSafety.v
CohortSamples.v
CohortTheorems.v
ResponseActionController.v
ResponseActionTheorems.v
ResponseActionSafety.v
ActionLedger.v
ScopeKey.v
DefinitionSource.v
Routes.v
AuthCallback.v
AnonymousSession.v
ReceiptStore.v
PublicTerminal.v
Configuration.v
CompositionRoots.v
NativeScreener.v
