(* ===== verification/Prelude.v ===== *)
(** * Formspec Web, verified

    Formspec Web is a browser runtime for published forms.  A deployment wires
    adapters into ports (a composition), declares per feature what they can do,
    and states an organisation policy; a form's definition states its own needs.
    The resolver joins the three into a profile, and the runtime then lets a
    respondent in, fill, sign, pay and submit under that profile.  This
    development models those decisions and the submission machinery as
    executable functions over the same data, and proves what they promise.

    ** The parts, from boot to submission

    - A deployment is configured: [Configuration] (src/src/config/, with the
      profiles of src/src/profiles/profiles.ts) validates the configuration of
      native signing and the attachment limit, reads the environment and the
      window, and lays them over a profile.  [CompositionRoots]
      (src/src/composition/default.ts, native-package.ts and stub.ts) wires the
      adapters of the result, and has the composition that a boot chooses for a
      location (src/src/app/main-helpers.ts and routed-composition.ts).
    - A location is read: [Routes] (src/src/app/*-route.ts) has the parser of
      each route, the links to them and their narrowing descriptors;
      [AuthCallback] (src/src/app/auth-callback.ts and
      src/src/shared/browser-auth-callback.ts) the callbacks of a sign-in and the
      page they return to.  [Url] has the URL library they share.
    - A composition is checked for honesty: [Coherence], from
      src/src/policy/sentinel.ts (markers), feature-port-map.ts (keys to ports)
      and composition-coherence.ts (the assertion, checked per port by
      [check_port] and per key by [check_key] in the order of the source);
      the same file holds the composition chosen before admission
      (src/src/composition/unavailable.ts) and the per-route ones
      (route-narrowing.ts).
    - A definition is read for the features it needs: [ExtractForm]
      (src/src/policy/extract-form-policy.ts) has each walker, [Composing]
      (src/src/adapters/composing/form-runtime-policy-extractor.ts) the
      extractor classes, their composite and the reference list of
      src/src/composition/default.ts.  The extractor port is a predicate,
      [Conforms], with an instance per extractor.
    - The layers are resolved: [Resolver] (src/src/policy/resolver.ts), with the
      blocks of its three structured features in [MultiPartyPolicy],
      [SafeAddressPolicy] and [RecordLifecyclePolicy], and the keys, modes and
      errors in [FeatureKeys] (feature-keys.ts, policy-shapes.ts, errors.ts).
    - Definitions are read from payloads and checked against their publication,
      behind a cache of shared promises: [DefinitionSource]
      (src/src/adapters/http/definition-source.ts).
    - The respondent enters: [EntryGates] has the identity options, the
      assurance floor, the check of the embedding host and the intake handoff
      (src/src/app/respondent-flow.ts), and the in-memory embed transport.
    - The respondent acts on the response: [ResponseActionController] has the
      controller of src/src/shared/response-action-controller.ts (saving,
      preparing, signing, starting an application, submitting, restoring and
      invalidating), with its data, admission and evidence checks in
      [ResponseAction] (also src/src/shared/task-draft-wire.ts and the port
      files).  The ports it drives are calls whose answers are arbitrary.
      [ActionLedger] (src/src/adapters/http/response-action-ledger.ts) has the
      anchoring of a run as semantic operations.
    - Drafts, signatures and submissions go over HTTP: the adapters of one
      cohort share a record of state, [CohortState], and are async programs over
      it.  [HttpClient] (http-client.ts), [DraftBindings]
      (draft-binding-registry.ts), [SigningFence], [ResponseSigning],
      [SigningOperations] and [SigningRecovery] (response-signing.ts),
      [HttpDraftStore] (draft-store.ts) and [HttpCohort] (submit-transport.ts,
      cohort.ts), all under src/src/adapters/http/.  [HttpCohort.operation]
      lists the calls of a client: every method of the cohort's draft store,
      submit transport and signing port, and the invalidation.
    - Their durable locators are kept by [ScopedMetadata]
      (src/src/shared/browser-scoped-metadata.ts) over [BrowserStorage].
    - The demo adapters keep the ports in memory: [DraftStore]
      (src/src/adapters/stub/draft-store.ts), [AttachmentStore]
      (attachment-store.ts, persistent-attachment-store.ts, with [Base64] of
      src/src/shared/base64.ts), [SafeAddress]
      (src/src/app/safe-address.ts and the directory of
      src/src/adapters/stub/safe-address-directory.ts).
    - Several parties sign: [MultiPartyFlow] (src/src/app/respondent-flow.ts) has the slots, the
      signing of one slot after another, the saved progress and the aggregate
      response.
    - The response is submitted: [Submission] has [submitOrQueue] and
      [submitWithPayment] over the ports as type classes with the contracts the
      port files state; [PaymentStub] and [SubmitStub] model the in-memory rail,
      transport and offline queue (src/src/adapters/stub/) and prove that they
      keep those contracts; [IdempotencyKey]
      (src/src/shared/idempotency-key.ts) has the derived UUIDv7 keys.
    - After submission, [LifecycleClient] has corrections, withdrawals and
      disputes: the port's data (src/src/ports/lifecycle-action-client.ts) and
      the in-memory client (src/src/adapters/stub/lifecycle-action-client.ts)
      with its guards, timelines and remembered receipts.
    - [CompositeIdentity] (src/src/adapters/composing/identity-provider.ts) joins
      several identity providers: discovery, routing to the provider that owns an
      option or a claim, and the subscription that tells each session once.
    - What a respondent is shown later (status, place, history) is checked where
      it enters: [RespondentPlace] has the types of the three ports and the
      guards of src/src/shared/respondent-place.ts and respondent-history.ts
      over JavaScript values, [RespondentSources] the demo sources that serve
      guarded copies (src/src/adapters/stub/).  [Schema] has the types as data:
      membership, subtypes and what a JSON round trip leaves.
    - [OidcSession] has the sign-in: the owner of the OIDC driver
      (src/src/adapters/identity/oidc-browser-session.ts) with its admission of
      users, its one mutation at a time, renewal, expiry, sign-out and disposal,
      and the identity adapter over it (oidc.ts, assurance.ts), as async
      programs of one state whose driver is a parameter.
      An anonymous respondent gets a session of a form instead, kept in the tab:
      [AnonymousSession] (src/src/adapters/http/anonymous-session.ts).
    - A form behind a screener opens when its result is retained:
      [NativeScreener] (src/src/shared/native-screener-coordinator.ts) has the
      sequence of its operations over the retention and hydration ports, and the
      route that a completed screener opens for a time.
    - A host admits a signed bundle of surfaces: [Admission]
      (src/src/verifying-surface/admission.ts) acquires it, has it verified,
      checks it and commits its release.  [BundleSource]
      (src/src/adapters/http/surface-bundle-source.ts) is its acquisition over
      HTTP; one of its checks is the validator of public respondent apps,
      [PublicApp] (src/src/verifying-surface/respondent/public-app-validation.ts).
      Its receipts are kept by [ReceiptStore]
      (src/src/verifying-surface/respondent/session-store.ts).
    - A public terminal sends the receipt by text message and clears what the
      respondent left: [PublicTerminal]
      (src/src/app/public-terminal-hygiene.ts).
    - [ScopeKey] (src/src/shared/scope-key.ts) has the deployment's scope key.

    ** Conventions

    - JavaScript values that the code reads unvalidated are [JsValue.jsv]:
      [undefined], [null], booleans, numbers (an integer, or any other number as
      its text), strings, arrays and objects as association lists in insertion
      order.  [prop], [obj_set] and [obj_spread] are [v.k], [o[k] = v] and
      [{...a, ...b}]; a property set to [undefined] is kept, as the spread keeps
      it.  The typed records of the source are read from such values by [read_]
      functions, and the validators are proved to accept exactly what those
      functions read and the well-formedness predicates admit.
    - A function that may throw returns [outcome E A]; [check] is a validator.
      The order of the checks is the order of the source, so that the error
      reported is the source's.  An awaited call of a stateful adapter is a
      function from its state to an outcome and the next state; where calls of
      several clients interleave (the offline queue), the interleavings are the
      steps of [SubmitStub.queue_step].
    - Code whose awaits interleave is a program of [Async]: a tree of reads and
      writes of the component's state and of external calls.  A call that yields
      ends the turn; the operations under way are threads, and [Async.step] runs
      one turn of any of them, with any answer the component's [answers] admits
      (the network and the ports may answer anything of the right type).  The
      dispatched requests or effects are the events of the run.  [AsyncTokens]
      has the verification condition of such programs against what the others
      may do in between, for a state with locks, and its soundness, and the
      case of one lock.  [Async.alone] runs a program without
      interruption and [Async.play] a given schedule of turns, for witnesses.
    - Code whose awaited calls are made one after another, without a state that
      others change meanwhile, is a program of [Oracle]: an oracle answers the
      calls in order, and a theorem for every oracle holds whatever they answer.
    - Some values are ghosts that no definition branches on:
      [CohortState.superseded] (operations a recovery settled or replaced), the
      draft key carried by the Fetch call, for the log, of the OIDC session
      the clock last read and the sessions admitted so far, and of the native
      screener the identity last captured, the latest completion and what a
      route was opened for.
    - A frozen object is the value itself, since nothing mutates it afterwards;
      data delivered to a host is a value, because the source freezes or clones
      it.
    - Code that is not in the repository is a parameter: the URL parser
      ([Resolver.UrlParser]), the uuid package and SHA-256
      ([IdempotencyKey.UuidPackage], [Digest]), the canonical bytes of a
      response ([DraftKeys.HandoffBytes]), canonical JSON and the form engine
      ([ResponseAction]), the COSE decoder, schemas and digests of signing
      ([ResponseSigning.SigningPackages]), JSON and the Storage API
      ([BrowserStorage]), locale lower case ([SafeAddress]), the ledger's host
      ([ActionLedger]), the hash library ([ScopeKey.HashLibrary]), the
      arithmetic of doubles on expiry times ([OidcSession.Doubles]), the
      references of subjects, locale lookup ([PublicApp.SurfaceLocales]), the
      packages that assemble a bundle ([Admission.SurfacePackages]), the URL
      library ([Url.UrlLibrary]), lower case of identifiers
      ([DefinitionSource.LowerCased]), the parser of dates ([Text.DateParse]),
      and finite-JSON copies, locales, URI formats and [Number]
      ([Configuration.ConfigPackages], [Configuration.NumberOf]), and the making
      of a sign-in driver ([CompositionRoots.BrowserSessions]).  Where a
      theorem relies on what such code documents, a [...Laws] class or a named
      hypothesis states it and the witness gives an instance.  The clock is an
      argument or a call.
    - Recursion is structural (over lists, items and programs) except for two
      bounded loops: [MultiPartyFlow.hex_digits] has eight, the digits of a
      32-bit number, and [AttachmentStore.upload_loop] has the size of the blob
      plus two, which [upload_in_chunks] proves is enough.

    ** What the theorems show

    - Configuration: the native signing validator accepts exactly the described
      shape; a resolved configuration keeps what its profile fixes, uses the HTTP
      ports with a server, else those of its profile, and holds only what was
      validated; the signed surface is activated only over the HTTP ports.  What
      is wired for it is
      coherent and enables nothing but the uploads of a preview; a preview acts
      for nobody, unless the profile selects OIDC; and exactly when a resolved
      configuration boots a form ([CompositionRoots]).
    - Routes and callbacks: which composition a location gets, exactly, and what
      its boot throws ([CompositionRoots]); the status links are parsed back to
      what they name; a sign-in returns only to a kept page of the same origin,
      and the page is the one that was left, unless its path begins with two
      slashes: then the callback throws.
    - Resolution ([ResolverTheorems]): when it succeeds, exactly which features
      are enabled and why the others are not, which error is reported, honesty
      in production, monotonicity in the instance, and for each structured
      feature that the resolved block is well formed and never wider than the
      deployment allows.  [resolve_withdrawable_merge_gap] shows a rule that the
      merge of two valid layers loses.
    - Extraction ([ExtractTheorems], [Composing]): each walker finds exactly what
      it should; exactly when the resolver accepts what was extracted; the
      composite's last-wins law; a form's needs are never silently dropped.
    - Composition ([CoherenceTheorems]): the assertion accepts exactly the honest
      compositions, so every feature a respondent is shown is backed by a real
      port; when the narrowed and unavailable compositions are built and what
      they serve.
    - Entry and scope ([EntryGates], [CompositeIdentity], [ScopeKey]): the embed
      gate decides by the validated allow-list; identity calls reach the owning
      provider alone; scope keys frame their names injectively.
    - Lifecycle ([LifecycleClient]): timelines only grow and repeat no event id,
      a key's receipt is final, and exactly which requests are accepted and when
      a correction is recorded as an amendment.
    - Submission ([SubmissionTheorems]): charge if and only if submitted, retries
      that change nothing, a queue that loses nothing under any interleaving and
      drains in order.
    - Multi-party signing ([MultiPartyTheorems]): the invariants of every
      reachable state, progress, and the round trip through the saved draft.
    - The controller ([ResponseActionTheorems], [ResponseActionSafety]): however
      operations interleave, one outside effect at a time, under one key per
      invocation; drafts are checked before they are kept; a closed controller
      has no further effect; recorded effects are replayed; runs settle.
    - The HTTP cohort ([CohortTheorems], on the conditions of
      [CohortConditions] that [HttpDraftSafety], [FenceSafety], [MarkerSafety],
      [SigningSafety], [RecoverySafety] and [CohortSafety] prove of each
      operation): requests of a scope exclude each other and its clearing; a
      Sign request is sent only after its act was frozen and durably marked, and
      a retry repeats it; nothing else of an unresolved scope reaches the
      server; settled cohorts are free.  [CohortSamples] has the concrete
      packages and server of the witnesses.  [CohortTheorems.LostMarker]
      shows two first saves at once that lose a create marker.
    - Documents ([RespondentGuards], [RespondentSources]): each guard accepts
      exactly a shape, the port's type closed and bounded, through the class
      [RespondentGuards.Exact]; such a shape is within the port's type
      ([Schema.sub_sound]) and closed under JSON copies ([Schema.of_type_json]),
      so what the sources serve passes its guard.
    - Sign-in ([OidcTheorems]): however operations, driver events and expiries
      interleave, a token and a claim are those of an admitted, checked session
      of an owner that is not closed, a revision names one session, and one
      mutation of the driver is under way at a time.  An anonymous session is
      used only for the form it was issued for, while it is valid and was not
      cleared ([AnonymousSession]).
    - The native screener ([NativeScreener]): only the operation in force acts,
      in the order in which operations began, and a route is allowed only for
      what the latest completion was accepted for, before its deadline.
    - Definitions ([DefinitionSource]): what is served was read from a payload of
      the server, as published, and one fetch is shared.
    - Surfaces: an admission commits at most once, last, what it checked, and
      only while the host wants it, whatever its calls answer ([Admission]);
      the acquisition of a bundle stays within the configured origins, size,
      time and redirects ([BundleSource]); the validator of public apps accepts
      exactly one described shape of app ([PublicApp]); both receipt
      stores keep one contract ([ReceiptStore]).
    - Stores: the browser's metadata store keeps its contract
      ([ScopedMetadata]); the in-memory drafts are a map of keys
      ([DraftStore]); uploads are kept and read back, in chunks that cover the
      blob ([AttachmentTheorems]); base64 is decoded exactly ([Base64]).
    - A cleared public terminal has none of the drafts of its respondent and
      parties left, and all others ([PublicTerminal]).
    - The safe-address check passes exactly the responses it should
      ([SafeAddress]); a ledger run returns only when it was anchored
      ([ActionLedger]).

    ** Not modelled

    - The runtimes of src/src/app/ (the .tsx files): React components, their
      effects and the document.  The decisions they call are modelled from
      respondent-flow.ts, the routes and the callbacks.
    - The native package host (src/src/shared/native-package-signing-host.ts and
      the native-* files around it, src/src/composition/native-package-loader.ts):
      every step is a call of the form engine and of the surface packages, on
      objects of theirs whose code is not in the repository; the controller it
      drives is modelled.
    - Verification proper (src/src/adapters/integrity/, schema/, source-proof/):
      calls of schema validators, COSE and hash packages, which are parameters
      where their answers are used.
    - The remaining adapters: hydration, proof and screener readers, workers,
      attachments over HTTP, magic links; each decodes the reply of one request.
    - The adapter conformance suites, demo data, theming, generated code, the
      scripts of the repository and the photo inspection package.
    - Of the modelled HTTP adapters: abort signals, timeouts and byte limits of
      the JSON client, [initializeDraft], the application-lifecycle member of the
      cohort and the console diagnostics of a failed save.  Of the OIDC session:
      the making of its driver and its listeners.  Of the configuration: objects
      with accessors. *)

From stdpp Require Export base gmap strings list pretty sorting.
From Stdlib Require Export Lia ZArith.

(** ** Outcomes: a JavaScript computation returns a value or throws *)

Inductive outcome (E A : Type) : Type :=
  | Returns (a : A)
  | Throws (e : E).
Arguments Returns {E A} a.
Arguments Throws {E A} e.

#[export] Instance outcome_eq_dec `{EqDecision E, EqDecision A} :
  EqDecision (outcome E A).
Proof. solve_decision. Defined.

#[export] Instance outcome_ret {E} : MRet (outcome E) := λ A a, Returns a.

#[export] Instance outcome_bind {E} : MBind (outcome E) := λ A B f m,
  match m with Returns a => f a | Throws e => Throws e end.

#[export] Instance outcome_fmap {E} : FMap (outcome E) := λ A B f m,
  match m with Returns a => Returns (f a) | Throws e => Throws e end.

(** [if (b) throw e;] *)
Definition throw_when {E} (b : bool) (e : E) : outcome E unit :=
  if b then Throws e else Returns ().

(** [for (const x of l) f(x);] where the body only checks. *)
Fixpoint for_each {E A} (f : A → outcome E unit) (l : list A) : outcome E unit :=
  match l with
  | [] => Returns ()
  | x :: l' => f x ≫= λ _, for_each f l'
  end.

(** [for (const x of l) s = f(s, x);] *)
Fixpoint fold_each {E S A} (f : S → A → outcome E S) (s : S) (l : list A) : outcome E S :=
  match l with
  | [] => Returns s
  | x :: l' => f s x ≫= λ s', fold_each f s' l'
  end.

(** [l.map(f)] where [f] may throw; the first throw wins. *)
Fixpoint map_each {E A B} (f : A → outcome E B) (l : list A) : outcome E (list B) :=
  match l with
  | [] => Returns []
  | x :: l' => f x ≫= λ y, map_each f l' ≫= λ ys, Returns (y :: ys)
  end.

Section bind_lemmas.
Context {E A B : Type}.
Implicit Types (m : outcome E A) (e : E).

Lemma bind_Returns m (f : A → outcome E B) b :
  m ≫= f = Returns b ↔ ∃ a, m = Returns a ∧ f a = Returns b.
Proof. destruct m; simpl; naive_solver. Qed.

Lemma bind_Throws m (f : A → outcome E B) e :
  m ≫= f = Throws e ↔ m = Throws e ∨ ∃ a, m = Returns a ∧ f a = Throws e.
Proof. destruct m; simpl; naive_solver. Qed.

End bind_lemmas.

Lemma bind_ok {E A B} (m : outcome E A) (f : A → outcome E B) a : m = Returns a → m ≫= f = f a.
Proof. by intros ->. Qed.

Lemma bind_fails {E A B} (m : outcome E A) (f : A → outcome E B) e : m = Throws e → m ≫= f = Throws e.
Proof. by intros ->. Qed.

Lemma seq_Returns {E B} (m : outcome E unit) (k : outcome E B) b :
  (m ;; k) = Returns b ↔ m = Returns () ∧ k = Returns b.
Proof. destruct m as [[]|]; simpl; naive_solver. Qed.

Section loop_lemmas.
Context {E A B : Type}.
Implicit Types (e : E).

Lemma throw_when_Returns (b : bool) e u : throw_when b e = Returns u ↔ b = false.
Proof. destruct b, u; simpl; naive_solver. Qed.

Lemma throw_when_Throws (b : bool) e e' : throw_when b e = Throws e' ↔ b = true ∧ e' = e.
Proof. destruct b; simpl; naive_solver. Qed.

Lemma for_each_Returns (f : A → outcome E unit) l u :
  for_each f l = Returns u ↔ Forall (λ x, f x = Returns ()) l.
Proof.
  destruct u. induction l as [|x l IH]; simpl; [by split|].
  rewrite bind_Returns, Forall_cons. setoid_rewrite IH. split.
  - intros ([] & ? & ?); done.
  - intros [? ?]; by exists ().
Qed.

Lemma for_each_Throws (f : A → outcome E unit) l e :
  for_each f l = Throws e ↔
  ∃ l1 x l2, l = l1 ++ x :: l2 ∧ Forall (λ y, f y = Returns ()) l1 ∧ f x = Throws e.
Proof.
  induction l as [|x l IH]; simpl.
  - split; [done|]. intros (l1 & y & l2 & Heq & _). by destruct l1.
  - rewrite bind_Throws. split.
    + intros [Hx | ([] & Hx & Hl)].
      * exists [], x, l; eauto.
      * apply IH in Hl as (l1 & y & l2 & -> & ? & ?). exists (x :: l1), y, l2; eauto.
    + intros ([|z l1] & y & l2 & Heq & Hall & Hy); simplify_eq/=; [by left|].
      apply Forall_cons in Hall as [Hz Hall]. right. exists (). split; [done|].
      apply IH. by exists l1, y, l2.
Qed.

Lemma map_each_Returns (f : A → outcome E B) l k :
  map_each f l = Returns k ↔ Forall2 (λ x y, f x = Returns y) l k.
Proof.
  revert k; induction l as [|x l IH]; intros k; simpl.
  - split; [intros [= <-]; constructor|]. by intros ->%Forall2_nil_inv_l.
  - rewrite bind_Returns. split.
    + intros (y & Hy & (ys & Hys & [= <-])%bind_Returns). constructor; [done|]. by apply IH.
    + intros (y & ys & Hy & Hys & ->)%Forall2_cons_inv_l. exists y. split; [done|].
      apply bind_Returns. exists ys. split; [by apply IH|done].
Qed.
End loop_lemmas.

Lemma fold_each_app {E S A} (f : S → A → outcome E S) s l1 l2 :
  fold_each f s (l1 ++ l2) = fold_each f s l1 ≫= λ s', fold_each f s' l2.
Proof.
  revert s; induction l1 as [|x l1 IH]; intros s; simpl; [done|].
  by destruct (f s x); simpl.
Qed.

Lemma fold_each_inv {E S A} (P : list A → S → Prop) (f : S → A → outcome E S) s l s' :
  P [] s →
  (∀ l1 x s1 s2, P l1 s1 → f s1 x = Returns s2 → P (l1 ++ [x]) s2) →
  fold_each f s l = Returns s' → P l s'.
Proof.
  intros H0 Hstep. revert s'. induction l as [|x l IH] using rev_ind; intros s' Hl; simpl in *.
  - by simplify_eq.
  - rewrite fold_each_app in Hl. apply bind_Returns in Hl as (s1 & Hs1 & Hx).
    simpl in Hx. apply bind_Returns in Hx as (s2 & Hs2 & [= ->]). eauto.
Qed.

(** Whether a closed computation returned, for evaluation by [vm_compute]. *)
Definition returned {E A} (m : outcome E A) : bool :=
  match m with Returns _ => true | Throws _ => false end.

Lemma returned_Returns {E A} (m : outcome E A) : returned m = true → ∃ a, m = Returns a.
Proof. destruct m; simpl; eauto; done. Qed.

Definition returned_with {E A} (f : A → bool) (m : outcome E A) : bool :=
  match m with Returns a => f a | Throws _ => false end.

Lemma returned_with_Returns {E A} (f : A → bool) (m : outcome E A) :
  returned_with f m = true → ∃ a, m = Returns a ∧ f a = true.
Proof. destruct m; simpl; eauto; done. Qed.

(** ** Booleans as propositions *)

Lemma forallb_Forall {A} (f : A → bool) l :
  forallb f l = true ↔ Forall (λ x, f x = true) l.
Proof.
  rewrite forallb_forall, Forall_forall. setoid_rewrite list_elem_of_In. done.
Qed.

Lemma existsb_Exists {A} (f : A → bool) l :
  existsb f l = true ↔ ∃ x, x ∈ l ∧ f x = true.
Proof. rewrite existsb_exists. setoid_rewrite list_elem_of_In. done. Qed.

Lemma filter_nil_iff {A} (f : A → bool) l :
  List.filter f l = [] ↔ ∀ x, x ∈ l → f x = false.
Proof.
  induction l as [|x l IH]; simpl; [split; [intros _ y []%not_elem_of_nil|done]|].
  setoid_rewrite elem_of_cons. destruct (f x) eqn:E.
  - split; [done|]. intros H. rewrite (H x) in E by auto. done.
  - rewrite IH. split; [intros H y [->|?]; auto | auto].
Qed.

Lemma elem_of_filterb {A} (f : A → bool) l x : x ∈ List.filter f l ↔ x ∈ l ∧ f x = true.
Proof. rewrite !list_elem_of_In. apply filter_In. Qed.

(** [l.filter(x => !f(x)).length === 0] *)
Lemma filter_negb_nil {A} (f : A → bool) l :
  List.filter (λ x, negb (f x)) l = [] ↔ ∀ x, x ∈ l → f x = true.
Proof. rewrite filter_nil_iff. by setoid_rewrite negb_false_iff. Qed.

(** Whether a value is given. *)
Definition isSome {A} (o : option A) : bool := match o with Some _ => true | None => false end.

(** [l.includes(x)] and [new Set(l).has(x)] on strings. *)
Definition str_in (x : string) (l : list string) : bool := bool_decide (x ∈ l).

Lemma str_in_spec x l : str_in x l = true ↔ x ∈ l.
Proof. apply bool_decide_eq_true. Qed.

(** [s.length > 0] *)
Definition nonempty (s : string) : bool := negb (String.eqb s "").

Lemma nonempty_spec s : nonempty s = true ↔ s ≠ "".
Proof. unfold nonempty. rewrite negb_true_iff. apply String.eqb_neq. Qed.

(** The double quote of the source's message templates. *)
Definition dq : string := String (Ascii.ascii_of_nat 34) EmptyString.

(** [s.trim().length === 0]: ECMAScript's white space and line terminators, on
    the bytes of their UTF-8 encoding. *)
Definition space_byte (c : Z) : bool := ((9 <=? c) && (c <=? 13) || (c =? 32))%Z.
Definition space_three (a b c : Z) : bool :=
  ((a =? 225) && (b =? 154) && (c =? 128)
   || (a =? 226) && (b =? 128) && ((128 <=? c) && (c <=? 138) || (c =? 168) || (c =? 169) || (c =? 175))
   || (a =? 226) && (b =? 129) && (c =? 159)
   || (a =? 227) && (b =? 128) && (c =? 128)
   || (a =? 239) && (b =? 187) && (c =? 191))%Z.

Fixpoint blank_bytes (l : list Z) : bool :=
  match l with
  | [] => true
  | a :: l1 =>
      if space_byte a then blank_bytes l1 else
      match l1 with
      | [] => false
      | b :: l2 =>
          if (a =? 194)%Z && (b =? 160)%Z then blank_bytes l2 else
          match l2 with [] => false | c :: l3 => space_three a b c && blank_bytes l3 end
      end
  end.

Definition trim_empty (s : string) : bool :=
  blank_bytes ((λ c, Z.of_nat (Ascii.nat_of_ascii c)) <$> String.list_ascii_of_string s).

(** [s.startsWith(p)] *)
Fixpoint starts_with (p s : string) : bool :=
  match p, s with
  | EmptyString, _ => true
  | String a p', String b s' => bool_decide (a = b) && starts_with p' s'
  | String _ _, EmptyString => false
  end.

Lemma starts_with_spec p s : starts_with p s = true ↔ ∃ r, s = p +:+ r.
Proof.
  revert s; induction p as [|a p IH]; intros s; simpl; [split; [by exists s | done]|].
  destruct s as [|b s]; simpl; [by split; [|intros [? ?]]|].
  rewrite andb_true_iff, bool_decide_eq_true, IH. split.
  - intros [-> [r ->]]. by exists r.
  - intros [r [= -> ->]]. split; [done|by exists r].
Qed.

(** ** Automation

    [outcome_inv] opens every successful bind, check and loop of the
    context; [split_andb] opens boolean conjunctions. *)

Create Rewrite HintDb outcome.
#[export] Hint Rewrite @bind_Returns @throw_when_Returns @for_each_Returns
  @map_each_Returns : outcome.

Ltac outcome_step :=
  match goal with
  | H : Returns _ = Returns _ |- _ => injection H as H
  | H : Throws _ = Throws _ |- _ => injection H as H
  | H : Returns _ = Throws _ |- _ => discriminate H
  | H : Throws _ = Returns _ |- _ => discriminate H
  | H : mbind _ _ = Returns _ |- _ => apply bind_Returns in H as (? & ? & ?)
  | H : throw_when _ _ = Returns _ |- _ => apply throw_when_Returns in H
  | H : throw_when _ _ = Throws _ |- _ => apply throw_when_Throws in H as [? ?]
  | H : for_each _ _ = Returns _ |- _ => apply for_each_Returns in H
  | H : map_each _ _ = Returns _ |- _ => apply map_each_Returns in H
  | H : mret _ = Returns _ |- _ => injection H as H
  | u : unit |- _ => destruct u
  end.

(** Opens every successful option bind of the context. *)
Ltac option_inv :=
  repeat (match goal with
  | H : mbind _ _ = Some _ |- _ => apply bind_Some in H as (? & ? & ?)
  | H : fmap _ _ = Some _ |- _ => apply fmap_Some in H as (? & ? & ?)
  end; simplify_eq/=).

Ltac outcome_inv := repeat (outcome_step; simplify_eq/=).

Ltac split_andb :=
  repeat match goal with
  | H : _ && _ = true |- _ => apply andb_true_iff in H as [? ?]
  | H : _ || _ = false |- _ => apply orb_false_iff in H as [? ?]
  | H : negb _ = true |- _ => apply negb_true_iff in H
  | H : negb _ = false |- _ => apply negb_false_iff in H
  | H : bool_decide _ = true |- _ => apply bool_decide_eq_true in H
  | H : bool_decide _ = false |- _ => apply bool_decide_eq_false in H
  | H : String.eqb _ _ = true |- _ => apply String.eqb_eq in H
  | H : String.eqb _ _ = false |- _ => apply String.eqb_neq in H
  end.
