(* ===== verification/Async.v ===== *)
(** * Asynchronous programs

    JavaScript runs one turn at a time: an async function runs without
    interruption up to its next [await], and resumes in a later turn, in any
    order with the others, with whatever the awaited call settled to.  A program
    is a tree of reads and writes of a shared state and of external calls; the
    calls that yield end the turn.  [step] is one turn of one thread.  The
    verification conditions of a program against what the others may do in
    between are in [AsyncTokens]; here are termination, progress,
    and the run of a program that is not interrupted. *)

From S2P Require Import Prelude.

(** ** Programs *)

Section programs.
Context {C F : Type} {call : Type → Type}.

Inductive async (A : Type) : Type :=
  | Done (o : outcome F A)
  | Get (k : C → async A)
  | Put (c : C) (k : async A)
  | Ext {X : Type} (q : call X) (k : outcome F X → async A).

Arguments Done {A} _.
Arguments Get {A} _.
Arguments Put {A} _ _.
Arguments Ext {A X} _ _.

Fixpoint async_bind {A B} (m : async A) (f : A → async B) : async B :=
  match m with
  | Done (Returns a) => f a
  | Done (Throws e) => Done (Throws e)
  | Get k => Get (λ c, async_bind (k c) f)
  | Put c k => Put c (async_bind k f)
  | Ext q k => Ext q (λ a, async_bind (k a) f)
  end.

(** [try { m } catch (e) { f(e) }], and the same for a returned value. *)
Fixpoint settle {A B} (m : async A) (f : outcome F A → async B) : async B :=
  match m with
  | Done o => f o
  | Get k => Get (λ c, settle (k c) f)
  | Put c k => Put c (settle k f)
  | Ext q k => Ext q (λ a, settle (k a) f)
  end.

Definition of_outcome {A} (o : outcome F A) : async A := Done o.
Definition refuse {A} (e : F) : async A := Done (Throws e).
Definition get : async C := Get (λ c, Done (Returns c)).
Definition modify (f : C → C) : async unit := Get (λ c, Put (f c) (Done (Returns ()))).
Definition invoke {X} (q : call X) : async X := Ext q (λ o, Done o).
Definition refuse_when (b : bool) (e : F) : async unit := Done (throw_when b e).
End programs.

Arguments async C F call A : clear implicits.
Arguments Done {C F call A} _.
Arguments Get {C F call A} _.
Arguments Put {C F call A} _ _.
Arguments Ext {C F call A X} _ _.

#[export] Instance async_ret {C F call} : MRet (async C F call) := λ A a, Done (Returns a).
#[export] Instance async_mbind {C F call} : MBind (async C F call) := λ A B f m, async_bind m f.

#[export] Instance async_fmap {C F call} : FMap (async C F call) :=
  λ A B f m, async_bind m (λ a, Done (Returns (f a))).

(** [try { m } finally { f }] where the clean-up does not throw. *)
Definition finally {C F call A} (m : async C F call A) (f : C → C) : async C F call A :=
  settle m (λ o, modify f ;; Done o).

(** ** Threads and turns *)

Section turns.
Context {C F : Type} {call : Type → Type} {Ev : Type}.
Context (yields : ∀ X, call X → bool).
Context (answers : ∀ X, call X → outcome F X → C → Prop).
Context (observe : ∀ X, call X → C → list Ev).

Inductive thread (R : Type) : Type :=
  | Finished (o : outcome F R)
  | Waiting {X : Type} (q : call X) (k : outcome F X → async C F call R).

Arguments Finished {R} _.
Arguments Waiting {R X} _ _.

(** One turn: the events are the external calls made in it. *)
Inductive runs {R} : async C F call R → C → thread R → C → list Ev → Prop :=
  | run_done o c : runs (Done o) c (Finished o) c []
  | run_get k c t c' l : runs (k c) c t c' l → runs (Get k) c t c' l
  | run_put c1 k c t c' l : runs k c1 t c' l → runs (Put c1 k) c t c' l
  | run_ask X (q : call X) k c a t c' l :
      yields X q = false → answers X q a c → runs (k a) c t c' l → runs (Ext q k) c t c' (observe X q c ++ l)
  | run_wait X (q : call X) k c :
      yields X q = true → runs (Ext q k) c (Waiting q k) c (observe X q c).

Record world (R : Type) : Type := {
  shared : C;
  threads : N → option (thread R);
  events : list Ev
}.

Arguments shared {R} _.
Arguments threads {R} _.
Arguments events {R} _.

Definition set_thread {R} (ts : N → option (thread R)) (i : N) (t : thread R) : N → option (thread R) :=
  λ j, if decide (i = j) then Some t else ts j.

(** A new call of an entry point, or a thread whose awaited call settled. *)
Inductive step {R} (entries : async C F call R → Prop) (w : world R) : world R → Prop :=
  | step_spawn i m t c l : threads w i = None → entries m → runs m (shared w) t c l →
      step entries w {| shared := c; threads := set_thread (threads w) i t; events := events w ++ l |}
  | step_resume i X (q : call X) k a t c l : threads w i = Some (Waiting q k) → answers X q a (shared w) →
      runs (k a) (shared w) t c l →
      step entries w {| shared := c; threads := set_thread (threads w) i t; events := events w ++ l |}.

Definition initial {R} (c : C) : world R := {| shared := c; threads := λ _, None; events := [] |}.

Definition reachable {R} (entries : async C F call R → Prop) (c : C) : world R → Prop :=
  rtc (step entries) (initial c).
End turns.

Arguments Finished {C F call R} _.
Arguments Waiting {C F call R X} _ _.
Arguments shared {C F call Ev R} _.
Arguments threads {C F call Ev R} _.
Arguments events {C F call Ev R} _.

(** ** Termination

    A program is a finite tree, so a thread resumes finitely often, and turns
    that start nothing new come to an end. *)

Section termination.
Context {C F : Type} {call : Type → Type} {Ev R : Type}.
Context (yields : ∀ X, call X → bool).
Context (answers : ∀ X, call X → outcome F X → C → Prop).
Context (observe : ∀ X, call X → C → list Ev).

Abbreviation thread := (thread (C := C) (F := F) (call := call) R).
Abbreviation runs := (runs yields answers observe).
Abbreviation world := (world (C := C) (F := F) (call := call) (Ev := Ev) R).

(** [t'] is what a turn of [t] leaves. *)
Definition resumes (t' t : thread) : Prop :=
  match t with
  | Finished _ => False
  | Waiting q k => ∃ a c c' l, runs (k a) c t' c' l
  end.

Fixpoint resumable (m : async C F call R) : Prop :=
  match m with
  | Done _ => True
  | Get k => ∀ c, resumable (k c)
  | Put _ k => resumable k
  | Ext q k => (∀ a, resumable (k a)) ∧ Acc resumes (Waiting q k)
  end.

Lemma runs_Acc m c t c' l : resumable m → runs m c t c' l → Acc resumes t.
Proof.
  intros Hm Hrun. revert Hm. induction Hrun as [o c|k c t c' l _ IH|c1 k c t c' l _ IH|X q k c a t c' l Hy Ha _ IH|X q k c Hy];
    simpl; intros Hm; [by split|auto|auto| |apply Hm]. apply IH, Hm.
Qed.

Lemma all_resumable m : resumable m.
Proof.
  induction m as [o|k IH|c k IH|X q k IH]; simpl; [done|done|done|]. split; [done|].
  split. simpl. intros t' (a & c & c' & l & Hrun). by eapply runs_Acc.
Qed.

Lemma run_Acc m c t c' l : runs m c t c' l → Acc resumes t.
Proof. apply runs_Acc, all_resumable. Qed.

(** One thread of many takes a turn. *)
Definition one_resumes (ts' ts : N → option thread) : Prop :=
  ∃ i t t', ts i = Some t ∧ resumes t' t ∧ ∀ j, ts' j = set_thread ts i t' j.

Definition without (i : N) (ts : N → option thread) : N → option thread := λ j, if decide (i = j) then None else ts j.

Lemma one_resumes_other i ts ts' : one_resumes ts' ts →
  (ts' i = ts i ∧ one_resumes (without i ts') (without i ts)) ∨
  (∃ t t', ts i = Some t ∧ ts' i = Some t' ∧ resumes t' t ∧ ∀ j, without i ts' j = without i ts j).
Proof.
  intros (k & t & t' & Ht & Hr & Hts). unfold set_thread in Hts. destruct (decide (k = i)) as [->|Hk].
  - right. exists t, t'. split; [done|]. split; [by rewrite Hts, decide_True|]. split; [done|].
    intros j. unfold without. destruct (decide (i = j)); [done|]. by rewrite Hts, decide_False.
  - left. split; [by rewrite Hts, decide_False|]. exists k, t, t'. unfold without, set_thread.
    split; [by rewrite decide_False|]. split; [done|]. intros j. rewrite Hts.
    destruct (decide (i = j)), (decide (k = j)); congruence.
Qed.

Lemma one_resumes_ext ts1 ts2 : (∀ j, ts1 j = ts2 j) → Acc one_resumes ts1 → Acc one_resumes ts2.
Proof.
  intros He Hacc. split. intros ts' (i & t & t' & Ht & Hr & Hts). apply Hacc. exists i, t, t'.
  split; [by rewrite He|]. split; [done|]. intros j. rewrite Hts. unfold set_thread. by rewrite He.
Qed.

Lemma Acc_insert i ts0 : Acc one_resumes ts0 → ∀ t ts, Acc resumes t → ts i = Some t →
  (∀ j, without i ts j = ts0 j) → Acc one_resumes ts.
Proof.
  induction 1 as [ts0 Hacc0 IH0]. intros t ts Ht. revert ts.
  induction Ht as [t Ht IHt]. intros ts Hi Hw. split. intros ts' Hs.
  destruct (one_resumes_other i ts ts' Hs) as [[He Hs']|(t1 & t' & Ht1 & Ht' & Hr & He)].
  - destruct Hs' as (k & u & u' & Hu & Hr & Hts). apply (IH0 (without i ts')) with t; [|exact (Acc_intro t Ht)|congruence|done].
    exists k, u, u'. split; [by rewrite <- Hw|]. split; [done|]. intros j. rewrite Hts. unfold set_thread. by rewrite Hw.
  - apply (IHt t'); [congruence|done|]. intros j. by rewrite He.
Qed.

Lemma Acc_threads (ids : list N) ts :
  (∀ i, i ∉ ids → ts i = None) → (∀ i t, ts i = Some t → Acc resumes t) → Acc one_resumes ts.
Proof.
  revert ts. induction ids as [|i ids IH]; intros ts Hn Ha.
  - split. intros ts' (i & t & _ & Ht & _). rewrite Hn in Ht; [done|apply not_elem_of_nil].
  - assert (Acc one_resumes (without i ts)) as Hw.
    { apply IH; unfold without.
      - intros j Hj. destruct (decide (i = j)); [done|]. apply Hn. rewrite not_elem_of_cons. split; [done|done].
      - intros j t. destruct (decide (i = j)); [done|]. apply Ha. }
    destruct (ts i) as [t|] eqn:Et; [by apply (Acc_insert i _ Hw t); [apply (Ha i)|done|done]|].
    apply one_resumes_ext with (without i ts); [|done]. intros j. unfold without. by destruct (decide (i = j)) as [<-|].
Qed.

(** A turn of a thread already there: nothing is started. *)
Definition settles (w' w : world) : Prop := step yields answers observe (λ _, False) w w'.

Record bounded (w : world) : Prop := {
  bd_support : ∃ ids : list N, ∀ i, i ∉ ids → threads w i = None;
  bd_threads i t : threads w i = Some t → Acc resumes t
}.

Lemma settles_resumes w w' : settles w' w → one_resumes (threads w') (threads w).
Proof.
  intros [i m t c l _ [] _|i X q k a t c l Hi Ha Hrun]. exists i, (Waiting q k), t. split; [done|].
  split; [|done]. by exists a, (shared w), c, l.
Qed.

Lemma Acc_settles ts : Acc one_resumes ts → ∀ w, threads w = ts → Acc settles w.
Proof.
  induction 1 as [ts _ IH]. intros w <-. split. intros w' Hs. by apply (IH (threads w') (settles_resumes _ _ Hs)).
Qed.

Lemma bounded_initial c : bounded (initial c).
Proof. split; [by exists []|done]. Qed.

Lemma bounded_step entries w w' : bounded w → step yields answers observe entries w w' → bounded w'.
Proof.
  intros [[ids Hn] Ha] Hs.
  assert (∃ i t, (∃ m c c' l, runs m c t c' l) ∧ threads w' = set_thread (threads w) i t) as (i & t & (m & c & c' & l & Hr) & E).
  { destruct Hs as [i m t c l _ _ Hrun|i X q k a t c l _ _ Hrun]; exists i, t; (split; [by eexists _, _, _, _|done]). }
  split; rewrite E; unfold set_thread.
  - exists (i :: ids). intros j. rewrite not_elem_of_cons. intros [Hj Hjs]. rewrite decide_False by done. by apply Hn.
  - intros j t'. destruct (decide (i = j)) as [<-|]; [intros [= <-]; by eapply run_Acc|apply Ha].
Qed.

(** From any reachable world, only finitely many turns can be taken without
    starting something new. *)
Theorem reachable_settles entries c w : reachable yields answers observe entries c w → Acc settles w.
Proof.
  intros Hw. assert (bounded w) as [[ids Hn] Ha].
  { pose proof (bounded_initial c) as Hb. unfold reachable in Hw. induction Hw as [w|w1 w2 w3 Hs _ IH]; [done|].
    apply IH. by eapply bounded_step. }
  by eapply Acc_settles; [eapply Acc_threads|].
Qed.
End termination.

(** A turn can be taken whenever an awaited call has an answer. *)
Section progress.
Context {C F : Type} {call : Type → Type} {Ev R : Type}.
Context (yields : ∀ X, call X → bool).
Context (answers : ∀ X, call X → outcome F X → C → Prop).
Context (observe : ∀ X, call X → C → list Ev).
Hypothesis (at_once : ∀ X (q : call X) c, yields X q = false → ∃ a, answers X q a c).

Lemma runs_total (m : async C F call R) c : ∃ t c' l, runs yields answers observe m c t c' l.
Proof.
  revert c. induction m as [o|k IH|c1 k IH|X q k IH]; intros c.
  - eexists _, _, _. constructor.
  - destruct (IH c c) as (t & c' & l & Hr). eexists _, _, _. by constructor.
  - destruct (IH c1) as (t & c' & l & Hr). eexists _, _, _. by constructor.
  - destruct (yields X q) eqn:E; [eexists _, _, _; by apply run_wait|].
    destruct (at_once X q c E) as [a Ha]. destruct (IH a c) as (t & c' & l & Hr). eexists _, _, _. by eapply run_ask.
Qed.

Lemma answered_settles (w : world (C := C) (F := F) (call := call) (Ev := Ev) R) i X (q : call X) k a :
  threads w i = Some (Waiting q k) → answers X q a (shared w) → ∃ w', settles yields answers observe w' w.
Proof.
  intros Hi Ha. destruct (runs_total (k a) (shared w)) as (t & c & l & Hr). eexists. by eapply step_resume.
Qed.
End progress.

(** ** Running alone

    A program run to its end with no other operation in between is a function,
    given what its calls answer; it is one of the interleavings. *)

Section alone.
Context {C F : Type} {call : Type → Type} {Ev R : Type}.
Context (yields : ∀ X, call X → bool).
Context (answers : ∀ X, call X → outcome F X → C → Prop).
Context (observe : ∀ X, call X → C → list Ev).
Context (ans : ∀ X, call X → C → option (outcome F X)).

Fixpoint alone {A} (m : async C F call A) (c : C) : option (outcome F A * C) :=
  match m with
  | Done o => Some (o, c)
  | Get k => alone (k c) c
  | Put c' k => alone k c'
  | Ext q k => match ans _ q c with Some a => alone (k a) c | None => None end
  end.

(** What it lets others observe. *)
Fixpoint alone_log {A} (m : async C F call A) (c : C) : list Ev :=
  match m with
  | Done _ => []
  | Get k => alone_log (k c) c
  | Put c' k => alone_log k c'
  | Ext q k => observe _ q c ++ match ans _ q c with Some a => alone_log (k a) c | None => [] end
  end.

Hypothesis (ans_answers : ∀ X (q : call X) c a, ans X q c = Some a → answers X q a c).

Abbreviation world := (world (C := C) (F := F) (call := call) (Ev := Ev) R).
Abbreviation thread := (thread (C := C) (F := F) (call := call) R).

(** What the rest of a thread gives when it runs alone. *)
Definition alone_thread (t : thread) (c : C) : option (outcome F R * C) :=
  match t with
  | Finished o => Some (o, c)
  | Waiting q k => match ans _ q c with Some a => alone (k a) c | None => None end
  end.

Definition thread_log (t : thread) (c : C) : list Ev :=
  match t with
  | Finished _ => []
  | Waiting q k => match ans _ q c with Some a => alone_log (k a) c | None => [] end
  end.

Lemma alone_turn (m : async C F call R) c r :
  alone m c = Some r → ∃ t c' l, runs yields answers observe m c t c' l ∧ alone_thread t c' = Some r ∧
    l ++ thread_log t c' = alone_log m c.
Proof.
  revert c. induction m as [o|k IH|c1 k IH|X q k IH]; intros c Hr; simpl in Hr.
  - eexists _, _, _. split; [constructor|done].
  - destruct (IH c c Hr) as (t & c' & l & Hrun & He). eexists _, _, _. split; [by constructor|done].
  - destruct (IH c1 Hr) as (t & c' & l & Hrun & He). eexists _, _, _. split; [by constructor|done].
  - destruct (yields X q) eqn:E; [eexists _, _, _; split; [by apply run_wait|done]|].
    destruct (ans X q c) as [a|] eqn:Ea; [|done]. destruct (IH a c Hr) as (t & c' & l & Hrun & He & El).
    eexists _, _, _. split; [eapply run_ask; eauto|]. split; [done|]. simpl. by rewrite Ea, <- El, app_assoc.
Qed.

(** The world a thread running alone leads to. *)
Definition leads (entries : async C F call R → Prop) (w : world) (i : N) (r : outcome F R * C) (l : list Ev) (w' : world) : Prop :=
  rtc (step yields answers observe entries) w w' ∧ threads w' i = Some (Finished r.1) ∧ shared w' = r.2 ∧
  events w' = events w ++ l ∧ ∀ j, j ≠ i → threads w' j = threads w j.

Lemma leads_step entries w i t c l r l' w' :
  step yields answers observe entries w {| shared := c; threads := set_thread (threads w) i t; events := events w ++ l |} →
  leads entries {| shared := c; threads := set_thread (threads w) i t; events := events w ++ l |} i r l' w' →
  leads entries w i r (l ++ l') w'.
Proof.
  intros Hs (Hw' & Ht' & Hc' & He' & Ho'). split; [by eapply rtc_l|]. split; [done|]. split; [done|]. simpl in He'.
  split; [by rewrite He', app_assoc|].
  intros j Hj. rewrite Ho' by done. simpl. unfold set_thread. by rewrite decide_False.
Qed.

Lemma alone_settles entries t : Acc (resumes yields answers observe) t → ∀ (w : world) i r,
  threads w i = Some t → alone_thread t (shared w) = Some r → ∃ w', leads entries w i r (thread_log t (shared w)) w'.
Proof.
  induction 1 as [t _ IH]. intros w i r Hi Hr. destruct t as [o|X q k]; simpl in Hr.
  - injection Hr as <-. exists w. split; [done|]. split; [done|]. split; [done|]. split; [|done]. simpl. by rewrite app_nil_r.
  - destruct (ans X q (shared w)) as [a|] eqn:Ea; [|done].
    destruct (alone_turn _ _ _ Hr) as (t & c & l & Hrun & He & El).
    destruct (IH t) with (w := {| shared := c; threads := set_thread (threads w) i t; events := events w ++ l |}) (i := i) (r := r)
      as (w' & Hw').
    { by eexists _, _, _, _. }
    { simpl. unfold set_thread. by rewrite decide_True. }
    { done. }
    exists w'. simpl. rewrite Ea, <- El. eapply leads_step; [|done]. eapply step_resume; [done|by apply ans_answers|done].
Qed.

(** An entry point called in a world, and run to its end. *)
Lemma alone_reachable (entries : async C F call R → Prop) m (w : world) i r :
  entries m → threads w i = None → alone m (shared w) = Some r → ∃ w', leads entries w i r (alone_log m (shared w)) w'.
Proof.
  intros Hm Hi Hr. destruct (alone_turn _ _ _ Hr) as (t & c & l & Hrun & He & El).
  destruct (alone_settles entries t) with (w := {| shared := c; threads := set_thread (threads w) i t; events := events w ++ l |}) (i := i) (r := r)
    as (w' & Hw').
  - by eapply run_Acc.
  - simpl. unfold set_thread. by rewrite decide_True.
  - done.
  - exists w'. rewrite <- El. eapply leads_step; [|done]. by eapply step_spawn.
Qed.

Definition after {A B} (l : list Ev) (r : option (A * B * list Ev)) : option (A * B * list Ev) :=
  match r with Some (t, c, l') => Some (t, c, l ++ l') | None => None end.

(** A run under a given schedule: a new call, or the next turn of a waiting
    thread; the threads are numbered in the order of their calls. *)
Fixpoint turn (m : async C F call R) (c : C) : option (thread * C * list Ev) :=
  match m with
  | Done o => Some (Finished o, c, [])
  | Get k => turn (k c) c
  | Put c' k => turn k c'
  | Ext q k =>
      if yields _ q then Some (Waiting q k, c, observe _ q c)
      else match ans _ q c with
           | Some a => after (observe _ q c) (turn (k a) c)
           | None => None
           end
  end.

Fixpoint play (schedule : list (async C F call R + nat)) (ts : list thread) (c : C) : option (list thread * C * list Ev) :=
  match schedule with
  | [] => Some (ts, c, [])
  | inl m :: rest => match turn m c with Some (t, c', l) => after l (play rest (ts ++ [t]) c') | None => None end
  | inr i :: rest =>
      match ts !! i with
      | Some (Waiting q k) =>
          match ans _ q c with
          | Some a => match turn (k a) c with Some (t, c', l) => after l (play rest (<[i := t]> ts) c') | None => None end
          | None => None
          end
      | _ => None
      end
  end.

Lemma turn_runs m c t c' l : turn m c = Some (t, c', l) → runs yields answers observe m c t c' l.
Proof.
  revert c l. induction m as [o|k IH|c1 k IH|X q k IH]; intros c l Hr; simpl in Hr.
  - simplify_eq. constructor.
  - constructor. by apply IH.
  - constructor. by apply IH.
  - destruct (yields X q) eqn:E; [simplify_eq; by apply run_wait|].
    destruct (ans X q c) as [a|] eqn:Ea; [|done]. destruct (turn (k a) c) as [[[t0 c0] l0]|] eqn:Et; [|done].
    simpl in Hr. simplify_eq. eapply run_ask; eauto.
Qed.

(** The threads of a world from the number [n] on. *)
Definition holds_threads (n : N) (w : world) (ts : list thread) : Prop := ∀ i, threads w (n + N.of_nat i)%N = ts !! i.

Lemma holds_set n w ts i t c es : holds_threads n w ts → i < length ts →
  holds_threads n {| shared := c; threads := set_thread (threads w) (n + N.of_nat i) t; events := es |} (<[i := t]> ts).
Proof.
  intros Hw Hi j. simpl. unfold set_thread. destruct (decide (i = j)) as [<-|Hne].
  - by rewrite decide_True, list_lookup_insert_eq.
  - rewrite list_lookup_insert_ne, decide_False by (done || lia). apply Hw.
Qed.

Lemma holds_add n w ts t c es : holds_threads n w ts →
  holds_threads n {| shared := c; threads := set_thread (threads w) (n + N.of_nat (length ts)) t; events := es |} (ts ++ [t]).
Proof.
  intros Hw j. simpl. unfold set_thread. destruct (decide (length ts = j)) as [<-|Hne].
  - by rewrite decide_True, list_lookup_middle.
  - rewrite decide_False, Hw by lia. destruct (decide (j < length ts)) as [Hlt|Hge]; [by rewrite lookup_app_l|].
    rewrite (lookup_ge_None_2 ts) by lia. symmetry. apply lookup_ge_None_2. rewrite length_app. simpl. lia.
Qed.

Definition calls_of (schedule : list (async C F call R + nat)) : list (async C F call R) :=
  omap (λ s, match s with inl m => Some m | inr _ => None end) schedule.

Lemma after_Some {A B} l (r : option (A * B * list Ev)) t c l' :
  after l r = Some (t, c, l') → ∃ l0, r = Some (t, c, l0) ∧ l' = l ++ l0.
Proof. destruct r as [[[t0 c0] l0]|]; simpl; [|done]. intros E. simplify_eq. by exists l0. Qed.

Lemma play_reachable (entries : async C F call R → Prop) n schedule : ∀ (w : world) ts ts' c' l',
  Forall entries (calls_of schedule) → holds_threads n w ts → play schedule ts (shared w) = Some (ts', c', l') →
  ∃ w', rtc (step yields answers observe entries) w w' ∧ holds_threads n w' ts' ∧ shared w' = c' ∧ events w' = events w ++ l'.
Proof.
  induction schedule as [|[m|i] rest IH]; intros w ts ts' c' l' Hm Hw Hr; simpl in Hr.
  - simplify_eq. exists w. by rewrite app_nil_r.
  - apply Forall_cons in Hm as [Hm Hrest]. destruct (turn m (shared w)) as [[[t c] l]|] eqn:Et; [|done].
    apply after_Some in Hr as (l0 & Hr & ->).
    destruct (IH {| shared := c; threads := set_thread (threads w) (n + N.of_nat (length ts)) t; events := events w ++ l |} (ts ++ [t]) ts' c' l0)
      as (w' & Hs & Ht & Hc & He); [done|by apply holds_add|done|].
    exists w'. split; [|by rewrite He, app_assoc]. eapply rtc_l; [|done].
    eapply step_spawn; [rewrite Hw; by apply lookup_ge_None_2|done|by apply turn_runs].
  - destruct (ts !! i) as [[o|X q k]|] eqn:Ei; [done| |done].
    destruct (ans X q (shared w)) as [a|] eqn:Ea; [|done]. destruct (turn (k a) (shared w)) as [[[t c] l]|] eqn:Et; [|done].
    apply after_Some in Hr as (l0 & Hr & ->). pose proof (lookup_lt_Some _ _ _ Ei) as Hi.
    destruct (IH {| shared := c; threads := set_thread (threads w) (n + N.of_nat i) t; events := events w ++ l |} (<[i:=t]> ts) ts' c' l0)
      as (w' & Hs & Ht & Hc & He); [done|by apply holds_set|done|].
    exists w'. split; [|by rewrite He, app_assoc]. eapply rtc_l; [|done].
    eapply step_resume; [by rewrite Hw|by apply ans_answers|by apply turn_runs].
Qed.

(** Entry points called one after the other. *)
Fixpoint alone_all (ms : list (async C F call R)) (c : C) : option (list (outcome F R) * C) :=
  match ms with
  | [] => Some ([], c)
  | m :: ms' =>
      match alone m c with
      | Some (o, c') => match alone_all ms' c' with Some (os, c'') => Some (o :: os, c'') | None => None end
      | None => None
      end
  end.

Fixpoint alone_all_log (ms : list (async C F call R)) (c : C) : list Ev :=
  match ms with
  | [] => []
  | m :: ms' => alone_log m c ++ match alone m c with Some (_, c') => alone_all_log ms' c' | None => [] end
  end.

Lemma alone_all_reachable (entries : async C F call R → Prop) ms (w : world) i os c :
  Forall entries ms → (∀ j, (i ≤ j)%N → threads w j = None) → (∀ j t, threads w j = Some t → ∃ o, t = Finished o) →
  alone_all ms (shared w) = Some (os, c) →
  ∃ w', rtc (step yields answers observe entries) w w' ∧ shared w' = c ∧ events w' = events w ++ alone_all_log ms (shared w) ∧
    (∀ j, (i + N.of_nat (length ms) ≤ j)%N → threads w' j = None) ∧
    (∀ j t, threads w' j = Some t → ∃ o, t = Finished o).
Proof.
  revert w i os. induction ms as [|m ms IH]; intros w i os Hms Hfree Hfin Hr; simpl in Hr.
  - injection Hr as <- <-. exists w. split; [done|]. split; [done|]. split; [by rewrite app_nil_r|]. split; [|done].
    intros j Hj. apply Hfree. simpl in Hj. lia.
  - apply Forall_cons in Hms as [Hm Hms]. destruct (alone m (shared w)) as [[o c1]|] eqn:E; [|done].
    destruct (alone_all ms c1) as [[os' c2]|] eqn:E'; [|done]. injection Hr as <- <-.
    destruct (alone_reachable entries m w i (o, c1) Hm (Hfree i (N.le_refl i)) E) as (w1 & Hs1 & Ht1 & Hc1 & He1 & Ho1).
    simpl in Ht1, Hc1. subst c1. destruct (IH w1 (i + 1)%N os' Hms) as (w2 & Hs2 & Hc2 & He2 & Hfree2 & Hfin2).
    + intros j Hj. rewrite Ho1 by lia. apply Hfree. lia.
    + intros j t Hj. destruct (decide (j = i)) as [->|Hne]; [|by apply (Hfin j); rewrite <- (Ho1 j Hne)].
      rewrite Ht1 in Hj. injection Hj as <-. by exists o.
    + done.
    + exists w2. split; [by transitivity w1|]. split; [done|]. split; [by simpl; rewrite E, He2, He1, app_assoc|]. split; [|done].
      intros j Hj. apply Hfree2. simpl in Hj. lia.
Qed.
End alone.
