(* ===== verification/AsyncTokens.v ===== *)
(** * Async programs with tokens

    [ok] of [Async] for a state with any number of locks.  A lock is a token of
    a type [K]; a thread holds at most one token at a time, a token has at most
    one holder, and the others leave alone what its holder relies on.
    [tokens_reachable_ok] is the soundness of the verification condition; the
    case of one lock ([ok]) is at the end. *)

From S2P Require Import Prelude Async.

Record token_conditions (C K : Type) (call : Type → Type) : Type := {
  tinv : C → Prop;
  tmono : C → C → Prop;
  tlocked : K → C → bool;
  theld : K → C → C → Prop;
  tissue : ∀ X, call X → option K → C → Prop
}.

Arguments tinv {C K call} _ _.
Arguments tmono {C K call} _ _ _.
Arguments tlocked {C K call} _ _ _.
Arguments theld {C K call} _ _ _ _.
Arguments tissue {C K call} _ {X} _ _ _.

Section conditions.
Context {C K F : Type} `{!EqDecision K} {call : Type → Type}.
Context (yields : ∀ X, call X → bool).
Context (answers : ∀ X, call X → outcome F X → C → Prop).
Context (P : token_conditions C K call).

(** What the others do while a thread with the token [h] waits. *)
Definition trely (h : option K) (c c' : C) : Prop :=
  tinv P c' ∧ tmono P c c' ∧ ∀ k, h = Some k → theld P k c c'.

(** What becomes of a token that a thread has before or after a write. *)
Definition token_moves (h h' : option K) (k : K) (c c' : C) : Prop :=
  if decide (h' = Some k) then tlocked P k c' = true ∧ (h ≠ Some k → tlocked P k c = false)
  else if decide (h = Some k) then tlocked P k c' = false
  else tlocked P k c' = tlocked P k c ∧ (tlocked P k c = true → theld P k c c').

Definition tguarantee (h h' : option K) (c c' : C) : Prop :=
  tinv P c' ∧ tmono P c c' ∧ ∀ k, token_moves h h' k c c'.

Fixpoint tok {A} (m : async C F call A) (h : option K) (c : C) (Q : option K → outcome F A → C → Prop) : Prop :=
  match m with
  | Done o => Q h o c
  | Get k => tok (k c) h c Q
  | Put c' k => ∃ h', tguarantee h h' c c' ∧ tok k h' c' Q
  | Ext q k =>
      tissue P q h c ∧
      ∀ c' a, (if yields _ q then trely h c c' else c' = c) → answers _ q a c' → tok (k a) h c' Q
  end.

Lemma tok_weaken {A} (m : async C F call A) h c (Q Q' : option K → outcome F A → C → Prop) :
  (∀ h o c, Q h o c → Q' h o c) → tok m h c Q → tok m h c Q'.
Proof.
  intros HQ. revert h c. induction m as [o|k IH|c' k IH|X q k IH]; simpl; intros h c.
  - apply HQ.
  - apply IH.
  - intros (h' & Hg & Hk). exists h'. split; [done|by apply IH].
  - intros [Hi Hk]. split; [done|]. intros c' a Hc Ha. by apply IH, Hk.
Qed.

Lemma tok_bind {A B} (m : async C F call A) (f : A → async C F call B) h c Q :
  tok m h c (λ h o c, match o with Returns a => tok (f a) h c Q | Throws e => Q h (Throws e) c end) →
  tok (m ≫= f) h c Q.
Proof.
  revert h c. unfold mbind, async_mbind.
  induction m as [[a|e]|k IH|c' k IH|X q k IH]; simpl; intros h c; [done..|apply IH| |].
  - intros (h' & Hg & Hk). exists h'. split; [done|by apply IH].
  - intros [Hi Hk]. split; [done|]. intros c' a Hc Ha. by apply IH, Hk.
Qed.

Lemma tok_settle {A B} (m : async C F call A) (f : outcome F A → async C F call B) h c Q :
  tok m h c (λ h o c, tok (f o) h c Q) → tok (settle m f) h c Q.
Proof.
  revert h c. induction m as [o|k IH|c' k IH|X q k IH]; simpl; intros h c; [done|apply IH| |].
  - intros (h' & Hg & Hk). exists h'. split; [done|by apply IH].
  - intros [Hi Hk]. split; [done|]. intros c' a Hc Ha. by apply IH, Hk.
Qed.

Record token_conditions_ok : Prop := {
  tmono_preorder : PreOrder (tmono P);
  theld_preorder k : PreOrder (theld P k)
}.

Hypothesis (HP : token_conditions_ok).

#[local] Instance tmono_pre : PreOrder (tmono P) := tmono_preorder HP.
#[local] Instance theld_pre k : PreOrder (theld P k) := theld_preorder HP k.

(** A whole turn, as the other threads see it. *)
Definition tturn (h h' : option K) (c c' : C) : Prop :=
  tinv P c' ∧ tmono P c c' ∧
  (∀ k, h ≠ Some k → tlocked P k c = true → h' ≠ Some k ∧ theld P k c c') ∧
  ∀ k, tlocked P k c' = true ↔ h' = Some k ∨ (h ≠ Some k ∧ tlocked P k c = true).

Definition owns (h : option K) (c : C) : Prop := ∀ k, h = Some k → tlocked P k c = true.

Lemma tturn_refl h c : tinv P c → owns h c → tturn h h c c.
Proof.
  intros Hi Hh. split; [done|]. split; [done|]. split; [by split|].
  intros k. destruct (decide (h = Some k)) as [E|E]; [|tauto].
  pose proof (Hh k E). tauto.
Qed.

Lemma tguarantee_owns h h' c c' : owns h c → tguarantee h h' c c' → owns h' c'.
Proof. intros Hh (_ & _ & Hk) k E. specialize (Hk k). unfold token_moves in Hk. rewrite decide_True in Hk by done. apply Hk. Qed.

Lemma tturn_step h h' h'' c c' c'' :
  owns h c → tguarantee h h' c c' → tturn h' h'' c' c'' → tturn h h'' c c''.
Proof.
  intros Hh (Hi & Hm & Hg) (Hi'' & Hm' & Ho & Ha).
  split; [done|]. split; [by transitivity c'|].
  assert (∀ k, h ≠ Some k → tlocked P k c = true → h' ≠ Some k ∧ tlocked P k c' = true ∧ theld P k c c') as Hother.
  { intros k Hk Hl. specialize (Hg k). unfold token_moves in Hg. case_decide as E.
    - destruct Hg as [_ Hg]. by rewrite Hg in Hl.
    - rewrite decide_False in Hg by done. destruct Hg as [Hg Hd]. rewrite Hg. auto. }
  split.
  - intros k Hk Hl. destruct (Hother k Hk Hl) as (Hk' & Hl' & Hd). destruct (Ho k Hk' Hl') as [Hk'' Hd'].
    split; [done|]. by transitivity c'.
  - intros k. rewrite (Ha k). specialize (Hg k). unfold token_moves in Hg.
    destruct (decide (h' = Some k)) as [E'|E']; [|destruct (decide (h = Some k)) as [E|E]].
    + destruct Hg as [_ Hg]. split; [intros [?|[? _]]; [by left|done]|].
      intros [?|[E Hl]]; [by left|]. by rewrite Hg in Hl.
    + rewrite Hg. split; [intros [?|[_ ?]]; [by left|done]|]. intros [?|[? _]]; [by left|done].
    + destruct Hg as [-> _]. tauto.
Qed.
End conditions.

(** ** Soundness *)

Section soundness.
Context {C K F : Type} `{!EqDecision K} {call : Type → Type} {Ev R : Type}.
Context (yields : ∀ X, call X → bool).
Context (answers : ∀ X, call X → outcome F X → C → Prop).
Context (observe : ∀ X, call X → C → list Ev).
Context (P : token_conditions C K call) (HP : token_conditions_ok P).
Context (recorded : list Ev → C → Prop).
Hypothesis (recorded_mono : ∀ l c c', tinv P c' → tmono P c c' → recorded l c → recorded l c').
Hypothesis (recorded_issue : ∀ X (q : call X) h c l,
  tinv P c → tissue P q h c → owns P h c → recorded l c → recorded (l ++ observe X q c) c).
(** What stays true of a thread while it waits. *)
Context (kept : ∀ X, call X → option K → C → Prop).
Hypothesis (kept_issue : ∀ X (q : call X) h c, tinv P c → tissue P q h c → kept X q h c).
Hypothesis (kept_rely : ∀ X (q : call X) h c c', trely P h c c' → kept X q h c → kept X q h c').

#[local] Instance tmono_pre' : PreOrder (tmono P) := tmono_preorder P HP.
#[local] Instance theld_pre' k : PreOrder (theld P k) := theld_preorder P HP k.

Abbreviation tok := (tok yields answers P).
Abbreviation prog := (async C F call R).

(** A finished thread holds nothing. *)
Definition empty_handed (h : option K) (_ : outcome F R) (_ : C) : Prop := h = None.

Definition tthread_ok (t : thread R) (h : option K) (c : C) : Prop :=
  match t with
  | Finished o => h = None
  | Waiting q k => kept _ q h c ∧
      ∀ c' a, trely P h c c' → answers _ q a c' → tok (k a) h c' empty_handed
  end.

Lemma tthread_ok_rely (t : thread (C := C) (F := F) (call := call) R) h c c' :
  trely P h c c' → tthread_ok t h c → tthread_ok t h c'.
Proof.
  intros (Hi & Hm & Hh). destruct t as [o|X q k]; simpl; [done|]. intros [He Hk].
  split; [by apply (kept_rely _ _ _ c)|].
  intros c'' a (Hi'' & Hm' & Hh') Ha. apply Hk; [|done]. split; [done|]. split; [by transitivity c'|].
  intros k' E. transitivity c'; auto.
Qed.

Lemma runs_tok (m : prog) h c t c' l l0 :
  tinv P c → owns P h c → tok m h c empty_handed → recorded l0 c →
  runs yields answers observe m c t c' l →
  ∃ h', tturn P h h' c c' ∧ tthread_ok t h' c' ∧ recorded (l0 ++ l) c'.
Proof.
  intros Hi Hh Hok Hr Hrun. revert h l0 Hi Hh Hok Hr.
  induction Hrun as [o c|k c t c' l _ IH|c1 k c t c' l _ IH|X q k c a t c' l Hy Ha _ IH|X q k c Hy];
    intros h l0 Hi Hh Hok Hr; simpl in Hok.
  - exists h. split; [by apply tturn_refl|]. split; [done|]. by rewrite app_nil_r.
  - by apply IH.
  - destruct Hok as (h1 & Hg & Hok). pose proof Hg as (Hi1 & Hm1 & Hg1).
    destruct (IH h1 l0 Hi1) as (h' & Ht & Hto & Hr').
    + by eapply tguarantee_owns.
    + done.
    + by apply (recorded_mono l0 c c1).
    + exists h'. split; [by eapply tturn_step|done].
  - destruct Hok as [Hiss Hok]. rewrite Hy in Hok. rewrite app_assoc. apply (IH h (l0 ++ observe X q c)); [done|done| |].
    + by apply Hok.
    + by apply (recorded_issue X q h).
  - destruct Hok as [Hiss Hok]. rewrite Hy in Hok. exists h. split; [by apply tturn_refl|].
    split; [split|].
    + by apply kept_issue.
    + done.
    + by apply (recorded_issue X q h).
Qed.

(** A token has at most one holder, and one when it is taken. *)
Record tworld_ok (w : world (C := C) (F := F) (call := call) (Ev := Ev) R) (H : N → option K) : Prop := {
  two_inv : tinv P (shared w);
  two_threads i t : threads w i = Some t → tthread_ok t (H i) (shared w);
  two_absent i : threads w i = None → H i = None;
  two_unique i j k : H i = Some k → H j = Some k → i = j;
  two_taken k : tlocked P k (shared w) = true ↔ ∃ i, H i = Some k;
  two_recorded : recorded (events w) (shared w)
}.

Lemma tturn_world w H i h' t c l :
  tworld_ok w H → tturn P (H i) h' (shared w) c → tthread_ok t h' c → recorded (events w ++ l) c →
  ∃ H', tworld_ok {| shared := c; threads := set_thread (threads w) i t; events := events w ++ l |} H'.
Proof.
  intros [Hi Ht Habs Huniq Htaken Hrec] (Hi' & Hm & Ho & Ha) Hto Hr.
  exists (λ j, if decide (i = j) then h' else H j).
  assert (∀ j k, i ≠ j → H j = Some k → H i ≠ Some k ∧ tlocked P k (shared w) = true) as Hoth.
  { intros j k Hij Hj. split; [intros E; by apply Hij, (Huniq i j k)|apply Htaken; eauto]. }
  split; unfold set_thread; simpl.
  - done.
  - intros j tj. destruct (decide (i = j)) as [<-|Hij]; [by intros [= <-]|]. intros Hj%Ht.
    apply (tthread_ok_rely _ _ (shared w)); [|done]. split; [done|]. split; [done|].
    intros k Hk. destruct (Hoth j k Hij Hk). by apply Ho.
  - intros j. destruct (decide (i = j)); [done|]. apply Habs.
  - assert (∀ j k, i ≠ j → H j = Some k → h' ≠ Some k) as Hn.
    { intros j k Hij Hj. destruct (Hoth j k Hij Hj) as [H1 H2]. by apply (Ho k). }
    intros j1 j2 k. destruct (decide (i = j1)) as [<-|H1], (decide (i = j2)) as [<-|H2]; intros Hj1 Hj2;
      [done|by destruct (Hn j2 k H2 Hj2)|by destruct (Hn j1 k H1 Hj1)|by apply (Huniq _ _ k)].
  - intros k. rewrite (Ha k). split.
    + intros [E|[E Hl]]; [exists i; by rewrite decide_True|].
      apply Htaken in Hl as [j Hj]. exists j. rewrite decide_False; [done|]. intros ->. done.
    + intros [j Hj]. destruct (decide (i = j)) as [<-|Hij]; [by left|]. right. by eapply Hoth.
  - done.
Qed.

Context (entries : prog → Prop).
Hypothesis (entries_ok : ∀ m c, entries m → tinv P c → tok m None c empty_handed).

Lemma tokens_step_ok w w' H :
  tworld_ok w H → step yields answers observe entries w w' → tmono P (shared w) (shared w') ∧ ∃ H', tworld_ok w' H'.
Proof.
  intros Hw Hs. destruct Hs as [i m t c l Hnone Hm Hrun|i X q k a t c l Hsome Ha Hrun].
  - destruct (runs_tok m (H i) (shared w) t c l (events w)) as (h' & Htu & Hto & Hr); try done.
    + apply Hw.
    + by rewrite (two_absent _ _ Hw i Hnone).
    + rewrite (two_absent _ _ Hw i Hnone). apply entries_ok; [done|apply Hw].
    + apply Hw.
    + split; [apply Htu|by eapply tturn_world].
  - destruct (two_threads _ _ Hw i _ Hsome) as [_ Hk].
    destruct (runs_tok (k a) (H i) (shared w) t c l (events w)) as (h' & Htu & Hto & Hr); try done.
    + apply Hw.
    + intros k' E. apply (two_taken _ _ Hw). eauto.
    + apply Hk; [|done]. split; [apply Hw|]. by split.
    + apply Hw.
    + split; [apply Htu|by eapply tturn_world].
Qed.

Lemma tokens_steps_ok w w' H :
  tworld_ok w H → rtc (step yields answers observe entries) w w' →
  tmono P (shared w) (shared w') ∧ ∃ H', tworld_ok w' H'.
Proof.
  intros Hw Hs. revert H Hw. induction Hs as [w|w1 w2 w3 Hs _ IH]; intros H Hw; [split; [done|by eauto]|].
  destruct (tokens_step_ok _ _ _ Hw Hs) as [Hm [H' Hw']]. destruct (IH _ Hw') as [Hm' Hex].
  split; [by transitivity (shared w2)|done].
Qed.

Theorem tokens_reachable_ok c w :
  tinv P c → (∀ k, tlocked P k c = false) → recorded [] c →
  reachable yields answers observe entries c w → ∃ H, tworld_ok w H.
Proof.
  intros Hi Hl Hr Hw. assert (tworld_ok (initial c) (λ _, None)) as Hinit.
  { split; simpl; try done. intros k. rewrite Hl. split; [done|by intros [? ?]]. }
  by destruct (tokens_steps_ok _ _ _ Hinit Hw) as [_ ?].
Qed.
End soundness.

(** * Async programs with one lock

    The verification condition of [Async] programs whose state has one lock, and
    its soundness, as the case of [AsyncTokens] with a single token: a thread
    may hold the lock, which the others then leave alone. *)

(** ** What a thread may rely on *)

(** The conditions one development puts on its shared state: what always
    holds, what every turn keeps, whether the lock is taken, what a holder may
    rely on, and when a call may be made. *)
Record conditions (C : Type) (call : Type → Type) : Type := {
  inv : C → Prop;
  mono : C → C → Prop;
  locked : C → bool;
  held : C → C → Prop;
  issue : ∀ X, call X → bool → C → Prop
}.

Arguments inv {C call} _ _.
Arguments mono {C call} _ _ _.
Arguments locked {C call} _ _.
Arguments held {C call} _ _ _.
Arguments issue {C call} _ {X} _ _ _.

Section conditions.
Context {C F : Type} {call : Type → Type} {Ev : Type}.
Context (yields : ∀ X, call X → bool).
Context (answers : ∀ X, call X → outcome F X → C → Prop).
Context (P : conditions C call).

(** What the others do while this thread waits, holding the lock or not. *)
Definition rely (h : bool) (c c' : C) : Prop := inv P c' ∧ mono P c c' ∧ (h = true → held P c c').

(** What a write of this thread must keep. *)
Definition guarantee (h h' : bool) (c c' : C) : Prop :=
  inv P c' ∧ mono P c c' ∧
  match h, h' with
  | false, false => (locked P c = true → held P c c') ∧ locked P c' = locked P c
  | false, true => locked P c = false ∧ locked P c' = true
  | true, _ => locked P c' = h'
  end.

Fixpoint ok {A} (m : async C F call A) (h : bool) (c : C) (Q : bool → outcome F A → C → Prop) : Prop :=
  match m with
  | Done o => Q h o c
  | Get k => ok (k c) h c Q
  | Put c' k => ∃ h', guarantee h h' c c' ∧ ok k h' c' Q
  | Ext q k =>
      issue P q h c ∧
      ∀ c' a, (if yields _ q then rely h c c' else c' = c) → answers _ q a c' → ok (k a) h c' Q
  end.

Lemma ok_weaken {A} (m : async C F call A) h c (Q Q' : bool → outcome F A → C → Prop) :
  (∀ h o c, Q h o c → Q' h o c) → ok m h c Q → ok m h c Q'.
Proof.
  intros HQ. revert h c. induction m as [o|k IH|c' k IH|X q k IH]; simpl; intros h c.
  - apply HQ.
  - apply IH.
  - intros (h' & Hg & Hk). exists h'. split; [done|by apply IH].
  - intros [Hi Hk]. split; [done|]. intros c' a Hc Ha. by apply IH, Hk.
Qed.

Lemma ok_bind {A B} (m : async C F call A) (f : A → async C F call B) h c Q :
  ok m h c (λ h o c, match o with Returns a => ok (f a) h c Q | Throws e => Q h (Throws e) c end) →
  ok (m ≫= f) h c Q.
Proof.
  revert h c. unfold mbind, async_mbind.
  induction m as [[a|e]|k IH|c' k IH|X q k IH]; simpl; intros h c; [done..|apply IH| |].
  - intros (h' & Hg & Hk). exists h'. split; [done|by apply IH].
  - intros [Hi Hk]. split; [done|]. intros c' a Hc Ha. by apply IH, Hk.
Qed.

Lemma ok_settle {A B} (m : async C F call A) (f : outcome F A → async C F call B) h c Q :
  ok m h c (λ h o c, ok (f o) h c Q) → ok (settle m f) h c Q.
Proof.
  revert h c. induction m as [o|k IH|c' k IH|X q k IH]; simpl; intros h c; [done|apply IH| |].
  - intros (h' & Hg & Hk). exists h'. split; [done|by apply IH].
  - intros [Hi Hk]. split; [done|]. intros c' a Hc Ha. by apply IH, Hk.
Qed.

(** The conditions fit together: a holder's reliance is kept by whoever does
    not hold the lock, and the reliances compose. *)
Record conditions_ok : Prop := {
  mono_preorder : PreOrder (mono P);
  held_preorder : PreOrder (held P);
  held_locked c c' : held P c c' → locked P c' = locked P c
}.
End conditions.

(** ** As a single token *)

Definition holds (h : option unit) : bool := match h with Some _ => true | None => false end.
Definition token_of (h : bool) : option unit := if h then Some () else None.

Lemma token_of_holds h : token_of (holds h) = h.
Proof. by destruct h as [[]|]. Qed.

Lemma holds_token_of h : holds (token_of h) = h.
Proof. by destruct h. Qed.

Section as_tokens.
Context {C F : Type} {call : Type → Type}.
Context (yields : ∀ X, call X → bool).
Context (answers : ∀ X, call X → outcome F X → C → Prop).
Context (P : conditions C call) (HP : conditions_ok P).

Definition as_tokens : token_conditions C unit call := {|
  tinv := inv P; tmono := mono P; tlocked := λ _, locked P; theld := λ _, held P;
  tissue := λ X q h c, issue P q (holds h) c
|}.

Lemma as_tokens_ok : token_conditions_ok as_tokens.
Proof. split; [apply HP|intros k; apply HP]. Qed.

Lemma rely_tokens h c c' : rely P (holds h) c c' ↔ trely as_tokens h c c'.
Proof.
  unfold rely, trely. simpl. destruct h as [[]|]; simpl; [|naive_solver].
  split; intros (? & ? & Hh); (split; [done|split; [done|]]); [intros _ _; by apply Hh|intros _; by apply (Hh ())].
Qed.

Lemma guarantee_tokens h h' c c' : guarantee P (holds h) (holds h') c c' ↔ tguarantee as_tokens h h' c c'.
Proof.
  unfold guarantee, tguarantee, token_moves. simpl.
  assert (∀ Q : unit → Prop, (∀ k, Q k) ↔ Q ()) as Hunit by (intros Q; split; [auto|by intros ? []]).
  rewrite Hunit. destruct h as [[]|], h' as [[]|]; simpl; repeat case_decide; naive_solver.
Qed.

Lemma ok_tokens {A} (m : async C F call A) h c (Q : bool → outcome F A → C → Prop) :
  ok yields answers P m (holds h) c Q ↔ tok yields answers as_tokens m h c (λ h, Q (holds h)).
Proof.
  revert h c. induction m as [o|k IH|c1 k IH|X q k IH]; simpl; intros h c; [done|done| |].
  - split; intros (h' & Hg & Hk).
    + exists (token_of h'). rewrite <- (holds_token_of h') in Hg, Hk. split; [by apply guarantee_tokens|by apply IH].
    + exists (holds h'). split; [by apply guarantee_tokens|by apply IH].
  - split; intros [Hi Hk]; (split; [done|]); intros c' a Hc Ha; apply IH, Hk; try done;
      destruct (yields X q); try done; by apply rely_tokens.
Qed.
End as_tokens.

(** ** Soundness *)

Section soundness.
Context {C F : Type} {call : Type → Type} {Ev R : Type}.
Context (yields : ∀ X, call X → bool).
Context (answers : ∀ X, call X → outcome F X → C → Prop).
Context (observe : ∀ X, call X → C → list Ev).
Context (P : conditions C call) (HP : conditions_ok P).
Context (recorded : list Ev → C → Prop).
Hypothesis (recorded_mono : ∀ l c c', inv P c' → mono P c c' → recorded l c → recorded l c').
Hypothesis (recorded_issue : ∀ X (q : call X) h c l,
  inv P c → issue P q h c → (h = true → locked P c = true) → recorded l c → recorded (l ++ observe X q c) c).
(** What stays true of a thread while it waits. *)
Context (kept : ∀ X, call X → bool → C → Prop).
Hypothesis (kept_issue : ∀ X (q : call X) h c, inv P c → issue P q h c → kept X q h c).
Hypothesis (kept_rely : ∀ X (q : call X) h c c', rely P h c c' → kept X q h c → kept X q h c').

Abbreviation ok := (ok yields answers P).
Abbreviation prog := (async C F call R).

(** A finished thread does not hold the lock. *)
Definition released (h : bool) (_ : outcome F R) (_ : C) : Prop := h = false.

Definition thread_ok (t : thread R) (h : bool) (c : C) : Prop :=
  match t with
  | Finished o => h = false
  | Waiting q k => kept _ q h c ∧
      ∀ c' a, rely P h c c' → answers _ q a c' → ok (k a) h c' released
  end.

(** At most one thread holds the lock, and someone does when it is taken. *)
Record world_ok (w : world (C := C) (F := F) (call := call) (Ev := Ev) R) (H : N → bool) : Prop := {
  wo_inv : inv P (shared w);
  wo_threads i t : threads w i = Some t → thread_ok t (H i) (shared w);
  wo_absent i : threads w i = None → H i = false;
  wo_unique i j : H i = true → H j = true → i = j;
  wo_taken : locked P (shared w) = true ↔ ∃ i, H i = true;
  wo_recorded : recorded (events w) (shared w)
}.

Definition kept_token (X : Type) (q : call X) (h : option unit) : C → Prop := kept X q (holds h).

Abbreviation tworld_ok := (tworld_ok yields answers (as_tokens P) recorded kept_token).

Lemma released_tokens (m : prog) h c :
  ok m (holds h) c released ↔ tok yields answers (as_tokens P) m h c empty_handed.
Proof.
  rewrite ok_tokens. unfold released, empty_handed.
  split; apply tok_weaken; intros [[]|] ??; simpl; naive_solver.
Qed.

Lemma thread_tokens t h c :
  thread_ok t (holds h) c ↔ tthread_ok yields answers (as_tokens P) kept_token t h c.
Proof.
  destruct t as [o|X q k]; simpl; [by destruct h as [[]|]; simpl|].
  split; intros [Hk Hr]; (split; [done|]); intros c' a Hc Ha; apply released_tokens, Hr; try done; by apply rely_tokens.
Qed.

Lemma holds_true h k : h = Some k ↔ holds h = true.
Proof. destruct k, h as [[]|]; naive_solver. Qed.

Lemma world_tokens w H : tworld_ok w H ↔ world_ok w (λ i, holds (H i)).
Proof.
  split; intros [Hi Ht Ha Hu Hk Hr]; split; try done.
  - intros i t E. by apply thread_tokens, Ht.
  - intros i E. by rewrite Ha.
  - intros i j Ei Ej. by apply (Hu i j ()); apply holds_true.
  - rewrite (Hk ()). by setoid_rewrite holds_true.
  - intros i t E. by apply thread_tokens, Ht.
  - intros i E. specialize (Ha i E). by destruct (H i) as [[]|].
  - intros i j k Ei Ej. apply Hu; by eapply holds_true.
  - intros k. simpl. rewrite Hk. by setoid_rewrite <- (holds_true _ k).
Qed.

Lemma world_as_tokens w H : world_ok w H → tworld_ok w (λ i, token_of (H i)).
Proof.
  intros [Hi Ht Ha Hu Hk Hr]. apply world_tokens. split; try done.
  - intros i t E. rewrite holds_token_of. by apply Ht.
  - intros i E. by rewrite holds_token_of, Ha.
  - intros i j. rewrite !holds_token_of. apply Hu.
  - rewrite Hk. by setoid_rewrite holds_token_of.
Qed.

Context (entries : prog → Prop).
Hypothesis (entries_ok : ∀ m c, entries m → inv P c → ok m false c released).

Lemma recorded_token X (q : call X) h c l :
  tinv (as_tokens P) c → tissue (as_tokens P) q h c → owns (as_tokens P) h c → recorded l c →
  recorded (l ++ observe X q c) c.
Proof.
  intros Hi Hq Ho. apply (recorded_issue X q (holds h)); [done|done|]. intros E. by apply (Ho ()), holds_true.
Qed.

Lemma kept_token_rely X (q : call X) h c c' : trely (as_tokens P) h c c' → kept_token X q h c → kept_token X q h c'.
Proof. intros Hr. apply kept_rely. by apply rely_tokens. Qed.

Lemma async_steps_ok w w' H :
  world_ok w H → rtc (step yields answers observe entries) w w' →
  mono P (shared w) (shared w') ∧ ∃ H', world_ok w' H'.
Proof.
  intros Hw%world_as_tokens Hs.
  destruct (tokens_steps_ok yields answers observe (as_tokens P) (as_tokens_ok P HP) recorded recorded_mono
    recorded_token kept_token (λ X q h, kept_issue X q (holds h)) kept_token_rely entries
    (λ m c Hm Hc, proj1 (released_tokens m None c) (entries_ok m c Hm Hc)) w w' _ Hw Hs) as [Hm [H' Hw']].
  split; [done|]. exists (λ i, holds (H' i)). by apply world_tokens.
Qed.

Theorem async_reachable_ok c w :
  inv P c → locked P c = false → recorded [] c →
  reachable yields answers observe entries c w → ∃ H, world_ok w H.
Proof.
  intros Hi Hl Hr Hw. assert (world_ok (initial c) (λ _, false)) as Hinit.
  { split; simpl; try done. rewrite Hl. split; [done|by intros [? ?]]. }
  by destruct (async_steps_ok _ _ _ Hinit Hw) as [_ ?].
Qed.
End soundness.
