(* ===== verification/JsValue.v ===== *)
(** * JavaScript values as the source reads them

    The values typed [unknown] in the TypeScript source: policy limits,
    extension blocks, decoded JSON.  An object is the ordered list of its own
    properties (insertion order, one entry per key), so that an own property
    whose value is [undefined] differs from an absent one, as object spread
    requires.  A number is an integer (exact) or a non-integer, identified by
    the text [String(n)] prints for it ("0.5", "NaN", "Infinity"); integers
    are below 10^21 in magnitude, where [String(n)] is their decimal
    expansion. *)

From S2P Require Import Prelude.

Inductive jsnum : Set :=
  | NInt (z : Z)
  | NOther (text : string).

Inductive jsv : Set :=
  | JUndef
  | JNull
  | JBool (b : bool)
  | JNum (n : jsnum)
  | JStr (s : string)
  | JArr (l : list jsv)
  | JObj (o : list (string * jsv)).

(** An object literal or a decoded JSON object. *)
Abbreviation jsobj := (list (string * jsv)).

(** ** Own properties *)

Fixpoint own_get (o : jsobj) (k : string) : option jsv :=
  match o with
  | [] => None
  | (k', v) :: o' => if String.eqb k k' then Some v else own_get o' k
  end.

(** [o[k]] on an object: absent reads as [undefined]. *)
Definition obj_get (o : jsobj) (k : string) : jsv := default JUndef (own_get o k).

(** [o[k] = v]: in place when the key exists, else appended. *)
Fixpoint obj_set (o : jsobj) (k : string) (v : jsv) : jsobj :=
  match o with
  | [] => [(k, v)]
  | (k', v') :: o' => if String.eqb k k' then (k', v) :: o' else (k', v') :: obj_set o' k v
  end.

(** [{ ...a, ...b }] and [Object.assign(a, b)]: for each own key [k] of [b],
    in order, [a[k] = b[k]]. *)
Definition obj_spread (a b : jsobj) : jsobj :=
  foldl (λ acc k, obj_set acc k (obj_get b k)) a b.*1.

Definition obj_keys (o : jsobj) : list string := o.*1.

(** [k in o] *)
Definition has_own (o : jsobj) (k : string) : bool :=
  match own_get o k with Some _ => true | None => false end.

(** [{ ...v }] where [v] may be [undefined]: spreading a non-object adds
    nothing. *)
Definition props_of (v : jsv) : jsobj := match v with JObj o => o | _ => [] end.

(** [v.k] where [v] is known not to be [null] or [undefined]: a primitive or
    an array has none of the properties the source names. *)
Definition prop (v : jsv) (k : string) : jsv := obj_get (props_of v) k.

(** ** Type tests *)

Definition is_undefined (v : jsv) : bool := match v with JUndef => true | _ => false end.
Definition is_nullish (v : jsv) : bool := match v with JUndef | JNull => true | _ => false end.
Definition is_string (v : jsv) : bool := match v with JStr _ => true | _ => false end.
Definition is_boolean (v : jsv) : bool := match v with JBool _ => true | _ => false end.
Definition is_array (v : jsv) : bool := match v with JArr _ => true | _ => false end.

(** [typeof v === 'object' && v !== null] *)
Definition is_object (v : jsv) : bool :=
  match v with JArr _ | JObj _ => true | _ => false end.

(** [typeof v === 'object' && v !== null && !Array.isArray(v)] *)
Definition isRecord (v : jsv) : bool := match v with JObj _ => true | _ => false end.

(** [v === 'lit'] *)
Definition is_lit (v : jsv) (s : string) : bool :=
  match v with JStr t => String.eqb t s | _ => false end.

(** A string, where the value is one. *)
Definition text_of (v : jsv) : string := match v with JStr s => s | _ => "" end.

(** [v === 'a' || v === 'b' || ...] and [SET.has(v)] *)
Definition is_one_of (v : jsv) (l : list string) : bool :=
  match v with JStr t => str_in t l | _ => false end.

(** [typeof v === 'string' && v.length > 0] *)
Definition is_nonempty_string (v : jsv) : bool :=
  match v with JStr s => nonempty s | _ => false end.

(** [v === true] *)
Definition is_true (v : jsv) : bool := match v with JBool true => true | _ => false end.

(** [Number.isInteger(v)], with the integer. *)
Definition as_integer (v : jsv) : option Z :=
  match v with JNum (NInt z) => Some z | _ => None end.

Definition truthy (v : jsv) : bool :=
  match v with
  | JUndef | JNull => false
  | JBool b => b
  | JNum (NInt z) => negb (Z.eqb z 0)
  | JNum (NOther t) => negb (String.eqb t "NaN")
  | JStr s => nonempty s
  | JArr _ | JObj _ => true
  end.

(** [a ?? b] *)
Definition nullish_or (a b : jsv) : jsv := if is_nullish a then b else a.

(** The strings of an array, in order: [v.filter(e => typeof e === 'string')]. *)
Definition str_of (v : jsv) : option string := match v with JStr s => Some s | _ => None end.
Definition arr_of (v : jsv) : list jsv := match v with JArr l => l | _ => [] end.

(** An array of strings as the typed view of a validated [string[]]. *)
Definition strings_of (v : jsv) : option (list string) :=
  match v with JArr l => Some (omap str_of l) | _ => None end.

(** [[...v]] for a truthy value of type [string[]]: an array, or the characters
    of a string. *)
Definition spread_strings (v : jsv) : option (list string) :=
  match v with
  | JArr l => Some (omap str_of l)
  | JStr s =>
      if nonempty s then Some ((λ c, String c EmptyString) <$> String.list_ascii_of_string s) else None
  | _ => None
  end.

(** ** [String(v)], as template literals print a value *)

Definition num_text (n : jsnum) : string :=
  match n with NInt z => pretty z | NOther t => t end.

Fixpoint js_to_string (v : jsv) : string :=
  match v with
  | JUndef => "undefined"
  | JNull => "null"
  | JBool true => "true"
  | JBool false => "false"
  | JNum n => num_text n
  | JStr s => s
  | JArr l =>
      String.concat ","
        (List.map (λ x, match x with JUndef | JNull => "" | _ => js_to_string x end) l)
  | JObj _ => "[object Object]"
  end.

(** ** Induction over nested values *)

Section jsv_ind'.
Context (P : jsv → Prop).
Hypothesis (HU : P JUndef) (HN : P JNull) (HB : ∀ b, P (JBool b)) (Hn : ∀ n, P (JNum n))
  (HS : ∀ s, P (JStr s)) (HA : ∀ l, Forall P l → P (JArr l))
  (HO : ∀ o, Forall (λ kv, P kv.2) o → P (JObj o)).

Fixpoint jsv_ind' (v : jsv) : P v :=
  match v with
  | JUndef => HU
  | JNull => HN
  | JBool b => HB b
  | JNum n => Hn n
  | JStr s => HS s
  | JArr l => HA l ((fix go l : Forall P l :=
      match l with [] => Forall_nil_2 _ | x :: l' => Forall_cons_2 _ _ _ (jsv_ind' x) (go l') end) l)
  | JObj o => HO o ((fix go o : Forall (λ kv, P kv.2) o :=
      match o with
      | [] => Forall_nil_2 _
      | kv :: o' => Forall_cons_2 _ _ _ (jsv_ind' kv.2) (go o')
      end) o)
  end.
End jsv_ind'.

(** ** Lemmas on properties *)

Lemma own_get_set_eq o k v : own_get (obj_set o k v) k = Some v.
Proof.
  induction o as [|[k' v'] o IH]; simpl; [by rewrite String.eqb_refl|].
  destruct (String.eqb k k') eqn:E; simpl; by rewrite E.
Qed.

Lemma own_get_set_ne o k k' v : k ≠ k' → own_get (obj_set o k v) k' = own_get o k'.
Proof.
  intros Hne. induction o as [|[k1 v1] o IH]; simpl.
  - by rewrite (proj2 (String.eqb_neq k' k)).
  - destruct (String.eqb k k1) eqn:E; simpl.
    + apply String.eqb_eq in E as ->. by rewrite (proj2 (String.eqb_neq k' k1)).
    + by rewrite IH.
Qed.

Lemma own_get_set o k k' v :
  own_get (obj_set o k v) k' = if decide (k = k') then Some v else own_get o k'.
Proof. case_decide as H; [subst; apply own_get_set_eq | by apply own_get_set_ne]. Qed.

Lemma obj_get_set o k k' v :
  obj_get (obj_set o k v) k' = if decide (k = k') then v else obj_get o k'.
Proof. unfold obj_get. rewrite own_get_set. by case_decide. Qed.

Lemma own_get_None o k : own_get o k = None ↔ k ∉ obj_keys o.
Proof.
  unfold obj_keys. induction o as [|[k' v] o IH]; simpl.
  - split; [intros _; apply not_elem_of_nil | done].
  - rewrite not_elem_of_cons. destruct (String.eqb k k') eqn:E; split_andb; subst; naive_solver.
Qed.

Lemma own_get_assign b ks a k :
  own_get (foldl (λ acc k, obj_set acc k (obj_get b k)) a ks) k =
    if decide (k ∈ ks) then Some (obj_get b k) else own_get a k.
Proof.
  revert a. induction ks as [|k1 ks IH]; intros a; simpl; [done|].
  rewrite IH, own_get_set. destruct (decide (k ∈ ks)) as [Hin|Hnin].
  - by rewrite decide_True by set_solver.
  - destruct (decide (k1 = k)) as [->|Hne]; [rewrite decide_True by set_solver | rewrite decide_False by set_solver];
      done.
Qed.

(** Later entries win: spreading [b] over [a] reads [b]'s own property (even
    an own [undefined]) and falls back to [a]'s. *)
Lemma own_get_spread a b k :
  own_get (obj_spread a b) k =
    match own_get b k with Some v => Some v | None => own_get a k end.
Proof.
  unfold obj_spread. rewrite own_get_assign. case_decide as Hin.
  - unfold obj_get. destruct (own_get b k) eqn:E; [done|]. by apply own_get_None in E.
  - by rewrite (proj2 (own_get_None b k) Hin).
Qed.

Lemma obj_get_spread a b k :
  obj_get (obj_spread a b) k = if has_own b k then obj_get b k else obj_get a k.
Proof. unfold obj_get, has_own. rewrite own_get_spread. by destruct (own_get b k). Qed.

Lemma is_lit_spec v s : is_lit v s = true ↔ v = JStr s.
Proof. destruct v; simpl; rewrite ?String.eqb_eq; naive_solver. Qed.

Lemma is_one_of_spec v l : is_one_of v l = true ↔ ∃ s, v = JStr s ∧ s ∈ l.
Proof. destruct v; simpl; rewrite ?str_in_spec; naive_solver. Qed.

Lemma is_nonempty_string_spec v : is_nonempty_string v = true ↔ ∃ s, v = JStr s ∧ s ≠ "".
Proof. destruct v; simpl; rewrite ?nonempty_spec; naive_solver. Qed.

Lemma is_undefined_spec v : is_undefined v = true ↔ v = JUndef.
Proof. by destruct v. Qed.

Lemma isRecord_spec v : isRecord v = true ↔ ∃ o, v = JObj o.
Proof. destruct v; naive_solver. Qed.

Lemma is_array_spec v : is_array v = true ↔ ∃ l, v = JArr l.
Proof. destruct v; naive_solver. Qed.

Lemma is_boolean_spec v : is_boolean v = true ↔ ∃ b, v = JBool b.
Proof. destruct v; naive_solver. Qed.

(** ** String-literal unions

    A TypeScript union of string literals is an enumeration with the string
    each member is at run time.  [read_lit] reads a value at the type, [None]
    when it lies outside it. *)

Class Literal (A : Type) := {
  lit_string : A → string;
  literals : list A;
  lit_string_inj :: Inj (=) (=) lit_string;
  literals_complete a : a ∈ literals
}.

Ltac solve_literal :=
  match goal with
  | |- Inj _ _ _ => intros [] [] E; first [reflexivity | discriminate E]
  | |- ∀ a, a ∈ _ => intros []; repeat constructor
  end.

Section literal.
Context {A : Type} `{!Literal A}.

Definition read_lit (v : jsv) : option A := List.find (λ a, is_lit v (lit_string a)) literals.

Lemma read_lit_Some v a : read_lit v = Some a ↔ v = JStr (lit_string a).
Proof.
  unfold read_lit. split.
  - intros [_ H]%find_some. by apply is_lit_spec.
  - intros ->. destruct (List.find _ _) as [b|] eqn:E.
    + apply find_some in E as [_ E]. simpl in E. split_andb. f_equal. by apply (inj lit_string).
    + apply find_none with (x := a) in E; [|apply list_elem_of_In, literals_complete].
      simpl in E. by rewrite String.eqb_refl in E.
Qed.

Lemma read_lit_string a : read_lit (JStr (lit_string a)) = Some a.
Proof. by apply read_lit_Some. Qed.

Lemma is_one_of_literals v l :
  l = lit_string <$> literals → is_one_of v l = true ↔ ∃ a, v = JStr (lit_string a).
Proof.
  intros ->. rewrite is_one_of_spec. setoid_rewrite list_elem_of_fmap. split.
  - intros (s & -> & a & -> & _). by exists a.
  - intros [a ->]. exists (lit_string a). split; [done|]. exists a. split; [done|apply literals_complete].
Qed.
End literal.

Lemma read_lit_of_is_one_of {A} `{!Literal A} v l :
  l = lit_string <$> literals → is_one_of v l = true ↔ ∃ a, read_lit v = Some a.
Proof. intros Hl. rewrite (is_one_of_literals v l Hl). by setoid_rewrite read_lit_Some. Qed.

(** A value at [A | undefined], given a reader at [A]. *)
Definition read_optional {A} (rd : jsv → option A) (v : jsv) : option (option A) :=
  if is_undefined v then Some None else Some <$> rd v.

Lemma read_optional_lit {A} `{!Literal A} v l :
  l = lit_string <$> literals →
  negb (is_undefined v) && negb (is_one_of v l) = false ↔
  ∃ a : option A, read_optional read_lit v = Some a.
Proof.
  intros Hl. unfold read_optional. destruct (is_undefined v) eqn:Hu; simpl.
  - split; [intros _; by eexists | done].
  - rewrite negb_false_iff, (read_lit_of_is_one_of (A := A)) by done. split.
    + intros [a ->]. by eexists.
    + intros [a Ha]. destruct (read_lit v); simplify_eq/=. by eexists.
Qed.

(** ** Values are countable *)

Fixpoint jsv_tree (v : jsv) : gen_tree (bool + Z + string) :=
  match v with
  | JUndef => GenNode 0 []
  | JNull => GenNode 1 []
  | JBool b => GenLeaf (inl (inl b))
  | JNum (NInt z) => GenLeaf (inl (inr z))
  | JNum (NOther t) => GenNode 2 [GenLeaf (inr t)]
  | JStr s => GenLeaf (inr s)
  | JArr l => GenNode 3 (map jsv_tree l)
  | JObj o => GenNode 4 (map (λ e, GenNode 5 [GenLeaf (inr e.1); jsv_tree e.2]) o)
  end.

Fixpoint tree_jsv (t : gen_tree (bool + Z + string)) : jsv :=
  match t with
  | GenNode 0 _ => JUndef
  | GenNode 1 _ => JNull
  | GenLeaf (inl (inl b)) => JBool b
  | GenLeaf (inl (inr z)) => JNum (NInt z)
  | GenNode 2 [GenLeaf (inr t)] => JNum (NOther t)
  | GenLeaf (inr s) => JStr s
  | GenNode 3 l => JArr (map tree_jsv l)
  | GenNode 4 l => JObj (map (λ e, match e with GenNode _ [GenLeaf (inr k); v] => (k, tree_jsv v) | _ => ("", JUndef) end) l)
  | GenNode _ _ => JUndef
  end.

Lemma tree_jsv_tree v : tree_jsv (jsv_tree v) = v.
Proof.
  induction v as [| |b|[z|t]|s|l IH|o IH] using jsv_ind'; try done; simpl; f_equal.
  - induction IH as [|x l Hx _ IHl]; simpl; [done|]. by rewrite Hx, IHl.
  - induction IH as [|[k x] l Hx _ IHl]; simpl in *; [done|]. by rewrite Hx, IHl.
Qed.

#[export] Instance jsv_eq_dec : EqDecision jsv.
Proof. intros a b. destruct (decide (jsv_tree a = jsv_tree b)) as [E|E].
  - left. by rewrite <- (tree_jsv_tree a), E, tree_jsv_tree.
  - right. by intros ->.
Defined.

#[export] Instance jsv_countable : Countable jsv := inj_countable' jsv_tree tree_jsv tree_jsv_tree.
