(* ===== verification/Text.v ===== *)
(** * String operations of the language

    [String.prototype.split] by one character, [join], and what the components
    that build composite keys from strings need of them. *)

From S2P Require Import Prelude.
From Stdlib Require Import Ascii.

(** [s.split(c)] for a one-character separator: never empty. *)
Fixpoint split_on (c : ascii) (s : string) : list string :=
  match s with
  | EmptyString => [""]
  | String a s' =>
      if Ascii.eqb a c then "" :: split_on c s'
      else match split_on c s' with x :: l => String a x :: l | [] => [String a ""] end
  end.

(** [l.join(c)] *)
Fixpoint join_with (c : ascii) (l : list string) : string :=
  match l with
  | [] => ""
  | [x] => x
  | x :: l' => x +:+ String c (join_with c l')
  end.

Fixpoint has_char (c : ascii) (s : string) : bool :=
  match s with EmptyString => false | String a s' => Ascii.eqb a c || has_char c s' end.

Section splitting.
Context (c : ascii).

Lemma split_on_cons s : ∃ x l, split_on c s = x :: l.
Proof.
  induction s as [|a s (x & l & E)]; simpl; [by eexists _, _|].
  destruct (Ascii.eqb a c); [by eexists _, _|]. rewrite E. by eexists _, _.
Qed.

Lemma split_on_app x s : has_char c x = false → split_on c (x +:+ String c s) = x :: split_on c s.
Proof.
  induction x as [|a x IH]; simpl; [by rewrite Ascii.eqb_refl|]. intros [Ha Hx]%orb_false_iff.
  rewrite Ha. change (String.app x (String c s)) with (x +:+ String c s). by rewrite IH.
Qed.

Lemma split_on_none x : has_char c x = false → split_on c x = [x].
Proof.
  induction x as [|a x IH]; simpl; [done|]. intros [Ha Hx]%orb_false_iff. by rewrite Ha, IH.
Qed.

(** Joining parts without the separator and splitting again gives the parts. *)
Lemma split_join l : l ≠ [] → Forall (λ x, has_char c x = false) l → split_on c (join_with c l) = l.
Proof.
  induction l as [|x l IH]; [done|]. intros _ [Hx Hl]%Forall_cons.
  destruct l as [|y l]; [by apply split_on_none|].
  change (join_with c (x :: y :: l)) with (x +:+ String c (join_with c (y :: l))).
  rewrite split_on_app by done. by rewrite IH.
Qed.

Lemma join_inj l l' :
  l ≠ [] → l' ≠ [] → Forall (λ x, has_char c x = false) l → Forall (λ x, has_char c x = false) l' →
  join_with c l = join_with c l' → l = l'.
Proof. intros H H' Hl Hl' E. by rewrite <- (split_join l), <- (split_join l'), E. Qed.

Lemma split_parts s : Forall (λ x, has_char c x = false) (split_on c s).
Proof.
  induction s as [|a s IH]; simpl; [by apply Forall_singleton|].
  destruct (Ascii.eqb a c) eqn:Ha; [by apply Forall_cons|].
  destruct (split_on_cons s) as (x & l & E). rewrite E in *. apply Forall_cons in IH as [Hx Hl].
  apply Forall_cons. split; [|done]. simpl. by rewrite Ha, Hx.
Qed.

(** The first part is a prefix, followed by the separator unless it is all. *)
Lemma split_head s x l : split_on c s = x :: l → ∃ r, s = x +:+ r ∧ (r = "" ∧ l = [] ∨ ∃ r', r = String c r' ∧ l = split_on c r').
Proof.
  revert x l; induction s as [|a s IH]; simpl; intros x l E.
  - injection E as <- <-. exists "". split; [done|by left].
  - destruct (Ascii.eqb a c) eqn:Ha.
    + injection E as <- <-. apply Ascii.eqb_eq in Ha as ->. exists (String c s). split; [done|]. right. by exists s.
    + destruct (split_on_cons s) as (y & l' & E'). rewrite E' in E. injection E as <- <-.
      destruct (IH y l' E') as (r & Hr & Hor). exists r. split; [by rewrite Hr at 1|done].
Qed.
End splitting.

Lemma has_char_app c s t : has_char c (s +:+ t) = has_char c s || has_char c t.
Proof. induction s as [|a s IH]; simpl; [done|]. by rewrite IH, orb_assoc. Qed.

Lemma starts_with_app p s : starts_with p (p +:+ s) = true.
Proof. apply starts_with_spec. by exists s. Qed.

Lemma str_app_assoc a b c : (a +:+ b) +:+ c = a +:+ (b +:+ c).
Proof.
  induction a as [|x a IH]; [done|].
  change (String x ((a +:+ b) +:+ c) = String x (a +:+ (b +:+ c))). by rewrite IH.
Qed.

Lemma str_app_nil a : a +:+ "" = a.
Proof. induction a as [|x a IH]; [done|]. change (String x (a +:+ "") = String x a). by rewrite IH. Qed.

(** ** White space and numerals *)

Definition byte_of (a : ascii) : Z := Z.of_nat (nat_of_ascii a).

(** [s.trimStart()] *)
Fixpoint skip_white (s : string) : string :=
  match s with
  | String a s1 =>
      if space_byte (byte_of a) then skip_white s1 else
      match s1 with
      | String b s2 =>
          if (byte_of a =? 194)%Z && (byte_of b =? 160)%Z then skip_white s2 else
          match s2 with
          | String c s3 => if space_three (byte_of a) (byte_of b) (byte_of c) then skip_white s3 else s
          | EmptyString => s
          end
      | EmptyString => s
      end
  | EmptyString => s
  end.

(** [s.trimEnd()] and [s.trim()] *)
Fixpoint trim_end (s : string) : string :=
  match s with EmptyString => "" | String a s' => if trim_empty s then "" else String a (trim_end s') end.
Definition trim (s : string) : string := trim_end (skip_white s).

Definition digit_of (a : ascii) : option Z :=
  let n := byte_of a in if (48 <=? n)%Z && (n <=? 57)%Z then Some (n - 48)%Z else None.

(** The value of the leading decimal digits, read on from [acc]. *)
Fixpoint leading_digits (acc : Z) (s : string) : Z :=
  match s with
  | String a s' => match digit_of a with Some d => leading_digits (acc * 10 + d) s' | None => acc end
  | EmptyString => acc
  end.

Definition parse_digits (s : string) : option Z :=
  match s with String a _ => match digit_of a with Some _ => Some (leading_digits 0 s) | None => None end | _ => None end.

(** [Number.parseInt(s, 10)]; [None] is [NaN]. *)
Definition parse_int (s : string) : option Z :=
  match skip_white s with
  | String "-" s' => Z.opp <$> parse_digits s'
  | String "+" s' => parse_digits s'
  | s' => parse_digits s'
  end.

Lemma pretty_digit x : (x < 10)%N → digit_of (pretty_N_char x) = Some (Z.of_N x).
Proof.
  intros Hx. assert (x = 0 ∨ x = 1 ∨ x = 2 ∨ x = 3 ∨ x = 4 ∨ x = 5 ∨ x = 6 ∨ x = 7 ∨ x = 8 ∨ x = 9)%N as Hc by lia.
  repeat destruct Hc as [->|Hc]; try done. by subst.
Qed.

Lemma leading_digits_pretty x s : leading_digits 0 (pretty_N_go x s) = leading_digits (Z.of_N x) s.
Proof.
  revert s. induction (N.lt_wf_0 x) as [x _ IH]; intros s.
  destruct (decide (x = 0)%N) as [->|Hx]; [by rewrite pretty_N_go_0|].
  rewrite pretty_N_go_step by lia. rewrite IH by (apply N.div_lt; lia). simpl.
  pose proof (N.mod_lt x 10 ltac:(done)) as Hm. rewrite pretty_digit by done.
  pose proof (N.div_mod x 10 ltac:(done)) as Hd. f_equal. lia.
Qed.

(** The text of a positive number starts with a digit. *)
Lemma pretty_N_go_head x s : (0 < x)%N → ∃ d r, (d < 10)%N ∧ pretty_N_go x s = String (pretty_N_char d) r.
Proof.
  revert s. induction (N.lt_wf_0 x) as [x _ IH]; intros s Hx. rewrite pretty_N_go_step by done.
  destruct (decide (x / 10 = 0)%N) as [->|Hd].
  - rewrite pretty_N_go_0. eexists _, s. split; [|done]. apply N.mod_lt. done.
  - apply IH; [apply N.div_lt; lia|by apply N.neq_0_lt_0].
Qed.

Lemma parse_int_pretty n : (0 ≤ n)%Z → parse_int (pretty n) = Some n.
Proof.
  intros Hn. destruct n as [|p|p]; [done| |lia].
  assert (pretty (Z.pos p) = pretty_N_go (N.pos p) "") as Hp.
  { change (pretty (Z.pos p)) with (pretty (N.pos p)). unfold pretty, pretty_N. by rewrite decide_False. }
  rewrite Hp. destruct (pretty_N_go_head (N.pos p) "" ltac:(done)) as (d & r & Hd & E).
  pose proof (leading_digits_pretty (N.pos p) "") as Hl. pose proof (pretty_digit d Hd) as Hdig.
  assert (parse_digits (String (pretty_N_char d) r) = Some (Z.pos p)) as Hdigits.
  { unfold parse_digits. rewrite Hdig, <- E, Hl. done. }
  rewrite E. unfold parse_int.
  assert (d = 0 ∨ d = 1 ∨ d = 2 ∨ d = 3 ∨ d = 4 ∨ d = 5 ∨ d = 6 ∨ d = 7 ∨ d = 8 ∨ d = 9)%N as Hc by lia.
  assert (skip_white (String (pretty_N_char d) r) = String (pretty_N_char d) r) as Hs.
  { clear -Hc. repeat destruct Hc as [->|Hc]; subst; destruct r as [|b [|c r]]; reflexivity. }
  rewrite Hs. clear -Hc Hdigits. repeat destruct Hc as [->|Hc]; subst; exact Hdigits.
Qed.

Lemma has_char_pretty c (n : nat) : digit_of c = None → has_char c (pretty n) = false.
Proof.
  intros Hc. assert (∀ x s, has_char c (pretty_N_go x s) = has_char c s) as Hgo.
  { intros x. induction (N.lt_wf_0 x) as [x _ IH]; intros s.
    destruct (decide (x = 0)%N) as [->|Hx]; [by rewrite pretty_N_go_0|].
    rewrite pretty_N_go_step by lia. rewrite IH by (apply N.div_lt; lia). simpl.
    destruct (Ascii.eqb_spec (pretty_N_char (x mod 10)) c) as [<-|_]; [|done].
    by rewrite pretty_digit in Hc by (apply N.mod_lt; done). }
  change (pretty n) with (pretty (N.of_nat n)). destruct n as [|n]; [destruct c as [[] [] [] [] [] [] [] []]; done|].
  unfold pretty, pretty_N. rewrite decide_False by done. by rewrite Hgo.
Qed.

(** [Date.parse], [None] where it is not finite. *)
Class DateParse := parse_date : string → option Z.
