(* ===== verification/BrowserStorage.v ===== *)
(** * JSON text and browser storage

    What the components that keep JSON in the browser's storage rely on: the
    JSON functions of the language and the Storage API, as parameters with the
    behaviour their specifications document. *)

From S2P Require Import Prelude JsValue Text.
From Stdlib Require Import Ascii.

(** [JSON.stringify] and [JSON.parse]; [None] where the parser throws. *)
Class JsonText := { stringify : jsv → string; parse_json : string → option jsv }.

(** What the JSON functions document, on values they represent exactly: no
    [undefined], integers, and objects whose keys are distinct and no array
    indices (which objects enumerate first). *)
Definition named_key (k : string) : bool :=
  match k with String a _ => match digit_of a with Some _ => false | None => true end | EmptyString => false end.

Fixpoint json_value (v : jsv) : bool :=
  match v with
  | JUndef | JNum (NOther _) => false
  | JArr l => forallb json_value l
  | JObj o => forallb (λ e, json_value e.2) o && bool_decide (NoDup o.*1) && forallb named_key o.*1
  | _ => true
  end.

Class JsonTextLaws `{!JsonText} : Prop := {
  parse_stringify v : json_value v = true → parse_json (stringify v) = Some v;
  parse_nothing : parse_json "" = None
}.

(** What the storage does with a call in a state: [false] where it throws. *)
Class StoragePolicy := {
  readable : gmap string string → string → bool;
  writable : gmap string string → string → string → bool;
  removable : gmap string string → string → bool
}.

(** A storage that refuses nothing. *)
Class ReliableStorage `{!StoragePolicy} : Prop := {
  storage_reads m k : readable m k = true;
  storage_writes m k v : writable m k v = true;
  storage_removes m k : removable m k = true
}.

(** A pair of JSON functions that keeps the laws: a text for every value, one
    bit a character. *)

Fixpoint bits (p : positive) : string :=
  match p with xH => "1" | xO p => String "0"%char (bits p) | xI p => String "2"%char (bits p) end.

Fixpoint of_bits (s : string) : option positive :=
  match s with
  | "1" => Some xH
  | String "0" s' => xO <$> of_bits s'
  | String "2" s' => xI <$> of_bits s'
  | _ => None
  end.

Lemma of_bits_bits p : of_bits (bits p) = Some p.
Proof. induction p as [p IH|p IH|]; simpl; [by rewrite IH|by rewrite IH|done]. Qed.

Definition coded_json : JsonText :=
  {| stringify := λ v, bits (encode (jsv_tree v));
     parse_json := λ s, p ← of_bits s; tree_jsv <$> decode p |}.

Lemma coded_json_laws : @JsonTextLaws coded_json.
Proof.
  split; [|done]. intros v _. cbn. rewrite of_bits_bits. cbn. rewrite decode_encode. cbn. by rewrite tree_jsv_tree.
Qed.
