(* ===== verification/ScopedMetadata.v ===== *)
(** * Scoped metadata

    [createBrowserScopedMetadataStore] of
    src/src/shared/browser-scoped-metadata.ts: JSON values under named slots of
    a tab's session storage, each record carrying the context and the slot it
    was written for.  [slot_read], [slot_write] and [slot_remove] are the
    contract its clients rely on ([ScopedMetadataStore]): a finite map that may
    refuse a call, and that keeps exactly what a write it did not refuse gave
    it.  [browser_metadata_refines] proves that the browser's store keeps it. *)

From S2P Require Import Prelude JsValue Text BrowserStorage.
From Stdlib Require Import Ascii.

(** ** The contract *)

Class MetadataPolicy := {
  slot_readable : gmap string jsv → string → bool;
  slot_writable : gmap string jsv → string → jsv → bool;
  slot_removable : gmap string jsv → string → bool
}.

Definition unavailable : string := "Tab scoped-metadata storage is unavailable or invalid".

Section contract.
Context `{!MetadataPolicy}.

(** [undefined] when nothing is stored. *)
Definition slot_read (slot : string) (m : gmap string jsv) : outcome string jsv :=
  throw_when (negb (slot_readable m slot)) unavailable ;; Returns (default JUndef (m !! slot)).

Definition slot_write (slot : string) (value : jsv) (m : gmap string jsv) : outcome string unit * gmap string jsv :=
  if slot_writable m slot value then (Returns (), <[slot := value]> m) else (Throws unavailable, m).

Definition slot_remove (slot : string) (m : gmap string jsv) : outcome string unit * gmap string jsv :=
  if slot_removable m slot then (Returns (), base.delete slot m) else (Throws unavailable, m).
End contract.

(** ** The browser's store *)

Record BrowserMetadata : Set := { metadata_namespace : string; metadata_context : string }.

(** [/[A-Za-z0-9:._-]/] *)
Definition is_namespace_char (a : ascii) : bool :=
  let n := nat_of_ascii a in
  ((48 <=? n) && (n <=? 57) || (65 <=? n) && (n <=? 90) || (97 <=? n) && (n <=? 122))%nat
  || bool_decide (a ∈ [":"; "."; "_"; "-"]%char).

Section browser.
Context `{!JsonText, !StoragePolicy}.

Definition createBrowserScopedMetadataStore (namespace : string) (context : jsv) : outcome string BrowserMetadata :=
  throw_when (negb (nonempty namespace) || negb (forallb is_namespace_char (String.list_ascii_of_string namespace)))
    "Scoped metadata namespace must be a nonempty identifier" ;;
  throw_when (negb (isRecord context)) "Scoped metadata context is invalid" ;;
  let serialized := stringify context in
  match parse_json serialized with
  | Some v =>
      throw_when (negb (isRecord v)) "Scoped metadata context is invalid" ;;
      Returns {| metadata_namespace := namespace; metadata_context := serialized |}
  | None => Throws "Scoped metadata context is invalid"
  end.

Section store.
Context (store : BrowserMetadata).

Definition slot_key (slot : string) : string :=
  metadata_namespace store +:+ ":" +:+ metadata_context store +:+ ":" +:+ slot.

Definition slot_record (slot : string) (value : jsv) : jsv :=
  JObj [("context", JStr (metadata_context store)); ("slot", JStr slot); ("value", value)].

(** What is made of a stored text. *)
Definition read_record (slot raw : string) : outcome string jsv :=
  match parse_json raw with
  | Some (JObj o) =>
      throw_when (negb (has_own o "context") || negb (has_own o "slot") || negb (has_own o "value")
                  || negb (is_lit (obj_get o "context") (metadata_context store)) || negb (is_lit (obj_get o "slot") slot))
        unavailable ;;
      Returns (obj_get o "value")
  | _ => Throws unavailable
  end.

Definition browser_read (slot : string) (m : gmap string string) : outcome string jsv :=
  throw_when (negb (nonempty slot) || negb (readable m (slot_key slot))) unavailable ;;
  match m !! slot_key slot with None => Returns JUndef | Some raw => read_record slot raw end.

Definition browser_write (slot : string) (value : jsv) (m : gmap string string) : outcome string unit * gmap string string :=
  let key := slot_key slot in
  let raw := stringify (slot_record slot value) in
  if negb (nonempty slot) then (Throws unavailable, m) else
  match parse_json raw with
  | Some v =>
      if negb (has_own (props_of v) "value") || negb (writable m key raw) then (Throws unavailable, m)
      else
        let m := <[key := raw]> m in
        ((if readable m key then Returns () else Throws unavailable), m)
  | None => (Throws unavailable, m)
  end.

Definition browser_remove (slot : string) (m : gmap string string) : outcome string unit * gmap string string :=
  let key := slot_key slot in
  if negb (nonempty slot) || negb (removable m key) then (Throws unavailable, m)
  else
    let m := base.delete key m in
    ((if readable m key then Returns () else Throws unavailable), m).
End store.
End browser.

(** ** The browser's store keeps the contract *)

Section refinement.
Context `{Json : !JsonText, Laws : !JsonTextLaws, Policy : !StoragePolicy} (store : BrowserMetadata) (base : gmap string string).

(** Reading is never refused; writing and removing may be. *)
Hypothesis (reads : ∀ m k, readable m k = true).
(** What other code keeps in the storage is under other keys. *)
Hypothesis (foreign : ∀ slot, base !! slot_key store slot = None).

Definition record_text (slot : string) (value : jsv) : string := stringify (slot_record store slot value).

Definition encode (m : gmap string jsv) : gmap string string :=
  kmap (slot_key store) (map_imap (λ slot v, Some (record_text slot v)) m) ∪ base.

#[local] Instance induced_policy : MetadataPolicy := {|
  slot_readable := λ m slot, readable (encode m) (slot_key store slot);
  slot_writable := λ m slot v, writable (encode m) (slot_key store slot) (record_text slot v);
  slot_removable := λ m slot, removable (encode m) (slot_key store slot)
|}.

#[local] Instance slot_key_inj : Inj (=) (=) (slot_key store).
Proof. intros a b E. unfold slot_key in E. by do 4 apply (inj (String.app _)) in E. Qed.

Lemma encode_lookup m slot : encode m !! slot_key store slot = record_text slot <$> m !! slot.
Proof.
  unfold encode. rewrite lookup_union, (lookup_kmap (slot_key store)), map_lookup_imap, foreign.
  by destruct (m !! slot).
Qed.

Lemma encode_insert m slot v : <[slot_key store slot := record_text slot v]> (encode m) = encode (<[slot := v]> m).
Proof.
  unfold encode. rewrite insert_union_l. f_equal. rewrite <- (kmap_insert (slot_key store)). f_equal.
  apply map_eq. intros i. rewrite map_lookup_imap. destruct (decide (slot = i)) as [<-|Hi].
  - by rewrite !lookup_insert_eq.
  - by rewrite !lookup_insert_ne, map_lookup_imap.
Qed.

Lemma encode_delete m slot : base.delete (slot_key store slot) (encode m) = encode (base.delete slot m).
Proof.
  unfold encode. rewrite delete_union, (delete_id base) by apply foreign. f_equal.
  rewrite <- (kmap_delete (slot_key store)). f_equal.
  apply map_eq. intros i. rewrite map_lookup_imap. destruct (decide (slot = i)) as [<-|Hi].
  - by rewrite !lookup_delete_eq.
  - by rewrite !lookup_delete_ne, map_lookup_imap.
Qed.

Lemma record_parses slot v : json_value v = true → parse_json (record_text slot v) = Some (slot_record store slot v).
Proof. intros Hv. apply parse_stringify. unfold slot_record. simpl. by rewrite Hv. Qed.

(** C37. The browser's metadata store implements its contract: read through
    the records it keeps in the session storage, a slot holds exactly the value
    last written to it by a call that was not refused, a refused call changes
    nothing, and no call touches what other code keeps. *)
Theorem browser_metadata_refines m slot v :
  map_Forall (λ _ w, json_value w = true) m → json_value v = true → slot ≠ "" →
  browser_read store slot (encode m) = slot_read slot m ∧
  (let '(o, m') := slot_write slot v m in browser_write store slot v (encode m) = (o, encode m')) ∧
  (let '(o, m') := slot_remove slot m in browser_remove store slot (encode m) = (o, encode m')).
Proof.
  intros Hm Hv Hs. apply nonempty_spec in Hs. split; [|split].
  - unfold browser_read, slot_read. simpl. rewrite Hs, !reads, encode_lookup. simpl.
    destruct (m !! slot) as [w|] eqn:E; simpl; [|done].
    unfold read_record. rewrite record_parses by by apply (Hm slot). simpl. by rewrite !String.eqb_refl.
  - unfold browser_write, slot_write. simpl. rewrite Hs. simpl. fold (record_text slot v). rewrite record_parses by done. simpl.
    destruct (writable _ _ _); simpl; [|done]. by rewrite reads, encode_insert.
  - unfold browser_remove, slot_remove. simpl. rewrite Hs. simpl.
    destruct (removable _ _); simpl; [|done]. by rewrite reads, encode_delete.
Qed.
End refinement.

Section samples.
#[local] Existing Instance coded_json.
#[local] Existing Instance coded_json_laws.
#[local] Instance small_storage : StoragePolicy :=
  {| readable := λ _ _, true; writable := λ _ _ v, (String.length v <? 400)%nat; removable := λ _ _, true |}.

Definition sample_store : BrowserMetadata := {| metadata_namespace := "ns"; metadata_context := "{}" |}.

Lemma browser_metadata_refines_witness :
  let m := encode sample_store ∅ {["handles" := JNull]} in
  browser_read sample_store "handles" m = Returns JNull ∧
  browser_write sample_store "b" (JBool true) m = (Returns (), encode sample_store ∅ {["b" := JBool true; "handles" := JNull]}) ∧
  browser_remove sample_store "b" m = (Returns (), encode sample_store ∅ {["handles" := JNull]}).
Proof.
  pose proof (λ m slot v, browser_metadata_refines (Laws := coded_json_laws) (Policy := small_storage) sample_store ∅ (λ _ _, eq_refl true)
    (λ _, lookup_empty _) m slot v) as Hrefines.
  assert (map_Forall (λ _ w, json_value w = true) {["handles" := JNull]}) as Hm by by apply map_Forall_singleton.
  destruct (Hrefines _ "b" (JBool true) Hm eq_refl ltac:(done)) as (_ & Hw & Hr).
  destruct (Hrefines _ "handles" JNull Hm eq_refl ltac:(done)) as (Hd & _ & _).
  split; [exact Hd|]. split.
  - revert Hw. unfold slot_write. destruct (slot_writable _ _ _) eqn:E; [done|]. exfalso. vm_compute in E. done.
  - exact Hr.
Defined.
End samples.
