(* ===== verification/JsMap.v ===== *)
(** * JavaScript's Map

    An ordered finite map: the entries in the order their keys were first set.
    [map_set] keeps the place of a known key, as [Map.prototype.set] does. *)

From S2P Require Import Prelude.

Section js_map.
Context {K V : Type} `{!EqDecision K}.

Fixpoint map_get (m : list (K * V)) (k : K) : option V :=
  match m with [] => None | (k', v) :: m' => if decide (k = k') then Some v else map_get m' k end.

Fixpoint map_set (m : list (K * V)) (k : K) (v : V) : list (K * V) :=
  match m with
  | [] => [(k, v)]
  | (k', v') :: m' => if decide (k = k') then (k', v) :: m' else (k', v') :: map_set m' k v
  end.

Definition map_delete (m : list (K * V)) (k : K) : list (K * V) :=
  List.filter (λ e, negb (bool_decide (k = e.1))) m.

Lemma map_get_set m k k' v : map_get (map_set m k v) k' = if decide (k' = k) then Some v else map_get m k'.
Proof.
  induction m as [|[j w] m IH]; simpl; [done|].
  repeat (case_decide; simplify_eq/=; try done); by rewrite IH; case_decide.
Qed.

Lemma map_get_filter (f : K * V → bool) m k :
  (∀ v, f (k, v) = true) → map_get (List.filter f m) k = map_get m k.
Proof.
  intros Hf. induction m as [|[j w] m IH]; simpl; [done|].
  destruct (f (j, w)) eqn:E; simpl; case_decide; subst; [done|done| |done]. by rewrite Hf in E.
Qed.

Lemma map_get_filter_out (f : K * V → bool) m k :
  (∀ v, f (k, v) = false) → map_get (List.filter f m) k = None.
Proof.
  intros Hf. induction m as [|[j w] m IH]; simpl; [done|].
  destruct (f (j, w)) eqn:E; simpl; [|done]. case_decide; subst; [by rewrite Hf in E|done].
Qed.

Lemma map_get_delete m k k' : map_get (map_delete m k) k' = if decide (k' = k) then None else map_get m k'.
Proof.
  unfold map_delete. case_decide.
  - apply map_get_filter_out. intros v. subst. apply negb_false_iff. by apply bool_decide_eq_true_2.
  - apply map_get_filter. intros v. apply negb_true_iff. by apply bool_decide_eq_false_2.
Qed.

Lemma map_get_None m k : map_get m k = None ↔ k ∉ m.*1.
Proof.
  induction m as [|[j w] m IH]; simpl; [by split; intros; [apply not_elem_of_nil|]|].
  rewrite not_elem_of_cons. case_decide; subst; [by split; [|intros []]|]. rewrite IH. tauto.
Qed.

Lemma map_get_Some_in m k v : map_get m k = Some v → (k, v) ∈ m.
Proof.
  induction m as [|[j w] m IH]; simpl; [done|]. case_decide; subst; [intros [= ->]; left|]. intros. right. auto.
Qed.

Lemma map_set_keys_in m k v : k ∈ m.*1 → (map_set m k v).*1 = m.*1.
Proof.
  induction m as [|[j w] m IH]; simpl; [by intros ?%elem_of_nil|].
  rewrite elem_of_cons. case_decide; subst; [done|]. intros [?|Hm]; [done|]. simpl. f_equal. by apply IH.
Qed.

Lemma map_set_new m k v : k ∉ m.*1 → map_set m k v = m ++ [(k, v)].
Proof.
  induction m as [|[j w] m IH]; simpl; [done|]. rewrite not_elem_of_cons. intros [Hj Hm].
  rewrite decide_False by done. by rewrite IH.
Qed.

Lemma map_set_Forall (P : K → Prop) m k v : Forall (λ e, P e.1) m → P k → Forall (λ e, P e.1) (map_set m k v).
Proof.
  intros Hm Hk. induction m as [|[j w] m IH]; simpl; [by apply Forall_singleton|].
  apply Forall_cons in Hm as [Hj Hm]. case_decide; apply Forall_cons; auto.
Qed.

Lemma filter_Forall (P : K * V → Prop) (f : K * V → bool) m : Forall P m → Forall P (List.filter f m).
Proof.
  intros Hm. apply Forall_forall. intros x [Hx _]%elem_of_filterb. by apply (proj1 (Forall_forall _ _) Hm).
Qed.
End js_map.

(** A map whose keys are renamed one to one. *)
Section rename.
Context {K K' V : Type} `{!EqDecision K, !EqDecision K'} (f : K → K') (P : K → Prop).
Hypothesis f_inj : ∀ k k', P k → P k' → f k = f k' → k = k'.

Definition rename (m : list (K * V)) : list (K' * V) := (λ e, (f e.1, e.2)) <$> m.

Lemma rename_get m k : Forall (λ e, P e.1) m → P k → map_get (rename m) (f k) = map_get m k.
Proof.
  intros Hm Hk. induction m as [|[j w] m IH]; simpl; [done|]. apply Forall_cons in Hm as [Hj Hm].
  destruct (decide (k = j)) as [->|Hn]; [by rewrite decide_True|].
  rewrite decide_False; [by apply IH|]. intros E. apply Hn. by apply f_inj.
Qed.

Lemma rename_set m k v : Forall (λ e, P e.1) m → P k → map_set (rename m) (f k) v = rename (map_set m k v).
Proof.
  intros Hm Hk. induction m as [|[j w] m IH]; simpl; [done|]. apply Forall_cons in Hm as [Hj Hm].
  destruct (decide (k = j)) as [->|Hn]; [by rewrite !decide_True|].
  assert (f k ≠ f j) as Hf by (intros E; apply Hn; by apply f_inj).
  rewrite (decide_False _ _ Hf). simpl. f_equal. by apply IH.
Qed.

Lemma rename_filter (g : K' * V → bool) (h : K * V → bool) m :
  Forall (λ e, g (f e.1, e.2) = h e) m → List.filter g (rename m) = rename (List.filter h m).
Proof.
  intros Hm. induction m as [|e m IH]; simpl; [done|]. apply Forall_cons in Hm as [He Hm].
  rewrite He. destruct (h e); simpl; [f_equal|]; by apply IH.
Qed.
End rename.
