(* ===== verification/FeatureKeys.v ===== *)
(** * Feature keys, capability states and policy modes

    The closed taxonomy of runtime feature keys (src/src/policy/feature-keys.ts),
    the closed enumerations of src/src/policy/policy-shapes.ts and the typed
    errors of src/src/policy/errors.ts. *)

From S2P Require Import Prelude JsValue.

(** ** The key taxonomy *)

Inductive RuntimeFeatureKey : Set :=
  | RespondentPlace
  | Status
  | DocumentPresentation
  | FileUpload
  | CrossIssuerHistory
  | OfflineSubmit
  | Payment
  | Embed
  | Screener
  | PreparerFiling
  | TrustedReviewer
  | BringYourOwnAssistant
  | SafeAddress
  | DuressAware
  | MultiParty
  | RecordLifecycle.

#[export] Instance RuntimeFeatureKey_eq_dec : EqDecision RuntimeFeatureKey.
Proof. solve_decision. Defined.

(** The tuple, in its append-only order (the resolver's iteration order). *)
Definition RUNTIME_FEATURE_KEYS : list RuntimeFeatureKey :=
  [ RespondentPlace; Status; DocumentPresentation; FileUpload; CrossIssuerHistory;
    OfflineSubmit; Payment; Embed; Screener; PreparerFiling; TrustedReviewer;
    BringYourOwnAssistant; SafeAddress; DuressAware; MultiParty; RecordLifecycle ].

#[global] Arguments RUNTIME_FEATURE_KEYS : simpl never.

(** The string each key is in the source. *)
Definition key_string (k : RuntimeFeatureKey) : string :=
  match k with
  | RespondentPlace => "respondentPlace"
  | Status => "status"
  | DocumentPresentation => "documentPresentation"
  | FileUpload => "fileUpload"
  | CrossIssuerHistory => "crossIssuerHistory"
  | OfflineSubmit => "offlineSubmit"
  | Payment => "payment"
  | Embed => "embed"
  | Screener => "screener"
  | PreparerFiling => "preparerFiling"
  | TrustedReviewer => "trustedReviewer"
  | BringYourOwnAssistant => "bringYourOwnAssistant"
  | SafeAddress => "safeAddress"
  | DuressAware => "duressAware"
  | MultiParty => "multiParty"
  | RecordLifecycle => "recordLifecycle"
  end.

Definition isRuntimeFeatureKey (value : string) : bool :=
  str_in value (key_string <$> RUNTIME_FEATURE_KEYS).

Definition key_of_string (value : string) : option RuntimeFeatureKey :=
  List.find (λ k, String.eqb value (key_string k)) RUNTIME_FEATURE_KEYS.

Lemma key_of_key_string k : key_of_string (key_string k) = Some k.
Proof. by destruct k. Qed.

#[export] Instance RuntimeFeatureKey_countable : Countable RuntimeFeatureKey :=
  inj_countable key_string key_of_string key_of_key_string.

#[export] Instance key_string_inj : Inj (=) (=) key_string.
Proof. intros k1 k2 E. apply (inj Some). by rewrite <- !key_of_key_string, E. Qed.

Lemma RUNTIME_FEATURE_KEYS_complete k : k ∈ RUNTIME_FEATURE_KEYS.
Proof. destruct k; unfold RUNTIME_FEATURE_KEYS; set_solver. Qed.

Lemma RUNTIME_FEATURE_KEYS_NoDup : NoDup RUNTIME_FEATURE_KEYS.
Proof. apply (bool_decide_unpack _). by vm_compute. Qed.

Lemma isRuntimeFeatureKey_spec s : isRuntimeFeatureKey s = true ↔ ∃ k, s = key_string k.
Proof.
  unfold isRuntimeFeatureKey. rewrite str_in_spec, list_elem_of_fmap. split.
  - intros (k & -> & _). by exists k.
  - intros [k ->]. exists k. split; [done|apply RUNTIME_FEATURE_KEYS_complete].
Qed.

(** Locale-conditional keys: empty today. *)
Definition LOCALE_CONDITIONAL_FEATURE_KEYS : gset RuntimeFeatureKey := ∅.

Definition isLocaleConditionalFeatureKey (value : string) : bool :=
  isRuntimeFeatureKey value &&
  match key_of_string value with
  | Some k => bool_decide (k ∈ LOCALE_CONDITIONAL_FEATURE_KEYS)
  | None => false
  end.

Definition anyEnabledFeatureIsLocaleConditional (enabled : gset RuntimeFeatureKey) : bool :=
  existsb (λ key, bool_decide (key ∈ LOCALE_CONDITIONAL_FEATURE_KEYS)) (elements enabled).

(** ** Capability states and policy modes *)

Inductive Mode : Set := Demo | Production.

Inductive CapabilityAvailability : Set := Available | DemoStub | Unavailable.

Inductive OrgFeaturePolicyMode : Set := OrgForbidden | OrgAllowed | OrgDefaultOn | OrgRequired.

Inductive FormFeaturePolicyMode : Set := FormForbidden | FormOptional | FormRequired.

#[export] Instance Mode_eq_dec : EqDecision Mode.
Proof. solve_decision. Defined.
#[export] Instance CapabilityAvailability_eq_dec : EqDecision CapabilityAvailability.
Proof. solve_decision. Defined.
#[export] Instance OrgFeaturePolicyMode_eq_dec : EqDecision OrgFeaturePolicyMode.
Proof. solve_decision. Defined.
#[export] Instance FormFeaturePolicyMode_eq_dec : EqDecision FormFeaturePolicyMode.
Proof. solve_decision. Defined.

#[export, program] Instance Mode_literal : Literal Mode :=
  {| lit_string m := match m with Demo => "demo" | Production => "production" end;
     literals := [Demo; Production] |}.
Solve All Obligations with solve_literal.

#[export, program] Instance CapabilityAvailability_literal : Literal CapabilityAvailability :=
  {| lit_string c :=
       match c with Available => "available" | DemoStub => "demo-stub" | Unavailable => "unavailable" end;
     literals := [Available; DemoStub; Unavailable] |}.
Solve All Obligations with solve_literal.

#[export, program] Instance OrgFeaturePolicyMode_literal : Literal OrgFeaturePolicyMode :=
  {| lit_string m :=
       match m with
       | OrgForbidden => "forbidden" | OrgAllowed => "allowed"
       | OrgDefaultOn => "default-on" | OrgRequired => "required"
       end;
     literals := [OrgForbidden; OrgAllowed; OrgDefaultOn; OrgRequired] |}.
Solve All Obligations with solve_literal.

#[export, program] Instance FormFeaturePolicyMode_literal : Literal FormFeaturePolicyMode :=
  {| lit_string m :=
       match m with
       | FormForbidden => "forbidden" | FormOptional => "optional" | FormRequired => "required"
       end;
     literals := [FormForbidden; FormOptional; FormRequired] |}.
Solve All Obligations with solve_literal.

Definition isCapabilityAvailability (v : jsv) : bool :=
  is_one_of v ["available"; "demo-stub"; "unavailable"].

Definition isOrgFeaturePolicyMode (v : jsv) : bool :=
  is_one_of v ["forbidden"; "allowed"; "default-on"; "required"].

Definition isFormFeaturePolicyMode (v : jsv) : bool :=
  is_one_of v ["forbidden"; "optional"; "required"].

Lemma isCapabilityAvailability_spec v :
  isCapabilityAvailability v = true ↔ ∃ c : CapabilityAvailability, v = JStr (lit_string c).
Proof. by apply is_one_of_literals. Qed.

Lemma isOrgFeaturePolicyMode_spec v :
  isOrgFeaturePolicyMode v = true ↔ ∃ m : OrgFeaturePolicyMode, v = JStr (lit_string m).
Proof. by apply is_one_of_literals. Qed.

Lemma isFormFeaturePolicyMode_spec v :
  isFormFeaturePolicyMode v = true ↔ ∃ m : FormFeaturePolicyMode, v = JStr (lit_string m).
Proof. by apply is_one_of_literals. Qed.

(** ** Disabled reasons *)

Inductive DisabledCause : Set :=
  | InstanceUnavailable
  | OrgForbiddenCause
  | FormForbiddenCause
  | OptionalNoInstance
  | DefaultOnNoInstance
  | ProductionRejectsDemoStub
  | NotRequested.

#[export] Instance DisabledCause_eq_dec : EqDecision DisabledCause.
Proof. solve_decision. Defined.

Record DisabledReason : Set := { cause : DisabledCause; reason_message : string }.

(** ** Typed errors *)

Inductive FeaturePolicyConflictKind : Set := OrgRequiredFormForbidden | FormRequiredOrgForbidden.

Inductive RuntimePolicyDocumentKind : Set := InstanceDoc | OrgDoc | FormDoc.

#[export] Instance RuntimePolicyDocumentKind_eq_dec : EqDecision RuntimePolicyDocumentKind.
Proof. solve_decision. Defined.

(** One constructor per error class of errors.ts, with its readonly fields and
    the reason its message carries; [TypeErrorThrown] is the engine's own
    TypeError (reading a property of [null] or [undefined]). *)
Inductive RuntimePolicyError : Set :=
  | UnsupportedRequiredFeatureError (featureKey : RuntimeFeatureKey) (reason : string)
  | FeaturePolicyConflictError (featureKey : RuntimeFeatureKey) (conflict : FeaturePolicyConflictKind)
  | OrgPolicyUnsatisfiedError (featureKey : RuntimeFeatureKey) (reason : string)
  | InvalidRuntimePolicyError (documentKind : RuntimePolicyDocumentKind) (reason : string)
  | EmbedOriginNotAllowedError (reason : string)
  | PaymentRequiresOnlineError
  | HiddenDefinitionRuntimeStateError (definitionUrl : string)
  | TypeErrorThrown.

Definition conflict_string (c : FeaturePolicyConflictKind) : string :=
  match c with
  | OrgRequiredFormForbidden => "org-required-form-forbidden"
  | FormRequiredOrgForbidden => "form-required-org-forbidden"
  end.

Definition document_kind_string (k : RuntimePolicyDocumentKind) : string :=
  match k with InstanceDoc => "instance" | OrgDoc => "org" | FormDoc => "form" end.

(** The support code each class carries; [None] for the engine's TypeError,
    which is not a RuntimePolicyError. *)
Definition error_code (e : RuntimePolicyError) : option string :=
  match e with
  | UnsupportedRequiredFeatureError _ _ => Some "UnsupportedRequiredFeature"
  | FeaturePolicyConflictError _ _ => Some "FeaturePolicyConflict"
  | OrgPolicyUnsatisfiedError _ _ => Some "OrgPolicyUnsatisfied"
  | InvalidRuntimePolicyError _ _ => Some "InvalidRuntimePolicy"
  | EmbedOriginNotAllowedError _ => Some "EmbedOriginNotAllowed"
  | PaymentRequiresOnlineError => Some "PaymentRequiresOnline"
  | HiddenDefinitionRuntimeStateError _ => Some "HiddenDefinitionRuntimeState"
  | TypeErrorThrown => None
  end.

(** The message each class passes to [super]. *)
Definition error_message (e : RuntimePolicyError) : string :=
  match e with
  | UnsupportedRequiredFeatureError k r =>
      "Required feature " +:+ dq +:+ key_string k +:+ dq +:+ " cannot be enabled: " +:+ r
  | FeaturePolicyConflictError k c =>
      "Policy conflict on feature " +:+ dq +:+ key_string k +:+ dq +:+ ": " +:+ conflict_string c
  | OrgPolicyUnsatisfiedError k r =>
      "Org policy requires " +:+ dq +:+ key_string k +:+ dq
        +:+ " but the instance cannot satisfy it: " +:+ r
  | InvalidRuntimePolicyError d r => "Invalid " +:+ document_kind_string d +:+ " runtime policy: " +:+ r
  | EmbedOriginNotAllowedError r => "Embed origin not allowed: " +:+ r
  | PaymentRequiresOnlineError =>
      "This form requires payment and cannot be saved for later — you must be online to fill it."
  | HiddenDefinitionRuntimeStateError u => "Definition is hidden on the active route: " +:+ u
  | TypeErrorThrown => ""
  end.

Definition isRuntimePolicyError (e : RuntimePolicyError) : bool :=
  match error_code e with Some _ => true | None => false end.

(** The shape every validator of the resolver has. *)
Abbreviation check := (outcome RuntimePolicyError unit).

(** [value !== undefined && (!Array.isArray(value) || !value.every(non-empty string))] *)
Definition validateOptionalStringArray
    (layer : RuntimePolicyDocumentKind) (cite : string) (value : jsv) : check :=
  throw_when
    (negb (is_undefined value)
      && (negb (is_array value) || negb (forallb is_nonempty_string (arr_of value))))
    (InvalidRuntimePolicyError layer (cite +:+ " must be an array of non-empty strings")).

(** A value at the type [readonly string[] | undefined]. *)
Definition read_strings (v : jsv) : option (option (list string)) :=
  match v with
  | JUndef => Some None
  | JArr l => Some <$> mapM str_of l
  | _ => None
  end.

Lemma mapM_str_of_map l : mapM str_of (JStr <$> l) = Some l.
Proof. by apply mapM_fmap_Some. Qed.

Lemma mapM_str_of l ss : mapM str_of l = Some ss ↔ l = JStr <$> ss.
Proof.
  split; [|intros ->; apply mapM_str_of_map].
  intros H%mapM_Some. induction H as [|x s l ss Hx H IH]; [done|].
  destruct x; simplify_eq/=. done.
Qed.

Lemma omap_fmap_str (l : list string) : omap str_of (JStr <$> l) = l.
Proof. induction l as [|x l IH]; [done|]. cbn. f_equal. exact IH. Qed.

Lemma validateOptionalStringArray_spec layer cite v :
  validateOptionalStringArray layer cite v = Returns () ↔
  ∃ ss, read_strings v = Some ss ∧ from_option (Forall (λ s, s ≠ "")) True ss.
Proof.
  unfold validateOptionalStringArray. rewrite throw_when_Returns.
  destruct v as [| | | | |l|]; simpl; try naive_solver.
  rewrite negb_false_iff, forallb_Forall. split.
  - intros H. assert (∃ ss, l = JStr <$> ss ∧ Forall (λ s, s ≠ "") ss) as (ss & -> & Hss).
    { induction H as [|x l Hx _ IH]; [by exists []|].
      apply is_nonempty_string_spec in Hx as (s & -> & Hs). destruct IH as (ss & -> & Hss).
      exists (s :: ss). split; [done|by constructor]. }
    exists (Some ss). by rewrite mapM_str_of_map.
  - intros ([ss|] & Hr & Hss); simpl in *; destruct (mapM str_of l) eqn:E; simplify_eq/=.
    apply mapM_str_of in E as ->. apply Forall_fmap. eapply Forall_impl; [exact Hss|].
    intros s Hs. by apply nonempty_spec.
Qed.

(** [v.k] on an unchecked value: reading a property of [null] or [undefined]
    throws. *)
Definition get_member (v : jsv) (k : string) : outcome RuntimePolicyError jsv :=
  if is_nullish v then Throws TypeErrorThrown else Returns (prop v k).

(** [v?.k] *)
Definition opt_member (v : jsv) (k : string) : jsv := if is_nullish v then JUndef else prop v k.
