(* ===== verification/MultiPartyPolicy.v ===== *)
(** * The multi-party policy block

    [limits.multiParty] (src/src/policy/resolver.ts and policy-shapes.ts): the
    typed block, the validator that guards it at both layers and the function
    that resolves it into the profile. *)

From S2P Require Import Prelude JsValue FeatureKeys.

(** ** The typed block *)

Inductive MultiPartyTier : Set := CoEqualTier | AsymmetricTier.
Inductive MultiPartyRoleClass : Set := CoEqual | AsymmetricPrimary | AsymmetricSecondary | GuardianFor.
Inductive MultiPartyInvitationChannel : Set := MagicLink | WosTask | OutOfBand.
Inductive MultiPartyExpirationAction : Set := VoidSubmission | ConvertToPartial.
Inductive MultiPartyVisibilityScope : Set := SharedScope | ScopedScope.

#[export, program] Instance MultiPartyTier_literal : Literal MultiPartyTier :=
  {| lit_string t := match t with CoEqualTier => "coEqual" | AsymmetricTier => "asymmetric" end;
     literals := [CoEqualTier; AsymmetricTier] |}.
Solve All Obligations with solve_literal.

#[export, program] Instance MultiPartyRoleClass_literal : Literal MultiPartyRoleClass :=
  {| lit_string r :=
       match r with
       | CoEqual => "coEqual" | AsymmetricPrimary => "asymmetricPrimary"
       | AsymmetricSecondary => "asymmetricSecondary" | GuardianFor => "guardianFor"
       end;
     literals := [CoEqual; AsymmetricPrimary; AsymmetricSecondary; GuardianFor] |}.
Solve All Obligations with solve_literal.

#[export, program] Instance MultiPartyInvitationChannel_literal : Literal MultiPartyInvitationChannel :=
  {| lit_string c :=
       match c with MagicLink => "magic-link" | WosTask => "wos-task" | OutOfBand => "out-of-band" end;
     literals := [MagicLink; WosTask; OutOfBand] |}.
Solve All Obligations with solve_literal.

#[export, program] Instance MultiPartyExpirationAction_literal : Literal MultiPartyExpirationAction :=
  {| lit_string a :=
       match a with VoidSubmission => "void-submission" | ConvertToPartial => "convert-to-partial" end;
     literals := [VoidSubmission; ConvertToPartial] |}.
Solve All Obligations with solve_literal.

#[export, program] Instance MultiPartyVisibilityScope_literal : Literal MultiPartyVisibilityScope :=
  {| lit_string s := match s with SharedScope => "shared" | ScopedScope => "scoped" end;
     literals := [SharedScope; ScopedScope] |}.
Solve All Obligations with solve_literal.

(** [max: number | 'unbounded']; [None] is ['unbounded']. *)
Record MultiPartyCardinality : Set := { card_min : Z; card_max : option Z }.

(** [label] and [assuranceFloor] are carried unchecked by the validator. *)
Record MultiPartyRolePolicy : Set := {
  roleId : string;
  label : jsv;
  role : MultiPartyRoleClass;
  cardinality : MultiPartyCardinality;
  assuranceFloor : jsv;
  visibilityScope : MultiPartyVisibilityScope;
  visibleTo : option (list string);
  editableBy : option (list string);
  signedBy : option (list string);
  safeAddressAudience : option (list string)
}.

Record MultiPartyDeadlinePolicy : Set := {
  perPartyDeadline : option string;
  expirationAction : MultiPartyExpirationAction
}.

Record MultiPartyRuntimeConfig : Set := {
  tier : MultiPartyTier;
  parties : list MultiPartyRolePolicy;
  invitationChannel : option MultiPartyInvitationChannel;
  deadlinePolicy : option MultiPartyDeadlinePolicy
}.

(** ** Reading a value at the typed block *)

Definition read_cardinality (v : jsv) : option MultiPartyCardinality :=
  match v with
  | JObj o =>
      mn ← as_integer (obj_get o "min");
      mx ← (if is_lit (obj_get o "max") "unbounded" then Some None
            else Some <$> as_integer (obj_get o "max"));
      Some {| card_min := mn; card_max := mx |}
  | _ => None
  end.

Definition read_party (v : jsv) : option MultiPartyRolePolicy :=
  match v with
  | JObj o =>
      rid ← str_of (obj_get o "roleId");
      r ← read_lit (obj_get o "role");
      sc ← read_lit (obj_get o "visibilityScope");
      card ← read_cardinality (obj_get o "cardinality");
      vt ← read_strings (obj_get o "visibleTo");
      eb ← read_strings (obj_get o "editableBy");
      sb ← read_strings (obj_get o "signedBy");
      sa ← read_strings (obj_get o "safeAddressAudience");
      Some {| roleId := rid; label := obj_get o "label"; role := r; cardinality := card;
              assuranceFloor := obj_get o "assuranceFloor"; visibilityScope := sc;
              visibleTo := vt; editableBy := eb; signedBy := sb; safeAddressAudience := sa |}
  | _ => None
  end.

Definition read_deadline (v : jsv) : option MultiPartyDeadlinePolicy :=
  match v with
  | JObj o =>
      ea ← read_lit (obj_get o "expirationAction");
      pd ← read_optional str_of (obj_get o "perPartyDeadline");
      Some {| perPartyDeadline := pd; expirationAction := ea |}
  | _ => None
  end.

Definition read_multi_party (v : jsv) : option MultiPartyRuntimeConfig :=
  match v with
  | JObj o =>
      t ← read_lit (obj_get o "tier");
      ps ← (match obj_get o "parties" with JArr l => mapM read_party l | _ => None end);
      ch ← read_optional read_lit (obj_get o "invitationChannel");
      dl ← read_optional read_deadline (obj_get o "deadlinePolicy");
      Some {| tier := t; parties := ps; invitationChannel := ch; deadlinePolicy := dl |}
  | _ => None
  end.

(** ** Well-formedness: what the validator promises beyond the type *)

Definition cardinality_wf (c : MultiPartyCardinality) : Prop :=
  (1 ≤ card_min c)%Z ∧ from_option (λ mx, card_min c ≤ mx)%Z True (card_max c).

Definition nonempty_strings (ss : option (list string)) : Prop :=
  from_option (Forall (λ s, s ≠ "")) True ss.

(** When both audiences are declared, some audience is in both. *)
Definition audiences_meet (sa vt : option (list string)) : Prop :=
  ∀ a b, sa = Some a → vt = Some b → ∃ x, x ∈ a ∧ x ∈ b.

Record party_wf (p : MultiPartyRolePolicy) : Prop := {
  wf_roleId : roleId p ≠ "";
  wf_cardinality : cardinality_wf (cardinality p);
  wf_visibleTo : nonempty_strings (visibleTo p);
  wf_editableBy : nonempty_strings (editableBy p);
  wf_signedBy : nonempty_strings (signedBy p);
  wf_safeAudience : nonempty_strings (safeAddressAudience p);
  wf_audiences : audiences_meet (safeAddressAudience p) (visibleTo p)
}.

Record multi_party_wf (c : MultiPartyRuntimeConfig) : Prop := {
  wf_two_parties : 2 ≤ length (parties c);
  wf_distinct_roles : NoDup (roleId <$> parties c);
  wf_parties : Forall party_wf (parties c);
  wf_deadline : ∀ d t, deadlinePolicy c = Some d → perPartyDeadline d = Some t → t ≠ ""
}.

(** ** The validator *)

Section validator.
Context (layer : RuntimePolicyDocumentKind).
Let bad (reason : string) : RuntimePolicyError := InvalidRuntimePolicyError layer reason.

Definition validateMultiPartyCardinality (value : jsv) : check :=
  throw_when (negb (isRecord value))
    (bad "limits.multiParty.parties[].cardinality must be an object") ;;
  throw_when
    (match as_integer (prop value "min") with Some mn => (mn <? 1)%Z | None => true end)
    (bad "limits.multiParty.parties[].cardinality.min must be a positive integer") ;;
  throw_when
    (negb (is_lit (prop value "max") "unbounded")
      && match as_integer (prop value "max"), as_integer (prop value "min") with
         | Some mx, Some mn => (mx <? mn)%Z
         | _, _ => true
         end)
    (bad "limits.multiParty.parties[].cardinality.max must be unbounded or an integer >= min").

(** The loop body over [parties]; the state is the [roleIds] set. *)
Definition validateMultiPartyParty (roleIds : list string) (party : jsv)
    : outcome RuntimePolicyError (list string) :=
  throw_when (negb (isRecord party))
    (bad "limits.multiParty.parties entries must be objects") ;;
  throw_when (negb (is_nonempty_string (prop party "roleId")))
    (bad "limits.multiParty.parties[].roleId must be a non-empty string") ;;
  let id := default "" (str_of (prop party "roleId")) in
  throw_when (str_in id roleIds)
    (bad ("limits.multiParty.parties roleId " +:+ dq +:+ id +:+ dq +:+ " is duplicated")) ;;
  throw_when
    (negb (is_one_of (prop party "role")
             ["coEqual"; "asymmetricPrimary"; "asymmetricSecondary"; "guardianFor"]))
    (bad "limits.multiParty.parties[].role must be coEqual | asymmetricPrimary | asymmetricSecondary | guardianFor") ;;
  throw_when (negb (is_one_of (prop party "visibilityScope") ["shared"; "scoped"]))
    (bad "limits.multiParty.parties[].visibilityScope must be shared | scoped") ;;
  validateMultiPartyCardinality (prop party "cardinality") ;;
  validateOptionalStringArray layer "limits.multiParty.parties[].visibleTo" (prop party "visibleTo") ;;
  validateOptionalStringArray layer "limits.multiParty.parties[].editableBy" (prop party "editableBy") ;;
  validateOptionalStringArray layer "limits.multiParty.parties[].signedBy" (prop party "signedBy") ;;
  validateOptionalStringArray layer "limits.multiParty.parties[].safeAddressAudience"
    (prop party "safeAddressAudience") ;;
  throw_when
    (truthy (prop party "safeAddressAudience") && truthy (prop party "visibleTo")
      && bool_decide
           (List.filter (λ entry, str_in entry (default [] (strings_of (prop party "visibleTo"))))
              (default [] (strings_of (prop party "safeAddressAudience"))) = []))
    (bad ("limits.multiParty.parties roleId " +:+ dq +:+ id +:+ dq
            +:+ " has an empty safe-address x party-policy audience intersection")) ;;
  Returns (roleIds ++ [id]).

(** The tail of [validateMultiPartyLimits]. *)
Definition validateMultiPartyDeadline (deadline : jsv) : check :=
  if is_undefined deadline then Returns () else
  throw_when (negb (isRecord deadline)) (bad "limits.multiParty.deadlinePolicy must be an object") ;;
  throw_when (negb (is_one_of (prop deadline "expirationAction") ["void-submission"; "convert-to-partial"]))
    (bad "limits.multiParty.deadlinePolicy.expirationAction must be void-submission | convert-to-partial") ;;
  throw_when
    (negb (is_undefined (prop deadline "perPartyDeadline"))
      && negb (is_nonempty_string (prop deadline "perPartyDeadline")))
    (bad "limits.multiParty.deadlinePolicy.perPartyDeadline must be a non-empty string").

Definition validateMultiPartyLimits (value : jsv) : check :=
  if is_undefined value then Returns () else
  throw_when (negb (isRecord value)) (bad "limits.multiParty must be an object") ;;
  throw_when (negb (is_one_of (prop value "tier") ["coEqual"; "asymmetric"]))
    (bad "limits.multiParty.tier must be coEqual | asymmetric") ;;
  throw_when
    (negb (is_array (prop value "parties")) || (length (arr_of (prop value "parties")) <? 2))
    (bad "limits.multiParty.parties must declare at least two party role slots") ;;
  fold_each validateMultiPartyParty [] (arr_of (prop value "parties")) ;;
  throw_when
    (negb (is_undefined (prop value "invitationChannel"))
      && negb (is_one_of (prop value "invitationChannel") ["magic-link"; "wos-task"; "out-of-band"]))
    (bad "limits.multiParty.invitationChannel must be magic-link | wos-task | out-of-band") ;;
  validateMultiPartyDeadline (prop value "deadlinePolicy").
End validator.

(** ** Resolution *)

(** [Object.freeze({ ...party, cardinality: Object.freeze({ ...party.cardinality }) })] *)
Definition resolve_party (party : jsv) : jsv :=
  JObj (obj_set (props_of party) "cardinality" (JObj (props_of (prop party "cardinality")))).

Definition resolveMultiPartyPolicy (value : jsv) : outcome RuntimePolicyError jsv :=
  validateMultiPartyLimits FormDoc value ;;
  throw_when (negb (truthy value))
    (InvalidRuntimePolicyError FormDoc "multiParty is enabled but limits.multiParty is not declared") ;;
  let policy := props_of value in
  let deadline := obj_get policy "deadlinePolicy" in
  Returns (JObj
    (obj_set
      (obj_set
        (obj_set policy "invitationChannel"
          (nullish_or (obj_get policy "invitationChannel") (JStr "out-of-band")))
        "parties" (JArr (resolve_party <$> arr_of (obj_get policy "parties"))))
      "deadlinePolicy" (if truthy deadline then JObj (props_of deadline) else JUndef))).

(** ** The validator accepts exactly the well-formed typed blocks *)

Section validator_lemmas.
Context (layer : RuntimePolicyDocumentKind).

Lemma validateMultiPartyCardinality_spec v :
  validateMultiPartyCardinality layer v = Returns () ↔
  ∃ c, read_cardinality v = Some c ∧ cardinality_wf c.
Proof.
  unfold validateMultiPartyCardinality, cardinality_wf, prop, throw_when.
  destruct v as [| | | | | |o]; simpl; try (split; [done | by intros (? & ? & _)]).
  destruct (as_integer (obj_get o "min")) as [mn|]; simpl; [|by split; [|intros (? & ? & _)]].
  destruct (Z.ltb_spec mn 1) as [Hmn|Hmn]; simpl.
  { split; [done|]. intros (c & Hc & ? & _).
    destruct (is_lit _ _), (as_integer (obj_get o "max")); simplify_eq/=; lia. }
  destruct (is_lit (obj_get o "max") "unbounded"); simpl.
  { split; [|done]. intros _. by eexists. }
  destruct (as_integer (obj_get o "max")) as [mx|]; simpl; [|by split; [|intros (? & ? & _)]].
  destruct (Z.ltb_spec mx mn) as [Hmx|Hmx]; simpl.
  - split; [done|]. intros (c & [= <-] & _ & ?); simpl in *; lia.
  - split; [|done]. intros _. by eexists.
Qed.

Lemma audiences_meet_check sa vt ra rv :
  read_strings sa = Some ra → read_strings vt = Some rv →
  truthy sa && truthy vt
    && bool_decide (List.filter (λ e, str_in e (default [] (strings_of vt)))
                      (default [] (strings_of sa)) = []) = false
  ↔ audiences_meet ra rv.
Proof.
  unfold audiences_meet. intros Hsa Hvt.
  destruct sa as [| | | | |la|]; simplify_eq/=; [by split|].
  destruct vt as [| | | | |lv|]; simplify_eq/=; [by split|].
  destruct (mapM str_of la) as [a|] eqn:Ea; simplify_eq/=.
  destruct (mapM str_of lv) as [b|] eqn:Eb; simplify_eq/=.
  apply mapM_str_of in Ea as ->. apply mapM_str_of in Eb as ->.
  rewrite bool_decide_eq_false, !omap_fmap_str, filter_nil_iff.
  split.
  - intros H a' b' [= <-] [= <-]. 
    destruct (decide (Exists (λ x, x ∈ b) a)) as [(x & ? & ?)%Exists_exists|Hno]; [by exists x|].
    destruct H. intros x Hx. apply not_true_is_false. rewrite str_in_spec. intros Hb.
    apply Hno, Exists_exists. eauto.
  - intros H Hno. destruct (H a b) as (x & Hx & Hb); [done..|].
    specialize (Hno x Hx). apply str_in_spec in Hb. simpl in *. congruence.
Qed.

Lemma validateMultiPartyParty_spec ids v ids' :
  validateMultiPartyParty layer ids v = Returns ids' ↔
  ∃ p, read_party v = Some p ∧ party_wf p ∧ (roleId p ∉ ids) ∧ ids' = ids ++ [roleId p].
Proof.
  unfold validateMultiPartyParty.
  destruct v as [| | | | | |o]; simpl; try (by split; [|intros (? & ? & _)]).
  unfold prop; simpl. split.
  - intros H. outcome_inv. split_andb.
    repeat match goal with
    | H : is_nonempty_string _ = true |- _ => apply is_nonempty_string_spec in H as (rid & Hrid & ?)
    | H : is_one_of _ ["coEqual"; _; _; _] = true |- _ =>
        apply (read_lit_of_is_one_of (A := MultiPartyRoleClass)) in H as [r Hr]; [|done]
    | H : is_one_of _ ["shared"; _] = true |- _ =>
        apply (read_lit_of_is_one_of (A := MultiPartyVisibilityScope)) in H as [sc Hsc]; [|done]
    | H : validateMultiPartyCardinality _ _ = _ |- _ =>
        apply validateMultiPartyCardinality_spec in H as (card & Hcard & ?)
    | H : validateOptionalStringArray _ _ _ = _ |- _ =>
        apply validateOptionalStringArray_spec in H as (? & ? & ?)
    end.
    rewrite Hrid, Hr, Hsc, Hcard in *; simpl in *. simplify_option_eq.
    eexists; split; [done|]; simpl. split; [|split; [|done]].
    + constructor; simpl; try done. eapply (λ sa vt ra rv A B, proj1 (audiences_meet_check sa vt ra rv A B)); eassumption.
    + by rewrite <- str_in_spec, not_true_iff_false.
  - intros (p & Hp & [] & Hnin & ->). option_inv.
    destruct (obj_get o "roleId") eqn:Hrid; simplify_eq/=.
    rewrite !seq_Returns, !throw_when_Returns. repeat split; try done.
    + by rewrite negb_false_iff, nonempty_spec.
    + by rewrite <- not_true_iff_false, str_in_spec.
    + apply negb_false_iff, (read_lit_of_is_one_of (A := MultiPartyRoleClass)); [done|eauto].
    + apply negb_false_iff, (read_lit_of_is_one_of (A := MultiPartyVisibilityScope)); [done|eauto].
    + apply validateMultiPartyCardinality_spec; eauto.
    + apply validateOptionalStringArray_spec; eauto.
    + apply validateOptionalStringArray_spec; eauto.
    + apply validateOptionalStringArray_spec; eauto.
    + apply validateOptionalStringArray_spec; eauto.
    + eapply (λ sa vt ra rv A B, proj2 (audiences_meet_check sa vt ra rv A B)); eassumption.
Qed.

(** The loop over the parties: every entry reads at the type and is
    well-formed, and the role ids are pairwise distinct. *)
Lemma validate_parties_spec l ids ids' :
  fold_each (validateMultiPartyParty layer) ids l = Returns ids' ↔
  ∃ ps, mapM read_party l = Some ps ∧ Forall party_wf ps ∧ ids' = ids ++ (roleId <$> ps)
    ∧ NoDup (roleId <$> ps) ∧ ∀ p, p ∈ ps → roleId p ∉ ids.
Proof.
  revert ids. induction l as [|x l IH]; intros ids; simpl.
  { split.
    - intros [= <-]. exists []. rewrite app_nil_r. repeat split; try constructor.
      by intros p ?%elem_of_nil.
    - intros (ps & [= <-] & _ & -> & _). by rewrite app_nil_r. }
  rewrite bind_Returns. setoid_rewrite IH. setoid_rewrite validateMultiPartyParty_spec. split.
  - intros (ids1 & (p & Hp & Hwf & Hnin & ->) & ps & Hps & Hall & -> & Hnd & Hdisj).
    exists (p :: ps). rewrite Hp. simpl. rewrite Hps. simpl. repeat split.
    + by constructor.
    + by rewrite <- app_assoc.
    + constructor; [|done]. intros (p' & Heq & Hin)%list_elem_of_fmap.
      apply (Hdisj p' Hin). rewrite <- Heq. set_solver.
    + intros p' [->|Hin]%elem_of_cons; [done|]. intros ?. apply (Hdisj p' Hin). set_solver.
  - intros (ps & Hps & Hall & -> & Hnd & Hdisj). simplify_option_eq.
    apply Forall_cons in Hall as [Hwf Hall].
    apply NoDup_cons in Hnd as [Hnin Hnd]. eexists. split.
    + eexists. split; [done|]. split; [done|]. split; [|done]. apply Hdisj. set_solver.
    + eexists. split; [done|]. split; [done|]. split; [|split; [done|]].
      * by rewrite <- app_assoc.
      * intros p' Hin [Hi|Hi]%elem_of_app; [apply (Hdisj p'); set_solver|].
        apply list_elem_of_singleton in Hi. apply Hnin. rewrite <- Hi. by apply list_elem_of_fmap_2.
Qed.

Definition deadline_wf (d : option MultiPartyDeadlinePolicy) : Prop :=
  ∀ d' t, d = Some d' → perPartyDeadline d' = Some t → t ≠ "".

Lemma validateMultiPartyDeadline_spec v :
  validateMultiPartyDeadline layer v = Returns () ↔
  ∃ d, read_optional read_deadline v = Some d ∧ deadline_wf d.
Proof.
  unfold validateMultiPartyDeadline, read_optional, deadline_wf.
  destruct (is_undefined v) eqn:Hu.
  { split; [|done]. intros _. exists None. by split. }
  destruct v as [| | | | | |o]; simpl; try (split; [done | by intros (? & ? & _)]).
  rewrite seq_Returns, !throw_when_Returns. unfold prop; simpl.
  rewrite negb_false_iff, (read_lit_of_is_one_of (A := MultiPartyExpirationAction)) by done.
  unfold read_optional. split.
  - intros [[ea ->] Hpd]. simpl.
    destruct (obj_get o "perPartyDeadline") as [| | | |t| |]; simplify_eq/=.
    + eexists. split; [done|]. by intros d' t [= <-] [=].
    + eexists. split; [done|]. intros d' t' [= <-] [= <-].
      by rewrite negb_false_iff, nonempty_spec in Hpd.
  - intros (d & Hd & Hwf). destruct (read_lit _) as [ea|] eqn:E; simplify_eq/=.
    split; [by exists ea|].
    destruct (obj_get o "perPartyDeadline") as [| | | |t| |]; simplify_eq/=; [done|].
    rewrite negb_false_iff, nonempty_spec. by eapply Hwf.
Qed.

Lemma validateMultiPartyLimits_spec v :
  validateMultiPartyLimits layer v = Returns () ↔
  v = JUndef ∨ ∃ cfg, read_multi_party v = Some cfg ∧ multi_party_wf cfg.
Proof.
  unfold validateMultiPartyLimits.
  destruct v as [| | | | | |o]; simpl;
    try (split; [done | intros [?|(? & ? & _)]; done]); [by split; [left|]|].
  rewrite seq_Returns, seq_Returns, bind_Returns, !throw_when_Returns. unfold prop; simpl.
  rewrite negb_false_iff, (read_lit_of_is_one_of (A := MultiPartyTier)) by done. split.
  - intros ([t Ht] & Hps & ids & Hfold & Hrest). right.
    rewrite seq_Returns, throw_when_Returns in Hrest. destruct Hrest as [Hch Hdl].
    apply (read_optional_lit (A := MultiPartyInvitationChannel)) in Hch as [ch Hch]; [|done].
    apply validateMultiPartyDeadline_spec in Hdl as (d & Hd & Hdwf).
    destruct (obj_get o "parties") as [| | | | |l|]; simpl in Hps; try done.
    apply validate_parties_spec in Hfold as (ps & Hps' & Hall & _ & Hnd & _).
    rewrite Ht, Hch, Hd. simpl in *. rewrite Hps'. simpl. eexists. split; [done|].
    constructor; simpl; try done.
    apply Nat.ltb_ge in Hps. by rewrite <- (length_mapM _ _ _ Hps').
  - intros [?|(cfg & Hcfg & [H2 Hnd Hall Hdl])]; [done|].
    destruct (read_lit (obj_get o "tier")) as [t|] eqn:Ht; simplify_eq/=.
    destruct (obj_get o "parties") as [| | | | |l|]; simplify_eq/=.
    destruct (mapM read_party l) as [ps|] eqn:Hps; simplify_eq/=.
    destruct (read_optional read_lit _) as [ch|] eqn:Hch; simplify_eq/=.
    destruct (read_optional read_deadline _) as [d|] eqn:Hd; simplify_eq/=.
    split; [eauto|]. split; [apply Nat.ltb_ge; by rewrite (length_mapM _ _ _ Hps)|].
    eexists. rewrite validate_parties_spec, seq_Returns, throw_when_Returns. split; [|split].
    + exists ps. split; [done|]. split; [done|]. split; [done|]. split; [done|].
      intros p _. apply not_elem_of_nil.
    + eapply (read_optional_lit (A := MultiPartyInvitationChannel)); eauto.
    + apply validateMultiPartyDeadline_spec. eauto.
Qed.
End validator_lemmas.

(** ** Resolution keeps the block and defaults the channel *)

Lemma read_resolve_party x p : read_party x = Some p → read_party (resolve_party x) = Some p.
Proof.
  destruct x as [| | | | | |o]; simpl; try done. intros H. unfold resolve_party; simpl.
  rewrite !obj_get_set; simpl. unfold prop; simpl.
  destruct (obj_get o "cardinality") as [| | | | | |c] eqn:E; simpl in *; try done;
    option_inv; done.
Qed.

Lemma read_resolve_parties l ps :
  mapM read_party l = Some ps → mapM read_party (resolve_party <$> l) = Some ps.
Proof.
  rewrite !mapM_Some. intros H. apply Forall2_fmap_l.
  eapply Forall2_impl; [exact H|]. intros x p. apply read_resolve_party.
Qed.

Definition with_channel (cfg : MultiPartyRuntimeConfig) (ch : MultiPartyInvitationChannel)
    : MultiPartyRuntimeConfig :=
  {| tier := tier cfg; parties := parties cfg; invitationChannel := Some ch;
     deadlinePolicy := deadlinePolicy cfg |}.

(** The profile's view of a declared block: the same block, with the
    invitation channel made explicit. *)
Definition resolved_view (cfg : MultiPartyRuntimeConfig) : MultiPartyRuntimeConfig :=
  with_channel cfg (default OutOfBand (invitationChannel cfg)).

Lemma read_channel_default v ch :
  read_optional read_lit v = Some ch →
  read_optional read_lit (nullish_or v (JStr "out-of-band")) = Some (Some (default OutOfBand ch)).
Proof.
  unfold read_optional. destruct (is_undefined v) eqn:Hu.
  - intros [= <-]. by destruct v.
  - intros (c & Hc & ->)%fmap_Some. apply read_lit_Some in Hc as ->. by destruct c.
Qed.

Lemma read_deadline_copy v d :
  read_optional read_deadline v = Some d →
  read_optional read_deadline (if truthy v then JObj (props_of v) else JUndef) = Some d.
Proof. by destruct v. Qed.

Lemma resolveMultiPartyPolicy_Returns value r :
  resolveMultiPartyPolicy value = Returns r →
  ∃ cfg, read_multi_party value = Some cfg ∧ multi_party_wf cfg ∧
         read_multi_party r = Some (resolved_view cfg).
Proof.
  unfold resolveMultiPartyPolicy. rewrite !seq_Returns, throw_when_Returns.
  intros (Hv & Ht & Hr). apply validateMultiPartyLimits_spec in Hv as [->|(cfg & Hcfg & Hwf)]; [done|].
  exists cfg. split; [done|]. split; [done|].
  destruct value as [| | | | | |o]; simpl in Hcfg; try done. simpl in Hr.
  injection Hr as <-. option_inv.
  simpl. rewrite !obj_get_set; simpl.
  destruct (obj_get o "parties") as [| | | | |l|]; simplify_eq/=.
  erewrite read_resolve_parties by done. simpl.
  erewrite read_channel_default by done. simpl.
  erewrite read_deadline_copy by done. simplify_option_eq. done.
Qed.

Lemma resolveMultiPartyPolicy_total value cfg :
  read_multi_party value = Some cfg → multi_party_wf cfg →
  ∃ r, resolveMultiPartyPolicy value = Returns r.
Proof.
  intros Hcfg Hwf. unfold resolveMultiPartyPolicy.
  rewrite (proj2 (validateMultiPartyLimits_spec FormDoc value)) by eauto.
  destruct value; try done. by eexists.
Qed.

Lemma resolved_view_wf cfg : multi_party_wf cfg → multi_party_wf (resolved_view cfg).
Proof. intros []. by constructor. Qed.

Lemma resolveMultiPartyPolicy_iff value :
  (∃ r, resolveMultiPartyPolicy value = Returns r) ↔
  ∃ cfg, read_multi_party value = Some cfg ∧ multi_party_wf cfg.
Proof.
  split.
  - intros [r (cfg & ? & ? & _)%resolveMultiPartyPolicy_Returns]. eauto.
  - intros (cfg & ? & ?). by eapply resolveMultiPartyPolicy_total.
Qed.
