(* ===== verification/SafeAddressPolicy.v ===== *)
(** * The safe-address policy block

    [limits.safeAddress] (src/src/policy/resolver.ts and policy-shapes.ts): the
    validator at both layers and the resolution that intersects the
    safe-address audiences with the party policy. *)

From S2P Require Import Prelude JsValue FeatureKeys.

Inductive SafeAddressAccessClass : Set := SafeAddressClass | SafeContactClass | SafeEmployerClass.
Inductive SafeAddressReceiptPostureTier : Set := VerifierGrade | Phase1Fallback.

#[export] Instance SafeAddressAccessClass_eq_dec : EqDecision SafeAddressAccessClass.
Proof. solve_decision. Defined.
#[export] Instance SafeAddressReceiptPostureTier_eq_dec : EqDecision SafeAddressReceiptPostureTier.
Proof. solve_decision. Defined.

#[export, program] Instance SafeAddressAccessClass_literal : Literal SafeAddressAccessClass :=
  {| lit_string c :=
       match c with
       | SafeAddressClass => "safe-address" | SafeContactClass => "safe-contact"
       | SafeEmployerClass => "safe-employer"
       end;
     literals := [SafeAddressClass; SafeContactClass; SafeEmployerClass] |}.
Solve All Obligations with solve_literal.

#[export, program] Instance SafeAddressReceiptPostureTier_literal :
  Literal SafeAddressReceiptPostureTier :=
  {| lit_string t :=
       match t with VerifierGrade => "verifier-grade" | Phase1Fallback => "phase-1-fallback" end;
     literals := [VerifierGrade; Phase1Fallback] |}.
Solve All Obligations with solve_literal.

(** [label] is carried unchecked. *)
Record SafeAddressFieldPolicy : Set := {
  field_path : string;
  field_label : jsv;
  field_class : SafeAddressAccessClass;
  field_visibleTo : option (list string);
  field_plaintext : option (list string);
  field_effective : option (list string)
}.

Record SafeAddressRendererHints : Set := {
  maskRenderToken : option string;
  revealAffordanceLabel : option string
}.

Record SafeAddressRuntimeConfig : Set := {
  enabledClasses : list SafeAddressAccessClass;
  receiptPostureTier : SafeAddressReceiptPostureTier;
  substituteAddressDirectoryRef : string;
  acpJurisdictionsAccepted : list string;
  authorizedAudiences : list string;
  fields : list SafeAddressFieldPolicy;
  rendererHints : option SafeAddressRendererHints
}.

Definition isSafeAddressAccessClass (value : jsv) : bool :=
  is_one_of value ["safe-address"; "safe-contact"; "safe-employer"].

Definition isSafeAddressReceiptPostureTier (value : jsv) : bool :=
  is_one_of value ["verifier-grade"; "phase-1-fallback"].

(** ** The validator *)

Section validator.
Context (layer : RuntimePolicyDocumentKind).
Let bad (reason : string) : RuntimePolicyError := InvalidRuntimePolicyError layer reason.

Definition validateSafeAddressField (value : jsv) : check :=
  throw_when (negb (isRecord value)) (bad "limits.safeAddress.fields entries must be objects") ;;
  throw_when
    (negb (match prop value "path" with JStr s => starts_with "/" s | _ => false end))
    (bad "limits.safeAddress.fields[].path must be an RFC 6901-style JSON pointer") ;;
  throw_when (negb (isSafeAddressAccessClass (prop value "accessClass")))
    (bad "limits.safeAddress.fields[].accessClass must be safe-address | safe-contact | safe-employer") ;;
  validateOptionalStringArray layer "limits.safeAddress.fields[].visibleTo" (prop value "visibleTo") ;;
  validateOptionalStringArray layer "limits.safeAddress.fields[].plaintextAudiences"
    (prop value "plaintextAudiences") ;;
  validateOptionalStringArray layer "limits.safeAddress.fields[].effectiveAudiences"
    (prop value "effectiveAudiences").

Definition validateSafeAddressLimits (value : jsv) : check :=
  if is_undefined value then Returns () else
  throw_when (negb (isRecord value)) (bad "limits.safeAddress must be an object") ;;
  throw_when
    (negb (is_undefined (prop value "receiptPostureTier"))
      && negb (isSafeAddressReceiptPostureTier (prop value "receiptPostureTier")))
    (bad "limits.safeAddress.receiptPostureTier must be verifier-grade | phase-1-fallback") ;;
  validateOptionalStringArray layer "limits.safeAddress.enabledClasses" (prop value "enabledClasses") ;;
  throw_when
    (is_array (prop value "enabledClasses")
      && negb (forallb isSafeAddressAccessClass (arr_of (prop value "enabledClasses"))))
    (bad "limits.safeAddress.enabledClasses entries must be safe-address | safe-contact | safe-employer") ;;
  validateOptionalStringArray layer "limits.safeAddress.acpJurisdictionsAccepted"
    (prop value "acpJurisdictionsAccepted") ;;
  validateOptionalStringArray layer "limits.safeAddress.authorizedAudiences"
    (prop value "authorizedAudiences") ;;
  throw_when
    (negb (is_undefined (prop value "substituteAddressDirectoryRef"))
      && negb (is_nonempty_string (prop value "substituteAddressDirectoryRef")))
    (bad "limits.safeAddress.substituteAddressDirectoryRef must be a non-empty string") ;;
  throw_when
    (negb (is_undefined (prop value "fields")) && negb (is_array (prop value "fields")))
    (bad "limits.safeAddress.fields must be an array") ;;
  for_each validateSafeAddressField (arr_of (prop value "fields")) ;;
  throw_when
    (negb (is_undefined (prop value "rendererHints")) && negb (isRecord (prop value "rendererHints")))
    (bad "limits.safeAddress.rendererHints must be an object").
End validator.

(** ** Readers of unchecked values *)

Definition stringValue (value : jsv) : option string :=
  match value with JStr s => if nonempty s then Some s else None | _ => None end.

Definition stringArrayFrom (value : jsv) : option (list string) :=
  match value with JArr l => Some (omap stringValue l) | _ => None end.

Definition nonEmptyStringArrayFrom (value : jsv) : option (list string) :=
  match stringArrayFrom value with
  | Some (x :: l) => Some (x :: l)
  | _ => None
  end.

Definition safeAddressLimitObject (value : jsv) : jsobj :=
  if isRecord value then props_of value else [].

(** A validated entry, at its type. *)
Definition read_field (v : jsv) : option SafeAddressFieldPolicy :=
  match v with
  | JObj o =>
      path ← str_of (obj_get o "path");
      cls ← read_lit (obj_get o "accessClass");
      vt ← read_strings (obj_get o "visibleTo");
      pa ← read_strings (obj_get o "plaintextAudiences");
      ea ← read_strings (obj_get o "effectiveAudiences");
      Some {| field_path := path; field_label := obj_get o "label"; field_class := cls;
              field_visibleTo := vt; field_plaintext := pa; field_effective := ea |}
  | _ => None
  end.

(** [value.map((entry) => entry as SafeAddressFieldPolicy)]: the cast keeps
    every entry, and every validated entry reads at the type
    ([fieldPolicies_exact]). *)
Definition fieldPolicies (value : jsv) : list SafeAddressFieldPolicy := omap read_field (arr_of value).

(** [[...new Set(values)]]: first occurrences, in order. *)
Fixpoint unique {A} `{EqDecision A} (values : list A) : list A :=
  match values with
  | [] => []
  | x :: l => x :: List.filter (λ y, negb (bool_decide (y = x))) (unique l)
  end.

(** ** Resolution *)

Definition resolveSafeAddressAuthorizedAudiences (orgValue formValue : jsv) : list string :=
  let orgAudiences := default ["issuer_verification"] (stringArrayFrom orgValue) in
  match nonEmptyStringArrayFrom formValue with
  | None => orgAudiences
  | Some formAudiences => List.filter (λ entry, str_in entry orgAudiences) formAudiences
  end.

Definition safeAddressTierRank (tier : SafeAddressReceiptPostureTier) : nat :=
  match tier with VerifierGrade => 2 | Phase1Fallback => 1 end.

Definition with_plaintext (field : SafeAddressFieldPolicy) (ps : list string) : SafeAddressFieldPolicy :=
  {| field_path := field_path field; field_label := field_label field;
     field_class := field_class field; field_visibleTo := field_visibleTo field;
     field_plaintext := Some ps; field_effective := field_effective field |}.

Definition field_error (field : SafeAddressFieldPolicy) (tail : string) : RuntimePolicyError :=
  InvalidRuntimePolicyError FormDoc
    ("safeAddress field " +:+ dq +:+ field_path field +:+ dq +:+ tail).

Definition resolveSafeAddressFieldAudience
    (field : SafeAddressFieldPolicy) (defaultPlaintextAudiences : list string)
    : outcome RuntimePolicyError SafeAddressFieldPolicy :=
  match field_effective field with
  | Some effective =>
      throw_when (bool_decide (effective = []))
        (field_error field " has an empty effective audience intersection") ;;
      let unauthorized := List.filter (λ e, negb (str_in e defaultPlaintextAudiences)) effective in
      throw_when (negb (bool_decide (unauthorized = [])))
        (field_error field " includes an effective audience not authorized by safe-address policy") ;;
      match field_visibleTo field with
      | Some visible =>
          throw_when (negb (bool_decide (List.filter (λ e, negb (str_in e visible)) effective = [])))
            (field_error field " includes an effective audience not allowed by party policy")
      | None => Returns ()
      end ;;
      Returns (with_plaintext field effective)
  | None =>
      let plaintext :=
        List.filter (λ e, str_in e defaultPlaintextAudiences)
          (default defaultPlaintextAudiences (field_plaintext field)) in
      throw_when (bool_decide (plaintext = []))
        (field_error field " has no plaintext audience authorized by safe-address policy") ;;
      match field_visibleTo field with
      | Some visible =>
          let intersection := List.filter (λ e, str_in e plaintext) visible in
          throw_when (bool_decide (intersection = []))
            (field_error field " has no audience allowed by both party policy and safe-address policy") ;;
          Returns (with_plaintext field intersection)
      | None => Returns (with_plaintext field plaintext)
      end
  end.

Definition safeAddressRendererHints (value : jsv) : option SafeAddressRendererHints :=
  if isRecord value then
    let mask := stringValue (prop value "maskRenderToken") in
    let reveal := stringValue (prop value "revealAffordanceLabel") in
    match mask, reveal with
    | None, None => None
    | _, _ => Some {| maskRenderToken := mask; revealAffordanceLabel := reveal |}
    end
  else None.

(** The class list: the form's, else the org's, else the fields' own. *)
Definition resolve_enabled_classes (org form : jsobj) (fs : list SafeAddressFieldPolicy)
    : list SafeAddressAccessClass :=
  match nonEmptyStringArrayFrom (obj_get form "enabledClasses") with
  | Some l => omap (λ s, read_lit (JStr s)) l
  | None =>
      match nonEmptyStringArrayFrom (obj_get org "enabledClasses") with
      | Some l => omap (λ s, read_lit (JStr s)) l
      | None => unique (field_class <$> fs)
      end
  end.

Definition resolveSafeAddressPolicy (orgLimit formLimit : jsv)
    : outcome RuntimePolicyError SafeAddressRuntimeConfig :=
  let org := safeAddressLimitObject orgLimit in
  let form := safeAddressLimitObject formLimit in
  let fs := fieldPolicies (obj_get form "fields") in
  let classes := resolve_enabled_classes org form fs in
  let audiences :=
    resolveSafeAddressAuthorizedAudiences
      (obj_get org "authorizedAudiences") (obj_get form "authorizedAudiences") in
  let jurisdictions :=
    default (default [] (stringArrayFrom (obj_get org "acpJurisdictionsAccepted")))
      (nonEmptyStringArrayFrom (obj_get form "acpJurisdictionsAccepted")) in
  let deploymentTier := default Phase1Fallback (read_lit (obj_get org "receiptPostureTier")) in
  let tier := default deploymentTier (read_lit (obj_get form "receiptPostureTier")) in
  throw_when (bool_decide (length fs = 0))
    (InvalidRuntimePolicyError FormDoc "safeAddress is enabled but no safe-* field policy was declared") ;;
  throw_when (bool_decide (length classes = 0))
    (InvalidRuntimePolicyError FormDoc "safeAddress is enabled but no safe-* class was declared") ;;
  throw_when (bool_decide (length jurisdictions = 0))
    (InvalidRuntimePolicyError OrgDoc
       "safeAddress is enabled but no accepted protection jurisdiction is configured") ;;
  throw_when (bool_decide (length audiences = 0))
    (InvalidRuntimePolicyError OrgDoc
       "safeAddress is enabled but no authorized plaintext audience is configured") ;;
  throw_when (safeAddressTierRank deploymentTier <? safeAddressTierRank tier)
    (UnsupportedRequiredFeatureError SafeAddress
       ("safeAddress receiptPostureTier " +:+ dq +:+ lit_string tier +:+ dq
          +:+ " exceeds deployment capability " +:+ dq +:+ lit_string deploymentTier +:+ dq)) ;;
  resolvedFields ← map_each (λ f, resolveSafeAddressFieldAudience f audiences) fs;
  Returns
    {| enabledClasses := classes;
       receiptPostureTier := tier;
       substituteAddressDirectoryRef :=
         default
           (default "composition:safeAddressDirectory"
              (stringValue (obj_get org "substituteAddressDirectoryRef")))
           (stringValue (obj_get form "substituteAddressDirectoryRef"));
       acpJurisdictionsAccepted := jurisdictions;
       authorizedAudiences := audiences;
       fields := resolvedFields;
       rendererHints :=
         safeAddressRendererHints (nullish_or (obj_get form "rendererHints") (obj_get org "rendererHints")) |}.

(** ** The validator accepts exactly the well-formed typed limits *)

Record SafeAddressLimits : Set := {
  lim_tier : option SafeAddressReceiptPostureTier;
  lim_classes : option (list SafeAddressAccessClass);
  lim_jurisdictions : option (list string);
  lim_audiences : option (list string);
  lim_directory : option string;
  lim_fields : option (list SafeAddressFieldPolicy);
  lim_hints : option jsobj
}.

Definition read_array {A} (rd : jsv → option A) (v : jsv) : option (list A) :=
  match v with JArr l => mapM rd l | _ => None end.

Definition read_object (v : jsv) : option jsobj := match v with JObj o => Some o | _ => None end.

Definition read_safe_limits (v : jsv) : option SafeAddressLimits :=
  match v with
  | JObj o =>
      t ← read_optional read_lit (obj_get o "receiptPostureTier");
      cs ← read_optional (read_array read_lit) (obj_get o "enabledClasses");
      js ← read_strings (obj_get o "acpJurisdictionsAccepted");
      aud ← read_strings (obj_get o "authorizedAudiences");
      dir ← read_optional str_of (obj_get o "substituteAddressDirectoryRef");
      fs ← read_optional (read_array read_field) (obj_get o "fields");
      hs ← read_optional read_object (obj_get o "rendererHints");
      Some {| lim_tier := t; lim_classes := cs; lim_jurisdictions := js; lim_audiences := aud;
              lim_directory := dir; lim_fields := fs; lim_hints := hs |}
  | _ => None
  end.

Definition nonempty_list (ss : option (list string)) : Prop :=
  from_option (Forall (λ s, s ≠ "")) True ss.

Record field_wf (f : SafeAddressFieldPolicy) : Prop := {
  wf_path : starts_with "/" (field_path f) = true;
  wf_field_visible : nonempty_list (field_visibleTo f);
  wf_field_plaintext : nonempty_list (field_plaintext f);
  wf_field_effective : nonempty_list (field_effective f)
}.

Record safe_limits_wf (l : SafeAddressLimits) : Prop := {
  wf_jurisdictions : nonempty_list (lim_jurisdictions l);
  wf_limit_audiences : nonempty_list (lim_audiences l);
  wf_directory : from_option (λ s, s ≠ "") True (lim_directory l);
  wf_fields : from_option (Forall field_wf) True (lim_fields l)
}.

Section validator_lemmas.
Context (layer : RuntimePolicyDocumentKind).

Lemma validateSafeAddressField_spec v :
  validateSafeAddressField layer v = Returns () ↔ ∃ f, read_field v = Some f ∧ field_wf f.
Proof.
  unfold validateSafeAddressField.
  destruct v as [| | | | | |o]; simpl; try (by split; [|intros (? & ? & _)]).
  unfold prop; simpl.
  rewrite !seq_Returns, !throw_when_Returns, !negb_false_iff, !validateOptionalStringArray_spec.
  unfold isSafeAddressAccessClass.
  rewrite (read_lit_of_is_one_of (A := SafeAddressAccessClass)) by done. split.
  - intros (Hp & (c & Hc) & (vt & Hvt & ?) & (pa & Hpa & ?) & (ea & Hea & ?)).
    destruct (obj_get o "path"); simpl in Hp; try done.
    rewrite Hc, Hvt, Hpa, Hea. simpl. eexists. by split; [|constructor].
  - intros (f & Hf & []). option_inv.
    destruct (obj_get o "path"); simplify_eq/=. split; [done|]. split; [by eexists|].
    split; [|split]; eexists; (split; [eassumption|done]).
Qed.

Lemma validate_fields_spec l :
  for_each (validateSafeAddressField layer) l = Returns () ↔
  ∃ fs, mapM read_field l = Some fs ∧ Forall field_wf fs.
Proof.
  rewrite for_each_Returns. setoid_rewrite mapM_Some. split.
  - intros H. induction H as [|x l Hx _ (fs & ? & ?)]; [by exists []; repeat constructor|].
    apply validateSafeAddressField_spec in Hx as (f & ? & ?). exists (f :: fs). by split; constructor.
  - intros (fs & H & Hwf). induction H as [|x f l fs Hx H IH]; [done|].
    apply Forall_cons in Hwf as [Hf Hwf]. constructor; [|by apply IH].
    apply validateSafeAddressField_spec. eauto.
Qed.

Lemma enabled_classes_spec v :
  validateOptionalStringArray layer "limits.safeAddress.enabledClasses" v = Returns () ∧
  is_array v && negb (forallb isSafeAddressAccessClass (arr_of v)) = false ↔
  ∃ cs : option (list SafeAddressAccessClass), read_optional (read_array read_lit) v = Some cs.
Proof.
  rewrite validateOptionalStringArray_spec. unfold read_optional.
  destruct v as [| | | | |l|]; simpl;
    try solve [split; [intros [(? & ? & _) _]; simplify_eq | intros [? ?]; simplify_eq]];
    [split; [by exists None|intros _; split; [by exists None|done]]|].
  rewrite negb_false_iff, forallb_Forall. split.
  - intros [_ H]. assert (∃ cs : list SafeAddressAccessClass, mapM read_lit l = Some cs) as [cs ->];
      [|by eexists].
    setoid_rewrite mapM_Some. induction H as [|x l Hx _ [cs IH]]; [by exists []; constructor|].
    apply (read_lit_of_is_one_of (A := SafeAddressAccessClass)) in Hx as [c Hc]; [|done].
    exists (c :: cs). by constructor.
  - intros [cs H]. destruct (mapM read_lit l) as [cs'|] eqn:E; simplify_eq/=.
    apply mapM_Some in E.
    assert (l = JStr <$> (lit_string <$> cs')) as ->.
    { induction E as [|x c l cs Hx _ IH]; [done|]. apply read_lit_Some in Hx as ->. csimpl. by f_equal. }
    split.
    + exists (Some (lit_string <$> cs')). rewrite mapM_str_of_map. split; [done|]. simpl.
      apply Forall_fmap, Forall_true. by intros [].
    + rewrite !Forall_fmap. apply Forall_true. by intros [].
Qed.

Lemma read_optional_nonempty v :
  negb (is_undefined v) && negb (is_nonempty_string v) = false ↔
  ∃ s, read_optional str_of v = Some s ∧ from_option (λ s, s ≠ "") True s.
Proof.
  unfold read_optional. destruct v as [| | | |s| |]; simpl;
    try (split; [done | by intros (? & ? & _)]); [by split; [exists None|]|].
  rewrite negb_false_iff, nonempty_spec. split; [by eexists|]. by intros (? & [= <-] & ?).
Qed.

Lemma read_optional_object v :
  negb (is_undefined v) && negb (isRecord v) = false ↔ ∃ o, read_optional read_object v = Some o.
Proof.
  unfold read_optional. destruct v; simpl; try (split; [done | by intros (? & ?)]); (split; [by eexists|done]).
Qed.

Lemma read_optional_fields v :
  negb (is_undefined v) && negb (is_array v) = false ∧
  for_each (validateSafeAddressField layer) (arr_of v) = Returns () ↔
  ∃ fs, read_optional (read_array read_field) v = Some fs ∧ from_option (Forall field_wf) True fs.
Proof.
  rewrite validate_fields_spec. unfold read_optional. destruct v as [| | | | |l|]; simpl;
    try (split; [by intros [? _] | by intros (? & ? & _)]).
  - split; [by exists None|]. intros _. split; [done|]. by exists [].
  - split.
    + intros (_ & fs & -> & ?). by exists (Some fs).
    + intros (fs & H & Hwf). destruct (mapM read_field l) as [fs'|]; simplify_eq/=. eauto.
Qed.

Lemma validateSafeAddressLimits_spec v :
  validateSafeAddressLimits layer v = Returns () ↔
  v = JUndef ∨ ∃ l, read_safe_limits v = Some l ∧ safe_limits_wf l.
Proof.
  unfold validateSafeAddressLimits.
  destruct v as [| | | | | |o]; simpl;
    try (split; [done | intros [?|(? & ? & _)]; done]); [by split; [left|]|].
  unfold prop; simpl. rewrite !seq_Returns, !throw_when_Returns, read_optional_object,
    read_optional_nonempty, !(validateOptionalStringArray_spec _ _ (obj_get o "acpJurisdictionsAccepted")),
    !(validateOptionalStringArray_spec _ _ (obj_get o "authorizedAudiences")).
  unfold isSafeAddressReceiptPostureTier.
  rewrite (read_optional_lit (A := SafeAddressReceiptPostureTier)) by done. split.
  - intros ([t Ht] & Hc1 & Hc2 & (js & Hjs & ?) & (aud & Haud & ?) & (dir & Hdir & ?) & Hf1 & Hf2 & [hs Hhs]).
    destruct (proj1 (enabled_classes_spec _) (conj Hc1 Hc2)) as [cs Hcs].
    destruct (proj1 (read_optional_fields _) (conj Hf1 Hf2)) as (fs & Hfs & ?).
    right. rewrite Ht, Hcs, Hjs, Haud, Hdir, Hfs, Hhs. eexists. by split; [|constructor].
  - intros [?|(l & Hl & [])]; [done|]. option_inv.
    match goal with H : read_optional (read_array read_lit) _ = Some _ |- _ =>
      destruct (proj2 (enabled_classes_spec _) (ex_intro _ _ H)) as [Hc1 Hc2] end.
    match goal with H : read_optional (read_array read_field) _ = Some _ |- _ =>
      destruct (proj2 (read_optional_fields _) (ex_intro _ _ (conj H wf_fields0))) as [Hf1 Hf2] end.
    eauto 20.
Qed.

(** The cast of [fieldPolicies] loses nothing on a validated block. *)
Lemma fieldPolicies_exact v :
  validateSafeAddressLimits layer v = Returns () →
  mapM read_field (arr_of (prop v "fields")) = Some (fieldPolicies (prop v "fields")) ∧
  Forall field_wf (fieldPolicies (prop v "fields")).
Proof.
  intros H. assert (∃ fs, mapM read_field (arr_of (prop v "fields")) = Some fs ∧ Forall field_wf fs)
    as (fs & Hfs & Hwf).
  { apply validate_fields_spec. unfold validateSafeAddressLimits in H.
    destruct (is_undefined v) eqn:Hu; [by destruct v|]. outcome_inv. by apply for_each_Returns. }
  assert (fieldPolicies (prop v "fields") = fs) as ->; [|done].
  unfold fieldPolicies. apply mapM_Some in Hfs. induction Hfs as [|x f l fs Hx _ IH]; [done|].
  apply Forall_cons in Hwf as [_ Hwf]. cbn. rewrite Hx. f_equal. by apply IH.
Qed.
End validator_lemmas.

(** ** What resolution guarantees *)

(** The audience a resolved field may be shown to. *)
Record audience_ok (aud : list string) (declared resolved : SafeAddressFieldPolicy) (ps : list string) : Prop := {
  ok_field : resolved = with_plaintext declared ps;
  ok_nonempty : ps ≠ [];
  ok_authorized : ps ⊆ aud;
  ok_party : ∀ vt, field_visibleTo declared = Some vt → ps ⊆ vt;
  ok_effective : ∀ es, field_effective declared = Some es → ps = es;
  ok_plaintext : field_effective declared = None →
    ∀ pa, field_plaintext declared = Some pa → ps ⊆ pa
}.

Lemma filter_str_in_subset l k : List.filter (λ e, str_in e l) k ⊆ l.
Proof. intros x [_ H]%elem_of_filterb. by apply str_in_spec. Qed.

Lemma filter_str_in_subset' {A} (f : A → bool) k : List.filter f k ⊆ k.
Proof. by intros x [? _]%elem_of_filterb. Qed.

Lemma unauthorized_nil l k : List.filter (λ e, negb (str_in e l)) k = [] ↔ k ⊆ l.
Proof.
  rewrite filter_negb_nil. unfold subseteq, list_subseteq. by setoid_rewrite str_in_spec.
Qed.

Lemma resolveSafeAddressFieldAudience_Returns f aud f' :
  resolveSafeAddressFieldAudience f aud = Returns f' → ∃ ps, audience_ok aud f f' ps.
Proof.
  unfold resolveSafeAddressFieldAudience. destruct (field_effective f) as [es|] eqn:Hes.
  - rewrite !seq_Returns, !throw_when_Returns, negb_false_iff, bool_decide_eq_false,
      bool_decide_eq_true, unauthorized_nil.
    intros (Hne & Haud & Hvis & [= <-]). exists es. split; try done; [|congruence|congruence].
    intros vt Hvt. rewrite Hvt, throw_when_Returns, negb_false_iff, bool_decide_eq_true,
      unauthorized_nil in Hvis. done.
  - rewrite seq_Returns, throw_when_Returns, bool_decide_eq_false. intros [Hne H].
    destruct (field_visibleTo f) as [vt|] eqn:Hvt.
    + rewrite seq_Returns, throw_when_Returns, bool_decide_eq_false in H.
      destruct H as [Hne' [= <-]]. eexists. split; [done|done| | |congruence|].
      * etransitivity; [apply filter_str_in_subset|]. apply filter_str_in_subset.
      * rewrite Hvt; intros vt' [= <-]. apply filter_str_in_subset'.
      * intros _ pa Hpa. rewrite Hpa. simpl.
        etransitivity; [apply filter_str_in_subset|]. apply filter_str_in_subset'.
    + injection H as <-. eexists. split; [done|done| |congruence|congruence|].
      * apply filter_str_in_subset.
      * intros _ pa Hpa. rewrite Hpa. apply filter_str_in_subset'.
Qed.

(** The org's own audiences, with the source's default. *)
Definition deployment_audiences (orgLimit : jsv) : list string :=
  default ["issuer_verification"]
    (stringArrayFrom (obj_get (safeAddressLimitObject orgLimit) "authorizedAudiences")).

Definition deployment_tier (orgLimit : jsv) : SafeAddressReceiptPostureTier :=
  default Phase1Fallback (read_lit (obj_get (safeAddressLimitObject orgLimit) "receiptPostureTier")).

Definition declared_fields (formLimit : jsv) : list SafeAddressFieldPolicy :=
  fieldPolicies (obj_get (safeAddressLimitObject formLimit) "fields").

Record safe_config_ok (orgLimit formLimit : jsv) (cfg : SafeAddressRuntimeConfig) : Prop := {
  safe_audiences : authorizedAudiences cfg ⊆ deployment_audiences orgLimit;
  safe_audiences_ne : authorizedAudiences cfg ≠ [];
  safe_jurisdictions_ne : acpJurisdictionsAccepted cfg ≠ [];
  safe_classes_ne : enabledClasses cfg ≠ [];
  safe_fields_ne : fields cfg ≠ [];
  safe_tier :
    safeAddressTierRank (receiptPostureTier cfg) ≤ safeAddressTierRank (deployment_tier orgLimit);
  safe_fields :
    Forall2 (λ d r, ∃ ps, audience_ok (authorizedAudiences cfg) d r ps)
      (declared_fields formLimit) (fields cfg)
}.

Lemma authorized_audiences_subset orgValue formValue :
  resolveSafeAddressAuthorizedAudiences orgValue formValue
    ⊆ default ["issuer_verification"] (stringArrayFrom orgValue).
Proof.
  unfold resolveSafeAddressAuthorizedAudiences.
  destruct (nonEmptyStringArrayFrom formValue); [apply filter_str_in_subset|done].
Qed.

Lemma resolveSafeAddressPolicy_Returns orgLimit formLimit cfg :
  resolveSafeAddressPolicy orgLimit formLimit = Returns cfg → safe_config_ok orgLimit formLimit cfg.
Proof.
  unfold resolveSafeAddressPolicy. rewrite !seq_Returns, !throw_when_Returns, !bool_decide_eq_false.
  intros (Hf & Hc & Hj & Ha & Ht & (fs & Hfs & [= <-])%bind_Returns).
  apply Nat.ltb_ge in Ht. apply map_each_Returns in Hfs.
  split; simpl; try (intros E; by rewrite E in *).
  - apply authorized_audiences_subset.
  - intros E. apply Hf. rewrite E in Hfs. by apply Forall2_length in Hfs.
  - done.
  - eapply Forall2_impl; [exact Hfs|]. intros d r. apply resolveSafeAddressFieldAudience_Returns.
Qed.
