(* ===== verification/RecordLifecyclePolicy.v ===== *)
(** * The record-lifecycle policy block

    [recordLifecycle] (src/src/policy/resolver.ts and policy-shapes.ts): the
    per-layer validator, the merge of the org and form layers and the resolved
    act-level policy.  Policies stay unchecked values until they are resolved,
    because the merge is an object spread: an own property whose value is
    [undefined] in the form layer overrides the org layer. *)

From S2P Require Import Prelude JsValue FeatureKeys.

Inductive RecordLifecycleAction : Set := Correctable | Withdrawable | Disputable.

Definition action_string (a : RecordLifecycleAction) : string :=
  match a with
  | Correctable => "correctable" | Withdrawable => "withdrawable" | Disputable => "disputable"
  end.

Inductive RecordLifecyclePartyScope : Set := AnyParty | AllPartiesMustAgree.
Inductive PreDeterminationKernelMode : Set := ApplicantWithdrawn.
Inductive PostDeterminationIntent : Set := RescissionRequested.
Inductive WindowState : Set := OpenState | ClosesAtState | ClosedState.

#[export, program] Instance RecordLifecyclePartyScope_literal : Literal RecordLifecyclePartyScope :=
  {| lit_string s :=
       match s with AnyParty => "any-party" | AllPartiesMustAgree => "all-parties-must-agree" end;
     literals := [AnyParty; AllPartiesMustAgree] |}.
Solve All Obligations with solve_literal.
#[export, program] Instance PreDeterminationKernelMode_literal : Literal PreDeterminationKernelMode :=
  {| lit_string s := match s with ApplicantWithdrawn => "applicant-withdrawn" end;
     literals := [ApplicantWithdrawn] |}.
Solve All Obligations with solve_literal.
#[export, program] Instance PostDeterminationIntent_literal : Literal PostDeterminationIntent :=
  {| lit_string s := match s with RescissionRequested => "rescission-requested" end;
     literals := [RescissionRequested] |}.
Solve All Obligations with solve_literal.
#[export, program] Instance WindowState_literal : Literal WindowState :=
  {| lit_string s :=
       match s with OpenState => "open" | ClosesAtState => "closes-at" | ClosedState => "closed" end;
     literals := [OpenState; ClosesAtState; ClosedState] |}.
Solve All Obligations with solve_literal.

(** The four window shapes a policy may declare, and the three a profile has. *)
Inductive RecordLifecycleWindowPolicy : Set :=
  | WindowOpen
  | WindowClosesAt (closesAt : string)
  | WindowClosed (closedAt : option string)
  | WindowBareClosesAt (closesAt : string).

Inductive ResolvedRecordLifecycleWindow : Set :=
  | ResolvedOpen
  | ResolvedClosesAt (closesAt : string)
  | ResolvedClosed (closedAt : option string).

Record ResolvedRecordLifecycleCorrectablePolicy : Set := {
  c_enabled : bool;
  c_fieldSet : option (list string);
  c_window : option ResolvedRecordLifecycleWindow;
  c_requiresEvidence : bool;
  c_requiresReason : bool
}.

Record ResolvedRecordLifecycleWithdrawablePolicy : Set := {
  w_enabled : bool;
  w_window : option ResolvedRecordLifecycleWindow;
  w_requiresReason : bool;
  w_kernelMode : PreDeterminationKernelMode;
  w_postIntent : option PostDeterminationIntent;
  w_requiresIssuerAcceptance : bool;
  w_partyScope : RecordLifecyclePartyScope
}.

Record ResolvedRecordLifecycleDisputablePolicy : Set := {
  d_enabled : bool;
  d_window : option ResolvedRecordLifecycleWindow;
  d_requiresEvidence : bool;
  d_requiresReason : bool;
  d_signerOnly : bool
}.

Record ResolvedRecordLifecyclePolicy : Set := {
  correctable : option ResolvedRecordLifecycleCorrectablePolicy;
  withdrawable : option ResolvedRecordLifecycleWithdrawablePolicy;
  disputable : option ResolvedRecordLifecycleDisputablePolicy
}.

(** ** The validator *)

Section validator.
Context (source : RuntimePolicyDocumentKind).
Let bad (reason : string) : RuntimePolicyError := InvalidRuntimePolicyError source reason.

Definition validateRecordLifecycleWindow (action : RecordLifecycleAction) (value : jsv) : check :=
  let cite := "recordLifecycle." +:+ action_string action +:+ ".window" in
  if is_undefined value then Returns () else
  throw_when (negb (is_object value)) (bad (cite +:+ " must be an object")) ;;
  if has_own (props_of value) "state" then
    throw_when (negb (is_one_of (prop value "state") ["open"; "closes-at"; "closed"]))
      (bad (cite +:+ ".state must be open | closes-at | closed")) ;;
    throw_when (is_lit (prop value "state") "closes-at" && negb (is_string (prop value "closesAt")))
      (bad (cite +:+ ".closesAt must be a string")) ;;
    throw_when
      (is_lit (prop value "state") "closed" && negb (is_undefined (prop value "closedAt"))
        && negb (is_string (prop value "closedAt")))
      (bad (cite +:+ ".closedAt must be a string"))
  else
    throw_when (negb (has_own (props_of value) "closesAt") || negb (is_string (prop value "closesAt")))
      (bad (cite +:+ ".closesAt must be a string")).

Definition is_pointer (v : jsv) : bool :=
  match v with JStr s => starts_with "/" s | _ => false end.

Definition validateFieldSet (fieldSet : list jsv) : check :=
  for_each (λ path,
    throw_when (negb (is_pointer path))
      (bad "recordLifecycle.correctable.correctableFieldSet entries must be RFC 6901-style JSON pointer strings"))
    fieldSet.

Definition validateOptionalBoolean (action : RecordLifecycleAction) (property : string) (value : jsv) : check :=
  throw_when (negb (is_undefined value) && negb (is_boolean value))
    (bad ("recordLifecycle." +:+ action_string action +:+ "." +:+ property +:+ " must be a boolean")).

(** The three action-specific tails of [validateRecordLifecycleAction]. *)
Definition validateCorrectable (value : jsv) : check :=
  (if is_true (prop value "enabled") then
     throw_when (negb (is_array (prop value "correctableFieldSet")))
       (bad "recordLifecycle.correctable.correctableFieldSet must be declared when correctable is enabled") ;;
     throw_when (bool_decide (length (arr_of (prop value "correctableFieldSet")) = 0))
       (bad "recordLifecycle.correctable.correctableFieldSet must not be empty")
   else Returns ()) ;;
  (* [for (const path of fieldSet)] on a value that is not an array: a string
     iterates over its characters, anything else is not iterable *)
  match prop value "correctableFieldSet" with
  | JUndef => Returns ()
  | JArr l => validateFieldSet l
  | JStr s => validateFieldSet (JStr <$> ((λ c, String c EmptyString) <$> String.list_ascii_of_string s))
  | _ => Throws TypeErrorThrown
  end ;;
  validateOptionalBoolean Correctable "requiresEvidence" (prop value "requiresEvidence") ;;
  validateOptionalBoolean Correctable "requiresReason" (prop value "requiresReason").

Definition validateWithdrawable (value : jsv) : check :=
  validateOptionalBoolean Withdrawable "requiresReason" (prop value "requiresReason") ;;
  validateOptionalBoolean Withdrawable "requiresIssuerAcceptance" (prop value "requiresIssuerAcceptance") ;;
  throw_when
    (negb (is_undefined (prop value "preDeterminationKernelMode"))
      && negb (is_one_of (prop value "preDeterminationKernelMode") ["applicant-withdrawn"]))
    (bad ("recordLifecycle.withdrawable.preDeterminationKernelMode must be " +:+ dq
            +:+ "applicant-withdrawn" +:+ dq)) ;;
  throw_when
    (negb (is_undefined (prop value "postDeterminationIntent"))
      && negb (is_one_of (prop value "postDeterminationIntent") ["rescission-requested"]))
    (bad ("recordLifecycle.withdrawable.postDeterminationIntent must be " +:+ dq
            +:+ "rescission-requested" +:+ dq)) ;;
  throw_when
    (is_lit (prop value "postDeterminationIntent") "rescission-requested"
      && negb (is_true (prop value "requiresIssuerAcceptance")))
    (bad "recordLifecycle.withdrawable.requiresIssuerAcceptance must be true when postDeterminationIntent is configured") ;;
  throw_when
    (negb (is_undefined (prop value "partyScope"))
      && negb (is_one_of (prop value "partyScope") ["any-party"; "all-parties-must-agree"]))
    (bad "recordLifecycle.withdrawable.partyScope must be any-party | all-parties-must-agree").

Definition validateDisputable (value : jsv) : check :=
  validateOptionalBoolean Disputable "requiresEvidence" (prop value "requiresEvidence") ;;
  validateOptionalBoolean Disputable "requiresReason" (prop value "requiresReason") ;;
  validateOptionalBoolean Disputable "signerOnly" (prop value "signerOnly").

Definition validateRecordLifecycleAction (action : RecordLifecycleAction) (value : jsv) : check :=
  if is_undefined value then Returns () else
  enabled ← get_member value "enabled";
  throw_when (negb (is_boolean enabled))
    (bad ("recordLifecycle." +:+ action_string action +:+ ".enabled must be a boolean")) ;;
  validateRecordLifecycleWindow action (prop value "window") ;;
  match action with
  | Correctable => validateCorrectable value
  | Withdrawable => validateWithdrawable value
  | Disputable => validateDisputable value
  end.

Definition validateRecordLifecyclePolicy (value : jsv) : check :=
  if is_undefined value then Returns () else
  c ← get_member value "correctable";
  validateRecordLifecycleAction Correctable c ;;
  validateRecordLifecycleAction Withdrawable (prop value "withdrawable") ;;
  validateRecordLifecycleAction Disputable (prop value "disputable").
End validator.

(** ** Merge and resolution *)

(** [{ ...orgAction, ...formAction }], or [undefined] when neither is there. *)
Definition mergeActionPolicy (orgAction formAction : jsv) : jsv :=
  if negb (truthy orgAction) && negb (truthy formAction) then JUndef
  else JObj (obj_spread (props_of orgAction) (props_of formAction)).

Definition mergeRecordLifecyclePolicy (orgPolicy formPolicy : jsv) : option (jsv * jsv * jsv) :=
  if negb (truthy orgPolicy) && negb (truthy formPolicy) then None
  else
    let act k := mergeActionPolicy (opt_member orgPolicy k) (opt_member formPolicy k) in
    Some (act "correctable", act "withdrawable", act "disputable").

Definition read_window (v : jsv) : option RecordLifecycleWindowPolicy :=
  match v with
  | JObj o =>
      if has_own o "state" then
        match read_lit (obj_get o "state") with
        | Some OpenState => Some WindowOpen
        | Some ClosesAtState => WindowClosesAt <$> str_of (obj_get o "closesAt")
        | Some ClosedState => WindowClosed <$> read_optional str_of (obj_get o "closedAt")
        | None => None
        end
      else WindowBareClosesAt <$> str_of (obj_get o "closesAt")
  | _ => None
  end.

Definition normalizeRecordLifecycleWindow (value : RecordLifecycleWindowPolicy)
    : ResolvedRecordLifecycleWindow :=
  match value with
  | WindowOpen => ResolvedOpen
  | WindowClosed closedAt => ResolvedClosed closedAt
  | WindowClosesAt t => ResolvedClosesAt t
  | WindowBareClosesAt t => if String.eqb t "never" then ResolvedOpen else ResolvedClosesAt t
  end.

(** [v ?? d] on a validated optional boolean. *)
Definition bool_or (d : bool) (v : jsv) : bool := match v with JBool b => b | _ => d end.

Definition window_of (action : jsv) : option ResolvedRecordLifecycleWindow :=
  normalizeRecordLifecycleWindow <$> read_window (prop action "window").

Definition resolve_correctable (m : jsv) : ResolvedRecordLifecycleCorrectablePolicy :=
  {| c_enabled := is_true (prop m "enabled");
     c_fieldSet := spread_strings (prop m "correctableFieldSet");
     c_window := window_of m;
     c_requiresEvidence := bool_or false (prop m "requiresEvidence");
     c_requiresReason := bool_or true (prop m "requiresReason") |}.

Definition resolve_withdrawable (m : jsv) : ResolvedRecordLifecycleWithdrawablePolicy :=
  {| w_enabled := is_true (prop m "enabled");
     w_window := window_of m;
     w_requiresReason := bool_or true (prop m "requiresReason");
     w_kernelMode := default ApplicantWithdrawn (read_lit (prop m "preDeterminationKernelMode"));
     w_postIntent := read_lit (prop m "postDeterminationIntent");
     w_requiresIssuerAcceptance := bool_or false (prop m "requiresIssuerAcceptance");
     w_partyScope := default AnyParty (read_lit (prop m "partyScope")) |}.

Definition resolve_disputable (m : jsv) : ResolvedRecordLifecycleDisputablePolicy :=
  {| d_enabled := is_true (prop m "enabled");
     d_window := window_of m;
     d_requiresEvidence := bool_or false (prop m "requiresEvidence");
     d_requiresReason := bool_or true (prop m "requiresReason");
     d_signerOnly := bool_or true (prop m "signerOnly") |}.

Definition resolveRecordLifecyclePolicy (orgPolicy formPolicy : jsv)
    : option ResolvedRecordLifecyclePolicy :=
  '(c, w, d) ← mergeRecordLifecyclePolicy orgPolicy formPolicy;
  Some
    {| correctable := if truthy c then Some (resolve_correctable c) else None;
       withdrawable := if truthy w then Some (resolve_withdrawable w) else None;
       disputable := if truthy d then Some (resolve_disputable d) else None |}.

(** ** What per-layer validation guarantees of the merged policy *)

Lemma valid_action_shape src act v :
  validateRecordLifecycleAction src act v = Returns () →
  v = JUndef ∨ ∃ o b, v = JObj o ∧ obj_get o "enabled" = JBool b.
Proof.
  unfold validateRecordLifecycleAction. destruct (is_undefined v) eqn:Hu; [by left; destruct v|].
  intros H. right. outcome_inv. unfold get_member in *. destruct (is_nullish v); [done|].
  outcome_inv. split_andb.
  match goal with H : is_boolean _ = true |- _ => apply is_boolean_spec in H as [b Hb] end.
  destruct v as [| | | | | |o]; try done. by exists o, b.
Qed.

(** A validated policy has three validated actions. *)
Lemma valid_policy_actions src v :
  validateRecordLifecyclePolicy src v = Returns () →
  validateRecordLifecycleAction src Correctable (opt_member v "correctable") = Returns () ∧
  validateRecordLifecycleAction src Withdrawable (opt_member v "withdrawable") = Returns () ∧
  validateRecordLifecycleAction src Disputable (opt_member v "disputable") = Returns ().
Proof.
  unfold validateRecordLifecyclePolicy, get_member, opt_member.
  destruct v; simpl; intros H; outcome_inv; done.
Qed.

(** The value of an own key of the merged action: the form's own property if
    it has one, else the org's. *)
Lemma merge_prop orgA formA k :
  prop (mergeActionPolicy orgA formA) k =
    if truthy orgA || truthy formA then
      if has_own (props_of formA) k then prop formA k else prop orgA k
    else JUndef.
Proof.
  unfold mergeActionPolicy, prop.
  destruct (truthy orgA) eqn:Eo, (truthy formA) eqn:Ef; simpl; by rewrite ?obj_get_spread.
Qed.

Lemma valid_action_truthy src act v :
  validateRecordLifecycleAction src act v = Returns () → truthy v = negb (is_undefined v).
Proof. by intros [->|(o & b & -> & _)]%valid_action_shape. Qed.

Lemma has_own_get o k v : obj_get o k = v → v ≠ JUndef → has_own o k = true.
Proof. unfold obj_get, has_own. destruct (own_get o k); simpl; congruence. Qed.

Lemma validateFieldSet_spec src l :
  validateFieldSet src l = Returns () ↔
  ∃ ps, l = JStr <$> ps ∧ Forall (λ p, starts_with "/" p = true) ps.
Proof.
  unfold validateFieldSet. rewrite for_each_Returns. setoid_rewrite throw_when_Returns.
  setoid_rewrite negb_false_iff. split.
  - intros H. induction H as [|x l Hx _ (ps & -> & ?)]; [by exists []|].
    destruct x as [| | | |s| |]; try done. exists (s :: ps). split; [done|by constructor].
  - intros (ps & -> & H). by apply Forall_fmap.
Qed.

(** What a validated layer's own [enabled: true] correctable action carries. *)
Lemma valid_correctable src v :
  validateRecordLifecycleAction src Correctable v = Returns () →
  prop v "enabled" = JBool true →
  ∃ ps, prop v "correctableFieldSet" = JArr (JStr <$> ps) ∧ ps ≠ [] ∧
        Forall (λ p, starts_with "/" p = true) ps.
Proof.
  unfold validateRecordLifecycleAction. destruct (is_undefined v) eqn:Hu; [by destruct v|].
  intros H He. outcome_inv. unfold validateCorrectable in *. rewrite He in *. simpl in *.
  outcome_inv. split_andb. destruct (prop v "correctableFieldSet") as [| | | | |l|]; try done.
  match goal with H : validateFieldSet _ _ = _ |- _ => apply validateFieldSet_spec in H as (ps & -> & ?) end.
  exists ps. split; [done|]. split; [|done]. intros ->. simpl in *. congruence.
Qed.

Lemma valid_withdrawable src v :
  validateRecordLifecycleAction src Withdrawable v = Returns () →
  prop v "postDeterminationIntent" = JStr "rescission-requested" →
  prop v "requiresIssuerAcceptance" = JBool true.
Proof.
  unfold validateRecordLifecycleAction. destruct (is_undefined v) eqn:Hu; [by destruct v|].
  intros H Hp. outcome_inv. unfold validateWithdrawable in *. rewrite Hp in *. simpl in *.
  outcome_inv. split_andb. destruct (prop v "requiresIssuerAcceptance") as [| |[]| | | |]; done.
Qed.

Lemma resolve_policy_Some org form r :
  resolveRecordLifecyclePolicy org form = Some r →
  let act k := mergeActionPolicy (opt_member org k) (opt_member form k) in
  (∀ c, correctable r = Some c → c = resolve_correctable (act "correctable")) ∧
  (∀ w, withdrawable r = Some w → w = resolve_withdrawable (act "withdrawable")) ∧
  (∀ d, disputable r = Some d → d = resolve_disputable (act "disputable")).
Proof.
  unfold resolveRecordLifecyclePolicy, mergeRecordLifecyclePolicy.
  destruct (negb (truthy org) && negb (truthy form)); [done|].
  intros [= <-]. simpl. repeat split; intros ?; destruct (truthy _); congruence.
Qed.

(** An enabled merged action is enabled by the layer that wins: the form layer
    whenever it declares the action at all. *)
Lemma merged_enabled src src' act oa fa :
  validateRecordLifecycleAction src act oa = Returns () →
  validateRecordLifecycleAction src' act fa = Returns () →
  prop (mergeActionPolicy oa fa) "enabled" = JBool true →
  (∃ o, fa = JObj o ∧ prop fa "enabled" = JBool true) ∨
  (fa = JUndef ∧ prop oa "enabled" = JBool true).
Proof.
  intros Hoa Hfa. rewrite merge_prop.
  apply valid_action_shape in Hfa as [->|(o & b & -> & Hb)]; simpl.
  - rewrite orb_false_r. destruct (truthy oa); [eauto|done].
  - rewrite orb_true_r, (has_own_get o _ (JBool b)) by done. eauto.
Qed.

Lemma resolved_correctable_ok org form r c :
  validateRecordLifecyclePolicy OrgDoc org = Returns () →
  validateRecordLifecyclePolicy FormDoc form = Returns () →
  resolveRecordLifecyclePolicy org form = Some r → correctable r = Some c → c_enabled c = true →
  ∃ ps, c_fieldSet c = Some ps ∧ ps ≠ [] ∧ Forall (λ p, starts_with "/" p = true) ps.
Proof.
  intros [Ho _]%valid_policy_actions [Hf _]%valid_policy_actions [Hr _]%resolve_policy_Some
    ->%Hr; simpl.
  set (oa := opt_member org "correctable") in *. set (fa := opt_member form "correctable") in *.
  intros He. assert (prop (mergeActionPolicy oa fa) "enabled" = JBool true) as He'.
  { by destruct (prop _ "enabled") as [| |[]| | | |]. }
  rewrite merge_prop.
  destruct (merged_enabled _ _ _ _ _ Ho Hf He') as [(o & Hfo & Hen)|[Hfu Hen]].
  - destruct (valid_correctable _ _ Hf Hen) as (ps & Hps & ? & ?). exists ps.
    rewrite Hfo, orb_true_r in *. simpl.
    rewrite (has_own_get o _ (JArr (JStr <$> ps))) by done. rewrite Hps. simpl.
    by rewrite omap_fmap_str.
  - destruct (valid_correctable _ _ Ho Hen) as (ps & Hps & ? & ?). exists ps.
    rewrite Hfu. destruct oa; try done. simpl. rewrite Hps. simpl. by rewrite omap_fmap_str.
Qed.

(** When only one layer declares the withdrawable action, its
    issuer-acceptance rule survives resolution. *)
Lemma resolved_withdrawable_one_layer org form r w :
  validateRecordLifecyclePolicy OrgDoc org = Returns () →
  validateRecordLifecyclePolicy FormDoc form = Returns () →
  opt_member org "withdrawable" = JUndef ∨ opt_member form "withdrawable" = JUndef →
  resolveRecordLifecyclePolicy org form = Some r → withdrawable r = Some w →
  w_postIntent w = Some RescissionRequested → w_requiresIssuerAcceptance w = true.
Proof.
  intros (_ & Ho & _)%valid_policy_actions (_ & Hf & _)%valid_policy_actions Hone
    (_ & Hr & _)%resolve_policy_Some ->%Hr; simpl.
  intros Hp%read_lit_Some. simpl in Hp. rewrite !merge_prop in *.
  destruct Hone as [Hu|Hu]; rewrite Hu in *; simpl in *.
  - apply valid_action_shape in Hf as Hf'. destruct Hf' as [E|(o & b & E & _)]; rewrite E in *; [done|].
    simpl in *. assert (prop (JObj o) "postDeterminationIntent" = JStr "rescission-requested") as Hp'.
    { by destruct (has_own o "postDeterminationIntent"). }
    pose proof (valid_withdrawable _ _ Hf Hp') as Ha.
    rewrite (has_own_get o _ (JBool true)) by done. by rewrite Ha.
  - destruct (truthy (opt_member org "withdrawable")); simpl in *; [|done].
    by rewrite (valid_withdrawable _ _ Ho Hp).
Qed.
