(* ===== verification/Resolver.v ===== *)
(** * The runtime feature resolver

    [resolveRuntimeFeatures] (src/src/policy/resolver.ts): input validation,
    the per-key decision and the resolved profile. *)

From S2P Require Import Prelude JsValue FeatureKeys MultiPartyPolicy SafeAddressPolicy RecordLifecyclePolicy.

(** The browser's URL parser: [new URL(s).origin], [None] when the
    constructor throws. *)
Class UrlParser := url_origin : string → option string.

Record OrgRuntimePolicy : Set := {
  org_features : jsobj;
  org_recordLifecycle : jsv;
  org_limits : jsv
}.

Record FormRuntimePolicy : Set := {
  form_features : jsobj;
  form_limits : jsv;
  form_recordLifecycle : jsv
}.

Record ResolveRuntimeFeaturesInput : Set := {
  in_mode : Mode;
  in_instance : jsobj;
  in_org : OrgRuntimePolicy;
  in_form : FormRuntimePolicy
}.

Record ResolvedRuntimeProfile : Type := {
  p_mode : Mode;
  p_enabled : gset RuntimeFeatureKey;
  p_disabled : gmap RuntimeFeatureKey DisabledReason;
  p_limits : gmap RuntimeFeatureKey jsv;
  p_recordLifecycle : option ResolvedRecordLifecyclePolicy;
  p_multiParty : option jsv;
  p_safeAddress : option SafeAddressRuntimeConfig
}.

(** [policy.limits?.[key]] *)
Definition org_limit (org : OrgRuntimePolicy) (k : RuntimeFeatureKey) : jsv :=
  opt_member (org_limits org) (key_string k).
Definition form_limit (form : FormRuntimePolicy) (k : RuntimeFeatureKey) : jsv :=
  opt_member (form_limits form) (key_string k).

(** ** Input validation *)

Section validation.
Context `{!UrlParser}.

Definition validateEmbedOrigin (entry : jsv) : check :=
  throw_when (negb (is_nonempty_string entry))
    (InvalidRuntimePolicyError OrgDoc "limits.embed.allowedOrigins entries must be non-empty strings") ;;
  match entry with
  | JStr e =>
      if String.eqb e "*" then Returns () else
      match url_origin e with
      | None =>
          Throws (InvalidRuntimePolicyError OrgDoc
            ("limits.embed.allowedOrigins entry " +:+ dq +:+ e +:+ dq +:+ " is not a valid URL"))
      | Some origin =>
          throw_when (negb (String.eqb origin e))
            (InvalidRuntimePolicyError OrgDoc
               ("limits.embed.allowedOrigins entry " +:+ dq +:+ e +:+ dq
                  +:+ " must be an origin (no path / query / fragment)"))
      end
  | _ => Returns ()
  end.

Definition validateEmbedLimits (value : jsv) : check :=
  if is_undefined value then Returns () else
  throw_when (negb (is_object value))
    (InvalidRuntimePolicyError OrgDoc "limits.embed must be an object with an allowedOrigins array") ;;
  throw_when (negb (is_array (prop value "allowedOrigins")))
    (InvalidRuntimePolicyError OrgDoc "limits.embed.allowedOrigins must be an array") ;;
  for_each validateEmbedOrigin (arr_of (prop value "allowedOrigins")).

(** The loops over [Object.keys(features)] of the two layers. *)
Definition validateFeatureModes (doc : RuntimePolicyDocumentKind) (isMode : jsv → bool)
    (features : jsobj) : check :=
  for_each (λ candidate,
    throw_when (negb (isRuntimeFeatureKey candidate))
      (InvalidRuntimePolicyError doc ("unknown feature key " +:+ dq +:+ candidate +:+ dq)) ;;
    let mode := obj_get features candidate in
    throw_when (negb (is_undefined mode) && negb (isMode mode))
      (InvalidRuntimePolicyError doc
         ("invalid mode " +:+ dq +:+ js_to_string mode +:+ dq +:+ " for "
            +:+ dq +:+ candidate +:+ dq)))
    (obj_keys features).

Definition validateInput (input : ResolveRuntimeFeaturesInput) : check :=
  for_each (λ key,
    throw_when (negb (isCapabilityAvailability (obj_get (in_instance input) (key_string key))))
      (InvalidRuntimePolicyError InstanceDoc
         ("capability " +:+ dq +:+ key_string key +:+ dq
            +:+ " must be available | demo-stub | unavailable")))
    RUNTIME_FEATURE_KEYS ;;
  validateFeatureModes OrgDoc isOrgFeaturePolicyMode (org_features (in_org input)) ;;
  validateFeatureModes FormDoc isFormFeaturePolicyMode (form_features (in_form input)) ;;
  validateEmbedLimits (org_limit (in_org input) Embed) ;;
  validateMultiPartyLimits OrgDoc (org_limit (in_org input) MultiParty) ;;
  validateMultiPartyLimits FormDoc (form_limit (in_form input) MultiParty) ;;
  validateSafeAddressLimits OrgDoc (org_limit (in_org input) SafeAddress) ;;
  validateSafeAddressLimits FormDoc (form_limit (in_form input) SafeAddress) ;;
  validateRecordLifecyclePolicy OrgDoc (org_recordLifecycle (in_org input)) ;;
  validateRecordLifecyclePolicy FormDoc (form_recordLifecycle (in_form input)).
End validation.

(** ** The per-key decision *)

Definition canSatisfy (mode : Mode) (capability : CapabilityAvailability) : bool :=
  match capability with
  | Available => true
  | DemoStub => bool_decide (mode = Demo)
  | Unavailable => false
  end.

Definition reasonForUnavailable (mode : Mode) (capability : CapabilityAvailability) : string :=
  match capability, mode with
  | Unavailable, _ => "instance capability is marked unavailable"
  | DemoStub, Production => "production composition cannot use a demo-stub capability"
  | _, _ => "unknown capability availability " +:+ dq +:+ lit_string capability +:+ dq
  end.

Record DecisionInput : Set := {
  d_mode : Mode;
  d_key : RuntimeFeatureKey;
  d_capability : CapabilityAvailability;
  d_org : option OrgFeaturePolicyMode;
  d_form : option FormFeaturePolicyMode
}.

Inductive Decision : Set :=
  | Enabled
  | Disabled (reason : DisabledReason).

Definition disabled_because (c : DisabledCause) (m : string) : outcome RuntimePolicyError Decision :=
  Returns (Disabled {| cause := c; reason_message := m |}).

Definition decide_feature (input : DecisionInput) : outcome RuntimePolicyError Decision :=
  let mode := d_mode input in
  let featureKey := d_key input in
  let capability := d_capability input in
  let orgMode := d_org input in
  let formMode := d_form input in
  throw_when (bool_decide (orgMode = Some OrgRequired) && bool_decide (formMode = Some FormForbidden))
    (FeaturePolicyConflictError featureKey OrgRequiredFormForbidden) ;;
  throw_when (bool_decide (formMode = Some FormRequired) && bool_decide (orgMode = Some OrgForbidden))
    (FeaturePolicyConflictError featureKey FormRequiredOrgForbidden) ;;
  let instanceCanDo := canSatisfy mode capability in
  throw_when (bool_decide (orgMode = Some OrgRequired) && negb instanceCanDo)
    (OrgPolicyUnsatisfiedError featureKey (reasonForUnavailable mode capability)) ;;
  if bool_decide (formMode = Some FormRequired) then
    throw_when (negb instanceCanDo)
      (UnsupportedRequiredFeatureError featureKey (reasonForUnavailable mode capability)) ;;
    Returns Enabled
  else if bool_decide (orgMode = Some OrgRequired) then Returns Enabled
  else if bool_decide (formMode = Some FormForbidden) || bool_decide (orgMode = Some OrgForbidden) then
    if bool_decide (formMode = Some FormForbidden)
    then disabled_because FormForbiddenCause (key_string featureKey +:+ " forbidden by form policy")
    else disabled_because OrgForbiddenCause (key_string featureKey +:+ " forbidden by org policy")
  else if bool_decide (orgMode = Some OrgDefaultOn) then
    if instanceCanDo then Returns Enabled
    else disabled_because DefaultOnNoInstance
           (key_string featureKey +:+ " marked default-on but " +:+ reasonForUnavailable mode capability)
  else if bool_decide (formMode = Some FormOptional)
          && (bool_decide (orgMode = Some OrgAllowed) || bool_decide (orgMode = None)) then
    if instanceCanDo then Returns Enabled
    else disabled_because OptionalNoInstance
           (key_string featureKey +:+ " optional but " +:+ reasonForUnavailable mode capability)
  else disabled_because NotRequested
         (key_string featureKey +:+ " not requested by form or org policy").

(** ** Resolution *)

Definition mergeFeatureLimits (orgLimit formLimit : jsv) : jsv :=
  if is_undefined orgLimit then formLimit
  else if is_undefined formLimit then orgLimit
  else match orgLimit, formLimit with
       | JObj a, JObj b => JObj (obj_spread a b)
       | _, _ => formLimit
       end.

Record ResolveState : Type := {
  st_enabled : gset RuntimeFeatureKey;
  st_disabled : gmap RuntimeFeatureKey DisabledReason;
  st_limits : gmap RuntimeFeatureKey jsv
}.

(** The decision input of one key: after validation, both modes are
    [undefined] or a member of their union, and the capability is a member. *)
Definition decision_input (input : ResolveRuntimeFeaturesInput) (key : RuntimeFeatureKey) : DecisionInput :=
  {| d_mode := in_mode input;
     d_key := key;
     d_capability := default Unavailable (read_lit (obj_get (in_instance input) (key_string key)));
     d_org := read_lit (obj_get (org_features (in_org input)) (key_string key));
     d_form := read_lit (obj_get (form_features (in_form input)) (key_string key)) |}.

Definition merged_limit (input : ResolveRuntimeFeaturesInput) (key : RuntimeFeatureKey) : jsv :=
  mergeFeatureLimits (org_limit (in_org input) key) (form_limit (in_form input) key).

(** The body of the loop over [RUNTIME_FEATURE_KEYS]. *)
Definition resolve_key (input : ResolveRuntimeFeaturesInput) (st : ResolveState) (key : RuntimeFeatureKey)
    : outcome RuntimePolicyError ResolveState :=
  decision ← decide_feature (decision_input input key);
  Returns
    match decision with
    | Enabled =>
        {| st_enabled := {[key]} ∪ st_enabled st;
           st_disabled := st_disabled st;
           st_limits :=
             if is_undefined (merged_limit input key) then st_limits st
             else <[key := merged_limit input key]> (st_limits st) |}
    | Disabled reason =>
        {| st_enabled := st_enabled st;
           st_disabled := <[key := reason]> (st_disabled st);
           st_limits := st_limits st |}
    end.

Definition empty_state : ResolveState := {| st_enabled := ∅; st_disabled := ∅; st_limits := ∅ |}.

Definition resolveRuntimeFeatures `{!UrlParser} (input : ResolveRuntimeFeaturesInput)
    : outcome RuntimePolicyError ResolvedRuntimeProfile :=
  validateInput input ;;
  st ← fold_each (resolve_key input) empty_state RUNTIME_FEATURE_KEYS;
  let recordLifecycle :=
    if bool_decide (RecordLifecycle ∈ st_enabled st)
    then resolveRecordLifecyclePolicy (org_recordLifecycle (in_org input)) (form_recordLifecycle (in_form input))
    else None in
  multiParty ←
    (if bool_decide (MultiParty ∈ st_enabled st)
     then Some <$> resolveMultiPartyPolicy (default JUndef (st_limits st !! MultiParty))
     else Returns None);
  safeAddress ←
    (if bool_decide (SafeAddress ∈ st_enabled st)
     then Some <$> resolveSafeAddressPolicy (org_limit (in_org input) SafeAddress)
                     (form_limit (in_form input) SafeAddress)
     else Returns None);
  Returns
    {| p_mode := in_mode input;
       p_enabled := st_enabled st;
       p_disabled := st_disabled st;
       p_limits := st_limits st;
       p_recordLifecycle := recordLifecycle;
       p_multiParty := multiParty;
       p_safeAddress := safeAddress |}.

(** ** The specification of a decision (ADR-0011) *)

Section decision_spec.
Context (mode : Mode) (cap : CapabilityAvailability)
  (org : option OrgFeaturePolicyMode) (form : option FormFeaturePolicyMode).

(** Some layer requires the feature; some layer forbids it. *)
Definition required : Prop := org = Some OrgRequired ∨ form = Some FormRequired.
Definition forbidden : Prop := org = Some OrgForbidden ∨ form = Some FormForbidden.
(** Asked for without being required: the org defaults it on, or the form
    offers it and the org does not object. *)
Definition requested : Prop :=
  org = Some OrgDefaultOn ∨ (form = Some FormOptional ∧ (org = Some OrgAllowed ∨ org = None)).
(** The instance can serve it in this mode. *)
Definition satisfiable : Prop := cap = Available ∨ (cap = DemoStub ∧ mode = Demo).
End decision_spec.

Section decide_lemmas.
Context (i : DecisionInput).

Lemma canSatisfy_spec mode cap : canSatisfy mode cap = true ↔ satisfiable mode cap.
Proof. unfold satisfiable. destruct mode, cap; simpl; naive_solver. Qed.

Lemma decide_enabled_iff :
  decide_feature i = Returns Enabled ↔
  satisfiable (d_mode i) (d_capability i) ∧ ¬ forbidden (d_org i) (d_form i) ∧
  (required (d_org i) (d_form i) ∨ requested (d_org i) (d_form i)).
Proof.
  unfold satisfiable, forbidden, required, requested.
  destruct i as [[] k [] [[]|] [[]|]]; vm_compute; naive_solver.
Qed.

Lemma decide_throws_iff :
  (∃ e, decide_feature i = Throws e) ↔
  required (d_org i) (d_form i) ∧
  (forbidden (d_org i) (d_form i) ∨ ¬ satisfiable (d_mode i) (d_capability i)).
Proof.
  unfold satisfiable, forbidden, required.
  destruct i as [[] k [] [[]|] [[]|]]; cbn; naive_solver.
Qed.
End decide_lemmas.

(** ** The loop over the keys *)

Section loop_lemmas.
Context (input : ResolveRuntimeFeaturesInput).

Definition verdict (k : RuntimeFeatureKey) : outcome RuntimePolicyError Decision :=
  decide_feature (decision_input input k).

(** What the loop state holds after the keys of [l]. *)
Record state_of (l : list RuntimeFeatureKey) (st : ResolveState) : Prop := {
  so_decided k : k ∈ l → ∃ d, verdict k = Returns d;
  so_enabled k : k ∈ st_enabled st ↔ k ∈ l ∧ verdict k = Returns Enabled;
  so_disabled k r : st_disabled st !! k = Some r ↔ k ∈ l ∧ verdict k = Returns (Disabled r);
  so_limits k v : st_limits st !! k = Some v ↔
    k ∈ st_enabled st ∧ v = merged_limit input k ∧ v ≠ JUndef
}.

Lemma state_of_empty : state_of [] empty_state.
Proof.
  split; simpl.
  - by intros k ?%elem_of_nil.
  - intros k. split; [by intros ?%elem_of_empty | by intros [?%elem_of_nil _]].
  - intros k r. rewrite lookup_empty. split; [done | by intros [?%elem_of_nil _]].
  - intros k v. rewrite lookup_empty. split; [done | by intros [?%elem_of_empty _]].
Qed.

Lemma state_of_step l k st st' :
  k ∉ l → state_of l st → resolve_key input st k = Returns st' → state_of (l ++ [k]) st'.
Proof.
  intros Hnin [Hdec Hen Hdis Hlim] (d & Hd & [= <-])%bind_Returns. fold (verdict k) in Hd.
  assert (∀ k', k' ∈ l ++ [k] ↔ k' ∈ l ∨ k' = k) as Hin.
  { intros k'. by rewrite elem_of_app, list_elem_of_singleton. }
  assert (k ∉ st_enabled st) as Hke by (rewrite Hen; tauto).
  split.
  - intros k' [?| ->]%Hin; eauto.
  - intros k'. rewrite Hin. destruct d; simpl; rewrite ?elem_of_union, ?elem_of_singleton, Hen;
      naive_solver congruence.
  - intros k' r. rewrite Hin. destruct d as [|r']; simpl.
    + rewrite Hdis. naive_solver congruence.
    + destruct (decide (k = k')) as [<-|Hne]; [rewrite lookup_insert_eq | rewrite lookup_insert_ne, Hdis by done];
        naive_solver congruence.
  - intros k' v. destruct d as [|r']; simpl; [|by rewrite Hlim].
    rewrite elem_of_union, elem_of_singleton.
    destruct (is_undefined (merged_limit input k)) eqn:Hu.
    + rewrite Hlim. split; [naive_solver|]. intros ([->|?] & -> & Hv); [|done].
      destruct Hv. by apply is_undefined_spec.
    + destruct (decide (k = k')) as [<-|Hne].
      * rewrite lookup_insert_eq. split; [|naive_solver].
        intros [= <-]. split; [by left|]. split; [done|]. intros E. by rewrite E in Hu.
      * rewrite lookup_insert_ne, Hlim by done. naive_solver.
Qed.

Lemma resolve_keys_state l st :
  NoDup l → fold_each (resolve_key input) empty_state l = Returns st → state_of l st.
Proof.
  revert st. induction l as [|k l IH] using rev_ind; intros st Hnd Hl.
  - simplify_eq/=. apply state_of_empty.
  - rewrite fold_each_app in Hl. apply bind_Returns in Hl as (st1 & Hst1 & Hk).
    simpl in Hk. apply bind_Returns in Hk as (st2 & Hk & [= <-]).
    apply NoDup_app in Hnd as (Hnd & Hdisj & _).
    eapply state_of_step; [|by apply IH|done]. intros Hin. by eapply Hdisj, list_elem_of_singleton.
Qed.

(** The loop throws exactly the first throwing verdict, in tuple order. *)
Lemma resolve_keys_throws st l e :
  fold_each (resolve_key input) st l = Throws e ↔
  ∃ l1 k l2, l = l1 ++ k :: l2 ∧ (∀ k', k' ∈ l1 → ∃ d, verdict k' = Returns d) ∧ verdict k = Throws e.
Proof.
  revert st. induction l as [|k l IH]; intros st; simpl.
  - split; [done|]. intros (l1 & k & l2 & E & _). by destruct l1.
  - destruct (resolve_key input st k) as [st1|e'] eqn:Hk; simpl;
      unfold resolve_key in Hk; fold (verdict k) in Hk;
      destruct (verdict k) as [d|e2] eqn:Hv; simplify_eq/=.
    + rewrite IH. split.
      * intros (l1 & k' & l2 & -> & Hl1 & Hk'). exists (k :: l1), k', l2. split; [done|]. split; [|done].
        intros k'' [->|?]%elem_of_cons; eauto.
      * intros ([|k0 l1] & k' & l2 & E & Hl1 & Hk'); simplify_eq/=; [congruence|].
        exists l1, k', l2. split; [done|]. split; [|done]. intros k'' ?. apply Hl1. by right.
    + split.
      * intros [= ->]. exists [], k, l. split; [done|]. split; [|done]. by intros ? ?%elem_of_nil.
      * intros ([|k0 l1] & k' & l2 & E & Hl1 & Hk'); simplify_eq/=; [congruence|].
        destruct (Hl1 k0) as [d Hd]; [by left|]. congruence.
Qed.

Lemma resolve_keys_returns st l :
  (∀ k, k ∈ l → ∃ d, verdict k = Returns d) → ∃ st', fold_each (resolve_key input) st l = Returns st'.
Proof.
  intros H. destruct (fold_each _ st l) as [st'|e] eqn:E; [by exists st'|].
  apply resolve_keys_throws in E as (l1 & k & l2 & -> & _ & Hk).
  destruct (H k) as [d Hd]; [set_solver|]. congruence.
Qed.
End loop_lemmas.

(** ** A resolved profile, component by component *)

Record resolution `{!UrlParser} (input : ResolveRuntimeFeaturesInput) (p : ResolvedRuntimeProfile) : Prop := {
  res_valid : validateInput input = Returns ();
  res_mode : p_mode p = in_mode input;
  res_decided k : ∃ d, verdict input k = Returns d;
  res_enabled k : k ∈ p_enabled p ↔ verdict input k = Returns Enabled;
  res_disabled k r : p_disabled p !! k = Some r ↔ verdict input k = Returns (Disabled r);
  res_limits k v : p_limits p !! k = Some v ↔ k ∈ p_enabled p ∧ v = merged_limit input k ∧ v ≠ JUndef;
  res_lifecycle : p_recordLifecycle p =
    if bool_decide (RecordLifecycle ∈ p_enabled p)
    then resolveRecordLifecyclePolicy (org_recordLifecycle (in_org input)) (form_recordLifecycle (in_form input))
    else None;
  res_multi_party :
    if bool_decide (MultiParty ∈ p_enabled p)
    then ∃ r, p_multiParty p = Some r ∧ resolveMultiPartyPolicy (merged_limit input MultiParty) = Returns r
    else p_multiParty p = None;
  res_safe_address :
    if bool_decide (SafeAddress ∈ p_enabled p)
    then ∃ c, p_safeAddress p = Some c ∧
      resolveSafeAddressPolicy (org_limit (in_org input) SafeAddress) (form_limit (in_form input) SafeAddress)
        = Returns c
    else p_safeAddress p = None
}.

Lemma fmap_Returns {E A B} (f : A → B) (m : outcome E A) b :
  f <$> m = Returns b ↔ ∃ a, m = Returns a ∧ f a = b.
Proof. destruct m; simpl; naive_solver. Qed.

Lemma state_limit input st k :
  state_of input RUNTIME_FEATURE_KEYS st → k ∈ st_enabled st →
  default JUndef (st_limits st !! k) = merged_limit input k.
Proof.
  intros [_ _ _ Hlim] Hk. destruct (st_limits st !! k) as [v|] eqn:E; simpl.
  - by apply Hlim in E as (_ & -> & _).
  - destruct (merged_limit input k) eqn:M; [done|..]; (* every defined limit is stored *)
      (assert (st_limits st !! k = Some (merged_limit input k)) as E' by (apply Hlim; split; [done|by rewrite M]));
      congruence.
Qed.

Lemma resolve_resolution `{!UrlParser} input p :
  resolveRuntimeFeatures input = Returns p → resolution input p.
Proof.
  unfold resolveRuntimeFeatures. rewrite seq_Returns.
  intros (Hv & (st & Hst & (mp & Hmp & (sa & Hsa & [= <-])%bind_Returns)%bind_Returns)%bind_Returns).
  apply resolve_keys_state in Hst; [|apply RUNTIME_FEATURE_KEYS_NoDup].
  pose proof RUNTIME_FEATURE_KEYS_complete as Hall. pose proof Hst as [Hdec Hen Hdis Hlim].
  split; simpl; try done.
  - intros k. by apply Hdec.
  - intros k. rewrite Hen. naive_solver.
  - intros k r. rewrite Hdis. naive_solver.
  - destruct (bool_decide (MultiParty ∈ st_enabled st)) eqn:Hin; [apply bool_decide_eq_true in Hin|].
    + apply fmap_Returns in Hmp as (r & Hr & <-). exists r. by rewrite (state_limit input) in Hr.
    + by simplify_eq.
  - destruct (bool_decide (SafeAddress ∈ st_enabled st)).
    + apply fmap_Returns in Hsa as (c & Hc & <-). eauto.
    + by simplify_eq.
Qed.
