(* ===== verification/ResolverTheorems.v ===== *)
(** * Theorems of the resolver

    What a resolved profile guarantees (ADR-0011): which features it enables
    and why it disables the others, production honesty, when resolution
    succeeds, which error it reports first, and what the feature blocks of the
    profile satisfy. *)

From S2P Require Import Prelude JsValue FeatureKeys MultiPartyPolicy SafeAddressPolicy RecordLifecyclePolicy Resolver.

(** ** The layers' modes of a key, as the input states them *)

Section modes.
Context (input : ResolveRuntimeFeaturesInput) (k : RuntimeFeatureKey).

Definition capability_of : CapabilityAvailability := d_capability (decision_input input k).
Definition org_mode_of : option OrgFeaturePolicyMode := d_org (decision_input input k).
Definition form_mode_of : option FormFeaturePolicyMode := d_form (decision_input input k).

Definition key_required : Prop := required org_mode_of form_mode_of.
Definition key_forbidden : Prop := forbidden org_mode_of form_mode_of.
Definition key_requested : Prop := requested org_mode_of form_mode_of.
Definition key_satisfiable : Prop := satisfiable (in_mode input) capability_of.

(** The feature ends up enabled; it cannot be reconciled. *)
Definition key_enabled : Prop := key_satisfiable ∧ ¬ key_forbidden ∧ (key_required ∨ key_requested).
Definition key_conflict : Prop := key_required ∧ (key_forbidden ∨ ¬ key_satisfiable).

(** What each disabled cause says about the layers; two causes are reserved. *)
Definition cause_explains (c : DisabledCause) : Prop :=
  match c with
  | FormForbiddenCause => form_mode_of = Some FormForbidden
  | OrgForbiddenCause => org_mode_of = Some OrgForbidden ∧ form_mode_of ≠ Some FormForbidden
  | DefaultOnNoInstance => org_mode_of = Some OrgDefaultOn ∧ ¬ key_forbidden ∧ ¬ key_satisfiable
  | OptionalNoInstance =>
      form_mode_of = Some FormOptional ∧ (org_mode_of = Some OrgAllowed ∨ org_mode_of = None) ∧
      ¬ key_satisfiable
  | NotRequested => ¬ key_forbidden ∧ ¬ key_required ∧ ¬ key_requested
  | InstanceUnavailable | ProductionRejectsDemoStub => False
  end.

Lemma verdict_enabled_iff : verdict input k = Returns Enabled ↔ key_enabled.
Proof. apply decide_enabled_iff. Qed.

Lemma verdict_throws_iff : (∃ e, verdict input k = Throws e) ↔ key_conflict.
Proof. apply decide_throws_iff. Qed.

Lemma verdict_disabled_cause r : verdict input k = Returns (Disabled r) → cause_explains (cause r).
Proof.
  unfold verdict, cause_explains, key_forbidden, key_satisfiable, key_required, key_requested,
    org_mode_of, form_mode_of, capability_of.
  change (in_mode input) with (d_mode (decision_input input k)).
  destruct (decision_input input k) as [[] k' [] [[]|] [[]|]];
    unfold forbidden, satisfiable, required, requested; cbn;
    intros H; vm_compute in H; simplify_eq/=;
    intuition (first [congruence | left; congruence | right; congruence]).
Qed.
End modes.

(** A validated input states every mode exactly: the instance declares one of
    the three states for every key, and each layer's mode is absent or the
    literal read. *)
Lemma validated_modes `{!UrlParser} input k :
  validateInput input = Returns () →
  obj_get (in_instance input) (key_string k) = JStr (lit_string (capability_of input k)).
Proof.
  unfold validateInput. rewrite seq_Returns, for_each_Returns, Forall_forall. intros [Hcap _].
  specialize (Hcap k (RUNTIME_FEATURE_KEYS_complete k)) as Hk.
  simpl in Hk. apply throw_when_Returns in Hk. split_andb.
  apply isCapabilityAvailability_spec in Hk as [c Hc].
  unfold capability_of, decision_input; simpl. rewrite Hc. by rewrite read_lit_string.
Qed.

Lemma resolve_valid_parts `{!UrlParser} input :
  validateInput input = Returns () →
  validateMultiPartyLimits OrgDoc (org_limit (in_org input) MultiParty) = Returns () ∧
  validateMultiPartyLimits FormDoc (form_limit (in_form input) MultiParty) = Returns () ∧
  validateSafeAddressLimits OrgDoc (org_limit (in_org input) SafeAddress) = Returns () ∧
  validateSafeAddressLimits FormDoc (form_limit (in_form input) SafeAddress) = Returns () ∧
  validateRecordLifecyclePolicy OrgDoc (org_recordLifecycle (in_org input)) = Returns () ∧
  validateRecordLifecyclePolicy FormDoc (form_recordLifecycle (in_form input)) = Returns ().
Proof. unfold validateInput. rewrite !seq_Returns. tauto. Qed.

(** ** Sample inputs for the witnesses *)

Definition no_urls : UrlParser := λ s, None.

(** Every capability available, in demo mode, with the given policies. *)
Definition sample (mode : Mode) (org form : jsobj) (orgLimits formLimits orgRL formRL : jsv)
    : ResolveRuntimeFeaturesInput :=
  {| in_mode := mode;
     in_instance := (λ k, (key_string k, JStr "available")) <$> RUNTIME_FEATURE_KEYS;
     in_org := {| org_features := org; org_recordLifecycle := orgRL; org_limits := orgLimits |};
     in_form := {| form_features := form; form_limits := formLimits; form_recordLifecycle := formRL |} |}.

Definition enables (k : RuntimeFeatureKey) (p : ResolvedRuntimeProfile) : bool :=
  bool_decide (k ∈ p_enabled p).

Lemma enables_in k p : enables k p = true → k ∈ p_enabled p.
Proof. apply bool_decide_eq_true. Qed.

(** ** Which features are enabled, and why the others are not *)

(** C9.  In a resolved profile a feature is enabled exactly when the instance
    can serve it in this mode, no layer forbids it, and a layer requires it or
    the layers together request it (org default-on, or form optional with the
    org allowing or silent). *)
Theorem resolve_enabled_iff `{!UrlParser} input p k :
  resolveRuntimeFeatures input = Returns p →
  (k ∈ p_enabled p ↔
     key_satisfiable input k ∧ ¬ key_forbidden input k ∧ (key_required input k ∨ key_requested input k)).
Proof.
  intros Hres%resolve_resolution. rewrite (res_enabled _ _ Hres k). apply verdict_enabled_iff.
Qed.

Definition sample_status : ResolveRuntimeFeaturesInput :=
  sample Production [("status", JStr "default-on"); ("payment", JStr "forbidden")]
    [("screener", JStr "optional")] JUndef JUndef JUndef JUndef.

Lemma resolve_enabled_iff_witness :
  ∃ p, @resolveRuntimeFeatures no_urls sample_status = Returns p ∧
    (Screener ∈ p_enabled p ↔
      key_satisfiable sample_status Screener ∧ ¬ key_forbidden sample_status Screener ∧
      (key_required sample_status Screener ∨ key_requested sample_status Screener)).
Proof.
  destruct (returned_Returns (@resolveRuntimeFeatures no_urls sample_status)) as [p Hp];
    [vm_compute; reflexivity|].
  exists p. split; [exact Hp|]. exact (@resolve_enabled_iff no_urls sample_status p Screener Hp).
Defined.

(** Every key of the taxonomy is in exactly one of [enabled] and
    [disabled]; every disabled key carries one of the five causes the resolver
    emits, and the cause is true of the layers (the two reserved causes are
    never emitted). *)
Theorem resolve_partition `{!UrlParser} input p :
  resolveRuntimeFeatures input = Returns p →
  (∀ k, k ∈ p_enabled p ↔ p_disabled p !! k = None) ∧
  (∀ k r, p_disabled p !! k = Some r → cause_explains input k (cause r)) ∧
  dom (p_limits p) ⊆ p_enabled p.
Proof.
  intros Hres%resolve_resolution. split; [|split].
  - intros k. rewrite (res_enabled _ _ Hres k). destruct (res_decided _ _ Hres k) as [[|r] Hd]; rewrite Hd.
    + split; [|done]. intros _. destruct (p_disabled p !! k) eqn:E; [|done].
      apply (res_disabled _ _ Hres) in E. congruence.
    + split; [congruence|]. by rewrite (proj2 (res_disabled _ _ Hres k r) Hd).
  - intros k r Hr. apply verdict_disabled_cause. by apply (res_disabled _ _ Hres).
  - intros k [v Hv]%elem_of_dom. by apply (res_limits _ _ Hres) in Hv as [? _].
Qed.

Lemma resolve_partition_witness :
  ∃ p, @resolveRuntimeFeatures no_urls sample_status = Returns p ∧
    dom (p_limits p) ⊆ p_enabled p.
Proof.
  destruct (returned_Returns (@resolveRuntimeFeatures no_urls sample_status)) as [p Hp];
    [vm_compute; reflexivity|].
  exists p. split; [exact Hp|].
  exact (proj2 (proj2 (@resolve_partition no_urls sample_status p Hp))).
Defined.

(** Production honesty: in a production profile every enabled feature is
    one the composition declared [available]; a demo stub is never enough. *)
Theorem resolve_production_honest `{!UrlParser} input p k :
  in_mode input = Production →
  resolveRuntimeFeatures input = Returns p →
  k ∈ p_enabled p →
  obj_get (in_instance input) (key_string k) = JStr "available".
Proof.
  intros Hm Hres%resolve_resolution Hk. rewrite (validated_modes input k) by apply (res_valid _ _ Hres).
  apply (res_enabled _ _ Hres), verdict_enabled_iff in Hk as [[->|[_ Hd]] _]; [done|]. congruence.
Qed.

Lemma resolve_production_honest_witness :
  obj_get (in_instance sample_status) (key_string Status) = JStr "available".
Proof.
  destruct (returned_with_Returns (enables Status) (@resolveRuntimeFeatures no_urls sample_status))
    as (p & Hp & Hin); [vm_compute; reflexivity|].
  exact (@resolve_production_honest no_urls sample_status p Status eq_refl Hp (enables_in _ _ Hin)).
Defined.

(** ** When resolution succeeds, and which error comes first *)

(** C2.  Resolution succeeds exactly when the input validates, no key is
    required against a prohibition or beyond what the instance serves, an
    enabled multi-party feature has a well-formed merged block, and an enabled
    safe-address feature resolves. *)
Theorem resolve_succeeds_iff `{!UrlParser} input :
  (∃ p, resolveRuntimeFeatures input = Returns p) ↔
  validateInput input = Returns () ∧
  (∀ k, ¬ (key_required input k ∧ (key_forbidden input k ∨ ¬ key_satisfiable input k))) ∧
  (key_enabled input MultiParty →
     ∃ cfg, read_multi_party (merged_limit input MultiParty) = Some cfg ∧ multi_party_wf cfg) ∧
  (key_enabled input SafeAddress →
     ∃ c, resolveSafeAddressPolicy (org_limit (in_org input) SafeAddress)
            (form_limit (in_form input) SafeAddress) = Returns c).
Proof.
  split.
  - intros [p [Hv _ Hdec Hen _ _ _ Hmp Hsa]%resolve_resolution]. split; [done|]. split; [|split].
    + intros k [e He]%verdict_throws_iff. destruct (Hdec k). congruence.
    + intros Hk%verdict_enabled_iff%Hen. rewrite bool_decide_true in Hmp by done.
      apply resolveMultiPartyPolicy_iff. naive_solver.
    + intros Hk%verdict_enabled_iff%Hen. rewrite bool_decide_true in Hsa by done. naive_solver.
  - intros (Hv & Hno & Hmp & Hsa).
    destruct (resolve_keys_returns input empty_state RUNTIME_FEATURE_KEYS) as [st Hst].
    { intros k _. destruct (verdict input k) as [d|e] eqn:E; [by exists d|].
      destruct (Hno k). apply verdict_throws_iff. eauto. }
    pose proof (resolve_keys_state _ _ _ RUNTIME_FEATURE_KEYS_NoDup Hst) as Hof.
    unfold resolveRuntimeFeatures. rewrite (bind_ok _ _ _ Hv), (bind_ok _ _ _ Hst). cbv zeta.
    assert (∀ k, bool_decide (k ∈ st_enabled st) = true → key_enabled input k) as Hen.
    { intros k Hk%bool_decide_eq_true. apply (so_enabled _ _ _ Hof) in Hk as [_ Hk]. by apply verdict_enabled_iff. }
    destruct (bool_decide (MultiParty ∈ st_enabled st)) eqn:Emp; simpl.
    + rewrite (state_limit input) by (done || (apply bool_decide_eq_true in Emp; done)).
      destruct (proj2 (resolveMultiPartyPolicy_iff _) (Hmp (Hen _ Emp))) as [r ->]. simpl.
      destruct (bool_decide (SafeAddress ∈ st_enabled st)) eqn:Esa; simpl; [|eauto].
      destruct (Hsa (Hen _ Esa)) as [c ->]. simpl. eauto.
    + destruct (bool_decide (SafeAddress ∈ st_enabled st)) eqn:Esa; simpl; [|eauto].
      destruct (Hsa (Hen _ Esa)) as [c ->]. simpl. eauto.
Qed.

(** On a valid input, the error resolution reports is the one of the first
    irreconcilable key in the tuple's order, whatever later keys or feature
    blocks say. *)
Theorem resolve_first_conflict `{!UrlParser} input l1 k l2 :
  validateInput input = Returns () →
  RUNTIME_FEATURE_KEYS = l1 ++ k :: l2 →
  (∀ k', k' ∈ l1 → ¬ key_conflict input k') →
  key_conflict input k →
  ∃ e, verdict input k = Throws e ∧ resolveRuntimeFeatures input = Throws e.
Proof.
  intros Hv Hkeys Hbefore [e He]%verdict_throws_iff. exists e. split; [done|].
  unfold resolveRuntimeFeatures. rewrite (bind_ok _ _ _ Hv). apply bind_fails, resolve_keys_throws.
  exists l1, k, l2. split; [done|]. split; [|done].
  intros k' Hk'. destruct (verdict input k') as [d|e'] eqn:E; [eauto|].
  destruct (Hbefore k' Hk'). apply verdict_throws_iff. eauto.
Qed.

Definition sample_conflict : ResolveRuntimeFeaturesInput :=
  sample Production [("payment", JStr "forbidden"); ("screener", JStr "required")]
    [("payment", JStr "required"); ("screener", JStr "forbidden")] JUndef JUndef JUndef JUndef.

Lemma resolve_first_conflict_witness :
  ∃ e, verdict sample_conflict Payment = Throws e ∧
       @resolveRuntimeFeatures no_urls sample_conflict = Throws e.
Proof.
  apply (@resolve_first_conflict no_urls sample_conflict (take 6 RUNTIME_FEATURE_KEYS) Payment
           (drop 7 RUNTIME_FEATURE_KEYS)).
  - vm_compute; reflexivity.
  - reflexivity.
  - intros k' Hk' Hc. apply verdict_throws_iff in Hc as [e He].
    cbn in Hk'. repeat (apply elem_of_cons in Hk' as [-> | Hk']; [vm_compute in He; discriminate He|]).
    by apply elem_of_nil in Hk'.
  - apply verdict_throws_iff. eexists. vm_compute; reflexivity.
Defined.

(** Improving an instance never costs a feature: if two inputs differ only
    in the instance, and every capability the first can serve the second can
    serve too, then every feature of the first profile is in the second. *)
Theorem resolve_monotone `{!UrlParser} input input' p p' :
  in_mode input' = in_mode input → in_org input' = in_org input → in_form input' = in_form input →
  (∀ k, key_satisfiable input k → key_satisfiable input' k) →
  resolveRuntimeFeatures input = Returns p → resolveRuntimeFeatures input' = Returns p' →
  p_enabled p ⊆ p_enabled p'.
Proof.
  intros Hm Ho Hf Hcap Hp%resolve_resolution Hp'%resolve_resolution k Hk.
  apply (res_enabled _ _ Hp), verdict_enabled_iff in Hk as (Hs & Hnf & Hr).
  apply (res_enabled _ _ Hp'), verdict_enabled_iff. split; [by apply Hcap|].
  unfold key_forbidden, key_required, key_requested, org_mode_of, form_mode_of, decision_input in *.
  simpl in *. by rewrite Ho, Hf.
Qed.

Definition sample_weaker : ResolveRuntimeFeaturesInput :=
  {| in_mode := Production;
     in_instance := obj_set (in_instance sample_status) "screener" (JStr "unavailable");
     in_org := in_org sample_status; in_form := in_form sample_status |}.

Lemma resolve_monotone_witness :
  ∃ p p', @resolveRuntimeFeatures no_urls sample_weaker = Returns p ∧
    @resolveRuntimeFeatures no_urls sample_status = Returns p' ∧ p_enabled p ⊆ p_enabled p'.
Proof.
  destruct (returned_Returns (@resolveRuntimeFeatures no_urls sample_weaker)) as [p Hp];
    [vm_compute; reflexivity|].
  destruct (returned_Returns (@resolveRuntimeFeatures no_urls sample_status)) as [p' Hp'];
    [vm_compute; reflexivity|].
  exists p, p'. split; [exact Hp|]. split; [exact Hp'|].
  refine (@resolve_monotone no_urls sample_weaker sample_status p p' eq_refl eq_refl eq_refl _ Hp Hp').
  intros k _. left. destruct k; reflexivity.
Defined.

(** ** What the feature blocks of a resolved profile satisfy *)

(** C36.  The multi-party block of a resolved profile is the merged declaration
    read at its type, well-formed (two or more roles, distinct role ids,
    cardinalities at least one and ordered, audiences that meet), with the
    invitation channel made explicit and nothing else changed. *)
Theorem resolve_multi_party_block `{!UrlParser} input p r :
  resolveRuntimeFeatures input = Returns p →
  p_multiParty p = Some r →
  MultiParty ∈ p_enabled p ∧
  ∃ declared, read_multi_party (merged_limit input MultiParty) = Some declared ∧
    multi_party_wf declared ∧ read_multi_party r = Some (resolved_view declared).
Proof.
  intros Hres%resolve_resolution Hr. pose proof (res_multi_party _ _ Hres) as Hmp.
  case_bool_decide; [|congruence]. destruct Hmp as (r' & Hr' & Hret). simplify_eq.
  split; [done|]. by apply resolveMultiPartyPolicy_Returns.
Qed.

Definition sample_party (rid : string) (cls : string) : jsv :=
  JObj [("roleId", JStr rid); ("role", JStr cls); ("visibilityScope", JStr "shared");
        ("cardinality", JObj [("min", JNum (NInt 1)); ("max", JNum (NInt 1))])].

Definition sample_parties : jsv :=
  JObj [("tier", JStr "coEqual");
        ("parties", JArr [sample_party "spouse-a" "coEqual"; sample_party "spouse-b" "coEqual"])].

Definition sample_multi_party : ResolveRuntimeFeaturesInput :=
  sample Production [] [("multiParty", JStr "required")] JUndef (JObj [("multiParty", sample_parties)])
    JUndef JUndef.

Definition has_multi_party (p : ResolvedRuntimeProfile) : bool :=
  match p_multiParty p with Some _ => true | None => false end.

Lemma resolve_multi_party_block_witness :
  ∃ p r, @resolveRuntimeFeatures no_urls sample_multi_party = Returns p ∧ p_multiParty p = Some r ∧
    ∃ declared, read_multi_party (merged_limit sample_multi_party MultiParty) = Some declared ∧
      multi_party_wf declared ∧ read_multi_party r = Some (resolved_view declared).
Proof.
  destruct (returned_with_Returns has_multi_party (@resolveRuntimeFeatures no_urls sample_multi_party))
    as (p & Hp & Hmp); [vm_compute; reflexivity|].
  unfold has_multi_party in Hmp. destruct (p_multiParty p) as [r|] eqn:Hr; [|discriminate Hmp].
  exists p, r. split; [exact Hp|]. split; [exact Hr|].
  exact (proj2 (@resolve_multi_party_block no_urls sample_multi_party p r Hp Hr)).
Defined.

(** The safe-address block of a resolved profile never widens what the
    deployment allows: its audiences are a non-empty subset of the org's, its
    receipt tier does not exceed the org's, every declared field is kept, in
    order, and each is shown in plaintext to a non-empty audience inside the
    authorized audiences, inside its party visibility and inside its own
    declared audience. *)
Theorem resolve_safe_address_block `{!UrlParser} input p c :
  resolveRuntimeFeatures input = Returns p →
  p_safeAddress p = Some c →
  safe_config_ok (org_limit (in_org input) SafeAddress) (form_limit (in_form input) SafeAddress) c ∧
  mapM read_field (arr_of (prop (form_limit (in_form input) SafeAddress) "fields")) =
    Some (declared_fields (form_limit (in_form input) SafeAddress)) ∧
  Forall field_wf (declared_fields (form_limit (in_form input) SafeAddress)).
Proof.
  intros Hres%resolve_resolution Hc. pose proof (res_safe_address _ _ Hres) as Hsa.
  case_bool_decide; [|congruence]. destruct Hsa as (c' & Hc' & Hret). simplify_eq.
  split; [by apply resolveSafeAddressPolicy_Returns|].
  pose proof (resolve_valid_parts _ (res_valid _ _ Hres)) as (_ & _ & _ & Hf & _ & _).
  apply fieldPolicies_exact in Hf as Hf'. unfold declared_fields, safeAddressLimitObject.
  apply validateSafeAddressLimits_spec in Hf as [Hu|(l & Hl & _)].
  - rewrite Hu in *. by destruct Hf'.
  - destruct (form_limit (in_form input) SafeAddress); try done.
Qed.

Definition sample_safe_org : jsv :=
  JObj [("safeAddress", JObj [("authorizedAudiences", JArr [JStr "issuer_verification"; JStr "court"]);
                              ("acpJurisdictionsAccepted", JArr [JStr "CA"])])].
Definition sample_safe_form : jsv :=
  JObj [("safeAddress",
         JObj [("fields", JArr [JObj [("path", JStr "/home"); ("accessClass", JStr "safe-address");
                                      ("visibleTo", JArr [JStr "court"; JStr "clerk"])]])])].

Definition sample_safe : ResolveRuntimeFeaturesInput :=
  sample Production [] [("safeAddress", JStr "required")] sample_safe_org sample_safe_form JUndef JUndef.

Definition has_safe_address (p : ResolvedRuntimeProfile) : bool :=
  match p_safeAddress p with Some _ => true | None => false end.

Lemma resolve_safe_address_block_witness :
  ∃ p c, @resolveRuntimeFeatures no_urls sample_safe = Returns p ∧ p_safeAddress p = Some c ∧
    safe_config_ok (org_limit (in_org sample_safe) SafeAddress)
      (form_limit (in_form sample_safe) SafeAddress) c.
Proof.
  destruct (returned_with_Returns has_safe_address (@resolveRuntimeFeatures no_urls sample_safe))
    as (p & Hp & Hsa); [vm_compute; reflexivity|].
  unfold has_safe_address in Hsa. destruct (p_safeAddress p) as [c|] eqn:Hc; [|discriminate Hsa].
  exists p, c. split; [exact Hp|]. split; [exact Hc|].
  exact (proj1 (@resolve_safe_address_block no_urls sample_safe p c Hp Hc)).
Defined.

(** In a resolved profile an enabled correction names a non-empty list of
    JSON pointers, although the merged policy is never validated as a whole:
    per-layer validation is enough, because an enabled merged action is enabled
    by the layer whose field set survives the merge. *)
Theorem resolve_correctable_block `{!UrlParser} input p r c :
  resolveRuntimeFeatures input = Returns p →
  p_recordLifecycle p = Some r → correctable r = Some c → c_enabled c = true →
  RecordLifecycle ∈ p_enabled p ∧
  ∃ ps, c_fieldSet c = Some ps ∧ ps ≠ [] ∧ Forall (λ x, starts_with "/" x = true) ps.
Proof.
  intros Hres%resolve_resolution Hr Hc He. pose proof (res_lifecycle _ _ Hres) as Hrl.
  rewrite Hr in Hrl. case_bool_decide; [|done]. split; [done|].
  pose proof (resolve_valid_parts _ (res_valid _ _ Hres)) as (_ & _ & _ & _ & Ho & Hf).
  by eapply resolved_correctable_ok.
Qed.

Definition lifecycle_input (org form : jsv) : ResolveRuntimeFeaturesInput :=
  sample Production [] [("recordLifecycle", JStr "required")] JUndef JUndef org form.

Definition sample_correctable : ResolveRuntimeFeaturesInput :=
  lifecycle_input
    (JObj [("correctable", JObj [("enabled", JBool false)])])
    (JObj [("correctable", JObj [("enabled", JBool true);
                                 ("correctableFieldSet", JArr [JStr "/name"])])]).

Definition resolved_correctable (p : ResolvedRuntimeProfile)
    : option (ResolvedRecordLifecyclePolicy * ResolvedRecordLifecycleCorrectablePolicy) :=
  r ← p_recordLifecycle p; c ← correctable r; if c_enabled c then Some (r, c) else None.

Lemma resolve_correctable_block_witness :
  ∃ p r c, @resolveRuntimeFeatures no_urls sample_correctable = Returns p ∧
    p_recordLifecycle p = Some r ∧ correctable r = Some c ∧
    ∃ ps, c_fieldSet c = Some ps ∧ ps ≠ [] ∧ Forall (λ x, starts_with "/" x = true) ps.
Proof.
  destruct (returned_with_Returns (λ p, match resolved_correctable p with Some _ => true | None => false end)
              (@resolveRuntimeFeatures no_urls sample_correctable)) as (p & Hp & Hrc);
    [vm_compute; reflexivity|].
  destruct (resolved_correctable p) as [[r c]|] eqn:E; [|discriminate Hrc].
  unfold resolved_correctable in E. apply bind_Some in E as (r' & Hr & (c' & Hc & He)%bind_Some).
  destruct (c_enabled c') eqn:Hen; [|discriminate He]. injection He as <- <-.
  exists p, r', c'. split; [exact Hp|]. split; [exact Hr|]. split; [exact Hc|].
  exact (proj2 (@resolve_correctable_block no_urls sample_correctable p r' c' Hp Hr Hc Hen)).
Defined.

(** When at most one layer declares the withdrawal action, a resolved
    profile that routes post-determination withdrawals to rescission requires
    the issuer's acceptance, as the validator demands of each layer. *)
Theorem resolve_withdrawable_block `{!UrlParser} input p r w :
  resolveRuntimeFeatures input = Returns p →
  opt_member (org_recordLifecycle (in_org input)) "withdrawable" = JUndef ∨
    opt_member (form_recordLifecycle (in_form input)) "withdrawable" = JUndef →
  p_recordLifecycle p = Some r → withdrawable r = Some w →
  w_postIntent w = Some RescissionRequested → w_requiresIssuerAcceptance w = true.
Proof.
  intros Hres%resolve_resolution Hone Hr Hw Hp. pose proof (res_lifecycle _ _ Hres) as Hrl.
  rewrite Hr in Hrl. case_bool_decide; [|done].
  pose proof (resolve_valid_parts _ (res_valid _ _ Hres)) as (_ & _ & _ & _ & Ho & Hf).
  by eapply resolved_withdrawable_one_layer.
Qed.

Definition rescission_policy : jsobj :=
  [("enabled", JBool true); ("postDeterminationIntent", JStr "rescission-requested");
   ("requiresIssuerAcceptance", JBool true)].

Definition sample_withdrawable : ResolveRuntimeFeaturesInput :=
  lifecycle_input JUndef (JObj [("withdrawable", JObj rescission_policy)]).

(** The resolved withdrawal action, when it is bound to rescission. *)
Definition rescission_of (p : ResolvedRuntimeProfile)
    : option (ResolvedRecordLifecyclePolicy * ResolvedRecordLifecycleWithdrawablePolicy) :=
  r ← p_recordLifecycle p; w ← withdrawable r;
  match w_postIntent w with Some RescissionRequested => Some (r, w) | None => None end.

Lemma rescission_of_Some p r w :
  rescission_of p = Some (r, w) →
  p_recordLifecycle p = Some r ∧ withdrawable r = Some w ∧ w_postIntent w = Some RescissionRequested.
Proof.
  unfold rescission_of. intros (r' & Hr & (w' & Hw & E)%bind_Some)%bind_Some.
  destruct (w_postIntent w') as [[]|] eqn:Hp; [|discriminate E]. by simplify_eq.
Qed.

Lemma resolve_withdrawable_block_witness :
  ∃ p r w, @resolveRuntimeFeatures no_urls sample_withdrawable = Returns p ∧
    rescission_of p = Some (r, w) ∧ w_requiresIssuerAcceptance w = true.
Proof.
  destruct (returned_with_Returns (λ p, match rescission_of p with Some _ => true | None => false end)
              (@resolveRuntimeFeatures no_urls sample_withdrawable)) as (p & Hp & Hrc);
    [vm_compute; reflexivity|].
  destruct (rescission_of p) as [[r w]|] eqn:E; [|discriminate Hrc].
  exists p, r, w. split; [exact Hp|]. split; [exact E|].
  destruct (rescission_of_Some _ _ _ E) as (Hr & Hw & Hi).
  exact (@resolve_withdrawable_block no_urls sample_withdrawable p r w Hp (or_introl eq_refl) Hr Hw Hi).
Defined.

(** With both layers declaring it, the rule is lost: an org that routes
    withdrawals to rescission with the issuer's acceptance, and a form that
    states [requiresIssuerAcceptance: false] without an intent, are each valid,
    and resolve to a rescission that does not require acceptance.  The merged
    policy, which the validator rejects, is not validated again. *)
Theorem resolve_withdrawable_merge_gap `{!UrlParser} :
  let org := JObj [("withdrawable", JObj rescission_policy)] in
  let form := JObj [("withdrawable",
                     JObj [("enabled", JBool true); ("requiresIssuerAcceptance", JBool false)])] in
  (∃ p r w, resolveRuntimeFeatures (lifecycle_input org form) = Returns p ∧
     p_recordLifecycle p = Some r ∧ withdrawable r = Some w ∧
     w_postIntent w = Some RescissionRequested ∧ w_requiresIssuerAcceptance w = false) ∧
  (∃ e, validateRecordLifecycleAction FormDoc Withdrawable
          (mergeActionPolicy (opt_member org "withdrawable") (opt_member form "withdrawable"))
        = Throws e).
Proof.
  cbv zeta. split; [|eexists; vm_compute; reflexivity].
  set (input := lifecycle_input _ _).
  destruct (returned_with_Returns
    (λ p, match rescission_of p with Some (_, w) => negb (w_requiresIssuerAcceptance w) | None => false end)
    (resolveRuntimeFeatures input)) as (p & Hp & Hrc); [vm_compute; reflexivity|].
  destruct (rescission_of p) as [[r w]|] eqn:E; [|discriminate Hrc].
  apply rescission_of_Some in E as (Hr & Hw & Hi). apply negb_true_iff in Hrc.
  exists p, r, w. exact (conj Hp (conj Hr (conj Hw (conj Hi Hrc)))).
Qed.

(** ** The block validators accept exactly their typed well-formed blocks *)

(** The multi-party validator accepts exactly [undefined] and the values
    that read as a well-formed multi-party block: at least two parties, distinct
    non-empty role ids, [1 <= min <= max], non-empty strings in every list, and
    a safe-address audience that meets the visibility. *)
Theorem multi_party_validator_exact layer v :
  validateMultiPartyLimits layer v = Returns () ↔
  v = JUndef ∨
  ∃ cfg, read_multi_party v = Some cfg ∧
    2 ≤ length (parties cfg) ∧ NoDup (roleId <$> parties cfg) ∧ Forall party_wf (parties cfg) ∧
    (∀ d t, deadlinePolicy cfg = Some d → perPartyDeadline d = Some t → t ≠ "").
Proof.
  rewrite validateMultiPartyLimits_spec. split; (intros [?|(cfg & Hcfg & H)]; [by left|right]);
    exists cfg; (split; [done|]).
  - by destruct H.
  - destruct H as (? & ? & ? & ?). by constructor.
Qed.

(** The safe-address validator accepts exactly [undefined] and the values
    that read as well-formed safe-address limits. *)
Theorem safe_address_validator_exact layer v :
  validateSafeAddressLimits layer v = Returns () ↔
  v = JUndef ∨ ∃ l, read_safe_limits v = Some l ∧ safe_limits_wf l.
Proof. apply validateSafeAddressLimits_spec. Qed.
