(* ===== verification/ExtractForm.v ===== *)
(** * Form-policy extraction

    The pure walkers of src/src/policy/extract-form-policy.ts, which derive a
    form's runtime policy from its definition: what each accepts, and which
    extracted blocks the resolver's validators accept.  Object literals are
    modelled with every property the source writes, [undefined] ones included:
    the resolver's spreads see them. *)

From S2P Require Import Prelude JsValue FeatureKeys MultiPartyPolicy SafeAddressPolicy RecordLifecyclePolicy Resolver.

(** ** Form definitions *)

(** The members of a [FormItem] the walkers read. *)
Inductive FormItem : Type :=
  | Item (itemType : string) (dataType : jsv) (key : string) (itemLabel : jsv)
      (itemVisibleTo accessControl : jsv) (children : option (list FormItem)).

Definition item_type (i : FormItem) : string := let 'Item t _ _ _ _ _ _ := i in t.
Definition item_dataType (i : FormItem) : jsv := let 'Item _ d _ _ _ _ _ := i in d.
Definition item_key (i : FormItem) : string := let 'Item _ _ k _ _ _ _ := i in k.
Definition item_label (i : FormItem) : jsv := let 'Item _ _ _ l _ _ _ := i in l.
Definition item_visibleTo (i : FormItem) : jsv := let 'Item _ _ _ _ v _ _ := i in v.
Definition item_accessControl (i : FormItem) : jsv := let 'Item _ _ _ _ _ a _ := i in a.
Definition item_children (i : FormItem) : option (list FormItem) := let 'Item _ _ _ _ _ _ c := i in c.

Record FormDefinition : Type := {
  def_items : option (list FormItem);
  def_extensions : jsv;
  def_governance : jsv;
  def_parties : jsv
}.

(** [definition.extensions?.[name]] *)
Definition extension (definition : FormDefinition) (name : string) : jsv :=
  opt_member (def_extensions definition) name.

Section FormItem_ind'.
Context (P : FormItem → Prop).
Hypothesis (HI : ∀ t d k l v a c, from_option (Forall P) True c → P (Item t d k l v a c)).

Fixpoint FormItem_ind' (i : FormItem) : P i :=
  match i with
  | Item t d k l v a None => HI t d k l v a None I
  | Item t d k l v a (Some c) =>
      HI t d k l v a (Some c)
        ((fix go c : Forall P c :=
            match c with [] => Forall_nil_2 _ | x :: c' => Forall_cons_2 _ _ _ (FormItem_ind' x) (go c') end) c)
  end.
End FormItem_ind'.

(** ** Feature requests *)

(** The test of the loop body; the recursion follows groups only. *)
Fixpoint item_has_attachment (item : FormItem) : bool :=
  match item with
  | Item t d _ _ _ _ c =>
      (String.eqb t "field" && is_lit d "attachment")
      || (String.eqb t "group"
          && match c with
             | None => false
             | Some items => existsb item_has_attachment items
             end)
  end.

Definition hasAttachmentField (items : option (list FormItem)) : bool :=
  match items with
  | None => false
  | Some items => existsb item_has_attachment items
  end.

Definition extractAttachmentRequirement (definition : FormDefinition) : option FormFeaturePolicyMode :=
  if hasAttachmentField (def_items definition) then Some FormRequired else None.

Definition extractOfflineSubmitOptIn (definition : FormDefinition) : option FormFeaturePolicyMode :=
  if is_true (extension definition "x-formspec-offline-submit") then Some FormOptional else None.

Definition extractPaymentRequirement (definition : FormDefinition) : option FormFeaturePolicyMode :=
  if is_true (extension definition "x-formspec-payment-required") then Some FormRequired else None.

Definition extractEmbeddableOptIn (definition : FormDefinition) : option FormFeaturePolicyMode :=
  if is_true (extension definition "x-formspec-embeddable") then Some FormOptional else None.

Record Money : Set := { amountMinorUnits : Z; currency : string }.

#[export] Instance Money_eq_dec : EqDecision Money.
Proof. solve_decision. Defined.

Definition extractPaymentAmount (definition : FormDefinition) : option Money :=
  let raw := extension definition "x-formspec-payment-amount" in
  if negb (truthy raw) || negb (is_object raw) then None else
  match as_integer (prop raw "amountMinorUnits") with
  | None => None
  | Some n =>
      if (n <? 0)%Z then None else
      match prop raw "currency" with
      | JStr c => if nonempty c then Some {| amountMinorUnits := n; currency := c |} else None
      | _ => None
      end
  end.

(** ** Readers shared by the walkers *)

Definition stringArray (value : jsv) : jsv :=
  match value with JArr l => JArr (List.filter is_nonempty_string l) | _ => JUndef end.

Definition positiveInteger (value : jsv) : option Z :=
  match as_integer value with Some n => if (0 <? n)%Z then Some n else None | None => None end.

Definition nonEmptyString (value : jsv) : jsv := if is_nonempty_string value then value else JUndef.

Definition parseBoolean (value : jsv) : jsv := if is_boolean value then value else JUndef.

Definition parseStringArray (value : jsv) : jsv :=
  match value with JArr l => JArr (List.filter is_string l) | _ => JUndef end.

(** [SET.has(v) ? v : d] *)
Definition lit_or (l : list string) (d value : jsv) : jsv := if is_one_of value l then value else d.

(** An optional object, absent as [undefined]. *)
Definition js_opt (v : option jsv) : jsv := default JUndef v.

(** ** Multi-party *)

Definition parseMultiPartyCardinality (value : jsv) : jsv :=
  if negb (isRecord value) then JObj [("min", JNum (NInt 1)); ("max", JNum (NInt 1))]
  else
    let min := default 1%Z (positiveInteger (prop value "min")) in
    let max :=
      if is_lit (prop value "max") "unbounded" then JStr "unbounded"
      else JNum (NInt (default min (positiveInteger (prop value "max")))) in
    JObj [("min", JNum (NInt min)); ("max", max)].

Definition parseAssuranceFloor (value : jsv) : jsv :=
  if negb (isRecord value) then JUndef
  else
    let ial := nonEmptyString (prop value "ial") in
    let aal := nonEmptyString (prop value "aal") in
    let fal := nonEmptyString (prop value "fal") in
    if truthy ial || truthy aal || truthy fal
    then JObj [("ial", ial); ("aal", aal); ("fal", fal)]
    else JUndef.

Definition parseMultiPartyRole (value : jsv) : option jsv :=
  if negb (isRecord value) then None
  else
    let roleId := nonEmptyString (prop value "roleId") in
    let role :=
      lit_or ["coEqual"; "asymmetricPrimary"; "asymmetricSecondary"; "guardianFor"] JUndef
        (prop value "role") in
    let cardinality := parseMultiPartyCardinality (prop value "cardinality") in
    if negb (truthy roleId) || negb (truthy role) || negb (truthy cardinality) then None
    else
      Some (JObj
        [("roleId", roleId); ("label", nonEmptyString (prop value "label")); ("role", role);
         ("cardinality", cardinality);
         ("assuranceFloor", parseAssuranceFloor (prop value "assuranceFloor"));
         ("visibilityScope", lit_or ["scoped"; "shared"] (JStr "shared") (prop value "visibilityScope"));
         ("visibleTo", stringArray (prop value "visibleTo"));
         ("editableBy", stringArray (prop value "editableBy"));
         ("signedBy", stringArray (prop value "signedBy"));
         ("safeAddressAudience", stringArray (prop value "safeAddressAudience"))]).

Definition parseMultiPartyDeadlinePolicy (value : jsv) : jsv :=
  if negb (isRecord value) then JUndef
  else
    let action := lit_or ["convert-to-partial"; "void-submission"] JUndef (prop value "expirationAction") in
    if negb (truthy action) then JUndef
    else JObj [("expirationAction", action);
               ("perPartyDeadline", nonEmptyString (prop value "perPartyDeadline"))].

Definition parseMultiPartyBlock (value : jsv) : option jsv :=
  if negb (isRecord value) then None
  else
    let tier := lit_or ["coEqual"; "asymmetric"] JUndef (prop value "tier") in
    let parties := omap parseMultiPartyRole (arr_of (prop value "parties")) in
    if negb (truthy tier) || (length parties <? 2)
       || negb (length parties =? length (arr_of (prop value "parties")))
    then None
    else
      Some (JObj
        [("tier", tier); ("parties", JArr parties);
         ("invitationChannel",
           lit_or ["magic-link"; "wos-task"; "out-of-band"] (JStr "out-of-band")
             (prop value "invitationChannel"));
         ("deadlinePolicy", parseMultiPartyDeadlinePolicy (prop value "deadlinePolicy"))]).

(** A policy that states one feature: [{ features, limits }]. *)
Definition feature_policy (key : RuntimeFeatureKey) (mode : FormFeaturePolicyMode) (limits : jsv)
    : FormRuntimePolicy :=
  {| form_features := [(key_string key, JStr (lit_string mode))];
     form_limits := limits; form_recordLifecycle := JUndef |}.

Definition multi_party_carrier (definition : FormDefinition) : jsv :=
  nullish_or (extension definition "x-formspec-multi-party")
    (nullish_or (opt_member (def_governance definition) "multiParty") (def_parties definition)).

Definition extractMultiPartyPolicy (definition : FormDefinition) : option FormRuntimePolicy :=
  policy ← parseMultiPartyBlock (multi_party_carrier definition);
  Some (feature_policy MultiParty FormRequired (JObj [("multiParty", policy)])).

(** ** Safe address *)

Definition safeClass (value : jsv) : option SafeAddressAccessClass := read_lit value.

Definition safeAccessClass (item : FormItem) : option SafeAddressAccessClass :=
  safeClass (opt_member (item_accessControl item) "class").

(** [[...ancestors, key].join('/')] behind a leading slash. *)
Definition pointer (ancestors : list string) (key : string) : string :=
  "/" +:+ String.concat "/" (ancestors ++ [key]).

Definition safe_field (ancestors : list string) (item : FormItem) (cls : SafeAddressAccessClass) : jsv :=
  JObj [("path", JStr (pointer ancestors (item_key item))); ("label", item_label item);
        ("accessClass", JStr (lit_string cls));
        ("visibleTo", stringArray (item_visibleTo item));
        ("plaintextAudiences", stringArray (opt_member (item_accessControl item) "plaintextAudiences"));
        ("effectiveAudiences", stringArray (opt_member (item_accessControl item) "effectiveAudiences"))].

(** The loop body: what one item pushes, its group's children included. *)
Fixpoint item_safe_fields (ancestors : list string) (item : FormItem) : list jsv :=
  match safeAccessClass item with
  | Some cls => [safe_field ancestors item cls]
  | None => []
  end ++
  match item with
  | Item t _ k _ _ _ c =>
      if String.eqb t "group" then
        match c with
        | None => []
        | Some items => flat_map (item_safe_fields (ancestors ++ [k])) items
        end
      else []
  end.

Definition safeAddressFieldsFromItems (items : option (list FormItem)) (ancestors : list string) : list jsv :=
  match items with
  | None => []
  | Some items => flat_map (item_safe_fields ancestors) items
  end.

Definition safeAddressFieldEntry (entry : jsv) : option jsv :=
  if negb (isRecord entry) then None
  else
    let path := nonEmptyString (prop entry "path") in
    match safeClass (prop entry "accessClass") with
    | Some cls =>
        if negb (truthy path) then None
        else
          Some (JObj
            [("path", path); ("label", nonEmptyString (prop entry "label"));
             ("accessClass", JStr (lit_string cls));
             ("visibleTo", stringArray (prop entry "visibleTo"));
             ("plaintextAudiences", stringArray (prop entry "plaintextAudiences"));
             ("effectiveAudiences", stringArray (prop entry "effectiveAudiences"))])
    | None => None
    end.

Definition safeAddressFieldArray (value : jsv) : option (list jsv) :=
  match value with
  | JArr l =>
      match omap safeAddressFieldEntry l with
      | [] => None
      | fields => Some fields
      end
  | _ => None
  end.

Definition parseSafeAddressRendererHints (value : jsv) : jsv :=
  if negb (isRecord value) then JUndef
  else
    let mask := nonEmptyString (prop value "maskRenderToken") in
    let reveal := nonEmptyString (prop value "revealAffordanceLabel") in
    if negb (truthy mask) && negb (truthy reveal) then JUndef
    else JObj [("maskRenderToken", mask); ("revealAffordanceLabel", reveal)].

Definition safeClassArray (value : jsv) : option (list jsv) :=
  match value with
  | JArr l =>
      match List.filter (λ e, match safeClass e with Some _ => true | None => false end) l with
      | [] => None
      | classes => Some classes
      end
  | _ => None
  end.

Record SafeAddressBlock : Type := {
  blk_enabled : bool;
  blk_mode : option FormFeaturePolicyMode;
  blk_tier : jsv;
  blk_classes : option (list jsv);
  blk_jurisdictions : jsv;
  blk_audiences : jsv;
  blk_directory : jsv;
  blk_fields : option (list jsv);
  blk_hints : jsv
}.

Definition empty_block (enabled : bool) : SafeAddressBlock :=
  {| blk_enabled := enabled; blk_mode := None; blk_tier := JUndef; blk_classes := None;
     blk_jurisdictions := JUndef; blk_audiences := JUndef; blk_directory := JUndef;
     blk_fields := None; blk_hints := JUndef |}.

Definition parseSafeAddressBlock (value : jsv) : SafeAddressBlock :=
  if is_true value then empty_block true
  else if negb (isRecord value) then empty_block false
  else
    let mode :=
      match prop value "mode" with
      | JStr m => if String.eqb m "optional" then Some FormOptional
                  else if String.eqb m "required" then Some FormRequired else None
      | _ => None
      end in
    {| blk_enabled := is_true (prop value "enabled") || bool_decide (is_Some mode);
       blk_mode := mode;
       blk_tier := lit_or ["verifier-grade"; "phase-1-fallback"] JUndef (prop value "receiptPostureTier");
       blk_classes := safeClassArray (prop value "enabledClasses");
       blk_jurisdictions := stringArray (prop value "acpJurisdictionsAccepted");
       blk_audiences := stringArray (prop value "authorizedAudiences");
       blk_directory := nonEmptyString (prop value "substituteAddressDirectoryRef");
       blk_fields := safeAddressFieldArray (prop value "fields");
       blk_hints := parseSafeAddressRendererHints (prop value "rendererHints") |}.

(** [fields.map(field => field.accessClass)], first occurrences. *)
Definition uniqueSafeClasses (fs : list jsv) : list jsv :=
  (λ c : SafeAddressAccessClass, JStr (lit_string c)) <$>
    unique (omap (λ f, safeClass (prop f "accessClass")) fs).

(** The [config] literal of [extractSafeAddressPolicy]. *)
Definition safe_address_config (block : SafeAddressBlock) (fs : list jsv) : jsv :=
  JObj [("enabledClasses", JArr (default (uniqueSafeClasses fs) (blk_classes block)));
        ("receiptPostureTier", nullish_or (blk_tier block) (JStr "phase-1-fallback"));
        ("substituteAddressDirectoryRef",
          nullish_or (blk_directory block) (JStr "composition:safeAddressDirectory"));
        ("acpJurisdictionsAccepted", nullish_or (blk_jurisdictions block) (JArr []));
        ("authorizedAudiences", nullish_or (blk_audiences block) (JArr []));
        ("fields", JArr fs);
        ("rendererHints", blk_hints block)].

Definition extractSafeAddressPolicy (definition : FormDefinition) : option FormRuntimePolicy :=
  let raw := extension definition "x-formspec-safe-address" in
  let block := parseSafeAddressBlock raw in
  let fs := safeAddressFieldsFromItems (def_items definition) [] ++ default [] (blk_fields block) in
  let no_fields := bool_decide (length fs = 0) in
  if match raw with JBool false => no_fields | _ => false end then
    Some (feature_policy SafeAddress FormForbidden JUndef)
  else if negb (blk_enabled block) && no_fields then None
  else
    let mode := if no_fields then default FormRequired (blk_mode block) else FormRequired in
    Some (feature_policy SafeAddress mode (JObj [("safeAddress", safe_address_config block fs)])).

(** ** Record lifecycle *)

Definition parseRecordLifecycleWindow (value : jsv) : jsv :=
  if negb (isRecord value) then JUndef
  else if is_lit (prop value "state") "open" then JObj [("state", JStr "open")]
  else if is_lit (prop value "state") "closes-at" && is_string (prop value "closesAt") then
    JObj [("state", JStr "closes-at"); ("closesAt", prop value "closesAt")]
  else if is_lit (prop value "state") "closed" then
    if is_string (prop value "closedAt")
    then JObj [("state", JStr "closed"); ("closedAt", prop value "closedAt")]
    else JObj [("state", JStr "closed")]
  else if is_string (prop value "closesAt") then JObj [("closesAt", prop value "closesAt")]
  else JUndef.

Definition parseActionBlock (value : jsv) : option jsv :=
  if isRecord value && is_boolean (prop value "enabled") then Some value else None.

Definition parseCorrectablePolicy (value : jsv) : jsv :=
  js_opt (block ← parseActionBlock value;
    Some (JObj [("enabled", prop block "enabled");
                ("correctableFieldSet", parseStringArray (prop block "correctableFieldSet"));
                ("window", parseRecordLifecycleWindow (prop block "window"));
                ("requiresEvidence", parseBoolean (prop block "requiresEvidence"));
                ("requiresReason", parseBoolean (prop block "requiresReason"))])).

Definition parseWithdrawablePolicy (value : jsv) : jsv :=
  js_opt (block ← parseActionBlock value;
    Some (JObj [("enabled", prop block "enabled");
                ("window", parseRecordLifecycleWindow (prop block "window"));
                ("requiresReason", parseBoolean (prop block "requiresReason"));
                ("preDeterminationKernelMode",
                  lit_or ["applicant-withdrawn"] JUndef (prop block "preDeterminationKernelMode"));
                ("postDeterminationIntent",
                  lit_or ["rescission-requested"] JUndef (prop block "postDeterminationIntent"));
                ("requiresIssuerAcceptance", parseBoolean (prop block "requiresIssuerAcceptance"));
                ("partyScope",
                  lit_or ["any-party"; "all-parties-must-agree"] JUndef (prop block "partyScope"))])).

Definition parseDisputablePolicy (value : jsv) : jsv :=
  js_opt (block ← parseActionBlock value;
    Some (JObj [("enabled", prop block "enabled");
                ("window", parseRecordLifecycleWindow (prop block "window"));
                ("requiresEvidence", parseBoolean (prop block "requiresEvidence"));
                ("requiresReason", parseBoolean (prop block "requiresReason"));
                ("signerOnly", parseBoolean (prop block "signerOnly"))])).

Definition recordLifecycleBlockEnablesAnyAction (value : jsv) : bool :=
  is_object value
  && (is_true (opt_member (prop value "correctable") "enabled")
      || is_true (opt_member (prop value "withdrawable") "enabled")
      || is_true (opt_member (prop value "disputable") "enabled")).

Definition parseRecordLifecycleBlock (value : jsv) : option jsv :=
  if negb (isRecord value) then None
  else
    let policy :=
      JObj [("correctable", parseCorrectablePolicy (prop value "correctable"));
            ("withdrawable", parseWithdrawablePolicy (prop value "withdrawable"));
            ("disputable", parseDisputablePolicy (prop value "disputable"))] in
    if recordLifecycleBlockEnablesAnyAction policy then Some policy else None.

Definition governance_lifecycle (definition : FormDefinition) : jsv :=
  opt_member (def_governance definition) "recordLifecycle".
Definition extension_lifecycle (definition : FormDefinition) : jsv :=
  extension definition "x-formspec-record-lifecycle".

(** [undefined] when neither carrier declares an enabled action. *)
Definition extractRecordLifecyclePolicy (definition : FormDefinition) : jsv :=
  match parseRecordLifecycleBlock (governance_lifecycle definition) with
  | Some policy => policy
  | None => js_opt (parseRecordLifecycleBlock (extension_lifecycle definition))
  end.

Definition extractRecordLifecycleOptIn (definition : FormDefinition) : option FormFeaturePolicyMode :=
  if is_true (extension_lifecycle definition) || is_true (governance_lifecycle definition)
     || recordLifecycleBlockEnablesAnyAction (extractRecordLifecyclePolicy definition)
  then Some FormOptional else None.
