(* ===== verification/ExtractTheorems.v ===== *)
(** * Theorems of form-policy extraction

    Which items the walkers find, which extracted blocks the resolver's
    validators accept, and how an extracted record-lifecycle block meets the
    org's in the resolver's merge. *)

From S2P Require Import Prelude JsValue FeatureKeys MultiPartyPolicy SafeAddressPolicy RecordLifecyclePolicy Resolver ExtractForm.

(** ** Items the walkers reach *)

(** [reaches anc items path item]: [item] is in [items], or in the children of
    a group reached from there; [path] is the keys of the groups passed. *)
Inductive reaches : list string → list FormItem → list string → FormItem → Prop :=
  | reach_here anc items i : i ∈ items → reaches anc items anc i
  | reach_in anc items g c path i :
      g ∈ items → item_type g = "group" → item_children g = Some c →
      reaches (anc ++ [item_key g]) c path i → reaches anc items path i.

Lemma reaches_cons anc x l path i :
  reaches anc (x :: l) path i ↔
  (path = anc ∧ i = x) ∨
  (∃ c, item_type x = "group" ∧ item_children x = Some c ∧ reaches (anc ++ [item_key x]) c path i) ∨
  reaches anc l path i.
Proof.
  split.
  - intros H. inversion H as [? ? ? Hin|? ? g c ? ? Hin Hg Hc Hr]; subst;
      apply elem_of_cons in Hin as [->|Hin].
    + by left.
    + right. right. by apply reach_here.
    + right. left. by exists c.
    + right. right. by eapply reach_in.
  - intros [[-> ->]|[(c & Ht & Hc & Hr)|Hr]].
    + apply reach_here. by left.
    + eapply reach_in; [by left|done..].
    + inversion Hr as [? ? ? Hin|? ? g c ? ? Hin Hg Hc Hr']; subst.
      * apply reach_here. by right.
      * eapply reach_in; [by right|done..].
Qed.

Lemma reaches_nil anc path i : ¬ reaches anc [] path i.
Proof. intros H. inversion H as [? ? ? Hin|? ? ? ? ? ? Hin]; subst; by apply elem_of_nil in Hin. Qed.

Definition is_attachment (i : FormItem) : Prop :=
  item_type i = "field" ∧ item_dataType i = JStr "attachment".

Lemma is_attachment_spec t d :
  String.eqb t "field" && is_lit d "attachment" = true ↔ t = "field" ∧ d = JStr "attachment".
Proof. by rewrite andb_true_iff, String.eqb_eq, is_lit_spec. Qed.

Lemma existsb_attachment_reaches items :
  Forall (λ x, ∀ anc, item_has_attachment x = true ↔
            is_attachment x ∨ ∃ c path i, item_type x = "group" ∧ item_children x = Some c ∧
              reaches (anc ++ [item_key x]) c path i ∧ is_attachment i) items →
  ∀ anc, existsb item_has_attachment items = true ↔
    ∃ path i, reaches anc items path i ∧ is_attachment i.
Proof.
  induction 1 as [|x l Hx _ IH]; intros anc; simpl.
  - split; [done|]. by intros (p & i & []%reaches_nil & _).
  - rewrite orb_true_iff, (IH anc), (Hx anc). setoid_rewrite reaches_cons. split.
    + intros [[Ha|(c & p & i & ? & ? & ? & ?)]|(p & i & ? & ?)].
      * exists anc, x. tauto.
      * exists p, i. eauto 10.
      * exists p, i. tauto.
    + intros (p & i & [[-> ->]|[(c & ? & ? & ?)|?]] & ?); [tauto|left; right; by exists c, p, i|right; by exists p, i].
Qed.

Lemma item_has_attachment_spec x anc :
  item_has_attachment x = true ↔
    is_attachment x ∨ ∃ c path i, item_type x = "group" ∧ item_children x = Some c ∧
      reaches (anc ++ [item_key x]) c path i ∧ is_attachment i.
Proof.
  revert anc. induction x as [t d k l v a c IH] using FormItem_ind'. intros anc. simpl.
  rewrite orb_true_iff, is_attachment_spec, andb_true_iff, String.eqb_eq. unfold is_attachment at 1. simpl.
  destruct c as [c|]; simpl in *.
  - rewrite (existsb_attachment_reaches c) with (anc := anc ++ [k]); [naive_solver|].
    eapply Forall_impl; [exact IH|]. done.
  - naive_solver.
Qed.

(** A form requires file upload exactly when some attachment field can be
    reached from its items through groups, at any depth. *)
Theorem attachment_requirement_iff d :
  extractAttachmentRequirement d = Some FormRequired ↔
  ∃ items path i, def_items d = Some items ∧ reaches [] items path i ∧
    item_type i = "field" ∧ item_dataType i = JStr "attachment".
Proof.
  unfold extractAttachmentRequirement, hasAttachmentField.
  destruct (def_items d) as [items|]; [|by split; [|intros (? & ? & ? & [=] & _)]].
  destruct (existsb item_has_attachment items) eqn:E.
  - split; [|done]. intros _. rewrite (existsb_attachment_reaches items) with (anc := []) in E.
    { destruct E as (p & i & ? & []). by exists items, p, i. }
    apply Forall_true. intros x anc. apply item_has_attachment_spec.
  - split; [done|]. intros (? & p & i & [= <-] & Hr & Hi).
    rewrite (proj2 (existsb_attachment_reaches items ltac:(apply Forall_true; intros; apply item_has_attachment_spec) []))
      in E; [done|]. by exists p, i.
Qed.

(** ** Safe-address fields of the items *)

Lemma flat_map_fields_reaches items :
  Forall (λ x, ∀ anc f, f ∈ item_safe_fields anc x ↔
            (∃ cls, safeAccessClass x = Some cls ∧ f = safe_field anc x cls) ∨
            ∃ c path i cls, item_type x = "group" ∧ item_children x = Some c ∧
              reaches (anc ++ [item_key x]) c path i ∧ safeAccessClass i = Some cls ∧
              f = safe_field path i cls) items →
  ∀ anc f, f ∈ flat_map (item_safe_fields anc) items ↔
    ∃ path i cls, reaches anc items path i ∧ safeAccessClass i = Some cls ∧ f = safe_field path i cls.
Proof.
  induction 1 as [|x l Hx _ IH]; intros anc f; simpl.
  - split; [by intros ?%elem_of_nil|]. by intros (? & ? & ? & []%reaches_nil & _).
  - rewrite elem_of_app, (IH anc f), (Hx anc f). setoid_rewrite reaches_cons. split.
    + intros [[(cls & ? & ?)|(c & p & i & cls & ? & ? & ? & ? & ?)]|(p & i & cls & ? & ? & ?)].
      * exists anc, x, cls. tauto.
      * exists p, i, cls. eauto 10.
      * exists p, i, cls. tauto.
    + intros (p & i & cls & [[-> ->]|[(c & ? & ? & ?)|?]] & ? & ?);
        [left; left; by exists cls|left; right; by exists c, p, i, cls|right; by exists p, i, cls].
Qed.

Lemma item_safe_fields_spec x anc f :
  f ∈ item_safe_fields anc x ↔
    (∃ cls, safeAccessClass x = Some cls ∧ f = safe_field anc x cls) ∨
    ∃ c path i cls, item_type x = "group" ∧ item_children x = Some c ∧
      reaches (anc ++ [item_key x]) c path i ∧ safeAccessClass i = Some cls ∧ f = safe_field path i cls.
Proof.
  revert anc f. induction x as [t d k l v a c IH] using FormItem_ind'. intros anc f. cbn [item_safe_fields].
  rewrite elem_of_app.
  set (x := Item t d k l v a c).
  assert (f ∈ match safeAccessClass x with Some cls => [safe_field anc x cls] | None => [] end ↔
          ∃ cls, safeAccessClass x = Some cls ∧ f = safe_field anc x cls) as ->.
  { destruct (safeAccessClass x) as [cls|]; [rewrite list_elem_of_singleton|rewrite elem_of_nil].
    - split; [intros ->; by exists cls|by intros (? & [= <-] & ->)].
    - by split; [|intros (? & ? & _)]. }
  apply or_iff_compat_l. simpl. destruct (String.eqb t "group") eqn:Ht; split_andb.
  - destruct c as [c|]; simpl in *.
    + rewrite (flat_map_fields_reaches c IH (anc ++ [k]) f). split.
      * intros (p & i & cls & ? & ? & ?). by exists c, p, i, cls.
      * intros (c' & p & i & cls & _ & [= <-] & ? & ? & ?). by exists p, i, cls.
    + rewrite elem_of_nil. by split; [|intros (? & ? & ? & ? & _ & [=] & _)].
  - rewrite elem_of_nil. by split; [|intros (? & ? & ? & ? & ? & _)].
Qed.

Lemma safeAddressFieldsFromItems_spec items anc f :
  f ∈ safeAddressFieldsFromItems (Some items) anc ↔
  ∃ path i cls, reaches anc items path i ∧ safeAccessClass i = Some cls ∧ f = safe_field path i cls.
Proof.
  apply flat_map_fields_reaches, Forall_true. intros x anc' f'. apply item_safe_fields_spec.
Qed.

(** The walker lists exactly the items, reached through groups, whose
    access class is in the safe namespace, each as a field policy whose path
    names the groups passed and the item's key. *)
Theorem safe_address_fields_of_items items f :
  f ∈ safeAddressFieldsFromItems (Some items) [] ↔
  ∃ path i cls, reaches [] items path i ∧ safeAccessClass i = Some cls ∧ f = safe_field path i cls.
Proof. apply safeAddressFieldsFromItems_spec. Qed.

(** ** Readers of extracted values *)

Lemma stringArray_read v :
  ∃ ss, read_strings (stringArray v) = Some ss ∧ from_option (Forall (λ s, s ≠ "")) True ss.
Proof.
  destruct v as [| | | | |l|]; simpl; try (by exists None).
  assert (∃ ss, List.filter is_nonempty_string l = JStr <$> ss ∧ Forall (λ s, s ≠ "") ss) as (ss & -> & ?).
  { induction l as [|x l (ss & IH & ?)]; simpl; [by exists []|].
    destruct (is_nonempty_string x) eqn:E; [|by exists ss].
    apply is_nonempty_string_spec in E as (s & -> & ?). exists (s :: ss). rewrite IH. split; [done|by constructor]. }
  exists (Some ss). by rewrite mapM_str_of_map.
Qed.

Lemma nonEmptyString_truthy v : truthy (nonEmptyString v) = true → ∃ s, v = JStr s ∧ s ≠ "" ∧ nonEmptyString v = JStr s.
Proof.
  unfold nonEmptyString. destruct (is_nonempty_string v) eqn:E; [|done].
  apply is_nonempty_string_spec in E as (s & -> & ?). by exists s.
Qed.

Lemma nonEmptyString_optional v :
  ∃ s, read_optional str_of (nonEmptyString v) = Some s ∧ from_option (λ s, s ≠ "") True s.
Proof.
  unfold nonEmptyString. destruct (is_nonempty_string v) eqn:E; [|by exists None].
  apply is_nonempty_string_spec in E as (s & -> & ?). by exists (Some s).
Qed.

Section lit_or.
Context {A : Type} `{!Literal A} (l : list string).
Hypothesis Hl : ∀ s, s ∈ l ↔ ∃ a : A, s = lit_string a.

Lemma lit_or_default d v : (∃ a : A, read_lit d = Some a) → ∃ a : A, read_lit (lit_or l d v) = Some a.
Proof.
  unfold lit_or. intros Hd. destruct (is_one_of v l) eqn:E; [|done].
  apply is_one_of_spec in E as (s & -> & [a ->]%Hl). exists a. apply read_lit_string.
Qed.

Lemma lit_or_truthy v : truthy (lit_or l JUndef v) = true → ∃ a : A, read_lit (lit_or l JUndef v) = Some a.
Proof.
  unfold lit_or. destruct (is_one_of v l) eqn:E; [|done].
  apply is_one_of_spec in E as (s & -> & [a ->]%Hl). exists a. apply read_lit_string.
Qed.

Lemma lit_or_optional v : ∃ a : option A, read_optional read_lit (lit_or l JUndef v) = Some a.
Proof.
  unfold lit_or, read_optional. destruct (is_one_of v l) eqn:E; [|by exists None].
  apply is_one_of_spec in E as (s & -> & [a ->]%Hl). exists (Some a). simpl. by rewrite read_lit_string.
Qed.
End lit_or.

(** ** Multi-party extraction *)

Lemma roles_list s :
  s ∈ ["coEqual"; "asymmetricPrimary"; "asymmetricSecondary"; "guardianFor"] ↔
  ∃ a : MultiPartyRoleClass, s = lit_string a.
Proof.
  split; [|intros [[] ->]; set_solver].
  intros [->|[->|[->| ->%list_elem_of_singleton]%elem_of_cons]%elem_of_cons]%elem_of_cons;
    [by exists CoEqual|by exists AsymmetricPrimary|by exists AsymmetricSecondary|by exists GuardianFor].
Qed.

Lemma scopes_list s : s ∈ ["scoped"; "shared"] ↔ ∃ a : MultiPartyVisibilityScope, s = lit_string a.
Proof.
  split; [|intros [[] ->]; set_solver].
  intros [->| ->%list_elem_of_singleton]%elem_of_cons; [by exists ScopedScope|by exists SharedScope].
Qed.

Lemma tiers_list s : s ∈ ["coEqual"; "asymmetric"] ↔ ∃ a : MultiPartyTier, s = lit_string a.
Proof.
  split; [|intros [[] ->]; set_solver].
  intros [->| ->%list_elem_of_singleton]%elem_of_cons; [by exists CoEqualTier|by exists AsymmetricTier].
Qed.

Lemma channels_list s :
  s ∈ ["magic-link"; "wos-task"; "out-of-band"] ↔ ∃ a : MultiPartyInvitationChannel, s = lit_string a.
Proof.
  split; [|intros [[] ->]; set_solver].
  intros [->|[->| ->%list_elem_of_singleton]%elem_of_cons]%elem_of_cons;
    [by exists MagicLink|by exists WosTask|by exists OutOfBand].
Qed.

Lemma expirations_list s :
  s ∈ ["convert-to-partial"; "void-submission"] ↔ ∃ a : MultiPartyExpirationAction, s = lit_string a.
Proof.
  split; [|intros [[] ->]; set_solver].
  intros [->| ->%list_elem_of_singleton]%elem_of_cons; [by exists ConvertToPartial|by exists VoidSubmission].
Qed.

Lemma positiveInteger_spec v n : positiveInteger v = Some n → (1 ≤ n)%Z.
Proof. unfold positiveInteger. destruct (as_integer v) as [m|]; [|done]. destruct (Z.ltb_spec 0 m); naive_solver lia. Qed.

Lemma parse_cardinality_read v :
  ∃ c, read_cardinality (parseMultiPartyCardinality v) = Some c ∧ (1 ≤ card_min c)%Z ∧
       truthy (parseMultiPartyCardinality v) = true.
Proof.
  unfold parseMultiPartyCardinality. destruct (isRecord v); simpl; [|by eexists].
  set (mn := default 1%Z _).
  assert (1 ≤ mn)%Z.
  { subst mn. destruct (positiveInteger (prop v "min")) eqn:E; simpl; [by apply positiveInteger_spec in E|done]. }
  destruct (is_lit (prop v "max") "unbounded"); simpl; by eexists.
Qed.

(** What an extracted party promises; distinctness, ordered cardinalities and
    meeting audiences are left to the resolver. *)
Record party_parsed (p : MultiPartyRolePolicy) : Prop := {
  parsed_roleId : roleId p ≠ "";
  parsed_min : (1 ≤ card_min (cardinality p))%Z;
  parsed_visibleTo : nonempty_strings (visibleTo p);
  parsed_editableBy : nonempty_strings (editableBy p);
  parsed_signedBy : nonempty_strings (signedBy p);
  parsed_safeAudience : nonempty_strings (safeAddressAudience p)
}.

(** The conditions the resolver adds, per party. *)
Definition party_admissible (p : MultiPartyRolePolicy) : Prop :=
  from_option (λ mx, card_min (cardinality p) ≤ mx)%Z True (card_max (cardinality p)) ∧
  audiences_meet (safeAddressAudience p) (visibleTo p).

Lemma party_wf_parsed p : party_parsed p → party_wf p ↔ party_admissible p.
Proof.
  intros []. unfold party_admissible. split.
  - intros [? [] ? ? ? ? ?]. done.
  - intros []. by constructor.
Qed.

Lemma parse_role_read v r :
  parseMultiPartyRole v = Some r → ∃ p, read_party r = Some p ∧ party_parsed p.
Proof.
  unfold parseMultiPartyRole. destruct (isRecord v); simpl; [|done].
  destruct (parse_cardinality_read (prop v "cardinality")) as (c & Hc & Hmin & ->).
  destruct (truthy (nonEmptyString (prop v "roleId"))) eqn:Hid; [|done].
  destruct (truthy (lit_or _ JUndef (prop v "role"))) eqn:Hro; [|done].
  intros [= <-]. apply nonEmptyString_truthy in Hid as (rid & _ & ? & Hid). rewrite Hid.
  apply (lit_or_truthy _ roles_list) in Hro as [ro Hro].
  destruct (lit_or_default _ scopes_list (JStr "shared") (prop v "visibilityScope")) as [sc Hsc];
    [by exists SharedScope|].
  destruct (stringArray_read (prop v "visibleTo")) as (vt & Hvt & ?).
  destruct (stringArray_read (prop v "editableBy")) as (eb & Heb & ?).
  destruct (stringArray_read (prop v "signedBy")) as (sb & Hsb & ?).
  destruct (stringArray_read (prop v "safeAddressAudience")) as (sa & Hsa & ?).
  unfold read_party; cbn [obj_get own_get String.eqb Ascii.eqb Bool.eqb default str_of mbind option_bind].
  unfold obj_get; simpl. rewrite Hro; simpl. rewrite Hsc; simpl. rewrite Hc; simpl.
  rewrite Hvt; simpl. rewrite Heb; simpl. rewrite Hsb; simpl. rewrite Hsa; simpl.
  eexists. split; [done|]. by constructor.
Qed.

Lemma parse_roles_read l :
  ∃ ps, mapM read_party (omap parseMultiPartyRole l) = Some ps ∧ Forall party_parsed ps.
Proof.
  induction l as [|x l (ps & Hps & Hall)]; [by exists []|]. csimpl.
  destruct (parseMultiPartyRole x) as [r|] eqn:E; [|by exists ps].
  apply parse_role_read in E as (p & Hp & ?). exists (p :: ps). csimpl.
  rewrite Hp; csimpl. split; [|by constructor]. apply bind_Some. by exists ps.
Qed.

Lemma parse_deadline_read v :
  ∃ d, read_optional read_deadline (parseMultiPartyDeadlinePolicy v) = Some d ∧ deadline_wf d.
Proof.
  unfold parseMultiPartyDeadlinePolicy, deadline_wf. destruct (isRecord v); simpl; [|by exists None].
  destruct (truthy (lit_or _ _ _)) eqn:Ha; simpl; [|by exists None].
  apply (lit_or_truthy _ expirations_list) in Ha as [a Ha].
  destruct (nonEmptyString_optional (prop v "perPartyDeadline")) as (s & Hs & ?).
  unfold read_optional at 1; simpl. unfold obj_get; simpl. rewrite Ha; simpl. rewrite Hs; simpl.
  eexists. split; [done|]. intros d' t [= <-] [= ->]. done.
Qed.

Lemma parse_block_read v b :
  parseMultiPartyBlock v = Some b →
  ∃ cfg, read_multi_party b = Some cfg ∧ 2 ≤ length (parties cfg) ∧ Forall party_parsed (parties cfg) ∧
    is_Some (invitationChannel cfg) ∧
    length (parties cfg) = length (arr_of (prop v "parties")) ∧ deadline_wf (deadlinePolicy cfg).
Proof.
  unfold parseMultiPartyBlock. destruct (isRecord v); simpl; [|done].
  destruct (truthy (lit_or _ JUndef (prop v "tier"))) eqn:Ht; simpl; [|done].
  destruct (parse_roles_read (arr_of (prop v "parties"))) as (ps & Hps & Hall).
  destruct (_ <? 2) eqn:H2; simpl; [done|]. destruct (_ =? _) eqn:Hlen; simpl; [|done].
  intros [= <-]. apply (lit_or_truthy _ tiers_list) in Ht as [t Ht].
  destruct (lit_or_default _ channels_list (JStr "out-of-band") (prop v "invitationChannel")) as [ch Hch];
    [by exists OutOfBand|].
  destruct (parse_deadline_read (prop v "deadlinePolicy")) as (d & Hd & Hdw).
  unfold read_multi_party, obj_get; simpl. rewrite Ht; simpl. rewrite Hps; simpl.
  assert (read_optional read_lit (lit_or ["magic-link"; "wos-task"; "out-of-band"]
    (JStr "out-of-band") (prop v "invitationChannel")) = Some (Some ch)) as ->.
  { unfold read_optional. destruct (is_undefined _) eqn:Hu; [|by rewrite Hch].
    apply is_undefined_spec in Hu. rewrite Hu in Hch. done. }
  simpl. rewrite Hd; simpl. eexists. split; [done|]. simpl.
  apply Nat.ltb_ge in H2. apply Nat.eqb_eq in Hlen. apply length_mapM in Hps. rewrite <- Hps. eauto 10.
Qed.

(** An extracted multi-party block always reads at its type, with two or
    more parties, none of the declared ones dropped, and an explicit channel; it
    is accepted by the resolver exactly when the role ids are distinct, every
    bounded cardinality is ordered and the safe-address audiences meet the
    visibility. *)
Theorem extracted_multi_party_accepted d pol layer :
  extractMultiPartyPolicy d = Some pol →
  ∃ cfg, read_multi_party (form_limit pol MultiParty) = Some cfg ∧
    2 ≤ length (parties cfg) ∧
    length (parties cfg) = length (arr_of (prop (multi_party_carrier d) "parties")) ∧
    is_Some (invitationChannel cfg) ∧ Forall party_parsed (parties cfg) ∧
    (validateMultiPartyLimits layer (form_limit pol MultiParty) = Returns () ↔
       NoDup (roleId <$> parties cfg) ∧ Forall party_admissible (parties cfg)).
Proof.
  unfold extractMultiPartyPolicy. intros (b & Hb & [= <-])%bind_Some.
  assert (form_limit (feature_policy MultiParty FormRequired (JObj [("multiParty", b)])) MultiParty = b)
    as -> by done.
  apply parse_block_read in Hb as (cfg & Hcfg & H2 & Hall & Hch & Hlen & Hd).
  exists cfg. split; [done|]. split; [done|]. split; [done|]. split; [done|]. split; [done|].
  rewrite validateMultiPartyLimits_spec.
  assert (Forall party_wf (parties cfg) ↔ Forall party_admissible (parties cfg)) as Hiff.
  { rewrite !Forall_forall. rewrite Forall_forall in Hall. split; intros H p Hp; apply party_wf_parsed; auto. }
  split.
  - intros [->|(cfg' & Hcfg' & [])]; [done|]. simplify_eq.
    split; [done|]. by apply Hiff.
  - intros [Hnd Hadm]. right. exists cfg. split; [done|]. constructor; [done|done|by apply Hiff|].
    intros d' t Hd'. apply (Hd d' t Hd').
Qed.

Definition sample_definition (extensions : jsobj) (items : list FormItem) : FormDefinition :=
  {| def_items := Some items; def_extensions := JObj extensions; def_governance := JUndef;
     def_parties := JUndef |}.

Definition sample_role (rid : string) (cls : string) : jsv :=
  JObj [("roleId", JStr rid); ("role", JStr cls)].

Definition sample_multi_party_form : FormDefinition :=
  sample_definition
    [("x-formspec-multi-party",
      JObj [("tier", JStr "asymmetric");
            ("parties", JArr [sample_role "parent" "asymmetricPrimary"; sample_role "witness" "guardianFor"])])]
    [].

Lemma extracted_multi_party_accepted_witness :
  ∃ pol cfg, extractMultiPartyPolicy sample_multi_party_form = Some pol ∧
    read_multi_party (form_limit pol MultiParty) = Some cfg ∧ 2 ≤ length (parties cfg).
Proof.
  destruct (extractMultiPartyPolicy sample_multi_party_form) as [pol|] eqn:E; [|vm_compute in E; discriminate E].
  destruct (extracted_multi_party_accepted sample_multi_party_form pol FormDoc E) as (cfg & Hcfg & H2 & _).
  exists pol, cfg. split; [reflexivity|]. split; [exact Hcfg|exact H2].
Defined.

(** ** Safe-address extraction *)

(** An extracted field entry reads at its type, and is well-formed exactly when
    its path is a pointer. *)
Definition field_parsed (f : jsv) : Prop :=
  ∃ r, read_field f = Some r ∧ (field_wf r ↔ is_pointer (prop f "path") = true).

Lemma field_object_parsed path lbl (cls : SafeAddressAccessClass) v1 v2 v3 :
  field_parsed (JObj
    [("path", JStr path); ("label", lbl); ("accessClass", JStr (lit_string cls));
     ("visibleTo", stringArray v1); ("plaintextAudiences", stringArray v2);
     ("effectiveAudiences", stringArray v3)]).
Proof.
  destruct (stringArray_read v1) as (s1 & H1 & ?), (stringArray_read v2) as (s2 & H2 & ?),
    (stringArray_read v3) as (s3 & H3 & ?).
  pose proof (read_lit_string cls) as Hc. revert Hc. generalize (JStr (lit_string cls)). intros jc Hc.
  unfold field_parsed, read_field, obj_get; simpl. rewrite Hc; simpl.
  rewrite H1; simpl. rewrite H2; simpl. rewrite H3; simpl.
  eexists. split; [done|]. split; [by intros []|]. intros Hp. by constructor.
Qed.

Lemma pointer_is_pointer anc key : is_pointer (JStr (pointer anc key)) = true.
Proof. apply starts_with_spec. by eexists. Qed.

Lemma field_entry_parsed e f : safeAddressFieldEntry e = Some f → field_parsed f.
Proof.
  unfold safeAddressFieldEntry. destruct (isRecord e); simpl; [|done].
  destruct (safeClass (prop e "accessClass")) as [cls|]; [|done].
  destruct (truthy (nonEmptyString (prop e "path"))) eqn:Hp; simpl; [|done].
  apply nonEmptyString_truthy in Hp as (p & _ & _ & ->). intros [= <-]. apply field_object_parsed.
Qed.

Definition block_fields (d : FormDefinition) : list jsv :=
  default [] (blk_fields (parseSafeAddressBlock (extension d "x-formspec-safe-address"))).

Lemma block_field_parsed d f : f ∈ block_fields d → field_parsed f.
Proof.
  unfold block_fields, parseSafeAddressBlock. set (raw := extension d _).
  destruct (is_true raw); simpl; [by intros ?%elem_of_nil|].
  destruct (isRecord raw); simpl; [|by intros ?%elem_of_nil].
  unfold safeAddressFieldArray. destruct (prop raw "fields") as [| | | | |l|]; simpl; try by intros ?%elem_of_nil.
  intros Hin. assert (f ∈ omap safeAddressFieldEntry l) as (e & _ & He)%list_elem_of_omap.
  { destruct (omap safeAddressFieldEntry l); [by apply elem_of_nil in Hin|done]. }
  by eapply field_entry_parsed.
Qed.

Lemma item_field_parsed items f :
  f ∈ safeAddressFieldsFromItems items [] → field_parsed f ∧ is_pointer (prop f "path") = true.
Proof.
  destruct items as [items|]; [|by intros ?%elem_of_nil].
  intros (path & i & cls & _ & _ & ->)%safeAddressFieldsFromItems_spec.
  split; [apply field_object_parsed|apply pointer_is_pointer].
Qed.

Lemma fields_read fs :
  (∀ f, f ∈ fs → field_parsed f) →
  ∃ rs, mapM read_field fs = Some rs ∧
    (Forall field_wf rs ↔ ∀ f, f ∈ fs → is_pointer (prop f "path") = true).
Proof.
  induction fs as [|f fs IH]; intros H.
  - exists []. split; [done|]. split; [by intros _ f ?%elem_of_nil|done].
  - destruct (H f) as (r & Hr & Hiff); [by left|]. destruct IH as (rs & Hrs & IH); [intros; apply H; by right|].
    exists (r :: rs). csimpl. rewrite Hr. csimpl. split; [apply bind_Some; by exists rs|].
    rewrite Forall_cons, Hiff, IH. setoid_rewrite elem_of_cons. split.
    + intros [? ?] g [->|?]; auto.
    + intros Hg. split; intros; apply Hg; auto.
Qed.

Lemma class_strings_read (l : list jsv) :
  (∀ v, v ∈ l → ∃ c : SafeAddressAccessClass, read_lit v = Some c) →
  ∃ cs : list SafeAddressAccessClass, mapM read_lit l = Some cs.
Proof.
  induction l as [|v l IH]; intros H; [by exists []|].
  destruct (H v) as [c Hc]; [by left|]. destruct IH as [cs Hcs]; [intros; apply H; by right|].
  exists (c :: cs). csimpl. rewrite Hc. csimpl. apply bind_Some. by exists cs.
Qed.

Lemma enabled_classes_read v fs x :
  x ∈ default (uniqueSafeClasses fs) (blk_classes (parseSafeAddressBlock v)) →
  ∃ c : SafeAddressAccessClass, read_lit x = Some c.
Proof.
  assert (x ∈ uniqueSafeClasses fs → ∃ c : SafeAddressAccessClass, read_lit x = Some c) as Hu.
  { unfold uniqueSafeClasses. intros (c' & -> & _)%list_elem_of_fmap. exists c'. apply read_lit_string. }
  unfold parseSafeAddressBlock. destruct (is_true v); simpl; [done|]. destruct (isRecord v); simpl; [|done].
  unfold safeClassArray. destruct (prop v "enabledClasses") as [| | | | |l|]; simpl; try done.
  destruct (List.filter _ l) eqn:E; simpl; [done|]. rewrite <- E. intros [_ Hx]%elem_of_filterb.
  unfold safeClass in Hx. destruct (read_lit x); [by eexists|done].
Qed.

(** A block's optional list, defaulted as the extractor defaults it. *)
Lemma string_array_default v :
  ∃ ss, read_strings (nullish_or (stringArray v) (JArr [])) = Some ss ∧
        from_option (Forall (λ s, s ≠ "")) True ss.
Proof.
  destruct (stringArray_read v) as (ss & Hss & Hall).
  destruct v as [| | | | |l|]; simpl in *; try (exists (Some []); split; [done|constructor]). by exists ss.
Qed.

Lemma block_lists v :
  let b := parseSafeAddressBlock v in
  (∃ x, blk_jurisdictions b = stringArray x) ∧ (∃ x, blk_audiences b = stringArray x) ∧
  (∃ x, blk_directory b = nonEmptyString x) ∧
  (∃ x, blk_tier b = lit_or ["verifier-grade"; "phase-1-fallback"] JUndef x) ∧
  (∃ x, blk_hints b = parseSafeAddressRendererHints x).
Proof.
  unfold parseSafeAddressBlock. destruct (is_true v); simpl; [|destruct (isRecord v); simpl];
    repeat split; first [by exists JUndef | by eexists].
Qed.

Lemma receipt_tiers_list s :
  s ∈ ["verifier-grade"; "phase-1-fallback"] ↔ ∃ a : SafeAddressReceiptPostureTier, s = lit_string a.
Proof.
  split; [|intros [[] ->]; set_solver].
  intros [->| ->%list_elem_of_singleton]%elem_of_cons; [by exists VerifierGrade|by exists Phase1Fallback].
Qed.

Lemma hints_read x : ∃ o, read_optional read_object (parseSafeAddressRendererHints x) = Some o.
Proof.
  unfold parseSafeAddressRendererHints. destruct (isRecord x); simpl; [|by exists None].
  destruct (_ && _); by eexists.
Qed.

Lemma read_safe_limits_of o t cs js aud dir fs hs :
  read_optional read_lit (obj_get o "receiptPostureTier") = Some t →
  read_optional (read_array read_lit) (obj_get o "enabledClasses") = Some cs →
  read_strings (obj_get o "acpJurisdictionsAccepted") = Some js →
  read_strings (obj_get o "authorizedAudiences") = Some aud →
  read_optional str_of (obj_get o "substituteAddressDirectoryRef") = Some dir →
  read_optional (read_array read_field) (obj_get o "fields") = Some fs →
  read_optional read_object (obj_get o "rendererHints") = Some hs →
  read_safe_limits (JObj o) =
    Some {| lim_tier := t; lim_classes := cs; lim_jurisdictions := js; lim_audiences := aud;
            lim_directory := dir; lim_fields := fs; lim_hints := hs |}.
Proof. intros Ht Hc Hj Ha Hd Hf Hh. unfold read_safe_limits. by rewrite Ht, Hc, Hj, Ha, Hd, Hf, Hh. Qed.

Lemma safe_config_accepted layer v fs :
  (∀ f, f ∈ fs → field_parsed f) →
  validateSafeAddressLimits layer (safe_address_config (parseSafeAddressBlock v) fs) = Returns () ↔
  ∀ f, f ∈ fs → is_pointer (prop f "path") = true.
Proof.
  intros Hfs. rewrite validateSafeAddressLimits_spec. set (b := parseSafeAddressBlock v).
  destruct (block_lists v) as ([xj Hj] & [xa Ha] & [xd Hd] & [xt Ht] & [xh Hh]).
  fold b in Hj, Ha, Hd, Ht, Hh.
  destruct (fields_read fs Hfs) as (rs & Hrs & Hwf).
  destruct (class_strings_read (default (uniqueSafeClasses fs) (blk_classes b))) as [cs Hcs].
  { intros x Hx. by eapply (enabled_classes_read v fs). }
  destruct (string_array_default xj) as (js & Hjs & ?), (string_array_default xa) as (aud & Haud & ?).
  destruct (hints_read xh) as [hs Hhs].
  assert (∃ t : SafeAddressReceiptPostureTier, read_optional read_lit (nullish_or (blk_tier b) (JStr "phase-1-fallback")) = Some (Some t))
    as [t Htr].
  { rewrite Ht. unfold lit_or. destruct (is_one_of xt _) eqn:E; [|by exists Phase1Fallback].
    apply is_one_of_spec in E as (s & -> & [a ->]%receipt_tiers_list). exists a.
    unfold read_optional. simpl. by destruct a. }
  assert (∃ s, read_optional str_of (nullish_or (blk_directory b) (JStr "composition:safeAddressDirectory"))
            = Some (Some s) ∧ s ≠ "") as (s & Hds & Hs).
  { rewrite Hd. unfold nonEmptyString. destruct (is_nonempty_string xd) eqn:E; [|by eexists].
    apply is_nonempty_string_spec in E as (s & -> & ?). by exists s. }
  assert (read_safe_limits (safe_address_config b fs) =
    Some {| lim_tier := Some t; lim_classes := Some cs; lim_jurisdictions := js; lim_audiences := aud;
            lim_directory := Some s; lim_fields := Some rs; lim_hints := hs |}) as Hread.
  { apply read_safe_limits_of; [exact Htr| | | |exact Hds| |].
    - change (Some <$> mapM read_lit (default (uniqueSafeClasses fs) (blk_classes b)) = Some (Some cs)).
      by rewrite Hcs.
    - change (read_strings (nullish_or (blk_jurisdictions b) (JArr [])) = Some js). by rewrite Hj.
    - change (read_strings (nullish_or (blk_audiences b) (JArr [])) = Some aud). by rewrite Ha.
    - change (Some <$> mapM read_field fs = Some (Some rs)). by rewrite Hrs.
    - change (read_optional read_object (blk_hints b) = Some hs). by rewrite Hh. }
  rewrite Hread, <- Hwf. split.
  - intros [?|(l & [= <-] & [])]; done.
  - intros ?. right. eexists. split; [done|]. by constructor.
Qed.

(** An extracted safe-address policy is accepted by the resolver exactly
    when every field path stated in the extension block is a JSON pointer; the
    fields derived from the items never make it fail. *)
Theorem extracted_safe_address_accepted d pol layer :
  extractSafeAddressPolicy d = Some pol →
  (validateSafeAddressLimits layer (form_limit pol SafeAddress) = Returns () ↔
   ∀ f, f ∈ block_fields d → is_pointer (prop f "path") = true).
Proof.
  pose proof (block_field_parsed d) as Hblk. pose proof (item_field_parsed (def_items d)) as Hitem.
  unfold extractSafeAddressPolicy, block_fields in *. set (raw := extension d _) in *.
  set (items := safeAddressFieldsFromItems (def_items d) []) in *.
  set (fs := items ++ _) in *. intros H.
  assert ((∀ f, f ∈ fs → field_parsed f) ∧
    ((∀ f, f ∈ fs → is_pointer (prop f "path") = true) ↔
     (∀ f, f ∈ default [] (blk_fields (parseSafeAddressBlock raw)) → is_pointer (prop f "path") = true)))
    as [Hfs Hptr].
  { subst fs. setoid_rewrite elem_of_app. split; [intros f [?|?]; [by apply Hitem|by apply Hblk]|].
    split; intros Hf f; [intros ?; apply Hf; by right|intros [?|?]; [by apply Hitem|by apply Hf]]. }
  destruct (match raw with JBool false => bool_decide (length fs = 0) | _ => false end) eqn:Hno.
  - injection H as <-. destruct raw as [| |[]| | | |]; simplify_eq/=.
    split; [intros _ f Hf; by apply elem_of_nil in Hf|done].
  - destruct (negb _ && _); [done|]. injection H as <-. rewrite <- Hptr, <- (safe_config_accepted layer raw) by done.
    done.
Qed.

Definition sample_safe_form_definition : FormDefinition :=
  sample_definition [("x-formspec-safe-address", JObj [("enabled", JBool true)])]
    [Item "group" JUndef "household" JUndef JUndef JUndef
       (Some [Item "field" (JStr "string") "address" (JStr "Home") JUndef
                (JObj [("class", JStr "safe-address")]) None])].

Lemma extracted_safe_address_accepted_witness :
  ∃ pol, extractSafeAddressPolicy sample_safe_form_definition = Some pol ∧
    validateSafeAddressLimits FormDoc (form_limit pol SafeAddress) = Returns ().
Proof.
  destruct (extractSafeAddressPolicy sample_safe_form_definition) as [pol|] eqn:E; [|vm_compute in E; discriminate E].
  exists pol. split; [reflexivity|].
  apply (extracted_safe_address_accepted sample_safe_form_definition pol FormDoc E).
  intros f Hf. vm_compute in Hf. by apply elem_of_nil in Hf.
Defined.

(** ** Record-lifecycle extraction *)

Lemma parsed_boolean_valid src act cite v :
  validateOptionalBoolean src act cite (parseBoolean v) = Returns ().
Proof. unfold validateOptionalBoolean, parseBoolean. by destruct v. Qed.

Lemma parsed_window_valid src act v :
  validateRecordLifecycleWindow src act (parseRecordLifecycleWindow v) = Returns ().
Proof.
  unfold parseRecordLifecycleWindow. destruct (isRecord v); simpl; [|done].
  destruct (is_lit (prop v "state") "open"); [done|].
  destruct (is_lit (prop v "state") "closes-at" && is_string (prop v "closesAt")) eqn:E1.
  { apply andb_true_iff in E1 as [_ E1]. by destruct (prop v "closesAt"). }
  destruct (is_lit (prop v "state") "closed"); [destruct (prop v "closedAt"); done|].
  by destruct (prop v "closesAt").
Qed.

Lemma parseActionBlock_Some v b :
  parseActionBlock v = Some b → b = v ∧ ∃ e, prop v "enabled" = JBool e.
Proof.
  unfold parseActionBlock. destruct (isRecord v && is_boolean (prop v "enabled")) eqn:E; [|done].
  intros [= <-]. apply andb_true_iff in E as [_ E]. by apply is_boolean_spec in E.
Qed.

(** What the resolver asks of an extracted correctable action. *)
Definition correctable_admissible (c : jsv) : Prop :=
  (prop c "enabled" = JBool true → arr_of (prop c "correctableFieldSet") ≠ []) ∧
  ∀ x, x ∈ arr_of (prop c "correctableFieldSet") → is_pointer x = true.

Definition withdrawable_admissible (w : jsv) : Prop :=
  prop w "postDeterminationIntent" = JStr "rescission-requested" →
  prop w "requiresIssuerAcceptance" = JBool true.

(** On an object whose [enabled] and [window] are fine, the validator runs the
    action's own tail. *)
Lemma action_tail src act o e :
  obj_get o "enabled" = JBool e → validateRecordLifecycleWindow src act (obj_get o "window") = Returns () →
  validateRecordLifecycleAction src act (JObj o) =
    match act with
    | Correctable => validateCorrectable src (JObj o)
    | Withdrawable => validateWithdrawable src (JObj o)
    | Disputable => validateDisputable src (JObj o)
    end.
Proof.
  intros He Hw. unfold validateRecordLifecycleAction, get_member, prop; simpl. rewrite He; simpl.
  rewrite Hw. done.
Qed.

Lemma correctable_tail_valid src v fs :
  prop v "correctableFieldSet" = JArr fs ∨ (prop v "correctableFieldSet" = JUndef ∧ fs = []) →
  (∃ x, prop v "requiresEvidence" = parseBoolean x) → (∃ x, prop v "requiresReason" = parseBoolean x) →
  validateCorrectable src v = Returns () ↔ correctable_admissible v.
Proof.
  intros Hfs [x1 Hx1] [x2 Hx2].
  unfold validateCorrectable, correctable_admissible, validateFieldSet.
  rewrite Hx1, Hx2, !seq_Returns, !parsed_boolean_valid.
  assert ((if is_true (prop v "enabled") then
     throw_when (negb (is_array (prop v "correctableFieldSet"))) (InvalidRuntimePolicyError src
        "recordLifecycle.correctable.correctableFieldSet must be declared when correctable is enabled") ;;
     throw_when (bool_decide (length (arr_of (prop v "correctableFieldSet")) = 0)) (InvalidRuntimePolicyError src
        "recordLifecycle.correctable.correctableFieldSet must not be empty")
     else Returns ()) = Returns () ↔
     (prop v "enabled" = JBool true → arr_of (prop v "correctableFieldSet") ≠ [])) as ->.
  { destruct (prop v "enabled") as [| |[]| | | |]; simpl; try (split; [congruence|done]).
    rewrite seq_Returns, !throw_when_Returns, bool_decide_eq_false.
    destruct Hfs as [->|[-> ->]]; simpl; [|split; [intros [? ?]; done|intros H; by destruct H]].
    split; [intros [_ Hn] _ ->; done|]. intros Hn. split; [done|]. destruct fs; [by destruct Hn|done]. }
  destruct Hfs as [->|[-> ->]]; simpl.
  - rewrite for_each_Returns, Forall_forall. setoid_rewrite throw_when_Returns.
    setoid_rewrite negb_false_iff. tauto.
  - split; [intros (? & _); split; [done|by intros x ?%elem_of_nil]|tauto].
Qed.

Lemma parsed_correctable_valid src v :
  validateRecordLifecycleAction src Correctable (parseCorrectablePolicy v) = Returns () ↔
  correctable_admissible (parseCorrectablePolicy v).
Proof.
  unfold parseCorrectablePolicy. destruct (parseActionBlock v) as [b|] eqn:E; simpl.
  - apply parseActionBlock_Some in E as [-> [e He]]. rewrite He.
    rewrite action_tail with (e := e) by (done || apply parsed_window_valid).
    apply correctable_tail_valid with
      (fs := arr_of (parseStringArray (prop v "correctableFieldSet"))).
    + unfold prop at 1 3; simpl. unfold parseStringArray. destruct (prop v "correctableFieldSet"); eauto.
    + by eexists.
    + by eexists.
  - split; [|done]. intros _. split; [done|]. by intros x ?%elem_of_nil.
Qed.

Lemma lit_or_checked (l : list string) v :
  negb (is_undefined (lit_or l JUndef v)) && negb (is_one_of (lit_or l JUndef v) l) = false.
Proof. unfold lit_or. destruct (is_one_of v l) eqn:E; [|done]. by rewrite E, andb_false_r. Qed.

Lemma parsed_withdrawable_valid src v :
  validateRecordLifecycleAction src Withdrawable (parseWithdrawablePolicy v) = Returns () ↔
  withdrawable_admissible (parseWithdrawablePolicy v).
Proof.
  unfold parseWithdrawablePolicy. destruct (parseActionBlock v) as [b|] eqn:E; simpl.
  - apply parseActionBlock_Some in E as [-> [e He]]. rewrite He.
    rewrite action_tail with (e := e) by (done || apply parsed_window_valid).
    unfold validateWithdrawable, withdrawable_admissible. set (w := JObj _).
    change (prop w "requiresReason") with (parseBoolean (prop v "requiresReason")).
    change (prop w "requiresIssuerAcceptance") with (parseBoolean (prop v "requiresIssuerAcceptance")).
    change (prop w "preDeterminationKernelMode") with
      (lit_or ["applicant-withdrawn"] JUndef (prop v "preDeterminationKernelMode")).
    change (prop w "postDeterminationIntent") with
      (lit_or ["rescission-requested"] JUndef (prop v "postDeterminationIntent")).
    change (prop w "partyScope") with (lit_or ["any-party"; "all-parties-must-agree"] JUndef (prop v "partyScope")).
    rewrite !seq_Returns, !parsed_boolean_valid, !throw_when_Returns, !lit_or_checked.
    set (p := lit_or ["rescission-requested"] _ _). set (a := parseBoolean _).
    destruct (is_lit p "rescission-requested") eqn:Hp; simpl.
    + apply is_lit_spec in Hp. rewrite negb_false_iff. destruct a as [| |[]| | | |]; naive_solver.
    + split; [|done]. intros _ ->. done.
  - split; [|done]. intros _. done.
Qed.

Lemma parsed_disputable_valid src v :
  validateRecordLifecycleAction src Disputable (parseDisputablePolicy v) = Returns ().
Proof.
  unfold parseDisputablePolicy. destruct (parseActionBlock v) as [b|] eqn:E; simpl; [|done].
  apply parseActionBlock_Some in E as [-> [e He]]. rewrite He.
  rewrite action_tail with (e := e) by (done || apply parsed_window_valid).
  unfold validateDisputable. rewrite !seq_Returns. split; [|split]; apply parsed_boolean_valid.
Qed.

(** The shape of every extracted policy, and what it declares. *)
Lemma extracted_lifecycle_shape d :
  extractRecordLifecyclePolicy d = JUndef ∨
  ∃ v, extractRecordLifecyclePolicy d =
    JObj [("correctable", parseCorrectablePolicy (prop v "correctable"));
          ("withdrawable", parseWithdrawablePolicy (prop v "withdrawable"));
          ("disputable", parseDisputablePolicy (prop v "disputable"))].
Proof.
  assert (∀ v p, parseRecordLifecycleBlock v = Some p → p =
    JObj [("correctable", parseCorrectablePolicy (prop v "correctable"));
          ("withdrawable", parseWithdrawablePolicy (prop v "withdrawable"));
          ("disputable", parseDisputablePolicy (prop v "disputable"))]) as Hp.
  { intros v p. unfold parseRecordLifecycleBlock. destruct (negb _); [done|].
    destruct (recordLifecycleBlockEnablesAnyAction _); congruence. }
  unfold extractRecordLifecyclePolicy, js_opt.
  destruct (parseRecordLifecycleBlock (governance_lifecycle d)) as [p|] eqn:Eg.
  { right. eexists. by apply Hp. }
  destruct (parseRecordLifecycleBlock (extension_lifecycle d)) as [p|] eqn:Ee; [|by left].
  right. eexists. by apply Hp.
Qed.

Lemma validate_policy_object src c w p :
  validateRecordLifecyclePolicy src (JObj [("correctable", c); ("withdrawable", w); ("disputable", p)]) =
  (validateRecordLifecycleAction src Correctable c ;;
   validateRecordLifecycleAction src Withdrawable w ;; validateRecordLifecycleAction src Disputable p).
Proof. done. Qed.

(** An extracted record-lifecycle policy is accepted by the resolver
    exactly when an enabled correction names fields, every named field is a
    pointer, and a withdrawal bound to rescission requires acceptance: windows,
    flags and enumerations never make it fail. *)
Theorem extracted_lifecycle_accepted src d :
  validateRecordLifecyclePolicy src (extractRecordLifecyclePolicy d) = Returns () ↔
  correctable_admissible (prop (extractRecordLifecyclePolicy d) "correctable") ∧
  withdrawable_admissible (prop (extractRecordLifecyclePolicy d) "withdrawable").
Proof.
  destruct (extracted_lifecycle_shape d) as [->|[v ->]].
  - split; [|done]. intros _. split; [|done]. split; [done|]. by intros x ?%elem_of_nil.
  - rewrite validate_policy_object, !seq_Returns, parsed_correctable_valid, parsed_withdrawable_valid,
      parsed_disputable_valid. unfold prop at 2 4; simpl. tauto.
Qed.

(** An own property of the form's action wins the merge, [undefined] included. *)
Lemma merge_own orgA o k : has_own o k = true → prop (mergeActionPolicy orgA (JObj o)) k = obj_get o k.
Proof. intros H. rewrite merge_prop, orb_true_r. simpl. by rewrite H. Qed.

Lemma resolve_policy_actions org form r :
  resolveRecordLifecyclePolicy org form = Some r →
  let act k := mergeActionPolicy (opt_member org k) (opt_member form k) in
  (truthy (opt_member form "correctable") = true →
     correctable r = Some (resolve_correctable (act "correctable"))) ∧
  (truthy (opt_member form "withdrawable") = true →
     withdrawable r = Some (resolve_withdrawable (act "withdrawable"))) ∧
  (truthy (opt_member form "disputable") = true →
     disputable r = Some (resolve_disputable (act "disputable"))).
Proof.
  unfold resolveRecordLifecyclePolicy, mergeRecordLifecyclePolicy.
  destruct (negb (truthy org) && negb (truthy form)); [done|]. intros [= <-]. simpl.
  assert (∀ a b, truthy b = true → truthy (mergeActionPolicy a b) = true) as Ht.
  { intros a b Hb. unfold mergeActionPolicy. rewrite Hb, andb_false_r. done. }
  split; [|split]; intros H; by rewrite (Ht _ _ H).
Qed.

Ltac merged_is_own :=
  rewrite !merge_own by reflexivity; reflexivity.

Lemma parsed_correctable_wins orgA v :
  truthy (parseCorrectablePolicy v) = true →
  resolve_correctable (mergeActionPolicy orgA (parseCorrectablePolicy v)) =
  resolve_correctable (parseCorrectablePolicy v).
Proof.
  unfold parseCorrectablePolicy. destruct (parseActionBlock v); simpl; [|done]. intros _.
  unfold resolve_correctable, window_of. merged_is_own.
Qed.

Lemma parsed_withdrawable_wins orgA v :
  truthy (parseWithdrawablePolicy v) = true →
  resolve_withdrawable (mergeActionPolicy orgA (parseWithdrawablePolicy v)) =
  resolve_withdrawable (parseWithdrawablePolicy v).
Proof.
  unfold parseWithdrawablePolicy. destruct (parseActionBlock v); simpl; [|done]. intros _.
  unfold resolve_withdrawable, window_of. merged_is_own.
Qed.

Lemma parsed_disputable_wins orgA v :
  truthy (parseDisputablePolicy v) = true →
  resolve_disputable (mergeActionPolicy orgA (parseDisputablePolicy v)) =
  resolve_disputable (parseDisputablePolicy v).
Proof.
  unfold parseDisputablePolicy. destruct (parseActionBlock v); simpl; [|done]. intros _.
  unfold resolve_disputable, window_of. merged_is_own.
Qed.

(** An action that a form's definition declares replaces the org's action
    whole, even where the form says nothing: the extractor writes every property
    of the block, and the merge spreads its [undefined]s over the org's values.
    The resolved action is the form's alone, with the resolver's defaults. *)
Theorem extracted_lifecycle_replaces_org org d r :
  let form := extractRecordLifecyclePolicy d in
  resolveRecordLifecyclePolicy org form = Some r →
  (truthy (opt_member form "correctable") = true →
     correctable r = Some (resolve_correctable (opt_member form "correctable"))) ∧
  (truthy (opt_member form "withdrawable") = true →
     withdrawable r = Some (resolve_withdrawable (opt_member form "withdrawable"))) ∧
  (truthy (opt_member form "disputable") = true →
     disputable r = Some (resolve_disputable (opt_member form "disputable"))).
Proof.
  cbv zeta. intros (Hc & Hw & Hd)%resolve_policy_actions.
  destruct (extracted_lifecycle_shape d) as [E|[v E]]; rewrite E in *; [done|].
  change (opt_member (JObj _) "correctable") with (parseCorrectablePolicy (prop v "correctable")) in *.
  change (opt_member (JObj _) "withdrawable") with (parseWithdrawablePolicy (prop v "withdrawable")) in *.
  change (opt_member (JObj _) "disputable") with (parseDisputablePolicy (prop v "disputable")) in *.
  split; [|split]; intros Ht.
  - rewrite (Hc Ht). by rewrite parsed_correctable_wins.
  - rewrite (Hw Ht). by rewrite parsed_withdrawable_wins.
  - rewrite (Hd Ht). by rewrite parsed_disputable_wins.
Qed.

(** An org that demands evidence and has closed the correction window. *)
Definition strict_org : jsv :=
  JObj [("correctable",
         JObj [("enabled", JBool true); ("correctableFieldSet", JArr [JStr "/name"]);
               ("requiresEvidence", JBool true); ("window", JObj [("state", JStr "closed")])])].

Definition lenient_form : FormDefinition :=
  sample_definition
    [("x-formspec-record-lifecycle",
      JObj [("correctable", JObj [("enabled", JBool true); ("correctableFieldSet", JArr [JStr "/name"])])])] [].

Lemma extracted_lifecycle_replaces_org_witness :
  ∃ r c, resolveRecordLifecyclePolicy strict_org (extractRecordLifecyclePolicy lenient_form) = Some r ∧
    correctable r = Some c ∧ c_requiresEvidence c = false ∧ c_window c = None.
Proof.
  destruct (resolveRecordLifecyclePolicy strict_org (extractRecordLifecyclePolicy lenient_form)) as [r|] eqn:E;
    [|vm_compute in E; discriminate E].
  exists r, (resolve_correctable (opt_member (extractRecordLifecyclePolicy lenient_form) "correctable")).
  split; [reflexivity|]. split; [|split; vm_compute; reflexivity].
  apply (extracted_lifecycle_replaces_org strict_org lenient_form r E). vm_compute. reflexivity.
Defined.

(** ** Amounts *)

(** A payment amount is read exactly when the extension is an object with
    a non-negative integer of minor units and a non-empty currency. *)
Theorem payment_amount_iff d m :
  extractPaymentAmount d = Some m ↔
  ∃ o, extension d "x-formspec-payment-amount" = JObj o ∧
    obj_get o "amountMinorUnits" = JNum (NInt (amountMinorUnits m)) ∧ (0 ≤ amountMinorUnits m)%Z ∧
    obj_get o "currency" = JStr (currency m) ∧ currency m ≠ "".
Proof.
  unfold extractPaymentAmount. set (raw := extension d _). split.
  - destruct (negb (truthy raw) || negb (is_object raw)) eqn:E; [done|].
    destruct (as_integer (prop raw "amountMinorUnits")) as [n|] eqn:En; [|done].
    destruct (Z.ltb_spec n 0) as [|Hn]; [done|].
    destruct (prop raw "currency") as [| | | |c| |] eqn:Ec; try done.
    destruct (nonempty c) eqn:Hc; [|done]. intros [= <-]. apply nonempty_spec in Hc.
    destruct raw as [| | | | | |o]; try done. exists o. simpl. unfold prop in *; simpl in *.
    destruct (obj_get o "amountMinorUnits") as [| | |[]| | |]; simplify_eq/=. done.
  - intros (o & -> & Hn & H0 & Hc & Hne). simpl. unfold prop; simpl. rewrite Hn, Hc; simpl.
    destruct (Z.ltb_spec (amountMinorUnits m) 0); [lia|].
    apply nonempty_spec in Hne. rewrite Hne. by destruct m.
Qed.
