(* ===== verification/SafeAddress.v ===== *)
(** * Safe addresses: the check of a response

    [validateSafeAddressResponseData] and the renderings of
    src/src/app/safe-address.ts, over the directory port
    (src/src/ports/safe-address-directory.ts), and the in-memory directory of
    src/src/adapters/stub/safe-address-directory.ts.  The locale's lower case is
    a parameter. *)

From S2P Require Import Prelude JsValue Text JsMap FeatureKeys SafeAddressPolicy ExtractForm ExtractTheorems.
From Stdlib Require Import Ascii.

(** ** The port *)

Record SafeAddressJurisdiction : Set := {
  jurisdictionKey : string; label : string; accessClass : SafeAddressAccessClass
}.

Record SafeAddressValidationRequest : Set := {
  request_jurisdiction : string; candidate : string; request_class : option SafeAddressAccessClass
}.

Inductive RefusalReason : Set := UnknownJurisdiction | NotRecognized | UnsupportedClass.

Inductive SafeAddressValidationResult : Set :=
  | Valid (jurisdiction normalizedSubstitute : string)
  | Invalid (jurisdiction : string) (reason : RefusalReason) (message : string).

Class SafeAddressDirectory := {
  supportedJurisdictions : outcome string (list SafeAddressJurisdiction);
  validateSubstituteAddress : SafeAddressValidationRequest → outcome string SafeAddressValidationResult
}.

(** ** Reading a JSON pointer *)

(** [Number(segment)] where it is a non-negative integer, at its exact value. *)
Definition radix_digit (radix : Z) (a : ascii) : option Z :=
  let n := byte_of a in
  let d := (if (48 <=? n) && (n <=? 57) then n - 48
            else if (97 <=? n) && (n <=? 122) then n - 87
            else if (65 <=? n) && (n <=? 90) then n - 55 else radix)%Z in
  if (d <? radix)%Z then Some d else None.

Fixpoint radix_value (radix acc : Z) (s : string) : option Z :=
  match s with
  | EmptyString => Some acc
  | String a s' => d ← radix_digit radix a; radix_value radix (acc * radix + d)%Z s'
  end.

Definition radix_literal (radix : Z) (s : string) : option Z :=
  match s with EmptyString => None | _ => radix_value radix 0 s end.

(** The digits at the front: how many, their value read on from [acc], and the
    rest. *)
Fixpoint take_digits (acc : Z) (s : string) : nat * Z * string :=
  match s with
  | String a s' =>
      match digit_of a with
      | Some d => let '(n, v, r) := take_digits (acc * 10 + d)%Z s' in (S n, v, r)
      | None => (0, acc, s)
      end
  | EmptyString => (0, acc, "")
  end.

(** An exponent, to the end of the text. *)
Definition exponent (s : string) : option Z :=
  match s with
  | EmptyString => Some 0%Z
  | String a s' =>
      if Ascii.eqb a "e" || Ascii.eqb a "E" then
        match s' with
        | String "-" t => Z.opp <$> radix_literal 10 t
        | String "+" t => radix_literal 10 t
        | t => radix_literal 10 t
        end
      else None
  end.

(** mantissa * 10^scale, when integral. *)
Definition scaled (mantissa scale : Z) : option Z :=
  if (0 <=? scale)%Z then Some (mantissa * 10 ^ scale)%Z
  else if (mantissa mod 10 ^ (- scale) =? 0)%Z then Some (mantissa / 10 ^ (- scale))%Z else None.

Definition decimal_literal (s : string) : option Z :=
  let '(n, whole, r) := take_digits 0 s in
  let '(m, mantissa, r) := match r with String "." r' => take_digits whole r' | _ => (0, whole, r) end in
  if (n + m =? 0)%nat then None else e ← exponent r; scaled mantissa (e - Z.of_nat m).

Definition number_index (segment : string) : option nat :=
  match trim segment with
  | EmptyString => Some 0
  | String "0" (String "x" t) | String "0" (String "X" t) => Z.to_nat <$> radix_literal 16 t
  | String "0" (String "o" t) | String "0" (String "O" t) => Z.to_nat <$> radix_literal 8 t
  | String "0" (String "b" t) | String "0" (String "B" t) => Z.to_nat <$> radix_literal 2 t
  | String "-" t => v ← decimal_literal t; if (v =? 0)%Z then Some 0 else None
  | String "+" t => Z.to_nat <$> decimal_literal t
  | t => Z.to_nat <$> decimal_literal t
  end.

(** [s.replace(/~1/g, '/')] and [s.replace(/~0/g, '~')] *)
Fixpoint replace_tilde (digit by_ : ascii) (s : string) : string :=
  match s with
  | String a (String b s' as t) =>
      if Ascii.eqb a "~" && Ascii.eqb b digit then String by_ (replace_tilde digit by_ s')
      else String a (replace_tilde digit by_ t)
  | _ => s
  end.

Definition unescape_segment (s : string) : string := replace_tilde "0" "~" (replace_tilde "1" "/" s).

Definition drop_slash (s : string) : string := match s with String "/" s' => s' | _ => s end.

Definition pointer_segments (p : string) : list string :=
  unescape_segment <$> List.filter nonempty (split_on "/" (drop_slash p)).

Fixpoint walk (current : jsv) (segments : list string) : jsv :=
  match segments with
  | [] => current
  | segment :: segments' =>
      match current with
      | JArr l => match number_index segment with Some i => walk (default JUndef (l !! i)) segments' | None => JUndef end
      | JObj o => walk (obj_get o segment) segments'
      | _ => JUndef
      end
  end.

Definition valueAtJsonPointer (source : jsv) (p : string) : jsv := walk source (pointer_segments p).

(** ** The check *)

Definition safeAddressFieldLabel (field : SafeAddressFieldPolicy) : string :=
  js_to_string (nullish_or (field_label field) (JStr (field_path field))).

Definition default_refusal : string := "This substitute address is not recognized by an accepted protection program.".

Section check.
Context `{!SafeAddressDirectory}.

(** [None] when some accepted jurisdiction recognises the candidate, else the
    last refusal's message. *)
Fixpoint validateAgainstAcceptedJurisdictions (jurisdictions : list string) (value : string)
    (field : SafeAddressFieldPolicy) (lastMessage : string) : outcome string (option string) :=
  match jurisdictions with
  | [] => Returns (Some lastMessage)
  | j :: js =>
      result ← validateSubstituteAddress
        {| request_jurisdiction := j; candidate := value; request_class := Some (field_class field) |};
      match result with
      | Valid _ _ => Returns None
      | Invalid _ _ message => validateAgainstAcceptedJurisdictions js value field message
      end
  end.

Definition check_safe_field (config : SafeAddressRuntimeConfig) (data : jsv) (field : SafeAddressFieldPolicy)
    : outcome string unit :=
  match valueAtJsonPointer data (field_path field) with
  | JUndef | JNull | JStr "" => Returns ()
  | JStr value =>
      refusal ← validateAgainstAcceptedJurisdictions (acpJurisdictionsAccepted config) value field default_refusal;
      match refusal with
      | None => Returns ()
      | Some message => Throws (safeAddressFieldLabel field +:+ ": " +:+ message)
      end
  | _ => Throws (safeAddressFieldLabel field +:+ " must be a substitute address string.")
  end.

Definition validateSafeAddressResponseData (config : SafeAddressRuntimeConfig) (data : jsv) : outcome string unit :=
  for_each (check_safe_field config data) (fields config).
End check.

(** ** Renderings *)

Definition isSafeAccessClass (value : option string) : bool :=
  match value with Some v => starts_with "safe-" v | None => false end.

Definition renderSafeAddressProtectedText (text : string) (cls : option string) (withheldCopy : string) : string :=
  if isSafeAccessClass cls then withheldCopy else text.

Definition safeAddressVerifierLine (label : string) (proofPresent fallbackStructuralTell : bool) : string :=
  if proofPresent then label +:+ ": protected value withheld; commitment proof verified."
  else if fallbackStructuralTell
  then label +:+ ": protected value omitted; this receipt uses the structural-tell fallback."
  else label +:+ ": protected value withheld.".

(** ** The directory in memory *)

Class LowerCase := toLocaleLowerCase : string → string.

(** [s.trim().replace(/\s+/g, ' ')]: [started] once a character was emitted,
    [pending] when white space was passed since. *)
Fixpoint collapse_white (started pending : bool) (s : string) : string :=
  let emit := fun (a : ascii) (rest : string) =>
    if started && pending then String " " (String a rest) else String a rest in
  match s with
  | String a s1 =>
      if space_byte (byte_of a) then collapse_white started true s1 else
      match s1 with
      | String b s2 =>
          if (byte_of a =? 194)%Z && (byte_of b =? 160)%Z then collapse_white started true s2 else
          match s2 with
          | String c s3 =>
              if space_three (byte_of a) (byte_of b) (byte_of c) then collapse_white started true s3
              else emit a (collapse_white true false s1)
          | EmptyString => emit a (collapse_white true false s1)
          end
      | EmptyString => emit a EmptyString
      end
  | EmptyString => EmptyString
  end.

Record StubSafeAddressEntry : Set := { jurisdiction :> SafeAddressJurisdiction; substitutes : list string }.

Section stub.
Context `{!LowerCase}.

Definition normalize (value : string) : string := toLocaleLowerCase (collapse_white false false value).

Definition DEFAULT_ENTRIES : list StubSafeAddressEntry :=
  [{| jurisdiction := {| jurisdictionKey := "CA-ACP"; label := "California Safe at Home"; accessClass := SafeAddressClass |};
      substitutes := ["PO Box 846, Sacramento, CA 95812"] |};
   {| jurisdiction := {| jurisdictionKey := "WA-ACP"; label := "Washington Address Confidentiality Program";
                         accessClass := SafeAddressClass |};
      substitutes := ["PO Box 257, Olympia, WA 98507"] |};
   {| jurisdiction := {| jurisdictionKey := "USMS-WitSec"; label := "USMS Witness Security"; accessClass := SafeAddressClass |};
      substitutes := ["Protected federal substitute address"] |}].

Definition byJurisdiction (entries : list StubSafeAddressEntry) : list (string * StubSafeAddressEntry) :=
  foldl (λ m (e : StubSafeAddressEntry), map_set m (jurisdictionKey e) e) [] entries.

Definition stub_validate (entries : list StubSafeAddressEntry) (request : SafeAddressValidationRequest)
    : SafeAddressValidationResult :=
  let key := request_jurisdiction request in
  match map_get (byJurisdiction entries) key with
  | None => Invalid key UnknownJurisdiction "This protection program is not configured for this site."
  | Some entry =>
      if match request_class request with Some c => negb (bool_decide (c = accessClass entry)) | None => false end
      then Invalid key UnsupportedClass "This protection program does not validate that protected field class."
      else
        match List.find (λ s, String.eqb (normalize s) (normalize (candidate request))) (substitutes entry) with
        | None => Invalid key NotRecognized "This is not a recognized substitute address for the selected program."
        | Some match_ => Valid key match_
        end
  end.

Definition stubSafeAddressDirectory (entries : list StubSafeAddressEntry) : SafeAddressDirectory :=
  {| supportedJurisdictions := Returns (map jurisdiction entries);
     validateSubstituteAddress := λ request, Returns (stub_validate entries request) |}.
End stub.

(** ** Lemmas *)

(** A text that starts with a letter is no index. *)
Definition is_alpha (a : ascii) : bool :=
  let n := byte_of a in ((65 <=? n) && (n <=? 90) || (97 <=? n) && (n <=? 122))%Z.

Lemma alpha_byte a : is_alpha a = true → (65 ≤ byte_of a ≤ 90 ∨ 97 ≤ byte_of a ≤ 122)%Z.
Proof. unfold is_alpha. rewrite orb_true_iff, !andb_true_iff, !Z.leb_le. lia. Qed.

Lemma alpha_plain a : is_alpha a = true → space_byte (byte_of a) = false ∧ digit_of a = None.
Proof.
  intros Ha%alpha_byte. unfold space_byte, digit_of. split.
  - destruct (Z.leb_spec 9 (byte_of a)); simpl; [|apply Z.eqb_neq; lia].
    destruct (Z.leb_spec (byte_of a) 13); simpl; [lia|apply Z.eqb_neq; lia].
  - destruct (Z.leb_spec 48 (byte_of a)); simpl; [|done]. destruct (Z.leb_spec (byte_of a) 57); [lia|done].
Qed.

Lemma skip_white_alpha a s : is_alpha a = true → skip_white (String a s) = String a s.
Proof.
  intros Ha. destruct (alpha_plain a Ha) as [Hs _]. apply alpha_byte in Ha. simpl. rewrite Hs.
  destruct s as [|b s]; [done|]. assert ((byte_of a =? 194)%Z = false) as -> by (apply Z.eqb_neq; lia). simpl.
  destruct s as [|c s]; [done|]. unfold space_three.
  by repeat match goal with |- context [(byte_of a =? ?k)%Z] => replace (byte_of a =? k)%Z with false by (symmetry; apply Z.eqb_neq; lia) end.
Qed.

Lemma trim_end_alpha a s : is_alpha a = true → ∃ r, trim_end (String a s) = String a r.
Proof.
  intros Ha. destruct (alpha_plain a Ha) as [Hs _]. apply alpha_byte in Ha. simpl.
  assert (trim_empty (String a s) = false) as ->; [|by eexists].
  unfold trim_empty. simpl. unfold byte_of in Hs, Ha. rewrite Hs.
  destruct s as [|b s]; [done|]. simpl. rewrite (proj2 (Z.eqb_neq _ 194)) by lia. simpl.
  destruct s as [|c s]; [done|]. simpl. unfold space_three.
  by repeat match goal with |- context [(Z.of_nat (nat_of_ascii a) =? ?k)%Z] => replace (Z.of_nat (nat_of_ascii a) =? k)%Z with false by (symmetry; apply Z.eqb_neq; lia) end.
Qed.

Lemma number_index_alpha a s : is_alpha a = true → number_index (String a s) = None.
Proof.
  intros Ha. unfold number_index, trim. rewrite skip_white_alpha by done.
  destruct (trim_end_alpha a s Ha) as [r ->].
  assert (decimal_literal (String a r) = None) as Hd.
  { unfold decimal_literal. simpl. rewrite (proj2 (alpha_plain a Ha)).
    destruct a as [[] [] [] [] [] [] [] []]; try reflexivity; discriminate Ha. }
  destruct a as [[] [] [] [] [] [] [] []]; try (rewrite Hd; reflexivity); discriminate Ha.
Qed.

(** ** What the check accepts *)

Section exact.
Context `{!SafeAddressDirectory}.

(** The directory recognises the candidate for a jurisdiction, and refuses it
    without failing for those before. *)
Definition recognised (value : string) (field : SafeAddressFieldPolicy) (jurisdictions : list string) : Prop :=
  ∃ before j after k n, jurisdictions = before ++ j :: after ∧
    validateSubstituteAddress {| request_jurisdiction := j; candidate := value; request_class := Some (field_class field) |}
      = Returns (Valid k n) ∧
    Forall (λ j', ∃ k' reason message,
      validateSubstituteAddress {| request_jurisdiction := j'; candidate := value; request_class := Some (field_class field) |}
        = Returns (Invalid k' reason message)) before.

Lemma recognised_exact jurisdictions value field last :
  validateAgainstAcceptedJurisdictions jurisdictions value field last = Returns None ↔ recognised value field jurisdictions.
Proof.
  revert last; induction jurisdictions as [|j js IH]; intros last; simpl.
  { split; [done|]. intros (before & j & after & k & n & E & _). by destruct before. }
  destruct (validateSubstituteAddress _) as [result|e] eqn:Ev; simpl.
  2: { split; [done|]. intros (before & j' & after & k & n & E & Hv & Hb). destruct before as [|b before]; simplify_eq/=; [congruence|].
    apply Forall_cons in Hb as [(? & ? & ? & ?) _]. congruence. }
  destruct result as [k n|k reason message]; simpl.
  - split; [|done]. intros _. by exists [], j, js, k, n.
  - rewrite IH. split.
    + intros (before & j' & after & k' & n & -> & Hv & Hb). exists (j :: before), j', after, k', n.
      split; [done|]. split; [done|]. apply Forall_cons. split; [by exists k, reason, message|done].
    + intros (before & j' & after & k' & n & E & Hv & Hb). destruct before as [|b before]; simplify_eq/=; [congruence|].
      apply Forall_cons in Hb as [_ Hb]. by exists before, j', after, k', n.
Qed.

Definition blank (v : jsv) : Prop := v = JUndef ∨ v = JNull ∨ v = JStr "".

(** The check of a response passes exactly when every field of the policy
    is left blank in the data or holds a text that an accepted jurisdiction
    recognises, those asked before it refusing without a failure. *)
Theorem safe_address_response_exact (config : SafeAddressRuntimeConfig) (data : jsv) :
  validateSafeAddressResponseData config data = Returns () ↔
  Forall (λ field, let v := valueAtJsonPointer data (field_path field) in
    blank v ∨ ∃ s, v = JStr s ∧ recognised s field (acpJurisdictionsAccepted config)) (fields config).
Proof.
  unfold validateSafeAddressResponseData. rewrite for_each_Returns. apply Forall_iff. intros field. unfold check_safe_field, blank.
  destruct (valueAtJsonPointer data (field_path field)) as [| |b|n|s|l|o]; simpl; try tauto;
    try by split; [|intros [[?|[?|?]]|(? & ? & _)]].
  destruct s as [|a s]; [tauto|]. set (t := String a s).
  pose proof (recognised_exact (acpJurisdictionsAccepted config) t field default_refusal) as Hr.
  destruct (validateAgainstAcceptedJurisdictions _ t field default_refusal) as [[m|]|e]; simpl; split; try done.
  - intros [[?|[?|?]]|(? & [= <-] & Hx%Hr)]; done.
  - intros _. right. exists t. by rewrite <- Hr.
  - intros [[?|[?|?]]|(? & [= <-] & Hx%Hr)]; done.
Qed.
End exact.

(** ** The directory in memory *)

Section stub_exact.
Context `{!LowerCase} (entries : list StubSafeAddressEntry).

(** The entry of a jurisdiction is the last one given for it. *)
Lemma byJurisdiction_get j :
  map_get (byJurisdiction entries) j = list.last (List.filter (λ e : StubSafeAddressEntry, String.eqb (jurisdictionKey e) j) entries).
Proof.
  unfold byJurisdiction. induction entries as [|e l IH] using rev_ind; [done|].
  rewrite foldl_app, List.filter_app. simpl. rewrite map_get_set, IH.
  destruct (String.eqb_spec (jurisdictionKey e) j) as [->|Hn].
  - by rewrite decide_True, last_snoc.
  - by rewrite decide_False, app_nil_r.
Qed.

(** The directory in memory recognises a candidate exactly when the last
    entry given for the jurisdiction is of the requested class and lists a
    substitute that normalizes to the same text. *)
Theorem stub_directory_exact request :
  (∃ k n, stub_validate entries request = Valid k n) ↔
  ∃ entry : StubSafeAddressEntry,
    list.last (List.filter (λ e : StubSafeAddressEntry, String.eqb (jurisdictionKey e) (request_jurisdiction request)) entries) = Some entry ∧
    (∀ c, request_class request = Some c → c = accessClass entry) ∧
    ∃ s, s ∈ substitutes entry ∧ normalize s = normalize (candidate request).
Proof.
  unfold stub_validate. rewrite byJurisdiction_get. destruct (list.last _) as [entry|]; [|by split; [intros (? & ? & ?)|intros (? & ? & _)]].
  destruct (match request_class request with Some c => negb (bool_decide (c = accessClass entry)) | None => false end) eqn:Ec.
  - split; [by intros (? & ? & ?)|]. intros (? & [= <-] & Hc & _).
    destruct (request_class request) as [c|]; [|done]. by rewrite (Hc c), bool_decide_true in Ec.
  - assert (∀ c, request_class request = Some c → c = accessClass entry) as Hc.
    { intros c Ecl. rewrite Ecl in Ec. by apply negb_false_iff, bool_decide_eq_true in Ec. }
    destruct (List.find _ (substitutes entry)) as [s|] eqn:Ef.
    + apply find_some in Ef as [Hin Heq%String.eqb_eq]. split; [|by intros _; eexists _, _]. intros _.
      exists entry. split; [done|]. split; [done|]. exists s. by rewrite list_elem_of_In.
    + split; [by intros (? & ? & ?)|]. intros (? & [= <-] & _ & s & Hin & Heq).
      apply list_elem_of_In in Hin. apply (find_none _ _ Ef) in Hin. rewrite Heq, String.eqb_refl in Hin. done.
Qed.
End stub_exact.

(** * Repeating groups

    The walker of [ExtractForm] names the fields of a form by the keys of the
    groups passed, without indices; the check reads the response at those names.
    Where a group repeats, its data is an array. *)

(** The names of an item's path start with the key of an item walked. *)
Lemma reaches_shape anc items path i :
  reaches anc items path i → ∃ g more, g ∈ items ∧ path ++ [item_key i] = anc ++ item_key g :: more.
Proof.
  induction 1 as [anc items i Hi|anc items g c path i Hg _ _ _ (g' & more & _ & E)]; [by exists i, []|].
  exists g, (item_key g' :: more). split; [done|]. by rewrite E, <- app_assoc.
Qed.

Definition starts_alpha (s : string) : bool := match s with String a _ => is_alpha a | EmptyString => false end.
Definition plain_name (s : string) : bool := nonempty s && negb (has_char "/" s) && negb (has_char "~" s).

Lemma replace_tilde_plain d b s : has_char "~" s = false → replace_tilde d b s = s.
Proof.
  induction s as [|x s IH]; [done|]. simpl. intros [Hx Hs]%orb_false_iff. destruct s as [|y s]; [done|].
  rewrite Hx. simpl andb. cbv iota. by rewrite IH.
Qed.

Lemma replace_tilde_alpha d b a s : is_alpha a = true → ∃ r, replace_tilde d b (String a s) = String a r.
Proof.
  intros Ha. destruct s as [|y s]; [by eexists|]. simpl.
  destruct (Ascii.eqb_spec a "~") as [->|_]; [done|]. simpl. by eexists.
Qed.

Lemma unescape_alpha a s : is_alpha a = true → ∃ r, unescape_segment (String a s) = String a r.
Proof.
  intros Ha. unfold unescape_segment. destruct (replace_tilde_alpha "1" "/" a s Ha) as [r ->]. by apply replace_tilde_alpha.
Qed.

(** A name below an array is no index, so nothing is read there. *)
Lemma value_below_array data gk a rest rows :
  plain_name gk = true → is_alpha a = true → prop data gk = JArr rows →
  valueAtJsonPointer data ("/" +:+ gk +:+ "/" +:+ String a rest) = JUndef.
Proof.
  intros Hg Ha Hd. apply andb_true_iff in Hg as [[Hne Hs%negb_true_iff]%andb_true_iff Ht%negb_true_iff].
  unfold valueAtJsonPointer, pointer_segments. change (drop_slash ("/" +:+ gk +:+ "/" +:+ String a rest)) with (gk +:+ String "/" (String a rest)).
  assert (∃ x l, split_on "/" (String a rest) = String a x :: l) as (x & l & Ex).
  { simpl. destruct (Ascii.eqb_spec a "/") as [->|_]; [done|]. destruct (split_on "/" rest); by eexists _, _. }
  rewrite split_on_app, Ex by done. cbn [List.filter]. rewrite Hne.
  assert (nonempty (String a x) = true) as -> by done.
  cbn [fmap list_fmap]. unfold unescape_segment at 1. rewrite !(replace_tilde_plain _ _ gk) by done.
  destruct (unescape_alpha a x Ha) as [r ->]. destruct data as [| | | | | |o]; try done. simpl. unfold prop in Hd. simpl in Hd.
  rewrite Hd. by rewrite number_index_alpha.
Qed.

(** The safe addresses of a repeating group are never checked: for the
    fields the walker finds in a group, a response whose data has an array
    there passes whatever the array holds and whatever the directory says. *)
Theorem repeated_safe_address_unchecked `{!SafeAddressDirectory} (config : SafeAddressRuntimeConfig)
    (group : FormItem) (children : list FormItem) (data : jsv) (rows : list jsv) :
  item_children group = Some children → safeAccessClass group = None → plain_name (item_key group) = true →
  Forall (λ c, starts_alpha (item_key c) = true) children →
  Forall (λ f, ∃ e, e ∈ safeAddressFieldsFromItems (Some [group]) [] ∧ prop e "path" = JStr (field_path f)) (fields config) →
  prop data (item_key group) = JArr rows →
  validateSafeAddressResponseData config data = Returns ().
Proof.
  intros Hc Hcls Hg Hch Hf Hd. apply for_each_Returns. eapply Forall_impl; [exact Hf|]. clear Hf.
  intros f (e & He & Hp). apply safe_address_fields_of_items in He as (path & i & cls & Hr & Hi & ->).
  unfold check_safe_field. replace (valueAtJsonPointer data (field_path f)) with JUndef; [done|]. symmetry.
  apply reaches_cons in Hr as [[-> ->]|[(c & _ & Hc' & Hr)|[]%reaches_nil]]; [congruence|].
  rewrite Hc in Hc'. injection Hc' as <-. destruct (reaches_shape _ _ _ _ Hr) as (g & more & Hin & E).
  injection Hp as Hp. rewrite <- Hp. unfold pointer. rewrite E.
  apply (proj1 (Forall_forall _ _) Hch) in Hin. destruct (item_key g) as [|a k] eqn:Ek; [done|]. simpl in Hin.
  assert (∃ rest, String.concat "/" (([] ++ [item_key group]) ++ String a k :: more) = item_key group +:+ "/" +:+ String a rest) as [rest ->].
  { simpl. destruct more as [|m more]; by eexists. }
  by apply value_below_array with rows.
Qed.

Definition repeated_field : FormItem :=
  Item "field" (JStr "string") "street" (JStr "Street") JUndef (JObj [("class", JStr "safe-address")]) None.
Definition repeated_group : FormItem := Item "group" JUndef "addresses" JUndef JUndef JUndef (Some [repeated_field]).

Definition repeated_config : SafeAddressRuntimeConfig :=
  {| enabledClasses := [SafeAddressClass]; receiptPostureTier := VerifierGrade; substituteAddressDirectoryRef := "directory";
     acpJurisdictionsAccepted := ["CA-ACP"]; authorizedAudiences := [];
     fields := [{| field_path := "/addresses/street"; field_label := JStr "Street"; field_class := SafeAddressClass;
                   field_visibleTo := None; field_plaintext := None; field_effective := None |}];
     rendererHints := None |}.

#[local] Instance plain_case : LowerCase := λ s, s.

Lemma repeated_safe_address_unchecked_witness :
  let directory := stubSafeAddressDirectory DEFAULT_ENTRIES in
  let home := JObj [("street", JStr "12 Home Road")] in
  @validateSafeAddressResponseData directory repeated_config (JObj [("addresses", JArr [home])]) = Returns () ∧
  @validateSafeAddressResponseData directory repeated_config (JObj [("addresses", home)]) =
    Throws "Street: This is not a recognized substitute address for the selected program.".
Proof.
  intros directory home. split; [|vm_compute; reflexivity].
  apply (@repeated_safe_address_unchecked directory repeated_config repeated_group [repeated_field] _ [home]);
    [reflexivity|reflexivity|reflexivity| | |reflexivity].
  - apply Forall_cons. split; [reflexivity|apply Forall_nil_2].
  - apply Forall_cons. split; [|apply Forall_nil_2]. exists (safe_field ["addresses"] repeated_field SafeAddressClass).
    split; [vm_compute; left|reflexivity].
Defined.
