(* ===== verification/Composing.v ===== *)
(** * The form-policy extractor port and its composing adapters

    The [FormRuntimePolicyExtractor] port (src/src/ports/form-runtime-policy-extractor.ts)
    as an interface with its conformance laws, the reference adapters and the
    composite (src/src/adapters/composing/form-runtime-policy-extractor.ts). *)

From S2P Require Import Prelude JsValue FeatureKeys MultiPartyPolicy SafeAddressPolicy RecordLifecyclePolicy Resolver ResolverTheorems ExtractForm ExtractTheorems.

(** The port: one pure, synchronous operation. *)
Definition FormRuntimePolicyExtractor : Type := FormDefinition → FormRuntimePolicy.

Definition no_policy : FormRuntimePolicy :=
  {| form_features := []; form_limits := JUndef; form_recordLifecycle := JUndef |}.

(** [mode ? { features: { [key]: mode } } : { features: {} }] *)
Definition policy_of_mode (key : RuntimeFeatureKey) (mode : option FormFeaturePolicyMode) : FormRuntimePolicy :=
  match mode with Some m => feature_policy key m JUndef | None => no_policy end.

(** ** The adapters *)

Definition EmptyFormRuntimePolicyExtractor : FormRuntimePolicyExtractor := λ _, no_policy.

Definition AttachmentRequirementExtractor : FormRuntimePolicyExtractor :=
  λ definition, policy_of_mode FileUpload (extractAttachmentRequirement definition).

Definition OfflineSubmitRequirementExtractor : FormRuntimePolicyExtractor :=
  λ definition, policy_of_mode OfflineSubmit (extractOfflineSubmitOptIn definition).

Definition PaymentRequirementExtractor : FormRuntimePolicyExtractor :=
  λ definition, policy_of_mode Payment (extractPaymentRequirement definition).

Definition EmbeddableExtractor : FormRuntimePolicyExtractor :=
  λ definition, policy_of_mode Embed (extractEmbeddableOptIn definition).

Definition RecordLifecycleExtractor : FormRuntimePolicyExtractor := λ definition,
  match extractRecordLifecycleOptIn definition with
  | Some mode =>
      {| form_features := [(key_string RecordLifecycle, JStr (lit_string mode))];
         form_limits := JUndef; form_recordLifecycle := extractRecordLifecyclePolicy definition |}
  | None => no_policy
  end.

Definition MultiPartyPolicyExtractor : FormRuntimePolicyExtractor :=
  λ definition, default no_policy (extractMultiPartyPolicy definition).

Definition SafeAddressPolicyExtractor : FormRuntimePolicyExtractor :=
  λ definition, default no_policy (extractSafeAddressPolicy definition).

(** The three accumulators of the composite. *)
Definition merge_policy (acc : jsobj * jsobj * jsobj) (policy : FormRuntimePolicy) : jsobj * jsobj * jsobj :=
  let '(features, limits, lifecycle) := acc in
  (obj_spread features (form_features policy),
   obj_spread limits (props_of (form_limits policy)),
   obj_spread lifecycle (props_of (form_recordLifecycle policy))).

(** [Object.keys(o).length > 0 ? o : undefined] *)
Definition object_if_any (o : jsobj) : jsv :=
  if 0 <? length (obj_keys o) then JObj o else JUndef.

Definition CompositeFormRuntimePolicyExtractor (extractors : list FormRuntimePolicyExtractor)
    : FormRuntimePolicyExtractor := λ definition,
  let '(features, limits, lifecycle) :=
    foldl (λ acc extractor, merge_policy acc (extractor definition)) ([], [], []) extractors in
  {| form_features := features; form_limits := object_if_any limits;
     form_recordLifecycle := object_if_any lifecycle |}.

(** The composite both reference compositions wire (src/src/composition/default.ts
    and stub.ts; the stub puts its demo extractor first). *)
Definition referenceExtractors : list FormRuntimePolicyExtractor :=
  [AttachmentRequirementExtractor; OfflineSubmitRequirementExtractor; PaymentRequirementExtractor;
   EmbeddableExtractor; MultiPartyPolicyExtractor; RecordLifecycleExtractor; SafeAddressPolicyExtractor].

(** ** The conformance laws of the port *)

Definition empty_definition : FormDefinition :=
  {| def_items := Some []; def_extensions := JUndef; def_governance := JUndef; def_parties := JUndef |}.

Class Conforms (extractor : FormRuntimePolicyExtractor) : Prop := {
  (** closed-set keys and closed-set modes *)
  conforms_closed d k v : own_get (form_features (extractor d)) k = Some v →
    (∃ key, k = key_string key) ∧ (∃ m : FormFeaturePolicyMode, v = JStr (lit_string m));
  (** no demand on an empty definition *)
  conforms_empty : form_features (extractor empty_definition) = []
}.

Lemma policy_of_mode_closed key mode k v :
  own_get (form_features (policy_of_mode key mode)) k = Some v →
  (∃ key, k = key_string key) ∧ (∃ m : FormFeaturePolicyMode, v = JStr (lit_string m)).
Proof.
  destruct mode as [m|]; cbn [policy_of_mode feature_policy form_features own_get]; [|done].
  destruct (String.eqb k _) eqn:E; [|done]. split_andb. intros [= <-]. eauto.
Qed.

#[export] Instance Empty_conforms : Conforms EmptyFormRuntimePolicyExtractor.
Proof. by split. Qed.
#[export] Instance Attachment_conforms : Conforms AttachmentRequirementExtractor.
Proof. split; [intros d; apply policy_of_mode_closed|done]. Qed.
#[export] Instance OfflineSubmit_conforms : Conforms OfflineSubmitRequirementExtractor.
Proof. split; [intros d; apply policy_of_mode_closed|done]. Qed.
#[export] Instance Payment_conforms : Conforms PaymentRequirementExtractor.
Proof. split; [intros d; apply policy_of_mode_closed|done]. Qed.
#[export] Instance Embeddable_conforms : Conforms EmbeddableExtractor.
Proof. split; [intros d; apply policy_of_mode_closed|done]. Qed.

#[export] Instance RecordLifecycle_conforms : Conforms RecordLifecycleExtractor.
Proof.
  split; [|done]. intros d k v. unfold RecordLifecycleExtractor.
  destruct (extractRecordLifecycleOptIn d) as [m|]; [|done].
  apply (policy_of_mode_closed RecordLifecycle (Some m)).
Qed.

#[export] Instance MultiParty_conforms : Conforms MultiPartyPolicyExtractor.
Proof.
  split; [|done]. intros d k v. unfold MultiPartyPolicyExtractor, extractMultiPartyPolicy.
  destruct (parseMultiPartyBlock _) as [p|]; [|done].
  apply (policy_of_mode_closed MultiParty (Some FormRequired)).
Qed.

#[export] Instance SafeAddress_conforms : Conforms SafeAddressPolicyExtractor.
Proof.
  split; [|done]. intros d k v. unfold SafeAddressPolicyExtractor, extractSafeAddressPolicy.
  destruct (match extension d "x-formspec-safe-address" with JBool false => _ | _ => _ end);
    [apply (policy_of_mode_closed SafeAddress (Some FormForbidden))|].
  destruct (_ && _); [done|].
  match goal with |- context [feature_policy SafeAddress ?m _] =>
    apply (policy_of_mode_closed SafeAddress (Some m)) end.
Qed.

(** ** The composite merges, the last extractor winning *)

Definition last_some {A} (l : list (option A)) : option A :=
  foldl (λ acc x, match x with Some a => Some a | None => acc end) None l.

Lemma last_some_app {A} (l : list (option A)) x :
  last_some (l ++ [x]) = match x with Some a => Some a | None => last_some l end.
Proof. unfold last_some. by rewrite foldl_app. Qed.

Definition merged (extractors : list FormRuntimePolicyExtractor) (d : FormDefinition) : jsobj * jsobj * jsobj :=
  foldl (λ acc extractor, merge_policy acc (extractor d)) ([], [], []) extractors.

Lemma merged_app l e d : merged (l ++ [e]) d = merge_policy (merged l d) (e d).
Proof. unfold merged. by rewrite foldl_app. Qed.

Lemma merged_spec l d k :
  own_get (merged l d).1.1 k = last_some ((λ e, own_get (form_features (e d)) k) <$> l) ∧
  own_get (merged l d).1.2 k = last_some ((λ e, own_get (props_of (form_limits (e d))) k) <$> l) ∧
  own_get (merged l d).2 k = last_some ((λ e, own_get (props_of (form_recordLifecycle (e d))) k) <$> l).
Proof.
  induction l as [|e l (IH1 & IH2 & IH3)] using rev_ind; [done|].
  rewrite merged_app, !fmap_app. cbn [fmap list_fmap]. rewrite !last_some_app.
  destruct (merged l d) as [[f m] r]. simpl in *.
  rewrite !own_get_spread, IH1, IH2, IH3. done.
Qed.

Lemma props_object_if_any o : props_of (object_if_any o) = o.
Proof. by destruct o. Qed.

Lemma composite_parts l d :
  form_features (CompositeFormRuntimePolicyExtractor l d) = (merged l d).1.1 ∧
  props_of (form_limits (CompositeFormRuntimePolicyExtractor l d)) = (merged l d).1.2 ∧
  props_of (form_recordLifecycle (CompositeFormRuntimePolicyExtractor l d)) = (merged l d).2.
Proof.
  unfold CompositeFormRuntimePolicyExtractor. fold (merged l d). destruct (merged l d) as [[f m] r].
  simpl. by rewrite !props_object_if_any.
Qed.

Lemma composite_spec l d k :
  let p := CompositeFormRuntimePolicyExtractor l d in
  own_get (form_features p) k = last_some ((λ e, own_get (form_features (e d)) k) <$> l) ∧
  own_get (props_of (form_limits p)) k = last_some ((λ e, own_get (props_of (form_limits (e d))) k) <$> l) ∧
  own_get (props_of (form_recordLifecycle p)) k =
    last_some ((λ e, own_get (props_of (form_recordLifecycle (e d))) k) <$> l).
Proof. cbv zeta. destruct (composite_parts l d) as (-> & -> & ->). apply merged_spec. Qed.

Lemma last_some_in {A} (l : list (option A)) a : last_some l = Some a → Some a ∈ l.
Proof.
  induction l as [|x l IH] using rev_ind; [done|]. rewrite last_some_app, elem_of_app, list_elem_of_singleton.
  destruct x; intros H; [right; congruence|left; by apply IH].
Qed.

Lemma last_some_fmap_app {A B} (f : A → option B) l1 l2 :
  last_some (f <$> l1 ++ l2) =
    match last_some (f <$> l2) with Some b => Some b | None => last_some (f <$> l1) end.
Proof.
  induction l2 as [|x l2 IH] using rev_ind; simpl.
  - by rewrite app_nil_r.
  - rewrite app_assoc, !fmap_app. cbn [fmap list_fmap]. rewrite !last_some_app, <- fmap_app, IH.
    by destruct (f x).
Qed.

#[export] Instance Composite_conforms l : Forall Conforms l → Conforms (CompositeFormRuntimePolicyExtractor l).
Proof.
  intros Hl. split.
  - intros d k v. destruct (composite_spec l d k) as (-> & _). intros Hk%last_some_in.
    apply list_elem_of_fmap in Hk as (e & He & Hin). rewrite Forall_forall in Hl. pose proof (Hl e Hin).
    symmetry in He. by eapply conforms_closed.
  - destruct (composite_parts l empty_definition) as (-> & _).
    induction l as [|e l IH] using rev_ind; [done|].
    apply Forall_app in Hl as [Hl He]. rewrite Forall_singleton in He.
    rewrite merged_app. unfold merge_policy. specialize (IH Hl).
    destruct (merged l empty_definition) as [[f m] r]. simpl in *. subst. by rewrite conforms_empty.
Qed.

Lemma reference_conform : Forall Conforms referenceExtractors.
Proof. unfold referenceExtractors. repeat (apply Forall_cons_2; [exact _|]). apply Forall_nil_2. Qed.

(** The form policy of the reference composition. *)
Definition referenceFormPolicy (d : FormDefinition) : FormRuntimePolicy :=
  CompositeFormRuntimePolicyExtractor referenceExtractors d.

(** The mode an extracted policy states for a key. *)
Definition form_mode_stated (k : RuntimeFeatureKey) (pol : option FormRuntimePolicy) : option FormFeaturePolicyMode :=
  pol' ← pol; read_lit (obj_get (form_features pol') (key_string k)).

(** The mode each walker asks for, key by key. *)
Definition walker_mode (d : FormDefinition) (k : RuntimeFeatureKey) : option FormFeaturePolicyMode :=
  match k with
  | FileUpload => extractAttachmentRequirement d
  | OfflineSubmit => extractOfflineSubmitOptIn d
  | Payment => extractPaymentRequirement d
  | Embed => extractEmbeddableOptIn d
  | RecordLifecycle => extractRecordLifecycleOptIn d
  | MultiParty => form_mode_stated MultiParty (extractMultiPartyPolicy d)
  | SafeAddress => form_mode_stated SafeAddress (extractSafeAddressPolicy d)
  | _ => None
  end.

(** ** Theorems *)

(** A composite of conforming extractors conforms, and for every feature
    key, limit and lifecycle action its value is the one of the last extractor
    that states it; nesting composites changes nothing. *)
Theorem composite_last_wins l d :
  Forall Conforms l →
  Conforms (CompositeFormRuntimePolicyExtractor l) ∧
  (∀ k, own_get (form_features (CompositeFormRuntimePolicyExtractor l d)) k =
        last_some ((λ e, own_get (form_features (e d)) k) <$> l)) ∧
  (∀ l1 l2 k, l = l1 ++ l2 →
     own_get (form_features (CompositeFormRuntimePolicyExtractor
       [CompositeFormRuntimePolicyExtractor l1; CompositeFormRuntimePolicyExtractor l2] d)) k =
     own_get (form_features (CompositeFormRuntimePolicyExtractor l d)) k).
Proof.
  intros Hl. split; [by apply Composite_conforms|]. split.
  - intros k. by destruct (composite_spec l d k) as (-> & _).
  - intros l1 l2 k ->. destruct (composite_spec (l1 ++ l2) d k) as (-> & _).
    destruct (composite_spec [CompositeFormRuntimePolicyExtractor l1; CompositeFormRuntimePolicyExtractor l2] d k)
      as (-> & _).
    rewrite last_some_fmap_app. cbn [fmap list_fmap].
    destruct (composite_spec l1 d k) as (-> & _), (composite_spec l2 d k) as (-> & _).
    by destruct (last_some ((λ e, own_get (form_features (e d)) k) <$> l1)),
      (last_some ((λ e, own_get (form_features (e d)) k) <$> l2)).
Qed.

Lemma composite_last_wins_witness :
  own_get (form_features (CompositeFormRuntimePolicyExtractor
    [EmptyFormRuntimePolicyExtractor; PaymentRequirementExtractor] empty_definition)) "payment" =
  last_some ((λ e, own_get (form_features (e empty_definition)) "payment") <$>
    [EmptyFormRuntimePolicyExtractor; PaymentRequirementExtractor]).
Proof.
  refine (proj1 (proj2 (composite_last_wins _ empty_definition _)) "payment").
  apply Forall_cons_2; [exact _|]. apply Forall_cons_2; [exact _|]. apply Forall_nil_2.
Defined.

Lemma own_get_policy_of_mode key mode k :
  own_get (form_features (policy_of_mode key mode)) k =
    if String.eqb k (key_string key) then (λ m, JStr (lit_string m)) <$> mode else None.
Proof. destruct mode as [m|]; cbn [policy_of_mode feature_policy form_features own_get]; by destruct (String.eqb _ _). Qed.

(** The reference extractors one by one, as the features they state. *)
Lemma reference_features d k :
  (λ e : FormRuntimePolicyExtractor, own_get (form_features (e d)) (key_string k)) <$> referenceExtractors =
  (λ key, if decide (k = key) then (λ m, JStr (lit_string m)) <$> walker_mode d key else None) <$>
    [FileUpload; OfflineSubmit; Payment; Embed; MultiParty; RecordLifecycle; SafeAddress].
Proof.
  assert (∀ key, String.eqb (key_string k) (key_string key) = bool_decide (k = key)) as Hk.
  { intros key. destruct (String.eqb _ _) eqn:E; split_andb.
    - rewrite bool_decide_true; [done|by apply (inj key_string)].
    - rewrite bool_decide_false; [done|congruence]. }
  assert (∀ key (x : option jsv), (if bool_decide (k = key) then x else None) = if decide (k = key) then x else None) as Hd.
  { intros key x. by case_bool_decide; case_decide. }
  unfold referenceExtractors. cbn [fmap list_fmap].
  unfold AttachmentRequirementExtractor, OfflineSubmitRequirementExtractor, PaymentRequirementExtractor,
    EmbeddableExtractor. rewrite !own_get_policy_of_mode, !Hk, !Hd.
  assert (own_get (form_features (MultiPartyPolicyExtractor d)) (key_string k) =
    if decide (k = MultiParty) then (λ m, JStr (lit_string m)) <$> walker_mode d MultiParty else None) as ->.
  { unfold MultiPartyPolicyExtractor, walker_mode, extractMultiPartyPolicy, form_mode_stated.
    destruct (parseMultiPartyBlock _); simpl; rewrite <- Hd, <- Hk; by destruct (String.eqb _ _). }
  assert (own_get (form_features (RecordLifecycleExtractor d)) (key_string k) =
    if decide (k = RecordLifecycle) then (λ m, JStr (lit_string m)) <$> walker_mode d RecordLifecycle else None) as ->.
  { unfold RecordLifecycleExtractor, walker_mode.
    destruct (extractRecordLifecycleOptIn d) as [m|]; simpl; rewrite <- Hd, <- Hk; by destruct (String.eqb _ _). }
  assert (own_get (form_features (SafeAddressPolicyExtractor d)) (key_string k) =
    if decide (k = SafeAddress) then (λ m, JStr (lit_string m)) <$> walker_mode d SafeAddress else None) as ->.
  { unfold SafeAddressPolicyExtractor, walker_mode.
    assert (∀ pol, extractSafeAddressPolicy d = Some pol → ∃ m lim, pol = feature_policy SafeAddress m lim) as Hs.
    { unfold extractSafeAddressPolicy. intros pol.
      destruct (match extension d _ with JBool false => _ | _ => _ end); [intros [= <-]; eauto|].
      destruct (_ && _); [done|]. intros [= <-]; eauto. }
    destruct (extractSafeAddressPolicy d) as [pol|]; rewrite <- Hd, <- Hk.
    - destruct (Hs pol eq_refl) as (m & lim & ->). unfold form_mode_stated, feature_policy; simpl.
      change (obj_get _ "safeAddress") with (JStr (lit_string m)). rewrite read_lit_string. simpl.
      by destruct (String.eqb _ _).
    - simpl. by destruct (String.eqb _ _). }
  done.
Qed.

Lemma reference_policy_mode d k :
  obj_get (form_features (referenceFormPolicy d)) (key_string k) =
  from_option (λ m, JStr (lit_string m)) JUndef (walker_mode d k).
Proof.
  unfold referenceFormPolicy, obj_get. destruct (composite_spec referenceExtractors d (key_string k)) as (-> & _).
  rewrite reference_features. cbn [fmap list_fmap].
  unfold last_some. cbn [foldl].
  destruct (walker_mode d k) as [m|] eqn:Hm;
    destruct k; rewrite ?decide_True, ?decide_False by done; rewrite ?Hm; try done;
    simpl; by destruct (walker_mode d _).
Qed.

(** The reference form policy states, for every key, exactly the mode its
    own walker asks for: no walker disturbs another, and keys without a walker
    are never stated. *)
Theorem reference_policy_modes d k :
  obj_get (form_features (referenceFormPolicy d)) (key_string k) =
  from_option (λ m, JStr (lit_string m)) JUndef (walker_mode d k).
Proof. apply reference_policy_mode. Qed.

(** Fail closed: on the reference composition, a form whose definition
    needs a capability (an attachment field, a required payment, a multi-party
    or safe-address block) never resolves to a profile on an instance that
    cannot serve it. *)
Theorem required_walker_fails_closed `{!UrlParser} input d k :
  in_form input = referenceFormPolicy d →
  walker_mode d k = Some FormRequired →
  ¬ key_satisfiable input k →
  ∃ e, resolveRuntimeFeatures input = Throws e.
Proof.
  intros Hf Hw Hs. destruct (resolveRuntimeFeatures input) as [p|e] eqn:E; [|by exists e]. exfalso.
  apply resolve_resolution in E as Hres.
  destruct (res_decided _ _ Hres k) as [v Hv].
  assert (∃ e, verdict input k = Throws e) as [e He]; [|congruence].
  apply verdict_throws_iff. split; [right|by right].
  unfold form_mode_of, decision_input; simpl. rewrite Hf, reference_policy_mode, Hw.
  apply (read_lit_string FormRequired).
Qed.

Definition sample_fee_form : FormDefinition :=
  sample_definition [("x-formspec-payment-required", JBool true)] [].

Definition sample_fee_input : ResolveRuntimeFeaturesInput :=
  {| in_mode := Production;
     in_instance := obj_set (in_instance sample_status) "payment" (JStr "demo-stub");
     in_org := {| org_features := []; org_recordLifecycle := JUndef; org_limits := JUndef |};
     in_form := referenceFormPolicy sample_fee_form |}.

Lemma required_walker_fails_closed_witness :
  ∃ e, @resolveRuntimeFeatures no_urls sample_fee_input = Throws e.
Proof.
  apply (@required_walker_fails_closed no_urls sample_fee_input sample_fee_form Payment).
  - reflexivity.
  - reflexivity.
  - intros [H|[_ H]]; vm_compute in H; discriminate H.
Defined.
