(* ===== verification/Coherence.v ===== *)
(** * Composition coherence

    Adapter provenance markers (src/src/policy/sentinel.ts), the feature-to-port
    map (src/src/policy/feature-port-map.ts), the boot-time coherence assertion
    (src/src/policy/composition-coherence.ts) and the two reference compositions
    that declare nothing but what a route needs (src/src/composition/unavailable.ts,
    route-narrowing.ts). *)

From S2P Require Import Prelude JsValue FeatureKeys.

(** ** Markers *)

Record AdapterProvenanceMeta : Set := { meta_featureKey : RuntimeFeatureKey; meta_reason : string }.

(** What a composition slot may hold, as far as the markers are concerned: an
    adapter object is the metadata its two symbol properties carry. *)
Inductive slot : Set :=
  | Unwired
  | NotAnObject
  | Adapter (unavailable demoStub : option AdapterProvenanceMeta).

Inductive MarkError : Set := AlreadyMarked.

Definition assertNotAlreadyMarked (adapter : slot) : outcome MarkError unit :=
  match adapter with
  | Adapter None None => Returns ()
  | Adapter _ _ => Throws AlreadyMarked
  | _ => Returns ()
  end.

Definition markUnavailableAdapter (adapter : slot) (meta : AdapterProvenanceMeta) : outcome MarkError slot :=
  assertNotAlreadyMarked adapter ;;
  Returns (match adapter with Adapter _ d => Adapter (Some meta) d | s => s end).

Definition markDemoStubAdapter (adapter : slot) (meta : AdapterProvenanceMeta) : outcome MarkError slot :=
  assertNotAlreadyMarked adapter ;;
  Returns (match adapter with Adapter u _ => Adapter u (Some meta) | s => s end).

Definition isUnavailableAdapter (value : slot) : bool :=
  match value with Adapter (Some _) _ => true | _ => false end.

Definition isDemoStubAdapter (value : slot) : bool :=
  match value with Adapter _ (Some _) => true | _ => false end.

(** ** The feature-to-port map *)

Inductive CompositionPortName : Set :=
  | respondentPlaceSource | statusReader | attachmentStore | respondentHistorySource
  | offlineSubmitQueue | paymentRailAdapter | embedTransport | screenerDocumentSource
  | safeAddressDirectory | draftStore | identityProvider | submitTransport
  | lifecycleActionClient.

#[export] Instance CompositionPortName_eq_dec : EqDecision CompositionPortName.
Proof. solve_decision. Defined.

Definition port_string (p : CompositionPortName) : string :=
  match p with
  | respondentPlaceSource => "respondentPlaceSource"
  | statusReader => "statusReader"
  | attachmentStore => "attachmentStore"
  | respondentHistorySource => "respondentHistorySource"
  | offlineSubmitQueue => "offlineSubmitQueue"
  | paymentRailAdapter => "paymentRailAdapter"
  | embedTransport => "embedTransport"
  | screenerDocumentSource => "screenerDocumentSource"
  | safeAddressDirectory => "safeAddressDirectory"
  | draftStore => "draftStore"
  | identityProvider => "identityProvider"
  | submitTransport => "submitTransport"
  | lifecycleActionClient => "lifecycleActionClient"
  end.

(** [FEATURE_PORT_MAP] read by [featurePortNames]: a single name is a
    one-element list. *)
Definition featurePortNames (featureKey : RuntimeFeatureKey) : list CompositionPortName :=
  match featureKey with
  | RespondentPlace => [respondentPlaceSource]
  | Status => [statusReader]
  | DocumentPresentation => [respondentPlaceSource]
  | FileUpload => [attachmentStore]
  | CrossIssuerHistory => [respondentHistorySource]
  | OfflineSubmit => [offlineSubmitQueue]
  | Payment => [paymentRailAdapter]
  | Embed => [embedTransport]
  | Screener => [screenerDocumentSource]
  | PreparerFiling => []
  | TrustedReviewer => []
  | BringYourOwnAssistant => []
  | SafeAddress => [safeAddressDirectory]
  | DuressAware => []
  | MultiParty => [draftStore; identityProvider; submitTransport]
  | RecordLifecycle => [lifecycleActionClient]
  end.

(** ** The assertion *)

Record CompositionLike : Set := {
  comp_mode : Mode;
  instanceCapabilities : RuntimeFeatureKey → CapabilityAvailability;
  comp_port : CompositionPortName → slot
}.

Inductive CompositionIncoherenceKind : Set :=
  | SentinelWithoutUnavailableDeclaration
  | UnavailableDeclarationWithoutSentinel
  | DemoStubAdapterInProductionComposition
  | DemoStubAdapterWithoutDemoStubDeclaration
  | DemoStubDeclarationWithoutDemoStubAdapter
  | AvailableDeclarationPairedWithMarkedAdapter
  | SharedSlotDeclarationConflict
  | FeatureWithoutPortBinding.

#[export] Instance CompositionIncoherenceKind_eq_dec : EqDecision CompositionIncoherenceKind.
Proof. solve_decision. Defined.

Record CompositionIncoherenceError : Set := {
  inc_featureKey : RuntimeFeatureKey;
  inc_kind : CompositionIncoherenceKind;
  inc_message : string
}.

(** The [portToKeys] map: for each key in order, append it to the keys of each
    of its ports. *)
Definition portToKeys : CompositionPortName → list RuntimeFeatureKey :=
  foldl (λ m featureKey,
    foldl (λ m portName p, if decide (p = portName) then m p ++ [featureKey] else m p) m
      (featurePortNames featureKey))
    (λ _, []) RUNTIME_FEATURE_KEYS.

#[global] Arguments portToKeys : simpl never.

Section assertion.
Context (composition : CompositionLike).
Let caps := instanceCapabilities composition.

Definition quoted (s : string) : string := dq +:+ s +:+ dq.

Definition sharedSlotMessage (slotKeys : list RuntimeFeatureKey) (slotIsShared : bool)
    (portName : CompositionPortName) (baseMessage : string) : string :=
  if negb slotIsShared then baseMessage
  else
    let declarations :=
      String.concat ", " ((λ k, key_string k +:+ "=" +:+ lit_string (caps k)) <$> slotKeys) in
    String.concat " "
      [baseMessage;
       "Port " +:+ quoted (port_string portName) +:+ " is shared between ["
         +:+ String.concat ", " (key_string <$> slotKeys) +:+ "]; their declarations [" +:+ declarations
         +:+ "] together require a different adapter marker than the one wired.";
       "If you are an adopter with a real wallet but no Verifiable Presentation stack, this is the SC-4 transitional-clearance trigger — see thoughts/specs/2026-05-22-upstream-extension-queue.md SC-4."].

Definition incoherent (k : RuntimeFeatureKey) (kind : CompositionIncoherenceKind) (m : string)
    : CompositionIncoherenceError :=
  {| inc_featureKey := k; inc_kind := kind; inc_message := m |}.

(** The loop body over the ports of one key. *)
Definition check_port (featureKey : RuntimeFeatureKey) (portName : CompositionPortName)
    : outcome CompositionIncoherenceError unit :=
  let declared := caps featureKey in
  let adapter := comp_port composition portName in
  let declares := "instanceCapabilities declares " +:+ quoted (key_string featureKey) +:+ " " in
  let wired := "Adapter for " +:+ quoted (key_string featureKey) +:+ " (port "
                 +:+ quoted (port_string portName) +:+ ") is marked " in
  let at_port := "wired adapter at port " +:+ quoted (port_string portName) in
  throw_when (match adapter with Unwired => true | _ => false end)
    (incoherent featureKey FeatureWithoutPortBinding
       (declares +:+ lit_string declared +:+ ", but the backing port " +:+ quoted (port_string portName)
          +:+ " is not wired.")) ;;
  let adapterIsUnavailable := isUnavailableAdapter adapter in
  let adapterIsDemoStub := isDemoStubAdapter adapter in
  let slotKeys := portToKeys portName in
  let slotIsShared := 1 <? length slotKeys in
  let slotHasNonUnavailableKey := existsb (λ k, negb (bool_decide (caps k = Unavailable))) slotKeys in
  let shared := sharedSlotMessage slotKeys slotIsShared portName in
  if slotIsShared && bool_decide (declared = Unavailable) && slotHasNonUnavailableKey then Returns () else
  throw_when (adapterIsUnavailable && negb (bool_decide (declared = Unavailable)))
    (incoherent featureKey SentinelWithoutUnavailableDeclaration
       (wired +:+ "unavailable, but instanceCapabilities declared " +:+ quoted (lit_string declared)
          +:+ ". The composition must declare " +:+ quoted "unavailable" +:+ ".")) ;;
  throw_when (bool_decide (declared = Unavailable) && negb adapterIsUnavailable)
    (incoherent featureKey UnavailableDeclarationWithoutSentinel
       (declares +:+ "unavailable, but the " +:+ at_port
          +:+ " carries no UNAVAILABLE_ADAPTER sentinel. Wire an unavailable* adapter or change the declaration.")) ;;
  throw_when (adapterIsDemoStub && bool_decide (comp_mode composition = Production))
    (incoherent featureKey DemoStubAdapterInProductionComposition
       (wired +:+ "demo-stub, but the composition is in production mode. Demo stubs MUST NOT back production capabilities (ADR-0011 §Instance capabilities).")) ;;
  throw_when (adapterIsDemoStub && negb (bool_decide (declared = DemoStub)))
    (incoherent featureKey DemoStubAdapterWithoutDemoStubDeclaration
       (shared (wired +:+ "demo-stub, but instanceCapabilities declared " +:+ quoted (lit_string declared)
          +:+ ". The composition must declare " +:+ quoted "demo-stub" +:+ "."))) ;;
  throw_when (bool_decide (declared = DemoStub) && negb adapterIsDemoStub)
    (incoherent featureKey DemoStubDeclarationWithoutDemoStubAdapter
       (shared (declares +:+ "demo-stub, but the " +:+ at_port
          +:+ " carries no DEMO_STUB_ADAPTER marker. Wire a stub* adapter or change the declaration."))) ;;
  throw_when (bool_decide (declared = Available) && (adapterIsUnavailable || adapterIsDemoStub))
    (incoherent featureKey
       (if slotIsShared then SharedSlotDeclarationConflict else AvailableDeclarationPairedWithMarkedAdapter)
       (shared (declares +:+ "available, but the " +:+ at_port +:+ " carries a provenance marker ("
          +:+ (if adapterIsUnavailable then "unavailable" else "demo-stub")
          +:+ "). Wire a real production adapter or change the declaration."))).

(** The loop body over the keys. *)
Definition check_key (featureKey : RuntimeFeatureKey) : outcome CompositionIncoherenceError unit :=
  let declared := caps featureKey in
  let portNames := featurePortNames featureKey in
  if bool_decide (featureKey = MultiParty) && bool_decide (declared = Unavailable) then Returns ()
  else if bool_decide (length portNames = 0) then
    throw_when (negb (bool_decide (declared = Unavailable)))
      (incoherent featureKey FeatureWithoutPortBinding
         ("instanceCapabilities declares " +:+ quoted (key_string featureKey) +:+ " " +:+ lit_string declared
            +:+ ", but FEATURE_PORT_MAP has no backing port binding yet. Keep the capability "
            +:+ quoted "unavailable"
            +:+ " until the feature build lands a concrete adapter-backed port contract."))
  else for_each (check_port featureKey) portNames.

Definition assertCompositionCoherence : outcome CompositionIncoherenceError unit :=
  for_each check_key RUNTIME_FEATURE_KEYS.

(** The same composition, asserted: the construction funnel. *)
Definition freezeComposition : outcome CompositionIncoherenceError CompositionLike :=
  assertCompositionCoherence ;; Returns composition.
End assertion.

(** ** What the assertion means (ADR-0011, instance capabilities) *)

Section coherence_spec.
Context (c : CompositionLike).

(** Another key keeps the port's slot live. *)
Definition sibling_live (p : CompositionPortName) : Prop :=
  1 < length (portToKeys p) ∧ ∃ k, k ∈ portToKeys p ∧ instanceCapabilities c k ≠ Unavailable.

(** What a key's declaration demands of one of its ports. *)
Definition port_honest (k : RuntimeFeatureKey) (p : CompositionPortName) : Prop :=
  comp_port c p ≠ Unwired ∧
  match instanceCapabilities c k with
  | Unavailable => sibling_live p ∨
      (isUnavailableAdapter (comp_port c p) = true ∧ isDemoStubAdapter (comp_port c p) = false)
  | DemoStub => isUnavailableAdapter (comp_port c p) = false ∧ isDemoStubAdapter (comp_port c p) = true ∧
      comp_mode c = Demo
  | Available => isUnavailableAdapter (comp_port c p) = false ∧ isDemoStubAdapter (comp_port c p) = false
  end.

Definition key_honest (k : RuntimeFeatureKey) : Prop :=
  match featurePortNames k with
  | [] => instanceCapabilities c k = Unavailable
  | ports => (k = MultiParty ∧ instanceCapabilities c k = Unavailable) ∨ Forall (port_honest k) ports
  end.

Lemma sibling_live_spec p :
  (1 <? length (portToKeys p)) &&
    existsb (λ k, negb (bool_decide (instanceCapabilities c k = Unavailable))) (portToKeys p) = true
  ↔ sibling_live p.
Proof.
  unfold sibling_live. rewrite andb_true_iff, Nat.ltb_lt, existsb_Exists.
  setoid_rewrite negb_true_iff. setoid_rewrite bool_decide_eq_false. done.
Qed.

Lemma check_port_spec k p : check_port c k p = Returns () ↔ port_honest k p.
Proof.
  unfold check_port, port_honest. cbv zeta. rewrite seq_Returns, throw_when_Returns.
  pose proof (sibling_live_spec p) as Hlive.
  set (a := 1 <? length (portToKeys p)) in *. set (b := existsb _ (portToKeys p)) in *.
  destruct (comp_port c p) as [| |u d] eqn:Ep; simpl;
    destruct (instanceCapabilities c k) eqn:Ec; simpl;
    rewrite ?andb_false_r, ?andb_true_r; simpl;
    destruct (a && b) eqn:Eab; (try destruct u as [u|]); (try destruct d as [d|]); simpl;
    destruct (comp_mode c) eqn:Em; simpl; rewrite ?Eab in *; naive_solver congruence.
Qed.

Lemma check_key_spec k : check_key c k = Returns () ↔ key_honest k.
Proof.
  unfold check_key, key_honest. cbv zeta.
  destruct (bool_decide (k = MultiParty) && bool_decide (instanceCapabilities c k = Unavailable)) eqn:E.
  - split_andb. subst. simpl. tauto.
  - destruct (featurePortNames k) as [|p ps] eqn:Hp; simpl.
    + rewrite throw_when_Returns, negb_false_iff, bool_decide_eq_true. done.
    + change (check_port c k p ≫= λ _, for_each (check_port c k) ps) with (for_each (check_port c k) (p :: ps)).
      rewrite for_each_Returns. setoid_rewrite check_port_spec. split; [by right|].
      intros [[-> Hu]|?]; [|done]. rewrite Hu in E. done.
Qed.

Lemma assert_spec : assertCompositionCoherence c = Returns () ↔ ∀ k, key_honest k.
Proof.
  unfold assertCompositionCoherence. rewrite for_each_Returns, Forall_forall.
  setoid_rewrite check_key_spec. split; [|auto]. intros H k. apply H, RUNTIME_FEATURE_KEYS_complete.
Qed.
End coherence_spec.

(** ** The reference compositions that start from nothing *)

(** An adapter object with no marker, and one the unavailable factories return:
    the factories mark a fresh object, which never fails
    ([unavailable_adapter_marked]). *)
Definition plain_adapter : slot := Adapter None None.
Definition unavailable_adapter (k : RuntimeFeatureKey) (message : string) : slot :=
  Adapter (Some {| meta_featureKey := k; meta_reason := message |}) None.

Lemma unavailable_adapter_marked k message :
  markUnavailableAdapter plain_adapter {| meta_featureKey := k; meta_reason := message |} =
  Returns (unavailable_adapter k message).
Proof. done. Qed.

Definition unavailableRespondentPlaceSource : slot :=
  unavailable_adapter RespondentPlace "Respondent place adapter is not configured for this deployment.".
Definition unavailableStatusReader : slot :=
  unavailable_adapter Status "Applicant status adapter is not configured for this deployment.".
Definition unavailableAttachmentStore : slot :=
  unavailable_adapter FileUpload "File upload adapter is not configured for this deployment.".
Definition unavailableRespondentHistorySource : slot :=
  unavailable_adapter CrossIssuerHistory "Respondent history adapter is not configured for this deployment.".
Definition unavailableOfflineSubmitQueue : slot :=
  unavailable_adapter OfflineSubmit "Offline submit queue adapter is not configured for this deployment.".
Definition unavailablePaymentRailAdapter : slot :=
  unavailable_adapter Payment "Payment rail adapter is not configured for this deployment.".
Definition unavailableEmbedTransport : slot :=
  unavailable_adapter Embed "Embed transport adapter is not configured for this deployment.".
Definition unavailableScreenerDocumentSource : slot :=
  unavailable_adapter Screener "Screener catalog adapter is not configured for this deployment.".
Definition unavailableSafeAddressDirectory : slot :=
  unavailable_adapter SafeAddress "Safe address directory is not configured for this deployment.".
Definition unavailableLifecycleActionClient : slot :=
  unavailable_adapter RecordLifecycle "Lifecycle action client is not configured for this deployment.".

(** The port slots of [createUnavailableComposition]: the always present form
    ports carry no marker. *)
Definition unavailable_ports (p : CompositionPortName) : slot :=
  match p with
  | respondentPlaceSource => unavailableRespondentPlaceSource
  | statusReader => unavailableStatusReader
  | attachmentStore => unavailableAttachmentStore
  | respondentHistorySource => unavailableRespondentHistorySource
  | offlineSubmitQueue => unavailableOfflineSubmitQueue
  | paymentRailAdapter => unavailablePaymentRailAdapter
  | embedTransport => unavailableEmbedTransport
  | screenerDocumentSource => unavailableScreenerDocumentSource
  | safeAddressDirectory => unavailableSafeAddressDirectory
  | lifecycleActionClient => unavailableLifecycleActionClient
  | draftStore | identityProvider | submitTransport => plain_adapter
  end.

Definition createUnavailableComposition : outcome CompositionIncoherenceError CompositionLike :=
  freezeComposition
    {| comp_mode := Production; instanceCapabilities := λ _, Unavailable; comp_port := unavailable_ports |}.

Record RouteNarrowing : Type := {
  routeCite : string;
  initialDefinitionUrlSentinel : string;
  consumes : gset RuntimeFeatureKey;
  identityBound : bool
}.

Record IdentityBinding : Set := {
  binding_provider : slot;
  has_accessToken : bool;
  has_browserAuthSession : bool
}.

(** The members of the configuration the factory reads. *)
Record NarrowedConfig : Set := {
  formspecServerUrl : option string;
  identity_mode_oidc_required : bool;
  identity_oidc : bool
}.

Inductive NarrowingError : Set :=
  | ServerUrlRequired
  | StatusReaderRequiresSession
  | Incoherent (e : CompositionIncoherenceError).

Definition narrowed_capabilities (reader : option slot) (k : RuntimeFeatureKey) : CapabilityAvailability :=
  match k with
  | Status => match reader with Some _ => Available | None => Unavailable end
  | _ => Unavailable
  end.

(** [real] builds the identity adapters of MED-4's branch. *)
Definition narrowed_identity (route : RouteNarrowing) (reader : option slot)
    (binding : option IdentityBinding) (real : slot) : slot :=
  match reader, binding with
  | Some _, Some b => binding_provider b
  | _, _ =>
      if identityBound route && bool_decide (narrowed_capabilities reader RespondentPlace = Available)
      then real else plain_adapter
  end.

Definition narrowed_composition (route : RouteNarrowing) (reader : option slot)
    (binding : option IdentityBinding) (real : slot) : CompositionLike :=
  {| comp_mode := Production;
     instanceCapabilities := narrowed_capabilities reader;
     comp_port := λ p,
       match p with
       | statusReader => default unavailableStatusReader reader
       | identityProvider => narrowed_identity route reader binding real
       | _ => unavailable_ports p
       end |}.

Definition buildProductionNarrowedComposition (route : RouteNarrowing) (reader : option slot)
    (binding : option IdentityBinding) (real : slot) : outcome CompositionIncoherenceError CompositionLike :=
  freezeComposition (narrowed_composition route reader binding real).

Definition with_incoherent {A} (m : outcome CompositionIncoherenceError A) : outcome NarrowingError A :=
  match m with Returns a => Returns a | Throws e => Throws (Incoherent e) end.

(** The session the status reader demands. *)
Definition status_session_selected (config : NarrowedConfig) (route : RouteNarrowing)
    (binding : option IdentityBinding) : bool :=
  bool_decide (Status ∈ consumes route) && identityBound route
  && identity_mode_oidc_required config && identity_oidc config
  && match binding with Some b => has_browserAuthSession b && has_accessToken b | None => false end.

Definition createRouteNarrowedComposition (config : NarrowedConfig) (route : RouteNarrowing)
    (reader : option slot) (binding : option IdentityBinding) (real : slot)
    : outcome NarrowingError CompositionLike :=
  throw_when (match formspecServerUrl config with Some u => negb (nonempty u) | None => true end)
    ServerUrlRequired ;;
  throw_when
    (match reader with Some _ => negb (status_session_selected config route binding) | None => false end)
    StatusReaderRequiresSession ;;
  with_incoherent (buildProductionNarrowedComposition route reader binding real).

(** A status reader the composition may declare available. *)
Definition unmarked (s : slot) : Prop :=
  s ≠ Unwired ∧ isUnavailableAdapter s = false ∧ isDemoStubAdapter s = false.

Lemma narrowed_honest route reader binding real :
  (∀ k, key_honest (narrowed_composition route reader binding real) k) ↔
  ∀ s, reader = Some s → unmarked s.
Proof.
  unfold unmarked. split.
  - intros H s ->. specialize (H Status). unfold key_honest in H; simpl in H.
    destruct H as [[? _]|H]; [done|]. apply Forall_cons in H as [[? [? ?]] _]. done.
  - intros H k. unfold key_honest. destruct k; simpl; try done; try (by left);
      right; (apply Forall_cons_2; [|apply Forall_nil_2]); unfold port_honest; simpl;
      try (split; [done|by right]).
    destruct reader as [s|]; [by apply H|split; [done|by right]].
Qed.

Lemma freezeComposition_spec c c' :
  freezeComposition c = Returns c' ↔ (∀ k, key_honest c k) ∧ c' = c.
Proof. unfold freezeComposition. rewrite seq_Returns, assert_spec. naive_solver. Qed.
