(* ===== verification/CoherenceTheorems.v ===== *)
(** * Theorems of composition coherence

    What the boot-time assertion accepts, which incoherence kinds it can report,
    and what a coherent composition guarantees of the features a profile
    enables. *)

From S2P Require Import Prelude JsValue FeatureKeys MultiPartyPolicy SafeAddressPolicy RecordLifecyclePolicy Resolver ResolverTheorems Coherence.

(** C10.  The coherence assertion accepts a composition exactly when every key's
    declaration is honest: a key with no port is unavailable; an available key's
    ports are wired and unmarked; a demo-stub key's ports carry only the
    demo-stub marker, in a demo composition; an unavailable key's ports carry
    only the unavailable marker, unless a sibling keeps a shared slot live or
    the key is multi-party. *)
Theorem coherence_exact c :
  assertCompositionCoherence c = Returns () ↔
  ∀ k, match featurePortNames k with
       | [] => instanceCapabilities c k = Unavailable
       | ports => (k = MultiParty ∧ instanceCapabilities c k = Unavailable) ∨
           Forall (λ p, comp_port c p ≠ Unwired ∧
             match instanceCapabilities c k with
             | Unavailable => sibling_live c p ∨
                 (isUnavailableAdapter (comp_port c p) = true ∧ isDemoStubAdapter (comp_port c p) = false)
             | DemoStub => isUnavailableAdapter (comp_port c p) = false ∧
                 isDemoStubAdapter (comp_port c p) = true ∧ comp_mode c = Demo
             | Available => isUnavailableAdapter (comp_port c p) = false ∧
                 isDemoStubAdapter (comp_port c p) = false
             end) ports
       end.
Proof. apply assert_spec. Qed.

Lemma check_port_kind c k p e :
  check_port c k p = Throws e →
  inc_kind e ≠ AvailableDeclarationPairedWithMarkedAdapter ∧ inc_kind e ≠ SharedSlotDeclarationConflict.
Proof.
  unfold check_port. cbv zeta.
  destruct (comp_port c p) as [| |u d]; simpl; try (intros [= <-]; done);
    destruct (instanceCapabilities c k) eqn:Ec; simpl; rewrite ?andb_false_r, ?andb_true_r; simpl;
    try match goal with |- context [existsb ?f ?l] => destruct (existsb f l) end;
    destruct (1 <? length (portToKeys p)); simpl; try done;
    (try destruct u as [u|]); (try destruct d as [d|]); simpl; try (intros [= <-]; done); try done;
    destruct (comp_mode c); simpl; try (intros [= <-]; done); done.
Qed.

(** Two of the eight documented incoherence kinds are never reported:
    whatever a marked adapter is declared, an earlier check of the same port
    fires first. *)
Theorem coherence_unreachable_kinds c e :
  assertCompositionCoherence c = Throws e →
  inc_kind e ≠ AvailableDeclarationPairedWithMarkedAdapter ∧ inc_kind e ≠ SharedSlotDeclarationConflict.
Proof.
  unfold assertCompositionCoherence. intros (l1 & k & l2 & _ & _ & Hk)%for_each_Throws.
  unfold check_key in Hk. cbv zeta in Hk.
  destruct (_ && _); [done|]. destruct (bool_decide (length _ = 0)).
  - apply throw_when_Throws in Hk as [_ ->]. done.
  - apply for_each_Throws in Hk as (p1 & p & p2 & _ & _ & Hp). by eapply check_port_kind.
Qed.

(** A wallet adapter marked as a demo stub, declared a demo stub for one of the
    two keys of its slot and available for the other. *)
Definition conflicting_composition : CompositionLike :=
  {| comp_mode := Demo;
     instanceCapabilities := λ k,
       match k with RespondentPlace => DemoStub | DocumentPresentation => Available | _ => Unavailable end;
     comp_port := λ p,
       match p with
       | respondentPlaceSource =>
           Adapter None (Some {| meta_featureKey := RespondentPlace; meta_reason := "demo" |})
       | _ => unavailable_ports p
       end |}.

Lemma coherence_unreachable_kinds_witness :
  ∃ e, assertCompositionCoherence conflicting_composition = Throws e ∧ inc_featureKey e = DocumentPresentation ∧
    inc_kind e ≠ SharedSlotDeclarationConflict.
Proof.
  destruct (assertCompositionCoherence conflicting_composition) as [u|e] eqn:E; [vm_compute in E; discriminate E|].
  exists e. split; [reflexivity|]. split; [vm_compute in E; injection E as <-; reflexivity|].
  exact (proj2 (coherence_unreachable_kinds conflicting_composition e E)).
Defined.

(** The instance layer a composition hands to the resolver. *)
Definition instance_of (c : CompositionLike) : jsobj :=
  (λ k, (key_string k, JStr (lit_string (instanceCapabilities c k)))) <$> RUNTIME_FEATURE_KEYS.

Lemma instance_of_get c k : obj_get (instance_of c) (key_string k) = JStr (lit_string (instanceCapabilities c k)).
Proof. by destruct k. Qed.

(** C14.  Boot-time honesty reaches the respondent: when a frozen composition's
    capabilities are resolved in its own mode, every enabled feature is backed
    by at least one port, each of its ports is wired and not marked
    unavailable, and in a production composition none is a demo stub. *)
Theorem enabled_feature_is_backed `{!UrlParser} c c' input p k :
  freezeComposition c = Returns c' →
  in_mode input = comp_mode c' → in_instance input = instance_of c' →
  resolveRuntimeFeatures input = Returns p → k ∈ p_enabled p →
  featurePortNames k ≠ [] ∧
  ∀ port, port ∈ featurePortNames k →
    comp_port c' port ≠ Unwired ∧ isUnavailableAdapter (comp_port c' port) = false ∧
    (comp_mode c' = Production → isDemoStubAdapter (comp_port c' port) = false).
Proof.
  intros [Hh ->]%freezeComposition_spec Hm Hi Hres%resolve_resolution Hk.
  apply (res_enabled _ _ Hres), verdict_enabled_iff in Hk as [Hs _].
  assert (capability_of input k = instanceCapabilities c k) as Hc.
  { unfold capability_of, decision_input; simpl. rewrite Hi, instance_of_get. by rewrite read_lit_string. }
  unfold key_satisfiable, satisfiable in Hs. rewrite Hc, Hm in Hs. specialize (Hh k). unfold key_honest in Hh.
  destruct (featurePortNames k) as [|p0 ps] eqn:Hp; [destruct Hs as [?|[? _]]; congruence|]. split; [done|].
  destruct Hh as [[_ Hu]|Hall]; [destruct Hs as [?|[? _]]; congruence|].
  intros port Hport. rewrite Forall_forall in Hall. destruct (Hall port Hport) as [Hw Hd].
  destruct Hs as [Ha|[Ha Hdemo]]; rewrite Ha in Hd.
  - destruct Hd as [? ?]. done.
  - destruct Hd as (? & ? & _). split; [done|]. split; [done|]. congruence.
Qed.

Definition status_composition : CompositionLike :=
  narrowed_composition
    {| routeCite := "/status"; initialDefinitionUrlSentinel := "status"; consumes := {[Status]}; identityBound := true |}
    (Some plain_adapter) None plain_adapter.

Definition status_composition_input : ResolveRuntimeFeaturesInput :=
  {| in_mode := Production; in_instance := instance_of status_composition;
     in_org := in_org sample_status;
     in_form := {| form_features := []; form_limits := JUndef; form_recordLifecycle := JUndef |} |}.

Lemma enabled_feature_is_backed_witness :
  ∃ p, @resolveRuntimeFeatures no_urls status_composition_input = Returns p ∧ Status ∈ p_enabled p ∧
    isDemoStubAdapter (comp_port status_composition statusReader) = false.
Proof.
  destruct (returned_with_Returns (enables Status) (@resolveRuntimeFeatures no_urls status_composition_input))
    as (p & Hp & Hin); [vm_compute; reflexivity|].
  exists p. split; [exact Hp|]. split; [exact (enables_in _ _ Hin)|].
  assert (freezeComposition status_composition = Returns status_composition) as Hf by (vm_compute; reflexivity).
  pose proof (@enabled_feature_is_backed no_urls _ _ status_composition_input p Status Hf eq_refl eq_refl Hp
                (enables_in _ _ Hin)) as [_ H].
  exact (proj2 (proj2 (H statusReader (list_elem_of_here _ _))) eq_refl).
Defined.

(** What the factory of narrowed compositions builds, and when it does. *)
Lemma narrowed_Returns config route reader binding real c :
  createRouteNarrowedComposition config route reader binding real = Returns c ↔
  (∃ url, formspecServerUrl config = Some url ∧ url ≠ "") ∧
  (∀ s, reader = Some s → unmarked s ∧ status_session_selected config route binding = true) ∧
  c = narrowed_composition route reader binding real.
Proof.
  unfold createRouteNarrowedComposition, buildProductionNarrowedComposition. rewrite !seq_Returns, !throw_when_Returns.
  assert (with_incoherent (freezeComposition (narrowed_composition route reader binding real)) = Returns c ↔
    (∀ s, reader = Some s → unmarked s) ∧ c = narrowed_composition route reader binding real) as ->.
  { rewrite <- (narrowed_honest route reader binding real), <- freezeComposition_spec. unfold with_incoherent.
    destruct (freezeComposition _) as [c'|e]; split; by intros [= <-]. }
  assert (match formspecServerUrl config with Some u => negb (nonempty u) | None => true end = false ↔
    ∃ url, formspecServerUrl config = Some url ∧ url ≠ "") as ->.
  { destruct (formspecServerUrl config) as [u|]; [rewrite negb_false_iff, nonempty_spec; naive_solver|naive_solver]. }
  destruct reader as [s|]; [rewrite negb_false_iff|]; naive_solver.
Qed.

(** A narrowed route's composition is built exactly when a server URL is
    configured and the status reader, if one is supplied, is an unmarked adapter
    for a route that consumes status and is identity-bound under an OIDC
    session; it then serves at most the status feature. *)
Theorem narrowed_composition_exact config route reader binding real :
  (∃ c, createRouteNarrowedComposition config route reader binding real = Returns c ∧
        (∀ k, instanceCapabilities c k ≠ Unavailable → k = Status ∧ is_Some reader) ∧
        comp_mode c = Production) ↔
  (∃ url, formspecServerUrl config = Some url ∧ url ≠ "") ∧
  (∀ s, reader = Some s → unmarked s ∧ status_session_selected config route binding = true).
Proof.
  setoid_rewrite narrowed_Returns. split; [by intros (c & (? & ? & _) & _)|]. intros [? ?].
  exists (narrowed_composition route reader binding real). split; [done|]. split; [|done].
  intros k Hk. destruct k; simpl in Hk; try done. destruct reader; [by eauto|done].
Qed.

(** The fully unavailable composition always boots, and enables nothing:
    every key a policy requests is disabled and every key it requires is
    refused. *)
Theorem unavailable_composition_serves_nothing `{!UrlParser} :
  ∃ c, createUnavailableComposition = Returns c ∧
    ∀ input p, in_instance input = instance_of c → resolveRuntimeFeatures input = Returns p →
      p_enabled p = ∅.
Proof.
  eexists. split.
  - apply freezeComposition_spec. split; [|reflexivity]. intros k. unfold key_honest.
    destruct k; simpl; try done; try (by left);
      right; (apply Forall_cons_2; [|apply Forall_nil_2]); unfold port_honest; simpl; (split; [done|by right]).
  - intros input p Hi Hres%resolve_resolution. apply set_eq. intros k. split; [|by intros ?%elem_of_empty].
    intros [Hs _]%(res_enabled _ _ Hres)%verdict_enabled_iff. exfalso.
    assert (capability_of input k = Unavailable) as Hc.
    { unfold capability_of, decision_input; simpl. rewrite Hi. by destruct k. }
    unfold key_satisfiable, satisfiable in Hs. rewrite Hc in Hs. naive_solver.
Qed.
