(* ===== verification/IdempotencyKey.v ===== *)
(** * Idempotency keys

    UUIDv7 operation keys (src/src/shared/idempotency-key.ts).  The uuid package
    and the browser's digest are parameters.  A string is its sequence of UTF-8
    bytes, so that [TextEncoder] is the identity. *)

From S2P Require Import Prelude.
From Stdlib Require Import Ascii.

(** The npm package [uuid]: [validate] and [version]. *)
Class UuidPackage := {
  validateUuid : string → bool;
  uuidVersion : string → Z
}.

(** [crypto.subtle.digest('SHA-256', bytes)], as the bytes of the digest. *)
Class Digest := sha256 : string → list Z.

Definition isUuidV7IdempotencyKey `{!UuidPackage} (value : string) : bool :=
  validateUuid value && (uuidVersion value =? 7)%Z.

Definition assertUuidV7IdempotencyKey `{!UuidPackage} (value : string) : outcome string unit :=
  throw_when (negb (isUuidV7IdempotencyKey value)) "Expected idempotency-key to be a UUIDv7 value".

(** ** Hexadecimal text *)

(** [d.toString(16)] for a digit. *)
Definition hex_digit (d : Z) : ascii :=
  ascii_of_nat (Z.to_nat (if (d <? 10)%Z then 48 + d else 87 + d)%Z).

#[global] Arguments hex_digit : simpl never.

(** [b.toString(16).padStart(2, '0')] for a byte. *)
Definition hex_byte (b : Z) : string := String (hex_digit (b / 16)) (String (hex_digit (b mod 16)) "").

(** [Array.from(bytes, ...).join('')] *)
Definition hex (bytes : list Z) : string := String.concat "" (hex_byte <$> bytes).

(** [s.slice(i, j)] for [0 <= i <= j]. *)
Definition slice (i j : nat) (s : string) : string := String.substring i (j - i) s.

Inductive RailCall : Set := AuthorizeCall | CaptureCall | VoidCall.

Definition rail_suffix (c : RailCall) : string :=
  match c with AuthorizeCall => "authorize" | CaptureCall => "capture" | VoidCall => "void" end.

(** The 16 bytes with the version and variant bits set. *)
Definition uuid_bytes (digest : list Z) : list Z :=
  let uuid := take 16 digest in
  let uuid := <[6%nat := Z.lor (Z.land (default 0%Z (uuid !! 6)) 0x0f) 0x70]> uuid in
  <[8%nat := Z.lor (Z.land (default 0%Z (uuid !! 8)) 0x3f) 0x80]> uuid.

Definition uuid_text (uuid : list Z) : string :=
  let h := hex uuid in
  slice 0 8 h +:+ "-" +:+ slice 8 12 h +:+ "-" +:+ slice 12 16 h +:+ "-" +:+ slice 16 20 h +:+ "-"
    +:+ slice 20 32 h.

Definition deriveUuidV7FromString `{!UuidPackage, !Digest} (base : string) (call : RailCall)
    : outcome string string :=
  let formatted := uuid_text (uuid_bytes (sha256 (base +:+ ":" +:+ rail_suffix call))) in
  assertUuidV7IdempotencyKey formatted ;;
  Returns formatted.

(** ** The derived key has the shape of a UUIDv7 *)

Definition is_hex (c : ascii) : bool :=
  let n := nat_of_ascii c in (48 <=? n) && (n <=? 57) || (97 <=? n) && (n <=? 102).

Definition is_variant (c : ascii) : bool := bool_decide (c ∈ ["8"; "9"; "a"; "b"]%char).

(** [xxxxxxxx-xxxx-7xxx-[89ab]xxx-xxxxxxxxxxxx], in lower-case hexadecimal. *)
Definition uuid_v7_pattern : list (ascii → bool) :=
  let h := is_hex in
  let d := λ c, bool_decide (c = "-"%char) in
  replicate 8 h ++ [d] ++ replicate 4 h ++ [d; λ c, bool_decide (c = "7"%char)] ++ replicate 3 h
    ++ [d; is_variant] ++ replicate 3 h ++ [d] ++ replicate 12 h.

Fixpoint matches (ps : list (ascii → bool)) (s : string) : bool :=
  match ps, s with
  | [], EmptyString => true
  | p :: ps', String c s' => p c && matches ps' s'
  | _, _ => false
  end.

Definition uuid_v7_shape (s : string) : bool := matches uuid_v7_pattern s.

(** What the package documents: it accepts every string of that shape, and
    reports version 7. *)
Class UuidPackageLaws `{!UuidPackage} : Prop := {
  uuid_accepts s : uuid_v7_shape s = true → validateUuid s = true;
  uuid_version s : uuid_v7_shape s = true → uuidVersion s = 7%Z
}.

(** A digest is at least sixteen bytes. *)
Class DigestLaws `{!Digest} : Prop := {
  digest_length s : 16 ≤ length (sha256 s);
  digest_bytes s : Forall (λ b, 0 ≤ b < 256)%Z (sha256 s)
}.

Definition byte (b : Z) : Prop := (0 ≤ b < 256)%Z.

Lemma hex_digit_is_hex d : (0 ≤ d < 16)%Z → is_hex (hex_digit d) = true.
Proof.
  intros H. assert (d = 0 ∨ d = 1 ∨ d = 2 ∨ d = 3 ∨ d = 4 ∨ d = 5 ∨ d = 6 ∨ d = 7 ∨ d = 8 ∨ d = 9 ∨ d = 10
    ∨ d = 11 ∨ d = 12 ∨ d = 13 ∨ d = 14 ∨ d = 15)%Z as Hd by lia.
  repeat destruct Hd as [->|Hd]; try done. by subst.
Qed.

Lemma hex_byte_hi b : byte b → is_hex (hex_digit (b / 16)) = true.
Proof. intros []. apply hex_digit_is_hex. split; [apply Z.div_pos; lia|apply Z.div_lt_upper_bound; lia]. Qed.

Lemma hex_byte_lo b : byte b → is_hex (hex_digit (b mod 16)) = true.
Proof. intros _. apply hex_digit_is_hex, Z.mod_pos_bound. lia. Qed.

(** The version byte is [7x], the variant byte [8x], [9x], [ax] or [bx]; by
    evaluation on the 256 bytes. *)
Definition all_bytes : list Z := seqZ 0 256.

Lemma all_bytes_spec b : byte b → b ∈ all_bytes.
Proof. intros H. apply elem_of_seqZ. unfold byte in H. lia. Qed.

Lemma version_byte b :
  byte b → byte (Z.lor (Z.land b 0x0f) 0x70) ∧ hex_digit (Z.lor (Z.land b 0x0f) 0x70 / 16) = "7"%char.
Proof.
  intros Hb%all_bytes_spec. revert b Hb. apply Forall_forall. unfold byte.
  apply (bool_decide_unpack _). vm_compute. exact I.
Qed.

Lemma variant_byte b :
  byte b → byte (Z.lor (Z.land b 0x3f) 0x80) ∧ is_variant (hex_digit (Z.lor (Z.land b 0x3f) 0x80 / 16)) = true.
Proof.
  intros Hb%all_bytes_spec. revert b Hb. apply Forall_forall. unfold byte.
  apply (bool_decide_unpack _). vm_compute. exact I.
Qed.

Lemma sixteen {A} (l : list A) :
  16 ≤ length l → ∃ a0 a1 a2 a3 a4 a5 a6 a7 a8 a9 a10 a11 a12 a13 a14 a15 k,
    l = a0 :: a1 :: a2 :: a3 :: a4 :: a5 :: a6 :: a7 :: a8 :: a9 :: a10 :: a11 :: a12 :: a13 :: a14 :: a15 :: k.
Proof.
  intros H. do 16 (destruct l as [|? l]; [simpl in H; lia|]). repeat eexists.
Qed.

Definition hi (b : Z) : ascii := hex_digit (b / 16).
Definition lo (b : Z) : ascii := hex_digit (b mod 16).

Lemma uuid_text_chars b0 b1 b2 b3 b4 b5 b6 b7 b8 b9 b10 b11 b12 b13 b14 b15 :
  uuid_text [b0; b1; b2; b3; b4; b5; b6; b7; b8; b9; b10; b11; b12; b13; b14; b15] =
  String.string_of_list_ascii
    [hi b0; lo b0; hi b1; lo b1; hi b2; lo b2; hi b3; lo b3; "-"%char; hi b4; lo b4; hi b5; lo b5; "-"%char; hi b6; lo b6; hi b7; lo b7; "-"%char; hi b8; lo b8; hi b9; lo b9; "-"%char; hi b10; lo b10; hi b11; lo b11; hi b12; lo b12; hi b13; lo b13; hi b14; lo b14; hi b15; lo b15].
Proof. reflexivity. Qed.

Lemma matches_list ps l : matches ps (String.string_of_list_ascii l) = true ↔ Forall2 (λ p c, p c = true) ps l.
Proof.
  revert l. induction ps as [|p ps IH]; intros [|c l]; simpl.
  - by split.
  - by split; [|intros H; inversion H].
  - by split; [|intros H; inversion H].
  - rewrite andb_true_iff, IH. split; [intros []; by constructor|by inversion 1].
Qed.

Lemma uuid_text_shape digest :
  16 ≤ length digest → Forall byte digest → uuid_v7_shape (uuid_text (uuid_bytes digest)) = true.
Proof.
  intros Hl Hb. apply sixteen in Hl as (a0&a1&a2&a3&a4&a5&a6&a7&a8&a9&a10&a11&a12&a13&a14&a15&k&->).
  repeat (apply Forall_cons in Hb as [? Hb]).
  unfold uuid_bytes. simpl take. cbn [list_lookup lookup list_insert insert default].
  set (v := Z.lor (Z.land a6 15) 112). set (w := Z.lor (Z.land a8 63) 128).
  assert (byte v ∧ hex_digit (v / 16) = "7"%char) as [Hv Hv7] by by apply version_byte.
  assert (byte w ∧ is_variant (hex_digit (w / 16)) = true) as [Hw Hwv] by by apply variant_byte.
  change (uuid_v7_shape (uuid_text [a0; a1; a2; a3; a4; a5; v; a7; w; a9; a10; a11; a12; a13; a14; a15]) = true).
  rewrite uuid_text_chars. unfold uuid_v7_shape. apply matches_list.
  unfold uuid_v7_pattern, hi, lo. cbn [replicate app].
  repeat (apply Forall2_cons_2; [first
    [by apply hex_byte_hi | by apply hex_byte_lo | exact Hwv | by rewrite Hv7 | reflexivity]|]).
  apply Forall2_nil_2.
Qed.

(** Every derived rail key is accepted: whatever the base key, the
    derivation returns a string of UUIDv7 shape that the port's own assertion
    accepts, and the same base and call always give the same key. *)
Theorem derived_key_accepted `{!UuidPackage, !UuidPackageLaws, !Digest, !DigestLaws} base call :
  ∃ k, deriveUuidV7FromString base call = Returns k ∧ uuid_v7_shape k = true ∧
    assertUuidV7IdempotencyKey k = Returns ().
Proof.
  set (k := uuid_text (uuid_bytes (sha256 (base +:+ ":" +:+ rail_suffix call)))).
  assert (uuid_v7_shape k = true) as Hk by (apply uuid_text_shape; [apply digest_length|apply digest_bytes]).
  assert (assertUuidV7IdempotencyKey k = Returns ()) as Ha.
  { unfold assertUuidV7IdempotencyKey, isUuidV7IdempotencyKey.
    by rewrite uuid_accepts, uuid_version. }
  exists k. split; [|done]. unfold deriveUuidV7FromString. fold k. by rewrite Ha.
Qed.

(** A package and a digest that satisfy the laws. *)
Definition sample_uuid : UuidPackage :=
  {| validateUuid := uuid_v7_shape; uuidVersion := λ _, 7%Z |}.
Definition sample_digest : Digest := λ s,
  (λ c, Z.of_nat (nat_of_ascii c)) <$> take 32 (String.list_ascii_of_string (s +:+ "0123456789abcdef0123456789abcdef")).

Lemma sample_uuid_laws : @UuidPackageLaws sample_uuid.
Proof. by split. Qed.

Lemma list_ascii_append s t :
  String.list_ascii_of_string (s +:+ t) = String.list_ascii_of_string s ++ String.list_ascii_of_string t.
Proof. induction s as [|c s IH]; [done|]. change (c :: String.list_ascii_of_string (s +:+ t) = c :: String.list_ascii_of_string s ++ String.list_ascii_of_string t). by rewrite IH. Qed.

Lemma sample_digest_laws : @DigestLaws sample_digest.
Proof.
  split.
  - intros s. unfold sha256, sample_digest.
    rewrite length_fmap, length_take, list_ascii_append, length_app.
    change (length (String.list_ascii_of_string "0123456789abcdef0123456789abcdef")) with 32. lia.
  - intros s. unfold sha256, sample_digest. apply Forall_fmap, Forall_true. intros c. simpl.
    pose proof (nat_ascii_bounded c). lia.
Qed.

Lemma derived_key_accepted_witness :
  ∃ k, @deriveUuidV7FromString sample_uuid sample_digest "018f" CaptureCall = Returns k ∧ uuid_v7_shape k = true.
Proof.
  destruct (@derived_key_accepted sample_uuid sample_uuid_laws sample_digest sample_digest_laws "018f" CaptureCall)
    as (k & Hk & Hs & _).
  exists k. split; [exact Hk|exact Hs].
Defined.
