(* ===== verification/Submission.v ===== *)
(** * Submission: pay, submit or queue

    The payment rail, submit transport and offline queue ports
    (src/src/ports/payment-rail-adapter.ts, submit-transport.ts,
    offline-submit-queue.ts) as interfaces with the laws they state, and the
    orchestration over them, [submitWithPayment] and [submitOrQueue]
    (src/src/app/respondent-flow.ts). *)

From S2P Require Import Prelude JsValue FeatureKeys Resolver ExtractForm IdempotencyKey.

(** A thrown value: an Error with its message, or any other value. *)
Inductive thrown : Set :=
  | AnError (message : string)
  | AValue (v : jsv).

Definition error {A} (m : string) : outcome thrown A := Throws (AnError m).

(** An asynchronous operation of an adapter with state [S]: what it settles
    with, and the state it leaves. *)
Definition action (S A : Type) : Type := S → outcome thrown A * S.

Definition lift_error {A} (m : outcome string A) : outcome thrown A :=
  match m with Returns a => Returns a | Throws e => error e end.

(** ** The ports *)

Record Authorization : Set := { auth_id : string; auth_amount : Money; auth_railLabel : string }.

Record CaptureReceipt : Set := {
  receipt_authorizationId : string;
  receipt_amount : Money;
  receipt_settledTransactionId : string;
  receipt_railLabel : string
}.

#[export] Instance Authorization_eq_dec : EqDecision Authorization.
Proof. solve_decision. Defined.
#[export] Instance CaptureReceipt_eq_dec : EqDecision CaptureReceipt.
Proof. solve_decision. Defined.

Class PaymentRailAdapter (R : Type) := {
  authorize : Money → string → string → action R Authorization;
  capture : Authorization → string → action R CaptureReceipt;
  voidAuthorization : Authorization → string → action R unit
}.

Inductive SubmissionStatus : Set := AcceptedStatus | QueuedStatus | RejectedStatus.

Record SubmitConfirmation : Set := {
  conf_recordKind : option string;
  conf_referenceNumber : string;
  conf_status : SubmissionStatus;
  conf_trackingUri : option string;
  conf_caseUrn : option string
}.

Class SubmitTransport (H T : Type) := submit : H → string → action T SubmitConfirmation.

Record QueuedSubmit (H : Type) : Type := {
  queued_idempotencyKey : string;
  queued_handoff : H;
  queued_enqueuedAt : string
}.
Arguments queued_idempotencyKey {H} _.
Arguments queued_handoff {H} _.
Arguments queued_enqueuedAt {H} _.

Class OfflineEnqueue (H Q : Type) := enqueue : H → string → action Q (QueuedSubmit H).

(** ** [submitOrQueue] *)

Inductive SubmitOrQueueOutcome (H : Type) : Type :=
  | Submitted (confirmation : SubmitConfirmation)
  | Queued (queuedSubmit : QueuedSubmit H).
Arguments Submitted {H} _.
Arguments Queued {H} _.

Section submit_or_queue.
Context {H T Q : Type} `{!SubmitTransport H T, !OfflineEnqueue H Q}.

Definition submitOrQueue (navigatorOnLine : bool) (runtimeProfile : ResolvedRuntimeProfile)
    (handoff : H) (idempotencyKey : string) (t : T) (q : Q)
    : outcome thrown (SubmitOrQueueOutcome H) * T * Q :=
  let offlineEnabled := bool_decide (OfflineSubmit ∈ p_enabled runtimeProfile) in
  if negb navigatorOnLine && offlineEnabled then
    let '(r, q') := enqueue handoff idempotencyKey q in
    (Queued <$> r, t, q')
  else
    let '(r, t') := submit handoff idempotencyKey t in
    (Submitted <$> r, t', q).
End submit_or_queue.

(** ** [submitWithPayment] *)

Inductive SubmitWithPaymentOutcome : Set :=
  | SubmittedWithPayment (confirmation : SubmitConfirmation) (captureReceipt : CaptureReceipt)
  | AuthorizeFailed (e : thrown)
  | SubmitFailedPaymentVoided (authorization : Authorization) (e : thrown)
  | VoidFailedAfterSubmitFailure (authorization : Authorization) (submitError voidError : thrown)
  | CaptureFailed (confirmation : SubmitConfirmation) (authorization : Authorization) (e : thrown).

Record SubmitWithPaymentInput (H : Type) : Type := {
  sp_profile : ResolvedRuntimeProfile;
  sp_definition : FormDefinition;
  sp_handoff : H;
  sp_idempotencyKey : string;
  sp_methodToken : option string;
  sp_authorizeKey : option string;
  sp_captureKey : option string;
  sp_voidKey : option string
}.
Arguments sp_profile {H} _.
Arguments sp_definition {H} _.
Arguments sp_handoff {H} _.
Arguments sp_idempotencyKey {H} _.
Arguments sp_methodToken {H} _.
Arguments sp_authorizeKey {H} _.
Arguments sp_captureKey {H} _.
Arguments sp_voidKey {H} _.

Definition PAYMENT_FALLBACK_METHOD_TOKEN : string := "demo-method-stub".

Definition readMethodToken {H} (input : SubmitWithPaymentInput H) : outcome thrown string :=
  match sp_methodToken input with
  | Some (String c s) => Returns (String c s)
  | _ =>
      match str_of (nonEmptyString (extension (sp_definition input) "x-formspec-payment-method-token")) with
      | Some t => Returns t
      | None =>
          match p_mode (sp_profile input) with
          | Demo => Returns PAYMENT_FALLBACK_METHOD_TOKEN
          | Production =>
              error ("No payment method token available: caller did not supply `methodToken`, and the form did not declare extensions["
                +:+ dq +:+ "x-formspec-payment-method-token" +:+ dq
                +:+ "]. Production compositions must wire a rail-specific picker UX that provides the token.")
          end
      end
  end.

Section payment.
Context {H R T : Type} `{!PaymentRailAdapter R, !SubmitTransport H T, !UuidPackage, !Digest}.

Definition resolveRailKey (override : option string) (base : string) (call : RailCall) : outcome thrown string :=
  match override with
  | Some k => lift_error (assertUuidV7IdempotencyKey k) ;; Returns k
  | None => lift_error (deriveUuidV7FromString base call)
  end.

(** What the orchestration settles before it calls any adapter. *)
Record PaymentPlan : Set := {
  plan_amount : Money; plan_token : string;
  plan_authorizeKey : string; plan_captureKey : string; plan_voidKey : string
}.

Definition payment_plan (input : SubmitWithPaymentInput H) : outcome thrown PaymentPlan :=
  throw_when (negb (bool_decide (Payment ∈ p_enabled (sp_profile input))))
    (AnError "submitWithPayment invoked with payment disabled in the resolved profile; route free-form submits through submitOrQueue.") ;;
  amount ← match extractPaymentAmount (sp_definition input) with
           | Some m => Returns m
           | None =>
               error ("Payment is enabled for this form but extensions[" +:+ dq +:+ "x-formspec-payment-amount"
                 +:+ dq +:+ "] is missing or malformed.")
           end;
  methodToken ← readMethodToken input;
  authorizeKey ← resolveRailKey (sp_authorizeKey input) (sp_idempotencyKey input) AuthorizeCall;
  captureKey ← resolveRailKey (sp_captureKey input) (sp_idempotencyKey input) CaptureCall;
  voidKey ← resolveRailKey (sp_voidKey input) (sp_idempotencyKey input) VoidCall;
  Returns {| plan_amount := amount; plan_token := methodToken; plan_authorizeKey := authorizeKey;
             plan_captureKey := captureKey; plan_voidKey := voidKey |}.

(** authorize, then submit, then capture or void. *)
Definition run_plan (input : SubmitWithPaymentInput H) (plan : PaymentPlan) (r : R) (t : T)
    : SubmitWithPaymentOutcome * R * T :=
  match authorize (plan_amount plan) (plan_token plan) (plan_authorizeKey plan) r with
  | (Throws e, r1) => (AuthorizeFailed e, r1, t)
  | (Returns authorization, r1) =>
      match submit (sp_handoff input) (sp_idempotencyKey input) t with
      | (Throws submitError, t1) =>
          match voidAuthorization authorization (plan_voidKey plan) r1 with
          | (Throws voidError, r2) => (VoidFailedAfterSubmitFailure authorization submitError voidError, r2, t1)
          | (Returns _, r2) => (SubmitFailedPaymentVoided authorization submitError, r2, t1)
          end
      | (Returns confirmation, t1) =>
          match capture authorization (plan_captureKey plan) r1 with
          | (Returns captureReceipt, r2) => (SubmittedWithPayment confirmation captureReceipt, r2, t1)
          | (Throws e, r2) => (CaptureFailed confirmation authorization e, r2, t1)
          end
      end
  end.

Definition submitWithPayment (input : SubmitWithPaymentInput H) (r : R) (t : T)
    : outcome thrown SubmitWithPaymentOutcome * R * T :=
  match payment_plan input with
  | Throws e => (Throws e, r, t)
  | Returns plan => let '(o, r', t') := run_plan input plan r t in (Returns o, r', t')
  end.
End payment.

(** ** The contract of a payment rail

    What the port's documentation states, in terms of what a rail remembers:
    the status of each authorization, and what each idempotency key settled. *)

Inductive AuthorizationStatus : Set := Authorized | Captured | Voided.

#[export] Instance AuthorizationStatus_eq_dec : EqDecision AuthorizationStatus.
Proof. solve_decision. Defined.

(** What every rail accepts as an amount. *)
Definition money_ok (m : Money) : Prop := (0 ≤ amountMinorUnits m)%Z ∧ currency m ≠ "".

Class PaymentRailContract (R : Type) `{!PaymentRailAdapter R, !UuidPackage} := {
  rail_ok : R → Prop;
  status_of : R → string → option AuthorizationStatus;
  authorized_by : R → string → option Authorization;
  captured_by : R → string → option CaptureReceipt;
  voided_by : R → string → bool;

  (** same key, same authorization; a new key holds funds under a new id *)
  authorize_law r m tok k res r' :
    rail_ok r → authorize m tok k r = (res, r') →
    rail_ok r' ∧ captured_by r' = captured_by r ∧ voided_by r' = voided_by r ∧
    match res with
    | Returns a =>
        authorized_by r' k = Some a ∧
        (authorized_by r k = Some a ∧ r' = r ∨
         authorized_by r k = None ∧ auth_amount a = m ∧ status_of r (auth_id a) = None ∧
         status_of r' (auth_id a) = Some Authorized ∧
         (∀ k', k' ≠ k → authorized_by r' k' = authorized_by r k') ∧
         ∀ i, i ≠ auth_id a → status_of r' i = status_of r i)
    | Throws _ => authorized_by r' = authorized_by r ∧ status_of r' = status_of r
    end;
  (** a retry with a settled key settles the same way *)
  authorize_again r m tok k a :
    rail_ok r → authorized_by r k = Some a → isUuidV7IdempotencyKey k = true → money_ok m →
    authorize m tok k r = (Returns a, r);
  (** same key, same receipt; a new key charges an authorized hold once *)
  capture_law r a k res r' :
    rail_ok r → capture a k r = (res, r') →
    rail_ok r' ∧ authorized_by r' = authorized_by r ∧ voided_by r' = voided_by r ∧
    match res with
    | Returns rc =>
        captured_by r' k = Some rc ∧
        (captured_by r k = Some rc ∧ r' = r ∨
         captured_by r k = None ∧ receipt_authorizationId rc = auth_id a ∧ receipt_amount rc = auth_amount a ∧
         status_of r (auth_id a) = Some Authorized ∧ status_of r' (auth_id a) = Some Captured ∧
         ∀ i, i ≠ auth_id a → status_of r' i = status_of r i)
    | Throws _ => captured_by r k = None ∧ captured_by r' = captured_by r ∧ status_of r' = status_of r
    end;
  capture_again r a k rc :
    rail_ok r → captured_by r k = Some rc → isUuidV7IdempotencyKey k = true → capture a k r = (Returns rc, r);
  (** a new key releases a hold, and never a charge *)
  void_law r a k res r' :
    rail_ok r → voidAuthorization a k r = (res, r') →
    rail_ok r' ∧ authorized_by r' = authorized_by r ∧ captured_by r' = captured_by r ∧
    match res with
    | Returns _ =>
        voided_by r' k = true ∧
        (voided_by r k = true ∧ r' = r ∨
         voided_by r k = false ∧ status_of r (auth_id a) ≠ Some Captured ∧
         (status_of r (auth_id a) = None → status_of r' (auth_id a) = None) ∧
         (is_Some (status_of r (auth_id a)) → status_of r' (auth_id a) = Some Voided) ∧
         ∀ i, i ≠ auth_id a → status_of r' i = status_of r i)
    | Throws _ => voided_by r k = false ∧ voided_by r' = voided_by r ∧ status_of r' = status_of r
    end
}.

(** ** One attempt, over any rail that keeps the contract *)

Section attempt.
Context {H R T : Type} `{!PaymentRailAdapter R, !SubmitTransport H T, !UuidPackage, !Digest,
  !PaymentRailContract R}.
Implicit Types (input : SubmitWithPaymentInput H) (plan : PaymentPlan) (r : R) (t : T).

(** The plan's keys have settled nothing yet. *)
Definition fresh_keys (plan : PaymentPlan) (r : R) : Prop :=
  authorized_by r (plan_authorizeKey plan) = None ∧ captured_by r (plan_captureKey plan) = None ∧
  voided_by r (plan_voidKey plan) = false.

(** What an attempt leaves behind, outcome by outcome. *)
Definition attempt_settles input plan r t (o : SubmitWithPaymentOutcome) r' t' : Prop :=
  match o with
  | AuthorizeFailed _ => status_of r' = status_of r ∧ t' = t
  | SubmittedWithPayment conf rc =>
      submit (sp_handoff input) (sp_idempotencyKey input) t = (Returns conf, t') ∧
      receipt_amount rc = plan_amount plan ∧
      status_of r (receipt_authorizationId rc) = None ∧
      status_of r' (receipt_authorizationId rc) = Some Captured ∧
      ∀ i, i ≠ receipt_authorizationId rc → status_of r' i = status_of r i
  | SubmitFailedPaymentVoided a e =>
      submit (sp_handoff input) (sp_idempotencyKey input) t = (Throws e, t') ∧
      status_of r (auth_id a) = None ∧ status_of r' (auth_id a) = Some Voided ∧
      ∀ i, i ≠ auth_id a → status_of r' i = status_of r i
  | VoidFailedAfterSubmitFailure a e _ =>
      submit (sp_handoff input) (sp_idempotencyKey input) t = (Throws e, t') ∧
      status_of r (auth_id a) = None ∧ status_of r' (auth_id a) = Some Authorized ∧
      ∀ i, i ≠ auth_id a → status_of r' i = status_of r i
  | CaptureFailed conf a _ =>
      submit (sp_handoff input) (sp_idempotencyKey input) t = (Returns conf, t') ∧
      status_of r (auth_id a) = None ∧ status_of r' (auth_id a) = Some Authorized ∧
      ∀ i, i ≠ auth_id a → status_of r' i = status_of r i
  end.

Lemma run_plan_settles input plan r t o r' t' :
  rail_ok r → fresh_keys plan r → run_plan input plan r t = (o, r', t') →
  rail_ok r' ∧ attempt_settles input plan r t o r' t'.
Proof.
  intros Hok (Hfa & Hfc & Hfv). unfold run_plan.
  destruct (authorize _ _ _ r) as [[a|e] r1] eqn:Ea; apply authorize_law in Ea as (Hok1 & Hc1 & Hv1 & Ha); try done.
  2: { intros [= <- <- <-]. destruct Ha as (_ & ?). done. }
  destruct Ha as (_ & [[? _]|(_ & Hm & Hnew & Hst & _ & Hfr)]); [congruence|].
  destruct (submit _ _ t) as [[conf|se] t1] eqn:Es.
  - destruct (capture a _ r1) as [[rc|e] r2] eqn:Ec; apply capture_law in Ec as (Hok2 & _ & _ & Hc); try done;
      intros [= <- <- <-]; simpl; (split; [done|]).
    + destruct Hc as (_ & [[? _]|(_ & Hid & Hrm & _ & Hcap & Hfr')]); [congruence|].
      rewrite Hid. split; [done|]. split; [congruence|]. split; [done|]. split; [done|].
      intros i Hi. by rewrite Hfr', Hfr.
    + destruct Hc as (_ & _ & Hs). rewrite Hs. done.
  - destruct (voidAuthorization a _ r1) as [[u|e] r2] eqn:Ev; apply void_law in Ev as (Hok2 & _ & _ & Hv); try done;
      intros [= <- <- <-]; simpl; (split; [done|]).
    + destruct Hv as (_ & [[? _]|(_ & _ & _ & Hvo & Hfr')]); [congruence|].
      split; [done|]. split; [done|]. split; [by apply Hvo|]. intros i Hi. by rewrite Hfr', Hfr.
    + destruct Hv as (_ & _ & Hs). rewrite Hs. done.
Qed.
End attempt.
