(* ===== verification/PaymentStub.v ===== *)
(** * The in-memory payment rail

    [stubPaymentRailAdapter] (src/src/adapters/stub/payment-rail-adapter.ts),
    with its injected failures, and the proof that it keeps the port's contract. *)

From S2P Require Import Prelude JsValue FeatureKeys Resolver ExtractForm IdempotencyKey Submission.
From Stdlib Require Import Ascii.

Record StubAuthorizationState : Set := {
  stub_status : AuthorizationStatus;
  stub_amount : Money;
  stub_methodToken : string
}.

(** The closure variables of one [stubPaymentRailAdapter()] instance. *)
Record StubRail : Type := {
  railLabel : string;
  states : gmap string StubAuthorizationState;
  authorizationsByKey : gmap string Authorization;
  capturesByKey : gmap string CaptureReceipt;
  voidsByKey : gset string;
  nextId : N;
  pendingAuthorizeError : option thrown;
  pendingCaptureError : option thrown;
  pendingVoidError : option thrown
}.

Definition stubPaymentRailAdapter (label : option string) : StubRail :=
  {| railLabel := default "Card" label; states := ∅; authorizationsByKey := ∅; capturesByKey := ∅;
     voidsByKey := ∅; nextId := 0; pendingAuthorizeError := None; pendingCaptureError := None;
     pendingVoidError := None |}.

(** [s.padStart(n, c)] *)
Fixpoint repeat_char (n : nat) (c : ascii) : string :=
  match n with 0 => EmptyString | S n' => String c (repeat_char n' c) end.
Definition padStart (n : nat) (c : ascii) (s : string) : string := repeat_char (n - String.length s) c +:+ s.

Definition stub_auth_id (n : N) : string := "stub-auth-" +:+ padStart 6 "0" (pretty n).

(** [error instanceof Error ? error : new Error(String(error))] *)
Definition as_error (e : thrown) : thrown :=
  match e with AnError m => AnError m | AValue v => AnError (js_to_string v) end.

(** An amount's minor units are an integer by type; the stub's check that they
    are is [extractPaymentAmount]'s. *)
Definition assertWellFormedMoney (amount : Money) : outcome thrown unit :=
  throw_when (amountMinorUnits amount <? 0)%Z
    (AnError ("Money.amountMinorUnits must be non-negative; received " +:+ pretty (amountMinorUnits amount))) ;;
  throw_when (negb (nonempty (currency amount)))
    (AnError "Money.currency must be a non-empty ISO-4217 code").

Section updates.
Context (r : StubRail).

Definition with_authorization (k : string) (a : Authorization) (st : StubAuthorizationState) : StubRail :=
  {| railLabel := railLabel r; states := <[auth_id a := st]> (states r);
     authorizationsByKey := <[k := a]> (authorizationsByKey r); capturesByKey := capturesByKey r;
     voidsByKey := voidsByKey r; nextId := (nextId r + 1)%N;
     pendingAuthorizeError := pendingAuthorizeError r; pendingCaptureError := pendingCaptureError r;
     pendingVoidError := pendingVoidError r |}.

Definition with_capture (k : string) (rc : CaptureReceipt) (i : string) (st : StubAuthorizationState) : StubRail :=
  {| railLabel := railLabel r; states := <[i := st]> (states r);
     authorizationsByKey := authorizationsByKey r; capturesByKey := <[k := rc]> (capturesByKey r);
     voidsByKey := voidsByKey r; nextId := nextId r;
     pendingAuthorizeError := pendingAuthorizeError r; pendingCaptureError := pendingCaptureError r;
     pendingVoidError := pendingVoidError r |}.

Definition with_void (k : string) (states' : gmap string StubAuthorizationState) : StubRail :=
  {| railLabel := railLabel r; states := states';
     authorizationsByKey := authorizationsByKey r; capturesByKey := capturesByKey r;
     voidsByKey := {[k]} ∪ voidsByKey r; nextId := nextId r;
     pendingAuthorizeError := pendingAuthorizeError r; pendingCaptureError := pendingCaptureError r;
     pendingVoidError := pendingVoidError r |}.

Definition with_pending (a c v : option thrown) : StubRail :=
  {| railLabel := railLabel r; states := states r;
     authorizationsByKey := authorizationsByKey r; capturesByKey := capturesByKey r;
     voidsByKey := voidsByKey r; nextId := nextId r;
     pendingAuthorizeError := a; pendingCaptureError := c; pendingVoidError := v |}.
End updates.

(** Test hooks: the next call of the family throws. *)
Definition failNextAuthorize (r : StubRail) (e : thrown) : StubRail :=
  with_pending r (Some e) (pendingCaptureError r) (pendingVoidError r).
Definition failNextCapture (r : StubRail) (e : thrown) : StubRail :=
  with_pending r (pendingAuthorizeError r) (Some e) (pendingVoidError r).
Definition failNextVoid (r : StubRail) (e : thrown) : StubRail :=
  with_pending r (pendingAuthorizeError r) (pendingCaptureError r) (Some e).

Definition set_status (st : StubAuthorizationState) (s : AuthorizationStatus) : StubAuthorizationState :=
  {| stub_status := s; stub_amount := stub_amount st; stub_methodToken := stub_methodToken st |}.

Section operations.
Context `{!UuidPackage}.

Definition stub_authorize (amount : Money) (methodToken : string) (idempotencyKey : string)
    : action StubRail Authorization := λ r,
  match lift_error (assertUuidV7IdempotencyKey idempotencyKey) ;; assertWellFormedMoney amount with
  | Throws e => (Throws e, r)
  | Returns _ =>
      match authorizationsByKey r !! idempotencyKey with
      | Some existing => (Returns existing, r)
      | None =>
          match pendingAuthorizeError r with
          | Some e => (Throws (as_error e), with_pending r None (pendingCaptureError r) (pendingVoidError r))
          | None =>
              let authorization :=
                {| auth_id := stub_auth_id (nextId r + 1); auth_amount := amount;
                   auth_railLabel := railLabel r |} in
              (Returns authorization,
               with_authorization r idempotencyKey authorization
                 {| stub_status := Authorized; stub_amount := amount; stub_methodToken := methodToken |})
          end
      end
  end.

Definition stub_capture (authorization : Authorization) (idempotencyKey : string)
    : action StubRail CaptureReceipt := λ r,
  let id := auth_id authorization in
  match lift_error (assertUuidV7IdempotencyKey idempotencyKey) with
  | Throws e => (Throws e, r)
  | Returns _ =>
      match capturesByKey r !! idempotencyKey with
      | Some existing => (Returns existing, r)
      | None =>
          match states r !! id with
          | None => (error ("Unknown authorization id: " +:+ id), r)
          | Some state =>
              match stub_status state with
              | Captured => (error ("Authorization " +:+ id +:+ " already captured"), r)
              | Voided => (error ("Authorization " +:+ id +:+ " already voided"), r)
              | Authorized =>
                  match pendingCaptureError r with
                  | Some e => (Throws (as_error e), with_pending r (pendingAuthorizeError r) None (pendingVoidError r))
                  | None =>
                      let receipt :=
                        {| receipt_authorizationId := id; receipt_amount := auth_amount authorization;
                           receipt_settledTransactionId := "stub-txn-" +:+ id;
                           receipt_railLabel := auth_railLabel authorization |} in
                      (Returns receipt, with_capture r idempotencyKey receipt id (set_status state Captured))
                  end
              end
          end
      end
  end.

Definition stub_void (authorization : Authorization) (idempotencyKey : string) : action StubRail unit := λ r,
  let id := auth_id authorization in
  match lift_error (assertUuidV7IdempotencyKey idempotencyKey) with
  | Throws e => (Throws e, r)
  | Returns _ =>
      if bool_decide (idempotencyKey ∈ voidsByKey r) then (Returns (), r)
      else
        match states r !! id with
        | None => (Returns (), with_void r idempotencyKey (states r))
        | Some state =>
            if bool_decide (stub_status state = Captured) then
              (error ("Authorization " +:+ id +:+ " already captured; use refund instead"), r)
            else
              match pendingVoidError r with
              | Some e => (Throws (as_error e), with_pending r (pendingAuthorizeError r) (pendingCaptureError r) None)
              | None => (Returns (), with_void r idempotencyKey (<[id := set_status state Voided]> (states r)))
              end
        end
  end.

#[export] Instance StubRail_adapter : PaymentRailAdapter StubRail :=
  {| authorize := stub_authorize; capture := stub_capture; voidAuthorization := stub_void |}.
End operations.

(** ** Authorization ids are distinct

    Padding with zeros does not merge two decimal expansions: both read back as
    the number they print. *)

Definition digit_value (c : ascii) : N := (N_of_ascii c - 48)%N.

Fixpoint decimal_from (acc : N) (s : string) : N :=
  match s with EmptyString => acc | String c s' => decimal_from (10 * acc + digit_value c) s' end.

Lemma decimal_pad n s : decimal_from 0 (repeat_char n "0" +:+ s) = decimal_from 0 s.
Proof. induction n as [|n IH]; [done|exact IH]. Qed.

Lemma pretty_digit_value d : (d < 10)%N → digit_value (pretty_N_char d) = d.
Proof.
  intros H. assert (d = 0 ∨ d = 1 ∨ d = 2 ∨ d = 3 ∨ d = 4 ∨ d = 5 ∨ d = 6 ∨ d = 7 ∨ d = 8 ∨ d = 9)%N as Hd by lia.
  repeat destruct Hd as [->|Hd]; try done. by subst.
Qed.

Lemma decimal_pretty_go n s : decimal_from 0 (pretty_N_go n s) = decimal_from n s.
Proof.
  revert s. induction (N.lt_wf_0 n) as [n _ IH]. intros s.
  destruct (decide (n = 0)%N) as [->|Hn]; [by rewrite pretty_N_go_0|].
  rewrite pretty_N_go_step by lia. rewrite IH by (apply N.div_lt; lia). simpl.
  rewrite pretty_digit_value by (apply N.mod_lt; lia). f_equal.
  pose proof (N.div_mod n 10). lia.
Qed.

Lemma decimal_pretty (n : N) : decimal_from 0 (pretty n) = n.
Proof.
  unfold pretty, pretty_N. case_decide as H; [by subst|]. by rewrite decimal_pretty_go.
Qed.

#[export] Instance stub_auth_id_inj : Inj (=) (=) stub_auth_id.
Proof.
  intros n m E. unfold stub_auth_id in E. apply (inj (String.append "stub-auth-")) in E.
  apply (f_equal (decimal_from 0)) in E. unfold padStart in E. by rewrite !decimal_pad, !decimal_pretty in E.
Qed.

(** ** The contract *)

Section contract.
Context `{!UuidPackage}.

(** Issued ids number one to [nextId], and settled keys are well-formed. *)
Record stub_ok (r : StubRail) : Prop := {
  ok_states i st : states r !! i = Some st → ∃ n, (n ≤ nextId r)%N ∧ i = stub_auth_id n;
  ok_authorizations k a : authorizationsByKey r !! k = Some a → isUuidV7IdempotencyKey k = true;
  ok_captures k rc : capturesByKey r !! k = Some rc → isUuidV7IdempotencyKey k = true;
  ok_voids k : k ∈ voidsByKey r → isUuidV7IdempotencyKey k = true
}.

Lemma stub_initial_ok label : stub_ok (stubPaymentRailAdapter label).
Proof. by split. Qed.

Lemma stub_pending_ok r a c v : stub_ok r → stub_ok (with_pending r a c v).
Proof. intros []. by split. Qed.

Lemma stub_fresh_id r : stub_ok r → states r !! stub_auth_id (nextId r + 1) = None.
Proof.
  intros []. destruct (states r !! _) as [st|] eqn:E; [|done].
  apply ok_states0 in E as (n & Hn & En). apply (inj stub_auth_id) in En. lia.
Qed.

Lemma assert_key_Returns k u : lift_error (assertUuidV7IdempotencyKey k) = Returns u ↔ isUuidV7IdempotencyKey k = true.
Proof.
  unfold assertUuidV7IdempotencyKey, lift_error. destruct u, (isUuidV7IdempotencyKey k); simpl; by split.
Qed.

Lemma money_checks m : money_ok m ↔ assertWellFormedMoney m = Returns ().
Proof.
  unfold money_ok, assertWellFormedMoney. rewrite seq_Returns, !throw_when_Returns, negb_false_iff, nonempty_spec.
  by rewrite Z.ltb_ge.
Qed.

Definition status_map (r : StubRail) (i : string) : option AuthorizationStatus := stub_status <$> states r !! i.

Lemma stub_authorize_law r m tok k res r' :
  stub_ok r → stub_authorize m tok k r = (res, r') →
  stub_ok r' ∧ capturesByKey r' = capturesByKey r ∧ voidsByKey r' = voidsByKey r ∧
  match res with
  | Returns a =>
      authorizationsByKey r' !! k = Some a ∧
      (authorizationsByKey r !! k = Some a ∧ r' = r ∨
       authorizationsByKey r !! k = None ∧ auth_amount a = m ∧ status_map r (auth_id a) = None ∧
       status_map r' (auth_id a) = Some Authorized ∧
       (∀ k', k' ≠ k → authorizationsByKey r' !! k' = authorizationsByKey r !! k') ∧
       ∀ i, i ≠ auth_id a → status_map r' i = status_map r i)
  | Throws _ => authorizationsByKey r' = authorizationsByKey r ∧ status_map r' = status_map r
  end.
Proof.
  intros Hok. unfold stub_authorize.
  destruct (lift_error _ ;; _) as [[]|e] eqn:Hchk; [|by intros [= <- <-]].
  apply seq_Returns in Hchk as [Hk%assert_key_Returns _].
  destruct (authorizationsByKey r !! k) as [a|] eqn:Ek; [intros [= <- <-]; eauto 10|].
  destruct (pendingAuthorizeError r); intros [= <- <-]; [by split; [apply stub_pending_ok|]|].
  split; [|split; [done|split; [done|]]].
  - destruct Hok. split; simpl; try done.
    + intros i st. destruct (decide (i = stub_auth_id (nextId r + 1))) as [->|Hne].
      * intros _. exists (nextId r + 1)%N. split; [lia|done].
      * rewrite lookup_insert_ne by done. intros (n & ? & ->)%ok_states0. exists n. split; [lia|done].
    + intros k' a. destruct (decide (k' = k)) as [->|]; [done|]. rewrite lookup_insert_ne by done. eauto.
  - simpl. rewrite lookup_insert_eq. split; [done|]. right. split; [done|]. split; [done|].
    unfold status_map; simpl. rewrite stub_fresh_id, lookup_insert_eq by done. split; [done|]. split; [done|].
    split; [intros k' ?; by rewrite lookup_insert_ne|]. intros i Hi. by rewrite lookup_insert_ne.
Qed.

Lemma stub_capture_law r a k res r' :
  stub_ok r → stub_capture a k r = (res, r') →
  stub_ok r' ∧ authorizationsByKey r' = authorizationsByKey r ∧ voidsByKey r' = voidsByKey r ∧
  match res with
  | Returns rc =>
      capturesByKey r' !! k = Some rc ∧
      (capturesByKey r !! k = Some rc ∧ r' = r ∨
       capturesByKey r !! k = None ∧ receipt_authorizationId rc = auth_id a ∧ receipt_amount rc = auth_amount a ∧
       status_map r (auth_id a) = Some Authorized ∧ status_map r' (auth_id a) = Some Captured ∧
       ∀ i, i ≠ auth_id a → status_map r' i = status_map r i)
  | Throws _ => capturesByKey r !! k = None ∧ capturesByKey r' = capturesByKey r ∧ status_map r' = status_map r
  end.
Proof.
  intros Hok. unfold stub_capture. cbv zeta.
  destruct (lift_error _) as [[]|e] eqn:Hk.
  2: { intros [= <- <-]. destruct (capturesByKey r !! k) as [rc|] eqn:E; [|done].
       apply (ok_captures _ Hok) in E. apply (assert_key_Returns k ()) in E. congruence. }
  apply assert_key_Returns in Hk.
  destruct (capturesByKey r !! k) as [rc|] eqn:Ek; [intros [= <- <-]; eauto 10|].
  destruct (states r !! auth_id a) as [st|] eqn:Es; [|by intros [= <- <-]].
  destruct (stub_status st) eqn:Est; try (by intros [= <- <-]).
  destruct (pendingCaptureError r); intros [= <- <-]; [by split; [apply stub_pending_ok|]|].
  split; [|split; [done|split; [done|]]].
  - destruct Hok. split; simpl; try done.
    + intros i st'. destruct (decide (i = auth_id a)) as [->|]; [by eauto|]. rewrite lookup_insert_ne by done. eauto.
    + intros k' rc. destruct (decide (k' = k)) as [->|]; [done|]. rewrite lookup_insert_ne by done. eauto.
  - simpl. rewrite lookup_insert_eq. split; [done|]. right. split; [done|]. split; [done|]. split; [done|].
    unfold status_map; simpl. rewrite Es, lookup_insert_eq; simpl. split; [by rewrite Est|]. split; [done|].
    intros i Hi. by rewrite lookup_insert_ne.
Qed.

Lemma stub_void_law r a k res r' :
  stub_ok r → stub_void a k r = (res, r') →
  stub_ok r' ∧ authorizationsByKey r' = authorizationsByKey r ∧ capturesByKey r' = capturesByKey r ∧
  match res with
  | Returns _ =>
      bool_decide (k ∈ voidsByKey r') = true ∧
      (bool_decide (k ∈ voidsByKey r) = true ∧ r' = r ∨
       bool_decide (k ∈ voidsByKey r) = false ∧ status_map r (auth_id a) ≠ Some Captured ∧
       (status_map r (auth_id a) = None → status_map r' (auth_id a) = None) ∧
       (is_Some (status_map r (auth_id a)) → status_map r' (auth_id a) = Some Voided) ∧
       ∀ i, i ≠ auth_id a → status_map r' i = status_map r i)
  | Throws _ => bool_decide (k ∈ voidsByKey r) = false ∧
      (λ k, bool_decide (k ∈ voidsByKey r')) = (λ k, bool_decide (k ∈ voidsByKey r)) ∧
      status_map r' = status_map r
  end.
Proof.
  intros Hok. unfold stub_void. cbv zeta.
  destruct (lift_error _) as [[]|e] eqn:Hk.
  2: { intros [= <- <-]. split; [done|]. split; [done|]. split; [done|]. split; [|done].
       apply bool_decide_eq_false. intros E%(ok_voids _ Hok). apply (assert_key_Returns k ()) in E. congruence. }
  apply assert_key_Returns in Hk.
  assert (∀ m, (∀ i, is_Some (m !! i) → is_Some (states r !! i)) → stub_ok (with_void r k m)) as Hw.
  { intros m Hm. destruct Hok. split; simpl; try done.
    - intros i st Hi. destruct (Hm i) as [st' ?]; [eauto|]. eauto.
    - intros k' [->%elem_of_singleton|?]%elem_of_union; eauto. }
  destruct (bool_decide (k ∈ voidsByKey r)) eqn:Ek; [intros [= <- <-]; eauto 10|].
  destruct (states r !! auth_id a) as [st|] eqn:Es.
  - destruct (bool_decide (stub_status st = Captured)) eqn:Ec; [by intros [= <- <-]|].
    apply bool_decide_eq_false in Ec.
    destruct (pendingVoidError r); intros [= <- <-]; [by split; [apply stub_pending_ok|]|].
    split; [apply Hw; intros i; destruct (decide (i = auth_id a)) as [->|];
            [by eauto|by rewrite lookup_insert_ne]|].
    split; [done|]. split; [done|]. split; [apply bool_decide_eq_true; simpl; set_solver|].
    right. split; [done|]. unfold status_map; simpl. rewrite Es, lookup_insert_eq; simpl.
    split; [congruence|]. split; [done|]. split; [done|]. intros i Hi. by rewrite lookup_insert_ne.
  - intros [= <- <-]. split; [by apply Hw|]. split; [done|]. split; [done|].
    split; [apply bool_decide_eq_true; simpl; set_solver|].
    right. split; [done|]. unfold status_map; simpl. rewrite Es; simpl.
    split; [done|]. split; [done|]. split; [by intros [? ?]|done].
Qed.

#[export] Program Instance StubRail_contract : PaymentRailContract StubRail :=
  {| rail_ok := stub_ok; status_of := status_map;
     authorized_by := λ r k, authorizationsByKey r !! k;
     captured_by := λ r k, capturesByKey r !! k;
     voided_by := λ r k, bool_decide (k ∈ voidsByKey r) |}.
Next Obligation.
  intros r m tok k res r' Hok Hres0. destruct (stub_authorize_law _ _ _ _ _ _ Hok Hres0) as (? & Hc & Hv & Hres).
  rewrite Hc, Hv. split; [done|]. split; [done|]. split; [done|]. destruct res; [done|].
  destruct Hres as [-> ->]. done.
Qed.
Next Obligation.
  intros r m tok k a Hok Ha Hk Hm. simpl. unfold stub_authorize.
  rewrite (proj2 (seq_Returns _ _ ()) (conj (proj2 (assert_key_Returns k ()) Hk) (proj1 (money_checks m) Hm))).
  simpl in Ha. by rewrite Ha.
Qed.
Next Obligation.
  intros r a k res r' Hok Hres0. destruct (stub_capture_law _ _ _ _ _ Hok Hres0) as (? & Hc & Hv & Hres).
  rewrite Hc, Hv. split; [done|]. split; [done|]. split; [done|]. destruct res; [done|].
  destruct Hres as (-> & -> & ->). done.
Qed.
Next Obligation.
  intros r a k rc Hok Ha Hk. simpl. unfold stub_capture. rewrite (proj2 (assert_key_Returns k ()) Hk).
  simpl in Ha. by rewrite Ha.
Qed.
Next Obligation.
  intros r a k res r' Hok Hres0. destruct (stub_void_law _ _ _ _ _ Hok Hres0) as (? & Hc & Hv & Hres).
  rewrite Hc, Hv. done.
Qed.
End contract.
