(* ===== verification/SubmitStub.v ===== *)
(** * The in-memory submit transport and offline queue

    [stubSubmitTransport] (src/src/adapters/stub/submit-transport.ts) and
    [stubOfflineSubmitQueue] (offline-submit-queue.ts), the queue as a step
    relation: [replay] awaits the transport between entries, so that enqueues
    and other replays interleave with it. *)

From S2P Require Import Prelude JsValue FeatureKeys Resolver ExtractForm IdempotencyKey Submission PaymentStub.
From Stdlib Require Import Ascii.

(** ** The transport's contract *)

Class SubmitTransportContract (H T : Type) `{!SubmitTransport H T} := {
  transport_ok : T → Prop;
  settled : T → string → option SubmitConfirmation;
  submit_law t h k res t' :
    transport_ok t → submit h k t = (res, t') →
    transport_ok t' ∧
    (∀ k' c, settled t k' = Some c → settled t' k' = Some c) ∧
    match res with Returns c => settled t' k = Some c | Throws _ => settled t k = None end;
  (** same key, same response, whatever the handoff *)
  submit_again t h k c : transport_ok t → settled t k = Some c → submit h k t = (Returns c, t)
}.

(** ** The stub transport *)

Record StubTransport : Type := { st_replay : gmap string SubmitConfirmation; st_counter : N }.

Definition stubSubmitTransport : StubTransport := {| st_replay := ∅; st_counter := 0 |}.

Section transport.
Context {H : Type} `{!UuidPackage}.

Definition stub_submit (handoff : H) (idempotencyKey : string) : action StubTransport SubmitConfirmation := λ t,
  match lift_error (assertUuidV7IdempotencyKey idempotencyKey) with
  | Throws e => (Throws e, t)
  | Returns _ =>
      match st_replay t !! idempotencyKey with
      | Some existing => (Returns existing, t)
      | None =>
          let counter := (st_counter t + 1)%N in
          let refTail := padStart 6 "0"%char (pretty counter) in
          let confirmation :=
            {| conf_recordKind := None; conf_referenceNumber := "STUB-" +:+ refTail;
               conf_status := AcceptedStatus; conf_trackingUri := None;
               conf_caseUrn := Some ("urn:wos:case_demo_" +:+ refTail) |} in
          (Returns confirmation,
           {| st_replay := <[idempotencyKey := confirmation]> (st_replay t); st_counter := counter |})
      end
  end.

#[export] Instance StubTransport_submit : SubmitTransport H StubTransport := stub_submit.

Definition stub_transport_ok (t : StubTransport) : Prop :=
  ∀ k c, st_replay t !! k = Some c → isUuidV7IdempotencyKey k = true.

#[export] Program Instance StubTransport_contract : SubmitTransportContract H StubTransport :=
  {| transport_ok := stub_transport_ok; settled := λ t k, st_replay t !! k |}.
Next Obligation.
  intros t h k res t' Hok. unfold submit, StubTransport_submit, stub_submit.
  destruct (lift_error _) as [[]|e] eqn:Hk.
  - apply assert_key_Returns in Hk. destruct (st_replay t !! k) as [c|] eqn:Ec; [by intros [= <- <-]|].
    intros [= <- <-]. split; [|split].
    + intros k' c. simpl. destruct (decide (k' = k)) as [->|]; [done|]. rewrite lookup_insert_ne by done. apply Hok.
    + intros k' c Hc. simpl. rewrite lookup_insert_ne by congruence. done.
    + simpl. by rewrite lookup_insert_eq.
  - intros [= <- <-]. split; [done|]. split; [done|].
    destruct (st_replay t !! k) as [c|] eqn:Ec; [|done].
    apply Hok in Ec. apply (assert_key_Returns k ()) in Ec. congruence.
Qed.
Next Obligation.
  intros t h k c Hok Hc. unfold submit, StubTransport_submit, stub_submit.
  rewrite (proj2 (assert_key_Returns k ()) (Hok _ _ Hc)). simpl in Hc. by rewrite Hc.
Qed.
End transport.

(** ** The stub offline queue *)

Section queue.
Context {H T : Type} `{!SubmitTransport H T, !UuidPackage}.

Inductive ReplayOutcome : Type :=
  | Sent (idempotencyKey : string) (confirmation : SubmitConfirmation)
  | Failed (idempotencyKey : string) (e : thrown).

Definition outcome_key (o : ReplayOutcome) : string :=
  match o with Sent k _ => k | Failed k _ => k end.

(** The closure variables: [order] and [byKey]. *)
Record StubQueue : Type := { q_order : list string; q_byKey : gmap string (QueuedSubmit H) }.

Definition stubOfflineSubmitQueue : StubQueue := {| q_order := []; q_byKey := ∅ |}.

(** [enqueue] at the wall clock [now]. *)
Definition stub_enqueue (now : string) (handoff : H) (idempotencyKey : string) : action StubQueue (QueuedSubmit H) := λ q,
  match lift_error (assertUuidV7IdempotencyKey idempotencyKey) with
  | Throws e => (Throws e, q)
  | Returns _ =>
      match q_byKey q !! idempotencyKey with
      | Some existing => (Returns existing, q)
      | None =>
          let queued :=
            {| queued_idempotencyKey := idempotencyKey; queued_handoff := handoff; queued_enqueuedAt := now |} in
          (Returns queued,
           {| q_order := q_order q ++ [idempotencyKey]; q_byKey := <[idempotencyKey := queued]> (q_byKey q) |})
      end
  end.

Definition pending (q : StubQueue) : list (QueuedSubmit H) := omap (λ key, q_byKey q !! key) (q_order q).

Definition _internalPendingCount (q : StubQueue) : nat := length (q_order q).

(** [order.splice(order.indexOf(key), 1)] when present: the first occurrence. *)
Fixpoint remove_first (key : string) (l : list string) : list string :=
  match l with
  | [] => []
  | k :: l' => if String.eqb k key then l' else k :: remove_first key l'
  end.

(** What a settled submission does to the queue. *)
Definition settle_entry (key : string) (res : outcome thrown SubmitConfirmation) (q : StubQueue)
    : ReplayOutcome * StubQueue :=
  match res with
  | Returns confirmation =>
      (Sent key confirmation, {| q_order := remove_first key (q_order q); q_byKey := delete key (q_byKey q) |})
  | Throws e => (Failed key e, q)
  end.

(** One uninterrupted [replay]: the loop over the snapshot of [order]. *)
Fixpoint replay_loop (snapshot : list string) (q : StubQueue) (t : T) : list ReplayOutcome * StubQueue * T :=
  match snapshot with
  | [] => ([], q, t)
  | key :: rest =>
      match q_byKey q !! key with
      | None => replay_loop rest q t
      | Some entry =>
          let '(res, t') := submit (queued_handoff entry) (queued_idempotencyKey entry) t in
          let '(o, q') := settle_entry key res q in
          let '(os, q'', t'') := replay_loop rest q' t' in
          (o :: os, q'', t'')
      end
  end.

Definition replay (q : StubQueue) (t : T) : list ReplayOutcome * StubQueue * T := replay_loop (q_order q) q t.

(** A replay in progress: the keys left of its snapshot, the entry whose
    submission it awaits, the outcomes so far. *)
Record ReplayRun : Type := {
  run_rest : list string;
  run_waiting : option (string * QueuedSubmit H);
  run_outcomes : list ReplayOutcome
}.

(** The whole system: the queue, the replays in progress, and the submissions
    made and confirmed so far. *)
Record QueueSystem : Type := {
  sys_queue : StubQueue;
  sys_runs : list ReplayRun;
  sys_enqueued : list (QueuedSubmit H);
  sys_submitted : list (string * H);
  sys_sent : list string
}.

Definition initial_system : QueueSystem :=
  {| sys_queue := stubOfflineSubmitQueue; sys_runs := []; sys_enqueued := []; sys_submitted := []; sys_sent := [] |}.

(** What may happen next: an enqueue, a new replay, a replay skipping a key
    already gone, a replay handing an entry to the transport, and the transport
    settling it, in any way. *)
Inductive queue_step : QueueSystem → QueueSystem → Prop :=
  | step_enqueue s now handoff key queued q' :
      stub_enqueue now handoff key (sys_queue s) = (Returns queued, q') →
      queue_step s
        {| sys_queue := q'; sys_runs := sys_runs s; sys_enqueued := sys_enqueued s ++ [queued];
           sys_submitted := sys_submitted s; sys_sent := sys_sent s |}
  | step_replay s :
      queue_step s
        {| sys_queue := sys_queue s;
           sys_runs := sys_runs s ++ [{| run_rest := q_order (sys_queue s); run_waiting := None; run_outcomes := [] |}];
           sys_enqueued := sys_enqueued s; sys_submitted := sys_submitted s; sys_sent := sys_sent s |}
  | step_skip s l1 l2 key rest os :
      sys_runs s = l1 ++ {| run_rest := key :: rest; run_waiting := None; run_outcomes := os |} :: l2 →
      q_byKey (sys_queue s) !! key = None →
      queue_step s
        {| sys_queue := sys_queue s;
           sys_runs := l1 ++ {| run_rest := rest; run_waiting := None; run_outcomes := os |} :: l2;
           sys_enqueued := sys_enqueued s; sys_submitted := sys_submitted s; sys_sent := sys_sent s |}
  | step_dispatch s l1 l2 key rest os entry :
      sys_runs s = l1 ++ {| run_rest := key :: rest; run_waiting := None; run_outcomes := os |} :: l2 →
      q_byKey (sys_queue s) !! key = Some entry →
      queue_step s
        {| sys_queue := sys_queue s;
           sys_runs := l1 ++ {| run_rest := rest; run_waiting := Some (key, entry); run_outcomes := os |} :: l2;
           sys_enqueued := sys_enqueued s;
           sys_submitted := sys_submitted s ++ [(queued_idempotencyKey entry, queued_handoff entry)];
           sys_sent := sys_sent s |}
  | step_settle s l1 l2 key entry rest os res o q' :
      sys_runs s = l1 ++ {| run_rest := rest; run_waiting := Some (key, entry); run_outcomes := os |} :: l2 →
      settle_entry key res (sys_queue s) = (o, q') →
      queue_step s
        {| sys_queue := q';
           sys_runs := l1 ++ {| run_rest := rest; run_waiting := None; run_outcomes := os ++ [o] |} :: l2;
           sys_enqueued := sys_enqueued s; sys_submitted := sys_submitted s;
           sys_sent := match res with Returns _ => sys_sent s ++ [key] | Throws _ => sys_sent s end |}.

Definition reachable (s : QueueSystem) : Prop := rtc queue_step initial_system s.
End queue.

Arguments StubQueue : clear implicits.
Arguments QueueSystem : clear implicits.
Arguments ReplayRun : clear implicits.
