(* ===== verification/SubmissionTheorems.v ===== *)
(** * Theorems of submission

    What one payment attempt leaves behind over any conforming rail, what a
    retry does, and what the offline queue keeps whatever the interleaving of
    enqueues and replays. *)

From S2P Require Import Prelude JsValue FeatureKeys MultiPartyPolicy SafeAddressPolicy RecordLifecyclePolicy Resolver ExtractForm IdempotencyKey Submission PaymentStub SubmitStub.

(** ** Payment *)

Section payment_theorems.
Context {H R T : Type} `{!PaymentRailAdapter R, !SubmitTransport H T, !UuidPackage, !Digest,
  !PaymentRailContract R, !SubmitTransportContract H T}.
Implicit Types (input : SubmitWithPaymentInput H) (plan : PaymentPlan) (r : R) (t : T).

Lemma submitWithPayment_Returns input r t o r' t' :
  submitWithPayment input r t = (Returns o, r', t') →
  ∃ plan, payment_plan input = Returns plan ∧ run_plan input plan r t = (o, r', t').
Proof.
  unfold submitWithPayment. destruct (payment_plan input) as [plan|e]; [|done].
  destruct (run_plan input plan r t) as [[o' r1] t1] eqn:E. intros [= <- <- <-]. eauto.
Qed.

Lemma resolveRailKey_valid ov base call k :
  resolveRailKey ov base call = Returns k → isUuidV7IdempotencyKey k = true.
Proof.
  unfold resolveRailKey. destruct ov as [k'|].
  - rewrite seq_Returns. intros [Hk%assert_key_Returns [= <-]]. done.
  - unfold deriveUuidV7FromString. destruct (assertUuidV7IdempotencyKey _) as [[]|] eqn:E; simpl; [|done].
    intros [= <-]. apply (assert_key_Returns _ ()). by rewrite E.
Qed.

Lemma payment_plan_ok input plan :
  payment_plan input = Returns plan →
  Payment ∈ p_enabled (sp_profile input) ∧ extractPaymentAmount (sp_definition input) = Some (plan_amount plan) ∧
  money_ok (plan_amount plan) ∧
  isUuidV7IdempotencyKey (plan_authorizeKey plan) = true ∧
  isUuidV7IdempotencyKey (plan_captureKey plan) = true ∧ isUuidV7IdempotencyKey (plan_voidKey plan) = true.
Proof.
  unfold payment_plan. rewrite seq_Returns, throw_when_Returns, negb_false_iff, bool_decide_eq_true.
  intros [Hen Hm]. apply bind_Returns in Hm as (m & Hm & (tok & _ & (ka & Hka & (kc & Hkc & (kv & Hkv & [= <-])
    %bind_Returns)%bind_Returns)%bind_Returns)%bind_Returns).
  destruct (extractPaymentAmount (sp_definition input)) as [m'|] eqn:Em; [|done]. injection Hm as ->.
  apply resolveRailKey_valid in Hka, Hkc, Hkv.
  split; [done|]. split; [done|]. split; [|done].
  unfold extractPaymentAmount in Em. destruct (_ || _); [done|].
  destruct (as_integer _) as [n|]; [|done]. destruct (Z.ltb_spec n 0) as [|Hn]; [done|].
  destruct (prop _ "currency") as [| | | |c| |]; try done. destruct (nonempty c) eqn:Hc; [|done].
  injection Em as <-. by apply nonempty_spec in Hc.
Qed.

(** C1.  Pay and submit succeed or fail together: over any rail that keeps the
    port's contract, an attempt with keys that have settled nothing charges the
    declared amount exactly when the transport confirmed the submission and the
    outcome says both happened; otherwise nothing is charged, and the hold, if
    one was placed, is released or left authorized exactly as the outcome says.
    No other authorization changes. *)
Theorem payment_attempt_settles input plan r t o r' t' :
  rail_ok r → payment_plan input = Returns plan → fresh_keys plan r →
  submitWithPayment input r t = (Returns o, r', t') →
  rail_ok r' ∧ attempt_settles input plan r t o r' t' ∧
  (∀ i, status_of r i ≠ Some Captured → status_of r' i = Some Captured →
     ∃ conf rc, o = SubmittedWithPayment conf rc ∧ i = receipt_authorizationId rc ∧
       submit (sp_handoff input) (sp_idempotencyKey input) t = (Returns conf, t')).
Proof.
  intros Hok Hplan Hfr (plan' & Hplan' & Hrun)%submitWithPayment_Returns.
  rewrite Hplan in Hplan'. injection Hplan' as <-.
  destruct (run_plan_settles _ _ _ _ _ _ _ Hok Hfr Hrun) as [Hok' Hset]. split; [done|]. split; [done|].
  intros i Hi Hi'. destruct o as [conf rc|e|a e|a e e'|conf a e]; simpl in Hset.
  - destruct Hset as (Hs & _ & _ & _ & Hother). exists conf, rc. split; [done|]. split; [|done].
    destruct (decide (i = receipt_authorizationId rc)) as [|Hne]; [done|].
    rewrite Hother in Hi' by done. congruence.
  - destruct Hset as [Hs _]. rewrite Hs in Hi'. congruence.
  - destruct Hset as (_ & _ & Hv & Hother). destruct (decide (i = auth_id a)) as [->|Hne]; [congruence|].
    rewrite Hother in Hi' by done. congruence.
  - destruct Hset as (_ & _ & Hv & Hother). destruct (decide (i = auth_id a)) as [->|Hne]; [congruence|].
    rewrite Hother in Hi' by done. congruence.
  - destruct Hset as (_ & _ & Hv & Hother). destruct (decide (i = auth_id a)) as [->|Hne]; [congruence|].
    rewrite Hother in Hi' by done. congruence.
Qed.

(** Retrying a completed payment changes nothing: the same input returns
    the same confirmation and receipt, and neither the rail nor the transport
    moves (no second hold, charge or submission). *)
Theorem payment_retry_idempotent input r t conf rc r' t' :
  rail_ok r → transport_ok t →
  submitWithPayment input r t = (Returns (SubmittedWithPayment conf rc), r', t') →
  submitWithPayment input r' t' = (Returns (SubmittedWithPayment conf rc), r', t').
Proof.
  intros Hok Htok (plan & Hplan & Hrun)%submitWithPayment_Returns.
  destruct (payment_plan_ok _ _ Hplan) as (_ & _ & Hm & Hka & Hkc & _).
  unfold submitWithPayment. rewrite Hplan. unfold run_plan in *.
  destruct (authorize _ _ _ r) as [[a|e] r1] eqn:Ea; [|done].
  apply authorize_law in Ea as (Hok1 & _ & _ & Ha & _); [|done].
  destruct (submit _ _ t) as [[conf1|se] t1] eqn:Es; [|by destruct (voidAuthorization a _ r1) as [[] ?]].
  apply submit_law in Es as (Htok1 & _ & Hset); [|done].
  destruct (capture a _ r1) as [[rc1|e] r2] eqn:Ec; [|done]. injection Hrun as -> -> -> ->.
  apply capture_law in Ec as (Hok2 & Hka' & _ & Hcap & _); [|done].
  rewrite (authorize_again r' _ _ _ a) by (done || by rewrite Hka').
  rewrite (submit_again t' _ _ conf) by done. by rewrite (capture_again r' a _ rc).
Qed.

(** A retry after a released hold submits without charging: over any rail
    that keeps the port's contract, once an attempt was voided, retrying with
    the same key gets the voided authorization back, so that when the submission
    now goes through the outcome is [capture-failed] and nothing is charged. *)
Theorem payment_retry_after_void input plan r t a e r' t' t1 conf t2 :
  rail_ok r → payment_plan input = Returns plan → fresh_keys plan r →
  submitWithPayment input r t = (Returns (SubmitFailedPaymentVoided a e), r', t') →
  submit (sp_handoff input) (sp_idempotencyKey input) t1 = (Returns conf, t2) →
  ∃ e' r2, submitWithPayment input r' t1 = (Returns (CaptureFailed conf a e'), r2, t2) ∧
    status_of r2 (auth_id a) = Some Voided.
Proof.
  intros Hok Hplan (Hfa & Hfc & Hfv) (plan' & Hplan' & Hrun)%submitWithPayment_Returns Hsub.
  rewrite Hplan in Hplan'. injection Hplan' as <-.
  destruct (payment_plan_ok _ _ Hplan) as (_ & _ & Hm & Hka & Hkc & _).
  unfold submitWithPayment. rewrite Hplan. unfold run_plan in *.
  destruct (authorize _ _ _ r) as [[a1|e1] r1] eqn:Ea; [|done].
  apply authorize_law in Ea as (Hok1 & Hc1 & Hv1 & Ha & Hnew); [|done].
  destruct Hnew as [[? _]|(_ & _ & _ & Hst & _)]; [congruence|].
  destruct (submit _ _ t) as [[conf1|se] t3] eqn:Es; [by destruct (capture a1 _ r1) as [[] ?]|].
  destruct (voidAuthorization a1 _ r1) as [[u|ve] r3] eqn:Ev; [|done]. injection Hrun as -> -> -> ->.
  apply void_law in Ev as (Hok3 & Ha3 & Hc3 & _ & Hvoid); [|done].
  destruct Hvoid as [[? _]|(_ & _ & _ & Hvo & _)]; [congruence|].
  rewrite (authorize_again r' _ _ _ a) by (done || by rewrite Ha3).
  rewrite Hsub. destruct (capture a (plan_captureKey plan) r') as [[rc|ce] r2] eqn:Ec;
    apply capture_law in Ec as (_ & _ & _ & Hc); try done.
  - destruct Hc as (_ & [[? _]|(_ & _ & _ & Hau & _)]); [rewrite Hc3, Hc1 in *; congruence|].
    rewrite Hvo in Hau by eauto. done.
  - exists ce, r2. split; [done|]. destruct Hc as (_ & _ & Hs). rewrite Hs. apply Hvo. eauto.
Qed.

(** The orchestration refuses to start, with the rail and the transport
    untouched, exactly when payment is not enabled, the form declares no
    well-formed amount, no method token is available, or a rail key is not a
    UUIDv7. *)
Theorem payment_refuses_untouched input r t :
  (∃ e, submitWithPayment input r t = (Throws e, r, t)) ↔
  ¬ ∃ tok ka kc kv,
      Payment ∈ p_enabled (sp_profile input) ∧ is_Some (extractPaymentAmount (sp_definition input)) ∧
      readMethodToken input = Returns tok ∧
      resolveRailKey (sp_authorizeKey input) (sp_idempotencyKey input) AuthorizeCall = Returns ka ∧
      resolveRailKey (sp_captureKey input) (sp_idempotencyKey input) CaptureCall = Returns kc ∧
      resolveRailKey (sp_voidKey input) (sp_idempotencyKey input) VoidCall = Returns kv.
Proof.
  assert ((∃ plan, payment_plan input = Returns plan) ↔ ∃ tok ka kc kv,
      Payment ∈ p_enabled (sp_profile input) ∧ is_Some (extractPaymentAmount (sp_definition input)) ∧
      readMethodToken input = Returns tok ∧
      resolveRailKey (sp_authorizeKey input) (sp_idempotencyKey input) AuthorizeCall = Returns ka ∧
      resolveRailKey (sp_captureKey input) (sp_idempotencyKey input) CaptureCall = Returns kc ∧
      resolveRailKey (sp_voidKey input) (sp_idempotencyKey input) VoidCall = Returns kv) as <-.
  { unfold payment_plan. setoid_rewrite seq_Returns. setoid_rewrite throw_when_Returns.
    setoid_rewrite negb_false_iff. setoid_rewrite bool_decide_eq_true. split.
    - intros (plan & Hen & (m & Hm & (tok & Htok & (ka & Hka & (kc & Hkc & (kv & Hkv & _)
        %bind_Returns)%bind_Returns)%bind_Returns)%bind_Returns)%bind_Returns).
      exists tok, ka, kc, kv. split; [done|]. split; [by destruct (extractPaymentAmount _)|]. done.
    - intros (tok & ka & kc & kv & Hen & [m Hm] & Htok & Hka & Hkc & Hkv). rewrite Hm, Htok, Hka, Hkc, Hkv.
      eexists. by split. }
  unfold submitWithPayment. destruct (payment_plan input) as [plan|e]; split.
  - destruct (run_plan input plan r t) as [[o r'] t']. by intros [e ?].
  - intros []. by exists plan.
  - by intros _ [plan ?].
  - intros _. by exists e.
Qed.
End payment_theorems.

(** ** A concrete attempt, over the stub rail and transport *)

Section samples.
Local Instance uuid_for_samples : UuidPackage := sample_uuid.
Local Instance digest_for_samples : Digest := sample_digest.

Definition sample_profile : ResolvedRuntimeProfile :=
  {| p_mode := Demo; p_enabled := {[Payment; OfflineSubmit]}; p_disabled := ∅; p_limits := ∅;
     p_recordLifecycle := None; p_multiParty := None; p_safeAddress := None |}.

Definition sample_paid_form : FormDefinition :=
  {| def_items := None;
     def_extensions := JObj [("x-formspec-payment-amount",
       JObj [("amountMinorUnits", JNum (NInt 2500)); ("currency", JStr "USD")])];
     def_governance := JUndef; def_parties := JUndef |}.

Definition sample_key : string := "018f3c2e-7a10-7b32-8c44-5d6e7f809a1b".

Definition sample_payment (key : string) : SubmitWithPaymentInput string :=
  {| sp_profile := sample_profile; sp_definition := sample_paid_form; sp_handoff := "handoff";
     sp_idempotencyKey := key; sp_methodToken := None; sp_authorizeKey := None; sp_captureKey := None;
     sp_voidKey := None |}.

Definition sample_rail : StubRail := stubPaymentRailAdapter None.

Definition sample_run (key : string) :=
  submitWithPayment (H := string) (sample_payment key) sample_rail stubSubmitTransport.

(** A transport that is down for a number of calls, then up. *)
Definition flaky_confirmation : SubmitConfirmation :=
  {| conf_recordKind := None; conf_referenceNumber := "R"; conf_status := AcceptedStatus;
     conf_trackingUri := None; conf_caseUrn := None |}.
Definition flaky_submit : SubmitTransport string nat := λ h k n,
  match n with
  | 0 => (Returns flaky_confirmation, 0)
  | S n' => (error "network down", n')
  end.

(** The outcome of a run, for evaluation. *)
Definition run_kind {R T} (x : outcome thrown SubmitWithPaymentOutcome * R * T) : string :=
  match x.1.1 with
  | Returns (SubmittedWithPayment _ _) => "submitted-with-payment"
  | Returns (AuthorizeFailed _) => "authorize-failed"
  | Returns (SubmitFailedPaymentVoided _ _) => "submit-failed-payment-voided"
  | Returns (VoidFailedAfterSubmitFailure _ _ _) => "void-failed-after-submit-failure"
  | Returns (CaptureFailed _ _ _) => "capture-failed"
  | Throws _ => "throws"
  end.

Lemma sample_plan : ∃ plan, payment_plan (sample_payment sample_key) = Returns plan.
Proof. apply returned_Returns. vm_compute. reflexivity. Qed.

Lemma run_kind_paid {R T} (x : outcome thrown SubmitWithPaymentOutcome * R * T) :
  run_kind x = "submitted-with-payment" → ∃ conf rc r t, x = (Returns (SubmittedWithPayment conf rc), r, t).
Proof. destruct x as [[[[]|] ?] ?]; try discriminate. eauto. Qed.

Lemma run_kind_voided {R T} (x : outcome thrown SubmitWithPaymentOutcome * R * T) :
  run_kind x = "submit-failed-payment-voided" → ∃ a e r t, x = (Returns (SubmitFailedPaymentVoided a e), r, t).
Proof. destruct x as [[[[]|] ?] ?]; try discriminate. eauto. Qed.

Lemma payment_attempt_settles_witness :
  ∃ plan conf rc r' t', payment_plan (sample_payment sample_key) = Returns plan ∧
    sample_run sample_key = (Returns (SubmittedWithPayment conf rc), r', t') ∧
    attempt_settles (sample_payment sample_key) plan sample_rail stubSubmitTransport
      (SubmittedWithPayment conf rc) r' t'.
Proof.
  destruct sample_plan as [plan Hplan].
  destruct (run_kind_paid (sample_run sample_key)) as (conf & rc & r' & t' & Hrun); [vm_compute; reflexivity|].
  exists plan, conf, rc, r', t'. split; [exact Hplan|]. split; [exact Hrun|].
  exact (proj1 (proj2 (payment_attempt_settles (sample_payment sample_key) plan sample_rail stubSubmitTransport
    _ r' t' (stub_initial_ok None) Hplan (conj eq_refl (conj eq_refl eq_refl)) Hrun))).
Defined.

Lemma stub_transport_initial_ok : transport_ok (H := string) stubSubmitTransport.
Proof. intros k c Hc. simpl in Hc. by apply lookup_empty_Some in Hc. Qed.

Lemma payment_retry_idempotent_witness :
  ∃ conf rc r' t', sample_run sample_key = (Returns (SubmittedWithPayment conf rc), r', t') ∧
    submitWithPayment (H := string) (sample_payment sample_key) r' t' =
      (Returns (SubmittedWithPayment conf rc), r', t').
Proof.
  destruct (run_kind_paid (sample_run sample_key)) as (conf & rc & r' & t' & Hrun); [vm_compute; reflexivity|].
  exists conf, rc, r', t'. split; [exact Hrun|].
  exact (payment_retry_idempotent (sample_payment sample_key) sample_rail stubSubmitTransport conf rc r' t'
           (stub_initial_ok None) stub_transport_initial_ok Hrun).
Defined.

Definition flaky_run : outcome thrown SubmitWithPaymentOutcome * StubRail * nat :=
  @submitWithPayment string StubRail nat _ flaky_submit _ _ (sample_payment sample_key) sample_rail 1.

Lemma payment_retry_after_void_witness :
  ∃ a e r' t' conf e' r2 t2, flaky_run = (Returns (SubmitFailedPaymentVoided a e), r', t') ∧
    @submitWithPayment string StubRail nat _ flaky_submit _ _ (sample_payment sample_key) r' 0 =
      (Returns (CaptureFailed conf a e'), r2, t2) ∧
    status_of r2 (auth_id a) = Some Voided.
Proof.
  destruct sample_plan as [plan Hplan].
  destruct (run_kind_voided flaky_run) as (a & e & r' & t' & Hrun); [vm_compute; reflexivity|].
  destruct (@payment_retry_after_void string StubRail nat _ flaky_submit _ _ StubRail_contract
    (sample_payment sample_key) plan sample_rail 1 a e r' t' 0 _ 0 (stub_initial_ok None) Hplan
    (conj eq_refl (conj eq_refl eq_refl)) Hrun eq_refl) as (e' & r2 & Hr & Hs).
  exists a, e, r', t', flaky_confirmation, e', r2, 0. split; [exact Hrun|]. split; [exact Hr|exact Hs].
Defined.
End samples.

(** ** The offline queue *)

Section queue_theorems.
Context {H T : Type} `{!SubmitTransport H T, !UuidPackage}.
Implicit Types (q : StubQueue H) (s : QueueSystem H).

(** [order] lists each pending key once, and every entry is stored under its
    own key. *)
Record queue_ok q : Prop := {
  ok_order : NoDup (q_order q);
  ok_keys k : k ∈ q_order q ↔ is_Some (q_byKey q !! k);
  ok_entries k e : q_byKey q !! k = Some e → queued_idempotencyKey e = k
}.

Lemma remove_first_filter k l : NoDup l → remove_first k l = List.filter (λ x, negb (String.eqb x k)) l.
Proof.
  induction 1 as [|x l Hx Hnd IH]; simpl; [done|]. destruct (String.eqb x k) eqn:E; simpl; [|by rewrite IH].
  split_andb. subst. clear -Hx. induction l as [|y l IH]; [done|]. apply not_elem_of_cons in Hx as [Hne Hx].
  simpl. rewrite (proj2 (String.eqb_neq y k)) by done. simpl. f_equal. by apply IH.
Qed.

Lemma elem_of_remove_first k l x : NoDup l → x ∈ remove_first k l ↔ x ∈ l ∧ x ≠ k.
Proof. intros Hnd. rewrite remove_first_filter, elem_of_filterb, negb_true_iff, String.eqb_neq; done. Qed.

Lemma NoDup_filterb {A} (f : A → bool) l : NoDup l → NoDup (List.filter f l).
Proof.
  induction 1 as [|x l Hx Hnd IH]; simpl; [constructor|]. destruct (f x); [|done].
  constructor; [|done]. intros [? _]%elem_of_filterb. done.
Qed.

Lemma enqueue_ok q now h k e q' :
  queue_ok q → stub_enqueue now h k q = (Returns e, q') →
  queue_ok q' ∧ queued_idempotencyKey e = k ∧ q_byKey q' = <[k := e]> (q_byKey q) ∧
  match q_byKey q !! k with
  | Some e0 => e = e0 ∧ q' = q
  | None => queued_handoff e = h ∧ q_order q' = q_order q ++ [k]
  end.
Proof.
  intros [Hnd Hk He]. unfold stub_enqueue. destruct (lift_error _) as [u|x]; [|done].
  destruct (q_byKey q !! k) as [e'|] eqn:E.
  - intros [= <- <-]. split; [by constructor|]. split; [by apply He|]. split; [by rewrite insert_id|done].
  - intros [= <- <-]. simpl. split; [|done]. split; simpl.
    + apply NoDup_app. split; [done|]. split; [|apply NoDup_singleton].
      intros x Hx ->%list_elem_of_singleton. apply Hk in Hx as [? ?]. congruence.
    + intros k'. rewrite elem_of_app, list_elem_of_singleton, Hk.
      destruct (decide (k' = k)) as [->|]; [rewrite lookup_insert_eq|rewrite lookup_insert_ne by done];
        [by split; [eauto|right]|]. split; [by intros [?|?]|by left].
    + intros k' e'. destruct (decide (k' = k)) as [->|]; [rewrite lookup_insert_eq; by intros [= <-]|].
      rewrite lookup_insert_ne by done. apply He.
Qed.

Lemma settle_ok q key res o q' :
  queue_ok q → settle_entry key res q = (o, q') →
  queue_ok q' ∧ outcome_key o = key ∧
  match res with
  | Returns c => o = Sent key c ∧ q_byKey q' = delete key (q_byKey q) ∧
      q_order q' = List.filter (λ x, negb (String.eqb x key)) (q_order q)
  | Throws e => o = Failed key e ∧ q' = q
  end.
Proof.
  intros [Hnd Hk He]. destruct res as [c|e]; simpl; intros [= <- <-]; [|by split; [constructor|]].
  split; [|split; [done|]]; simpl; [|by rewrite remove_first_filter].
  split; simpl.
  - rewrite remove_first_filter by done. by apply NoDup_filterb.
  - intros k. rewrite elem_of_remove_first, Hk by done.
    destruct (decide (k = key)) as [->|]; [rewrite lookup_delete_eq|by rewrite lookup_delete_ne; naive_solver].
    split; [by intros [? []]|by intros [? ?]].
  - intros k e Hke. apply lookup_delete_Some in Hke as [_ ?]. by apply He.
Qed.

(** What holds of the system at every moment. *)
Record system_ok s : Prop := {
  sys_queue_ok : queue_ok (sys_queue s);
  sys_entries k e : q_byKey (sys_queue s) !! k = Some e → e ∈ sys_enqueued s;
  sys_waiting run k e : run ∈ sys_runs s → run_waiting run = Some (k, e) →
    queued_idempotencyKey e = k ∧ e ∈ sys_enqueued s;
  sys_verbatim k h : (k, h) ∈ sys_submitted s →
    ∃ e, e ∈ sys_enqueued s ∧ queued_idempotencyKey e = k ∧ queued_handoff e = h;
  sys_kept e : e ∈ sys_enqueued s →
    is_Some (q_byKey (sys_queue s) !! queued_idempotencyKey e) ∨ queued_idempotencyKey e ∈ sys_sent s
}.

Lemma initial_system_ok : system_ok initial_system.
Proof.
  split; simpl; try done; try (by intros ? ? ?%elem_of_nil); try (by intros ? ?%elem_of_nil);
    try (by intros ? ? ? ?%elem_of_nil).
  split; simpl; [constructor| |done]. intros k. rewrite elem_of_nil. by split; [|intros [? ?]].
Qed.

(** Membership in the runs around the one that steps. *)
Ltac in_runs Hr := solve [rewrite Hr, elem_of_app, elem_of_cons; auto].

Lemma step_ok s s' : system_ok s → queue_step s s' → system_ok s'.
Proof.
  intros [Hq Hent Hw Hver Hkept] Hstep.
  destruct Hstep as [s now h key e q' Henq|s|s l1 l2 key rest os Hr Hn|s l1 l2 key rest os e Hr He|
    s l1 l2 key e rest os res o q' Hr Hset]; simpl in *.
  - apply enqueue_ok in Henq as (Hq' & Hek & Hby & _); [|done].
    split; simpl; [done|..].
    + intros k e'. rewrite Hby, elem_of_app, list_elem_of_singleton.
      intros [[_ <-]|[_ ?]]%lookup_insert_Some; [by right|left; by apply (Hent k)].
    + intros run k e' Hrun Hwait. destruct (Hw run k e' Hrun Hwait). split; [done|]. apply elem_of_app. by left.
    + intros k h' Hkh. destruct (Hver k h' Hkh) as (e' & ? & ?). exists e'. split; [apply elem_of_app; by left|done].
    + intros e' [He'|He'%list_elem_of_singleton]%elem_of_app; rewrite Hby.
      * destruct (Hkept e' He') as [Hs|?]; [left|by right].
        destruct (decide (queued_idempotencyKey e' = key)) as [->|];
          [rewrite lookup_insert_eq; eauto|by rewrite lookup_insert_ne].
      * left. subst e'. rewrite Hek, lookup_insert_eq. eauto.
  - split; simpl; try done. intros run k e [Hrun|Hrun%list_elem_of_singleton]%elem_of_app; [by apply Hw|].
    by subst run.
  - split; simpl; try done. intros run k e. rewrite elem_of_app, elem_of_cons.
    intros [?|[->|?]]; try done; apply Hw; in_runs Hr.
  - split; simpl; try done.
    + intros run k e'. rewrite elem_of_app, elem_of_cons.
      intros [?|[->|?]]; try (apply Hw; in_runs Hr).
      intros [= <- <-]. split; [by apply (ok_entries _ Hq)|by apply (Hent key)].
    + intros k h [?|Hkh%list_elem_of_singleton]%elem_of_app; [by apply Hver|]. injection Hkh as -> ->.
      exists e. split; [by apply (Hent key)|done].
  - destruct (settle_ok _ _ _ _ _ Hq Hset) as (Hq' & _ & Hres).
    assert (∀ run k e', run ∈ l1 ++ {| run_rest := rest; run_waiting := None; run_outcomes := os ++ [o] |} :: l2 →
      run_waiting run = Some (k, e') → queued_idempotencyKey e' = k ∧ e' ∈ sys_enqueued s) as Hw'.
    { intros run k e'. rewrite elem_of_app, elem_of_cons.
      intros [?|[->|?]]; try done; apply Hw; in_runs Hr. }
    destruct res as [c|x].
    + destruct Hres as (_ & Hby & _). split; simpl; try done.
      * intros k e'. rewrite Hby. intros [_ ?]%lookup_delete_Some. by apply (Hent k).
      * intros e' He'. rewrite Hby, elem_of_app, list_elem_of_singleton.
        destruct (decide (queued_idempotencyKey e' = key)) as [->|]; [right; by right|].
        rewrite lookup_delete_ne by done. destruct (Hkept e' He'); [by left|right; by left].
    + destruct Hres as (_ & ->). by split.
Qed.

Lemma reachable_ok s : reachable s → system_ok s.
Proof.
  intros Hr. pose proof initial_system_ok as Hi. unfold reachable in Hr. revert Hi.
  induction Hr as [|s1 s2 s3 Hstep _ IH]; [done|]. intros Hs. apply IH. by eapply step_ok.
Qed.

Lemma pending_keys q : queue_ok q → queued_idempotencyKey <$> pending q = q_order q.
Proof.
  intros [Hnd Hk He]. unfold pending.
  assert (∀ l : list string, (∀ k, k ∈ l → is_Some (q_byKey q !! k)) →
    queued_idempotencyKey <$> (omap (λ key, q_byKey q !! key) l : list _) = l) as Hl.
  { induction l as [|k l IH]; intros Hall; [done|]. destruct (Hall k) as [e Hke]; [by left|].
    csimpl. rewrite Hke. csimpl. f_equal; [by apply He|]. apply IH. intros k' ?. apply Hall. by right. }
  apply Hl. intros k. by rewrite Hk.
Qed.

(** C11.  The offline queue never loses or alters a submission, however
    enqueues, concurrent replays and settlements interleave: every handoff ever
    accepted is still pending under its key or was confirmed under that key;
    each key is pending at most once; and every submission a replay makes reuses
    the key and handoff recorded at some enqueue, verbatim. *)
Theorem queue_never_loses s :
  reachable s →
  (∀ e, e ∈ sys_enqueued s →
     queued_idempotencyKey e ∈ (queued_idempotencyKey <$> pending (sys_queue s)) ∨
     queued_idempotencyKey e ∈ sys_sent s) ∧
  NoDup (queued_idempotencyKey <$> pending (sys_queue s)) ∧
  _internalPendingCount (sys_queue s) = length (pending (sys_queue s)) ∧
  (∀ k h, (k, h) ∈ sys_submitted s →
     ∃ e, e ∈ sys_enqueued s ∧ queued_idempotencyKey e = k ∧ queued_handoff e = h).
Proof.
  intros Hs%reachable_ok. pose proof (sys_queue_ok _ Hs) as Hq.
  rewrite (pending_keys _ Hq). split; [|split; [apply ok_order, Hq|split; [|apply (sys_verbatim _ Hs)]]].
  - intros e He. destruct (sys_kept _ Hs e He) as [?|?]; [left; by apply (ok_keys _ Hq)|by right].
  - unfold _internalPendingCount. by rewrite <- (pending_keys _ Hq), length_fmap.
Qed.

Lemma replay_loop_spec l q t os q' t' :
  queue_ok q → NoDup l → (∀ k, k ∈ l → k ∈ q_order q) →
  replay_loop l q t = (os, q', t') →
  queue_ok q' ∧ outcome_key <$> os = l ∧
  (∀ k, k ∈ q_order q' ↔ k ∈ q_order q ∧ ∀ c, Sent k c ∉ os) ∧
  (∀ k, k ∈ q_order q' → q_byKey q' !! k = q_byKey q !! k).
Proof.
  revert q t os. induction l as [|key l IH]; intros q t os Hq Hnd Hin; simpl.
  - intros [= <- <- <-]. split; [done|]. split; [done|]. split; [|done]. intros k. split; [|by intros []].
    intros Hk. split; [done|]. intros c. apply not_elem_of_nil.
  - apply NoDup_cons in Hnd as [Hkey Hnd].
    destruct (proj1 (ok_keys _ Hq key) (Hin key (list_elem_of_here _ _))) as [e He]. rewrite He.
    destruct (submit _ _ t) as [res t1]. destruct (settle_entry key res q) as [o q1] eqn:Hset.
    destruct (replay_loop l q1 t1) as [[os1 q2] t2] eqn:Hloop. intros [= <- <- <-].
    destruct (settle_ok _ _ _ _ _ Hq Hset) as (Hq1 & Hok & Hres).
    assert (∀ k, k ∈ l → k ∈ q_order q1) as Hin1.
    { intros k Hk. pose proof (Hin k (list_elem_of_further _ _ _ Hk)) as Hkq. destruct res as [c|x].
      - destruct Hres as (_ & _ & ->). apply elem_of_filterb. split; [done|]. apply negb_true_iff, String.eqb_neq.
        by intros ->.
      - by destruct Hres as [_ ->]. }
    destruct (IH q1 t1 os1 Hq1 Hnd Hin1 Hloop) as (Hq2 & Hkeys & Hord & Hby).
    split; [done|]. split; [csimpl; by rewrite Hok, Hkeys|]. split.
    + intros k. rewrite Hord. destruct res as [c|x].
      * destruct Hres as (-> & _ & ->). rewrite elem_of_filterb, negb_true_iff, String.eqb_neq.
        setoid_rewrite not_elem_of_cons. split.
        -- intros [[? ?] Hns]. split; [done|]. intros c'. split; [congruence|done].
        -- intros [? Hns]. split; [split; [done|]|intros c'; apply Hns]. intros ->. by destruct (Hns c).
      * destruct Hres as [-> ->]. setoid_rewrite not_elem_of_cons. split.
        -- intros [? Hns]. split; [done|]. by split.
        -- intros [? Hns]. split; [done|]. intros c. apply Hns.
    + intros k Hk. rewrite (Hby k Hk). destruct res as [c|x]; [|by destruct Hres as [_ ->]].
      destruct Hres as (_ & -> & Hord1). apply Hord in Hk as [Hk _]. rewrite Hord1 in Hk.
      apply elem_of_filterb in Hk as [_ Hk]. rewrite negb_true_iff, String.eqb_neq in Hk.
      by rewrite lookup_delete_ne.
Qed.

(** An undisturbed replay drains the whole queue in first-in-first-out
    order, one outcome per pending entry; what stays pending afterwards is
    exactly what was not sent, unchanged. *)
Theorem replay_drains_in_order q t os q' t' :
  queue_ok q → replay q t = (os, q', t') →
  outcome_key <$> os = (queued_idempotencyKey <$> pending q) ∧ queue_ok q' ∧
  (∀ k, k ∈ q_order q' ↔ k ∈ q_order q ∧ ∀ c, Sent k c ∉ os) ∧
  (∀ k, k ∈ q_order q' → q_byKey q' !! k = q_byKey q !! k).
Proof.
  intros Hq Hr. rewrite (pending_keys _ Hq).
  destruct (replay_loop_spec (q_order q) q t os q' t' Hq (ok_order _ Hq) (λ k H, H) Hr) as (? & ? & ? & ?). done.
Qed.
End queue_theorems.

(** One entry enqueued, then a replay that hands it to the transport, which
    fails. *)
Section queue_samples.
Local Instance uuid_for_queue_samples : UuidPackage := sample_uuid.

Definition sample_entry : QueuedSubmit string :=
  {| queued_idempotencyKey := sample_key; queued_handoff := "handoff"; queued_enqueuedAt := "now" |}.

Definition sample_queue : StubQueue string :=
  {| q_order := [sample_key]; q_byKey := <[sample_key := sample_entry]> ∅ |}.

Definition enqueued_system : QueueSystem string :=
  {| sys_queue := sample_queue; sys_runs := []; sys_enqueued := [sample_entry]; sys_submitted := []; sys_sent := [] |}.

Lemma enqueued_reachable : reachable enqueued_system.
Proof.
  eapply rtc_l; [|apply rtc_refl].
  exact (step_enqueue initial_system "now" "handoff" sample_key sample_entry sample_queue eq_refl).
Qed.

Lemma queue_never_loses_witness :
  reachable enqueued_system ∧
  (queued_idempotencyKey sample_entry ∈ (queued_idempotencyKey <$> pending sample_queue) ∨
   queued_idempotencyKey sample_entry ∈ sys_sent enqueued_system).
Proof.
  split; [exact enqueued_reachable|].
  exact (proj1 (queue_never_loses enqueued_system enqueued_reachable) sample_entry (list_elem_of_here _ _)).
Defined.

Lemma replay_drains_in_order_witness :
  ∃ os q' t', @replay string nat flaky_submit sample_queue 1 = (os, q', t') ∧
    outcome_key <$> os = [sample_key].
Proof.
  destruct (@replay string nat flaky_submit sample_queue 1) as [[os q'] t'] eqn:E.
  exists os, q', t'. split; [reflexivity|].
  exact (proj1 (@replay_drains_in_order string nat flaky_submit sample_queue 1 os q' t'
    (sys_queue_ok _ (reachable_ok _ enqueued_reachable)) E)).
Defined.
End queue_samples.
