(* ===== verification/Base64.v ===== *)
(** * Base64

    [btoa] and [atob] on binary strings (one character per byte), and the
    decoder of src/src/shared/base64.ts built on them.  The decoder accepts
    exactly the canonical encodings of the non-empty byte strings within its
    cap. *)

From S2P Require Import Prelude Text.
From Stdlib Require Import Ascii.
#[local] Open Scope Z_scope.

Definition code (a : ascii) : Z := Z.of_nat (nat_of_ascii a).
Definition char (z : Z) : ascii := ascii_of_nat (Z.to_nat z).

(** The digit of a sextet. *)
Definition digit (n : Z) : ascii :=
  char (if n <? 26 then 65 + n else if n <? 52 then 71 + n else if n <? 62 then n - 4 else if n =? 62 then 43 else 47).

Definition digit_value (a : ascii) : option Z :=
  let c := code a in
  if (65 <=? c) && (c <=? 90) then Some (c - 65)
  else if (97 <=? c) && (c <=? 122) then Some (c - 71)
  else if (48 <=? c) && (c <=? 57) then Some (c + 4)
  else if c =? 43 then Some 62 else if c =? 47 then Some 63 else None.

(** [btoa(s)] for a string of characters below 256. *)
Fixpoint btoa (s : string) : string :=
  match s with
  | String a (String b (String c s')) =>
      String (digit (code a / 4)) (String (digit (code a mod 4 * 16 + code b / 16))
        (String (digit (code b mod 16 * 4 + code c / 64)) (String (digit (code c mod 64)) (btoa s'))))
  | String a (String b EmptyString) =>
      String (digit (code a / 4)) (String (digit (code a mod 4 * 16 + code b / 16))
        (String (digit (code b mod 16 * 4)) "="))
  | String a EmptyString => String (digit (code a / 4)) (String (digit (code a mod 4 * 16)) "==")
  | EmptyString => ""
  end.

(** ** [atob]: the forgiving decoder *)

Definition ascii_space (a : ascii) : bool :=
  let c := code a in (c =? 9) || (c =? 10) || (c =? 12) || (c =? 13) || (c =? 32).

Fixpoint strip_space (s : string) : string :=
  match s with EmptyString => "" | String a s' => if ascii_space a then strip_space s' else String a (strip_space s') end.

(** At most two padding characters, from the end. *)
Fixpoint strip_padding (s : string) : string :=
  match s with
  | "=" | "==" => ""
  | String a s' => String a (strip_padding s')
  | EmptyString => ""
  end.

Fixpoint digit_values (s : string) : option (list Z) :=
  match s with
  | EmptyString => Some []
  | String a s' => v ← digit_value a; l ← digit_values s'; Some (v :: l)
  end.

Fixpoint unpack (l : list Z) : option string :=
  match l with
  | [] => Some ""
  | [_] => None
  | [x; y] => Some (String (char (x * 4 + y / 16)) "")
  | [x; y; z] => Some (String (char (x * 4 + y / 16)) (String (char (y mod 16 * 16 + z / 4)) ""))
  | x :: y :: z :: w :: l' =>
      s ← unpack l';
      Some (String (char (x * 4 + y / 16)) (String (char (y mod 16 * 16 + z / 4)) (String (char (z mod 4 * 64 + w)) s)))
  end.

Definition atob (s : string) : option string :=
  let s := strip_space s in
  let s := if Z.of_nat (String.length s) mod 4 =? 0 then strip_padding s else s in
  l ← digit_values s; unpack l.

(** ** [decodeBase64] *)

(** [/^(?:[A-Za-z0-9+/]{4})*(?:[A-Za-z0-9+/]{2}==|[A-Za-z0-9+/]{3}=)?$/] *)
Definition is_digit64 (a : ascii) : bool := match digit_value a with Some _ => true | None => false end.

Fixpoint base64_shape (s : string) : bool :=
  match s with
  | EmptyString => true
  | String a (String b (String c (String d s'))) =>
      is_digit64 a && is_digit64 b
      && (is_digit64 c && is_digit64 d && base64_shape s'
          || is_digit64 c && Ascii.eqb d "=" && String.eqb s' ""
          || Ascii.eqb c "=" && Ascii.eqb d "=" && String.eqb s' "")
  | _ => false
  end.

Definition size (s : string) : Z := Z.of_nat (String.length s).

(** [Math.ceil(a / b)] for integers *)
Definition ceil_div (a b : Z) : Z := (a + b - 1) / b.

Definition decodeBase64 (encoded : string) (maxBytes : Z) : outcome string string :=
  throw_when ((4 * ceil_div maxBytes 3 <? size encoded) || negb (base64_shape encoded))
    "base64 encoding or byte cap mismatch" ;;
  match atob encoded with
  | None => Throws "The string to be decoded is not correctly encoded."
  | Some text =>
      throw_when ((size text =? 0) || (maxBytes <? size text) || negb (String.eqb (btoa text) encoded))
        "decoded byte cap or encoding mismatch" ;;
      Returns text
  end.

(** ** Lemmas *)

Lemma code_bound a : 0 <= code a < 256.
Proof. unfold code. pose proof (nat_ascii_bounded a). lia. Qed.

Lemma char_code a : char (code a) = a.
Proof. unfold char, code. by rewrite Nat2Z.id, ascii_nat_embedding. Qed.

Lemma code_char z : 0 <= z < 256 → code (char z) = z.
Proof. intros Hz. unfold char, code. rewrite nat_ascii_embedding; lia. Qed.

Lemma digit_value_digit n : 0 <= n < 64 → digit_value (digit n) = Some n.
Proof.
  intros Hn. unfold digit_value, digit.
  destruct (Z.ltb_spec n 26); [|destruct (Z.ltb_spec n 52); [|destruct (Z.ltb_spec n 62); [|destruct (Z.eqb_spec n 62)]]].
  all: rewrite code_char by lia.
  all: repeat match goal with |- context [?a <=? ?b] => destruct (Z.leb_spec a b) end; simpl; try lia.
  all: repeat match goal with |- context [?a =? ?b] => destruct (Z.eqb_spec a b) end; f_equal; lia.
Qed.

Lemma digit_plain n : 0 <= n < 64 → ascii_space (digit n) = false ∧ digit n ≠ "="%char.
Proof.
  intros Hn. pose proof (digit_value_digit n Hn) as Hd. split.
  - destruct (ascii_space (digit n)) eqn:E; [|done]. unfold ascii_space in E. unfold digit_value in Hd.
    repeat (apply orb_true_iff in E as [E|E]); apply Z.eqb_eq in E; rewrite E in Hd; by vm_compute in Hd.
  - intros E. rewrite E in Hd. by vm_compute in Hd.
Qed.

(** Three bytes at a time. *)
Lemma string_ind3 (P : string → Prop) :
  P "" → (∀ a, P (String a "")) → (∀ a b, P (String a (String b ""))) →
  (∀ a b c s, P s → P (String a (String b (String c s)))) → ∀ s, P s.
Proof.
  intros H0 H1 H2 H3. fix IH 1. intros [|a [|b [|c s]]]; [done|apply H1|apply H2|apply H3, IH].
Qed.

(** The sextets of one, two and three bytes. *)
Ltac sextet :=
  repeat match goal with a : ascii |- _ => lazymatch goal with _ : 0 <= code a < 256 |- _ => fail | _ => pose proof (code_bound a) end end;
  Z.to_euclidean_division_equations; lia.

Lemma is_digit64_digit n : 0 <= n < 64 → is_digit64 (digit n) = true.
Proof. intros Hn. unfold is_digit64. by rewrite digit_value_digit. Qed.

Lemma strip_padding_cons a s : a ≠ "="%char → strip_padding (String a s) = String a (strip_padding s).
Proof.
  intros Ha. destruct (ascii_dec a "=") as [->|]; [done|].
  destruct a as [[] [] [] [] [] [] [] []]; try reflexivity. by destruct Ha.
Qed.

Lemma strip_space_cons a s : ascii_space a = false → strip_space (String a s) = String a (strip_space s).
Proof. intros Ha. simpl. by rewrite Ha. Qed.

Lemma strip_space_btoa s : strip_space (btoa s) = btoa s.
Proof.
  induction s as [|a|a b|a b c s IH] using string_ind3; [done| | |]; cbn [btoa];
    rewrite !strip_space_cons by (apply digit_plain; sextet); [done|done|by rewrite IH].
Qed.

Lemma size_String a s : size (String a s) = 1 + size s.
Proof. unfold size. simpl String.length. lia. Qed.

Lemma size_nonneg s : 0 <= size s.
Proof. unfold size. lia. Qed.

Lemma ceil_div_step a b : 0 < b → ceil_div (b + a) b = 1 + ceil_div a b.
Proof.
  intros Hb. unfold ceil_div. replace (b + a + b - 1) with (a + b - 1 + 1 * b) by lia.
  rewrite Z.div_add by lia. lia.
Qed.

Lemma ceil_div_bounds a b : 0 < b → a <= ceil_div a b * b < a + b.
Proof.
  intros Hb. unfold ceil_div. pose proof (Z.div_mod (a + b - 1) b ltac:(lia)) as Hd.
  pose proof (Z.mod_pos_bound (a + b - 1) b Hb) as Hm. nia.
Qed.

Lemma ceil_div_mono a a' b : 0 < b → a <= a' → ceil_div a b <= ceil_div a' b.
Proof. intros Hb Ha. apply Z.div_le_mono; lia. Qed.

Lemma size_btoa s : size (btoa s) = 4 * ceil_div (size s) 3.
Proof.
  induction s as [|a|a b|a b c s IH] using string_ind3; [done|done|done|].
  cbn [btoa]. rewrite !size_String, IH.
  replace (1 + (1 + (1 + size s))) with (3 + size s) by lia. rewrite ceil_div_step; lia.
Qed.

Lemma base64_shape_btoa s : base64_shape (btoa s) = true.
Proof.
  induction s as [|a|a b|a b c s IH] using string_ind3; [done| | |]; cbn [btoa base64_shape];
    rewrite !is_digit64_digit by sextet; [done|by rewrite orb_true_r|by rewrite IH].
Qed.

Lemma char_is z a : z = code a → char z = a.
Proof. intros ->. apply char_code. Qed.

Lemma unpack_btoa s : digit_values (strip_padding (btoa s)) ≫= unpack = Some s.
Proof.
  induction s as [|a|a b|a b c s IH] using string_ind3; [done| | |]; cbn [btoa];
    rewrite !strip_padding_cons by (apply digit_plain; sextet).
  - change (strip_padding "==") with "". cbn [digit_values]. rewrite !digit_value_digit by sextet. cbn.
    f_equal. f_equal. apply char_is. sextet.
  - change (strip_padding "=") with "". cbn [digit_values]. rewrite !digit_value_digit by sextet. cbn.
    f_equal. f_equal; [|f_equal]; apply char_is; sextet.
  - destruct (digit_values (strip_padding (btoa s))) as [l|] eqn:E; [|done]. cbn [digit_values].
    rewrite !digit_value_digit by sextet. rewrite E. cbn [mbind option_bind]. cbn in IH.
    cbn [unpack mbind option_bind]. rewrite IH. cbn. f_equal.
    f_equal; [|f_equal; [|f_equal]]; apply char_is; sextet.
Qed.

Lemma atob_btoa s : atob (btoa s) = Some s.
Proof.
  unfold atob. rewrite strip_space_btoa. change (Z.of_nat (String.length (btoa s))) with (size (btoa s)).
  rewrite size_btoa, Z.mul_comm, Z.mod_mul by done. apply unpack_btoa.
Qed.

(** The decoder returns exactly the byte strings whose canonical encoding
    it was given, and only those that are not empty and within the cap. *)
Theorem decodeBase64_exact encoded maxBytes text :
  decodeBase64 encoded maxBytes = Returns text ↔ encoded = btoa text ∧ 0 < size text <= maxBytes.
Proof.
  unfold decodeBase64. rewrite seq_Returns. split.
  - intros [_ Hd]. destruct (atob encoded) as [t|]; [|done]. apply seq_Returns in Hd as [Hc [= ->]].
    apply throw_when_Returns in Hc. rewrite !orb_false_iff, negb_false_iff in Hc.
    destruct Hc as [[Hz%Z.eqb_neq Hm%Z.ltb_ge] ->%String.eqb_eq]. pose proof (size_nonneg text). split; [done|lia].
  - intros [-> Hs]. split.
    + apply throw_when_Returns. rewrite base64_shape_btoa, size_btoa. apply orb_false_iff. split; [|done].
      apply Z.ltb_ge. pose proof (ceil_div_mono (size text) maxBytes 3). lia.
    + rewrite atob_btoa. apply seq_Returns. split; [|done]. apply throw_when_Returns.
      rewrite String.eqb_refl. rewrite !orb_false_iff. split; [split|done]; [apply Z.eqb_neq|apply Z.ltb_ge]; lia.
Qed.

Example decodeBase64_sample :
  decodeBase64 "QWRh" 3 = Returns "Ada" ∧ decodeBase64 "QWR=" 3 = Throws "decoded byte cap or encoding mismatch" ∧
  decodeBase64 "QWRh" 2 = Throws "decoded byte cap or encoding mismatch".
Proof. split; [|split]; vm_compute; reflexivity. Qed.
