(* ===== verification/AttachmentStore.v ===== *)
(** * Attachment stores

    The data of src/src/ports/attachment-store.ts and the two demo stores:
    [stubAttachmentStore] (src/src/adapters/stub/attachment-store.ts), which
    keeps blobs in memory, and [persistentDemoAttachmentStore]
    (src/src/adapters/stub/persistent-attachment-store.ts), which uploads in
    chunks and keeps base64 text in the browser's local storage with a fallback
    in memory.  A blob is its bytes, as a binary string.  SHA-256, the JSON
    functions and what the local storage refuses are parameters. *)

From S2P Require Import Prelude JsValue Text BrowserStorage IdempotencyKey Base64.

Record AttachmentUploadMetadata : Set := { filename : string; mimeType : string }.

Record AttachmentUploadProgress : Set := {
  loadedBytes : nat; totalBytes : nat; chunksUploaded : nat; chunkCount : nat
}.

Record AttachmentRef : Set := {
  uri : string; hash : string; ref_size : nat; ref_mimeType : string; ref_filename : string
}.

Definition attachment_hash `{!Digest} (bytes : string) : string := "sha256:" +:+ hex (sha256 bytes).

Definition make_ref `{!Digest} (uri : string) (blob : string) (metadata : AttachmentUploadMetadata) : AttachmentRef :=
  {| uri := uri; hash := attachment_hash blob; ref_size := String.length blob;
     ref_mimeType := mimeType metadata; ref_filename := filename metadata |}.

(** ** The store in memory *)

Record StubAttachments : Set := { counter : N; storage : gmap string string }.

Definition stubAttachmentStore : StubAttachments := {| counter := 0; storage := ∅ |}.

Definition stub_upload `{!Digest} (blob : string) (metadata : AttachmentUploadMetadata) (s : StubAttachments)
    : AttachmentRef * StubAttachments :=
  let counter := (counter s + 1)%N in
  let uri := "attachment:demo-" +:+ pretty counter in
  (make_ref uri blob metadata, {| counter := counter; storage := <[uri := blob]> (storage s) |}).

Definition stub_delete (uri : string) (s : StubAttachments) : StubAttachments :=
  {| counter := counter s; storage := base.delete uri (storage s) |}.

Definition stub_getStoredBytes (uri : string) (s : StubAttachments) : option string := storage s !! uri.

(** ** The chunks of an upload *)

Definition chunk_size (requested : Z) : nat := Z.to_nat (Z.max 1 requested).

(** [Math.ceil(a / b)] *)
Definition ceil_nat (a b : nat) : nat := (a + b - 1) / b.
Definition chunk_count (size chunkSize : nat) : nat := Nat.max 1 (ceil_nat size chunkSize).

(** The loop of [uploadResumable]: [None] when the fuel does not reach its end. *)
Fixpoint upload_loop (fuel : nat) (blob : string) (chunkSize offset chunkIndex loaded : nat)
    (chunks : list string) (reports : list AttachmentUploadProgress) : option (list string * list AttachmentUploadProgress) :=
  match fuel with
  | 0 => None
  | S fuel' =>
      let size := String.length blob in
      if (offset <? size) || ((size =? 0) && (chunkIndex =? 0)) then
        let end_ := if size =? 0 then 0 else Nat.min size (offset + chunkSize) in
        let chunk := slice offset end_ blob in
        let loaded := loaded + String.length chunk in
        let chunks := chunks ++ [chunk] in
        let count := chunk_count size chunkSize in
        let reports := reports ++ [{| loadedBytes := loaded; totalBytes := size;
                                      chunksUploaded := Nat.min (chunkIndex + 1) count; chunkCount := count |}] in
        if size =? 0 then Some (chunks, reports)
        else upload_loop fuel' blob chunkSize (offset + chunkSize) (chunkIndex + 1) loaded chunks reports
      else Some (chunks, reports)
  end.

(** A blob of n bytes takes at most n + 1 turns. *)
Definition upload_chunks (blob : string) (requested : Z) : option (list string * list AttachmentUploadProgress) :=
  upload_loop (2 + String.length blob) blob (chunk_size requested) 0 0 0 [] [].

Fixpoint zero_bytes (n : nat) : string := match n with 0 => "" | S n' => String Ascii.zero (zero_bytes n') end.

(** The chunks written one after the other into a buffer of [size] bytes;
    writing beyond it throws. *)
Definition concatBytes (chunks : list string) (size : nat) : outcome string string :=
  let bytes := String.concat "" chunks in
  throw_when (size <? String.length bytes)%nat "offset is out of bounds" ;;
  Returns (bytes +:+ zero_bytes (size - String.length bytes)).

(** ** The store in the local storage *)

Record PersistentAttachments : Set := { local : option (gmap string string); memoryFallback : gmap string string }.

Definition set_local (v : option (gmap string string)) (p : PersistentAttachments) : PersistentAttachments :=
  {| local := v; memoryFallback := memoryFallback p |}.
Definition set_fallback (v : gmap string string) (p : PersistentAttachments) : PersistentAttachments := {| local := local p; memoryFallback := v |}.

(** A new adapter on the same storage. *)
Definition reload (p : PersistentAttachments) : PersistentAttachments := {| local := local p; memoryFallback := ∅ |}.

Section store.
Context `{!Digest, !JsonText, !StoragePolicy} (namespace : string).

Definition itemKey (uri : string) : string := namespace +:+ ":item:" +:+ uri.
Definition counterKey : string := namespace +:+ ":counter".

Definition getItem (key : string) (p : PersistentAttachments) : option string :=
  match local p with
  | Some m =>
      if readable m key then match m !! key with Some v => Some v | None => memoryFallback p !! key end
      else memoryFallback p !! key
  | None => memoryFallback p !! key
  end.

Definition setItem (key value : string) (p : PersistentAttachments) : PersistentAttachments :=
  match local p with
  | Some m =>
      if writable m key value
      then {| local := Some (<[key := value]> m); memoryFallback := base.delete key (memoryFallback p) |}
      else set_fallback (<[key := value]> (memoryFallback p)) p
  | None => set_fallback (<[key := value]> (memoryFallback p)) p
  end.

Definition removeItem (key : string) (p : PersistentAttachments) : PersistentAttachments :=
  let local' := match local p with Some m => Some (if removable m key then base.delete key m else m) | None => None end in
  {| local := local'; memoryFallback := base.delete key (memoryFallback p) |}.

Definition nextCounter (p : PersistentAttachments) : Z * PersistentAttachments :=
  let next := match parse_int (default "0" (getItem counterKey p)) with Some current => (current + 1)%Z | None => 1%Z end in
  (next, setItem counterKey (pretty next) p).

Definition ref_json (ref : AttachmentRef) : jsv :=
  JObj [("kind", JStr "attachment-ref"); ("uri", JStr (uri ref)); ("hash", JStr (hash ref));
        ("size", JNum (NInt (Z.of_nat (ref_size ref)))); ("mimeType", JStr (ref_mimeType ref));
        ("filename", JStr (ref_filename ref))].

Definition attachment_json (ref : AttachmentRef) (bytes : string) : jsv :=
  JObj [("ref", ref_json ref); ("bytesBase64", JStr (btoa bytes))].

Definition demo_uri (counter : Z) : string := "attachment:demo-persistent-" +:+ pretty counter.

(** [uploadResumable], and [upload] with the default chunk size. *)
Definition uploadResumable (blob : string) (metadata : AttachmentUploadMetadata) (chunkSize : Z) (p : PersistentAttachments)
    : outcome string AttachmentRef * PersistentAttachments :=
  match upload_chunks blob chunkSize with
  | None => (Throws "unreachable", p)
  | Some (chunks, _) =>
      match concatBytes chunks (String.length blob) with
      | Throws e => (Throws e, p)
      | Returns bytes =>
          let '(counter, p) := nextCounter p in
          let uri := demo_uri counter in
          let ref := {| uri := uri; hash := attachment_hash bytes; ref_size := String.length blob;
                        ref_mimeType := mimeType metadata; ref_filename := filename metadata |} in
          (Returns ref, setItem (itemKey uri) (stringify (attachment_json ref bytes)) p)
      end
  end.

Definition persistent_delete (uri : string) (p : PersistentAttachments) : PersistentAttachments := removeItem (itemKey uri) p.

(** [typeof v === 'number' && Number.isFinite(v)] *)
Definition is_finite (v : jsv) : bool :=
  match v with JNum (NInt _) => true | JNum (NOther t) => negb (str_in t ["NaN"; "Infinity"; "-Infinity"]) | _ => false end.

Definition isStoredAttachmentRef (value : jsv) : bool :=
  truthy value && is_object value && is_lit (prop value "kind") "attachment-ref" && is_string (prop value "uri")
  && is_string (prop value "hash") && is_finite (prop value "size") && is_string (prop value "mimeType")
  && is_string (prop value "filename").

Definition isStoredAttachment (value : jsv) : bool :=
  truthy value && is_object value && is_string (prop value "bytesBase64") && isStoredAttachmentRef (prop value "ref").

(** The bytes and the type of the stored blob. *)
Definition persistent_getStoredBytes (uri : string) (p : PersistentAttachments) : option (string * string) :=
  raw ← getItem (itemKey uri) p;
  if negb (nonempty raw) then None else
  stored ← parse_json raw;
  if isStoredAttachment stored then
    text ← str_of (prop stored "bytesBase64");
    bytes ← atob text;
    type ← str_of (prop (prop stored "ref") "mimeType");
    Some (bytes, type)
  else None.
End store.
