(* ===== verification/AttachmentTheorems.v ===== *)
(** * Attachment stores: uploads and what they leave

    The chunk loop of [AttachmentStore] ends, covers the blob and reports its
    progress; what was uploaded is read back until it is deleted; and what a
    storage that refuses the counter does to that. *)

From S2P Require Import Prelude JsValue Text BrowserStorage IdempotencyKey Base64 AttachmentStore.
From Stdlib Require Import Ascii.

(** ** Slices *)

Lemma substring_split n m s : String.substring 0 (n + m) s = String.substring 0 n s +:+ String.substring n m s.
Proof.
  revert n; induction s as [|a s IH]; intros [|n]; try by destruct m.
  change (String a (String.substring 0 (n + m) s) = String a (String.substring 0 n s +:+ String.substring n m s)).
  by rewrite IH.
Qed.

Lemma substring_length n m s : String.length (String.substring n m s) = Nat.min m (String.length s - n).
Proof.
  revert n m; induction s as [|a s IH]; intros [|n] [|m]; simpl; try done; rewrite IH; lia.
Qed.

Lemma substring_all s : String.substring 0 (String.length s) s = s.
Proof. induction s as [|a s IH]; simpl; [done|by rewrite IH]. Qed.

Lemma substring_none n s : String.substring n 0 s = "".
Proof. revert n; induction s as [|a s IH]; intros [|n]; done || apply IH. Qed.

Lemma concat_cons x l : String.concat "" (x :: l) = x +:+ String.concat "" l.
Proof. destruct l as [|y l]; [by rewrite str_app_nil|done]. Qed.

Lemma concat_snoc l x : String.concat "" (l ++ [x]) = String.concat "" l +:+ x.
Proof.
  induction l as [|y l IH]; [done|]. rewrite <- app_comm_cons, !concat_cons, IH. by rewrite str_app_assoc.
Qed.

(** ** The loop *)

Section chunks.
Context (blob : string) (cs : nat) (Hcs : 0 < cs).

Abbreviation size := (String.length blob).

Definition chunk_at (i : nat) : string := slice (i * cs) (Nat.min size ((i + 1) * cs)) blob.

Definition report_at (i : nat) : AttachmentUploadProgress :=
  {| loadedBytes := Nat.min size ((i + 1) * cs); totalBytes := size; chunksUploaded := i + 1;
     chunkCount := chunk_count size cs |}.

Lemma ceil_nat_lt i : i < ceil_nat size cs ↔ i * cs < size.
Proof.
  unfold ceil_nat. pose proof (Nat.div_mod_eq (size + cs - 1) cs) as Hd.
  pose proof (Nat.mod_upper_bound (size + cs - 1) cs ltac:(lia)) as Hm. split; nia.
Qed.

Lemma chunk_at_length i : i * cs < size → String.length (chunk_at i) = Nat.min size ((i + 1) * cs) - i * cs.
Proof. intros Hi. unfold chunk_at, slice. rewrite substring_length. nia. Qed.

Lemma chunks_concat k : String.concat "" (chunk_at <$> seq 0 k) = String.substring 0 (Nat.min size (k * cs)) blob.
Proof.
  induction k as [|k IH]; [by rewrite Nat.mul_0_l, Nat.min_0_r, substring_none|]. rewrite seq_S, fmap_app. change (0 + k) with k.
  cbn [fmap list_fmap]. rewrite concat_snoc, IH. unfold chunk_at, slice. rewrite Nat.add_1_r.
  destruct (decide (k * cs ≤ size)) as [Hk|Hk].
  - rewrite (Nat.min_r size (k * cs)) by done. rewrite <- substring_split. f_equal. nia.
  - rewrite (Nat.min_l size (k * cs)), (Nat.min_l size (S k * cs)) by nia.
    replace (size - k * cs) with 0 by nia. rewrite substring_none.
    by rewrite str_app_nil.
Qed.

Lemma upload_loop_run fuel i chunks reports :
  0 < size → i ≤ ceil_nat size cs → ceil_nat size cs - i < fuel →
  upload_loop fuel blob cs (i * cs) i (Nat.min size (i * cs)) chunks reports =
    Some (chunks ++ (chunk_at <$> seq i (ceil_nat size cs - i)), reports ++ (report_at <$> seq i (ceil_nat size cs - i))).
Proof.
  revert i chunks reports; induction fuel as [|fuel IH]; intros i chunks reports Hs Hi Hf; [lia|]. cbn [upload_loop].
  destruct (decide (i = ceil_nat size cs)) as [->|Hn].
  - rewrite Nat.sub_diag. cbn [seq fmap list_fmap]. rewrite !app_nil_r.
    assert ((ceil_nat size cs * cs <? size) = false) as ->.
    { apply Nat.ltb_ge, Nat.nlt_ge. rewrite <- ceil_nat_lt. lia. }
    assert ((size =? 0) = false) as -> by (apply Nat.eqb_neq; lia). done.
  - assert (i * cs < size) as Hlt by (apply ceil_nat_lt; lia).
    assert ((i * cs <? size) = true) as -> by by apply Nat.ltb_lt.
    assert ((size =? 0) = false) as -> by (apply Nat.eqb_neq; lia). cbn [orb].
    replace (i * cs + cs) with ((i + 1) * cs) by lia. fold (chunk_at i). rewrite chunk_at_length by done.
    replace (Nat.min size (i * cs) + (Nat.min size ((i + 1) * cs) - i * cs)) with (Nat.min size ((i + 1) * cs)) by nia.
    rewrite IH by lia. replace (ceil_nat size cs - i) with (S (ceil_nat size cs - (i + 1))) by lia.
    cbn [seq fmap list_fmap]. rewrite <- !app_assoc, Nat.add_1_r. cbn [app].
    unfold report_at at 2. rewrite Nat.add_1_r.
    replace (Nat.min (S i) (chunk_count size cs)) with (S i); [done|]. unfold chunk_count. lia.
Qed.
End chunks.

(** C39.  The upload loop ends for every blob and every requested chunk size:
    its chunks, none larger than the size in use, put together are the blob, as
    many as announced, and the reports count them one by one with the bytes
    loaded so far, up to all of them. *)
Theorem upload_in_chunks blob requested :
  let cs := chunk_size requested in
  let count := chunk_count (String.length blob) cs in
  ∃ chunks, upload_chunks blob requested = Some (chunks, report_at blob cs <$> seq 0 count) ∧
    length chunks = count ∧ Forall (λ c, String.length c ≤ cs) chunks ∧
    concatBytes chunks (String.length blob) = Returns blob.
Proof.
  intros cs count. assert (0 < cs) as Hcs by (unfold cs, chunk_size; lia).
  destruct (decide (String.length blob = 0)) as [He|He].
  - destruct blob; [|done]. exists [""]. unfold count.
    assert (chunk_count (String.length "") cs = 1) as ->.
    { unfold chunk_count, ceil_nat. simpl. rewrite Nat.div_small; lia. }
    assert (report_at "" cs <$> seq 0 1 = [{| loadedBytes := 0; totalBytes := 0; chunksUploaded := 1; chunkCount := 1 |}]) as ->.
    { unfold report_at, chunk_count, ceil_nat. simpl. rewrite Nat.div_small; [done|lia]. }
    split; [|split; [done|split; [apply Forall_singleton; simpl; lia|done]]].
    unfold upload_chunks. fold cs. cbn. unfold chunk_count, ceil_nat. rewrite Nat.div_small by lia. done.
  - assert (count = ceil_nat (String.length blob) cs) as Hc.
    { unfold count, chunk_count. assert (0 < ceil_nat (String.length blob) cs) by (apply ceil_nat_lt; lia). lia. }
    exists (chunk_at blob cs <$> seq 0 count).
    assert (ceil_nat (String.length blob) cs ≤ String.length blob) as Hle.
    { apply Nat.nlt_ge. intros Hlt. apply ceil_nat_lt in Hlt; [nia|done]. }
    pose proof (upload_loop_run blob cs Hcs (2 + String.length blob) 0 [] []) as Hrun.
    rewrite Nat.min_0_r, Nat.sub_0_r, <- Hc in Hrun. split; [apply Hrun; lia|].
    split; [by rewrite length_fmap, length_seq|]. split.
    + apply Forall_fmap, Forall_forall. intros i Hi%elem_of_seq. cbn.
      assert (i * cs < String.length blob) by (apply (ceil_nat_lt blob cs Hcs); lia).
      rewrite chunk_at_length by done. lia.
    + unfold concatBytes. rewrite chunks_concat by done.
      assert (Nat.min (String.length blob) (count * cs) = String.length blob) as ->.
      { apply Nat.min_l, Nat.nlt_ge. rewrite <- ceil_nat_lt by done. lia. }
      rewrite substring_all, Nat.ltb_irrefl, Nat.sub_diag. cbn. by rewrite str_app_nil.
Qed.

(** ** What is kept *)

Inductive attachment_op : Set :=
  | UploadFile (blob : string) (metadata : AttachmentUploadMetadata) (chunkSize : Z)
  | DeleteFile (uri : string)
  | NewAdapter.

Section kept.
Context `{!Digest, !JsonText, !StoragePolicy} (namespace : string).

Definition attachment_step (p : PersistentAttachments) (op : attachment_op) : PersistentAttachments :=
  match op with
  | UploadFile blob metadata chunkSize => (uploadResumable namespace blob metadata chunkSize p).2
  | DeleteFile uri => persistent_delete namespace uri p
  | NewAdapter => reload p
  end.

Definition uploaded (n : Z) (blob : string) (metadata : AttachmentUploadMetadata) : AttachmentRef :=
  make_ref (demo_uri n) blob metadata.

Lemma uploadResumable_eq blob metadata chunkSize p :
  uploadResumable namespace blob metadata chunkSize p =
    let '(n, p') := nextCounter namespace p in
    let ref := uploaded n blob metadata in
    (Returns ref, setItem (itemKey namespace (uri ref)) (stringify (attachment_json ref blob)) p').
Proof.
  unfold uploadResumable. destruct (upload_in_chunks blob chunkSize) as (chunks & -> & _ & _ & ->).
  by destruct (nextCounter namespace p).
Qed.

Lemma keys_differ u : itemKey namespace u ≠ counterKey namespace.
Proof. unfold itemKey, counterKey. intros E. apply (inj (String.append namespace)) in E. done. Qed.

Lemma itemKey_inj u u' : itemKey namespace u = itemKey namespace u' → u = u'.
Proof. unfold itemKey. intros E. do 2 apply (inj (String.append _)) in E. done. Qed.

Lemma demo_uri_inj n n' : demo_uri n = demo_uri n' → n = n'.
Proof. unfold demo_uri. intros E. apply (inj (String.append _)) in E. by apply (inj pretty) in E. Qed.

Context `{!ReliableStorage}.

(** The storage is there, nothing fell back to memory, and the counter reads
    [n]. *)
Definition counted (n : Z) (p : PersistentAttachments) : Prop :=
  ∃ m, local p = Some m ∧ memoryFallback p = ∅ ∧ (0 ≤ n)%Z ∧
    m !! counterKey namespace = (if decide (n = 0)%Z then None else Some (pretty n)).

Definition item (u : string) (p : PersistentAttachments) : option string := local p ≫= lookup (itemKey namespace u).

Lemma setItem_reliable key value m fb :
  setItem key value {| local := Some m; memoryFallback := fb |} =
    {| local := Some (<[key := value]> m); memoryFallback := base.delete key fb |}.
Proof. unfold setItem. cbn [local memoryFallback]. by rewrite storage_writes. Qed.

Lemma nextCounter_counted n p :
  counted n p → (nextCounter namespace p).1 = (n + 1)%Z ∧ counted (n + 1) (nextCounter namespace p).2 ∧
    ∀ u, item u (nextCounter namespace p).2 = item u p.
Proof.
  intros (m & Hl & Hf & Hn & Hk). destruct p as [l fb]. simpl in Hl, Hf. subst.
  unfold nextCounter. cbn [fst snd].
  assert (getItem (counterKey namespace) {| local := Some m; memoryFallback := ∅ |} = m !! counterKey namespace) as ->.
  { unfold getItem. cbn [local memoryFallback]. rewrite storage_reads, lookup_empty. by destruct (m !! _). }
  rewrite Hk, setItem_reliable, delete_empty.
  assert (match parse_int (default "0" (if decide (n = 0)%Z then None else Some (pretty n))) with
          | Some current => (current + 1)%Z | None => 1%Z end = (n + 1)%Z) as ->.
  { case_decide as Hz; [by subst|]. simpl default. by rewrite parse_int_pretty. }
  split; [done|]. split.
  - eexists. split; [done|]. split; [done|]. split; [lia|]. rewrite lookup_insert_eq, decide_False by lia. done.
  - intros u. unfold item. cbn. apply lookup_insert_ne. apply not_eq_sym, keys_differ.
Qed.

Lemma upload_counted n p blob metadata chunkSize :
  counted n p →
  (uploadResumable namespace blob metadata chunkSize p).1 = Returns (uploaded (n + 1) blob metadata) ∧
  counted (n + 1) (uploadResumable namespace blob metadata chunkSize p).2 ∧
  ∀ u, item u (uploadResumable namespace blob metadata chunkSize p).2 =
    if decide (u = demo_uri (n + 1)) then Some (stringify (attachment_json (uploaded (n + 1) blob metadata) blob)) else item u p.
Proof.
  intros Hc. rewrite uploadResumable_eq. destruct (nextCounter_counted n p Hc) as (E & Hc' & Hi).
  destruct (nextCounter namespace p) as [n' p']. simpl in E, Hc', Hi. subst n'. cbn [fst snd].
  destruct Hc' as (m & Hl & Hf & Hn & Hk). destruct p' as [l fb]. simpl in Hl, Hf. subst. rewrite setItem_reliable.
  split; [done|]. split.
  - eexists. split; [done|]. split; [apply delete_empty|]. split; [done|].
    rewrite lookup_insert_ne by apply keys_differ. done.
  - intros u. unfold item at 1. cbn. destruct (decide (u = demo_uri (n + 1))) as [->|Hu].
    + by rewrite lookup_insert_eq.
    + rewrite lookup_insert_ne by (intros E; by apply Hu, eq_sym, itemKey_inj). by rewrite <- Hi.
Qed.

Lemma delete_counted n p u :
  counted n p → counted n (persistent_delete namespace u p) ∧
    ∀ u', u' ≠ u → item u' (persistent_delete namespace u p) = item u' p.
Proof.
  intros (m & Hl & Hf & Hn & Hk). destruct p as [l fb]. simpl in Hl, Hf. subst.
  unfold persistent_delete, removeItem. cbn [local memoryFallback]. rewrite storage_removes. split.
  - eexists. split; [done|]. split; [apply delete_empty|]. split; [done|]. by rewrite lookup_delete_ne by apply keys_differ.
  - intros u' Hu. unfold item. cbn. apply lookup_delete_ne. intros E. by apply Hu, eq_sym, itemKey_inj.
Qed.

(** Any operation but the deletion of an earlier upload keeps it. *)
Lemma step_counted n p op :
  counted n p → ∃ n', (n ≤ n')%Z ∧ counted n' (attachment_step p op) ∧
    ∀ j, (j ≤ n)%Z → op ≠ DeleteFile (demo_uri j) → item (demo_uri j) (attachment_step p op) = item (demo_uri j) p.
Proof.
  intros Hc. destruct op as [blob metadata cs|u|]; simpl.
  - destruct (upload_counted n p blob metadata cs Hc) as (_ & Hc' & Hi). exists (n + 1)%Z.
    split; [lia|]. split; [done|]. intros j Hj _. rewrite Hi, decide_False; [done|].
    intros E%demo_uri_inj. lia.
  - destruct (delete_counted n p u Hc) as [Hc' Hi]. exists n. split; [lia|]. split; [done|].
    intros j _ Hd. apply Hi. intros E. apply Hd. by rewrite E.
  - exists n. split; [lia|]. destruct Hc as (m & Hl & Hf & Hn & Hk). split; [|done]. by exists m.
Qed.

Lemma run_counted n p ops :
  counted n p → ∃ n', (n ≤ n')%Z ∧ counted n' (foldl attachment_step p ops) ∧
    ∀ j, (j ≤ n)%Z → DeleteFile (demo_uri j) ∉ ops → item (demo_uri j) (foldl attachment_step p ops) = item (demo_uri j) p.
Proof.
  revert n p; induction ops as [|op ops IH]; intros n p Hc; simpl; [exists n; split; [lia|]; by split|].
  destruct (step_counted n p op Hc) as (n1 & Hle1 & Hc1 & Hk1). destruct (IH n1 _ Hc1) as (n2 & Hle2 & Hc2 & Hk2).
  exists n2. split; [lia|]. split; [done|]. intros j Hj [Hd1 Hd2]%not_elem_of_cons.
  rewrite Hk2 by (done || lia). by apply Hk1.
Qed.

Context `{!JsonTextLaws}.

Lemma read_stored k n u blob metadata p :
  counted n p → item u p = Some (stringify (attachment_json (uploaded k blob metadata) blob)) →
  persistent_getStoredBytes namespace u p = Some (blob, mimeType metadata).
Proof.
  intros (m & Hl & Hf & _ & _) Hi. unfold item in Hi. rewrite Hl in Hi. simpl in Hi.
  assert (parse_json (stringify (attachment_json (uploaded k blob metadata) blob)) =
          Some (attachment_json (uploaded k blob metadata) blob)) as Hp by (apply parse_stringify; reflexivity).
  unfold persistent_getStoredBytes, getItem. rewrite Hl, storage_reads, Hi. cbn [mbind option_bind].
  assert (nonempty (stringify (attachment_json (uploaded k blob metadata) blob)) = true) as ->.
  { apply nonempty_spec. intros E. rewrite E, parse_nothing in Hp. done. }
  rewrite Hp. cbn. by rewrite atob_btoa.
Qed.
End kept.

(** A storage that holds nothing of ours yet. *)
Definition fresh_storage (namespace : string) (m : gmap string string) : PersistentAttachments :=
  {| local := Some m; memoryFallback := ∅ |}.

(** With a storage that refuses nothing, an upload at any time returns a
    reference with the bytes' size and digest, and from then on the store gives
    those bytes and their type back for its URI, whatever else is uploaded or
    deleted and however often the adapter is made anew, until that URI is
    deleted. *)
Theorem persistent_upload_kept `{!Digest, !JsonText, !JsonTextLaws, !StoragePolicy, !ReliableStorage}
    namespace m before blob metadata chunkSize after :
  m !! counterKey namespace = None →
  let p := foldl (attachment_step namespace) (fresh_storage namespace m) before in
  ∃ n, (uploadResumable namespace blob metadata chunkSize p).1 = Returns (make_ref (demo_uri n) blob metadata) ∧
    (DeleteFile (demo_uri n) ∉ after →
     persistent_getStoredBytes namespace (demo_uri n)
       (foldl (attachment_step namespace) (uploadResumable namespace blob metadata chunkSize p).2 after) =
       Some (blob, mimeType metadata)).
Proof.
  intros Hm p. assert (counted namespace 0 (fresh_storage namespace m)) as Hfresh by (by exists m).
  destruct (run_counted namespace 0 _ before Hfresh) as (n & _ & Hn & _). fold p in Hn. exists (n + 1)%Z.
  destruct (upload_counted namespace n p blob metadata chunkSize Hn) as (Hr & Hc & Hi). split; [done|]. intros Hd.
  destruct (run_counted namespace (n + 1) _ after Hc) as (n' & _ & Hc' & Hk).
  apply (read_stored namespace (n + 1) n'); [done|]. rewrite Hk by (done || lia). by rewrite Hi, decide_True.
Qed.

(** When the storage holds a counter and refuses to update it, two uploads
    in a row get the same URI: the refused value goes to the memory, but the
    next upload reads the old one from the storage. *)
Theorem refused_counter_reuses_uri `{!Digest, !JsonText, !StoragePolicy} namespace m fb text c blob blob' metadata metadata' cs cs' :
  (∀ m k, readable m k = true) →
  m !! counterKey namespace = Some text → parse_int text = Some c →
  let p := {| local := Some m; memoryFallback := fb |} in
  let first := uploadResumable namespace blob metadata cs p in
  let second := uploadResumable namespace blob' metadata' cs' first.2 in
  (∀ m', local p = Some m' ∨ local first.2 = Some m' → writable m' (counterKey namespace) (pretty (c + 1)%Z) = false) →
  first.1 = Returns (uploaded (c + 1) blob metadata) ∧ second.1 = Returns (uploaded (c + 1) blob' metadata').
Proof.
  intros Hread Hm Hc p first second Hw.
  assert (∀ m' fb' (Hm' : m' !! counterKey namespace = Some text),
    writable m' (counterKey namespace) (pretty (c + 1)%Z) = false →
    nextCounter namespace {| local := Some m'; memoryFallback := fb' |} =
      ((c + 1)%Z, {| local := Some m'; memoryFallback := <[counterKey namespace := pretty (c + 1)%Z]> fb' |})) as Hnext.
  { intros m' fb' Hm' Hw'. unfold nextCounter, getItem. cbn [local memoryFallback]. rewrite Hread, Hm'. simpl default.
    rewrite Hc. unfold setItem. cbn [local]. by rewrite Hw'. }
  assert (∃ m1 fb1, first = (Returns (uploaded (c + 1) blob metadata), {| local := Some m1; memoryFallback := fb1 |}) ∧
    m1 !! counterKey namespace = Some text) as (m1 & fb1 & E & Hm1).
  { unfold first. rewrite uploadResumable_eq. unfold p. rewrite Hnext by (done || apply Hw; by left).
    unfold setItem. cbn [local memoryFallback]. destruct (writable m (itemKey namespace _) _).
    - eexists _, _. split; [done|]. by rewrite lookup_insert_ne by apply keys_differ.
    - by eexists _, _. }
  unfold second. rewrite E in *. split; [done|]. cbn [snd]. rewrite uploadResumable_eq, Hnext; [done|done|].
  apply Hw. by right.
Qed.

(** ** Samples *)

Section samples.

#[local] Existing Instance coded_json.
#[local] Existing Instance coded_json_laws.

#[local] Instance sample_digest : Digest := λ s, [Z.of_nat (String.length s)].

Definition sample_metadata : AttachmentUploadMetadata := {| filename := "ada.txt"; mimeType := "text/plain" |}.

Section reliable.
#[local] Instance reliable_policy : StoragePolicy :=
  {| readable := λ _ _, true; writable := λ _ _ _, true; removable := λ _ _, true |}.
#[local] Instance reliable_storage : ReliableStorage.
Proof. by split. Qed.

Lemma persistent_upload_kept_witness :
  ∃ n, persistent_getStoredBytes "ns" (demo_uri n)
    (foldl (attachment_step "ns") (uploadResumable "ns" "Ada" sample_metadata 2 (fresh_storage "ns" ∅)).2
       [UploadFile "Bob" sample_metadata 1; NewAdapter; DeleteFile "other"]) = Some ("Ada", "text/plain").
Proof.
  destruct (persistent_upload_kept "ns" ∅ [] "Ada" sample_metadata 2
    [UploadFile "Bob" sample_metadata 1; NewAdapter; DeleteFile "other"] (lookup_empty _)) as (n & _ & Hk).
  exists n. apply Hk. rewrite !not_elem_of_cons. split; [done|]. split; [done|]. split; [|apply not_elem_of_nil].
  unfold demo_uri. intros [= E].
Defined.
End reliable.

(** A storage with room for a fixed number of characters. *)
Section quota.
Definition used (m : gmap string string) : nat := map_fold (λ k v n, String.length k + String.length v + n) 0 m.
#[local] Instance quota_policy : StoragePolicy :=
  {| readable := λ _ _, true; writable := λ m k v, (used (<[k := v]> m) <=? 11)%nat; removable := λ _ _, true |}.

Lemma refused_counter_reuses_uri_witness :
  let first := uploadResumable "ns" "Ada" sample_metadata 2 {| local := Some {["ns:counter" := "9"]}; memoryFallback := ∅ |} in
  let second := uploadResumable "ns" "Bob" sample_metadata 2 first.2 in
  first.1 = Returns (uploaded 10 "Ada" sample_metadata) ∧ second.1 = Returns (uploaded 10 "Bob" sample_metadata) ∧
  persistent_getStoredBytes "ns" (demo_uri 10) second.2 = Some ("Bob", "text/plain").
Proof.
  intros first second.
  assert (first.1 = Returns (uploaded (9 + 1) "Ada" sample_metadata) ∧
          second.1 = Returns (uploaded (9 + 1) "Bob" sample_metadata)) as [H1 H2].
  { apply (refused_counter_reuses_uri "ns" {["ns:counter" := "9"]} ∅ "9" 9 "Ada" "Bob" sample_metadata sample_metadata 2 2);
      [done|reflexivity|reflexivity|].
    intros m' [E|E]; apply (f_equal (λ o, match o with Some m => writable m "ns:counter" "10" | None => false end)) in E;
      vm_compute in E; symmetry; exact E. }
  split; [exact H1|]. split; [exact H2|]. vm_compute. reflexivity.
Defined.
End quota.
End samples.
