(* ===== verification/DraftKeys.v ===== *)
(** * Draft keys

    [DraftKey] of src/src/ports/draft-store.ts: what a draft is stored under,
    shared by the draft store, the multi-party flow, the response actions and the
    HTTP adapters; with the canonical bytes a response is hashed by. *)

From S2P Require Import Prelude JsValue.

Record DraftKey : Set := {
  key_formUrl : string;
  key_formVersion : option string;
  key_subjectRef : option string;
  key_partyRef : option string
}.

#[export] Instance DraftKey_eq_dec : EqDecision DraftKey.
Proof. solve_decision. Defined.

(** [canonicalResponseHandoffBytes] of the integrity package. *)
Class HandoffBytes := canonicalResponseHandoffBytes : jsv → outcome string string.
