(* ===== verification/DraftStore.v ===== *)
(** * The in-memory draft store

    The guard of src/src/shared/synchronous-guard.ts and [stubDraftStore] of
    src/src/adapters/stub/draft-store.ts.  The store keeps its drafts under one
    composed string per key; it is proved to behave as a map from keys to
    responses as long as no part of a key holds the separator or a sentinel. *)

From S2P Require Import Prelude JsValue Text JsMap DraftKeys.
From Stdlib Require Import Ascii.

(** What the guard of a save does when it is called: it returns a value, or
    throws. *)
Definition assertSynchronousGuard (result : outcome string jsv) : outcome string unit :=
  value ← result; throw_when (negb (is_undefined value)) "Current-context guard must be synchronous".

(** ** The store *)

Definition bar : ascii := "|"%char.

Definition keyStr (key : DraftKey) : string :=
  default "<anon>" (key_subjectRef key) +:+ "|" +:+ default "<single>" (key_partyRef key) +:+ "|"
    +:+ key_formUrl key +:+ "|" +:+ default "latest" (key_formVersion key).

Abbreviation draft_map := (list (string * jsv)).

(** [part && part !== sentinel] *)
Definition listed_part (sentinel : string) (part : option string) : option string :=
  match part with Some s => if nonempty s && negb (String.eqb s sentinel) then Some s else None | None => None end.

(** One key of the listing of a subject, from the text it is stored under. *)
Definition listed_key (subjectRef k : string) : option DraftKey :=
  let parts := split_on bar k in
  match parts !! 0, parts !! 2 with
  | Some subject, Some formUrl =>
      if String.eqb subject subjectRef then
        Some {| key_formUrl := formUrl; key_formVersion := listed_part "latest" (parts !! 3);
                key_subjectRef := Some subjectRef; key_partyRef := listed_part "<single>" (parts !! 1) |}
      else None
  | _, _ => None
  end.

Definition draft_load (key : DraftKey) (store : draft_map) : option jsv := map_get store (keyStr key).

Definition draft_save (key : DraftKey) (response : jsv) (guard : option (outcome string jsv)) (store : draft_map)
    : outcome string draft_map :=
  (match guard with Some result => assertSynchronousGuard result | None => Returns () end) ;;
  Returns (map_set store (keyStr key) response).

Definition draft_list (subjectRef : string) (store : draft_map) : list DraftKey :=
  omap (listed_key subjectRef) store.*1.

Definition draft_delete (key : DraftKey) (store : draft_map) : draft_map := map_delete store (keyStr key).

Definition draft_invalidateSubject (subjectRef : string) (store : draft_map) : draft_map :=
  List.filter (λ e, negb (starts_with (subjectRef +:+ "|") e.1)) store.

(** ** The contract: a map from keys to responses *)

Inductive draft_call : Set :=
  | Load (key : DraftKey)
  | Save (key : DraftKey) (response : jsv) (guard : option (outcome string jsv))
  | ListDrafts (subjectRef : string)
  | Delete (key : DraftKey)
  | InvalidateSubject (subjectRef : string).

Inductive draft_reply : Set :=
  | Loaded (response : option jsv)
  | Stored (result : outcome string unit)
  | Listed (keys : list DraftKey)
  | Finished.

(** What a store answers and becomes; the port's contract is the instance on
    keys, the stub the one on composed strings. *)
Class DraftStoreOps (S : Type) := draft_step : draft_call → S → draft_reply * S.

#[export] Instance stub_drafts : DraftStoreOps draft_map := λ call store,
  match call with
  | Load key => (Loaded (draft_load key store), store)
  | Save key response guard =>
      match draft_save key response guard store with
      | Returns store' => (Stored (Returns ()), store')
      | Throws e => (Stored (Throws e), store)
      end
  | ListDrafts subject => (Listed (draft_list subject store), store)
  | Delete key => (Finished, draft_delete key store)
  | InvalidateSubject subject => (Finished, draft_invalidateSubject subject store)
  end.

Definition of_subject (subject : string) (key : DraftKey) : bool := bool_decide (key_subjectRef key = Some subject).

#[export] Instance spec_drafts : DraftStoreOps (list (DraftKey * jsv)) := λ call drafts,
  match call with
  | Load key => (Loaded (map_get drafts key), drafts)
  | Save key response guard =>
      match (match guard with Some result => assertSynchronousGuard result | None => Returns () end) with
      | Returns _ => (Stored (Returns ()), map_set drafts key response)
      | Throws e => (Stored (Throws e), drafts)
      end
  | ListDrafts subject => (Listed (List.filter (of_subject subject) drafts.*1), drafts)
  | Delete key => (Finished, map_delete drafts key)
  | InvalidateSubject subject => (Finished, List.filter (λ e, negb (of_subject subject e.1)) drafts)
  end.

Fixpoint draft_run {S} `{!DraftStoreOps S} (calls : list draft_call) (s : S) : list draft_reply :=
  match calls with [] => [] | c :: calls' => let '(r, s') := draft_step c s in r :: draft_run calls' s' end.

(** ** Keys the store can tell apart *)

Definition plain (s : string) : bool := negb (has_char bar s).
Definition plain_part (sentinel : string) (part : option string) : bool :=
  match part with Some s => plain s && nonempty s && negb (String.eqb s sentinel) | None => true end.
Definition plain_subject (s : string) : bool := plain s && negb (String.eqb s "<anon>").

Definition plain_key (key : DraftKey) : bool :=
  plain (key_formUrl key) && plain_part "latest" (key_formVersion key) && plain_part "<single>" (key_partyRef key)
  && match key_subjectRef key with Some s => plain_subject s | None => true end.

Definition plain_call (call : draft_call) : bool :=
  match call with
  | Load key | Save key _ _ | Delete key => plain_key key
  | ListDrafts subject | InvalidateSubject subject => plain_subject subject
  end.

(** ** Lemmas *)

Definition key_parts (key : DraftKey) : list string :=
  [default "<anon>" (key_subjectRef key); default "<single>" (key_partyRef key); key_formUrl key;
   default "latest" (key_formVersion key)].

Lemma keyStr_join key : keyStr key = join_with bar (key_parts key).
Proof. done. Qed.

Lemma default_plain sentinel part :
  plain sentinel = true → plain_part sentinel part = true → has_char bar (default sentinel part) = false.
Proof.
  unfold plain. rewrite !negb_true_iff. destruct part as [s|]; simpl; [|done].
  unfold plain. intros _ [[?%negb_true_iff _]%andb_true_iff _]%andb_true_iff. done.
Qed.

Lemma key_parts_plain key : plain_key key = true → Forall (λ x, has_char bar x = false) (key_parts key).
Proof.
  unfold plain_key. rewrite !andb_true_iff. intros [[[Hu Hv] Hp] Hs]. unfold key_parts.
  repeat (apply Forall_cons; split); try by apply default_plain.
  - destruct (key_subjectRef key) as [s|]; simpl; [|done]. unfold plain_subject, plain in Hs.
    apply andb_true_iff in Hs as [?%negb_true_iff _]. done.
  - by apply negb_true_iff in Hu.
  - by apply Forall_nil_2.
Qed.

Lemma split_keyStr key : plain_key key = true → split_on bar (keyStr key) = key_parts key.
Proof. intros Hk. rewrite keyStr_join. apply split_join; [done|by apply key_parts_plain]. Qed.

Lemma listed_default sentinel part :
  plain_part sentinel part = true → listed_part sentinel (Some (default sentinel part)) = part.
Proof.
  destruct part as [s|]; simpl; [|by rewrite String.eqb_refl, andb_false_r].
  intros [[_ ->]%andb_true_iff ->]%andb_true_iff. done.
Qed.

Lemma listed_keyStr subject key :
  plain_key key = true → plain_subject subject = true →
  listed_key subject (keyStr key) = if of_subject subject key then Some key else None.
Proof.
  intros Hk Hs. unfold listed_key, of_subject. rewrite split_keyStr by done. cbn [key_parts lookup list_lookup].
  unfold plain_key in Hk. rewrite !andb_true_iff in Hk. destruct Hk as [[[_ Hv] Hp] Hsub].
  rewrite !listed_default by done.
  destruct key as [u v [s|] p]; cbn [key_subjectRef key_formUrl key_formVersion key_partyRef default id] in *.
  - destruct (String.eqb_spec s subject) as [->|Hn]; [by rewrite bool_decide_true|].
    rewrite bool_decide_false; [done|]. by intros [= ->].
  - rewrite bool_decide_false by done. unfold plain_subject in Hs.
    apply andb_true_iff in Hs as [_ Hs%negb_true_iff]. rewrite String.eqb_sym in Hs. by rewrite Hs.
Qed.

Lemma keyStr_inj key key' :
  plain_key key = true → plain_key key' = true → keyStr key = keyStr key' → key = key'.
Proof.
  intros Hk Hk' E. assert (key_parts key = key_parts key') as Hp by (by rewrite <- !split_keyStr, E).
  unfold plain_key in *. rewrite !andb_true_iff in Hk, Hk'.
  destruct Hk as [[[_ Hv] Hq] Hs], Hk' as [[[_ Hv'] Hq'] Hs'].
  unfold key_parts in Hp. injection Hp as Esub Eparty Eurl Ever.
  apply (f_equal (λ s, listed_part "<single>" (Some s))) in Eparty. rewrite !listed_default in Eparty by done.
  apply (f_equal (λ s, listed_part "latest" (Some s))) in Ever. rewrite !listed_default in Ever by done.
  destruct key as [u v s p], key' as [u' v' s' p']; simpl in *. subst. f_equal.
  unfold plain_subject in *. destruct s as [s|], s' as [s'|]; simpl in *; subst; try done;
    repeat match goal with H : _ && _ = true |- _ => apply andb_true_iff in H as [? H] end; by apply negb_true_iff in Hs || apply negb_true_iff in Hs'.
Qed.

Lemma starts_with_subject subject key :
  plain_key key = true → plain_subject subject = true →
  starts_with (subject +:+ "|") (keyStr key) = of_subject subject key.
Proof.
  intros Hk Hs. pose proof (listed_keyStr subject key Hk Hs) as Hl.
  destruct (of_subject subject key) eqn:E.
  - apply bool_decide_eq_true in E. apply starts_with_spec. unfold keyStr. rewrite E. simpl default.
    eexists. by rewrite str_app_assoc.
  - destruct (starts_with _ _) eqn:Hw; [|done]. apply starts_with_spec in Hw as [r Hr].
    rewrite str_app_assoc in Hr. apply andb_true_iff in Hs as [Hs%negb_true_iff _].
    assert (split_on bar (keyStr key) !! 0 = Some subject) as H0.
    { rewrite Hr. change ("|" +:+ r) with (String bar r). by rewrite split_on_app. }
    unfold listed_key in Hl. rewrite H0, String.eqb_refl in Hl. rewrite split_keyStr in Hl by done. done.
Qed.

(** ** The store keeps the contract *)

Definition stored_as (drafts : list (DraftKey * jsv)) (store : draft_map) : Prop :=
  store = rename keyStr drafts ∧ Forall (λ e, plain_key e.1 = true) drafts.

Lemma listed_rename subject drafts :
  plain_subject subject = true → Forall (λ e, plain_key e.1 = true) drafts →
  draft_list subject (rename keyStr drafts) = List.filter (of_subject subject) drafts.*1.
Proof.
  intros Hs Hd. unfold draft_list. induction drafts as [|[k v] drafts IH]; simpl; [done|].
  apply Forall_cons in Hd as [Hk Hd]. rewrite (listed_keyStr subject k Hk Hs). unfold draft_list in IH.
  destruct (of_subject subject k); simpl; [f_equal|]; by apply IH.
Qed.

Lemma draft_step_refines call drafts store :
  plain_call call = true → stored_as drafts store →
  (draft_step call store).1 = (draft_step call drafts).1 ∧
  stored_as (draft_step call drafts).2 (draft_step call store).2.
Proof.
  intros Hc [-> Hd]. destruct call as [key|key r guard|subject|key|subject]; simpl in Hc; cbn.
  - split; [|done]. f_equal. by apply (rename_get keyStr (λ k, plain_key k = true) keyStr_inj).
  - unfold draft_save. destruct (match guard with Some result => assertSynchronousGuard result | None => Returns () end);
      [|by split].
    split; [done|]. split; [by apply (rename_set keyStr (λ k, plain_key k = true) keyStr_inj)|].
    by apply (map_set_Forall (λ k, plain_key k = true)).
  - split; [|done]. by rewrite listed_rename.
  - split; [done|]. split; [|by apply filter_Forall]. apply rename_filter.
    apply Forall_forall. intros [k v] Hk. pose proof (proj1 (Forall_forall _ _) Hd _ Hk) as Hp. simpl in *.
    f_equal. apply bool_decide_ext. split; [by apply keyStr_inj|by intros ->].
  - split; [done|]. split; [|by apply filter_Forall]. apply rename_filter.
    apply Forall_forall. intros [k v] Hk. pose proof (proj1 (Forall_forall _ _) Hd _ Hk) as Hp. simpl in *.
    by rewrite starts_with_subject.
Qed.

Lemma draft_run_refines calls drafts store :
  Forall (λ c, plain_call c = true) calls → stored_as drafts store →
  draft_run calls store = draft_run calls drafts.
Proof.
  revert drafts store; induction calls as [|c calls IH]; intros drafts store Hc Hs; simpl; [done|].
  apply Forall_cons in Hc as [Hc Hcs]. destruct (draft_step_refines c drafts store Hc Hs) as [Hr Hs'].
  destruct (draft_step c store) as [r s], (draft_step c drafts) as [r' d]. simpl in *. subst.
  f_equal. by apply IH.
Qed.

(** Whatever is loaded, saved, listed, deleted and invalidated, in any
    order, the in-memory draft store answers as a map from draft keys to
    responses would, as long as no part of a key holds the separator or is one
    of the texts that stand for an absent part. *)
Theorem draft_store_refines calls :
  Forall (λ c, plain_call c = true) calls →
  draft_run calls ([] : draft_map) = draft_run calls ([] : list (DraftKey * jsv)).
Proof. intros Hc. apply draft_run_refines; [done|]. by split; [|apply Forall_nil_2]. Qed.

Definition sample_key (subject : string) : DraftKey :=
  {| key_formUrl := "urn:form"; key_formVersion := Some "1"; key_subjectRef := Some subject; key_partyRef := None |}.

Definition sample_calls : list draft_call :=
  [Save (sample_key "ada") (JStr "a") None; Save (sample_key "bob") (JStr "b") (Some (Returns JUndef));
   Save (sample_key "bob") (JStr "c") (Some (Throws "stale")); ListDrafts "ada"; InvalidateSubject "ada";
   Load (sample_key "ada"); Load (sample_key "bob")].

Lemma draft_store_refines_witness :
  draft_run sample_calls ([] : draft_map) =
    [Stored (Returns ()); Stored (Returns ()); Stored (Throws "stale"); Listed [sample_key "ada"]; Finished;
     Loaded None; Loaded (Some (JStr "b"))].
Proof.
  assert (Forall (λ c, plain_call c = true) sample_calls) as Hc.
  { repeat (apply Forall_cons; split; [reflexivity|]). apply Forall_nil_2. }
  rewrite (draft_store_refines sample_calls Hc). vm_compute. reflexivity.
Defined.

(** ** Where the stub and the contract part *)

Lemma listed_barred subject k : has_char bar subject = true → listed_key subject k = None.
Proof.
  intros Hb. unfold listed_key. destruct (split_on_cons bar k) as (x & l & E). pose proof (split_parts bar k) as Hp.
  rewrite E in *. apply Forall_cons in Hp as [Hx _]. change ((x :: l) !! 0) with (Some x). cbv beta iota.
  destruct ((x :: l) !! 2); [|done]. destruct (String.eqb_spec x subject) as [->|]; [congruence|done].
Qed.

(** A subject whose reference holds the separator has drafts that are
    stored and loaded but never listed, whatever else the store holds. *)
Theorem draft_list_misses_barred_subjects subject key response store :
  has_char bar subject = true → key_subjectRef key = Some subject →
  draft_list subject store = [] ∧
  draft_load key (map_set store (keyStr key) response) = Some response.
Proof.
  intros Hb Hk. split.
  - unfold draft_list. induction store.*1 as [|k ks IH]; simpl; [done|].
    by rewrite listed_barred.
  - unfold draft_load. rewrite map_get_set. by rewrite decide_True.
Qed.
