(* ===== verification/MultiPartyFlow.v ===== *)
(** * Multi-party signing

    The multi-party part of src/src/app/respondent-flow.ts: the slots a resolved
    policy requires, the signing of one slot after another, the persisted state
    and the aggregate response.  The canonical bytes of a response, its digest
    and the wall clock are parameters. *)

From S2P Require Import Prelude JsValue FeatureKeys MultiPartyPolicy IdempotencyKey DraftKeys.
From Stdlib Require Import Ascii.

(** ** Party labels *)

Definition is_separator (c : ascii) : bool := bool_decide (c ∈ ["-"; "_"; ":"]%char).

(** [s.replace(/[-_:]+/g, ' ')]: each run of separators is one space. *)
Fixpoint collapse_separators (in_run : bool) (s : string) : string :=
  match s with
  | EmptyString => EmptyString
  | String c s' =>
      if is_separator c then
        if in_run then collapse_separators true s' else String " " (collapse_separators true s')
      else String c (collapse_separators false s')
  end.

Definition is_word_char (c : ascii) : bool :=
  let n := nat_of_ascii c in
  (48 <=? n) && (n <=? 57) || (65 <=? n) && (n <=? 90) || (97 <=? n) && (n <=? 122) || (n =? 95).

Definition to_upper (c : ascii) : ascii :=
  let n := nat_of_ascii c in if (97 <=? n) && (n <=? 122) then ascii_of_nat (n - 32) else c.

(** [s.replace(/\b\w/g, (letter) => letter.toUpperCase())] *)
Fixpoint capitalize_words (after_word : bool) (s : string) : string :=
  match s with
  | EmptyString => EmptyString
  | String c s' =>
      String (if is_word_char c && negb after_word then to_upper c else c) (capitalize_words (is_word_char c) s')
  end.

Definition labelFromPartyRef (partyRef : string) : string :=
  capitalize_words false (collapse_separators false partyRef).

(** ** Slots and progress *)

Record MultiPartyPartySlot : Set := { slot_partyRef : string; slot_roleId : string; slot_label : jsv }.

Record MultiPartySignatureRecord : Set := {
  sig_partyRef : string; sig_roleId : string; sig_subjectRef : string;
  sig_responseRef : string; sig_responseHash : string; sig_signedAt : string
}.

Record MultiPartySignerProgress : Set := {
  activePartyRef : string;
  signatures : list MultiPartySignatureRecord
}.

(** A FormResponse is an object value. *)
Record MultiPartyStoredResponse : Set := { stored_partyRef : string; stored_response : jsv }.

Record MultiPartyPersistedState : Set := {
  progress : MultiPartySignerProgress;
  responses : list MultiPartyStoredResponse
}.

(** [party.cardinality.min] slots for one party, numbered from one when there
    are several. *)
Definition party_slots (party : MultiPartyRolePolicy) : list MultiPartyPartySlot :=
  let count := card_min (cardinality party) in
  (λ index : Z,
     let partyRef :=
       if (count =? 1)%Z then roleId party else roleId party +:+ ":" +:+ pretty (index + 1)%Z in
     {| slot_partyRef := partyRef; slot_roleId := roleId party;
        slot_label := nullish_or (label party) (JStr (labelFromPartyRef partyRef)) |}) <$> seqZ 0 count.

Definition requiredMultiPartySlots (policy : MultiPartyRuntimeConfig) : list MultiPartyPartySlot :=
  flat_map party_slots (parties policy).

Definition createMultiPartySignerProgress (policy : MultiPartyRuntimeConfig)
    : outcome string MultiPartySignerProgress :=
  match requiredMultiPartySlots policy with
  | [] => Throws "multiParty requires at least one required party slot"
  | first :: _ => Returns {| activePartyRef := slot_partyRef first; signatures := [] |}
  end.

Definition createMultiPartyPersistedState (policy : MultiPartyRuntimeConfig)
    : outcome string MultiPartyPersistedState :=
  p ← createMultiPartySignerProgress policy;
  Returns {| progress := p; responses := [] |}.

(** ** Signing *)

(** An identity claim is its [subjectRef], the one member this module reads. *)
Section signing.
Context `{!HandoffBytes, !Digest}.

Definition ResponseHashUnavailableError : string :=
  "Secure response hashing is unavailable in this browser. Try again in a supported secure browser.".

Definition responseHash (subtleAvailable : bool) (response : jsv) : outcome string string :=
  throw_when (negb subtleAvailable) ResponseHashUnavailableError ;;
  encoded ← canonicalResponseHandoffBytes response;
  Returns ("sha256:" +:+ hex (sha256 encoded)).

Definition assertMultiPartySignerCanSubmit (claim : option string) (policy : MultiPartyRuntimeConfig)
    (progress : MultiPartySignerProgress) : outcome string MultiPartyPartySlot :=
  match claim with
  | None => Throws "Multi-party forms require each signer to authenticate before signing."
  | Some subjectRef =>
      let active := activePartyRef progress in
      throw_when (existsb (λ s, String.eqb (sig_partyRef s) active) (signatures progress))
        ("Party " +:+ dq +:+ active +:+ dq +:+ " has already signed.") ;;
      throw_when
        (existsb (λ s, String.eqb (sig_subjectRef s) subjectRef && negb (String.eqb (sig_partyRef s) active))
           (signatures progress))
        "Each party must sign with a distinct authenticated identity." ;;
      match List.find (λ slot, String.eqb (slot_partyRef slot) active) (requiredMultiPartySlots policy) with
      | Some slot => Returns slot
      | None => Throws ("Unknown active party " +:+ dq +:+ active +:+ dq +:+ ".")
      end
  end.

(** The signing environment: whether the browser hashes, and the clock. *)
Record SigningEnvironment : Set := { env_subtle : bool; env_now : string }.

Definition signature_for (slot : MultiPartyPartySlot) (subjectRef idempotencyKey hash now : string) (response : jsv)
    : MultiPartySignatureRecord :=
  {| sig_partyRef := slot_partyRef slot; sig_roleId := slot_roleId slot; sig_subjectRef := subjectRef;
     sig_responseRef := "response:" +:+ js_to_string (nullish_or (prop response "id") (JStr idempotencyKey));
     sig_responseHash := hash; sig_signedAt := now |}.

Definition signed (sigs : list MultiPartySignatureRecord) (partyRef : string) : bool :=
  existsb (λ s, String.eqb (sig_partyRef s) partyRef) sigs.

Definition recordMultiPartySigner (env : SigningEnvironment) (claim : option string) (idempotencyKey : string)
    (policy : MultiPartyRuntimeConfig) (progress : MultiPartySignerProgress) (response : jsv)
    : outcome string MultiPartySignerProgress :=
  activeSlot ← assertMultiPartySignerCanSubmit claim policy progress;
  match claim with
  | None => Throws "Multi-party forms require each signer to authenticate before signing."
  | Some subjectRef =>
      hash ← responseHash (env_subtle env) response;
      let nextSignatures :=
        signatures progress ++ [signature_for activeSlot subjectRef idempotencyKey hash (env_now env) response] in
      let nextSlot :=
        List.find (λ slot, negb (signed nextSignatures (slot_partyRef slot))) (requiredMultiPartySlots policy) in
      Returns
        {| activePartyRef := from_option slot_partyRef (slot_partyRef activeSlot) nextSlot;
           signatures := nextSignatures |}
  end.

Definition multiPartyComplete (policy : MultiPartyRuntimeConfig) (progress : MultiPartySignerProgress) : bool :=
  forallb (λ slot, signed (signatures progress) (slot_partyRef slot)) (requiredMultiPartySlots policy).

Definition recordMultiPartySignerState (env : SigningEnvironment) (claim : option string) (idempotencyKey : string)
    (policy : MultiPartyRuntimeConfig) (response : jsv) (state : MultiPartyPersistedState)
    : outcome string MultiPartyPersistedState :=
  let active := activePartyRef (progress state) in
  p ← recordMultiPartySigner env claim idempotencyKey policy (progress state) response;
  Returns
    {| progress := p;
       responses := List.filter (λ entry, negb (String.eqb (stored_partyRef entry) active)) (responses state)
         ++ [{| stored_partyRef := active; stored_response := response |}] |}.
End signing.

(** ** The persisted state *)

Definition MULTI_PARTY_PROGRESS_PARTY_REF : string := "__formspec-multi-party-progress".
Definition MULTI_PARTY_DATA_KEY : string := "x-formspec-multi-party".

(** The signature and response records as the draft stores them. *)
Definition signature_json (s : MultiPartySignatureRecord) : jsv :=
  JObj [("partyRef", JStr (sig_partyRef s)); ("roleId", JStr (sig_roleId s));
        ("subjectRef", JStr (sig_subjectRef s)); ("responseRef", JStr (sig_responseRef s));
        ("responseHash", JStr (sig_responseHash s)); ("signedAt", JStr (sig_signedAt s))].

Definition stored_json (e : MultiPartyStoredResponse) : jsv :=
  JObj [("partyRef", JStr (stored_partyRef e)); ("response", stored_response e)].

(** [isMultiPartySignatureRecord], with the record it recognises. *)
Definition isMultiPartySignatureRecord (value : jsv) : option MultiPartySignatureRecord :=
  if negb (isRecord value) then None
  else
    p ← str_of (prop value "partyRef"); r ← str_of (prop value "roleId");
    s ← str_of (prop value "subjectRef"); rr ← str_of (prop value "responseRef");
    h ← str_of (prop value "responseHash"); t ← str_of (prop value "signedAt");
    Some {| sig_partyRef := p; sig_roleId := r; sig_subjectRef := s; sig_responseRef := rr;
            sig_responseHash := h; sig_signedAt := t |}.

Definition isMultiPartyStoredResponse (value : jsv) : option MultiPartyStoredResponse :=
  if negb (isRecord value) then None
  else
    p ← str_of (prop value "partyRef");
    if isRecord (prop value "response") && is_lit (prop (prop value "response") "$formspecResponse") "1.0"
    then Some {| stored_partyRef := p; stored_response := prop value "response" |}
    else None.

(** [response.data] of a draft, [None] when there is no draft. *)
Definition multiPartyStateFromDraft (data : option jsv) (policy : MultiPartyRuntimeConfig)
    : outcome string MultiPartyPersistedState :=
  match data with
  | None => createMultiPartyPersistedState policy
  | Some data =>
      let raw := prop data MULTI_PARTY_DATA_KEY in
      if negb (isRecord raw) then createMultiPartyPersistedState policy
      else
        let slots := requiredMultiPartySlots policy in
        let slotRefs := slot_partyRef <$> slots in
        let activePartyRef :=
          match prop raw "activePartyRef" with
          | JStr a => if str_in a slotRefs then Some a else head slotRefs
          | _ => head slotRefs
          end in
        match activePartyRef with
        | None | Some EmptyString => createMultiPartyPersistedState policy
        | Some active =>
            let sigs := omap isMultiPartySignatureRecord (arr_of (prop raw "signatures")) in
            let stored := omap isMultiPartyStoredResponse (arr_of (prop raw "responses")) in
            Returns
              {| progress :=
                   {| activePartyRef := active;
                      signatures := List.filter (λ s, str_in (sig_partyRef s) slotRefs) sigs |};
                 responses := List.filter (λ e, str_in (stored_partyRef e) slotRefs) stored |}
        end
  end.

(** The [data] of the draft that [multiPartyStateDraftResponse] builds. *)
Definition multiPartyStateDraftData (state : MultiPartyPersistedState) : jsv :=
  JObj [(MULTI_PARTY_DATA_KEY,
         JObj [("activePartyRef", JStr (activePartyRef (progress state)));
               ("signatures", JArr (signature_json <$> signatures (progress state)));
               ("responses", JArr (stored_json <$> responses state))])].

Definition multiPartyStateDraftResponse (url version now : string) (state : MultiPartyPersistedState) : jsv :=
  JObj [("$formspecResponse", JStr "1.0"); ("definitionUrl", JStr url); ("definitionVersion", JStr version);
        ("status", JStr "in-progress"); ("data", multiPartyStateDraftData state); ("authored", JStr now)].

(** ** The aggregate response *)

Record SignedResponse : Set := {
  sr_partyRef : string; sr_roleId : string; sr_subjectRef : string; sr_response : jsv
}.

Definition signed_response (state : MultiPartyPersistedState) (s : MultiPartySignatureRecord)
    : outcome string SignedResponse :=
  match List.find (λ entry, String.eqb (stored_partyRef entry) (sig_partyRef s)) (responses state) with
  | None => Throws ("Missing response slice for party " +:+ dq +:+ sig_partyRef s +:+ dq +:+ ".")
  | Some stored =>
      Returns {| sr_partyRef := sig_partyRef s; sr_roleId := sig_roleId s; sr_subjectRef := sig_subjectRef s;
                 sr_response := stored_response stored |}
  end.

(** [Object.assign({}, ...responses.map(r => r.data))]: later signers win. *)
Definition merged_data (rs : list SignedResponse) : jsobj :=
  foldl (λ acc r, obj_spread acc (props_of (prop (sr_response r) "data"))) [] rs.

Definition party_response_data (r : SignedResponse) : jsv :=
  JObj [("partyRef", JStr (sr_partyRef r)); ("roleId", JStr (sr_roleId r)); ("subjectRef", JStr (sr_subjectRef r));
        ("responseId", prop (sr_response r) "id"); ("responseData", prop (sr_response r) "data")].

Definition party_response (r : SignedResponse) : jsv :=
  JObj [("partyRef", JStr (sr_partyRef r)); ("roleId", JStr (sr_roleId r)); ("subjectRef", JStr (sr_subjectRef r));
        ("response", sr_response r)].

Definition buildMultiPartyAggregateResponse (url version id now : string) (state : MultiPartyPersistedState)
    : outcome string jsv :=
  signedResponses ← map_each (signed_response state) (signatures (progress state));
  let partySignatures := JArr (signature_json <$> signatures (progress state)) in
  let data :=
    obj_set (merged_data signedResponses) MULTI_PARTY_DATA_KEY
      (JObj [("partySignatures", partySignatures);
             ("partyResponses", JArr (party_response_data <$> signedResponses))]) in
  Returns (JObj
    [("$formspecResponse", JStr "1.0"); ("definitionUrl", JStr url); ("definitionVersion", JStr version);
     ("status", JStr "completed"); ("id", JStr id); ("data", JObj data); ("authored", JStr now);
     ("extensions", JObj [(MULTI_PARTY_DATA_KEY,
        JObj [("partySignatures", partySignatures);
              ("partyResponses", JArr (party_response <$> signedResponses))])])]).

(** ** Draft keys *)

(** A 32-bit signed integer from any integer. *)
Definition to_int32 (z : Z) : Z := ((z + 2 ^ 31) mod 2 ^ 32 - 2 ^ 31)%Z.

(** [hash ^= byte; hash = Math.imul(hash, 16777619)] *)
Definition fnv_step (hash byte : Z) : Z := to_int32 (to_int32 (Z.lxor (to_int32 hash) byte) * 16777619).

(** [n.toString(16)] of a natural number; eight digits hold every 32-bit one. *)
Fixpoint hex_digits (fuel : nat) (n : Z) (acc : string) : string :=
  match fuel with
  | 0 => acc
  | S fuel' => if (n <? 16)%Z then String (hex_digit n) acc
               else hex_digits fuel' (n / 16) (String (hex_digit (n mod 16)) acc)
  end.

Definition int_to_hex (z : Z) : string :=
  if (z <? 0)%Z then "-" +:+ hex_digits 8 (- z) "" else hex_digits 8 z "".

Fixpoint zero_pad (n : nat) (s : string) : string := match n with 0 => s | S n' => String "0" (zero_pad n' s) end.
Definition pad_hex (s : string) : string := zero_pad (8 - String.length s) s.

Definition fallbackHash (bytes : string) : string :=
  pad_hex (int_to_hex (foldl fnv_step 2166136261%Z
    ((λ c, Z.of_nat (nat_of_ascii c)) <$> String.list_ascii_of_string bytes))).

Definition stableFormScope (formUrl : string) (formVersion : option string) : string :=
  fallbackHash (formUrl +:+ "|" +:+ default "latest" formVersion).

Definition multiPartyDraftKey (base : DraftKey) (partyRef : option string) : DraftKey :=
  match partyRef with
  | Some (String c s) =>
      {| key_formUrl := key_formUrl base; key_formVersion := key_formVersion base;
         key_subjectRef := key_subjectRef base; key_partyRef := Some (String c s) |}
  | _ => base
  end.

Definition multiPartyProgressDraftKey (base : DraftKey) : DraftKey :=
  {| key_formUrl := key_formUrl base; key_formVersion := key_formVersion base;
     key_subjectRef := Some ("formspec:multi-party:" +:+ stableFormScope (key_formUrl base) (key_formVersion base));
     key_partyRef := Some MULTI_PARTY_PROGRESS_PARTY_REF |}.
