(* ===== verification/MultiPartyTheorems.v ===== *)
(** * Theorems of multi-party signing

    Signing as a sequence of recordings from the created state: what every
    reachable state satisfies, that signing is never stuck before it is
    complete, when role ids make slots collide, and that the persisted state
    survives its draft. *)

From S2P Require Import Prelude JsValue FeatureKeys MultiPartyPolicy IdempotencyKey MultiPartyFlow DraftKeys.

Definition slot_refs (policy : MultiPartyRuntimeConfig) : list string :=
  slot_partyRef <$> requiredMultiPartySlots policy.

Lemma existsb_party_ref (f : MultiPartySignatureRecord → string) sigs x :
  existsb (λ s, String.eqb (f s) x) sigs = true ↔ x ∈ (f <$> sigs).
Proof.
  rewrite existsb_Exists, list_elem_of_fmap. split.
  - intros (s & Hs & E%String.eqb_eq). eauto.
  - intros (s & -> & Hs). exists s. by rewrite String.eqb_refl.
Qed.

Lemma signed_spec sigs x : signed sigs x = true ↔ x ∈ (sig_partyRef <$> sigs).
Proof. apply existsb_party_ref. Qed.

Lemma signed_false sigs x : signed sigs x = false ↔ x ∉ (sig_partyRef <$> sigs).
Proof. by rewrite <- signed_spec, not_true_iff_false. Qed.

Lemma complete_spec policy p :
  multiPartyComplete policy p = true ↔ slot_refs policy ⊆ (sig_partyRef <$> signatures p).
Proof.
  unfold multiPartyComplete, slot_refs. rewrite forallb_Forall, Forall_forall. setoid_rewrite signed_spec. split.
  - intros H x (s & -> & Hs)%list_elem_of_fmap. by apply H.
  - intros H s Hs. apply H, list_elem_of_fmap. eauto.
Qed.

Section signing_theorems.
Context `{!HandoffBytes, !Digest} (policy : MultiPartyRuntimeConfig).

(** The states an application reaches: the created one, and every successful
    recording, by any claim, with any response. *)
Inductive signing : MultiPartyPersistedState → Prop :=
  | signing_created st : createMultiPartyPersistedState policy = Returns st → signing st
  | signing_recorded env claim key response st st' :
      signing st → recordMultiPartySignerState env claim key policy response st = Returns st' → signing st'.

(** What every reachable state satisfies. *)
Record state_ok (st : MultiPartyPersistedState) : Prop := {
  st_active : activePartyRef (progress st) ∈ slot_refs policy;
  st_refs : NoDup (sig_partyRef <$> signatures (progress st));
  st_subjects : NoDup (sig_subjectRef <$> signatures (progress st));
  st_slots : (sig_partyRef <$> signatures (progress st)) ⊆ slot_refs policy;
  st_pending : multiPartyComplete policy (progress st) = false →
    activePartyRef (progress st) ∉ (sig_partyRef <$> signatures (progress st));
  st_stored x : (x ∈ (sig_partyRef <$> signatures (progress st))) ↔ (x ∈ (stored_partyRef <$> responses st))
}.

Lemma find_slot (refs : list MultiPartyPartySlot) x :
  (∃ slot, List.find (λ slot, String.eqb (slot_partyRef slot) x) refs = Some slot ∧ slot_partyRef slot = x ∧ (slot ∈ refs)) ∨
  (List.find (λ slot, String.eqb (slot_partyRef slot) x) refs = None ∧ x ∉ (slot_partyRef <$> refs)).
Proof.
  destruct (List.find _ refs) as [slot|] eqn:E.
  - left. apply find_some in E as [Hin E%String.eqb_eq]. apply list_elem_of_In in Hin. eauto.
  - right. split; [done|]. intros (slot & -> & Hin)%list_elem_of_fmap.
    apply list_elem_of_In in Hin. apply find_none with (x := slot) in E; [|done].
    simpl in E. by rewrite String.eqb_refl in E.
Qed.

Lemma can_submit_spec claim p slot :
  assertMultiPartySignerCanSubmit claim policy p = Returns slot →
  ∃ subject, claim = Some subject ∧ slot_partyRef slot = activePartyRef p ∧ slot ∈ requiredMultiPartySlots policy ∧
    (activePartyRef p ∉ (sig_partyRef <$> signatures p)) ∧ subject ∉ (sig_subjectRef <$> signatures p).
Proof.
  unfold assertMultiPartySignerCanSubmit. destruct claim as [subject|]; [|done].
  rewrite !seq_Returns, !throw_when_Returns. intros (Ha & Hd & Hf). exists subject. split; [done|].
  destruct (find_slot (requiredMultiPartySlots policy) (activePartyRef p)) as [(s & Hs & ? & ?)|[Hn _]];
    [rewrite Hs in Hf|by rewrite Hn in Hf]. injection Hf as <-. split; [done|]. split; [done|].
  assert (activePartyRef p ∉ (sig_partyRef <$> signatures p)) as Hact.
  { by rewrite <- existsb_party_ref, not_true_iff_false. }
  split; [done|]. intros (s' & -> & Hs')%list_elem_of_fmap.
  rewrite <- not_true_iff_false, existsb_Exists in Hd. destruct Hd. exists s'. split; [done|].
  rewrite String.eqb_refl. simpl. apply negb_true_iff, String.eqb_neq. intros E. apply Hact.
  apply list_elem_of_fmap. eauto.
Qed.

Lemma record_spec env claim key response st st' :
  recordMultiPartySignerState env claim key policy response st = Returns st' →
  ∃ subject slot hash,
    assertMultiPartySignerCanSubmit claim policy (progress st) = Returns slot ∧ claim = Some subject ∧
    signatures (progress st') = signatures (progress st) ++
      [signature_for slot subject key hash (env_now env) response] ∧
    activePartyRef (progress st') =
      from_option slot_partyRef (slot_partyRef slot)
        (List.find (λ s, negb (signed (signatures (progress st')) (slot_partyRef s))) (requiredMultiPartySlots policy)) ∧
    responses st' =
      List.filter (λ e, negb (String.eqb (stored_partyRef e) (activePartyRef (progress st)))) (responses st)
        ++ [{| stored_partyRef := activePartyRef (progress st); stored_response := response |}].
Proof.
  unfold recordMultiPartySignerState. intros (p & Hp & [= <-])%bind_Returns.
  unfold recordMultiPartySigner in Hp. apply bind_Returns in Hp as (slot & Hslot & Hp).
  destruct claim as [subject|]; [|done]. apply bind_Returns in Hp as (hash & _ & [= <-]).
  exists subject, slot, hash. done.
Qed.

Lemma next_slot_spec sigs d :
  let next := List.find (λ s, negb (signed sigs (slot_partyRef s))) (requiredMultiPartySlots policy) in
  (∃ s, next = Some s ∧ slot_partyRef s ∈ slot_refs policy ∧ slot_partyRef s ∉ (sig_partyRef <$> sigs)) ∨
  (next = None ∧ slot_refs policy ⊆ (sig_partyRef <$> sigs) ∧ from_option slot_partyRef d next = d).
Proof.
  cbv zeta. destruct (List.find _ _) as [s|] eqn:E.
  - left. apply find_some in E as [Hin E]. apply negb_true_iff, signed_false in E.
    exists s. split; [done|]. split; [|done]. apply list_elem_of_fmap. exists s. split; [done|]. by apply list_elem_of_In.
  - right. split; [done|]. split; [|done]. intros x (s & -> & Hin%list_elem_of_In)%list_elem_of_fmap.
    apply find_none with (x := s) in E; [|done]. simpl in E. by apply negb_false_iff, signed_spec in E.
Qed.

Lemma signing_ok st : signing st → state_ok st.
Proof.
  induction 1 as [st Hc|env claim key response st st' _ [Hact Hrefs Hsubj Hslots Hpend Hst] Hrec].
  - unfold createMultiPartyPersistedState, createMultiPartySignerProgress in Hc.
    destruct (requiredMultiPartySlots policy) as [|s l] eqn:E; simpl in Hc; [done|]. injection Hc as <-.
    split; simpl; [|constructor|constructor|set_solver|intros _; apply not_elem_of_nil|done].
    unfold slot_refs. rewrite E. left.
  - apply record_spec in Hrec as (subject & slot & hash & Hcan & -> & Hsigs & Hnext & Hresp).
    apply can_submit_spec in Hcan as (subject' & [= <-] & Hslot & Hin & Hnot & Hnew).
    assert (slot_partyRef slot ∈ slot_refs policy) as Hsr by (apply list_elem_of_fmap; eauto).
    assert (sig_partyRef <$> signatures (progress st') =
      (sig_partyRef <$> signatures (progress st)) ++ [slot_partyRef slot]) as Hp' by (by rewrite Hsigs, fmap_app).
    assert (sig_subjectRef <$> signatures (progress st') =
      (sig_subjectRef <$> signatures (progress st)) ++ [subject]) as Hs' by (by rewrite Hsigs, fmap_app).
    pose proof (next_slot_spec (signatures (progress st')) (slot_partyRef slot)) as Hns. cbv zeta in Hns.
    split.
    + rewrite Hnext. by destruct Hns as [(s & -> & ? & _)|(-> & _ & _)].
    + rewrite Hp'. apply NoDup_app. split; [done|]. split; [|apply NoDup_singleton].
      intros x Hx ->%list_elem_of_singleton. by rewrite Hslot in Hx.
    + rewrite Hs'. apply NoDup_app. split; [done|]. split; [|apply NoDup_singleton].
      intros x Hx ->%list_elem_of_singleton. done.
    + rewrite Hp'. intros x [?| ->%list_elem_of_singleton]%elem_of_app; [by apply Hslots|done].
    + rewrite Hnext. intros Hc. destruct Hns as [(s & -> & _ & ?)|(_ & Hall & _)]; [done|].
      apply complete_spec in Hall. congruence.
    + intros x. rewrite Hp', Hresp, fmap_app, !elem_of_app, !list_elem_of_singleton, Hst, Hslot. simpl.
      rewrite list_elem_of_singleton. rewrite !list_elem_of_fmap. setoid_rewrite elem_of_filterb.
      setoid_rewrite negb_true_iff. setoid_rewrite String.eqb_neq.
      destruct (decide (x = activePartyRef (progress st))) as [->|Hne]; [tauto|].
      split; (intros [(e & -> & He)|?]; [left; exists e|by right]); [done|]. by destruct He.
Qed.

Lemma aggregate_returns url version id now st :
  state_ok st → ∃ r, buildMultiPartyAggregateResponse url version id now st = Returns r.
Proof.
  intros Hok. unfold buildMultiPartyAggregateResponse.
  assert (∃ rs, map_each (signed_response st) (signatures (progress st)) = Returns rs) as [rs ->]; [|by eexists].
  setoid_rewrite map_each_Returns.
  assert (∀ s, s ∈ signatures (progress st) → ∃ r, signed_response st s = Returns r) as Hall.
  { intros s Hs. unfold signed_response. destruct (List.find _ (responses st)) as [e|] eqn:E; [by eexists|].
    assert (sig_partyRef s ∈ (stored_partyRef <$> responses st)) as (e & He & Hin)%list_elem_of_fmap.
    { apply (st_stored _ Hok), list_elem_of_fmap. eauto. }
    apply find_none with (x := e) in E; [|by apply list_elem_of_In].
    simpl in E. by rewrite He, String.eqb_refl in E. }
  induction (signatures (progress st)) as [|s l IH]; [by exists []; constructor|].
  destruct (Hall s) as [r Hr]; [by left|]. destruct IH as [rs Hrs]; [intros s' ?; apply Hall; by right|].
  exists (r :: rs). by constructor.
Qed.

Lemma record_returns env key response st subject bytes :
  state_ok st → multiPartyComplete policy (progress st) = false →
  subject ∉ (sig_subjectRef <$> signatures (progress st)) →
  env_subtle env = true → canonicalResponseHandoffBytes response = Returns bytes →
  ∃ st', recordMultiPartySignerState env (Some subject) key policy response st = Returns st'.
Proof.
  intros [Hact _ _ _ Hpend _] Hc Hnew Hsub Hbytes.
  unfold recordMultiPartySignerState, recordMultiPartySigner, assertMultiPartySignerCanSubmit.
  assert (existsb (λ s, String.eqb (sig_partyRef s) (activePartyRef (progress st))) (signatures (progress st)) = false) as ->.
  { rewrite <- not_true_iff_false, existsb_party_ref. by apply Hpend. }
  assert (existsb (λ s, String.eqb (sig_subjectRef s) subject &&
    negb (String.eqb (sig_partyRef s) (activePartyRef (progress st)))) (signatures (progress st)) = false) as ->.
  { rewrite <- not_true_iff_false, existsb_Exists. intros (s & Hs & [E%String.eqb_eq _]%andb_true_iff).
    apply Hnew, list_elem_of_fmap. eauto. }
  destruct (find_slot (requiredMultiPartySlots policy) (activePartyRef (progress st)))
    as [(slot & -> & _)|[_ Hn]]; [|done]. simpl.
  unfold responseHash. rewrite Hsub, Hbytes. simpl. by eexists.
Qed.

(** C13.  In every state signing can reach, each slot is signed at most once,
    by distinct identities, and only required slots are signed; the aggregate
    response can always be built; and signing is never stuck: while some slot is
    unsigned any new identity can sign the active one, and once every slot is
    signed nobody can sign again. *)
Theorem multi_party_signing st :
  signing st →
  NoDup (sig_partyRef <$> signatures (progress st)) ∧
  NoDup (sig_subjectRef <$> signatures (progress st)) ∧
  (sig_partyRef <$> signatures (progress st)) ⊆ slot_refs policy ∧
  (∀ url version id now, ∃ r, buildMultiPartyAggregateResponse url version id now st = Returns r) ∧
  (multiPartyComplete policy (progress st) = false →
     ∀ env subject key response bytes,
       subject ∉ (sig_subjectRef <$> signatures (progress st)) → env_subtle env = true →
       canonicalResponseHandoffBytes response = Returns bytes →
       ∃ st', recordMultiPartySignerState env (Some subject) key policy response st = Returns st' ∧
         length (signatures (progress st')) = S (length (signatures (progress st)))) ∧
  (multiPartyComplete policy (progress st) = true →
     ∀ env claim key response, ∃ e, recordMultiPartySignerState env claim key policy response st = Throws e).
Proof.
  intros Hs%signing_ok. pose proof Hs as [Hact Hrefs Hsubj Hslots Hpend Hst].
  split; [done|]. split; [done|]. split; [done|]. split; [intros; by apply aggregate_returns|]. split.
  - intros Hc env subject key response bytes Hnew Hsub Hb.
    destruct (record_returns env key response st subject bytes) as [st' Hst']; [done..|].
    exists st'. split; [done|]. apply record_spec in Hst' as (? & ? & ? & _ & _ & -> & _).
    rewrite length_app. simpl. lia.
  - intros Hc env claim key response.
    destruct (recordMultiPartySignerState env claim key policy response st) as [st'|e] eqn:E; [|eauto].
    apply record_spec in E as (subject & slot & hash & Hcan & _).
    apply can_submit_spec in Hcan as (_ & _ & _ & _ & Hnot & _).
    apply complete_spec in Hc. by apply Hc in Hact.
Qed.

(** ** The draft of the persisted state *)

Lemma read_signature_json s : isMultiPartySignatureRecord (signature_json s) = Some s.
Proof. by destruct s. Qed.

Lemma read_stored_json e :
  isRecord (stored_response e) = true → is_lit (prop (stored_response e) "$formspecResponse") "1.0" = true →
  isMultiPartyStoredResponse (stored_json e) = Some e.
Proof.
  intros Hr Hl. unfold isMultiPartyStoredResponse.
  change (prop (stored_json e) "partyRef") with (JStr (stored_partyRef e)).
  change (prop (stored_json e) "response") with (stored_response e). rewrite Hr, Hl. by destruct e.
Qed.

Lemma omap_fmap_Some {A B} (f : A → B) (g : B → option A) (l : list A) :
  (∀ y, y ∈ l → g (f y) = Some y) → omap g (f <$> l) = l.
Proof.
  induction l as [|x l IH]; intros Hx; [done|]. csimpl. rewrite (Hx x) by (by left).
  f_equal. apply IH. intros y ?. apply Hx. by right.
Qed.

Lemma filter_all {A} (f : A → bool) (l : list A) : (∀ y, y ∈ l → f y = true) → List.filter f l = l.
Proof.
  induction l as [|x l IH]; intros Hx; [done|]. simpl. rewrite (Hx x) by (by left).
  f_equal. apply IH. intros y ?. apply Hx. by right.
Qed.
End signing_theorems.

(** A reachable state survives its draft: saved as the progress draft and
    read back under the same policy, it is the same state, provided the stored
    responses are FormResponses and no required slot has an empty reference. *)
Theorem multi_party_draft_round_trip `{!HandoffBytes, !Digest} policy url version now st :
  signing policy st →
  "" ∉ slot_refs policy →
  (∀ e, e ∈ responses st → isRecord (stored_response e) = true ∧
     is_lit (prop (stored_response e) "$formspecResponse") "1.0" = true) →
  multiPartyStateFromDraft (Some (prop (multiPartyStateDraftResponse url version now st) "data")) policy = Returns st.
Proof.
  intros Hs%signing_ok Hne Hresp. pose proof Hs as [Hact _ _ Hslots _ Hst].
  unfold multiPartyStateFromDraft, multiPartyStateDraftResponse, multiPartyStateDraftData.
  destruct st as [[active sigs] stored]; simpl in *.
  unfold prop, obj_get; simpl. fold (slot_refs policy).
  rewrite (proj2 (str_in_spec active (slot_refs policy)) Hact).
  destruct active as [|c a]; [done|]. rewrite !omap_fmap_Some.
  - rewrite !filter_all; [done| |].
    + intros e He. apply str_in_spec, Hslots, Hst, list_elem_of_fmap. eauto.
    + intros s Hs'. apply str_in_spec, Hslots, list_elem_of_fmap. eauto.
  - intros e He. by apply read_stored_json; apply Hresp.
  - intros s _. apply read_signature_json.
Qed.

(** ** Slots that collide *)

Definition role_of (rid : string) (n : Z) : MultiPartyRolePolicy :=
  {| roleId := rid; label := JUndef; role := CoEqual;
     cardinality := {| card_min := n; card_max := Some n |}; assuranceFloor := JUndef;
     visibilityScope := SharedScope; visibleTo := None; editableBy := None; signedBy := None;
     safeAddressAudience := None |}.

(** A role [witness] with two slots, and a role named [witness:1]. *)
Definition colliding_policy : MultiPartyRuntimeConfig :=
  {| tier := CoEqualTier; parties := [role_of "witness" 2; role_of "witness:1" 1];
     invitationChannel := Some OutOfBand; deadlinePolicy := None |}.

(** The validator's distinct role ids do not make slots distinct: a
    well-formed policy requires three slots of which two share a reference, and
    signing it is complete after two signatures, with one required party never
    having signed. *)
Theorem multi_party_slots_collide `{!HandoffBytes, !Digest} response bytes :
  canonicalResponseHandoffBytes response = Returns bytes →
  multi_party_wf colliding_policy ∧ length (requiredMultiPartySlots colliding_policy) = 3 ∧
  ∃ st, signing colliding_policy st ∧ multiPartyComplete colliding_policy (progress st) = true ∧
    (sig_roleId <$> signatures (progress st)) = ["witness"; "witness"].
Proof.
  intros Hb. split; [|split; [reflexivity|]].
  - constructor; simpl; [lia| | |done].
    + apply (bool_decide_unpack _). vm_compute. exact I.
    + repeat constructor; simpl; try done; try lia; by intros ? ? [=].
  - set (env := {| env_subtle := true; env_now := "now" |}).
    assert (signing colliding_policy
      {| progress := {| activePartyRef := "witness:1"; signatures := [] |}; responses := [] |}) as Hinit.
    { by apply signing_created. }
    set (h := "sha256:" +:+ hex (sha256 bytes)).
    assert (∀ st claim st', signing colliding_policy st →
      recordMultiPartySignerState env claim "key" colliding_policy response st = Returns st' →
      signing colliding_policy st') as Hstep by (intros; by eapply signing_recorded).
    eexists. split; [eapply (Hstep _ (Some "bob")); [eapply (Hstep _ (Some "alice")); [exact Hinit|]|]|].
    + unfold recordMultiPartySignerState, recordMultiPartySigner, responseHash; simpl. rewrite Hb. simpl. reflexivity.
    + unfold recordMultiPartySignerState, recordMultiPartySigner, responseHash; simpl. rewrite Hb. simpl. reflexivity.
    + split; reflexivity.
Qed.

(** ** Witnesses *)

Section samples.
Local Instance sample_bytes : HandoffBytes := λ v, Returns (js_to_string v).
Local Instance digest_for_signing_samples : Digest := sample_digest.

Definition couple_policy : MultiPartyRuntimeConfig :=
  {| tier := CoEqualTier; parties := [role_of "a" 1; role_of "b" 1];
     invitationChannel := Some OutOfBand; deadlinePolicy := None |}.

Definition couple_created : MultiPartyPersistedState :=
  {| progress := {| activePartyRef := "a"; signatures := [] |}; responses := [] |}.

Lemma couple_signing : signing couple_policy couple_created.
Proof. by apply signing_created. Qed.

Definition sample_response : jsv := JObj [("$formspecResponse", JStr "1.0"); ("id", JStr "r1"); ("data", JObj [])].

Lemma multi_party_signing_witness :
  ∃ st', recordMultiPartySignerState {| env_subtle := true; env_now := "now" |} (Some "alice") "key" couple_policy
           sample_response couple_created = Returns st' ∧ length (signatures (progress st')) = 1.
Proof.
  destruct (multi_party_signing couple_policy couple_created couple_signing) as (_ & _ & _ & _ & H & _).
  destruct (H eq_refl {| env_subtle := true; env_now := "now" |} "alice" "key" sample_response
    "[object Object]" (not_elem_of_nil _) eq_refl eq_refl) as (st' & Hst' & Hl).
  exists st'. split; [exact Hst'|exact Hl].
Defined.

Lemma multi_party_draft_round_trip_witness :
  ∃ st, signing couple_policy st ∧
    length (signatures (progress st)) = 1 ∧
    multiPartyStateFromDraft (Some (prop (multiPartyStateDraftResponse "u" "1" "now" st) "data")) couple_policy =
      Returns st.
Proof.
  destruct (recordMultiPartySignerState {| env_subtle := true; env_now := "now" |} (Some "alice") "key" couple_policy
    sample_response couple_created) as [st|e] eqn:E; [|vm_compute in E; discriminate E].
  exists st. assert (signing couple_policy st) as Hs by exact (signing_recorded _ _ _ _ _ _ _ couple_signing E).
  split; [exact Hs|].
  assert (responses st = [{| stored_partyRef := "a"; stored_response := sample_response |}] ∧
          length (signatures (progress st)) = 1) as [Hr Hl].
  { vm_compute in E. injection E as <-. split; reflexivity. }
  split; [exact Hl|].
  refine (multi_party_draft_round_trip couple_policy "u" "1" "now" st Hs _ _).
  - apply (bool_decide_unpack _). vm_compute. exact I.
  - intros e He. rewrite Hr in He. apply list_elem_of_singleton in He. subst e. split; reflexivity.
Defined.

Lemma multi_party_slots_collide_witness :
  ∃ st, signing colliding_policy st ∧ multiPartyComplete colliding_policy (progress st) = true ∧
    (sig_roleId <$> signatures (progress st)) = ["witness"; "witness"].
Proof.
  exact (proj2 (proj2 (multi_party_slots_collide sample_response "[object Object]" eq_refl))).
Defined.
End samples.
