(* ===== verification/EntryGates.v ===== *)
(** * Entering a form: identity, assurance and the embedding host

    The parts of src/src/app/respondent-flow.ts that decide whether a
    respondent may load and submit a form: the sign-in options a deployment
    shows, the assurance floor a definition states, and the check of the
    page that embeds the form.  Also the intake handoff a submission carries,
    and the in-memory embed transport (src/src/adapters/stub/embed-transport.ts). *)

From S2P Require Import Prelude JsValue FeatureKeys Resolver ResolverTheorems IdempotencyKey DraftKeys MultiPartyFlow.

(** ** The identity port (src/src/ports/identity-provider.ts) *)

Inductive AssuranceLevel : Set := L1 | L2 | L3 | L4.

Inductive MagicLinkChannel : Set := EmailChannel | SmsChannel.

Inductive IdpOption : Set :=
  | MagicLinkOption (channel : MagicLinkChannel) (minAssurance : AssuranceLevel)
  | OidcOption (issuer displayName : string) (minAssurance : AssuranceLevel)
  | AnonymousOption.

#[export] Instance AssuranceLevel_eq_dec : EqDecision AssuranceLevel.
Proof. solve_decision. Defined.
#[export] Instance MagicLinkChannel_eq_dec : EqDecision MagicLinkChannel.
Proof. solve_decision. Defined.
#[export] Instance IdpOption_eq_dec : EqDecision IdpOption.
Proof. solve_decision. Defined.

Definition minAssurance (opt : IdpOption) : AssuranceLevel :=
  match opt with MagicLinkOption _ m | OidcOption _ _ m => m | AnonymousOption => L1 end.

(** The enumerated members of a claim are their literals. *)
Record IdentityClaim : Set := {
  provider : string;
  adapter : string;
  subjectRef : string;
  did : option string;
  verificationMethod : option string;
  credentialType : string;
  credentialRef : option string;
  personhoodCheck : option string;
  subjectBinding : string;
  assuranceLevel : AssuranceLevel;
  privacyTier : option string;
  selectiveDisclosureProfile : option string;
  evidenceRef : option string;
  expiresAt : option string;
  nistAssurance : option (option string * option string * option string)
}.

Inductive IdentityMode : Set := OidcRequired | AnonymousAllowed.

#[export] Instance IdentityMode_eq_dec : EqDecision IdentityMode.
Proof. solve_decision. Defined.

(** ** Sign-in options *)

Definition is_anonymous (opt : IdpOption) : bool :=
  match opt with AnonymousOption => true | _ => false end.
Definition is_oidc (opt : IdpOption) : bool :=
  match opt with OidcOption _ _ _ => true | _ => false end.

Definition selectBootIdentityOption (options : list IdpOption) (pickerWillRender : bool) : option IdpOption :=
  if pickerWillRender then None else List.find is_anonymous options.

Definition signInOptionsForIdentityPolicy (options : list IdpOption) (identityMode : IdentityMode)
    (runtimeMode : Mode) : list IdpOption :=
  match runtimeMode with
  | Demo => []
  | Production =>
      match identityMode with
      | OidcRequired => List.filter is_oidc options
      | AnonymousAllowed =>
          match options with
          | [] => []
          | [o] => if is_anonymous o then [] else [o]
          | _ => options
          end
      end
  end.

Definition assertIdentityPolicySatisfied (claim : option IdentityClaim) (identityMode : IdentityMode)
    (runtimeMode : Mode) : outcome string unit :=
  throw_when (bool_decide (runtimeMode = Production) && bool_decide (identityMode = OidcRequired)
                && match claim with None => true | Some _ => false end)
    "This deployment requires sign-in before the form can be loaded.".

(** ** Assurance *)

Definition assuranceRank (level : AssuranceLevel) : Z :=
  match level with L1 => 1 | L2 => 2 | L3 => 3 | L4 => 4 end.

Definition level_string (level : AssuranceLevel) : string :=
  match level with L1 => "L1" | L2 => "L2" | L3 => "L3" | L4 => "L4" end.

(** [isAssuranceLevel], with the level it recognises. *)
Definition isAssuranceLevel (value : jsv) : option AssuranceLevel :=
  List.find (λ l, is_lit value (level_string l)) [L1; L2; L3; L4].

(** The object at [source[key]], [None] when absent: JavaScript's [undefined]. *)
Definition optionalObject (source : jsv) (key : string) : outcome string (option jsobj) :=
  if negb (is_object source) then Returns None
  else
    match prop source key with
    | JUndef => Returns None
    | JObj o => Returns (Some o)
    | _ => Throws (key +:+ " must be an object")
    end.

Definition optionalAssuranceLevel (source : jsobj) (key : string) : outcome string (option AssuranceLevel) :=
  let value := obj_get source key in
  if is_undefined value then Returns None
  else
    match isAssuranceLevel value with
    | Some l => Returns (Some l)
    | None => Throws ("metadata.assurance." +:+ key +:+ " must be one of L1, L2, L3, L4")
    end.

Definition optionalString (source : jsobj) (key : string) : outcome string (option string) :=
  let value := obj_get source key in
  if is_undefined value then Returns None
  else
    match value with
    | JStr s => Returns (Some s)
    | _ => Throws ("metadata.assurance." +:+ key +:+ " must be a string")
    end.

(** The stronger of the two levels. *)
Definition max_level (a b : AssuranceLevel) : AssuranceLevel :=
  if (assuranceRank b <=? assuranceRank a)%Z then a else b.

Definition formAssuranceFloorForDefinition (definition : jsv) : outcome string (option AssuranceLevel) :=
  metadata ← optionalObject definition "metadata";
  assurance ← optionalObject (from_option JObj JUndef metadata) "assurance";
  match assurance with
  | None => Returns None
  | Some assurance =>
      ial ← optionalAssuranceLevel assurance "ial";
      aal ← optionalAssuranceLevel assurance "aal";
      optionalString assurance "jurisdiction" ≫= λ _,
      Returns (union_with (λ i a, Some (max_level i a)) ial aal)
  end.

Definition identityClaimMeetsAssurance (claim : option IdentityClaim) (required : option AssuranceLevel) : bool :=
  match required with
  | None => true
  | Some r =>
      match claim with
      | Some c => (assuranceRank r <=? assuranceRank (assuranceLevel c))%Z
      | None => false
      end
  end.

Definition idpOptionMeetsAssurance (opt : IdpOption) (required : option AssuranceLevel) : bool :=
  match required with None => true | Some r => (assuranceRank r <=? assuranceRank (minAssurance opt))%Z end.

Definition subjectRefInvalidatedByIdentityChange (previous next : option IdentityClaim) : option string :=
  match subjectRef <$> previous with
  | None | Some EmptyString => None
  | Some previousSubjectRef =>
      if bool_decide (Some previousSubjectRef = subjectRef <$> next) then None else Some previousSubjectRef
  end.

Definition identitySubjectChanged (previous next : option IdentityClaim) : bool :=
  negb (bool_decide (subjectRef <$> previous = subjectRef <$> next)).

(** ** The embedding host *)

(** What the gate reads of an [EmbedTransport]. *)
Record EmbedTransport : Set := { isEmbedded : bool; hostOrigin : option string }.

(** [getEmbedLimits(policy)?.allowedOrigins ?? []]; the resolver has checked
    the entries to be strings. *)
Definition getEmbedLimits (policy : OrgRuntimePolicy) : option jsv :=
  let value := org_limit policy Embed in if is_undefined value then None else Some value.

Definition allowedOrigins (policy : OrgRuntimePolicy) : list string :=
  default [] (limits ← getEmbedLimits policy; strings_of (prop limits "allowedOrigins")).

Section embed.
Context `{!UrlParser}.

Fixpoint matches_entry (normalizedHost : string) (allowed : list string) : bool :=
  match allowed with
  | [] => false
  | entry :: rest =>
      if String.eqb entry "*" then true
      else
        match url_origin entry with
        | None => matches_entry normalizedHost rest
        | Some normalizedEntry =>
            if String.eqb normalizedEntry normalizedHost then true else matches_entry normalizedHost rest
        end
  end.

Definition matchesAllowedOrigin (host : string) (allowed : list string) : bool :=
  match allowed with
  | [] => false
  | _ => match url_origin host with None => false | Some normalizedHost => matches_entry normalizedHost allowed end
  end.

Definition verifyEmbedOriginAllowed (runtimeProfile : ResolvedRuntimeProfile) (policy : OrgRuntimePolicy)
    (transport : EmbedTransport) : check :=
  if negb (bool_decide (Embed ∈ p_enabled runtimeProfile)) then Returns ()
  else if negb (isEmbedded transport) then Returns ()
  else
    match hostOrigin transport with
    | None =>
        Throws (EmbedOriginNotAllowedError
          "embed transport reports the form is in an iframe but the host origin could not be determined")
    | Some host =>
        throw_when (negb (matchesAllowedOrigin host (allowedOrigins policy)))
          (EmbedOriginNotAllowedError
             ("host origin " +:+ dq +:+ host +:+ dq +:+ " is not in the allowed-origins list"))
    end.

(** The in-memory transport: what it reports, and the messages it sent. *)
Record StubEmbedTransport (M : Type) : Type := {
  stub_embedded : bool;
  stub_configuredHostOrigin : option string;
  stub_sent : list (M * string)
}.

Definition stubEmbedTransport {M} (embedded : option bool) (host : option string) : StubEmbedTransport M :=
  {| stub_embedded := default false embedded; stub_configuredHostOrigin := host; stub_sent := [] |}.

Definition stub_embed_view {M} (t : StubEmbedTransport M) : EmbedTransport :=
  {| isEmbedded := stub_embedded M t;
     hostOrigin := if stub_embedded M t then stub_configuredHostOrigin M t else None |}.

Definition assertWellFormedTargetOrigin (value : string) : outcome string unit :=
  throw_when (negb (nonempty value)) "EmbedTransport.postMessage: targetOrigin must be a non-empty origin" ;;
  match url_origin value with
  | None => Throws ("EmbedTransport.postMessage: targetOrigin " +:+ dq +:+ value +:+ dq +:+ " is not a valid URL")
  | Some origin =>
      throw_when (negb (String.eqb origin value))
        ("EmbedTransport.postMessage: targetOrigin " +:+ dq +:+ value +:+ dq
           +:+ " must be an origin (no path, query, or fragment); got " +:+ dq +:+ origin +:+ dq +:+ " canonical")
  end.

Definition postMessage {M} (message : M) (targetOrigin : string) (t : StubEmbedTransport M)
    : outcome string (StubEmbedTransport M) :=
  throw_when (String.eqb targetOrigin "*")
    "EmbedTransport.postMessage: targetOrigin '*' is forbidden; use a concrete origin" ;;
  assertWellFormedTargetOrigin targetOrigin ;;
  Returns {| stub_embedded := stub_embedded M t; stub_configuredHostOrigin := stub_configuredHostOrigin M t;
             stub_sent := stub_sent M t ++ [(message, targetOrigin)] |}.
End embed.

(** ** The intake handoff *)

Record MultiPartyHandoffContext : Set := {
  mp_policy : jsv;
  mp_progress : MultiPartySignerProgress;
  mp_activePartyRef : string
}.

Record IntakeHandoff : Set := {
  handoffId : string;
  initiationMode : string;
  handoff_definitionUrl : string;
  handoff_definitionVersion : string;
  responseRef : string;
  handoff_responseHash : string;
  validationReportRef : string;
  intakeSessionId : string;
  actorRef : option string;
  handoff_subjectRef : option string;
  ledgerHeadRef : string;
  occurredAt : string;
  handoff_extensions : jsobj
}.

Section handoff.
Context `{!HandoffBytes, !Digest}.

Definition handoff_extension_members (response : jsv) (validationReport : option jsv)
    (multiParty : option MultiPartyHandoffContext) : jsobj :=
  [("x-formspec-response", response); ("x-formspec-response-data", prop response "data");
   ("x-formspec-validation-report", default JNull validationReport)] ++
  match multiParty with
  | None => []
  | Some mp =>
      [("x-formspec-active-party-ref", JStr (mp_activePartyRef mp));
       ("x-formspec-multi-party",
        JObj [("tier", prop (mp_policy mp) "tier");
              ("invitationChannel", prop (mp_policy mp) "invitationChannel");
              ("parties", prop (mp_policy mp) "parties");
              ("partySignatures", JArr (signature_json <$> signatures (mp_progress mp)))])]
  end.

Definition buildIntakeHandoff (env : SigningEnvironment) (url version : string) (response : jsv)
    (validationReport : option jsv) (draftKey : DraftKey) (claim : option IdentityClaim) (idempotencyKey : string)
    (multiParty : option MultiPartyHandoffContext) : outcome string IntakeHandoff :=
  let responseId := js_to_string (nullish_or (prop response "id") (JStr idempotencyKey)) in
  hash ← responseHash (env_subtle env) response;
  Returns
    {| handoffId := "handoff:" +:+ idempotencyKey;
       initiationMode := "publicIntake";
       handoff_definitionUrl := url;
       handoff_definitionVersion := version;
       responseRef := "response:" +:+ responseId;
       handoff_responseHash := hash;
       validationReportRef :=
         match validationReport with Some _ => "validation:" +:+ responseId | None => "validation:none" end;
       intakeSessionId := "intake-session:" +:+ default "anonymous" (key_subjectRef draftKey);
       actorRef := subjectRef <$> claim;
       handoff_subjectRef := subjectRef <$> claim;
       ledgerHeadRef := "ledger:" +:+ responseId +:+ ":head";
       occurredAt := env_now env;
       handoff_extensions := handoff_extension_members response validationReport multiParty |}.
End handoff.

(** ** The gate decides by the validated allow-list *)

Section embed_lemmas.
Context `{!UrlParser}.

(** An entry that [validateEmbedLimits] accepts is the wildcard or its own
    origin. *)
Definition origin_entry (e : string) : Prop := e = "*" ∨ url_origin e = Some e.

Lemma valid_allowed_origins policy :
  validateEmbedLimits (org_limit policy Embed) = Returns () → Forall origin_entry (allowedOrigins policy).
Proof.
  unfold validateEmbedLimits, allowedOrigins, getEmbedLimits.
  destruct (is_undefined (org_limit policy Embed)); simpl; [constructor|].
  rewrite !seq_Returns, for_each_Returns. intros (_ & _ & Hall).
  destruct (prop (org_limit policy Embed) "allowedOrigins") as [| | | | |l|]; simpl in *; try by constructor.
  apply Forall_forall. intros e (v & Hv & He)%list_elem_of_omap.
  destruct v as [| | | |s| |]; try discriminate He. injection He as ->.
  rewrite Forall_forall in Hall. pose proof (Hall (JStr e) Hv) as Hok.
  unfold validateEmbedOrigin in Hok. apply seq_Returns in Hok as [_ Hok]. unfold origin_entry.
  destruct (String.eqb_spec e "*"); [by left|right].
  destruct (url_origin e) as [o|]; [|done].
  apply throw_when_Returns, negb_false_iff, String.eqb_eq in Hok. by subst.
Qed.

Lemma valid_embed_limits input :
  validateInput input = Returns () → validateEmbedLimits (org_limit (in_org input) Embed) = Returns ().
Proof. unfold validateInput. rewrite !seq_Returns. tauto. Qed.

Lemma matches_entry_iff origin allowed :
  Forall origin_entry allowed → matches_entry origin allowed = true ↔ "*" ∈ allowed ∨ origin ∈ allowed.
Proof.
  induction 1 as [|e l He _ IH]; simpl; [set_solver|].
  rewrite !elem_of_cons.
  destruct (String.eqb_spec e "*") as [->|Hne]; [naive_solver|].
  destruct He as [|Ho]; [done|]. rewrite Ho.
  destruct (String.eqb_spec e origin) as [->|]; [naive_solver|]. rewrite IH. naive_solver.
Qed.

Lemma matchesAllowedOrigin_iff host allowed :
  Forall origin_entry allowed →
  matchesAllowedOrigin host allowed = true ↔
    ∃ origin, url_origin host = Some origin ∧ ("*" ∈ allowed ∨ origin ∈ allowed).
Proof.
  intros Hall. unfold matchesAllowedOrigin. destruct allowed as [|e l].
  { split; [done|]. intros (o & _ & [?|?]); set_solver. }
  destruct (url_origin host) as [o|]; [|naive_solver].
  rewrite matches_entry_iff by done. naive_solver.
Qed.
End embed_lemmas.

(** For a profile the resolver produced, the embed gate lets the form
    load exactly when embedding is not enabled, the form is not in a frame, or
    the host page has a known origin that the org's allow-list names or the
    allow-list holds the wildcard: an unknown host, an unparsable host and an
    empty list are all refused. *)
Theorem embed_gate_exact `{!UrlParser} input p transport :
  resolveRuntimeFeatures input = Returns p →
  verifyEmbedOriginAllowed p (in_org input) transport = Returns () ↔
    (Embed ∉ p_enabled p) ∨ isEmbedded transport = false ∨
    ∃ host origin, hostOrigin transport = Some host ∧ url_origin host = Some origin ∧
      ("*" ∈ allowedOrigins (in_org input) ∨ origin ∈ allowedOrigins (in_org input)).
Proof.
  intros Hres%resolve_resolution. pose proof (res_valid _ _ Hres) as Hv.
  apply valid_embed_limits in Hv. unfold verifyEmbedOriginAllowed.
  case_bool_decide as Hin; simpl; [|naive_solver].
  destruct (isEmbedded transport); simpl; [|naive_solver].
  destruct (hostOrigin transport) as [host|]; [|naive_solver].
  rewrite throw_when_Returns, negb_false_iff, matchesAllowedOrigin_iff.
  2: { by apply valid_allowed_origins. }
  naive_solver.
Qed.

Definition clinic_urls : UrlParser :=
  λ s, if str_in s ["https://clinic.example"; "https://clinic.example/intake"] then Some "https://clinic.example"
       else None.

Definition sample_embed : ResolveRuntimeFeaturesInput :=
  sample Production [("embed", JStr "allowed")] [("embed", JStr "required")]
    (JObj [("embed", JObj [("allowedOrigins", JArr [JStr "https://clinic.example"])])]) JUndef JUndef JUndef.

Definition framed_by (host : string) : EmbedTransport := {| isEmbedded := true; hostOrigin := Some host |}.

Lemma embed_gate_exact_witness :
  ∃ p, @resolveRuntimeFeatures clinic_urls sample_embed = Returns p ∧ Embed ∈ p_enabled p ∧
    @verifyEmbedOriginAllowed clinic_urls p (in_org sample_embed) (framed_by "https://clinic.example/intake")
      = Returns ().
Proof.
  destruct (returned_with_Returns (enables Embed) (@resolveRuntimeFeatures clinic_urls sample_embed)) as (p & Hp & Hin);
    [vm_compute; reflexivity|].
  exists p. split; [exact Hp|]. split; [exact (enables_in _ _ Hin)|].
  apply (@embed_gate_exact clinic_urls sample_embed p (framed_by "https://clinic.example/intake") Hp).
  right. right. exists "https://clinic.example/intake", "https://clinic.example".
  split; [reflexivity|]. split; [reflexivity|]. right.
  change (allowedOrigins (in_org sample_embed)) with ["https://clinic.example"]. left.
Defined.
