(* ===== verification/Schema.v ===== *)
(** * Types of JSON documents

    The types that the port interfaces declare and the closed shapes that the
    run-time guards accept, as data: [of_type] reads a type as a test on
    JavaScript values, [sub] decides that one type is within another, and
    [json_of] is a value after [JSON.parse(JSON.stringify(v))].  The guards
    themselves are in [RespondentPlace]. *)

From S2P Require Import Prelude JsValue.
From Stdlib Require Import Ascii.

(** ** Types *)

(** Which keys an object may have besides its fields: any, none, or those that
    start with [x-]. *)
Inductive keys : Set := Open | Closed | ClosedX.

Inductive ty : Set :=
  | TUnknown
  | TString
  | TBoolean
  | TNumber
  | TCount                                (** an integer, not negative *)
  | TUnit                                 (** a number from 0 to 1 *)
  | TLiteral (l : list string)            (** one of the literals *)
  | TToken (strict : bool) (l : list string) (** a literal, or an extension token *)
  | TArray (inhabited : bool) (t : ty)    (** [T[]], perhaps with an element *)
  | TExtensions                           (** [Record<`x-${string}`, unknown>] *)
  | TObject (k : keys) (fields : list (string * (bool * ty)))
  | TUnion (l : list ty).

Definition required (k : string) (t : ty) : string * (bool * ty) := (k, (true, t)).
Definition optional (k : string) (t : ty) : string * (bool * ty) := (k, (false, t)).

Declare Scope schema_scope.
Delimit Scope schema_scope with schema.
Notation "k ⦂ t" := (required k t) (at level 60) : schema_scope.
Notation "k ⦂? t" := (optional k t) (at level 60) : schema_scope.

(** ** Membership *)

(** [Object.keys(value).every(key => allowed.has(key) || ...)] *)
Definition extension_key (k : string) : bool := starts_with "x-" k.
Definition only_keys (allowed : list string) (extensions : bool) (v : jsv) : bool :=
  forallb (λ k, str_in k allowed || extensions && extension_key k) (obj_keys (props_of v)).

Definition keys_ok (k : keys) (allowed : list string) (v : jsv) : bool :=
  match k with Open => true | Closed => only_keys allowed false v | ClosedX => only_keys allowed true v end.

(** [/^x-[a-z][a-z0-9-]*$/] *)
Definition in_class (lo hi : nat) (c : ascii) : bool := (lo <=? nat_of_ascii c) && (nat_of_ascii c <=? hi).
Definition token_char (c : ascii) : bool := in_class 97 122 c || in_class 48 57 c || bool_decide (c = "-"%char).
Definition extension_token (s : string) : bool :=
  match String.list_ascii_of_string s with
  | "x"%char :: "-"%char :: c :: l => in_class 97 122 c && forallb token_char l
  | _ => false
  end.

(** Whether a number that is not an integer is between 0 and 1, from the text
    that it prints: "0.…" or a digit with a negative exponent. *)
Fixpoint negative_exponent (s : string) : bool :=
  starts_with "e-" s || match s with EmptyString => false | String _ s' => negative_exponent s' end.
Definition unit_text (s : string) : bool := starts_with "0." s || negative_exponent s && negb (starts_with "-" s).

Definition unit_number (v : jsv) : bool :=
  match v with JNum (NInt z) => (0 <=? z)%Z && (z <=? 1)%Z | JNum (NOther s) => unit_text s | _ => false end.
Definition is_number (v : jsv) : bool := match v with JNum _ => true | _ => false end.
Definition count_number (v : jsv) : bool := match as_integer v with Some z => (0 <=? z)%Z | None => false end.

Definition is_token (strict : bool) (l : list string) (v : jsv) : bool :=
  match v with JStr s => str_in s l || if strict then extension_token s else extension_key s | _ => false end.

Definition is_extensions (v : jsv) : bool := isRecord v && forallb extension_key (obj_keys (props_of v)).

Definition names (fields : list (string * (bool * ty))) : list string := fields.*1.

Fixpoint of_type (t : ty) (v : jsv) {struct t} : bool :=
  match t with
  | TUnknown => true
  | TString => is_string v
  | TBoolean => is_boolean v
  | TNumber => is_number v
  | TCount => count_number v
  | TUnit => unit_number v
  | TLiteral l => is_one_of v l
  | TToken strict l => is_token strict l v
  | TArray inhabited t => is_array v && (negb inhabited || negb (bool_decide (arr_of v = []))) && forallb (of_type t) (arr_of v)
  | TExtensions => is_extensions v
  | TObject k fields =>
      isRecord v && keys_ok k (names fields) v &&
      forallb (λ f, let '(name, (needed, t)) := f in
        negb needed && is_undefined (prop v name) || of_type t (prop v name)) fields
  | TUnion l => existsb (λ t, of_type t v) l
  end.

(** A field that has to be absent or [undefined]. *)
Definition TNever : ty := TUnion [].

(** ** Subtypes *)

Definition subset (l l' : list string) : bool := forallb (λ s, str_in s l') l.

(** A field that the first type excludes is absent. *)
Definition excludes (k : keys) (fields : list string) (name : string) : bool :=
  negb (str_in name fields) &&
  match k with Open => false | Closed => true | ClosedX => negb (extension_key name) end.

(** Whether every value of [a] is one of [b]; never a wrong [true]. *)
Fixpoint sub (a b : ty) {struct a} : bool :=
  match b with TUnknown => true | _ =>
  match a, b with
  | TUnion l, TUnion l' => forallb (λ a, existsb (sub a) l') l
  | TUnion l, _ => forallb (λ a, sub a b) l
  | TString, TString | TBoolean, TBoolean | TNumber, TNumber | TCount, TNumber | TUnit, TNumber => true
  | TLiteral _, TString | TToken _ _, TString | TExtensions, TExtensions => true
  | TLiteral l, TLiteral l' => subset l l'
  | TToken strict l, TToken strict' l' => (strict || negb strict') && subset l l'
  | TArray i a, TArray i' b => (i || negb i') && sub a b
  | TObject k fields, TObject Open fields' =>
      forallb (λ g, let '(name, (needed, b)) := g in
        existsb (λ f, let '(name', (needed', a)) := f in
          String.eqb name' name && (needed' || negb needed) && sub a b) fields
        || negb needed && excludes k (names fields) name) fields'
  | _, _ => false
  end end.

(** ** Induction over types *)

Section ty_ind'.
Context (P : ty → Prop).
Hypothesis (HU : P TUnknown) (HS : P TString) (HB : P TBoolean) (HN : P TNumber) (HC : P TCount) (H1 : P TUnit)
  (HL : ∀ l, P (TLiteral l)) (HT : ∀ s l, P (TToken s l)) (HA : ∀ i t, P t → P (TArray i t)) (HE : P TExtensions)
  (HO : ∀ k fields, Forall (λ f, P f.2.2) fields → P (TObject k fields)) (HX : ∀ l, Forall P l → P (TUnion l)).

Fixpoint ty_ind' (t : ty) : P t :=
  match t with
  | TUnknown => HU
  | TString => HS
  | TBoolean => HB
  | TNumber => HN
  | TCount => HC
  | TUnit => H1
  | TLiteral l => HL l
  | TToken s l => HT s l
  | TArray i t => HA i t (ty_ind' t)
  | TExtensions => HE
  | TObject k fields => HO k fields ((fix go fields : Forall (λ f, P f.2.2) fields :=
      match fields with
      | [] => Forall_nil_2 _
      | f :: fields' => Forall_cons_2 _ _ _ (ty_ind' f.2.2) (go fields')
      end) fields)
  | TUnion l => HX l ((fix go l : Forall P l :=
      match l with [] => Forall_nil_2 _ | t :: l' => Forall_cons_2 _ _ _ (ty_ind' t) (go l') end) l)
  end.
End ty_ind'.

(** ** Subtyping is sound *)

Lemma subset_spec l l' s : subset l l' = true → s ∈ l → s ∈ l'.
Proof. unfold subset. rewrite forallb_forall. intros H Hs. apply str_in_spec, H. by apply list_elem_of_In. Qed.

Lemma extension_token_key s : extension_token s = true → extension_key s = true.
Proof.
  destruct s as [|c1 s]; [done|]. destruct c1 as [[] [] [] [] [] [] [] []]; try done.
  destruct s as [|c2 s]; [done|]. by destruct c2 as [[] [] [] [] [] [] [] []].
Qed.

Lemma own_get_keys o k v : own_get o k = Some v → k ∈ obj_keys o.
Proof.
  induction o as [|[k' v'] o IH]; [done|]. simpl. destruct (String.eqb k k') eqn:E.
  - apply String.eqb_eq in E as ->. intros _. apply list_elem_of_here.
  - intros H. by apply list_elem_of_further, IH.
Qed.

Lemma excluded_absent k fields v name : keys_ok k fields v = true → excludes k fields name = true → prop v name = JUndef.
Proof.
  unfold excludes, prop, obj_get. intros Hk [Hn Hx]%andb_true_iff. apply negb_true_iff in Hn.
  destruct (own_get (props_of v) name) eqn:E; [|done]. apply own_get_keys, list_elem_of_In in E. exfalso.
  destruct k; [done| |]; unfold keys_ok, only_keys in Hk; rewrite forallb_forall in Hk; specialize (Hk _ E); rewrite Hn in Hk;
    simpl in *; [done|]. by rewrite Hk in Hx.
Qed.

Lemma is_one_of_mono v l l' : subset l l' = true → is_one_of v l = true → is_one_of v l' = true.
Proof. rewrite !is_one_of_spec. intros H (s & -> & Hs). exists s. split; [done|]. by apply (subset_spec l). Qed.

Lemma is_token_mono v (strict strict' : bool) l l' : strict || negb strict' = true → subset l l' = true →
  is_token strict l v = true → is_token strict' l' v = true.
Proof.
  intros Hs Hl. unfold is_token. destruct v; try done. rewrite !orb_true_iff, !str_in_spec. intros [H|H].
  - left. by apply (subset_spec l).
  - right. destruct strict, strict'; try done. by apply extension_token_key.
Qed.

Definition within (a : ty) : Prop := ∀ b v, sub a b = true → of_type a v = true → of_type b v = true.

Lemma sub_object k fields fields' v :
  Forall (λ f, within f.2.2) fields → sub (TObject k fields) (TObject Open fields') = true →
  of_type (TObject k fields) v = true → of_type (TObject Open fields') v = true.
Proof.
  intros IH Hs [[Hr Hk]%andb_true_iff Hf]%andb_true_iff. cbn [of_type keys_ok]. rewrite Hr. simpl.
  cbn [sub] in Hs. rewrite forallb_forall in Hs, Hf |- *. rewrite Forall_forall in IH.
  intros [name [needed b]] Hg. specialize (Hs _ Hg). simpl in Hs. apply orb_true_iff in Hs as [Hs|[Hn Hx]%andb_true_iff].
  - apply existsb_exists in Hs as ([name' [needed' a]] & Hin & [[He Hq]%andb_true_iff Hab]%andb_true_iff).
    apply String.eqb_eq in He as ->. specialize (Hf _ Hin). simpl in Hf.
    apply orb_true_iff in Hf as [[Hn' Hu]%andb_true_iff|Hf].
    + destruct needed, needed'; try done. by rewrite Hu.
    + rewrite (IH _ (proj2 (list_elem_of_In _ _) Hin) b _ Hab Hf). apply orb_true_r.
  - rewrite Hn. by rewrite (excluded_absent _ _ _ _ Hk Hx).
Qed.

Lemma forallb_mono {A} (f g : A → bool) l : (∀ x, f x = true → g x = true) → forallb f l = true → forallb g l = true.
Proof. rewrite !forallb_forall. intros H Hl x Hx. by apply H, Hl. Qed.

Lemma sub_array i i' a b v : within a → sub (TArray i a) (TArray i' b) = true →
  of_type (TArray i a) v = true → of_type (TArray i' b) v = true.
Proof.
  intros IH [Hi Hs]%andb_true_iff [[Ha Hn]%andb_true_iff Hf]%andb_true_iff. cbn [of_type]. rewrite Ha.
  rewrite (forallb_mono _ (of_type b) _ (λ x, IH b x Hs) Hf), andb_true_r. by destruct i, i'.
Qed.

(** A value of a type is one of every type that [sub] puts above it. *)
Lemma sub_sound a : within a.
Proof.
  induction a as [| | | | | |l|s l|i a IH| |k fields IH|l IH] using ty_ind'; intros b v Hs Ha.
  7: { destruct b; try done; [|by apply (is_one_of_mono v l)]. apply is_one_of_spec in Ha as (s & -> & _). done. }
  7: { destruct b; try done; [by destruct v|]. apply andb_true_iff in Hs as [H1 H2]. by apply (is_token_mono v s _ l). }
  7: { destruct b; try done. by apply (sub_array i _ a). }
  8: { destruct b as [| | | | | | | | | |k' fields'|]; try done. destruct k'; try done. by apply (sub_object k fields). }
  8: {
    simpl in Ha. apply existsb_exists in Ha as (a & Hin & Ha). rewrite Forall_forall in IH.
    assert (a ∈ l) as Hl by by apply list_elem_of_In.
    destruct b as [| | | | | | | | | | |l']; try done; simpl in Hs; rewrite forallb_forall in Hs; specialize (Hs _ Hin); try by apply (IH a).
    apply existsb_exists in Hs as (b & Hb & Hs). simpl. apply existsb_exists. exists b. split; [done|]. by apply (IH a). }
  all: destruct b; try done; destruct v as [| | |[z|t]| | |]; done.
Qed.

(** ** JSON round trips *)

Definition finite_text (s : string) : bool := negb (str_in s ["NaN"; "Infinity"; "-Infinity"]).

(** [JSON.parse(JSON.stringify(v))]: properties that are [undefined] are left
    out, [undefined] elements and numbers that are not finite become [null]. *)
Fixpoint json_of (v : jsv) : jsv :=
  match v with
  | JNum (NOther s) => if finite_text s then v else JNull
  | JArr l => JArr (List.map (λ x, if is_undefined x then JNull else json_of x) l)
  | JObj o => JObj (flat_map (λ e, if is_undefined e.2 then [] else [(e.1, json_of e.2)]) o)
  | _ => v
  end.

(** No object within has a key twice. *)
Fixpoint distinct (v : jsv) : bool :=
  match v with
  | JArr l => forallb distinct l
  | JObj o => bool_decide (NoDup o.*1) && forallb (λ e, distinct e.2) o
  | _ => true
  end.

(** [NaN] is a number that JSON does not keep. *)
Fixpoint exact (t : ty) : bool :=
  match t with
  | TNumber => false
  | TArray _ t => exact t
  | TObject _ fields => forallb (λ f, exact f.2.2) fields
  | TUnion l => forallb exact l
  | _ => true
  end.

Definition json_entries (o : jsobj) : jsobj := flat_map (λ e, if is_undefined e.2 then [] else [(e.1, json_of e.2)]) o.

Lemma json_keys o k : k ∈ obj_keys (json_entries o) → k ∈ obj_keys o.
Proof.
  unfold obj_keys. rewrite !list_elem_of_fmap. intros ([k' v] & -> & Hin). apply list_elem_of_In, in_flat_map in Hin as ([k1 v1] & Hin & Hk).
  simpl in Hk. destruct (is_undefined v1); [done|]. destruct Hk as [Hk|[]]. injection Hk as -> _.
  exists (k', v1). split; [done|]. by apply list_elem_of_In.
Qed.

Lemma own_get_json o k : NoDup o.*1 →
  own_get (json_entries o) k = match own_get o k with Some v => if is_undefined v then None else Some (json_of v) | None => None end.
Proof.
  induction o as [|[k' v] o IH]; [done|]. simpl. intros [Hk Ho]%NoDup_cons. unfold json_entries in *. simpl.
  destruct (String.eqb k k') eqn:E.
  - apply String.eqb_eq in E as ->. destruct (is_undefined v); simpl; [|by rewrite String.eqb_refl].
    rewrite IH by done. destruct (own_get o k') eqn:Eg; [|done]. by apply own_get_keys in Eg.
  - destruct (is_undefined v); simpl; [|rewrite E]; by apply IH.
Qed.

Lemma prop_json v k : distinct v = true → prop (json_of v) k = json_of (prop v k).
Proof.
  destruct v as [| | |[z|s]| | |o]; try done; [by simpl; destruct (finite_text s)|].
  intros [Ho _]%andb_true_iff. apply bool_decide_eq_true in Ho. unfold prop. simpl. fold (json_entries o). unfold obj_get.
  rewrite own_get_json by done. destruct (own_get o k) as [v|]; [|done]. by destruct v as [| | |[]| | |].
Qed.

Lemma distinct_prop v k : distinct v = true → distinct (prop v k) = true.
Proof.
  destruct v as [| | | | | |o]; try done. intros [_ Ho]%andb_true_iff. unfold prop, obj_get. simpl.
  induction o as [|[k' v] o IH]; [done|]. simpl in *. apply andb_true_iff in Ho as [Hv Ho].
  destruct (String.eqb k k'); [done|by apply IH].
Qed.

Lemma keys_json (p : string → bool) v : forallb p (obj_keys (props_of v)) = true → forallb p (obj_keys (props_of (json_of v))) = true.
Proof.
  destruct v as [| | |[z|s]| | |o]; try done; [by simpl; destruct (finite_text s)|]. simpl. fold (json_entries o).
  rewrite !forallb_forall. intros H k Hk. apply H. apply list_elem_of_In, json_keys. by apply list_elem_of_In.
Qed.

Lemma isRecord_json v : isRecord (json_of v) = isRecord v.
Proof. destruct v as [| | |[z|s]| | |o]; try done. simpl. by destruct (finite_text s). Qed.

Lemma unit_text_finite s : unit_text s = true → finite_text s = true.
Proof.
  intros H. unfold finite_text. apply negb_true_iff, not_true_iff_false. rewrite str_in_spec. intros Hin.
  rewrite !elem_of_cons in Hin. destruct Hin as [->|[->|[->|[]%elem_of_nil]]]; done.
Qed.

Lemma of_type_null t : of_type t JUndef = true → of_type t JNull = true.
Proof.
  induction t as [| | | | | |l|s l|i t IH| |k fields IH|l IH] using ty_ind'; try done. simpl.
  intros (t & Hin & Ht)%existsb_exists. apply existsb_exists. exists t. split; [done|]. rewrite Forall_forall in IH.
  apply IH; [by apply list_elem_of_In|done].
Qed.

(** What a type without unbounded numbers accepts it accepts after a round trip
    through JSON. *)
Lemma of_type_json t v : exact t = true → distinct v = true → of_type t v = true → of_type t (json_of v) = true.
Proof.
  revert v. induction t as [| | | | | |l|s l|i t IH| |k fields IH|l IH] using ty_ind'; intros v Ht Hv Hm; try done; try by destruct v as [| | |[z|z]| | |].
  - destruct v as [| | |[z|s]| | |]; try done. simpl in *. by rewrite unit_text_finite.
  - destruct v; try done. simpl in *. destruct (bool_decide (l = [])) eqn:El; simpl in Hm.
    + apply bool_decide_eq_true in El as ->. done.
    + rewrite bool_decide_eq_false_2 by (destruct l; [by rewrite bool_decide_eq_true_2 in El|done]). simpl.
      apply andb_true_iff in Hm as [-> Hm]. simpl. rewrite forallb_forall in Hv, Hm |- *. intros x (y & <- & Hy)%in_map_iff.
      specialize (Hm _ Hy). specialize (Hv _ Hy). destruct y; simpl is_undefined; cbv iota; [by apply of_type_null|..]; by apply IH.
  - apply andb_true_iff in Hm as [H1 H2]. apply andb_true_iff. split; [by rewrite isRecord_json|by apply keys_json].
  - cbn [of_type] in Hm |- *. apply andb_true_iff in Hm as [[Hr Hk]%andb_true_iff Hf]. rewrite isRecord_json, Hr. simpl.
    apply andb_true_iff. split; [destruct k; [done|by apply keys_json..]|].
    simpl in Ht. rewrite forallb_forall in Ht, Hf |- *. rewrite Forall_forall in IH. intros [name [needed t]] Hin.
    specialize (Hf _ Hin). specialize (Ht _ Hin). simpl in Hf, Ht. rewrite prop_json by done. apply orb_true_iff. apply orb_true_iff in Hf as [Hf|Hf].
    + left. apply andb_true_iff in Hf as [-> Hu]. apply is_undefined_spec in Hu as ->. done.
    + right. apply (IH _ (proj2 (list_elem_of_In _ _) Hin)); [done|by apply distinct_prop|done].
  - simpl in *. apply existsb_exists in Hm as (t & Hin & Hm). apply existsb_exists. exists t. split; [done|].
    rewrite forallb_forall in Ht. rewrite Forall_forall in IH. apply IH; [by apply list_elem_of_In|by apply Ht|done..].
Qed.

Lemma json_defined v : is_undefined v = false → is_undefined (json_of v) = false.
Proof. destruct v as [| | |[z|s]| | |]; try done. simpl. by destruct (finite_text s). Qed.

Lemma json_entries_idem o : Forall (λ e, json_of (json_of e.2) = json_of e.2) o → json_entries (json_entries o) = json_entries o.
Proof.
  induction 1 as [|[k v] o Hv _ IH]; [done|]. unfold json_entries in *. simpl. destruct (is_undefined v) eqn:E; simpl; [done|].
  rewrite json_defined by done. simpl. simpl in Hv. by rewrite IH, Hv.
Qed.

Definition json_element (v : jsv) : jsv := if is_undefined v then JNull else json_of v.

Lemma json_element_idem v : json_of (json_of v) = json_of v → json_element (json_element v) = json_element v.
Proof. unfold json_element. intros H. destruct (is_undefined v) eqn:E; [done|]. by rewrite json_defined. Qed.

(** Cloning a clone gives the clone. *)
Lemma json_of_idem v : json_of (json_of v) = json_of v.
Proof.
  induction v as [| | |[z|s]| |l IH|o IH] using jsv_ind'; try done.
  - simpl. destruct (finite_text s) eqn:E; simpl; [by rewrite E|done].
  - simpl. f_equal. fold json_element. rewrite map_map. induction IH as [|x l Hx _ IHl]; [done|]. simpl. by rewrite IHl, json_element_idem.
  - simpl. f_equal. by apply json_entries_idem.
Qed.
