(* ===== verification/RespondentPlace.v ===== *)
(** * What the respondent's place, status and history are made of

    The types of src/src/ports/status-reader.ts, respondent-place-source.ts and
    respondent-history-source.ts (Module [Port]), the run-time guards of
    src/src/shared/respondent-place.ts and respondent-history.ts, and the shapes
    that those are proved to accept (Module [Accepted]). *)

From S2P Require Import Prelude JsValue Schema.

Open Scope schema_scope.

Definition WOS_APPLICANT_SCHEMA_ID : string := "https://schemas.formspec.io/wos-api/applicant/v1".

(** ** The literals *)

Definition applicantProjectionKinds : list string :=
  ["ApplicantCaseSummary"; "ApplicantCaseDetail"; "ApplicantTaskSummary"; "ApplicantNotificationListItem"; "ApplicantStatusTimelineEntry"].
Definition respondentDocumentKinds : list string :=
  ["identity-proof"; "income-proof"; "proof-of-address"; "proof-of-age"; "eligibility-evidence"; "form-attachment"; "signed-receipt";
   "correspondence"; "other"].
Definition obligationStates : list string := ["upcoming"; "due"; "overdue"; "submitted"; "satisfied"; "closed"; "unknown"].
Definition storagePostures : list string := ["client-encrypted"; "client-local-only"; "export-snapshot"].
Definition issuerIsolationModes : list string := ["per-issuer"; "per-program"; "respondent-chosen"].
Definition presentationDefaults : list string := ["explicit-consent"; "deny-by-default"].
Definition presentationScopes : list string := ["selected-documents"; "all-documents"; "metadata-only"].
Definition presentationPurposes : list string :=
  ["eligibility"; "identity-proofing"; "appeal"; "renewal"; "audit"; "respondent-export"; "other"].
Definition presentationProtocols : list string := ["openid4vp"; "w3c-vc-data-model-2.0"; "download"; "copy-link"].
Definition exportFormats : list string := ["portable-json"; "encrypted-portable-json"].
Definition exportIncludes : list string := ["documents"; "submissions"; "obligations"; "presentation-policies"].
Definition privacyTiers : list string := ["anonymous"; "pseudonymous"; "verified"].
Definition lifecycleStates : list string := ["active"; "suspended"; "migrating"; "completed"; "terminated"; "stalled"].
Definition taskKinds : list string := ["intake"; "correspondence-response"; "signature"; "verification"].
Definition taskStatuses : list string := ["pending"; "drafted"; "submitted"; "dismissed"; "expired"].
Definition notificationKinds : list string :=
  ["task-assigned"; "task-deadline-approaching"; "case-update"; "correspondence-received"; "decision-reached"].
Definition notificationStatuses : list string := ["unread"; "read"; "archived"].
Definition timelineEvents : list string :=
  ["case-created"; "lifecycle-changed"; "applicant-task-assigned"; "applicant-task-submitted"; "decision-reached"; "correspondence-sent";
   "correspondence-received"].
Definition agentRoles : list string := ["advisory"; "primary"; "fallback"].
Definition HISTORY_ENTRY_KINDS : list string := ["draft"; "submission"; "signed-record"].

(** ** The guards of the applicant's projections *)

(** [v === undefined || p(v)] *)
Definition maybe (p : jsv → bool) (v : jsv) : bool := is_undefined v || p v.
(** [typeof v === 'string' && set.has(v)] *)
Definition string_in (l : list string) (v : jsv) : bool := is_string v && is_one_of v l.
(** [Array.isArray(v) && v.every(p)] *)
Definition every (p : jsv → bool) (v : jsv) : bool := is_array v && forallb p (arr_of v).
Definition some_element (v : jsv) : bool := negb (bool_decide (arr_of v = [])).

Definition isReservedOrExtension (value : string) (reserved : list string) : bool := str_in value reserved || extension_token value.
(** [typeof v === 'string' && isReservedOrExtension(v, reserved)] *)
Definition reserved_string (reserved : list string) (v : jsv) : bool :=
  match v with JStr s => isReservedOrExtension s reserved | _ => false end.

Definition isExtensions : jsv → bool := is_extensions.
Definition hasOnlyKeys (value : jsv) (allowed : list string) : bool := only_keys allowed false value.

Definition isApplicantStatusProjection (value : jsv) : bool :=
  let at_ := prop value in
  isRecord value &&
  hasOnlyKeys value ["sourceSchema"; "projectionKind"; "resourceRef"; "endpoint"; "updatedAt"; "headline"; "summary"; "payloadDigest"; "extensions"] &&
  is_lit (at_ "sourceSchema") WOS_APPLICANT_SCHEMA_ID &&
  string_in applicantProjectionKinds (at_ "projectionKind") &&
  is_string (at_ "updatedAt") &&
  maybe is_string (at_ "resourceRef") &&
  maybe is_string (at_ "endpoint") &&
  maybe is_string (at_ "headline") &&
  maybe is_string (at_ "summary") &&
  maybe is_string (at_ "payloadDigest") &&
  maybe isExtensions (at_ "extensions").

Definition isApplicantAgentSummary (value : jsv) : bool :=
  let at_ := prop value in
  isRecord value &&
  hasOnlyKeys value ["displayName"; "roleInDecision"; "confidence"] &&
  is_string (at_ "displayName") &&
  string_in agentRoles (at_ "roleInDecision") &&
  maybe unit_number (at_ "confidence").

Definition isApplicantAiInvolvementSummary (value : jsv) : bool :=
  let at_ := prop value in
  isRecord value &&
  hasOnlyKeys value ["agentsInvolved"; "narrativeRecordCount"; "humanReviewedAllAgentDecisions"] &&
  every isApplicantAgentSummary (at_ "agentsInvolved") &&
  count_number (at_ "narrativeRecordCount") &&
  is_boolean (at_ "humanReviewedAllAgentDecisions").

Definition isApplicantStatusTimelineEntry (value : jsv) : bool :=
  let at_ := prop value in
  isRecord value &&
  hasOnlyKeys value ["event"; "occurredAt"; "summary"; "newLifecycleState"; "taskId"] &&
  reserved_string timelineEvents (at_ "event") &&
  is_string (at_ "occurredAt") &&
  maybe is_string (at_ "summary") &&
  maybe (string_in lifecycleStates) (at_ "newLifecycleState") &&
  maybe is_string (at_ "taskId").

Definition isApplicantNotificationListItem (value : jsv) : bool :=
  let at_ := prop value in
  isRecord value &&
  hasOnlyKeys value ["id"; "kind"; "status"; "title"; "body"; "processId"; "taskId"; "createdAt"; "readAt"] &&
  is_string (at_ "id") &&
  reserved_string notificationKinds (at_ "kind") &&
  string_in notificationStatuses (at_ "status") &&
  is_string (at_ "title") &&
  is_string (at_ "body") &&
  maybe is_string (at_ "processId") &&
  maybe is_string (at_ "taskId") &&
  is_string (at_ "createdAt") &&
  maybe is_string (at_ "readAt").

Definition isApplicantTaskSummary (value : jsv) : bool :=
  let at_ := prop value in
  isRecord value &&
  hasOnlyKeys value ["id"; "processId"; "kind"; "status"; "title"; "deadline"; "createdAt"; "updatedAt"] &&
  is_string (at_ "id") &&
  is_string (at_ "processId") &&
  reserved_string taskKinds (at_ "kind") &&
  reserved_string taskStatuses (at_ "status") &&
  is_string (at_ "title") &&
  maybe is_string (at_ "deadline") &&
  is_string (at_ "createdAt") &&
  maybe is_string (at_ "updatedAt").

Definition isApplicantCaseSummary (value : jsv) : bool :=
  let at_ := prop value in
  isRecord value &&
  hasOnlyKeys value ["id"; "workflowUrl"; "lifecycleState"; "actionNeeded"; "title"; "continuationOfServicesActive";
    "continuationOfServicesEndsAt"; "createdAt"; "updatedAt"] &&
  is_string (at_ "id") &&
  is_string (at_ "workflowUrl") &&
  string_in lifecycleStates (at_ "lifecycleState") &&
  is_boolean (at_ "actionNeeded") &&
  maybe is_string (at_ "title") &&
  maybe is_boolean (at_ "continuationOfServicesActive") &&
  maybe is_string (at_ "continuationOfServicesEndsAt") &&
  is_string (at_ "createdAt") &&
  is_string (at_ "updatedAt").

(** The three pages differ in what their items are. *)
Definition is_page (item : jsv → bool) (value : jsv) : bool :=
  let at_ := prop value in
  isRecord value &&
  hasOnlyKeys value ["items"; "cursor"; "hasMore"] &&
  every item (at_ "items") &&
  maybe is_string (at_ "cursor") &&
  is_boolean (at_ "hasMore").
Definition isApplicantCaseSummaryPage : jsv → bool := is_page isApplicantCaseSummary.
Definition isApplicantTaskPage : jsv → bool := is_page isApplicantTaskSummary.
Definition isApplicantNotificationPage : jsv → bool := is_page isApplicantNotificationListItem.

Definition isApplicantCaseDetail (value : jsv) : bool :=
  let at_ := prop value in
  isRecord value &&
  hasOnlyKeys value ["summary"; "openTasks"; "recentNotifications"; "statusTimeline"; "aiInvolvement"] &&
  isApplicantCaseSummary (at_ "summary") &&
  every isApplicantTaskSummary (at_ "openTasks") &&
  every isApplicantNotificationListItem (at_ "recentNotifications") &&
  every isApplicantStatusTimelineEntry (at_ "statusTimeline") &&
  maybe isApplicantAiInvolvementSummary (at_ "aiInvolvement").

Definition isApplicantStatusResource (value : jsv) : bool :=
  isApplicantCaseDetail value || isApplicantCaseSummaryPage value || isApplicantTaskPage value || isApplicantNotificationPage value ||
  isApplicantCaseSummary value || isApplicantTaskSummary value || isApplicantNotificationListItem value ||
  isApplicantStatusTimelineEntry value || isApplicantAiInvolvementSummary value || isApplicantAgentSummary value.

(** ** The guards of the respondent's place *)

Definition isIssuerRef (value : jsv) : bool :=
  let at_ := prop value in
  isRecord value &&
  hasOnlyKeys value ["name"; "url"; "identifier"; "extensions"] &&
  is_string (at_ "name") &&
  maybe is_string (at_ "url") &&
  maybe is_string (at_ "identifier") &&
  maybe isExtensions (at_ "extensions").

Definition isDefinitionRef (value : jsv) : bool :=
  let at_ := prop value in
  isRecord value &&
  hasOnlyKeys value ["url"; "version"] &&
  is_string (at_ "url") &&
  maybe is_string (at_ "version").

Definition isContentRef (value : jsv) : bool :=
  let at_ := prop value in
  isRecord value &&
  hasOnlyKeys value ["uri"; "mediaType"; "sha256"; "extensions"] &&
  is_string (at_ "uri") &&
  is_string (at_ "mediaType") &&
  maybe is_string (at_ "sha256") &&
  maybe isExtensions (at_ "extensions").

Definition isRespondentTrustModel (value : jsv) : bool :=
  let at_ := prop value in
  isRecord value &&
  hasOnlyKeys value ["storagePosture"; "issuerIsolation"; "serverAggregation"; "presentationDefault"; "extensions"] &&
  string_in storagePostures (at_ "storagePosture") &&
  string_in issuerIsolationModes (at_ "issuerIsolation") &&
  is_lit (at_ "serverAggregation") "forbidden" &&
  string_in presentationDefaults (at_ "presentationDefault") &&
  maybe isExtensions (at_ "extensions").

Definition isSubjectBinding (value : jsv) : bool :=
  let at_ := prop value in
  isRecord value &&
  hasOnlyKeys value ["subjectRef"; "privacyTier"; "assuranceRef"; "extensions"] &&
  is_string (at_ "subjectRef") &&
  string_in privacyTiers (at_ "privacyTier") &&
  maybe is_string (at_ "assuranceRef") &&
  maybe isExtensions (at_ "extensions").

Definition isRespondentObligation (value : jsv) : bool :=
  let at_ := prop value in
  isRecord value &&
  hasOnlyKeys value ["id"; "issuer"; "title"; "description"; "state"; "dueAt"; "formRef"; "submissionRef"; "extensions"] &&
  is_string (at_ "id") &&
  isIssuerRef (at_ "issuer") &&
  is_string (at_ "title") &&
  maybe is_string (at_ "description") &&
  string_in obligationStates (at_ "state") &&
  maybe is_string (at_ "dueAt") &&
  maybe isDefinitionRef (at_ "formRef") &&
  maybe is_string (at_ "submissionRef") &&
  maybe isExtensions (at_ "extensions").

Definition isRespondentDocumentRecord (value : jsv) : bool :=
  let at_ := prop value in
  isRecord value &&
  hasOnlyKeys value ["id"; "kind"; "displayName"; "issuer"; "capturedAt"; "expiresAt"; "contentRef"; "sourceSubmissionRef";
    "presentationPolicyRef"; "extensions"] &&
  is_string (at_ "id") &&
  string_in respondentDocumentKinds (at_ "kind") &&
  is_string (at_ "displayName") &&
  maybe isIssuerRef (at_ "issuer") &&
  is_string (at_ "capturedAt") &&
  maybe is_string (at_ "expiresAt") &&
  isContentRef (at_ "contentRef") &&
  maybe is_string (at_ "sourceSubmissionRef") &&
  maybe is_string (at_ "presentationPolicyRef") &&
  maybe isExtensions (at_ "extensions").

Definition isRespondentSubmissionRecord (value : jsv) : bool :=
  let at_ := prop value in
  isRecord value &&
  hasOnlyKeys value ["id"; "issuer"; "definitionRef"; "submittedAt"; "applicantStatus"; "receiptRef"; "documentRefs"; "extensions"] &&
  is_string (at_ "id") &&
  isIssuerRef (at_ "issuer") &&
  isDefinitionRef (at_ "definitionRef") &&
  is_string (at_ "submittedAt") &&
  maybe isApplicantStatusProjection (at_ "applicantStatus") &&
  maybe is_string (at_ "receiptRef") &&
  maybe (every is_string) (at_ "documentRefs") &&
  maybe isExtensions (at_ "extensions").

Definition isPresentationPolicy (value : jsv) : bool :=
  let at_ := prop value in
  if negb (isRecord value) || negb (is_string (at_ "id")) || negb (is_string (at_ "scope")) then false else
  if negb (hasOnlyKeys value ["id"; "scope"; "documentRefs"; "allowedPurposes"; "recipientIssuer"; "protocolHints"; "expiresAt"; "extensions"])
  then false else
  if negb (is_one_of (at_ "scope") presentationScopes) then false else
  if negb (is_array (at_ "allowedPurposes")) || negb (some_element (at_ "allowedPurposes")) then false else
  if negb (forallb (string_in presentationPurposes) (arr_of (at_ "allowedPurposes"))) then false else
  if negb (is_undefined (at_ "protocolHints")) &&
     (negb (is_array (at_ "protocolHints")) || negb (forallb (string_in presentationProtocols) (arr_of (at_ "protocolHints")))) then false else
  if negb (is_undefined (at_ "recipientIssuer")) && negb (isIssuerRef (at_ "recipientIssuer")) then false else
  if negb (is_undefined (at_ "expiresAt")) && negb (is_string (at_ "expiresAt")) then false else
  if negb (is_undefined (at_ "extensions")) && negb (isExtensions (at_ "extensions")) then false else
  if is_lit (at_ "scope") "selected-documents"
  then is_array (at_ "documentRefs") && some_element (at_ "documentRefs") && forallb is_string (arr_of (at_ "documentRefs"))
  else true.

Definition isEncryptionEnvelope (value : jsv) : bool :=
  let at_ := prop value in
  if negb (isRecord value) || negb (hasOnlyKeys value ["mode"; "keyDerivation"; "recipientKeyRef"; "cipherSuite"; "extensions"])
     || negb (is_lit (at_ "mode") "none") && negb (is_lit (at_ "mode") "passkey-hpke") then false else
  if is_lit (at_ "mode") "passkey-hpke" then
    (is_lit (at_ "keyDerivation") "passkey-derived" || is_lit (at_ "keyDerivation") "external-key") &&
    is_string (at_ "recipientKeyRef") &&
    maybe is_string (at_ "cipherSuite") &&
    maybe isExtensions (at_ "extensions")
  else
    is_undefined (at_ "keyDerivation") &&
    is_undefined (at_ "recipientKeyRef") &&
    maybe is_string (at_ "cipherSuite") &&
    maybe isExtensions (at_ "extensions").

Definition isExportPackage (value : jsv) : bool :=
  let at_ := prop value in
  isRecord value &&
  hasOnlyKeys value ["id"; "format"; "createdAt"; "includes"; "encryption"; "extensions"] &&
  is_string (at_ "id") &&
  string_in exportFormats (at_ "format") &&
  is_string (at_ "createdAt") &&
  is_array (at_ "includes") &&
  some_element (at_ "includes") &&
  forallb (string_in exportIncludes) (arr_of (at_ "includes")) &&
  maybe isEncryptionEnvelope (at_ "encryption") &&
  maybe isExtensions (at_ "extensions").

Definition isOptionalArray (value : jsv) (itemGuard : jsv → bool) : bool := is_undefined value || is_array value && forallb itemGuard (arr_of value).

Definition isRespondentPlaceSnapshot (value : jsv) : bool :=
  let at_ := prop value in
  if negb (isRecord value) || negb (isRecord (at_ "subject")) || negb (isRecord (at_ "trustModel")) then false else
  if negb (only_keys ["$formspecRespondentLibrary"; "version"; "libraryId"; "subject"; "aggregationMode"; "trustModel"; "encryption";
      "obligations"; "documents"; "submissions"; "presentationPolicies"; "export"; "extensions"] true value)
    || negb (is_lit (at_ "$formspecRespondentLibrary") "1.0")
    || negb (is_string (at_ "version"))
    || negb (is_string (at_ "libraryId"))
    || negb (is_lit (at_ "aggregationMode") "client-wallet")
    || negb (isSubjectBinding (at_ "subject"))
    || negb (isRespondentTrustModel (at_ "trustModel"))
    || negb (is_undefined (at_ "extensions")) && negb (isExtensions (at_ "extensions")) then false else
  if negb (is_undefined (at_ "encryption")) && negb (isEncryptionEnvelope (at_ "encryption")) then false else
  if negb (is_undefined (at_ "export")) && negb (isExportPackage (at_ "export")) then false else
  if negb (isOptionalArray (at_ "obligations") isRespondentObligation) then false else
  if negb (isOptionalArray (at_ "documents") isRespondentDocumentRecord) then false else
  if negb (isOptionalArray (at_ "submissions") isRespondentSubmissionRecord) then false else
  if negb (isOptionalArray (at_ "presentationPolicies") isPresentationPolicy) then false else
  true.

(** ** The guards of the history *)

(** These do not exclude other keys; an array passes [isObject] and has none of
    the properties. *)
Definition isHistoryEntry (value : jsv) : bool :=
  let entry := prop value in
  let issuer := prop (entry "issuer") in
  let def := prop (entry "definitionRef") in
  if negb (is_object value) then false else
  if negb (is_string (entry "id")) then false else
  if negb (is_string (entry "kind")) || negb (is_one_of (entry "kind") HISTORY_ENTRY_KINDS) then false else
  if negb (is_string (entry "timestamp")) then false else
  if negb (is_string (entry "title")) then false else
  if negb (is_object (entry "issuer")) then false else
  if negb (is_string (issuer "name")) then false else
  if negb (is_undefined (issuer "url")) && negb (is_string (issuer "url")) then false else
  if negb (is_undefined (issuer "identifier")) && negb (is_string (issuer "identifier")) then false else
  if negb (is_undefined (entry "applicantStatusRef")) && negb (is_string (entry "applicantStatusRef")) then false else
  if negb (is_undefined (entry "receiptRef")) && negb (is_string (entry "receiptRef")) then false else
  if negb (is_undefined (entry "documentRefs"))
     && (negb (is_array (entry "documentRefs")) || negb (forallb is_string (arr_of (entry "documentRefs")))) then false else
  if negb (is_undefined (entry "definitionRef"))
     && (negb (is_object (entry "definitionRef")) || negb (is_string (def "url"))
         || negb (is_undefined (def "version")) && negb (is_string (def "version"))) then false else
  true.

Definition isHistorySnapshot (value : jsv) : bool :=
  let at_ := prop value in
  if negb (is_object value) then false else
  if negb (is_lit (at_ "$formspecRespondentHistory") "1.0") then false else
  if negb (is_lit (at_ "aggregationMode") "client-wallet") then false else
  if negb (is_string (at_ "subjectRef")) then false else
  if negb (is_array (at_ "entries")) then false else
  forallb isHistoryEntry (arr_of (at_ "entries")).

(** ** The types of the ports *)

Module Port.

Definition ApplicantLifecycleState : ty := TLiteral lifecycleStates.
Definition ApplicantTaskKind : ty := TToken false ["intake"; "correspondence-response"; "signature"; "verification"].
Definition ApplicantTaskStatus : ty := TToken false ["pending"; "drafted"; "submitted"; "dismissed"; "expired"].
Definition ApplicantNotificationKind : ty :=
  TToken false ["task-assigned"; "task-deadline-approaching"; "case-update"; "correspondence-received"; "decision-reached"].
Definition ApplicantNotificationStatus : ty := TLiteral ["unread"; "read"; "archived"].
Definition ApplicantTimelineEvent : ty :=
  TToken false ["case-created"; "lifecycle-changed"; "applicant-task-assigned"; "applicant-task-submitted"; "decision-reached";
    "correspondence-sent"; "correspondence-received"].

Definition ApplicantTaskSummary : ty := TObject Open
  ["id" ⦂ TString; "processId" ⦂ TString; "kind" ⦂ ApplicantTaskKind; "status" ⦂ ApplicantTaskStatus; "title" ⦂ TString;
   "deadline" ⦂? TString; "createdAt" ⦂ TString; "updatedAt" ⦂? TString].

Definition ApplicantNotificationListItem : ty := TObject Open
  ["id" ⦂ TString; "kind" ⦂ ApplicantNotificationKind; "status" ⦂ ApplicantNotificationStatus; "title" ⦂ TString; "body" ⦂ TString;
   "processId" ⦂? TString; "taskId" ⦂? TString; "createdAt" ⦂ TString; "readAt" ⦂? TString].

Definition ApplicantAgentSummary : ty := TObject Open
  ["displayName" ⦂ TString; "roleInDecision" ⦂ TLiteral ["advisory"; "primary"; "fallback"]; "confidence" ⦂? TNumber].

Definition ApplicantAiInvolvementSummary : ty := TObject Open
  ["agentsInvolved" ⦂ TArray false ApplicantAgentSummary; "narrativeRecordCount" ⦂ TNumber; "humanReviewedAllAgentDecisions" ⦂ TBoolean].

Definition ApplicantStatusTimelineEntry : ty := TObject Open
  ["event" ⦂ ApplicantTimelineEvent; "occurredAt" ⦂ TString; "summary" ⦂? TString; "newLifecycleState" ⦂? ApplicantLifecycleState;
   "taskId" ⦂? TString].

Definition ApplicantCaseSummary : ty := TObject Open
  ["id" ⦂ TString; "workflowUrl" ⦂ TString; "lifecycleState" ⦂ ApplicantLifecycleState; "actionNeeded" ⦂ TBoolean; "title" ⦂? TString;
   "continuationOfServicesActive" ⦂? TBoolean; "continuationOfServicesEndsAt" ⦂? TString; "createdAt" ⦂ TString; "updatedAt" ⦂ TString].

Definition ApplicantCaseDetail : ty := TObject Open
  ["summary" ⦂ ApplicantCaseSummary; "openTasks" ⦂ TArray false ApplicantTaskSummary;
   "recentNotifications" ⦂ TArray false ApplicantNotificationListItem; "statusTimeline" ⦂ TArray false ApplicantStatusTimelineEntry;
   "aiInvolvement" ⦂? ApplicantAiInvolvementSummary].

(** [ApplicantCaseSummaryPage], [ApplicantTaskPage] and [ApplicantNotificationPage]. *)
Definition page (item : ty) : ty := TObject Open ["items" ⦂ TArray false item; "cursor" ⦂? TString; "hasMore" ⦂ TBoolean].

Definition ApplicantStatusResource : ty := TUnion
  [ApplicantCaseSummary; ApplicantCaseDetail; page ApplicantCaseSummary; ApplicantTaskSummary; page ApplicantTaskSummary;
   ApplicantNotificationListItem; page ApplicantNotificationListItem; ApplicantStatusTimelineEntry; ApplicantAiInvolvementSummary;
   ApplicantAgentSummary].

Definition ApplicantStatusProjection : ty := TObject Open
  ["sourceSchema" ⦂ TLiteral [WOS_APPLICANT_SCHEMA_ID]; "projectionKind" ⦂ TLiteral applicantProjectionKinds; "resourceRef" ⦂? TString;
   "endpoint" ⦂? TString; "updatedAt" ⦂ TString; "headline" ⦂? TString; "summary" ⦂? TString; "payloadDigest" ⦂? TString;
   "extensions" ⦂? TExtensions].

Definition RespondentSubjectBinding : ty := TObject Open
  ["subjectRef" ⦂ TString; "privacyTier" ⦂ TLiteral ["anonymous"; "pseudonymous"; "verified"]; "assuranceRef" ⦂? TString;
   "extensions" ⦂? TExtensions].

Definition RespondentIssuerRef : ty := TObject Open
  ["name" ⦂ TString; "url" ⦂? TString; "identifier" ⦂? TString; "extensions" ⦂? TExtensions].

Definition RespondentDefinitionRef : ty := TObject Open ["url" ⦂ TString; "version" ⦂? TString].

Definition RespondentObligation : ty := TObject Open
  ["id" ⦂ TString; "issuer" ⦂ RespondentIssuerRef; "title" ⦂ TString; "description" ⦂? TString; "state" ⦂ TLiteral obligationStates;
   "dueAt" ⦂? TString; "formRef" ⦂? RespondentDefinitionRef; "submissionRef" ⦂? TString; "extensions" ⦂? TExtensions].

Definition RespondentContentRef : ty := TObject Open
  ["uri" ⦂ TString; "mediaType" ⦂ TString; "sha256" ⦂? TString; "extensions" ⦂? TExtensions].

Definition RespondentDocumentRecord : ty := TObject Open
  ["id" ⦂ TString; "kind" ⦂ TLiteral respondentDocumentKinds; "displayName" ⦂ TString; "issuer" ⦂? RespondentIssuerRef;
   "capturedAt" ⦂ TString; "expiresAt" ⦂? TString; "contentRef" ⦂ RespondentContentRef; "sourceSubmissionRef" ⦂? TString;
   "presentationPolicyRef" ⦂? TString; "extensions" ⦂? TExtensions].

Definition RespondentSubmissionRecord : ty := TObject Open
  ["id" ⦂ TString; "issuer" ⦂ RespondentIssuerRef; "definitionRef" ⦂ RespondentDefinitionRef; "submittedAt" ⦂ TString;
   "applicantStatus" ⦂? ApplicantStatusProjection; "receiptRef" ⦂? TString; "documentRefs" ⦂? TArray false TString;
   "extensions" ⦂? TExtensions].

(** With the type of [documentRefs], which the guard reads for one scope only. *)
Definition RespondentPresentationPolicy (documentRefs : ty) : ty := TObject Open
  ["id" ⦂ TString; "scope" ⦂ TLiteral presentationScopes; "documentRefs" ⦂? documentRefs;
   "allowedPurposes" ⦂ TArray false (TLiteral presentationPurposes); "recipientIssuer" ⦂? RespondentIssuerRef;
   "protocolHints" ⦂? TArray false (TLiteral presentationProtocols); "expiresAt" ⦂? TString; "extensions" ⦂? TExtensions].

Definition RespondentTrustModel : ty := TObject Open
  ["storagePosture" ⦂ TLiteral storagePostures; "issuerIsolation" ⦂ TLiteral issuerIsolationModes;
   "serverAggregation" ⦂ TLiteral ["forbidden"]; "presentationDefault" ⦂ TLiteral presentationDefaults; "extensions" ⦂? TExtensions].

Definition RespondentEncryptionEnvelope : ty := TObject Open
  ["mode" ⦂ TLiteral ["none"; "passkey-hpke"]; "keyDerivation" ⦂? TLiteral ["passkey-derived"; "external-key"];
   "recipientKeyRef" ⦂? TString; "cipherSuite" ⦂? TString; "extensions" ⦂? TExtensions].

Definition RespondentExportPackage : ty := TObject Open
  ["id" ⦂ TString; "format" ⦂ TLiteral ["portable-json"; "encrypted-portable-json"]; "createdAt" ⦂ TString;
   "includes" ⦂ TArray false (TLiteral ["documents"; "submissions"; "obligations"; "presentation-policies"]);
   "encryption" ⦂? RespondentEncryptionEnvelope; "extensions" ⦂? TExtensions].

Definition snapshot_type (documentRefs : ty) : ty := TObject Open
  ["$formspecRespondentLibrary" ⦂ TLiteral ["1.0"]; "version" ⦂ TString; "libraryId" ⦂ TString; "subject" ⦂ RespondentSubjectBinding;
   "aggregationMode" ⦂ TLiteral ["client-wallet"]; "trustModel" ⦂ RespondentTrustModel; "encryption" ⦂? RespondentEncryptionEnvelope;
   "obligations" ⦂? TArray false RespondentObligation; "documents" ⦂? TArray false RespondentDocumentRecord;
   "submissions" ⦂? TArray false RespondentSubmissionRecord;
   "presentationPolicies" ⦂? TArray false (RespondentPresentationPolicy documentRefs); "export" ⦂? RespondentExportPackage;
   "extensions" ⦂? TExtensions].
Definition RespondentPlaceSnapshot : ty := snapshot_type (TArray false TString).

Definition HistoryIssuerRef : ty := TObject Open ["name" ⦂ TString; "url" ⦂? TString; "identifier" ⦂? TString].
Definition HistoryDefinitionRef : ty := TObject Open ["url" ⦂ TString; "version" ⦂? TString].
Definition HistoryEntry : ty := TObject Open
  ["id" ⦂ TString; "kind" ⦂ TLiteral HISTORY_ENTRY_KINDS; "issuer" ⦂ HistoryIssuerRef; "timestamp" ⦂ TString; "title" ⦂ TString;
   "applicantStatusRef" ⦂? TString; "receiptRef" ⦂? TString; "documentRefs" ⦂? TArray false TString;
   "definitionRef" ⦂? HistoryDefinitionRef].
Definition HistorySnapshot : ty := TObject Open
  ["$formspecRespondentHistory" ⦂ TLiteral ["1.0"]; "aggregationMode" ⦂ TLiteral ["client-wallet"]; "subjectRef" ⦂ TString;
   "entries" ⦂ TArray false HistoryEntry].
End Port.
