(* ===== verification/RespondentGuards.v ===== *)
(** * What the guards of the respondent's documents accept

    Each guard of [RespondentPlace] accepts exactly a shape (Module [Accepted]):
    the port's type with no other keys and a few bounds, an equivalence that
    the class [Exact] carries from guard to guard.  So what passes is of the
    port's type and passes again after a round trip through JSON. *)

From S2P Require Import Prelude JsValue Schema RespondentPlace.

Open Scope schema_scope.

(** ** A guard and its shape *)

Class Exact (p : jsv → bool) (t : ty) : Prop := guard_exact v : p v = of_type t v.

Lemma forallb_exact p t `{!Exact p t} l : forallb p l = forallb (of_type t) l.
Proof. induction l as [|x l IH]; [done|]. simpl. by rewrite IH, guard_exact. Qed.

#[export] Instance is_string_exact : Exact is_string TString.
Proof. done. Qed.
#[export] Instance is_boolean_exact : Exact is_boolean TBoolean.
Proof. done. Qed.
#[export] Instance unit_number_exact : Exact unit_number TUnit.
Proof. done. Qed.
#[export] Instance count_number_exact : Exact count_number TCount.
Proof. done. Qed.
#[export] Instance isExtensions_exact : Exact isExtensions TExtensions.
Proof. done. Qed.
#[export] Instance string_in_exact l : Exact (string_in l) (TLiteral l).
Proof. intros v. by destruct v. Qed.
#[export] Instance reserved_string_exact l : Exact (reserved_string l) (TToken true l).
Proof. intros v. by destruct v. Qed.
#[export] Instance every_exact p t `{!Exact p t} : Exact (every p) (TArray false t).
Proof. intros v. unfold every. simpl. by rewrite (forallb_exact p t), andb_true_r. Qed.

Lemma is_lit_exact v s : is_lit v s = of_type (TLiteral [s]) v.
Proof. destruct v; try done. simpl. unfold str_in. destruct (String.eqb_spec s0 s) as [->|Hn]; case_bool_decide; set_solver. Qed.

Definition field_ok (v : jsv) (f : string * (bool * ty)) : bool :=
  negb f.2.1 && is_undefined (prop v f.1) || of_type f.2.2 (prop v f.1).

Lemma of_type_object k fields v : of_type (TObject k fields) v = isRecord v && keys_ok k (names fields) v && forallb (field_ok v) fields.
Proof. cbn [of_type]. f_equal. induction fields as [|[name [needed t]] fields IH]; [done|]. cbn [forallb]. by rewrite IH. Qed.

(** Replaces the guard of every property by membership in its shape. *)
Ltac exact_fields :=
  unfold maybe; rewrite ?is_lit_exact;
  repeat match goal with
  | |- context [?p (prop ?v ?k)] =>
      lazymatch p with
      | of_type _ => fail
      | is_undefined => fail | is_array => fail | arr_of => fail | some_element => fail | isRecord => fail | is_object => fail
      | _ => rewrite (guard_exact (p := p) (prop v k))
      end
  | |- context [forallb ?p ?l] => lazymatch p with of_type _ => fail | _ => rewrite (forallb_exact p _ l) end
  end.

(** A type of a port without other keys, and with the extension tokens in their
    exact form. *)
Fixpoint closed (t : ty) : ty :=
  match t with
  | TToken _ l => TToken true l
  | TArray i t => TArray i (closed t)
  | TObject _ fields => TObject Closed (List.map (λ f, let '(name, (needed, t)) := f in (name, (needed, closed t))) fields)
  | TUnion l => TUnion (List.map closed l)
  | _ => t
  end.

Lemma inhabited_array t v : of_type (TArray true t) v = is_array v && some_element v && forallb (of_type t) (arr_of v).
Proof. done. Qed.
Lemma plain_array t v : of_type (TArray false t) v = is_array v && forallb (of_type t) (arr_of v).
Proof. simpl. by rewrite andb_true_r. Qed.

(** Two conjunctions of the same tests, up to what is implied by one of them. *)
Ltac conj_solve :=
  split; intros; repeat match goal with H : _ ∧ _ |- _ => destruct H end; try congruence;
  repeat match goal with |- _ ∧ _ => split end; first [assumption | reflexivity | eauto 3 | congruence].

(** A guard that is a conjunction of tests of properties. *)
Ltac conjunction :=
  rewrite of_type_object; unfold hasOnlyKeys, field_ok;
  cbn [forallb required optional negb andb orb fst snd keys_ok names fmap list_fmap];
  rewrite ?inhabited_array; apply eq_true_iff_eq; rewrite ?andb_true_iff; conj_solve.
Ltac by_fields g t t' :=
  let v := fresh "v" in
  intros v; unfold g; cbv zeta; exact_fields; unfold t, t'; cbn [closed List.map required optional]; conjunction.

Module Accepted.

Definition ApplicantStatusProjection : ty := closed Port.ApplicantStatusProjection.
Definition ApplicantStatusTimelineEntry : ty := closed Port.ApplicantStatusTimelineEntry.
Definition ApplicantNotificationListItem : ty := closed Port.ApplicantNotificationListItem.
Definition ApplicantTaskSummary : ty := closed Port.ApplicantTaskSummary.
Definition ApplicantCaseSummary : ty := closed Port.ApplicantCaseSummary.
Definition RespondentIssuerRef : ty := closed Port.RespondentIssuerRef.
Definition RespondentDefinitionRef : ty := closed Port.RespondentDefinitionRef.
Definition RespondentContentRef : ty := closed Port.RespondentContentRef.
Definition RespondentTrustModel : ty := closed Port.RespondentTrustModel.
Definition RespondentSubjectBinding : ty := closed Port.RespondentSubjectBinding.
Definition RespondentObligation : ty := closed Port.RespondentObligation.
Definition RespondentDocumentRecord : ty := closed Port.RespondentDocumentRecord.
Definition RespondentSubmissionRecord : ty := closed Port.RespondentSubmissionRecord.

Definition ApplicantAgentSummary : ty := TObject Closed
  ["displayName" ⦂ TString; "roleInDecision" ⦂ TLiteral agentRoles; "confidence" ⦂? TUnit].

Definition ApplicantAiInvolvementSummary : ty := TObject Closed
  ["agentsInvolved" ⦂ TArray false ApplicantAgentSummary; "narrativeRecordCount" ⦂ TCount; "humanReviewedAllAgentDecisions" ⦂ TBoolean].

Definition ApplicantCaseDetail : ty := TObject Closed
  ["summary" ⦂ ApplicantCaseSummary; "openTasks" ⦂ TArray false ApplicantTaskSummary;
   "recentNotifications" ⦂ TArray false ApplicantNotificationListItem; "statusTimeline" ⦂ TArray false ApplicantStatusTimelineEntry;
   "aiInvolvement" ⦂? ApplicantAiInvolvementSummary].

Definition page (item : ty) : ty := TObject Closed ["items" ⦂ TArray false item; "cursor" ⦂? TString; "hasMore" ⦂ TBoolean].

Definition ApplicantStatusResource : ty := TUnion
  [ApplicantCaseDetail; page ApplicantCaseSummary; page ApplicantTaskSummary; page ApplicantNotificationListItem; ApplicantCaseSummary;
   ApplicantTaskSummary; ApplicantNotificationListItem; ApplicantStatusTimelineEntry; ApplicantAiInvolvementSummary;
   ApplicantAgentSummary].

(** The documents are named when the scope selects some, and not read otherwise. *)
Definition policy (scopes : list string) (documents : string * (bool * ty)) : ty := TObject Closed
  ["id" ⦂ TString; "scope" ⦂ TLiteral scopes; documents; "allowedPurposes" ⦂ TArray true (TLiteral presentationPurposes);
   "recipientIssuer" ⦂? RespondentIssuerRef; "protocolHints" ⦂? TArray false (TLiteral presentationProtocols); "expiresAt" ⦂? TString;
   "extensions" ⦂? TExtensions].
Definition RespondentPresentationPolicy : ty := TUnion
  [policy ["selected-documents"] ("documentRefs" ⦂ TArray true TString);
   policy ["all-documents"; "metadata-only"] ("documentRefs" ⦂? TUnknown)].

(** A mode with keys names them, the other does not. *)
Definition envelope (mode : string) (derivation recipient : string * (bool * ty)) : ty := TObject Closed
  ["mode" ⦂ TLiteral [mode]; derivation; recipient; "cipherSuite" ⦂? TString; "extensions" ⦂? TExtensions].
Definition RespondentEncryptionEnvelope : ty := TUnion
  [envelope "passkey-hpke" ("keyDerivation" ⦂ TLiteral ["passkey-derived"; "external-key"]) ("recipientKeyRef" ⦂ TString);
   envelope "none" ("keyDerivation" ⦂? TNever) ("recipientKeyRef" ⦂? TNever)].

Definition RespondentExportPackage : ty := TObject Closed
  ["id" ⦂ TString; "format" ⦂ TLiteral exportFormats; "createdAt" ⦂ TString; "includes" ⦂ TArray true (TLiteral exportIncludes);
   "encryption" ⦂? RespondentEncryptionEnvelope; "extensions" ⦂? TExtensions].

Definition RespondentPlaceSnapshot : ty := TObject ClosedX
  ["$formspecRespondentLibrary" ⦂ TLiteral ["1.0"]; "version" ⦂ TString; "libraryId" ⦂ TString; "subject" ⦂ RespondentSubjectBinding;
   "aggregationMode" ⦂ TLiteral ["client-wallet"]; "trustModel" ⦂ RespondentTrustModel; "encryption" ⦂? RespondentEncryptionEnvelope;
   "obligations" ⦂? TArray false RespondentObligation; "documents" ⦂? TArray false RespondentDocumentRecord;
   "submissions" ⦂? TArray false RespondentSubmissionRecord; "presentationPolicies" ⦂? TArray false RespondentPresentationPolicy;
   "export" ⦂? RespondentExportPackage; "extensions" ⦂? TExtensions].
End Accepted.

(** ** The guards of the applicant's projections *)

#[export] Instance isApplicantStatusProjection_exact : Exact isApplicantStatusProjection Accepted.ApplicantStatusProjection.
Proof. by_fields isApplicantStatusProjection Accepted.ApplicantStatusProjection Port.ApplicantStatusProjection. Qed.
#[export] Instance isApplicantAgentSummary_exact : Exact isApplicantAgentSummary Accepted.ApplicantAgentSummary.
Proof. by_fields isApplicantAgentSummary Accepted.ApplicantAgentSummary Port.page. Qed.
#[export] Instance isApplicantAiInvolvementSummary_exact : Exact isApplicantAiInvolvementSummary Accepted.ApplicantAiInvolvementSummary.
Proof. by_fields isApplicantAiInvolvementSummary Accepted.ApplicantAiInvolvementSummary Port.page. Qed.
#[export] Instance isApplicantStatusTimelineEntry_exact : Exact isApplicantStatusTimelineEntry Accepted.ApplicantStatusTimelineEntry.
Proof. by_fields isApplicantStatusTimelineEntry Accepted.ApplicantStatusTimelineEntry Port.ApplicantStatusTimelineEntry. Qed.
#[export] Instance isApplicantNotificationListItem_exact : Exact isApplicantNotificationListItem Accepted.ApplicantNotificationListItem.
Proof. by_fields isApplicantNotificationListItem Accepted.ApplicantNotificationListItem Port.ApplicantNotificationListItem. Qed.
#[export] Instance isApplicantTaskSummary_exact : Exact isApplicantTaskSummary Accepted.ApplicantTaskSummary.
Proof. by_fields isApplicantTaskSummary Accepted.ApplicantTaskSummary Port.ApplicantTaskSummary. Qed.
#[export] Instance isApplicantCaseSummary_exact : Exact isApplicantCaseSummary Accepted.ApplicantCaseSummary.
Proof. by_fields isApplicantCaseSummary Accepted.ApplicantCaseSummary Port.ApplicantCaseSummary. Qed.
#[export] Instance is_page_exact p t `{!Exact p t} : Exact (is_page p) (Accepted.page t).
Proof. by_fields is_page Accepted.page Port.page. Qed.
#[export] Instance isApplicantCaseDetail_exact : Exact isApplicantCaseDetail Accepted.ApplicantCaseDetail.
Proof. by_fields isApplicantCaseDetail Accepted.ApplicantCaseDetail Port.page. Qed.

#[export] Instance isApplicantStatusResource_exact : Exact isApplicantStatusResource Accepted.ApplicantStatusResource.
Proof.
  intros v. unfold isApplicantStatusResource, isApplicantCaseSummaryPage, isApplicantTaskPage, isApplicantNotificationPage.
  repeat match goal with |- context [?p v] => lazymatch p with of_type _ => fail | _ => rewrite (guard_exact (p := p) v) end end.
  unfold Accepted.ApplicantStatusResource. cbn [of_type existsb]. by rewrite orb_false_r, !orb_assoc.
Qed.

(** ** The guards of the respondent's place *)

#[export] Instance isIssuerRef_exact : Exact isIssuerRef Accepted.RespondentIssuerRef.
Proof. by_fields isIssuerRef Accepted.RespondentIssuerRef Port.RespondentIssuerRef. Qed.
#[export] Instance isDefinitionRef_exact : Exact isDefinitionRef Accepted.RespondentDefinitionRef.
Proof. by_fields isDefinitionRef Accepted.RespondentDefinitionRef Port.RespondentDefinitionRef. Qed.
#[export] Instance isContentRef_exact : Exact isContentRef Accepted.RespondentContentRef.
Proof. by_fields isContentRef Accepted.RespondentContentRef Port.RespondentContentRef. Qed.
#[export] Instance isRespondentTrustModel_exact : Exact isRespondentTrustModel Accepted.RespondentTrustModel.
Proof. by_fields isRespondentTrustModel Accepted.RespondentTrustModel Port.RespondentTrustModel. Qed.
#[export] Instance isSubjectBinding_exact : Exact isSubjectBinding Accepted.RespondentSubjectBinding.
Proof. by_fields isSubjectBinding Accepted.RespondentSubjectBinding Port.RespondentSubjectBinding. Qed.
#[export] Instance isRespondentObligation_exact : Exact isRespondentObligation Accepted.RespondentObligation.
Proof. by_fields isRespondentObligation Accepted.RespondentObligation Port.RespondentObligation. Qed.
#[export] Instance isRespondentDocumentRecord_exact : Exact isRespondentDocumentRecord Accepted.RespondentDocumentRecord.
Proof. by_fields isRespondentDocumentRecord Accepted.RespondentDocumentRecord Port.RespondentDocumentRecord. Qed.
#[export] Instance isRespondentSubmissionRecord_exact : Exact isRespondentSubmissionRecord Accepted.RespondentSubmissionRecord.
Proof. by_fields isRespondentSubmissionRecord Accepted.RespondentSubmissionRecord Port.RespondentSubmissionRecord. Qed.
(** A test that answers [false] early. *)
Lemma reject (b x : bool) : (if b then false else x) = negb b && x.
Proof. by destruct b. Qed.

Ltac by_tests g := intros v; unfold g; cbv zeta; rewrite ?reject; repeat progress rewrite ?negb_orb, ?negb_andb, ?negb_involutive.

Lemma of_type_union t t' v : of_type (TUnion [t; t']) v = of_type t v || of_type t' v.
Proof. simpl. by rewrite orb_false_r. Qed.

Lemma two_literals v a b : is_lit v a || is_lit v b = of_type (TLiteral [a; b]) v.
Proof. destruct v; try done. simpl. unfold str_in. destruct (String.eqb_spec s a), (String.eqb_spec s b); case_bool_decide; set_solver. Qed.
Lemma never v : of_type TNever v = false.
Proof. done. Qed.
Lemma is_lit_other v a b : is_lit v a = true → a ≠ b → is_lit v b = false.
Proof. intros ->%is_lit_spec Hn. simpl. by apply String.eqb_neq. Qed.

(** A guard that accepts one of two shapes, after the tests that tell them apart
    have been decided. *)
Ltac by_cases :=
  rewrite of_type_union, !of_type_object; unfold hasOnlyKeys, field_ok;
  cbn [forallb required optional negb andb orb fst snd keys_ok names fmap list_fmap];
  rewrite ?two_literals, ?never, ?inhabited_array, ?plain_array, <- ?is_lit_exact.
Ltac conjuncts := rewrite ?andb_false_l, ?andb_false_r, ?orb_false_l, ?orb_false_r, ?andb_true_l, ?orb_true_r;
  apply eq_true_iff_eq; rewrite ?andb_true_iff; conj_solve.

#[export] Instance isEncryptionEnvelope_exact : Exact isEncryptionEnvelope Accepted.RespondentEncryptionEnvelope.
Proof.
  by_tests isEncryptionEnvelope. unfold Accepted.RespondentEncryptionEnvelope, Accepted.envelope. unfold maybe.
  destruct (is_lit (prop v "mode") "passkey-hpke") eqn:Em; [|destruct (is_lit (prop v "mode") "none") eqn:En].
  - by_cases. rewrite (is_lit_other _ _ "none" Em), Em by done. rewrite !(guard_exact (p := is_string)), !(guard_exact (p := isExtensions)). conjuncts.
  - by_cases. rewrite Em, En. rewrite !(guard_exact (p := is_string)), !(guard_exact (p := isExtensions)). conjuncts.
  - by_cases. rewrite Em, En. conjuncts.
Qed.

Lemma scopes v : is_one_of v presentationScopes = is_lit v "selected-documents" || of_type (TLiteral ["all-documents"; "metadata-only"]) v.
Proof.
  destruct v; try done. simpl. unfold str_in, presentationScopes. destruct (String.eqb_spec s "selected-documents") as [->|Hn]; [done|].
  simpl. apply eq_true_iff_eq. rewrite !bool_decide_eq_true. set_solver.
Qed.

Lemma literal_is_string l v : of_type (TLiteral l) v = true → of_type TString v = true.
Proof. by destruct v. Qed.

#[export] Instance isPresentationPolicy_exact : Exact isPresentationPolicy Accepted.RespondentPresentationPolicy.
Proof.
  by_tests isPresentationPolicy. unfold Accepted.RespondentPresentationPolicy, Accepted.policy. rewrite scopes.
  pose proof (literal_is_string ["all-documents"; "metadata-only"] (prop v "scope")) as Hs.
  destruct (is_lit (prop v "scope") "selected-documents") eqn:Es; by_cases; rewrite Es; exact_fields.
  - apply is_lit_spec in Es. rewrite Es. conjuncts.
  - conjuncts.
Qed.

#[export] Instance isExportPackage_exact : Exact isExportPackage Accepted.RespondentExportPackage.
Proof. by_fields isExportPackage Accepted.RespondentExportPackage Port.page. Qed.

Lemma isOptionalArray_exact p t `{!Exact p t} v : isOptionalArray v p = is_undefined v || of_type (TArray false t) v.
Proof. unfold isOptionalArray. by rewrite (forallb_exact p t), plain_array. Qed.

Lemma object_is_record k fields v : of_type (TObject k fields) v = true → isRecord v = true.
Proof. rewrite of_type_object. by intros [[H _]%andb_true_iff _]%andb_true_iff. Qed.

#[export] Instance isRespondentPlaceSnapshot_exact : Exact isRespondentPlaceSnapshot Accepted.RespondentPlaceSnapshot.
Proof.
  by_tests isRespondentPlaceSnapshot. rewrite !(isOptionalArray_exact _ _). unfold Accepted.RespondentPlaceSnapshot. exact_fields.
  pose proof (object_is_record _ _ (prop v "subject") : of_type Accepted.RespondentSubjectBinding _ = true → _) as Hs.
  pose proof (object_is_record _ _ (prop v "trustModel") : of_type Accepted.RespondentTrustModel _ = true → _) as Ht.
  conjunction.
Qed.

(** ** The guards of the history *)

Lemma string_field v k : of_type TString (prop v k) = true → isRecord v = true.
Proof. by destruct v. Qed.
Lemma record_object v : isRecord v = true → is_object v = true.
Proof. by destruct v. Qed.

Ltac open_object :=
  unfold maybe; exact_fields; rewrite of_type_object; unfold field_ok;
  cbn [forallb required optional negb andb orb fst snd keys_ok names fmap list_fmap];
  rewrite ?plain_array; apply eq_true_iff_eq; rewrite ?andb_true_iff; conj_solve.

Lemma issuer_shape v : is_object v && is_string (prop v "name") && maybe is_string (prop v "url") && maybe is_string (prop v "identifier") =
  of_type Port.HistoryIssuerRef v.
Proof. pose proof (string_field v "name"). pose proof (record_object v). unfold Port.HistoryIssuerRef. open_object. Qed.

Lemma definition_shape v : is_object v && is_string (prop v "url") && maybe is_string (prop v "version") = of_type Port.HistoryDefinitionRef v.
Proof. pose proof (string_field v "url"). pose proof (record_object v). unfold Port.HistoryDefinitionRef. open_object. Qed.

#[export] Instance isHistoryEntry_exact : Exact isHistoryEntry Port.HistoryEntry.
Proof.
  by_tests isHistoryEntry. unfold Port.HistoryEntry. pose proof (string_field v "id"). pose proof (record_object v).
  rewrite of_type_object. unfold field_ok. cbn [forallb required optional negb andb orb fst snd keys_ok names fmap list_fmap].
  rewrite <- issuer_shape, <- definition_shape, plain_array. unfold maybe.
  fold (string_in HISTORY_ENTRY_KINDS (prop v "kind")). exact_fields. apply eq_true_iff_eq. rewrite ?andb_true_iff. conj_solve.
Qed.

#[export] Instance isHistorySnapshot_exact : Exact isHistorySnapshot Port.HistorySnapshot.
Proof.
  by_tests isHistorySnapshot. unfold Port.HistorySnapshot. pose proof (string_field v "subjectRef"). pose proof (record_object v). open_object.
Qed.
