(* ===== verification/RespondentSources.v ===== *)
(** * The demo sources of status, place and history

    src/src/adapters/stub/status-reader.ts, respondent-place-source.ts and
    respondent-history-source.ts: they guard what they are given and answer with
    copies made by JSON.  What the guards promise their callers is proved here:
    the values are of the ports' types and remain so through the copies. *)

From S2P Require Import Prelude JsValue Schema RespondentPlace RespondentGuards.

(** ** The sources *)

(** [cloneJson] is [json_of], but of [undefined]. *)
Definition invalid_resource : string := "stub StatusReader: invalid WOS applicant API resource".
Definition invalid_place : string := "stub RespondentPlaceSource: invalid Respondent Library snapshot".
Definition invalid_history : string := "stub RespondentHistorySource: invalid HistorySnapshot".

Record StatusRequest : Set := {
  req_subjectRef : option string; req_submissionId : option string; req_resourceRef : option string; req_trackingUri : option string
}.

Abbreviation Records := (gmap string jsv).

Definition registerStatus (records : Records) (entry : string * jsv) : outcome string Records :=
  throw_when (negb (isApplicantStatusResource entry.2)) invalid_resource ;;
  Returns (<[entry.1 := json_of entry.2]> records).

Definition stubStatusReader (initialRecords : list (string * jsv)) : outcome string Records := fold_each registerStatus ∅ initialRecords.

(** [request.resourceRef ?? request.submissionId ?? request.trackingUri] *)
Definition request_key (request : StatusRequest) : option string :=
  match req_resourceRef request with
  | Some k => Some k
  | None => match req_submissionId request with Some k => Some k | None => req_trackingUri request end
  end.

Definition readStatus (records : Records) (request : StatusRequest) : option jsv :=
  match request_key request with
  | Some key => if nonempty key then json_of <$> records !! key else None
  | None => None
  end.

Definition stubRespondentPlaceSource (initialSnapshot : jsv) : outcome string jsv :=
  let snapshot := json_of initialSnapshot in
  throw_when (negb (isRespondentPlaceSnapshot snapshot)) invalid_place ;; Returns snapshot.
Definition replacePlace (nextSnapshot : jsv) : outcome string jsv :=
  throw_when (negb (isRespondentPlaceSnapshot nextSnapshot)) invalid_place ;; Returns (json_of nextSnapshot).
Definition readPlace (snapshot : jsv) : jsv := json_of snapshot.

Definition emptyRespondentPlaceSnapshot (subjectRef : string) : jsv := JObj [
  ("$formspecRespondentLibrary", JStr "1.0");
  ("version", JStr "1.0.0");
  ("libraryId", JStr "urn:formspec:respondent-library:empty");
  ("subject", JObj [("subjectRef", JStr subjectRef); ("privacyTier", JStr "pseudonymous")]);
  ("aggregationMode", JStr "client-wallet");
  ("trustModel", JObj [("storagePosture", JStr "client-local-only"); ("issuerIsolation", JStr "per-issuer");
    ("serverAggregation", JStr "forbidden"); ("presentationDefault", JStr "explicit-consent")]);
  ("obligations", JArr []); ("documents", JArr []); ("submissions", JArr []); ("presentationPolicies", JArr [])
].

Definition stubRespondentHistorySource (initialSnapshot : jsv) : outcome string jsv :=
  let snapshot := json_of initialSnapshot in
  throw_when (negb (isHistorySnapshot snapshot)) invalid_history ;; Returns snapshot.
Definition replaceHistory (nextSnapshot : jsv) : outcome string jsv :=
  throw_when (negb (isHistorySnapshot nextSnapshot)) invalid_history ;; Returns (json_of nextSnapshot).
Definition readHistory (snapshot : jsv) : jsv := json_of snapshot.

Definition emptyHistorySnapshot (subjectRef : string) : jsv := JObj [
  ("$formspecRespondentHistory", JStr "1.0"); ("aggregationMode", JStr "client-wallet"); ("subjectRef", JStr subjectRef); ("entries", JArr [])
].

#[local] Arguments isApplicantStatusResource : simpl never.
#[local] Arguments isRespondentPlaceSnapshot : simpl never.
#[local] Arguments isHistorySnapshot : simpl never.

(** A call that throws leaves the source as it was. *)
Definition attempt {S} (s : S) (m : outcome string S) : S := match m with Returns s' => s' | Throws _ => s end.

(** ** What the guards promise *)

(** C34. The guards of status resources, of status projections and of respondent
    libraries accept exactly the closed shapes, the guard of histories exactly
    the type of its port, whatever value they are given; and a value of such a
    shape is of the type that the port declares, in every field but the
    documents of a presentation policy, which the guard reads for one scope
    only. *)
Theorem respondent_guards_exact v :
  (isApplicantStatusResource v = of_type Accepted.ApplicantStatusResource v ∧
    (of_type Accepted.ApplicantStatusResource v = true → of_type Port.ApplicantStatusResource v = true)) ∧
  (isApplicantStatusProjection v = of_type Accepted.ApplicantStatusProjection v ∧
    (of_type Accepted.ApplicantStatusProjection v = true → of_type Port.ApplicantStatusProjection v = true)) ∧
  (isRespondentPlaceSnapshot v = of_type Accepted.RespondentPlaceSnapshot v ∧
    (of_type Accepted.RespondentPlaceSnapshot v = true → of_type (Port.snapshot_type TUnknown) v = true)) ∧
  isHistorySnapshot v = of_type Port.HistorySnapshot v.
Proof.
  split; [|split; [|split; [|apply guard_exact]]]; (split; [apply guard_exact|apply sub_sound; vm_compute; reflexivity]).
Qed.

(** A guard that copies made by JSON do not escape. *)
Lemma guard_json p t v `{!Exact p t} : exact t = true → distinct v = true → p v = true → p (json_of v) = true.
Proof. intros Ht Hv. rewrite (guard_exact (p := p) v), (guard_exact (p := p) (json_of v)). by apply of_type_json. Qed.

(** What a source holds: a value that its guard accepts and that a copy keeps. *)
Definition served (p : jsv → bool) (v : jsv) : Prop := p v = true ∧ json_of v = v.

Lemma clone_served p t v `{!Exact p t} : exact t = true → distinct v = true → p v = true → served p (json_of v).
Proof. intros Ht Hv Hp. split; [by apply (guard_json p t)|apply json_of_idem]. Qed.

Lemma resource_served v : distinct v = true → isApplicantStatusResource v = true → served isApplicantStatusResource (json_of v).
Proof. exact (clone_served isApplicantStatusResource Accepted.ApplicantStatusResource v eq_refl). Qed.
Lemma place_served v : distinct v = true → isRespondentPlaceSnapshot v = true → served isRespondentPlaceSnapshot (json_of v).
Proof. exact (clone_served isRespondentPlaceSnapshot Accepted.RespondentPlaceSnapshot v eq_refl). Qed.
Lemma history_served v : distinct v = true → isHistorySnapshot v = true → served isHistorySnapshot (json_of v).
Proof. exact (clone_served isHistorySnapshot Port.HistorySnapshot v eq_refl). Qed.

(** The last resource that was accepted under a key. *)
Definition latest (key : string) (entries : list (string * jsv)) : option jsv :=
  last (omap (λ e, if decide (e.1 = key) then if isApplicantStatusResource e.2 then Some e.2 else None else None) entries).

Definition register_all (records : Records) (entries : list (string * jsv)) : Records :=
  foldl (λ r e, attempt r (registerStatus r e)) records entries.

Lemma register_lookup records entry key : attempt records (registerStatus records entry) !! key =
  if decide (entry.1 = key) then if isApplicantStatusResource entry.2 then Some (json_of entry.2) else records !! key else records !! key.
Proof.
  unfold registerStatus. destruct (isApplicantStatusResource entry.2); simpl; case_decide as Hk; try done.
  - subst. by rewrite lookup_insert_eq.
  - by rewrite lookup_insert_ne.
Qed.

Lemma latest_app key l e : latest key (l ++ [e]) =
  if decide (e.1 = key) then if isApplicantStatusResource e.2 then Some e.2 else latest key l else latest key l.
Proof.
  unfold latest. rewrite omap_app. simpl. case_decide as Hk; [|by rewrite app_nil_r].
  destruct (isApplicantStatusResource e.2); [by rewrite last_snoc|by rewrite app_nil_r].
Qed.

Lemma register_all_lookup entries key : register_all ∅ entries !! key = json_of <$> latest key entries.
Proof.
  unfold register_all. induction entries as [|e l IH] using rev_ind; [exact (lookup_empty key)|].
  rewrite foldl_snoc, register_lookup, latest_app, IH. repeat case_match; done.
Qed.

Lemma stubStatusReader_all initial records : stubStatusReader initial = Returns records → records = register_all ∅ initial.
Proof.
  unfold stubStatusReader, register_all. generalize (∅ : Records). induction initial as [|e l IH]; intros r0 H; [by injection H|].
  simpl in H. apply bind_Returns in H as (r1 & H1 & H2). simpl. rewrite H1. simpl. by apply IH.
Qed.

Lemma latest_accepted key entries v : Forall (λ e, distinct e.2 = true) entries → latest key entries = Some v →
  distinct v = true ∧ isApplicantStatusResource v = true.
Proof.
  induction entries as [|e l IH] using rev_ind; [done|]. intros [Hl He]%Forall_app Hv. rewrite latest_app in Hv.
  destruct (decide (e.1 = key)); [|by apply IH]. destruct (isApplicantStatusResource e.2) eqn:E; [|by apply IH].
  injection Hv as <-. split; [exact (proj1 (Forall_singleton _ _) He)|exact E].
Qed.

(** The snapshot of a place or history source along replacements. *)
Definition replace_all (replace : jsv → outcome string jsv) (snapshot : jsv) (next : list jsv) : jsv :=
  foldl (λ s v, attempt s (replace v)) snapshot next.

Lemma replaced_served p replace snapshot next :
  (∀ v s, distinct v = true → replace v = Returns s → served p s) → Forall (λ v, distinct v = true) next → served p snapshot →
  served p (replace_all replace snapshot next).
Proof.
  intros Hr. revert snapshot. induction next as [|v l IH]; intros s Hl Hs; [done|]. apply Forall_cons in Hl as [Hv Hl].
  apply IH; [done|]. destruct (replace v) as [s'|] eqn:E; [by apply (Hr v)|done].
Qed.

(** C35. Whatever a demo source is given, before or after it is made, and whichever
    calls it refuses: the status reader answers with a copy of the resource it
    last accepted under the key, and what any of the three sources serves
    passes its guard and survives another round trip through JSON unchanged. *)
Theorem respondent_sources_serve_valid initial entries records request snapshot place history next :
  Forall (λ e, distinct e.2 = true) (initial ++ entries) → Forall (λ v, distinct v = true) (snapshot :: next) →
  stubStatusReader initial = Returns records →
  (∀ key, request_key request = Some key → key ≠ "" →
    readStatus (register_all records entries) request = json_of <$> latest key (initial ++ entries)) ∧
  (∀ v, readStatus (register_all records entries) request = Some v → served isApplicantStatusResource v) ∧
  (stubRespondentPlaceSource snapshot = Returns place →
    served isRespondentPlaceSnapshot (readPlace (replace_all replacePlace place next))) ∧
  (stubRespondentHistorySource snapshot = Returns history →
    served isHistorySnapshot (readHistory (replace_all replaceHistory history next))).
Proof.
  intros He [Hs Hn]%Forall_cons Hi. apply stubStatusReader_all in Hi as ->.
  assert (register_all (register_all ∅ initial) entries = register_all ∅ (initial ++ entries)) as -> by (unfold register_all; by rewrite foldl_app).
  assert (∀ key, json_of <$> register_all ∅ (initial ++ entries) !! key = json_of <$> latest key (initial ++ entries)) as Hl.
  { intros key. rewrite register_all_lookup. destruct (latest _ _); simpl; [by rewrite json_of_idem|done]. }
  split; [|split; [|split]].
  - intros key Hk Hne. unfold readStatus. rewrite Hk, (proj2 (nonempty_spec key)) by done. apply Hl.
  - intros v. unfold readStatus. destruct (request_key request) as [key|]; [|done]. destruct (nonempty key); [|done].
    rewrite Hl. intros (r & Hr & ->)%fmap_Some. apply latest_accepted in Hr as [Hd Hg]; [|done]. by apply resource_served.
  - intros H. unfold stubRespondentPlaceSource, readPlace in *. outcome_inv. apply negb_false_iff in H.
    destruct (replaced_served isRespondentPlaceSnapshot replacePlace (json_of snapshot) next) as [Hp Hj]; [|done|split; [done|apply json_of_idem]|].
    + intros v s Hv Hr. unfold replacePlace in Hr. outcome_inv. apply negb_false_iff in H0. by apply place_served.
    + rewrite Hj. by split.
  - intros H. unfold stubRespondentHistorySource, readHistory in *. outcome_inv. apply negb_false_iff in H.
    destruct (replaced_served isHistorySnapshot replaceHistory (json_of snapshot) next) as [Hp Hj]; [|done|split; [done|apply json_of_idem]|].
    + intros v s Hv Hr. unfold replaceHistory in Hr. outcome_inv. apply negb_false_iff in H0. by apply history_served.
    + rewrite Hj. by split.
Qed.

(** ** Samples *)

Module RespondentSample.

Definition agent : jsv := JObj [("displayName", JStr "assistant"); ("roleInDecision", JStr "advisory"); ("confidence", JNum (NOther "0.5"))].
Definition task : jsv := JObj [
  ("id", JStr "t1"); ("processId", JStr "p1"); ("kind", JStr "x-site-visit"); ("status", JStr "pending"); ("title", JStr "Visit");
  ("deadline", JUndef); ("createdAt", JStr "2026-01-01T00:00:00Z")].
Definition request : StatusRequest :=
  {| req_subjectRef := None; req_submissionId := Some "s1"; req_resourceRef := None; req_trackingUri := None |}.
Definition place : jsv := emptyRespondentPlaceSnapshot "respondent:ada".

(** A refused registration leaves the earlier one; a property that is [undefined]
    is not in the copy. *)
Lemma respondent_sources_serve_valid_witness :
  readStatus (register_all (<["s1" := json_of task]> ∅) [("s1", JNull)]) request = Some (JObj [
    ("id", JStr "t1"); ("processId", JStr "p1"); ("kind", JStr "x-site-visit"); ("status", JStr "pending"); ("title", JStr "Visit");
    ("createdAt", JStr "2026-01-01T00:00:00Z")]) ∧
  served isRespondentPlaceSnapshot (readPlace (replace_all replacePlace (json_of place) [agent])).
Proof.
  destruct (respondent_sources_serve_valid [("s1", task)] [("s1", JNull)] (<["s1" := json_of task]> ∅) request place (json_of place) JNull [agent])
    as (H1 & _ & H3 & _).
  - repeat (apply Forall_cons; split); try apply Forall_nil_2; vm_compute; reflexivity.
  - repeat (apply Forall_cons; split); try apply Forall_nil_2; vm_compute; reflexivity.
  - vm_compute. reflexivity.
  - split; [|apply H3; vm_compute; reflexivity]. rewrite (H1 "s1" eq_refl) by discriminate. vm_compute. reflexivity.
Defined.

Lemma respondent_guards_exact_witness : of_type Port.ApplicantStatusResource task = true ∧ of_type (Port.snapshot_type TUnknown) place = true.
Proof.
  destruct (respondent_guards_exact task) as ((_ & H1) & _), (respondent_guards_exact place) as (_ & _ & (_ & H2) & _).
  split; [apply H1|apply H2]; vm_compute; reflexivity.
Defined.

(** The documents of a policy that selects none are not looked at. *)
Definition loose_policy : jsv := JObj [
  ("id", JStr "p1"); ("scope", JStr "all-documents"); ("documentRefs", JNum (NInt 5)); ("allowedPurposes", JArr [JStr "audit"])].
Definition loose_place : jsv := match place with JObj o => JObj (obj_set o "presentationPolicies" (JArr [loose_policy])) | _ => place end.

(** The guard of respondent libraries accepts one whose presentation policy has a
    number for its list of documents, which is not of the port's type. *)
Lemma loose_policy_accepted : isRespondentPlaceSnapshot loose_place = true ∧ of_type Port.RespondentPlaceSnapshot loose_place = false.
Proof. split; vm_compute; reflexivity. Qed.
End RespondentSample.
