(* ===== verification/CompositeIdentity.v ===== *)
(** * Several identity providers behind one port

    [CompositeIdentityProvider] (src/src/adapters/composing/identity-provider.ts):
    discovery that keeps the first offer of each option, authentication and
    revocation routed to the provider that made the offer or issued the claim,
    and the subscription that collapses equal consecutive sessions.  Calls are
    taken one after another; the wrapped providers are independent, so the
    concurrent discovery of the source is a map over their states. *)

From S2P Require Import Prelude JsValue FeatureKeys Resolver ExtractForm IdempotencyKey Submission MultiPartyFlow EntryGates.

(** The port of src/src/ports/identity-provider.ts over an adapter's state;
    [subscribe] is modelled below, by the events it delivers. *)
Class IdentityProvider (S : Type) := {
  idp_discover : option AssuranceLevel → action S (list IdpOption);
  idp_authenticate : IdpOption → action S IdentityClaim;
  idp_revoke : IdentityClaim → action S unit
}.

#[export] Instance IdentityClaim_eq_dec : EqDecision IdentityClaim.
Proof. solve_decision. Defined.

(** ** Options by their user-facing identity *)

Definition channel_string (c : MagicLinkChannel) : string :=
  match c with EmailChannel => "email" | SmsChannel => "sms" end.

Definition optionKey (opt : IdpOption) : string :=
  match opt with
  | OidcOption issuer _ _ => "oidc:" +:+ issuer
  | MagicLinkOption channel _ => "magic-link:" +:+ channel_string channel
  | AnonymousOption => "anonymous"
  end.

(** ** The composite *)

(** An owner is the index of a wrapped provider. *)
Record CompositeIdentityProvider (S : Type) : Type := {
  idps : list S;
  optionOwnerCache : option (gmap string nat);
  claimOwnerCache : gmap string nat
}.
Arguments idps {S} _.
Arguments optionOwnerCache {S} _.
Arguments claimOwnerCache {S} _.

Definition createCompositeIdentityProvider {S} (providers : list S) : CompositeIdentityProvider S :=
  {| idps := providers; optionOwnerCache := None; claimOwnerCache := ∅ |}.

(** The inner loop of [discover]: the offers of provider [i]. *)
Fixpoint collect_offers (i : nat) (offered : list IdpOption) (cache : gmap string nat) (result : list IdpOption)
    : gmap string nat * list IdpOption :=
  match offered with
  | [] => (cache, result)
  | opt :: rest =>
      match cache !! optionKey opt with
      | Some _ => collect_offers i rest cache result
      | None => collect_offers i rest (<[optionKey opt := i]> cache) (result ++ [opt])
      end
  end.

(** The outer loop: a provider whose discovery failed is skipped. *)
Fixpoint collect_settled (i : nat) (settled : list (outcome thrown (list IdpOption))) (cache : gmap string nat)
    (result : list IdpOption) : gmap string nat * list IdpOption :=
  match settled with
  | [] => (cache, result)
  | Throws _ :: rest => collect_settled (S i) rest cache result
  | Returns offered :: rest =>
      let '(cache', result') := collect_offers i offered cache result in
      collect_settled (S i) rest cache' result'
  end.

Section composite.
Context {S : Type} `{!IdentityProvider S}.

Definition discover (floor : option AssuranceLevel) : action (CompositeIdentityProvider S) (list IdpOption) := λ c,
  let settled := idp_discover floor <$> idps c in
  let '(cache, result) := collect_settled 0 settled.*1 ∅ [] in
  (Returns result,
   {| idps := settled.*2; optionOwnerCache := Some cache; claimOwnerCache := claimOwnerCache c |}).

Definition ownerFor (opt : IdpOption) (c : CompositeIdentityProvider S)
    : option nat * CompositeIdentityProvider S :=
  let c' := match optionOwnerCache c with Some _ => c | None => (discover None c).2 end in
  (cache ← optionOwnerCache c'; cache !! optionKey opt, c').

Definition with_provider (i : nat) (s : S) (owners : gmap string nat) (c : CompositeIdentityProvider S)
    : CompositeIdentityProvider S :=
  {| idps := <[i := s]> (idps c); optionOwnerCache := optionOwnerCache c; claimOwnerCache := owners |}.

Definition no_owner : outcome thrown IdentityClaim := error "No identity provider can authenticate this option".

Definition authenticate (opt : IdpOption) : action (CompositeIdentityProvider S) IdentityClaim := λ c,
  let '(owner, c') := ownerFor opt c in
  match owner with
  | None => (no_owner, c')
  | Some i =>
      match idps c' !! i with
      | None => (no_owner, c')
      | Some s =>
          match idp_authenticate opt s with
          | (Returns claim, s') =>
              (Returns claim, with_provider i s' (<[subjectRef claim := i]> (claimOwnerCache c')) c')
          | (Throws e, s') => (Throws e, with_provider i s' (claimOwnerCache c') c')
          end
      end
  end.

(** The owner is forgotten before it is asked; a claim without an owner is
    revoked everywhere, whatever the providers answer. *)
Definition revoke (claim : IdentityClaim) : action (CompositeIdentityProvider S) unit := λ c,
  match claimOwnerCache c !! subjectRef claim with
  | Some i =>
      let owners := delete (subjectRef claim) (claimOwnerCache c) in
      match idps c !! i with
      | None => (Returns (), {| idps := idps c; optionOwnerCache := optionOwnerCache c; claimOwnerCache := owners |})
      | Some s => let '(r, s') := idp_revoke claim s in (r, with_provider i s' owners c)
      end
  | None =>
      (Returns (),
       {| idps := (λ s, (idp_revoke claim s).2) <$> idps c; optionOwnerCache := optionOwnerCache c;
          claimOwnerCache := claimOwnerCache c |})
  end.
End composite.

(** A composite is itself a provider, and composites nest. *)
#[export] Instance Composite_identity {S} `{!IdentityProvider S} : IdentityProvider (CompositeIdentityProvider S) :=
  {| idp_discover := discover; idp_authenticate := authenticate; idp_revoke := revoke |}.

(** ** The subscription *)

Definition nistAssuranceEquivalent (a b : option (option string * option string * option string)) : bool :=
  match a, b with
  | None, None => true
  | Some (ial, aal, fal), Some (ial', aal', fal') =>
      bool_decide (ial = ial') && bool_decide (aal = aal') && bool_decide (fal = fal')
  | _, _ => false
  end.

(** [None] is the sentinel before the first emission. *)
Definition claimEquivalent (last : option (option IdentityClaim)) (next : option IdentityClaim) : bool :=
  match last, next with
  | None, _ => false
  | Some None, None => true
  | Some None, Some _ | Some (Some _), None => false
  | Some (Some a), Some b =>
      String.eqb (subjectRef a) (subjectRef b) && String.eqb (provider a) (provider b)
      && String.eqb (adapter a) (adapter b) && String.eqb (credentialType a) (credentialType b)
      && bool_decide (credentialRef a = credentialRef b) && bool_decide (evidenceRef a = evidenceRef b)
      && bool_decide (expiresAt a = expiresAt b) && bool_decide (did a = did b)
      && bool_decide (verificationMethod a = verificationMethod b)
      && bool_decide (personhoodCheck a = personhoodCheck b)
      && String.eqb (subjectBinding a) (subjectBinding b) && bool_decide (privacyTier a = privacyTier b)
      && bool_decide (selectiveDisclosureProfile a = selectiveDisclosureProfile b)
      && bool_decide (assuranceLevel a = assuranceLevel b)
      && nistAssuranceEquivalent (nistAssurance a) (nistAssurance b)
  end.

(** What one subscriber has been told. *)
Record Subscription : Set := {
  lastEmitted : option (option IdentityClaim);
  delivered : list (option IdentityClaim)
}.

Definition deliver (claim : option IdentityClaim) (s : Subscription) : Subscription :=
  {| lastEmitted := Some claim; delivered := delivered s ++ [claim] |}.

Definition dedupedListener (s : Subscription) (claim : option IdentityClaim) : Subscription :=
  if claimEquivalent (lastEmitted s) claim then s else deliver claim s.

(** [initial] is what the wrapped providers emit while they are subscribed to. *)
Definition subscribe (initial : list (option IdentityClaim)) : Subscription :=
  let s := foldl dedupedListener {| lastEmitted := None; delivered := [] |} initial in
  match lastEmitted s with None => deliver None s | Some _ => s end.

(** ** Discovery keeps the first offer of each option *)

(** The offers of the providers that answered, each with its provider. *)
Fixpoint offers (i : nat) (settled : list (outcome thrown (list IdpOption))) : list (nat * IdpOption) :=
  match settled with
  | [] => []
  | Throws _ :: rest => offers (S i) rest
  | Returns offered :: rest => (pair i <$> offered) ++ offers (S i) rest
  end.

Fixpoint first_wins (seen : list string) (l : list IdpOption) : list IdpOption :=
  match l with
  | [] => []
  | opt :: rest =>
      if str_in (optionKey opt) seen then first_wins seen rest
      else opt :: first_wins (optionKey opt :: seen) rest
  end.

(** The first offer under a key. *)
Definition first_offer (k : string) (l : list (nat * IdpOption)) : option (nat * IdpOption) :=
  List.find (λ p, String.eqb (optionKey p.2) k) l.

Lemma str_in_ext x l l' : (x ∈ l ↔ x ∈ l') → str_in x l = str_in x l'.
Proof. intros H. apply eq_true_iff_eq. by rewrite !str_in_spec. Qed.

Lemma first_wins_snoc seen l o :
  first_wins seen (l ++ [o]) =
  first_wins seen l ++ (if str_in (optionKey o) (seen ++ (optionKey <$> l)) then [] else [o]).
Proof.
  revert seen. induction l as [|o' l IH]; intros seen; simpl.
  - rewrite app_nil_r. by destruct (str_in (optionKey o) seen).
  - destruct (str_in (optionKey o') seen) eqn:E; rewrite IH; simpl.
    + f_equal. apply str_in_spec in E.
      rewrite (str_in_ext _ _ (seen ++ optionKey o' :: (optionKey <$> l))); [done|].
      rewrite !elem_of_app, elem_of_cons. split; [|intros [?|[->|?]]]; tauto.
    + do 2 f_equal.
      rewrite (str_in_ext _ _ (seen ++ optionKey o' :: (optionKey <$> l))); [done|].
      rewrite elem_of_cons, !elem_of_app, elem_of_cons. tauto.
Qed.

Lemma first_offer_app k l l' :
  first_offer k (l ++ l') = match first_offer k l with Some q => Some q | None => first_offer k l' end.
Proof. induction l as [|q l IH]; simpl; [done|]. by destruct (String.eqb (optionKey q.2) k). Qed.

Lemma first_offer_snoc k l p :
  first_offer k (l ++ [p]) =
  match first_offer k l with
  | Some q => Some q
  | None => if String.eqb (optionKey p.2) k then Some p else None
  end.
Proof. apply first_offer_app. Qed.

Lemma first_offer_None k l : first_offer k l = None ↔ k ∉ (optionKey <$> l.*2).
Proof.
  induction l as [|p l IH]; simpl; [set_solver|].
  destruct (String.eqb_spec (optionKey p.2) k); [set_solver|]. rewrite IH. set_solver.
Qed.

(** What the two loops keep of the offers seen so far. *)
Record collected (seen : list (nat * IdpOption)) (cache : gmap string nat) (result : list IdpOption) : Prop := {
  collected_cache k : cache !! k = fst <$> first_offer k seen;
  collected_result : result = first_wins [] seen.*2;
  collected_first o : o ∈ result → ∃ i, first_offer (optionKey o) seen = Some (i, o)
}.

Lemma collected_step seen cache result i o :
  collected seen cache result →
  collected (seen ++ [(i, o)])
    (match cache !! optionKey o with Some _ => cache | None => <[optionKey o := i]> cache end)
    (match cache !! optionKey o with Some _ => result | None => result ++ [o] end).
Proof.
  intros [Hc Hr Hf].
  assert (str_in (optionKey o) (optionKey <$> seen.*2) = match cache !! optionKey o with Some _ => true | None => false end)
    as Hin.
  { rewrite Hc. destruct (first_offer (optionKey o) seen) as [q|] eqn:E; simpl.
    - apply str_in_spec. apply dec_stable. intros Hn. apply first_offer_None in Hn. congruence.
    - apply first_offer_None in E. apply not_true_is_false. by rewrite str_in_spec. }
  split.
  - intros k. rewrite first_offer_snoc. destruct (cache !! optionKey o) as [j|] eqn:Ho.
    + rewrite Hc. destruct (first_offer k seen) as [q|] eqn:Eq; [done|].
      destruct (String.eqb_spec (optionKey (i, o).2) k) as [<-|]; [|done]. simpl in Eq. rewrite Hc, Eq in Ho. done.
    + destruct (String.eqb_spec (optionKey (i, o).2) k) as [<-|Hne]; simpl.
      * rewrite lookup_insert_eq. rewrite Hc in Ho. by destruct (first_offer (optionKey o) seen).
      * rewrite lookup_insert_ne by done. rewrite Hc. by destruct (first_offer k seen).
  - rewrite fmap_app. simpl. rewrite first_wins_snoc. simpl. rewrite Hin, <- Hr.
    destruct (cache !! optionKey o); [by rewrite app_nil_r|done].
  - intros o'. destruct (cache !! optionKey o) as [j|] eqn:Ho.
    + intros [i' Hi']%Hf. exists i'. by rewrite first_offer_snoc, Hi'.
    + rewrite elem_of_app, list_elem_of_singleton. intros [[i' Hi']%Hf| ->].
      * exists i'. by rewrite first_offer_snoc, Hi'.
      * exists i. rewrite first_offer_snoc. rewrite Hc in Ho.
        destruct (first_offer (optionKey o) seen); [done|]. simpl. by rewrite String.eqb_refl.
Qed.

Lemma collect_offers_collected i offered seen cache result :
  collected seen cache result →
  let '(cache', result') := collect_offers i offered cache result in
  collected (seen ++ (pair i <$> offered)) cache' result'.
Proof.
  revert seen cache result. induction offered as [|o offered IH]; intros seen cache result H; [by rewrite app_nil_r|].
  apply (collected_step _ _ _ i o) in H. rewrite fmap_cons, cons_middle, app_assoc. simpl.
  destruct (cache !! optionKey o); by apply IH.
Qed.

Lemma collect_settled_collected i settled seen cache result :
  collected seen cache result →
  let '(cache', result') := collect_settled i settled cache result in
  collected (seen ++ offers i settled) cache' result'.
Proof.
  revert i seen cache result. induction settled as [|m settled IH]; intros i seen cache result H; simpl.
  { by rewrite app_nil_r. }
  destruct m as [offered|e]; [|by apply IH].
  pose proof (collect_offers_collected i offered _ _ _ H) as H'.
  destruct (collect_offers i offered cache result) as [cache' result']. rewrite app_assoc. by apply IH.
Qed.

Lemma pair_snd (b : nat) (l : list IdpOption) : (pair b <$> l).*2 = l.
Proof. induction l as [|o l IH]; simpl; [done|]. by f_equal. Qed.

(** The first offer of a key is the first of its provider, and no earlier
    provider that answered offers the key. *)
Lemma first_offer_spec b settled k i o :
  first_offer k (offers b settled) = Some (i, o) →
  b ≤ i ∧ optionKey o = k ∧
  (∃ offered, settled !! (i - b) = Some (Returns offered) ∧ o ∈ offered) ∧
  (∀ j offered, b ≤ j < i → settled !! (j - b) = Some (Returns offered) → k ∉ (optionKey <$> offered)).
Proof.
  revert b. induction settled as [|m settled IH]; intros b; simpl; [done|].
  assert (∀ j, S b ≤ j → (m :: settled) !! (j - b) = settled !! (j - S b)) as Hshift.
  { intros j Hj. replace (j - b) with (S (j - S b)) by lia. done. }
  destruct m as [offered|e].
  - intros H. destruct (first_offer k (pair b <$> offered)) as [[j o']|] eqn:E.
    + assert (Some (j, o') = Some (i, o)) as [= -> ->].
      { by rewrite <- E, <- H, first_offer_app, E. }
      apply List.find_some in E as [Hin Hk]. apply list_elem_of_In, list_elem_of_fmap in Hin as (q & [= -> ->] & Hq).
      apply String.eqb_eq in Hk. split; [lia|]. split; [done|]. split; [|intros ?? ?; lia].
      exists offered. by rewrite Nat.sub_diag.
    + assert (first_offer k (offers (S b) settled) = Some (i, o)) as H'.
      { by rewrite <- H, first_offer_app, E. }
      apply IH in H' as (Hi & Hk & (off & Hoff & Ho) & Hnone). split; [lia|]. split; [done|]. split.
      * exists off. by rewrite Hshift.
      * intros j off' Hj. destruct (decide (j = b)) as [->|Hne].
        { rewrite Nat.sub_diag. intros [= <-]. apply first_offer_None in E.
          by rewrite pair_snd in E. }
        rewrite Hshift by lia. apply Hnone. lia.
  - intros (Hi & Hk & (off & Hoff & Ho) & Hnone)%IH. split; [lia|]. split; [done|]. split.
    + exists off. by rewrite Hshift.
    + intros j off' Hj. destruct (decide (j = b)) as [->|Hne]; [by rewrite Nat.sub_diag|].
      rewrite Hshift by lia. apply Hnone. lia.
Qed.

Section routing.
Context {S : Type} `{!IdentityProvider S}.

Definition offered_by (floor : option AssuranceLevel) (s : S) : outcome thrown (list IdpOption) :=
  (idp_discover floor s).1.

Lemma discover_collected floor (c : CompositeIdentityProvider S) :
  ∃ cache result, collected (offers 0 (offered_by floor <$> idps c)) cache result ∧
    discover floor c =
      (Returns result, {| idps := (λ s, (idp_discover floor s).2) <$> idps c; optionOwnerCache := Some cache;
                          claimOwnerCache := claimOwnerCache c |}).
Proof.
  unfold discover.
  replace ((idp_discover floor <$> idps c).*1) with (offered_by floor <$> idps c)
    by (symmetry; rewrite <- list_fmap_compose; done).
  replace ((idp_discover floor <$> idps c).*2) with ((λ s, (idp_discover floor s).2) <$> idps c)
    by (symmetry; rewrite <- list_fmap_compose; done).
  pose proof (collect_settled_collected 0 (offered_by floor <$> idps c) [] ∅ []) as H.
  destruct (collect_settled 0 (offered_by floor <$> idps c) ∅ []) as [cache result].
  exists cache, result. split; [|done]. apply H. split; [done|done|set_solver].
Qed.

(** A composite that has discovered routes a call by its cache alone. *)
Lemma authenticate_cached cache opt (c : CompositeIdentityProvider S) :
  optionOwnerCache c = Some cache →
  ownerFor opt c = (cache !! optionKey opt, c).
Proof. unfold ownerFor. intros E. by rewrite E; simpl; rewrite E. Qed.

Lemma authenticate_owned cache opt i s claim s' (c : CompositeIdentityProvider S) :
  optionOwnerCache c = Some cache → cache !! optionKey opt = Some i → idps c !! i = Some s →
  idp_authenticate opt s = (Returns claim, s') →
  authenticate opt c = (Returns claim, with_provider i s' (<[subjectRef claim := i]> (claimOwnerCache c)) c).
Proof. intros Hc Hi Hs Ha. unfold authenticate. by rewrite (authenticate_cached cache), Hi, Hs, Ha. Qed.

Lemma revoke_owned claim i s (c : CompositeIdentityProvider S) :
  claimOwnerCache c !! subjectRef claim = Some i → idps c !! i = Some s →
  revoke claim c =
    ((idp_revoke claim s).1,
     with_provider i (idp_revoke claim s).2 (delete (subjectRef claim) (claimOwnerCache c)) c).
Proof. intros Hi Hs. unfold revoke. rewrite Hi, Hs. by destruct (idp_revoke claim s). Qed.
End routing.

(** Discovery never fails and lists each option once, in the order of the
    providers, for the first provider that offered it; authenticating a listed
    option reaches that provider alone, and revoking the claim it issues
    reaches that provider alone; an option not listed is refused with no
    provider asked. *)
Theorem composite_identity_routing {S} `{!IdentityProvider S} floor (c : CompositeIdentityProvider S) :
  ∃ opts c', discover floor c = (Returns opts, c') ∧
    idps c' = (λ s, (idp_discover floor s).2) <$> idps c ∧
    opts = first_wins [] (offers 0 (offered_by floor <$> idps c)).*2 ∧
    (∀ opt, opt ∈ opts →
       ∃ i s offered, idps c !! i = Some s ∧ offered_by floor s = Returns offered ∧ opt ∈ offered ∧
         (∀ j s' offered', j < i → idps c !! j = Some s' → offered_by floor s' = Returns offered' →
            optionKey opt ∉ (optionKey <$> offered')) ∧
         ∀ claim t, idp_authenticate opt (idp_discover floor s).2 = (Returns claim, t) →
           ∃ c1 c2, authenticate opt c' = (Returns claim, c1) ∧ idps c1 = <[i := t]> (idps c') ∧
             revoke claim c1 = ((idp_revoke claim t).1, c2) ∧
             idps c2 = <[i := (idp_revoke claim t).2]> (idps c')) ∧
    (∀ opt, optionKey opt ∉ (optionKey <$> (offers 0 (offered_by floor <$> idps c)).*2) →
       authenticate opt c' = (no_owner, c')).
Proof.
  destruct (discover_collected floor c) as (cache & result & [Hc Hr Hf] & Hd).
  eexists _, _. split; [exact Hd|]. simpl. split; [done|]. split; [done|]. split.
  - intros opt Hopt. destruct (Hf opt Hopt) as [i Hi].
    pose proof (first_offer_spec _ _ _ _ _ Hi) as (_ & _ & (offered & Hoff & Hin) & Hnone).
    rewrite Nat.sub_0_r, list_lookup_fmap_Some in Hoff. destruct Hoff as (s & Hof & Hs).
    exists i, s, offered. split; [done|]. split; [done|]. split; [done|]. split.
    + intros j s' offered' Hj Hs' Ho'. apply (Hnone j); [lia|].
      rewrite Nat.sub_0_r, list_lookup_fmap, Hs'. simpl. by rewrite Ho'.
    + intros claim t Ha. eexists _, _.
      assert (i < length (idps c)) as Hlt by (by eapply lookup_lt_Some).
      split; [eapply authenticate_owned; [done|by rewrite Hc, Hi|simpl; by rewrite list_lookup_fmap, Hs|exact Ha]|].
      split; [done|]. split.
      * apply revoke_owned with (i := i); simpl; [apply lookup_insert_eq|].
        rewrite list_lookup_insert_eq; [done|simpl; by rewrite length_fmap].
      * simpl. apply list_insert_insert_eq.
  - intros opt Hopt. unfold authenticate. rewrite (authenticate_cached cache) by done.
    rewrite Hc. apply first_offer_None in Hopt. by rewrite Hopt.
Qed.

(** ** Revoking again after a failure

    The owner is forgotten before it answers, so a revocation that failed is
    not retried with the owner: the next one asks every provider and reports
    success whatever they answer. *)
Lemma revoke_retry_broadcasts {S} `{!IdentityProvider S} claim i s e s' (c : CompositeIdentityProvider S) :
  claimOwnerCache c !! subjectRef claim = Some i → idps c !! i = Some s →
  idp_revoke claim s = (Throws e, s') →
  ∃ c1 c2, revoke claim c = (Throws e, c1) ∧ revoke claim c1 = (Returns (), c2) ∧
    idps c2 = (λ t, (idp_revoke claim t).2) <$> <[i := s']> (idps c).
Proof.
  intros Hi Hs Hr. eexists _, _. split; [rewrite (revoke_owned claim i s) by done; by rewrite Hr|].
  unfold revoke. simpl. rewrite lookup_delete_eq. split; [done|]. done.
Qed.

(** ** A subscriber sees every change of session, once *)

Lemma nistAssuranceEquivalent_spec a b : nistAssuranceEquivalent a b = true ↔ a = b.
Proof.
  destruct a as [[[ial aal] fal]|], b as [[[ial' aal'] fal']|]; simpl; [|done..].
  rewrite !andb_true_iff, !bool_decide_eq_true. split; [intros [[-> ->] ->]; done|by intros [= -> -> ->]].
Qed.

Lemma claimEquivalent_spec last next : claimEquivalent last next = true ↔ last = Some next.
Proof.
  destruct last as [[a|]|], next as [b|]; simpl; try done.
  rewrite !andb_true_iff, !String.eqb_eq, !bool_decide_eq_true, nistAssuranceEquivalent_spec.
  split; [|by intros [= ->]]. intros H. destruct a, b; simpl in H. destruct_and!. by subst.
Qed.

(** Equal consecutive events collapsed, [last] being the event before. *)
Fixpoint collapse (last : option (option IdentityClaim)) (events : list (option IdentityClaim))
    : list (option IdentityClaim) :=
  match events with
  | [] => []
  | e :: rest => if decide (last = Some e) then collapse last rest else e :: collapse (Some e) rest
  end.

Lemma listener_collapse s events :
  foldl dedupedListener s events =
  {| lastEmitted := match list.last events with Some e => Some e | None => lastEmitted s end;
     delivered := delivered s ++ collapse (lastEmitted s) events |}.
Proof.
  revert s. induction events as [|e events IH]; intros s; simpl.
  { rewrite app_nil_r. by destruct s. }
  rewrite IH. unfold dedupedListener. rewrite last_cons.
  destruct (claimEquivalent (lastEmitted s) e) eqn:E.
  - apply claimEquivalent_spec in E. rewrite decide_True by done. rewrite E. by destruct (list.last events).
  - assert (lastEmitted s ≠ Some e) by (intros H%claimEquivalent_spec; congruence).
    rewrite decide_False by done. simpl. rewrite <- app_assoc. by destruct (list.last events).
Qed.

Lemma collapse_app last l l' :
  collapse last (l ++ l') = collapse last l ++ collapse (match list.last l with Some e => Some e | None => last end) l'.
Proof.
  revert last. induction l as [|e l IH]; intros last; [done|]. simpl. rewrite last_cons.
  destruct (decide (last = Some e)) as [->|]; rewrite IH; simpl; f_equal; by destruct (list.last l).
Qed.

Lemma collapse_distinct prev events i a b :
  collapse prev events !! i = Some a → collapse prev events !! S i = Some b → a ≠ b.
Proof.
  revert prev i. induction events as [|e events IH]; intros prev i; simpl; [done|].
  destruct (decide (prev = Some e)); [apply IH|].
  destruct i as [|i]; simpl; [|apply IH]. intros [= <-] Hb ->.
  clear -Hb. induction events as [|f events IHe]; simpl in Hb; [done|].
  destruct (decide (Some b = Some f)); [by apply IHe|]. simpl in Hb. congruence.
Qed.

Lemma collapse_last prev events :
  match list.last (collapse prev events) with Some e => Some e | None => prev end =
  match list.last events with Some e => Some e | None => prev end.
Proof.
  revert prev. induction events as [|e events IH]; intros prev; simpl; [done|].
  rewrite (last_cons e events). destruct (decide (prev = Some e)) as [->|].
  - rewrite IH. by destruct (list.last events).
  - rewrite last_cons. specialize (IH (Some e)).
    destruct (list.last (collapse (Some e) events)), (list.last events); congruence.
Qed.

Lemma collapse_elem prev events e :
  e ∈ collapse prev events ∨ prev = Some e ↔ e ∈ events ∨ prev = Some e.
Proof.
  revert prev. induction events as [|f events IH]; intros prev; simpl; [done|].
  destruct (decide (prev = Some f)) as [->|].
  - rewrite IH, elem_of_cons. naive_solver.
  - rewrite !elem_of_cons. specialize (IH (Some f)). naive_solver.
Qed.

(** What the providers emit, from the subscription on: a session of nobody
    when they emit nothing while subscribed to. *)
Definition session_events (initial later : list (option IdentityClaim)) : list (option IdentityClaim) :=
  match initial with [] => [None] | _ => initial end ++ later.

(** A subscriber is told the providers' events with equal consecutive
    ones collapsed, equality being of every field of the claim: it is always
    told a session at once, never the same session twice in a row, every
    session that occurs, and last the current one, so that a step-up of
    assurance or a new credential of the same subject is not lost. *)
Theorem identity_subscription_collapses initial later :
  let told := delivered (foldl dedupedListener (subscribe initial) later) in
  told = collapse None (session_events initial later) ∧
  list.last told = list.last (session_events initial later) ∧
  (∀ e, e ∈ told ↔ e ∈ session_events initial later) ∧
  (∀ i a b, told !! i = Some a → told !! S i = Some b → a ≠ b).
Proof.
  simpl.
  assert (delivered (foldl dedupedListener (subscribe initial) later) = collapse None (session_events initial later))
    as ->.
  { rewrite listener_collapse. unfold subscribe, session_events. rewrite listener_collapse. simpl.
    rewrite collapse_app. destruct initial as [|e initial]; [done|].
    destruct (list.last (e :: initial)) eqn:E; [|by apply last_None in E]. simpl. done. }
  split; [done|]. split; [|split].
  - pose proof (collapse_last None (session_events initial later)) as H.
    destruct (list.last (collapse _ _)), (list.last (session_events _ _)); congruence.
  - intros e. pose proof (collapse_elem None (session_events initial later) e). naive_solver.
  - intros i a b. apply collapse_distinct.
Qed.
