(* ===== verification/OidcSession.v ===== *)
(** * The browser's OIDC session and its identity adapter

    [OidcBrowserAuthSession] (src/src/adapters/identity/oidc-browser-session.ts)
    owns the credentials an OIDC driver keeps in the browser: it admits them
    only when they are valid, withdraws them on expiry, sign-out and disposal,
    and runs one mutation of the driver at a time.  [OidcAdapter] (oidc.ts, with
    assurance.ts) turns an admitted user into an identity claim.

    The driver, the clock and the listeners are calls; the driver's events and
    the expiry timer are entry points of their own.  [lastNow] is a ghost: the
    latest reading of the clock; [admitted] another: the sessions admitted so
    far.  [Deliver] marks what a caller receives.  Assignments of one turn with
    no call in between are one write.  Optional driver methods are flags of the
    configuration; the SDK's driver ([createOidcClientTsDriver]) and the
    ownership of drivers are left out. *)

From S2P Require Import Prelude JsValue JsMap Async BrowserStorage EntryGates.

(** ** Data *)

Record OidcUserLike : Set := { access_token : jsv; id_token : jsv; profile : jsv; expires_at : jsv }.

Definition user_json (u : OidcUserLike) : jsv :=
  JObj [("access_token", access_token u); ("id_token", id_token u); ("expires_at", expires_at u); ("profile", profile u)].

Record BrowserAuthSessionState : Set := {
  session_issuer : string;
  session_subject : string;
  session_expiresAt : string;
  session_revision : N
}.

Inductive BrowserAuthSessionErrorCode : Set := CapabilityUnavailable | InvalidSession | OperationCancelled | ProviderError.

Inductive oidc_failure : Set :=
  | BrowserAuthSessionError (code : BrowserAuthSessionErrorCode)
  | DriverError (message : string)
  | OidcUnmappedAcr (numericAcr : option string)
  | OidcBelowMinimum (numericAcr : option string)
  | IdentityInteractionStartedError
  | AdapterError (message : string).

(** Which optional methods the driver has. *)
Record DriverMethods : Set := {
  has_signinSilent : bool;
  has_signinRedirect : bool;
  has_signinRedirectCallback : bool;
  has_signinSilentCallback : bool;
  has_signoutRedirect : bool;
  has_signoutRedirectCallback : bool;
  has_removeUser : bool
}.

Record OidcConfig : Type := {
  issuer : string;
  methods : DriverMethods;
  config_minAssurance : AssuranceLevel;
  acrAssuranceMap : option (list (string * AssuranceLevel));
  displayName : option string;
  subjectRefFactory : string → string → outcome oidc_failure string
}.

(** What an operation gives its caller. *)
Inductive Result : Set :=
  | Session (state : option BrowserAuthSessionState)
  | Token (token : option jsv)
  | Claim (asked : IdpOption) (claim : IdentityClaim)
  | Nothing.

Record Oidc : Set := {
  state : option BrowserAuthSessionState;
  user : option OidcUserLike;
  fingerprint : option string;
  revision : N;
  epoch : N;
  disposed : bool;
  blocked : bool;
  pending : gset N;
  timer : option Z;
  renewing : option N;
  cleaning : option N;
  ending : option N;
  hasClaim : bool;
  promises : gmap N (outcome oidc_failure Result);
  nextId : N;
  lastNow : Z;
  admitted : list (BrowserAuthSessionState * OidcUserLike)
}.

Definition fresh_session : Oidc := {|
  state := None; user := None; fingerprint := None; revision := 0; epoch := 0; disposed := false; blocked := false; pending := ∅;
  timer := None; renewing := None; cleaning := None; ending := None; hasClaim := false; promises := ∅; nextId := 0; lastNow := 0;
  admitted := []
|}.

(** [this.user], [this.fingerprint], [this.state] and [this.revision] change together. *)
Definition with_session st u f r (c : Oidc) : Oidc :=
  Build_Oidc st u f r (epoch c) (disposed c) (blocked c) (pending c) (timer c) (renewing c) (cleaning c) (ending c) (hasClaim c) (promises c) (nextId c) (lastNow c) (admitted c).
Definition with_epoch (c : Oidc) : Oidc :=
  Build_Oidc (state c) (user c) (fingerprint c) (revision c) (N.succ (epoch c)) (disposed c) (blocked c) (pending c) (timer c) (renewing c) (cleaning c) (ending c) (hasClaim c) (promises c) (nextId c) (lastNow c) (admitted c).
Definition with_flags d b (c : Oidc) : Oidc :=
  Build_Oidc (state c) (user c) (fingerprint c) (revision c) (epoch c) d b (pending c) (timer c) (renewing c) (cleaning c) (ending c) (hasClaim c) (promises c) (nextId c) (lastNow c) (admitted c).
Definition with_pending (f : gset N → gset N) (c : Oidc) : Oidc :=
  Build_Oidc (state c) (user c) (fingerprint c) (revision c) (epoch c) (disposed c) (blocked c) (f (pending c)) (timer c) (renewing c) (cleaning c) (ending c) (hasClaim c) (promises c) (nextId c) (lastNow c) (admitted c).
Definition with_timer t (c : Oidc) : Oidc :=
  Build_Oidc (state c) (user c) (fingerprint c) (revision c) (epoch c) (disposed c) (blocked c) (pending c) t (renewing c) (cleaning c) (ending c) (hasClaim c) (promises c) (nextId c) (lastNow c) (admitted c).
Definition with_shared r cl e (c : Oidc) : Oidc :=
  Build_Oidc (state c) (user c) (fingerprint c) (revision c) (epoch c) (disposed c) (blocked c) (pending c) (timer c) r cl e (hasClaim c) (promises c) (nextId c) (lastNow c) (admitted c).
Definition with_hasClaim b (c : Oidc) : Oidc :=
  Build_Oidc (state c) (user c) (fingerprint c) (revision c) (epoch c) (disposed c) (blocked c) (pending c) (timer c) (renewing c) (cleaning c) (ending c) b (promises c) (nextId c) (lastNow c) (admitted c).
Definition with_promise id o (c : Oidc) : Oidc :=
  Build_Oidc (state c) (user c) (fingerprint c) (revision c) (epoch c) (disposed c) (blocked c) (pending c) (timer c) (renewing c) (cleaning c) (ending c) (hasClaim c) (<[id := o]> (promises c)) (nextId c) (lastNow c) (admitted c).
Definition with_next (c : Oidc) : Oidc :=
  Build_Oidc (state c) (user c) (fingerprint c) (revision c) (epoch c) (disposed c) (blocked c) (pending c) (timer c) (renewing c) (cleaning c) (ending c) (hasClaim c) (promises c) (N.succ (nextId c)) (lastNow c) (admitted c).
Definition with_now n (c : Oidc) : Oidc :=
  Build_Oidc (state c) (user c) (fingerprint c) (revision c) (epoch c) (disposed c) (blocked c) (pending c) (timer c) (renewing c) (cleaning c) (ending c) (hasClaim c) (promises c) (nextId c) n (admitted c).

Definition with_admitted st u (c : Oidc) : Oidc :=
  Build_Oidc (state c) (user c) (fingerprint c) (revision c) (epoch c) (disposed c) (blocked c) (pending c) (timer c) (renewing c) (cleaning c) (ending c) (hasClaim c) (promises c) (nextId c) (lastNow c) ((st, u) :: admitted c).

(** ** Calls *)

Inductive call : Type → Type :=
  | Turn : call unit
  | ClockNow : call Z
  | Publish (st : option BrowserAuthSessionState) : call unit
  | PublishClaim (claim : option IdentityClaim) : call unit
  | Deliver (r : Result) : call unit
  | GetUser : call (option OidcUserLike)
  | SigninRedirect : call unit
  | SigninRedirectCallback (url : string) : call OidcUserLike
  | SigninSilent : call (option OidcUserLike)
  | SigninSilentCallback (url : string) : call unit
  | RemoveUser : call unit
  | SignoutRedirect (hint : jsv) : call unit
  | SignoutRedirectCallback (url : string) : call unit
  | AwaitSettled (ids : gset N) : call unit
  | JoinPromise (id : N) : call Result.

Definition yields {X} (q : call X) : bool :=
  match q with ClockNow | Publish _ | PublishClaim _ | Deliver _ => false | _ => true end.

(** The driver and the clock may answer anything; a promise gives what it
    settled to, and all of a set settle when none is pending. *)
Definition answers {X} (q : call X) : outcome oidc_failure X → Oidc → Prop :=
  match q with
  | Turn | Publish _ | PublishClaim _ | Deliver _ => λ a _, a = Returns ()
  | ClockNow => λ a _, ∃ n, a = Returns n
  | AwaitSettled ids => λ a c, a = Returns () ∧ ids ## pending c
  | JoinPromise id => λ a c, promises c !! id = Some a
  | _ => λ _ _, True
  end.

Abbreviation prog := (async Oidc oidc_failure call).

Definition cancelled {A} : prog A := refuse (BrowserAuthSessionError OperationCancelled).
Definition incapable (has : bool) : prog unit := refuse_when (negb has) (BrowserAuthSessionError CapabilityUnavailable).
Definition fresh : prog N := c ← get; modify with_next ;; mret (nextId c).

(** Double arithmetic and dates on numbers that are no integers: the
    milliseconds of [x * 1000], rounded up, when finite; and [toISOString]. *)
Class Doubles := { decimal_ms : string → option Z; expiry_iso : jsv → string }.

Section session.
Context `{JsonText, Doubles} (config : OidcConfig).

Definition expiry_ms (v : jsv) : option Z :=
  match v with
  | JNum (NInt z) => Some (z * 1000)%Z
  | JNum (NOther text) => decimal_ms text
  | _ => None
  end.

(** ** The session *)

Definition text (v : jsv) : bool := match v with JStr s => negb (trim_empty s) | _ => false end.

Definition max_date : Z := 8640000000000000.

(** [valid] but for the clock. *)
Definition well_formed (u : OidcUserLike) : bool :=
  text (prop (profile u) "sub") && is_lit (prop (profile u) "iss") (issuer config) && text (access_token u)
  && match expiry_ms (expires_at u) with Some ms => (ms <=? max_date)%Z | None => false end.
Definition unexpired (now : Z) (u : OidcUserLike) : bool :=
  match expiry_ms (expires_at u) with Some ms => (now <? ms)%Z | None => false end.

Definition clock_now : prog Z := now ← invoke ClockNow; modify (with_now now) ;; mret now.

Definition valid (u : option OidcUserLike) : prog bool :=
  match u with
  | Some u => if well_formed u then now ← clock_now; mret (unexpired now u) else mret false
  | None => mret false
  end.

Definition clearClaim : prog unit :=
  c ← get;
  if hasClaim c then modify (with_hasClaim false) ;; invoke (PublishClaim None) else mret ().

(** Every listener is told; the adapter is one of them. *)
Definition publish : prog unit := c ← get; invoke (Publish (state c)) ;; clearClaim.

(** [withdraw], with what its caller assigned just before. *)
Definition withdraw_after (f : Oidc → Oidc) : prog unit :=
  c ← get;
  let gone r := modify (λ c, with_session None None None r (with_timer None (f c))) in
  match state c with
  | None => gone (revision c)
  | Some _ => gone (N.succ (revision c)) ;; publish
  end.
Definition withdraw : prog unit := withdraw_after (λ c, c).

Definition assertAlive : prog unit := c ← get; if disposed c then cancelled else mret ().
Definition assertAvailable : prog unit := assertAlive ;; c ← get; if blocked c then cancelled else mret ().

Definition max_delay : Z := 2147483647.

Definition scheduleExpiry : prog unit :=
  modify (with_timer None) ;;
  c ← get;
  match user c with
  | Some u =>
      match expiry_ms (expires_at u) with
      | Some ms =>
          if negb (truthy (expires_at u)) then mret () else
          now ← clock_now;
          modify (with_timer (Some (Z.min (Z.max (ms - now) 0) max_delay)))
      | None => mret ()
      end
  | None => mret ()
  end.

Definition admit_user (u : OidcUserLike) : prog BrowserAuthSessionState :=
  let print := stringify (user_json u) in
  c ← get;
  match state c with
  | Some st => if decide (fingerprint c = Some print) then mret (Some st) else mret None
  | None => mret None
  end ≫= λ same,
  match same with
  | Some st => mret st
  | None =>
      modify with_epoch ;;
      withdraw ;;
      c ← get;
      let st := {| session_issuer := issuer config; session_subject := default "" (str_of (prop (profile u) "sub"));
                   session_expiresAt := expiry_iso (expires_at u); session_revision := N.succ (revision c) |} in
      modify (λ c, with_admitted st u (with_session (Some st) (Some u) (Some print) (N.succ (revision c)) c)) ;;
      scheduleExpiry ;;
      publish ;;
      mret st
  end.

Definition admit_session (u : option OidcUserLike) : prog BrowserAuthSessionState :=
  assertAvailable ;;
  ok ← valid u;
  match u with
  | Some u => if ok : bool then admit_user u else modify with_epoch ;; withdraw ;; refuse (BrowserAuthSessionError InvalidSession)
  | None => modify with_epoch ;; withdraw ;; refuse (BrowserAuthSessionError InvalidSession)
  end.

Definition provider_error {A} (m : prog A) : prog A :=
  settle m (λ o, match o with Returns a => mret a | Throws _ => refuse (BrowserAuthSessionError ProviderError) end).

Definition removeStoredUser : prog unit :=
  incapable (has_removeUser (methods config)) ;;
  provider_error (invoke RemoveUser).

Definition session_error (e : oidc_failure) : oidc_failure :=
  match e with BrowserAuthSessionError _ => e | _ => BrowserAuthSessionError ProviderError end.

(** One mutation of the driver at a time; one that was invalidated while it ran
    removes what it stored, and one that failed closes the session. *)
Definition mutate {T} (operation : prog T) : prog T :=
  assertAvailable ;;
  c ← get;
  refuse_when (negb (bool_decide (pending c = ∅))) (BrowserAuthSessionError OperationCancelled) ;;
  let started := epoch c in
  id ← fresh;
  modify (with_pending ({[id]} ∪.)) ;;
  settle
    (settle
      (settle (invoke Turn ;; operation) (λ o,
        invoke Turn ;;
        match o with
        | Returns r =>
            c ← get;
            if negb (N.eqb started (epoch c)) || disposed c || blocked c then removeStoredUser ;; cancelled else mret r
        | Throws e => refuse e
        end)) (λ o,
      invoke Turn ;;
      match o with
      | Returns r => mret r
      | Throws e =>
          withdraw ;;
          c ← get;
          (if N.eqb started (epoch c) then modify (λ c, with_epoch (with_flags (disposed c) true c)) ;; removeStoredUser else mret ()) ;;
          refuse (session_error e)
      end)) (λ o,
    invoke Turn ;;
    modify (with_pending (.∖ {[id]})) ;;
    invoke Turn ;;
    of_outcome o).

Definition getSession : prog (option BrowserAuthSessionState) :=
  c ← get;
  if disposed c || blocked c then mret None else
  if negb (bool_decide (pending c = ∅)) then
    ok ← valid (user c);
    (if ok : bool then mret () else withdraw) ;;
    c ← get;
    mret (state c)
  else
    let started := epoch c in
    settle
      (u ← invoke GetUser;
       c ← get;
       if disposed c || blocked c then mret None else
       if negb (N.eqb started (epoch c)) then ok ← valid (user c); mret (if ok : bool then state c else None) else
       match u with
       | None => withdraw ;; mret None
       | Some u => st ← admit_session (Some u); mret (Some st)
       end)
      (λ o, match o with
        | Returns st => mret st
        | Throws _ =>
            c ← get;
            if disposed c || blocked c then mret None else
            (if negb (N.eqb started (epoch c)) then valid (user c) else mret false) ≫= λ newer,
            if newer : bool then mret (state c) else withdraw ;; mret None
        end).

Definition accessToken : prog (option jsv) :=
  getSession ;;
  invoke Turn ;;
  c ← get;
  ok ← valid (user c);
  (if ok : bool then mret () else withdraw) ;;
  c ← get;
  mret (match state c with
        | Some _ => if negb (blocked c) && negb (disposed c) then access_token <$> user c else None
        | None => None
        end).

Definition admittedUser : prog (option OidcUserLike) :=
  c ← get;
  ok ← match state c with
       | Some _ => if blocked c || disposed c then mret false else valid (user c)
       | None => mret false
       end;
  if ok : bool then mret (user c) else withdraw ;; mret None.

(** [this.cleaning], shared by whoever asks for it while it runs. *)
Definition cleanup : prog unit :=
  c ← get;
  match cleaning c with
  | Some id => invoke (JoinPromise id) ;; mret ()
  | None =>
      id ← fresh;
      withdraw_after (λ c, with_epoch (with_flags (disposed c) true c)) ;;
      modify (λ c, with_shared (renewing c) (Some id) (ending c) c) ;;
      settle (c ← get; invoke (AwaitSettled (pending c)) ;; removeStoredUser ;; mret Nothing) (λ o,
        invoke Turn ;;
        modify (λ c, with_promise id o (with_shared (renewing c) None (ending c) c)) ;;
        invoke Turn ;;
        of_outcome o) ;;
      mret ()
  end.

Definition join (id : option N) : prog unit :=
  match id with Some id => invoke (JoinPromise id) ;; mret () | None => mret () end.

Definition begin : prog Result :=
  c ← get; join (ending c) ;;
  c ← get; join (cleaning c) ;;
  assertAlive ;;
  modify (λ c, with_flags (disposed c) false c) ;;
  incapable (has_signinRedirect (methods config)) ;;
  mutate (invoke SigninRedirect) ;;
  mret Nothing.

Definition completeCallback (url : string) : prog BrowserAuthSessionState :=
  assertAvailable ;;
  incapable (has_signinRedirectCallback (methods config)) ;;
  u ← mutate (invoke (SigninRedirectCallback url));
  admit_session (Some u).

Definition completeSilentCallback (url : string) : prog Result :=
  assertAvailable ;;
  incapable (has_signinSilentCallback (methods config)) ;;
  mutate (invoke (SigninSilentCallback url)) ;;
  mret Nothing.

Definition renew : prog Result :=
  c ← get;
  match renewing c with
  | Some id => invoke (JoinPromise id)
  | None =>
      assertAvailable ;;
      incapable (has_signinSilent (methods config)) ;;
      id ← fresh;
      modify (λ c, with_shared (Some id) (cleaning c) (ending c) c) ;;
      settle (u ← mutate (invoke SigninSilent); st ← admit_session u; mret (Session (Some st))) (λ o,
        invoke Turn ;;
        modify (λ c, with_promise id o (with_shared None (cleaning c) (ending c) c)) ;;
        invoke Turn ;;
        of_outcome o)
  end.

Definition logout : prog Result :=
  assertAlive ;;
  c ← get;
  match ending c with
  | Some id => invoke (JoinPromise id)
  | None =>
      let hint := match user c with Some u => id_token u | None => JUndef end in
      id ← fresh;
      modify (λ c, with_shared (renewing c) (cleaning c) (Some id) c) ;;
      settle
        (cleanup ;;
         invoke Turn ;;
         incapable (has_signoutRedirect (methods config)) ;;
         provider_error (invoke (SignoutRedirect hint)) ;;
         mret Nothing) (λ o,
        invoke Turn ;;
        modify (λ c, with_promise id o (with_shared (renewing c) (cleaning c) None c)) ;;
        invoke Turn ;;
        of_outcome o)
  end.

Definition completeLogoutCallback (url : string) : prog Result :=
  assertAlive ;;
  cleanup ;;
  invoke Turn ;;
  incapable (has_signoutRedirectCallback (methods config)) ;;
  provider_error (invoke (SignoutRedirectCallback url)) ;;
  mret Nothing.

Definition dispose : prog Result :=
  c ← get;
  if disposed c then mret Nothing else
  withdraw_after (λ c, with_epoch (with_flags true true c)) ;;
  mret Nothing.

(** ** The driver's events and the timer *)

Inductive OidcDriverEvent : Set := Loaded (u : OidcUserLike) | Unloaded | Expired | SignedOut.

Definition on_event (event : OidcDriverEvent) : prog Result :=
  c ← get;
  if disposed c || blocked c then mret Nothing else
  match event with
  | Loaded u =>
      if negb (bool_decide (pending c = ∅)) then mret Nothing else
      settle (admit_session (Some u)) (λ o, match o with Returns _ => mret Nothing | Throws _ => withdraw ;; mret Nothing end)
  | Expired => withdraw ;; mret Nothing
  | Unloaded | SignedOut => settle cleanup (λ _, mret Nothing)
  end.

Definition timer_fires : prog Result :=
  c ← get;
  match timer c with
  | Some _ => ok ← valid (user c); (if ok : bool then scheduleExpiry else withdraw) ;; mret Nothing
  | None => mret Nothing
  end.

(** ** The adapter *)

Definition meetsAssurance (actual : AssuranceLevel) (required : option AssuranceLevel) : bool :=
  match required with Some r => (assuranceRank r <=? assuranceRank actual)%Z | None => true end.

Definition oidc_discover (formAssuranceRequirements : option AssuranceLevel) : list IdpOption :=
  if meetsAssurance (config_minAssurance config) formAssuranceRequirements
  then [OidcOption (issuer config) (default (issuer config) (displayName config)) (config_minAssurance config)] else [].

Definition default_levels (l : AssuranceLevel) (upper lower : string) : list (string * AssuranceLevel) :=
  [(upper, l); (lower, l); ("formspec:" +:+ lower, l); ("urn:formspec:assurance:" +:+ lower, l)].
Definition defaultAcrAssuranceMap : list (string * AssuranceLevel) :=
  default_levels L1 "L1" "l1" ++ default_levels L2 "L2" "l2" ++ default_levels L3 "L3" "l3" ++ default_levels L4 "L4" "l4".

Definition is_digit_char (a : Ascii.ascii) : bool :=
  let n := Ascii.nat_of_ascii a in (48 <=? n)%nat && (n <=? 57)%nat.

Definition numeric_acr (acr : jsv) : option string :=
  match acr with
  | JStr s => if (1 <=? String.length s)%nat && (String.length s <=? 3)%nat && forallb is_digit_char (String.list_ascii_of_string s)
              then Some s else None
  | _ => None
  end.

(** The first of the mapped levels sorted by descending rank. *)
Definition highest (levels : list AssuranceLevel) : option AssuranceLevel :=
  foldl (λ best l, match best with
    | Some b => if (assuranceRank b <? assuranceRank l)%Z then Some l else best
    | None => Some l end) None levels.

Definition assuranceLevelFromAcr (acr : jsv) (m : list (string * AssuranceLevel)) : outcome oidc_failure AssuranceLevel :=
  let values := match acr with JArr l => l | v => [v] end in
  match highest (omap (λ v, s ← str_of v; map_get m s) values) with
  | Some level => Returns level
  | None => Throws (OidcUnmappedAcr (numeric_acr acr))
  end.

Definition adapter_error {A} (message : string) : prog A := refuse (AdapterError message).

Definition oidc_claim (subjectRef : string) (u : OidcUserLike) (level : AssuranceLevel) (st : BrowserAuthSessionState) : IdentityClaim := {|
  provider := issuer config; adapter := "oidc-client-ts"; subjectRef := subjectRef; did := None; verificationMethod := None;
  credentialType := "oidc-token";
  credentialRef := if truthy (id_token u) then Some ("oidc:" +:+ issuer config +:+ ":id-token") else None;
  personhoodCheck := Some "not-performed"; subjectBinding := "respondent"; assuranceLevel := level; privacyTier := Some "pseudonymous";
  selectiveDisclosureProfile := None; evidenceRef := Some ("oidc:" +:+ issuer config +:+ ":acr");
  expiresAt := Some (session_expiresAt st); nistAssurance := None
|}.

Definition oidc_authenticate (option : IdpOption) : prog IdentityClaim :=
  match option with
  | OidcOption iss _ minimum =>
      if negb (String.eqb iss (issuer config)) then adapter_error "OidcAdapter can only authenticate oidc options" else
      found ← getSession;
      invoke Turn ;;
      match found with
      | None => begin ;; invoke Turn ;; refuse IdentityInteractionStartedError
      | Some st =>
          admitted ← admittedUser;
          match admitted with
          | None => adapter_error "OIDC session is unavailable"
          | Some u =>
              (if negb (String.eqb (session_issuer st) (issuer config)) || negb (is_lit (prop (profile u) "iss") (issuer config))
               then adapter_error "OIDC session issuer does not match the identity adapter" else mret ()) ;;
              match prop (profile u) "sub" with
              | JStr subject =>
                  if negb (nonempty subject) then adapter_error "OIDC profile did not include a usable subject" else
                  let acr := prop (profile u) "acr" in
                  level ← of_outcome (assuranceLevelFromAcr acr (default defaultAcrAssuranceMap (acrAssuranceMap config)));
                  refuse_when (assuranceRank level <? Z.max (assuranceRank minimum) (assuranceRank (config_minAssurance config)))%Z
                    (OidcBelowMinimum (numeric_acr acr)) ;;
                  invoke Turn ;;
                  ref ← of_outcome (subjectRefFactory config (issuer config) subject);
                  current ← getSession;
                  invoke Turn ;;
                  (if match current with Some now => negb (N.eqb (session_revision now) (session_revision st)) | None => true end
                   then adapter_error "OIDC session changed during identity normalization" else mret ()) ;;
                  let claim := oidc_claim ref u level st in
                  modify (with_hasClaim true) ;;
                  invoke (PublishClaim (Some claim)) ;;
                  mret claim
              | _ => adapter_error "OIDC profile did not include a usable subject"
              end
          end
      end
  | _ => adapter_error "OidcAdapter can only authenticate oidc options"
  end.

Definition oidc_revoke : prog Result := clearClaim ;; logout.

(** ** What a client may call *)

Definition deliver {A} (as_result : A → Result) (m : prog A) : prog Result :=
  a ← m; invoke (Deliver (as_result a)) ;; mret (as_result a).

Inductive operation : prog Result → Prop :=
  | op_getSession : operation (deliver Session getSession)
  | op_accessToken : operation (deliver Token accessToken)
  | op_begin : operation begin
  | op_completeCallback url : operation (deliver (Session ∘ Some) (completeCallback url))
  | op_completeSilentCallback url : operation (completeSilentCallback url)
  | op_renew : operation renew
  | op_logout : operation logout
  | op_completeLogoutCallback url : operation (completeLogoutCallback url)
  | op_dispose : operation dispose
  | op_event event : operation (on_event event)
  | op_timer : operation timer_fires
  | op_authenticate option : operation (deliver (Claim option) (oidc_authenticate option))
  | op_revoke : operation oidc_revoke.

(** What is published and delivered, in the state it happens in. *)
Inductive event : Set :=
  | Published (st : option BrowserAuthSessionState) (c : Oidc)
  | Delivered (r : Result) (c : Oidc).

Definition observe (X : Type) (q : call X) (c : Oidc) : list event :=
  match q with Publish st => [Published st c] | Deliver r => [Delivered r c] | _ => [] end.
End session.
