(* ===== verification/OidcTheorems.v ===== *)
(** * What the OIDC session and its adapter keep

    The conditions of [OidcSession] under any interleaving of its operations,
    with one lock, the mutation of the driver under way: a session that is shown
    is one that was admitted, a blocked or disposed owner shows none, what is
    delivered was checked in the same turn, and a revision names one session. *)

From S2P Require Import Prelude JsValue JsMap Async AsyncTokens BrowserStorage EntryGates OidcSession.

Section conditions.
Context `{Json : !JsonText, Dbl : !Doubles} (config : OidcConfig).

(** ** The conditions *)

(** What the state of a session says of its user. *)
Record describes (st : BrowserAuthSessionState) (u : OidcUserLike) : Prop := {
  desc_issuer : session_issuer st = issuer config;
  desc_subject : prop (profile u) "sub" = JStr (session_subject st);
  desc_expiry : session_expiresAt st = expiry_iso (expires_at u);
  desc_valid : well_formed config u = true
}.

Record oidc_inv (c : Oidc) : Prop := {
  inv_closed : blocked c = true → state c = None;
  inv_disposed : disposed c = true → blocked c = true;
  inv_session : match state c, user c with
    | Some st, Some u => (st, u) ∈ admitted c ∧ session_revision st = revision c
    | None, None => True
    | _, _ => False
    end;
  inv_admitted : Forall (λ a, describes a.1 a.2 ∧ (session_revision a.1 ≤ revision c)%N) (admitted c)
}.

Record oidc_mono (c c' : Oidc) : Prop := {
  mono_revision : (revision c ≤ revision c')%N;
  mono_session : revision c' = revision c → state c' = state c ∧ user c' = user c;
  mono_disposed : disposed c = true → disposed c' = true;
  mono_admitted : admitted c ⊆ admitted c'
}.

Definition oidc_locked (c : Oidc) : bool := negb (bool_decide (pending c = ∅)).
Definition oidc_held (c c' : Oidc) : Prop := pending c' = pending c.

(** What a claim says of the session it was made from. *)
Definition claim_of (asked : IdpOption) (claim : IdentityClaim) (st : BrowserAuthSessionState) (u : OidcUserLike) : Prop :=
  ∃ ref level, claim = oidc_claim config ref u level st ∧
    subjectRefFactory config (issuer config) (session_subject st) = Returns ref ∧
    assuranceLevelFromAcr (prop (profile u) "acr") (default defaultAcrAssuranceMap (acrAssuranceMap config)) = Returns level ∧
    (assuranceRank (minAssurance asked) ≤ assuranceRank level)%Z ∧ (assuranceRank (config_minAssurance config) ≤ assuranceRank level)%Z.

Definition deliverable (r : Result) (c : Oidc) : Prop :=
  match r with
  | Session (Some st) => state c = Some st
  | Token (Some t) => ∃ st u, state c = Some st ∧ user c = Some u ∧ access_token u = t ∧ unexpired (lastNow c) u = true
  | Claim asked claim => ∃ st u, (st, u) ∈ admitted c ∧ claim_of asked claim st u
  | _ => True
  end.

Definition is_mutation {X} (q : call X) : bool :=
  match q with SigninRedirect | SigninRedirectCallback _ | SigninSilent | SigninSilentCallback _ => true | _ => false end.

Definition oidc_issue (X : Type) (q : call X) (h : bool) (c : Oidc) : Prop :=
  match q with
  | Publish st => st = state c
  | Deliver r => deliverable r c
  | q => is_mutation q = true → h = true
  end.

Definition oidc_conditions : conditions Oidc call := {|
  inv := oidc_inv; mono := oidc_mono; locked := oidc_locked; held := oidc_held; issue := oidc_issue
|}.

#[export] Instance oidc_mono_preorder : PreOrder oidc_mono.
Proof.
  split; [done|]. intros a b c [] []. split.
  - lia.
  - intros E. assert (revision b = revision a) as Eb by lia. destruct (mono_session0 Eb) as [<- <-].
    apply mono_session1. lia.
  - auto.
  - by etransitivity.
Qed.

Lemma oidc_conditions_ok : conditions_ok oidc_conditions.
Proof.
  split; simpl.
  - apply _.
  - split; [done|]. intros a b c Hab Hbc. unfold oidc_held in *. congruence.
  - intros c c' E. unfold oidc_locked. by rewrite E.
Qed.

Abbreviation ok := (ok (@yields) (@answers) oidc_conditions).
Abbreviation rely := (rely oidc_conditions).

(** A thread that holds the lock knows that it is taken. *)
Definition good (h : bool) (c : Oidc) : Prop := oidc_inv c ∧ (h = true → oidc_locked c = true).

(** [m] changes no lock; [R] is what holds when it is done. *)
Definition keeps {A} (m : prog A) (h : bool) (c : Oidc) (R : outcome oidc_failure A → Oidc → Prop) : Prop :=
  ok m h c (λ h' o c', h' = h ∧ good h c' ∧ oidc_mono c c' ∧ (h = true → pending c' = pending c) ∧ R o c').

Arguments keeps {A} _ _ _ _ : simpl never.

(** A write that keeps the lock. *)
Definition plain (f : Oidc → Oidc) (c : Oidc) : Prop := oidc_inv (f c) ∧ oidc_mono c (f c) ∧ pending (f c) = pending c.

Lemma plain_guarantee h f c : good h c → plain f c → guarantee oidc_conditions h h c (f c) ∧ good h (f c).
Proof.
  intros [Hi Hl] (Hi' & Hm & Hp). assert (oidc_locked (f c) = oidc_locked c) as El by (unfold oidc_locked; by rewrite Hp).
  split; [|by split; [|intros Hh; rewrite El; auto]].
  split; [done|]. split; [done|]. destruct h; simpl; [rewrite El; auto|]. by split.
Qed.

Lemma rely_good h c c' : good h c → rely h c c' → good h c' ∧ oidc_mono c c' ∧ (h = true → pending c' = pending c).
Proof.
  intros [_ Hl] (Hi & Hm & Hh). split; [|by split]. split; [done|]. intros E. specialize (Hh E). specialize (Hl E).
  unfold oidc_locked. by rewrite Hh.
Qed.

Lemma oidc_keeps_ret {A} (a : A) h c (R : outcome oidc_failure A → Oidc → Prop) : good h c → R (Returns a) c → keeps (mret a) h c R.
Proof. intros Hg HR. by split. Qed.

Lemma oidc_keeps_refuse {A} e h c (R : outcome oidc_failure A → Oidc → Prop) : good h c → R (Throws e) c → keeps (refuse e) h c R.
Proof. intros Hg HR. by split. Qed.

Lemma oidc_keeps_weaken {A} (m : prog A) h c (R R' : outcome oidc_failure A → Oidc → Prop) :
  (∀ o c', good h c' → oidc_mono c c' → R o c' → R' o c') → keeps m h c R → keeps m h c R'.
Proof. intros HR. apply ok_weaken. intros h' o c' (-> & Hg & Hm & Hp & Ho). repeat (split; [done|]). by apply HR. Qed.

Lemma oidc_keeps_bind {A B} (m : prog A) (f : A → prog B) h c R1 (R : outcome oidc_failure B → Oidc → Prop) :
  keeps m h c R1 →
  (∀ a c', good h c' → oidc_mono c c' → R1 (Returns a) c' → keeps (f a) h c' R) →
  (∀ e c', good h c' → oidc_mono c c' → R1 (Throws e) c' → R (Throws e) c') →
  keeps (m ≫= f) h c R.
Proof.
  intros Hm Hf He. apply ok_bind. eapply ok_weaken; [|exact Hm].
  intros h' o c' (-> & Hg & Hc & Hp & Ho). destruct o as [a|e].
  - eapply ok_weaken; [|exact (Hf a c' Hg Hc Ho)]. intros h' o c'' (-> & Hg' & Hc' & Hp' & Ho').
    split; [done|]. split; [done|]. split; [by etransitivity|]. split; [|done]. intros Hh. by rewrite Hp', Hp.
  - repeat (split; [done|]). by apply He.
Qed.

Lemma oidc_keeps_settle {A B} (m : prog A) (f : outcome oidc_failure A → prog B) h c R1 (R : outcome oidc_failure B → Oidc → Prop) :
  keeps m h c R1 → (∀ o c', good h c' → oidc_mono c c' → R1 o c' → keeps (f o) h c' R) → keeps (settle m f) h c R.
Proof.
  intros Hm Hf. apply ok_settle. eapply ok_weaken; [|exact Hm]. intros h' o c' (-> & Hg & Hc & Hp & Ho).
  eapply ok_weaken; [|exact (Hf o c' Hg Hc Ho)]. intros h' o' c'' (-> & Hg' & Hc' & Hp' & Ho').
  split; [done|]. split; [done|]. split; [by etransitivity|]. split; [|done]. intros Hh. by rewrite Hp', Hp.
Qed.

Lemma oidc_keeps_get {A} (f : Oidc → prog A) h c R : keeps (f c) h c R → keeps (c ← get; f c) h c R.
Proof. done. Qed.

Lemma oidc_keeps_modify f h c (R : outcome oidc_failure unit → Oidc → Prop) : good h c → plain f c → R (Returns ()) (f c) → keeps (modify f) h c R.
Proof.
  intros Hg Hf HR. destruct (plain_guarantee h f c Hg Hf) as [Hgu Hg']. exists h. split; [done|].
  destruct Hf as (_ & Hm & Hp). by repeat (split; [done|]).
Qed.

Lemma keeps_call {X} (q : call X) h c (R : outcome oidc_failure X → Oidc → Prop) :
  good h c → oidc_issue X q h c →
  (∀ c' a, good h c' → oidc_mono c c' → (yields q = false → c' = c) → answers q a c' → R a c') → keeps (invoke q) h c R.
Proof.
  intros Hg Hi HR. split; [done|]. intros c' a Hc Ha.
  destruct (yields q) eqn:E.
  - destruct (rely_good h c c' Hg Hc) as (Hg' & Hm & Hp). repeat (split; [done|]). by apply HR.
  - subst c'. repeat (split; [done|]). by apply HR.
Qed.

Lemma keeps_turn h c (R : outcome oidc_failure unit → Oidc → Prop) :
  good h c → (∀ c', good h c' → oidc_mono c c' → R (Returns ()) c') → keeps (invoke Turn) h c R.
Proof. intros Hg HR. apply keeps_call; [done|done|]. intros c' a Hg' Hm _ ->. by apply HR. Qed.

Lemma keeps_turn_bind {A} (m : prog A) h c R :
  good h c → (∀ c', good h c' → oidc_mono c c' → keeps m h c' R) → keeps (invoke Turn ;; m) h c R.
Proof.
  intros Hg Hm. eapply oidc_keeps_bind; [apply (keeps_turn _ _ (λ o _, o = Returns ())); [done|done]|by auto|done].
Qed.

(** What needs nothing and gives nothing. *)
Definition safe {A} (m : prog A) : Prop := ∀ h c, good h c → keeps m h c (λ _ _, True).

Lemma safe_bind {A B} (m : prog A) (f : A → prog B) : safe m → (∀ a, safe (f a)) → safe (m ≫= f).
Proof. intros Hm Hf h c Hg. eapply oidc_keeps_bind; [by apply Hm|intros; by apply Hf|done]. Qed.

Lemma safe_settle {A B} (m : prog A) (f : outcome oidc_failure A → prog B) : safe m → (∀ o, safe (f o)) → safe (settle m f).
Proof. intros Hm Hf h c Hg. eapply oidc_keeps_settle; [by apply Hm|intros; by apply Hf]. Qed.

Lemma safe_ret {A} (a : A) : safe (mret a).
Proof. intros h c Hg. by apply oidc_keeps_ret. Qed.

Lemma safe_refuse {A} e : safe (refuse (A := A) e).
Proof. intros h c Hg. by apply oidc_keeps_refuse. Qed.

Lemma safe_outcome {A} (o : outcome oidc_failure A) : safe (of_outcome o).
Proof. destruct o; [apply safe_ret|apply safe_refuse]. Qed.

Lemma safe_get {A} (f : Oidc → prog A) : (∀ c, safe (f c)) → safe (c ← get; f c).
Proof. intros Hf h c Hg. by apply (Hf c). Qed.

Lemma safe_modify f : (∀ c, oidc_inv c → plain f c) → safe (modify f).
Proof. intros Hf h c Hg. apply oidc_keeps_modify; [done|apply Hf, Hg|done]. Qed.

Lemma safe_call {X} (q : call X) : is_mutation q = false → (∀ h c, oidc_issue X q h c) → safe (invoke q).
Proof. intros Hq Hi h c Hg. by apply keeps_call. Qed.

(** ** The session's own steps *)

Create HintDb oidc.
#[local] Hint Resolve safe_ret safe_refuse safe_outcome : oidc.
#[local] Hint Extern 1 (safe (invoke ?q)) => (apply safe_call; [reflexivity|done]) : oidc.

(** Splits a program whose parts are safe. *)
Ltac safe_step :=
  match goal with
  | |- safe (get ≫= _) => apply safe_get; intros ?
  | |- safe (_ ≫= _) => apply safe_bind; [|intros ?]
  | |- safe (settle _ _) => apply safe_settle; [|intros ?]
  | |- safe (match ?x with _ => _ end) => destruct x
  | |- safe (refuse_when ?b ?e) => unfold refuse_when; destruct b; simpl
  | |- safe _ => solve [auto with oidc]
  end.
Ltac solve_safe := repeat safe_step.

(** A write that leaves the session as it is. *)
Definition aside (f : Oidc → Oidc) : Prop := ∀ c,
  state (f c) = state c ∧ user (f c) = user c ∧ revision (f c) = revision c ∧ admitted (f c) = admitted c ∧ pending (f c) = pending c ∧
  disposed (f c) = disposed c ∧ blocked (f c) = blocked c.

Lemma aside_plain f c : aside f → oidc_inv c → plain f c.
Proof.
  intros Hf [Hc Hd Hs Ha]. destruct (Hf c) as (Es & Eu & Er & Ea & Ep & Ed & Eb).
  split; [|by split; [split; rewrite ?Er, ?Es, ?Eu, ?Ed, ?Ea|]].
  split; rewrite ?Er, ?Es, ?Eu, ?Ed, ?Ea, ?Eb; done.
Qed.

Lemma aside_safe f : aside f → safe (modify f).
Proof. intros Hf. apply safe_modify. intros c Hc. by apply aside_plain. Qed.

#[local] Hint Extern 1 (safe (modify _)) => (apply aside_safe; by intros ?) : oidc.

(** The session as another part of the program left it. *)
Definition same_session (c c' : Oidc) : Prop :=
  state c' = state c ∧ user c' = user c ∧ blocked c' = blocked c ∧ disposed c' = disposed c.

Lemma aside_keeps f h c : aside f → good h c → keeps (modify f) h c (λ o c', o = Returns () ∧ c' = f c).
Proof. intros Hf Hg. apply oidc_keeps_modify; [done|by apply aside_plain, Hg|done]. Qed.

Lemma clock_now_keeps h c : good h c → keeps clock_now h c (λ o c', ∃ n, o = Returns n ∧ c' = with_now n c).
Proof.
  intros Hg. eapply oidc_keeps_bind.
  - apply (keeps_call ClockNow h c (λ o c', c' = c ∧ ∃ n, o = Returns n)); [done|done|]. intros c' a _ _ Hc Ha. by rewrite Hc.
  - intros n c1 Hg1 _ [-> _]. eapply oidc_keeps_bind; [by apply (aside_keeps (with_now n))| |by intros e c2 _ _ [[=] _]].
    intros [] c2 Hg2 _ [_ ->]. apply oidc_keeps_ret; [done|]. by exists n.
  - intros e c1 _ _ [_ [? [=]]].
Qed.

Definition checked (u : option OidcUserLike) (c : Oidc) : Prop :=
  ∃ u', u = Some u' ∧ well_formed config u' = true ∧ unexpired (lastNow c) u' = true.

Lemma valid_keeps u h c : good h c →
  keeps (valid config u) h c (λ o c', ∃ b, o = Returns b ∧ (∃ n, c' = with_now n c) ∧ (b = true → checked u c')).
Proof.
  intros Hg. unfold valid.
  assert (∀ b, b = false → keeps (mret b) h c (λ o c', ∃ b, o = Returns b ∧ (∃ n, c' = with_now n c) ∧ (b = true → checked u c'))) as Hno.
  { intros b ->. apply oidc_keeps_ret; [done|]. exists false. split; [done|]. split; [|done]. exists (lastNow c). by destruct c. }
  destruct u as [u|]; [|by apply Hno]. destruct (well_formed config u) eqn:E; [|by apply Hno].
  eapply oidc_keeps_bind; [by apply clock_now_keeps| |intros e c' _ _ (n & [=] & _)].
  intros now c' Hg' _ (n & [= ->] & ->). apply oidc_keeps_ret; [done|]. exists (unexpired n u). split; [done|]. split; [by exists n|].
  intros Hu. by exists u.
Qed.

Lemma with_now_session n c : same_session c (with_now n c).
Proof. done. Qed.

Lemma valid_safe u : safe (valid config u).
Proof. intros h c Hg. eapply oidc_keeps_weaken; [|by apply valid_keeps]. done. Qed.

Lemma clearClaim_keeps h c : good h c → keeps clearClaim h c (λ o c', o = Returns () ∧ same_session c c').
Proof.
  intros Hg. apply oidc_keeps_get. destruct (hasClaim c); [|by apply oidc_keeps_ret].
  eapply oidc_keeps_bind; [by apply (aside_keeps (with_hasClaim false))| |by intros e c' _ _ [[=] _]].
  intros [] c' Hg' _ [_ ->]. apply keeps_call; [done|done|]. intros c'' a _ _ Hc ->. by rewrite Hc.
Qed.

Lemma publish_keeps h c : good h c → keeps publish h c (λ o c', o = Returns () ∧ same_session c c').
Proof.
  intros Hg. apply oidc_keeps_get. eapply oidc_keeps_bind.
  - apply (keeps_call (Publish (state c)) h c (λ o c', o = Returns () ∧ c' = c)); [done|done|]. intros c' a _ _ Hc ->. by rewrite Hc.
  - intros [] c' Hg' _ [_ ->]. by apply clearClaim_keeps.
  - by intros e c' _ _ [[=] _].
Qed.

Lemma publish_safe : safe publish.
Proof. intros h c Hg. eapply oidc_keeps_weaken; [|by apply publish_keeps]. done. Qed.

Lemma clearClaim_safe : safe clearClaim.
Proof. intros h c Hg. eapply oidc_keeps_weaken; [|by apply clearClaim_keeps]. done. Qed.

(** What may be assigned together with a withdrawal. *)
Definition closing (f : Oidc → Oidc) : Prop := ∀ c, oidc_inv c →
  revision (f c) = revision c ∧ admitted (f c) = admitted c ∧ pending (f c) = pending c ∧
  (disposed c = true → disposed (f c) = true) ∧ (disposed (f c) = true → blocked (f c) = true).

Lemma withdrawn_inv f c r : closing f → oidc_inv c → (revision c ≤ r)%N → oidc_inv (with_session None None None r (with_timer None (f c))).
Proof.
  intros Hf Hc Hr. destruct (Hf c Hc) as (Er & Ea & Ep & Hd & Hb). split; simpl; [done|done|done|].
  rewrite Ea. eapply Forall_impl; [apply (inv_admitted _ Hc)|]. simpl. intros a [Ha Hle]. split; [done|]. lia.
Qed.

Lemma withdraw_after_keeps f h c : closing f → good h c →
  keeps (withdraw_after f) h c (λ o c', o = Returns () ∧ state c' = None ∧ blocked c' = blocked (f c) ∧ disposed c' = disposed (f c)).
Proof.
  intros Hf Hg. pose proof (proj1 Hg) as Hi. destruct (Hf c Hi) as (Er & Ea & Ep & Hd & Hb). apply oidc_keeps_get.
  destruct (state c) as [st|] eqn:Est.
  - eapply oidc_keeps_bind.
    + apply (oidc_keeps_modify _ h c (λ o c', o = Returns () ∧ c' = with_session None None None (N.succ (revision c)) (with_timer None (f c))));
        [done| |done].
      split; [apply withdrawn_inv; [done|done|lia]|]. split; [|done]. split; simpl; [lia|intros E; lia|done|by rewrite Ea].
    + intros [] c' Hg' _ [_ ->]. eapply oidc_keeps_weaken; [|by apply publish_keeps]. simpl.
      intros o c' _ _ (-> & Es & _ & Eb & Ed). by rewrite Es, Eb, Ed.
    + by intros e c' _ _ [[=] _].
  - apply oidc_keeps_modify; [done| |done]. split; [apply withdrawn_inv; [done|done|lia]|]. split; [|done].
    split; simpl; [lia| |done|by rewrite Ea]. intros _. split; [done|].
    pose proof (inv_session _ Hi) as Hs. rewrite Est in Hs. by destruct (user c).
Qed.

Lemma closing_id : closing (λ c, c).
Proof. intros c [Hc Hd]. done. Qed.

Lemma closing_blocked d : closing (λ c, with_epoch (with_flags (d || disposed c) true c)).
Proof. intros c [Hc Hd]. simpl. repeat (split; [done|]). split; [|done]. intros ->. by rewrite orb_true_r. Qed.

Lemma withdraw_keeps h c : good h c → keeps withdraw h c (λ o c', o = Returns () ∧ state c' = None ∧ blocked c' = blocked c ∧ disposed c' = disposed c).
Proof. apply withdraw_after_keeps, closing_id. Qed.

Lemma withdraw_after_safe f : closing f → safe (withdraw_after f).
Proof. intros Hf h c Hg. eapply oidc_keeps_weaken; [|by apply withdraw_after_keeps]. done. Qed.

Lemma withdraw_safe : safe withdraw.
Proof. apply withdraw_after_safe, closing_id. Qed.

#[local] Hint Resolve valid_safe publish_safe clearClaim_safe withdraw_safe : oidc.

Definition open (c : Oidc) : Prop := disposed c = false ∧ blocked c = false.

Lemma assertAlive_safe : safe assertAlive.
Proof. unfold assertAlive, cancelled. solve_safe. Qed.

Lemma assertAvailable_keeps h c : good h c → keeps assertAvailable h c (λ o c', o = Returns () → c' = c ∧ open c).
Proof.
  intros Hg. unfold assertAvailable, assertAlive, cancelled. apply oidc_keeps_bind with (R1 := λ o c', o = Returns () → c' = c ∧ disposed c = false).
  - apply oidc_keeps_get. destruct (disposed c) eqn:E; [by apply oidc_keeps_refuse|by apply oidc_keeps_ret].
  - intros [] c' Hg' _ Hr. destruct (Hr eq_refl) as [-> Ed]. apply oidc_keeps_get.
    destruct (blocked c) eqn:E; [by apply oidc_keeps_refuse|by apply oidc_keeps_ret].
  - done.
Qed.

Lemma assertAvailable_safe : safe assertAvailable.
Proof. intros h c Hg. eapply oidc_keeps_weaken; [|by apply assertAvailable_keeps]. done. Qed.

#[local] Hint Resolve assertAlive_safe assertAvailable_safe : oidc.

Lemma scheduleExpiry_keeps h c : good h c → keeps scheduleExpiry h c (λ o c', o = Returns () ∧ same_session c c').
Proof.
  intros Hg. eapply oidc_keeps_bind; [by apply (aside_keeps (with_timer None))| |by intros e c' _ _ [[=] _]].
  intros [] c1 Hg1 _ [_ ->]. apply oidc_keeps_get. destruct (user _) as [u|]; [|by apply oidc_keeps_ret].
  destruct (expiry_ms (expires_at u)) as [ms|]; [|by apply oidc_keeps_ret]. destruct (truthy (expires_at u)); [|by apply oidc_keeps_ret]. cbn [negb].
  eapply oidc_keeps_bind; [by apply clock_now_keeps| |by intros e c' _ _ (n & [=] & _)].
  intros now c' Hg' _ (n & [= ->] & ->). eapply oidc_keeps_weaken; [|by apply (aside_keeps (with_timer _))]. by intros o c'' _ _ [-> ->].
Qed.

Lemma scheduleExpiry_safe : safe scheduleExpiry.
Proof. intros h c Hg. eapply oidc_keeps_weaken; [|by apply scheduleExpiry_keeps]. done. Qed.

#[local] Hint Resolve scheduleExpiry_safe : oidc.

(** The state that [admit_user] builds. *)
Definition new_state (u : OidcUserLike) (r : N) : BrowserAuthSessionState := {|
  session_issuer := issuer config; session_subject := default "" (str_of (prop (profile u) "sub"));
  session_expiresAt := expiry_iso (expires_at u); session_revision := r |}.

Lemma new_state_describes u r : well_formed config u = true → describes (new_state u r) u.
Proof.
  intros Hu. split; [done| |done|done]. simpl. unfold well_formed in Hu. rewrite !andb_true_iff in Hu. destruct Hu as [[[Ht _] _] _].
  by destruct (prop (profile u) "sub").
Qed.

Lemma install_plain u print c : well_formed config u = true → oidc_inv c → open c → state c = None →
  let r := N.succ (revision c) in
  plain (λ c, with_admitted (new_state u r) u (with_session (Some (new_state u r)) (Some u) print r c)) c.
Proof.
  intros Hu [Hc Hd Hs Ha] [Ho Hb] Est r. split; [|split; [|done]].
  - split; simpl; [by rewrite Hb|by rewrite Ho| |].
    + split; [apply list_elem_of_here|done].
    + apply Forall_cons. split; [split; [by apply new_state_describes|simpl; lia]|].
      eapply Forall_impl; [exact Ha|]. intros a [Hda Hle]. split; [done|]. simpl in *. lia.
  - split; simpl; [lia|lia|done|]. by apply list_subseteq_cons.
Qed.

Lemma admit_user_keeps u h c : well_formed config u = true → open c → good h c →
  keeps (admit_user config u) h c (λ o c', ∃ st, o = Returns st ∧ state c' = Some st).
Proof.
  intros Hu Ho Hg. unfold admit_user. apply oidc_keeps_get.
  apply oidc_keeps_bind with (R1 := λ o c', c' = c ∧ (o = Returns None ∨ ∃ st, o = Returns (Some st) ∧ state c = Some st)).
  - destruct (state c) as [st|] eqn:Est; [destruct (decide _)|]; (apply oidc_keeps_ret; [done|]); split; eauto.
  - intros a c0 Hg0 _ [-> [[= ->]|(st & [= ->] & Est)]]; [|apply oidc_keeps_ret; [done|]; by exists st].
    eapply oidc_keeps_bind; [by apply (aside_keeps with_epoch)| |by intros e c' _ _ [[=] _]].
    intros [] c1 Hg1 _ [_ ->].
    eapply oidc_keeps_bind; [by apply withdraw_keeps| |by intros e c' _ _ [[=] _]].
    intros [] c2 Hg2 _ (_ & Es & Eb & Ed). apply oidc_keeps_get.
    assert (open c2) as Ho2 by (destruct Ho; split; [by rewrite Ed|by rewrite Eb]).
    eapply oidc_keeps_bind.
    + apply (oidc_keeps_modify _ h c2 (λ o c', o = Returns () ∧ state c' = Some (new_state u (N.succ (revision c2))))); [done| |done].
      exact (install_plain u (Some (stringify (user_json u))) c2 Hu (proj1 Hg2) Ho2 Es).
    + intros [] c3 Hg3 _ [_ Es3].
      eapply oidc_keeps_bind; [by apply scheduleExpiry_keeps| |by intros e c' _ _ [[=] _]].
      intros [] c4 Hg4 _ [_ (Es4 & _)].
      eapply oidc_keeps_bind; [by apply publish_keeps| |by intros e c' _ _ [[=] _]].
      intros [] c5 Hg5 _ [_ (Es5 & _)]. apply oidc_keeps_ret; [done|]. exists (new_state u (N.succ (revision c2))). split; [done|].
      by rewrite Es5, Es4.
    + by intros e c' _ _ [[=] _].
  - by intros e c' _ _ [_ [[=]|(st & [=] & _)]].
Qed.

Lemma admit_session_keeps u h c : good h c →
  keeps (admit_session config u) h c (λ o c', ∀ st, o = Returns st → state c' = Some st).
Proof.
  intros Hg. unfold admit_session. eapply oidc_keeps_bind; [by apply assertAvailable_keeps| |done].
  intros [] c1 Hg1 _ Hr. destruct (Hr eq_refl) as [-> Ho].
  eapply oidc_keeps_bind; [by apply (valid_keeps u)| |by intros e c' _ _ (b & [=] & _)].
  intros ok c1 Hg2 _ (b & [= ->] & (n & ->) & Hb).
  assert (keeps (A := BrowserAuthSessionState)
    (modify with_epoch ;; withdraw ;; refuse (BrowserAuthSessionError InvalidSession)) h (with_now n c)
    (λ o c', ∀ st, o = Returns st → state c' = Some st)) as Hrefuse.
  { eapply oidc_keeps_bind; [by apply (aside_keeps with_epoch)| |done]. intros [] c2 Hg3 _ _.
    eapply oidc_keeps_bind; [by apply withdraw_keeps| |done]. intros [] c3 Hg4 _ _. by apply oidc_keeps_refuse. }
  destruct u as [u|]; [|done]. destruct b; [|done]. destruct (Hb eq_refl) as (u' & [= <-] & Hu & _).
  eapply oidc_keeps_weaken; [|by apply admit_user_keeps]. intros o c' _ _ (st & -> & Es) st' [= <-]. done.
Qed.

Lemma admit_session_safe u : safe (admit_session config u).
Proof. intros h c Hg. eapply oidc_keeps_weaken; [|by apply admit_session_keeps]. done. Qed.

Lemma incapable_safe b : safe (incapable b).
Proof. unfold incapable. solve_safe. Qed.

Lemma provider_error_safe {A} (m : prog A) : safe m → safe (provider_error m).
Proof. intros Hm. unfold provider_error. apply safe_settle; [done|]. intros o. solve_safe. Qed.

#[local] Hint Resolve admit_session_safe incapable_safe provider_error_safe : oidc.

Lemma removeStoredUser_safe : safe (removeStoredUser config).
Proof. unfold removeStoredUser. solve_safe. Qed.

#[local] Hint Resolve removeStoredUser_safe : oidc.

(** ** Mutations of the driver *)

Lemma fresh_keeps h c : good h c → keeps fresh h c (λ o c', o = Returns (nextId c) ∧ c' = with_next c).
Proof.
  intros Hg. apply oidc_keeps_get. eapply oidc_keeps_bind; [by apply (aside_keeps with_next)| |by intros e c' _ _ [[=] _]].
  intros [] c' Hg' _ [_ ->]. by apply oidc_keeps_ret.
Qed.

Lemma fresh_safe : safe fresh.
Proof. intros h c Hg. eapply oidc_keeps_weaken; [|by apply fresh_keeps]. done. Qed.

#[local] Hint Resolve fresh_safe : oidc.

(** The mutation holds the lock from its registration to its removal. *)
Lemma locked_section {T} (inner : prog T) id c :
  good false c → pending c = ∅ → (∀ c', good true c' → keeps inner true c' (λ _ _, True)) →
  keeps (modify (with_pending ({[id]} ∪.)) ;;
         settle inner (λ o, invoke Turn ;; modify (with_pending (.∖ {[id]})) ;; invoke Turn ;; of_outcome o)) false c (λ _ _, True).
Proof.
  intros Hg Hp Hin. set (c1 := with_pending ({[id]} ∪.) c).
  assert (pending c1 = {[id]}) as Hp1 by (unfold c1; simpl; rewrite Hp; set_solver).
  assert (good true c1) as Hg1.
  { split; [by destruct (proj1 Hg)|]. intros _. unfold oidc_locked. rewrite Hp1. case_bool_decide as E; [set_solver|done]. }
  assert (oidc_mono c c1) as Hm1 by (by split).
  apply ok_bind. exists true. split.
  { split; [exact (proj1 Hg1)|]. split; [done|]. split; [|by apply (proj2 Hg1)]. simpl. unfold oidc_locked. by rewrite Hp. }
  apply ok_settle. eapply ok_weaken; [|exact (Hin c1 Hg1)].
  intros h o c2 (-> & Hg2 & Hm2 & Hp2 & _). specialize (Hp2 eq_refl). rewrite Hp1 in Hp2.
  split; [done|]. intros c3 a Hr3 ->. destruct (rely_good true c2 c3 Hg2 Hr3) as (Hg3 & Hm3 & Hp3). rewrite Hp2 in Hp3. specialize (Hp3 eq_refl).
  simpl. exists false. assert (pending c3 ∖ {[id]} = ∅) as Hp4 by (rewrite Hp3; set_solver).
  split.
  { split; [by destruct (proj1 Hg3)|]. split; [by split|]. simpl. unfold oidc_locked. simpl. by rewrite Hp4. }
  assert (good false (with_pending (.∖ {[id]}) c3)) as Hg4 by (split; [by destruct (proj1 Hg3)|done]).
  assert (oidc_mono c (with_pending (.∖ {[id]}) c3)) as Hm4.
  { transitivity c1; [done|]. transitivity c2; [done|]. transitivity c3; [done|]. by split. }
  split; [done|]. intros c5 a Hr5 ->. destruct (rely_good false _ c5 Hg4 Hr5) as (Hg5 & Hm5 & _).
  split; [done|]. split; [done|]. split; [by etransitivity|]. done.
Qed.

Lemma shut_plain c : oidc_inv c → state c = None → plain (λ c, with_epoch (with_flags (disposed c) true c)) c.
Proof. intros [Hc Hd Hs Ha] Es. split; [by split|]. by split. Qed.

Lemma mutate_safe {T} (q : call T) : is_mutation q = true → safe (mutate config (invoke q)).
Proof.
  intros Hq h c Hg. unfold mutate, cancelled. eapply oidc_keeps_bind; [by apply assertAvailable_safe| |done].
  intros [] c1 Hg1 _ _. apply oidc_keeps_get. unfold refuse_when. case_bool_decide as Ep; [|by apply oidc_keeps_refuse].
  eapply oidc_keeps_bind; [apply (oidc_keeps_ret () _ _ (λ _ c', c' = c1)); done| |done]. intros [] c2 Hg2 _ ->.
  eapply oidc_keeps_bind; [by apply fresh_keeps| |done]. intros id c2 Hg3 _ [[= ->] ->].
  destruct h.
  - exfalso. pose proof (proj2 Hg1 eq_refl) as Hl. unfold oidc_locked in Hl. by rewrite Ep in Hl.
  - apply locked_section; [done|done|]. intros c' Hg'.
    eapply oidc_keeps_settle.
    { eapply oidc_keeps_settle.
      - eapply keeps_turn_bind; [done|]. intros c3 Hg4 _. apply (keeps_call q true c3 (λ _ _, True)); [done| |done].
        destruct q; done.
      - intros o c3 Hg4 _ _. refine (safe_bind (invoke Turn) _ _ _ true c3 Hg4); [by auto with oidc|intros _; unfold cancelled; solve_safe]. }
    intros o c3 Hg4 _ _. eapply keeps_turn_bind; [done|]. intros c4 Hg5 _. destruct o as [r|e]; [by apply oidc_keeps_ret|].
    eapply oidc_keeps_bind; [by apply withdraw_keeps| |done]. intros [] c5 Hg6 _ (_ & Es & _). apply oidc_keeps_get.
    apply oidc_keeps_bind with (R1 := λ _ _, True); [|intros [] c6 Hg7 _ _; by apply oidc_keeps_refuse|done].
    destruct (N.eqb (epoch c1) (epoch c5)); [|by apply oidc_keeps_ret].
    apply oidc_keeps_bind with (R1 := λ _ _, True); [|intros [] c6 Hg7 _ _; by apply removeStoredUser_safe|done].
    apply oidc_keeps_modify; [done|apply shut_plain; [apply Hg6|done]|done].
Qed.

#[local] Hint Extern 1 (safe (mutate _ (invoke _))) => (apply mutate_safe; reflexivity) : oidc.

(** ** The operations *)

Definition gives_state (o : outcome oidc_failure (option BrowserAuthSessionState)) (c : Oidc) : Prop :=
  ∀ st, o = Returns (Some st) → state c = Some st.

Lemma gives_none h c : good h c → keeps (mret None) h c gives_state.
Proof. intros Hg. by apply oidc_keeps_ret. Qed.

Lemma gives_current h c : good h c → keeps (c ← get; mret (state c)) h c gives_state.
Proof. intros Hg. apply oidc_keeps_get, oidc_keeps_ret; [done|]. by intros st [= ->]. Qed.

(** Checking [user], and going on whatever the clock says. *)
Lemma valid_then {A} u (f : bool → prog A) h c R :
  good h c → (∀ b n, good h (with_now n c) → (b = true → checked u (with_now n c)) → keeps (f b) h (with_now n c) R) →
  keeps (valid config u ≫= f) h c R.
Proof.
  intros Hg Hf. eapply oidc_keeps_bind; [by apply valid_keeps| |by intros e c' _ _ (b & [=] & _)].
  intros b c' Hg' _ (b' & [= ->] & (n & ->) & Hb). by apply Hf.
Qed.

Lemma withdraw_then {A} (m : prog A) h c R :
  good h c → (∀ c', good h c' → state c' = None → keeps m h c' R) → keeps (withdraw ;; m) h c R.
Proof.
  intros Hg Hm. eapply oidc_keeps_bind; [by apply withdraw_keeps| |by intros e c' _ _ [[=] _]].
  intros [] c' Hg' _ (_ & Es & _). by apply Hm.
Qed.

Lemma getSession_keeps h c : good h c → keeps (getSession config) h c gives_state.
Proof.
  intros Hg. unfold getSession. apply oidc_keeps_get. destruct (disposed c || blocked c); [by apply gives_none|].
  case_bool_decide as Ep; cbn [negb].
  - eapply oidc_keeps_settle with (R1 := gives_state).
    + eapply oidc_keeps_bind; [by apply (safe_call GetUser)| |by intros e c' _ _ _ st]. intros u c1 Hg1 _ _. apply oidc_keeps_get.
      destruct (disposed c1 || blocked c1); [by apply gives_none|]. destruct (negb _).
      * apply valid_then; [done|]. intros b n Hg2 _. apply oidc_keeps_ret; [done|]. by destruct b; [intros st [= E]|].
      * destruct u as [u|]; [|apply withdraw_then; [done|]; intros; by apply gives_none].
        eapply oidc_keeps_bind; [by apply admit_session_keeps| |by intros e c' _ _ _ st].
        intros st c2 Hg2 _ Hst. apply oidc_keeps_ret; [done|]. intros st' [= <-]. by apply Hst.
    + intros o c1 Hg1 _ Ho. destruct o as [st|e]; [by apply oidc_keeps_ret|]. apply oidc_keeps_get.
      destruct (disposed c1 || blocked c1); [by apply gives_none|].
      assert (∀ (b : bool) c2, good h c2 → state c2 = state c1 →
        keeps (if b then mret (state c1) else withdraw ;; mret None) h c2 gives_state) as Hb.
      { intros [] c2 Hg2 Es; [apply oidc_keeps_ret; [done|]; intros st [= Est]; by rewrite Es|].
        apply withdraw_then; [done|]. intros; by apply gives_none. }
      destruct (negb _).
      * apply valid_then; [done|]. intros b n Hg2 _. by apply Hb.
      * eapply oidc_keeps_bind with (R1 := λ o c', c' = c1); [by apply oidc_keeps_ret| |done]. intros b c2 Hg2 _ ->. by apply Hb.
  - apply valid_then; [done|]. intros b n Hg1 _. eapply oidc_keeps_bind with (R1 := λ _ _, True).
    + destruct b; [by apply oidc_keeps_ret|]. eapply oidc_keeps_weaken; [|by apply withdraw_keeps]. done.
    + intros [] c1 Hg2 _ _. by apply gives_current.
    + by intros e c' _ _ _ st.
Qed.

Lemma getSession_safe : safe (getSession config).
Proof. intros h c Hg. eapply oidc_keeps_weaken; [|by apply getSession_keeps]. done. Qed.

#[local] Hint Resolve getSession_safe : oidc.

Lemma inv_user c st : oidc_inv c → state c = Some st → ∃ u, user c = Some u ∧ (st, u) ∈ admitted c ∧ session_revision st = revision c.
Proof. intros [_ _ Hs _] Es. rewrite Es in Hs. destruct (user c) as [u|]; [|done]. by exists u. Qed.

Lemma accessToken_keeps h c : good h c → keeps (accessToken config) h c (λ o c', ∀ t, o = Returns t → deliverable (Token t) c').
Proof.
  intros Hg. unfold accessToken. eapply oidc_keeps_bind; [by apply getSession_safe| |done]. intros st c1 Hg1 _ _.
  eapply keeps_turn_bind; [done|]. intros c2 Hg2 _. apply oidc_keeps_get. apply valid_then; [done|]. intros b n Hg3 Hb.
  eapply oidc_keeps_bind with (R1 := λ o c', (b = true ∧ c' = with_now n c2) ∨ state c' = None).
  - destruct b; [by apply oidc_keeps_ret; [|left]|]. eapply oidc_keeps_weaken; [|by apply withdraw_keeps]. intros o c' _ _ (_ & Es & _). by right.
  - intros [] c3 Hg4 _ Hor. apply oidc_keeps_get, oidc_keeps_ret; [done|]. intros t [= <-].
    destruct Hor as [[-> ->]|Es]; [|by rewrite Es]. simpl. destruct (state c2) as [s|] eqn:Es; [|done].
    destruct (negb (blocked c2) && negb (disposed c2)); [|done]. destruct (Hb eq_refl) as (u & Eu & _ & Hx). simpl in Eu, Hx. rewrite Eu.
    simpl. by exists s, u.
  - done.
Qed.

Lemma admittedUser_keeps h c : good h c →
  keeps (admittedUser config) h c (λ o c', ∀ u, o = Returns (Some u) → ∃ st, state c' = Some st ∧ (st, u) ∈ admitted c' ∧ session_revision st = revision c').
Proof.
  intros Hg. unfold admittedUser. apply oidc_keeps_get.
  eapply oidc_keeps_bind with (R1 := λ o c', o = Returns true → is_Some (state c) ∧ state c' = state c ∧ user c' = user c).
  - destruct (state c) as [st|] eqn:Es; [|by apply oidc_keeps_ret]. destruct (blocked c || disposed c); [by apply oidc_keeps_ret|].
    eapply oidc_keeps_weaken; [|by apply valid_keeps]. intros o c' _ _ (b & -> & (n & ->) & _) _. by simpl; rewrite Es.
  - intros b c1 Hg1 _ Hb. destruct b; [|apply withdraw_then; [done|]; intros; by apply oidc_keeps_ret].
    destruct (Hb eq_refl) as ([st Es] & Es' & Eu). rewrite Es in Es'. apply oidc_keeps_ret; [done|]. intros u [= Eu'].
    destruct (inv_user c1 st (proj1 Hg1) Es') as (u' & Eu1 & Hin & Hr). rewrite Eu, Eu' in Eu1. injection Eu1 as ->. by exists st.
  - done.
Qed.

Lemma cleanup_safe : safe (cleanup config).
Proof.
  unfold cleanup. apply safe_get. intros c. destruct (cleaning c); [solve_safe|].
  apply safe_bind; [by auto with oidc|intros id]. apply safe_bind; [apply withdraw_after_safe, (closing_blocked false)|intros _].
  solve_safe.
Qed.

#[local] Hint Resolve cleanup_safe : oidc.

Lemma join_safe id : safe (join id).
Proof. unfold join. solve_safe. Qed.

(** Only an owner that is not disposed is opened again. *)
Lemma reopen_safe {A} (m : prog A) : safe m → safe (assertAlive ;; modify (λ c, with_flags (disposed c) false c) ;; m).
Proof.
  intros Hm h c Hg.
  apply oidc_keeps_bind with (R1 := λ o c', o = Returns () → c' = c ∧ disposed c = false); [| |done].
  - unfold assertAlive, cancelled. apply oidc_keeps_get. destruct (disposed c) eqn:E; [by apply oidc_keeps_refuse|by apply oidc_keeps_ret].
  - intros [] c1 Hg1 _ Hd. destruct (Hd eq_refl) as [-> Ed]. destruct (proj1 Hg) as [Hc _ Hs Ha].
    eapply oidc_keeps_bind; [apply (oidc_keeps_modify _ h c (λ _ _, True)); [done| |done]| |done].
    + split; [|by split]. split; [done|simpl; by rewrite Ed|done|done].
    + intros [] c1 Hg2 _ _. by apply Hm.
Qed.

#[local] Hint Resolve join_safe : oidc.

Lemma begin_safe : safe (begin config).
Proof.
  unfold begin. apply safe_get. intros c. apply safe_bind; [by auto with oidc|intros _].
  apply safe_get. intros c'. apply safe_bind; [by auto with oidc|intros _]. apply reopen_safe. solve_safe.
Qed.

#[local] Hint Resolve begin_safe : oidc.

Lemma completeCallback_keeps url h c : good h c →
  keeps (completeCallback config url) h c (λ o c', ∀ st, o = Returns st → state c' = Some st).
Proof.
  intros Hg. unfold completeCallback. eapply oidc_keeps_bind; [by apply assertAvailable_safe| |done]. intros [] c1 Hg1 _ _.
  eapply oidc_keeps_bind; [by apply incapable_safe| |done]. intros [] c2 Hg2 _ _.
  eapply oidc_keeps_bind; [by apply (mutate_safe (SigninRedirectCallback url))| |done]. intros u c3 Hg3 _ _. by apply admit_session_keeps.
Qed.

Lemma completeSilentCallback_safe url : safe (completeSilentCallback config url).
Proof. unfold completeSilentCallback. solve_safe. Qed.

Lemma renew_safe : safe (renew config).
Proof. unfold renew. solve_safe. Qed.

Lemma logout_safe : safe (logout config).
Proof. unfold logout. solve_safe. Qed.

Lemma completeLogoutCallback_safe url : safe (completeLogoutCallback config url).
Proof. unfold completeLogoutCallback. solve_safe. Qed.

Lemma dispose_safe : safe dispose.
Proof.
  unfold dispose. apply safe_get. intros c. destruct (disposed c); [solve_safe|].
  apply safe_bind; [apply withdraw_after_safe, (closing_blocked true)|intros _; solve_safe].
Qed.

Lemma on_event_safe e : safe (on_event config e).
Proof. unfold on_event. solve_safe. Qed.

Lemma timer_fires_safe : safe (timer_fires config).
Proof. unfold timer_fires. solve_safe. Qed.

#[local] Hint Resolve logout_safe : oidc.

Lemma oidc_revoke_safe : safe (oidc_revoke config).
Proof. unfold oidc_revoke. solve_safe. Qed.

(** ** The adapter *)

Lemma adapter_error_keeps {A} m h c (R : outcome oidc_failure A → Oidc → Prop) :
  good h c → (∀ e, R (Throws e) c) → keeps (adapter_error m) h c R.
Proof. intros Hg HR. by apply oidc_keeps_refuse. Qed.

(** A check that throws or goes on in the same state. *)
Lemma keeps_check {A} (b : bool) message (m : prog A) h c (R : outcome oidc_failure A → Oidc → Prop) :
  good h c → (∀ e, R (Throws e) c) → (b = false → keeps m h c R) →
  keeps ((if b then adapter_error message else mret ()) ;; m) h c R.
Proof.
  intros Hg He Hm. destruct b.
  - eapply oidc_keeps_bind with (R1 := λ o c', c' = c ∧ ∃ e, o = Throws e); [by apply oidc_keeps_refuse; eauto|by intros a c' _ _ [_ [e [=]]]|].
    by intros e c' _ _ [-> _].
  - eapply oidc_keeps_bind with (R1 := λ o c', c' = c ∧ o = Returns ()); [by apply oidc_keeps_ret|intros [] c' _ _ [-> _]; by apply Hm|].
    by intros e c' _ _ [_ [=]].
Qed.

Lemma keeps_outcome {A B} (o : outcome oidc_failure A) (f : A → prog B) h c (R : outcome oidc_failure B → Oidc → Prop) :
  good h c → (∀ e, R (Throws e) c) → (∀ a, o = Returns a → keeps (f a) h c R) → keeps (a ← of_outcome o; f a) h c R.
Proof. intros Hg He Hf. destruct o as [a|e]; [by apply (Hf a)|by apply oidc_keeps_refuse]. Qed.

(** The session did not change between two reads of one revision. *)
Lemma unchanged_session c1 c2 c3 st st' : oidc_mono c1 c2 → oidc_mono c2 c3 →
  state c1 = Some st → session_revision st = revision c1 → state c2 = Some st' → revision c3 = session_revision st → st' = st.
Proof.
  intros [Hr12 Hs12 _ _] [Hr23 _ _ _] E1 Er E2 E3. assert (revision c2 = revision c1) as E by lia.
  destruct (Hs12 E) as [Es _]. rewrite E1, E2 in Es. by injection Es.
Qed.

Lemma admitted_describes c st u : oidc_inv c → (st, u) ∈ admitted c → describes st u.
Proof. intros Hi Hin. pose proof (inv_admitted _ Hi) as Ha. rewrite Forall_forall in Ha. by apply (Ha _ Hin). Qed.

Lemma oidc_authenticate_keeps asked h c : good h c →
  keeps (oidc_authenticate config asked) h c (λ o c', ∀ claim, o = Returns claim → deliverable (Claim asked claim) c').
Proof.
  intros Hg. unfold oidc_authenticate. destruct asked as [|iss name minimum|]; [by apply adapter_error_keeps| |by apply adapter_error_keeps].
  destruct (negb (String.eqb iss (issuer config))); [by apply adapter_error_keeps|].
  eapply oidc_keeps_bind; [by apply getSession_keeps| |done]. intros found c1 Hg1 _ Hfound.
  eapply keeps_turn_bind; [done|]. intros c2 Hg2 Hm2. destruct found as [st|].
  2: { eapply oidc_keeps_bind; [by apply begin_safe| |done]. intros r c3 Hg3 _ _.
       eapply keeps_turn_bind; [done|]. intros c4 Hg4 _. by apply oidc_keeps_refuse. }
  specialize (Hfound st eq_refl). destruct (inv_user c1 st (proj1 Hg1) Hfound) as (_ & _ & _ & Hrev).
  eapply oidc_keeps_bind; [by apply admittedUser_keeps| |done]. intros [u|] c3 Hg3 Hm3 Hu; [|by apply adapter_error_keeps].
  destruct (Hu u eq_refl) as (st' & Es' & Hin & Hrev').
  apply keeps_check; [done|done|intros _].
  destruct (prop (profile u) "sub") as [| | | |subject| |] eqn:Esub; try by apply adapter_error_keeps.
  destruct (nonempty subject); cbn [negb]; [|by apply adapter_error_keeps].
  apply keeps_outcome; [done|done|intros level Elevel].
  eapply oidc_keeps_bind with (R1 := λ o c', c' = c3 ∧ (o = Returns () → (Z.max (assuranceRank minimum) (assuranceRank (config_minAssurance config)) ≤ assuranceRank level)%Z)).
  { unfold refuse_when. destruct (_ <? _)%Z eqn:Elt; [by apply oidc_keeps_refuse|]. apply oidc_keeps_ret; [done|]. split; [done|]. intros _. by apply Z.ltb_ge. }
  2: by intros e c' _ _ [-> _] claim.
  intros [] c4 Hg4 _ [-> Hlevel]. specialize (Hlevel eq_refl).
  eapply keeps_turn_bind; [done|]. intros c4 Hg5 Hm4.
  apply keeps_outcome; [done|done|intros ref Eref].
  eapply oidc_keeps_bind; [by apply getSession_keeps| |done]. intros now c5 Hg6 Hm5 Hnow.
  eapply keeps_turn_bind; [done|]. intros c6 Hg7 Hm6.
  destruct now as [cur|]; [|by apply (keeps_check true)]. specialize (Hnow cur eq_refl).
  destruct (inv_user c5 cur (proj1 Hg6) Hnow) as (_ & _ & _ & Hrev5).
  apply (keeps_check (negb (N.eqb (session_revision cur) (session_revision st)))); [done|done|]. intros Eq%negb_false_iff%N.eqb_eq.
  assert (st' = st) as -> by (eapply (unchanged_session c1 c3 c5); [by etransitivity|by etransitivity|done|done|done|congruence]).
  eapply oidc_keeps_bind; [by apply (aside_keeps (with_hasClaim true))| |by intros e c' _ _ [[=] _]]. intros [] c7 Hg8 _ [_ ->].
  eapply oidc_keeps_bind; [apply (keeps_call (PublishClaim _) h (with_hasClaim true c6) (λ o c', c' = with_hasClaim true c6)); [done|done|]| |by intros e c' _ _ _].
  { intros c' a _ _ Hc _. by apply Hc. }
  intros [] c7 Hg9 _ ->. apply oidc_keeps_ret; [done|]. intros claim [= <-]. exists st, u. split.
  - simpl. apply (mono_admitted _ _ Hm6), (mono_admitted _ _ Hm5), (mono_admitted _ _ Hm4), Hin.
  - exists ref, level. split; [done|]. destruct (admitted_describes c3 st u (proj1 Hg3) Hin) as [_ Hs _ _]. rewrite Esub in Hs. injection Hs as <-.
    split; [done|]. split; [done|]. simpl. lia.
Qed.

(** ** Reachable states *)

Lemma deliver_safe {A} (as_result : A → Result) (m : prog A) :
  (∀ h c, good h c → keeps m h c (λ o c', ∀ a, o = Returns a → deliverable (as_result a) c')) → safe (deliver as_result m).
Proof.
  intros Hm h c Hg. unfold deliver. eapply oidc_keeps_bind; [by apply Hm| |done]. intros a c1 Hg1 _ Ha. specialize (Ha a eq_refl).
  eapply oidc_keeps_bind; [apply (keeps_call (Deliver (as_result a)) h c1 (λ _ _, True)); done| |done].
  intros [] c2 Hg2 _ _. by apply oidc_keeps_ret.
Qed.

Lemma operation_safe m : operation config m → safe m.
Proof.
  intros []; try apply deliver_safe; try intros h c Hg.
  - eapply oidc_keeps_weaken; [|by apply getSession_keeps]. intros o c' _ _ Ho st ->. destruct st; [by apply Ho|done].
  - eapply oidc_keeps_weaken; [|by apply accessToken_keeps]. intros o c' _ _ Ho t ->. destruct t; [by apply Ho|done].
  - by apply begin_safe.
  - eapply oidc_keeps_weaken; [|by apply completeCallback_keeps]. intros o c' _ _ Ho st ->. by apply Ho.
  - by apply completeSilentCallback_safe.
  - by apply renew_safe.
  - by apply logout_safe.
  - by apply completeLogoutCallback_safe.
  - by apply dispose_safe.
  - by apply on_event_safe.
  - by apply timer_fires_safe.
  - by apply oidc_authenticate_keeps.
  - by apply oidc_revoke_safe.
Qed.

Definition snapshot (e : event) : Oidc := match e with Published _ c | Delivered _ c => c end.

(** What an event shows was so in the state it happened in. *)
Definition event_ok (e : event) : Prop :=
  match e with Published st c => st = state c | Delivered r c => deliverable r c end.

Record recorded (l : list event) (c : Oidc) : Prop := {
  rec_events : Forall (λ e, event_ok e ∧ oidc_inv (snapshot e) ∧ oidc_mono (snapshot e) c) l;
  rec_order i j e1 e2 : l !! i = Some e1 → l !! j = Some e2 → i < j → oidc_mono (snapshot e1) (snapshot e2)
}.

Lemma recorded_later l c c' : oidc_inv c' → oidc_mono c c' → recorded l c → recorded l c'.
Proof.
  intros _ Hm [He Ho]. split; [|done]. eapply Forall_impl; [exact He|]. intros e (? & ? & ?). split; [done|]. split; [done|]. by etransitivity.
Qed.

Lemma recorded_add l c e : oidc_inv c → event_ok e → snapshot e = c → recorded l c → recorded (l ++ [e]) c.
Proof.
  intros Hi Hok Hs [He Ho]. split.
  - apply Forall_app. split; [done|]. apply Forall_singleton. rewrite Hs. by split.
  - intros i j e1 e2 H1 H2 Hij. rewrite lookup_app in H2. destruct (l !! j) as [e'|] eqn:Ej.
    + injection H2 as <-. apply (Ho i j); [|done|done]. rewrite lookup_app_l in H1; [done|]. apply lookup_lt_Some in Ej. lia.
    + apply list_lookup_singleton_Some in H2 as [Ej2 <-]. apply lookup_ge_None in Ej.
      rewrite lookup_app_l in H1 by lia. rewrite Hs. rewrite Forall_lookup in He. by destruct (He i e1 H1) as (_ & _ & ?).
Qed.

Lemma recorded_observe X (q : call X) h c l :
  oidc_inv c → oidc_issue X q h c → (h = true → oidc_locked c = true) → recorded l c → recorded (l ++ observe X q c) c.
Proof.
  intros Hi Hq _ Hr. destruct q; simpl; rewrite ?app_nil_r; try done; by apply recorded_add.
Qed.

(** A mutation under way holds the lock. *)
Definition kept (X : Type) (q : call X) (h : bool) (_ : Oidc) : Prop := is_mutation q = true → h = true.

Lemma oidc_kept_issue X (q : call X) h c : oidc_inv c → oidc_issue X q h c → kept X q h c.
Proof. unfold kept. by destruct q. Qed.

Abbreviation oworld := (world (C := Oidc) (F := oidc_failure) (call := call) (Ev := event) Result).
Definition oidc_reachable (w : oworld) : Prop := reachable (@yields) (@answers) observe (operation config) fresh_session w.

Lemma oidc_fresh_inv : oidc_inv fresh_session.
Proof. by split. Qed.

Lemma oidc_world w : oidc_reachable w → ∃ H, world_ok (@yields) (@answers) oidc_conditions recorded kept w H.
Proof.
  apply (async_reachable_ok (@yields) (@answers) observe oidc_conditions oidc_conditions_ok recorded recorded_later recorded_observe
    kept oidc_kept_issue (λ X q h c c' _ Hk, Hk) (operation config)).
  - intros m c Hm Hi. eapply ok_weaken; [|apply (operation_safe m Hm false c); by split]. by intros h o c' (-> & _).
  - apply oidc_fresh_inv.
  - done.
  - split; [done|]. by intros i j e1 e2 ?%list_elem_of_lookup_2%not_elem_of_nil.
Qed.

Lemma event_recorded w e : oidc_reachable w → e ∈ events w → event_ok e ∧ oidc_inv (snapshot e).
Proof.
  intros [H Hw]%oidc_world He. pose proof (rec_events _ _ (wo_recorded _ _ _ _ _ _ _ Hw)) as Hr. rewrite Forall_forall in Hr.
  destruct (Hr e He) as (? & ? & _). done.
Qed.

(** ** The theorems *)

(** C19. A caller is given an access token only while the owner is neither
    disposed nor blocked, and then the token of the session being shown, whose
    user is the configured issuer's, names a subject, and had not expired at the
    latest reading of the clock: not after a logout, a failed mutation or a
    remote sign-out until the next sign-in is begun, whatever was under way. *)
Theorem oidc_token_delivery w t c :
  oidc_reachable w → Delivered (Token (Some t)) c ∈ events w →
  disposed c = false ∧ blocked c = false ∧
  ∃ st u, state c = Some st ∧ user c = Some u ∧ access_token u = t ∧ describes st u ∧ unexpired (lastNow c) u = true.
Proof.
  intros Hw He. destruct (event_recorded w _ Hw He) as [(st & u & Es & Eu & Et & Ex) Hi]. simpl in *.
  assert (blocked c = false) as Hb by (apply not_true_iff_false; intros Hb; rewrite (inv_closed _ Hi Hb) in Es; done).
  split; [|split; [done|]].
  - apply not_true_iff_false. intros Hd. by rewrite (inv_disposed _ Hi Hd) in Hb.
  - exists st, u. repeat (split; [done|]). split; [|done].
    destruct (inv_user c st Hi Es) as (u' & Eu' & Hin & _). rewrite Eu in Eu'. injection Eu' as <-. by apply (admitted_describes c).
Qed.

(** The session an event shows. *)
Definition shown (e : event) : option BrowserAuthSessionState :=
  match e with Published st _ => st | Delivered (Session st) _ => st | Delivered _ _ => None end.

Lemma shown_current e st : event_ok e → shown e = Some st → state (snapshot e) = Some st.
Proof. destruct e as [st' c|[[st'|]|t|asked claim|] c]; simpl; try done; [by intros -> ->|by intros -> [= ->]]. Qed.

(** Revisions order the sessions that are published or given to callers:
    they never decrease, and two sessions shown with one revision are the same,
    so a caller that sees a revision again knows that nothing changed. *)
Theorem oidc_revision_names_session w i j e1 e2 st1 st2 :
  oidc_reachable w → events w !! i = Some e1 → events w !! j = Some e2 → i < j → shown e1 = Some st1 → shown e2 = Some st2 →
  (session_revision st1 ≤ session_revision st2)%N ∧ (session_revision st1 = session_revision st2 → st1 = st2).
Proof.
  intros Hw Hi Hj Hij S1 S2. destruct (oidc_world w Hw) as [H Ho]. pose proof (rec_order _ _ (wo_recorded _ _ _ _ _ _ _ Ho) i j e1 e2 Hi Hj Hij) as Hm.
  destruct (event_recorded w e1 Hw (list_elem_of_lookup_2 _ _ _ Hi)) as [Ok1 I1].
  destruct (event_recorded w e2 Hw (list_elem_of_lookup_2 _ _ _ Hj)) as [Ok2 I2].
  pose proof (shown_current e1 st1 Ok1 S1) as E1. pose proof (shown_current e2 st2 Ok2 S2) as E2.
  destruct (inv_user _ _ I1 E1) as (_ & _ & _ & R1). destruct (inv_user _ _ I2 E2) as (_ & _ & _ & R2).
  rewrite R1, R2. split; [apply Hm|]. intros E. destruct (mono_session _ _ Hm (eq_sym E)) as [Es _]. rewrite E1, E2 in Es. by injection Es.
Qed.

(** C20. A claim that the identity adapter gives is made of one admitted session:
    the reference is that of the session's own subject, the expiry the
    session's, and the level what the user's ACR values map to, no lower than
    the option and the deployment ask, even when the session changes while the
    reference is computed. *)
Theorem oidc_claim_evidenced w asked claim c :
  oidc_reachable w → Delivered (Claim asked claim) c ∈ events w →
  ∃ st u, (st, u) ∈ admitted c ∧ describes st u ∧ claim_of asked claim st u.
Proof.
  intros Hw He. destruct (event_recorded w _ Hw He) as [(st & u & Hin & Hc) Hi]. exists st, u. split; [done|]. split; [|done].
  by apply (admitted_describes c).
Qed.

(** A thread that waits for the driver to change what it stores. *)
Definition mutating (t : thread (C := Oidc) (F := oidc_failure) (call := call) Result) : Prop :=
  match t with Waiting q _ => is_mutation q = true | Finished _ => False end.

(** At most one sign-in, callback or renewal of the driver is under way, and
    none is left registered once every operation has settled. *)
Theorem oidc_one_mutation w :
  oidc_reachable w →
  (∀ i j ti tj, threads w i = Some ti → threads w j = Some tj → mutating ti → mutating tj → i = j) ∧
  ((∀ i t, threads w i = Some t → ∃ o, t = Finished o) → pending (shared w) = ∅).
Proof.
  intros [H Hw]%oidc_world. split.
  - intros i j ti tj Hi Hj Mi Mj. apply (wo_threads _ _ _ _ _ _ _ Hw) in Hi, Hj.
    destruct ti as [|X q k], tj as [|X' q' k']; try done. destruct Hi as [Ki _], Hj as [Kj _].
    exact (wo_unique _ _ _ _ _ _ _ Hw i j (Ki Mi) (Kj Mj)).
  - intros Hfin. apply dec_stable. intros Hp.
    assert (oidc_locked (shared w) = true) as Hl by (unfold oidc_locked; by rewrite bool_decide_eq_false_2).
    apply (wo_taken _ _ _ _ _ _ _ Hw) in Hl as [i Hi]. destruct (threads w i) as [t|] eqn:Et.
    + destruct (Hfin i t Et) as [o ->]. apply (wo_threads _ _ _ _ _ _ _ Hw) in Et. simpl in Et. congruence.
    + by rewrite (wo_absent _ _ _ _ _ _ _ Hw i Et) in Hi.
Qed.
End conditions.

(** ** A run *)

Module OidcSample.

#[export] Instance json_text : JsonText := coded_json.
#[export] Instance doubles : Doubles := {| decimal_ms := λ _, None; expiry_iso := js_to_string |}.

Definition config : OidcConfig := {|
  issuer := "https://issuer"; methods := Build_DriverMethods true true true true true true true; config_minAssurance := L2;
  acrAssuranceMap := None; displayName := None; subjectRefFactory := λ iss sub, Returns (iss +:+ "#" +:+ sub)
|}.

Definition sample_user : OidcUserLike := {|
  access_token := JStr "token"; id_token := JStr "id";
  profile := JObj [("sub", JStr "ada"); ("iss", JStr "https://issuer"); ("acr", JStr "L3")]; expires_at := JNum (NInt 1000)
|}.

Definition answer (X : Type) (q : call X) (c : Oidc) : option (outcome oidc_failure X) :=
  match q in call X return option (outcome oidc_failure X) with
  | Turn | Publish _ | PublishClaim _ | Deliver _ => Some (Returns ())
  | ClockNow => Some (Returns 5%Z)
  | GetUser => Some (Returns (Some sample_user))
  | SigninRedirectCallback _ => Some (Returns sample_user)
  | AwaitSettled ids => if decide (ids ## pending c) then Some (Returns ()) else None
  | JoinPromise id => promises c !! id
  | _ => None
  end.

Lemma oidc_answer_answers X (q : call X) c a : answer X q c = Some a → answers q a c.
Proof.
  destruct q; simpl; intros E; try done; try (injection E as <-; done).
  - injection E as <-. by exists 5%Z.
  - destruct (decide _); [|done]. by injection E as <-.
Qed.

Definition asked : IdpOption := OidcOption "https://issuer" "Issuer" L1.

(** A callback signs the respondent in, a token is read and a claim made, and
    then the owner is disposed. *)
Definition steps : list (prog Result) :=
  [deliver (Session ∘ Some) (completeCallback config "https://app/callback"); deliver Token (accessToken config);
   deliver (Claim asked) (oidc_authenticate config asked); dispose; deliver Token (accessToken config)].

Lemma oidc_steps_operations : Forall (operation config) steps.
Proof. repeat (apply Forall_cons; split); try constructor. Qed.

Definition log : list event := alone_all_log observe answer steps fresh_session.

Lemma oidc_sample_world : ∃ w, oidc_reachable config w ∧ events w = log.
Proof.
  assert (match alone_all answer steps fresh_session with Some _ => true | None => false end = true) as Hr by (vm_compute; reflexivity).
  destruct (alone_all answer steps fresh_session) as [[os c]|] eqn:E; [|discriminate Hr].
  destruct (alone_all_reachable (@yields) (@answers) observe answer oidc_answer_answers (operation config) steps (initial fresh_session) 0 os c
      oidc_steps_operations) as (w & Hs & _ & He & _); [done|done|exact E|]. exists w. split; [exact Hs|]. rewrite He. unfold log, initial. cbn [events shared app]. reflexivity.
Qed.

Definition delivers_token (e : event) : bool := match e with Delivered (Token (Some _)) _ => true | _ => false end.
Definition delivers_claim (e : event) : bool := match e with Delivered (Claim _ _) _ => true | _ => false end.

Lemma oidc_token_delivery_witness : ∃ t c, Delivered (Token (Some t)) c ∈ log ∧ disposed c = false ∧
  length (List.filter delivers_token log) = 1 ∧ ∃ u, user c = Some u ∧ access_token u = t.
Proof.
  assert (length (List.filter delivers_token log) = 1) as Hone by (vm_compute; reflexivity).
  destruct oidc_sample_world as (w & Hw & He).
  destruct (List.filter delivers_token log) as [|e l] eqn:E; [vm_compute in E; discriminate|].
  assert (In e (List.filter delivers_token log)) as Hin by (rewrite E; by left).
  pose proof (proj1 (filter_In delivers_token e log) Hin) as [Hin1 He']. clear Hin. rename Hin1 into Hin.
  destruct e as [st c|[st|[t|]|a cl|] c]; try discriminate He'. apply list_elem_of_In in Hin.
  assert (Delivered (Token (Some t)) c ∈ events w) as Hev by (rewrite He; exact Hin).
  destruct (oidc_token_delivery config w t c Hw Hev) as (Hd & _ & st & u & _ & Eu & Et & _).
  exists t, c. split; [exact Hin|]. split; [exact Hd|]. split; [exact Hone|]. exact (ex_intro _ u (conj Eu Et)).
Defined.

Lemma oidc_claim_evidenced_witness : ∃ claim c, Delivered (Claim asked claim) c ∈ log ∧ (assuranceRank L2 ≤ assuranceRank (assuranceLevel claim))%Z.
Proof.
  destruct oidc_sample_world as (w & Hw & He).
  assert (existsb (λ e, match e with Delivered (Claim a _) _ => bool_decide (a = asked) | _ => false end) log = true) as Hl by (vm_compute; reflexivity).
  apply existsb_exists in Hl as (e & Hin & Ha). destruct e as [st c|[st|t|a claim|] c]; try discriminate Ha.
  apply bool_decide_eq_true in Ha as ->. apply list_elem_of_In in Hin.
  assert (Delivered (Claim asked claim) c ∈ events w) as Hev by (rewrite He; exact Hin).
  destruct (oidc_claim_evidenced config w asked claim c Hw Hev) as (st & u & _ & _ & ref & level & -> & _ & _ & _ & Hr).
  eexists _, c. split; [exact Hin|exact Hr].
Defined.

(** The session shown by the [n]th event. *)
Definition shown_at (n : nat) : option BrowserAuthSessionState := e ← log !! n; shown e.

Lemma shown_at_spec n st : shown_at n = Some st → ∃ e, log !! n = Some e ∧ shown e = Some st.
Proof. unfold shown_at. intros (e & He & Hs)%bind_Some. by exists e. Qed.

(** The callback publishes and delivers one session. *)
Lemma oidc_revision_names_session_witness : ∃ st1 st2, shown_at 0 = Some st1 ∧ shown_at 1 = Some st2 ∧ st1 = st2.
Proof.
  destruct oidc_sample_world as (w & Hw & He).
  assert (session_revision <$> shown_at 0 = Some 1%N) as H0 by (vm_compute; reflexivity).
  assert (session_revision <$> shown_at 1 = Some 1%N) as H1 by (vm_compute; reflexivity).
  apply fmap_Some in H0 as (st1 & S1 & R1). apply fmap_Some in H1 as (st2 & S2 & R2).
  destruct (shown_at_spec 0 st1 S1) as (e1 & E1 & Sh1). destruct (shown_at_spec 1 st2 S2) as (e2 & E2 & Sh2).
  assert (0 < 1) as Hlt by lia. rewrite <- He in E1, E2.
  destruct (oidc_revision_names_session config w 0 1 e1 e2 st1 st2 Hw E1 E2 Hlt Sh1 Sh2) as [_ Hsame].
  exists st1, st2. split; [exact S1|]. split; [exact S2|]. apply Hsame. exact (eq_trans (eq_sym R1) R2).
Defined.

Lemma oidc_one_mutation_witness : ∃ w, oidc_reachable config w ∧
  (∀ i j ti tj, threads w i = Some ti → threads w j = Some tj → mutating ti → mutating tj → i = j).
Proof. destruct oidc_sample_world as (w & Hw & _). exists w. split; [exact Hw|exact (proj1 (oidc_one_mutation config w Hw))]. Defined.
End OidcSample.
