(* ===== verification/LifecycleClient.v ===== *)
(** * The in-memory lifecycle action client

    [stubLifecycleActionClient] (src/src/adapters/stub/lifecycle-action-client.ts)
    with the data of its port (src/src/ports/lifecycle-action-client.ts): the
    guards of correction, withdrawal and dispute, the timelines it appends to
    and the receipts it remembers by idempotency key.  Strings are UTF-8; the
    deep copies of the source are the values themselves. *)

From S2P Require Import Prelude JsValue FeatureKeys Resolver ExtractForm IdempotencyKey Submission PaymentStub.
From Stdlib Require Import Ascii.

(** ** The port's data *)

Inductive LifecycleActionKind : Set := Correct | Withdraw | Dispute.

#[export] Instance LifecycleActionKind_eq_dec : EqDecision LifecycleActionKind.
Proof. solve_decision. Defined.

Inductive LifecycleActionWindow : Set :=
  | WindowOpen
  | WindowClosesAt (closesAt : string)
  | WindowClosed (closedAt : option string).

Inductive LifecyclePartyScope : Set := AnyParty | AllPartiesMustAgree.

#[export] Instance LifecyclePartyScope_eq_dec : EqDecision LifecyclePartyScope.
Proof. solve_decision. Defined.

(** [postDeterminationIntent] is the flag that it is [rescission-requested]. *)
Record LifecycleActionAvailability : Set := {
  av_action : LifecycleActionKind;
  av_enabled : bool;
  av_window : option LifecycleActionWindow;
  av_disabledReason : option string;
  av_correctableFieldSet : option (list string);
  av_requiresReason : option bool;
  av_requiresEvidence : option bool;
  av_signerOnly : option bool;
  av_partyScope : option LifecyclePartyScope;
  av_rescissionIntent : bool;
  av_requiresIssuerAcceptance : option bool
}.

Record LifecycleProtectedText : Set := { text : string; accessClass : option string }.

Record LifecycleChangedField : Set := {
  cf_path : string;
  cf_label : string;
  cf_originalValue : option LifecycleProtectedText;
  cf_correctedValue : option LifecycleProtectedText
}.

Inductive RecordedAs : Set := AsCorrection | AsAmendment.

(** What each kind of event adds to the base. *)
Inductive LifecycleEventDetail : Set :=
  | OriginalSubmission (title : string)
  | CorrectionEvent (recordedAs : RecordedAs) (changedFields : list LifecycleChangedField)
      (reason : option LifecycleProtectedText) (evidenceRefs : option (list string))
  | WithdrawalEvent (reason : option LifecycleProtectedText) (rescissionRequested requiresIssuerAcceptance : option bool)
  | DisputeEvent (disputedEventId : option string) (statement : option LifecycleProtectedText)
  | ConsentRevocationEvent (consentRef : option string) (reason : option LifecycleProtectedText).

Record LifecycleTimelineEvent : Set := {
  eventId : string;
  event_occurredAt : string;
  verified : bool;
  actorLabel : option string;
  event_partyRef : option string;
  detail : LifecycleEventDetail
}.

Record LifecycleActionSnapshot : Set := {
  caseUrn : string;
  actions : list LifecycleActionAvailability;
  events : list LifecycleTimelineEvent;
  updatedAt : option string
}.

Record LifecycleCorrectionRequest : Set := {
  cr_caseUrn : string;
  cr_actorRef : option string;
  cr_partyRef : option string;
  cr_changedFields : list LifecycleChangedField;
  cr_correctableFieldSet : option (list string);
  cr_caseDecisionReached : option bool;
  cr_reason : option string;
  cr_evidenceRefs : option (list string)
}.

Record LifecycleWithdrawalRequest : Set := {
  wr_caseUrn : string;
  wr_actorRef : option string;
  wr_partyRef : option string;
  wr_reason : option string;
  wr_rescissionRequested : option bool;
  wr_partyScope : option LifecyclePartyScope;
  wr_allPartiesApproved : option bool
}.

Record LifecycleDisputeRequest : Set := {
  dr_caseUrn : string;
  dr_actorRef : option string;
  dr_partyRef : option string;
  dr_disputedEventId : option string;
  dr_statement : string
}.

Record LifecycleActionReceipt : Set := {
  receipt_action : LifecycleActionKind;
  receipt_event : LifecycleTimelineEvent;
  receipt_snapshot : LifecycleActionSnapshot;
  receipt_supportRef : option string
}.

(** ** Guards *)

Definition action_word (a : LifecycleActionKind) : string :=
  match a with Correct => "correct" | Withdraw => "withdraw" | Dispute => "dispute" end.

Definition is_flag (o : option bool) : bool := match o with Some b => b | None => false end.

Definition assertChangedFields (fields : list LifecycleChangedField) : outcome string unit :=
  throw_when (bool_decide (length fields = 0)) "At least one changed field is required" ;;
  for_each (λ f, throw_when (negb (nonempty (cf_path f)) || negb (nonempty (cf_label f)))
                   "Changed fields need a path and label") fields.

Definition is_closed (w : option LifecycleActionWindow) : bool :=
  match w with Some (WindowClosed _) => true | _ => false end.

Definition assertActionEnabled (snapshot : LifecycleActionSnapshot) (action : LifecycleActionKind)
    : outcome string LifecycleActionAvailability :=
  match List.find (λ c, bool_decide (av_action c = action)) (actions snapshot) with
  | Some found =>
      throw_when (negb (av_enabled found)) (action_word action +:+ " is not available for this record") ;;
      throw_when (is_closed (av_window found)) (action_word action +:+ " window is closed for this record") ;;
      Returns found
  | None => Throws (action_word action +:+ " is not available for this record")
  end.

Definition assertReasonIfRequired (action : LifecycleActionAvailability) (reason : option string) (message : string)
    : outcome string unit :=
  throw_when (is_flag (av_requiresReason action) && trim_empty (default "" reason)) message.

Definition assertEvidenceIfRequired (action : LifecycleActionAvailability) (evidenceRefs : option (list string))
    : outcome string unit :=
  throw_when (is_flag (av_requiresEvidence action) && bool_decide (length (default [] evidenceRefs) = 0))
    "Evidence is required for this lifecycle action".

Definition assertSignerScope (action : LifecycleActionAvailability) (actorRef : option string)
    (signerRefs : list string) : outcome string unit :=
  if negb (is_flag (av_signerOnly action)) || bool_decide (length signerRefs = 0) then Returns ()
  else
    throw_when (match actorRef with None => true | Some a => negb (nonempty a) || negb (str_in a signerRefs) end)
      "Only signers can add a dispute note to this record".

Definition assertPartyScope (action : LifecycleActionAvailability) (partyScope : option LifecyclePartyScope)
    (allPartiesApproved : option bool) : outcome string unit :=
  let scope := match partyScope with Some s => Some s | None => av_partyScope action end in
  throw_when (bool_decide (scope = Some AllPartiesMustAgree) && negb (is_flag allPartiesApproved))
    "All parties must approve withdrawal before it can be submitted".

Definition assertRescissionPolicy (action : LifecycleActionAvailability) (rescissionRequested : option bool)
    : outcome string unit :=
  if negb (is_flag rescissionRequested) then Returns ()
  else
    throw_when (negb (av_rescissionIntent action) || negb (is_flag (av_requiresIssuerAcceptance action)))
      "Post-determination withdrawal review is not available for this record".

Definition introducesNewField (fields : list LifecycleChangedField) : bool :=
  existsb (λ f, match cf_originalValue f, cf_correctedValue f with None, Some _ => true | _, _ => false end) fields.

(** ** The client *)

Definition DEFAULT_CORRECTABLE_FIELD_SET : list string := ["/fullName"; "/householdSize"; "/address/street"].

Definition DEFAULT_ACTIONS : list LifecycleActionAvailability :=
  [{| av_action := Correct; av_enabled := true; av_window := Some WindowOpen; av_disabledReason := None;
      av_correctableFieldSet := Some DEFAULT_CORRECTABLE_FIELD_SET; av_requiresReason := Some true;
      av_requiresEvidence := None; av_signerOnly := None; av_partyScope := None; av_rescissionIntent := false;
      av_requiresIssuerAcceptance := None |};
   {| av_action := Withdraw; av_enabled := true; av_window := Some (WindowClosesAt "2026-06-24T23:59:59.000Z");
      av_disabledReason := None; av_correctableFieldSet := None; av_requiresReason := Some true;
      av_requiresEvidence := None; av_signerOnly := None; av_partyScope := None; av_rescissionIntent := false;
      av_requiresIssuerAcceptance := None |};
   {| av_action := Dispute; av_enabled := true; av_window := None; av_disabledReason := None;
      av_correctableFieldSet := None; av_requiresReason := Some true; av_requiresEvidence := None;
      av_signerOnly := Some true; av_partyScope := None; av_rescissionIntent := false;
      av_requiresIssuerAcceptance := None |}].

(** The closure variables of one client; the options are fixed. *)
Record StubLifecycleActionClient : Type := {
  snapshots : gmap string LifecycleActionSnapshot;
  receiptsByKey : gmap string LifecycleActionReceipt;
  correctableFieldSet : list string;
  signerRefs : list string;
  nextEvent : N
}.

Section updates.
Context (c : StubLifecycleActionClient).

Definition with_snapshot (urn : string) (s : LifecycleActionSnapshot) : StubLifecycleActionClient :=
  {| snapshots := <[urn := s]> (snapshots c); receiptsByKey := receiptsByKey c;
     correctableFieldSet := correctableFieldSet c; signerRefs := signerRefs c; nextEvent := nextEvent c |}.

Definition with_receipt (key : string) (r : LifecycleActionReceipt) : StubLifecycleActionClient :=
  {| snapshots := snapshots c; receiptsByKey := <[key := r]> (receiptsByKey c);
     correctableFieldSet := correctableFieldSet c; signerRefs := signerRefs c; nextEvent := nextEvent c |}.

Definition with_next_event : StubLifecycleActionClient :=
  {| snapshots := snapshots c; receiptsByKey := receiptsByKey c; correctableFieldSet := correctableFieldSet c;
     signerRefs := signerRefs c; nextEvent := (nextEvent c + 1)%N |}.
End updates.

Definition event_id (word : string) (n : N) : string := "evt-" +:+ word +:+ "-" +:+ padStart 6 "0" (pretty n).

Definition nextEventId (word : string) (c : StubLifecycleActionClient) : string * StubLifecycleActionClient :=
  (event_id word (nextEvent c + 1), with_next_event c).

Definition originalSubmissionEvent (c : StubLifecycleActionClient)
    : LifecycleTimelineEvent * StubLifecycleActionClient :=
  let '(i, c') := nextEventId "original" c in
  ({| eventId := i; event_occurredAt := "2026-05-23T12:00:00.000Z"; verified := true;
      actorLabel := Some "Respondent"; event_partyRef := None;
      detail := OriginalSubmission "Original signed submission" |}, c').

Definition registerLifecycle (s : LifecycleActionSnapshot) (c : StubLifecycleActionClient)
    : StubLifecycleActionClient := with_snapshot c (caseUrn s) s.

Definition stubLifecycleActionClient (initialSnapshots : list LifecycleActionSnapshot)
    (fieldSet : option (list string)) (signers : option (list string)) : StubLifecycleActionClient :=
  foldl (λ c s, registerLifecycle s c)
    {| snapshots := ∅; receiptsByKey := ∅; correctableFieldSet := default DEFAULT_CORRECTABLE_FIELD_SET fieldSet;
       signerRefs := default [] signers; nextEvent := 0 |}
    initialSnapshots.

Definition readLifecycle (urn : string) (c : StubLifecycleActionClient) : option LifecycleActionSnapshot :=
  snapshots c !! urn.

Definition snapshotFor (urn now : string) (c : StubLifecycleActionClient)
    : LifecycleActionSnapshot * StubLifecycleActionClient :=
  match snapshots c !! urn with
  | Some existing => (existing, c)
  | None =>
      let '(original, c') := originalSubmissionEvent c in
      let created := {| caseUrn := urn; actions := DEFAULT_ACTIONS; events := [original]; updatedAt := Some now |} in
      (created, with_snapshot c' urn created)
  end.

Definition appendReceipt (urn : string) (action : LifecycleActionKind) (event : LifecycleTimelineEvent)
    (key now : string) (c : StubLifecycleActionClient) : LifecycleActionReceipt * StubLifecycleActionClient :=
  let '(current, c1) := snapshotFor urn now c in
  let snapshot :=
    {| caseUrn := caseUrn current; actions := actions current; events := events current ++ [event];
       updatedAt := Some (event_occurredAt event) |} in
  let c2 := with_snapshot c1 urn snapshot in
  let receipt :=
    {| receipt_action := action; receipt_event := event; receipt_snapshot := snapshot;
       receipt_supportRef := Some ("lifecycle-" +:+ eventId event) |} in
  (receipt, with_receipt c2 key receipt).

(** [text ? { text } : undefined] *)
Definition protected_text (t : option string) : option LifecycleProtectedText :=
  match t with Some (String a s) => Some {| text := String a s; accessClass := None |} | _ => None end.

(** ** The three submissions

    They share one frame: the key is checked, a remembered receipt is returned,
    the case's snapshot is read (and created when it is new, even if the
    submission is then refused), the guards run, and an accepted event takes
    the next id and is appended. *)
Section submissions.
Context `{!UuidPackage}.

(** The clock is read when a new case's snapshot is created, and again for the event. *)
Definition submission (urn : string) (kind : LifecycleActionKind) (actor : string) (partyRef : option string)
    (guard : LifecycleActionSnapshot → outcome string LifecycleEventDetail) (word key created now : string)
    : action StubLifecycleActionClient LifecycleActionReceipt := λ c,
  match assertUuidV7IdempotencyKey key with
  | Throws e => (error e, c)
  | Returns _ =>
      match receiptsByKey c !! key with
      | Some existing => (Returns existing, c)
      | None =>
          let '(snapshot, c1) := snapshotFor urn created c in
          match guard snapshot with
          | Throws e => (error e, c1)
          | Returns d =>
              let '(i, c2) := nextEventId word c1 in
              let event := {| eventId := i; event_occurredAt := now; verified := true; actorLabel := Some actor;
                              event_partyRef := partyRef; detail := d |} in
              let '(receipt, c3) := appendReceipt urn kind event key now c2 in
              (Returns receipt, c3)
          end
      end
  end.

Definition declared_field_set (c : StubLifecycleActionClient) (found : LifecycleActionAvailability)
    (request : LifecycleCorrectionRequest) : list string :=
  match cr_correctableFieldSet request with
  | Some l => l
  | None => match av_correctableFieldSet found with Some l => l | None => correctableFieldSet c end
  end.

Definition isNarrowCorrection (declared : list string) (request : LifecycleCorrectionRequest) : bool :=
  forallb (λ f, str_in (cf_path f) declared) (cr_changedFields request)
  && negb (is_flag (cr_caseDecisionReached request))
  && negb (introducesNewField (cr_changedFields request)).

Definition correction_guard (c : StubLifecycleActionClient) (request : LifecycleCorrectionRequest)
    (snapshot : LifecycleActionSnapshot) : outcome string LifecycleEventDetail :=
  found ← assertActionEnabled snapshot Correct;
  assertChangedFields (cr_changedFields request) ;;
  assertReasonIfRequired found (cr_reason request) "Correction reason is required" ;;
  assertEvidenceIfRequired found (cr_evidenceRefs request) ;;
  let declared := declared_field_set c found request in
  throw_when (bool_decide (length declared = 0)) "Correction field set is not declared for this record" ;;
  Returns
    (CorrectionEvent (if isNarrowCorrection declared request then AsCorrection else AsAmendment)
       (cr_changedFields request) (protected_text (cr_reason request)) (cr_evidenceRefs request)).

Definition submitCorrection (request : LifecycleCorrectionRequest) (key created now : string)
    : action StubLifecycleActionClient LifecycleActionReceipt := λ c,
  submission (cr_caseUrn request) Correct "Respondent" (cr_partyRef request) (correction_guard c request)
    "correction" key created now c.

Definition withdrawal_guard (request : LifecycleWithdrawalRequest) (snapshot : LifecycleActionSnapshot)
    : outcome string LifecycleEventDetail :=
  found ← assertActionEnabled snapshot Withdraw;
  assertReasonIfRequired found (wr_reason request) "Withdrawal reason is required" ;;
  assertPartyScope found (wr_partyScope request) (wr_allPartiesApproved request) ;;
  assertRescissionPolicy found (wr_rescissionRequested request) ;;
  Returns
    (WithdrawalEvent (protected_text (wr_reason request)) (wr_rescissionRequested request)
       (if is_flag (wr_rescissionRequested request) then Some true else None)).

Definition submitWithdrawal (request : LifecycleWithdrawalRequest) (key created now : string)
    : action StubLifecycleActionClient LifecycleActionReceipt :=
  submission (wr_caseUrn request) Withdraw "Applicant" (wr_partyRef request) (withdrawal_guard request)
    "withdrawal" key created now.

Definition dispute_guard (signers : list string) (request : LifecycleDisputeRequest)
    (snapshot : LifecycleActionSnapshot) : outcome string LifecycleEventDetail :=
  found ← assertActionEnabled snapshot Dispute;
  assertSignerScope found (dr_actorRef request) signers ;;
  throw_when (trim_empty (dr_statement request)) "Dispute statement is required" ;;
  Returns (DisputeEvent (dr_disputedEventId request) (Some {| text := dr_statement request; accessClass := None |})).

Definition submitDispute (request : LifecycleDisputeRequest) (key created now : string)
    : action StubLifecycleActionClient LifecycleActionReceipt := λ c,
  submission (dr_caseUrn request) Dispute "Signer" (dr_partyRef request) (dispute_guard (signerRefs c) request)
    "dispute" key created now c.

(** One of the three submissions under a key. *)
Inductive lifecycle_step (key : string) (c : StubLifecycleActionClient)
    : outcome thrown LifecycleActionReceipt → StubLifecycleActionClient → Prop :=
  | step_correction request created now o c' :
      submitCorrection request key created now c = (o, c') → lifecycle_step key c o c'
  | step_withdrawal request created now o c' :
      submitWithdrawal request key created now c = (o, c') → lifecycle_step key c o c'
  | step_dispute request created now o c' :
      submitDispute request key created now c = (o, c') → lifecycle_step key c o c'.

Definition lifecycle_call (c c' : StubLifecycleActionClient) : Prop := ∃ key o, lifecycle_step key c o c'.

Definition lifecycle_calls : StubLifecycleActionClient → StubLifecycleActionClient → Prop := rtc lifecycle_call.
End submissions.

(** ** Timelines only grow, and nothing on them is repeated *)

Definition timeline (c : StubLifecycleActionClient) (urn : string) : list LifecycleTimelineEvent :=
  default [] (events <$> snapshots c !! urn).

Definition event_words : list string := ["original"; "correction"; "withdrawal"; "dispute"].

Lemma event_words_spec w :
  w ∈ event_words → w = "original" ∨ w = "correction" ∨ w = "withdrawal" ∨ w = "dispute".
Proof. unfold event_words. rewrite !elem_of_cons, elem_of_nil. tauto. Qed.

Lemma event_id_inj w w' n m :
  w ∈ event_words → w' ∈ event_words → event_id w n = event_id w' m → n = m.
Proof.
  unfold event_id. intros Hw%event_words_spec Hw'%event_words_spec E. apply (inj (String.append "evt-")) in E.
  assert (w = w') as <-.
  { apply (f_equal (String.get 0)) in E. by destruct Hw as [->|[->|[->| ->]]], Hw' as [->|[->|[->| ->]]]. }
  apply (inj (String.append w)), (inj (String.append "-")) in E.
  apply (f_equal (decimal_from 0)) in E. unfold padStart in E. by rewrite !decimal_pad, !decimal_pretty in E.
Qed.

Record client_ok (c : StubLifecycleActionClient) : Prop := {
  ok_urn urn s : snapshots c !! urn = Some s → caseUrn s = urn;
  ok_issued urn i e : timeline c urn !! i = Some e →
    ∃ w n, w ∈ event_words ∧ (n ≤ nextEvent c)%N ∧ eventId e = event_id w n;
  ok_distinct urn urn' i i' e e' :
    timeline c urn !! i = Some e → timeline c urn' !! i' = Some e' → eventId e = eventId e' →
    urn = urn' ∧ i = i';
  ok_receipts key r : receiptsByKey c !! key = Some r →
    events (receipt_snapshot r) `prefix_of` timeline c (caseUrn (receipt_snapshot r)) ∧
    list.last (events (receipt_snapshot r)) = Some (receipt_event r)
}.

Lemma timeline_with_snapshot c urn s urn' :
  timeline (with_snapshot c urn s) urn' = if decide (urn = urn') then events s else timeline c urn'.
Proof.
  unfold timeline, with_snapshot. simpl. destruct (decide (urn = urn')) as [<-|].
  - by rewrite lookup_insert_eq.
  - by rewrite lookup_insert_ne.
Qed.

(** One event with the next id, on one timeline. *)
Lemma client_ok_event c urn s e w :
  client_ok c → w ∈ event_words → eventId e = event_id w (nextEvent c + 1) →
  caseUrn s = urn → events s = timeline c urn ++ [e] →
  client_ok (with_snapshot (with_next_event c) urn s).
Proof.
  intros [Hurn Hiss Hdis Hrec] Hw He Hs Hev.
  assert (∀ urn' i e', timeline (with_snapshot (with_next_event c) urn s) urn' !! i = Some e' →
    timeline c urn' !! i = Some e' ∨ (urn' = urn ∧ i = length (timeline c urn) ∧ e' = e)) as Hnew.
  { intros urn' i e'. rewrite timeline_with_snapshot. destruct (decide (urn = urn')) as [<-|]; [|by left].
    rewrite Hev. intros [H|[Hi H]]%lookup_app_Some; [by left|right].
    apply list_lookup_singleton_Some in H as [H ->]. split; [done|]. split; [lia|done]. }
  assert (∀ urn' i e', timeline c urn' !! i = Some e' → eventId e' ≠ eventId e) as Hfresh.
  { intros urn' i e' (w' & n & Hw' & Hn & Hid)%Hiss. rewrite Hid, He. intros Heq%event_id_inj; [lia|done..]. }
  split.
  - intros urn' s'. simpl. intros [[<- <-]|[_ H]]%lookup_insert_Some; [done|by apply Hurn].
  - intros urn' i e' [(w' & n & Hw' & Hn & Hid)%Hiss|(-> & _ & ->)]%Hnew; simpl.
    + exists w', n. split; [done|]. split; [lia|done].
    + exists w, (nextEvent c + 1)%N. split; [done|]. split; [lia|done].
  - intros u u' i i' a a' [Ha|(-> & -> & ->)]%Hnew [Ha'|(-> & -> & ->)]%Hnew Hid.
    + by apply (Hdis _ _ _ _ _ _ Ha Ha').
    + by apply Hfresh in Ha.
    + by apply Hfresh in Ha'.
    + done.
  - intros key r Hr. simpl in Hr. destruct (Hrec key r Hr) as [Hp Hl]. split; [|done].
    rewrite timeline_with_snapshot. destruct (decide (urn = _)) as [Hu|]; [|done].
    rewrite Hev, Hu. by apply prefix_app_r.
Qed.

Lemma snapshotFor_spec urn now c :
  client_ok c →
  let '(s, c') := snapshotFor urn now c in
  client_ok c' ∧ snapshots c' !! urn = Some s ∧ receiptsByKey c' = receiptsByKey c ∧
  (∀ u, timeline c u `prefix_of` timeline c' u).
Proof.
  intros Hok. unfold snapshotFor. destruct (snapshots c !! urn) as [s|] eqn:E; [done|]. simpl.
  assert (timeline c urn = []) as Ht by (unfold timeline; by rewrite E).
  split; [|split; [apply lookup_insert_eq|split; [done|]]].
  - apply (client_ok_event _ _ _ (originalSubmissionEvent c).1 "original"); [done| |done|done|by rewrite Ht]. by left.
  - intros u. rewrite timeline_with_snapshot. destruct (decide (urn = u)) as [<-|]; [|done].
    rewrite Ht. apply prefix_nil.
Qed.

Lemma snapshotFor_lookup urn now c s c' : snapshotFor urn now c = (s, c') → snapshots c' !! urn = Some s.
Proof.
  unfold snapshotFor. destruct (snapshots c !! urn) as [s'|] eqn:E; simpl; intros; simplify_eq; [done|].
  apply lookup_insert_eq.
Qed.

Lemma snapshotFor_known urn now c s : snapshots c !! urn = Some s → snapshotFor urn now c = (s, c).
Proof. unfold snapshotFor. by intros ->. Qed.

(** What a submission can do. *)
Inductive submission_result `{!UuidPackage} (urn key created now word : string) (kind : LifecycleActionKind) (actor : string)
    (partyRef : option string) (guard : LifecycleActionSnapshot → outcome string LifecycleEventDetail)
    (c : StubLifecycleActionClient)
    : outcome thrown LifecycleActionReceipt → StubLifecycleActionClient → Prop :=
  | bad_key e : assertUuidV7IdempotencyKey key = Throws e → submission_result urn key created now word kind actor partyRef guard c (error e) c
  | remembered r : assertUuidV7IdempotencyKey key = Returns () → receiptsByKey c !! key = Some r →
      submission_result urn key created now word kind actor partyRef guard c (Returns r) c
  | refused s c1 e : assertUuidV7IdempotencyKey key = Returns () → receiptsByKey c !! key = None →
      snapshotFor urn created c = (s, c1) → guard s = Throws e →
      submission_result urn key created now word kind actor partyRef guard c (error e) c1
  | accepted s c1 d r c2 : assertUuidV7IdempotencyKey key = Returns () → receiptsByKey c !! key = None →
      snapshotFor urn created c = (s, c1) → guard s = Returns d →
      receipt_action r = kind → detail (receipt_event r) = d →
      eventId (receipt_event r) = event_id word (nextEvent c1 + 1) →
      receipt_snapshot r = {| caseUrn := caseUrn s; actions := actions s; events := events s ++ [receipt_event r];
                              updatedAt := Some now |} →
      c2 = with_receipt (with_snapshot (with_next_event c1) urn (receipt_snapshot r)) key r →
      submission_result urn key created now word kind actor partyRef guard c (Returns r) c2.

Lemma submission_spec `{!UuidPackage} urn key created now word kind actor partyRef guard c :
  submission_result urn key created now word kind actor partyRef guard c
    (submission urn kind actor partyRef guard word key created now c).1
    (submission urn kind actor partyRef guard word key created now c).2.
Proof.
  unfold submission. destruct (assertUuidV7IdempotencyKey key) as [[]|e] eqn:Hk; [|by constructor].
  destruct (receiptsByKey c !! key) as [r|] eqn:Hr; [by apply remembered|].
  destruct (snapshotFor urn created c) as [s c1] eqn:E. pose proof (snapshotFor_lookup _ _ _ _ _ E) as Hs.
  destruct (guard s) as [d|e] eqn:G; [|by eapply refused].
  simpl. unfold appendReceipt. rewrite (snapshotFor_known urn now (with_next_event c1) s) by done. simpl.
  by eapply accepted.
Qed.

Definition client_grows (c c' : StubLifecycleActionClient) : Prop :=
  (∀ urn, timeline c urn `prefix_of` timeline c' urn) ∧
  (∀ key r, receiptsByKey c !! key = Some r → receiptsByKey c' !! key = Some r).

#[export] Instance client_grows_preorder : PreOrder client_grows.
Proof.
  split; [by split|]. intros c1 c2 c3 [H1 R1] [H2 R2]. split; [|by eauto].
  intros urn. by transitivity (timeline c2 urn).
Qed.

Section invariant.
Context `{!UuidPackage}.

Lemma submission_ok urn key created now word kind actor partyRef guard c :
  client_ok c → word ∈ event_words →
  client_ok (submission urn kind actor partyRef guard word key created now c).2 ∧
  client_grows c (submission urn kind actor partyRef guard word key created now c).2.
Proof.
  intros Hok Hw. pose proof (snapshotFor_spec urn created c Hok) as Hs.
  destruct (submission_spec urn key created now word kind actor partyRef guard c)
    as [| |s c1 e _ _ E _|s c1 d r c2 _ Hnone E _ _ _ Hid Hsn ->]; [done|done|rewrite E in Hs..].
  - destruct Hs as (Hok1 & _ & Hr & Ht). split; [done|]. split; [done|]. by rewrite Hr.
  - destruct Hs as (Hok1 & Hs & Hr & Ht).
    assert (timeline c1 urn = events s) as Htl by (unfold timeline; by rewrite Hs).
    assert (caseUrn s = urn) as Hurn by (by eapply ok_urn).
    assert (client_ok (with_snapshot (with_next_event c1) urn (receipt_snapshot r))) as Hok2.
    { eapply client_ok_event; [done|exact Hw|exact Hid| |]; rewrite Hsn; [done|by rewrite Htl]. }
    assert (∀ u, timeline (with_receipt (with_snapshot (with_next_event c1) urn (receipt_snapshot r)) key r) u =
                 timeline (with_snapshot (with_next_event c1) urn (receipt_snapshot r)) u) as Heq by done.
    split; [split|split].
    + apply Hok2.
    + apply Hok2.
    + apply Hok2.
    + intros k r' Hr'. simpl in Hr'. apply lookup_insert_Some in Hr' as [[<- <-]|[_ Hr']]; [|by apply Hok2 in Hr'].
      rewrite Heq, Hsn, timeline_with_snapshot. simpl. rewrite decide_True by done.
      split; [done|]. apply last_snoc.
    + intros u. rewrite Heq, timeline_with_snapshot. destruct (decide (urn = u)) as [<-|]; [|apply Ht].
      rewrite Hsn. simpl. rewrite <- Htl. apply prefix_app_r, Ht.
    + intros k r' Hr'. simpl. rewrite Hr.
      rewrite lookup_insert_ne; [exact Hr'|]. intros <-. congruence.
Qed.

Lemma lifecycle_step_submission key c o c' :
  lifecycle_step key c o c' →
  ∃ urn kind actor partyRef guard word created now, word ∈ event_words ∧
    submission urn kind actor partyRef guard word key created now c = (o, c').
Proof.
  unfold event_words. intros [request created now ??|request created now ??|request created now ??];
    eexists _, _, _, _, _, _, _, _; (split; [|eassumption]); rewrite !elem_of_cons; tauto.
Qed.

Lemma lifecycle_call_ok c c' : client_ok c → lifecycle_call c c' → client_ok c' ∧ client_grows c c'.
Proof.
  intros Hok (key & o & Hc). apply lifecycle_step_submission in Hc as (urn & kind & actor & partyRef & guard & word & created & now & Hw & Hc).
  pose proof (submission_ok urn key created now word kind actor partyRef guard c Hok Hw) as Hs. by rewrite Hc in Hs.
Qed.

Lemma lifecycle_calls_ok c c' : client_ok c → lifecycle_calls c c' → client_ok c' ∧ client_grows c c'.
Proof.
  intros Hok Hc. revert Hok. induction Hc as [c|c c1 c' H1 Hc IH]; intros Hok; [done|].
  destruct (lifecycle_call_ok c c1 Hok H1) as [Hok1 Hg]. destruct (IH Hok1) as [Hok' Hg'].
  split; [done|]. by transitivity c1.
Qed.

Lemma fresh_client_ok fieldSet signers : client_ok (stubLifecycleActionClient [] fieldSet signers).
Proof. split; unfold timeline; simpl; intros *; rewrite ?lookup_empty; done. Qed.
End invariant.

(** ** What the guards ask for *)

Definition act_open (s : LifecycleActionSnapshot) (kind : LifecycleActionKind) (found : LifecycleActionAvailability) : Prop :=
  List.find (λ c, bool_decide (av_action c = kind)) (actions s) = Some found ∧
  av_enabled found = true ∧ is_closed (av_window found) = false.

Definition reason_given (reason : option string) : Prop := ∃ t, reason = Some t ∧ trim_empty t = false.

Lemma is_flag_true o : is_flag o = true ↔ o = Some true.
Proof. destruct o as [[]|]; simpl; split; congruence. Qed.

Lemma assertActionEnabled_Returns s kind found :
  assertActionEnabled s kind = Returns found ↔ act_open s kind found.
Proof.
  unfold assertActionEnabled, act_open. destruct (List.find _ _) as [f|]; [|split; [done|by intros [? _]]].
  rewrite !seq_Returns, !throw_when_Returns, negb_false_iff.
  split; [intros (? & ? & ?)|intros (? & ? & ?)]; by simplify_eq.
Qed.

Lemma assertReason_Returns a reason m u :
  assertReasonIfRequired a reason m = Returns u ↔ (av_requiresReason a = Some true → reason_given reason).
Proof.
  unfold assertReasonIfRequired, reason_given. rewrite throw_when_Returns, andb_false_iff, <- is_flag_true.
  destruct (is_flag (av_requiresReason a)); [|split; [done|by left]].
  split; [intros [|H] _; [done|]|intros H; right].
  - destruct reason as [t|]; [by exists t|done].
  - by destruct (H eq_refl) as (? & -> & ?).
Qed.

Lemma assertEvidence_Returns a refs u :
  assertEvidenceIfRequired a refs = Returns u ↔ (av_requiresEvidence a = Some true → default [] refs ≠ []).
Proof.
  unfold assertEvidenceIfRequired. rewrite throw_when_Returns, andb_false_iff, bool_decide_eq_false, <- is_flag_true.
  rewrite length_zero_iff_nil. destruct (is_flag _); [|split; [done|by left]].
  split; [by intros [|]|]. intros H. right. by apply H.
Qed.

Lemma assertChangedFields_Returns fields u :
  assertChangedFields fields = Returns u ↔
  fields ≠ [] ∧ ∀ f, f ∈ fields → cf_path f ≠ "" ∧ cf_label f ≠ "".
Proof.
  unfold assertChangedFields. rewrite seq_Returns, throw_when_Returns, for_each_Returns, bool_decide_eq_false.
  rewrite length_zero_iff_nil, Forall_forall. f_equiv. apply forall_proper. intros f.
  rewrite throw_when_Returns, orb_false_iff, !negb_false_iff, !nonempty_spec. done.
Qed.

Lemma assertPartyScope_Returns a scope approved u :
  assertPartyScope a scope approved = Returns u ↔
  (match scope with Some s => Some s | None => av_partyScope a end = Some AllPartiesMustAgree → approved = Some true).
Proof.
  unfold assertPartyScope. rewrite throw_when_Returns, andb_false_iff, bool_decide_eq_false, negb_false_iff, is_flag_true.
  destruct (decide (match scope with Some s => Some s | None => av_partyScope a end = Some AllPartiesMustAgree)); tauto.
Qed.

Lemma assertRescission_Returns a requested u :
  assertRescissionPolicy a requested = Returns u ↔
  (requested = Some true → av_rescissionIntent a = true ∧ av_requiresIssuerAcceptance a = Some true).
Proof.
  unfold assertRescissionPolicy. rewrite <- !is_flag_true. destruct (is_flag requested), u; simpl; [|done].
  rewrite throw_when_Returns, orb_false_iff, !negb_false_iff. tauto.
Qed.

Lemma assertSignerScope_Returns a actor signers u :
  assertSignerScope a actor signers = Returns u ↔
  (av_signerOnly a = Some true → signers ≠ [] → ∃ r, actor = Some r ∧ r ≠ "" ∧ (r ∈ signers)).
Proof.
  unfold assertSignerScope. rewrite <- !is_flag_true. destruct (is_flag (av_signerOnly a)), u; simpl; [|done].
  case_bool_decide as Hs; [apply length_zero_iff_nil in Hs; by subst|]. rewrite length_zero_iff_nil in Hs.
  rewrite throw_when_Returns. destruct actor as [r|]; [|split; [done|]; intros H; by destruct H as (? & ? & _)].
  rewrite orb_false_iff, !negb_false_iff, nonempty_spec, str_in_spec. split; [by eauto|].
  intros H. by destruct H as (? & [= <-] & ? & ?).
Qed.

(** A correction the issuer would take as one: it stays inside the declared
    fields, before the decision, and gives no field a first value. *)
Definition narrow_correction (declared : list string) (request : LifecycleCorrectionRequest) : Prop :=
  (∀ f, f ∈ cr_changedFields request → cf_path f ∈ declared) ∧
  cr_caseDecisionReached request ≠ Some true ∧
  (∀ f, f ∈ cr_changedFields request → cf_originalValue f = None → cf_correctedValue f = None).

Lemma isNarrowCorrection_spec declared request :
  isNarrowCorrection declared request = true ↔ narrow_correction declared request.
Proof.
  unfold isNarrowCorrection, narrow_correction, introducesNewField.
  rewrite !andb_true_iff, !negb_true_iff, forallb_forall, <- not_true_iff_false, is_flag_true.
  rewrite <- not_true_iff_false, existsb_exists. setoid_rewrite str_in_spec. setoid_rewrite <- list_elem_of_In.
  rewrite Logic.and_assoc. f_equiv. f_equiv. split.
  - intros H f Hf Ho. destruct (cf_correctedValue f) eqn:E; [|done]. destruct H. exists f. by rewrite Ho, E.
  - intros H (f & Hf & He). specialize (H f Hf). destruct (cf_originalValue f); [done|].
    destruct (cf_correctedValue f); [|done]. by specialize (H eq_refl).
Qed.

Definition correction_permitted (c : StubLifecycleActionClient) (request : LifecycleCorrectionRequest)
    (found : LifecycleActionAvailability) : Prop :=
  (cr_changedFields request ≠ [] ∧ ∀ f, f ∈ cr_changedFields request → cf_path f ≠ "" ∧ cf_label f ≠ "") ∧
  (av_requiresReason found = Some true → reason_given (cr_reason request)) ∧
  (av_requiresEvidence found = Some true → default [] (cr_evidenceRefs request) ≠ []) ∧
  declared_field_set c found request ≠ [].

Lemma correction_guard_Returns c request s d :
  correction_guard c request s = Returns d ↔
  ∃ found, act_open s Correct found ∧ correction_permitted c request found ∧
    d = CorrectionEvent
          (if isNarrowCorrection (declared_field_set c found request) request then AsCorrection else AsAmendment)
          (cr_changedFields request) (protected_text (cr_reason request)) (cr_evidenceRefs request).
Proof.
  unfold correction_guard, correction_permitted. rewrite bind_Returns. f_equiv. intros found.
  rewrite assertActionEnabled_Returns, !seq_Returns, assertChangedFields_Returns, assertReason_Returns.
  rewrite assertEvidence_Returns, throw_when_Returns, bool_decide_eq_false, length_zero_iff_nil.
  rewrite !Logic.and_assoc. split; intros (? & ? & ? & ? & ? & ? & ?); simplify_eq; done.
Qed.

Definition withdrawal_permitted (request : LifecycleWithdrawalRequest) (found : LifecycleActionAvailability) : Prop :=
  (av_requiresReason found = Some true → reason_given (wr_reason request)) ∧
  (match wr_partyScope request with Some s => Some s | None => av_partyScope found end = Some AllPartiesMustAgree →
   wr_allPartiesApproved request = Some true) ∧
  (wr_rescissionRequested request = Some true →
   av_rescissionIntent found = true ∧ av_requiresIssuerAcceptance found = Some true).

Lemma withdrawal_guard_accepts request s :
  (∃ d, withdrawal_guard request s = Returns d) ↔
  ∃ found, act_open s Withdraw found ∧ withdrawal_permitted request found.
Proof.
  unfold withdrawal_guard, withdrawal_permitted. setoid_rewrite bind_Returns. setoid_rewrite assertActionEnabled_Returns.
  setoid_rewrite seq_Returns. setoid_rewrite seq_Returns. setoid_rewrite seq_Returns.
  setoid_rewrite assertReason_Returns. setoid_rewrite assertPartyScope_Returns. setoid_rewrite assertRescission_Returns.
  split; [intros (d & f & ? & ? & ? & ? & _)|intros (f & ? & ? & ? & ?)]; by eauto 10.
Qed.

Definition dispute_permitted (signers : list string) (request : LifecycleDisputeRequest)
    (found : LifecycleActionAvailability) : Prop :=
  (av_signerOnly found = Some true → signers ≠ [] → ∃ r, dr_actorRef request = Some r ∧ r ≠ "" ∧ (r ∈ signers)) ∧
  trim_empty (dr_statement request) = false.

Lemma dispute_guard_accepts signers request s :
  (∃ d, dispute_guard signers request s = Returns d) ↔
  ∃ found, act_open s Dispute found ∧ dispute_permitted signers request found.
Proof.
  unfold dispute_guard, dispute_permitted. setoid_rewrite bind_Returns. setoid_rewrite assertActionEnabled_Returns.
  setoid_rewrite seq_Returns. setoid_rewrite seq_Returns. setoid_rewrite assertSignerScope_Returns.
  setoid_rewrite throw_when_Returns.
  split; [intros (d & f & ? & ? & ? & _)|intros (f & ? & ? & ?)]; by eauto 10.
Qed.

(** The frame, on a case that is known and a key that is fresh. *)
Lemma submission_exact `{!UuidPackage} urn key created now word kind actor partyRef guard c s :
  assertUuidV7IdempotencyKey key = Returns () → receiptsByKey c !! key = None → snapshots c !! urn = Some s →
  let '(o, c') := submission urn kind actor partyRef guard word key created now c in
  match o with
  | Throws _ => c' = c ∧ ∃ e, guard s = Throws e
  | Returns r => guard s = Returns (detail (receipt_event r)) ∧ receiptsByKey c' !! key = Some r ∧
      timeline c' urn = timeline c urn ++ [receipt_event r] ∧ (∀ u, u ≠ urn → timeline c' u = timeline c u)
  end.
Proof.
  intros Hk Hr Hs. pose proof (submission_spec urn key created now word kind actor partyRef guard c) as Hsp.
  destruct (submission urn kind actor partyRef guard word key created now c) as [o c']. simpl in Hsp.
  destruct Hsp as [? Hx|? _ Hx|s' c1 e _ _ E G|s' c1 d r c2 _ _ E G _ <- _ Hsn ->]; [congruence..| |];
    rewrite (snapshotFor_known urn created c s Hs) in E; simplify_eq; [by split; [|exists e]|].
  split; [done|]. split; [apply lookup_insert_eq|].
  assert (∀ u c, timeline (with_receipt c key r) u = timeline c u) as Heq by done.
  split; [|intros u Hu]; rewrite Heq, timeline_with_snapshot.
  - rewrite decide_True, Hsn by done. simpl. unfold timeline. by rewrite Hs.
  - by rewrite decide_False.
Qed.

Section theorems.
Context `{!UuidPackage}.

(** From a client with no initial snapshot, along any sequence of submissions: a case's
    timeline is only ever appended to; the event a receipt was given for stays
    where the receipt's own snapshot shows it, at the end of what the timeline
    was; and no two events of the client, on one timeline or on two, carry the
    same event id. *)
Theorem lifecycle_timelines fieldSet signers c c' :
  lifecycle_calls (stubLifecycleActionClient [] fieldSet signers) c → lifecycle_calls c c' →
  (∀ urn, timeline c urn `prefix_of` timeline c' urn) ∧
  (∀ key r, receiptsByKey c !! key = Some r →
     receiptsByKey c' !! key = Some r ∧
     events (receipt_snapshot r) `prefix_of` timeline c' (caseUrn (receipt_snapshot r)) ∧
     list.last (events (receipt_snapshot r)) = Some (receipt_event r)) ∧
  (∀ urn urn' i i' e e',
     timeline c' urn !! i = Some e → timeline c' urn' !! i' = Some e' → eventId e = eventId e' →
     urn = urn' ∧ i = i').
Proof.
  intros H0 H1. destruct (lifecycle_calls_ok _ _ (fresh_client_ok fieldSet signers) H0) as [Hok _].
  destruct (lifecycle_calls_ok _ _ Hok H1) as [Hok' [Ht Hr]].
  split; [done|]. split; [|apply Hok']. intros key r Hk%Hr. split; [done|]. by apply (ok_receipts _ Hok' key).
Qed.

(** Once a submission returned a receipt, every later submission under
    its key, of any kind and for any request, returns the same receipt and
    changes nothing. *)
Theorem lifecycle_key_remembered fieldSet signers key r c0 c1 c2 o c3 :
  lifecycle_calls (stubLifecycleActionClient [] fieldSet signers) c0 →
  lifecycle_step key c0 (Returns r) c1 → lifecycle_calls c1 c2 → lifecycle_step key c2 o c3 →
  o = Returns r ∧ c3 = c2.
Proof.
  intros H0 H1 H2 H3. destruct (lifecycle_calls_ok _ _ (fresh_client_ok fieldSet signers) H0) as [Hok _].
  assert (lifecycle_call c0 c1) as [Hok1 _]%lifecycle_call_ok by (by exists key, (Returns r)); [|done].
  destruct (lifecycle_calls_ok _ _ Hok1 H2) as [_ [_ Hr]].
  apply lifecycle_step_submission in H1 as (urn & kind & actor & partyRef & guard & word & created & now & _ & E).
  pose proof (submission_spec urn key created now word kind actor partyRef guard c0) as Hs. rewrite E in Hs.
  apply lifecycle_step_submission in H3 as (urn' & kind' & actor' & pr' & guard' & word' & created' & now' & _ & E').
  unfold submission in E'. 
  assert (assertUuidV7IdempotencyKey key = Returns () ∧ receiptsByKey c1 !! key = Some r) as [Hk Hc1].
  { simpl in Hs. inversion Hs; subst; (split; [done|]); [done|]. simpl. apply lookup_insert_eq. }
  rewrite Hk, (Hr _ _ Hc1) in E'. by simplify_eq.
Qed.
(** On a known case and with a fresh key, a correction is accepted
    exactly when the act is open, it names at least one field, each with a
    path and a label, reason and evidence are there where the issuer asks for
    them, and a correctable set is declared.  A refused one changes nothing.
    An accepted one adds the requested changes to the timeline, as a correction
    when it is narrow and as an amendment otherwise. *)
Theorem lifecycle_correction_exact c request key created now s :
  assertUuidV7IdempotencyKey key = Returns () → receiptsByKey c !! key = None →
  snapshots c !! cr_caseUrn request = Some s →
  let '(o, c') := submitCorrection request key created now c in
  ((∃ r, o = Returns r) ↔ ∃ found, act_open s Correct found ∧ correction_permitted c request found) ∧
  (∀ e, o = Throws e → c' = c) ∧
  (∀ r, o = Returns r →
     timeline c' (cr_caseUrn request) = timeline c (cr_caseUrn request) ++ [receipt_event r] ∧
     ∃ found recordedAs, act_open s Correct found ∧
       detail (receipt_event r) = CorrectionEvent recordedAs (cr_changedFields request)
         (protected_text (cr_reason request)) (cr_evidenceRefs request) ∧
       (recordedAs = AsCorrection ↔ narrow_correction (declared_field_set c found request) request)).
Proof.
  intros Hk Hr Hs. unfold submitCorrection.
  pose proof (submission_exact (cr_caseUrn request) key created now "correction" Correct "Respondent"
    (cr_partyRef request) (correction_guard c request) c s Hk Hr Hs) as Hsub.
  destruct (submission _ _ _ _ _ _ _ _ _ c) as [[r|e] c'].
  - destruct Hsub as ((found & Ho & Hp & Hd)%correction_guard_Returns & _ & Ht & _).
    split; [split; [by exists found|by eauto]|]. split; [done|]. intros r' [= <-]. split; [done|].
    eexists found, _. split; [done|]. split; [done|]. rewrite <- isNarrowCorrection_spec.
    by destruct (isNarrowCorrection _ _).
  - destruct Hsub as [-> [e' He]]. split; [|done]. split; [by intros [? ?]|].
    intros (found & Ho & Hp). exfalso. pose proof (proj2 (correction_guard_Returns c request s _)
      (ex_intro _ found (conj Ho (conj Hp eq_refl)))) as Hg. congruence.
Qed.

(** A withdrawal needs the act open, the reason where one is required, every
    party where all must agree, and an issuer who takes rescissions where one
    is requested. *)
Theorem lifecycle_withdrawal_exact c request key created now s :
  assertUuidV7IdempotencyKey key = Returns () → receiptsByKey c !! key = None →
  snapshots c !! wr_caseUrn request = Some s →
  let '(o, c') := submitWithdrawal request key created now c in
  ((∃ r, o = Returns r) ↔ ∃ found, act_open s Withdraw found ∧ withdrawal_permitted request found) ∧
  (∀ e, o = Throws e → c' = c).
Proof.
  intros Hk Hr Hs. unfold submitWithdrawal.
  pose proof (submission_exact (wr_caseUrn request) key created now "withdrawal" Withdraw "Applicant"
    (wr_partyRef request) (withdrawal_guard request) c s Hk Hr Hs) as Hsub.
  pose proof (withdrawal_guard_accepts request s) as Hg.
  destruct (submission _ _ _ _ _ _ _ _ _ c) as [[r|e] c']; rewrite <- Hg.
  - destruct Hsub as (-> & _). split; [|done]. split; eauto.
  - destruct Hsub as [-> [e' ->]]. split; [|done]. by split; intros [? ?].
Qed.

(** A dispute needs the act open, a signer where only signers may dispute and
    the signers are known, and a statement. *)
Theorem lifecycle_dispute_exact c request key created now s :
  assertUuidV7IdempotencyKey key = Returns () → receiptsByKey c !! key = None →
  snapshots c !! dr_caseUrn request = Some s →
  let '(o, c') := submitDispute request key created now c in
  ((∃ r, o = Returns r) ↔ ∃ found, act_open s Dispute found ∧ dispute_permitted (signerRefs c) request found) ∧
  (∀ e, o = Throws e → c' = c).
Proof.
  intros Hk Hr Hs. unfold submitDispute.
  pose proof (submission_exact (dr_caseUrn request) key created now "dispute" Dispute "Signer"
    (dr_partyRef request) (dispute_guard (signerRefs c) request) c s Hk Hr Hs) as Hsub.
  pose proof (dispute_guard_accepts (signerRefs c) request s) as Hg.
  destruct (submission _ _ _ _ _ _ _ _ _ c) as [[r|e] c']; rewrite <- Hg.
  - destruct Hsub as (-> & _). split; [|done]. split; eauto.
  - destruct Hsub as [-> [e' ->]]. split; [|done]. by split; intros [? ?].
Qed.
End theorems.

(** ** Samples *)

Section samples.
#[local] Existing Instance sample_uuid.

Definition sample_correction : LifecycleCorrectionRequest :=
  {| cr_caseUrn := "urn:case:1"; cr_actorRef := None; cr_partyRef := None;
     cr_changedFields := [{| cf_path := "/fullName"; cf_label := "Full name";
        cf_originalValue := Some {| text := "Ada"; accessClass := None |};
        cf_correctedValue := Some {| text := "Ada L."; accessClass := None |} |}];
     cr_correctableFieldSet := None; cr_caseDecisionReached := None; cr_reason := Some "typo";
     cr_evidenceRefs := None |}.

Definition sample_withdrawal : LifecycleWithdrawalRequest :=
  {| wr_caseUrn := "urn:case:2"; wr_actorRef := None; wr_partyRef := None; wr_reason := Some "moved"; wr_rescissionRequested := None;
     wr_partyScope := None; wr_allPartiesApproved := None |}.

Definition key_one : string := "018f0000-0000-7000-8000-000000000001".
Definition key_three : string := "018f0000-0000-7000-8000-000000000003".
Definition key_two : string := "018f0000-0000-7000-8000-000000000002".

Definition client0 : StubLifecycleActionClient := stubLifecycleActionClient [] None None.
Definition client1 : StubLifecycleActionClient := (submitCorrection sample_correction key_one "t0" "t1" client0).2.
Definition client2 : StubLifecycleActionClient := (submitWithdrawal sample_withdrawal key_two "t2" "t3" client1).2.

Lemma sample_call1 : lifecycle_calls client0 client1.
Proof. apply rtc_once. eexists key_one, _. eapply step_correction. apply surjective_pairing. Qed.

Lemma sample_call2 : lifecycle_calls client1 client2.
Proof. apply rtc_once. eexists key_two, _. eapply step_withdrawal. apply surjective_pairing. Qed.

Example sample_ids :
  eventId <$> (timeline client2 "urn:case:1" ++ timeline client2 "urn:case:2") =
  ["evt-original-000001"; "evt-correction-000002"; "evt-original-000003"; "evt-withdrawal-000004"].
Proof. vm_compute. reflexivity. Qed.

Lemma lifecycle_timelines_witness :
  length (timeline client1 "urn:case:1") = 2 ∧ is_Some (receiptsByKey client1 !! key_one) ∧
  timeline client1 "urn:case:1" `prefix_of` timeline client2 "urn:case:1".
Proof.
  split; [vm_compute; reflexivity|]. split; [vm_compute; by eexists|].
  exact (proj1 (lifecycle_timelines None None client1 client2 sample_call1 sample_call2) "urn:case:1").
Defined.

Lemma sample_receipt : ∃ r, submitCorrection sample_correction key_one "t0" "t1" client0 = (Returns r, client1).
Proof.
  destruct (submitCorrection sample_correction key_one "t0" "t1" client0) as [[r|e] c] eqn:E.
  - exists r. unfold client1. by rewrite E.
  - exfalso. apply (f_equal (λ p, match p.1 with Returns _ => true | _ => false end)) in E.
    vm_compute in E. done.
Qed.

Lemma lifecycle_key_remembered_witness :
  ∃ r, submitWithdrawal sample_withdrawal key_one "t4" "t5" client2 = (Returns r, client2).
Proof.
  destruct sample_receipt as [r Hr]. exists r.
  destruct (submitWithdrawal sample_withdrawal key_one "t4" "t5" client2) as [o c3] eqn:E.
  destruct (lifecycle_key_remembered None None key_one r client0 client1 client2 o c3
    (rtc_refl _ _) (step_correction key_one client0 sample_correction "t0" "t1" _ _ Hr) sample_call2
    (step_withdrawal key_one client2 sample_withdrawal "t4" "t5" _ _ E)) as [-> ->].
  reflexivity.
Defined.

Lemma lifecycle_correction_exact_witness :
  ∃ s, snapshots client2 !! "urn:case:1" = Some s ∧
    ((∃ r, (submitCorrection sample_correction key_three "t6" "t7" client2).1 = Returns r) ↔
     ∃ found, act_open s Correct found ∧ correction_permitted client2 sample_correction found).
Proof.
  destruct (snapshots client2 !! "urn:case:1") as [s|] eqn:E; [|exfalso; vm_compute in E; discriminate E].
  exists s. split; [reflexivity|].
  assert (assertUuidV7IdempotencyKey key_three = Returns ()) as Hk by (vm_compute; reflexivity).
  assert (receiptsByKey client2 !! key_three = None) as Hf by (vm_compute; reflexivity).
  pose proof (lifecycle_correction_exact client2 sample_correction key_three "t6" "t7" s Hk Hf E) as Hx.
  destruct (submitCorrection sample_correction key_three "t6" "t7" client2) as [o c'].
  exact (proj1 Hx).
Defined.
End samples.
