(* ===== verification/ResponseAction.v ===== *)
(** * Response actions: data, admission and evidence

    The data of src/src/ports/response-signing.ts, application-lifecycle.ts and
    response-completion.ts, the wire checks of src/src/shared/task-draft-wire.ts,
    and the checks of src/src/shared/response-action-controller.ts that read no
    controller state: which service request an admitted action may make
    ([requestFor]) and what evidence a saved draft must carry
    ([assertSavedResponseDraftEvidence]).  The form engine, the canonical JSON
    package and the completion strategy are parameters. *)

From S2P Require Import Prelude JsValue IdempotencyKey DraftKeys.
From Stdlib Require Import Ascii.

(** ** Values *)

(** The npm package [canonicalize]; [undefined] has no canonical form. *)
Class Canonicalize := canonicalize : jsv → option string.

Definition same `{!Canonicalize} (a b : jsv) : bool := bool_decide (canonicalize a = canonicalize b).

#[export] Instance jsnum_eq_dec : EqDecision jsnum.
Proof. solve_decision. Defined.

Definition num_eq (a b : jsnum) : bool := bool_decide (a = b) && negb (bool_decide (a = NOther "NaN")).

(** [a === b] of values that are no objects. *)
Definition strict_eq (a b : jsv) : bool :=
  match a, b with
  | JUndef, JUndef | JNull, JNull => true
  | JBool x, JBool y => Bool.eqb x y
  | JNum x, JNum y => num_eq x y
  | JStr x, JStr y => String.eqb x y
  | _, _ => false
  end.

(** [Number.isSafeInteger(n)], with the integer. *)
Definition safe_integer (n : jsnum) : option Z :=
  match n with NInt z => if (Z.abs z <=? 9007199254740991)%Z then Some z else None | NOther _ => None end.

Definition opt_str (o : option string) : jsv := match o with Some s => JStr s | None => JUndef end.
Definition opt_json (o : option jsv) : jsv := default JUndef o.

(** A member that is left out when it is [undefined]. *)
Definition opt_member (k : string) (o : option jsv) : jsobj := match o with Some v => [(k, v)] | None => [] end.

(** [delete o[k]] *)
Definition obj_delete (k : string) (v : jsv) : jsv :=
  match v with JObj o => JObj (List.filter (λ e, negb (String.eqb k e.1)) o) | _ => v end.

(** [/^[a-f0-9]{64}$/.test(s)] *)
Definition is_hex64 (s : string) : bool :=
  (String.length s =? 64)%nat && forallb is_hex (String.list_ascii_of_string s).

(** [/^sha256:[a-f0-9]{64}$/.test(v)] *)
Definition is_sha256 (v : jsv) : bool :=
  match v with JStr s => starts_with "sha256:" s && is_hex64 (String.substring 7 (String.length s - 7) s) | _ => false end.

(** ** Ports *)

Definition draftKey_json (k : DraftKey) : jsv :=
  JObj ([("formUrl", JStr (key_formUrl k))] ++ opt_member "formVersion" (JStr <$> key_formVersion k)
    ++ opt_member "subjectRef" (JStr <$> key_subjectRef k) ++ opt_member "partyRef" (JStr <$> key_partyRef k)).

Record DraftRef : Set := { draft_id : string; draft_version : jsnum; draft_responseHash : string }.

Definition draft_json (d : DraftRef) : jsv :=
  JObj [("id", JStr (draft_id d)); ("version", JNum (draft_version d)); ("responseHash", JStr (draft_responseHash d))].

Record VerifiedDraftEvidence : Set := {
  ev_draft_id : string;
  ev_form_version_id : string;
  ev_subject_ref : string;
  ev_draft_version : jsnum;
  ev_draft_state : jsv;
  ev_canonical_response : jsv;
  ev_status : string;
  ev_taskDraft : jsv
}.

Definition evidence_json (e : VerifiedDraftEvidence) : jsv :=
  JObj ([("draft_id", JStr (ev_draft_id e)); ("form_version_id", JStr (ev_form_version_id e));
         ("subject_ref", JStr (ev_subject_ref e)); ("draft_version", JNum (ev_draft_version e));
         ("draft_state", ev_draft_state e); ("canonical_response", ev_canonical_response e);
         ("status", JStr (ev_status e)); ("taskDraft", ev_taskDraft e)]).

Record SavedResponseDraft : Set := {
  saved_draftKey : DraftKey;
  saved_response : jsv;
  saved_draft : DraftRef;
  saved_actor : string;
  saved_evidence : VerifiedDraftEvidence
}.

(** [interface PreparedResponseSigning extends SavedResponseDraft] *)
Record PreparedResponseSigning : Set := { prepared_saved :> SavedResponseDraft; content : jsv }.

Record SignatureVerification : Set := { verification_mode : string; provider : string; keyId : string }.

Record SignedResponseSigning : Set := {
  signed_prepared :> PreparedResponseSigning;
  verification : SignatureVerification
}.

Inductive RestoredPendingResponseSigning : Set :=
  | RestoredPrepared (preparation : PreparedResponseSigning) (operationId : string)
  | RestoredSigned (signed : SignedResponseSigning).

Record ApplicationCaseReceipt : Set := {
  caseLedgerId : string;
  caseReference : string;
  receipt_draftRef : string;
  receipt_submitted : bool
}.

Definition receipt_json (r : ApplicationCaseReceipt) : jsv :=
  JObj [("caseLedgerId", JStr (caseLedgerId r)); ("caseReference", JStr (caseReference r));
        ("draftRef", JStr (receipt_draftRef r));
        ("status", JStr (if receipt_submitted r then "submitted" else "in-progress"))].

Record ApplicationLifecycleCapabilities : Set := {
  earlyCaseCreation : bool;
  persistentSaving : bool;
  capabilities_formVersionId : string
}.

Inductive CompletionKind : Set := IntakeCompletion | TaskCompletion.

#[export] Instance CompletionKind_eq_dec : EqDecision CompletionKind.
Proof. solve_decision. Defined.

Record ResponseCompletionResult : Set := {
  result_kind : CompletionKind;
  result_evidence : jsv;
  result_value : jsv
}.

(** ** Roles, reasons and failures *)

Inductive ResponseActionRole : Set :=
  | StartApplication | SaveInitial | SaveOwned | Prepare | Sign | Submit | Paper.

#[export] Instance ResponseActionRole_eq_dec : EqDecision ResponseActionRole.
Proof. solve_decision. Defined.

Definition role_string (r : ResponseActionRole) : string :=
  match r with
  | StartApplication => "startApplication" | SaveInitial => "saveInitial" | SaveOwned => "saveOwned"
  | Prepare => "prepare" | Sign => "sign" | Submit => "submit" | Paper => "paper"
  end.

Inductive ResponseActionControllerReason : Set :=
  | ActionUnadmitted | ContextMismatch | ResponseInvalid | BranchMismatch | OutputsUnsupported | ReviewUnready
  | OperationConflict | OperationPending | ContextObsolete | RestorationUnresolved | PortFailed
  | CompletionOutcomeUnknown.

#[export] Instance ResponseActionControllerReason_eq_dec : EqDecision ResponseActionControllerReason.
Proof. solve_decision. Defined.

(** What an operation may fail with: a [ControllerRefusal], a
    [ResponseCompletionRefusal], a [TaskCompletionOutcomeUnknown], or whatever
    else a port, a package or the language throws. *)
Inductive failure : Set :=
  | ControllerRefusal (code : ResponseActionControllerReason)
  | ResponseCompletionRefusal (code : ResponseActionControllerReason)
  | TaskCompletionOutcomeUnknown
  | OtherFailure (message : string).

Record QualifiedResponseActionRole : Set := {
  role_document : jsv;
  role_artifactRef : string;
  role_artifactDigest : string;
  role_actionRef : string;
  role_requestRef : option string;
  role_widgetSource : option jsv;
  role_responseSource : option jsv
}.

Definition role_json (a : QualifiedResponseActionRole) : jsv :=
  JObj ([("document", role_document a); ("artifactRef", JStr (role_artifactRef a));
         ("artifactDigest", JStr (role_artifactDigest a)); ("actionRef", JStr (role_actionRef a))]
    ++ opt_member "requestRef" (JStr <$> role_requestRef a) ++ opt_member "widgetSource" (role_widgetSource a)
    ++ opt_member "responseSource" (role_responseSource a)).

Record ResponseActionControllerContext : Set := {
  definition : jsv;
  draftKey : DraftKey;
  formId : string;
  formVersionId : string;
  responseId : string;
  context_generation : string;
  expectedActor : option string
}.

Definition context_json (c : ResponseActionControllerContext) : jsv :=
  JObj ([("definition", definition c); ("draftKey", draftKey_json (draftKey c));
         ("publication", JObj [("formId", JStr (formId c)); ("formVersionId", JStr (formVersionId c))]);
         ("responseId", JStr (responseId c)); ("generation", JStr (context_generation c))]
    ++ opt_member "expectedActor" (JStr <$> expectedActor c)).

(** ** The wire checks of a task draft *)

Definition has_sorted_keys (v : jsv) (keys : list string) : bool :=
  bool_decide (merge_sort String.le (obj_keys (props_of v)) = keys).

(** [/^\/(?:[^~/]|~[01])+$/.test(s)], after the leading slash. *)
Fixpoint pointer_segment (l : list ascii) : bool :=
  match l with
  | [] => true
  | a :: l' =>
      if bool_decide (a = "/"%char) then false
      else if bool_decide (a = "~"%char) then
        match l' with b :: l'' => (bool_decide (b = "0"%char) || bool_decide (b = "1"%char)) && pointer_segment l'' | [] => false end
      else pointer_segment l'
  end.

Definition is_top_pointer (s : string) : bool :=
  match String.list_ascii_of_string s with
  | a :: (_ :: _) as l => bool_decide (a = "/"%char) && pointer_segment (tail l)
  | _ => false
  end.

Definition invalid_prefill : failure := OtherFailure "Invalid task prefill metadata".

Definition check_prefill_path (seen : list string) (path : jsv) : outcome failure (list string) :=
  match path with
  | JStr s =>
      throw_when ((1024 <? String.length s)%nat || negb (is_top_pointer s) || str_in s seen) invalid_prefill ;;
      throw_when (128 <? length (s :: seen))%nat invalid_prefill ;;
      Returns (s :: seen)
  | _ => Throws invalid_prefill
  end.

Definition check_prefill_paths (seen : list string) (paths : jsv) : outcome failure (list string) :=
  match paths with
  | JArr l => throw_when (128 <? length l)%nat invalid_prefill ;; fold_each check_prefill_path seen l
  | _ => Throws invalid_prefill
  end.

Definition one : jsv := JNum (NInt 1).

Definition assertTaskDraftWire (value : jsv) : outcome failure unit :=
  if is_undefined value then Returns () else
  throw_when (negb (strict_eq (prop value "version") one) || negb (is_sha256 (prop value "associationHash"))
              || negb (is_sha256 (prop value "taskBindingHash"))) (OtherFailure "Invalid task draft association") ;;
  let prefill := prop value "taskPrefill" in
  if is_undefined prefill then Returns () else
  throw_when (negb (truthy prefill) || negb (has_sorted_keys prefill ["editableDataPaths"; "readOnlyDataPaths"; "version"])
              || negb (strict_eq (prop prefill "version") one)) invalid_prefill ;;
  seen ← fold_each check_prefill_paths [] [prop prefill "editableDataPaths"; prop prefill "readOnlyDataPaths"];
  Returns ().

Definition assertSignedTaskDraft (association : jsv) (draft : DraftRef) : outcome failure jsv :=
  assertTaskDraftWire association ;;
  let signed := prop association "signedDraft" in
  throw_when
    (negb (truthy signed)
     || negb (has_sorted_keys signed ["associationHash"; "draftId"; "expectedSignedDraftVersion";
                                      "expectedSignedResponseHash"; "taskBindingHash"])
     || negb (is_lit (prop signed "draftId") (draft_id draft))
     || negb (match prop signed "expectedSignedDraftVersion" with
              | JNum n => match safe_integer n with Some _ => num_eq n (draft_version draft) | None => false end
              | _ => false end)
     || negb (match safe_integer (draft_version draft) with Some z => (2 <=? z)%Z | None => false end)
     || negb (is_hex64 (draft_responseHash draft))
     || negb (is_lit (prop signed "expectedSignedResponseHash") ("sha256:" +:+ draft_responseHash draft))
     || negb (strict_eq (prop signed "associationHash") (prop association "associationHash"))
     || negb (strict_eq (prop signed "taskBindingHash") (prop association "taskBindingHash")))
    (OtherFailure "Signed task draft selector differs from its owned snapshot") ;;
  Returns signed.

(** ** Admission *)

Record Resolution : Set := { resolved : bool; resolution_action : option jsv }.
Record PlannedRequest : Set := {
  planned_method : string; planned_path : string; planned_headers : jsobj; planned_body : jsv; planned_successStatuses : jsv
}.

(** The functions of [@formspec-org/engine/render] the controller calls, and
    the [admit] method of its completion strategy. *)
Class Engine := {
  resolveResponseAction : jsv → string → Resolution;
  resolveResponseActionValidationTuple : jsv → jsv;
  resolveServiceRequest : jsv → jsv → outcome failure jsv;
  planServiceRequest : jsv → jsv → outcome failure PlannedRequest;
  extractServiceRequestOutputs : jsv → jsv → outcome failure jsv;
  admit_request : CompletionKind → jsv → outcome failure unit
}.

(** [/^[A-Za-z][A-Za-z0-9_-]*$/.test(s)] *)
Definition is_letter (a : ascii) : bool :=
  let n := nat_of_ascii a in ((65 <=? n) && (n <=? 90) || (97 <=? n) && (n <=? 122))%nat.
Definition is_digit (a : ascii) : bool := let n := nat_of_ascii a in ((48 <=? n) && (n <=? 57))%nat.
Definition is_output_name (s : string) : bool :=
  match String.list_ascii_of_string s with
  | a :: l => is_letter a && forallb (λ b, is_letter b || is_digit b || bool_decide (b = "_"%char) || bool_decide (b = "-"%char)) l
  | [] => false
  end.

Definition tuple_json (profile blocking persistence : string) : jsv :=
  JObj [("profile", JStr profile); ("blocking", JStr blocking); ("persistence", JStr persistence)].

Definition unadmitted : failure := ControllerRefusal ActionUnadmitted.
Definition mismatch : failure := ControllerRefusal ContextMismatch.

Definition output_fields (role : ResponseActionRole) : list string :=
  if decide (role = StartApplication) then ["/caseLedgerId"; "/caseReference"; "/draftRef"; "/status"]
  else ["/draft_id"; "/form_version_id"; "/subject_ref"; "/draft_version"; "/draft_state"; "/canonical_response"; "/status"].

Definition transition_fields : list string := ["/draft_id"; "/form_version_id"; "/subject_ref"; "/status"; "/response_id"].

Definition check_output (role : ResponseActionRole) (entry : string * jsv) : outcome failure unit :=
  let '(name, output) := entry in
  let exposure := prop output "exposure" in
  throw_when
    (negb (is_output_name name) || negb (is_one_of (prop output "path") (output_fields role))
     || (negb (is_undefined exposure) && negb (is_one_of exposure ["internal"; "transition"]))
     || (is_lit exposure "transition"
         && (bool_decide (role = StartApplication) || negb (is_one_of (prop output "path") transition_fields))))
    (ControllerRefusal OutputsUnsupported).

Section admission.
Context `{!Canonicalize, !Engine} (context : ResponseActionControllerContext) (completion : option CompletionKind).

(** The service request an admitted action may make; [None] for [paper]. *)
Definition requestFor (role : ResponseActionRole) (admission : QualifiedResponseActionRole)
    : outcome failure (option jsv) :=
  let document := role_document admission in
  let resolution := resolveResponseAction document (role_actionRef admission) in
  match resolution_action resolution with
  | None => Throws unadmitted
  | Some action =>
      throw_when (negb (resolved resolution) || is_lit (prop document "scope") "app"
                  || negb (strict_eq (prop (prop document "targetDefinition") "url") (prop (definition context) "url")))
        unadmitted ;;
      let tuple := resolveResponseActionValidationTuple action in
      throw_when (bool_decide (role = StartApplication)
                  && (negb (is_lit (prop action "intent") "x-start-application")
                      || negb (same tuple (tuple_json "off" "non-blocking" "none")))) unadmitted ;;
      match prop action "effects" with
      | JArr [effect] =>
          if decide (role = Paper) then
            throw_when (negb (is_lit (prop effect "type") "hostEvent") || is_lit (prop effect "eventName") "formspec-submit")
              unadmitted ;;
            Returns None
          else
            throw_when (negb (is_lit (prop effect "type") "serviceRequest")
                        || negb (strict_eq (prop effect "requestRef") (opt_str (role_requestRef admission)))
                        || negb (is_lit (prop effect "idempotencyKey") "@invocation.id")
                        || negb (nonempty (role_artifactRef admission)) || negb (nonempty (role_artifactDigest admission)))
              unadmitted ;;
            request ← resolveServiceRequest (prop document "x-formspec-runtime") (opt_str (role_requestRef admission));
            if decide (role = Submit) then
              match completion with
              | None => Throws unadmitted
              | Some kind => admit_request kind request ;; Returns (Some request)
              end
            else
              throw_when (negb (same (prop request "successStatuses") (JArr [JNum (NInt 200)]))) unadmitted ;;
              for_each (check_output role) (props_of (prop request "outputs")) ;;
              Returns (Some request)
      | _ => Throws unadmitted
      end
  end.

(** ** Evidence *)

(** [assertControllerResponse] around its one call of the validator. *)
Definition response_identified (response : jsv) : bool :=
  is_lit (prop response "id") (responseId context)
  && strict_eq (prop response "definitionUrl") (prop (definition context) "url")
  && strict_eq (prop response "definitionVersion") (prop (definition context) "version").

Definition response_in_context (response : jsv) : bool :=
  is_lit (prop response "definitionUrl") (key_formUrl (draftKey context))
  && strict_eq (opt_str (key_formVersion (draftKey context))) (prop response "definitionVersion")
  && nonempty (formVersionId context) && nonempty (formId context).

(** [assertSavedResponseDraftEvidence] but for the digest it compares last. *)
Definition evidence_consistent (actor : option string) (expected : option jsv) (result : SavedResponseDraft) : bool :=
  let draft := saved_draft result in
  let evidence := saved_evidence result in
  same (draftKey_json (saved_draftKey result)) (draftKey_json (draftKey context))
  && negb (trim_empty (saved_actor result)) && negb (trim_empty (draft_id draft)) && is_hex64 (draft_responseHash draft)
  && match actor with Some a => negb (nonempty a) || String.eqb a (saved_actor result) | None => true end
  && String.eqb (ev_subject_ref evidence) (saved_actor result)
  && String.eqb (ev_form_version_id evidence) (formVersionId context)
  && String.eqb (ev_draft_id evidence) (draft_id draft)
  && num_eq (ev_draft_version evidence) (draft_version draft)
  && match safe_integer (draft_version draft) with Some z => (1 <=? z)%Z | None => false end
  && String.eqb (ev_status evidence) "in_progress"
  && same (ev_canonical_response evidence) (saved_response result)
  && same (ev_draft_state evidence) (prop (saved_response result) "data")
  && match expected with Some e => same (saved_response result) e | None => true end.

Definition authored_signatures (response : jsv) : list jsv := arr_of (prop response "authoredSignatures").

Definition signing_content (response : jsv) : jsv :=
  prop (prop response "extensions") "x-formspec-signing-content".

(** [assertRestoredSignedResponseEvidence] *)
Definition restored_signed_consistent (result : SignedResponseSigning) (source : jsv) (locale : string) : bool :=
  match key_subjectRef (draftKey context) with
  | Some s => negb (nonempty s) || String.eqb (saved_actor result) s
  | None => true
  end
  && same (content result) (prop (signing_content (saved_response result)) "content")
  && same (prop (content result) "source") source
  && is_lit (prop (content result) "locale") locale
  && match authored_signatures (saved_response result) with
     | [s] => String.eqb (verification_mode (verification result)) "delegated-service-key"
              && is_lit (prop s "signatureProvider") (provider (verification result))
              && nonempty (keyId (verification result))
     | _ => false
     end.
End admission.

(** [encodeURIComponent(s)], on the UTF-8 bytes. *)
Definition upper_hex (d : nat) : ascii := ascii_of_nat (if (d <? 10)%nat then 48 + d else 55 + d).
Definition uri_unreserved (a : ascii) : bool :=
  is_letter a || is_digit a || bool_decide (a ∈ String.list_ascii_of_string "-_.!~*'()").
Fixpoint encodeURIComponent (s : string) : string :=
  match s with
  | EmptyString => EmptyString
  | String a s' =>
      if uri_unreserved a then String a (encodeURIComponent s')
      else String "%" (String (upper_hex (nat_of_ascii a / 16)) (String (upper_hex (nat_of_ascii a mod 16))
             (encodeURIComponent s')))
  end.
