(* ===== verification/Url.v ===== *)
(** * URLs

    The URL class of the browser and of Node, a parameter of the components that
    read locations, and [decodeURIComponent]. *)

From S2P Require Import Prelude Text.
From Stdlib Require Import Ascii.

(** The members of a [URL] that the source reads. *)
Record Url : Set := {
  url_href : string; url_origin_of : string; url_protocol : string; url_hostname : string; url_pathname : string;
  url_search : string; url_hash : string; url_username : string; url_password : string
}.

(** [new URL(s)] and [new URL(s, base)], [None] where they throw;
    [[...new URLSearchParams(s)]] and [new URLSearchParams(entries).toString()]. *)
Class UrlLibrary := {
  new_URL : string → option Url;
  new_URL_at : string → string → option Url;
  search_entries : string → list (string * string);
  search_text : list (string * string) → string
}.

(** [url.searchParams.getAll(name)] and [get(name)] *)
Definition get_all `{UrlLibrary} (u : Url) (name : string) : list string :=
  omap (λ e, if String.eqb e.1 name then Some e.2 else None) (search_entries (url_search u)).
Definition get_param `{UrlLibrary} (u : Url) (name : string) : option string := get_all u name !! 0.

(** ** [decodeURIComponent] *)

Definition hex_digit (a : ascii) : option nat :=
  let n := nat_of_ascii a in
  if ((48 <=? n) && (n <=? 57))%nat then Some (n - 48)
  else if ((65 <=? n) && (n <=? 70))%nat then Some (n - 55)
  else if ((97 <=? n) && (n <=? 102))%nat then Some (n - 87)
  else None.

(** What may follow in an escaped character: how many bytes, and the range of the
    next. *)
Record utf8_rest : Set := { rest_bytes : nat; rest_low : nat; rest_high : nat }.
Definition no_rest : utf8_rest := {| rest_bytes := 0; rest_low := 0; rest_high := 0 |}.

Definition in_bounds (low high n : nat) : bool := (low <=? n)%nat && (n <=? high)%nat.

(** The first byte of an escaped character. *)
Definition utf8_first (n : nat) : option utf8_rest :=
  if (n <? 128)%nat then Some no_rest
  else if in_bounds 194 223 n then Some {| rest_bytes := 1; rest_low := 128; rest_high := 191 |}
  else if (n =? 224)%nat then Some {| rest_bytes := 2; rest_low := 160; rest_high := 191 |}
  else if (n =? 237)%nat then Some {| rest_bytes := 2; rest_low := 128; rest_high := 159 |}
  else if in_bounds 225 239 n then Some {| rest_bytes := 2; rest_low := 128; rest_high := 191 |}
  else if (n =? 240)%nat then Some {| rest_bytes := 3; rest_low := 144; rest_high := 191 |}
  else if in_bounds 241 243 n then Some {| rest_bytes := 3; rest_low := 128; rest_high := 191 |}
  else if (n =? 244)%nat then Some {| rest_bytes := 3; rest_low := 128; rest_high := 143 |}
  else None.

Definition utf8_next (r : utf8_rest) (n : nat) : option utf8_rest :=
  if (rest_bytes r =? 0)%nat then utf8_first n
  else if in_bounds (rest_low r) (rest_high r) n
  then Some {| rest_bytes := rest_bytes r - 1; rest_low := 128; rest_high := 191 |} else None.

(** The bytes of the decoded text; [None] is a [URIError]. *)
Fixpoint decode_from (r : utf8_rest) (s : string) : option string :=
  match s with
  | EmptyString => if (rest_bytes r =? 0)%nat then Some EmptyString else None
  | String a s1 =>
      if Ascii.eqb a "%" then
        match s1 with
        | String h (String l s2) =>
            high ← hex_digit h;
            low ← hex_digit l;
            r' ← utf8_next r (high * 16 + low);
            String (ascii_of_nat (high * 16 + low)) <$> decode_from r' s2
        | _ => None
        end
      else if (rest_bytes r =? 0)%nat then String a <$> decode_from r s1 else None
  end.
Definition decodeURIComponent (s : string) : option string := decode_from no_rest s.

(** What the URL standard documents of the class: a serialised URL parses to itself,
    whatever the base; serialised entries are read back, also behind a question
    mark, and their text can be decoded. *)
Class UrlLaws `{UrlLibrary} : Prop := {
  url_serialised : ∀ s u, new_URL s = Some u → url_href u = s → ∀ base, new_URL_at s base = Some u;
  entries_read_back : ∀ l, search_entries ("?" +:+ search_text l) = l;
  entries_decodable : ∀ l, is_Some (decodeURIComponent ("?" +:+ search_text l))
}.
