(* ===== verification/Oracle.v ===== *)
(** * Programs that ask

    A program whose calls are answered one after another by an oracle that may
    answer anything: the calls of one operation, in order, with their answers.
    What holds of every run is [sat]; the rules below prove it along the
    program. *)

From S2P Require Import Prelude.

Inductive tree (E : Type) (Q : Set → Type) (A : Type) : Type :=
  | Done (a : A)
  | Ask {X : Set} (q : Q X) (k : outcome E X → tree E Q A).
Arguments Done {E Q A} _.
Arguments Ask {E Q A X} _ _.

Record event (E : Type) (Q : Set → Type) : Type := Asked { asked : Set; question : Q asked; answer : outcome E asked }.
Arguments Asked {E Q asked} _ _.
Arguments question {E Q} _.
Arguments answer {E Q} _.

Section oracle.
Context {E : Type} {Q : Set → Type}.

(** An oracle answers the [n]th question. *)
Definition oracle : Type := ∀ (n : nat) (X : Set), Q X → outcome E X.

Fixpoint run {A} (o : oracle) (n : nat) (t : tree E Q A) : list (event E Q) * A :=
  match t with
  | Done a => ([], a)
  | Ask q k => let '(l, a) := run o (S n) (k (o n _ q)) in (Asked q (o n _ q) :: l, a)
  end.

Fixpoint after {A B} (t : tree E Q A) (f : A → tree E Q B) : tree E Q B :=
  match t with Done a => f a | Ask q k => Ask q (λ a, after (k a) f) end.

(** What holds of the calls and the result, whatever is answered. *)
Fixpoint sat {A} (t : tree E Q A) (P : list (event E Q) → A → Prop) : Prop :=
  match t with
  | Done a => P [] a
  | Ask q k => ∀ a, sat (k a) (λ l r, P (Asked q a :: l) r)
  end.

Lemma sat_run {A} (t : tree E Q A) (P : list (event E Q) → A → Prop) o n : sat t P → P (run o n t).1 (run o n t).2.
Proof.
  revert P n. induction t as [a|X q k IH]; intros P n H; [exact H|]. simpl. specialize (IH (o n X q) _ (S n) (H (o n X q))).
  by destruct (run o (S n) (k (o n X q))).
Qed.

Lemma sat_done {A} (a : A) (P : list (event E Q) → A → Prop) : P [] a → sat (Done a) P.
Proof. done. Qed.

Lemma sat_ask {A} {X : Set} (q : Q X) (k : outcome E X → tree E Q A) (P : list (event E Q) → A → Prop) :
  (∀ a, sat (k a) (λ l r, P (Asked q a :: l) r)) → sat (Ask q k) P.
Proof. done. Qed.

Lemma sat_weaken {A} (t : tree E Q A) (P P' : list (event E Q) → A → Prop) : (∀ l a, P l a → P' l a) → sat t P → sat t P'.
Proof.
  revert P P'. induction t as [a|X q k IH]; intros P P' H; [apply H|]. intros Ht a. apply (IH a _ _ (λ l r, H (Asked q a :: l) r)), Ht.
Qed.

Lemma sat_after {A B} (t : tree E Q A) (f : A → tree E Q B) (P : list (event E Q) → B → Prop) :
  sat t (λ l a, sat (f a) (λ l' b, P (l ++ l') b)) → sat (after t f) P.
Proof.
  revert P. induction t as [a|X q k IH]; intros P H; [exact H|]. intros a. apply IH, H.
Qed.

(** Programs that throw what their calls throw, or anything else. *)
Definition ask {X : Set} (q : Q X) : tree E Q (outcome E X) := Ask q Done.
Definition and_then {A B} (p : tree E Q (outcome E A)) (f : A → tree E Q (outcome E B)) : tree E Q (outcome E B) :=
  after p (λ r, match r with Returns a => f a | Throws e => Done (Throws e) end).
Definition try_catch {A} (p : tree E Q (outcome E A)) (h : E → tree E Q (outcome E A)) : tree E Q (outcome E A) :=
  after p (λ r, match r with Returns a => Done (Returns a) | Throws e => h e end).

Lemma sat_and_then {A B} (p : tree E Q (outcome E A)) (f : A → tree E Q (outcome E B)) (P : list (event E Q) → outcome E B → Prop) :
  sat p (λ l r, match r with Returns a => sat (f a) (λ l' b, P (l ++ l') b) | Throws e => P l (Throws e) end) → sat (and_then p f) P.
Proof.
  intros Hp. apply sat_after. revert Hp. apply sat_weaken. intros l [a|e]; [done|]. intros Hl. apply sat_done. by rewrite app_nil_r.
Qed.

Lemma sat_try_catch {A} (p : tree E Q (outcome E A)) (h : E → tree E Q (outcome E A)) (P : list (event E Q) → outcome E A → Prop) :
  sat p (λ l r, match r with Returns a => P l (Returns a) | Throws e => sat (h e) (λ l' b, P (l ++ l') b) end) → sat (try_catch p h) P.
Proof.
  intros Hp. apply sat_after. revert Hp. apply sat_weaken. intros l [a|e]; [|done]. intros Hl. apply sat_done. by rewrite app_nil_r.
Qed.
End oracle.
Arguments sat : simpl never.
Arguments oracle : clear implicits.

Notation "x ⇐ p ; q" := (and_then p (λ x, q)) (at level 100, p at next level, right associativity).
