(* ===== verification/PublicApp.v ===== *)
(** * What a public respondent app may contain

    src/src/verifying-surface/respondent/public-app-validation.ts: the checks
    that an App Manifest and the artifacts of its bundle pass before a
    deployment shows them to respondents.  Each check reads decoded JSON and
    answers with diagnostics; an app is admitted when there are none.  The
    theorem at the end says which: the apps that are one form leading to one
    receipt, and nothing else, in the terms of [respondent_app]. *)

From S2P Require Import Prelude JsValue ResponseAction.

(** ** Data *)

(** An artifact of the bundle, with [ref?.url]. *)
Record ArtifactHandle : Set := { artifactKind : string; ref_url : jsv; document : jsv }.
Record AppGraphContext : Set := { manifest_document : jsv; handles : list ArtifactHandle }.
Record RespondentPublicAppPolicy : Set := { appId : string; starterModuleId : string; receiptResourceUrl : string }.
(** The severity, phase and origin are the same for all. *)
Record AppGraphDiagnostic : Set := { code : string; message : string; details : option jsobj }.

(** The locale store of the engine and the strings of the surface package: which
    locales the loaded documents give an app, and which keys resolve in one. *)
Class SurfaceLocales := {
  SURFACE_LOCALE_KEY_PREFIX : string;
  SURFACE_STRING_KEYS : list string;
  getAvailableLocales : list jsv → string → list string;
  lookupKey : list jsv → string → string → string → option string
}.

Definition PUBLIC_ROUTE_CLASSES : list string := ["intake"; "proof"].
Definition PUBLIC_STARTER_WIDGETS : list string := ["x-intake-banner"; "IntakeBanner"; "x-receipt-panel"; "ReceiptPanel"].

Definition diagnostic (c m : string) (d : jsobj) : AppGraphDiagnostic := {| code := c; message := m; details := Some d |}.
(** [if (b) diagnostics.push(d)] *)
Definition when (b : bool) (d : AppGraphDiagnostic) : list AppGraphDiagnostic := if b then [d] else [].

(** ** Reading *)

Definition record (v : jsv) : jsv := if isRecord v then v else JUndef.
Definition records (v : jsv) : list jsv := match v with JArr l => List.filter isRecord l | _ => [] end.
Definition text (v : jsv) : option string := str_of v.

Definition jtext (v : jsv) : jsv := opt_str (text v).
Definition jcount (n : nat) : jsv := JNum (NInt (Z.of_nat n)).
Definition unknown_text (v : jsv) : string := default "<unknown>" (text v).
Definition of_kind (k : string) (context : AppGraphContext) : list ArtifactHandle :=
  List.filter (λ h, String.eqb (artifactKind h) k) (handles context).
(** [text(v) === t] and [v === t] for an optional text. *)
Definition is_text (v : jsv) (t : option string) : bool := strict_eq v (opt_str t).

Definition isReceiptWidget (w : string) : bool := String.eqb w "ReceiptPanel" || String.eqb w "x-receipt-panel".
Definition isIntakeWidget (w : string) : bool := String.eqb w "IntakeBanner" || String.eqb w "x-intake-banner".

Definition exactCaseRefTransitionParams (v : jsv) : bool :=
  isRecord v && (length (obj_keys (props_of v)) =? 1)%nat && is_lit (prop v "caseRef") "caseRef".

(** ** The manifest *)

Definition validateManifestIdentity (context : AppGraphContext) (policy : RespondentPublicAppPolicy) : list AppGraphDiagnostic :=
  let manifest := record (manifest_document context) in
  let modules := records (prop manifest "modules") in
  when (negb (is_lit (prop manifest "id") (appId policy)))
    (diagnostic "RESPONDENT-APP-IDENTITY" "The admitted App Manifest does not match this respondent deployment."
      [("expectedAppId", JStr (appId policy)); ("observedAppId", prop manifest "id")]) ++
  when (negb (length modules =? 1)%nat
        || negb (is_lit (prop (default JUndef (modules !! 0)) "id") (starterModuleId policy))
        || negb (is_string (prop (default JUndef (modules !! 0)) "version")))
    (diagnostic "RESPONDENT-ACTOR-MODULES" "The respondent App Manifest must declare exactly one versioned respondent starter module."
      [("expectedModule", JStr (starterModuleId policy));
       ("modules", JArr (List.map (λ m, JObj [("id", jtext (prop m "id")); ("version", jtext (prop m "version"))]) modules))]).

(** ** The receipt source *)

Record ReceiptSourceIdentity : Set := { catalogRef : string; sourceRef : string; source : jsv }.

Definition receipt_of (policy : RespondentPublicAppPolicy) (catalog : string) (source : jsv) : option ReceiptSourceIdentity :=
  let provenance := record (prop (record (prop source "runtime")) "provenance") in
  match text (prop source "id") with
  | Some id =>
      if is_lit (prop source "kind") "document-resource" && is_lit (prop provenance "source") (receiptResourceUrl policy)
      then Some {| catalogRef := catalog; sourceRef := id; source := source |} else None
  | None => None
  end.

Definition receipts_in (policy : RespondentPublicAppPolicy) (handle : ArtifactHandle) : list ReceiptSourceIdentity :=
  match text (ref_url handle) with
  | Some catalog => omap (receipt_of policy catalog) (records (prop (record (document handle)) "sources"))
  | None => []
  end.

Definition respondentReceiptSource (context : AppGraphContext) (policy : RespondentPublicAppPolicy) : option ReceiptSourceIdentity :=
  match flat_map (receipts_in policy) (of_kind "dataSources" context) with [s] => Some s | _ => None end.

Definition is_receipt_source (policy : RespondentPublicAppPolicy) (source : jsv) : bool :=
  let runtime := record (prop source "runtime") in
  let provenance := record (prop runtime "provenance") in
  let availability := record (prop source "availability") in
  is_lit (prop source "kind") "document-resource" && is_lit (prop source "owner") "host" &&
  (is_lit (prop source "scope") "route" || is_lit (prop source "scope") "resource") &&
  is_lit (prop runtime "authorizationBoundary") "host" && is_lit (prop runtime "delivery") "snapshot" &&
  is_lit (prop runtime "failureMode") "block-render" && is_lit (prop provenance "kind") "document-resource" &&
  is_lit (prop provenance "source") (receiptResourceUrl policy) && isRecord (prop source "schema") &&
  (is_lit (prop availability "level") "route" || is_lit (prop availability "level") "slot").

Definition source_diagnostics (policy : RespondentPublicAppPolicy) (handle : ArtifactHandle) (source : jsv) : list AppGraphDiagnostic :=
  when (negb (is_receipt_source policy source))
    (diagnostic "RESPONDENT-ACTOR-DATA-SOURCE-REFUSED"
      ("Data source '" +:+ unknown_text (prop source "id") +:+ "' is not the host-authorized respondent receipt source.")
      [("catalogRef", ref_url handle); ("sourceRef", jtext (prop source "id")); ("kind", jtext (prop source "kind"));
       ("owner", jtext (prop source "owner"))]).

Definition sources_of (handle : ArtifactHandle) : list jsv := records (prop (record (document handle)) "sources").

Definition validateReceiptSources (context : AppGraphContext) (policy : RespondentPublicAppPolicy) : list AppGraphDiagnostic :=
  let catalogs := of_kind "dataSources" context in
  let receiptSources := length (List.filter (is_receipt_source policy) (flat_map sources_of catalogs)) in
  flat_map (λ handle, flat_map (source_diagnostics policy handle) (sources_of handle)) catalogs ++
  when (negb (receiptSources =? 1)%nat)
    (diagnostic "RESPONDENT-RECEIPT-SOURCE-COUNT" "The respondent app must resolve exactly one schema-qualified receipt source."
      [("receiptSources", jcount receiptSources)]).

(** ** The surfaces *)

(** What the loop over the surfaces gathers. *)
Record report : Set := { diagnostics : list AppGraphDiagnostic; intakeRoutes : nat; proofRoutes : nat; receiptWidgets : nat }.
Definition nothing : report := {| diagnostics := []; intakeRoutes := 0; proofRoutes := 0; receiptWidgets := 0 |}.
Definition say (l : list AppGraphDiagnostic) : report := {| diagnostics := l; intakeRoutes := 0; proofRoutes := 0; receiptWidgets := 0 |}.
Definition also (r s : report) : report := {|
  diagnostics := diagnostics r ++ diagnostics s; intakeRoutes := intakeRoutes r + intakeRoutes s;
  proofRoutes := proofRoutes r + proofRoutes s; receiptWidgets := receiptWidgets r + receiptWidgets s
|}.
Definition for_all {A} (f : A → report) (l : list A) : report := foldr (λ a r, also (f a) r) nothing l.

Definition widget_refused (policy : RespondentPublicAppPolicy) (routeClass : string) (moduleId widgetName : option string) : bool :=
  negb (bool_decide (moduleId = Some (starterModuleId policy))) ||
  match widgetName with
  | Some w =>
      negb (nonempty w) || negb (str_in w PUBLIC_STARTER_WIDGETS) || isReceiptWidget w && negb (String.eqb routeClass "proof")
      || isIntakeWidget w && negb (String.eqb routeClass "intake")
  | None => true
  end.

(** The one input of the panel is bound to the one receipt source. *)
Definition receipt_bound (receipt : option ReceiptSourceIdentity) (binding : jsv) : bool :=
  let dataBindings := record (prop binding "dataBindings") in
  let receiptBinding := record (prop dataBindings "receipt") in
  isRecord dataBindings && (length (obj_keys (props_of dataBindings)) =? 1)%nat && isRecord receiptBinding &&
  is_text (prop receiptBinding "catalogRef") (catalogRef <$> receipt) && is_text (prop receiptBinding "sourceRef") (sourceRef <$> receipt).

Definition receipt_available (receipt : option ReceiptSourceIdentity) (handle : ArtifactHandle) (route slot : jsv) : bool :=
  let availability := record (prop (default JUndef (source <$> receipt)) "availability") in
  isRecord availability && strict_eq (prop availability "surfaceRef") (ref_url handle) &&
  strict_eq (prop availability "routeRef") (prop route "id") &&
  (is_lit (prop availability "level") "route" ||
   is_lit (prop availability "level") "slot" && strict_eq (prop availability "slotId") (prop slot "id")).

Definition slot_ids (route slot : jsv) : jsobj := [("routeId", jtext (prop route "id")); ("slotId", jtext (prop slot "id"))].

Definition receipt_panel (receipt : option ReceiptSourceIdentity) (handle : ArtifactHandle) (route slot binding : jsv) : report :=
  {| diagnostics :=
       when (negb (receipt_bound receipt binding))
         (diagnostic "RESPONDENT-RECEIPT-BINDING" "The receipt widget must bind its one named receipt input to the sole admitted receipt source."
           (slot_ids route slot ++
            [("expectedCatalogRef", opt_str (catalogRef <$> receipt)); ("expectedSourceRef", opt_str (sourceRef <$> receipt))])) ++
       when (negb (receipt_available receipt handle route slot))
         (diagnostic "RESPONDENT-RECEIPT-AVAILABILITY" "The sole receipt source must be qualified to the receipt proof route or its ReceiptPanel slot."
           (slot_ids route slot));
     intakeRoutes := 0; proofRoutes := 0; receiptWidgets := 1 |}.

Definition widget_report policy receipt handle (route : jsv) (routeClass : string) (slot : jsv) : report :=
  let binding := record (prop slot "binding") in
  let moduleId := text (prop binding "moduleId") in
  let widgetName := text (prop binding "widgetName") in
  also (say
    (when (negb (is_undefined (prop binding "actionBindings")))
      (diagnostic "RESPONDENT-WIDGET-ACTIONS-UNSUPPORTED"
        "The respondent starter widgets may not bind action outputs until this host admits an explicit widget-action boundary."
        (slot_ids route slot ++ [("widgetName", opt_str widgetName)])) ++
     when (widget_refused policy routeClass moduleId widgetName)
      (diagnostic "RESPONDENT-ACTOR-WIDGET-REFUSED"
        ("Widget '" +:+ default "<unknown>" widgetName +:+ "' is outside the public respondent starter set or route.")
        [("routeId", jtext (prop route "id")); ("routeClass", JStr routeClass); ("slotId", jtext (prop slot "id"));
         ("moduleId", opt_str moduleId); ("widgetName", opt_str widgetName)])))
  match widgetName with
  | Some w => if nonempty w && isReceiptWidget w then receipt_panel receipt handle route slot binding else nothing
  | None => nothing
  end.

Definition slot_report policy receipt handle (route : jsv) (routeClass : string) (slot : jsv) : report :=
  also (say
    (when (is_lit (prop slot "slotType") "embed-route")
      (diagnostic "RESPONDENT-EMBED-ROUTE-REFUSED" "The public respondent Surface may not embed another route." (slot_ids route slot)) ++
     when (is_lit (prop slot "slotType") "definition-form" && negb (String.eqb routeClass "intake"))
      (diagnostic "RESPONDENT-ACTOR-SLOT-REFUSED" "A respondent Definition form may run only on an intake route." (slot_ids route slot))))
  (if is_lit (prop slot "slotType") "module-widget" then widget_report policy receipt handle route routeClass slot else nothing).

(** The intake transitions of the surface that give a route its case. *)
Definition incoming (routes : list jsv) (route : jsv) : list jsv :=
  flat_map (λ sourceRoute,
    if is_lit (prop sourceRoute "routeClass") "intake"
    then List.filter (λ t, strict_eq (prop t "to") (prop route "id") && exactCaseRefTransitionParams (prop t "params"))
      (records (prop sourceRoute "transitions"))
    else []) routes.

Definition has_case_ref (route : jsv) : bool :=
  let params := records (prop route "params") in
  is_lit (prop route "path") "/receipt/{caseRef}" && (length params =? 1)%nat &&
  is_lit (prop (default JUndef (params !! 0)) "name") "caseRef" && is_lit (prop (default JUndef (params !! 0)) "type") "string".

Definition proof_diagnostics (routes : list jsv) (route : jsv) : list AppGraphDiagnostic :=
  when (negb (has_case_ref route))
    (diagnostic "RESPONDENT-RECEIPT-ROUTE-PARAM" "A respondent proof route must declare exactly one string caseRef parameter in its path."
      [("routeId", jtext (prop route "id")); ("path", jtext (prop route "path"))]) ++
  when (negb (length (incoming routes route) =? 1)%nat)
    (diagnostic "RESPONDENT-RECEIPT-TRANSITION-PARAM" "Exactly one intake transition must supply the proof route caseRef parameter."
      [("routeId", jtext (prop route "id")); ("matchingTransitions", jcount (length (incoming routes route)))]).

Definition class_report (routes : list jsv) (route : jsv) (routeClass : string) : report := {|
  diagnostics := if String.eqb routeClass "proof" then proof_diagnostics routes route else [];
  intakeRoutes := if String.eqb routeClass "intake" then 1 else 0;
  proofRoutes := if String.eqb routeClass "proof" then 1 else 0;
  receiptWidgets := 0
|}.

Definition public_class (routeClass : option string) : option string :=
  c ← routeClass; if nonempty c && str_in c PUBLIC_ROUTE_CLASSES then Some c else None.

Definition route_report policy receipt handle (routes : list jsv) (route : jsv) : report :=
  match public_class (text (prop route "routeClass")) with
  | None => say [diagnostic "RESPONDENT-ACTOR-ROUTE-REFUSED"
      ("Public respondent bundles may contain only intake and proof routes; route '" +:+ unknown_text (prop route "id") +:+ "' is refused.")
      [("routeId", jtext (prop route "id")); ("routeClass", jtext (prop route "routeClass"))]]
  | Some routeClass =>
      also (class_report routes route routeClass)
        (for_all (slot_report policy receipt handle route routeClass) (records (prop route "slots")))
  end.

Definition surface_report policy receipt (handle : ArtifactHandle) : report :=
  let routes := records (prop (record (document handle)) "routes") in
  for_all (route_report policy receipt handle routes) routes.

Definition validatePublicSurfaces (context : AppGraphContext) (policy : RespondentPublicAppPolicy) : list AppGraphDiagnostic :=
  let r := for_all (surface_report policy (respondentReceiptSource context policy)) (of_kind "surface" context) in
  diagnostics r ++
  when (negb (intakeRoutes r =? 1)%nat)
    (diagnostic "RESPONDENT-INTAKE-ROUTE-COUNT" "The respondent app must contain exactly one intake route." [("intakeRoutes", jcount (intakeRoutes r))]) ++
  when (negb (proofRoutes r =? 1)%nat)
    (diagnostic "RESPONDENT-PROOF-ROUTE-MISSING" "The respondent app must contain exactly one proof route for the real submission receipt."
      [("proofRoutes", jcount (proofRoutes r))]) ++
  when (negb (receiptWidgets r =? 1)%nat)
    (diagnostic "RESPONDENT-RECEIPT-WIDGET-COUNT" "The respondent app must contain exactly one ReceiptPanel."
      [("receiptWidgets", jcount (receiptWidgets r))]).

(** ** The flow from the entry to the receipt *)

(** A route with its place, which tells two routes of equal content apart. *)
Abbreviation placed := (nat * jsv)%type.
Definition place_all (l : list jsv) : list placed := imap (λ i v, (i, v)) l.

Definition definition_slots (routes : list placed) : list (placed * jsv) :=
  flat_map (λ route, List.map (λ slot, (route, slot))
    (List.filter (λ slot, is_lit (prop slot "slotType") "definition-form") (records (prop route.2 "slots")))) routes.

(** The admitted Definitions that a form names. *)
Definition bound_definitions (context : AppGraphContext) (definitionRef : option string) : list ArtifactHandle :=
  List.filter (λ h, is_text (ref_url h) definitionRef && is_text (prop (record (document h)) "url") definitionRef) (of_kind "definition" context).

Definition is_submit_event (effect : jsv) : bool :=
  is_lit (prop effect "type") "hostEvent" && is_lit (prop effect "eventName") "formspec-submit".

Definition has_preconditions (action : jsv) : bool :=
  match prop action "preconditions" with JArr l => negb (length l =? 0)%nat | JUndef => false | _ => true end.

Definition canonical_validation (validation : jsv) : bool :=
  (length (obj_keys (props_of validation)) =? 3)%nat && is_lit (prop validation "profile") "on-submit" &&
  is_lit (prop validation "blocking") "block-on-error" && is_lit (prop validation "persistence") "complete-response".

Definition receipt_transitions (proofs : list placed) (triggerId : option string) (intake : jsv) : list jsv :=
  List.filter (λ t,
    existsb (λ route, strict_eq (prop route.2 "id") (prop t "to")) proofs && exactCaseRefTransitionParams (prop t "params") &&
    (is_text (prop t "trigger") triggerId || is_lit (prop t "trigger") "submit")) (records (prop intake "transitions")).

Definition submit_diagnostics (routes : list placed) (intake action : jsv) : list AppGraphDiagnostic :=
  let validation := record (prop action "validation") in
  let effects := place_all (records (prop action "effects")) in
  let submitHostEvents := List.filter (λ e, is_submit_event e.2) effects in
  let triggerId := text (prop action "id") in
  let transitions := receipt_transitions (List.filter (λ r, is_lit (prop r.2 "routeClass") "proof") routes) triggerId intake in
  if has_preconditions action then
    [diagnostic "RESPONDENT-SUBMIT-PRECONDITIONS-UNSUPPORTED"
      "The respondent submit action may not declare preconditions because this runtime has no precondition evaluator."
      [("preconditions", jcount (match prop action "preconditions" with JArr l => length l | _ => 1 end))]]
  else if isRecord validation && negb (canonical_validation validation) then
    [diagnostic "RESPONDENT-SUBMIT-VALIDATION"
      "The submit action must use the canonical blocking, on-submit, complete-response validation behavior."
      [("profile", jtext (prop validation "profile")); ("blocking", jtext (prop validation "blocking"));
       ("persistence", jtext (prop validation "persistence"))]]
  else if negb (length effects =? 1)%nat || negb (length submitHostEvents =? 1)%nat
          || negb (bool_decide (last effects.*1 = head submitHostEvents.*1)) then
    [diagnostic "RESPONDENT-SUBMIT-HOST-EVENT" "The submit action must contain only the exact 'formspec-submit' host event."
      [("effects", jcount (length effects)); ("submitHostEvents", jcount (length submitHostEvents));
       ("finalEffectType", jtext (prop (default JUndef (last effects.*2)) "type"));
       ("finalEventName", jtext (prop (default JUndef (last effects.*2)) "eventName"))]]
  else if negb (length transitions =? 1)%nat then
    [diagnostic "RESPONDENT-SUBMIT-RECEIPT-TRANSITION"
      "The selected form submit action must supply exactly one caseRef transition to the receipt proof route."
      [("triggerId", opt_str triggerId); ("matchingTransitions", jcount (length transitions))]]
  else if negb (is_undefined (prop (default JUndef (head transitions)) "when")) then
    [diagnostic "RESPONDENT-TRANSITION-WHEN-UNSUPPORTED"
      "The respondent submit-to-receipt transition may not declare when because this runtime has no transition-condition evaluator."
      [("triggerId", opt_str triggerId)]]
  else [].

(** The one action of the bundle submits the selected Definition. *)
Definition action_diagnostics (context : AppGraphContext) (routes : list placed) (intake : jsv) (definitionRef : string) : list AppGraphDiagnostic :=
  let actionDocuments := of_kind "responseActions" context in
  let actions := flat_map (λ h, records (prop (record (document h)) "actions")) actionDocuments in
  let targetDefinition := match actionDocuments with [h] => text (prop (record (prop (record (document h)) "targetDefinition")) "url") | _ => None end in
  let submitActions := List.filter (λ a, is_lit (prop a "intent") "submit") actions in
  match actionDocuments, actions, submitActions with
  | [_], [_], [action] =>
      if bool_decide (targetDefinition = Some definitionRef) then submit_diagnostics routes intake action else
      [diagnostic "RESPONDENT-SUBMIT-ACTION"
        "The respondent bundle must contain exactly one Response Action: the submit action for the selected Definition."
        [("actionDocuments", jcount 1); ("actions", jcount 1); ("submitActions", jcount 1); ("targetDefinition", opt_str targetDefinition);
         ("definitionRef", JStr definitionRef)]]
  | _, _, _ =>
      [diagnostic "RESPONDENT-SUBMIT-ACTION"
        "The respondent bundle must contain exactly one Response Action: the submit action for the selected Definition."
        [("actionDocuments", jcount (length actionDocuments)); ("actions", jcount (length actions));
         ("submitActions", jcount (length submitActions)); ("targetDefinition", opt_str targetDefinition); ("definitionRef", JStr definitionRef)]]
  end.

Definition form_diagnostics (context : AppGraphContext) (routes : list placed) (intake : placed) (entryRouteId : option string) : list AppGraphDiagnostic :=
  let forms := definition_slots routes in
  match forms with
  | [(route, slot)] =>
      if negb (route.1 =? intake.1)%nat then
        [diagnostic "RESPONDENT-DEFINITION-FORM-COUNT" "The respondent Surface must contain exactly one Definition form, on its selected intake route."
          [("definitionForms", jcount 1); ("formRouteId", jtext (prop route.2 "id")); ("entryRouteId", opt_str entryRouteId)]] else
      let definitionRef := text (prop (record (prop slot "binding")) "definitionRef") in
      let definitions := bound_definitions context definitionRef in
      match definitionRef with
      | Some ref =>
          if nonempty ref && (length definitions =? 1)%nat then action_diagnostics context routes intake.2 ref else
          [diagnostic "RESPONDENT-DEFINITION-BINDING" "The selected Definition form must bind one exact admitted Definition."
            [("definitionRef", JStr ref); ("matches", jcount (length definitions))]]
      | None =>
          [diagnostic "RESPONDENT-DEFINITION-BINDING" "The selected Definition form must bind one exact admitted Definition."
            [("definitionRef", JUndef); ("matches", jcount (length definitions))]]
      end
  | _ =>
      [diagnostic "RESPONDENT-DEFINITION-FORM-COUNT" "The respondent Surface must contain exactly one Definition form, on its selected intake route."
        [("definitionForms", jcount (length forms)); ("formRouteId", jtext (prop (default JUndef (head forms.*1.*2)) "id"));
         ("entryRouteId", opt_str entryRouteId)]]
  end.

Definition entry_diagnostics (context : AppGraphContext) (surface : jsv) : list AppGraphDiagnostic :=
  let routes := place_all (records (prop surface "routes")) in
  let entryRouteId := text (prop surface "entry") in
  let selectedRoutes := List.filter (λ r, is_text (prop r.2 "id") entryRouteId) routes in
  let refusal := diagnostic "RESPONDENT-ENTRY-INTAKE" "The selected Surface entry must resolve to one intake route."
    [("entryRouteId", opt_str entryRouteId); ("matches", jcount (length selectedRoutes))] in
  match selectedRoutes with
  | [intake] => if is_lit (prop intake.2 "routeClass") "intake" then form_diagnostics context routes intake entryRouteId else [refusal]
  | _ => [refusal]
  end.

Definition validateSelectedRespondentFlow (context : AppGraphContext) : list AppGraphDiagnostic :=
  let entrySurface := text (prop (record (manifest_document context)) "entrySurface") in
  let surfaceHandles := of_kind "surface" context in
  let selectedSurfaces := List.filter (λ h, is_text (ref_url h) entrySurface) surfaceHandles in
  let refusal := diagnostic "RESPONDENT-ENTRY-SURFACE" "The respondent app must contain and select one exact entry Surface."
    [("entrySurface", opt_str entrySurface); ("selectedMatches", jcount (length selectedSurfaces)); ("surfaces", jcount (length surfaceHandles))] in
  match entrySurface, selectedSurfaces, surfaceHandles with
  | Some url, [selected], [_] => if nonempty url then entry_diagnostics context (record (document selected)) else [refusal]
  | _, _, _ => [refusal]
  end.

(** ** The registries *)

Definition widget_name (entry : jsv) : option string := text (prop (record (prop entry "widgetShape")) "widgetName").
(** [text(widgetName) ?? text(entry.name)] *)
Definition widget_label (entry : jsv) : jsv :=
  opt_str (match widget_name entry with Some n => Some n | None => text (prop entry "name") end).

Definition starter_widget (contributions : list string) (entry : jsv) : bool :=
  match widget_name entry with
  | Some name => nonempty name && str_in name PUBLIC_STARTER_WIDGETS && str_in (js_to_string (prop entry "name")) contributions
  | None => false
  end.

Definition contributed_receipt (contributions : list string) (entry : jsv) : bool :=
  match widget_name entry with
  | Some name => isReceiptWidget name && str_in (js_to_string (prop entry "name")) contributions
  | None => false
  end.

Definition registry_entries (context : AppGraphContext) : list jsv :=
  flat_map (λ h, records (prop (record (document h)) "entries")) (of_kind "registry" context).

Definition validateRespondentRegistries (context : AppGraphContext) (policy : RespondentPublicAppPolicy) : list AppGraphDiagnostic :=
  let entries := registry_entries context in
  let modules := List.filter (λ e, is_lit (prop e "category") "module") entries in
  let respondentModules := List.filter (λ e, is_lit (prop e "name") (starterModuleId policy)) modules in
  let widgets := List.filter (λ e, is_lit (prop e "category") "widget") entries in
  let contributions := omap str_of (arr_of (prop (default JUndef (head respondentModules)) "contributes")) in
  let nonRespondentWidgets := List.filter (λ e, negb (starter_widget contributions e)) widgets in
  let actionWidgets := List.filter (λ e, negb (is_undefined (prop (record (prop e "widgetShape")) "actionOutputs"))) widgets in
  let receipts := List.filter (contributed_receipt contributions) widgets in
  let dataInputs := match receipts with [w] => records (prop (record (prop w "widgetShape")) "dataInputs") | _ => [] end in
  when (negb (length modules =? 1)%nat || negb (length respondentModules =? 1)%nat)
    (diagnostic "RESPONDENT-ACTOR-REGISTRY-REFUSED"
      "The respondent app must declare one exact respondent widget module and no staff or ceremony module."
      [("modules", JArr (List.map (λ e, jtext (prop e "name")) modules)); ("expectedModule", JStr (starterModuleId policy))]) ++
  when (negb (length nonRespondentWidgets =? 0)%nat)
    (diagnostic "RESPONDENT-ACTOR-REGISTRY-REFUSED"
      "The respondent Registry may publish only intake and receipt widgets owned by its respondent module."
      [("widgets", JArr (List.map widget_label nonRespondentWidgets))]) ++
  when (negb (length actionWidgets =? 0)%nat)
    (diagnostic "RESPONDENT-WIDGET-ACTIONS-UNSUPPORTED"
      "The respondent Registry may not declare widget action outputs until this host admits an explicit widget-action boundary."
      [("widgets", JArr (List.map widget_label actionWidgets))]) ++
  when (negb (length receipts =? 1)%nat || negb (length dataInputs =? 1)%nat
        || negb (is_lit (prop (default JUndef (head dataInputs)) "name") "receipt")
        || negb (is_true (prop (default JUndef (head dataInputs)) "required")))
    (diagnostic "RESPONDENT-RECEIPT-WIDGET-INPUT" "The admitted ReceiptPanel must declare exactly one required named receipt input."
      [("receiptWidgets", jcount (length receipts));
       ("dataInputs", JArr (List.map (λ e, JObj [("name", jtext (prop e "name")); ("required", prop e "required")]) dataInputs))]).

(** ** The locales *)

Definition isLocaleDocument (v : jsv) : bool :=
  let target := record (prop (record v) "target") in
  is_lit (prop (record v) "$formspecLocale") "2.0" && is_string (prop (record v) "version") && is_string (prop (record v) "locale") &&
  (is_lit (prop target "kind") "app" || is_lit (prop target "kind") "definition") && is_string (prop target "url") &&
  isRecord (prop (record v) "strings").

Section locales.
Context `{Locales : !SurfaceLocales}.

Definition shellLocaleKey (key : string) : string := SURFACE_LOCALE_KEY_PREFIX +:+ key.

Definition app_locales (context : AppGraphContext) (policy : RespondentPublicAppPolicy) : list jsv :=
  List.filter (λ d, is_lit (prop (prop d "target") "kind") "app" && is_lit (prop (prop d "target") "url") (appId policy))
    (List.filter isLocaleDocument (List.map document (of_kind "locale" context))).

Definition missing_keys (loaded : list jsv) (app locale : string) : list string :=
  List.filter (λ key, match lookupKey loaded app locale (shellLocaleKey key) with Some _ => false | None => true end) SURFACE_STRING_KEYS.

Definition validateAppLocales (context : AppGraphContext) (policy : RespondentPublicAppPolicy) : list AppGraphDiagnostic :=
  let appLocales := app_locales context policy in
  match appLocales with
  | [] => [{| code := "RESPONDENT-APP-LOCALE-MISSING"; message := "The respondent app must provide an App-target Locale 2.0 document.";
             details := None |}]
  | _ =>
      flat_map (λ locale,
        let missing := missing_keys appLocales (appId policy) locale in
        when (negb (length missing =? 0)%nat)
          (diagnostic "RESPONDENT-SHELL-LOCALE-INCOMPLETE"
            ("App locale '" +:+ locale +:+ "' does not resolve every closed Surface shell string through its same-target fallback chain.")
            [("locale", JStr locale); ("missing", JArr (List.map JStr missing))]))
        (getAvailableLocales appLocales (appId policy))
  end.

(** [createRespondentPublicAppValidator(policy)] *)
Definition respondentPublicAppValidator (policy : RespondentPublicAppPolicy) (context : AppGraphContext) : list AppGraphDiagnostic :=
  validateManifestIdentity context policy ++ validatePublicSurfaces context policy ++ validateSelectedRespondentFlow context ++
  validateRespondentRegistries context policy ++ validateReceiptSources context policy ++ validateAppLocales context policy.
End locales.

(** * What an admitted public app is *)

(** ** Lists *)

Lemma when_nil b d : when b d = [] ↔ b = false.
Proof. by destruct b. Qed.

Lemma flat_map_nil {A B} (f : A → list B) l : flat_map f l = [] ↔ ∀ x, x ∈ l → f x = [].
Proof.
  induction l as [|a l IH]; simpl; [by split; [intros _ x ?%elem_of_nil|]|]. rewrite app_nil, IH. split.
  - intros [Ha Hl] x [->|Hx]%elem_of_cons; [done|by apply Hl].
  - intros H. split; [apply H; left|intros x Hx; apply H; by right].
Qed.

Lemma length_one {A} (l : list A) : negb (length l =? 1)%nat = false ↔ ∃ x, l = [x].
Proof.
  rewrite negb_false_iff, Nat.eqb_eq. split; [|by intros [x ->]].
  destruct l as [|x [|]]; try done. by exists x.
Qed.

Lemma is_text_spec v t : is_text v (Some t) = true ↔ v = JStr t.
Proof. unfold is_text, opt_str. destruct v; simpl; split; intros H; try done; [by apply String.eqb_eq in H as ->|injection H as ->; apply String.eqb_refl]. Qed.

Lemma is_lit_false v s : is_lit v s = false ↔ v ≠ JStr s.
Proof. rewrite <- not_true_iff_false, is_lit_spec. done. Qed.

Lemma text_spec v t : text v = Some t ↔ v = JStr t.
Proof. destruct v; simpl; split; intros H; try done; by injection H as ->. Qed.

Lemma kept_by_all {A} (p : A → bool) l : (∀ x, x ∈ l → p x = true) → List.filter p l = l.
Proof.
  induction l as [|a l IH]; [done|]. intros H. simpl. rewrite (H a) by left. f_equal. apply IH. intros x Hx. apply H. by right.
Qed.

Lemma filter_and {A} (p q : A → bool) l : List.filter (λ x, p x && q x) l = List.filter q (List.filter p l).
Proof. induction l as [|a l IH]; [done|]. simpl. destruct (p a); simpl; by rewrite IH. Qed.

(** ** Reports *)

Lemma for_all_diagnostics {A} (f : A → report) l : diagnostics (for_all f l) = flat_map (λ a, diagnostics (f a)) l.
Proof. induction l as [|a l IH]; [done|]. simpl. by rewrite IH. Qed.

Lemma for_all_count {A} (count : report → nat) (f : A → report) l :
  count nothing = 0 → (∀ r s, count (also r s) = count r + count s) → count (for_all f l) = list_sum (List.map (λ a, count (f a)) l).
Proof. intros H0 Ha. induction l as [|a l IH]; [done|]. simpl. by rewrite Ha, IH. Qed.

(** A sum of zeros and ones counts the ones. *)
Lemma sum_filter {A} (p : A → bool) (f : A → nat) l :
  (∀ a, a ∈ l → f a = if p a then 1 else 0) → list_sum (List.map f l) = length (List.filter p l).
Proof.
  induction l as [|a l IH]; [done|]. intros H. simpl. rewrite (H a) by (left). rewrite IH by (intros b Hb; apply H; by right).
  by destruct (p a).
Qed.

(** Two classes with one element each make a list of two. *)
Lemma two_classes {A} (p q : A → bool) l x y :
  (∀ a, a ∈ l → p a = true ∨ q a = true) → (∀ a, p a = true → q a = false) → List.filter p l = [x] → List.filter q l = [y] →
  l = [x; y] ∨ l = [y; x].
Proof.
  intros Hc Hd. assert (∀ l, (∀ a, a ∈ l → p a = true ∨ q a = true) → List.filter p l = [] → List.filter q l = [] → l = []) as H0.
  { intros [|a l'] H Hp Hq; [done|]. destruct (H a) as [E|E]; [left| |]; simpl in *; by rewrite E in *. }
  assert (∀ l x, (∀ a, a ∈ l → p a = true ∨ q a = true) → List.filter p l = [x] → List.filter q l = [] → l = [x]) as Hp1.
  { intros l' x' H Hp Hq. destruct l' as [|a l']; [done|]. destruct (H a) as [E|E]; [left| |]; simpl in *; rewrite E in *; [|done].
    rewrite (Hd a E) in Hq. injection Hp as -> Hp. f_equal. apply H0; [|done..]. intros b Hb. apply H. by right. }
  assert (∀ l y, (∀ a, a ∈ l → p a = true ∨ q a = true) → List.filter p l = [] → List.filter q l = [y] → l = [y]) as Hq1.
  { intros l' x' H Hp Hq. destruct l' as [|a l']; [done|]. destruct (H a) as [E|E]; [left| |]; simpl in *; rewrite E in *; [done|].
    destruct (p a) eqn:Ep; [done|]. injection Hq as -> Hq. f_equal. apply H0; [|done..]. intros b Hb. apply H. by right. }
  destruct l as [|a l]; [done|]. intros Hp Hq. assert (∀ b, b ∈ l → p b = true ∨ q b = true) as Hl by (intros b Hb; apply Hc; by right).
  destruct (Hc a) as [E|E]; [left| |]; simpl in *; rewrite E in *.
  - rewrite (Hd a E) in Hq. injection Hp as -> Hp. left. f_equal. by apply Hq1.
  - destruct (p a) eqn:Ep; [by rewrite (Hd a Ep) in E|]. injection Hq as -> Hq. right. f_equal. by apply Hp1.
Qed.

(** ** The shape of an app *)

Definition routes_of (surface : ArtifactHandle) : list jsv := records (prop (record (document surface)) "routes").
Definition slots_of (route : jsv) : list jsv := records (prop route "slots").
Definition slots_of_type (k : string) (route : jsv) : list jsv := List.filter (λ s, is_lit (prop s "slotType") k) (slots_of route).
Definition binding_of (slot : jsv) : jsv := record (prop slot "binding").

(** A widget of the starter module with one of the two names of its kind. *)
Definition starter (policy : RespondentPublicAppPolicy) (kind : string → bool) (slot : jsv) : Prop :=
  prop (binding_of slot) "actionBindings" = JUndef ∧ prop (binding_of slot) "moduleId" = JStr (starterModuleId policy) ∧
  ∃ w, prop (binding_of slot) "widgetName" = JStr w ∧ kind w = true.

(** A transition with the case as its one parameter. *)
Definition carries_case (proof transition : jsv) : bool :=
  strict_eq (prop transition "to") (prop proof "id") && exactCaseRefTransitionParams (prop transition "params").

(** The surface: an intake route, and a proof route with the receipt that one
    transition leads to. *)
Record surface_shape (policy : RespondentPublicAppPolicy) (receipt : option ReceiptSourceIdentity) (surface : ArtifactHandle)
    (intake proof transition panel : jsv) : Prop := {
  shape_routes : routes_of surface = [intake; proof] ∨ routes_of surface = [proof; intake];
  shape_intake : prop intake "routeClass" = JStr "intake";
  shape_proof : prop proof "routeClass" = JStr "proof";
  shape_path : prop proof "path" = JStr "/receipt/{caseRef}" ∧
    ∃ param, records (prop proof "params") = [param] ∧ prop param "name" = JStr "caseRef" ∧ prop param "type" = JStr "string";
  shape_transition : List.filter (carries_case proof) (records (prop intake "transitions")) = [transition];
  shape_embeds : ∀ slot, slot ∈ slots_of intake ∨ slot ∈ slots_of proof → prop slot "slotType" ≠ JStr "embed-route";
  shape_forms : slots_of_type "definition-form" proof = [];
  shape_widgets : ∀ slot, slot ∈ slots_of_type "module-widget" intake → starter policy isIntakeWidget slot;
  shape_panel : slots_of_type "module-widget" proof = [panel] ∧ starter policy isReceiptWidget panel;
  shape_bound : receipt_bound receipt (binding_of panel) = true ∧ receipt_available receipt surface proof panel = true
}.

(** The submit action, its one host event and what it leads to. *)
Record submit_shape (action transition : jsv) : Prop := {
  submit_preconditions : prop action "preconditions" = JUndef ∨ prop action "preconditions" = JArr [];
  submit_validation : isRecord (prop action "validation") = true → canonical_validation (prop action "validation") = true;
  submit_effect : ∃ effect, records (prop action "effects") = [effect] ∧ is_submit_event effect = true;
  submit_trigger : is_text (prop transition "trigger") (text (prop action "id")) = true ∨ prop transition "trigger" = JStr "submit";
  submit_always : prop transition "when" = JUndef
}.

(** One starter module that contributes every widget of the registries, and one
    receipt widget with one required input. *)
Definition registry_shape (context : AppGraphContext) (policy : RespondentPublicAppPolicy) : Prop :=
  let entries := registry_entries context in
  let widgets := List.filter (λ e, is_lit (prop e "category") "widget") entries in
  ∃ module widget input,
    List.filter (λ e, is_lit (prop e "category") "module") entries = [module] ∧ prop module "name" = JStr (starterModuleId policy) ∧
    (∀ e, e ∈ widgets → starter_widget (omap str_of (arr_of (prop module "contributes"))) e = true ∧
      prop (record (prop e "widgetShape")) "actionOutputs" = JUndef) ∧
    List.filter (contributed_receipt (omap str_of (arr_of (prop module "contributes")))) widgets = [widget] ∧
    records (prop (record (prop widget "widgetShape")) "dataInputs") = [input] ∧
    prop input "name" = JStr "receipt" ∧ prop input "required" = JBool true.

Section theorems.
Context `{Locales : !SurfaceLocales} (context : AppGraphContext) (policy : RespondentPublicAppPolicy).

(** The app as a whole. *)
Record respondent_app (surface definition actions catalog : ArtifactHandle) (intake proof form panel action transition source : jsv) : Prop := {
  app_identity : prop (record (manifest_document context)) "id" = JStr (appId policy);
  app_module : ∃ m v, records (prop (record (manifest_document context)) "modules") = [m] ∧
    prop m "id" = JStr (starterModuleId policy) ∧ prop m "version" = JStr v;
  app_surface : of_kind "surface" context = [surface] ∧
    ∃ url, url ≠ "" ∧ prop (record (manifest_document context)) "entrySurface" = JStr url ∧ ref_url surface = JStr url;
  app_shape : surface_shape policy (respondentReceiptSource context policy) surface intake proof transition panel;
  app_form : slots_of_type "definition-form" intake = [form];
  app_entry : is_text (prop intake "id") (text (prop (record (document surface)) "entry")) = true ∧
    is_text (prop proof "id") (text (prop (record (document surface)) "entry")) = false;
  app_definition : ∃ ref, ref ≠ "" ∧ prop (binding_of form) "definitionRef" = JStr ref ∧ bound_definitions context (Some ref) = [definition] ∧
    of_kind "responseActions" context = [actions] ∧
    prop (record (prop (record (document actions)) "targetDefinition")) "url" = JStr ref;
  app_action : records (prop (record (document actions)) "actions") = [action] ∧ prop action "intent" = JStr "submit";
  app_submit : submit_shape action transition;
  app_registry : registry_shape context policy;
  app_source : flat_map sources_of (of_kind "dataSources" context) = [source] ∧ is_receipt_source policy source = true ∧
    catalog ∈ of_kind "dataSources" context ∧ source ∈ sources_of catalog;
  app_locale : app_locales context policy ≠ [] ∧
    ∀ locale key, locale ∈ getAvailableLocales (app_locales context policy) (appId policy) → key ∈ SURFACE_STRING_KEYS →
      is_Some (lookupKey (app_locales context policy) (appId policy) locale (shellLocaleKey key))
}.

(** ** The manifest, the locales, the sources and the registries *)

Lemma manifest_accepted : validateManifestIdentity context policy = [] ↔
  prop (record (manifest_document context)) "id" = JStr (appId policy) ∧
  ∃ m v, records (prop (record (manifest_document context)) "modules") = [m] ∧ prop m "id" = JStr (starterModuleId policy) ∧ prop m "version" = JStr v.
Proof.
  unfold validateManifestIdentity. rewrite app_nil, !when_nil, !orb_false_iff, length_one, !negb_false_iff, is_lit_spec.
  apply and_iff_compat_l. split.
  - intros [[[m Hm] Hi] Hv]. rewrite Hm in *. simpl in Hi, Hv. apply is_lit_spec in Hi. exists m.
    destruct (prop m "version") as [| | | |v| |]; try done. by exists v.
  - intros (m & v & Hm & Hi & Hv). rewrite Hm. simpl. rewrite Hi, Hv. split; [split; [by exists m|by apply is_lit_spec]|done].
Qed.

Lemma locales_accepted : validateAppLocales context policy = [] ↔
  app_locales context policy ≠ [] ∧
  ∀ locale key, locale ∈ getAvailableLocales (app_locales context policy) (appId policy) → key ∈ SURFACE_STRING_KEYS →
    is_Some (lookupKey (app_locales context policy) (appId policy) locale (shellLocaleKey key)).
Proof.
  unfold validateAppLocales. destruct (app_locales context policy) as [|d l] eqn:E; [by split; [|intros [[] _]]|].
  rewrite flat_map_nil. split.
  - intros H. split; [done|]. intros locale key Hl Hk. specialize (H locale Hl). cbv zeta in H. apply when_nil in H.
    apply negb_false_iff, Nat.eqb_eq in H. apply nil_length_inv in H. unfold missing_keys in H. rewrite filter_nil_iff in H.
    specialize (H key Hk). simpl in H. by destruct (lookupKey _ _ _ _).
  - intros [_ H] locale Hl. cbv zeta. apply when_nil, negb_false_iff, Nat.eqb_eq.
    assert (missing_keys (d :: l) (appId policy) locale = []) as ->; [|done]. unfold missing_keys. apply filter_nil_iff.
    intros key Hk. simpl. by destruct (H locale key Hl Hk) as [? ->].
Qed.

Lemma sources_accepted : validateReceiptSources context policy = [] ↔
  ∃ catalog source, flat_map sources_of (of_kind "dataSources" context) = [source] ∧ is_receipt_source policy source = true ∧
    catalog ∈ of_kind "dataSources" context ∧ source ∈ sources_of catalog.
Proof.
  unfold validateReceiptSources. rewrite app_nil, when_nil, length_one, flat_map_nil. split.
  - intros [Hd [s Hs]]. assert (∀ x, x ∈ flat_map sources_of (of_kind "dataSources" context) → is_receipt_source policy x = true) as Hall.
    { intros x (h & Hh & Hx)%list_elem_of_In%in_flat_map. specialize (Hd h (proj2 (list_elem_of_In _ _) Hh)). rewrite flat_map_nil in Hd.
      specialize (Hd x (proj2 (list_elem_of_In _ _) Hx)). by apply when_nil, negb_false_iff in Hd. }
    rewrite (kept_by_all _ _ Hall) in Hs.
    assert (s ∈ flat_map sources_of (of_kind "dataSources" context)) as Hin by (rewrite Hs; left).
    pose proof Hin as (h & Hh & Hx)%list_elem_of_In%in_flat_map. exists h, s. rewrite !list_elem_of_In. split; [done|]. split; [by apply Hall|done].
  - intros (catalog & s & Hs & Hr & _). rewrite Hs. simpl. rewrite Hr. split; [|by exists s].
    intros h Hh. apply flat_map_nil. intros x Hx. unfold source_diagnostics. apply when_nil, negb_false_iff.
    assert (x ∈ flat_map sources_of (of_kind "dataSources" context)) as Hin.
    { apply list_elem_of_In, in_flat_map. exists h. by rewrite <- !list_elem_of_In. }
    rewrite Hs in Hin. by apply list_elem_of_singleton in Hin as ->.
Qed.

Lemma registries_accepted : validateRespondentRegistries context policy = [] ↔ registry_shape context policy.
Proof.
  unfold validateRespondentRegistries, registry_shape. cbv zeta.
  set (modules := List.filter (λ e, is_lit (prop e "category") "module") (registry_entries context)).
  set (widgets := List.filter (λ e, is_lit (prop e "category") "widget") (registry_entries context)).
  rewrite !app_nil, !when_nil, !orb_false_iff, !length_one, !negb_false_iff, !Nat.eqb_eq. split.
  - intros ([[m Hm] [m' Hm']] & Hn & Ha & [[[[w Hw] [i Hi]] Hname] Hreq]). rewrite Hm in Hm'. simpl in Hm'.
    destruct (is_lit (prop m "name") (starterModuleId policy)) eqn:En; [|done]. injection Hm' as <-. apply is_lit_spec in En.
    rewrite Hm in *. simpl in *. rewrite (proj2 (is_lit_spec _ _) En) in *. simpl in *. rewrite Hw in *. rewrite Hi in *. simpl in *.
    exists m, w, i. split; [done|]. split; [done|]. split; [|split; [done|split; [done|]]].
    + intros e He. apply nil_length_inv in Hn, Ha. rewrite filter_nil_iff in Hn, Ha. specialize (Hn e He). specialize (Ha e He). simpl in *.
      apply negb_false_iff in Hn, Ha. split; [done|by apply is_undefined_spec].
    + apply is_lit_spec in Hname. split; [done|]. by destruct (prop i "required") as [| |[]| | | |].
  - intros (m & w & i & Hm & En & Hall & Hw & Hi & Hname & Hreq). rewrite Hm. simpl. rewrite (proj2 (is_lit_spec _ _) En). simpl.
    rewrite Hw, Hi. simpl. rewrite Hname, Hreq. split; [by split; eexists|]. split; [|split; [|by repeat split; eexists]].
    + apply length_zero_iff_nil, filter_nil_iff. intros e He. by rewrite (proj1 (Hall e He)).
    + apply length_zero_iff_nil, filter_nil_iff. intros e He. by rewrite (proj2 (Hall e He)).
Qed.

(** ** The surfaces *)

Lemma isIntakeWidget_spec w : isIntakeWidget w = true ↔ w = "IntakeBanner" ∨ w = "x-intake-banner".
Proof. unfold isIntakeWidget. by rewrite orb_true_iff, !String.eqb_eq. Qed.
Lemma isReceiptWidget_spec w : isReceiptWidget w = true ↔ w = "ReceiptPanel" ∨ w = "x-receipt-panel".
Proof. unfold isReceiptWidget. by rewrite orb_true_iff, !String.eqb_eq. Qed.

Lemma refused_intake m w : widget_refused policy "intake" m w = false ↔
  m = Some (starterModuleId policy) ∧ ∃ w', w = Some w' ∧ isIntakeWidget w' = true.
Proof.
  unfold widget_refused. rewrite orb_false_iff, negb_false_iff, bool_decide_eq_true. apply and_iff_compat_l. destruct w as [w|]; [|by split; [|intros (? & ? & _)]].
  split.
  - intros H. exists w. split; [done|]. rewrite !orb_false_iff, !negb_false_iff in H. destruct H as [[[_ Hs] Hr] _]. rewrite andb_true_r in Hr.
    apply str_in_spec in Hs. unfold PUBLIC_STARTER_WIDGETS in Hs. rewrite !elem_of_cons in Hs. by destruct Hs as [->|[->|[->|[->|[]%elem_of_nil]]]].
  - intros (w' & [= <-] & H). by apply isIntakeWidget_spec in H as [->| ->].
Qed.

Lemma refused_proof m w : widget_refused policy "proof" m w = false ↔
  m = Some (starterModuleId policy) ∧ ∃ w', w = Some w' ∧ isReceiptWidget w' = true.
Proof.
  unfold widget_refused. rewrite orb_false_iff, negb_false_iff, bool_decide_eq_true. apply and_iff_compat_l. destruct w as [w|]; [|by split; [|intros (? & ? & _)]].
  split.
  - intros H. exists w. split; [done|]. rewrite !orb_false_iff, !negb_false_iff in H. destruct H as [[[_ Hs] _] Hr]. rewrite andb_true_r in Hr.
    apply str_in_spec in Hs. unfold PUBLIC_STARTER_WIDGETS in Hs. rewrite !elem_of_cons in Hs. by destruct Hs as [->|[->|[->|[->|[]%elem_of_nil]]]].
  - intros (w' & [= <-] & H). by apply isReceiptWidget_spec in H as [->| ->].
Qed.

Section surface.
Context (receipt : option ReceiptSourceIdentity) (surface : ArtifactHandle).

Definition panel_ok (route slot : jsv) : Prop :=
  receipt_bound receipt (binding_of slot) = true ∧ receipt_available receipt surface route slot = true.

Lemma intake_widget_accepted route slot :
  diagnostics (widget_report policy receipt surface route "intake" slot) = [] ↔ starter policy isIntakeWidget slot.
Proof.
  unfold widget_report, starter, binding_of. cbn [diagnostics also say]. rewrite !app_nil, !when_nil, negb_false_iff, is_undefined_spec, refused_intake, text_spec.
  setoid_rewrite text_spec. split; [tauto|]. intros (Ha & Hm & w & Hw & Hi). split; [by eauto 6|]. rewrite Hw. simpl.
  by apply isIntakeWidget_spec in Hi as [->| ->].
Qed.

Lemma proof_widget_accepted route slot :
  diagnostics (widget_report policy receipt surface route "proof" slot) = [] ↔ starter policy isReceiptWidget slot ∧ panel_ok route slot.
Proof.
  unfold widget_report, starter, panel_ok, binding_of. cbn [diagnostics also say].
  rewrite !app_nil, !when_nil, negb_false_iff, is_undefined_spec, refused_proof, text_spec. setoid_rewrite text_spec.
  assert (∀ w, prop (record (prop slot "binding")) "widgetName" = JStr w → isReceiptWidget w = true →
    diagnostics (match text (prop (record (prop slot "binding")) "widgetName") with
      | Some w => if nonempty w && isReceiptWidget w then receipt_panel receipt surface route slot (record (prop slot "binding")) else nothing
      | None => nothing end) = [] ↔ receipt_bound receipt (record (prop slot "binding")) = true ∧ receipt_available receipt surface route slot = true) as Hp.
  { intros w Hw Hr. rewrite Hw. simpl. rewrite Hr, (proj2 (nonempty_spec w)), andb_true_r by (intros ->; done). cbn [receipt_panel diagnostics].
    by rewrite app_nil, !when_nil, !negb_false_iff. }
  split.
  - intros [[Ha [Hm (w & Hw & Hr)]] Hd]. split; [by eauto|]. by apply (Hp w).
  - intros [(Ha & Hm & w & Hw & Hr) Hd]. split; [by eauto|]. by apply (Hp w).
Qed.

Lemma intake_slot_accepted route slot : diagnostics (slot_report policy receipt surface route "intake" slot) = [] ↔
  prop slot "slotType" ≠ JStr "embed-route" ∧ (is_lit (prop slot "slotType") "module-widget" = true → starter policy isIntakeWidget slot).
Proof.
  unfold slot_report. cbn [diagnostics also say]. rewrite !app_nil, !when_nil, is_lit_false, andb_false_r.
  destruct (is_lit (prop slot "slotType") "module-widget").
  - rewrite intake_widget_accepted. tauto.
  - simpl. split; [by intros [[? _] _]|intros [? _]]. done.
Qed.

Lemma proof_slot_accepted route slot : diagnostics (slot_report policy receipt surface route "proof" slot) = [] ↔
  prop slot "slotType" ≠ JStr "embed-route" ∧ is_lit (prop slot "slotType") "definition-form" = false ∧
  (is_lit (prop slot "slotType") "module-widget" = true → starter policy isReceiptWidget slot ∧ panel_ok route slot).
Proof.
  unfold slot_report. cbn [diagnostics also say]. rewrite !app_nil, !when_nil, is_lit_false, andb_true_r.
  destruct (is_lit (prop slot "slotType") "module-widget").
  - rewrite proof_widget_accepted. tauto.
  - simpl. split; [by intros [[? ?] _]|intros (? & ? & _)]. done.
Qed.

Lemma widget_panels route c slot : receiptWidgets (widget_report policy receipt surface route c slot) =
  match text (prop (binding_of slot) "widgetName") with Some w => if nonempty w && isReceiptWidget w then 1 else 0 | None => 0 end.
Proof. unfold widget_report, binding_of. simpl. destruct (text _) as [w|]; [|done]. by destruct (nonempty w && isReceiptWidget w). Qed.

Lemma intake_slot_panels route slot : diagnostics (slot_report policy receipt surface route "intake" slot) = [] →
  receiptWidgets (slot_report policy receipt surface route "intake" slot) = 0.
Proof.
  intros [_ Hw]%intake_slot_accepted. unfold slot_report. cbn [also receiptWidgets say]. rewrite Nat.add_0_l.
  destruct (is_lit (prop slot "slotType") "module-widget"); [|done]. destruct (Hw eq_refl) as (_ & _ & w & Hn & Hi).
  rewrite widget_panels, Hn. simpl. by apply isIntakeWidget_spec in Hi as [->| ->].
Qed.

Lemma proof_slot_panels route slot : diagnostics (slot_report policy receipt surface route "proof" slot) = [] →
  receiptWidgets (slot_report policy receipt surface route "proof" slot) = if is_lit (prop slot "slotType") "module-widget" then 1 else 0.
Proof.
  intros (_ & _ & Hw)%proof_slot_accepted. unfold slot_report. cbn [also receiptWidgets say]. rewrite Nat.add_0_l.
  destruct (is_lit (prop slot "slotType") "module-widget"); [|done]. destruct (Hw eq_refl) as [(_ & _ & w & Hn & Hi) _].
  rewrite widget_panels, Hn. simpl. by apply isReceiptWidget_spec in Hi as [->| ->].
Qed.

(** *** Routes *)

Lemma public_class_spec v c : public_class (text v) = Some c ↔ v = JStr c ∧ (c = "intake" ∨ c = "proof").
Proof.
  unfold public_class. destruct v; simpl; try (by split; [|intros [? _]]). split.
  - destruct (nonempty s && str_in s PUBLIC_ROUTE_CLASSES) eqn:E; [|done]. intros [= <-]. split; [done|].
    apply andb_true_iff in E as [_ E]. apply str_in_spec in E. unfold PUBLIC_ROUTE_CLASSES in E. rewrite !elem_of_cons in E.
    destruct E as [E|[E|[]%elem_of_nil]]; tauto.
  - intros [[= ->] [->| ->]]; done.
Qed.

Definition route_ok (routes : list jsv) (route : jsv) : Prop := diagnostics (route_report policy receipt surface routes route) = [].

Lemma route_ok_class routes route : route_ok routes route → is_lit (prop route "routeClass") "intake" = true ∨ is_lit (prop route "routeClass") "proof" = true.
Proof.
  unfold route_ok, route_report. destruct (public_class _) as [c|] eqn:E; [|done]. apply public_class_spec in E as [-> [->| ->]]; tauto.
Qed.

Lemma slots_of_type_elem k route slot : slot ∈ slots_of_type k route ↔ slot ∈ slots_of route ∧ is_lit (prop slot "slotType") k = true.
Proof. exact (elem_of_filterb (λ s, is_lit (prop s "slotType") k) (slots_of route) slot). Qed.

Lemma intake_route_ok routes route : prop route "routeClass" = JStr "intake" → route_ok routes route ↔
  (∀ slot, slot ∈ slots_of route → prop slot "slotType" ≠ JStr "embed-route") ∧
  (∀ slot, slot ∈ slots_of_type "module-widget" route → starter policy isIntakeWidget slot).
Proof.
  intros E. unfold route_ok, route_report. rewrite (proj2 (public_class_spec _ "intake")) by (split; [done|by left]).
  cbn [diagnostics also class_report]. simpl app. rewrite for_all_diagnostics, flat_map_nil. setoid_rewrite intake_slot_accepted.
  setoid_rewrite slots_of_type_elem. split.
  - intros H. split; [intros slot Hs; by apply H|intros slot [Hs Ht]; by apply H].
  - intros [H1 H2] slot Hs. split; [by apply H1|intros Ht; by apply H2].
Qed.

Lemma proof_route_ok routes route : prop route "routeClass" = JStr "proof" → route_ok routes route ↔
  has_case_ref route = true ∧ (∃ t, incoming routes route = [t]) ∧
  (∀ slot, slot ∈ slots_of route → prop slot "slotType" ≠ JStr "embed-route") ∧ slots_of_type "definition-form" route = [] ∧
  (∀ slot, slot ∈ slots_of_type "module-widget" route → starter policy isReceiptWidget slot ∧ panel_ok route slot).
Proof.
  intros E. unfold route_ok, route_report. rewrite (proj2 (public_class_spec _ "proof")) by (split; [done|by right]).
  cbn [diagnostics also class_report]. rewrite String.eqb_refl, for_all_diagnostics, app_nil, flat_map_nil. unfold proof_diagnostics.
  rewrite app_nil, !when_nil, negb_false_iff, length_one. setoid_rewrite proof_slot_accepted. setoid_rewrite slots_of_type_elem.
  unfold slots_of_type. rewrite filter_nil_iff. split.
  - intros [[H1 H2] H]. split; [done|]. split; [done|]. split; [intros slot Hs; by apply H|]. split; [intros slot Hs; by apply H|].
    intros slot [Hs Ht]. by apply H.
  - intros (H1 & H2 & He & Hf & Hw). split; [done|]. intros slot Hs. split; [by apply He|]. split; [by apply Hf|intros Ht; by apply Hw].
Qed.

Lemma route_classes routes route :
  intakeRoutes (route_report policy receipt surface routes route) = (if is_lit (prop route "routeClass") "intake" then 1 else 0) ∧
  proofRoutes (route_report policy receipt surface routes route) = (if is_lit (prop route "routeClass") "proof" then 1 else 0).
Proof.
  assert (∀ c l, intakeRoutes (for_all (slot_report policy receipt surface route c) l) = 0 ∧
    proofRoutes (for_all (slot_report policy receipt surface route c) l) = 0) as H0.
  { intros c l. induction l as [|s l [IH1 IH2]]; [done|]. cbn [for_all foldr also intakeRoutes proofRoutes]. unfold for_all in IH1, IH2.
    rewrite IH1, IH2. unfold slot_report, widget_report, receipt_panel. cbn [also say intakeRoutes proofRoutes]. by repeat case_match. }
  unfold route_report. destruct (public_class _) as [c|] eqn:E.
  - cbn [also intakeRoutes proofRoutes]. rewrite (proj1 (H0 _ _)), (proj2 (H0 _ _)). apply public_class_spec in E as [-> [->| ->]]; done.
  - cbn [say intakeRoutes proofRoutes]. split; destruct (is_lit _ _) eqn:El; try done; apply is_lit_spec in El; rewrite El in E; done.
Qed.

Lemma route_panels routes route : route_ok routes route → receiptWidgets (route_report policy receipt surface routes route) =
  if is_lit (prop route "routeClass") "proof" then length (slots_of_type "module-widget" route) else 0.
Proof.
  unfold route_ok, route_report. destruct (public_class _) as [c|] eqn:E; [|done]. apply public_class_spec in E as [-> Hc].
  cbn [diagnostics also receiptWidgets class_report]. intros [_ H]%app_nil. rewrite for_all_diagnostics, flat_map_nil in H.
  rewrite Nat.add_0_l, (for_all_count receiptWidgets) by done. destruct Hc as [->| ->]; simpl is_lit; cbv iota.
  - rewrite (sum_filter (λ _, false)); [by rewrite (proj2 (filter_nil_iff _ _))|]. intros slot Hs. by apply intake_slot_panels, H.
  - rewrite (sum_filter (λ s, is_lit (prop s "slotType") "module-widget")); [done|]. intros slot Hs. by apply proof_slot_panels, H.
Qed.
End surface.

(** *** The surface *)

Section one_surface.
Context (receipt : option ReceiptSourceIdentity) (surface : ArtifactHandle).
Let rs := routes_of surface.
Let r := surface_report policy receipt surface.

Lemma surface_diagnostics : diagnostics r = [] ↔ ∀ route, route ∈ rs → route_ok receipt surface rs route.
Proof. unfold r, surface_report. fold (routes_of surface). by rewrite for_all_diagnostics, flat_map_nil. Qed.

Lemma surface_intakes : intakeRoutes r = length (List.filter (λ x, is_lit (prop x "routeClass") "intake") rs).
Proof.
  unfold r, surface_report. fold (routes_of surface). rewrite (for_all_count intakeRoutes) by done. apply sum_filter. intros x _. apply route_classes.
Qed.

Lemma surface_proofs : proofRoutes r = length (List.filter (λ x, is_lit (prop x "routeClass") "proof") rs).
Proof.
  unfold r, surface_report. fold (routes_of surface). rewrite (for_all_count proofRoutes) by done. apply sum_filter. intros x _. apply route_classes.
Qed.

Lemma surface_panels : (∀ route, route ∈ rs → route_ok receipt surface rs route) →
  receiptWidgets r = list_sum (List.map (λ x, if is_lit (prop x "routeClass") "proof" then length (slots_of_type "module-widget" x) else 0) rs).
Proof.
  intros H. unfold r, surface_report. fold (routes_of surface). rewrite (for_all_count receiptWidgets) by done. fold rs.
  f_equal. apply map_ext_in. intros x Hx. apply route_panels, H. by apply list_elem_of_In.
Qed.

(** Of an intake and a proof route, in either order. *)
Definition pair_of (intake proof : jsv) : Prop := rs = [intake; proof] ∨ rs = [proof; intake].

Lemma pair_incoming intake proof : pair_of intake proof → prop intake "routeClass" = JStr "intake" → prop proof "routeClass" = JStr "proof" →
  incoming rs proof = List.filter (carries_case proof) (records (prop intake "transitions")).
Proof.
  intros Hp Hi Hf. unfold incoming, carries_case. destruct Hp as [->| ->]; simpl; rewrite Hi, Hf; simpl; by rewrite ?app_nil_r.
Qed.

Lemma pair_panels intake proof : pair_of intake proof → prop intake "routeClass" = JStr "intake" → prop proof "routeClass" = JStr "proof" →
  list_sum (List.map (λ x, if is_lit (prop x "routeClass") "proof" then length (slots_of_type "module-widget" x) else 0) rs) =
  length (slots_of_type "module-widget" proof).
Proof. intros Hp Hi Hf. destruct Hp as [->| ->]; simpl; rewrite Hi, Hf; simpl; lia. Qed.

Lemma pair_elem intake proof x : pair_of intake proof → x ∈ rs ↔ x = intake ∨ x = proof.
Proof. intros [->| ->]; rewrite !elem_of_cons, elem_of_nil; tauto. Qed.

Lemma pair_exists :
  (∀ x, x ∈ rs → is_lit (prop x "routeClass") "intake" = true ∨ is_lit (prop x "routeClass") "proof" = true) →
  (∃ x, List.filter (λ x, is_lit (prop x "routeClass") "intake") rs = [x]) →
  (∃ x, List.filter (λ x, is_lit (prop x "routeClass") "proof") rs = [x]) →
  ∃ intake proof, pair_of intake proof ∧ prop intake "routeClass" = JStr "intake" ∧ prop proof "routeClass" = JStr "proof".
Proof.
  intros Hc [i Hi] [p Hp]. exists i, p. split.
  - apply (two_classes (λ x, is_lit (prop x "routeClass") "intake") (λ x, is_lit (prop x "routeClass") "proof")); try done.
    intros a ->%is_lit_spec. done.
  - assert (i ∈ List.filter (λ x, is_lit (prop x "routeClass") "intake") rs) as [_ E1]%elem_of_filterb by (rewrite Hi; left).
    assert (p ∈ List.filter (λ x, is_lit (prop x "routeClass") "proof") rs) as [_ E2]%elem_of_filterb by (rewrite Hp; left).
    by apply is_lit_spec in E1, E2.
Qed.

Lemma pair_filters intake proof : pair_of intake proof → prop intake "routeClass" = JStr "intake" → prop proof "routeClass" = JStr "proof" →
  List.filter (λ x, is_lit (prop x "routeClass") "intake") rs = [intake] ∧ List.filter (λ x, is_lit (prop x "routeClass") "proof") rs = [proof].
Proof. intros Hp Hi Hf. destruct Hp as [->| ->]; simpl; by rewrite Hi, Hf. Qed.

Lemma has_case_ref_spec proof : has_case_ref proof = true ↔ prop proof "path" = JStr "/receipt/{caseRef}" ∧
  ∃ param, records (prop proof "params") = [param] ∧ prop param "name" = JStr "caseRef" ∧ prop param "type" = JStr "string".
Proof.
  unfold has_case_ref. rewrite !andb_true_iff, Nat.eqb_eq, !is_lit_spec. split.
  - intros [[[Hp Hl] Hn] Ht]. split; [done|]. destruct (records (prop proof "params")) as [|p [|]]; try done. by exists p.
  - intros (Hp & p & -> & Hn & Ht). done.
Qed.

Lemma surface_accepted : diagnostics r = [] ∧ intakeRoutes r = 1 ∧ proofRoutes r = 1 ∧ receiptWidgets r = 1 ↔
  ∃ intake proof transition panel, surface_shape policy receipt surface intake proof transition panel.
Proof.
  rewrite surface_diagnostics, surface_intakes, surface_proofs. split.
  - intros (Hok & Hi & Hp & Hw). rewrite surface_panels in Hw by done.
    destruct pair_exists as (i & p & Hpair & Ci & Cp); [intros x Hx; by apply (route_ok_class receipt surface rs), Hok|by apply length_one, negb_false_iff, Nat.eqb_eq..|].
    rewrite (pair_panels i p) in Hw by done.
    pose proof (proj1 (intake_route_ok _ _ rs i Ci) (Hok i (proj2 (pair_elem i p i Hpair) (or_introl eq_refl)))) as [He1 Hw1].
    pose proof (proj1 (proof_route_ok _ _ rs p Cp) (Hok p (proj2 (pair_elem i p p Hpair) (or_intror eq_refl)))) as (Hc & [t Ht] & He2 & Hf & Hw2).
    destruct (slots_of_type "module-widget" p) as [|panel [|]] eqn:Es; try done. rewrite (pair_incoming i p) in Ht by done.
    destruct (Hw2 panel) as [Hs [Hb Ha]]; [left|]. exists i, p, t, panel.
    constructor; try done; [by apply has_case_ref_spec|]. intros slot [Hin|Hin]; [by apply He1|by apply He2].
  - intros (i & p & t & panel & [Hpair Ci Cp Hpath Ht He Hf Hw [Hpan Hs] [Hb Ha]]).
    assert (∀ x, x ∈ rs → route_ok receipt surface rs x) as Hok.
    { intros x [->| ->]%(pair_elem i p x Hpair).
      - apply intake_route_ok; [done|]. split; [intros slot Hin; apply He; by left|done].
      - apply proof_route_ok; [done|]. split; [by apply has_case_ref_spec|]. split; [exists t; by rewrite (pair_incoming i p)|].
        split; [intros slot Hin; apply He; by right|]. split; [done|]. rewrite Hpan. intros slot ->%list_elem_of_singleton. done. }
    destruct (pair_filters i p Hpair Ci Cp) as [-> ->]. rewrite (surface_panels Hok), (pair_panels i p Hpair Ci Cp), Hpan. done.
Qed.
End one_surface.

Lemma surfaces_accepted surface : of_kind "surface" context = [surface] →
  validatePublicSurfaces context policy = [] ↔
  ∃ intake proof transition panel, surface_shape policy (respondentReceiptSource context policy) surface intake proof transition panel.
Proof.
  intros E. unfold validatePublicSurfaces. rewrite E. cbn [for_all foldr also nothing diagnostics intakeRoutes proofRoutes receiptWidgets].
  rewrite app_nil_r, !Nat.add_0_r, !app_nil, !when_nil, !negb_false_iff, !Nat.eqb_eq. apply surface_accepted.
Qed.

(** ** The flow *)

Lemma flow_accepted : validateSelectedRespondentFlow context = [] ↔
  ∃ surface url, of_kind "surface" context = [surface] ∧ url ≠ "" ∧ prop (record (manifest_document context)) "entrySurface" = JStr url ∧
    ref_url surface = JStr url ∧ entry_diagnostics context (record (document surface)) = [].
Proof.
  unfold validateSelectedRespondentFlow. cbv zeta. split.
  - destruct (text _) as [url|] eqn:Eu; [|done]. apply text_spec in Eu. destruct (of_kind "surface" context) as [|h [|h2 l]] eqn:Eh; simpl.
    + done.
    + destruct (is_text (ref_url h) (Some url)) eqn:Er; [|done]. apply is_text_spec in Er. destruct (nonempty url) eqn:En; [|done].
      apply nonempty_spec in En. intros H. by exists h, url.
    + destruct (if is_text (ref_url h) _ then _ else _) as [|x [|y l']]; done.
  - intros (h & url & -> & Hn & -> & Hr & He). simpl. rewrite (proj2 (is_text_spec _ _) Hr), (proj2 (nonempty_spec url) Hn). done.
Qed.

Lemma strict_eq_sym a b : strict_eq a b = strict_eq b a.
Proof.
  destruct a, b; simpl; try done; [by destruct b0, b| |apply String.eqb_sym]. unfold num_eq.
  destruct (decide (n = n0)) as [->|Hn]; [done|]. rewrite (bool_decide_eq_false_2 (n = n0)), (bool_decide_eq_false_2 (n0 = n)) by congruence. done.
Qed.

Lemma preconditions_accepted action : has_preconditions action = false ↔
  prop action "preconditions" = JUndef ∨ prop action "preconditions" = JArr [].
Proof.
  unfold has_preconditions. destruct (prop action "preconditions") as [| | | | |[|x l]|]; simpl; split; try done; try (by intros [|]); intros _; by (left + right).
Qed.

Lemma effects_accepted action :
  let effects := place_all (records (prop action "effects")) in
  let submitHostEvents := List.filter (λ e, is_submit_event e.2) effects in
  negb (length effects =? 1)%nat || negb (length submitHostEvents =? 1)%nat || negb (bool_decide (last effects.*1 = head submitHostEvents.*1)) = false ↔
  ∃ effect, records (prop action "effects") = [effect] ∧ is_submit_event effect = true.
Proof.
  cbv zeta. destruct (records (prop action "effects")) as [|e [|e2 l]]; unfold place_all; simpl.
  - split; [done|by intros (? & ? & _)].
  - destruct (is_submit_event e) eqn:E; simpl; split; try done; [intros _; by exists e|]. intros (? & [= <-] & ?). congruence.
  - split; [done|by intros (? & ? & _)].
Qed.

Section submit.
Context (intake proof transition : jsv) (routes : list placed) (k : nat).
Hypothesis Hproofs : List.filter (λ r, is_lit (prop r.2 "routeClass") "proof") routes = [(k, proof)].
Hypothesis Htransition : List.filter (carries_case proof) (records (prop intake "transitions")) = [transition].

Lemma transitions_accepted trigger :
  receipt_transitions [(k, proof)] trigger intake =
  if is_text (prop transition "trigger") trigger || is_lit (prop transition "trigger") "submit" then [transition] else [].
Proof.
  unfold receipt_transitions.
  rewrite (filter_ext _ (λ t, carries_case proof t && (is_text (prop t "trigger") trigger || is_lit (prop t "trigger") "submit"))).
  - by rewrite filter_and, Htransition.
  - intros t. unfold carries_case. simpl. by rewrite orb_false_r, strict_eq_sym.
Qed.

Lemma submit_accepted action : submit_diagnostics routes intake action = [] ↔ submit_shape action transition.
Proof.
  unfold submit_diagnostics. cbv zeta. rewrite Hproofs, transitions_accepted. split.
  - destruct (has_preconditions action) eqn:Ep; [done|]. apply preconditions_accepted in Ep.
    destruct (isRecord (record _) && _) eqn:Ev; [done|]. destruct (_ || _ || _) eqn:Ee; [done|]. apply effects_accepted in Ee.
    destruct (is_text _ _ || is_lit _ _) eqn:Et; [|done]. simpl. destruct (is_undefined _) eqn:Eu; [|done]. intros _.
    constructor; [done| |done| |by apply is_undefined_spec].
    + unfold record in Ev. intros Hr. rewrite Hr in Ev. rewrite Hr in Ev. simpl in Ev. by apply negb_false_iff in Ev.
    + apply orb_true_iff in Et as [Et|Et]; [by left|right; by apply is_lit_spec].
  - intros [Hp Hv He Ht Ha]. rewrite (proj2 (preconditions_accepted action) Hp).
    replace (isRecord (record _) && _) with false.
    2: { unfold record. destruct (isRecord (prop action "validation")) eqn:Er; [|by destruct (prop action "validation")]. rewrite Er. simpl. by rewrite Hv. }
    rewrite (proj2 (effects_accepted action) He).
    replace (is_text _ _ || is_lit _ _) with true by (symmetry; apply orb_true_iff; destruct Ht as [Ht| ->]; [by left|by right]).
    simpl. by rewrite Ha.
Qed.
End submit.

(** *** From the entry to the action *)

Section entry.
Context (surface : ArtifactHandle) (intake proof transition panel : jsv) (receipt : option ReceiptSourceIdentity).
Hypothesis Hshape : surface_shape policy receipt surface intake proof transition panel.

(** The place of the intake route, and of the other. *)
Definition placed_pair (routes : list placed) (i k : nat) : Prop :=
  i ≠ k ∧ (routes = [(i, intake); (k, proof)] ∨ routes = [(k, proof); (i, intake)]).

Lemma placed_routes : ∃ i k, placed_pair (place_all (routes_of surface)) i k.
Proof.
  destruct (shape_routes _ _ _ _ _ _ _ Hshape) as [->| ->]; unfold place_all; simpl; [exists 0, 1|exists 1, 0]; split; auto.
Qed.

Context (routes : list placed) (i k : nat) (Hr : placed_pair routes i k).

Lemma placed_proofs : List.filter (λ r, is_lit (prop r.2 "routeClass") "proof") routes = [(k, proof)].
Proof.
  destruct Hr as [_ [->| ->]]; simpl; by rewrite (shape_intake _ _ _ _ _ _ _ Hshape), (shape_proof _ _ _ _ _ _ _ Hshape).
Qed.

Lemma placed_forms : definition_slots routes = List.map (λ slot, ((i, intake), slot)) (slots_of_type "definition-form" intake).
Proof.
  pose proof (shape_forms _ _ _ _ _ _ _ Hshape) as Hf. unfold slots_of_type, slots_of in *. unfold definition_slots.
  destruct Hr as [_ [->| ->]]; simpl; rewrite Hf; simpl; by rewrite ?app_nil_r.
Qed.

Lemma placed_selected t :
  (∃ selected, List.filter (λ r, is_text (prop r.2 "id") t) routes = [selected] ∧ is_lit (prop selected.2 "routeClass") "intake" = true) ↔
  is_text (prop intake "id") t = true ∧ is_text (prop proof "id") t = false.
Proof.
  pose proof (shape_intake _ _ _ _ _ _ _ Hshape) as Hi. pose proof (shape_proof _ _ _ _ _ _ _ Hshape) as Hp. destruct Hr as [_ [->| ->]]; simpl;
    destruct (is_text (prop intake "id") t), (is_text (prop proof "id") t); simpl; (split; [intros (s & Hs & Hc)|intros [? ?]]); try done;
    try (injection Hs as <-; simpl in Hc; rewrite ?Hp in Hc; done); eexists; (split; [done|simpl; by rewrite Hi]).
Qed.

Lemma placed_selection t : is_text (prop intake "id") t = true → is_text (prop proof "id") t = false →
  List.filter (λ r, is_text (prop r.2 "id") t) routes = [(i, intake)].
Proof. intros Hi Hp. destruct Hr as [_ [->| ->]]; simpl; by rewrite Hi, Hp. Qed.

Lemma action_accepted ref : action_diagnostics context routes intake ref = [] ↔
  ∃ actions action, of_kind "responseActions" context = [actions] ∧
    prop (record (prop (record (document actions)) "targetDefinition")) "url" = JStr ref ∧
    records (prop (record (document actions)) "actions") = [action] ∧ prop action "intent" = JStr "submit" ∧ submit_shape action transition.
Proof.
  unfold action_diagnostics. cbv zeta. destruct (of_kind "responseActions" context) as [|h [|h2 l]].
  - split; [done|by intros (? & ? & ? & _)].
  - simpl. rewrite app_nil_r. destruct (records (prop (record (document h)) "actions")) as [|a [|a2 l]] eqn:Ea.
    + split; [done|]. intros (? & ? & [= <-] & _ & E & _). by rewrite Ea in E.
    + simpl. destruct (is_lit (prop a "intent") "submit") eqn:El.
      * apply is_lit_spec in El. case_bool_decide as Et.
        -- apply text_spec in Et. rewrite (submit_accepted _ _ _ _ _ placed_proofs (shape_transition _ _ _ _ _ _ _ Hshape)). split.
           ++ intros Hs. by exists h, a.
           ++ intros (? & ? & [= <-] & _ & E & _ & Hs). rewrite Ea in E. by injection E as ->.
        -- split; [done|]. intros (? & ? & [= <-] & E & _). by apply text_spec in E.
      * split; [done|]. intros (? & ? & [= <-] & _ & E & Hi & _). rewrite Ea in E. injection E as ->. by rewrite Hi in El.
    + split; [by repeat case_match|]. intros (? & ? & [= <-] & _ & E & _). by rewrite Ea in E.
  - split; [by repeat case_match|by intros (? & ? & ? & _)].
Qed.

Lemma form_accepted t : form_diagnostics context routes (i, intake) t = [] ↔
  ∃ form ref definition, slots_of_type "definition-form" intake = [form] ∧ ref ≠ "" ∧ prop (binding_of form) "definitionRef" = JStr ref ∧
    bound_definitions context (Some ref) = [definition] ∧ action_diagnostics context routes intake ref = [].
Proof.
  unfold form_diagnostics, binding_of. rewrite placed_forms. destruct (slots_of_type "definition-form" intake) as [|f [|f2 l]]; simpl.
  - split; [done|by intros (? & ? & ? & ? & _)].
  - rewrite Nat.eqb_refl. simpl. destruct (text (prop (record (prop f "binding")) "definitionRef")) as [ref|] eqn:Et.
    + apply text_spec in Et. destruct (nonempty ref) eqn:En; simpl.
      * apply nonempty_spec in En. destruct (bound_definitions context (Some ref)) as [|d [|d2 l]] eqn:Ed; simpl.
        -- split; [done|]. intros (? & ? & ? & [= <-] & _ & E & Eb & _). rewrite Et in E. injection E as <-. congruence.
        -- split; [intros H; by exists f, ref, d|]. intros (? & ? & ? & [= <-] & _ & E & Eb & H). rewrite Et in E. by injection E as <-.
        -- split; [done|]. intros (? & ? & ? & [= <-] & _ & E & Eb & _). rewrite Et in E. injection E as <-. congruence.
      * split; [done|]. intros (? & ? & ? & [= <-] & Hn & E & _). rewrite Et in E. injection E as <-. by apply nonempty_spec in Hn; rewrite Hn in En.
    + split; [done|]. intros (? & ? & ? & [= <-] & _ & E & _). by rewrite E in Et.
  - split; [done|by intros (? & ? & ? & ? & _)].
Qed.
End entry.

Lemma entry_accepted surface intake proof transition panel receipt :
  surface_shape policy receipt surface intake proof transition panel →
  entry_diagnostics context (record (document surface)) = [] ↔
  is_text (prop intake "id") (text (prop (record (document surface)) "entry")) = true ∧
  is_text (prop proof "id") (text (prop (record (document surface)) "entry")) = false ∧
  ∃ form ref definition actions action, slots_of_type "definition-form" intake = [form] ∧ ref ≠ "" ∧
    prop (binding_of form) "definitionRef" = JStr ref ∧ bound_definitions context (Some ref) = [definition] ∧
    of_kind "responseActions" context = [actions] ∧ prop (record (prop (record (document actions)) "targetDefinition")) "url" = JStr ref ∧
    records (prop (record (document actions)) "actions") = [action] ∧ prop action "intent" = JStr "submit" ∧ submit_shape action transition.
Proof.
  intros Hs. destruct (placed_routes _ _ _ _ _ _ Hs) as (i & k & Hr). unfold entry_diagnostics. fold (routes_of surface).
  set (t := text (prop (record (document surface)) "entry")). pose proof (placed_selected _ _ _ _ _ _ Hs _ _ _ Hr t) as Hsel.
  set (routes := place_all (routes_of surface)) in *. cbv zeta. split.
  - intros H. destruct (List.filter _ routes) as [|sel [|]] eqn:Ef; try done. destruct (is_lit (prop sel.2 "routeClass") "intake") eqn:Ec; [|done].
    destruct (proj1 Hsel) as [Hi Hp]; [by exists sel|]. rewrite (placed_selection _ _ _ _ _ Hr t Hi Hp) in Ef. injection Ef as <-.
    apply (form_accepted _ _ _ _ _ _ Hs _ _ _ Hr) in H as (form & ref & d & Hf & Hn & Hb & Hd & Ha).
    apply (action_accepted _ _ _ _ _ _ Hs _ _ _ Hr) in Ha as (actions & action & Ha). split; [done|]. split; [done|]. by exists form, ref, d, actions, action.
  - intros (Hi & Hp & form & ref & d & actions & action & Hf & Hn & Hb & Hd & Ha). rewrite (placed_selection _ _ _ _ _ Hr t Hi Hp). simpl.
    rewrite (shape_intake _ _ _ _ _ _ _ Hs). simpl. apply (form_accepted _ _ _ _ _ _ Hs _ _ _ Hr). exists form, ref, d.
    split; [done|]. split; [done|]. split; [done|]. split; [done|]. apply (action_accepted _ _ _ _ _ _ Hs _ _ _ Hr). by exists actions, action.
Qed.

(** C33. The validator has no diagnostics for an app exactly when the app is one
    intake route with one form for one admitted definition, whose one action
    submits it by the one host event and leads by one unconditional transition
    to the one proof route, where the one receipt panel shows the one source of
    the bundle; nothing is embedded, no widget is foreign or acts, and every
    string of the shell resolves in every locale. *)
Theorem public_app_admitted : respondentPublicAppValidator policy context = [] ↔
  ∃ surface definition actions catalog intake proof form panel action transition source,
    respondent_app surface definition actions catalog intake proof form panel action transition source.
Proof.
  unfold respondentPublicAppValidator. rewrite !app_nil, manifest_accepted, flow_accepted, registries_accepted, sources_accepted, locales_accepted. split.
  - intros ((Hid & Hm) & Hps & (surface & url & Hsf & Hn & Hurl & Href & He) & Hreg & (catalog & source & Hsrc) & Hloc).
    destruct (proj1 (surfaces_accepted surface Hsf) Hps) as (intake & proof & transition & panel & Hs).
    destruct (proj1 (entry_accepted _ _ _ _ _ _ Hs) He) as (Hi & Hp & form & ref & d & actions & action & Hf & Hn' & Hb & Hd & Ha & Ht & Hact & Hint & Hsub).
    exists surface, d, actions, catalog, intake, proof, form, panel, action, transition, source.
    constructor; try done; [by split; [|exists url]|by exists ref].
  - intros (surface & d & actions & catalog & intake & proof & form & panel & action & transition & source & H). destruct H as [Hid Hm [Hsf (url & Hn & Hurl & Href)] Hs Hf [Hi Hp] (ref & Hn' & Hb & Hd & Ha & Ht) [Hact Hint] Hsub Hreg Hsrc Hloc].
    split; [by split|]. split; [apply (surfaces_accepted surface Hsf); by exists intake, proof, transition, panel|].
    split; [|by split; [|split; [exists catalog, source|]]]. exists surface, url. repeat (split; [done|]).
    apply (entry_accepted _ _ _ _ _ _ Hs). split; [done|]. split; [done|]. exists form, ref, d, actions, action. repeat (split; [done|]). done.
Qed.
End theorems.

(** ** An app *)

Module PublicAppSample.

#[export] Instance locales : SurfaceLocales := {|
  SURFACE_LOCALE_KEY_PREFIX := "surface."; SURFACE_STRING_KEYS := ["loading"];
  getAvailableLocales := λ _ _, ["en"]; lookupKey := λ _ _ _ k, Some k
|}.

Definition policy : RespondentPublicAppPolicy :=
  {| appId := "urn:app"; starterModuleId := "urn:starter"; receiptResourceUrl := "https://receipts" |}.

Definition obj (l : list (string * jsv)) : jsv := JObj l.
Definition s (k v : string) : string * jsv := (k, JStr v).

Definition intake_route : jsv := obj [s "id" "start"; s "routeClass" "intake";
  ("slots", JArr [obj [s "id" "form"; s "slotType" "definition-form"; ("binding", obj [s "definitionRef" "urn:def"])]]);
  ("transitions", JArr [obj [s "to" "done"; s "trigger" "submit"; ("params", obj [s "caseRef" "caseRef"])]])].

Definition proof_route : jsv := obj [s "id" "done"; s "routeClass" "proof"; s "path" "/receipt/{caseRef}";
  ("params", JArr [obj [s "name" "caseRef"; s "type" "string"]]);
  ("slots", JArr [obj [s "id" "panel"; s "slotType" "module-widget";
    ("binding", obj [s "moduleId" "urn:starter"; s "widgetName" "ReceiptPanel";
      ("dataBindings", obj [("receipt", obj [s "catalogRef" "urn:data"; s "sourceRef" "receipt"])])])]])].

Definition receipt_source : jsv := obj [s "id" "receipt"; s "kind" "document-resource"; s "owner" "host"; s "scope" "route";
  ("runtime", obj [s "authorizationBoundary" "host"; s "delivery" "snapshot"; s "failureMode" "block-render";
    ("provenance", obj [s "kind" "document-resource"; s "source" "https://receipts"])]);
  ("schema", obj []);
  ("availability", obj [s "level" "route"; s "surfaceRef" "urn:surface"; s "routeRef" "done"])].

Definition handle (k url : string) (d : jsv) : ArtifactHandle := {| artifactKind := k; ref_url := JStr url; document := d |}.

Definition app (routes : list jsv) : AppGraphContext := {|
  manifest_document := obj [s "id" "urn:app"; s "entrySurface" "urn:surface";
    ("modules", JArr [obj [s "id" "urn:starter"; s "version" "1.0.0"]])];
  handles := [
    handle "surface" "urn:surface" (obj [s "entry" "start"; ("routes", JArr routes)]);
    handle "definition" "urn:def" (obj [s "url" "urn:def"]);
    handle "responseActions" "urn:actions" (obj [("targetDefinition", obj [s "url" "urn:def"]);
      ("actions", JArr [obj [s "id" "send"; s "intent" "submit";
        ("effects", JArr [obj [s "type" "hostEvent"; s "eventName" "formspec-submit"]])]])]);
    handle "dataSources" "urn:data" (obj [("sources", JArr [receipt_source])]);
    handle "registry" "urn:registry" (obj [("entries", JArr [
      obj [s "category" "module"; s "name" "urn:starter"; ("contributes", JArr [JStr "receipt-panel"])];
      obj [s "category" "widget"; s "name" "receipt-panel";
        ("widgetShape", obj [s "widgetName" "ReceiptPanel";
          ("dataInputs", JArr [obj [s "name" "receipt"; ("required", JBool true)]])])]])]);
    handle "locale" "urn:locale" (obj [s "$formspecLocale" "2.0"; s "version" "1"; s "locale" "en";
      ("target", obj [s "kind" "app"; s "url" "urn:app"]); ("strings", obj [])])]
|}.

(** The app is admitted; with an admin route it is not. *)
Lemma public_app_admitted_witness :
  (∃ surface definition actions catalog intake proof form panel action transition source,
    respondent_app (app [intake_route; proof_route]) policy surface definition actions catalog intake proof form panel action transition source) ∧
  List.map code (respondentPublicAppValidator policy (app [intake_route; proof_route; obj [s "routeClass" "admin"]])) = ["RESPONDENT-ACTOR-ROUTE-REFUSED"].
Proof.
  split; [|vm_compute; reflexivity]. apply (public_app_admitted (app [intake_route; proof_route]) policy). vm_compute. reflexivity.
Defined.
End PublicAppSample.
