(* ===== verification/Admission.v ===== *)
(** * Admission of a surface bundle

    src/src/verifying-surface/admission.ts: one admission acquires a candidate,
    has it verified, checks it and commits its release, and stops wherever the
    host has moved on.  Its calls are asked of an oracle that may answer
    anything; what holds of every run is proved below. *)

From S2P Require Import Prelude JsValue ResponseAction Oracle.

(** ** Data *)

Inductive SurfaceBundleSourceErrorCode : Set :=
  | Unavailable | NotFound | Timeout | SizeLimitExceeded | DisallowedLocation | MalformedResponse | Cancelled | Internal.

(** What an awaited call may throw; only a source's own error is told apart. *)
Inductive surface_error : Set := SurfaceBundleSourceError (c : SurfaceBundleSourceErrorCode) | OtherError.

Record SurfaceBundleSnapshot : Set := { identity : string; evidence : jsv; bytes : list Z }.

Record SurfaceBundleVerifiedResult : Set := {
  verified_snapshotIdentity : string;
  manifest : jsobj;
  documents : jsobj;
  provenance_snapshotIdentity : string;
  signedPayloadDigest : string;
  releasePrecondition : N  (** an opaque capability *)
}.

Inductive SurfaceBundleVerificationResult : Set :=
  | Verified (v : SurfaceBundleVerifiedResult)
  | VerificationFailed (code : string)
  | Unverified (code : string).

Inductive SurfaceBundleReleaseCommitResult : Set :=
  | Committed (releaseCommit snapshotIdentity : string)
  | Refused (code : string)
  | ReleaseUnavailable (code : string).

(** The report of the graph validation, with [report.ok]. *)
Record AppGraphReportProducerResult : Set := { report_ok : bool; report_detail : jsv }.

Inductive SurfaceAdmissionFailureCode : Set :=
  SourceRefused | VerificationFailure | AppGraphInvalid | ReleaseRefused | BundleNotRenderable.
Inductive SurfaceAdmissionUnsupportedCode : Set := VerificationUnsupported.
Inductive SurfaceAdmissionAdapterErrorCode : Set :=
  AdmissionCancelled | SourceUnavailable | VerificationUnavailable | ValidationUnavailable | ReleaseUnavailableError
  | RenderPreparationUnavailable | UnexpectedAdapterError.

(** The packages for the bundle and its validation. *)
Class SurfacePackages := {
  ValidationConfig : Set;
  ResolvedBundle : Set;
  dereferenceBundleExport : jsobj → jsobj → option ResolvedBundle;
  bundleIsRenderable : ResolvedBundle → bool
}.

Section admission.
Context `{Packages : !SurfacePackages}.

Inductive SurfaceAdmissionState : Set :=
  | Checking
  | Failure (code : SurfaceAdmissionFailureCode) (diagnosticCode : option string)
  | Unsupported (code : SurfaceAdmissionUnsupportedCode) (diagnosticCode : option string)
  | AdapterError (code : SurfaceAdmissionAdapterErrorCode) (diagnosticCode : option string)
  | SurfaceAdmitted (snapshot : SurfaceBundleSnapshot) (verification : SurfaceBundleVerifiedResult) (validation : AppGraphReportProducerResult)
      (releaseCommit : SurfaceBundleReleaseCommitResult) (bundle : ResolvedBundle).

Definition cancelledAdmission : SurfaceAdmissionState := AdapterError AdmissionCancelled (Some "cancelled").

(** ** Programs *)

(** What the admission asks of its input.  [SignalAborted] is a property. *)
Inductive query : Set → Type :=
  | SignalAborted : query bool
  | IsCurrentAdmission : query bool
  | BeginValidation : query unit
  | Acquire (locator : string) : query SurfaceBundleSnapshot
  | Verify (snapshot : SurfaceBundleSnapshot) : query SurfaceBundleVerificationResult
  | LoadedValidation : query ValidationConfig
  | ProduceReport (config : ValidationConfig) (manifest documents : jsobj) (source digest : string) : query AppGraphReportProducerResult
  | OnValidationReport (validation : AppGraphReportProducerResult) : query unit
  | CommitRelease (snapshot : SurfaceBundleSnapshot) (precondition : N) : query SurfaceBundleReleaseCommitResult.

Local Abbreviation tree := (Oracle.tree surface_error query).
Local Abbreviation event := (Oracle.event surface_error query).

(** ** The admission *)

Record SurfaceAdmissionInput : Set := {
  locator : string;
  has_signal : bool;
  has_isCurrentAdmission : bool;
  has_onValidationReport : bool
}.

Definition yes (a : outcome surface_error bool) : bool := match a with Returns b => b | Throws _ => false end.

Definition admissionIsCurrent {A} (input : SurfaceAdmissionInput) (k : bool → tree A) : tree A :=
  let generation :=
    if has_isCurrentAdmission input then Ask IsCurrentAdmission (λ a, k (yes a)) else k true in
  if has_signal input then Ask SignalAborted (λ a, if yes a then k false else generation) else generation.

(** [if (!admissionIsCurrent(input)) return cancelledAdmission()] *)
Definition while_current (input : SurfaceAdmissionInput) (t : tree SurfaceAdmissionState) : tree SurfaceAdmissionState :=
  admissionIsCurrent input (λ current, if current then t else Done cancelledAdmission).

Definition source_code (c : SurfaceBundleSourceErrorCode) : string :=
  match c with
  | Unavailable => "unavailable" | NotFound => "not-found" | Timeout => "timeout" | SizeLimitExceeded => "size-limit-exceeded"
  | DisallowedLocation => "disallowed-location" | MalformedResponse => "malformed-response" | Cancelled => "cancelled" | Internal => "internal"
  end.

Definition sourceFailure (e : surface_error) : SurfaceAdmissionState :=
  match e with
  | OtherError => AdapterError UnexpectedAdapterError None
  | SurfaceBundleSourceError c =>
      match c with
      | Unavailable | NotFound | Timeout | Cancelled | Internal => AdapterError SourceUnavailable (Some (source_code c))
      | _ => Failure SourceRefused (Some (source_code c))
      end
  end.

Definition ARRAY_ARTIFACT_SLOTS : list string :=
  ["definitions"; "components"; "registries"; "surfaces"; "screeners"; "dataSources"; "locales"; "mappings"; "responseActionDocuments";
   "referenceDocuments"; "ontologies"].
Definition SINGLE_ARTIFACT_SLOTS : list string := ["experience"; "responseActions"; "component"; "theme"; "references"; "ontology"].

(** [addRefUrl]: the urls that a reference adds. *)
Definition ref_urls (v : jsv) : list string := match v with JObj o => match obj_get o "url" with JStr u => [u] | _ => [] end | _ => [] end.
Definition referenced (manifest : jsobj) : list string :=
  flat_map (λ slot, match obj_get manifest slot with JArr l => flat_map ref_urls l | _ => [] end) ARRAY_ARTIFACT_SLOTS ++
  flat_map (λ slot, ref_urls (obj_get manifest slot)) SINGLE_ARTIFACT_SLOTS.
Definition documentsAreManifestClosed (manifest documents : jsobj) : bool :=
  forallb (λ url, str_in url (referenced manifest)) (obj_keys documents).

Section steps.
Context (input : SurfaceAdmissionInput) (snapshot : SurfaceBundleSnapshot).

(** The release is committed and nothing runs between the check and the call. *)
Definition commit_release (v : SurfaceBundleVerifiedResult) (validation : AppGraphReportProducerResult) (bundle : ResolvedBundle) : tree SurfaceAdmissionState :=
  while_current input (Ask (CommitRelease snapshot (releasePrecondition v)) (λ a,
    while_current input (Done match a with
      | Throws _ => AdapterError UnexpectedAdapterError None
      | Returns (Refused code) => Failure ReleaseRefused (Some code)
      | Returns (ReleaseUnavailable code) => AdapterError ReleaseUnavailableError (Some code)
      | Returns (Committed kind id) =>
          if negb (String.eqb id (identity snapshot)) then AdapterError ReleaseUnavailableError (Some "snapshot-identity-mismatch")
          else SurfaceAdmitted snapshot v validation (Committed kind id) bundle
      end))).

Definition prepare_bundle (v : SurfaceBundleVerifiedResult) (validation : AppGraphReportProducerResult) : tree SurfaceAdmissionState :=
  if negb (report_ok validation) then Done (Failure AppGraphInvalid None) else
  match dereferenceBundleExport (manifest v) (documents v) with
  | None => Done (AdapterError RenderPreparationUnavailable None)
  | Some bundle => if negb (bundleIsRenderable bundle) then Done (Failure BundleNotRenderable None) else commit_release v validation bundle
  end.

Definition deliver_report (v : SurfaceBundleVerifiedResult) (validation : AppGraphReportProducerResult) : tree SurfaceAdmissionState :=
  let next := while_current input (prepare_bundle v validation) in
  while_current input
    (if has_onValidationReport input then
       Ask (OnValidationReport validation) (λ a, match a with
         | Returns _ => next
         | Throws _ => while_current input (Done (AdapterError ValidationUnavailable None))
         end)
     else next).

Definition validate_bundle (v : SurfaceBundleVerifiedResult) : tree SurfaceAdmissionState :=
  if negb (String.eqb (verified_snapshotIdentity v) (identity snapshot)) || negb (String.eqb (provenance_snapshotIdentity v) (identity snapshot))
  then Done (AdapterError VerificationUnavailable (Some "snapshot-identity-mismatch")) else
  if negb (documentsAreManifestClosed (manifest v) (documents v)) then Done (Failure AppGraphInvalid (Some "unmanifested-document")) else
  Ask LoadedValidation (λ loaded,
    while_current input match loaded with
      | Throws _ => Done (AdapterError ValidationUnavailable None)
      | Returns config =>
          Ask (ProduceReport config (manifest v) (documents v) ("surface-bundle:" +:+ identity snapshot) (signedPayloadDigest v)) (λ a,
            match a with
            | Throws _ => while_current input (Done (AdapterError ValidationUnavailable None))
            | Returns validation => deliver_report v validation
            end)
      end).

Definition verify_snapshot : tree SurfaceAdmissionState :=
  Ask (Verify snapshot) (λ a,
    while_current input match a with
      | Throws _ => Done (AdapterError UnexpectedAdapterError None)
      | Returns (VerificationFailed code) => Done (Failure VerificationFailure (Some code))
      | Returns (Unverified code) =>
          if String.eqb code "integrity-unsupported" then Done (Unsupported VerificationUnsupported (Some code))
          else Done (AdapterError VerificationUnavailable (Some code))
      | Returns (Verified v) => validate_bundle v
      end).
End steps.

Definition admitSurfaceBundle (input : SurfaceAdmissionInput) : tree SurfaceAdmissionState :=
  while_current input (Ask BeginValidation (λ _, Ask (Acquire (locator input)) (λ a,
    while_current input match a with
      | Throws e => Done (sourceFailure e)
      | Returns snapshot => verify_snapshot input snapshot
      end))).

(** ** Runs *)

(** What a check of the host's generation found. *)
Definition check (e : event) : option bool :=
  match e with
  | Asked q a =>
      match q in query X return outcome surface_error X → option bool with
      | SignalAborted => λ a, Some (negb (yes a))
      | IsCurrentAdmission => λ a, Some (yes a)
      | _ => λ _, None
      end a
  end.

Definition is_commit (e : event) : bool := match e with Asked q _ => match q with CommitRelease _ _ => true | _ => false end end.
Definition is_question (e : event) : bool := match check e with None => true | Some _ => false end.
Definition lost (e : event) : bool := match check e with Some false => true | _ => false end.
(** The calls of a run that are no checks. *)
Definition questions (l : list event) : list event := List.filter is_question l.

(** The whole check, passed. *)
Definition passing (input : SurfaceAdmissionInput) (l : list event) : Prop :=
  ∃ a b, l = (if has_signal input then [Asked SignalAborted a] else []) ++ (if has_isCurrentAdmission input then [Asked IsCurrentAdmission b] else []) ∧
    (has_signal input = true → yes a = false) ∧ (has_isCurrentAdmission input = true → yes b = true).

(** A check that failed: nothing is asked after the part that fails. *)
Definition stopped (l : list event) : Prop := ∃ l' e, l = l' ++ [e] ∧ lost e = true ∧ forallb (λ e, negb (lost e)) l' = true.

(** The last check of those since the other calls, passed. *)
Definition just_passed (input : SurfaceAdmissionInput) (since : list event) : Prop := ∃ older c, since = older ++ c ∧ passing input c.

(** Every commit directly follows a passed check; [since] are the checks since the
    last other call. *)
Fixpoint guarded (input : SurfaceAdmissionInput) (since l : list event) : Prop :=
  match l with
  | [] => True
  | e :: l' =>
      if is_question e then (is_commit e = true → just_passed input since) ∧ guarded input [] l' else guarded input (since ++ [e]) l'
  end.

Section rules.
Context (input : SurfaceAdmissionInput).

Lemma sat_current {A} (k : bool → tree A) (P : list event → A → Prop) :
  (∀ c, passing input c → sat (k true) (λ l st, P (c ++ l) st)) →
  (∀ c, stopped c → Forall (λ e, is_question e = false) c → sat (k false) (λ l st, P (c ++ l) st)) →
  sat (admissionIsCurrent input k) P.
Proof.
  intros Ht Hf. unfold admissionIsCurrent.
  assert (∀ pre, Forall (λ e, is_question e = false) pre → forallb (λ e, negb (lost e)) pre = true →
    (∀ b, (has_isCurrentAdmission input = true → yes b = true) → passing input (pre ++ if has_isCurrentAdmission input then [Asked IsCurrentAdmission b] else [])) →
    sat (if has_isCurrentAdmission input then Ask IsCurrentAdmission (λ a, k (yes a)) else k true) (λ l st, P (pre ++ l) st)) as Hgen.
  { intros pre Hq Hl Hp. destruct (has_isCurrentAdmission input) eqn:Ec.
    - apply sat_ask. intros a. destruct (yes a) eqn:Ea.
      + apply (sat_weaken _ (λ l st, P ((pre ++ [Asked IsCurrentAdmission a]) ++ l) st)); [intros l st; by rewrite <- app_assoc|]. apply Ht, Hp. done.
      + apply (sat_weaken _ (λ l st, P ((pre ++ [Asked IsCurrentAdmission a]) ++ l) st)); [intros l st; by rewrite <- app_assoc|]. apply Hf.
        * exists pre, (Asked IsCurrentAdmission a). split; [done|]. split; [|done]. unfold lost. simpl. by rewrite Ea.
        * apply Forall_app. split; [done|]. by apply Forall_singleton.
    - apply (sat_weaken _ (λ l st, P ((pre ++ []) ++ l) st)); [intros l st; by rewrite app_nil_r|]. apply Ht. apply (Hp (Throws OtherError)). done. }
  destruct (has_signal input) eqn:Es.
  - apply sat_ask. intros a. destruct (yes a) eqn:Ea.
    + apply (Hf [Asked SignalAborted a]); [|by apply Forall_singleton]. exists [], (Asked SignalAborted a). split; [done|]. split; [|done].
      unfold lost. simpl. by rewrite Ea.
    + apply (Hgen [Asked SignalAborted a]); [by apply Forall_singleton| |].
      * simpl. unfold lost. simpl. by rewrite Ea.
      * intros b Hb. exists a, b. rewrite Es. done.
  - apply (Hgen []); [done|done|]. intros b Hb. exists (Throws OtherError), b. rewrite Es. done.
Qed.

Lemma passing_checks c : passing input c → Forall (λ e, is_question e = false) c ∧ forallb (λ e, negb (lost e)) c = true.
Proof.
  intros (a & b & -> & Ha & Hb). destruct (has_signal input), (has_isCurrentAdmission input); simpl; unfold lost; simpl;
    rewrite ?Ha, ?Hb by done; split; try done; repeat (apply Forall_cons; split; [done|]); done.
Qed.

(** What the host relies on when a release is committed. *)
Record checked (s : SurfaceBundleSnapshot) (v : SurfaceBundleVerifiedResult) (val : AppGraphReportProducerResult) (b : ResolvedBundle) : Prop := {
  checked_verified : verified_snapshotIdentity v = identity s;
  checked_provenance : provenance_snapshotIdentity v = identity s;
  checked_closed : ∀ url, url ∈ obj_keys (documents v) → url ∈ referenced (manifest v);
  checked_report : report_ok val = true;
  checked_bundle : dereferenceBundleExport (manifest v) (documents v) = Some b;
  checked_renderable : bundleIsRenderable b = true
}.

(** The calls of an admission up to the commit, in this order. *)
Definition prepared (s : SurfaceBundleSnapshot) (v : SurfaceBundleVerifiedResult) (val : AppGraphReportProducerResult) (l : list event) : Prop :=
  ∃ x config y,
    l = [Asked BeginValidation x; Asked (Acquire (locator input)) (Returns s); Asked (Verify s) (Returns (Verified v));
         Asked LoadedValidation (Returns config);
         Asked (ProduceReport config (manifest v) (documents v) ("surface-bundle:" +:+ identity s) (signedPayloadDigest v)) (Returns val)] ++
        if has_onValidationReport input then [Asked (OnValidationReport val) (Returns y)] else [].

Definition committed_after (l : list event) (a : outcome surface_error SurfaceBundleReleaseCommitResult) (s : SurfaceBundleSnapshot)
    (v : SurfaceBundleVerifiedResult) (val : AppGraphReportProducerResult) (b : ResolvedBundle) : Prop :=
  ∃ l0, l = l0 ++ [Asked (CommitRelease s (releasePrecondition v)) a] ∧ prepared s v val l0 ∧ checked s v val b.

(** What the calls of a finished run and its result say of each other. *)
Definition concluded (l : list event) (st : SurfaceAdmissionState) : Prop :=
  (existsb is_commit l = true → ∃ a s v val b, committed_after l a s v val b) ∧
  (∀ s v val rc b, st = SurfaceAdmitted s v val rc b → ∃ kind, rc = Committed kind (identity s) ∧ committed_after l (Returns rc) s v val b).

Definition post (past since l : list event) (st : SurfaceAdmissionState) : Prop :=
  guarded input since l ∧ concluded (past ++ questions l) st ∧ (existsb lost l = true → stopped l ∧ st = cancelledAdmission).

Lemma guarded_checks since c l : Forall (λ e, is_question e = false) c → guarded input since (c ++ l) = guarded input (since ++ c) l.
Proof.
  intros H. revert since. induction H as [|e c He _ IH]; intros since; [by rewrite app_nil_r|]. simpl. rewrite He, IH. by rewrite <- app_assoc.
Qed.

Lemma questions_checks c l : Forall (λ e, is_question e = false) c → questions (c ++ l) = questions l.
Proof. intros H. unfold questions. induction H as [|e c He _ IH]; [done|]. simpl. by rewrite He. Qed.

Lemma lost_passing c l : forallb (λ e, negb (lost e)) c = true → existsb lost (c ++ l) = existsb lost l.
Proof. induction c as [|e c IH]; [done|]. simpl. intros [He%negb_true_iff Hc]%andb_true_iff. rewrite He. by apply IH. Qed.

Lemma stopped_after c l : forallb (λ e, negb (lost e)) c = true → stopped l → stopped (c ++ l).
Proof. intros Hc (l' & e & -> & He & Hl). exists (c ++ l'), e. rewrite app_assoc, forallb_app, Hc, Hl. done. Qed.

Lemma sat_done_post past since st : concluded past st → sat (Done st) (post past since).
Proof. intros H. apply sat_done. split; [done|]. split; [by rewrite app_nil_r|done]. Qed.

Lemma question_of e : check e = None → is_question e = true ∧ lost e = false.
Proof. unfold is_question, lost. by intros ->. Qed.

Lemma sat_ask_post {X : Set} (q : query X) k past since :
  (∀ a, check (Asked q a) = None) → (∀ a, is_commit (Asked q a) = true → just_passed input since) →
  (∀ a, sat (k a) (post (past ++ [Asked q a]) [])) → sat (Ask q k) (post past since).
Proof.
  intros Hq Hc Hk. apply sat_ask. intros a. destruct (question_of _ (Hq a)) as [E1 E2]. specialize (Hc a).
  apply (sat_weaken _ (post (past ++ [Asked q a]) [])); [|apply Hk]. set (e := Asked q a) in *. intros l st (Hg & Hs & Hl).
  unfold post, questions. cbn [guarded List.filter existsb]. rewrite E1, E2.
  split; [by split|]. split; [by rewrite <- app_assoc in Hs|]. intros [H1 H2]%Hl. split; [|done].
  apply (stopped_after [e]); [|done]. cbn [forallb]. by rewrite E2.
Qed.

Lemma sat_while_post t past since :
  (∀ c, passing input c → sat t (post past (since ++ c))) → concluded past cancelledAdmission → sat (while_current input t) (post past since).
Proof.
  intros Ht Hc. unfold while_current. apply sat_current.
  - intros c Hp. destruct (passing_checks c Hp) as [Hq Hl]. eapply sat_weaken; [|by apply Ht]. intros l st (Hg & Hs & Hlost).
    split; [by rewrite guarded_checks|]. split; [by rewrite questions_checks|]. rewrite lost_passing by done. intros [H1 H2]%Hlost.
    split; [by apply stopped_after|done].
  - intros c Hstop Hq. apply sat_done. rewrite app_nil_r. split; [|split; [|done]].
    + assert (guarded input since (c ++ []) = True) as E by by rewrite guarded_checks. rewrite app_nil_r in E. by rewrite E.
    + assert (questions (c ++ []) = []) as E by by rewrite questions_checks. rewrite app_nil_r in E. by rewrite E, app_nil_r.
Qed.
End rules.

(** Before a commit nothing is concluded. *)
Lemma undecided input l st : existsb is_commit l = false → (∀ s v val rc b, st ≠ SurfaceAdmitted s v val rc b) → concluded input l st.
Proof. intros Hl Hs. split; [by rewrite Hl|]. intros s v val rc b E. by apply Hs in E. Qed.

Lemma closed_documents m d : documentsAreManifestClosed m d = true ↔ ∀ url, url ∈ obj_keys d → url ∈ referenced m.
Proof.
  unfold documentsAreManifestClosed. rewrite forallb_forall. setoid_rewrite str_in_spec. split; intros H url Hu; apply H; by apply list_elem_of_In.
Qed.

Lemma commit_sat input s v val b past since : existsb is_commit past = false → prepared input s v val past → checked s v val b →
  sat (commit_release input s v val b) (post input past since).
Proof.
  intros Hn Hp Hc. apply sat_while_post; [|by apply undecided]. intros c Hpass.
  apply sat_ask_post; [done|intros a _; by exists since, c|]. intros a.
  assert (∀ st, (∀ s v val rc b, st ≠ SurfaceAdmitted s v val rc b) → concluded input (past ++ [Asked (CommitRelease s (releasePrecondition v)) a]) st) as Hc'.
  { intros st Hst. split; [|intros s' v' val' rc b' E; by apply Hst in E]. intros _. exists a, s, v, val, b, past. done. }
  apply sat_while_post; [|by apply Hc']. intros c' _. apply sat_done_post. destruct a as [[kind id|code|code]|e]; try by apply Hc'.
  destruct (String.eqb_spec id (identity s)) as [->|Hne]; simpl; [|by apply Hc']. split; [intros _; eexists _, s, v, val, b; by exists past|].
  intros s' v' val' rc b' [= <- <- <- <- <-]. exists kind. split; [done|]. by exists past.
Qed.

Lemma prepare_sat input s v val past since : existsb is_commit past = false → prepared input s v val past →
  verified_snapshotIdentity v = identity s → provenance_snapshotIdentity v = identity s → documentsAreManifestClosed (manifest v) (documents v) = true →
  sat (prepare_bundle input s v val) (post input past since).
Proof.
  intros Hn Hp Hv Hpr Hcl. unfold prepare_bundle. destruct (report_ok val) eqn:Er; [|by apply sat_done_post, undecided]. simpl.
  destruct (dereferenceBundleExport _ _) as [b|] eqn:Eb; [|by apply sat_done_post, undecided].
  destruct (bundleIsRenderable b) eqn:Erb; [|by apply sat_done_post, undecided]. simpl. apply commit_sat; [done|done|].
  constructor; try done. by apply closed_documents.
Qed.

Lemma validate_sat input s v past since x :
  past = [Asked BeginValidation x; Asked (Acquire (locator input)) (Returns s); Asked (Verify s) (Returns (Verified v))] →
  sat (validate_bundle input s v) (post input past since).
Proof.
  intros ->. unfold validate_bundle. destruct (String.eqb_spec (verified_snapshotIdentity v) (identity s)) as [Hv|]; [|by apply sat_done_post, undecided].
  destruct (String.eqb_spec (provenance_snapshotIdentity v) (identity s)) as [Hpr|]; [|by apply sat_done_post, undecided].
  destruct (documentsAreManifestClosed _ _) eqn:Hcl; [|by apply sat_done_post, undecided]. simpl.
  apply sat_ask_post; [done|done|]. intros loaded. apply sat_while_post; [|by apply undecided]. intros c _.
  destruct loaded as [config|e]; [|by apply sat_done_post, undecided].
  apply sat_ask_post; [done|done|]. intros [val|e]; [|apply sat_while_post; [intros c' _; by apply sat_done_post, undecided|by apply undecided]].
  unfold deliver_report. apply sat_while_post; [|by apply undecided]. intros c' _. destruct (has_onValidationReport input) eqn:Eo.
  - apply sat_ask_post; [done|done|]. intros [y|e]; [|apply sat_while_post; [intros c'' _; by apply sat_done_post, undecided|by apply undecided]].
    apply sat_while_post; [|by apply undecided]. intros c'' _. apply prepare_sat; try done. exists x, config, y. by rewrite Eo.
  - apply sat_while_post; [|by apply undecided]. intros c'' _. apply prepare_sat; try done. exists x, config, (). by rewrite Eo.
Qed.

(** C25. Whatever its calls answer, an admission commits a release at most once, as
    its last call, directly after a check that the host still wants it, and
    only of the snapshot it acquired, when the verified payload is that
    snapshot's, its documents are all in the manifest, the report is clean and
    the bundle renders; it is admitted only by the commit of that snapshot; and
    it ends cancelled, with nothing further asked, at the first check that
    fails. *)
Theorem surface_admission_sound (o : oracle surface_error query) input :
  guarded input [] (run o 0 (admitSurfaceBundle input)).1 ∧
  concluded input (questions (run o 0 (admitSurfaceBundle input)).1) (run o 0 (admitSurfaceBundle input)).2 ∧
  (existsb lost (run o 0 (admitSurfaceBundle input)).1 = true →
    stopped (run o 0 (admitSurfaceBundle input)).1 ∧ (run o 0 (admitSurfaceBundle input)).2 = cancelledAdmission).
Proof.
  assert (sat (admitSurfaceBundle input) (post input [] [])) as H; [|exact (sat_run _ _ o 0 H)].
  apply sat_while_post; [|by apply undecided]. intros c _. apply sat_ask_post; [done|done|]. intros x. apply sat_ask_post; [done|done|].
  intros [s|e]; (apply sat_while_post; [|by apply undecided]); intros c' _.
  - apply sat_ask_post; [done|done|]. intros a. apply sat_while_post; [|by apply undecided]. intros c'' _.
    destruct a as [[v|code|code]|e]; [by apply (validate_sat _ _ _ _ _ x)|by apply sat_done_post, undecided| |by apply sat_done_post, undecided].
    destruct (String.eqb code _); by apply sat_done_post, undecided.
  - apply sat_done_post, undecided; [done|]. unfold sourceFailure. by repeat case_match.
Qed.
End admission.

(** ** A run *)

Module AdmissionSample.

#[export] Instance packages : SurfacePackages :=
  {| ValidationConfig := unit; ResolvedBundle := jsobj; dereferenceBundleExport := λ _ d, Some d; bundleIsRenderable := λ _, true |}.

Definition snapshot : SurfaceBundleSnapshot := {| identity := "sha256:1"; evidence := JNull; bytes := [1%Z] |}.
Definition verified : SurfaceBundleVerifiedResult := {|
  verified_snapshotIdentity := "sha256:1"; manifest := [("theme", JObj [("url", JStr "urn:theme")])]; documents := [("urn:theme", JNull)];
  provenance_snapshotIdentity := "sha256:1"; signedPayloadDigest := "d"; releasePrecondition := 7
|}.
Definition input : SurfaceAdmissionInput :=
  {| locator := "/bundle"; has_signal := true; has_isCurrentAdmission := true; has_onValidationReport := false |}.

(** The host moves on after [n] questions. *)
Definition answers_until (n : nat) : oracle surface_error query := λ k X q,
  match q in query X return outcome surface_error X with
  | SignalAborted => Returns false
  | IsCurrentAdmission => Returns (k <? n)
  | BeginValidation | LoadedValidation | OnValidationReport _ => Returns ()
  | Acquire _ => Returns snapshot
  | Verify _ => Returns (Verified verified)
  | ProduceReport _ _ _ _ _ => Returns {| report_ok := true; report_detail := JNull |}
  | CommitRelease s _ => Returns (Committed "committed" (identity s))
  end.

(** A host that stays commits and admits; one that moves on before the commit does
    not, and one that moves on during the commit is not admitted. *)
Lemma surface_admission_sound_witness :
  (∃ bundle rc val, (run (answers_until 100) 0 (admitSurfaceBundle input)).2 = SurfaceAdmitted snapshot verified val rc bundle ∧
    checked snapshot verified val bundle) ∧
  existsb is_commit (run (answers_until 15) 0 (admitSurfaceBundle input)).1 = false ∧
  existsb is_commit (run (answers_until 20) 0 (admitSurfaceBundle input)).1 = true ∧
  (run (answers_until 20) 0 (admitSurfaceBundle input)).2 = cancelledAdmission.
Proof.
  split; [|vm_compute; done]. destruct (surface_admission_sound (answers_until 100) input) as (_ & [_ Ha] & _).
  eexists _, _, _. split; [vm_compute; reflexivity|]. edestruct Ha as (kind & _ & l0 & _ & _ & Hc); [vm_compute; reflexivity|exact Hc].
Defined.
End AdmissionSample.
