(* ===== verification/BundleSource.v ===== *)
(** * Acquiring a surface bundle over HTTP

    src/src/adapters/http/surface-bundle-source.ts and createSurfaceBundleSnapshot
    of src/src/ports/surface-bundle-source.ts: the candidate that an admission
    starts from is fetched from one of the configured origins, within the limits
    of its redirects, its size and its time. *)

From S2P Require Import Prelude JsValue Text ResponseAction Url Oracle Admission.

(** ** Data *)

(** What the calls may throw: the source's own errors, the exception of an aborted
    call, anything else. *)
Inductive raised : Set := Raised (c : SurfaceBundleSourceErrorCode) | AbortError | OtherRaised.

#[export] Instance source_code_eq_dec : EqDecision SurfaceBundleSourceErrorCode.
Proof. solve_decision. Defined.
#[export] Instance raised_eq_dec : EqDecision raised.
Proof. solve_decision. Defined.

Inductive redirect_policy : Set := RefuseRedirects | SameOriginRedirects.
#[export] Instance redirect_policy_eq_dec : EqDecision redirect_policy.
Proof. solve_decision. Defined.

Record HttpSurfaceBundleSourceConfig : Set := {
  config_allowedOrigins : list string;
  config_maxBytes : jsnum;
  config_timeoutMs : jsnum;
  config_redirectPolicy : redirect_policy;
  config_maxRedirects : option jsnum;
  config_adapterId : option string
}.

Record HttpSurfaceBundleSource : Set := {
  allowedOrigins : list string;
  maxBytes : Z;
  timeoutMs : Z;
  redirectPolicy : redirect_policy;
  maxRedirects : Z;
  adapterId : string
}.

(** A fetched response; its body, if it is a stream, is the chunks it delivers. *)
Record Response : Set := {
  response_status : Z;
  response_ok : bool;
  header_location : option string;
  header_content_length : option string;
  header_etag : option string;
  header_last_modified : option string;
  response_body : option (list (list Z))
}.

(** ** Calls *)

(** [SignalAborted] is a property, [Now] a plain call (a time that is not valid has
    no text); the others are awaited. *)
Inductive bundle_query : Set → Type :=
  | SourceAborted : bundle_query bool
  | FetchBundle (url : Url) : bundle_query Response
  | ArrayBuffer : bundle_query (list Z)
  | ReadChunk : bundle_query unit
  | CancelReader : bundle_query unit
  | Now : bundle_query (option string)
  | DigestBytes (bytes : list Z) : bundle_query string.

Local Abbreviation event := (Oracle.event raised bundle_query).
Definition program (A : Type) : Type := tree raised bundle_query (outcome raised A).

Definition call {X : Set} (q : bundle_query X) : program X := ask q.
(** Reading [signal.aborted] throws nothing. *)
Definition signal_aborted : program bool :=
  Ask SourceAborted (λ a, Done (Returns (match a with Returns b => b | Throws _ => false end))).
Definition throw {A} (c : SurfaceBundleSourceErrorCode) : program A := Done (Throws (Raised c)).

Section source.
Context `{Urls : !UrlLibrary}.

(** ** Construction *)

Definition normalizeOrigin (o : string) : option string :=
  match new_URL o with
  | None => None
  | Some parsed =>
      let n := String.length o in
      let bare := if String.eqb (String.substring (n - 1) 1 o) "/" then String.substring 0 (n - 1) o else o in
      if negb (String.eqb (url_protocol parsed) "https:") || negb (String.eqb (url_origin_of parsed) bare) then None
      else Some (url_origin_of parsed)
  end.

Definition positive (n : jsnum) : option Z :=
  match safe_integer n with Some z => if (z <=? 0)%Z then None else Some z | None => None end.

(** [None] where the constructor throws. *)
Definition create_source (config : HttpSurfaceBundleSourceConfig) : option HttpSurfaceBundleSource :=
  bytes ← positive (config_maxBytes config);
  guard (config_allowedOrigins config ≠ []);;
  timeout ← positive (config_timeoutMs config);
  origins ← mapM normalizeOrigin (config_allowedOrigins config);
  redirects ← safe_integer (default (NInt 0) (config_maxRedirects config));
  if (redirects <? 0)%Z then None else
  Some {| allowedOrigins := origins; maxBytes := bytes; timeoutMs := timeout; redirectPolicy := config_redirectPolicy config;
          maxRedirects := redirects;
          adapterId := default "urn:formspec-web:surface-bundle-source:http@1" (config_adapterId config) |}.

(** ** Acquisition *)

Section acquisition.
Context (source : HttpSurfaceBundleSource).

Definition parseAllowedUrl (locator : string) : outcome raised Url :=
  match new_URL locator with
  | None => Throws (Raised DisallowedLocation)
  | Some url =>
      if negb (String.eqb (url_protocol url) "https:") || negb (str_in (url_origin_of url) (allowedOrigins source))
      then Throws (Raised DisallowedLocation) else Returns url
  end.

Definition assertNotCancelled : program unit :=
  aborted ⇐ signal_aborted;
  if aborted : bool then throw Cancelled else Done (Returns ()).

Definition enforceSize (byteCount : Z) : program unit :=
  if (maxBytes source <? byteCount)%Z then throw SizeLimitExceeded else Done (Returns ()).

(** The loop over the reader: [chunks] are those still to come. *)
Fixpoint read_chunks (chunks : list (list Z)) (byteCount : Z) (read : list (list Z)) : program (list Z) :=
  _ ⇐ assertNotCancelled;
  _ ⇐ call ReadChunk;
  match chunks with
  | [] => Done (Returns (concat read))
  | value :: chunks' =>
      let byteCount' := (byteCount + Z.of_nat (length value))%Z in
      if (maxBytes source <? byteCount')%Z then _ ⇐ call CancelReader; throw SizeLimitExceeded
      else read_chunks chunks' byteCount' (read ++ [value])
  end.

Definition all_digits (s : string) : bool :=
  negb (String.eqb s "") && forallb (λ c, bool_decide (is_Some (digit_of c))) (String.list_ascii_of_string s).

Definition check_content_length (response : Response) : program unit :=
  match header_content_length response with
  | None => Done (Returns ())
  | Some length =>
      if negb (all_digits length) then throw MalformedResponse
      else if (maxBytes source <? leading_digits 0 length)%Z then throw SizeLimitExceeded else Done (Returns ())
  end.

Definition readLimitedBytes (response : Response) : program (list Z) :=
  _ ⇐ check_content_length response;
  match response_body response with
  | None => bytes ⇐ call ArrayBuffer; _ ⇐ enforceSize (Z.of_nat (length bytes)); Done (Returns bytes)
  | Some chunks => read_chunks chunks 0 []
  end.

Definition readClock : program string :=
  value ⇐ call Now;
  match value : option string with None => throw Internal | Some text => Done (Returns text) end.

Definition REDIRECT_STATUSES : list Z := [301; 302; 303; 307; 308]%Z.

(** [response.headers.get('etag') ?? response.headers.get('last-modified') ?? undefined] *)
Definition cache_identity (response : Response) : option string :=
  match header_etag response with Some e => Some e | None => header_last_modified response end.

Definition evidence_of (requestedLocator : string) (current : Url) (acquiredAt : string) (response : Response) : jsobj :=
  [("adapterId", JStr (adapterId source)); ("requestedLocator", JStr requestedLocator); ("resolvedLocator", JStr (url_href current));
   ("acquiredAt", JStr acquiredAt); ("responseStatus", JNum (NInt (response_status response)))] ++
  match cache_identity response with Some c => if String.eqb c "" then [] else [("cacheIdentity", JStr c)] | None => [] end.

(** What is left of a response that is no redirect. *)
Definition accept_response (requestedLocator : string) (current : Url) (response : Response) : program (list Z * jsobj) :=
  if (response_status response =? 404)%Z then throw NotFound else
  if negb (response_ok response) then throw Unavailable else
  bytes ⇐ readLimitedBytes response;
  acquiredAt ⇐ readClock;
  Done (Returns (bytes, evidence_of requestedLocator current acquiredAt response)).

(** The url that a redirect leads to; [more] says whether its number is within the
    limit. *)
Definition redirect_target (current : Url) (more : bool) (response : Response) : outcome raised Url :=
  match header_location response with
  | None | Some "" => Throws (Raised MalformedResponse)
  | Some location =>
      if bool_decide (redirectPolicy source = RefuseRedirects) then Throws (Raised DisallowedLocation)
      else if negb more then Throws (Raised DisallowedLocation)
      else match new_URL_at location (url_href current) with
        | None => Throws OtherRaised
        | Some url =>
            next ← parseAllowedUrl (url_href url);
            if negb (String.eqb (url_origin_of next) (url_origin_of current)) then Throws (Raised DisallowedLocation) else Returns next
        end
  end.

(** The loop over the redirects, of which [remaining] may still follow. *)
Fixpoint fetch_loop (requestedLocator : string) (remaining : nat) (current : Url) : program (list Z * jsobj) :=
  response ⇐ call (FetchBundle current);
  _ ⇐ assertNotCancelled;
  if bool_decide (response_status response ∈ REDIRECT_STATUSES) then
    match redirect_target current (bool_decide (remaining ≠ 0)) response, remaining with
    | Throws e, _ => Done (Throws e)
    | Returns next, S remaining' => fetch_loop requestedLocator remaining' next
    | Returns _, O => throw DisallowedLocation
    end
  else accept_response requestedLocator current response.

(** The [catch] of acquireWithinDeadline. *)
Definition source_error {A} (e : raised) : program A :=
  match e with
  | Raised c => throw c
  | _ => aborted ⇐ signal_aborted; if (aborted : bool) || bool_decide (e = AbortError) then throw Cancelled else throw Internal
  end.

Definition createSurfaceBundleSnapshot (bytes : list Z) (evidence : jsobj) : program SurfaceBundleSnapshot :=
  digest ⇐ call (DigestBytes bytes);
  Done (Returns {| identity := "sha256:" +:+ digest;
                   Admission.evidence := JObj (obj_set evidence "byteCount" (JNum (NInt (Z.of_nat (length bytes)))));
                   Admission.bytes := bytes |}).

(** [createSurfaceBundleSnapshot] is returned without being awaited: what it throws
    is not caught. *)
Definition acquireWithinDeadline (locator : string) : program SurfaceBundleSnapshot :=
  match parseAllowedUrl locator with
  | Throws e => Done (Throws e)
  | Returns current =>
      acquired ⇐ try_catch (fetch_loop (url_href current) (Z.to_nat (maxRedirects source)) current) source_error;
      createSurfaceBundleSnapshot acquired.1 acquired.2
  end.

(** ** The race with the interruption *)

Inductive interruption : Set := RequestAborted | DeadlinePassed.
Definition interrupted_with (i : interruption) : raised :=
  match i with RequestAborted => Raised Cancelled | DeadlinePassed => Raised Timeout end.

Definition is_awaited (e : event) : bool :=
  match question e with SourceAborted | Now => false | _ => true end.
Definition awaits (l : list event) : nat := length (List.filter is_awaited l).

(** The request is aborted or the deadline passes during the await of the given
    number: the caller gets that error, and the calls go on unobserved. *)
Definition acquire (o : oracle raised bundle_query) (moment : option (nat * interruption)) (already_aborted : bool) (locator : string) :
    list event * outcome raised SurfaceBundleSnapshot :=
  if already_aborted then ([], Throws (Raised Cancelled)) else
  let '(calls, result) := run o 0 (acquireWithinDeadline locator) in
  (calls, match moment with
          | Some (m, i) => if (m <? awaits calls)%nat then Throws (interrupted_with i) else result
          | None => result
          end).
End acquisition.
End source.

(** * What an acquisition may do *)

(** The urls fetched, in order. *)
Definition fetched (l : list (Oracle.event raised bundle_query)) : list Url :=
  flat_map (λ e, match question e with FetchBundle u => [u] | _ => [] end) l.

Lemma fetched_app l l' : fetched (l ++ l') = fetched l ++ fetched l'.
Proof. apply flat_map_app. Qed.

(** A program that fetches nothing, with what it returns. *)
Definition quiet {A} (p : program A) (R : list event → A → Prop) : Prop :=
  sat p (λ l r, fetched l = [] ∧ ∀ a, r = Returns a → R l a).

Lemma quiet_done {A} (r : outcome raised A) (R : list event → A → Prop) : (∀ a, r = Returns a → R [] a) → quiet (Done r) R.
Proof. intros H. by apply sat_done. Qed.

Lemma quiet_throw {A} c (R : list event → A → Prop) : quiet (throw c) R.
Proof. by apply quiet_done. Qed.

Lemma quiet_call {X : Set} (q : bundle_query X) (R : list event → X → Prop) :
  (match q with FetchBundle _ => False | _ => True end) → (∀ a, R [Asked q (Returns a)] a) → quiet (call q) R.
Proof.
  intros Hq H. apply sat_ask. intros a. apply sat_done. split; [|intros b ->; apply H]. unfold fetched. simpl. by destruct q.
Qed.

Lemma quiet_then {A B} (p : program A) (f : A → program B) (R : list event → A → Prop) (S : list event → B → Prop) :
  quiet p R → (∀ l a, R l a → quiet (f a) (λ l' b, S (l ++ l') b)) → quiet (and_then p f) S.
Proof.
  intros Hp Hf. apply sat_and_then. eapply sat_weaken; [|exact Hp]. intros l [a|e] [Hl Hr]; [|done].
  eapply sat_weaken; [|apply (Hf l a), Hr; done]. intros l' b [Hl' Hb]. by rewrite fetched_app, Hl, Hl'.
Qed.

Lemma quiet_weaken {A} (p : program A) (R S : list event → A → Prop) : (∀ l a, R l a → S l a) → quiet p R → quiet p S.
Proof. intros H. apply sat_weaken. intros l r [Hl Hr]. split; [done|]. intros a E. by apply H, Hr. Qed.

Section theorems.
Context `{Urls : !UrlLibrary} (source : HttpSurfaceBundleSource).

Lemma quiet_cancelled : quiet assertNotCancelled (λ _ _, True).
Proof.
  apply sat_and_then, sat_ask. intros a. apply sat_done. set (b := match a with Returns b => b | Throws _ => false end).
  by destruct b; apply sat_done.
Qed.

(** What a response delivered, as it was read. *)
Definition delivered (response : Response) (l : list event) (b : list Z) : Prop :=
  match response_body response with Some chunks => b = concat chunks | None => Asked ArrayBuffer (Returns b) ∈ l end.

Lemma read_chunks_quiet chunks byteCount read :
  byteCount = Z.of_nat (length (concat read)) → (byteCount ≤ maxBytes source)%Z →
  quiet (read_chunks source chunks byteCount read) (λ _ b, b = concat (read ++ chunks) ∧ (Z.of_nat (length b) ≤ maxBytes source)%Z).
Proof.
  revert byteCount read. induction chunks as [|c chunks IH]; intros n read Hn Hle; cbn [read_chunks];
    (eapply quiet_then; [apply quiet_cancelled|intros _ _ _]; eapply quiet_then; [by apply (quiet_call _ (λ _ _, True))|intros _ _ _]).
  - apply quiet_done. intros a [= <-]. rewrite app_nil_r. split; [done|lia].
  - destruct (Z.ltb_spec (maxBytes source) (n + Z.of_nat (length c))) as [|Hle'].
    + eapply quiet_then; [by apply (quiet_call _ (λ _ _, True))|intros _ _ _]. apply quiet_throw.
    + eapply quiet_weaken; [|apply IH; [|lia]].
      * intros _ b [-> Hb]. by rewrite <- app_assoc in *.
      * rewrite concat_app, length_app. simpl. rewrite app_nil_r. lia.
Qed.

Lemma readLimitedBytes_quiet response : (0 ≤ maxBytes source)%Z →
  quiet (readLimitedBytes source response) (λ l b, delivered response l b ∧ (Z.of_nat (length b) ≤ maxBytes source)%Z).
Proof.
  intros Hpos. eapply (quiet_then _ _ (λ _ _, True)).
  { unfold check_content_length. destruct (header_content_length response); [|by apply quiet_done].
    repeat case_match; [apply quiet_throw|apply quiet_throw|by apply quiet_done]. }
  intros l [] _. unfold delivered. destruct (response_body response) as [chunks|].
  - eapply quiet_weaken; [|by apply read_chunks_quiet]. intros _ b [-> Hb]. done.
  - eapply quiet_then; [by apply (quiet_call _ (λ l b, l = [Asked ArrayBuffer (Returns b)]))|]. intros l' b ->.
    eapply (quiet_then _ _ (λ _ _, (Z.of_nat (length b) ≤ maxBytes source)%Z)).
    { unfold enforceSize. destruct (Z.ltb_spec (maxBytes source) (Z.of_nat (length b))); [apply quiet_throw|by apply quiet_done]. }
    intros l'' _ Hb. apply quiet_done. intros a [= <-]. split; [|done]. rewrite !elem_of_app, list_elem_of_singleton. auto.
Qed.

(** A response that may be the bundle, with the bytes and evidence read from it. *)
Record bundle_of (requested : string) (last : Url) (response : Response) (l : list event) (b : list Z) (ev : jsobj) : Prop := {
  bundle_ok : response_ok response = true;
  bundle_found : response_status response ≠ 404%Z;
  bundle_delivered : delivered response l b;
  bundle_size : (Z.of_nat (length b) ≤ maxBytes source)%Z;
  bundle_evidence : ∃ time, Asked Now (Returns (Some time)) ∈ l ∧ ev = evidence_of source requested last time response
}.

Lemma accept_quiet requested last response : (0 ≤ maxBytes source)%Z →
  quiet (accept_response source requested last response) (λ l a, bundle_of requested last response l a.1 a.2).
Proof.
  intros Hpos. unfold accept_response. destruct (Z.eqb_spec (response_status response) 404); [apply quiet_throw|].
  destruct (response_ok response) eqn:Eok; [|apply quiet_throw]. cbn [negb].
  eapply quiet_then; [by apply readLimitedBytes_quiet|]. intros l b [Hd Hb].
  eapply (quiet_then _ _ (λ l' t, Asked Now (Returns (Some t)) ∈ l')).
  { eapply quiet_then; [by apply (quiet_call _ (λ l v, l = [Asked Now (Returns v)]))|]. intros l' [t|] ->; [|apply quiet_throw].
    apply quiet_done. intros a [= <-]. rewrite app_nil_r. by apply list_elem_of_singleton. }
  intros l' t Ht. apply quiet_done. intros a [= <-]. rewrite app_nil_r. constructor; try done; simpl.
  - unfold delivered in *. destruct (response_body response); [done|]. apply elem_of_app. by left.
  - exists t. split; [|done]. apply elem_of_app. by right.
Qed.

Definition allowed (u : Url) : Prop := url_protocol u = "https:" ∧ url_origin_of u ∈ allowedOrigins source.

Lemma parseAllowedUrl_spec locator u : parseAllowedUrl source locator = Returns u → new_URL locator = Some u ∧ allowed u.
Proof.
  unfold parseAllowedUrl. destruct (new_URL locator) as [v|]; [|done]. destruct (String.eqb_spec (url_protocol v) "https:"); [|done].
  destruct (str_in _ _) eqn:E; [|done]. simpl. intros [= <-]. split; [done|]. split; [done|]. by apply str_in_spec.
Qed.

Lemma redirect_target_spec current more response next : redirect_target source current more response = Returns next →
  redirectPolicy source = SameOriginRedirects ∧ more = true ∧ allowed next ∧ url_origin_of next = url_origin_of current.
Proof.
  unfold redirect_target. destruct (header_location response) as [[|a s]|]; [done| |done].
  case_bool_decide as Er; [done|]. destruct more; [|done]. cbn [negb]. destruct (new_URL_at _ _) as [u|]; [|done].
  intros (n & [_ Hn]%parseAllowedUrl_spec & H)%bind_Returns. destruct (String.eqb_spec (url_origin_of n) (url_origin_of current)); [|done].
  injection H as <-. destruct (redirectPolicy source); done.
Qed.

(** The calls of the loop: where it fetches, and which response it returns. *)
Definition loop_post (requested : string) (remaining : nat) (current : Url) (l : list event) (r : outcome raised (list Z * jsobj)) : Prop :=
  (∃ rest, fetched l = current :: rest ∧ Forall (λ u, allowed u ∧ url_origin_of u = url_origin_of current) rest ∧
    length rest ≤ remaining ∧ (redirectPolicy source = RefuseRedirects → rest = [])) ∧
  ∀ a, r = Returns a → ∃ l1 last response l2, l = l1 ++ Asked (FetchBundle last) (Returns response) :: l2 ∧ fetched l2 = [] ∧
    bundle_of requested last response l2 a.1 a.2.

Lemma loop_stops requested remaining current l r : fetched l = [current] → (∀ a, r ≠ Returns a) → loop_post requested remaining current l r.
Proof. intros Hl Hr. split; [exists []; split; [done|]; split; [by constructor|]; split; [simpl; lia|done]|]. intros a E. by apply Hr in E. Qed.

Lemma fetch_loop_sat requested remaining current : (0 ≤ maxBytes source)%Z →
  sat (fetch_loop source requested remaining current) (loop_post requested remaining current).
Proof.
  intros Hpos. revert current. induction remaining as [|remaining IH]; intros current; cbn [fetch_loop]; apply sat_and_then, sat_ask;
    (intros [response|e]; apply sat_done; [|by apply loop_stops]); apply sat_and_then; (eapply sat_weaken; [|apply quiet_cancelled]);
    (intros l [[]|e] [Hl _]; [|apply loop_stops; [|done]; unfold fetched in *; simpl; by rewrite Hl]).
  all: assert (fetched ([Asked (FetchBundle current) (Returns response)] ++ l) = [current]) as Hl' by (by rewrite fetched_app, Hl).
  all: destruct (bool_decide (response_status response ∈ REDIRECT_STATUSES)).
  all: try (eapply sat_weaken; [|by apply accept_quiet]; intros l' r [Hf Hr]; split;
    [exists []; rewrite app_assoc, fetched_app, Hl', Hf; repeat (split; [done || (simpl; lia) || by constructor|]); done
    |intros a Ha; exists [], current, response, (l ++ l'); split; [done|]; split; [by rewrite fetched_app, Hl|];
     destruct (Hr a Ha) as [? ? Hd ? (t & Ht & ?)]; constructor; [done|done| |done|exists t; split; [apply elem_of_app; by right|done]];
     unfold delivered in *; destruct (response_body response); [done|apply elem_of_app; by right]]).
  - destruct (redirect_target _ _ _ _) as [next|e] eqn:E; apply sat_done, loop_stops; rewrite ?app_nil_r; try done; by rewrite app_assoc, app_nil_r.
  - destruct (redirect_target _ _ _ _) as [next|e] eqn:E; [|apply sat_done, loop_stops; [by rewrite app_assoc, app_nil_r|done]].
    apply redirect_target_spec in E as (Hp & _ & Ha & Ho). eapply sat_weaken; [|apply IH].
    intros l' r [(rest & Hf & Hall & Hlen & Href) Hr]. split.
    + exists (next :: rest). rewrite app_assoc, fetched_app, Hl', Hf. split; [done|]. split; [|split; [simpl; lia|by rewrite Hp]].
      constructor; [done|]. eapply Forall_impl; [exact Hall|]. intros u [Hu ->]. done.
    + intros a E. destruct (Hr a E) as (l1 & last & resp & l2 & -> & H2 & H3). exists (Asked (FetchBundle current) (Returns response) :: l ++ l1), last, resp, l2.
      split; [|done]. simpl. by rewrite app_assoc.
Qed.

Lemma source_error_sat {A} e : sat (@source_error A e) (λ l r, fetched l = [] ∧ ∃ c, r = Throws (Raised c)).
Proof.
  destruct e as [c| |]; [apply sat_done; split; [done|by exists c]| |]; apply sat_and_then, sat_ask; intros a; apply sat_done;
    (destruct (_ || _); apply sat_done; split; [done|by eexists|done|by eexists]).
Qed.

(** A snapshot, with the response it was read from. *)
Definition snapshot_of (requested : Url) (l : list event) (snapshot : SurfaceBundleSnapshot) : Prop :=
  ∃ l1 last response l2 ev digest,
    l = l1 ++ Asked (FetchBundle last) (Returns response) :: l2 ++ [Asked (DigestBytes (bytes snapshot)) (Returns digest)] ∧ fetched l2 = [] ∧
    bundle_of (url_href requested) last response l2 (bytes snapshot) ev ∧
    identity snapshot = "sha256:" +:+ digest ∧
    evidence snapshot = JObj (obj_set ev "byteCount" (JNum (NInt (Z.of_nat (length (bytes snapshot)))))).

Definition acquired_post (requested : Url) (l : list event) (r : outcome raised SurfaceBundleSnapshot) : Prop :=
  (∃ rest, fetched l = requested :: rest ∧ Forall (λ u, allowed u ∧ url_origin_of u = url_origin_of requested) rest ∧
    length rest ≤ Z.to_nat (maxRedirects source) ∧ (redirectPolicy source = RefuseRedirects → rest = [])) ∧
  (∀ snapshot, r = Returns snapshot → snapshot_of requested l snapshot) ∧
  ∀ e, r = Throws e → (∃ c, e = Raised c) ∨ ∃ b, Asked (DigestBytes b) (Throws e) ∈ l.

Lemma acquire_sat locator : (0 ≤ maxBytes source)%Z →
  sat (acquireWithinDeadline source locator) (λ l r,
    (l = [] ∧ r = Throws (Raised DisallowedLocation)) ∨ ∃ requested, new_URL locator = Some requested ∧ allowed requested ∧ acquired_post requested l r).
Proof.
  intros Hpos. unfold acquireWithinDeadline. destruct (parseAllowedUrl source locator) as [u|e] eqn:E.
  - apply parseAllowedUrl_spec in E as [Hu Ha]. apply sat_and_then, sat_try_catch. eapply sat_weaken; [|by apply fetch_loop_sat].
    intros l [[b ev]|e] [Hf Hr].
    + apply sat_and_then, sat_ask. intros [digest|e]; apply sat_done; [apply sat_done|]; right; exists u; (split; [done|]; split; [done|]);
        (split; [by rewrite !fetched_app, ?app_nil_r|]); simpl; rewrite ?app_nil_r.
      * split; [|done]. intros s [= <-]. destruct (Hr _ eq_refl) as (l1 & last & resp & l2 & -> & H2 & H3).
        exists l1, last, resp, l2, ev, digest. split; [by rewrite <- app_assoc|]. done.
      * split; [done|]. intros e' [= <-]. right. exists b. apply elem_of_app. right. by apply list_elem_of_singleton.
    + eapply sat_weaken; [|apply source_error_sat]. intros l' r [Hl' [c ->]]. right. exists u. split; [done|]. split; [done|].
      split; [by rewrite fetched_app, Hl', app_nil_r|]. split; [done|]. intros e' [= <-]. left. by exists c.
  - apply sat_done. left. split; [done|]. unfold parseAllowedUrl in E. destruct (new_URL locator); [|by injection E as <-].
    destruct (_ || _); [by injection E as <-|done].
Qed.

Lemma create_source_spec config : create_source config = Some source → (0 < maxBytes source)%Z ∧ (0 ≤ maxRedirects source)%Z.
Proof.
  unfold create_source, positive. intros H. destruct (safe_integer (config_maxBytes config)) as [m|]; [|done].
  destruct (Z.leb_spec m 0); [done|]. cbn in H. case_guard; [|done]. cbn in H. destruct (safe_integer (config_timeoutMs config)) as [t|]; [|done].
  destruct (Z.leb_spec t 0); [done|]. cbn in H. destruct (mapM _ _); [|done]. cbn in H. destruct (safe_integer _) as [n|]; [|done]. cbn in H.
  destruct (Z.ltb_spec n 0); [done|]. by injection H as <-.
Qed.

(** C26. Whatever the network answers and whenever the request is aborted or its time
    is up, an acquisition fetches only HTTPS urls of configured origins, all of
    one origin, at most one more than the redirects allowed and one alone where
    redirects are refused; it returns a snapshot only if it was not interrupted,
    of exactly the bytes the last response delivered, never more than the limit,
    with their digest and the evidence of that response; an interruption decides
    the error; and every error is one of the source's own, except that of a
    digest that fails. *)
Theorem bundle_acquisition_sound config o moment already locator calls result :
  create_source config = Some source → acquire source o moment already locator = (calls, result) →
  Forall allowed (fetched calls) ∧ (∀ u v, u ∈ fetched calls → v ∈ fetched calls → url_origin_of u = url_origin_of v) ∧
  (Z.of_nat (length (fetched calls)) ≤ 1 + maxRedirects source)%Z ∧
  (redirectPolicy source = RefuseRedirects → length (fetched calls) ≤ 1) ∧
  (∀ snapshot, result = Returns snapshot → already = false ∧ (∀ m i, moment = Some (m, i) → awaits calls ≤ m) ∧
    ∃ requested, new_URL locator = Some requested ∧ snapshot_of requested calls snapshot) ∧
  (∀ m i, already = false → moment = Some (m, i) → m < awaits calls → result = Throws (interrupted_with i)) ∧
  (∀ e, result = Throws e → (∃ c, e = Raised c) ∨ ∃ b, Asked (DigestBytes b) (Throws e) ∈ calls).
Proof.
  intros [Hb Hm]%create_source_spec. unfold acquire. destruct already.
  { intros [= <- <-]. split; [constructor|]. split; [by intros ? ? ?%elem_of_nil|]. split; [simpl; lia|]. split; [simpl; lia|]. split; [done|]. split; [done|].
    intros e [= <-]. left. by exists Cancelled. }
  pose proof (sat_run _ _ o 0 (acquire_sat locator ltac:(lia))) as H. destruct (run o 0 _) as [l r]. simpl in H. intros [= <- <-].
  destruct H as [[-> ->]|(u & Hu & Hua & (rest & Hf & Hall & Hlen & Href) & Hs & He)].
  { split; [constructor|]. split; [by intros ? ? ?%elem_of_nil|]. split; [simpl; lia|]. split; [simpl; lia|].
    assert (∀ m, (m <? awaits []) = false) as Hz by (intros m; by apply Nat.ltb_ge, Nat.le_0_l).
    assert (match moment with Some (m, i) => if m <? awaits [] then Throws (interrupted_with i) else Throws (Raised DisallowedLocation)
      | None => Throws (Raised DisallowedLocation) end = Throws (E := raised) (A := SurfaceBundleSnapshot) (Raised DisallowedLocation)) as ->
      by (destruct moment as [[m i]|]; [by rewrite Hz|done]).
    split; [done|]. split; [intros m i _ _ Hlt; by apply Nat.nlt_0_r in Hlt|]. intros e [= <-]. left. by eexists. }
  assert (∀ v, v ∈ fetched l → allowed v ∧ url_origin_of v = url_origin_of u) as Hv.
  { intros v. rewrite Hf. intros [->|Hv]%elem_of_cons; [done|]. by eapply Forall_forall in Hall. }
  split; [apply Forall_forall; intros v ?; by apply Hv|]. split; [intros v w [_ ->]%Hv [_ ->]%Hv; done|]. split; [rewrite Hf; simpl; lia|].
  split; [intros E; by rewrite Hf, (Href E)|]. destruct moment as [[m i]|].
  - destruct (Nat.ltb_spec m (awaits l)).
    + split; [done|]. split; [intros ? ? _ [= <- <-] _; done|]. intros e [= <-]. left. destruct i; by eexists.
    + split; [|split; [intros ? ? _ [= <- <-]; lia|exact He]]. intros s E. split; [done|]. split; [by intros ? ? [= <- <-]|]. exists u. by split; [|apply Hs].
  - split; [|split; [done|exact He]]. intros s E. split; [done|]. split; [done|]. exists u. by split; [|apply Hs].
Qed.
End theorems.

(** ** A run *)

Module BundleSourceSample.

Definition url (o path : string) : Url := {|
  url_href := o +:+ path; url_origin_of := o; url_protocol := "https:"; url_hostname := ""; url_pathname := path;
  url_search := ""; url_hash := ""; url_username := ""; url_password := ""
|}.
Definition first : Url := url "https://p" "/a".
Definition second : Url := url "https://p" "/b".

#[export] Instance library : UrlLibrary := {|
  new_URL := λ s, List.find (λ u, String.eqb (url_href u) s) [first; second; url "https://p" ""];
  new_URL_at := λ s base, if String.eqb s "/b" then Some second else None;
  search_entries := λ _, []; search_text := λ _, ""
|}.

Definition config : HttpSurfaceBundleSourceConfig := {|
  config_allowedOrigins := ["https://p"]; config_maxBytes := NInt 3; config_timeoutMs := NInt 1000;
  config_redirectPolicy := SameOriginRedirects; config_maxRedirects := Some (NInt 1); config_adapterId := None
|}.
Definition source : HttpSurfaceBundleSource := default {|
  allowedOrigins := []; maxBytes := 0; timeoutMs := 0; redirectPolicy := RefuseRedirects; maxRedirects := 0; adapterId := ""
|} (create_source config).

(** The first url redirects to the second, which delivers the chunks. *)
Definition network (chunks : list (list Z)) : oracle raised bundle_query := λ _ X q,
  match q in bundle_query X return outcome raised X with
  | SourceAborted => Returns false
  | FetchBundle u =>
      Returns (if String.eqb (url_href u) "https://p/a"
        then {| response_status := 302; response_ok := false; header_location := Some "/b"; header_content_length := None;
                header_etag := None; header_last_modified := None; response_body := None |}
        else {| response_status := 200; response_ok := true; header_location := None; header_content_length := None;
                header_etag := Some "e"; header_last_modified := None; response_body := Some chunks |})
  | ArrayBuffer => Throws OtherRaised
  | ReadChunk | CancelReader => Returns ()
  | Now => Returns (Some "2026")
  | DigestBytes _ => Returns "00"
  end.

(** Three bytes in two chunks are acquired from behind the redirect; a fourth is
    refused; and a deadline during the third await decides the error. *)
Lemma bundle_acquisition_sound_witness :
  (∃ calls snapshot, acquire source (network [[1]; [2; 3]]%Z) None false "https://p/a" = (calls, Returns snapshot) ∧
    bytes snapshot = [1; 2; 3]%Z ∧ fetched calls = [first; second] ∧ Forall (allowed source) (fetched calls) ∧
    ∃ requested, new_URL "https://p/a" = Some requested ∧ snapshot_of source requested calls snapshot) ∧
  (acquire source (network [[1]; [2; 3]; [4]]%Z) None false "https://p/a").2 = Throws (Raised SizeLimitExceeded) ∧
  (acquire source (network [[1]]%Z) (Some (2, DeadlinePassed)) false "https://p/a").2 = Throws (Raised Timeout).
Proof.
  split; [|vm_compute; by split].
  destruct (acquire source (network [[1]; [2; 3]]%Z) None false "https://p/a") as [calls r] eqn:E.
  assert (∃ snapshot, r = Returns snapshot ∧ bytes snapshot = [1; 2; 3]%Z ∧ fetched calls = [first; second]) as (snapshot & Hr & Hb & Hf).
  { vm_compute in E. injection E as <- <-. eexists. split; [reflexivity|]. by split. }
  assert (create_source config = Some source) as Hs by (vm_compute; reflexivity).
  destruct (bundle_acquisition_sound source config _ _ _ _ _ _ Hs E) as (H1 & _ & _ & _ & H2 & _).
  exists calls, snapshot. rewrite Hr. split; [reflexivity|]. split; [exact Hb|]. split; [exact Hf|]. split; [exact H1|]. exact (proj2 (proj2 (H2 _ Hr))).
Defined.
End BundleSourceSample.
