(* ===== verification/CohortState.v ===== *)
(** * The HTTP adapter cohort: its state and its calls

    The data of the reference HTTP adapters that share one cohort
    (src/src/adapters/http/cohort.ts): the scope fence of response-signing.ts,
    the binding registry, the draft store, response signing and the submit
    transport.  One record holds the state of all of them; the operations are
    async programs over it ([HttpClient], [SigningFence], [HttpDraftStore],
    [ResponseSigning], [HttpCohort]).

    A promise that more than one caller may hold, a stored preparation and a
    host's guard are known by number.  [superseded] is a ghost: the operations
    [restorePending] settled or replaced; no definition reads it. *)

From S2P Require Import Prelude JsValue Async IdempotencyKey DraftKeys ResponseAction.

(** ** Failures

    [DispatchRefused] marks an error that a save's last guard threw, which the
    save's caller knows it by. *)

Inductive cohort_failure : Set :=
  | ResponseSigningUnresolvedError
  | HttpAdapterError (status : Z) (responseBody : jsv)
  | DraftVersionConflictError (currentDraftKey : DraftKey) (retainedVersion : option string)
  | CohortError (message : string)
  | DispatchRefused (error : cohort_failure).

(** ** HTTP *)

Record HttpRequest : Set := {
  request_method : string;
  request_url : string;
  request_headers : list (string * string);
  request_body : option jsv
}.

(** What is read of a [Response]; its body is read later, by its handle. *)
Record HttpReply : Set := {
  reply_status : Z;
  reply_contentType : option string;
  reply_cacheControl : option string;
  reply_handle : N
}.

(** ** Drafts *)

Record DraftBindingSnapshot : Set := {
  snapshot_draftId : jsv;
  snapshot_draftVersion : jsv;
  snapshot_response : option jsv;
  snapshot_responseId : option string
}.

Record DraftBindings : Set := {
  bound : list (DraftKey * DraftBindingSnapshot);
  bindings_restored : bool
}.

Record DraftStoreState : Set := {
  pendingSaves : gset N;
  store_clearing : N;
  store_generation : N;
  retirementGeneration : N
}.

(** ** The scope fence *)

Record Fence : Set := {
  fence_generations : gmap string N;
  fence_pending : gmap string N;
  fence_clearing : gset string
}.

(** ** Signing *)

Record AdmittedResponseAction : Set := {
  admitted_document : jsv;
  admitted_artifactRef : string;
  admitted_artifactDigest : string;
  admitted_actionRef : string;
  admitted_requestRef : string
}.

Definition action_json (a : AdmittedResponseAction) : jsv :=
  JObj [("document", admitted_document a); ("artifactRef", JStr (admitted_artifactRef a));
        ("artifactDigest", JStr (admitted_artifactDigest a)); ("actionRef", JStr (admitted_actionRef a));
        ("requestRef", JStr (admitted_requestRef a))].

(** What saving, preparing and restoring have in common. *)
Record SigningInput : Set := {
  in_draftKey : DraftKey;
  in_definition : jsv;
  in_formVersionId : string;
  in_response : jsv
}.

Record PreparationContext : Set := {
  context_input : SigningInput;
  context_fence : N;
  renewalOperationId : option string
}.

Record FrozenAct : Set := {
  act_identity : string;
  act_operationId : string;
  act_preparation : PreparedResponseSigning;
  act_signerName : string;
  act_action : AdmittedResponseAction;
  act_context : PreparationContext;
  act_candidate : jsv;
  act_version : Z;
  act_result : option SignedResponseSigning;
  act_pending : option N
}.

Record SaveEntry : Set := {
  save_identity : option string;
  save_scope : string;
  save_generation : N;
  save_settled : bool;
  save_promise : N
}.

Record Activation : Set := { activation_identity : string; activation_promise : N }.

Record SigningState : Set := {
  preparations : gmap N (PreparedResponseSigning * PreparationContext);
  acts : gmap string FrozenAct;
  saves : gmap string SaveEntry;
  activations : gmap string Activation;
  superseded : gset string
}.

(** ** Submission *)

Record SubmitState : Set := {
  finalizedHandoffs : gmap string (jsv * jsv);
  replay : gmap string N
}.

(** ** What an operation answers *)

(** [DraftReadState] of src/src/ports/draft-store.ts. *)
Inductive DraftReadState : Set :=
  | ActivePending (operationId : string) (pending : PreparedResponseSigning)
  | ActiveSaved (saved : SavedResponseDraft)
  | ActiveSigned (signed : SignedResponseSigning)
  | SubmittedDraft (response : jsv) (draftId : string) (version : Z) (subjectRef formVersionId : string).

Inductive Result : Set :=
  | Saved (saved : SavedResponseDraft)
  | Prepared (reference : N) (preparation : PreparedResponseSigning)
  | Signed (signed : SignedResponseSigning)
  | RestoredAsPrepared (reference : N) (preparation : PreparedResponseSigning) (operationId : string)
  | RestoredAsSigned (signed : SignedResponseSigning)
  | Loaded (response : option jsv)
  | ReadAs (state : option DraftReadState)
  | Confirmed (referenceNumber status : jsv)
  | Nothing.

Record Cohort : Set := {
  fence : Fence;
  bindings : DraftBindings;
  metadata : gmap string jsv;
  drafts : DraftStoreState;
  signing : SigningState;
  submission : SubmitState;
  promises : gmap N (outcome cohort_failure Result);
  nextId : N
}.

(** ** Field updates *)

Definition with_fence (f : Fence → Fence) (c : Cohort) : Cohort :=
  Build_Cohort (f (fence c)) (bindings c) (metadata c) (drafts c) (signing c) (submission c) (promises c) (nextId c).
Definition with_bindings (b : DraftBindings) (m : gmap string jsv) (c : Cohort) : Cohort :=
  Build_Cohort (fence c) b m (drafts c) (signing c) (submission c) (promises c) (nextId c).
Definition with_metadata (m : gmap string jsv) (c : Cohort) : Cohort := with_bindings (bindings c) m c.
Definition with_drafts (f : DraftStoreState → DraftStoreState) (c : Cohort) : Cohort :=
  Build_Cohort (fence c) (bindings c) (metadata c) (f (drafts c)) (signing c) (submission c) (promises c) (nextId c).
Definition with_signing (f : SigningState → SigningState) (c : Cohort) : Cohort :=
  Build_Cohort (fence c) (bindings c) (metadata c) (drafts c) (f (signing c)) (submission c) (promises c) (nextId c).
Definition with_submission (f : SubmitState → SubmitState) (c : Cohort) : Cohort :=
  Build_Cohort (fence c) (bindings c) (metadata c) (drafts c) (signing c) (f (submission c)) (promises c) (nextId c).
Definition with_promise (id : N) (o : outcome cohort_failure Result) (c : Cohort) : Cohort :=
  Build_Cohort (fence c) (bindings c) (metadata c) (drafts c) (signing c) (submission c) (<[id := o]> (promises c)) (nextId c).
Definition with_next (c : Cohort) : Cohort :=
  Build_Cohort (fence c) (bindings c) (metadata c) (drafts c) (signing c) (submission c) (promises c) (nextId c + 1).

Definition with_preparations f (s : SigningState) : SigningState :=
  Build_SigningState (f (preparations s)) (acts s) (saves s) (activations s) (superseded s).
Definition with_acts f (s : SigningState) : SigningState :=
  Build_SigningState (preparations s) (f (acts s)) (saves s) (activations s) (superseded s).
Definition with_saves f (s : SigningState) : SigningState :=
  Build_SigningState (preparations s) (acts s) (f (saves s)) (activations s) (superseded s).
Definition with_activations f (s : SigningState) : SigningState :=
  Build_SigningState (preparations s) (acts s) (saves s) (f (activations s)) (superseded s).
Definition with_superseded f (s : SigningState) : SigningState :=
  Build_SigningState (preparations s) (acts s) (saves s) (activations s) (f (superseded s)).

Definition act_with_result (r : SignedResponseSigning) (a : FrozenAct) : FrozenAct :=
  Build_FrozenAct (act_identity a) (act_operationId a) (act_preparation a) (act_signerName a) (act_action a)
    (act_context a) (act_candidate a) (act_version a) (Some r) (act_pending a).
Definition act_with_pending (p : option N) (a : FrozenAct) : FrozenAct :=
  Build_FrozenAct (act_identity a) (act_operationId a) (act_preparation a) (act_signerName a) (act_action a)
    (act_context a) (act_candidate a) (act_version a) (act_result a) p.

(** ** Calls *)

Inductive call : Type → Type :=
  | Turn : call unit
  | AccessToken : call (option string)
  | Fetch (key : DraftKey) (request : HttpRequest) : call HttpReply
  | ReadBody (reply : HttpReply) : call string
  | AnonymousToken (key : DraftKey) (existing : bool) : call (option string)
  | HandoffToken (handoff : jsv) : call (option string)
  | SessionForForm (formUrl : string) (formVersion : option string) : call (option string * string)
  | ClearAnonymousSession (key : DraftKey) (preserveGrant : bool) : call unit
  | ValidateResponse (response : jsv) : call bool
  | ValidateCanonical (response : jsv) : call bool
  | SigningProfileDigest (response : jsv) : call string
  | PrePrepareCandidate (saved : SavedResponseDraft) (response : jsv) : call (option N)
  | PreSignCandidate (saved : SavedResponseDraft) (operationId : string) : call (option N)
  | CallGuard (guard : N) : call jsv
  | Now : call string
  | GenerateKey (scope : string) : call string
  | AwaitPending (scope : string) (id : N) : call unit
  | AwaitSaves (ids : gset N) : call unit
  | JoinPromise (id : N) : call Result.

(** The host's guards, its clock and the key generator answer at once. *)
Definition yields {X} (q : call X) : bool :=
  match q with CallGuard _ | Now | GenerateKey _ => false | _ => true end.

Abbreviation prog := (async Cohort cohort_failure call).

Definition fail {A} (message : string) : prog A := refuse (CohortError message).
Definition fail_when (b : bool) (message : string) : prog unit := refuse_when b (CohortError message).
Definition unresolved_when (b : bool) : prog unit := refuse_when b ResponseSigningUnresolvedError.

(** What a library or the metadata throws. *)
Definition of_library {A} (o : outcome string A) : prog A :=
  of_outcome (match o with Returns a => Returns a | Throws e => Throws (CohortError e) end).

Definition of_check {A} (o : outcome failure A) : prog A :=
  of_outcome (match o with
              | Returns a => Returns a
              | Throws (OtherFailure e) => Throws (CohortError e)
              | Throws _ => Throws (CohortError "refused")
              end).

(** A fresh reference. *)
Definition fresh : prog N := c ← get; modify with_next ;; mret (nextId c).

(** [v.k], which throws when [v] is [null] or [undefined]. *)
Definition member (v : jsv) (k : string) : prog jsv :=
  fail_when (is_nullish v) "Cannot read properties of undefined" ;; mret (prop v k).
