(* ===== verification/HttpClient.v ===== *)
(** * The HTTP client

    [HttpClient] of src/src/adapters/http/http-client.ts, as far as the draft,
    signing and submit adapters use it: JSON requests without abort signals,
    timeouts or byte limits.  A request is checked against its caller's lifetime
    before and after the credentials are resolved, admitted by the caller's last
    guard, and only then dispatched; every await is a turn. *)

From S2P Require Import Prelude JsValue JsMap BrowserStorage Async DraftKeys CohortState.
From Stdlib Require Import Ascii.

Record HttpClientConfig : Set := { baseUrl : string; scopeKey : option string }.

Record JsonRequestOptions : Type := {
  option_headers : list (string * string);
  option_idempotencyKey : option string;
  option_successStatuses : option (list Z);
  option_assertCurrent : prog unit;
  option_assertBeforeDispatch : option (prog jsv)
}.

(** [bearer] and [bearerHeaders] *)
Definition bearer (token : option string) : list (string * string) :=
  match token with
  | Some t => if nonempty t then [("authorization", "Bearer " +:+ t)] else []
  | None => []
  end.

(** [/^\/+/] removed. *)
Fixpoint strip_slashes (s : string) : string :=
  match s with String a s' => if Ascii.eqb a "/" then strip_slashes s' else s | EmptyString => "" end.

Definition lower_char (a : ascii) : ascii :=
  let n := nat_of_ascii a in if ((65 <=? n) && (n <=? 90))%nat then ascii_of_nat (n + 32) else a.

(** [s.toLowerCase()] of a header, which is Latin text. *)
Fixpoint lower_ascii (s : string) : string :=
  match s with String a s' => String (lower_char a) (lower_ascii s') | EmptyString => "" end.

Definition includes (sub s : string) : bool := match String.index 0 sub s with Some _ => true | None => false end.

Section client.
Context `{!JsonText} (config : HttpClientConfig).

Definition urlFor (path : string) : string :=
  if starts_with "http://" path || starts_with "https://" path then path
  else baseUrl config +:+ "/" +:+ strip_slashes path.

(** [Headers.set] replaces by name. *)
Definition header_list (options : JsonRequestOptions) (body : option jsv) (token : option string) : list (string * string) :=
  let headers := option_headers options in
  let headers := map_set headers "accept" "application/json" in
  let headers := match body with Some _ => map_set headers "content-type" "application/json" | None => headers end in
  let headers := match scopeKey config with Some k => map_set headers "x-stack-scope-key" k | None => headers end in
  let headers := match token with
                 | Some t => if nonempty t then map_set headers "authorization" ("Bearer " +:+ t) else headers
                 | None => headers
                 end in
  match option_idempotencyKey options with
  | Some k => if nonempty k then map_set headers "idempotency-key" k else headers
  | None => headers
  end.

Definition headersFor (options : JsonRequestOptions) (body : option jsv) : prog (list (string * string)) :=
  token ← invoke AccessToken;
  mret (header_list options body token).

Definition readResponsePayload (reply : HttpReply) : prog jsv :=
  text ← invoke (ReadBody reply);
  if negb (nonempty text) then mret JUndef
  else if negb (includes "json" (lower_ascii (default "" (reply_contentType reply)))) then mret (JStr text)
  else match parse_json text with Some v => mret v | None => fail "Unexpected token in JSON" end.

Definition reply_ok (reply : HttpReply) : bool := (200 <=? reply_status reply)%Z && (reply_status reply <=? 299)%Z.

Definition status_admitted (options : JsonRequestOptions) (reply : HttpReply) : bool :=
  reply_ok reply
  && match option_successStatuses options with Some l => bool_decide (reply_status reply ∈ l) | None => true end.

Definition requestJson (key : DraftKey) (method path : string) (body : option jsv) (options : JsonRequestOptions) : prog jsv :=
  option_assertCurrent options ;;
  headers ← headersFor options body;
  option_assertCurrent options ;;
  admission ← match option_assertBeforeDispatch options with Some guard => guard | None => mret JUndef end;
  fail_when (negb (is_undefined admission)) "Effect dispatch assertion must be synchronous and return no value" ;;
  reply ← invoke (Fetch key {| request_method := method; request_url := urlFor path; request_headers := headers;
                               request_body := body |});
  option_assertCurrent options ;;
  payload ← readResponsePayload reply;
  option_assertCurrent options ;;
  refuse_when (negb (status_admitted options reply)) (HttpAdapterError (reply_status reply) payload) ;;
  mret payload.

Definition getJson (key : DraftKey) (path : string) (options : JsonRequestOptions) : prog jsv :=
  requestJson key "GET" path None options.
Definition postJson (key : DraftKey) (path : string) (body : jsv) (options : JsonRequestOptions) : prog jsv :=
  requestJson key "POST" path (Some body) options.
Definition patchJson (key : DraftKey) (path : string) (body : jsv) (options : JsonRequestOptions) : prog jsv :=
  requestJson key "PATCH" path (Some body) options.
End client.

(** [assertSynchronousGuard] of src/src/shared/synchronous-guard.ts around a
    host's guard. *)
Definition assertSynchronousGuard (guard : option N) : prog unit :=
  match guard with
  | None => mret ()
  | Some g =>
      result ← invoke (CallGuard g);
      fail_when (negb (is_undefined result)) "Current-context guard must be synchronous"
  end.
