(* ===== verification/DraftBindings.v ===== *)
(** * Draft bindings

    [createDraftBindingRegistry] of
    src/src/adapters/http/draft-binding-registry.ts: which server draft a
    [DraftKey] is bound to.  The registry restores its entries from the scoped
    metadata on first use and writes them back after every change.  Its map is
    keyed by the serialized key, which two keys share only when they are equal,
    so here by the key itself. *)

From S2P Require Import Prelude JsValue JsMap Async ScopedMetadata DraftKeys ResponseAction CohortState.

(** The host's [FormIdResolver]. *)
Class FormIds := resolveFormId : string → option string → string.

Definition no_bindings : DraftBindings := {| bound := []; bindings_restored := false |}.

(** The registry and the metadata it is kept in. *)
Abbreviation bound_in := (DraftBindings * gmap string jsv)%type.
Abbreviation registry A := (bound_in → outcome cohort_failure A * bound_in).

Definition from_metadata {A} (o : outcome string A) : outcome cohort_failure A :=
  match o with Returns a => Returns a | Throws e => Throws (CohortError e) end.

Section registry.
Context `{!FormIds, !MetadataPolicy}.

Definition sameScope (left right : DraftKey) : bool :=
  String.eqb (resolveFormId (key_formUrl left) (key_formVersion left)) (resolveFormId (key_formUrl right) (key_formVersion right))
  && bool_decide (key_subjectRef left = key_subjectRef right)
  && bool_decide (key_partyRef left = key_partyRef right).

(** ** Restoring *)

Definition optional_string (v : jsv) : bool := is_undefined v || is_string v.

Definition handle_mismatch : cohort_failure := CohortError "Stored draft handle does not match its form context".

Definition handle_valid (entry : jsv) : bool :=
  let key := prop entry "key" in
  truthy key && is_nonempty_string (prop key "formUrl")
  && optional_string (prop key "formVersion") && optional_string (prop key "subjectRef") && optional_string (prop key "partyRef")
  && is_nonempty_string (prop entry "draftId")
  && match as_integer (prop entry "draftVersion") with Some z => (0 <=? z)%Z | None => false end
  && match prop entry "responseId" with JUndef => true | JStr s => negb (trim_empty s) | _ => false end
  && match prop key "formUrl" with
     | JStr url => is_lit (prop entry "formId") (resolveFormId url (str_of (prop key "formVersion")))
     | _ => false
     end.

Definition handle_key (key : jsv) : DraftKey :=
  {| key_formUrl := default "" (str_of (prop key "formUrl")); key_formVersion := str_of (prop key "formVersion");
     key_subjectRef := str_of (prop key "subjectRef"); key_partyRef := str_of (prop key "partyRef") |}.

Definition handle_snapshot (entry : jsv) : DraftBindingSnapshot :=
  {| snapshot_draftId := prop entry "draftId"; snapshot_draftVersion := prop entry "draftVersion";
     snapshot_response := None; snapshot_responseId := str_of (prop entry "responseId") |}.

(** The loop of [restore]: the entries before an invalid one are kept. *)
Fixpoint restore_entries (entries : list jsv) (m : list (DraftKey * DraftBindingSnapshot))
    : outcome cohort_failure unit * list (DraftKey * DraftBindingSnapshot) :=
  match entries with
  | [] => (Returns (), m)
  | entry :: entries' =>
      if handle_valid entry then restore_entries entries' (map_set m (handle_key (prop entry "key")) (handle_snapshot entry))
      else (Throws handle_mismatch, m)
  end.

Definition restore : registry unit := λ '(b, m),
  if bindings_restored b then (Returns (), (b, m)) else
  match slot_read "draft-handles" m with
  | Throws e => (Throws (CohortError e), (b, m))
  | Returns JUndef => (Returns (), ({| bound := bound b; bindings_restored := true |}, m))
  | Returns (JArr entries) =>
      match restore_entries entries (bound b) with
      | (Returns _, l) => (Returns (), ({| bound := l; bindings_restored := true |}, m))
      | (Throws e, l) => (Throws e, ({| bound := l; bindings_restored := false |}, m))
      end
  | Returns _ => (Throws (CohortError "Stored draft handles are invalid"), (b, m))
  end.

(** ** Persisting

    The text of the metadata leaves out what is [undefined]. *)

Definition handle_json (e : DraftKey * DraftBindingSnapshot) : jsv :=
  let '(key, s) := e in
  JObj ([("key", draftKey_json key); ("formId", JStr (resolveFormId (key_formUrl key) (key_formVersion key)));
         ("draftId", snapshot_draftId s)]
        ++ (if is_undefined (snapshot_draftVersion s) then [] else [("draftVersion", snapshot_draftVersion s)])
        ++ opt_member "responseId" (JStr <$> snapshot_responseId s)).

Definition persist : registry unit := λ '(b, m),
  let handles := handle_json <$> bound b in
  let '(o, m') := match handles with [] => slot_remove "draft-handles" m | _ => slot_write "draft-handles" (JArr handles) m end in
  (from_metadata o, (b, m')).

(** ** The operations *)

Definition registry_bind {A B} (f : registry A) (g : A → registry B) : registry B := λ s,
  match f s with (Returns a, s') => g a s' | (Throws e, s') => (Throws e, s') end.

(** Another version of the same form is kept for this owner. *)
Definition version_conflict (key : DraftKey) (m : list (DraftKey * DraftBindingSnapshot)) : option DraftKey :=
  fst <$> List.find (λ e, sameScope e.1 key && negb (bool_decide (key_formVersion e.1 = key_formVersion key))) m.

Definition bindings_get (key : DraftKey) : registry (option DraftBindingSnapshot) :=
  registry_bind restore (λ _ '(b, m),
    (match map_get (bound b) key with
     | Some s => Returns (Some s)
     | None => match version_conflict key (bound b) with
               | Some retained => Throws (DraftVersionConflictError key (key_formVersion retained))
               | None => Returns None
               end
     end, (b, m))).

(** [response.id], when it is truthy, replaces [responseId]. *)
Definition with_response_id (s : DraftBindingSnapshot) : DraftBindingSnapshot :=
  match snapshot_response s with
  | Some r =>
      match prop r "id" with
      | JStr id => if nonempty id then Build_DraftBindingSnapshot (snapshot_draftId s) (snapshot_draftVersion s) (Some r) (Some id) else s
      | _ => s
      end
  | None => s
  end.

Definition bindings_put (key : DraftKey) (s : DraftBindingSnapshot) : registry unit :=
  registry_bind restore (λ _ '(b, m),
    persist ({| bound := map_set (bound b) key (with_response_id s); bindings_restored := bindings_restored b |}, m)).

Definition bindings_delete (key : DraftKey) : registry unit := λ s,
  match restore s with
  | (Returns _, (b, m)) =>
      persist ({| bound := List.filter (λ e, negb (sameScope e.1 key)) (bound b); bindings_restored := bindings_restored b |}, m)
  | (Throws _, (b, m)) =>
      match slot_remove "draft-handles" m with
      | (Returns _, m') => (Returns (), ({| bound := []; bindings_restored := true |}, m'))
      | (Throws e, m') => (Throws (CohortError e), (b, m'))
      end
  end.

Definition bindings_entries : registry (list (DraftKey * DraftBindingSnapshot)) :=
  registry_bind restore (λ _ '(b, m), (Returns (bound b), (b, m))).

(** A registry operation inside a program. *)
Definition on_registry {A} (f : registry A) : prog A :=
  c ← get;
  let '(o, (b, m)) := f (bindings c, metadata c) in
  modify (with_bindings b m) ;; of_outcome o.
End registry.
