(* ===== verification/SigningFence.v ===== *)
(** * The scope fence

    [ResponseSigningScopeFence] of src/src/adapters/http/response-signing.ts,
    shared by draft edits, preparation, signing, submission and clearing: one
    operation at a time in a scope, and none while the scope is cleared.  A
    generation per scope retires what an operation captured before it. *)

From S2P Require Import Prelude JsValue Async BrowserStorage DraftKeys ResponseAction DraftBindings CohortState.

Section fence.
Context `{!FormIds, !JsonText}.

(** The cohort's [scopeFor]. *)
Definition scopeFor (key : DraftKey) : string :=
  stringify (JObj [("formId", JStr (resolveFormId (key_formUrl key) (key_formVersion key)));
                   ("subject", nullish_or (opt_str (key_subjectRef key)) JNull);
                   ("party", nullish_or (opt_str (key_partyRef key)) JNull)]).

Definition generation_of (scope : string) (c : Cohort) : N := default 0%N (fence_generations (fence c) !! scope).

Definition capture (key : DraftKey) (c : Cohort) : N := generation_of (scopeFor key) c.

Definition invalidate_in (key : DraftKey) (c : Cohort) : Cohort :=
  with_fence (λ f, Build_Fence (<[scopeFor key := (capture key c + 1)%N]> (fence_generations f)) (fence_pending f) (fence_clearing f)) c.

Definition fence_current (key : DraftKey) (generation : N) (c : Cohort) : bool :=
  bool_decide (capture key c = generation) && negb (bool_decide (scopeFor key ∈ fence_clearing (fence c))).

Definition assertCurrent (key : DraftKey) (generation : N) : prog unit :=
  c ← get;
  fail_when (negb (fence_current key generation c))
    "Draft signing state was cleared or invalidated while an operation was running".

Definition set_pending_in (scope : string) (id : N) (c : Cohort) : Cohort :=
  with_fence (λ f, Build_Fence (fence_generations f) (<[scope := id]> (fence_pending f)) (fence_clearing f)) c.

(** [if (this.pending.get(scope) === pending) this.pending.delete(scope);] *)
Definition release_in (scope : string) (id : N) (c : Cohort) : Cohort :=
  if decide (fence_pending (fence c) !! scope = Some id)
  then with_fence (λ f, Build_Fence (fence_generations f) (delete scope (fence_pending f)) (fence_clearing f)) c
  else c.

(** The operation starts a turn later; what it returns is checked a turn after
    it returns, and the scope is released a turn after that. *)
Definition fence_run {A} (key : DraftKey) (operation : N → prog A) : prog A :=
  let scope := scopeFor key in
  c ← get;
  fail_when (bool_decide (scope ∈ fence_clearing (fence c)) || bool_decide (is_Some (fence_pending (fence c) !! scope)))
    "A draft operation is already in progress" ;;
  let generation := capture key c in
  let id := nextId c in
  modify (λ c, set_pending_in scope id (with_next c)) ;;
  settle (invoke Turn ;; value ← operation generation; invoke Turn ;; assertCurrent key generation ;; mret value)
    (λ o, invoke Turn ;; modify (release_in scope id) ;; of_outcome o).

Definition begin_clearing (key : DraftKey) (c : Cohort) : Cohort :=
  invalidate_in key (with_fence (λ f, Build_Fence (fence_generations f) (fence_pending f) ({[scopeFor key]} ∪ fence_clearing f)) c).

Definition end_clearing (scope : string) (c : Cohort) : Cohort :=
  with_fence (λ f, Build_Fence (fence_generations f) (fence_pending f) (fence_clearing f ∖ {[scope]})) c.

Definition await_pending (scope : string) : prog unit :=
  c ← get;
  match fence_pending (fence c) !! scope with Some id => invoke (AwaitPending scope id) | None => invoke Turn end.

Definition fence_clear (key : DraftKey) (operation : prog unit) : prog unit :=
  let scope := scopeFor key in
  c ← get;
  fail_when (bool_decide (scope ∈ fence_clearing (fence c))) "Draft state is already being cleared" ;;
  modify (begin_clearing key) ;;
  finally (await_pending scope ;; operation) (end_clearing scope).
End fence.
