(* ===== verification/HttpDraftStore.v ===== *)
(** * The HTTP draft store

    [HttpDraftStore] of src/src/adapters/http/draft-store.ts: drafts on the
    server, found through the binding registry.  Deleting waits for the saves
    under way and refuses new ones; retiring a subject makes their late
    dispatches and results fail.  A bound version is compared when it is an
    integer, as the server's are. *)

From S2P Require Import Prelude JsValue Async BrowserStorage ScopedMetadata DraftKeys ResponseAction CohortState HttpClient DraftBindings.

Record HttpDraftStoreConfig : Set := {
  store_client : HttpClientConfig;
  requireExistingBinding : bool;
  anonymousSessions : bool
}.

Definition no_draft_store : DraftStoreState :=
  {| pendingSaves := ∅; store_clearing := 0; store_generation := 0; retirementGeneration := 0 |}.

Definition anonymousSubjectRef (key : DraftKey) : option string :=
  match key_subjectRef key with Some s => if starts_with "anon:" s then Some s else None | None => None end.

Definition respondentSubjectRef (key : DraftKey) : option string :=
  match key_subjectRef key with
  | Some s => if negb (nonempty s) || starts_with "anon:" s then None else Some s
  | None => None
  end.

(** [OwnedDraftResumeSelection] *)
Record ResumeSelection : Set := { selection_draftId : string; selection_expectedResponseId : string }.

Definition with_pendingSaves (f : gset N → gset N) (d : DraftStoreState) : DraftStoreState :=
  Build_DraftStoreState (f (pendingSaves d)) (store_clearing d) (store_generation d) (retirementGeneration d).

(** What [delete] and [retireSubject] set before they wait. *)
Definition start_clearing (retire : bool) (d : DraftStoreState) : DraftStoreState :=
  Build_DraftStoreState (pendingSaves d) (store_clearing d + 1) (store_generation d + 1)
    (if retire then retirementGeneration d + 1 else retirementGeneration d).

Definition stop_clearing (d : DraftStoreState) : DraftStoreState :=
  Build_DraftStoreState (pendingSaves d) (store_clearing d - 1) (store_generation d) (retirementGeneration d).

Definition opt_token (o : option string) : jsv := opt_str o.

(** The path of a server draft. *)
Definition draft_path (draftId : jsv) : string := "/drafts/" +:+ encodeURIComponent (js_to_string draftId).

Section store.
Context `{!FormIds, !JsonText, !MetadataPolicy, !Canonicalize} (config : HttpDraftStoreConfig).

(** [resolveAnonymousSessionToken], as the cohort configures it. *)
Definition resolveAnonymousSessionToken (key : DraftKey) : prog (option string) :=
  if anonymousSessions config then
    existing ← on_registry (bindings_get key);
    invoke (AnonymousToken key (isSome existing))
  else invoke Turn ;; mret None.

Definition store_current (generation : N) : prog unit :=
  c ← get;
  fail_when (negb (bool_decide (generation = retirementGeneration (drafts c)))) "Draft state was retired while saving".

Definition request_options (token : option string) (current : prog unit) (guard : option (prog jsv)) : JsonRequestOptions :=
  {| option_headers := bearer token; option_idempotencyKey := None; option_successStatuses := None;
     option_assertCurrent := current; option_assertBeforeDispatch := guard |}.

Definition create_path (key : DraftKey) : string :=
  "/runtime/forms/" +:+ encodeURIComponent (resolveFormId (key_formUrl key) (key_formVersion key)) +:+ "/drafts".

Definition create_body (key : DraftKey) (response : jsv) (token : option string) : jsv :=
  JObj [("anonymous_session_token", opt_str token);
        ("anonymous_subject_ref", opt_str (anonymousSubjectRef key));
        ("respondent_subject_ref", match token with
                                   | Some t => if nonempty t then JUndef else opt_str (respondentSubjectRef key)
                                   | None => opt_str (respondentSubjectRef key)
                                   end);
        ("party_ref", opt_str (key_partyRef key));
        ("draft_state", prop response "data");
        ("canonical_response", response)].

Definition createDraft (key : DraftKey) (response : jsv) (token : option string) (current : prog unit)
    (guard : option (prog jsv)) : prog unit :=
  draft ← postJson (store_client config) key (create_path key) (create_body key response token)
            (request_options token current guard);
  current ;;
  draftId ← member draft "draft_id";
  on_registry (bindings_put key {| snapshot_draftId := draftId; snapshot_draftVersion := prop draft "draft_version";
                                   snapshot_response := Some response; snapshot_responseId := None |}).

Definition update_body (response : jsv) (existing : DraftBindingSnapshot) : jsv :=
  JObj [("draft_state", prop response "data"); ("canonical_response", response);
        ("expected_draft_version", snapshot_draftVersion existing)].

Definition saveOnce (key : DraftKey) (response : jsv) (guard : option (prog jsv)) : prog unit :=
  c ← get;
  let current := store_current (retirementGeneration (drafts c)) in
  existing ← on_registry (bindings_get key);
  token ← match respondentSubjectRef key with Some _ => mret None | None => resolveAnonymousSessionToken key end;
  current ;;
  match existing with
  | None =>
      fail_when (requireExistingBinding config) "Task draft binding is unavailable; relaunch the owning task" ;;
      createDraft key response token current guard
  | Some existing =>
      update ← patchJson (store_client config) key (draft_path (snapshot_draftId existing)) (update_body response existing)
                 (request_options token current guard);
      current ;;
      version ← member update "draft_version";
      on_registry (bindings_put key {| snapshot_draftId := snapshot_draftId existing; snapshot_draftVersion := version;
                                       snapshot_response := Some response; snapshot_responseId := None |})
  end.

Definition store_save (key : DraftKey) (response : jsv) (guard : option (prog jsv)) : prog unit :=
  c ← get;
  fail_when (negb (store_clearing (drafts c) =? 0)%N) "Draft state is being cleared" ;;
  id ← fresh;
  modify (with_drafts (with_pendingSaves ({[id]} ∪.))) ;;
  finally (saveOnce key response guard) (with_drafts (with_pendingSaves (.∖ {[id]}))).

(** ** Reading *)

Definition read_current (assertCurrent : prog unit) (generation : N) : prog unit :=
  assertCurrent ;;
  c ← get;
  fail_when (negb (bool_decide (generation = store_generation (drafts c)))) "Draft state was cleared while loading".

Definition selection_conflicts (selection : ResumeSelection) (previous : DraftBindingSnapshot) : bool :=
  negb (is_lit (snapshot_draftId previous) (selection_draftId selection))
  || match snapshot_responseId previous with
     | Some id => negb (String.eqb id (selection_expectedResponseId selection))
     | None => false
     end.

Definition selected_snapshot (selection : ResumeSelection) : DraftBindingSnapshot :=
  {| snapshot_draftId := JStr (selection_draftId selection); snapshot_draftVersion := JUndef; snapshot_response := None;
     snapshot_responseId := Some (selection_expectedResponseId selection) |}.

(** [canonicalize(a) !== canonicalize(b)] of two snapshots, by what they hold. *)
Definition same_snapshot (a b : option DraftBindingSnapshot) : bool :=
  match a, b with
  | None, None => true
  | Some a, Some b =>
      same (snapshot_draftId a) (snapshot_draftId b) && same (snapshot_draftVersion a) (snapshot_draftVersion b)
      && same (opt_json (snapshot_response a)) (opt_json (snapshot_response b))
      && bool_decide (snapshot_responseId a = snapshot_responseId b)
  | _, _ => false
  end.

Definition view_matches (key : DraftKey) (binding : DraftBindingSnapshot) (view : jsv) : bool :=
  let response := prop view "canonical_response" in
  match as_integer (prop view "draft_version") with Some z => (0 <=? z)%Z | None => false end
  && is_lit (prop response "definitionUrl") (key_formUrl key)
  && match key_formVersion key with Some v => is_lit (prop response "definitionVersion") v | None => true end
  && same (prop response "data") (prop view "draft_state").

(** [view.draft_version < binding.draftVersion] *)
Definition version_regressed (view : jsv) (binding : DraftBindingSnapshot) : bool :=
  match as_integer (prop view "draft_version"), as_integer (snapshot_draftVersion binding) with
  | Some v, Some b => (v <? b)%Z
  | _, _ => false
  end.

Definition identity_changed (view : jsv) (binding : DraftBindingSnapshot) : bool :=
  match snapshot_responseId binding with
  | Some id => negb (is_lit (prop (prop view "canonical_response") "id") id)
  | None => false
  end.

Definition store_read {A} (key : DraftKey) (qualify : jsv → prog A) (assertCurrent : prog unit) (missingIsAbsent : bool)
    (selection : option ResumeSelection) : prog (option A) :=
  c ← get;
  let current := read_current assertCurrent (store_generation (drafts c)) in
  current ;;
  previous ← on_registry (bindings_get key);
  fail_when (match selection, previous with Some s, Some p => selection_conflicts s p | _, _ => false end)
    "Owned draft resume conflicts with a retained binding" ;;
  match (match previous with Some p => Some p | None => selected_snapshot <$> selection end) with
  | None => mret None
  | Some binding =>
      settle
        (token ← resolveAnonymousSessionToken key;
         current ;;
         view ← getJson (store_client config) key (draft_path (snapshot_draftId binding))
                  {| option_headers := bearer token; option_idempotencyKey := None;
                     option_successStatuses := if missingIsAbsent then None else Some [200%Z];
                     option_assertCurrent := current; option_assertBeforeDispatch := None |};
         current ;;
         response ← member view "canonical_response";
         fail_when (isSome selection && negb (is_undefined (prop view "taskDraft")))
           "Task-owned draft requires its maintained task entry" ;;
         of_check (assertTaskDraftWire (prop view "taskDraft")) ;;
         invoke Turn ;;
         fail_when (negb (strict_eq (prop view "draft_id") (snapshot_draftId binding)) || negb (truthy response))
           "Server draft has no matching canonical Response snapshot" ;;
         valid ← invoke (ValidateCanonical response);
         fail_when (negb valid || negb (view_matches key binding view))
           "Server draft has no matching canonical Response snapshot" ;;
         fail_when (match selection with
                    | Some s => negb (is_lit (prop response "id") (selection_expectedResponseId s))
                    | None => false
                    end) "Owned draft resume Response identity differs" ;;
         fail_when (negb missingIsAbsent && (version_regressed view binding || identity_changed view binding))
           "Owned draft state regressed from its retained identity or revision" ;;
         current ;;
         result ← qualify view;
         current ;;
         match selection with
         | Some _ =>
             now ← on_registry (bindings_get key);
             fail_when (negb (same_snapshot now previous)) "Owned draft binding changed while resuming"
         | None => mret ()
         end ;;
         on_registry (bindings_put key {| snapshot_draftId := prop view "draft_id"; snapshot_draftVersion := prop view "draft_version";
                                          snapshot_response := Some response; snapshot_responseId := None |}) ;;
         mret (Some result))
        (λ o, match o with
              | Returns result => mret result
              | Throws error =>
                  current ;;
                  match error with
                  | HttpAdapterError 404 _ =>
                      refuse_when (negb missingIsAbsent) error ;;
                      on_registry (bindings_delete key) ;; mret None
                  | _ => refuse error
                  end
              end)
  end.

Definition store_load (key : DraftKey) (assertCurrent : prog unit) : prog (option jsv) :=
  store_read key (λ view, invoke Turn ;; mret (prop view "canonical_response")) assertCurrent true None.

(** ** Clearing *)

Definition clear_anonymous (key : DraftKey) : prog unit :=
  if anonymousSessions config then
    entries ← on_registry bindings_entries;
    invoke (ClearAnonymousSession key
      (existsb (λ e, String.eqb (resolveFormId (key_formUrl e.1) (key_formVersion e.1))
                                (resolveFormId (key_formUrl key) (key_formVersion key))) entries))
  else invoke Turn.

Definition store_delete (key : DraftKey) : prog unit :=
  modify (with_drafts (start_clearing false)) ;;
  finally
    (c ← get;
     invoke (AwaitSaves (pendingSaves (drafts c))) ;;
     on_registry (bindings_delete key) ;;
     clear_anonymous key)
    (with_drafts stop_clearing).

Definition store_list (subjectRef : string) : prog (list DraftKey) :=
  entries ← on_registry bindings_entries;
  mret ((List.filter (λ e, bool_decide (key_subjectRef e.1 = Some subjectRef)) entries).*1).

(** A locator without what was read or written. *)
Definition locator (s : DraftBindingSnapshot) : DraftBindingSnapshot :=
  {| snapshot_draftId := snapshot_draftId s; snapshot_draftVersion := snapshot_draftVersion s; snapshot_response := None;
     snapshot_responseId := snapshot_responseId s |}.

Fixpoint retire_entries (subjectRef : string) (entries : list (DraftKey * DraftBindingSnapshot)) : registry unit :=
  match entries with
  | [] => λ s, (Returns (), s)
  | (key, s) :: entries' =>
      if bool_decide (key_subjectRef key = Some subjectRef)
      then registry_bind (bindings_put key (locator s)) (λ _, retire_entries subjectRef entries')
      else retire_entries subjectRef entries'
  end.

Definition store_retireSubject (subjectRef : string) : prog unit :=
  modify (with_drafts (start_clearing true)) ;;
  finally
    (c ← get;
     invoke (AwaitSaves (pendingSaves (drafts c))) ;;
     on_registry (registry_bind bindings_entries (retire_entries subjectRef)))
    (with_drafts stop_clearing).
End store.
