(* ===== verification/ResponseSigning.v ===== *)
(** * Response signing over HTTP

    [HttpResponseSigning] of src/src/adapters/http/response-signing.ts: saving
    and preparing a draft, signing what was prepared, and restoring an act that
    was left unresolved.  An act is frozen, and its marker written to the scoped
    metadata, before the first request that may change the server; a marker that
    is still there refuses every other change of its scope.

    The engine, the canonical packages and the COSE decoder are parameters; the
    diagnostics of a failed save are left out. *)

From S2P Require Import Prelude JsValue Async BrowserStorage ScopedMetadata IdempotencyKey Base64 DraftKeys ResponseAction CohortState HttpClient DraftBindings SigningFence HttpDraftStore.

(** ** What the packages provide *)

(** What [decodeCoseSign1WithMethodUri] reads of an envelope. *)
Record CoseEnvelope : Set := {
  cose_methodUri : string;
  cose_alg : Z;
  cose_detached : bool;
  cose_signatureLength : nat;
  cose_kid : option string
}.

Class SigningPackages := {
  resolveAuthoredSigningContent : jsv → jsv → jsv → string → outcome string jsv;
  hashSigningContent : jsv → outcome string string;
  validatesContent : jsv → bool;
  targetDefinitionMatches : jsv → jsv → jsv → bool;
  decodeCose : string → outcome string CoseEnvelope;
  decodeUtf8 : string → option string;
  is_date : string → bool;
  is_uri : string → bool;
  lower_case : string → string;
  nativeCurrentCheck : jsv → outcome string jsv
}.

Record TaskDraftSelection : Set := { task_key : DraftKey; task_subject : string; task_draft : jsv }.

Record SigningConfig : Set := {
  signing_store : HttpDraftStoreConfig;
  signing_keyId : string;
  expectedIssuer : string;
  qualifiesPrepare : bool;
  qualifiesSign : bool;
  task_selection : option TaskDraftSelection
}.

(** ** Inputs *)

Record SaveResponseDraftInput : Set := {
  save_input :> SigningInput;
  save_formId : string;
  save_operationId : string;
  save_action : AdmittedResponseAction
}.

Record PrepareResponseSigningInput : Set := {
  prepare_input :> SigningInput;
  prepare_source : jsv;
  prepare_locale : string;
  prepare_action : AdmittedResponseAction
}.

Record SignPreparedResponseInput : Set := {
  sign_reference : N;
  sign_preparation : PreparedResponseSigning;
  sign_signerName : string;
  sign_consent : bool;
  sign_operationId : string;
  sign_action : AdmittedResponseAction
}.

Definition save_json (i : SaveResponseDraftInput) : jsv :=
  JObj [("formId", JStr (save_formId i)); ("draftKey", draftKey_json (in_draftKey i)); ("definition", in_definition i);
        ("formVersionId", JStr (in_formVersionId i)); ("response", in_response i);
        ("operationId", JStr (save_operationId i)); ("action", action_json (save_action i))].

Definition prepared_json (p : PreparedResponseSigning) : jsv :=
  JObj [("draftKey", draftKey_json (saved_draftKey p)); ("response", saved_response p); ("draft", draft_json (saved_draft p));
        ("actor", JObj [("id", JStr (saved_actor p))]); ("evidence", evidence_json (saved_evidence p)); ("content", content p)].

Definition assent_json (signerName : string) (consent : bool) : jsv :=
  JObj [("signerName", JStr signerName); ("consentAccepted", JBool consent)].

#[export] Instance DraftRef_eq_dec : EqDecision DraftRef.
Proof. solve_decision. Defined.
#[export] Instance VerifiedDraftEvidence_eq_dec : EqDecision VerifiedDraftEvidence.
Proof. solve_decision. Defined.
#[export] Instance SavedResponseDraft_eq_dec : EqDecision SavedResponseDraft.
Proof. solve_decision. Defined.
#[export] Instance PreparedResponseSigning_eq_dec : EqDecision PreparedResponseSigning.
Proof. solve_decision. Defined.

(** ** Small readers *)

Definition safe_int (v : jsv) : option Z := match v with JNum n => safe_integer n | _ => None end.
Definition int (z : Z) : jsv := JNum (NInt z).
Definition is_int (v : jsv) (z : Z) : bool := match safe_int v with Some y => Z.eqb y z | None => false end.
Definition has_text (v : jsv) : bool := match v with JStr s => negb (trim_empty s) | _ => false end.
Definition is_signed (response : jsv) : bool := negb (bool_decide (authored_signatures response = [])).
Definition committed (response : jsv) : bool := truthy (signing_content response).
Definition unsigned_of (response : jsv) : jsv := obj_delete "authoredSignatures" response.

(** [delete successor.extensions?.['x-formspec-signing-content']] *)
Definition successor_of (response : jsv) : jsv :=
  match response with
  | JObj o => match own_get o "extensions" with
              | Some e => JObj (obj_set o "extensions" (obj_delete "x-formspec-signing-content" e))
              | None => response
              end
  | _ => response
  end.

Definition version_jsv (n : jsnum) : Z := match safe_integer n with Some z => z | None => 0%Z end.
Definition view_version (view : jsv) : Z := default 0%Z (safe_int (prop view "draft_version")).
Definition view_response (view : jsv) : jsv := prop view "canonical_response".
Definition text_of (v : jsv) : string := default "" (str_of v).

(** [/^[a-f0-9]{64}$/.test(v)] *)
Definition hex64 (v : jsv) : bool := is_hex64 (js_to_string v).

Section signing.
Context `{!FormIds, !JsonText, !MetadataPolicy, !Canonicalize, !Engine, !UuidPackage, !Digest, !HandoffBytes,
  !SigningPackages}.
Context (config : SigningConfig).

Abbreviation client := (store_client (signing_store config)).

Definition requireSigningIssuer (value : string) : outcome string string :=
  throw_when (negb (nonempty value) || negb (is_uri value)) "Delegated signing issuer must be an absolute URI" ;; Returns value.

(** ** The markers *)

Definition create_slot : string := "response-draft-create-operations".
Definition sign_slot : string := "response-signing-operations".

Definition is_uuid (v : jsv) : bool := match v with JStr s => isUuidV7IdempotencyKey s | _ => false end.

Definition create_marker_keys : list string := ["scope"; "operationId"; "definitionUrl"; "definitionVersion"; "candidateHash"].

Definition create_marker_valid (m : jsv) : bool :=
  truthy m && is_nonempty_string (prop m "scope") && is_string (prop m "operationId") && is_uuid (prop m "operationId")
  && has_text (prop m "definitionUrl") && has_text (prop m "definitionVersion")
  && is_string (prop m "candidateHash") && hex64 (prop m "candidateHash")
  && forallb (λ k, str_in k create_marker_keys) (obj_keys (props_of m)).

Definition renewal_valid (m : jsv) : bool :=
  let renewal := prop m "renewal" in
  negb (truthy renewal)
  || match safe_int (prop m "version"), safe_int (prop renewal "version") with
     | Some v, Some r =>
         is_uuid (prop renewal "operationId")
         && negb (strict_eq (prop renewal "operationId") (prop m "operationId"))
         && (v <? r)%Z
         && (if is_undefined (prop renewal "previousVersion") then (r =? v + 1)%Z
             else match safe_int (prop renewal "previousVersion") with
                  | Some p => (v + 1 <=? p)%Z && (r =? p + 1)%Z
                  | None => false
                  end)
         && truthy (prop renewal "originalCandidate")
         && hex64 (prop renewal "originalHash") && hex64 (prop renewal "successorHash")
     | _, _ => false
     end.

Definition marker_valid (m : jsv) : bool :=
  truthy m && is_string (prop m "scope") && is_string (prop m "operationId") && is_string (prop m "draftId")
  && isSome (safe_int (prop m "version")) && renewal_valid m.

Definition read_slot (slot : string) : prog jsv := c ← get; of_library (slot_read slot (metadata c)).

(** A metadata change, and the operations it retires. *)
Definition on_metadata (f : gmap string jsv → outcome string unit * gmap string jsv) (retired : gset string) : prog unit :=
  c ← get;
  match f (metadata c) with
  | (Returns _, m) => modify (λ c, with_signing (with_superseded (retired ∪.)) (with_metadata m c))
  | (Throws e, m) => modify (with_metadata m) ;; fail e
  end.

Definition valid_list (valid : jsv → bool) (value : jsv) : prog (list jsv) :=
  match value with
  | JUndef => mret []
  | JArr l => unresolved_when (negb (forallb valid l)) ;; mret l
  | _ => refuse ResponseSigningUnresolvedError
  end.

Definition write_list (slot : string) (l : list jsv) (retired : gset string) : prog unit :=
  on_metadata (match l with [] => slot_remove slot | _ => slot_write slot (JArr l) end) retired.

Definition createMarkers : prog (list jsv) := value ← read_slot create_slot; valid_list create_marker_valid value.
Definition writeCreateMarkers (l : list jsv) : prog unit := write_list create_slot l ∅.
Definition markers : prog (list jsv) := value ← read_slot sign_slot; valid_list marker_valid value.
Definition writeMarkers (l : list jsv) (retired : gset string) : prog unit := write_list sign_slot l retired.

Definition in_scope (scope : string) (m : jsv) : bool := is_lit (prop m "scope") scope.

Definition act_key (act : FrozenAct) : DraftKey := in_draftKey (context_input (act_context act)).
Definition act_scope (act : FrozenAct) : string := scopeFor (act_key act).

Definition unresolved_act (scope : string) (act : FrozenAct) : bool :=
  negb (isSome (act_result act)) && String.eqb (act_scope act) scope.

Definition refuseUnresolved (key : DraftKey) : prog unit :=
  let scope := scopeFor key in
  creating ← createMarkers;
  unresolved_when (existsb (in_scope scope) creating) ;;
  signing_markers ← markers;
  unresolved_when (existsb (in_scope scope) signing_markers) ;;
  c ← get;
  unresolved_when (existsb (λ e, unresolved_act scope e.2) (map_to_list (acts (signing c)))).

Definition hasPending (key : DraftKey) : prog bool :=
  l ← markers; mret (existsb (in_scope (scopeFor key)) l).

Definition pendingMarkerFor (key : DraftKey) (draftId : string) : prog jsv :=
  let scope := scopeFor key in
  all ← markers;
  let matching := List.filter (in_scope scope) all in
  creating ← createMarkers;
  unresolved_when (existsb (in_scope scope) creating) ;;
  match matching with
  | [m] => unresolved_when (negb (is_lit (prop m "draftId") draftId) || negb (is_uuid (prop m "operationId"))) ;; mret m
  | _ => refuse ResponseSigningUnresolvedError
  end.

Definition act_marker (act : FrozenAct) : jsv :=
  JObj [("scope", JStr (act_scope act)); ("operationId", JStr (act_operationId act));
        ("draftId", JStr (draft_id (saved_draft (act_preparation act)))); ("version", int (act_version act))].

Definition renewal_is (m : jsv) (operationId : string) (version : jsnum) : bool :=
  let renewal := prop m "renewal" in
  is_lit (prop renewal "operationId") operationId && strict_eq (prop renewal "version") (JNum version).

Definition mark (act : FrozenAct) : prog unit :=
  let scope := act_scope act in
  let draft := saved_draft (act_preparation act) in
  all ← markers;
  retired ←
    match renewalOperationId (act_context act) with
    | Some _ =>
        m ← pendingMarkerFor (act_key act) (draft_id draft);
        unresolved_when (negb (renewal_is m (act_operationId act) (draft_version draft))) ;;
        mret {[text_of (prop m "operationId")]}
    | None => unresolved_when (existsb (in_scope scope) all) ;; mret ∅
    end;
  writeMarkers (List.filter (λ m, negb (in_scope scope m)) all ++ [act_marker act]) retired ;;
  m ← pendingMarkerFor (act_key act) (draft_id draft);
  unresolved_when (negb (same m (act_marker act))).

Definition unmark (operationId : string) (retired : gset string) : prog unit :=
  all ← markers;
  writeMarkers (List.filter (λ m, negb (is_lit (prop m "operationId") operationId)) all) retired.

(** ** Admission *)

Definition admittedRequest (action : AdmittedResponseAction) (response : jsv) : outcome failure jsv :=
  let document := admitted_document action in
  let matching := List.filter (λ item, is_lit (prop item "id") (admitted_actionRef action)) (arr_of (prop document "actions")) in
  let refusal := OtherFailure "Draft operation requires one admitted Response-scoped service request" in
  match matching with
  | [item] =>
      match prop item "effects" with
      | JArr [effect] =>
          throw_when (trim_empty (admitted_artifactRef action) || negb (is_sha256 (JStr (admitted_artifactDigest action)))
                      || is_lit (prop document "scope") "app"
                      || negb (targetDefinitionMatches (prop document "targetDefinition") (prop response "definitionUrl")
                                 (prop response "definitionVersion"))
                      || negb (is_lit (prop effect "type") "serviceRequest")
                      || negb (is_lit (prop effect "requestRef") (admitted_requestRef action))
                      || negb (is_lit (prop effect "idempotencyKey") "@invocation.id")) refusal ;;
          request ← resolveServiceRequest (prop document "x-formspec-runtime") (JStr (admitted_requestRef action));
          throw_when
            (existsb (λ output : string * jsv,
               let path := prop output.2 "path" in let exposure := prop output.2 "exposure" in
               negb (is_one_of path ["/draft_id"; "/form_version_id"; "/subject_ref"; "/draft_version"; "/draft_state";
                                     "/canonical_response"; "/status"])
               || (truthy exposure && negb (is_lit exposure "internal")
                   && negb (is_one_of path ["/draft_id"; "/form_version_id"; "/subject_ref"; "/status"])))
              (props_of (prop request "outputs"))) (OtherFailure "Draft operation declares unsupported outputs") ;;
          Returns request
      | _ => Throws refusal
      end
  | _ => Throws refusal
  end.

Definition plan_json (fields : jsobj) : jsv := JObj [("input", JObj fields)].
Definition ok_statuses : jsv := JArr [int 200].

(** With a draft's id and version, a save of that draft; without, its
    creation. *)
Definition qualifySaveAction (action : AdmittedResponseAction) (key : DraftKey) (response : jsv) (formId : string)
    (draft : option (jsv * jsv)) : outcome failure unit :=
  request ← admittedRequest action response;
  planned ← planServiceRequest request
    (plan_json [("formId", JStr formId); ("draftId", match draft with Some (id, _) => id | None => JUndef end);
                ("draftVersion", match draft with Some (_, v) => v | None => JUndef end); ("frozenResponse", response)]);
  let path := match draft with Some (id, _) => draft_path id | None => create_path key end in
  let body := JObj ([("draft_state", prop response "data"); ("canonical_response", response)]
                    ++ match draft with Some (_, v) => [("expected_draft_version", v)] | None => [] end) in
  throw_when (negb (String.eqb (planned_method planned) (if isSome draft then "PATCH" else "POST"))
              || negb (String.eqb (planned_path planned) path) || negb (bool_decide (planned_headers planned = []))
              || negb (same (planned_body planned) body) || negb (same (planned_successStatuses planned) ok_statuses))
    (OtherFailure "Authored Save request differs from the exact private draft operation").

Definition sign_body (act : FrozenAct) : jsv :=
  JObj [("draft_version", int (act_version act)); ("canonical_response", act_candidate act)].

Definition sign_path (draftId : string) : string := draft_path (JStr draftId) +:+ "/sign".

Definition validateAction (act : FrozenAct) : outcome failure PlannedRequest :=
  let action := act_action act in
  let document := admitted_document action in
  let draftId := draft_id (saved_draft (act_preparation act)) in
  let refusal := OtherFailure "Sign requires one admitted Response-scoped service request" in
  match List.filter (λ item, is_lit (prop item "id") (admitted_actionRef action)) (arr_of (prop document "actions")) with
  | [item] =>
      match prop item "effects" with
      | JArr [effect] =>
          throw_when (negb (nonempty (admitted_artifactRef action)) || negb (nonempty (admitted_artifactDigest action))
                      || is_lit (prop document "scope") "app"
                      || negb (strict_eq (prop (prop document "targetDefinition") "url") (prop (act_candidate act) "definitionUrl"))
                      || negb (is_lit (prop effect "type") "serviceRequest")
                      || negb (is_lit (prop effect "requestRef") (admitted_requestRef action))
                      || negb (is_lit (prop effect "idempotencyKey") "@invocation.id")) refusal ;;
          request ← admittedRequest action (act_candidate act);
          planned ← planServiceRequest request
            (plan_json [("draftId", JStr draftId); ("draftVersion", int (act_version act));
                        ("frozenResponse", act_candidate act)]);
          throw_when (negb (String.eqb (planned_method planned) "POST") || negb (same (planned_successStatuses planned) ok_statuses)
                      || negb (String.eqb (planned_path planned) (sign_path draftId))
                      || negb (same (planned_body planned) (sign_body act)))
            (OtherFailure "Authored signing request does not match the exact owned candidate") ;;
          Returns planned
      | _ => Throws refusal
      end
  | _ => Throws refusal
  end.

(** ** Owned reads *)

Definition current (context : PreparationContext) : prog unit :=
  assertCurrent (in_draftKey (context_input context)) (context_fence context).

(** The cohort's [ownerFor]: a token and the subject. *)
Definition ownerFor (key : DraftKey) : prog (option string * string) :=
  match task_selection config with
  | Some task =>
      fail_when (negb (bool_decide (key_subjectRef key = Some (task_subject task)))
                 || negb (String.eqb (key_formUrl key) (key_formUrl (task_key task)))
                 || negb (bool_decide (key_formVersion key = key_formVersion (task_key task)))
                 || negb (bool_decide (key_partyRef key = key_partyRef (task_key task))))
        "Task draft owner selection mismatch" ;;
      invoke Turn ;; mret (None, task_subject task)
  | None =>
      match respondentSubjectRef key with
      | Some subject => invoke Turn ;; mret (None, subject)
      | None =>
          fail_when (negb (anonymousSessions (signing_store config))) "Signing requires an owned anonymous session" ;;
          '(token, subject) ← invoke (SessionForForm (key_formUrl key) (key_formVersion key));
          fail_when (match key_subjectRef key with Some s => nonempty s && negb (String.eqb s subject) | None => false end)
            "Signing actor differs from the server owner" ;;
          mret (token, subject)
      end
  end.

Definition task_unchanged (view : jsv) : bool :=
  match task_selection config with
  | Some task =>
      negb (truthy (task_draft task))
      || (strict_eq (prop (prop view "taskDraft") "associationHash") (prop (task_draft task) "associationHash")
          && strict_eq (prop (prop view "taskDraft") "taskBindingHash") (prop (task_draft task) "taskBindingHash")
          && same (nullish_or (prop (prop view "taskDraft") "taskPrefill") JNull)
                  (nullish_or (prop (task_draft task) "taskPrefill") JNull))
  | None => true
  end.

Definition validateView (context : PreparationContext) (id : string) (view : jsv) (actor : string) : prog unit :=
  let input := context_input context in
  let response := view_response view in
  let refusal := "Owned draft has no matching authoritative Response snapshot" in
  of_check (assertTaskDraftWire (prop view "taskDraft")) ;;
  fail_when (negb (task_unchanged view)) "Task draft composition metadata changed" ;;
  fail_when (negb (truthy view) || negb (is_lit (prop view "draft_id") id)
             || negb (is_lit (prop view "form_version_id") (in_formVersionId input))
             || negb (is_lit (prop view "status") "in_progress") || negb (is_lit (prop view "subject_ref") actor)
             || negb (match safe_int (prop view "draft_version") with Some z => (0 <=? z)%Z | None => false end)
             || negb (truthy response)) refusal ;;
  valid ← invoke (ValidateResponse response);
  fail_when (negb valid || negb (strict_eq (prop response "id") (prop (in_response input) "id"))
             || negb (strict_eq (prop response "definitionUrl") (prop (in_definition input) "url"))
             || negb (strict_eq (prop response "definitionVersion") (prop (in_definition input) "version"))
             || negb (same (prop response "data") (prop view "draft_state"))) refusal.

Definition read (context : PreparationContext) (id : string) : prog jsv :=
  let key := in_draftKey (context_input context) in
  '(token, subject) ← ownerFor key;
  current context ;;
  view ← settle
    (getJson client key (draft_path (JStr id))
       {| option_headers := bearer token; option_idempotencyKey := None; option_successStatuses := None;
          option_assertCurrent := current context; option_assertBeforeDispatch := None |})
    (λ o, match o with Returns view => mret view | Throws error => current context ;; refuse error end);
  current context ;;
  validateView context id view subject ;;
  current context ;;
  mret view.

Definition handoffHash (response : jsv) : prog string :=
  bytes ← of_library (canonicalResponseHandoffBytes response);
  invoke Turn ;; mret (hex (sha256 bytes)).

(** The evidence of a verified read. *)
Definition view_evidence (view : jsv) : VerifiedDraftEvidence :=
  {| ev_draft_id := text_of (prop view "draft_id"); ev_form_version_id := text_of (prop view "form_version_id");
     ev_subject_ref := text_of (prop view "subject_ref"); ev_draft_version := NInt (view_version view);
     ev_draft_state := prop view "draft_state"; ev_canonical_response := view_response view;
     ev_status := text_of (prop view "status"); ev_taskDraft := prop view "taskDraft" |}.

(** [savedResponseDraftFromVerifiedRead] *)
Definition savedResponseDraftFromVerifiedRead (key : DraftKey) (evidence : VerifiedDraftEvidence) : prog SavedResponseDraft :=
  digest ← handoffHash (ev_canonical_response evidence);
  mret {| saved_draftKey := key; saved_response := ev_canonical_response evidence;
          saved_draft := {| draft_id := ev_draft_id evidence; draft_version := ev_draft_version evidence;
                            draft_responseHash := digest |};
          saved_actor := ev_subject_ref evidence; saved_evidence := evidence |}.

Definition savedResult (key : DraftKey) (view : jsv) : prog SavedResponseDraft :=
  savedResponseDraftFromVerifiedRead key (view_evidence view).

Definition bind_view (key : DraftKey) (view : jsv) : prog unit :=
  on_registry (bindings_put key {| snapshot_draftId := prop view "draft_id"; snapshot_draftVersion := prop view "draft_version";
                                   snapshot_response := Some (view_response view); snapshot_responseId := None |}).
End signing.
