(* ===== verification/SigningOperations.v ===== *)
(** * The signing operations

    [saveDraft] and [sign] of [HttpResponseSigning] (src/src/adapters/http/response-signing.ts), on the
    definitions of [ResponseSigning].  [execute] is the part of [sign] that
    changes the server: the frozen candidate is saved, read back, and signed
    under the act's own operation id; a lost reply is settled by reading. *)

From S2P Require Import Prelude JsValue Async JsMap BrowserStorage ScopedMetadata IdempotencyKey Base64 DraftKeys ResponseAction CohortState HttpClient DraftBindings SigningFence HttpDraftStore ResponseSigning.

Section operations.
Context `{!FormIds, !JsonText, !MetadataPolicy, !Canonicalize, !Engine, !UuidPackage, !Digest, !HandoffBytes,
  !SigningPackages}.
Context (config : SigningConfig).

Abbreviation client := (store_client (signing_store config)).
Abbreviation current := SigningFence.assertCurrent.

(** ** Signed evidence *)

Definition max_signature_bytes : Z := 1024 * 1024.

Definition signature_matches (response : jsv) (digest : string) : bool :=
  let candidate := unsigned_of response in
  let commitment := signing_content candidate in
  let content := prop commitment "content" in
  match authored_signatures response with
  | [signature] =>
      let payload := prop signature "signedPayload" in
      truthy signature
      && is_lit (prop signature "signatureProvider") "urn:formspec:provider:delegated-response@1"
      && truthy (prop signature "signatureValue")
      && strict_eq (prop signature "signerId") (prop commitment "actorRef")
      && strict_eq (prop signature "signerName") (prop commitment "signerName")
      && is_true (prop signature "consentAccepted")
      && strict_eq (prop signature "documentId") (prop content "documentId")
      && strict_eq (prop signature "signingIntent") (prop content "signingIntent")
      && strict_eq (prop signature "documentHash") (prop commitment "documentHash")
      && is_lit (prop signature "documentHashAlgorithm") "sha-256"
      && strict_eq (prop signature "consentTextRef") (prop (prop content "electronicConsent") "textRef")
      && strict_eq (prop signature "consentVersion") (prop (prop content "electronicConsent") "version")
      && strict_eq (prop signature "affirmationText") (prop content "affirmationText")
      && is_lit (prop payload "canonicalization") "formspec-response-signing-v1"
      && is_lit (prop payload "digestAlgorithm") "sha-256"
      && is_lit (prop payload "digest") digest
      && strict_eq (prop payload "responseId") (prop candidate "id")
      && strict_eq (prop payload "definitionUrl") (prop candidate "definitionUrl")
      && strict_eq (prop payload "definitionVersion") (prop candidate "definitionVersion")
      && strict_eq (prop payload "signedAt") (prop commitment "signedAt")
      && strict_eq (prop payload "signingIntent") (prop content "signingIntent")
  | _ => false
  end.

Definition envelope_matches (e : CoseEnvelope) : bool :=
  String.eqb (cose_methodUri e) "urn:formspec:sig-method:ed25519-cose-sign1@1" && (cose_alg e =? -8)%Z
  && cose_detached e && (cose_signatureLength e =? 64)%nat
  && match cose_kid e with
     | Some kid => nonempty kid && bool_decide (decodeUtf8 kid = Some (signing_keyId config))
     | None => false
     end.

Definition assertDelegatedSignedResponseConsistency (response : jsv) : prog unit :=
  issuer ← of_library (requireSigningIssuer (expectedIssuer config));
  let candidate := unsigned_of response in
  let commitment := signing_content candidate in
  fail_when (negb (is_lit (prop commitment "issuer") issuer)) "Delegated signing issuer differs from the configured issuer" ;;
  let content := prop commitment "content" in
  fail_when (negb (truthy commitment) || negb (validatesContent content)) "Delegated signing content differs from its maintained digest" ;;
  documentHash ← of_library (hashSigningContent content);
  invoke Turn ;;
  fail_when (negb (is_lit (prop commitment "documentHash") documentHash)) "Delegated signing content differs from its maintained digest" ;;
  digest ← invoke (SigningProfileDigest candidate);
  fail_when (negb (signature_matches response digest)) "Delegated signing evidence differs from the frozen candidate" ;;
  match authored_signatures response with
  | signature :: _ =>
      bytes ← of_library (decodeBase64 (text_of (prop signature "signatureValue")) max_signature_bytes);
      envelope ← of_library (decodeCose bytes);
      fail_when (negb (envelope_matches envelope)) "Delegated signing envelope differs from its configured method or key pin"
  | [] => fail "Delegated signing evidence differs from the frozen candidate"
  end.

Definition act_draft_id (act : FrozenAct) : string := draft_id (saved_draft (act_preparation act)).

Definition acceptSigned (act : FrozenAct) (view : jsv) : prog SignedResponseSigning :=
  let context := act_context act in
  validateView config context (act_draft_id act) view (saved_actor (act_preparation act)) ;;
  of_check (request ← admittedRequest (act_action act) (act_candidate act); extractServiceRequestOutputs request view) ;;
  let response := view_response view in
  fail_when (negb (is_int (prop view "draft_version") (act_version act + 1)) || negb (same (unsigned_of response) (act_candidate act)))
    "Delegated signing evidence differs from the frozen candidate" ;;
  assertDelegatedSignedResponseConsistency response ;;
  ResponseSigning.current context ;;
  saved ← savedResult (act_key act) view;
  let result :=
    {| signed_prepared := {| prepared_saved := saved; content := content (act_preparation act) |};
       verification := {| verification_mode := "delegated-service-key";
                          provider := text_of (prop (default JUndef (head (authored_signatures response))) "signatureProvider");
                          keyId := signing_keyId config |} |} in
  ResponseSigning.current context ;;
  bind_view (act_key act) view ;;
  mret result.

(** ** Signing *)

(** [try { await this.config.drafts.save(...) } catch { this.current(context); }] *)
Definition save_or_continue (context : PreparationContext) (response : jsv) (guard : option (prog jsv)) : prog unit :=
  settle (store_save (signing_store config) (in_draftKey (context_input context)) response guard)
    (λ o, match o with Returns _ => mret () | Throws _ => ResponseSigning.current context end).

(** The last check of a host before the Sign request. *)
Definition sign_guard (act : FrozenAct) (view : jsv) : prog (option (prog jsv)) :=
  if qualifiesSign config then
    saved ← savedResult (act_key act) view;
    ResponseSigning.current (act_context act) ;;
    qualification ← invoke (PreSignCandidate saved (act_operationId act));
    ResponseSigning.current (act_context act) ;;
    match qualification with
    | Some guard => mret (Some (invoke (CallGuard guard)))
    | None => fail "Sign candidate qualification requires a dispatch assertion"
    end
  else mret None.

Definition view_is (act : FrozenAct) (view : jsv) : bool :=
  is_int (prop view "draft_version") (act_version act) && same (view_response view) (act_candidate act).

Definition view_unsaved (act : FrozenAct) (view : jsv) : bool :=
  negb (is_int (prop view "draft_version") (act_version act))
  && strict_eq (prop view "draft_version") (JNum (draft_version (saved_draft (act_preparation act))))
  && same (view_response view) (saved_response (act_preparation act)).

(** [{ ...planned.headers, ...bearer(owner.token) }] *)
Definition sign_headers (planned : PlannedRequest) (token : option string) : list (string * string) :=
  foldl (λ h e, map_set h e.1 e.2) ((λ e, (e.1, text_of e.2)) <$> planned_headers planned) (bearer token).

(** The Sign request, its reply settled by a read when it is lost. *)
Definition dispatch_sign (act : FrozenAct) (planned : PlannedRequest) (token : option string) (guard : option (prog jsv))
    : prog SignedResponseSigning :=
  let context := act_context act in
  settle
    (postJson client (act_key act) (planned_path planned) (planned_body planned)
       {| option_headers := sign_headers planned token;
          option_idempotencyKey := Some (act_operationId act); option_successStatuses := Some [200%Z];
          option_assertCurrent := ResponseSigning.current context; option_assertBeforeDispatch := guard |})
    (λ o, match o with
          | Returns signed => ResponseSigning.current context ;; acceptSigned act signed
          | Throws error =>
              ResponseSigning.current context ;;
              recovered ← read config context (act_draft_id act);
              if is_int (prop recovered "draft_version") (act_version act + 1) then acceptSigned act recovered
              else
                fail_when (negb (view_is act recovered)) "The unresolved signing operation conflicts with the saved draft" ;;
                refuse error
          end).

Definition execute (act : FrozenAct) : prog SignedResponseSigning :=
  let context := act_context act in
  saved ← read config context (act_draft_id act);
  if is_int (prop saved "draft_version") (act_version act + 1) then acceptSigned act saved
  else
    saved ← (if view_unsaved act saved then
               ResponseSigning.current context ;;
               save_or_continue context (act_candidate act) None ;;
               read config context (act_draft_id act)
             else mret saved);
    fail_when (negb (view_is act saved)) "Saved signing candidate changed; redisplay and explicit assent are required" ;;
    planned ← of_check (validateAction act);
    guard ← sign_guard act saved;
    '(token, _) ← ownerFor config (act_key act);
    ResponseSigning.current context ;;
    dispatch_sign act planned token guard.

Definition commitment (input : SignPreparedResponseInput) (version : Z) (signedAt documentHash : string) : jsv :=
  let p := sign_preparation input in
  JObj [("version", JStr "1.0"); ("issuer", JStr (expectedIssuer config)); ("draftId", JStr (draft_id (saved_draft p)));
        ("draftVersion", int version); ("actorRef", JStr (saved_actor p)); ("signerName", JStr (sign_signerName input));
        ("signedAt", JStr signedAt); ("consentAccepted", JBool true); ("content", content p);
        ("documentHash", JStr documentHash); ("documentHashAlgorithm", JStr "sha-256")].

Definition candidate_of (response commitment : jsv) : jsv :=
  JObj (obj_set (props_of response) "extensions"
          (JObj (obj_set (props_of (prop response "extensions")) "x-formspec-signing-content" commitment))).

(** The frozen act: its signing time and its candidate are fixed here. *)
Definition freeze_act (input : SignPreparedResponseInput) (identity : string) (context : PreparationContext) : prog FrozenAct :=
  fail_when (negb (sign_consent input) || trim_empty (sign_signerName input)) "Actual signer name and consent are required" ;;
  signedAt ← invoke Now;
  fail_when (negb (is_date signedAt)) "Signing time must be RFC3339" ;;
  let p := sign_preparation input in
  let version := (version_jsv (draft_version (saved_draft p)) + 1)%Z in
  documentHash ← of_library (hashSigningContent (content p));
  invoke Turn ;;
  mret {| act_identity := identity; act_operationId := sign_operationId input; act_preparation := p;
          act_signerName := sign_signerName input; act_action := sign_action input; act_context := context;
          act_candidate := candidate_of (saved_response p) (commitment input version signedAt documentHash);
          act_version := version; act_result := None; act_pending := None |}.

(** [this.acts.set(input.operationId, act)]; the operation is not superseded. *)
Definition install_act (act : FrozenAct) (c : Cohort) : Cohort :=
  with_signing (λ s, with_superseded (.∖ {[act_operationId act]}) (with_acts <[act_operationId act := act]> s)) c.

Definition create_act (input : SignPreparedResponseInput) (identity : string) (context : PreparationContext) : prog FrozenAct :=
  let key := in_draftKey (context_input context) in
  match renewalOperationId context with
  | Some renewal =>
      m ← pendingMarkerFor key (draft_id (saved_draft (sign_preparation input)));
      unresolved_when (negb (String.eqb (sign_operationId input) renewal)
                       || negb (renewal_is m (sign_operationId input) (draft_version (saved_draft (sign_preparation input)))))
  | None => refuseUnresolved key
  end ;;
  act ← freeze_act input identity context;
  of_check (validateAction act) ;;
  valid ← invoke (ValidateResponse (act_candidate act));
  fail_when (negb valid) "Signing candidate failed the Response schema" ;;
  ResponseSigning.current context ;;
  mark act ;;
  modify (install_act act) ;;
  mret act.

Definition sign_operation (input : SignPreparedResponseInput) (identity : string) (context : PreparationContext)
    (previous : option FrozenAct) : prog Result :=
  act ← match previous with Some act => mret act | None => create_act input identity context end;
  result ← execute act;
  modify (with_signing (with_acts (alter (act_with_result result) (act_operationId act)))) ;;
  unmark (act_operationId act) ∅ ;;
  mret (Signed result).

(** [this.preparations.get(input.preparation)]: an object is its reference and
    what was frozen under it. *)
Definition preparation_context (input : SignPreparedResponseInput) (c : Cohort) : option PreparationContext :=
  match preparations (signing c) !! sign_reference input with
  | Some (p, context) => if decide (p = sign_preparation input) then Some context else None
  | None => None
  end.

Definition sign_identity (input : SignPreparedResponseInput) (context : PreparationContext) : jsv :=
  JObj [("scope", JStr (scopeFor (saved_draftKey (sign_preparation input)))); ("generation", int (Z.of_N (context_fence context)));
        ("preparation", prepared_json (sign_preparation input));
        ("assent", assent_json (sign_signerName input) (sign_consent input)); ("action", action_json (sign_action input))].

Definition changed_retry {A} : prog A := fail "A signing retry must preserve its frozen act".

Definition start_activation (operationId identity : string) (promise : N) (retry : bool) (c : Cohort) : Cohort :=
  with_signing (λ s,
    with_activations <[operationId := {| activation_identity := identity; activation_promise := promise |}]>
      (if retry then with_acts (alter (act_with_pending (Some promise)) operationId) s else s)) c.

Definition end_activation (operationId : string) (promise : N) (o : outcome cohort_failure Result) (c : Cohort) : Cohort :=
  with_promise promise o
    (with_signing (λ s, with_activations (delete operationId) (with_acts (alter (act_with_pending None) operationId) s)) c).

Definition activate (input : SignPreparedResponseInput) (identity : string) (context : PreparationContext)
    (previous : option FrozenAct) : prog Result :=
  let operationId := sign_operationId input in
  promise ← fresh;
  modify (start_activation operationId identity promise (isSome previous)) ;;
  settle (fence_run (in_draftKey (context_input context)) (λ _, sign_operation input identity context previous))
    (λ o, modify (end_activation operationId promise o) ;; of_outcome o).

Definition sign (input : SignPreparedResponseInput) : prog Result :=
  let operationId := sign_operationId input in
  of_library (assertUuidV7IdempotencyKey operationId) ;;
  c ← get;
  match preparation_context input c with
  | None => fail "Signing requires this cohort's frozen preparation"
  | Some context =>
      ResponseSigning.current context ;;
      match canonicalize (sign_identity input context) with
      | None | Some EmptyString => fail "Invalid signing operation identity"
      | Some frozen =>
          match activations (signing c) !! operationId with
          | Some activation =>
              if String.eqb (activation_identity activation) frozen then invoke (JoinPromise (activation_promise activation))
              else changed_retry
          | None =>
              match acts (signing c) !! operationId with
              | Some previous =>
                  if negb (String.eqb (act_identity previous) frozen) then changed_retry
                  else match act_pending previous with
                       | Some promise => invoke (JoinPromise promise)
                       | None => activate input frozen context (Some previous)
                       end
              | None => activate input frozen context None
              end
          end
      end
  end.

(** ** Saving *)

Definition validateUnsigned (input : SigningInput) : prog unit :=
  let response := in_response input in
  let refusal := "Save requires an unsigned pinned Response" in
  fail_when (trim_empty (in_formVersionId input) || negb (has_text (prop response "id")) || is_signed response || committed response
             || negb (strict_eq (prop response "definitionUrl") (prop (in_definition input) "url"))
             || negb (strict_eq (prop response "definitionVersion") (prop (in_definition input) "version"))
             || negb (is_lit (prop (in_definition input) "url") (key_formUrl (in_draftKey input)))
             || negb (strict_eq (opt_str (key_formVersion (in_draftKey input))) (prop (in_definition input) "version"))) refusal ;;
  valid ← invoke (ValidateResponse response);
  fail_when (negb valid) refusal.

(** The guard of a save's dispatch; what it throws is marked. *)
Definition save_guard (context : PreparationContext) (guard : option N) : prog jsv :=
  settle (ResponseSigning.current context ;; assertSynchronousGuard guard)
    (λ o, match o with Returns _ => mret JUndef | Throws e => refuse (DispatchRefused e) end).

Definition create_marker (scope : string) (input : SaveResponseDraftInput) (candidateHash : string) : jsv :=
  JObj [("scope", JStr scope); ("operationId", JStr (save_operationId input));
        ("definitionUrl", prop (in_definition input) "url"); ("definitionVersion", prop (in_definition input) "version");
        ("candidateHash", JStr candidateHash)].

Definition save_operation (input : SaveResponseDraftInput) (guard : option N) (generation : N) : prog Result :=
  let key := in_draftKey input in
  let scope := scopeFor key in
  let response := in_response input in
  let context := {| context_input := save_input input; context_fence := generation; renewalOperationId := None |} in
  refuseUnresolved key ;;
  fail_when (trim_empty (save_formId input)
             || negb (String.eqb (save_formId input) (resolveFormId (key_formUrl key) (key_formVersion key))))
    "Save publication form id differs from the configured form" ;;
  validateUnsigned input ;;
  binding ← on_registry (bindings_get key);
  existing ← match binding with
             | Some b => view ← read config context (js_to_string (snapshot_draftId b)); mret (Some view)
             | None => mret None
             end;
  fail_when (match binding, existing with
             | Some b, Some view => negb (strict_eq (prop view "draft_version") (snapshot_draftVersion b)) || is_signed (view_response view)
             | _, _ => false
             end) "Saved draft changed before Save" ;;
  of_check (qualifySaveAction (save_action input) key response (save_formId input)
              (match binding, existing with
               | Some b, Some view => Some (snapshot_draftId b, prop view "draft_version")
               | _, _ => None
               end)) ;;
  ResponseSigning.current context ;;
  match binding with
  | None =>
      all ← createMarkers;
      digest ← handoffHash response;
      writeCreateMarkers (all ++ [create_marker scope input digest])
  | Some _ => mret ()
  end ;;
  ResponseSigning.current context ;;
  settle (store_save (signing_store config) key response (Some (save_guard context guard)))
    (λ o, match o with
          | Returns _ => mret ()
          | Throws (DispatchRefused e) => ResponseSigning.current context ;; refuse e
          | Throws e => ResponseSigning.current context ;; refuse_when (negb (isSome binding)) e
          end) ;;
  ResponseSigning.current context ;;
  savedBinding ← on_registry (bindings_get key);
  match savedBinding with
  | None => refuse ResponseSigningUnresolvedError
  | Some b =>
      saved ← read config context (js_to_string (snapshot_draftId b));
      fail_when (negb (is_int (prop saved "draft_version") (match existing with Some view => view_version view + 1 | None => 1 end))
                 || negb (same (view_response saved) response)) "Save differs from the exact saved Response" ;;
      of_check (request ← admittedRequest (save_action input) response; extractServiceRequestOutputs request saved) ;;
      result ← savedResult key saved;
      ResponseSigning.current context ;;
      bind_view key saved ;;
      match binding with
      | None => all ← createMarkers; writeCreateMarkers (List.filter (λ m, negb (in_scope scope m)) all)
      | Some _ => mret ()
      end ;;
      mret (Saved result)
  end.

Definition start_save (input : SaveResponseDraftInput) (promise : N) (c : Cohort) : Cohort :=
  with_signing (with_saves <[save_operationId input :=
    {| save_identity := canonicalize (save_json input); save_scope := scopeFor (in_draftKey input);
       save_generation := capture (in_draftKey input) c; save_settled := false; save_promise := promise |}]>) c.

Definition settle_save (e : SaveEntry) : SaveEntry :=
  Build_SaveEntry (save_identity e) (save_scope e) (save_generation e) true (save_promise e).

Definition end_save (operationId : string) (promise : N) (o : outcome cohort_failure Result) (c : Cohort) : Cohort :=
  with_promise promise o (with_signing (with_saves (alter settle_save operationId)) c).

Definition saveDraft (input : SaveResponseDraftInput) (guard : option N) : prog Result :=
  let operationId := save_operationId input in
  of_library (assertUuidV7IdempotencyKey operationId) ;;
  assertSynchronousGuard guard ;;
  c ← get;
  match saves (signing c) !! operationId with
  | Some previous =>
      fail_when (negb (bool_decide (save_identity previous = canonicalize (save_json input))))
        "A Save retry must preserve its frozen operation" ;;
      assertCurrent (in_draftKey input) (save_generation previous) ;;
      fail_when (save_settled previous) "This Save operation is retired; start a new explicit act instead of replaying stale readiness" ;;
      invoke (JoinPromise (save_promise previous))
  | None =>
      promise ← fresh;
      modify (start_save input promise) ;;
      settle (fence_run (in_draftKey input) (save_operation input guard))
        (λ o, modify (end_save operationId promise o) ;; of_outcome o)
  end.
End operations.
