(* ===== verification/SigningRecovery.v ===== *)
(** * Preparing, restoring and clearing

    [prepare], [pendingRecoveryFor], [restorePending], [clearScope] and
    [assertEditable] of [HttpResponseSigning]
    (src/src/adapters/http/response-signing.ts).  [restorePending] settles an act
    that an earlier page left unresolved: it accepts the act's own signature when
    the server has it, and otherwise saves the unsigned successor of the frozen
    candidate under a new operation id, which it first writes to the marker. *)

From S2P Require Import Prelude JsValue Async BrowserStorage ScopedMetadata IdempotencyKey DraftKeys ResponseAction CohortState HttpClient DraftBindings SigningFence HttpDraftStore ResponseSigning SigningOperations.

Section recovery.
Context `{!FormIds, !JsonText, !MetadataPolicy, !Canonicalize, !Engine, !UuidPackage, !Digest, !HandoffBytes,
  !SigningPackages}.
Context (config : SigningConfig).

Abbreviation current := ResponseSigning.current.

Definition remember (p : PreparedResponseSigning) (context : PreparationContext) : prog N :=
  reference ← fresh;
  modify (with_signing (with_preparations <[reference := (p, context)]>)) ;;
  mret reference.

(** ** Preparing *)

Definition key_matches (input : SigningInput) : bool :=
  let definition := in_definition input in
  let response := in_response input in
  strict_eq (prop response "definitionUrl") (prop definition "url")
  && strict_eq (prop response "definitionVersion") (prop definition "version")
  && is_lit (prop definition "url") (key_formUrl (in_draftKey input))
  && strict_eq (opt_str (key_formVersion (in_draftKey input))) (prop definition "version").

Definition prepare_guard (input : PrepareResponseSigningInput) (context : PreparationContext) (existing : jsv)
    : prog (option (prog jsv)) :=
  admission ← (if qualifiesPrepare config then
                 saved ← savedResult (in_draftKey input) existing;
                 invoke (PrePrepareCandidate saved (in_response input))
               else mret None);
  current context ;;
  fail_when (qualifiesPrepare config && negb (isSome admission)) "Prepare candidate requires a dispatch assertion" ;;
  mret ((λ guard, invoke (CallGuard guard)) <$> admission).

Definition prepare_operation (input : PrepareResponseSigningInput) (generation : N) : prog Result :=
  let key := in_draftKey input in
  let response := in_response input in
  let refusal := "Preparation requires a completed unsigned pinned Response" in
  refuseUnresolved key ;;
  fail_when (negb (nonempty (in_formVersionId input)) || negb (is_lit (prop response "status") "completed")
             || negb (truthy (prop response "id")) || is_signed response || committed response
             || negb (truthy (prop response "displayedLocale")) || negb (key_matches input)) refusal ;;
  valid ← invoke (ValidateResponse response);
  fail_when (negb valid) refusal ;;
  content ← of_library (resolveAuthoredSigningContent (in_definition input) response (prepare_source input) (prepare_locale input));
  binding ← on_registry (bindings_get key);
  match binding with
  | None => fail "Preparation requires an existing owned draft handle"
  | Some b =>
      fail_when (negb (isSome (safe_int (snapshot_draftVersion b)))) "Preparation requires an existing owned draft handle" ;;
      let context := {| context_input := prepare_input input; context_fence := generation; renewalOperationId := None |} in
      let id := js_to_string (snapshot_draftId b) in
      existing ← read config context id;
      fail_when (negb (strict_eq (prop existing "draft_version") (snapshot_draftVersion b))
                 || negb (strict_eq (prop (view_response existing) "id") (prop response "id")) || is_signed (view_response existing))
        "Saved draft changed before preparation" ;;
      of_check (qualifySaveAction (prepare_action input) key response (resolveFormId (key_formUrl key) (key_formVersion key))
                  (Some (snapshot_draftId b, prop existing "draft_version"))) ;;
      guard ← prepare_guard input context existing;
      save_or_continue config context response guard ;;
      current context ;;
      saved ← read config context id;
      fail_when (negb (is_int (prop saved "draft_version") (view_version existing + 1)) || negb (same (view_response saved) response))
        "Preparation differs from the exact saved Response" ;;
      bind_view key saved ;;
      of_check (request ← admittedRequest (prepare_action input) response; extractServiceRequestOutputs request saved) ;;
      result ← savedResult key saved;
      let prepared := {| prepared_saved := result; content := content |} in
      current context ;;
      reference ← remember prepared context;
      mret (Prepared reference prepared)
  end.

Definition prepare (input : PrepareResponseSigningInput) : prog Result :=
  fence_run (in_draftKey input) (prepare_operation input).

(** ** Restoring *)

Record Recovery : Set := { recovery_marker : jsv; recovery_original : jsv; recovery_successor : jsv }.

Definition pendingRecoveryFor (key : DraftKey) (draftId : string) (version : jsv) (response : jsv) : prog Recovery :=
  m ← pendingMarkerFor key draftId;
  let unsigned := unsigned_of response in
  let renewal := prop m "renewal" in
  let original := nullish_or (prop renewal "originalCandidate") unsigned in
  let successor := successor_of original in
  (if truthy renewal then
     originalHash ← handoffHash original;
     unresolved_when (negb (is_lit (prop renewal "originalHash") originalHash)) ;;
     successorHash ← handoffHash successor;
     unresolved_when (negb (is_lit (prop renewal "successorHash") successorHash))
   else mret ()) ;;
  (if is_signed response then
     unresolved_when (negb (match safe_int (prop m "version") with Some v => is_int version (v + 1) | None => false end)
                      || negb (same unsigned original))
   else if strict_eq version (prop m "version") then unresolved_when (negb (same response original))
   else if truthy renewal && (strict_eq version (prop renewal "version") || strict_eq version (prop renewal "previousVersion"))
   then unresolved_when (negb (same response successor))
   else refuse ResponseSigningUnresolvedError) ;;
  mret {| recovery_marker := m; recovery_original := original; recovery_successor := successor |}.

(** The commitment that the frozen candidate carries. *)
Definition commitment_restorable (saved m commitment content : jsv) : bool :=
  truthy commitment && is_lit (prop commitment "version") "1.0"
  && strict_eq (prop commitment "draftId") (prop saved "draft_id")
  && strict_eq (prop commitment "draftVersion") (prop m "version")
  && strict_eq (prop commitment "actorRef") (prop saved "subject_ref")
  && has_text (prop commitment "signerName") && is_true (prop commitment "consentAccepted")
  && is_date (js_to_string (prop commitment "signedAt"))
  && same (prop commitment "content") content && is_lit (prop commitment "documentHashAlgorithm") "sha-256".

(** What is known of the act being restored: the act itself, its recovery, the
    owned view it was restored from, and its authored content. *)
Record Restoring : Set := {
  restoring_act : FrozenAct;
  restoring_recovery : Recovery;
  restoring_saved : jsv;
  restoring_content : jsv
}.

Definition sign_input_json (p : PreparedResponseSigning) (operationId signerName : string) (action : AdmittedResponseAction) : jsv :=
  JObj [("preparation", prepared_json p); ("operationId", JStr operationId); ("action", action_json action);
        ("assent", assent_json signerName true)].

(** [restorePending] up to the act it restores. *)
Definition restore_act (input : PrepareResponseSigningInput) (operationId : string) (context : PreparationContext) : prog Restoring :=
  let key := in_draftKey input in
  let response := in_response input in
  unresolved_when (negb (nonempty (in_formVersionId input)) || negb (truthy (prop response "id"))
                   || negb (truthy (prop response "displayedLocale")) || negb (key_matches input)) ;;
  binding ← on_registry (bindings_get key);
  match binding with
  | None => refuse ResponseSigningUnresolvedError
  | Some b =>
      match safe_int (snapshot_draftVersion b) with
      | None => refuse ResponseSigningUnresolvedError
      | Some bound_version =>
          saved ← read config context (js_to_string (snapshot_draftId b));
          unresolved_when (negb (is_int (prop saved "draft_version") bound_version)
                           && negb (is_int (prop saved "draft_version") (bound_version + 1) && is_signed (view_response saved))) ;;
          let draftId := text_of (prop saved "draft_id") in
          recovery ← pendingRecoveryFor key draftId (prop saved "draft_version") (view_response saved);
          let m := recovery_marker recovery in
          let original := recovery_original recovery in
          unresolved_when (negb (is_lit (prop m "operationId") operationId) || negb (is_lit (prop response "status") "completed")
                           || negb (same response (view_response saved)
                                    || (is_signed (view_response saved) && same response original))) ;;
          let commitment := signing_content original in
          content ← of_library (resolveAuthoredSigningContent (in_definition input) original (prepare_source input) (prepare_locale input));
          unresolved_when (negb (commitment_restorable saved m commitment content)) ;;
          documentHash ← of_library (hashSigningContent content);
          invoke Turn ;;
          unresolved_when (negb (is_lit (prop commitment "documentHash") documentHash)) ;;
          let version := default 0%Z (safe_int (prop m "version")) in
          evidence ← mret (view_evidence saved);
          original_saved ← savedResponseDraftFromVerifiedRead key
            {| ev_draft_id := ev_draft_id evidence; ev_form_version_id := ev_form_version_id evidence;
               ev_subject_ref := ev_subject_ref evidence; ev_draft_version := NInt version;
               ev_draft_state := prop original "data"; ev_canonical_response := original;
               ev_status := ev_status evidence; ev_taskDraft := ev_taskDraft evidence |};
          let preparation := {| prepared_saved := original_saved; content := content |} in
          let signerName := text_of (prop commitment "signerName") in
          let act :=
            {| act_identity := default "" (canonicalize (sign_input_json preparation operationId signerName (prepare_action input)));
               act_operationId := operationId; act_preparation := preparation; act_signerName := signerName;
               act_action := prepare_action input; act_context := context; act_candidate := original; act_version := version;
               act_result := None; act_pending := None |} in
          of_check (validateAction act) ;;
          current context ;;
          mret {| restoring_act := act; restoring_recovery := recovery; restoring_saved := saved; restoring_content := content |}
      end
  end.

(** [this.writeMarkers(this.markers().map(value => value.scope === marker.scope ? next : value))],
    between two checks of the marker. *)
Definition replace_marker (key : DraftKey) (draftId : string) (expected next : jsv) : prog unit :=
  m ← pendingMarkerFor key draftId;
  unresolved_when (negb (same m expected)) ;;
  all ← markers;
  writeMarkers ((λ m, if in_scope (scopeFor key) m then next else m) <$> all) ∅ ;;
  m ← pendingMarkerFor key draftId;
  unresolved_when (negb (same m next)).

Definition with_renewal (m renewal : jsv) : jsv := JObj (obj_set (props_of m) "renewal" renewal).

(** A further renewal of an act that was already renewed once. *)
Definition renew_again (input : PrepareResponseSigningInput) (renewUnsignedRevision : bool) (context : PreparationContext)
    (r : Restoring) : prog jsv :=
  let m := recovery_marker (restoring_recovery r) in
  let saved := restoring_saved r in
  let renewal := prop m "renewal" in
  if negb (is_signed (view_response saved)) && renewUnsignedRevision && truthy renewal
     && strict_eq (prop saved "draft_version") (prop renewal "version")
  then
    operationId ← invoke (GenerateKey (scopeFor (in_draftKey input)));
    let next := with_renewal m (JObj (obj_set (obj_set (obj_set (props_of renewal)
                  "previousVersion" (prop saved "draft_version")) "version" (int (view_version saved + 1)))
                  "operationId" (JStr operationId))) in
    current context ;;
    replace_marker (in_draftKey input) (text_of (prop saved "draft_id")) m next ;;
    mret next
  else mret m.

(** The first renewal of an unsigned act. *)
Definition first_renewal (input : PrepareResponseSigningInput) (context : PreparationContext) (r : Restoring) : prog jsv :=
  let recovery := restoring_recovery r in
  let m := recovery_marker recovery in
  operationId ← invoke (GenerateKey (scopeFor (in_draftKey input)));
  originalHash ← handoffHash (recovery_original recovery);
  successorHash ← handoffHash (recovery_successor recovery);
  let next := with_renewal m (JObj
    [("operationId", JStr operationId); ("version", int (default 0%Z (safe_int (prop m "version")) + 1));
     ("originalCandidate", recovery_original recovery); ("originalHash", JStr originalHash); ("successorHash", JStr successorHash)]) in
  current context ;;
  replace_marker (in_draftKey input) (text_of (prop (restoring_saved r) "draft_id")) m next ;;
  mret next.

(** The unsigned successor is saved, unless it already is; the marker and the
    view it leads to. *)
Definition save_successor (input : PrepareResponseSigningInput) (context : PreparationContext) (r : Restoring) (m : jsv)
    : prog (jsv * jsv) :=
  let saved := restoring_saved r in
  let recovery := restoring_recovery r in
  if negb (is_signed (view_response saved))
     && (strict_eq (prop saved "draft_version") (prop m "version")
         || strict_eq (prop saved "draft_version") (prop (prop m "renewal") "previousVersion"))
  then
    valid ← invoke (ValidateResponse (recovery_successor recovery));
    unresolved_when (negb valid) ;;
    m ← (if truthy (prop m "renewal") then mret m else first_renewal input context r);
    current context ;;
    save_or_continue config context (recovery_successor recovery) None ;;
    saved ← read config context (text_of (prop saved "draft_id"));
    mret (m, saved)
  else mret (m, saved).

Definition restore_operation (input : PrepareResponseSigningInput) (renewUnsignedRevision : bool) (operationId : string)
    (generation : N) : prog Result :=
  let key := in_draftKey input in
  let context := {| context_input := prepare_input input; context_fence := generation; renewalOperationId := None |} in
  r ← restore_act input operationId context;
  m ← renew_again input renewUnsignedRevision context r;
  '(m, saved) ← save_successor input context r m;
  current context ;;
  if is_signed (view_response saved) then
    signed ← acceptSigned config (restoring_act r) saved;
    unmark operationId {[operationId]} ;;
    mret (RestoredAsSigned signed)
  else
    let renewal := prop m "renewal" in
    unresolved_when (negb (truthy renewal) || negb (strict_eq (prop saved "draft_version") (prop renewal "version"))
                     || negb (same (view_response saved) (recovery_successor (restoring_recovery r)))) ;;
    bind_view key saved ;;
    result ← savedResult key saved;
    let prepared := {| prepared_saved := result; content := restoring_content r |} in
    current context ;;
    retained ← pendingMarkerFor key (text_of (prop saved "draft_id"));
    unresolved_when (negb (same retained m)) ;;
    let renewed := text_of (prop renewal "operationId") in
    reference ← remember prepared
      {| context_input := prepare_input input; context_fence := generation; renewalOperationId := Some renewed |};
    mret (RestoredAsPrepared reference prepared renewed).

Definition restorePending (input : PrepareResponseSigningInput) (renewUnsignedRevision : bool) (operationId : string)
    : prog Result :=
  of_library (assertUuidV7IdempotencyKey operationId) ;;
  fence_run (in_draftKey input) (restore_operation input renewUnsignedRevision operationId).

(** ** Clearing *)

Definition clear_acts (scope : string) (c : Cohort) : Cohort :=
  with_signing (λ s,
    with_acts (filter (λ e : string * FrozenAct, act_scope e.2 ≠ scope))
      (with_saves (filter (λ e : string * SaveEntry, save_scope e.2 ≠ scope)) s)) c.

Definition clearScope (key : DraftKey) : prog unit :=
  let scope := scopeFor key in
  modify (clear_acts scope) ;;
  all ← markers;
  writeMarkers (List.filter (λ m, negb (in_scope scope m)) all) ∅ ;;
  creating ← createMarkers;
  writeCreateMarkers (List.filter (λ m, negb (in_scope scope m)) creating).

Definition assertEditable (key : DraftKey) : prog unit := refuseUnresolved key.
End recovery.
