(* ===== verification/HttpCohort.v ===== *)
(** * The HTTP cohort

    [createHttpAdapterCohort] of src/src/adapters/http/cohort.ts with a signing
    policy: the draft store, the submit transport
    (src/src/adapters/http/submit-transport.ts) and response signing over one
    registry and one scope fence.  [operation] lists what a client of the cohort
    may call.  The application lifecycle is left out. *)

From S2P Require Import Prelude JsValue Async BrowserStorage ScopedMetadata IdempotencyKey DraftKeys ResponseAction CohortState HttpClient DraftBindings SigningFence HttpDraftStore ResponseSigning SigningOperations SigningRecovery.

(** The publication that [qualifiedDraftState] names. *)
Record QualifiedDraftState : Set := {
  state_definition : jsv;
  state_formVersionId : string;
  state_localeDocuments : list jsv
}.

Record CohortConfig : Type := {
  cohort_signing :> SigningConfig;
  qualifiedDraftState : option QualifiedDraftState;
  responseIdResolver : option (jsv → option string);
  responseDataResolver : option (jsv → option jsv);
  signingRequested : jsv → bool
}.

(** The handoff of a response, as far as the transport reads it. *)
Definition handoff_response (handoff : jsv) : jsv := prop (prop handoff "extensions") "x-formspec-response".

Definition partyRefFromHandoff (handoff : jsv) : option string :=
  match prop (prop handoff "extensions") "x-formspec-active-party-ref" with
  | JStr s => if nonempty s then Some s else None
  | _ => None
  end.

Definition draftKeyFromHandoff (handoff : jsv) : DraftKey :=
  {| key_formUrl := text_of (prop (prop handoff "definitionRef") "url");
     key_formVersion := str_of (prop (prop handoff "definitionRef") "version");
     key_subjectRef := str_of (prop handoff "subjectRef");
     key_partyRef := partyRefFromHandoff handoff |}.

Section cohort.
Context `{!FormIds, !JsonText, !MetadataPolicy, !Canonicalize, !Engine, !UuidPackage, !Digest, !HandoffBytes,
  !SigningPackages}.
Context (config : CohortConfig).

Abbreviation store := (signing_store config).

(** ** Submission *)

Definition isCanonicalResponse (v : jsv) : bool := isRecord v && isRecord (prop v "data").

Definition requireCanonicalResponse (handoff : jsv) : prog jsv :=
  let response := handoff_response handoff in
  fail_when (negb (isCanonicalResponse response))
    "HTTP SubmitTransport requires a canonical Response snapshot with object data" ;;
  mret response.

Definition snapshotSubmitOptions (options : jsv) : outcome string jsv :=
  throw_when (negb (isRecord options) || negb (forallb (String.eqb "nativeCurrentCheck") (obj_keys (props_of options))))
    "Invalid native selector options" ;;
  let value := prop options "nativeCurrentCheck" in
  if is_undefined value then Returns (JObj [])
  else selected ← nativeCurrentCheck value; Returns (JObj [("nativeCurrentCheck", selected)]).

Definition submit_body (handoff snapshot options : jsv) (responseId token : option string) : jsv :=
  JObj ([("response_id", opt_str responseId); ("response_data", prop snapshot "data"); ("canonical_response", snapshot)]
        ++ (if truthy (prop options "nativeCurrentCheck") then [("nativeCurrentCheck", prop options "nativeCurrentCheck")] else [])
        ++ [("subject_ref", nullish_or (prop handoff "subjectRef") JNull);
            ("party_ref", match partyRefFromHandoff handoff with Some p => JStr p | None => JNull end);
            ("anonymous_session_token", match token with Some t => JStr t | None => JNull end);
            ("signing_requested", JBool (signingRequested config handoff))]).

Definition submit_path (draftId : jsv) : string := draft_path draftId +:+ "/submit".

(** [key] is the draft whose scope is held; only the theorems read it. *)
Definition submitOnce (key : DraftKey) (handoff snapshot : jsv) (idempotencyKey : string) (assertCurrent : prog unit) (options : jsv)
    : prog Result :=
  binding ← on_registry (bindings_get (draftKeyFromHandoff handoff));
  invoke Turn ;;
  assertCurrent ;;
  draftId ← match binding with
            | Some b => fail_when (negb (truthy (snapshot_draftId b))) "HTTP SubmitTransport requires a draft id for formspec-server submission" ;;
                        mret (snapshot_draftId b)
            | None => fail "HTTP SubmitTransport requires a draft id for formspec-server submission"
            end;
  let configuredAnswers := resolver ← responseDataResolver config; resolver handoff in
  let configuredId := resolver ← responseIdResolver config; resolver handoff in
  let snapshotId := str_of (prop snapshot "id") in
  fail_when (match configuredAnswers with Some a => negb (same a (prop snapshot "data")) | None => false end
             || match configuredId with Some i => negb (bool_decide (Some i = snapshotId)) | None => false end)
    "Submission data or identity conflicts with the canonical Response" ;;
  token ← (if anonymousSessions store then invoke (HandoffToken handoff) else invoke Turn ;; mret None);
  assertCurrent ;;
  response ← postJson (store_client store) key (submit_path draftId)
    (submit_body handoff snapshot options (match configuredId with Some i => Some i | None => snapshotId end) token)
    {| option_headers := bearer token; option_idempotencyKey := Some idempotencyKey; option_successStatuses := None;
       option_assertCurrent := assertCurrent; option_assertBeforeDispatch := None |};
  fail_when (match snapshotId with
             | Some i => nonempty i && negb (is_lit (prop response "response_id") i)
             | None => false
             end) "Server response identity differs from the canonical Response" ;;
  referenceNumber ← member response "response_id";
  mret (Confirmed referenceNumber (prop response "status")).

Definition with_finalized f (s : SubmitState) : SubmitState := Build_SubmitState (f (finalizedHandoffs s)) (replay s).
Definition with_replay f (s : SubmitState) : SubmitState := Build_SubmitState (finalizedHandoffs s) (f (replay s)).

(** A failed submission may be tried again; a successful one is answered from
    the replay. *)
Definition end_submission (idempotencyKey : string) (promise : N) (o : outcome cohort_failure Result) (c : Cohort) : Cohort :=
  with_promise promise o
    (match o with Returns _ => c | Throws _ => with_submission (with_replay (delete idempotencyKey)) c end).

Definition transport_submit (key : DraftKey) (handoff : jsv) (idempotencyKey : string) (assertCurrent : prog unit) (options : jsv)
    : prog Result :=
  assertCurrent ;;
  of_library (assertUuidV7IdempotencyKey idempotencyKey) ;;
  requireCanonicalResponse handoff ;;
  selectedOptions ← of_library (snapshotSubmitOptions options);
  c ← get;
  let finalized := finalizedHandoffs (submission c) !! idempotencyKey in
  fail_when (match finalized with Some (h, _) => negb (same h handoff) | None => false end)
    "A submission retry must preserve the finalized Response snapshot" ;;
  fail_when (match finalized with Some (_, o) => negb (same o selectedOptions) | None => false end)
    "A submission retry must preserve its native selector" ;;
  let '(snapshot, captured) := default (handoff, selectedOptions) finalized in
  canonicalResponse ← requireCanonicalResponse snapshot;
  modify (with_submission (with_finalized <[idempotencyKey := (snapshot, captured)]>)) ;;
  match replay (submission c) !! idempotencyKey with
  | Some promise => invoke (JoinPromise promise)
  | None =>
      promise ← fresh;
      modify (with_submission (with_replay <[idempotencyKey := promise]>)) ;;
      settle (submitOnce key snapshot canonicalResponse idempotencyKey assertCurrent captured)
        (λ o, modify (end_submission idempotencyKey promise o) ;; of_outcome o)
  end.

(** [SubmitOptions] default to none. *)
Definition submit_operation (handoff : jsv) (operationId : string) (guard : option N) (options : jsv) (generation : N) : prog Result :=
  let key := draftKeyFromHandoff handoff in
  assertEditable key ;;
  binding ← on_registry (bindings_get key);
  fail_when (match binding with
             | Some {| snapshot_response := Some response |} =>
                 is_signed response && negb (String.eqb (stringify (handoff_response handoff)) (stringify response))
             | _ => false
             end) "Signed submission must preserve the exact saved Response" ;;
  match task_selection config with
  | Some _ => fail "Task drafts require typed task completion"
  | None =>
      transport_submit key handoff operationId (assertCurrent key generation ;; assertSynchronousGuard guard) options
  end.

Definition submit (handoff : jsv) (operationId : string) (guard : option N) (options : jsv) : prog Result :=
  assertSynchronousGuard guard ;;
  fence_run (draftKeyFromHandoff handoff) (submit_operation handoff operationId guard options).

(** ** Qualified reading *)

Definition locale_matches (policy : QualifiedDraftState) (displayed document : jsv) : bool :=
  strict_eq (prop document "url") (prop displayed "url") && strict_eq (prop document "version") (prop displayed "version")
  && String.eqb (lower_case (text_of (prop document "locale"))) (lower_case (text_of (prop displayed "locale")))
  && is_lit (prop (prop document "target") "kind") "definition"
  && strict_eq (prop (prop document "target") "url") (prop (state_definition policy) "url").

(** [displayed && localeDocuments.filter(...)] has exactly one member. *)
Definition one_locale (policy : QualifiedDraftState) (response : jsv) : bool :=
  let displayed := prop response "displayedLocale" in
  truthy displayed
  && (length (List.filter (locale_matches policy displayed) (state_localeDocuments policy)) =? 1)%nat.

Definition locale_agrees (commitment response : jsv) : bool :=
  String.eqb (lower_case (text_of (prop (prop commitment "content") "locale")))
             (lower_case (text_of (prop (prop response "displayedLocale") "locale"))).

Definition publication_matches (policy : QualifiedDraftState) (key : DraftKey) (view : jsv) (subject : string) : bool :=
  is_lit (prop (state_definition policy) "url") (key_formUrl key)
  && strict_eq (opt_str (key_formVersion key)) (prop (state_definition policy) "version")
  && is_lit (prop view "form_version_id") (state_formVersionId policy) && negb (trim_empty (state_formVersionId policy))
  && is_lit (prop view "subject_ref") subject && has_text (prop (view_response view) "id")
  && match safe_int (prop view "draft_version") with Some z => (1 <=? z)%Z | None => false end
  && is_one_of (prop view "status") ["in_progress"; "submitted"].

Definition qualify_pending (policy : QualifiedDraftState) (key : DraftKey) (view : jsv) (subject : string) (current : prog unit)
    : prog DraftReadState :=
  let response := view_response view in
  let refusal := "Active draft has incomplete signing evidence" in
  recovery ← pendingRecoveryFor key (text_of (prop view "draft_id")) (prop view "draft_version") response;
  current ;;
  let original := recovery_original recovery in
  let commitment := signing_content original in
  unresolved_when (negb (truthy commitment)) ;;
  fail_when (negb (is_lit (prop response "status") "completed") || negb (one_locale policy response)
             || negb (is_lit (prop commitment "actorRef") subject)
             || negb (strict_eq (prop commitment "draftId") (prop view "draft_id"))
             || negb (strict_eq (prop commitment "draftVersion") (prop (recovery_marker recovery) "version"))
             || negb (locale_agrees commitment response)) refusal ;;
  content ← of_library (resolveAuthoredSigningContent (state_definition policy) original
              (prop (prop commitment "content") "source") (text_of (prop (prop commitment "content") "locale")));
  fail_when (negb (same content (prop commitment "content"))) refusal ;;
  saved ← savedResult key view;
  current ;;
  mret (ActivePending (text_of (prop (recovery_marker recovery) "operationId")) {| prepared_saved := saved; content := content |}).

Definition qualify_signed (policy : QualifiedDraftState) (key : DraftKey) (view : jsv) (subject : string) (current : prog unit)
    : prog DraftReadState :=
  let response := view_response view in
  let commitment := signing_content response in
  let in_progress := is_lit (prop view "status") "in_progress" in
  fail_when (negb (is_lit (prop response "status") "completed") || negb (one_locale policy response) || negb (truthy commitment)
             || negb (is_lit (prop commitment "actorRef") subject)
             || negb (strict_eq (prop commitment "draftId") (prop view "draft_id"))
             || negb (match safe_int (prop commitment "draftVersion") with
                      | Some v => is_int (prop view "draft_version") (v + (if in_progress then 1 else 2))
                      | None => false
                      end)
             || negb (locale_agrees commitment response)) "Submitted draft has no matching Locale or signing commitment" ;;
  content ← of_library (resolveAuthoredSigningContent (state_definition policy) response
              (prop (prop commitment "content") "source") (text_of (prop (prop commitment "content") "locale")));
  fail_when (negb (same content (prop commitment "content"))) "Submitted signing content differs from the authored package" ;;
  assertDelegatedSignedResponseConsistency config response ;;
  current ;;
  if in_progress then
    assertEditable key ;;
    saved ← savedResult key view;
    current ;;
    match task_selection config with
    | Some _ => of_check (assertSignedTaskDraft (prop view "taskDraft") (saved_draft saved)) ;; mret ()
    | None => mret ()
    end ;;
    mret (ActiveSigned
      {| signed_prepared := {| prepared_saved := saved; content := content |};
         verification := {| verification_mode := "delegated-service-key";
                            provider := text_of (prop (default JUndef (head (authored_signatures response))) "signatureProvider");
                            keyId := signing_keyId config |} |})
  else mret (SubmittedDraft response (text_of (prop view "draft_id")) (view_version view) subject (text_of (prop view "form_version_id"))).

(** The cohort's [qualifyReadState]. *)
Definition qualifyReadState (policy : QualifiedDraftState) (key : DraftKey) (current : prog unit) (view : jsv) : prog DraftReadState :=
  let response := view_response view in
  '(_, subject) ← ownerFor config key;
  current ;;
  fail_when (negb (task_unchanged config view)) "Task draft composition metadata changed" ;;
  fail_when (negb (publication_matches policy key view subject)) "Owned draft state differs from its qualified publication" ;;
  let in_progress := is_lit (prop view "status") "in_progress" in
  editing ← (if in_progress then if is_signed response then hasPending key else mret true else mret false);
  if editing : bool then
    pending ← (if committed response then mret true else hasPending key);
    if pending : bool then qualify_pending policy key view subject current
    else
      assertEditable key ;;
      saved ← savedResult key view;
      current ;;
      assertEditable key ;;
      mret (ActiveSaved saved)
  else qualify_signed policy key view subject current.

(** ** The scoped drafts *)

Definition scoped_load (key : DraftKey) : prog Result :=
  fence_run key (λ generation, response ← store_load store key (assertCurrent key generation); mret (Loaded response)).

Definition scoped_readState (policy : QualifiedDraftState) (key : DraftKey) (guard : option N) : prog Result :=
  fence_run key (λ generation,
    let current := assertSynchronousGuard guard ;; assertCurrent key generation in
    current ;;
    state ← store_read store key (qualifyReadState policy key current) current false None;
    current ;;
    mret (ReadAs state)).

(** Only for an authenticated owner, and no task's draft. *)
Definition scoped_resumeState (policy : QualifiedDraftState) (key : DraftKey) (selection : ResumeSelection) (guard : option N)
    : prog Result :=
  state ← fence_run key (λ generation,
    let current := assertSynchronousGuard guard ;; assertCurrent key generation in
    current ;;
    fail_when (negb (isSome (respondentSubjectRef key))) "Owned draft resume requires an authenticated owner" ;;
    state ← store_read store key
      (λ view,
         fail_when (negb (is_undefined (prop view "taskDraft"))) "Task-owned draft requires its maintained task entry" ;;
         qualifyReadState policy key current view) current false (Some selection);
    fail_when (negb (isSome state)) "Selected owned draft state unavailable" ;;
    current ;;
    mret state);
  mret (ReadAs state).

Definition scoped_save (key : DraftKey) (response : jsv) (guard : option N) : prog Result :=
  fence_run key (λ _,
    assertEditable key ;;
    store_save store key response ((λ g, invoke (CallGuard g)) <$> guard) ;;
    mret Nothing).

Definition scoped_delete (key : DraftKey) : prog unit :=
  fence_clear key (store_delete store key ;; clearScope key).

Fixpoint delete_each (keys : list DraftKey) : prog unit :=
  match keys with [] => mret () | key :: keys' => scoped_delete key ;; delete_each keys' end.

Definition invalidate_each (keys : list DraftKey) (c : Cohort) : Cohort := foldl (λ c key, invalidate_in key c) c keys.

Definition scoped_invalidateSubject (subject : string) : prog Result :=
  (if isSome (qualifiedDraftState config) && nonempty subject && negb (starts_with "anon:" subject) then
     keys ← store_list subject;
     modify (invalidate_each keys) ;;
     store_retireSubject subject
   else
     keys ← store_list subject;
     invoke Turn ;;
     delete_each keys) ;;
  mret Nothing.

(** ** What a client may call

    An operation id is generated for one act in one scope; [home] says in which. *)

Context (home : string → string).

Inductive operation : prog Result → Prop :=
  | op_load key : operation (scoped_load key)
  | op_readState policy key guard : qualifiedDraftState config = Some policy → operation (scoped_readState policy key guard)
  | op_resumeState policy key selection guard : qualifiedDraftState config = Some policy →
      operation (scoped_resumeState policy key selection guard)
  | op_save key response guard : operation (scoped_save key response guard)
  | op_delete key : operation (scoped_delete key ;; mret Nothing)
  | op_invalidateSubject subject : operation (scoped_invalidateSubject subject)
  | op_invalidate key : operation (modify (invalidate_in key) ;; mret Nothing)
  | op_submit handoff operationId guard options : operation (submit handoff operationId guard options)
  | op_saveDraft input guard : operation (saveDraft config input guard)
  | op_prepare input : operation (prepare config input)
  | op_sign input : home (sign_operationId input) = scopeFor (saved_draftKey (sign_preparation input)) →
      operation (sign config input)
  | op_restorePending input renew operationId : operation (restorePending config input renew operationId).

(** What a call may be answered.  A call may fail, but for those that only
    wait; a joined operation answers what it settled to; a generated id belongs
    to the scope it is generated for. *)
Definition answers {X} (q : call X) : outcome cohort_failure X → Cohort → Prop :=
  match q in call X return outcome cohort_failure X → Cohort → Prop with
  | Turn => λ a _, a = Returns ()
  | AwaitPending scope id => λ a c, a = Returns () ∧ fence_pending (fence c) !! scope ≠ Some id
  | AwaitSaves ids => λ a c, a = Returns () ∧ ids ## pendingSaves (drafts c)
  | JoinPromise id => λ a c, promises c !! id = Some a
  | GenerateKey scope => λ a _, ∀ id, a = Returns id → home id = scope
  | _ => λ _ _, True
  end.

(** A dispatched request, with the state it was dispatched in. *)
Record dispatch : Set := { dispatch_key : DraftKey; dispatch_request : HttpRequest; dispatch_state : Cohort }.

Definition observe (X : Type) (q : call X) (c : Cohort) : list dispatch :=
  match q with
  | Fetch key request => [{| dispatch_key := key; dispatch_request := request; dispatch_state := c |}]
  | _ => []
  end.
End cohort.

(** A page that has just been loaded, on the metadata an earlier one left. *)
Definition fresh_cohort (m : gmap string jsv) : Cohort :=
  {| fence := {| fence_generations := ∅; fence_pending := ∅; fence_clearing := ∅ |};
     bindings := no_bindings; metadata := m; drafts := no_draft_store;
     signing := {| preparations := ∅; acts := ∅; saves := ∅; activations := ∅; superseded := ∅ |};
     submission := {| finalizedHandoffs := ∅; replay := ∅ |}; promises := ∅; nextId := 0 |}.
