(* ===== verification/CohortConditions.v ===== *)
(** * The conditions of the HTTP cohort

    What every operation of [HttpCohort] keeps while the others run between its
    awaits.  There are two tokens a scope: whoever runs an operation in the scope
    holds its fence, whoever clears it holds its clearing.  The holder of the
    fence relies on the scope's markers and acts; [keeps] and [calm] are the
    verification condition for the parts of an operation that change neither. *)

From S2P Require Import Prelude JsValue JsMap Async AsyncTokens BrowserStorage ScopedMetadata IdempotencyKey DraftKeys ResponseAction CohortState HttpClient DraftBindings SigningFence HttpDraftStore ResponseSigning SigningOperations SigningRecovery HttpCohort.

Inductive token : Set := OpToken (scope : string) | ClearToken (scope : string).

#[export] Instance token_eq_dec : EqDecision token.
Proof. solve_decision. Defined.

(** An act without the promise a retry joins, and without its result too. *)
Definition act_settled (a : FrozenAct) : FrozenAct := act_with_pending None a.
Definition act_core (a : FrozenAct) : FrozenAct :=
  Build_FrozenAct (act_identity a) (act_operationId a) (act_preparation a) (act_signerName a) (act_action a)
    (act_context a) (act_candidate a) (act_version a) None None.

Lemma act_core_settled a b : act_settled a = act_settled b → act_core a = act_core b.
Proof. destruct a, b. unfold act_settled, act_core, act_with_pending. simpl. by intros [= -> -> -> -> -> -> -> -> ->]. Qed.

Lemma act_settled_result a b : act_settled a = act_settled b → act_result a = act_result b.
Proof. destruct a, b. by intros [= -> -> -> -> -> -> -> -> ->]. Qed.

Lemma act_core_candidate a b : act_core a = act_core b → act_candidate a = act_candidate b.
Proof. destruct a, b. by intros [= -> -> -> -> -> -> -> ->]. Qed.

Section conditions.
Context `{!FormIds, !JsonText, !MetadataPolicy, !Canonicalize, !Engine, !UuidPackage, !Digest, !HandoffBytes,
  !SigningPackages}.
Context (config : CohortConfig) (home : string → string).

Abbreviation cli := (store_client (signing_store config)).

(** ** The markers and acts of a scope *)

Definition signing_list (c : Cohort) : list jsv := arr_of (default JUndef (metadata c !! sign_slot)).
Definition scope_markers (s : string) (c : Cohort) : list jsv := List.filter (in_scope s) (signing_list c).
Definition act_at (op : string) (c : Cohort) : option FrozenAct := acts (signing c) !! op.
Definition retired (op : string) (c : Cohort) : Prop := op ∈ superseded (signing c).

(** A marker's operations were generated for its scope. *)
Definition marker_home (m : jsv) : Prop :=
  ∃ s op, prop m "scope" = JStr s ∧ prop m "operationId" = JStr op ∧ home op = s ∧
    ∀ op', prop (prop m "renewal") "operationId" = JStr op' → home op' = s.

Definition marks (a : FrozenAct) (m : jsv) : Prop :=
  prop m "operationId" = JStr (act_operationId a) ∧ prop m "draftId" = JStr (act_draft_id a) ∧
  prop m "version" = int (act_version a).

(** The scope's only marker is the act's. *)
Definition marked (op : string) (a : FrozenAct) (c : Cohort) : Prop := ∃ m, scope_markers (home op) c = [m] ∧ marks a m.

Record act_ok (op : string) (a : FrozenAct) (c : Cohort) : Prop := {
  act_ok_id : act_operationId a = op;
  act_ok_scope : act_scope a = home op;
  act_ok_uuid : isUuidV7IdempotencyKey op = true;
  act_ok_marked : act_result a = None → ¬ retired op c → marked op a c
}.

Record preparation_ok (p : PreparedResponseSigning) (context : PreparationContext) : Prop := {
  preparation_key : in_draftKey (context_input context) = saved_draftKey p;
  preparation_renewal op : renewalOperationId context = Some op → home op = scopeFor (saved_draftKey p)
}.

Record cohort_inv (c : Cohort) : Prop := {
  inv_markers : Forall marker_home (signing_list c);
  inv_acts op a : act_at op c = Some a → act_ok op a c;
  inv_preparations n p context : preparations (signing c) !! n = Some (p, context) → preparation_ok p context
}.

Definition clearing (s : string) (c : Cohort) : Prop := s ∈ fence_clearing (fence c).

#[export] Instance clearing_dec s c : Decision (clearing s c).
Proof. unfold clearing. apply _. Defined.

Record cohort_mono (c c' : Cohort) : Prop := {
  mono_generation s : (generation_of s c ≤ generation_of s c')%N;
  mono_clearing s : generation_of s c = generation_of s c' → ¬ clearing s c → ¬ clearing s c';
  mono_acts op a : generation_of (home op) c = generation_of (home op) c' → ¬ clearing (home op) c → act_at op c = Some a →
    ∃ a', act_at op c' = Some a' ∧ act_core a' = act_core a
}.

(** ** What a token protects *)

Definition op_pending (s : string) (c : Cohort) : option N := fence_pending (fence c) !! s.

Definition cohort_locked (k : token) (c : Cohort) : bool :=
  match k with
  | OpToken s => bool_decide (is_Some (op_pending s c))
  | ClearToken s => bool_decide (clearing s c)
  end.

Definition same_act (op : string) (c c' : Cohort) : Prop := act_settled <$> act_at op c' = act_settled <$> act_at op c.

Record op_held (s : string) (c c' : Cohort) : Prop := {
  held_pending : op_pending s c' = op_pending s c;
  held_markers : scope_markers s c' = scope_markers s c;
  held_acts op : home op = s → same_act op c c';
  held_retired op : home op = s → retired op c' ↔ retired op c
}.

Record clear_held (s : string) (c c' : Cohort) : Prop := {
  held_clearing : clearing s c → clearing s c';
  held_quiet : op_pending s c' = op_pending s c ∨ op_pending s c' = None
}.

Definition cohort_held (k : token) (c c' : Cohort) : Prop :=
  match k with OpToken s => op_held s c c' | ClearToken s => clear_held s c c' end.

(** ** Requests *)

(** The scope has no unresolved act. *)
Definition quiet (s : string) (c : Cohort) : Prop :=
  scope_markers s c = [] ∧ ∀ op a, home op = s → act_at op c = Some a → act_result a ≠ None.

(** The request writes [response] to the draft that [key] is bound to. *)
Definition draft_write (key : DraftKey) (response : jsv) (r : HttpRequest) : Prop :=
  (∃ existing, request_method r = "PATCH" ∧ request_url r = urlFor cli (draft_path (snapshot_draftId existing)) ∧
    request_body r = Some (update_body response existing)) ∨
  (∃ token, request_method r = "POST" ∧ request_url r = urlFor cli (create_path key) ∧
    request_body r = Some (create_body key response token)).

Record sign_request (a : FrozenAct) (r : HttpRequest) : Prop := {
  sign_planned : ∃ planned, validateAction a = Returns planned ∧ request_body r = Some (planned_body planned) ∧
    request_url r = urlFor cli (planned_path planned);
  sign_method : request_method r = "POST";
  sign_key : act_operationId a ≠ "" → map_get (request_headers r) "idempotency-key" = Some (act_operationId a)
}.

(** Why a request may be dispatched in a state. *)
Inductive justified (key : DraftKey) (r : HttpRequest) (c : Cohort) : Prop :=
  | JustRead : request_method r = "GET" → justified key r c
  | JustEdit response : quiet (scopeFor key) c → draft_write key response r → justified key r c
  | JustCandidate op a : home op = scopeFor key → act_at op c = Some a → draft_write key (act_candidate a) r → justified key r c
  | JustSuccessor m : scope_markers (scopeFor key) c = [m] → truthy (prop m "renewal") = true →
      draft_write key (successor_of (prop (prop m "renewal") "originalCandidate")) r → justified key r c
  | JustSign op a : home op = scopeFor key → act_at op c = Some a → ¬ clearing (home op) c → sign_request a r → justified key r c
  | JustSubmit draftId : quiet (scopeFor key) c → request_method r = "POST" →
      request_url r = urlFor cli (submit_path draftId) → justified key r c.

Definition cohort_issue (X : Type) (q : call X) (h : option token) (c : Cohort) : Prop :=
  match q with
  | Fetch key r => h = Some (OpToken (scopeFor key)) ∧ justified key r c
  | ClearAnonymousSession key _ => h = Some (ClearToken (scopeFor key)) ∧ op_pending (scopeFor key) c = None
  | _ => True
  end.

Definition cohort_conditions : token_conditions Cohort token call := {|
  tinv := cohort_inv; tmono := cohort_mono; tlocked := cohort_locked; theld := cohort_held; tissue := cohort_issue
|}.

Lemma act_core_at op c c' a : same_act op c c' → act_at op c = Some a → ∃ a', act_at op c' = Some a' ∧ act_settled a' = act_settled a.
Proof.
  unfold same_act. intros E Ha. rewrite Ha in E. destruct (act_at op c') as [a'|]; [|done]. apply (inj Some) in E. by exists a'.
Qed.

#[export] Instance cohort_mono_preorder : PreOrder cohort_mono.
Proof.
  split.
  - intros c. split; [done|done|]. intros op a _ _ Ha. by exists a.
  - intros c1 c2 c3 [G1 C1 A1] [G2 C2 A2].
    assert (∀ s, generation_of s c1 = generation_of s c3 →
      generation_of s c1 = generation_of s c2 ∧ generation_of s c2 = generation_of s c3) as Hg.
    { intros s E. pose proof (G1 s). pose proof (G2 s). lia. }
    split.
    + intros s. etransitivity; [apply G1|apply G2].
    + intros s [E1 E2]%Hg Hc. apply C2; [done|]. by apply C1.
    + intros op a [E1 E2]%Hg Hc Ha. destruct (A1 op a E1 Hc Ha) as (a2 & Ha2 & Ec2).
      destruct (A2 op a2 E2 (C1 _ E1 Hc) Ha2) as (a3 & Ha3 & Ec3). exists a3. split; [done|congruence].
Qed.

#[export] Instance cohort_held_preorder k : PreOrder (cohort_held k).
Proof.
  destruct k as [s|s]; split.
  - intros c. by split.
  - intros c1 c2 c3 [P1 M1 A1 R1] [P2 M2 A2 R2]. split; [congruence|congruence| |].
    + intros op Hop. unfold same_act in *. by rewrite A2, A1.
    + intros op Hop. by rewrite R2, R1.
  - intros c. split; [done|by left].
  - intros c1 c2 c3 [C1 Q1] [C2 Q2]. split; [auto|]. destruct Q2 as [-> | ->]; [destruct Q1 as [-> | ->]; auto|by right].
Qed.

Lemma cohort_conditions_ok : token_conditions_ok cohort_conditions.
Proof. split; [apply cohort_mono_preorder|apply cohort_held_preorder]. Qed.

Abbreviation ctok := (tok (@yields) (@answers home) cohort_conditions).
Abbreviation crely := (trely cohort_conditions).
Abbreviation cguar := (tguarantee cohort_conditions).

(** ** A thread's own state *)

Definition good (h : option token) (c : Cohort) : Prop := cohort_inv c ∧ owns cohort_conditions h c.

Lemma cohort_rely_refl h c : good h c → crely h c c.
Proof. intros [Hi _]. split; [done|]. split; [done|]. intros k _. done. Qed.

Lemma cohort_rely_trans h c1 c2 c3 : crely h c1 c2 → crely h c2 c3 → crely h c1 c3.
Proof.
  intros (_ & M1 & R1) (I2 & M2 & R2). split; [done|]. split; [by transitivity c2|].
  intros k E. transitivity c2; auto.
Qed.

Lemma good_rely h c c' : crely h c c' → good h c → good h c'.
Proof.
  intros (Hi & _ & Hh) [_ Ho]. split; [done|]. intros k E. specialize (Ho k E). specialize (Hh k E).
  destruct k as [s|s]; simpl in *.
  - apply bool_decide_eq_true_2. rewrite (held_pending _ _ _ Hh). by apply bool_decide_eq_true_1 in Ho.
  - apply bool_decide_eq_true_2, (held_clearing _ _ _ Hh). by apply bool_decide_eq_true_1 in Ho.
Qed.

Lemma quiet_rely s c c' : crely (Some (OpToken s)) c c' → quiet s c → quiet s c'.
Proof.
  intros (_ & _ & Hh) [Hm Ha]. specialize (Hh _ eq_refl). simpl in Hh. split; [by rewrite (held_markers _ _ _ Hh)|].
  intros op a Hop E. pose proof (held_acts _ _ _ Hh op Hop) as Hs. unfold same_act in Hs. rewrite E in Hs.
  destruct (act_at op c) as [a0|] eqn:E0; [|done]. apply (inj Some) in Hs. rewrite (act_settled_result _ _ Hs). by apply (Ha op).
Qed.

(** ** Writes that touch neither markers nor acts *)

Record frame (c c' : Cohort) : Prop := {
  frame_fence : fence c' = fence c;
  frame_markers : metadata c' !! sign_slot = metadata c !! sign_slot;
  frame_acts op : same_act op c c';
  frame_retired : superseded (signing c') = superseded (signing c);
  frame_preparations : preparations (signing c') = preparations (signing c)
}.

Lemma signing_list_frame c c' : metadata c' !! sign_slot = metadata c !! sign_slot → signing_list c' = signing_list c.
Proof. unfold signing_list. by intros ->. Qed.

Lemma act_ok_same op a a' c c' :
  act_settled a' = act_settled a → scope_markers (home op) c' = scope_markers (home op) c → (retired op c → retired op c') →
  act_ok op a c → act_ok op a' c'.
Proof.
  intros E Em Hr [Hid Hsc Hu Hm].
  assert (act_operationId a' = act_operationId a ∧ act_scope a' = act_scope a ∧ act_draft_id a' = act_draft_id a ∧
          act_version a' = act_version a ∧ act_result a' = act_result a) as (E1 & E2 & E3 & E4 & E5).
  { destruct a, a'. by injection E as -> -> -> -> -> -> -> -> ->. }
  split; [congruence|congruence|done|]. rewrite E5. intros Hn Hnr. destruct (Hm Hn) as (m & Hs & Hmk); [tauto|].
  exists m. split; [congruence|]. unfold marks in *. by rewrite E1, E3, E4.
Qed.

(** A write that leaves the fence alone and, up to their promises, the acts; the
    markers of every scope stay or the write is none of theirs. *)
Lemma guarantee_same h c c' :
  good h c → cohort_inv c' → fence c' = fence c →
  (∀ op a, act_at op c = Some a → ∃ a', act_at op c' = Some a' ∧ act_core a' = act_core a) →
  (∀ s, h ≠ Some (OpToken s) → is_Some (op_pending s c) → op_held s c c') →
  cguar h h c c'.
Proof.
  intros [Hi Ho] Hi' Hf Ha Hh. split; [done|]. split.
  - split; unfold generation_of, clearing; rewrite Hf; try done. intros op a _ _. apply Ha.
  - intros k. unfold token_moves. assert (cohort_locked k c' = cohort_locked k c) as El.
    { destruct k; simpl; apply bool_decide_ext; unfold op_pending, clearing; by rewrite Hf. }
    simpl. rewrite El. destruct (decide (h = Some k)) as [E|E]; [by split; [apply Ho|]|]. split; [done|].
    intros Hl. destruct k as [s|s]; simpl.
    + apply Hh; [done|]. by apply bool_decide_eq_true_1 in Hl.
    + split; unfold clearing, op_pending; rewrite Hf; auto.
Qed.

Lemma frame_inv c c' : cohort_inv c → frame c c' → cohort_inv c'.
Proof.
  intros [Hm Ha Hp] [Hf Hs Hact Hr Hpr]. pose proof (signing_list_frame _ _ Hs) as El. split.
  - by rewrite El.
  - intros op a' E. pose proof (Hact op) as Hsame. unfold same_act in Hsame. rewrite E in Hsame.
    destruct (act_at op c) as [a|] eqn:E0; [|done]. apply (inj Some) in Hsame.
    apply (act_ok_same op a a' c c'); [done|unfold scope_markers; by rewrite El| |by apply Ha].
    unfold retired. by rewrite Hr.
  - rewrite Hpr. apply Hp.
Qed.

Lemma frame_held s c c' : frame c c' → op_held s c c'.
Proof.
  intros [Hf Hs Hact Hr Hpr]. pose proof (signing_list_frame _ _ Hs) as El. split.
  - unfold op_pending. by rewrite Hf.
  - unfold scope_markers. by rewrite El.
  - intros op _. apply Hact.
  - intros op _. unfold retired. by rewrite Hr.
Qed.

Lemma frame_core c c' op a : frame c c' → act_at op c = Some a → ∃ a', act_at op c' = Some a' ∧ act_core a' = act_core a.
Proof.
  intros Hf Ha. destruct (act_core_at op c c' a (frame_acts _ _ Hf op) Ha) as (a' & Ha' & E).
  exists a'. split; [done|by apply act_core_settled].
Qed.

Lemma frame_guarantee h c c' : good h c → frame c c' → cguar h h c c'.
Proof.
  intros Hg Hf. apply guarantee_same; [done|by eapply frame_inv; [apply Hg|]|apply Hf| |].
  - intros op a. by apply frame_core.
  - intros s _ _. by apply frame_held.
Qed.

Lemma frame_rely h c c' : good h c → frame c c' → crely h c c'.
Proof.
  intros Hg Hf. pose proof (frame_guarantee h c c' Hg Hf) as (Hi & Hm & _). split; [done|]. split; [done|].
  intros [s|s] _; [by apply frame_held|]. split; unfold clearing, op_pending; rewrite (frame_fence _ _ Hf); auto.
Qed.
End conditions.
