(* ===== verification/CohortCalculus.v ===== *)
(** * Reasoning about the cohort's operations

    [keeps m h c R]: run by a holder of [h] from [c], the program [m] leaves
    alone what every token protects, its own included, and what it returns
    satisfies [R].  [calm P h m] is [keeps] from every state with the stable
    property [P].  Most of an operation is of this kind: the registry, the HTTP
    client, the draft store and the reads of the signing adapter. *)

From S2P Require Import Prelude JsValue JsMap Async AsyncTokens BrowserStorage ScopedMetadata IdempotencyKey DraftKeys ResponseAction CohortState HttpClient DraftBindings SigningFence HttpDraftStore ResponseSigning SigningOperations SigningRecovery HttpCohort CohortConditions.

Section calculus.
Context `{Forms : !FormIds, Json : !JsonText, Meta : !MetadataPolicy, Can : !Canonicalize, Eng : !Engine,
  Uuid : !UuidPackage, Dig : !Digest, Hand : !HandoffBytes, Pack : !SigningPackages}.
Context (config : CohortConfig) (home : string → string).

Abbreviation conds := (cohort_conditions config home).
Abbreviation ctok := (tok (@yields) (@answers home) conds).
Abbreviation crely := (trely conds).
Abbreviation cguar := (tguarantee conds).
Abbreviation cgood := (good config home).
Abbreviation cinv := (cohort_inv home).

Definition keeps {A} (m : prog A) (h : option token) (c : Cohort) (R : A → Cohort → Prop) : Prop :=
  ctok m h c (λ h' o c', h' = h ∧ crely h c c' ∧ match o with Returns a => R a c' | Throws _ => True end).

Lemma keeps_weaken {A} (m : prog A) h c (R R' : A → Cohort → Prop) :
  (∀ a c', crely h c c' → R a c' → R' a c') → keeps m h c R → keeps m h c R'.
Proof.
  intros HR. apply tok_weaken. intros h' [a|e] c' (E & Hr & HQ); (split; [done|]); (split; [done|]); auto.
Qed.

Lemma keeps_ret {A} (a : A) h c (R : A → Cohort → Prop) : cgood h c → R a c → keeps (mret a) h c R.
Proof. intros Hg HR. split; [done|]. split; [by apply cohort_rely_refl|done]. Qed.

Lemma keeps_done {A} (o : outcome cohort_failure A) h c (R : A → Cohort → Prop) :
  cgood h c → (∀ a, o = Returns a → R a c) → keeps (of_outcome o) h c R.
Proof. intros Hg HR. split; [done|]. split; [by apply cohort_rely_refl|]. destruct o; auto. Qed.

Lemma keeps_refuse {A} e h c (R : A → Cohort → Prop) : cgood h c → keeps (refuse e) h c R.
Proof. intros Hg. by apply (keeps_done (Throws e)). Qed.

(** [keeps] at the end of a program that began in [c0]. *)
Lemma tok_later {A} (m : prog A) h c0 c (R : A → Cohort → Prop) :
  crely h c0 c → keeps m h c R →
  ctok m h c (λ h' o c', h' = h ∧ crely h c0 c' ∧ match o with Returns a => R a c' | Throws _ => True end).
Proof.
  intros Hr. apply tok_weaken. intros h' o c' (E & Hr' & HQ). split; [done|]. split; [|done]. by eapply cohort_rely_trans.
Qed.

Lemma keeps_bind {A B} (m : prog A) (f : A → prog B) h c (R1 : A → Cohort → Prop) (R : B → Cohort → Prop) :
  keeps m h c R1 → (∀ a c', crely h c c' → R1 a c' → keeps (f a) h c' R) → keeps (m ≫= f) h c R.
Proof.
  intros Hm Hf. apply tok_bind. eapply tok_weaken; [|exact Hm]. intros h' [a|e] c' (-> & Hr & HR); [|done].
  apply (tok_later _ h c c'); [done|]. by apply Hf.
Qed.

Lemma keeps_settle {A B} (m : prog A) (f : outcome cohort_failure A → prog B) h c (R1 : A → Cohort → Prop) (R : B → Cohort → Prop) :
  keeps m h c R1 →
  (∀ a c', crely h c c' → R1 a c' → keeps (f (Returns a)) h c' R) →
  (∀ e c', crely h c c' → keeps (f (Throws e)) h c' R) → keeps (settle m f) h c R.
Proof.
  intros Hm Hf He. apply tok_settle. eapply tok_weaken; [|exact Hm]. intros h' [a|e] c' (-> & Hr & HR);
    (apply (tok_later _ h c c'); [done|]); [by apply Hf|by apply He].
Qed.

Lemma keeps_get {B} (f : Cohort → prog B) h c (R : B → Cohort → Prop) : keeps (f c) h c R → keeps (get ≫= f) h c R.
Proof. done. Qed.

Lemma keeps_modify f h c (R : unit → Cohort → Prop) :
  cgood h c → frame c (f c) → R () (f c) → keeps (modify f) h c R.
Proof.
  intros Hg Hf HR. exists h. split; [by apply frame_guarantee|]. split; [done|]. split; [|done]. by apply frame_rely.
Qed.

Lemma keeps_invoke {X} (q : call X) h c (R : X → Cohort → Prop) :
  cgood h c → cohort_issue config home X q h c →
  (∀ c' a, (if yields q then crely h c c' else c' = c) → answers home q (Returns a) c' → R a c') → keeps (invoke q) h c R.
Proof.
  intros Hg Hq HR. split; [done|]. intros c' o Hc Ha. split; [done|]. split.
  - destruct (yields q); [done|]. subst. by apply cohort_rely_refl.
  - destruct o as [a|e]; [by apply HR|done].
Qed.

Lemma keeps_refuse_when b e h c (R : unit → Cohort → Prop) :
  cgood h c → (b = false → R () c) → keeps (refuse_when b e) h c R.
Proof. intros Hg HR. apply keeps_done; [done|]. intros []. unfold throw_when. destruct b; [done|auto]. Qed.

(** ** Programs that need no more than a stable property *)

Definition stable (h : option token) (P : Cohort → Prop) : Prop := ∀ c c', crely h c c' → cgood h c → P c → P c'.

Lemma stable_true h : stable h (λ _, True).
Proof. done. Qed.

Definition calm {A} (P : Cohort → Prop) (h : option token) (m : prog A) : Prop :=
  ∀ c, cgood h c → P c → keeps m h c (λ _ _, True).

Section calm.
Context (P : Cohort → Prop) (h : option token).
Hypothesis (HP : stable h P).

Lemma calm_ret {A} (a : A) : calm P h (mret a).
Proof. intros c Hg _. by apply keeps_ret. Qed.

Lemma calm_done {A} (o : outcome cohort_failure A) : calm P h (of_outcome o).
Proof. intros c Hg _. by apply keeps_done. Qed.

Lemma calm_refuse {A} e : calm P h (refuse (A := A) e).
Proof. intros c Hg _. by apply keeps_refuse. Qed.

Lemma calm_refuse_when b e : calm P h (refuse_when b e).
Proof. intros c Hg _. by apply keeps_refuse_when. Qed.

Lemma calm_bind {A B} (m : prog A) (f : A → prog B) : calm P h m → (∀ a, calm P h (f a)) → calm P h (m ≫= f).
Proof.
  intros Hm Hf c Hg HPc. eapply keeps_bind; [by apply Hm|]. intros a c' Hr _. apply Hf; [by eapply good_rely|by eapply HP].
Qed.

Lemma calm_settle {A B} (m : prog A) (f : outcome cohort_failure A → prog B) :
  calm P h m → (∀ o, calm P h (f o)) → calm P h (settle m f).
Proof.
  intros Hm Hf c Hg HPc. eapply keeps_settle; [by apply Hm| |].
  - intros a c' Hr _. apply Hf; [by eapply good_rely|by eapply HP].
  - intros e c' Hr. apply Hf; [by eapply good_rely|by eapply HP].
Qed.

Lemma calm_get {B} (f : Cohort → prog B) : (∀ c, calm P h (f c)) → calm P h (get ≫= f).
Proof. intros Hf c Hg HPc. apply keeps_get. by apply Hf. Qed.

Lemma calm_modify f : (∀ c, frame c (f c)) → calm P h (modify f).
Proof. intros Hf c Hg _. by apply keeps_modify. Qed.

Lemma calm_finally {A} (m : prog A) f : calm P h m → (∀ c, frame c (f c)) → calm P h (finally m f).
Proof.
  intros Hm Hf. apply calm_settle; [done|]. intros o. apply calm_bind; [by apply calm_modify|]. intros _. apply calm_done.
Qed.

Lemma calm_invoke {X} (q : call X) : (∀ c, cgood h c → P c → cohort_issue config home X q h c) → calm P h (invoke q).
Proof. intros Hq c Hg HPc. apply keeps_invoke; [done|by apply Hq|done]. Qed.

Lemma calm_if {A} (b : bool) (m1 m2 : prog A) : calm P h m1 → calm P h m2 → calm P h (if b then m1 else m2).
Proof. by destruct b. Qed.
End calm.

Lemma calm_weaken {A} (P P' : Cohort → Prop) h (m : prog A) : (∀ c, P' c → P c) → calm P h m → calm P' h m.
Proof. intros HP Hm c Hg Hc. apply Hm; auto. Qed.

Lemma calm_any {A} P h (m : prog A) : (stable h (λ _, True) → calm (λ _, True) h m) → calm P h m.
Proof. intros Hm c Hg _. by apply Hm. Qed.

(** What a program gives, from every state with a property. *)
Definition gives {A} (P : Cohort → Prop) (h : option token) (m : prog A) (R : A → Cohort → Prop) : Prop :=
  ∀ c, cgood h c → P c → keeps m h c R.

Lemma gives_calm {A} P h (m : prog A) R : gives P h m R → calm P h m.
Proof. intros Hm c Hg Hc. eapply keeps_weaken; [|by apply Hm]. done. Qed.

Lemma gives_ret {A} (P : Cohort → Prop) h (a : A) (R : A → Cohort → Prop) : (∀ c, P c → R a c) → gives P h (mret a) R.
Proof. intros HR c Hg Hc. apply keeps_ret; auto. Qed.

Lemma gives_refuse {A} P h e (R : A → Cohort → Prop) : gives P h (refuse e) R.
Proof. intros c Hg _. by apply keeps_refuse. Qed.

Lemma gives_refuse_when P h b e : gives P h (refuse_when b e) (λ _ c, P c ∧ b = false).
Proof. intros c Hg Hc. apply keeps_refuse_when; auto. Qed.

Lemma gives_bind {A B} P h (m : prog A) (f : A → prog B) Q R :
  gives P h m Q → (∀ a, gives (Q a) h (f a) R) → gives P h (m ≫= f) R.
Proof. intros Hm Hf c Hg Hc. eapply keeps_bind; [by apply Hm|]. intros a c' Hr HQ. apply Hf; [by eapply good_rely|done]. Qed.

Lemma gives_weaken {A} (P P' : Cohort → Prop) h (m : prog A) R : (∀ c, P' c → P c) → gives P h m R → gives P' h m R.
Proof. intros HP Hm c Hg Hc. apply Hm; auto. Qed.

(** The property outlives a calm part. *)
Lemma gives_after {A B} P h (m : prog A) (f : A → prog B) R :
  stable h P → calm P h m → (∀ a, gives P h (f a) R) → gives P h (m ≫= f) R.
Proof.
  intros HP Hm Hf c Hg Hc. eapply keeps_bind; [by apply Hm|]. intros a c' Hr _. apply Hf; [by eapply good_rely|by eapply HP].
Qed.

(** Only what the result gives is kept. *)
Lemma calm_bind_gives {A B} P h (m : prog A) (f : A → prog B) (R : A → Prop) :
  stable h P → gives P h m (λ a _, R a) → (∀ a, R a → calm P h (f a)) → calm P h (m ≫= f).
Proof.
  intros HP Hm Hf c Hg Hc. eapply keeps_bind; [by apply Hm|]. intros a c' Hr HR. apply Hf; [done|by eapply good_rely|by eapply HP].
Qed.

(** ** Frames *)

Lemma frame_drafts f c : frame c (with_drafts f c).
Proof. by split. Qed.
Lemma frame_submission f c : frame c (with_submission f c).
Proof. by split. Qed.
Lemma frame_promise n o c : frame c (with_promise n o c).
Proof. by split. Qed.
Lemma frame_next c : frame c (with_next c).
Proof. by split. Qed.
Lemma frame_saves f c : frame c (with_signing (with_saves f) c).
Proof. by split. Qed.

(** A registry operation writes no slot but its own. *)
Definition registry_frame {A} (f : registry A) : Prop :=
  ∀ b m o b' m', f (b, m) = (o, (b', m')) → m' !! sign_slot = m !! sign_slot.

Lemma slot_remove_other m s : s ≠ sign_slot → (slot_remove s m).2 !! sign_slot = m !! sign_slot.
Proof. intros Hs. unfold slot_remove. destruct (slot_removable m s); simpl; [|done]. by rewrite lookup_delete_ne. Qed.

Lemma slot_write_other m s v : s ≠ sign_slot → (slot_write s v m).2 !! sign_slot = m !! sign_slot.
Proof. intros Hs. unfold slot_write. destruct (slot_writable m s v); simpl; [|done]. by rewrite lookup_insert_ne. Qed.

Lemma restore_metadata b m : (restore (b, m)).2.2 = m.
Proof.
  unfold restore. destruct (bindings_restored b); [done|].
  destruct (slot_read "draft-handles" m) as [[| | | | |l|]|e]; try done. by destruct (restore_entries l (bound b)) as [[]].
Qed.

Lemma restore_frame : registry_frame restore.
Proof. intros b m o b' m' E. pose proof (restore_metadata b m) as Em. rewrite E in Em. simpl in Em. by subst. Qed.

Lemma persist_frame : registry_frame persist.
Proof.
  intros b m o b' m' E. unfold persist in E.
  assert ((match handle_json <$> bound b with [] => slot_remove "draft-handles" m
           | _ => slot_write "draft-handles" (JArr (handle_json <$> bound b)) m end).2 !! sign_slot = m !! sign_slot) as Hm.
  { destruct (handle_json <$> bound b); [by apply slot_remove_other|by apply slot_write_other]. }
  destruct (handle_json <$> bound b).
  - destruct (slot_remove "draft-handles" m) as [o1 m1]. injection E as <- <- <-. done.
  - destruct (slot_write _ _ m) as [o1 m1]. injection E as <- <- <-. done.
Qed.

Lemma registry_bind_frame {A B} (f : registry A) (g : A → registry B) :
  registry_frame f → (∀ a, registry_frame (g a)) → registry_frame (registry_bind f g).
Proof.
  intros Hf Hg b m o b' m' E. unfold registry_bind in E. destruct (f (b, m)) as [[a|e] [b1 m1]] eqn:E1.
  - rewrite (Hg a _ _ _ _ _ E). by eapply Hf.
  - injection E as <- <- <-. by eapply Hf.
Qed.

Lemma bindings_get_frame key : registry_frame (bindings_get key).
Proof. apply registry_bind_frame; [apply restore_frame|]. by intros _ b m o b' m' [= <- <- <-]. Qed.

Lemma bindings_put_frame key sn : registry_frame (bindings_put key sn).
Proof. apply registry_bind_frame; [apply restore_frame|]. intros _ b m o b' m' E. by apply persist_frame in E. Qed.

Lemma bindings_entries_frame : registry_frame bindings_entries.
Proof. apply registry_bind_frame; [apply restore_frame|]. by intros _ b m o b' m' [= <- <- <-]. Qed.

Lemma bindings_delete_frame key : registry_frame (bindings_delete key).
Proof.
  intros b m o b' m' E. unfold bindings_delete in E. destruct (restore (b, m)) as [[u|e] [b1 m1]] eqn:E1.
  - apply persist_frame in E. rewrite E. by eapply restore_frame.
  - pose proof (restore_frame _ _ _ _ _ E1) as Em. pose proof (slot_remove_other m1 "draft-handles" ltac:(done)) as Hr.
    destruct (slot_remove "draft-handles" m1) as [[u'|e'] m2]; injection E as <- <- <-; simpl in Hr; congruence.
Qed.

Lemma retire_entries_frame subject l : registry_frame (retire_entries subject l).
Proof.
  induction l as [|[key sn] l IH]; simpl; [by intros b m o b' m' [= <- <- <-]|].
  case_bool_decide; [|done]. apply registry_bind_frame; [apply bindings_put_frame|done].
Qed.

Lemma calm_on_registry {A} P h (f : registry A) : registry_frame f → calm P h (on_registry f).
Proof.
  intros Hf c Hg Hc. apply keeps_get. destruct (f (bindings c, metadata c)) as [o [b m]] eqn:E.
  eapply keeps_bind.
  - apply keeps_modify with (R := λ _ _, True); [done| |done]. split; try done. simpl. by eapply Hf.
  - intros _ c' Hr _. apply keeps_done; [by eapply good_rely|done].
Qed.

(** ** Guards *)

(** A check reads the state, and returns only when [φ] holds of it. *)
Definition checks (m : prog unit) (φ : Cohort → Prop) : Prop :=
  ∀ h c, cgood h c → keeps m h c (λ _ c', c' = c ∧ φ c).

Definition guards (g : option (prog jsv)) : Prop :=
  ∀ guard h c, g = Some guard → cgood h c → keeps guard h c (λ _ c', c' = c).

Lemma checks_current key g : checks (assertCurrent key g) (λ c, fence_current key g c = true).
Proof.
  intros h c Hg. apply keeps_get. apply keeps_refuse_when; [done|]. intros E. split; [done|]. by apply negb_false_iff.
Qed.

Lemma checks_store g : checks (store_current g) (λ _, True).
Proof. intros h c Hg. apply keeps_get. by apply keeps_refuse_when. Qed.

Lemma checks_guard g : checks (assertSynchronousGuard g) (λ _, True).
Proof.
  intros h c Hg. destruct g as [g|]; [|by apply keeps_ret]. eapply keeps_bind.
  - apply keeps_invoke with (R := λ _ c', c' = c); [done|done|]. simpl. intros c' a E _. exact E.
  - intros v c' _ ->. apply keeps_refuse_when; [done|by split].
Qed.

Lemma checks_seq m1 m2 φ1 φ2 : checks m1 φ1 → checks m2 φ2 → checks (m1 ;; m2) (λ c, φ1 c ∧ φ2 c).
Proof.
  intros H1' H2' h c Hg. eapply keeps_bind; [by apply H1'|]. intros [] c' _ [-> Hφ].
  eapply keeps_weaken; [|by apply H2']. by intros [] c' _ [-> Hφ'].
Qed.

Lemma checks_weaken m (φ φ' : Cohort → Prop) : (∀ c, φ c → φ' c) → checks m φ → checks m φ'.
Proof. intros Hφ Hm h c Hg. eapply keeps_weaken; [|by apply Hm]. intros [] c' _ [-> ?]. auto. Qed.

Lemma checks_read_current m φ g : checks m φ → checks (read_current m g) (λ _, True).
Proof.
  intros Hm. eapply checks_weaken; [|apply checks_seq with (φ2 := λ _, True); [exact Hm|]]; [done|].
  intros h c Hg. apply keeps_get. by apply keeps_refuse_when.
Qed.

Lemma calm_checks P h m φ : checks m φ → calm P h m.
Proof. intros Hm c Hg _. eapply keeps_weaken; [|by apply Hm]. done. Qed.

Lemma guards_none : guards None.
Proof. done. Qed.

Lemma guards_call g : guards (Some (invoke (CallGuard g))).
Proof. intros guard h c [= <-] Hg. apply keeps_invoke; [done|done|]. simpl. intros c' a E _. exact E. Qed.

Lemma guards_host g : guards ((λ g, invoke (CallGuard g)) <$> g).
Proof. destruct g as [g|]; [apply guards_call|apply guards_none]. Qed.

Lemma guards_save context g : guards (Some (save_guard context g)).
Proof.
  intros guard h c [= <-] Hg. eapply keeps_settle with (R1 := λ _ c', c' = c).
  - eapply keeps_weaken; [|apply (checks_seq _ _ _ _ (checks_current _ _) (checks_guard g)); done]. by intros [] c' _ [-> _].
  - intros [] c' _ ->. by apply keeps_ret.
  - intros e c' Hr. apply keeps_refuse. by eapply good_rely.
Qed.

(** ** Requests *)

Abbreviation cli := (store_client (signing_store config)).

Lemma calm_requestJson P φ h key method path body options :
  stable h P → h = Some (OpToken (scopeFor key)) →
  checks (option_assertCurrent options) φ → guards (option_assertBeforeDispatch options) →
  (∀ c token, cgood h c → P c → φ c →
    justified config home key {| request_method := method; request_url := urlFor cli path;
      request_headers := header_list cli options body token; request_body := body |} c) →
  calm P h (requestJson cli key method path body options).
Proof.
  intros HP Hh Hchk Hgrd Hj. unfold requestJson.
  apply calm_bind; [done|by eapply calm_checks|]. intros _ c Hg HPc. unfold headersFor.
  apply keeps_bind with (R1 := λ hs _, ∃ token, hs = header_list cli options body token).
  { eapply keeps_bind; [by apply keeps_invoke with (R := λ _ _, True)|]. intros token c1 Hr _.
    apply keeps_ret; [by eapply good_rely|by exists token]. }
  intros hs c1 Hr1 [token ->]. assert (cgood h c1) as Hg1 by (by eapply good_rely).
  assert (P c1) as HP1 by (by eapply HP).
  eapply keeps_bind; [by apply Hchk|]. intros [] c2 _ [-> Hφ].
  apply keeps_bind with (R1 := λ _ c', c' = c1).
  { destruct (option_assertBeforeDispatch options) as [guard|] eqn:E; [by apply (Hgrd guard)|by apply keeps_ret]. }
  intros adm c2 _ ->. eapply keeps_bind with (R1 := λ _ c', c' = c1); [by apply keeps_refuse_when|].
  intros [] c2 _ ->. eapply keeps_bind.
  - apply keeps_invoke with (R := λ _ _, True); [done| |done]. split; [done|]. by apply Hj.
  - intros reply c3 Hr3 _. assert (cgood h c3) as Hg3 by (by eapply good_rely). assert (P c3) as HP3 by (by eapply HP).
    revert c3 Hr3 Hg3 HP3. intros c3 _ Hg3 HP3.
    refine (_ : keeps _ h c3 _). apply (calm_bind P h HP); [by eapply calm_checks| |done|done]. intros _.
    apply calm_bind; [done| |].
    { unfold readResponsePayload. apply calm_bind; [done|by apply calm_invoke|]. intros text.
      repeat apply calm_if; try apply calm_ret. destruct (parse_json text); [apply calm_ret|apply calm_refuse]. }
    intros payload. apply calm_bind; [done|by eapply calm_checks|]. intros _.
    apply calm_bind; [done|apply calm_refuse_when|]. intros _. apply calm_ret.
Qed.

Lemma calm_keeps {A} P h (m : prog A) c : calm P h m → cgood h c → P c → keeps m h c (λ _ _, True).
Proof. auto. Qed.
End calculus.

(** ** Automation *)

Create HintDb calm.
#[export] Hint Resolve stable_true frame_drafts frame_submission frame_promise frame_next frame_saves : calm.
#[export] Hint Resolve restore_frame persist_frame bindings_get_frame bindings_put_frame bindings_entries_frame
  bindings_delete_frame retire_entries_frame : calm.
#[export] Hint Resolve guards_none guards_call guards_host guards_save : calm.
#[export] Hint Extern 1 (registry_frame (registry_bind _ _)) => apply registry_bind_frame; [|intros] : calm.

(** Walks through a program of reads, guarded writes of other state, and calls
    that need no token; what it cannot see through is left to the hints. *)
Ltac calm_step :=
  lazymatch goal with
  | |- calm _ _ _ _ ?m =>
      lazymatch m with
      | mbind _ get => apply calm_get; intros ?
      | mbind _ _ => apply calm_bind; [assumption| |intros ?]
      | mret _ => apply calm_ret
      | refuse _ => apply calm_refuse
      | of_outcome _ => apply calm_done
      | refuse_when _ _ => apply calm_refuse_when
      | on_registry _ => apply calm_on_registry; solve [eauto with calm]
      | modify _ => apply calm_modify; intros ?; solve [eauto with calm]
      | settle _ _ => apply calm_settle; [assumption| |intros ?]
      | finally _ _ => apply calm_finally; [assumption| |intros ?; solve [eauto with calm]]
      | fail_when _ _ => apply calm_refuse_when
      | unresolved_when _ => apply calm_refuse_when
      | fail _ => apply calm_refuse
      | of_library _ => apply calm_done
      | of_check _ => apply calm_done
      | member _ _ => unfold member
      | fresh => unfold fresh
      | read_slot _ => unfold read_slot
      | match ?x with _ => _ end => destruct x
      | _ => first [solve [eauto with calm]
                   | lazymatch m with invoke _ => apply calm_invoke; intros; exact I end]
      end
  end.

Ltac calm_prog := repeat calm_step.
