(* ===== verification/HttpDraftSafety.v ===== *)
(** * The draft store and the owned reads keep the cohort's conditions

    The operations of [HttpDraftStore], run by the holder of a scope's fence,
    and the reads of [ResponseSigning]: what they write is none of the markers
    and acts, and every request of a save is one that the state justifies. *)

From S2P Require Import Prelude JsValue JsMap Async AsyncTokens BrowserStorage ScopedMetadata IdempotencyKey DraftKeys ResponseAction CohortState HttpClient DraftBindings SigningFence HttpDraftStore ResponseSigning SigningOperations SigningRecovery HttpCohort CohortConditions CohortCalculus.

Section safety.
Context `{Forms : !FormIds, Json : !JsonText, Meta : !MetadataPolicy, Can : !Canonicalize, Eng : !Engine,
  Uuid : !UuidPackage, Dig : !Digest, Hand : !HandoffBytes, Pack : !SigningPackages}.
Context (config : CohortConfig) (home : string → string).

Abbreviation cgood := (good config home).
Abbreviation crely := (trely (cohort_conditions config home)).
Abbreviation ccalm := (calm config home).
Abbreviation cstable := (stable config home).
Abbreviation cchecks := (checks config home).
Abbreviation cguards := (guards config home).
Abbreviation store := (signing_store config).

Lemma calm_turn P h : ccalm P h (invoke Turn).
Proof. by apply calm_invoke. Qed.

(** ** Saving *)

(** What the holder of the fence may write to the draft. *)
Definition may_write (key : DraftKey) (response : jsv) (c : Cohort) : Prop :=
  quiet home (scopeFor key) c ∨
  (∃ op a, home op = scopeFor key ∧ act_at op c = Some a ∧ act_candidate a = response) ∨
  (∃ m, scope_markers (scopeFor key) c = [m] ∧ truthy (prop m "renewal") = true ∧
    response = successor_of (prop (prop m "renewal") "originalCandidate")).

Lemma may_write_justified key response c r :
  may_write key response c → draft_write config key response r → justified config home key r c.
Proof.
  intros [Hq|[(op & a & Hop & Ha & <-)|(m & Hm & Ht & ->)]] Hw;
    [by eapply JustEdit|by eapply JustCandidate|by eapply JustSuccessor].
Qed.

Lemma quiet_stable s : cstable (Some (OpToken s)) (quiet home s).
Proof. intros c c' Hr _ Hq. by eapply quiet_rely. Qed.

Lemma may_write_stable key response : cstable (Some (OpToken (scopeFor key))) (may_write key response).
Proof.
  intros c c' Hr Hg [Hq|[(op & a & Hop & Ha & E)|(m & Hm & Ht & E)]].
  - left. by eapply quiet_rely.
  - right. left. destruct Hr as (_ & _ & Hh). specialize (Hh _ eq_refl). simpl in Hh.
    destruct (act_core_at op c c' a (held_acts _ _ _ _ Hh op Hop) Ha) as (a' & Ha' & Ea).
    exists op, a'. split; [done|]. split; [done|]. rewrite <- E. by apply act_core_candidate, act_core_settled.
  - right. right. destruct Hr as (_ & _ & Hh). specialize (Hh _ eq_refl). simpl in Hh.
    exists m. split; [by rewrite (held_markers _ _ _ _ Hh)|done].
Qed.

Lemma calm_token P h key : ccalm P h (resolveAnonymousSessionToken store key).
Proof. apply calm_any. intros HP. unfold resolveAnonymousSessionToken. calm_prog. Qed.

Section saving.
Context (key : DraftKey) (P : Cohort → Prop).
Abbreviation held := (Some (OpToken (scopeFor key))).
Hypothesis (HP : cstable held P).

Lemma calm_saveOnce response guard :
  (∀ c, P c → may_write key response c) → cguards guard → ccalm P held (saveOnce store key response guard).
Proof.
  intros Hw Hg. unfold saveOnce. apply calm_get. intros c0.
  apply calm_bind; [done|calm_prog|]. intros existing.
  apply calm_bind; [done|destruct (respondentSubjectRef key); [apply calm_ret|apply calm_token]|]. intros token.
  apply calm_bind; [done|eapply calm_checks, checks_store|]. intros _.
  destruct existing as [existing|].
  - apply calm_bind; [done| |intros update; apply calm_bind; [done|eapply calm_checks, checks_store|]; intros _; calm_prog].
    eapply calm_requestJson; [done|done|apply checks_store|done|]. intros c t _ HPc _.
    apply (may_write_justified _ response); [by apply Hw|]. left. by exists existing.
  - apply calm_bind; [done|apply calm_refuse_when|]. intros _. unfold createDraft.
    apply calm_bind; [done| |intros draft; apply calm_bind; [done|eapply calm_checks, checks_store|]; intros _; calm_prog].
    eapply calm_requestJson; [done|done|apply checks_store|done|]. intros c t _ HPc _.
    apply (may_write_justified _ response); [by apply Hw|]. right. by exists token.
Qed.

Lemma calm_store_save response guard :
  (∀ c, P c → may_write key response c) → cguards guard → ccalm P held (store_save store key response guard).
Proof.
  intros Hw Hg. unfold store_save. apply calm_get. intros c0. apply calm_bind; [done|calm_prog|]. intros _.
  apply calm_bind; [done|calm_prog|]. intros id. apply calm_bind; [done|calm_prog|]. intros _.
  apply calm_finally; [done|by apply calm_saveOnce|]. intros c. apply frame_drafts.
Qed.

(** ** Reading *)

Lemma calm_getJson φ path options :
  cchecks (option_assertCurrent options) φ → cguards (option_assertBeforeDispatch options) →
  ccalm P held (getJson (store_client store) key path options).
Proof. intros Hc Hg. eapply calm_requestJson; [done|done|exact Hc|done|]. intros. by apply JustRead. Qed.

Lemma calm_store_read {A} (qualify : jsv → prog A) current φ missing selection :
  cchecks current φ → (∀ view, ccalm P held (qualify view)) →
  ccalm P held (store_read store key qualify current missing selection).
Proof.
  intros Hc Hq. unfold store_read. apply calm_get. intros c0.
  assert (∀ g, ccalm P held (read_current current g)) as Hrc.
  { intros g. eapply calm_checks, checks_read_current, Hc. }
  apply calm_bind; [done|apply Hrc|]. intros _. apply calm_bind; [done|calm_prog|]. intros previous.
  apply calm_bind; [done|calm_prog|]. intros _.
  destruct (match previous with Some p => Some p | None => _ end) as [binding|]; [|apply calm_ret].
  apply calm_settle; [done| |].
  - apply calm_bind; [done|apply calm_token|]. intros token. apply calm_bind; [done|apply Hrc|]. intros _.
    apply calm_bind; [done|eapply calm_getJson; [eapply checks_read_current, Hc|apply guards_none]|]. intros view.
    calm_prog.
  - intros [v|e]; [apply calm_ret|]. apply calm_bind; [done|apply Hrc|]. intros _. calm_prog.
Qed.
Lemma calm_store_load current φ : cchecks current φ → ccalm P held (store_load store key current).
Proof. intros Hc. eapply calm_store_read; [done|]. intros view. calm_prog. Qed.
End saving.

(** ** Clearing *)

Lemma clear_stable s : cstable (Some (ClearToken s)) (λ c, op_pending s c = None).
Proof.
  intros c c' (_ & _ & Hh) _ E. specialize (Hh _ eq_refl). simpl in Hh. destruct (held_quiet _ _ _ Hh) as [Eq|Eq]; congruence.
Qed.

Lemma calm_store_delete key :
  ccalm (λ c, op_pending (scopeFor key) c = None) (Some (ClearToken (scopeFor key))) (store_delete store key).
Proof.
  pose proof (clear_stable (scopeFor key)) as HP. unfold store_delete. apply calm_bind; [done|calm_prog|]. intros _.
  apply calm_finally; [done| |intros c; apply frame_drafts].
  apply calm_get. intros c0. apply calm_bind; [done|by apply calm_invoke|]. intros _.
  apply calm_bind; [done|calm_prog|]. intros _. unfold clear_anonymous. calm_step; [|calm_prog].
  apply calm_bind; [done|calm_prog|]. intros entries. by apply calm_invoke.
Qed.

Lemma calm_store_list P h subject : ccalm P h (store_list subject).
Proof. apply calm_any. intros HP. unfold store_list. calm_prog. Qed.

Lemma calm_store_retire P h subject : ccalm P h (store_retireSubject subject).
Proof.
  apply calm_any. intros HP. unfold store_retireSubject. apply calm_bind; [done|calm_prog|]. intros _.
  apply calm_finally; [done| |intros c; apply frame_drafts]. calm_prog.
Qed.

(** ** Owned reads *)

Lemma calm_markers P h : ccalm P h markers.
Proof. apply calm_any. intros HP. unfold markers, valid_list. calm_prog. Qed.

Lemma calm_createMarkers P h : ccalm P h createMarkers.
Proof. apply calm_any. intros HP. unfold createMarkers, valid_list. calm_prog. Qed.

Lemma calm_writeCreateMarkers P h l : ccalm P h (writeCreateMarkers l).
Proof.
  unfold writeCreateMarkers, write_list, on_metadata. intros c Hg _. apply keeps_get.
  assert ((match l with [] => slot_remove create_slot | _ => slot_write create_slot (JArr l) end (metadata c)).2 !! sign_slot =
          metadata c !! sign_slot) as Hm by (destruct l; [by apply slot_remove_other|by apply slot_write_other]).
  destruct (match l with [] => _ | _ => _ end (metadata c)) as [[u|e] m]; simpl in Hm.
  - apply keeps_modify; [done| |done]. split; simpl; try done. apply (left_id_L ∅ (∪)).
  - eapply keeps_bind; [apply keeps_modify with (R := λ _ _, True); [done|by split|done]|].
    intros _ c' Hr _. apply keeps_refuse. by eapply good_rely.
Qed.

Lemma calm_pendingMarkerFor P h key draftId : ccalm P h (pendingMarkerFor key draftId).
Proof.
  apply calm_any. intros HP. unfold pendingMarkerFor. pose proof (calm_markers (λ _, True) h). pose proof (calm_createMarkers (λ _, True) h).
  calm_prog.
Qed.

Lemma calm_refuseUnresolved P h key : ccalm P h (refuseUnresolved key).
Proof.
  apply calm_any. intros HP. unfold refuseUnresolved. pose proof (calm_markers (λ _, True) h). pose proof (calm_createMarkers (λ _, True) h).
  calm_prog.
Qed.

Lemma calm_hasPending P h key : ccalm P h (hasPending key).
Proof. apply calm_any. intros HP. unfold hasPending. pose proof (calm_markers (λ _, True) h). calm_prog. Qed.

Lemma calm_assertEditable P h key : ccalm P h (assertEditable key).
Proof. apply calm_refuseUnresolved. Qed.

Lemma calm_current P h context : ccalm P h (ResponseSigning.current context).
Proof. eapply calm_checks, checks_current. Qed.

Lemma calm_ownerFor P h key : ccalm P h (ownerFor config key).
Proof. apply calm_any. intros HP. unfold ownerFor. calm_prog. Qed.

Lemma calm_validateView P h context id view actor : ccalm P h (validateView config context id view actor).
Proof. apply calm_any. intros HP. unfold validateView. calm_prog. Qed.

Lemma calm_handoffHash P h response : ccalm P h (handoffHash response).
Proof. apply calm_any. intros HP. unfold handoffHash. calm_prog. Qed.

Lemma calm_verifiedRead P h key evidence : ccalm P h (savedResponseDraftFromVerifiedRead key evidence).
Proof.
  apply calm_any. intros HP. unfold savedResponseDraftFromVerifiedRead. pose proof (calm_handoffHash (λ _, True) h). calm_prog.
Qed.

Lemma calm_savedResult P h key view : ccalm P h (savedResult key view).
Proof. apply calm_verifiedRead. Qed.

Lemma calm_bind_view P h key view : ccalm P h (bind_view key view).
Proof. apply calm_on_registry. auto with calm. Qed.

Lemma calm_consistency P h response : ccalm P h (assertDelegatedSignedResponseConsistency config response).
Proof. apply calm_any. intros HP. unfold assertDelegatedSignedResponseConsistency. calm_prog. Qed.

Lemma calm_validateUnsigned P h input : ccalm P h (validateUnsigned input).
Proof. apply calm_any. intros HP. unfold validateUnsigned. calm_prog. Qed.
End safety.

#[export] Hint Resolve calm_token calm_store_list calm_store_retire calm_markers calm_createMarkers calm_writeCreateMarkers
  calm_pendingMarkerFor calm_refuseUnresolved calm_hasPending calm_assertEditable calm_current calm_ownerFor calm_validateView
  calm_handoffHash calm_verifiedRead calm_savedResult calm_bind_view calm_consistency calm_validateUnsigned : calm.

Section reads.
Context `{Forms : !FormIds, Json : !JsonText, Meta : !MetadataPolicy, Can : !Canonicalize, Eng : !Engine,
  Uuid : !UuidPackage, Dig : !Digest, Hand : !HandoffBytes, Pack : !SigningPackages}.
Context (config : CohortConfig) (home : string → string).

Abbreviation ccalm := (calm config home).
Abbreviation cstable := (stable config home).

Section context.
Context (context : PreparationContext).
Abbreviation key := (in_draftKey (context_input context)).
Abbreviation held := (Some (OpToken (scopeFor key))).

Lemma calm_read P id : ccalm P held (read config context id).
Proof.
  apply calm_any. intros HP. unfold read. apply calm_bind; [done|eauto with calm|]. intros [token subject].
  apply calm_bind; [done|eauto with calm|]. intros _. apply calm_bind; [done| |intros view; calm_prog].
  apply calm_settle; [done|eapply calm_getJson; [done|apply checks_current|apply guards_none]|]. intros o. calm_prog.
Qed.

Lemma calm_save_or_continue P response guard :
  cstable held P → (∀ c, P c → may_write home key response c) → guards config home guard →
  ccalm P held (save_or_continue config context response guard).
Proof.
  intros HP Hw Hg. unfold save_or_continue. apply calm_settle; [done|by apply calm_store_save|]. intros o. calm_prog.
Qed.
End context.

Lemma calm_acceptSigned P h act view : ccalm P h (acceptSigned config act view).
Proof.
  apply calm_any. intros HP. unfold acceptSigned. calm_prog.
Qed.
End reads.

#[export] Hint Resolve calm_read calm_save_or_continue calm_acceptSigned : calm.
