(* ===== verification/FenceSafety.v ===== *)
(** * Running and clearing a scope

    What [fence_run] and [fence_clear] ask of the operation they run, and what
    they keep: an operation starts only when its scope is neither running nor
    being cleared, holds the scope's fence until it has settled, and gives it
    back; clearing waits for the operation under way.  [works] is what is asked
    of the parts of an operation that change its scope's markers and acts. *)

From S2P Require Import Prelude JsValue JsMap Async AsyncTokens BrowserStorage ScopedMetadata IdempotencyKey DraftKeys ResponseAction CohortState HttpClient DraftBindings SigningFence HttpDraftStore ResponseSigning SigningOperations SigningRecovery HttpCohort CohortConditions CohortCalculus HttpDraftSafety.

Section fence.
Context `{Forms : !FormIds, Json : !JsonText, Meta : !MetadataPolicy, Can : !Canonicalize, Eng : !Engine,
  Uuid : !UuidPackage, Dig : !Digest, Hand : !HandoffBytes, Pack : !SigningPackages}.
Context (config : CohortConfig) (home : string → string).

Abbreviation conds := (cohort_conditions config home).
Abbreviation ctok := (tok (@yields) (@answers home) conds).
Abbreviation crely := (trely conds).
Abbreviation cguar := (tguarantee conds).
Abbreviation cgood := (good config home).
Abbreviation cinv := (cohort_inv home).
Abbreviation ckeeps := (keeps config home).

(** ** Working with a token *)

(** What a token's holder keeps of the fence. *)
Definition token_kept (k : token) (c c' : Cohort) : Prop :=
  match k with OpToken s => op_pending s c' = op_pending s c | ClearToken s => clear_held s c c' end.

Record during (h : option token) (c c' : Cohort) : Prop := {
  during_inv : cinv c';
  during_mono : cohort_mono home c c';
  during_kept k : h = Some k → token_kept k c c'
}.

Definition works {A} (m : prog A) (h : option token) (c : Cohort) (R : A → Cohort → Prop) : Prop :=
  ctok m h c (λ h' o c', h' = h ∧ during h c c' ∧ match o with Returns a => R a c' | Throws _ => True end).

#[local] Instance token_kept_preorder k : PreOrder (token_kept k).
Proof.
  destruct k as [s|s]; simpl.
  - split; [done|]. intros c1 c2 c3 E1 E2. simpl in *. congruence.
  - apply (cohort_held_preorder home (ClearToken s)).
Qed.

Lemma during_refl h c : cinv c → during h c c.
Proof. intros Hi. split; [done|done|]. by intros k _. Qed.

Lemma during_trans h c1 c2 c3 : during h c1 c2 → during h c2 c3 → during h c1 c3.
Proof. intros [I1 M1 P1] [I2 M2 P2]. split; [done|by transitivity c2|]. intros k E. transitivity c2; auto. Qed.

Lemma during_rely h c c' : crely h c c' → during h c c'.
Proof.
  intros (Hi & Hm & Hh). split; [done|done|]. intros [s|s] E; simpl; specialize (Hh _ E); simpl in Hh; [|done].
  by apply (held_pending _ _ _ _ Hh).
Qed.

Lemma during_good h c c' : during h c c' → cgood h c → cgood h c'.
Proof.
  intros [Hi _ Hp] [_ Ho]. split; [done|]. intros k E. specialize (Ho _ E). specialize (Hp _ E). destruct k as [s|s]; simpl in *.
  - apply bool_decide_eq_true_2. rewrite Hp. by apply bool_decide_eq_true_1 in Ho.
  - apply bool_decide_eq_true_2, (held_clearing _ _ _ Hp). by apply bool_decide_eq_true_1 in Ho.
Qed.

Lemma keeps_works {A} (m : prog A) h c R : ckeeps m h c R → works m h c R.
Proof. apply tok_weaken. intros h' o c' (E & Hr & HR). split; [done|]. split; [by apply during_rely|done]. Qed.

Lemma works_weaken {A} (m : prog A) h c (R R' : A → Cohort → Prop) :
  (∀ a c', during h c c' → R a c' → R' a c') → works m h c R → works m h c R'.
Proof. intros HR. apply tok_weaken. intros h' [a|e] c' (E & Hd & HQ); (split; [done|]); (split; [done|]); auto. Qed.

Lemma works_later {A} (m : prog A) h c0 c (R : A → Cohort → Prop) :
  during h c0 c → works m h c R →
  ctok m h c (λ h' o c', h' = h ∧ during h c0 c' ∧ match o with Returns a => R a c' | Throws _ => True end).
Proof.
  intros Hd. apply tok_weaken. intros h' o c' (E & Hd' & HQ). split; [done|]. split; [by eapply during_trans|done].
Qed.

Lemma works_bind {A B} (m : prog A) (f : A → prog B) h c (R1 : A → Cohort → Prop) (R : B → Cohort → Prop) :
  works m h c R1 → (∀ a c', during h c c' → R1 a c' → works (f a) h c' R) → works (m ≫= f) h c R.
Proof.
  intros Hm Hf. apply tok_bind. eapply tok_weaken; [|exact Hm]. intros h' [a|e] c' (-> & Hd & HR); [|done].
  apply (works_later _ h c c'); [done|]. by apply Hf.
Qed.

(** A part that changes nothing protected, and then the rest. *)
Lemma works_after {A B} (m : prog A) (f : A → prog B) h c (R1 : A → Cohort → Prop) (R : B → Cohort → Prop) :
  ckeeps m h c R1 →
  (∀ a c', crely h c c' → R1 a c' → works (f a) h c' R) → works (m ≫= f) h c R.
Proof.
  intros Hm Hf. apply tok_bind. eapply tok_weaken; [|exact Hm]. intros h' [a|e] c' (-> & Hr & HR).
  - apply (works_later _ h c c'); [by apply during_rely|]. by apply Hf.
  - split; [done|]. split; [by apply during_rely|done].
Qed.

Lemma works_settle {A B} (m : prog A) (f : outcome cohort_failure A → prog B) h c (R1 : A → Cohort → Prop) (R : B → Cohort → Prop) :
  works m h c R1 →
  (∀ a c', during h c c' → R1 a c' → works (f (Returns a)) h c' R) →
  (∀ e c', during h c c' → works (f (Throws e)) h c' R) → works (settle m f) h c R.
Proof.
  intros Hm Hf He. apply tok_settle. eapply tok_weaken; [|exact Hm]. intros h' [a|e] c' (-> & Hd & HR);
    (apply (works_later _ h c c'); [done|]); [by apply Hf|by apply He].
Qed.

Lemma works_ret {A} (a : A) h c (R : A → Cohort → Prop) : cinv c → R a c → works (mret a) h c R.
Proof. intros Hi HR. split; [done|]. split; [by apply during_refl|done]. Qed.

Lemma works_done {A} (o : outcome cohort_failure A) h c : cinv c → works (of_outcome o) h c (λ _ _, True).
Proof. intros Hi. split; [done|]. split; [by apply during_refl|by destruct o]. Qed.

Lemma works_modify f h c (R : unit → Cohort → Prop) :
  cguar h h c (f c) → during h c (f c) → R () (f c) → works (modify f) h c R.
Proof. intros Hg Hd HR. exists h. split; [done|]. by split. Qed.

(** The first steps of a program that takes a token. *)
Lemma tok_get {B} (f : Cohort → prog B) h c Q : ctok (f c) h c Q → ctok (get ≫= f) h c Q.
Proof. done. Qed.

Lemma tok_unless {B} b e (m : prog B) h c (Q : option token → outcome cohort_failure B → Cohort → Prop) :
  Q h (Throws e) c → (b = false → ctok m h c Q) → ctok (refuse_when b e ;; m) h c Q.
Proof. intros Ht Hf. destruct b; [exact Ht|by apply Hf]. Qed.

Lemma tok_modify {B} f (m : prog B) h h' c Q :
  cguar h h' c (f c) → ctok m h' (f c) Q → ctok (modify f ;; m) h c Q.
Proof. intros Hg Hm. by exists h'. Qed.

(** ** Fence changes *)

Lemma inv_with_fence f c : cinv c → cinv (with_fence f c).
Proof. intros [Hm Ha Hp]. split; [done| |done]. intros op a E. destruct (Ha op a E) as []. by split. Qed.

Lemma held_with_fence s f c : op_pending s (with_fence f c) = op_pending s c → op_held home s c (with_fence f c).
Proof. intros E. by split. Qed.

Lemma mono_with_fence f c :
  (∀ s, (generation_of s c ≤ generation_of s (with_fence f c))%N) →
  (∀ s, generation_of s c = generation_of s (with_fence f c) → ¬ clearing s c → ¬ clearing s (with_fence f c)) →
  cohort_mono home c (with_fence f c).
Proof. intros Hg Hc. split; [done|done|]. intros op a _ _ Ha. by exists a. Qed.

(** Taking the fence of a scope. *)
Definition take_fence (s : string) (id : N) (c : Cohort) : Cohort := set_pending_in s id (with_next c).

Lemma take_fence_pending s t id c : op_pending t (take_fence s id c) = if decide (t = s) then Some id else op_pending t c.
Proof.
  unfold op_pending, take_fence, set_pending_in. simpl. destruct (decide (t = s)) as [->|Hts].
  - apply lookup_insert_eq.
  - by apply lookup_insert_ne.
Qed.

Lemma take_fence_inv s id c : cinv c → cinv (take_fence s id c).
Proof. intros Hi. unfold take_fence, set_pending_in. apply inv_with_fence. eapply frame_inv; [done|]. apply frame_next. Qed.

Lemma take_fence_guarantee s id c :
  cinv c → op_pending s c = None → ¬ clearing s c → cguar None (Some (OpToken s)) c (take_fence s id c).
Proof.
  intros Hi Hp Hc. split; [by apply take_fence_inv|]. split.
  - split; [done|done|]. intros op a _ _ Ha. by exists a.
  - intros k. unfold token_moves. simpl. destruct (decide (Some (OpToken s) = Some k)) as [[= <-]|Hk].
    + simpl. rewrite take_fence_pending, decide_True by done. rewrite Hp.
      split; [by apply bool_decide_eq_true_2|]. intros _. by apply bool_decide_eq_false_2; intros [].
    + destruct k as [t|t]; simpl.
      * assert (t ≠ s) by congruence. assert (op_pending t (take_fence s id c) = op_pending t c) as E.
        { by rewrite take_fence_pending, decide_False. }
        split; [by rewrite E|]. intros _. split; [done|done|done|done].
      * split; [by apply bool_decide_ext|]. intros Ht%bool_decide_eq_true_1. split; [done|].
        rewrite take_fence_pending, decide_False; [by left|]. by intros ->.
Qed.

Lemma release_pending s t id c : op_pending s c = Some id →
  op_pending t (release_in s id c) = if decide (t = s) then None else op_pending t c.
Proof.
  intros Hp. unfold release_in. rewrite decide_True by done. unfold op_pending. simpl. destruct (decide (t = s)) as [->|Hts].
  - apply lookup_delete_eq.
  - by apply lookup_delete_ne.
Qed.

Lemma release_guarantee s id c :
  cinv c → op_pending s c = Some id → cguar (Some (OpToken s)) None c (release_in s id c).
Proof.
  intros Hi Hp. pose proof (λ t, release_pending s t id c Hp) as Ht.
  assert (∃ f, release_in s id c = with_fence f c ∧ fence_generations (fence (with_fence f c)) = fence_generations (fence c) ∧
          fence_clearing (fence (with_fence f c)) = fence_clearing (fence c)) as (f & E & Eg & Ec).
  { unfold release_in. rewrite decide_True by done. by eexists. }
  rewrite E in *. split; [by apply inv_with_fence|]. split.
  - apply mono_with_fence; intros t; unfold generation_of, clearing; by rewrite ?Eg, ?Ec.
  - intros k. unfold token_moves. simpl.
    destruct (decide (Some (OpToken s) = Some k)) as [[= <-]|Hk].
    + simpl. rewrite Ht, decide_True by done. by apply bool_decide_eq_false_2; intros [].
    + destruct k as [t|t]; simpl.
      * assert (op_pending t (with_fence f c) = op_pending t c) as Et by (rewrite Ht, decide_False; [done|congruence]).
        split; [by rewrite Et|]. intros _. by apply held_with_fence.
      * split; [by apply bool_decide_ext; unfold clearing; rewrite Ec|]. intros _. split; [unfold clearing; by rewrite Ec|].
        rewrite Ht. case_decide; auto.
Qed.

(** ** Running *)

(** What an operation may count on when it starts: it holds the fence, and the
    acts of its scope are as they were when it was called. *)
Definition starts (s : string) (c c' : Cohort) : Prop :=
  cgood (Some (OpToken s)) c' ∧ (∀ op, home op = s → same_act op c c').

Lemma works_fence_run {A} key (operation : N → prog A) c :
  cinv c →
  (∀ c', starts (scopeFor key) c c' → works (operation (capture key c)) (Some (OpToken (scopeFor key))) c' (λ _ _, True)) →
  works (fence_run key operation) None c (λ _ _, True).
Proof.
  intros Hi Hop. set (s := scopeFor key). unfold fence_run. fold s. apply tok_get, tok_unless.
  { split; [done|]. split; [by apply during_refl|done]. }
  intros [Ec%bool_decide_eq_false_1 Ep%bool_decide_eq_false_1]%orb_false_elim. apply eq_None_not_Some in Ep.
  pose proof (take_fence_guarantee s (nextId c) c Hi Ep Ec) as Hg0.
  eapply (tok_modify (take_fence s (nextId c))); [exact Hg0|]. set (c0 := take_fence s (nextId c) c) in *.
  assert (op_pending s c0 = Some (nextId c)) as Hp by by unfold c0; rewrite take_fence_pending, decide_True.
  assert (cgood (Some (OpToken s)) c0) as Hg.
  { split; [apply Hg0|]. intros k [= <-]. simpl. rewrite Hp. by apply bool_decide_eq_true_2. }
  apply tok_settle. eapply tok_weaken.
  2:{ assert (works (invoke Turn ;; value ← operation (capture key c); invoke Turn ;; assertCurrent key (capture key c) ;; mret value)
        (Some (OpToken s)) c0 (λ _ _, True)) as Hw; [|exact Hw].
      eapply works_after; [by apply (calm_turn config home (λ _, True))|]. intros _ c1 Hr1 _. assert (cgood (Some (OpToken s)) c1) as Hg1 by by eapply good_rely.
      eapply works_bind; [apply Hop; split; [done|]|].
      { intros op Eop. destruct Hr1 as (_ & _ & Hh). apply (held_acts _ _ _ _ (Hh _ eq_refl) op Eop). }
      intros v c2 Hd2 _. assert (cgood (Some (OpToken s)) c2) as Hg2 by by eapply during_good.
      apply keeps_works. eapply (calm_keeps _ _ (λ _, True)); [|done|done].
      pose proof (stable_true config home (Some (OpToken s))). calm_prog. eapply calm_checks, checks_current. }
  intros h' o c1 (-> & Hd & _). assert (during None c c1) as Hd0.
  { destruct Hd as [I1 M1 P1]. split; [done| |done]. etransitivity; [apply Hg0|exact M1]. }
  assert (op_pending s c1 = Some (nextId c)) as Hp1.
  { rewrite (during_kept _ _ _ Hd (OpToken s) eq_refl). done. }
  split; [done|]. intros c2 a (Hi2 & Hm2 & Hh2) Ha. simpl in Ha. subst a.
  assert (op_pending s c2 = Some (nextId c)) as Hp2 by by rewrite (held_pending _ _ _ _ (Hh2 _ eq_refl)).
  exists None. split; [by apply release_guarantee|]. split; [done|]. split; [|by destruct o].
  pose proof (release_guarantee s (nextId c) c2 Hi2 Hp2) as (Hi3 & Hm3 & _).
  split; [done| |done]. etransitivity; [apply Hd0|]. by etransitivity; [exact Hm2|].
Qed.

(** ** Clearing *)

Lemma begin_clearing_guarantee key c :
  cinv c → ¬ clearing (scopeFor key) c → cguar None (Some (ClearToken (scopeFor key))) c (begin_clearing key c).
Proof.
  intros Hi Hc. set (s := scopeFor key) in *.
  assert (∀ t, generation_of t (begin_clearing key c) = if decide (t = s) then (generation_of s c + 1)%N else generation_of t c) as Hgen.
  { intros t. unfold begin_clearing, invalidate_in, generation_of. simpl. fold s. destruct (decide (t = s)) as [->|Ht].
    - by rewrite lookup_insert_eq.
    - by rewrite lookup_insert_ne. }
  assert (∀ t, clearing t (begin_clearing key c) ↔ t = s ∨ clearing t c) as Hcl.
  { intros t. unfold clearing, begin_clearing, invalidate_in. simpl. rewrite elem_of_union, elem_of_singleton. done. }
  split; [by do 2 apply inv_with_fence|]. split.
  - split.
    + intros t. rewrite Hgen. case_decide; subst; lia.
    + intros t. rewrite Hgen, Hcl. case_decide; subst; [lia|tauto].
    + intros op a _ _ Ha. by exists a.
  - intros k. unfold token_moves. simpl. destruct (decide (Some (ClearToken s) = Some k)) as [[= <-]|Hk].
    + split; [by apply bool_decide_eq_true_2, Hcl; left|]. intros _. by apply bool_decide_eq_false_2.
    + destruct k as [t|t]; simpl.
      * split; [done|]. intros _. by split.
      * assert (t ≠ s) by congruence. split; [apply bool_decide_ext; rewrite Hcl; tauto|]. intros _. split; [rewrite Hcl; tauto|by left].
Qed.

Lemma end_clearing_guarantee s c : cinv c → cguar (Some (ClearToken s)) None c (end_clearing s c).
Proof.
  intros Hi. assert (∀ t, clearing t (end_clearing s c) ↔ clearing t c ∧ t ≠ s) as Hcl.
  { intros t. unfold clearing, end_clearing. simpl. by rewrite elem_of_difference, elem_of_singleton. }
  split; [by apply inv_with_fence|]. split.
  - apply mono_with_fence; [done|]. intros t _. fold (end_clearing s c). rewrite Hcl. tauto.
  - intros k. unfold token_moves. simpl.
    destruct (decide (Some (ClearToken s) = Some k)) as [[= <-]|Hk].
    + apply bool_decide_eq_false_2. rewrite Hcl. tauto.
    + destruct k as [t|t]; simpl.
      * split; [done|]. intros _. by split.
      * assert (t ≠ s) by congruence. split; [apply bool_decide_ext; rewrite Hcl; tauto|]. intros _. split; [rewrite Hcl; tauto|by left].
Qed.

Lemma keeps_await_pending s c :
  cgood (Some (ClearToken s)) c → ckeeps (await_pending s) (Some (ClearToken s)) c (λ _ c', op_pending s c' = None).
Proof.
  intros Hg. apply keeps_get. fold (op_pending s c). destruct (op_pending s c) as [id|] eqn:E.
  - apply keeps_invoke; [done|done|]. simpl. intros c' a (_ & _ & Hh) [_ Ha]. specialize (Hh _ eq_refl). simpl in Hh.
    destruct (held_quiet _ _ _ Hh) as [Eq|Eq]; [|done]. unfold op_pending in *. congruence.
  - apply keeps_invoke; [done|done|]. simpl. intros c' a Hr _. by eapply clear_stable.
Qed.

Lemma works_fence_clear key (operation : prog unit) c :
  cinv c →
  (∀ c', cgood (Some (ClearToken (scopeFor key))) c' → op_pending (scopeFor key) c' = None →
     works operation (Some (ClearToken (scopeFor key))) c' (λ _ _, True)) →
  works (fence_clear key operation) None c (λ _ _, True).
Proof.
  intros Hi Hop. set (s := scopeFor key) in *. unfold fence_clear. fold s. apply tok_get, tok_unless.
  { split; [done|]. split; [by apply during_refl|done]. }
  intros Ec%bool_decide_eq_false_1. pose proof (begin_clearing_guarantee key c Hi Ec) as Hg0. fold s in Hg0.
  eapply tok_modify; [exact Hg0|]. set (c0 := begin_clearing key c) in *.
  assert (cgood (Some (ClearToken s)) c0) as Hg.
  { split; [apply Hg0|]. intros k [= <-]. destruct Hg0 as (_ & _ & Hk). specialize (Hk (ClearToken s)).
    unfold token_moves in Hk. rewrite decide_True in Hk by done. apply Hk. }
  apply tok_settle. eapply tok_weaken.
  2:{ assert (works (await_pending s ;; operation) (Some (ClearToken s)) c0 (λ _ _, True)) as Hw; [|exact Hw].
      eapply works_after; [by apply keeps_await_pending|]. intros [] c1 Hr1 Hpn. apply Hop; [by eapply good_rely|exact Hpn]. }
  intros h' o c1 (-> & Hd & _). pose proof (end_clearing_guarantee s c1 (during_inv _ _ _ Hd)) as Hg1.
  exists None. split; [done|]. split; [done|]. split; [|by destruct o].
  split; [apply Hg1| |done]. etransitivity; [apply Hg0|]. etransitivity; [apply Hd|apply Hg1].
Qed.
End fence.
