(* ===== verification/MarkerSafety.v ===== *)
(** * The signing markers and acts

    What the holder of a scope's fence, or of its clearing, may do to the
    scope's markers and acts, and that every write of [ResponseSigning],
    [SigningOperations] and [SigningRecovery] is of that kind: the marker of a
    frozen act is written before the act is known, and an act whose marker is
    removed or replaced has its result or is superseded. *)

From S2P Require Import Prelude JsValue JsMap Async AsyncTokens BrowserStorage ScopedMetadata IdempotencyKey DraftKeys ResponseAction CohortState HttpClient DraftBindings SigningFence HttpDraftStore ResponseSigning SigningOperations SigningRecovery HttpCohort CohortConditions CohortCalculus HttpDraftSafety FenceSafety.

Section markers.
Context `{Forms : !FormIds, Json : !JsonText, Meta : !MetadataPolicy, Can : !Canonicalize, Eng : !Engine,
  Uuid : !UuidPackage, Dig : !Digest, Hand : !HandoffBytes, Pack : !SigningPackages}.
Context (config : CohortConfig) (home : string → string).

Abbreviation conds := (cohort_conditions config home).
Abbreviation crely := (trely conds).
Abbreviation cguar := (tguarantee conds).
Abbreviation cgood := (good config home).
Abbreviation cinv := (cohort_inv home).
Abbreviation ckeeps := (keeps config home).
Abbreviation cworks := (works config home).
Abbreviation cduring := (during home).
Abbreviation home_marker := (marker_home home).

(** ** Reading the markers *)

Lemma keeps_markers h c :
  cgood h c → ckeeps markers h c (λ l c', c' = c ∧ l = signing_list c ∧ Forall (λ m, marker_valid m = true) l).
Proof.
  intros Hg. unfold markers, read_slot. apply keeps_bind with (R1 := λ v c', c' = c ∧ v = default JUndef (metadata c !! sign_slot)).
  { apply keeps_get, keeps_done; [done|]. unfold slot_read. destruct (throw_when _ _) as [[]|e]; [|done]. by intros v [= <-]. }
  intros v c' _ [-> Ev]. unfold signing_list. rewrite <- Ev. destruct v as [| |b|n|s|l|o]; try by apply keeps_refuse.
  - apply keeps_ret; [done|]. split; [done|]. split; [done|]. by constructor.
  - unfold valid_list. eapply keeps_bind with (R1 := λ _ c', c' = c ∧ Forall (λ m, marker_valid m = true) l).
    + apply keeps_refuse_when; [done|]. intros E%negb_false_iff. split; [done|]. apply Forall_forall. intros m Hm.
      rewrite forallb_forall in E. apply E. by apply list_elem_of_In.
    + intros [] c' _ [-> Hv]. by apply keeps_ret.
Qed.

Lemma in_scope_spec s m : in_scope s m = true ↔ prop m "scope" = JStr s.
Proof.
  unfold in_scope, is_lit. destruct (prop m "scope"); try done. split; [by intros <-%String.eqb_eq|].
  intros [= ->]. apply String.eqb_refl.
Qed.

Lemma filter_nil_existsb {A} (f : A → bool) l : existsb f l = false → List.filter f l = [].
Proof. induction l as [|a l IH]; simpl; [done|]. destruct (f a); [done|]. auto. Qed.

Lemma scope_markers_in s c m : m ∈ scope_markers s c → m ∈ signing_list c ∧ prop m "scope" = JStr s.
Proof. unfold scope_markers. rewrite list_elem_of_In, filter_In, <- list_elem_of_In, in_scope_spec. done. Qed.

(** The one marker of a scope, as [pendingMarkerFor] gives it. *)
Record the_marker (s : string) (m : jsv) (c : Cohort) : Prop := {
  the_marker_only : scope_markers s c = [m];
  the_marker_valid : marker_valid m = true;
  the_marker_home : home_marker m
}.

Lemma the_marker_scope s m c : the_marker s m c → m ∈ signing_list c ∧ prop m "scope" = JStr s.
Proof. intros [E _ _]. apply scope_markers_in. rewrite E. by left. Qed.

Lemma the_marker_rely s m c c' : crely (Some (OpToken s)) c c' → the_marker s m c → the_marker s m c'.
Proof.
  intros (_ & _ & Hh) [E Hv Hm]. split; [|done|done]. by rewrite (held_markers _ _ _ _ (Hh _ eq_refl)).
Qed.

Lemma keeps_createMarkers h c : cgood h c → ckeeps createMarkers h c (λ _ c', c' = c).
Proof.
  intros Hg. unfold createMarkers, read_slot. eapply keeps_bind with (R1 := λ _ c', c' = c).
  { apply keeps_get. by apply keeps_done. }
  intros v c' _ ->. destruct v as [| |b|n|s|l|o]; try by apply keeps_refuse.
  - by apply keeps_ret.
  - eapply keeps_bind with (R1 := λ _ c', c' = c); [by apply keeps_refuse_when|]. intros [] c' _ ->. by apply keeps_ret.
Qed.

Lemma keeps_pendingMarkerFor h c key draftId :
  cgood h c → ckeeps (pendingMarkerFor key draftId) h c (λ m c', c' = c ∧ the_marker (scopeFor key) m c ∧ prop m "draftId" = JStr draftId).
Proof.
  intros Hg. unfold pendingMarkerFor. eapply keeps_bind; [by apply keeps_markers|]. intros l c' _ (-> & El & Hv).
  eapply keeps_bind; [by apply keeps_createMarkers|]. intros l' c' _ ->.
  eapply keeps_bind with (R1 := λ _ c', c' = c); [by apply keeps_refuse_when|]. intros [] c' _ ->.
  assert (List.filter (in_scope (scopeFor key)) l = scope_markers (scopeFor key) c) as -> by (by subst l).
  destruct (scope_markers (scopeFor key) c) as [|m [|? ?]] eqn:Em; [by apply keeps_refuse| |by apply keeps_refuse].
  eapply keeps_bind with (R1 := λ _ c', c' = c ∧ prop m "draftId" = JStr draftId).
  - apply keeps_refuse_when; [done|]. intros [E _]%orb_false_elim. split; [done|]. apply negb_false_iff in E.
    unfold is_lit in E. destruct (prop m "draftId"); try done. by apply String.eqb_eq in E as ->.
  - intros [] c' _ [-> Ed]. apply keeps_ret; [done|]. split; [done|]. split; [|done].
    destruct (scope_markers_in (scopeFor key) c m) as [Hin _]; [rewrite Em; by left|]. split; [done| |].
    + subst l. rewrite Forall_forall in Hv. by apply Hv.
    + pose proof (inv_markers _ _ (proj1 Hg)) as Hm. rewrite Forall_forall in Hm. by apply Hm.
Qed.

Lemma keeps_refuseUnresolved h c key :
  cgood h c → ckeeps (refuseUnresolved key) h c (λ _ c', c' = c ∧ quiet home (scopeFor key) c).
Proof.
  intros Hg. unfold refuseUnresolved. eapply keeps_bind; [by apply keeps_createMarkers|]. intros l' c' _ ->.
  eapply keeps_bind with (R1 := λ _ c', c' = c); [by apply keeps_refuse_when|]. intros [] c' _ ->.
  eapply keeps_bind; [by apply keeps_markers|]. intros l c' _ (-> & El & Hv).
  eapply keeps_bind with (R1 := λ _ c', c' = c ∧ scope_markers (scopeFor key) c = []).
  { apply keeps_refuse_when; [done|]. intros E. split; [done|]. unfold scope_markers. subst l. by apply filter_nil_existsb. }
  intros [] c' _ [-> Em]. apply keeps_get, keeps_refuse_when; [done|]. intros E. split; [done|]. split; [done|].
  intros op a Hop Ha Hn. pose proof (act_ok_scope _ _ _ _ (inv_acts _ _ (proj1 Hg) op a Ha)) as Hs.
  apply not_true_iff_false in E. apply E. apply existsb_exists. exists (op, a). split.
  - apply list_elem_of_In, elem_of_map_to_list. done.
  - unfold unresolved_act. simpl. rewrite Hn, Hs, Hop. simpl. apply String.eqb_refl.
Qed.

(** ** Changing a scope's own state *)

(** A change of the acts and markers of [s] alone, by a thread that holds its
    fence or knows that nobody does. *)
Definition may_change (h : option token) (s : string) (c : Cohort) : Prop := h = Some (OpToken s) ∨ op_pending s c = None.

Lemma change_during h c c' : fence c' = fence c → cinv c' → cohort_mono home c c' → cduring h c c'.
Proof.
  intros Hf Hi Hm. split; [done|done|]. intros [s|s] _; simpl; unfold op_pending; [by rewrite Hf|].
  split; unfold clearing, op_pending; rewrite Hf; auto.
Qed.

Lemma change_guarantee h s c c' :
  cgood h c → may_change h s c → fence c' = fence c → cinv c' → cohort_mono home c c' →
  (∀ t, t ≠ s → op_held home t c c') → cguar h h c c'.
Proof.
  intros [Hi Ho] Hs Hf Hi' Hm Hh. split; [done|]. split; [done|]. intros k. unfold token_moves.
  assert (cohort_locked k c' = cohort_locked k c) as El.
  { destruct k; simpl; apply bool_decide_ext; unfold op_pending, clearing; by rewrite Hf. }
  simpl. rewrite El. destruct (decide (h = Some k)) as [E|E]; [by split; [apply Ho|]|]. split; [done|].
  intros Hl. destruct k as [t|t]; simpl.
  - apply Hh. intros ->. destruct Hs as [Hs|Hs]; [done|]. apply bool_decide_eq_true_1 in Hl. rewrite Hs in Hl. by destruct Hl.
  - split; unfold clearing, op_pending; rewrite Hf; auto.
Qed.

Lemma works_change (f : Cohort → Cohort) h s c (R : unit → Cohort → Prop) :
  cgood h c → may_change h s c → fence (f c) = fence c → cinv (f c) → cohort_mono home c (f c) →
  (∀ t, t ≠ s → op_held home t c (f c)) → R () (f c) → cworks (modify f) h c R.
Proof.
  intros Hg Hs Hf Hi Hm Hh HR. apply works_modify; [by eapply change_guarantee|by apply change_during|done].
Qed.

(** ** Writing the markers *)

Record marks_become (l : list jsv) (retires : gset string) (c c' : Cohort) : Prop := {
  become_fence : fence c' = fence c;
  become_markers : signing_list c' = l;
  become_acts : acts (signing c') = acts (signing c);
  become_superseded : superseded (signing c') = retires ∪ superseded (signing c);
  become_preparations : preparations (signing c') = preparations (signing c)
}.

(** What makes a rewriting of a scope's markers one that keeps the invariant. *)
Record may_mark (s : string) (l : list jsv) (retires : gset string) (c : Cohort) : Prop := {
  mark_homes : Forall home_marker l;
  mark_others t : t ≠ s → List.filter (in_scope t) l = scope_markers t c;
  mark_retires op : op ∈ retires → home op = s;
  mark_acts op a : home op = s → act_at op c = Some a → act_result a = None → op ∉ retires → ¬ retired op c →
    ∃ m, List.filter (in_scope s) l = [m] ∧ marks a m
}.

Lemma become_inv s l retires c c' : cinv c → may_mark s l retires c → marks_become l retires c c' → cinv c'.
Proof.
  intros [Hm Ha Hp] [Hhome Hother Hret Hacts] [Ef Em Ea Es Ep]. split; [by rewrite Em| |by rewrite Ep].
  intros op a E. unfold act_at in E. rewrite Ea in E. destruct (Ha op a E) as [H1' H2' H4' H3']. split; [done|done|done|].
  intros Hn Hr. unfold retired in Hr. rewrite Es, not_elem_of_union in Hr. destruct Hr as [Hr1 Hr2].
  unfold marked, scope_markers. rewrite Em. destruct (decide (home op = s)) as [<-|Hs].
  - by apply (Hacts op).
  - destruct (H3' Hn Hr2) as (m & Hs' & Hmk). exists m. by rewrite Hother.
Qed.

Lemma become_mono l retires c c' : marks_become l retires c c' → cohort_mono home c c'.
Proof.
  intros [Ef Em Ea Es Ep]. split.
  - intros s. unfold generation_of. by rewrite Ef.
  - intros s. unfold clearing. by rewrite Ef.
  - intros op a _ _ E. exists a. split; [|done]. unfold act_at. by rewrite Ea.
Qed.

Lemma become_held s t l retires c c' : may_mark s l retires c → t ≠ s → marks_become l retires c c' → op_held home t c c'.
Proof.
  intros [Hhome Hother Hret Hacts] Hts [Ef Em Ea Es Ep]. split.
  - unfold op_pending. by rewrite Ef.
  - unfold scope_markers at 1. rewrite Em. by apply Hother.
  - intros op _. unfold same_act, act_at. by rewrite Ea.
  - intros op Hop. unfold retired. rewrite Es, elem_of_union. split; [|by right]. intros [Hr|Hr]; [|done].
    destruct Hts. by rewrite <- Hop, (Hret op Hr).
Qed.

Lemma works_writeMarkers h s c l retires :
  cgood h c → may_change h s c → may_mark s l retires c →
  cworks (writeMarkers l retires) h c (λ _ c', marks_become l retires c c').
Proof.
  intros Hg Hs Hl. unfold writeMarkers, write_list, on_metadata. apply tok_get.
  set (write := match l with [] => slot_remove sign_slot | _ => slot_write sign_slot (JArr l) end).
  assert ((∃ m, write (metadata c) = (Returns (), m) ∧ arr_of (default JUndef (m !! sign_slot)) = l) ∨
          ∃ e, write (metadata c) = (Throws e, metadata c)) as [(m & -> & El)|[e ->]].
  { unfold write. destruct l as [|a l].
    - unfold slot_remove. destruct (slot_removable _ _); [left|right; by eexists].
      eexists. split; [done|]. by rewrite lookup_delete_eq.
    - unfold slot_write. destruct (slot_writable _ _ _); [left|right; by eexists].
      eexists. split; [done|]. by rewrite lookup_insert_eq. }
  - assert (marks_become l retires c (with_signing (with_superseded (retires ∪.)) (with_metadata m c))) as Hb by (by split).
    apply (works_change _ h s); [done|done|done|by eapply become_inv; [apply Hg| |]|by eapply become_mono| |done].
    intros t Ht. by eapply become_held.
  - eapply works_bind with (R1 := λ _ _, True).
    + apply keeps_works, keeps_modify; [done|by split|done].
    + intros [] c' Hd _. apply keeps_works, keeps_refuse. by eapply during_good.
Qed.

(** ** The marker of a frozen act *)

Lemma filter_filter_out s (l : list jsv) t : t ≠ s →
  List.filter (in_scope t) (List.filter (λ m, negb (in_scope s m)) l) = List.filter (in_scope t) l.
Proof.
  intros Ht. induction l as [|m l IH]; simpl; [done|]. destruct (in_scope s m) eqn:Es; simpl; rewrite IH; [|done].
  destruct (in_scope t m) eqn:Et; [|done]. apply in_scope_spec in Es, Et. congruence.
Qed.

Lemma filter_out_own s (l : list jsv) : List.filter (in_scope s) (List.filter (λ m, negb (in_scope s m)) l) = [].
Proof. induction l as [|m l IH]; simpl; [done|]. destruct (in_scope s m) eqn:Es; simpl; by rewrite ?Es. Qed.

Lemma Forall_filter_list (P : jsv → Prop) f (l : list jsv) : Forall P l → Forall P (List.filter f l).
Proof. induction 1 as [|m l Hm Hl IH]; simpl; [done|]. destruct (f m); [by constructor|done]. Qed.

Lemma in_scope_act_marker act t : in_scope t (act_marker act) = String.eqb (act_scope act) t.
Proof. done. Qed.

Lemma act_marker_home act : home (act_operationId act) = act_scope act → home_marker (act_marker act).
Proof. intros E. exists (act_scope act), (act_operationId act). by repeat split. Qed.

Lemma act_marker_marks act : marks act (act_marker act).
Proof. done. Qed.

(** The unresolved acts of the scope are those of its one marker. *)
Lemma unresolved_is_marked s m op a c :
  cinv c → the_marker s m c → home op = s → act_at op c = Some a → act_result a = None → ¬ retired op c →
  marks a m ∧ prop m "operationId" = JStr op.
Proof.
  intros Hi [Em _ _] Hop Ha Hn Hr. destruct (inv_acts _ _ Hi op a Ha) as [Hid _ _ Hm].
  destruct (Hm Hn Hr) as (m' & Em' & Hmk). rewrite Hop, Em in Em'. injection Em' as <-. split; [done|].
  destruct Hmk as [-> _]. by rewrite Hid.
Qed.

Lemma may_mark_act s l retires c act :
  cinv c → l = signing_list c → act_scope act = s → home (act_operationId act) = s → (∀ op, op ∈ retires → home op = s) →
  (∀ op a, home op = s → act_at op c = Some a → act_result a = None → op ∉ retires → ¬ retired op c → False) →
  may_mark s (List.filter (λ m, negb (in_scope s m)) l ++ [act_marker act]) retires c.
Proof.
  intros Hi -> Hs Hop Hret Hno. assert (∀ t, in_scope t (act_marker act) = String.eqb s t) as Hm.
  { intros t. by rewrite in_scope_act_marker, Hs. }
  split; [|intros t Ht|done|].
  - apply Forall_app. split; [apply Forall_filter_list, Hi|]. constructor; [|done]. apply act_marker_home. congruence.
  - rewrite List.filter_app, filter_filter_out by done. simpl. rewrite Hm.
    rewrite (proj2 (String.eqb_neq s t)) by done. by rewrite app_nil_r.
  - intros op a H1' H2' H3' H4' H5'. by destruct (Hno op a).
Qed.

(** [mark] leaves the act's marker as the scope's only one. *)
Lemma works_mark act c :
  cgood (Some (OpToken (act_scope act))) c → home (act_operationId act) = act_scope act →
  (renewalOperationId (act_context act) = None → quiet home (act_scope act) c) →
  cworks (mark act) (Some (OpToken (act_scope act))) c
    (λ _ c', scope_markers (act_scope act) c' = [act_marker act] ∧ acts (signing c') = acts (signing c)).
Proof.
  intros Hg Hop Hq. unfold mark. set (s := act_scope act) in *.
  eapply works_after; [by apply keeps_markers|]. intros l c1 _ (-> & El & _).
  apply works_after with (R1 := λ retires c', c' = c ∧ (∀ op, op ∈ retires → home op = s) ∧
    ∀ op a, home op = s → act_at op c = Some a → act_result a = None → op ∉ retires → ¬ retired op c → False).
  { destruct (renewalOperationId (act_context act)) as [r|] eqn:Er.
    - eapply keeps_bind; [by apply keeps_pendingMarkerFor|]. intros m c' _ (-> & Hm & _).
      eapply keeps_bind with (R1 := λ _ c', c' = c); [by apply keeps_refuse_when|]. intros [] c' _ ->.
      pose proof Hm as [_ _ (s' & op & Es & Eo & Eh & _)]. destruct (the_marker_scope _ _ _ Hm) as [_ Es'].
      rewrite Es' in Es. injection Es as <-. apply keeps_ret; [done|]. split; [done|]. rewrite Eo. simpl. split.
      + by intros o ->%elem_of_singleton.
      + intros o a Ho Ha Hn Hr Hr'. destruct (unresolved_is_marked s m o a c (proj1 Hg) Hm Ho Ha Hn Hr') as [_ Eo'].
        rewrite Eo' in Eo. injection Eo as ->. by destruct Hr; apply elem_of_singleton.
    - eapply keeps_bind with (R1 := λ _ c', c' = c); [by apply keeps_refuse_when|]. intros [] c' _ ->.
      apply keeps_ret; [done|]. split; [done|]. split; [intros op []%not_elem_of_empty|].
      intros op a Ho Ha Hn _ _. by apply (proj2 (Hq eq_refl) op a). }
  intros retires c1 _ (-> & Hret & Hno). eapply works_bind.
  { apply (works_writeMarkers _ s); [done|by left|]. apply may_mark_act; [apply Hg|done..]. }
  intros [] c2 Hd Hb. assert (cgood (Some (OpToken s)) c2) as Hg2 by by eapply during_good.
  apply keeps_works. eapply keeps_bind; [by apply keeps_pendingMarkerFor|]. intros m c' _ (-> & Hm & _).
  apply keeps_refuse_when; [done|]. intros _. split; [|apply Hb].
  unfold scope_markers. rewrite (become_markers _ _ _ _ Hb), List.filter_app, filter_out_own.
  cbn [List.filter app]. by rewrite in_scope_act_marker, String.eqb_refl.
Qed.

(** ** The acts *)

Lemma acts_mono c c' :
  fence c' = fence c → (∀ op a, act_at op c = Some a → ∃ a', act_at op c' = Some a' ∧ act_core a' = act_core a) →
  cohort_mono home c c'.
Proof.
  intros Hf Ha. split.
  - intros s. unfold generation_of. by rewrite Hf.
  - intros s. unfold clearing. by rewrite Hf.
  - intros op a _ _. apply Ha.
Qed.

Lemma works_install act c :
  let s := act_scope act in
  cgood (Some (OpToken s)) c → home (act_operationId act) = s → isUuidV7IdempotencyKey (act_operationId act) = true →
  act_at (act_operationId act) c = None →
  scope_markers s c = [act_marker act] →
  cworks (modify (install_act act)) (Some (OpToken s)) c (λ _ c', act_at (act_operationId act) c' = Some act).
Proof.
  intros s Hg Hop Hu Hn Hm.
  assert (∀ op, act_at op (install_act act c) = if decide (op = act_operationId act) then Some act else act_at op c) as Hat.
  { intros op. unfold act_at, install_act. simpl. case_decide; subst; [by rewrite lookup_insert_eq|by rewrite lookup_insert_ne]. }
  apply (works_change _ _ s); [done|by left|done| | | |].
  - destruct (proj1 Hg) as [Him Hia Hip]. split; [done| |done]. intros op a. rewrite Hat. case_decide as E.
    + intros [= <-]. split; [done|by rewrite E|by rewrite E|]. intros _ _. exists (act_marker act). split; [|done]. subst op. rewrite Hop. exact Hm.
    + intros Ha. destruct (Hia op a Ha) as [H1' H2' H4' H3']. split; [done|done|done|]. intros Hr Hnr. apply H3'; [done|].
      intros Hre. apply Hnr. unfold retired. simpl. apply elem_of_difference. split; [done|]. by rewrite elem_of_singleton.
  - apply acts_mono; [done|]. intros op a Ha. exists a. split; [|done]. rewrite Hat. case_decide; [congruence|done].
  - intros t Ht. split; [done|done| |].
    + intros op Hot. unfold same_act. rewrite Hat. case_decide; [congruence|done].
    + intros op Hot. unfold retired. simpl. rewrite elem_of_difference, elem_of_singleton.
      split; [tauto|]. intros. split; [done|]. congruence.
  - rewrite Hat. by rewrite decide_True.
Qed.

Lemma works_result op r s c :
  cgood (Some (OpToken s)) c → home op = s →
  cworks (modify (with_signing (with_acts (alter (act_with_result r) op)))) (Some (OpToken s)) c
    (λ _ c', signing_list c' = signing_list c ∧ ∀ a, act_at op c' = Some a → act_result a ≠ None).
Proof.
  intros Hg Hop. set (f := with_signing (with_acts (alter (act_with_result r) op))).
  assert (∀ o, act_at o (f c) = if decide (o = op) then act_with_result r <$> act_at o c else act_at o c) as Hat.
  { intros o. unfold act_at, f. simpl. case_decide; subst; [by rewrite lookup_alter_eq|by rewrite lookup_alter_ne]. }
  apply (works_change _ _ s); [done|by left|done| | | |].
  - destruct (proj1 Hg) as [Him Hia Hip]. split; [done| |done]. intros o a. rewrite Hat. case_decide as E; [|intros Ha; destruct (Hia o a Ha); by split].
    destruct (act_at o c) as [a0|] eqn:E0; [|done]. intros [= <-]. destruct (Hia o a0 E0). by split.
  - apply acts_mono; [done|]. intros o a Ha. rewrite Hat, Ha. case_decide; by eexists.
  - intros t Ht. split; [done|done| |done]. intros o Hot. unfold same_act. rewrite Hat. case_decide; [congruence|done].
  - split; [done|]. intros a. rewrite Hat, decide_True by done. destruct (act_at op c); [|done]. by intros [= <-].
Qed.

(** ** Removing and replacing a marker *)

Lemma works_unmark op retires s c :
  cgood (Some (OpToken s)) c → home op = s → (∀ o, o ∈ retires → home o = s) →
  (op ∈ retires ∨ ∀ a, act_at op c = Some a → act_result a ≠ None) →
  cworks (unmark op retires) (Some (OpToken s)) c (λ _ _, True).
Proof.
  intros Hg Hop Hret Hres. unfold unmark. eapply works_after; [by apply keeps_markers|]. intros l c1 _ (-> & -> & _).
  eapply works_weaken; [|apply (works_writeMarkers _ s); [done|by left|]]; [done|].
  pose proof (inv_markers _ _ (proj1 Hg)) as Hhome.
  assert (∀ t, (∀ m, m ∈ scope_markers t c → is_lit (prop m "operationId") op = false) →
    List.filter (in_scope t) (List.filter (λ m, negb (is_lit (prop m "operationId") op)) (signing_list c)) = scope_markers t c) as Hsame.
  { unfold scope_markers. clear. intros t. induction (signing_list c) as [|m l IH]; simpl; [done|]. intros Hl.
    destruct (is_lit (prop m "operationId") op) eqn:E; simpl; destruct (in_scope t m) eqn:Et.
    - rewrite Hl in E; [done|by left].
    - by apply IH.
    - f_equal. apply IH. intros m' Hm'. apply Hl. by right.
    - by apply IH. }
  split; [by apply Forall_filter_list|intros t Ht|done|].
  - apply Hsame. intros m [Hin Hs]%scope_markers_in. rewrite Forall_forall in Hhome.
    destruct (Hhome m Hin) as (s' & o & Es & Eo & Eh & _). unfold is_lit. rewrite Eo. apply String.eqb_neq. intros ->. congruence.
  - intros o a Ho Ha Hn Hnr Hr. destruct (inv_acts _ _ (proj1 Hg) o a Ha) as [Hid _ _ Hm].
    destruct (Hm Hn Hr) as (m & Em & Hmk). exists m. split; [|done]. rewrite <- Em, Ho. apply Hsame. rewrite <- Ho, Em.
    intros m' ->%list_elem_of_singleton. destruct Hmk as [-> _]. simpl. apply String.eqb_neq. rewrite Hid. intros ->.
    destruct Hres as [|Hres]; [done|]. by apply (Hres a).
Qed.

(** A marker may be replaced by one that only renews it. *)
Record renews (s : string) (m next : jsv) : Prop := {
  renews_scope : prop next "scope" = prop m "scope";
  renews_operation : prop next "operationId" = prop m "operationId";
  renews_draft : prop next "draftId" = prop m "draftId";
  renews_version : prop next "version" = prop m "version";
  renews_home op : prop (prop next "renewal") "operationId" = JStr op → home op = s
}.

Lemma renews_home_marker s m next : prop m "scope" = JStr s → home_marker m → renews s m next → home_marker next.
Proof.
  intros Es (s' & op & Es' & Eo & Eh & _) [R1 R2 _ _ R5]. rewrite Es in Es'. injection Es' as <-.
  exists s, op. split; [congruence|]. split; [congruence|]. by split.
Qed.

Lemma renews_marks s m next a : renews s m next → marks a m → marks a next.
Proof. intros [_ R2 R3 R4 _] (M1 & M2 & M3). unfold marks. by rewrite R2, R3, R4. Qed.

Lemma map_replace s m next (l : list jsv) :
  List.filter (in_scope s) l = [m] → in_scope s next = true →
  List.filter (in_scope s) ((λ m, if in_scope s m then next else m) <$> l) = [next].
Proof.
  intros Hl Hn. assert (∀ l, List.filter (in_scope s) ((λ m, if in_scope s m then next else m) <$> l) =
    (λ _, next) <$> List.filter (in_scope s) l) as ->; [|by rewrite Hl].
  clear Hl. intros l'. induction l' as [|m' l' IH]; [done|]. rewrite fmap_cons. cbn [List.filter].
  destruct (in_scope s m') eqn:E; rewrite ?Hn, ?E, IH; done.
Qed.

Lemma map_replace_other s t next (l : list jsv) :
  t ≠ s → in_scope s next = true →
  List.filter (in_scope t) ((λ m, if in_scope s m then next else m) <$> l) = List.filter (in_scope t) l.
Proof.
  intros Hts Hn. assert (in_scope t next = false) as Ht.
  { apply in_scope_spec in Hn. unfold in_scope, is_lit. rewrite Hn. apply String.eqb_neq. congruence. }
  induction l as [|m l IH]; [done|]. rewrite fmap_cons. cbn [List.filter].
  destruct (in_scope s m) eqn:E; rewrite ?Ht, IH; [|done].
  destruct (in_scope t m) eqn:Et; [|done]. apply in_scope_spec in E, Et. congruence.
Qed.

Lemma works_replace_marker key draftId expected next c :
  let s := scopeFor key in
  cgood (Some (OpToken s)) c → (∃ m, the_marker s m c ∧ renews s m next) →
  cworks (replace_marker key draftId expected next) (Some (OpToken s)) c (λ _ c', the_marker s next c').
Proof.
  intros s Hg (m & Hm & Hrn). unfold replace_marker. pose proof (the_marker_scope _ _ _ Hm) as [_ Es].
  assert (in_scope s next = true) as Hin by (apply in_scope_spec; rewrite (renews_scope _ _ _ Hrn); done).
  eapply works_after; [by apply keeps_pendingMarkerFor|]. intros m1 c1 _ (-> & _ & _).
  eapply works_after with (R1 := λ _ c', c' = c); [by apply keeps_refuse_when|]. intros [] c1 _ ->.
  eapply works_after; [by apply keeps_markers|]. intros l c1 _ (-> & -> & _).
  eapply works_bind.
  { apply (works_writeMarkers _ s); [done|by left|]. pose proof (inv_markers _ _ (proj1 Hg)) as Hhome. split.
    - apply Forall_fmap. eapply Forall_impl; [done|]. intros m' Hm'. simpl. destruct (in_scope (scopeFor key) m'); [|done].
      eapply renews_home_marker; [exact Es|apply Hm|done].
    - intros t Ht. by apply map_replace_other.
    - intros op []%not_elem_of_empty.
    - intros op a Hop Ha Hn _ Hr. exists next. split; [|].
      + apply (map_replace s m); [apply Hm|done].
      + eapply renews_marks; [done|]. by eapply unresolved_is_marked; [apply Hg| | | | |]. }
  intros [] c2 Hd Hb. assert (cgood (Some (OpToken s)) c2) as Hg2 by by eapply during_good.
  apply keeps_works. eapply keeps_bind; [by apply keeps_pendingMarkerFor|]. intros m2 c' _ (-> & Hm2 & _).
  apply keeps_refuse_when; [done|]. intros _. assert (m2 = next) as ->; [|done].
  pose proof (the_marker_only _ _ _ Hm2) as E. unfold scope_markers in E. rewrite (become_markers _ _ _ _ Hb) in E.
  fold s in E. rewrite (map_replace s m) in E; [by injection E|apply Hm|done].
Qed.

(** ** Preparations *)

Lemma keeps_remember h p context c :
  cgood h c → preparation_ok home p context → ckeeps (remember p context) h c (λ _ _, True).
Proof.
  intros Hg Hp. unfold remember, fresh. eapply keeps_bind with (R1 := λ _ _, True).
  { apply keeps_get. eapply keeps_bind with (R1 := λ _ _, True).
    - apply keeps_modify; [done|apply frame_next|done].
    - intros [] c' Hr _. apply keeps_ret; [by eapply good_rely|done]. }
  intros n c1 Hr1 _. assert (cgood h c1) as Hg1 by by eapply good_rely.
  set (f := with_signing (with_preparations <[n := (p, context)]>)).
  assert (cinv (f c1)) as Hi.
  { destruct (proj1 Hg1) as [I1 I2 I3]. split; [done|intros op a Ha; destruct (I2 op a Ha); by split|]. simpl. intros n' p' context'.
    destruct (decide (n' = n)) as [->|Hne]; [rewrite lookup_insert_eq; by intros [= <- <-]|].
    rewrite lookup_insert_ne by done. apply I3. }
  assert (∀ t, op_held home t c1 (f c1)) as Hh by (intros t; by split).
  eapply keeps_bind with (R1 := λ _ _, True); [|intros [] c' Hr _; apply keeps_ret; [by eapply good_rely|done]].
  exists h. split.
  - apply guarantee_same; [done|done|done| |intros s _ _; apply Hh]. intros op a Ha. by exists a.
  - split; [done|]. split; [|done]. split; [done|]. split.
    + apply acts_mono; [done|]. intros op a Ha. by exists a.
    + intros [t|t] _; [apply Hh|]. split; [done|by left].
Qed.

(** ** Clearing *)

Lemma works_clear_acts s c :
  cgood (Some (ClearToken s)) c → op_pending s c = None →
  cworks (modify (clear_acts s)) (Some (ClearToken s)) c (λ _ c', ∀ op a, act_at op c' = Some a → home op ≠ s).
Proof.
  intros Hg Hp. assert (clearing s c) as Hc.
  { pose proof (proj2 Hg _ eq_refl) as Hc. simpl in Hc. by apply bool_decide_eq_true_1 in Hc. }
  assert (∀ op a, act_at op (clear_acts s c) = Some a ↔ act_at op c = Some a ∧ home op ≠ s) as Hat.
  { intros op a. unfold act_at, clear_acts. simpl. rewrite map_lookup_filter_Some. simpl. split; intros [Ha Hs]; (split; [done|]).
    - by rewrite <- (act_ok_scope _ _ _ _ (inv_acts _ _ (proj1 Hg) op a Ha)).
    - by rewrite (act_ok_scope _ _ _ _ (inv_acts _ _ (proj1 Hg) op a Ha)). }
  apply (works_change _ _ s); [done|by right|done| | | |].
  - destruct (proj1 Hg) as [I1 I2 I3]. split; [done| |done]. intros op a [Ha _]%Hat. destruct (I2 op a Ha). by split.
  - split; [done|done|]. intros op a _ Hnc Ha. exists a. split; [|done]. apply Hat. split; [done|]. by intros <-.
  - intros t Ht. split; [done|done| |done]. intros op Hop. unfold same_act. f_equal.
    destruct (act_at op c) as [a|] eqn:E; [apply Hat; by rewrite Hop|].
    destruct (act_at op (clear_acts s c)) as [a|] eqn:E'; [|done]. apply Hat in E' as [E' _]. congruence.
  - intros op a [_ ?]%Hat. done.
Qed.

Lemma works_clearScope key c :
  let s := scopeFor key in
  cgood (Some (ClearToken s)) c → op_pending s c = None → cworks (clearScope key) (Some (ClearToken s)) c (λ _ _, True).
Proof.
  intros s Hg Hp. unfold clearScope. fold s. eapply works_bind; [by apply works_clear_acts|]. intros [] c1 Hd1 Hno.
  assert (cgood (Some (ClearToken s)) c1) as Hg1 by by eapply during_good.
  assert (op_pending s c1 = None) as Hp1 by (destruct (held_quiet _ _ _ (during_kept _ _ _ _ Hd1 _ eq_refl)); congruence).
  eapply works_after; [by apply keeps_markers|]. intros l c2 _ (-> & -> & _). eapply works_bind.
  { apply (works_writeMarkers _ s); [done|by right|]. split.
    - apply Forall_filter_list, Hg1.
    - intros t Ht. by apply filter_filter_out.
    - intros op []%not_elem_of_empty.
    - intros op a Hop Ha. by destruct (Hno op a). }
  intros [] c2 Hd2 _. assert (cgood (Some (ClearToken s)) c2) as Hg2 by by eapply during_good.
  apply keeps_works. eapply (calm_keeps _ _ (λ _, True)); [|done|done].
  pose proof (stable_true config home (Some (ClearToken s))). calm_prog.
Qed.
End markers.
