(* ===== verification/SigningSafety.v ===== *)
(** * The signing operations keep the cohort's conditions

    [execute], [sign], [saveDraft], [prepare] and [restorePending], each run by
    the holder of its scope's fence: every request they dispatch is justified by
    the state it is dispatched in, and every change of the markers and acts is
    one of those of [MarkerSafety]. *)

From S2P Require Import Prelude JsValue JsMap Async AsyncTokens BrowserStorage ScopedMetadata IdempotencyKey DraftKeys ResponseAction CohortState HttpClient DraftBindings SigningFence HttpDraftStore ResponseSigning SigningOperations SigningRecovery HttpCohort CohortConditions CohortCalculus HttpDraftSafety FenceSafety MarkerSafety.

(** What an act was frozen with decides what it asks for. *)
Lemma validateAction_core `{!FormIds, !JsonText, !Canonicalize, !Engine, !SigningPackages} a b :
  act_core a = act_core b → validateAction a = validateAction b.
Proof.
  intros E. unfold validateAction, sign_body. unfold act_core in E. injection E as E1 E2 E3 E4 E5 E6 E7 E8. by rewrite E3, E5, E7, E8.
Qed.

Lemma act_core_id a b : act_core a = act_core b → act_operationId a = act_operationId b.
Proof. by intros [= _ E]. Qed.

Section signing.
Context `{Forms : !FormIds, Json : !JsonText, Meta : !MetadataPolicy, Can : !Canonicalize, Eng : !Engine,
  Uuid : !UuidPackage, Dig : !Digest, Hand : !HandoffBytes, Pack : !SigningPackages}.
Context (config : CohortConfig) (home : string → string).

Abbreviation conds := (cohort_conditions config home).
Abbreviation crely := (trely conds).
Abbreviation cgood := (good config home).
Abbreviation cinv := (cohort_inv home).
Abbreviation ckeeps := (keeps config home).
Abbreviation ccalm := (calm config home).
Abbreviation cstable := (stable config home).
Abbreviation cworks := (works config home).
Abbreviation cduring := (during home).

Lemma calm_works {A} P h (m : prog A) c : ccalm P h m → cgood h c → P c → cworks m h c (λ _ _, True).
Proof. intros Hm Hg Hc. by apply keeps_works, Hm. Qed.

(** ** Executing an act *)

(** The act is known, whatever has come of it. *)
Definition knows (act : FrozenAct) (c : Cohort) : Prop :=
  ∃ a, act_at (act_operationId act) c = Some a ∧ act_core a = act_core act.

Lemma knows_stable act s : home (act_operationId act) = s → cstable (Some (OpToken s)) (knows act).
Proof.
  intros Hs c c' (_ & _ & Hh) _ (a & Ha & E).
  destruct (act_core_at _ c c' a (held_acts _ _ _ _ (Hh _ eq_refl) _ Hs) Ha) as (a' & Ha' & E').
  exists a'. split; [done|]. rewrite <- E. by apply act_core_settled.
Qed.

Lemma header_list_key client options body token k :
  option_idempotencyKey options = Some k → k ≠ "" → map_get (header_list client options body token) "idempotency-key" = Some k.
Proof.
  intros E Hk. unfold header_list. rewrite E. destruct k; [done|]. simpl.
  by rewrite map_get_set, decide_True.
Qed.

Section executing.
Context (act : FrozenAct).
Abbreviation key := (act_key act).
Abbreviation held := (Some (OpToken (act_scope act))).
Hypothesis (Hhome : home (act_operationId act) = act_scope act).

Lemma knows_here : cstable held (knows act).
Proof. by apply knows_stable. Qed.

Lemma calm_dispatch_sign planned token guard :
  validateAction act = Returns planned → guards config home guard → ccalm (knows act) held (dispatch_sign config act planned token guard).
Proof.
  intros Hp Hg. pose proof knows_here as HP. unfold dispatch_sign. apply calm_settle; [done| |].
  - apply (calm_requestJson config home (knows act) (λ c, fence_current key (context_fence (act_context act)) c = true));
      [done|done|apply checks_current|done|].
    intros c t Hc (a & Ha & Ea) [_ Hcl]%andb_prop. apply negb_true_iff, bool_decide_eq_false_1 in Hcl.
    apply (JustSign _ _ _ _ _ (act_operationId act) a); [done|done|by rewrite Hhome|]. split.
    + exists planned. by rewrite (validateAction_core a act).
    + done.
    + rewrite (act_core_id a act Ea). by apply header_list_key.
  - intros o. calm_prog.
Qed.

Lemma keeps_sign_guard view c :
  cgood held c → knows act c → ckeeps (sign_guard config act view) held c (λ g _, guards config home g).
Proof.
  intros Hg Hk. unfold sign_guard. destruct (qualifiesSign config); [|by apply keeps_ret].
  pose proof (stable_true config home held) as HT.
  eapply keeps_bind; [by apply (calm_savedResult config home (λ _, True))|]. intros saved c1 Hr1 _.
  assert (cgood held c1) as Hg1 by by eapply good_rely. eapply keeps_bind; [by apply checks_current|]. intros [] c2 _ [-> _].
  eapply keeps_bind; [by apply keeps_invoke with (R := λ _ _, True)|]. intros q c2 Hr2 _.
  assert (cgood held c2) as Hg2 by by eapply good_rely. eapply keeps_bind; [by apply checks_current|]. intros [] c3 _ [-> _].
  destruct q; [|by apply keeps_refuse]. apply keeps_ret; [done|]. apply guards_call.
Qed.

Lemma calm_execute : ccalm (knows act) held (execute config act).
Proof.
  pose proof knows_here as HP. unfold execute. apply calm_bind; [done|apply calm_read|]. intros saved.
  destruct (is_int (prop saved "draft_version") (act_version act + 1)); [apply calm_acceptSigned|].
  apply calm_bind; [done| |].
  { destruct (view_unsaved act saved); [|apply calm_ret]. apply calm_bind; [done|apply calm_current|]. intros _.
    apply calm_bind; [done| |intros _; apply calm_read]. apply calm_save_or_continue; [done| |apply guards_none].
    intros c (a & Ha & Ea). right. left. exists (act_operationId act), a. split; [done|]. split; [done|]. by apply act_core_candidate. }
  intros saved'. apply calm_bind; [done|apply calm_refuse_when|]. intros _ c Hg Hk.
  eapply keeps_bind with (R1 := λ planned _, validateAction act = Returns planned).
  { apply keeps_done; [done|]. intros planned. destruct (validateAction act) as [p|[]]; intros E; by simplify_eq/=. }
  intros planned c1 Hr1 Hp. assert (cgood held c1) as Hg1 by by eapply good_rely.
  assert (knows act c1) as Hk1 by by eapply HP. eapply keeps_bind; [by apply keeps_sign_guard|].
  intros guard c2 Hr2 Hgd. apply (calm_keeps config home (knows act)); [|by eapply good_rely|by eapply HP].
  apply calm_bind; [done|apply calm_ownerFor|]. intros [token subject].
  apply calm_bind; [done|apply calm_current|]. intros _. by apply calm_dispatch_sign.
Qed.
End executing.

(** ** Freezing an act *)

Lemma keeps_freeze_act input identity context h c :
  cgood h c → ckeeps (freeze_act config input identity context) h c
    (λ act _, act_operationId act = sign_operationId input ∧ act_context act = context).
Proof.
  intros Hg. unfold freeze_act. eapply keeps_bind with (R1 := λ _ _, True); [by apply keeps_refuse_when|]. intros [] c1 Hr1 _.
  assert (cgood h c1) as Hg1 by by eapply good_rely. eapply keeps_bind; [by apply keeps_invoke with (R := λ _ _, True)|].
  intros t c2 Hr2 _. assert (cgood h c2) as Hg2 by by eapply good_rely.
  eapply keeps_bind with (R1 := λ _ _, True); [by apply keeps_refuse_when|]. intros [] c3 Hr3 _.
  assert (cgood h c3) as Hg3 by by eapply good_rely. eapply keeps_bind with (R1 := λ _ _, True); [by apply keeps_done|].
  intros digest c4 Hr4 _. assert (cgood h c4) as Hg4 by by eapply good_rely.
  eapply keeps_bind; [by apply keeps_invoke with (R := λ _ _, True)|]. intros [] c5 Hr5 _.
  apply keeps_ret; [by eapply good_rely|done].
Qed.

Lemma no_act_rely s op c c' : home op = s → crely (Some (OpToken s)) c c' → act_at op c = None → act_at op c' = None.
Proof.
  intros Hs (_ & _ & Hh) Hn. pose proof (held_acts _ _ _ _ (Hh _ eq_refl) op Hs) as E. unfold same_act in E. rewrite Hn in E.
  by destruct (act_at op c').
Qed.

Section creating.
Context (input : SignPreparedResponseInput) (identity : string) (context : PreparationContext).
Abbreviation op := (sign_operationId input).
Abbreviation s := (scopeFor (in_draftKey (context_input context))).
Hypothesis (Hhome : home op = s) (Huuid : isUuidV7IdempotencyKey op = true).

(** Before an act is frozen its scope is quiet, or it is a renewal. *)
Lemma keeps_may_freeze c :
  cgood (Some (OpToken s)) c →
  ckeeps (match renewalOperationId context with
          | Some renewal =>
              m ← pendingMarkerFor (in_draftKey (context_input context)) (draft_id (saved_draft (sign_preparation input)));
              unresolved_when (negb (String.eqb op renewal)
                               || negb (renewal_is m op (draft_version (saved_draft (sign_preparation input)))))
          | None => refuseUnresolved (in_draftKey (context_input context))
          end) (Some (OpToken s)) c (λ _ c', renewalOperationId context = None → quiet home s c').
Proof.
  intros Hg. destruct (renewalOperationId context) as [r|].
  - eapply keeps_bind; [by apply keeps_pendingMarkerFor|]. intros m c' _ (-> & _). by apply keeps_refuse_when.
  - eapply keeps_weaken; [|by apply keeps_refuseUnresolved]. by intros [] c' _ [-> Hq].
Qed.

Lemma works_create_act c :
  cgood (Some (OpToken s)) c → act_at op c = None →
  cworks (create_act config input identity context) (Some (OpToken s)) c
    (λ act c', knows act c' ∧ act_operationId act = op ∧ act_context act = context).
Proof.
  intros Hg Hn. unfold create_act. pose proof (stable_true config home (Some (OpToken s))) as HT.
  eapply works_after; [by apply keeps_may_freeze|]. intros [] c1 Hr1 Hq1. assert (cgood (Some (OpToken s)) c1) as Hg1 by by eapply good_rely.
  assert (act_at op c1 = None) as Hn1 by by eapply no_act_rely.
  eapply works_after; [by apply keeps_freeze_act|]. intros act c2 Hr2 [Eop Ectx].
  assert (cgood (Some (OpToken s)) c2) as Hg2 by by eapply good_rely. assert (act_at op c2 = None) as Hn2 by by eapply no_act_rely.
  apply works_after with (R1 := λ _ _, True).
  { by apply keeps_done. }
  intros planned c3 Hr3 _. assert (cgood (Some (OpToken s)) c3) as Hg3 by by eapply good_rely.
  eapply works_after; [by apply keeps_invoke with (R := λ _ _, True)|]. intros valid c4 Hr4 _.
  assert (cgood (Some (OpToken s)) c4) as Hg4 by by eapply good_rely.
  apply works_after with (R1 := λ _ _, True); [by apply keeps_refuse_when|]. intros [] c5 Hr5 _.
  assert (cgood (Some (OpToken s)) c5) as Hg5 by by eapply good_rely.
  eapply works_after; [by apply (calm_current config home (λ _, True))|]. intros [] c6 Hr6 _.
  assert (cgood (Some (OpToken s)) c6) as Hg6 by by eapply good_rely.
  assert (crely (Some (OpToken s)) c2 c6) as Hr26 by (repeat (eapply cohort_rely_trans; [eassumption|]); by apply cohort_rely_refl).
  assert (act_scope act = s) as Es by (unfold act_scope, act_key; by rewrite Ectx). rewrite <- Es in *.
  eapply works_bind.
  { apply works_mark; [done|congruence|]. intros Er. rewrite Ectx in Er. eapply quiet_rely; [|by apply Hq1].
    eapply cohort_rely_trans; [exact Hr2|exact Hr26]. }
  intros [] c7 Hd7 [Hm7 Ha7]. assert (cgood (Some (OpToken (act_scope act))) c7) as Hg7 by by eapply during_good.
  eapply works_bind.
  { apply works_install; [done|congruence|congruence| |done]. unfold act_at. rewrite Ha7. rewrite Eop. by eapply no_act_rely. }
  intros [] c8 Hd8 Ha8. apply works_ret; [by eapply during_inv|]. split; [|done]. by exists act.
Qed.

(** ** Signing *)

(** A retry executes the act that was frozen under its operation id. *)
Definition is_previous (previous : option FrozenAct) (c : Cohort) : Prop :=
  match previous with
  | Some act => knows act c ∧ act_operationId act = op ∧ act_scope act = s
  | None => act_at op c = None
  end.

Lemma works_sign_operation previous c :
  cgood (Some (OpToken s)) c → is_previous previous c →
  cworks (sign_operation config input identity context previous) (Some (OpToken s)) c (λ _ _, True).
Proof.
  intros Hg Hp. unfold sign_operation.
  apply works_bind with (R1 := λ act c', knows act c' ∧ act_operationId act = op ∧ act_scope act = s).
  { destruct previous as [act|]; [by apply works_ret; [apply Hg|]|].
    eapply works_weaken; [|by apply works_create_act]. intros act c' _ (Hk & Eop & Ectx). split; [done|]. split; [done|].
    unfold act_scope, act_key. by rewrite Ectx. }
  intros act c1 Hd1 (Hk & Eop & Es). assert (cgood (Some (OpToken s)) c1) as Hg1 by by eapply during_good.
  eapply works_after.
  { rewrite <- Es. apply calm_execute; [congruence| |done]. by rewrite Es. }
  intros result c2 Hr2 _. assert (cgood (Some (OpToken s)) c2) as Hg2 by by eapply good_rely.
  eapply works_bind; [apply works_result; [done|congruence]|]. intros [] c3 Hd3 [_ Hres].
  assert (cgood (Some (OpToken s)) c3) as Hg3 by by eapply during_good.
  eapply works_bind; [apply works_unmark; [done|congruence|by intros o []%not_elem_of_empty|by right]|].
  intros [] c4 Hd4 _. apply works_ret; [by eapply during_inv|done].
Qed.
End creating.

(** ** Calling an operation *)

Lemma good_idle c : cinv c → cgood None c.
Proof. by split. Qed.

Lemma idle_inv c : cgood None c → cinv c.
Proof. by intros []. Qed.

(** What a caller does before and after it holds the fence. *)
Lemma works_idle {A} (m : prog A) c : ccalm (λ _, True) None m → cinv c → cworks m None c (λ _ _, True).
Proof. intros Hm Hi. eapply calm_works; [exact Hm|done|done]. Qed.

Lemma alter_pending_same p op o (m : gmap string FrozenAct) :
  act_settled <$> alter (act_with_pending p) op m !! o = act_settled <$> m !! o.
Proof.
  destruct (decide (o = op)) as [->|Ho]; [|by rewrite lookup_alter_ne]. rewrite lookup_alter_eq. by destruct (m !! op).
Qed.

Lemma frame_start_activation op identity promise retry c : frame c (start_activation op identity promise retry c).
Proof. destruct retry; (split; [done|done| |done|done]); intros o; [apply alter_pending_same|done]. Qed.

Lemma frame_end_activation op promise o c : frame c (end_activation op promise o c).
Proof. split; [done|done| |done|done]. intros o'. apply alter_pending_same. Qed.

Lemma frame_knows c c' act : frame c c' → knows act c → knows act c'.
Proof. intros Hf (a & Ha & E). destruct (frame_core _ _ _ _ Hf Ha) as (a' & Ha' & E'). exists a'. split; [done|congruence]. Qed.

Lemma frame_no_act c c' op : frame c c' → act_at op c = None → act_at op c' = None.
Proof. intros Hf Hn. pose proof (frame_acts _ _ Hf op) as E. unfold same_act in E. rewrite Hn in E. by destruct (act_at op c'). Qed.

Lemma same_act_previous input context previous c c' :
  home (sign_operationId input) = scopeFor (in_draftKey (context_input context)) →
  (∀ op, home op = scopeFor (in_draftKey (context_input context)) → same_act op c c') →
  is_previous input context previous c → is_previous input context previous c'.
Proof.
  intros Hh Hs. specialize (Hs _ Hh). destruct previous as [act|]; simpl.
  - intros ((a & Ha & E) & Eop & Es). split; [|done]. rewrite Eop in Ha. destruct (act_core_at _ c c' a Hs Ha) as (a' & Ha' & E').
    exists a'. rewrite Eop. split; [done|]. rewrite <- E. by apply act_core_settled.
  - intros Hn. unfold same_act in Hs. rewrite Hn in Hs. by destruct (act_at _ c').
Qed.

Lemma frame_previous input context previous c c' :
  frame c c' → is_previous input context previous c → is_previous input context previous c'.
Proof.
  intros Hf. destruct previous as [act|]; simpl; [|by apply frame_no_act].
  intros (Hk & H1' & H2'). split; [|done]. by eapply frame_knows.
Qed.

Lemma works_activate input identity context previous c :
  cinv c → home (sign_operationId input) = scopeFor (in_draftKey (context_input context)) →
  isUuidV7IdempotencyKey (sign_operationId input) = true → is_previous input context previous c →
  cworks (activate config input identity context previous) None c (λ _ _, True).
Proof.
  intros Hi Hh Hu Hp. unfold activate, fresh.
  apply works_after with (R1 := λ _ c', is_previous input context previous c').
  { apply keeps_get. eapply keeps_bind with (R1 := λ _ c', is_previous input context previous c').
    - apply keeps_modify; [done|apply frame_next|]. eapply frame_previous; [apply frame_next|done].
    - intros [] c' Hr Hp'. apply keeps_ret; [by eapply good_rely|done]. }
  intros promise c1 Hr1 Hp1. assert (cgood None c1) as Hg1 by by eapply good_rely.
  eapply works_after with (R1 := λ _ c', is_previous input context previous c').
  { apply keeps_modify; [done|apply frame_start_activation|]. eapply frame_previous; [apply frame_start_activation|done]. }
  intros [] c2 Hr2 Hp2. assert (cgood None c2) as Hg2 by by eapply good_rely.
  apply works_settle with (R1 := λ _ _, True).
  - apply works_fence_run; [apply Hg2|]. intros c3 [Hg3 Hs3]. apply works_sign_operation; [done|done|done|].
    by eapply same_act_previous.
  - intros r c3 Hd3 _. eapply works_idle; [|by eapply during_inv].
    apply calm_bind; [done|apply calm_modify; intros; apply frame_end_activation|]. intros _. apply calm_done.
  - intros e c3 Hd3. eapply works_idle; [|by eapply during_inv].
    apply calm_bind; [done|apply calm_modify; intros; apply frame_end_activation|]. intros _. apply calm_done.
Qed.

Lemma works_join n c : cinv c → cworks (invoke (JoinPromise n)) None c (λ _ _, True).
Proof. intros Hi. apply works_idle; [|done]. by apply calm_invoke. Qed.

Lemma works_throw {A} e c : cinv c → cworks (refuse (A := A) e) None c (λ _ _, True).
Proof. intros Hi. apply works_idle; [|done]. apply calm_refuse. Qed.

Lemma works_sign input c :
  cinv c → home (sign_operationId input) = scopeFor (saved_draftKey (sign_preparation input)) →
  cworks (sign config input) None c (λ _ _, True).
Proof.
  intros Hi Hh. unfold sign.
  apply works_after with (R1 := λ _ c', c' = c ∧ isUuidV7IdempotencyKey (sign_operationId input) = true).
  { apply keeps_done; [done|]. intros u. unfold assertUuidV7IdempotencyKey, throw_when. by destruct (isUuidV7IdempotencyKey _). }
  intros u c1 _ [-> Hu].
  apply tok_get. destruct (preparation_context input c) as [context|] eqn:Ec; [|by apply works_throw].
  assert (preparation_ok home (sign_preparation input) context) as Hp.
  { unfold preparation_context in Ec. destruct (preparations (signing c) !! sign_reference input) as [[p context']|] eqn:E; [|done].
    destruct (decide (p = sign_preparation input)) as [->|]; [|done]. injection Ec as ->. by eapply (inv_preparations _ _ Hi). }
  assert (home (sign_operationId input) = scopeFor (in_draftKey (context_input context))) as Hh' by by rewrite (preparation_key _ _ _ Hp).
  eapply works_after; [by apply checks_current|]. intros [] c1 _ [-> _].
  assert (∀ frozen, cworks
    (match activations (signing c) !! sign_operationId input with
     | Some activation =>
         if String.eqb (activation_identity activation) frozen then invoke (JoinPromise (activation_promise activation)) else changed_retry
     | None =>
         match acts (signing c) !! sign_operationId input with
         | Some previous =>
             if negb (String.eqb (act_identity previous) frozen) then changed_retry
             else match act_pending previous with
                  | Some promise => invoke (JoinPromise promise)
                  | None => activate config input frozen context (Some previous)
                  end
         | None => activate config input frozen context None
         end
     end) None c (λ _ _, True)) as Hrest.
  { intros frozen. destruct (activations (signing c) !! _) as [activation|].
    { destruct (String.eqb _ _); [by apply works_join|by apply works_throw]. }
    destruct (acts (signing c) !! sign_operationId input) as [previous|] eqn:Ea; [|by apply works_activate].
    destruct (String.eqb _ _); [|by apply works_throw]. destruct (act_pending previous); [by apply works_join|].
    destruct (inv_acts _ _ Hi _ _ Ea) as [Eid Esc _ _]. apply works_activate; [done|done|done|]. split; [|split; [done|congruence]].
    exists previous. by rewrite Eid. }
  destruct (canonicalize (sign_identity input context)) as [[|a frozen]|]; [by apply works_throw|apply Hrest|by apply works_throw].
Qed.

(** ** Saving *)

Lemma works_save_operation (input : SaveResponseDraftInput) guard generation c :
  let s := scopeFor (in_draftKey input) in
  cgood (Some (OpToken s)) c → cworks (save_operation config input guard generation) (Some (OpToken s)) c (λ _ _, True).
Proof.
  intros s Hg. unfold save_operation.
  eapply works_after; [by apply keeps_refuseUnresolved|]. intros [] c1 _ [-> Hq]. fold s in Hq.
  assert (cstable (Some (OpToken s)) (quiet home s)) as HP by apply quiet_stable.
  eapply (calm_works (quiet home s)); [|done|done].
  set (context := {| context_input := save_input input; context_fence := generation; renewalOperationId := None |}).
  assert (∀ id, ccalm (quiet home s) (Some (OpToken s)) (read config context id)) as Hread by (intros; by apply (calm_read config home context)).
  assert (ccalm (quiet home s) (Some (OpToken s))
    (store_save (signing_store config) (in_draftKey input) (in_response input) (Some (save_guard context guard)))) as Hsave.
  { apply calm_store_save; [done| |apply guards_save]. intros c' Hq'. by left. }
  calm_prog.
Qed.

Lemma works_saveDraft input guard c : cinv c → cworks (saveDraft config input guard) None c (λ _ _, True).
Proof.
  intros Hi. unfold saveDraft, fresh. pose proof (stable_true config home None) as HT.
  apply works_after with (R1 := λ _ c', c' = c); [by apply keeps_done|]. intros u c1 _ ->.
  eapply works_after; [by apply checks_guard|]. intros [] c1 _ [-> _]. apply tok_get.
  destruct (saves (signing c) !! save_operationId input) as [previous|].
  - eapply works_idle; [|done]. calm_prog. eapply calm_checks, checks_current.
  - eapply works_after with (R1 := λ _ _, True).
    { apply keeps_get. eapply keeps_bind; [apply keeps_modify with (R := λ _ _, True); [done|apply frame_next|done]|].
      intros [] c' Hr _. apply keeps_ret; [by eapply good_rely|done]. }
    intros promise c1 Hr1 _. assert (cgood None c1) as Hg1 by by eapply good_rely.
    eapply works_after; [apply keeps_modify with (R := λ _ _, True); [done|apply frame_saves|done]|].
    intros [] c2 Hr2 _. assert (cgood None c2) as Hg2 by by eapply good_rely.
    assert (∀ o c3, cduring None c2 c3 → cworks (modify (end_save (save_operationId input) promise o) ;; of_outcome o) None c3 (λ _ _, True)) as Hend.
    { intros o c3 Hd3. eapply works_idle; [|by eapply during_inv].
      apply calm_bind; [done|apply calm_modify; intros; by split|]. intros _. apply calm_done. }
    apply works_settle with (R1 := λ _ _, True); [|by intros; apply Hend|by intros; apply Hend].
    apply works_fence_run; [apply Hg2|]. intros c3 [Hg3 _]. by apply works_save_operation.
Qed.
End signing.
