(* ===== verification/RecoverySafety.v ===== *)
(** * Preparing and restoring keep the cohort's conditions

    [prepare] saves in a quiet scope.  [restorePending] changes the marker of
    the act it restores only to renew it, saves only the successor that the
    renewed marker names, and removes the marker only of an act whose signature
    it has verified. *)

From S2P Require Import Prelude JsValue JsMap Async AsyncTokens BrowserStorage ScopedMetadata IdempotencyKey DraftKeys ResponseAction CohortState HttpClient DraftBindings SigningFence HttpDraftStore ResponseSigning SigningOperations SigningRecovery HttpCohort CohortConditions CohortCalculus HttpDraftSafety FenceSafety MarkerSafety SigningSafety.

Lemma prop_set o k v k' : prop (JObj (obj_set o k v)) k' = if decide (k = k') then v else prop (JObj o) k'.
Proof. apply obj_get_set. Qed.

Section recovery.
Context `{Forms : !FormIds, Json : !JsonText, Meta : !MetadataPolicy, Can : !Canonicalize, Eng : !Engine,
  Uuid : !UuidPackage, Dig : !Digest, Hand : !HandoffBytes, Pack : !SigningPackages}.
Context (config : CohortConfig) (home : string → string).

Abbreviation conds := (cohort_conditions config home).
Abbreviation crely := (trely conds).
Abbreviation cgood := (good config home).
Abbreviation cinv := (cohort_inv home).
Abbreviation ckeeps := (keeps config home).
Abbreviation ccalm := (calm config home).
Abbreviation cgives := (gives config home).
Abbreviation cstable := (stable config home).
Abbreviation cworks := (works config home).
Abbreviation cduring := (during home).
Abbreviation cmarker := (the_marker home).

(** ** Preparing *)

Lemma gives_savedResult P h key view : cgives P h (savedResult key view) (λ r _, saved_draftKey r = key).
Proof.
  intros c Hg Hc. unfold savedResult, savedResponseDraftFromVerifiedRead.
  eapply keeps_bind; [by apply (calm_handoffHash config home (λ _, True))|]. intros d c' Hr _.
  apply keeps_ret; [by eapply good_rely|done].
Qed.

Lemma calm_remember P h p context : preparation_ok home p context → ccalm P h (remember p context).
Proof. intros Hp c Hg _. by apply keeps_remember. Qed.

Section preparing.
Context (input : PrepareResponseSigningInput) (generation : N).
Abbreviation key := (in_draftKey input).
Abbreviation s := (scopeFor key).
Abbreviation held := (Some (OpToken s)).
Abbreviation context := {| context_input := prepare_input input; context_fence := generation; renewalOperationId := None |}.

Lemma gives_prepare_guard P existing : cstable held P →
  cgives P held (prepare_guard config input context existing) (λ g _, guards config home g).
Proof.
  intros HP. unfold prepare_guard. apply gives_after; [done| |].
  { destruct (qualifiesPrepare config); [|apply calm_ret]. apply calm_bind; [done|apply calm_savedResult|].
    intros saved. by apply calm_invoke. }
  intros admission. apply gives_after; [done|apply calm_current|]. intros _.
  apply gives_after; [done|apply calm_refuse_when|]. intros _. apply gives_ret. intros c _. apply guards_host.
Qed.

Lemma works_prepare_operation c :
  cgood held c → cworks (prepare_operation config input generation) held c (λ _ _, True).
Proof.
  intros Hg. unfold prepare_operation. pose proof (quiet_stable config home s) as HP.
  eapply works_after; [by apply keeps_refuseUnresolved|]. intros [] c1 _ [-> Hq].
  eapply (calm_works config home (quiet home s)); [|done|done].
  apply calm_bind; [done|apply calm_refuse_when|]. intros _. apply calm_bind; [done|by apply calm_invoke|]. intros valid.
  apply calm_bind; [done|apply calm_refuse_when|]. intros _. apply calm_bind; [done|apply calm_done|]. intros content.
  apply calm_bind; [done|apply calm_on_registry; auto with calm|]. intros [b|]; [|apply calm_refuse].
  apply calm_bind; [done|apply calm_refuse_when|]. intros _.
  apply calm_bind; [done|apply (calm_read config home context)|]. intros existing.
  apply calm_bind; [done|apply calm_refuse_when|]. intros _. apply calm_bind; [done|apply calm_done|]. intros _.
  eapply calm_bind_gives; [done|by apply gives_prepare_guard|]. intros guard Hgd.
  apply calm_bind; [done|apply (calm_save_or_continue config home context); [done| |done]|]. { intros c' Hc. by left. }
  intros _. apply calm_bind; [done|apply calm_current|]. intros _.
  apply calm_bind; [done|apply (calm_read config home context)|]. intros saved.
  apply calm_bind; [done|apply calm_refuse_when|]. intros _. apply calm_bind; [done|apply calm_bind_view|]. intros _.
  apply calm_bind; [done|apply calm_done|]. intros _.
  eapply calm_bind_gives; [done|by apply gives_savedResult|]. intros result Hkey.
  apply calm_bind; [done|apply calm_current|]. intros _.
  apply calm_bind; [done|apply calm_remember|intros; apply calm_ret]. by split.
Qed.
End preparing.

Lemma works_prepare input c : cinv c → cworks (prepare config input) None c (λ _ _, True).
Proof. intros Hi. apply works_fence_run; [done|]. intros c' [Hg _]. by apply works_prepare_operation. Qed.

(** ** Restoring *)

(** The scope's one marker is that of the operation being restored, and its
    renewal, if it has one, names the candidate. *)
Record restorable (s op : string) (original m : jsv) (c : Cohort) : Prop := {
  restorable_marker : cmarker s m c;
  restorable_operation : prop m "operationId" = JStr op;
  restorable_candidate : truthy (prop m "renewal") = true → prop (prop m "renewal") "originalCandidate" = original
}.

Lemma restorable_stable s op original m : cstable (Some (OpToken s)) (restorable s op original m).
Proof. intros c c' Hr _ [Hm Ho Hc]. split; [by eapply the_marker_rely|done|done]. Qed.

Lemma restorable_home s op original m c : restorable s op original m c → home op = s.
Proof.
  intros [Hm Ho _]. destruct (the_marker_scope _ _ _ _ Hm) as [_ Es]. destruct (the_marker_home _ _ _ _ Hm) as (s' & op' & Es' & Eo' & Eh & _).
  rewrite Ho in Eo'. injection Eo' as <-. rewrite Es in Es'. by injection Es' as ->.
Qed.

(** A valid renewal has an operation id, of the marker's scope, and a candidate. *)
Lemma renewal_spec m : marker_valid m = true → truthy (prop m "renewal") = true →
  (∃ op, prop (prop m "renewal") "operationId" = JStr op) ∧ truthy (prop (prop m "renewal") "originalCandidate") = true.
Proof.
  unfold marker_valid, renewal_valid. intros Hv Ht. apply andb_prop in Hv as [_ Hv]. rewrite Ht in Hv. simpl in Hv.
  destruct (safe_int (prop m "version")); [|done]. destruct (safe_int (prop (prop m "renewal") "version")); [|done].
  repeat (let H := fresh "Hv" in apply andb_prop in Hv as [Hv H]).
  destruct (prop (prop m "renewal") "operationId") as [| | | |op| |] eqn:E; try done. split; [by exists op|done].
Qed.

Lemma renewal_home s op original m c :
  restorable s op original m c → truthy (prop m "renewal") = true → home (text_of (prop (prop m "renewal") "operationId")) = s.
Proof.
  intros [Hm _ _] Ht. destruct (renewal_spec m) as [[op' Eo] _]; [apply Hm|done|]. rewrite Eo.
  destruct (the_marker_scope _ _ _ _ Hm) as [_ Es]. destruct (the_marker_home _ _ _ _ Hm) as (s' & o & Es' & _ & _ & Hr).
  rewrite Es in Es'. injection Es' as <-. by apply Hr.
Qed.

Lemma renewed_restorable s op original m next c c' :
  restorable s op original m c → prop next "operationId" = prop m "operationId" →
  prop (prop next "renewal") "originalCandidate" = original → cmarker s next c' → restorable s op original next c'.
Proof. intros [Hm Ho Hc] Eo Ec Hn. split; [done|congruence|done]. Qed.

Lemma with_renewal_prop m renewal k : k ≠ "renewal" → prop (with_renewal m renewal) k = prop m k.
Proof. intros Hk. unfold with_renewal. by rewrite prop_set, decide_False. Qed.

Lemma with_renewal_renewal m renewal : prop (with_renewal m renewal) "renewal" = renewal.
Proof. unfold with_renewal. by rewrite prop_set, decide_True. Qed.

Lemma with_renewal_renews s m renewal id :
  prop renewal "operationId" = JStr id → home id = s → renews home s m (with_renewal m renewal).
Proof.
  intros Eo Eh. split; try by apply with_renewal_prop. rewrite with_renewal_renewal, Eo. by intros op [= <-].
Qed.

Section restoring.
Context (input : PrepareResponseSigningInput) (renewUnsignedRevision : bool) (operationId : string) (generation : N).
Abbreviation key := (in_draftKey input).
Abbreviation s := (scopeFor key).
Abbreviation held := (Some (OpToken s)).
Abbreviation context := {| context_input := prepare_input input; context_fence := generation; renewalOperationId := None |}.
Abbreviation at_marker := (λ original m, restorable s operationId original m).

(** A recovery is that of the scope's one marker. *)
Record recovers (r : Recovery) (c : Cohort) : Prop := {
  recovers_marker : cmarker s (recovery_marker r) c;
  recovers_original : truthy (prop (recovery_marker r) "renewal") = true →
    prop (prop (recovery_marker r) "renewal") "originalCandidate" = recovery_original r;
  recovers_successor : recovery_successor r = successor_of (recovery_original r)
}.

Lemma recovers_stable r : cstable held (recovers r).
Proof. intros c c' Hr _ [Hm Ho Hs]. split; [by eapply the_marker_rely|done|done]. Qed.

Lemma nullish_or_truthy v w : truthy v = true → nullish_or v w = v.
Proof. by destruct v. Qed.

Lemma gives_pendingRecoveryFor P draftId version response : cgives P held (pendingRecoveryFor key draftId version response) recovers.
Proof.
  unfold pendingRecoveryFor. apply gives_bind with (Q := cmarker s).
  { intros c Hg _. eapply keeps_weaken; [|by apply keeps_pendingMarkerFor]. by intros m c' _ (-> & Hm & _). }
  intros m. assert (cstable held (cmarker s m)) as HP by (intros c c' Hr _ Hm; by eapply the_marker_rely).
  apply gives_after; [done| |].
  { destruct (truthy (prop m "renewal")); [|apply calm_ret]. pose proof (calm_handoffHash config home (cmarker s m) held). calm_prog. }
  intros _. apply gives_after; [done| |].
  { destruct (is_signed response); [calm_prog|]. destruct (strict_eq _ _); [calm_prog|]. destruct (_ && _); calm_prog. }
  intros _. apply gives_ret. intros c Hm. split; simpl; [done| |done].
  intros Ht. destruct (renewal_spec m) as [_ Hc]; [apply Hm|done|]. by rewrite nullish_or_truthy.
Qed.

(** What is restored is the operation that was asked for. *)
Definition restores (recovery : Recovery) (c : Cohort) : Prop :=
  at_marker (recovery_original recovery) (recovery_marker recovery) c ∧
  recovery_successor recovery = successor_of (recovery_original recovery).

Lemma restores_stable recovery : cstable held (restores recovery).
Proof. intros c c' Hr Hg [Hm Hs]. split; [by eapply restorable_stable|done]. Qed.

Lemma gives_restore_act P : cstable held P →
  cgives P held (restore_act config input operationId context) (λ r, restores (restoring_recovery r)).
Proof.
  intros HP. unfold restore_act. apply gives_after; [done|apply calm_refuse_when|]. intros _.
  apply gives_after; [done|apply calm_on_registry; auto with calm|]. intros [b|]; [|apply gives_refuse].
  destruct (safe_int (snapshot_draftVersion b)) as [v|]; [|apply gives_refuse].
  apply gives_after; [done|apply (calm_read config home context)|]. intros saved.
  apply gives_after; [done|apply calm_refuse_when|]. intros _.
  eapply gives_bind; [apply gives_pendingRecoveryFor|]. intros recovery. pose proof (restores_stable recovery) as HQ.
  eapply gives_bind; [apply gives_refuse_when|]. intros []. apply gives_weaken with (P := restores recovery).
  { intros c [[Hm Ho Hs] Hc]. apply orb_false_elim in Hc as [Hc _]. apply orb_false_elim in Hc as [Hc _]. apply negb_false_iff in Hc.
    split; [|done]. split; [done| |done]. unfold is_lit in Hc.
    destruct (prop (recovery_marker recovery) "operationId"); try done. by apply String.eqb_eq in Hc as ->. }
  apply gives_after; [done|apply calm_done|]. intros content. apply gives_after; [done|apply calm_refuse_when|]. intros _.
  apply gives_after; [done|apply calm_done|]. intros digest. apply gives_after; [done|apply calm_turn|]. intros _.
  apply gives_after; [done|apply calm_refuse_when|]. intros _. apply gives_after; [done|apply calm_ret|]. intros evidence.
  apply gives_after; [done|apply calm_verifiedRead|]. intros original. apply gives_after; [done|apply calm_done|]. intros planned.
  apply gives_after; [done|apply calm_current|]. intros _. by apply gives_ret.
Qed.

Lemma works_replace_restorable original m next draftId expected c :
  cgood held c → at_marker original m c → renews home s m next → prop (prop next "renewal") "originalCandidate" = original →
  cworks (replace_marker key draftId expected next) held c (λ _ c', at_marker original next c').
Proof.
  intros Hg Hm Hr Hc. eapply works_weaken; [|apply works_replace_marker; [done|]]; [|by exists m; split; [apply Hm|]].
  intros [] c' _ Hn. eapply renewed_restorable; [done|apply Hr|done|done].
Qed.

Lemma keeps_generateKey c : cgood held c → ckeeps (invoke (GenerateKey s)) held c (λ id c', c' = c ∧ home id = s).
Proof. intros Hg. apply keeps_invoke; [done|done|]. simpl. intros c' id -> Ha. split; [done|by apply Ha]. Qed.

(** The marker that restoring goes on with. *)
Definition current_marker (r : Restoring) (m : jsv) (c : Cohort) : Prop :=
  at_marker (recovery_original (restoring_recovery r)) m c ∧
  (truthy (prop m "renewal") = false → m = recovery_marker (restoring_recovery r)).

Lemma current_marker_stable r m : cstable held (current_marker r m).
Proof. intros c c' Hr Hg [Hm Hs]. split; [by eapply restorable_stable|done]. Qed.

Lemma works_renew_again r c :
  cgood held c → restores (restoring_recovery r) c →
  cworks (renew_again input renewUnsignedRevision context r) held c (current_marker r).
Proof.
  intros Hg [Hm _]. unfold renew_again. destruct (_ && _ && _ && _) eqn:Ec; [|by apply works_ret; [apply Hg|]].
  apply andb_prop in Ec as [Ec _]. apply andb_prop in Ec as [_ Ht].
  eapply works_after; [by apply keeps_generateKey|]. intros id c1 _ [-> Hid].
  eapply works_after; [by apply checks_current|]. intros [] c1 _ [-> _].
  eapply works_bind.
  { eapply works_replace_restorable; [done|exact Hm| |].
    - eapply with_renewal_renews; [|exact Hid]. by rewrite prop_set, decide_True.
    - rewrite with_renewal_renewal, !prop_set, !decide_False by done. by apply Hm. }
  intros [] c2 Hd2 Hn. apply works_ret; [by eapply during_inv|]. split; [done|]. by rewrite with_renewal_renewal.
Qed.

Lemma works_first_renewal r c :
  cgood held c → restores (restoring_recovery r) c →
  cworks (first_renewal input context r) held c (λ m c',
    at_marker (recovery_original (restoring_recovery r)) m c' ∧ truthy (prop m "renewal") = true).
Proof.
  intros Hg Hr0. unfold first_renewal. eapply works_after; [by apply keeps_generateKey|]. intros id c1 _ [-> Hid].
  eapply works_after; [by apply (calm_handoffHash config home (λ _, True))|]. intros h1 c1 Hr1 _.
  assert (cgood held c1) as Hg1 by by eapply good_rely.
  eapply works_after; [by apply (calm_handoffHash config home (λ _, True))|]. intros h2 c2 Hr2 _.
  assert (cgood held c2) as Hg2 by by eapply good_rely.
  eapply works_after; [by apply checks_current|]. intros [] c3 _ [-> _].
  assert (restores (restoring_recovery r) c2) as [Hm _] by (do 2 (eapply restores_stable; [eassumption|done|]); done).
  eapply works_bind.
  { eapply works_replace_restorable; [done|exact Hm| |].
    - by eapply with_renewal_renews.
    - by rewrite with_renewal_renewal. }
  intros [] c3 Hd3 Hn. apply works_ret; [by eapply during_inv|]. split; [done|]. by rewrite with_renewal_renewal.
Qed.

Lemma works_save_successor r m c :
  cgood held c → current_marker r m c →
  recovery_successor (restoring_recovery r) = successor_of (recovery_original (restoring_recovery r)) →
  cworks (save_successor config input context r m) held c (λ x c',
    at_marker (recovery_original (restoring_recovery r)) x.1 c').
Proof.
  intros Hg Hm Hs. unfold save_successor. destruct (negb _ && _); [|apply works_ret; [apply Hg|apply Hm]].
  eapply works_after; [by apply keeps_invoke with (R := λ _ _, True)|]. intros valid c1 Hr1 _.
  assert (cgood held c1) as Hg1 by by eapply good_rely.
  apply works_after with (R1 := λ _ _, True); [by apply keeps_refuse_when|]. intros [] c2 Hr2 _.
  assert (cgood held c2) as Hg2 by by eapply good_rely.
  assert (current_marker r m c2) as [Hm2 Hrm] by (do 2 (eapply current_marker_stable; [eassumption|done|]); done).
  eapply works_bind with (R1 := λ m c', at_marker (recovery_original (restoring_recovery r)) m c' ∧ truthy (prop m "renewal") = true).
  { destruct (truthy (prop m "renewal")) eqn:Et; [by apply works_ret; [apply Hg2|]|].
    apply works_first_renewal; [done|]. split; [|done]. by rewrite <- Hrm. }
  intros m' c3 Hd3 [Hm3 Ht3]. assert (cgood held c3) as Hg3 by by eapply during_good.
  set (P := at_marker (recovery_original (restoring_recovery r)) m').
  assert (cstable held P) as HP by apply restorable_stable. apply keeps_works. revert Hg3 Hm3. generalize c3. 
  change (cgives P held (current context ;; save_or_continue config context (recovery_successor (restoring_recovery r)) None ;;
    saved ← read config context (text_of (prop (restoring_saved r) "draft_id")); mret (m', saved))
    (λ x c', at_marker (recovery_original (restoring_recovery r)) x.1 c')).
  apply gives_after; [done|apply calm_current|]. intros _. apply gives_after; [done| |].
  { apply (calm_save_or_continue config home context); [done| |apply guards_none]. intros c' [Hm' Ho' Hc']. right. right.
    exists m'. split; [apply Hm'|]. split; [done|]. by rewrite Hs, <- Hc'. }
  intros _. apply gives_after; [done|apply (calm_read config home context)|]. intros saved. by apply gives_ret.
Qed.

Lemma works_restore_operation c :
  cgood held c → cworks (restore_operation config input renewUnsignedRevision operationId generation) held c (λ _ _, True).
Proof.
  intros Hg. unfold restore_operation. eapply works_after; [by apply (gives_restore_act (λ _, True))|]. intros r c1 Hr1 Hrs1.
  assert (cgood held c1) as Hg1 by by eapply good_rely.
  eapply works_bind; [by apply works_renew_again|]. intros m c2 Hd2 Hm2. assert (cgood held c2) as Hg2 by by eapply during_good.
  eapply works_bind; [apply works_save_successor; [done|done|apply Hrs1]|]. intros [m' saved] c3 Hd3 Hm3. simpl in Hm3.
  assert (cgood held c3) as Hg3 by by eapply during_good.
  eapply works_after; [by apply checks_current|]. intros [] c4 _ [-> _].
  destruct (is_signed (view_response saved)).
  - eapply works_after; [by apply (calm_acceptSigned config home (λ _, True))|]. intros signed c4 Hr4 _.
    assert (cgood held c4) as Hg4 by by eapply good_rely. pose proof (restorable_home _ _ _ _ _ Hm3) as Hh.
    eapply works_bind; [apply works_unmark; [done|done| |]|].
    + by intros o ->%elem_of_singleton.
    + left. by apply elem_of_singleton.
    + intros [] c5 Hd5 _. apply works_ret; [by eapply during_inv|done].
  - apply works_after with (R1 := λ _ c', c' = c3 ∧ truthy (prop m' "renewal") = true).
    { apply keeps_refuse_when; [done|]. intros E. apply orb_false_elim in E as [E _]. apply orb_false_elim in E as [E _].
      split; [done|]. by apply negb_false_iff. }
    intros [] c4 _ [-> Ht]. pose proof (renewal_home _ _ _ _ _ Hm3 Ht) as Hh.
    eapply (calm_works config home (λ _, True)); [|done|done]. pose proof (stable_true config home held) as HP.
    apply calm_bind; [done|apply calm_bind_view|]. intros _. eapply calm_bind_gives; [done|by apply gives_savedResult|].
    intros result Hkey. apply calm_bind; [done|apply calm_current|]. intros _.
    apply calm_bind; [done|apply calm_pendingMarkerFor|]. intros retained. apply calm_bind; [done|apply calm_refuse_when|]. intros _.
    apply calm_bind; [done|apply calm_remember|intros; apply calm_ret]. split; simpl; [done|]. rewrite Hkey. by intros op [= <-].
Qed.
End restoring.

Lemma works_restorePending input renew operationId c :
  cinv c → cworks (restorePending config input renew operationId) None c (λ _ _, True).
Proof.
  intros Hi. unfold restorePending. eapply works_after with (R1 := λ _ c', c' = c); [by apply keeps_done|]. intros u c1 _ ->.
  apply works_fence_run; [done|]. intros c' [Hg _]. by apply works_restore_operation.
Qed.
End recovery.
