(* ===== verification/CohortSafety.v ===== *)
(** * Every operation of the cohort keeps its conditions

    Submitting, qualified reading, editing and clearing, and with the signing
    operations of [SigningSafety] and [RecoverySafety] all that a client of
    [HttpCohort] may call ([operation_works]). *)

From S2P Require Import Prelude JsValue JsMap Async AsyncTokens BrowserStorage ScopedMetadata IdempotencyKey DraftKeys ResponseAction CohortState HttpClient DraftBindings SigningFence HttpDraftStore ResponseSigning SigningOperations SigningRecovery HttpCohort CohortConditions CohortCalculus HttpDraftSafety FenceSafety MarkerSafety SigningSafety RecoverySafety.

Section cohort.
Context `{Forms : !FormIds, Json : !JsonText, Meta : !MetadataPolicy, Can : !Canonicalize, Eng : !Engine,
  Uuid : !UuidPackage, Dig : !Digest, Hand : !HandoffBytes, Pack : !SigningPackages}.
Context (config : CohortConfig) (home : string → string).

Abbreviation conds := (cohort_conditions config home).
Abbreviation crely := (trely conds).
Abbreviation cguar := (tguarantee conds).
Abbreviation cgood := (good config home).
Abbreviation cinv := (cohort_inv home).
Abbreviation ccalm := (calm config home).
Abbreviation cchecks := (checks config home).
Abbreviation cstable := (stable config home).
Abbreviation cworks := (works config home).

Lemma checks_ret : cchecks (mret ()) (λ _, True).
Proof. intros h c Hg. by apply keeps_ret. Qed.

(** ** Submitting *)

Section submitting.
Context (key : DraftKey).
Abbreviation held := (Some (OpToken (scopeFor key))).
Abbreviation Q := (quiet home (scopeFor key)).

Lemma calm_submitOnce handoff snapshot idempotencyKey current φ options :
  cchecks current φ → ccalm Q held (submitOnce config key handoff snapshot idempotencyKey current options).
Proof.
  intros Hc. assert (cstable held Q) as HP by apply quiet_stable. assert (ccalm Q held current) as Hcur by by eapply calm_checks.
  unfold submitOnce. calm_step; [calm_step|]. calm_step; [calm_step|]. calm_step; [exact Hcur|].
  calm_step; [calm_prog|]. calm_step; [calm_prog|]. calm_step; [calm_prog|]. calm_step; [exact Hcur|]. calm_step.
  - eapply calm_requestJson; [done|done|exact Hc|done|]. intros c t _ Hq _. by eapply JustSubmit.
  - calm_prog.
Qed.

Lemma calm_transport_submit handoff idempotencyKey current φ options :
  cchecks current φ → ccalm Q held (transport_submit config key handoff idempotencyKey current options).
Proof.
  intros Hc. assert (cstable held Q) as HP by apply quiet_stable. assert (ccalm Q held current) as Hcur by by eapply calm_checks.
  unfold transport_submit, requireCanonicalResponse. calm_step; [exact Hcur|]. do 3 (calm_step; [calm_prog|]). do 3 calm_step; [calm_step|].
  destruct (default _ _) as [snapshot captured]. calm_step; [calm_prog|]. calm_step; [calm_prog|].
  destruct (replay _ !! _); [calm_prog|]. calm_step; [calm_prog|]. calm_step; [calm_prog|].
  calm_step; [by eapply calm_submitOnce|]. calm_step; [|calm_prog]. apply calm_modify. intros c'. unfold end_submission.
  match goal with |- context [match ?o with _ => _ end] => destruct o end; by split.
Qed.

Lemma works_submit_operation handoff operationId guard options generation c :
  key = draftKeyFromHandoff handoff → cgood held c →
  cworks (submit_operation config handoff operationId guard options generation) held c (λ _ _, True).
Proof.
  intros Ek Hg. assert (cstable held Q) as HP by apply quiet_stable. unfold submit_operation, assertEditable. rewrite <- Ek.
  eapply works_after; [by apply keeps_refuseUnresolved|]. intros [] c1 _ [-> Hq].
  eapply (calm_works config home Q); [|done|done]. calm_step; [calm_step|]. calm_step; [calm_step|].
  destruct (task_selection config); [calm_prog|]. eapply calm_transport_submit, checks_seq; [apply checks_current|apply checks_guard].
Qed.
End submitting.

Lemma works_submit handoff operationId guard options c :
  cinv c → cworks (submit config handoff operationId guard options) None c (λ _ _, True).
Proof.
  intros Hi. unfold submit. eapply works_after; [by apply checks_guard|]. intros [] c1 _ [-> _].
  apply works_fence_run; [done|]. intros c' [Hg _]. by eapply works_submit_operation.
Qed.

(** ** Reading *)

Section reading.
Context (key : DraftKey).
Abbreviation s := (scopeFor key).
Abbreviation held := (Some (OpToken s)).
Abbreviation T := (λ _ : Cohort, True).

Lemma calm_pendingRecoveryFor draftId version response : ccalm T held (pendingRecoveryFor key draftId version response).
Proof.
  pose proof (gives_pendingRecoveryFor config home (Build_PrepareResponseSigningInput (Build_SigningInput key JUndef "" JUndef) JUndef ""
    (Build_AdmittedResponseAction JUndef "" "" "" "")) T draftId version response) as Hr.
  by eapply gives_calm.
Qed.

Lemma calm_qualifyReadState policy current φ view :
  cchecks current φ → ccalm T held (qualifyReadState config policy key current view).
Proof.
  intros Hc. assert (ccalm T held current) as Hcur by by eapply calm_checks.
  assert (cstable held T) as HP by done. pose proof calm_pendingRecoveryFor as Hrec.
  unfold qualifyReadState, qualify_pending, qualify_signed. calm_prog.
Qed.

Lemma calm_scoped_read {A} (qualify : jsv → prog A) generation guard missing selection :
  (∀ view, ccalm T held (qualify view)) →
  ccalm T held (store_read (signing_store config) key qualify
    (assertSynchronousGuard guard ;; assertCurrent key generation) missing selection).
Proof.
  intros Hq. eapply calm_store_read; [done|apply checks_seq; [apply checks_guard|apply checks_current]|done].
Qed.
End reading.

(** An operation of calm parts, run in its scope. *)
Lemma works_run_calm {A} key (operation : N → prog A) c :
  (∀ g, ccalm (λ _, True) (Some (OpToken (scopeFor key))) (operation g)) → cinv c → cworks (fence_run key operation) None c (λ _ _, True).
Proof. intros Hop Hi. apply works_fence_run; [done|]. intros c' [Hg _]. by eapply (calm_works config home (λ _, True)). Qed.

Lemma works_scoped_load key c : cinv c → cworks (scoped_load config key) None c (λ _ _, True).
Proof.
  apply works_run_calm. intros g. apply calm_bind; [done|eapply calm_store_load; [done|apply checks_current]|]. intros r. apply calm_ret.
Qed.

Lemma works_scoped_readState policy key guard c : cinv c → cworks (scoped_readState config policy key guard) None c (λ _ _, True).
Proof.
  apply works_run_calm. intros g. set (current := assertSynchronousGuard guard ;; assertCurrent key g).
  assert (cchecks current (λ c, True ∧ fence_current key g c = true)) as Hc by (apply checks_seq; [apply checks_guard|apply checks_current]).
  apply calm_bind; [done|by eapply calm_checks|]. intros _. apply calm_bind; [done| |].
  - apply calm_scoped_read. intros view. by eapply calm_qualifyReadState.
  - intros state. apply calm_bind; [done|by eapply calm_checks|]. intros _. apply calm_ret.
Qed.

Lemma works_scoped_resumeState policy key selection guard c :
  cinv c → cworks (scoped_resumeState config policy key selection guard) None c (λ _ _, True).
Proof.
  intros Hi. unfold scoped_resumeState. eapply works_bind.
  2:{ intros state c' Hd _. apply works_ret; [by eapply during_inv|done]. }
  apply works_run_calm; [|done]. intros g. set (current := assertSynchronousGuard guard ;; assertCurrent key g).
  assert (cchecks current (λ c, True ∧ fence_current key g c = true)) as Hc by (apply checks_seq; [apply checks_guard|apply checks_current]).
  apply calm_bind; [done|by eapply calm_checks|]. intros _. apply calm_bind; [done|apply calm_refuse_when|]. intros _.
  apply calm_bind; [done| |].
  - apply calm_scoped_read. intros view. apply calm_bind; [done|apply calm_refuse_when|]. intros _. by eapply calm_qualifyReadState.
  - intros state. apply calm_bind; [done|apply calm_refuse_when|]. intros _. apply calm_bind; [done|by eapply calm_checks|].
    intros _. apply calm_ret.
Qed.

(** ** Editing and clearing *)

Lemma works_scoped_save key response guard c : cinv c → cworks (scoped_save config key response guard) None c (λ _ _, True).
Proof.
  intros Hi. apply works_fence_run; [done|]. intros c1 [Hg _]. unfold assertEditable.
  eapply works_after; [by apply keeps_refuseUnresolved|]. intros [] c2 _ [-> Hq].
  eapply (calm_works config home (quiet home (scopeFor key))); [|done|done]. pose proof (quiet_stable config home (scopeFor key)) as HP.
  apply calm_bind; [done| |intros; apply calm_ret]. apply calm_store_save; [done| |apply guards_host]. intros c2 Hq2. by left.
Qed.

Lemma works_scoped_delete key c : cinv c → cworks (scoped_delete config key) None c (λ _ _, True).
Proof.
  intros Hi. apply works_fence_clear; [done|]. intros c1 Hg Hp.
  eapply works_after; [by apply calm_store_delete|]. intros [] c2 Hr _. apply works_clearScope; [by eapply good_rely|].
  by eapply clear_stable.
Qed.

Lemma works_delete_each keys c : cinv c → cworks (delete_each config keys) None c (λ _ _, True).
Proof.
  revert c. induction keys as [|key keys IH]; intros c Hi; simpl; [by apply works_ret|].
  eapply works_bind; [by apply works_scoped_delete|]. intros [] c' Hd _. apply IH. by eapply during_inv.
Qed.

(** Invalidation only advances generations. *)
Record advances (c c' : Cohort) : Prop := {
  advances_fence : ∃ f, c' = with_fence f c;
  advances_pending s : op_pending s c' = op_pending s c;
  advances_clearing s : clearing s c' ↔ clearing s c;
  advances_generation s : (generation_of s c ≤ generation_of s c')%N
}.

Lemma advances_invalidate key c : advances c (invalidate_in key c).
Proof.
  split; [by eexists|done|done|]. intros s. unfold generation_of, invalidate_in, capture, generation_of. simpl.
  destruct (decide (s = scopeFor key)) as [->|Hs]; [rewrite lookup_insert_eq|rewrite lookup_insert_ne by done]; simpl; lia.
Qed.

Lemma advances_trans c1 c2 c3 : advances c1 c2 → advances c2 c3 → advances c1 c3.
Proof.
  intros [[f1 F1] P1 C1 G1] [[f2 F2] P2 C2 G2]. split.
  - exists (λ x, f2 (f1 x)). by subst.
  - intros s. by rewrite P2.
  - intros s. by rewrite C2.
  - intros s. specialize (G1 s). specialize (G2 s). lia.
Qed.

Lemma advances_each keys c : advances c (invalidate_each keys c).
Proof.
  revert c. induction keys as [|key keys IH]; intros c; simpl; [|by eapply advances_trans; [apply advances_invalidate|]].
  split; [by exists (λ f, f); destruct c|done|done|done].
Qed.

Lemma works_advance f c : cinv c → advances c (f c) → cworks (modify f) None c (λ _ _, True).
Proof.
  intros Hi [[g Hf] Hp Hc Hg]. assert (cohort_mono home c (f c)) as Hm.
  { rewrite Hf in *. apply mono_with_fence; [exact Hg|]. intros s _. by rewrite Hc. }
  assert (cinv (f c)) as Hi' by (rewrite Hf; by apply inv_with_fence).
  apply works_modify; [|by split|done]. split; [done|]. split; [done|]. intros [s|s]; unfold token_moves; simpl.
  - rewrite Hp. split; [done|]. intros _. rewrite Hf in *. by apply held_with_fence.
  - split; [by apply bool_decide_ext|]. intros _. split; [by rewrite Hc|left; by rewrite Hp].
Qed.

Lemma works_invalidateSubject subject c : cinv c → cworks (scoped_invalidateSubject config subject) None c (λ _ _, True).
Proof.
  intros Hi. unfold scoped_invalidateSubject. pose proof (stable_true config home None) as HT.
  apply works_bind with (R1 := λ _ _, True).
  2:{ intros [] c' Hd _. apply works_ret; [by eapply during_inv|done]. }
  destruct (_ && _ && _).
  - eapply works_after; [by apply (calm_store_list config home (λ _, True))|]. intros keys c1 Hr1 _.
    assert (cinv c1) as Hi1 by apply Hr1. eapply works_bind; [apply works_advance; [done|apply advances_each]|].
    intros [] c2 Hd2 _. apply works_idle; [|by eapply during_inv]. apply calm_store_retire.
  - eapply works_after; [by apply (calm_store_list config home (λ _, True))|]. intros keys c1 Hr1 _.
    assert (cgood None c1) as Hg1 by (split; [apply Hr1|done]).
    eapply works_after; [by apply (calm_turn config home (λ _, True))|]. intros [] c2 Hr2 _. apply works_delete_each. apply Hr2.
Qed.

(** ** Whatever a client calls *)

Lemma operation_works m c : operation config home m → cinv c → cworks m None c (λ _ _, True).
Proof.
  intros Hm Hi. destruct Hm as [key|policy key guard|policy key selection guard|key response guard|key|subject|key|
    handoff operationId guard options|input guard|input|input Hh|input renew operationId].
  - by apply works_scoped_load.
  - by apply works_scoped_readState.
  - by apply works_scoped_resumeState.
  - by apply works_scoped_save.
  - eapply works_bind; [by apply works_scoped_delete|]. intros [] c' Hd _. apply works_ret; [by eapply during_inv|done].
  - by apply works_invalidateSubject.
  - eapply works_bind; [apply works_advance; [done|apply advances_invalidate]|]. intros [] c' Hd _. apply works_ret; [by eapply during_inv|done].
  - by apply works_submit.
  - by apply works_saveDraft.
  - by apply works_prepare.
  - by apply works_sign.
  - by apply works_restorePending.
Qed.
End cohort.
