(* ===== verification/CohortSamples.v ===== *)
(** * A run of the HTTP cohort

    Concrete packages, a server that keeps one draft, and a client that saves,
    prepares, signs, retries a lost signature and restores it: the inputs at
    which the theorems of [CohortTheorems] are applied. *)

From S2P Require Import Prelude JsValue Async BrowserStorage ScopedMetadata IdempotencyKey DraftKeys ResponseAction CohortState HttpClient DraftBindings SigningFence HttpDraftStore ResponseSigning SigningOperations SigningRecovery HttpCohort.

Module CohortSample.

#[export] Instance form_ids : FormIds := λ _ _, "form-1".
#[export] Instance json_text : JsonText := coded_json.
#[export] Instance metadata_policy : MetadataPolicy :=
  {| slot_readable := λ _ _, true; slot_writable := λ _ _ _, true; slot_removable := λ _ _, true |}.
#[export] Instance canonical : Canonicalize := λ v, Some (stringify v).
#[export] Instance uuid : UuidPackage := sample_uuid.
#[export] Instance digest : Digest := sample_digest.
#[export] Instance handoff_bytes : HandoffBytes := λ v, Returns (stringify v).

Definition authored_content : jsv :=
  JObj [("documentId", JStr "document-1"); ("signingIntent", JStr "attest"); ("locale", JStr "en"); ("source", JStr "source");
        ("electronicConsent", JObj [("textRef", JStr "consent"); ("version", JStr "1")]); ("affirmationText", JStr "I affirm")].

#[export] Instance packages : SigningPackages := {|
  resolveAuthoredSigningContent := λ _ _ _ _, Returns authored_content;
  hashSigningContent := λ _, Returns "content-hash";
  validatesContent := λ _, true; targetDefinitionMatches := λ _ _ _, true;
  decodeCose := λ _, Returns {| cose_methodUri := "urn:formspec:sig-method:ed25519-cose-sign1@1"; cose_alg := -8; cose_detached := true;
                                cose_signatureLength := 64; cose_kid := Some "key" |};
  decodeUtf8 := Some; is_date := λ _, true; is_uri := λ _, true; lower_case := λ s, s; nativeCurrentCheck := Returns
|}.

(** A request is planned from its reference and its inputs. *)
Definition plan (request input : jsv) : PlannedRequest :=
  let i := prop input "input" in
  let version := prop i "draftVersion" in
  let response := prop i "frozenResponse" in
  let written := [("draft_state", prop response "data"); ("canonical_response", response)] in
  if is_lit (prop request "ref") "sign" then
    {| planned_method := "POST"; planned_path := sign_path (js_to_string (prop i "draftId")); planned_headers := [];
       planned_body := JObj [("draft_version", version); ("canonical_response", response)]; planned_successStatuses := ok_statuses |}
  else if is_undefined (prop i "draftId") then
    {| planned_method := "POST"; planned_path := "/runtime/forms/form-1/drafts"; planned_headers := [];
       planned_body := JObj written; planned_successStatuses := ok_statuses |}
  else
    {| planned_method := "PATCH"; planned_path := draft_path (prop i "draftId"); planned_headers := [];
       planned_body := JObj (written ++ [("expected_draft_version", version)]); planned_successStatuses := ok_statuses |}.

#[export] Instance engine : Engine := {|
  resolveResponseAction := λ _ _, {| resolved := false; resolution_action := None |};
  resolveResponseActionValidationTuple := λ _, JUndef;
  resolveServiceRequest := λ _ ref, Returns (JObj [("ref", ref); ("outputs", JObj [])]);
  planServiceRequest := λ request input, Returns (plan request input);
  extractServiceRequestOutputs := λ _ v, Returns v;
  admit_request := λ _ _, Returns ()
|}.

Definition config : CohortConfig := {|
  cohort_signing := {|
    signing_store := {| store_client := {| baseUrl := "https://server"; scopeKey := None |};
                        requireExistingBinding := false; anonymousSessions := false |};
    signing_keyId := "key"; expectedIssuer := "https://issuer"; qualifiesPrepare := false; qualifiesSign := false;
    task_selection := None |};
  qualifiedDraftState := None; responseIdResolver := None; responseDataResolver := None; signingRequested := λ _, true
|}.

(** ** The client's inputs *)

Definition key : DraftKey :=
  {| key_formUrl := "urn:form"; key_formVersion := Some "1"; key_subjectRef := Some "subject-1"; key_partyRef := None |}.
Definition home : string → string := λ _, scopeFor key.

Definition form_definition : jsv := JObj [("url", JStr "urn:form"); ("version", JStr "1")].

Definition response : jsv :=
  JObj [("id", JStr "response-1"); ("definitionUrl", JStr "urn:form"); ("definitionVersion", JStr "1"); ("status", JStr "completed");
        ("displayedLocale", JObj [("locale", JStr "en")]); ("data", JObj [("name", JStr "Ada")])].

Definition hash64 : string := String.concat "" (repeat "0123456789abcdef" 4).

Definition action (ref : string) : AdmittedResponseAction := {|
  admitted_document := JObj [("actions", JArr [JObj [("id", JStr ref); ("effects", JArr [JObj
      [("type", JStr "serviceRequest"); ("requestRef", JStr ref); ("idempotencyKey", JStr "@invocation.id")]])]]);
    ("targetDefinition", form_definition)];
  admitted_artifactRef := "artifact"; admitted_artifactDigest := "sha256:" +:+ hash64;
  admitted_actionRef := ref; admitted_requestRef := ref |}.

Definition input : SigningInput :=
  {| in_draftKey := key; in_definition := form_definition; in_formVersionId := "version-1"; in_response := response |}.

Definition save_id : string := "00000000-0000-7000-8000-000000000001".
Definition sign_id : string := "00000000-0000-7000-8000-000000000002".

Definition save_call : prog Result :=
  saveDraft config {| save_input := input; save_formId := "form-1"; save_operationId := save_id; save_action := action "save" |} None.
Definition preparing : PrepareResponseSigningInput :=
  {| prepare_input := input; prepare_source := JStr "source"; prepare_locale := "en"; prepare_action := action "save" |}.
Definition prepare_call : prog Result := prepare config preparing.

(** ** The server *)

Definition bound_snapshot (c : Cohort) : DraftBindingSnapshot :=
  match bound (bindings c) with
  | (_, b) :: _ => b
  | [] => {| snapshot_draftId := JUndef; snapshot_draftVersion := int 0; snapshot_response := None; snapshot_responseId := None |}
  end.

Definition bound_version (c : Cohort) : Z := default 0%Z (safe_int (snapshot_draftVersion (bound_snapshot c))).

Definition view (version : Z) (r : jsv) : jsv :=
  JObj [("draft_id", JStr "d1"); ("form_version_id", JStr "version-1"); ("subject_ref", JStr "subject-1"); ("status", JStr "in_progress");
        ("draft_version", int version); ("draft_state", prop r "data"); ("canonical_response", r)].

Definition signed_by_server (candidate : jsv) : jsv :=
  let commitment := signing_content candidate in
  let content := prop commitment "content" in
  let signature := JObj
    [("signatureProvider", JStr "urn:formspec:provider:delegated-response@1"); ("signatureValue", JStr "AAAA");
     ("signerId", prop commitment "actorRef"); ("signerName", prop commitment "signerName"); ("consentAccepted", JBool true);
     ("documentId", prop content "documentId"); ("signingIntent", prop content "signingIntent");
     ("documentHash", prop commitment "documentHash"); ("documentHashAlgorithm", JStr "sha-256");
     ("consentTextRef", prop (prop content "electronicConsent") "textRef");
     ("consentVersion", prop (prop content "electronicConsent") "version"); ("affirmationText", prop content "affirmationText");
     ("signedPayload", JObj [("canonicalization", JStr "formspec-response-signing-v1"); ("digestAlgorithm", JStr "sha-256");
        ("digest", JStr "profile-digest"); ("responseId", prop candidate "id"); ("definitionUrl", prop candidate "definitionUrl");
        ("definitionVersion", prop candidate "definitionVersion"); ("signedAt", prop commitment "signedAt");
        ("signingIntent", prop content "signingIntent")])] in
  JObj (props_of candidate ++ [("authoredSignatures", JArr [signature])]).

(** What a request is answered, by the method and the path's end. *)
Definition reply_to (r : HttpRequest) : N :=
  if String.eqb (request_method r) "GET" then 0%N
  else if String.eqb (request_method r) "PATCH" then 1%N
  else if String.eqb (request_url r) "https://server/drafts/d1/sign" then 2%N else 3%N.

Definition reply_text (handle : N) (c : Cohort) : string :=
  stringify (match handle with
    | 0%N => view (bound_version c) (default JUndef (snapshot_response (bound_snapshot c)))
    | 1%N => JObj [("draft_version", int (bound_version c + 1))]
    | 2%N => match map_to_list (acts (signing c)) with
             | (_, act) :: _ => view (act_version act + 1) (signed_by_server (act_candidate act))
             | [] => JUndef
             end
    | _ => JObj [("draft_id", JStr "d1"); ("draft_version", int 1)]
    end).

(** [signing_works] is whether the server answers the Sign request. *)
Definition answer (signing_works : bool) (X : Type) (q : call X) (c : Cohort) : option (outcome cohort_failure X) :=
  match q in call X return option (outcome cohort_failure X) with
  | Turn => Some (Returns ())
  | AccessToken => Some (Returns None)
  | Fetch _ r =>
      if negb signing_works && (reply_to r =? 2)%N then Some (Throws (CohortError "network"))
      else Some (Returns {| reply_status := 200; reply_contentType := Some "application/json"; reply_cacheControl := None;
                            reply_handle := reply_to r |})
  | ReadBody reply => Some (Returns (reply_text (reply_handle reply) c))
  | ValidateResponse _ | ValidateCanonical _ => Some (Returns true)
  | SigningProfileDigest _ => Some (Returns "profile-digest")
  | Now => Some (Returns "2024-01-01T00:00:00Z")
  | GenerateKey s => if String.eqb s (scopeFor key) then Some (Returns "00000000-0000-7000-8000-000000000009") else None
  | AwaitPending s id => if decide (fence_pending (fence c) !! s = Some id) then None else Some (Returns ())
  | AwaitSaves ids => if decide (ids ## pendingSaves (drafts c)) then Some (Returns ()) else None
  | JoinPromise id => promises c !! id
  | _ => Some (Throws (CohortError "unused"))
  end.

Lemma answer_answers b X (q : call X) c a : answer b X q c = Some a → answers home q a c.
Proof.
  unfold answer, answers. destruct q; intros E; try done; try (injection E as <-; done).
  - destruct (String.eqb scope (scopeFor key)) eqn:Es; [|done]. intros id _. by apply String.eqb_eq in Es as ->.
  - destruct (decide _); [done|]. by injection E as <-.
  - destruct (decide _); [|done]. by injection E as <-.
Qed.

Definition run (b : bool) (steps : list (prog Result)) (c : Cohort) : option (list (outcome cohort_failure Result) * Cohort) :=
  alone_all (answer b) steps c.
Definition log (b : bool) (steps : list (prog Result)) (c : Cohort) : list dispatch := alone_all_log observe (answer b) steps c.

Definition start : Cohort := fresh_cohort ∅.
Definition state_after (b : bool) (steps : list (prog Result)) (c : Cohort) : Cohort :=
  match run b steps c with Some (_, c') => c' | None => c end.

(** The last answer of a run. *)
Definition answered (b : bool) (steps : list (prog Result)) (c : Cohort) : option (outcome cohort_failure Result) :=
  os ← run b steps c; last os.1.

Definition prepared : N * PreparedResponseSigning :=
  match answered true [save_call; prepare_call] start with
  | Some (Returns (Prepared n p)) => (n, p)
  | _ => (0%N, Build_PreparedResponseSigning (Build_SavedResponseDraft key JUndef (Build_DraftRef "" (NInt 0) "") ""
                 (view_evidence JUndef)) JUndef)
  end.

Definition sign_input : SignPreparedResponseInput :=
  {| sign_reference := prepared.1; sign_preparation := prepared.2; sign_signerName := "Ada"; sign_consent := true;
     sign_operationId := sign_id; sign_action := action "sign" |}.
Definition sign_call : prog Result := sign config sign_input.

End CohortSample.
