(* ===== verification/CohortTheorems.v ===== *)
(** * What the HTTP cohort guarantees

    Whatever a client calls and however the operations interleave: one request
    at a time in a scope, and none while it is cleared; no act is signed before
    its marker is written; a scope with an unresolved act is neither edited nor
    submitted; a retried Sign request is the same request; and nothing stays
    held when every operation has settled.  [LostMarker] shows two first saves at
    once that lose a create marker. *)

From S2P Require Import Prelude JsValue JsMap Async AsyncTokens BrowserStorage ScopedMetadata IdempotencyKey DraftKeys ResponseAction CohortState HttpClient DraftBindings SigningFence HttpDraftStore ResponseSigning SigningOperations SigningRecovery HttpCohort CohortConditions CohortCalculus HttpDraftSafety FenceSafety MarkerSafety SigningSafety RecoverySafety CohortSafety CohortSamples.

(** ** The requests *)

Fixpoint last_char (s : string) : option Ascii.ascii :=
  match s with EmptyString => None | String a EmptyString => Some a | String _ s' => last_char s' end.

Lemma last_char_app p s : s ≠ "" → last_char (p +:+ s) = last_char s.
Proof.
  intros Hs. induction p as [|b p IH]; [done|]. simpl. rewrite IH. destruct (p +:+ s) eqn:E; [|done]. by destruct p.
Qed.

Definition posts_to (suffix : string) (r : HttpRequest) : Prop :=
  request_method r = "POST" ∧ ∃ p, request_url r = p +:+ suffix.

(** A Sign request, a submission, and a save or creation of a draft. *)
Definition is_sign : HttpRequest → Prop := posts_to "/sign".
Definition is_submit : HttpRequest → Prop := posts_to "/submit".
Definition is_edit (r : HttpRequest) : Prop := request_method r = "PATCH" ∨ posts_to "/drafts" r.

Section theorems.
Context `{Forms : !FormIds, Json : !JsonText, Meta : !MetadataPolicy, Can : !Canonicalize, Eng : !Engine,
  Uuid : !UuidPackage, Dig : !Digest, Hand : !HandoffBytes, Pack : !SigningPackages}.
Context (config : CohortConfig) (home : string → string).

Abbreviation conds := (cohort_conditions config home).
Abbreviation cli := (store_client (signing_store config)).
Abbreviation cinv := (cohort_inv home).
Abbreviation creachable := (reachable (@yields) (@answers home) observe (operation config home)).
Abbreviation cthread := (thread (C := Cohort) (F := cohort_failure) (call := call) Result).

(** The last characters of the URLs tell the requests apart. *)
Lemma sign_url id : last_char (urlFor cli (sign_path id)) = last_char "/sign".
Proof.
  change (urlFor cli (sign_path id)) with (baseUrl cli +:+ "/" +:+ ("drafts/" +:+ encodeURIComponent (js_to_string (JStr id))) +:+ "/sign").
  by rewrite !last_char_app.
Qed.

Lemma submit_url id : last_char (urlFor cli (submit_path id)) = last_char "/submit".
Proof.
  change (urlFor cli (submit_path id)) with (baseUrl cli +:+ "/" +:+ ("drafts/" +:+ encodeURIComponent (js_to_string id)) +:+ "/submit").
  by rewrite !last_char_app.
Qed.

Lemma create_url key : last_char (urlFor cli (create_path key)) = last_char "/drafts".
Proof.
  change (urlFor cli (create_path key)) with (baseUrl cli +:+ "/" +:+
    ("runtime/forms/" +:+ encodeURIComponent (resolveFormId (key_formUrl key) (key_formVersion key))) +:+ "/drafts").
  by rewrite !last_char_app.
Qed.

Lemma validateAction_planned a planned :
  validateAction a = Returns planned →
  planned_path planned = sign_path (act_draft_id a) ∧ same (planned_body planned) (sign_body a) = true.
Proof.
  unfold validateAction, act_draft_id. destruct (List.filter _ _) as [|item [|? ?]]; try done.
  destruct (prop item "effects") as [| | | | |[|e [|? ?]]|]; try done.
  destruct (throw_when _ _) as [[]|]; [simpl|done]. destruct (admittedRequest _ _) as [q|]; [simpl|done].
  destruct (planServiceRequest _ _) as [p|]; [simpl|done]. unfold throw_when. destruct (_ || _ || _ || _) eqn:E; [done|].
  intros [= <-]. apply orb_false_elim in E as [E E4]. apply orb_false_elim in E as [_ E3].
  apply negb_false_iff in E3, E4. split; [by apply String.eqb_eq|done].
Qed.

(** The request that signs an act. *)
Record signs (a : FrozenAct) (r : HttpRequest) : Prop := {
  signs_url : request_url r = urlFor cli (sign_path (act_draft_id a));
  signs_body : ∃ body, request_body r = Some body ∧ same body (sign_body a) = true;
  signs_key : act_operationId a ≠ "" → map_get (request_headers r) "idempotency-key" = Some (act_operationId a)
}.

Lemma sign_request_signs a r : sign_request config a r → signs a r.
Proof.
  intros [(p & Hp & Hb & Hu) _ Hk]. destruct (validateAction_planned _ _ Hp) as [Ep Eb]. split; [by rewrite Hu, Ep|by exists (planned_body p)|done].
Qed.

Lemma posts_to_last suffix r : suffix ≠ "" → posts_to suffix r → request_method r = "POST" ∧ last_char (request_url r) = last_char suffix.
Proof. intros Hs [Hm [p Hu]]. split; [done|]. rewrite Hu. by apply last_char_app. Qed.

Lemma is_sign_justified key r c :
  justified config home key r c → is_sign r →
  ∃ op a, home op = scopeFor key ∧ act_at op c = Some a ∧ ¬ clearing (home op) c ∧ sign_request config a r.
Proof.
  intros Hj [Hm Hu]%posts_to_last; [|done].
  assert (∀ response, draft_write config key response r → False) as Hw.
  { intros response [(existing & Hm' & _)|(token & _ & Hu' & _)]; [congruence|]. by rewrite Hu', create_url in Hu. }
  destruct Hj as [Hg|response _ Hd|op a _ _ Hd|m _ _ Hd|op a Hop Ha Hc Hs|draftId _ _ Hu'].
  - congruence.
  - by destruct (Hw response).
  - by destruct (Hw (act_candidate a)).
  - by eapply Hw in Hd.
  - by exists op, a.
  - by rewrite Hu', submit_url in Hu.
Qed.

Lemma is_submit_justified key r c : justified config home key r c → is_submit r → quiet home (scopeFor key) c.
Proof.
  intros Hj [Hm Hu]%posts_to_last; [|done].
  assert (∀ response, draft_write config key response r → False) as Hw.
  { intros response [(existing & Hm' & _)|(token & _ & Hu' & _)]; [congruence|]. by rewrite Hu', create_url in Hu. }
  destruct Hj as [Hg|response Hq _|op a _ _ Hd|m _ _ Hd|op a Hop Ha Hc Hs|draftId Hq _ _].
  - congruence.
  - done.
  - by destruct (Hw (act_candidate a)).
  - by eapply Hw in Hd.
  - by rewrite (signs_url _ _ (sign_request_signs _ _ Hs)), sign_url in Hu.
  - done.
Qed.

(** What an edit of a draft writes. *)
Definition edits (key : DraftKey) (r : HttpRequest) (c : Cohort) : Prop :=
  ∃ response, draft_write config key response r ∧
    (quiet home (scopeFor key) c ∨
     (∃ op a, home op = scopeFor key ∧ act_at op c = Some a ∧ act_candidate a = response) ∨
     ∃ m, scope_markers (scopeFor key) c = [m] ∧ truthy (prop m "renewal") = true ∧
       response = successor_of (prop (prop m "renewal") "originalCandidate")).

Lemma is_edit_justified key r c : justified config home key r c → is_edit r → edits key r c.
Proof.
  intros Hj He.
  assert (request_method r = "PATCH" ∨ (request_method r = "POST" ∧ last_char (request_url r) = last_char "/drafts")) as He'.
  { destruct He as [Hm|He]; [by left|right]. by apply posts_to_last. }
  destruct Hj as [Hg|response Hq Hd|op a Hop Ha Hd|m Hm Ht Hd|op a Hop Ha Hc Hs|draftId _ Hm Hu].
  - destruct He' as [?|[? _]]; congruence.
  - exists response. by split; [|left].
  - exists (act_candidate a). split; [done|]. right. left. by exists op, a.
  - eexists. split; [exact Hd|]. right. right. by exists m.
  - destruct He' as [Hm|[_ Hu]]; [by rewrite (sign_method _ _ _ Hs) in Hm|].
    by rewrite (signs_url _ _ (sign_request_signs _ _ Hs)), sign_url in Hu.
  - destruct He' as [?|[_ Hu']]; [congruence|]. by rewrite Hu, submit_url in Hu'.
Qed.

(** ** Every run *)

(** What is known of the requests dispatched so far. *)
Record dispatched (c : Cohort) (e : dispatch) : Prop := {
  dispatched_justified : justified config home (dispatch_key e) (dispatch_request e) (dispatch_state e);
  dispatched_inv : cinv (dispatch_state e);
  dispatched_mono : cohort_mono home (dispatch_state e) c
}.

Record recorded (l : list dispatch) (c : Cohort) : Prop := {
  recorded_each : Forall (dispatched c) l;
  recorded_order i j e1 e2 : l !! i = Some e1 → l !! j = Some e2 → i < j → cohort_mono home (dispatch_state e1) (dispatch_state e2)
}.

Lemma dispatches_mono l c c' : cinv c' → cohort_mono home c c' → recorded l c → recorded l c'.
Proof.
  intros _ Hm [He Ho]. split; [|done]. eapply Forall_impl; [exact He|]. intros e [H1' H2' H3']. split; [done|done|by transitivity c].
Qed.

Lemma dispatches_issue X (q : call X) h c l :
  cinv c → cohort_issue config home X q h c → owns conds h c → recorded l c → recorded (l ++ observe X q c) c.
Proof.
  intros Hi Hq _ Hr. destruct q; simpl; rewrite ?app_nil_r; try done. destruct Hq as [_ Hj]. destruct Hr as [He Ho]. split.
  - apply Forall_app. split; [done|]. apply Forall_singleton. by split.
  - intros i j e1 e2 Hi1 Hj2 Hij. apply lookup_snoc_Some in Hj2 as [[Hlt Hj2]|[-> <-]].
    + apply (Ho i j); [|done|done]. rewrite lookup_app_l in Hi1; [done|lia].
    + rewrite lookup_app_l in Hi1 by done. rewrite Forall_lookup in He. by apply (dispatched_mono _ _ (He i e1 Hi1)).
Qed.

(** What a waiting thread holds. *)
Definition kept (X : Type) (q : call X) (h : option token) (c : Cohort) : Prop :=
  match q with
  | Fetch key _ => h = Some (OpToken (scopeFor key))
  | ClearAnonymousSession key _ => h = Some (ClearToken (scopeFor key)) ∧ op_pending (scopeFor key) c = None
  | _ => True
  end.

Lemma kept_issue X (q : call X) h c : cinv c → cohort_issue config home X q h c → kept X q h c.
Proof. intros _. destruct q; simpl; try done. by intros []. Qed.

Lemma kept_rely X (q : call X) h c c' : trely conds h c c' → kept X q h c → kept X q h c'.
Proof.
  intros (_ & _ & Hh). destruct q; simpl; try done. intros [-> Hp]. split; [done|]. specialize (Hh _ eq_refl). simpl in Hh.
  destruct (held_quiet _ _ _ Hh); congruence.
Qed.

Lemma entries_ok m c : operation config home m → cinv c → tok (@yields) (@answers home) conds m None c empty_handed.
Proof. intros Hm Hi. eapply tok_weaken; [|by apply operation_works]. by intros h o c' (-> & _). Qed.

(** The metadata an earlier page left. *)
Definition left_behind (m : gmap string jsv) : Prop := Forall (marker_home home) (arr_of (default JUndef (m !! sign_slot))).

Lemma fresh_inv m : left_behind m → cinv (fresh_cohort m).
Proof. intros Hm. split; [exact Hm|done|]. simpl. intros n p context. by rewrite lookup_empty. Qed.

Lemma cohort_reachable m w : left_behind m → creachable (fresh_cohort m) w → ∃ H, tworld_ok (@yields) (@answers home) conds recorded kept w H.
Proof.
  intros Hm Hw. eapply tokens_reachable_ok; [apply cohort_conditions_ok|apply dispatches_mono|apply dispatches_issue|apply kept_issue|
    apply kept_rely|apply entries_ok|by apply fresh_inv| | |exact Hw].
  - intros [s|s]; apply bool_decide_eq_false_2; unfold op_pending, clearing; simpl; [rewrite lookup_empty; by intros []|apply not_elem_of_empty].
  - split; [done|]. intros i j e1 e2 E. done.
Qed.

(** A thread that waits for a reply in a scope, or for the scope's session to be
    given up. *)
Definition requests_in (s : string) (t : cthread) : Prop :=
  match t with Waiting q _ => match q with Fetch key _ => scopeFor key = s | _ => False end | Finished _ => False end.
Definition clears_in (s : string) (t : cthread) : Prop :=
  match t with Waiting q _ => match q with ClearAnonymousSession key _ => scopeFor key = s | _ => False end | Finished _ => False end.

Lemma requests_hold s t h c : tthread_ok (@yields) (@answers home) conds kept t h c → requests_in s t → h = Some (OpToken s).
Proof. destruct t as [o|X q k]; [done|]. intros [Hk _]. destruct q; simpl; try done. by intros <-. Qed.

Lemma clears_hold s t h c :
  tthread_ok (@yields) (@answers home) conds kept t h c → clears_in s t → h = Some (ClearToken s) ∧ op_pending s c = None.
Proof. destruct t as [o|X q k]; [done|]. intros [Hk _]. destruct q; simpl; try done. by intros <-. Qed.

(** C5. Whatever operations run at once, at most one of them has a request under
    way in a scope, and none has while the scope's session is being given up. *)
Theorem scope_requests_exclusive m w i j s ti tj :
  left_behind m → creachable (fresh_cohort m) w → threads w i = Some ti → threads w j = Some tj → requests_in s ti →
  (requests_in s tj → i = j) ∧ ¬ clears_in s tj.
Proof.
  intros Hm Hw Hi Hj Hri. destruct (cohort_reachable m w Hm Hw) as [H HW].
  pose proof (requests_hold s ti _ _ (two_threads _ _ _ _ _ _ _ HW i ti Hi) Hri) as Hhi. split.
  - intros Hrj. pose proof (requests_hold s tj _ _ (two_threads _ _ _ _ _ _ _ HW j tj Hj) Hrj) as Hhj.
    exact (two_unique _ _ _ _ _ _ _ HW i j _ Hhi Hhj).
  - intros Hcj. destruct (clears_hold s tj _ _ (two_threads _ _ _ _ _ _ _ HW j tj Hj) Hcj) as [_ Hp].
    assert (cohort_locked (OpToken s) (shared w) = true) as Hl by (apply (two_taken _ _ _ _ _ _ _ HW); eauto).
    simpl in Hl. apply bool_decide_eq_true_1 in Hl. rewrite Hp in Hl. by destruct Hl.
Qed.

(** C18. When every operation has settled, even by an error, no scope is left
    running or being cleared: the next operation of any scope is admitted. *)
Theorem settled_cohort_free m w key :
  left_behind m → creachable (fresh_cohort m) w → (∀ i t, threads w i = Some t → ∃ o, t = Finished o) →
  fence_pending (fence (shared w)) !! scopeFor key = None ∧ scopeFor key ∉ fence_clearing (fence (shared w)).
Proof.
  intros Hm Hw Hfin. destruct (cohort_reachable m w Hm Hw) as [H HW].
  assert (∀ k, cohort_locked k (shared w) = false) as Hl.
  { intros k. apply not_true_iff_false. intros Hl. apply (two_taken _ _ _ _ _ _ _ HW) in Hl as [i Hi].
    destruct (threads w i) as [t|] eqn:Et; [|by rewrite (two_absent _ _ _ _ _ _ _ HW i Et) in Hi].
    destruct (Hfin i t Et) as [o ->]. pose proof (two_threads _ _ _ _ _ _ _ HW i _ Et) as Ho. simpl in Ho. congruence. }
  split.
  - pose proof (Hl (OpToken (scopeFor key))) as E. simpl in E. apply bool_decide_eq_false_1 in E. by apply eq_None_not_Some.
  - pose proof (Hl (ClearToken (scopeFor key))) as E. simpl in E. by apply bool_decide_eq_false_1 in E.
Qed.

Lemma event_dispatched m w e : left_behind m → creachable (fresh_cohort m) w → e ∈ events w → dispatched (shared w) e.
Proof.
  intros Hm Hw He. destruct (cohort_reachable m w Hm Hw) as [H HW].
  pose proof (recorded_each _ _ (two_recorded _ _ _ _ _ _ _ HW)) as Hall. rewrite Forall_forall in Hall. by apply Hall.
Qed.

(** C3. Every Sign request is for an act that was frozen under its own operation
    id, in a scope that is not being cleared; it sends that act's candidate and
    version, and the scope's one durable marker is already the act's, unless the
    act's signature was verified or the act was settled or replaced by
    [restorePending]. *)
Theorem sign_write_ahead m w e :
  left_behind m → creachable (fresh_cohort m) w → e ∈ events w → is_sign (dispatch_request e) →
  ∃ op a, home op = scopeFor (dispatch_key e) ∧ act_at op (dispatch_state e) = Some a ∧ act_operationId a = op ∧
    ¬ clearing (home op) (dispatch_state e) ∧ signs a (dispatch_request e) ∧
    (act_result a ≠ None ∨ retired op (dispatch_state e) ∨ marked home op a (dispatch_state e)).
Proof.
  intros Hm Hw He Hs. destruct (event_dispatched m w e Hm Hw He) as [Hj Hi _].
  destruct (is_sign_justified _ _ _ Hj Hs) as (op & a & Hop & Ha & Hc & Hr). destruct (inv_acts _ _ Hi op a Ha) as [Hid _ _ Hmk].
  exists op, a. do 4 (split; [done|]). split; [by apply sign_request_signs|].
  destruct (act_result a) eqn:Er; [by left|]. destruct (decide (op ∈ superseded (signing (dispatch_state e)))) as [Hre|Hre].
  - right. by left.
  - right. right. by apply Hmk.
Qed.

(** C6. While a scope has an unresolved act or a marker, nothing of it is
    submitted, and its draft is written only the candidate of an act already
    frozen or the successor that its one marker names. *)
Theorem unresolved_scope_frozen m w e :
  left_behind m → creachable (fresh_cohort m) w → e ∈ events w → ¬ quiet home (scopeFor (dispatch_key e)) (dispatch_state e) →
  ¬ is_submit (dispatch_request e) ∧
  (is_edit (dispatch_request e) → ∃ response, draft_write config (dispatch_key e) response (dispatch_request e) ∧
    ((∃ op a, home op = scopeFor (dispatch_key e) ∧ act_at op (dispatch_state e) = Some a ∧ act_candidate a = response) ∨
     ∃ mk, scope_markers (scopeFor (dispatch_key e)) (dispatch_state e) = [mk] ∧ truthy (prop mk "renewal") = true ∧
       response = successor_of (prop (prop mk "renewal") "originalCandidate"))).
Proof.
  intros Hm Hw He Hq. destruct (event_dispatched m w e Hm Hw He) as [Hj _ _]. split.
  - intros Hs. by apply Hq, (is_submit_justified _ _ _ Hj).
  - intros Hd. destruct (is_edit_justified _ _ _ Hj Hd) as (response & Hw' & [Hq'|Hr]); [done|]. by exists response.
Qed.

Lemma signed_operation e c op :
  validateUuid "" = false → dispatched c e → is_sign (dispatch_request e) →
  map_get (request_headers (dispatch_request e)) "idempotency-key" = Some op →
  ∃ a, act_at op (dispatch_state e) = Some a ∧ ¬ clearing (home op) (dispatch_state e) ∧ sign_request config a (dispatch_request e).
Proof.
  intros Hu [Hj Hi _] Hs Hk. destruct (is_sign_justified _ _ _ Hj Hs) as (op' & a & Hop & Ha & Hc & Hr).
  destruct (inv_acts _ _ Hi op' a Ha) as [Hid _ Hv _]. assert (op' ≠ "") as Hne.
  { intros ->. unfold isUuidV7IdempotencyKey in Hv. by rewrite Hu in Hv. }
  rewrite (sign_key _ _ _ Hr), Hid in Hk by (by rewrite Hid). injection Hk as <-. by exists a.
Qed.

(** C4. Two Sign requests with one idempotency key, in one generation of their
    scope, are the same request: a retry after a lost reply signs exactly what
    the first request asked to sign. *)
Theorem sign_retries_identical m w i j e1 e2 op :
  validateUuid "" = false → left_behind m → creachable (fresh_cohort m) w →
  events w !! i = Some e1 → events w !! j = Some e2 → i < j → is_sign (dispatch_request e1) → is_sign (dispatch_request e2) →
  map_get (request_headers (dispatch_request e1)) "idempotency-key" = Some op →
  map_get (request_headers (dispatch_request e2)) "idempotency-key" = Some op →
  generation_of (home op) (dispatch_state e1) = generation_of (home op) (dispatch_state e2) →
  request_url (dispatch_request e1) = request_url (dispatch_request e2) ∧
  request_body (dispatch_request e1) = request_body (dispatch_request e2).
Proof.
  intros Hu Hm Hw Hi Hj Hij Hs1 Hs2 Hk1 Hk2 Hg.
  assert (dispatched (shared w) e1) as Hd1 by (eapply event_dispatched; [done|done|by eapply list_elem_of_lookup_2]).
  assert (dispatched (shared w) e2) as Hd2 by (eapply event_dispatched; [done|done|by eapply list_elem_of_lookup_2]).
  destruct (cohort_reachable m w Hm Hw) as [H HW].
  pose proof (recorded_order _ _ (two_recorded _ _ _ _ _ _ _ HW) i j e1 e2 Hi Hj Hij) as Hmono.
  destruct (signed_operation e1 _ op Hu Hd1 Hs1 Hk1) as (a1 & Ha1 & Hc1 & Hr1).
  destruct (signed_operation e2 _ op Hu Hd2 Hs2 Hk2) as (a2 & Ha2 & Hc2 & Hr2).
  destruct (mono_acts _ _ _ Hmono op a1 Hg Hc1 Ha1) as (a2' & Ha2' & Ecore). rewrite Ha2 in Ha2'. injection Ha2' as <-.
  destruct (sign_planned _ _ _ Hr1) as (p1 & Hp1 & Hb1 & Hu1). destruct (sign_planned _ _ _ Hr2) as (p2 & Hp2 & Hb2 & Hu2).
  rewrite (validateAction_core a2 a1 Ecore), Hp1 in Hp2. injection Hp2 as <-. split; congruence.
Qed.
End theorems.

(** ** A run that loses a signature *)

Module LostSignature.
Import CohortSample.

(** Save, prepare, and sign twice; the server answers neither Sign request. *)
Definition steps : list (prog Result) := [save_call; prepare_call; sign_call; sign_call].
Definition lost : Cohort := state_after false steps start.
Definition requests : list dispatch := log false steps start.

Lemma steps_operations : Forall (operation config home) steps.
Proof.
  assert (operation config home sign_call) as Hs by (apply op_sign; vm_compute; reflexivity).
  repeat (apply Forall_cons; split); [apply op_saveDraft|apply op_prepare|done|done|by apply Forall_nil].
Qed.

Lemma left_behind_none : left_behind home ∅.
Proof. by apply Forall_nil. Qed.

Lemma lost_runs : isSome (run false steps start) = true.
Proof. vm_compute. reflexivity. Qed.

Lemma lost_world : ∃ w, reachable (@yields) (@answers home) observe (operation config home) start w ∧ shared w = lost ∧
  events w = requests ∧ (∀ j, (4 ≤ j)%N → threads w j = None) ∧ (∀ j t, threads w j = Some t → ∃ o, t = Finished o).
Proof.
  destruct (run false steps start) as [[os c]|] eqn:E; [|by pose proof lost_runs as Hr; rewrite E in Hr].
  destruct (alone_all_reachable (@yields) (@answers home) observe (answer false) (answer_answers false) (operation config home)
    steps (initial start) 0 os c steps_operations) as (w & Hs & Hc & He & Hn & Hf); [done|done|exact E|].
  exists w. split; [exact Hs|]. split; [unfold lost, state_after; rewrite E; exact Hc|].
  split; [rewrite He; unfold requests, log, initial; cbn [events shared app]; reflexivity|exact (conj Hn Hf)].
Qed.

Definition signs_at (n : nat) (requests : list dispatch) : bool :=
  match requests !! n with
  | Some e =>
      let r := dispatch_request e in
      String.eqb (request_method r) "POST" && String.eqb (request_url r) "https://server/drafts/d1/sign"
      && bool_decide (map_get (request_headers r) "idempotency-key" = Some sign_id)
      && (generation_of (scopeFor key) (dispatch_state e) =? 0)%N
      && negb (bool_decide (scope_markers (scopeFor key) (dispatch_state e) = []))
  | None => false
  end.

Lemma signs_at_spec n l : signs_at n l = true →
  ∃ e, l !! n = Some e ∧ is_sign (dispatch_request e) ∧
    map_get (request_headers (dispatch_request e)) "idempotency-key" = Some sign_id ∧
    generation_of (scopeFor key) (dispatch_state e) = 0%N ∧ scope_markers (scopeFor key) (dispatch_state e) ≠ [].
Proof.
  unfold signs_at. destruct (l !! n) as [e|]; [|done]. rewrite !andb_true_iff, negb_true_iff.
  intros [[[[Hm%String.eqb_eq Hu%String.eqb_eq] Hk%bool_decide_eq_true_1] Hg%N.eqb_eq] Hq%bool_decide_eq_false_1].
  exists e. split; [done|]. split; [split; [done|]|done]. by exists "https://server/drafts/d1".
Qed.

(** A third attempt, stopped while its first request is under way. *)
Definition asking {A B} (r : option (list (thread (C := Cohort) (F := cohort_failure) (call := call) Result) * A * B)) : bool :=
  match r with
  | Some ([Waiting q _], _, _) => match q with Fetch k _ => String.eqb (scopeFor k) (scopeFor key) | _ => false end
  | _ => false
  end.

Lemma asking_spec {A B} ts (a : A) (b : B) : asking (Some (ts, a, b)) = true → ∃ t, ts = [t] ∧ requests_in (scopeFor key) t.
Proof.
  destruct ts as [|[o|X q k] [|]]; try done. cbn [asking]. intros Hq. exists (Waiting q k). split; [done|].
  cbn [requests_in]. destruct q; try done. by apply String.eqb_eq.
Qed.

Definition third_attempt : list (prog Result + nat) := inl sign_call :: repeat (inr 0) 3.

Lemma asking_world : ∃ w t, reachable (@yields) (@answers home) observe (operation config home) start w ∧ threads w 4%N = Some t ∧
  requests_in (scopeFor key) t.
Proof.
  destruct lost_world as (w & Hw & Hc & _ & Hn & _).
  assert (asking (play (@yields) observe (answer true) third_attempt [] lost) = true) as Ha by (vm_compute; reflexivity).
  destruct (play (@yields) observe (answer true) third_attempt [] lost) as [[[ts c] l]|] eqn:E; [|discriminate Ha].
  apply asking_spec in Ha as (t & -> & Ht). rewrite <- Hc in E.
  destruct (play_reachable (@yields) (@answers home) observe (answer true) (answer_answers true) (operation config home) 4%N
    third_attempt w [] [t] c l) as (w' & Hs & Ht' & _).
  - apply Forall_cons; split; [exact (proj1 (Forall_lookup _ _) steps_operations 2 sign_call eq_refl)|by apply Forall_nil].
  - intros i. rewrite lookup_nil. apply Hn. lia.
  - exact E.
  - exists w', t. split; [|exact (conj (Ht' 0) Ht)]. unfold reachable in *. etransitivity; [exact Hw|exact Hs].
Qed.

Lemma lost_signs : ∃ e1 e2, requests !! 8 = Some e1 ∧ requests !! 11 = Some e2 ∧
  is_sign (dispatch_request e1) ∧ is_sign (dispatch_request e2).
Proof.
  destruct (signs_at_spec 8 requests) as (e1 & H1' & Hs1 & _); [vm_compute; reflexivity|].
  destruct (signs_at_spec 11 requests) as (e2 & H2' & Hs2 & _); [vm_compute; reflexivity|].
  exact (ex_intro _ e1 (ex_intro _ e2 (conj H1' (conj H2' (conj Hs1 Hs2))))).
Qed.

Lemma sign_is_known : validateUuid "" = false.
Proof. vm_compute. reflexivity. Qed.

Lemma scope_requests_exclusive_witness : ∃ w t, reachable (@yields) (@answers home) observe (operation config home) start w ∧
  threads w 4%N = Some t ∧ requests_in (scopeFor key) t ∧ ∀ j tj, threads w j = Some tj → requests_in (scopeFor key) tj → 4%N = j.
Proof.
  destruct asking_world as (w & t & Hw & Ht & Hr). exists w, t. split; [exact Hw|]. split; [exact Ht|]. split; [exact Hr|].
  intros j tj Hj Hrj. exact (proj1 (scope_requests_exclusive config home ∅ w 4 j (scopeFor key) t tj left_behind_none Hw Ht Hj Hr) Hrj).
Defined.

Lemma settled_cohort_free_witness :
  fence_pending (fence lost) !! scopeFor key = None ∧ scopeFor key ∉ fence_clearing (fence lost).
Proof.
  destruct lost_world as (w & Hw & Hc & _ & _ & Hf). rewrite <- Hc.
  exact (settled_cohort_free config home ∅ w key left_behind_none Hw Hf).
Defined.

(** At the first Sign request the marker is there, and the act has no result. *)
Lemma sign_write_ahead_witness : ∃ e op a, requests !! 8 = Some e ∧ act_at op (dispatch_state e) = Some a ∧ signs config a (dispatch_request e) ∧
  (act_result a ≠ None ∨ retired op (dispatch_state e) ∨ marked home op a (dispatch_state e)).
Proof.
  destruct lost_world as (w & Hw & _ & He & _). destruct lost_signs as (e & _ & H1' & _ & Hs & _).
  assert (e ∈ events w) as Hin by (rewrite He; exact (list_elem_of_lookup_2 _ _ _ H1')).
  destruct (sign_write_ahead config home ∅ w e left_behind_none Hw Hin Hs) as (op & a & _ & Ha & _ & _ & Hsg & Hm).
  exact (ex_intro _ e (ex_intro _ op (ex_intro _ a (conj H1' (conj Ha (conj Hsg Hm)))))).
Defined.

Lemma marked_scope_unquiet e : scope_markers (scopeFor key) (dispatch_state e) ≠ [] → ¬ quiet home (scopeFor key) (dispatch_state e).
Proof. intros Hn [Hq _]. exact (Hn Hq). Qed.

(** The candidate is saved in an unquiet scope. *)
Definition saves_at (n : nat) (requests : list dispatch) : bool :=
  match requests !! n with
  | Some e => String.eqb (request_method (dispatch_request e)) "PATCH" && bool_decide (dispatch_key e = key)
      && negb (bool_decide (scope_markers (scopeFor key) (dispatch_state e) = []))
  | None => false
  end.

Lemma unresolved_scope_frozen_witness : ∃ e response, requests !! 6 = Some e ∧ ¬ quiet home (scopeFor key) (dispatch_state e) ∧
  draft_write config key response (dispatch_request e) ∧ ¬ is_submit (dispatch_request e).
Proof.
  destruct lost_world as (w & Hw & _ & He & _).
  assert (saves_at 6 requests = true) as Hs by (vm_compute; reflexivity). unfold saves_at in Hs.
  destruct (requests !! 6) as [e|] eqn:E; [|discriminate Hs].
  apply andb_true_iff in Hs as [Hs Hq]. apply andb_true_iff in Hs as [Hm Hk].
  apply String.eqb_eq in Hm. apply bool_decide_eq_true_1 in Hk. apply negb_true_iff, bool_decide_eq_false_1, marked_scope_unquiet in Hq.
  assert (e ∈ events w) as Hin by (rewrite He; exact (list_elem_of_lookup_2 _ _ _ E)).
  pose proof (unresolved_scope_frozen config home ∅ w e left_behind_none Hw Hin) as Hfrozen. rewrite Hk in Hfrozen.
  destruct (Hfrozen Hq) as [Hns Hedit]. destruct (Hedit (or_introl Hm)) as (response & Hd & _).
  exact (ex_intro _ e (ex_intro _ response (conj eq_refl (conj Hq (conj Hd Hns))))).
Defined.

(** The second attempt asks for the same signature. *)
Lemma sign_retries_identical_witness : ∃ e1 e2, requests !! 8 = Some e1 ∧ requests !! 11 = Some e2 ∧
  request_url (dispatch_request e1) = request_url (dispatch_request e2) ∧
  request_body (dispatch_request e1) = request_body (dispatch_request e2).
Proof.
  destruct lost_world as (w & Hw & _ & He & _).
  destruct (signs_at_spec 8 requests) as (e1 & H1' & Hs1 & Hk1 & Hg1 & _); [vm_compute; reflexivity|].
  destruct (signs_at_spec 11 requests) as (e2 & H2' & Hs2 & Hk2 & Hg2 & _); [vm_compute; reflexivity|].
  assert (events w !! 8 = Some e1) as Hw1 by (rewrite He; exact H1'). assert (events w !! 11 = Some e2) as Hw2 by (rewrite He; exact H2').
  assert (8 < 11) as Hlt by lia.
  pose proof (sign_retries_identical config home ∅ w 8 11 e1 e2 sign_id sign_is_known left_behind_none Hw Hw1 Hw2 Hlt Hs1 Hs2 Hk1 Hk2
    (eq_trans Hg1 (eq_sym Hg2))) as Hsame.
  exact (ex_intro _ e1 (ex_intro _ e2 (conj H1' (conj H2' Hsame)))).
Defined.
End LostSignature.

(** * Two first saves at once

    [saveDraft] (src/src/adapters/http/response-signing.ts) writes the marker of
    a draft it is about to create to the list of all scopes: it reads the list,
    awaits the hash of the response, and writes the list with its marker added.
    Two first saves in different scopes at once: what the second page that
    restores from the metadata then knows. *)

Import CohortSample.

Module LostMarker.

Definition other_key : DraftKey :=
  {| key_formUrl := "urn:form"; key_formVersion := Some "1"; key_subjectRef := Some "subject-2"; key_partyRef := None |}.
Definition other_input : SigningInput :=
  {| in_draftKey := other_key; in_definition := form_definition; in_formVersionId := "version-1"; in_response := response |}.
Definition other_save : prog Result :=
  saveDraft config {| save_input := other_input; save_formId := "form-1"; save_operationId := "00000000-0000-7000-8000-000000000003";
                      save_action := action "save" |} None.

(** The first save is stopped at the hash, the second runs up to its request,
    and the first goes on up to its own. *)
Definition race : list (prog Result + nat) :=
  inl save_call :: repeat (inr 0) 2 ++ inl other_save :: repeat (inr 1) 4 ++ repeat (inr 0) 2.

(** A save of the second respondent on a page of its own. *)
Definition reload : list (prog Result + nat) := inl other_save :: repeat (inr 0) 4.

Definition runs_to (schedule : list (prog Result + nat)) (c : Cohort) := play (@yields) observe (answer true) schedule [] c.

(** A creation asked of the server, whose answer is awaited. *)
Definition creates (key : DraftKey) (e : dispatch) : Prop :=
  dispatch_key e = key ∧ request_method (dispatch_request e) = "POST" ∧
  request_url (dispatch_request e) = "https://server/runtime/forms/form-1/drafts".
Definition creating (key : DraftKey) (t : thread (C := Cohort) (F := cohort_failure) (call := call) Result) : Prop :=
  match t with Waiting q _ => match q with Fetch k _ => k = key | _ => False end | Finished _ => False end.
Definition create_list (c : Cohort) : list jsv := arr_of (default JUndef (metadata c !! create_slot)).

#[export] Instance creates_dec key e : Decision (creates key e).
Proof. unfold creates. apply _. Defined.
#[export] Instance creating_dec key t : Decision (creating key t).
Proof. destruct t as [o|X q k]; [apply _|]. destruct q; simpl; apply _. Defined.

(** What the race and the second page after it leave. *)
Definition raced (r : option (list (thread Result) * Cohort * list dispatch)) : bool :=
  match r with
  | Some ([t1; t2], c, [e2; e1]) =>
      bool_decide (creating key t1) && bool_decide (creating other_key t2) && bool_decide (creates key e1) && bool_decide (creates other_key e2)
      && negb (existsb (in_scope (scopeFor other_key)) (create_list c))
      && match runs_to reload (fresh_cohort (metadata c)) with
         | Some (_, _, [e]) => bool_decide (creates other_key e)
         | _ => false
         end
  | _ => false
  end.

Lemma race_operations : Forall (operation config home) (calls_of race).
Proof. repeat (apply Forall_cons; split); [apply op_saveDraft|apply op_saveDraft|by apply Forall_nil]. Qed.

Lemma reload_operations : Forall (operation config home) (calls_of reload).
Proof. apply Forall_cons; split; [apply op_saveDraft|by apply Forall_nil]. Qed.

Lemma page_reached schedule c ts c' l : Forall (operation config home) (calls_of schedule) → runs_to schedule c = Some (ts, c', l) →
  ∃ w, reachable (@yields) (@answers home) observe (operation config home) c w ∧ holds_threads 0 w ts ∧ shared w = c' ∧ events w = l.
Proof.
  intros Hops E. apply (play_reachable (@yields) (@answers home) observe (answer true) (answer_answers true) (operation config home) 0%N
    schedule (initial c) [] ts c' l Hops); [|exact E]. intros i. by rewrite lookup_nil.
Qed.

(** C40. Two respondents' first saves at once on one page can leave both creations
    under way and the durable list with one marker: a page that starts from
    that list then creates a second draft for the respondent whose marker was
    overwritten. *)
Theorem concurrent_saves_lose_marker : ∃ w w',
  reachable (@yields) (@answers home) observe (operation config home) (fresh_cohort ∅) w ∧
  reachable (@yields) (@answers home) observe (operation config home) (fresh_cohort (metadata (shared w))) w' ∧
  (∃ t e, threads w 1%N = Some t ∧ creating other_key t ∧ e ∈ events w ∧ creates other_key e) ∧
  existsb (in_scope (scopeFor other_key)) (create_list (shared w)) = false ∧
  (∃ e, e ∈ events w' ∧ creates other_key e).
Proof.
  assert (raced (runs_to race (fresh_cohort ∅)) = true) as Hr by (vm_compute; reflexivity).
  destruct (runs_to race (fresh_cohort ∅)) as [[[ts c] l]|] eqn:E; [|discriminate Hr].
  destruct (page_reached race _ _ _ _ race_operations E) as (w & Hw & Ht & Hc & He).
  unfold raced in Hr. destruct ts as [|t1 [|t2 [|]]], l as [|e2 [|e1 [|]]]; try discriminate Hr.
  rewrite !andb_true_iff, !bool_decide_eq_true, negb_true_iff in Hr. destruct Hr as [[[[[H1 H2] H3] H4] H5] H6].
  destruct (runs_to reload (fresh_cohort (metadata c))) as [[[ts' c'] l']|] eqn:E'; [|discriminate H6].
  destruct l' as [|e' [|]]; try discriminate H6. apply bool_decide_eq_true in H6.
  destruct (page_reached reload _ _ _ _ reload_operations E') as (w' & Hw' & _ & _ & He').
  exists w, w'. rewrite Hc, He, He'.
  exact (conj Hw (conj Hw' (conj (ex_intro _ t2 (ex_intro _ e2 (conj (Ht 1) (conj H2 (conj (list_elem_of_here e2 [e1]) H4)))))
    (conj H5 (ex_intro _ e' (conj (list_elem_of_here e' []) H6)))))).
Qed.
End LostMarker.
