(* ===== verification/ResponseActionController.v ===== *)
(** * The response action controller

    [createResponseActionController] of
    src/src/shared/response-action-controller.ts: one respondent's saves,
    signature and submission, run as async operations that interleave at their
    awaits ([Async]).  The state is the closure's; ports, host callbacks and the
    key generator are external calls with any answer; [perform] and the other
    operations follow the source call by call.

    A delivery object is read and written through its entry in [deliveries]:
    the source drops entries only when the controller is invalidated, and after
    that no operation reads its object.  Listeners are taken not to call the
    controller back; diagnostics are left out. *)

From S2P Require Import Prelude JsValue Async IdempotencyKey DraftKeys ResponseAction.
From Stdlib Require Import Ascii.

(** ** State *)

(** [config], as far as the controller reads it. *)
Record ResponseActionControllerConfig := {
  applicationLifecycle : option ApplicationLifecycleCapabilities;
  restoredApplication : option ApplicationCaseReceipt;
  restoredApplicationLookup : bool;
  context : ResponseActionControllerContext;
  roles : ResponseActionRole → option QualifiedResponseActionRole;
  restored : option jsv;
  completion : option CompletionKind;
  capturesSubmitOptions : bool;
  reconcileSignRetries : bool;
  restoresPending : bool
}.

(** A retained sign request and a captured completion are known by reference. *)
Record Delivery : Set := {
  identity : option string;
  operationId : string;
  pending : option N;
  completionPreparation : option N;
  baselineDraft : option DraftRef;
  signRetry : option N;
  retired : bool;
  completed : option jsv
}.

Inductive Phase : Set :=
  | Idle | Running (role : ResponseActionRole) | Saved | Prepared | Signed | Submitted | Refused | Failed
  | OutcomeUnknown.

Record ResponseActionControllerSnapshot : Set := {
  snap_phase : Phase;
  snap_owned : bool;
  snap_application : option ApplicationCaseReceipt;
  snap_applicationLookup : bool;
  snap_retrySignAvailable : bool;
  snap_pendingSign : bool;
  snap_reason : option ResponseActionControllerReason;
  snap_saved : option SavedResponseDraft;
  snap_prepared : option PreparedResponseSigning;
  snap_signed : option SignedResponseSigning;
  snap_completion : option ResponseCompletionResult
}.

Record Controller : Set := {
  completionResult : option ResponseCompletionResult;
  completionOutcomeUnknown : bool;
  epoch : N;
  invalidated : bool;
  owned : bool;
  actor : option string;
  application : option ApplicationCaseReceipt;
  applicationLookup : bool;
  saved : option SavedResponseDraft;
  prepared : option PreparedResponseSigning;
  pendingOperationId : option string;
  signed : option SignedResponseSigning;
  busy : option string;
  retryableSign : option N;
  confirmedDelivery : option string;
  snapshot : ResponseActionControllerSnapshot;
  deliveries : gmap string Delivery;
  settled : gmap N (outcome failure jsv);
  nextPromise : N
}.

(** Field updates. *)

Definition set_completionResult (v : option ResponseCompletionResult) (c : Controller) : Controller :=
  Build_Controller v (completionOutcomeUnknown c) (epoch c) (invalidated c) (owned c) (actor c) (application c)
    (applicationLookup c) (saved c) (prepared c) (pendingOperationId c) (signed c) (busy c) (retryableSign c)
    (confirmedDelivery c) (snapshot c) (deliveries c) (settled c) (nextPromise c).

Definition set_completionOutcomeUnknown (v : bool) (c : Controller) : Controller :=
  Build_Controller (completionResult c) v (epoch c) (invalidated c) (owned c) (actor c) (application c)
    (applicationLookup c) (saved c) (prepared c) (pendingOperationId c) (signed c) (busy c) (retryableSign c)
    (confirmedDelivery c) (snapshot c) (deliveries c) (settled c) (nextPromise c).

Definition set_epoch (v : N) (c : Controller) : Controller :=
  Build_Controller (completionResult c) (completionOutcomeUnknown c) v (invalidated c) (owned c) (actor c)
    (application c) (applicationLookup c) (saved c) (prepared c) (pendingOperationId c) (signed c) (busy c)
    (retryableSign c) (confirmedDelivery c) (snapshot c) (deliveries c) (settled c) (nextPromise c).

Definition set_invalidated (v : bool) (c : Controller) : Controller :=
  Build_Controller (completionResult c) (completionOutcomeUnknown c) (epoch c) v (owned c) (actor c) (application
    c) (applicationLookup c) (saved c) (prepared c) (pendingOperationId c) (signed c) (busy c) (retryableSign c)
    (confirmedDelivery c) (snapshot c) (deliveries c) (settled c) (nextPromise c).

Definition set_owned (v : bool) (c : Controller) : Controller :=
  Build_Controller (completionResult c) (completionOutcomeUnknown c) (epoch c) (invalidated c) v (actor c)
    (application c) (applicationLookup c) (saved c) (prepared c) (pendingOperationId c) (signed c) (busy c)
    (retryableSign c) (confirmedDelivery c) (snapshot c) (deliveries c) (settled c) (nextPromise c).

Definition set_actor (v : option string) (c : Controller) : Controller :=
  Build_Controller (completionResult c) (completionOutcomeUnknown c) (epoch c) (invalidated c) (owned c) v
    (application c) (applicationLookup c) (saved c) (prepared c) (pendingOperationId c) (signed c) (busy c)
    (retryableSign c) (confirmedDelivery c) (snapshot c) (deliveries c) (settled c) (nextPromise c).

Definition set_application (v : option ApplicationCaseReceipt) (c : Controller) : Controller :=
  Build_Controller (completionResult c) (completionOutcomeUnknown c) (epoch c) (invalidated c) (owned c) (actor c)
    v (applicationLookup c) (saved c) (prepared c) (pendingOperationId c) (signed c) (busy c) (retryableSign c)
    (confirmedDelivery c) (snapshot c) (deliveries c) (settled c) (nextPromise c).

Definition set_applicationLookup (v : bool) (c : Controller) : Controller :=
  Build_Controller (completionResult c) (completionOutcomeUnknown c) (epoch c) (invalidated c) (owned c) (actor c)
    (application c) v (saved c) (prepared c) (pendingOperationId c) (signed c) (busy c) (retryableSign c)
    (confirmedDelivery c) (snapshot c) (deliveries c) (settled c) (nextPromise c).

Definition set_saved (v : option SavedResponseDraft) (c : Controller) : Controller :=
  Build_Controller (completionResult c) (completionOutcomeUnknown c) (epoch c) (invalidated c) (owned c) (actor c)
    (application c) (applicationLookup c) v (prepared c) (pendingOperationId c) (signed c) (busy c) (retryableSign
    c) (confirmedDelivery c) (snapshot c) (deliveries c) (settled c) (nextPromise c).

Definition set_prepared (v : option PreparedResponseSigning) (c : Controller) : Controller :=
  Build_Controller (completionResult c) (completionOutcomeUnknown c) (epoch c) (invalidated c) (owned c) (actor c)
    (application c) (applicationLookup c) (saved c) v (pendingOperationId c) (signed c) (busy c) (retryableSign c)
    (confirmedDelivery c) (snapshot c) (deliveries c) (settled c) (nextPromise c).

Definition set_pendingOperationId (v : option string) (c : Controller) : Controller :=
  Build_Controller (completionResult c) (completionOutcomeUnknown c) (epoch c) (invalidated c) (owned c) (actor c)
    (application c) (applicationLookup c) (saved c) (prepared c) v (signed c) (busy c) (retryableSign c)
    (confirmedDelivery c) (snapshot c) (deliveries c) (settled c) (nextPromise c).

Definition set_signed (v : option SignedResponseSigning) (c : Controller) : Controller :=
  Build_Controller (completionResult c) (completionOutcomeUnknown c) (epoch c) (invalidated c) (owned c) (actor c)
    (application c) (applicationLookup c) (saved c) (prepared c) (pendingOperationId c) v (busy c) (retryableSign
    c) (confirmedDelivery c) (snapshot c) (deliveries c) (settled c) (nextPromise c).

Definition set_busy (v : option string) (c : Controller) : Controller :=
  Build_Controller (completionResult c) (completionOutcomeUnknown c) (epoch c) (invalidated c) (owned c) (actor c)
    (application c) (applicationLookup c) (saved c) (prepared c) (pendingOperationId c) (signed c) v
    (retryableSign c) (confirmedDelivery c) (snapshot c) (deliveries c) (settled c) (nextPromise c).

Definition set_retryableSign (v : option N) (c : Controller) : Controller :=
  Build_Controller (completionResult c) (completionOutcomeUnknown c) (epoch c) (invalidated c) (owned c) (actor c)
    (application c) (applicationLookup c) (saved c) (prepared c) (pendingOperationId c) (signed c) (busy c) v
    (confirmedDelivery c) (snapshot c) (deliveries c) (settled c) (nextPromise c).

Definition set_confirmedDelivery (v : option string) (c : Controller) : Controller :=
  Build_Controller (completionResult c) (completionOutcomeUnknown c) (epoch c) (invalidated c) (owned c) (actor c)
    (application c) (applicationLookup c) (saved c) (prepared c) (pendingOperationId c) (signed c) (busy c)
    (retryableSign c) v (snapshot c) (deliveries c) (settled c) (nextPromise c).

Definition set_snapshot (v : ResponseActionControllerSnapshot) (c : Controller) : Controller :=
  Build_Controller (completionResult c) (completionOutcomeUnknown c) (epoch c) (invalidated c) (owned c) (actor c)
    (application c) (applicationLookup c) (saved c) (prepared c) (pendingOperationId c) (signed c) (busy c)
    (retryableSign c) (confirmedDelivery c) v (deliveries c) (settled c) (nextPromise c).

Definition set_deliveries (v : gmap string Delivery) (c : Controller) : Controller :=
  Build_Controller (completionResult c) (completionOutcomeUnknown c) (epoch c) (invalidated c) (owned c) (actor c)
    (application c) (applicationLookup c) (saved c) (prepared c) (pendingOperationId c) (signed c) (busy c)
    (retryableSign c) (confirmedDelivery c) (snapshot c) v (settled c) (nextPromise c).

Definition set_settled (v : gmap N (outcome failure jsv)) (c : Controller) : Controller :=
  Build_Controller (completionResult c) (completionOutcomeUnknown c) (epoch c) (invalidated c) (owned c) (actor c)
    (application c) (applicationLookup c) (saved c) (prepared c) (pendingOperationId c) (signed c) (busy c)
    (retryableSign c) (confirmedDelivery c) (snapshot c) (deliveries c) v (nextPromise c).

Definition set_nextPromise (v : N) (c : Controller) : Controller :=
  Build_Controller (completionResult c) (completionOutcomeUnknown c) (epoch c) (invalidated c) (owned c) (actor c)
    (application c) (applicationLookup c) (saved c) (prepared c) (pendingOperationId c) (signed c) (busy c)
    (retryableSign c) (confirmedDelivery c) (snapshot c) (deliveries c) (settled c) v.

Definition set_pending (v : option N) (d : Delivery) : Delivery :=
  Build_Delivery (identity d) (operationId d) v (completionPreparation d) (baselineDraft d) (signRetry d) (retired
    d) (completed d).

Definition set_completionPreparation (v : option N) (d : Delivery) : Delivery :=
  Build_Delivery (identity d) (operationId d) (pending d) v (baselineDraft d) (signRetry d) (retired d) (completed
    d).

Definition set_signRetry (v : option N) (d : Delivery) : Delivery :=
  Build_Delivery (identity d) (operationId d) (pending d) (completionPreparation d) (baselineDraft d) v (retired
    d) (completed d).

Definition set_retired (v : bool) (d : Delivery) : Delivery :=
  Build_Delivery (identity d) (operationId d) (pending d) (completionPreparation d) (baselineDraft d) (signRetry
    d) v (completed d).

Definition set_completed (v : option jsv) (d : Delivery) : Delivery :=
  Build_Delivery (identity d) (operationId d) (pending d) (completionPreparation d) (baselineDraft d) (signRetry
    d) (retired d) v.

(** ** External calls *)

Inductive call : Type → Type :=
  | ValidateResponse (response : jsv) : call bool
  | HashResponse (response : jsv) : call string
  | SaveDraft (response : jsv) (operationId : string) (action : QualifiedResponseActionRole)
      (guarded : bool) : call SavedResponseDraft
  | PrepareSigning (response source : jsv) (locale : string) (action : QualifiedResponseActionRole)
      : call PreparedResponseSigning
  | SignPrepared (preparation : option PreparedResponseSigning) (operationId signerName : string)
      (action : QualifiedResponseActionRole) : call SignedResponseSigning
  | RestorePending (response source : jsv) (locale : string) (renewUnsignedRevision : bool)
      (action : QualifiedResponseActionRole) (operationId : string) : call RestoredPendingResponseSigning
  | StartCase (operationId : string) : call ApplicationCaseReceipt
  | LoadCase : call (option ApplicationCaseReceipt)
  | CaptureSubmitOptions (signed : SignedResponseSigning) : call jsv
  | CaptureCompletion (signed : SignedResponseSigning) (request input submitOptions : jsv) : call N
  | CompleteResponse (preparation : N) (operationId : string) : call ResponseCompletionResult
  | AfterCommittedDraft (saved : SavedResponseDraft) : call unit
  | JoinPending (promise : N) : call jsv
  | Turn : call unit
  | SigningContext : call (jsv * string)
  | ReviewReady (result : PreparedResponseSigning) (source : jsv) (locale : string) (signed_stage : bool) : call bool
  | GenerateKey : call string.

(** [signingContext], [reviewReady] and the key generator answer at once. *)
Definition yields {X} (q : call X) : bool :=
  match q with SigningContext | ReviewReady _ _ _ _ | GenerateKey => false | _ => true end.

(** What the validator and the digest of the host answer; both are functions
    of the response. *)
Class ResponseChecks := { validates : jsv → bool; hashOf : jsv → string }.

(** Any call may fail and most may answer anything; a joined operation answers
    what it settled to. *)
Definition answers `{!ResponseChecks} {X} (q : call X) : outcome failure X → Controller → Prop :=
  match q in call X return outcome failure X → Controller → Prop with
  | ValidateResponse r => λ a _, ∀ b, a = Returns b → b = validates r
  | HashResponse r => λ a _, ∀ h, a = Returns h → h = hashOf r
  | JoinPending p => λ a c, settled c !! p = Some a
  | Turn => λ a _, a = Returns ()
  | _ => λ _ _, True
  end.

(** The calls that change something outside, with the key that makes a retry
    recognisable. *)
Inductive effect : Set :=
  | SaveEffect (operationId : string)
  | PrepareEffect
  | SignEffect (operationId : string)
  | StartEffect (operationId : string)
  | CompleteEffect (operationId : string).

Definition effect_of {X} (q : call X) : option effect :=
  match q with
  | SaveDraft _ op _ _ => Some (SaveEffect op)
  | PrepareSigning _ _ _ _ => Some PrepareEffect
  | SignPrepared _ op _ _ => Some (SignEffect op)
  | StartCase op => Some (StartEffect op)
  | CompleteResponse _ op => Some (CompleteEffect op)
  | _ => None
  end.

Definition effect_key (e : effect) : option string :=
  match e with SaveEffect op | SignEffect op | StartEffect op | CompleteEffect op => Some op | PrepareEffect => None end.

(** ** Publishing *)

Abbreviation prog := (async Controller failure call).

Definition is_busy (c : Controller) : bool := match busy c with Some s => nonempty s | None => false end.
Definition has_pending (c : Controller) : bool :=
  match pendingOperationId c with Some s => nonempty s | None => false end.

Definition take_snapshot (phase : Phase) (reason : option ResponseActionControllerReason) (c : Controller)
    : ResponseActionControllerSnapshot :=
  {| snap_phase := phase; snap_owned := owned c; snap_application := application c;
     snap_applicationLookup := applicationLookup c;
     snap_retrySignAvailable := isSome (retryableSign c) && negb (is_busy c);
     snap_pendingSign := has_pending c; snap_reason := reason; snap_saved := saved c; snap_prepared := prepared c;
     snap_signed := signed c; snap_completion := completionResult c |}.

Definition publish_in (phase : Phase) (reason : option ResponseActionControllerReason) (c : Controller) : Controller :=
  set_snapshot (take_snapshot phase reason c) c.

Definition publish (phase : Phase) : prog unit := modify (publish_in phase None).
Definition publish_reason (phase : Phase) (reason : ResponseActionControllerReason) : prog unit :=
  modify (publish_in phase (Some reason)).

Definition refused {A} (reason : ResponseActionControllerReason) : prog A := refuse (ControllerRefusal reason).
Definition refused_when (b : bool) (reason : ResponseActionControllerReason) : prog unit :=
  refuse_when b (ControllerRefusal reason).

(** What reading a member of [undefined] throws. *)
Definition type_error {A} : prog A := refuse (OtherFailure "Cannot read properties of undefined").

Definition current (generation : N) : prog unit :=
  c ← get; refused_when (invalidated c || negb (bool_decide (generation = epoch c))) ContextObsolete.

(** [retireSignRetry] *)
Definition retire_retries (c : Controller) : Controller :=
  set_retryableSign None (set_deliveries (set_signRetry None <$> deliveries c) c).

(** ** Operations *)

Section operations.
Context `{!Canonicalize, !Engine} (config : ResponseActionControllerConfig).

Abbreviation ctx := (context config).

Definition requestForRole (role : ResponseActionRole) (admission : QualifiedResponseActionRole) : prog (option jsv) :=
  of_outcome (requestFor ctx (completion config) role admission).

Definition validateResponse (response : jsv) : prog unit :=
  refused_when (negb (response_identified ctx response)) ResponseInvalid ;;
  valid ← invoke (ValidateResponse response);
  refused_when (negb valid) ResponseInvalid ;;
  refused_when (negb (response_in_context ctx response)) ContextMismatch.

(** The actor is the one known when the check starts; the digest is asked for
    only when everything else agrees. *)
Definition checkEvidence (result : SavedResponseDraft) (expected : option jsv) : prog unit :=
  c ← get;
  validateResponse (saved_response result) ;;
  refused_when (negb (evidence_consistent ctx (actor c) expected result)) ContextMismatch ;;
  digest ← invoke (HashResponse (saved_response result));
  refused_when (negb (String.eqb (draft_responseHash (saved_draft result)) digest)) ContextMismatch.

(** The host may refuse what follows a commit; the commit stands. *)
Definition afterCommit (result : SavedResponseDraft) : prog unit :=
  settle (invoke (AfterCommittedDraft result)) (λ _, mret ()).

Definition review (result : PreparedResponseSigning) (signed_stage : bool) (source : jsv) (locale : string) : prog unit :=
  refused_when (negb (same (prop (content result) "source") source)) ReviewUnready ;;
  refused_when (negb (is_lit (prop (content result) "locale") locale)) ReviewUnready ;;
  ready ← invoke (ReviewReady result source locale signed_stage);
  refused_when (negb ready) ReviewUnready.

Definition is_checkpoint (role : ResponseActionRole) : bool :=
  match role with SaveInitial | SaveOwned | StartApplication => true | _ => false end.
Definition is_save (role : ResponseActionRole) : bool :=
  match role with SaveInitial | SaveOwned => true | _ => false end.
Definition retires (role : ResponseActionRole) : bool :=
  match role with SaveInitial | SaveOwned | Prepare => true | _ => false end.

(** The draft the operation is about. *)
Definition subject_of (role : ResponseActionRole) (c : Controller) : option SavedResponseDraft :=
  match role with
  | Sign => prepared_saved <$> prepared c
  | Submit => (λ s, prepared_saved (signed_prepared s)) <$> signed c
  | _ => saved c
  end.

Definition reviewed_of (role : ResponseActionRole) (c : Controller) : option PreparedResponseSigning :=
  match role with Sign => prepared c | _ => signed_prepared <$> signed c end.

Definition keys_allowed (input : jsv) (allowed : list string) : bool :=
  forallb (λ k, str_in k allowed) (obj_keys (props_of input)).

Definition sign_input_ok (input : jsv) (draft : DraftRef) (response source : jsv) (locale : string) : bool :=
  is_lit (prop input "draftId") (draft_id draft)
  && strict_eq (prop input "draftVersion") (JNum (draft_version draft))
  && strict_eq (prop input "responseId") (prop response "id")
  && is_lit (prop input "responseHash") (draft_responseHash draft)
  && same (prop input "source") source && is_lit (prop input "locale") locale
  && match prop input "signerName" with JStr s => negb (trim_empty s) | _ => false end
  && is_true (prop input "consentAccepted")
  && keys_allowed input ["draftId"; "draftVersion"; "responseId"; "responseHash"; "source"; "locale"; "signerName"; "consentAccepted"].

Definition submit_input_ok (input : jsv) (draft : DraftRef) (response : jsv) : bool :=
  is_lit (prop input "draftId") (draft_id draft)
  && strict_eq (prop input "draftVersion") (JNum (draft_version draft))
  && same (prop input "canonical_response") response
  && keys_allowed input ["draftId"; "draftVersion"; "canonical_response"].

Definition wording_json (wording : option (jsv * string)) : jsv :=
  match wording with Some (source, locale) => JObj [("source", source); ("locale", JStr locale)] | None => JNull end.

Definition draft_or_null (d : option DraftRef) : jsv := match d with Some d => draft_json d | None => JNull end.

(** The canonical text that tells two requests under one invocation apart. *)
Definition identity_of (role : ResponseActionRole) (admission : QualifiedResponseActionRole) (source : jsv)
    (generation : N) (responseHash : string) (draft : option DraftRef) (input : jsv) (wording : option (jsv * string))
    : option string :=
  canonicalize
    (JObj [("admission", role_json admission); ("role", JStr (role_string role)); ("source", source);
           ("generation", JNum (NInt (Z.of_N generation))); ("context", context_json ctx);
           ("responseHash", JStr responseHash); ("draft", draft_or_null draft); ("input", input);
           ("wording", wording_json wording)]).

Definition plan_input (input response : jsv) (subject : option SavedResponseDraft) : jsv :=
  JObj [("input", JObj (obj_spread (props_of input)
           [("formId", JStr (formId ctx));
            ("draftId", opt_json ((λ s, JStr (draft_id (saved_draft s))) <$> subject));
            ("draftVersion", opt_json ((λ s, JNum (draft_version (saved_draft s))) <$> subject));
            ("frozenResponse", response)]));
        ("route", JObj []); ("session", JObj [])].

Definition signerName (input : jsv) : string := default "" (str_of (prop input "signerName")).

(** [extractServiceRequestOutputs(request!, value).transitionBindings] *)
Definition outputs_of (request : option jsv) (value : jsv) : prog jsv :=
  of_outcome (extractServiceRequestOutputs (opt_json request) value).

(** The state a running operation writes its own delivery through. *)
Definition update_delivery (deliveryId : string) (f : Delivery → Delivery) (c : Controller) : Controller :=
  set_deliveries (alter f deliveryId (deliveries c)) c.

(** *** The effects *)

(** A saved, prepared or signed draft: its outputs are kept before the host is
    told. *)
Definition committed (role : ResponseActionRole) (request : option jsv) (deliveryId : string)
    (result : SavedResponseDraft) : prog jsv :=
  outputs ← outputs_of request (evidence_json (saved_evidence result));
  modify (update_delivery deliveryId (λ d, set_completed (Some outputs) (if retires role then set_retired true d else d))) ;;
  afterCommit result ;;
  mret outputs.

Definition checkpoint_tuple : jsv := tuple_json "off" "non-blocking" "draft-checkpoint".

(** The draft checkpoint of a start on a response nobody owns yet. *)
Definition start_checkpoint (response : jsv) (operation : string) (generation : N) : prog unit :=
  match roles config SaveInitial with
  | None => refused ActionUnadmitted
  | Some checkpoint =>
      let action := resolution_action (resolveResponseAction (role_document checkpoint) (role_actionRef checkpoint)) in
      refused_when (negb (same (resolveResponseActionValidationTuple (opt_json action)) checkpoint_tuple)) ActionUnadmitted ;;
      requestForRole SaveInitial checkpoint ;;
      draft ← invoke (SaveDraft response operation checkpoint false);
      modify (set_saved (Some draft)) ;;
      current generation ;;
      checkEvidence draft (Some response) ;;
      current generation ;;
      c ← get;
      match saved c with
      | None => type_error
      | Some draft' =>
          modify (λ c, set_owned true (set_actor (Some (saved_actor draft')) c)) ;;
          publish (Running StartApplication) ;;
          afterCommit draft'
      end
  end.

Definition perform_start (request : option jsv) (response : jsv) (operation : string) (generation : N) : prog jsv :=
  c ← get;
  (if owned c then mret () else start_checkpoint response operation generation) ;;
  current generation ;;
  receipt ← invoke (StartCase operation);
  current generation ;;
  c ← get;
  refused_when
    (match application c with
     | Some a => negb (String.eqb (caseLedgerId a) (caseLedgerId receipt)) || negb (String.eqb (receipt_draftRef a) (receipt_draftRef receipt))
     | None => false
     end) ContextMismatch ;;
  refused_when
    (match saved c with
     | Some s => negb (String.eqb (receipt_draftRef receipt) ("urn:formspec:draft:" +:+ draft_id (saved_draft s)))
     | None => false
     end) ContextMismatch ;;
  modify (set_application (Some receipt)) ;;
  publish Saved ;;
  outputs_of request (receipt_json receipt).

Definition perform_save (role : ResponseActionRole) (admission : QualifiedResponseActionRole) (request : option jsv)
    (response : jsv) (deliveryId operation : string) (generation : N) (guarded : bool) : prog jsv :=
  result ← invoke (SaveDraft response operation admission guarded);
  current generation ;;
  checkEvidence result (Some response) ;;
  current generation ;;
  modify (λ c, set_prepared None (set_owned true (set_actor (Some (saved_actor result)) (set_saved (Some result) c)))) ;;
  publish Saved ;;
  committed role request deliveryId result.

Definition perform_prepare (admission : QualifiedResponseActionRole) (request : option jsv) (response : jsv)
    (deliveryId : string) (generation : N) (source : jsv) (locale : string) : prog jsv :=
  preparation ← invoke (PrepareSigning response source locale admission);
  current generation ;;
  checkEvidence (prepared_saved preparation) (Some response) ;;
  current generation ;;
  refused_when (negb (same (prop (content preparation) "source") source)
                || negb (is_lit (prop (content preparation) "locale") locale)) ContextMismatch ;;
  modify (λ c, set_actor (Some (saved_actor preparation)) (set_saved (Some (prepared_saved preparation))
                 (set_prepared (Some preparation) c))) ;;
  publish Prepared ;;
  committed Prepare request deliveryId (prepared_saved preparation).

Definition verified_delegated (v : SignatureVerification) : bool :=
  String.eqb (verification_mode v) "delegated-service-key" && nonempty (provider v) && nonempty (keyId v).

(** The signature, checked and committed. *)
Definition sign_prepared (admission : QualifiedResponseActionRole) (request : option jsv) (input : jsv)
    (deliveryId operation : string) (generation : N) : prog jsv :=
  c ← get;
  signature ← invoke (SignPrepared (prepared c) operation (signerName input) admission);
  current generation ;;
  checkEvidence (prepared_saved (signed_prepared signature)) None ;;
  current generation ;;
  c ← get;
  match prepared c with
  | None => type_error
  | Some p =>
      refused_when (negb (same (content signature) (content p))
                    || bool_decide (length (authored_signatures (saved_response signature)) = 0)
                    || negb (verified_delegated (verification signature))) ContextMismatch
  end ;;
  modify (λ c, set_saved (Some (prepared_saved (signed_prepared signature))) (set_signed (Some signature)
                 (set_pendingOperationId None (set_retryableSign None c)))) ;;
  publish Signed ;;
  committed Sign request deliveryId (prepared_saved (signed_prepared signature)).

Definition perform_sign (admission : QualifiedResponseActionRole) (request : option jsv) (input : jsv)
    (deliveryId operation : string) (generation : N) (source : jsv) (locale : string)
    (recovering : bool) (retry : option N) : prog jsv :=
  c ← get;
  (if recovering then mret () else
   match prepared c with None => type_error | Some p => review p false source locale end) ;;
  (if reconcileSignRetries config && isSome retry then modify (update_delivery deliveryId (set_signRetry retry)) else mret ()) ;;
  sign_prepared admission request input deliveryId operation generation.

Definition capture_completion (request : option jsv) (input : jsv) (deliveryId : string) (generation : N) : prog unit :=
  c ← get;
  match signed c with
  | None => type_error
  | Some s =>
      options ← (if capturesSubmitOptions config then invoke (CaptureSubmitOptions s) else invoke Turn ;; mret JUndef);
      current generation ;;
      refused_when (bool_decide (completion config = Some TaskCompletion) && truthy (prop options "nativeCurrentCheck"))
        BranchMismatch ;;
      c ← get;
      match signed c with
      | None => type_error
      | Some s =>
          preparation ← invoke (CaptureCompletion s (opt_json request) input options);
          modify (update_delivery deliveryId (set_completionPreparation (Some preparation)))
      end
  end.

Definition perform_submit (request : option jsv) (input : jsv) (deliveryId operation : string) (generation : N)
    (source : jsv) (locale : string) : prog jsv :=
  c ← get;
  (if isSome (deliveries c !! deliveryId ≫= completionPreparation) then mret ()
   else capture_completion request input deliveryId generation) ;;
  current generation ;;
  c ← get;
  match signed c with None => type_error | Some s => review s true source locale end ;;
  match deliveries c !! deliveryId ≫= completionPreparation with
  | None => type_error
  | Some preparation =>
      result ← invoke (CompleteResponse preparation operation);
      current generation ;;
      refused_when (negb (bool_decide (completion config = Some (result_kind result)))) ContextMismatch ;;
      modify (λ c, set_confirmedDelivery (Some deliveryId) (set_completionResult (Some result) c)) ;;
      publish Submitted ;;
      outputs ← outputs_of request (result_evidence result);
      modify (update_delivery deliveryId (set_completed (Some outputs))) ;;
      mret outputs
  end.

(** The service request is planned before the effect, but for the roles whose
    port plans it itself. *)
Definition plan (role : ResponseActionRole) (request : option jsv) (input response : jsv)
    (subject : option SavedResponseDraft) : prog unit :=
  c ← get;
  match request with
  | Some r =>
      if negb (bool_decide (role = Submit)) && negb (bool_decide (role = StartApplication))
         && (negb (bool_decide (role = SaveOwned)) || isSome (saved c))
      then
        planned ← of_outcome (planServiceRequest r (plan_input input response subject));
        refused_when
          (bool_decide (role = Sign)
           && (negb (String.eqb (planned_method planned) "POST")
               || negb (match subject with
                        | Some s => String.eqb (planned_path planned)
                                      ("/drafts/" +:+ encodeURIComponent (draft_id (saved_draft s)) +:+ "/sign")
                        | None => false
                        end))) ActionUnadmitted
      else mret ()
  | None => mret ()
  end.

Definition run_effect (role : ResponseActionRole) (admission : QualifiedResponseActionRole) (request : option jsv)
    (response input : jsv) (deliveryId operation : string) (generation : N) (subject : option SavedResponseDraft)
    (wording : option (jsv * string)) (recovering : bool) (retry : option N) (guarded : bool) : prog jsv :=
  plan role request input response subject ;;
  current generation ;;
  let '(source, locale) := default (JUndef, "") wording in
  match role with
  | Paper => publish (Running Paper) ;; mret (JObj [])
  | StartApplication => perform_start request response operation generation
  | SaveInitial | SaveOwned => perform_save role admission request response deliveryId operation generation guarded
  | Prepare => perform_prepare admission request response deliveryId generation source locale
  | Sign => perform_sign admission request input deliveryId operation generation source locale recovering retry
  | Submit => perform_submit request input deliveryId operation generation source locale
  end.

(** *** The gate *)

(** What becomes of a request when its identity is known. *)
Inductive gate_decision : Type :=
  | Join (promise : N)
  | Replay (outputs : jsv)
  | Stop (reason : ResponseActionControllerReason)
  | Resume (d : Delivery)
  | Start.

Definition wrong_branch (role : ResponseActionRole) (c : Controller) : bool :=
  match role with
  | SaveInitial => owned c || isSome (signed c)
  | SaveOwned => negb (owned c) || isSome (signed c)
  | Prepare => negb (owned c) || negb (isSome (saved c)) || isSome (signed c)
  | Sign => isSome (signed c)
  | _ => false
  end.

Definition gate (role : ResponseActionRole) (deliveryId : string) (id : option string) (c : Controller) : gate_decision :=
  match deliveries c !! deliveryId with
  | Some d =>
      if negb (bool_decide (identity d = id)) then Stop OperationConflict else
      match pending d with Some p => Join p | None =>
      if retired d then Stop OperationConflict else
      match completed d with Some outputs => Replay outputs | None =>
      if isSome (completionResult c) then Stop OperationConflict else
      if is_busy c then Stop OperationPending else Resume d
      end end
  | None =>
      if isSome (completionResult c) then Stop OperationConflict else
      if is_busy c then Stop OperationPending else
      if wrong_branch role c then Stop BranchMismatch else Start
  end.

Definition new_delivery (id : option string) (operation : string) (baseline : option DraftRef) : Delivery :=
  {| identity := id; operationId := operation; pending := None; completionPreparation := None;
     baselineDraft := baseline; signRetry := None; retired := false; completed := None |}.

(** [pendingOperationId ?? generateIdempotencyKey()] *)
Definition operation_id : prog string :=
  c ← get; match pendingOperationId c with Some op => mret op | None => invoke GenerateKey end.

(** The lock is taken, and the operation's promise made. *)
Definition acquire (role : ResponseActionRole) (deliveryId : string) (c : Controller) : Controller :=
  let c := if retires role then retire_retries c else c in
  let c := publish_in (Running role) None (set_busy (Some deliveryId) c) in
  set_nextPromise (nextPromise c + 1) (update_delivery deliveryId (set_pending (Some (nextPromise c))) c).

Definition settle_promise (promise : N) (o : outcome failure jsv) (c : Controller) : Controller :=
  set_settled (<[promise := o]> (settled c)) c.

Definition release (deliveryId : string) (c : Controller) : Controller :=
  let c := update_delivery deliveryId (set_pending None) c in
  if bool_decide (busy c = Some deliveryId) then set_busy None c else c.

(** The operation runs to its end; its caller learns it a turn later and
    releases the lock. *)
Definition run_operation (role : ResponseActionRole) (deliveryId : string) (body : prog jsv) : prog jsv :=
  c ← get;
  modify (acquire role deliveryId) ;;
  settle body (λ o,
    modify (settle_promise (nextPromise c) o) ;;
    invoke Turn ;;
    modify (release deliveryId) ;;
    of_outcome o).

Definition perform (role : ResponseActionRole) (admission : QualifiedResponseActionRole) (response input : jsv)
    (deliveryId : string) (source : jsv) (generation : N) (retry : option N) (guarded : bool) : prog jsv :=
  c ← get;
  refused_when (has_pending c && negb (bool_decide (role = Sign))) OperationConflict ;;
  request ← requestForRole role admission;
  let recovering := bool_decide (role = Sign) && reconcileSignRetries config && isSome retry
    && bool_decide (deliveries c !! deliveryId ≫= signRetry = retry) in
  validateResponse response ;;
  current generation ;;
  c ← get;
  refused_when (applicationLookup c && (bool_decide (role = StartApplication) || bool_decide (role = Submit))) BranchMismatch ;;
  refused_when
    (bool_decide (role = StartApplication)
     && (match applicationLifecycle config with
         | Some l => negb (earlyCaseCreation l) || negb (String.eqb (capabilities_formVersionId l) (formVersionId ctx))
         | None => true
         end || isSome (signed c))) BranchMismatch ;;
  refused_when
    (match restored config with
     | Some r => negb (bool_decide (length (authored_signatures r) = 0)) && negb (isSome (signed c))
     | None => false
     end) RestorationUnresolved ;;
  wording ← (if is_checkpoint role then mret None else Some <$> invoke SigningContext);
  let subject := subject_of role c in
  (if bool_decide (role = Sign) || bool_decide (role = Submit) then
     match reviewed_of role c, wording with
     | Some s, Some (wsource, locale) =>
         refused_when (negb (same (saved_response s) response)) ContextMismatch ;;
         (if recovering then mret () else review s (bool_decide (role = Submit)) wsource locale) ;;
         refused_when
           (negb (if bool_decide (role = Sign) then sign_input_ok input (saved_draft s) response wsource locale
                  else submit_input_ok input (saved_draft s) response)) ContextMismatch
     | _, _ => refused ContextMismatch
     end
   else mret ()) ;;
  let known := deliveries c !! deliveryId in
  digest ← invoke (HashResponse response);
  current generation ;;
  let baseline := saved_draft <$> subject in
  let id := identity_of role admission source generation digest
    (match known with Some d => baselineDraft d | None => baseline end) input wording in
  c ← get;
  match gate role deliveryId id c with
  | Join p => invoke (JoinPending p)
  | Replay outputs => mret outputs
  | Stop reason => refused reason
  | Resume d =>
      run_operation role deliveryId
        (run_effect role admission request response input deliveryId (operationId d) generation subject wording
           recovering retry guarded)
  | Start =>
      operation ← operation_id;
      modify (λ c, set_deliveries (<[deliveryId := new_delivery id operation baseline]> (deliveries c)) c) ;;
      run_operation role deliveryId
        (run_effect role admission request response input deliveryId operation generation subject wording
           recovering retry guarded)
  end.

(** *** Failing *)

(** [fail]: what a failed operation publishes, and the reason its caller is
    given. *)
Definition failure_reason (e : failure) : ResponseActionControllerReason :=
  match e with ControllerRefusal r | ResponseCompletionRefusal r => r | _ => PortFailed end.

Definition failure_phase (e : failure) : Phase :=
  match e with ControllerRefusal _ | ResponseCompletionRefusal _ => Refused | _ => Failed end.

Definition fail (e : failure) (generation : N) : prog ResponseActionControllerReason :=
  c ← get;
  if negb (bool_decide (generation = epoch c)) then mret ContextObsolete else
  let unknown := completionOutcomeUnknown c
    || bool_decide (completion config = Some TaskCompletion)
       && match e with TaskCompletionOutcomeUnknown => true | _ => false end in
  modify (set_completionOutcomeUnknown unknown) ;;
  if unknown then publish_reason OutcomeUnknown CompletionOutcomeUnknown ;; mret CompletionOutcomeUnknown else
  let reason := failure_reason e in
  (if negb (bool_decide (reason = ContextObsolete)) && negb (isSome (completionResult c))
   then publish_reason (failure_phase e) reason else mret ()) ;;
  mret reason.

(** The [dispatchEffect] of both executors. *)
Definition dispatch (role : ResponseActionRole) (admission : QualifiedResponseActionRole) (response input : jsv)
    (deliveryId : string) (source : jsv) (generation : N) (retry : option N) (guarded : bool) : prog jsv :=
  settle (perform role admission response input deliveryId source generation retry guarded) (λ o,
    match o with
    | Returns outputs => mret outputs
    | Throws e => reason ← fail e generation; refused reason
    end).

(** *** The other operations *)

Definition invalidate_in (c : Controller) : Controller :=
  publish_in Refused (Some ContextObsolete)
    (set_prepared None (set_signed None (set_saved None (set_owned false (set_deliveries ∅ (set_confirmedDelivery None
      (set_retryableSign None (set_invalidated true (set_epoch (epoch c + 1)%N (set_completionResult None c)))))))))).

Definition invalidate : prog jsv := modify invalidate_in ;; mret JUndef.

(** Publishing again what is published, with the fields of now. *)
Definition republish : prog unit :=
  modify (λ c, publish_in (snap_phase (snapshot c)) (snap_reason (snapshot c)) c).

Definition retireSignRetry : prog jsv := modify retire_retries ;; republish ;; mret JUndef.

Definition refreshApplication : prog jsv :=
  c ← get;
  current (epoch c) ;;
  refused_when ((negb (isSome (application c)) && negb (applicationLookup c)) || negb (isSome (applicationLifecycle config))
                || is_busy c) BranchMismatch ;;
  modify (set_busy (Some "application-refresh")) ;;
  finally
    (receipt ← invoke LoadCase;
     current (epoch c) ;;
     c' ← get;
     refused_when
       (match application c', receipt with
        | Some _, None => true
        | Some a, Some r =>
            negb (String.eqb (caseLedgerId r) (caseLedgerId a)) || negb (String.eqb (receipt_draftRef r) (receipt_draftRef a))
            || receipt_submitted a && negb (receipt_submitted r)
        | None, _ => false
        end) ContextMismatch ;;
     modify (λ c, set_applicationLookup false (set_application receipt c)) ;;
     republish ;;
     mret JUndef)
    (set_busy None).

Definition can_restore (c : Controller) : bool :=
  isSome (restored config) && negb (isSome (prepared c)) && negb (isSome (signed c)) && negb (isSome (saved c))
  && negb (is_busy c) && negb (isSome (completionResult c)).

Definition restored_signatures : bool :=
  match restored config with Some r => negb (bool_decide (length (authored_signatures r) = 0)) | None => false end.

Definition subject_agrees (actor : string) : bool :=
  match key_subjectRef (draftKey ctx) with Some s => negb (nonempty s) || String.eqb actor s | None => true end.

Definition restoreSavedDraft (value : SavedResponseDraft) : prog jsv :=
  c ← get;
  current (epoch c) ;;
  refused_when
    (negb (can_restore c) || restored_signatures || truthy (signing_content (opt_json (restored config))) || has_pending c)
    RestorationUnresolved ;;
  modify (set_busy (Some "draft-restoration")) ;;
  finally
    (refused_when (negb (response_identified ctx (saved_response value)) || negb (subject_agrees (saved_actor value)))
       ContextMismatch ;;
     checkEvidence value (restored config) ;;
     current (epoch c) ;;
     modify (λ c, set_owned true (set_actor (Some (saved_actor value)) (set_saved (Some value) c))) ;;
     publish Saved ;;
     afterCommit value ;;
     current (epoch c) ;;
     mret JUndef)
    (set_busy None).

Definition restoreSigned (value : SignedResponseSigning) : prog jsv :=
  c ← get;
  current (epoch c) ;;
  refused_when (negb (can_restore c) || negb restored_signatures) RestorationUnresolved ;;
  checkEvidence (prepared_saved (signed_prepared value)) (restored config) ;;
  current (epoch c) ;;
  wording ← invoke SigningContext;
  let '(source, locale) := wording in
  refused_when (negb (restored_signed_consistent ctx value source locale)) ContextMismatch ;;
  (if bool_decide (completion config = Some TaskCompletion) then
     match assertSignedTaskDraft (ev_taskDraft (saved_evidence value)) (saved_draft value) with
     | Returns _ => mret ()
     | Throws _ => refused ContextMismatch
     end
   else mret ()) ;;
  modify (λ c, set_owned true (set_actor (Some (saved_actor value))
                 (set_saved (Some (prepared_saved (signed_prepared value))) (set_signed (Some value) c)))) ;;
  publish Signed ;;
  afterCommit (prepared_saved (signed_prepared value)) ;;
  mret JUndef.

Definition without_signatures (response : jsv) : jsv := obj_delete "authoredSignatures" response.

(** [delete successor.extensions?.['x-formspec-signing-content']] *)
Definition without_signing_content (response : jsv) : jsv :=
  match prop response "extensions" with
  | JObj _ as e => JObj (obj_set (props_of response) "extensions" (obj_delete "x-formspec-signing-content" e))
  | _ => response
  end.

Definition restorePending `{!UuidPackage} (value : PreparedResponseSigning) (operation : string) (renew : bool) : prog jsv :=
  c ← get;
  current (epoch c) ;;
  refused_when
    (bool_decide (completion config = Some TaskCompletion) || negb (can_restore c) || negb (restoresPending config)
     || negb (same (saved_response value) (opt_json (restored config)))) RestorationUnresolved ;;
  checkEvidence (prepared_saved value) (restored config) ;;
  current (epoch c) ;;
  match roles config Sign with
  | Some admission =>
      refused_when (negb (nonempty (default "" (role_requestRef admission)))) ActionUnadmitted ;;
      wording ← invoke SigningContext;
      let '(source, locale) := wording in
      result ← invoke (RestorePending (opt_json (restored config)) source locale renew admission operation);
      current (epoch c) ;;
      let selected := match result with RestoredSigned s => signed_prepared s | RestoredPrepared p _ => p end in
      checkEvidence (prepared_saved selected) (Some (saved_response selected)) ;;
      current (epoch c) ;;
      refused_when (negb (same (content selected) (content value))) ContextMismatch ;;
      match result with
      | RestoredSigned s =>
          refused_when
            (negb (same (without_signatures (saved_response s)) (without_signatures (saved_response value))))
            ContextMismatch ;;
          refused_when (negb (restored_signed_consistent ctx s source locale)) ContextMismatch ;;
          modify (λ c, set_actor (Some (saved_actor s))
                         (set_saved (Some (prepared_saved (signed_prepared s))) (set_signed (Some s) c))) ;;
          publish Signed ;;
          afterCommit (prepared_saved (signed_prepared s)) ;;
          mret JUndef
      | RestoredPrepared p op =>
          refused_when
            (negb (same (saved_response p) (without_signing_content (saved_response value)))
             || negb (isUuidV7IdempotencyKey op)) ContextMismatch ;;
          modify (λ c, set_pendingOperationId (Some op) (set_actor (Some (saved_actor p))
                         (set_saved (Some (prepared_saved p)) (set_prepared (Some p) c)))) ;;
          publish Prepared ;;
          mret JUndef
      end
  | None => refused ActionUnadmitted
  end.

(** [createResponseActionController] *)
Definition create : Controller :=
    {| completionResult := None; completionOutcomeUnknown := false; epoch := 0; invalidated := false;
       owned := isSome (restored config); actor := expectedActor ctx; application := restoredApplication config;
       applicationLookup := restoredApplicationLookup config; saved := None; prepared := None;
       pendingOperationId := None; signed := None; busy := None; retryableSign := None; confirmedDelivery := None;
       snapshot := {| snap_phase := Idle; snap_owned := isSome (restored config);
                      snap_application := restoredApplication config;
                      snap_applicationLookup := restoredApplicationLookup config; snap_retrySignAvailable := false;
                      snap_pendingSign := false; snap_reason := None; snap_saved := None; snap_prepared := None;
                      snap_signed := None; snap_completion := None |};
       deliveries := ∅; settled := ∅; nextPromise := 0 |}.

(** *** A running controller *)

(** What its owner may call.  An invocation id is a non-empty string; an empty
    one would not lock the controller. *)
Inductive operation `{!UuidPackage} : prog jsv → Prop :=
  | op_dispatch role admission response input deliveryId source generation retry guarded :
      deliveryId ≠ "" →
      operation (dispatch role admission response input deliveryId source generation retry guarded)
  | op_invalidate : operation invalidate
  | op_retireSignRetry : operation retireSignRetry
  | op_refreshApplication : operation refreshApplication
  | op_restoreSavedDraft value : operation (restoreSavedDraft value)
  | op_restoreSigned value : operation (restoreSigned value)
  | op_restorePending value key renew : operation (restorePending value key renew).

(** An effect is observed with the invocation that holds the lock. *)
Definition observe (X : Type) (q : call X) (c : Controller) : list (option string * effect) :=
  match effect_of q with Some e => [(busy c, e)] | None => [] end.

Definition controller_world : Type :=
  world (C := Controller) (F := failure) (call := call) (Ev := option string * effect) jsv.

Definition controller_step `{!UuidPackage, !ResponseChecks} : controller_world → controller_world → Prop :=
  step (@yields) (@answers _) observe operation.

Definition controller_reachable `{!UuidPackage, !ResponseChecks} : controller_world → Prop :=
  reachable (@yields) (@answers _) observe operation create.
End operations.
