(* ===== verification/ResponseActionTheorems.v ===== *)
(** * What the response action controller guarantees

    Every operation of [ResponseActionController] meets the conditions below,
    so that they hold of every reachable state, in whatever order operations are
    started and their awaited calls settle, and whatever the ports answer. *)

From S2P Require Import Prelude JsValue Async AsyncTokens IdempotencyKey DraftKeys ResponseAction ResponseActionController.

Section conditions.
Context `{Can : !Canonicalize, Eng : !Engine, Chk : !ResponseChecks} (config : ResponseActionControllerConfig).

Abbreviation ctx := (context config).

(** ** The conditions *)

(** A draft the controller has checked: it is this context's response, valid,
    with consistent evidence, the expected actor and the digest of its bytes. *)
Record draft_evidenced (s : SavedResponseDraft) : Prop := {
  de_identified : response_identified ctx (saved_response s) = true;
  de_in_context : response_in_context ctx (saved_response s) = true;
  de_valid : validates (saved_response s) = true;
  de_consistent : evidence_consistent ctx (expectedActor ctx) None s = true;
  de_digest : draft_responseHash (saved_draft s) = hashOf (saved_response s)
}.

Record controller_inv (c : Controller) : Prop := {
  ci_actor a : expectedActor ctx = Some a → a ≠ "" → actor c = Some a;
  ci_saved s : owned c = true → saved c = Some s → draft_evidenced s;
  ci_prepared p : prepared c = Some p → draft_evidenced p;
  ci_signed s : signed c = Some s → draft_evidenced s;
  ci_invalidated : invalidated c = true →
    owned c = false ∧ prepared c = None ∧ signed c = None ∧ completionResult c = None ∧ deliveries c = ∅;
  ci_pending id d p : deliveries c !! id = Some d → pending d = Some p → busy c = Some id ∧ (p < nextPromise c)%N;
  ci_promises p : (p < nextPromise c)%N → is_Some (settled c !! p) ∨ is_busy c = true ∧ nextPromise c = (p + 1)%N;
  ci_busy id : busy c = Some id → id ≠ "";
  ci_restored : is_Some (restored config) → invalidated c = false → owned c = true
}.

(** What a delivery keeps once it is known. *)
Record delivery_grows (d d' : Delivery) : Prop := {
  dg_identity : identity d' = identity d;
  dg_operation : operationId d' = operationId d;
  dg_baseline : baselineDraft d' = baselineDraft d;
  dg_retired : retired d = true → retired d' = true;
  dg_completed o : completed d = Some o → completed d' = Some o;
  dg_final o : completed d = Some o → retired d' = retired d
}.

(** The case and the actor stay as they are. *)
Definition case_kept (c c' : Controller) : Prop :=
  application c' = application c ∧ applicationLookup c' = applicationLookup c ∧ actor c' = actor c.

Record controller_mono (c c' : Controller) : Prop := {
  cm_invalidated : invalidated c = true → invalidated c' = true;
  cm_completion r : completionResult c = Some r → completionResult c' = Some r ∨ invalidated c' = true;
  cm_deliveries id d : deliveries c !! id = Some d →
    invalidated c' = true ∨ ∃ d', deliveries c' !! id = Some d' ∧ delivery_grows d d';
  cm_settled p : is_Some (settled c !! p) → is_Some (settled c' !! p);
  cm_next : (nextPromise c ≤ nextPromise c')%N;
  cm_case : invalidated c = true → case_kept c c'
}.

(** Nothing but the retained retry of a delivery changes under another
    operation's lock, unless everything is dropped. *)
Definition deliveries_kept (c c' : Controller) : Prop :=
  ∀ id, set_signRetry None <$> deliveries c' !! id = set_signRetry None <$> deliveries c !! id.

Record controller_held (c c' : Controller) : Prop := {
  ch_busy : busy c' = busy c;
  ch_next : nextPromise c' = nextPromise c;
  ch_invalidated : invalidated c = true → invalidated c' = true;
  ch_kept : invalidated c' = true ∨ completionResult c' = completionResult c ∧ deliveries_kept c c';
  ch_saved s : saved c' = Some s → saved c = Some s ∨ draft_evidenced s;
  ch_owned : owned c' = true → owned c = true ∨ is_Some (restored config)
}.

(** An effect is asked for under the lock, while nothing is completed or
    invalidated, with the key of the delivery that holds the lock. *)
Definition effect_allowed (e : effect) (c : Controller) : Prop :=
  invalidated c = false ∧ completionResult c = None ∧
  ∃ id d, busy c = Some id ∧ deliveries c !! id = Some d ∧ ∀ op, effect_key e = Some op → op = operationId d.

Definition signing_allowed {X} (q : call X) (c : Controller) : Prop :=
  match q with
  | SignPrepared p _ _ _ => p = prepared c
  | CompleteResponse _ _ => is_Some (signed c)
  | _ => True
  end.

(** An operation is joined without the lock, once it was started. *)
Definition joining_allowed {X} (q : call X) (h : bool) (c : Controller) : Prop :=
  match q with JoinPending p => h = false ∧ (p < nextPromise c)%N | _ => True end.

Definition call_allowed (X : Type) (q : call X) (h : bool) (c : Controller) : Prop :=
  match effect_of q with
  | Some e => h = true ∧ effect_allowed e c ∧ signing_allowed q c
  | None => joining_allowed q h c
  end.

Definition controller_conditions : conditions Controller call :=
  {| inv := controller_inv; mono := controller_mono; locked := is_busy; held := controller_held;
     issue := call_allowed |}.

(** ** They fit together *)

#[export] Instance delivery_grows_preorder : PreOrder delivery_grows.
Proof.
  split; [by split|]. intros d1 d2 d3 G1 G2. split.
  - by rewrite (dg_identity _ _ G2), (dg_identity _ _ G1).
  - by rewrite (dg_operation _ _ G2), (dg_operation _ _ G1).
  - by rewrite (dg_baseline _ _ G2), (dg_baseline _ _ G1).
  - intros Hr. by apply (dg_retired _ _ G2), (dg_retired _ _ G1).
  - intros o Ho. by apply (dg_completed _ _ G2), (dg_completed _ _ G1).
  - intros o Ho. rewrite (dg_final _ _ G2 o), (dg_final _ _ G1 o); [done|done|]. by apply (dg_completed _ _ G1).
Qed.

#[export] Instance controller_mono_preorder : PreOrder controller_mono.
Proof.
  split; [intros c; split; [done|by left|intros id d Hd; right; by exists d|done|done|done]|].
  intros c1 c2 c3 [I1 C1 D1 S1 N1 K1] [I2 C2 D2 S2 N2 K2]. split; [auto| | |auto|by transitivity (nextPromise c2)|].
  - intros r [E|E]%C1; [by apply C2|auto].
  - intros id d [E|(d' & E & G)]%D1; [auto|]. destruct (D2 id d' E) as [?|(d'' & E' & G')]; [by left|right].
    exists d''. split; [done|]. by transitivity d'.
  - intros Hi. destruct (K1 Hi) as (? & ? & ?), (K2 (I1 Hi)) as (? & ? & ?). unfold case_kept. split_and!; congruence.
Qed.

#[export] Instance controller_held_preorder : PreOrder controller_held.
Proof.
  split; [intros c; split; [done|done|done|right; by split|by left|by left]|].
  intros c1 c2 c3 [B1 N1 I1 K1 S1 O1] [B2 N2 I2 K2 S2 O2]. split; [congruence|congruence|auto| | |].
  - destruct K2 as [?|[C2 D2]]; [by left|]. destruct K1 as [HI|[C1 D1]]; [left; auto|right].
    split; [congruence|]. intros id. by rewrite D2.
  - intros s [E|E]%S2; [|by right]. by apply S1.
  - intros [E|E]%O2; [by apply O1|by right].
Qed.

Lemma controller_conditions_ok : conditions_ok controller_conditions.
Proof.
  split; [apply _|apply _|]. intros c c' Hh. simpl. unfold is_busy. by rewrite (ch_busy _ _ Hh).
Qed.

(** ** Stepping through a program *)

Abbreviation cok := (ok (@yields) (@answers _) controller_conditions).
Abbreviation crely := (rely controller_conditions).
Abbreviation cguar := (guarantee controller_conditions).

Lemma crely_refl h c : controller_inv c → crely h c c.
Proof. by split. Qed.

Lemma crely_trans h c1 c2 c3 : crely h c1 c2 → crely h c2 c3 → crely h c1 c3.
Proof.
  intros (_ & M1 & H1) (I2 & M2 & H2). split; [done|]. split; [by transitivity c2|].
  intros Hh. transitivity c2; auto.
Qed.

Lemma crely_inv h c c' : crely h c c' → controller_inv c'.
Proof. by intros [? _]. Qed.

Lemma ok_get {B} (f : Controller → prog B) h c Q : cok (f c) h c Q → cok (c ← get; f c) h c Q.
Proof. done. Qed.

Lemma ok_modify {B} g (m : prog B) h h' c Q :
  cguar h h' c (g c) → cok m h' (g c) Q → cok (modify g ;; m) h c Q.
Proof. intros Hg Hm. simpl. by exists h'. Qed.

Lemma ok_refused_when {B} b r (m : prog B) h c Q :
  (b = true → Q h (Throws (ControllerRefusal r)) c) → (b = false → cok m h c Q) →
  cok (refused_when b r ;; m) h c Q.
Proof. unfold refused_when, refuse_when. destruct b; simpl; auto. Qed.

(** [current] succeeds when nothing was invalidated since. *)
Lemma ok_current {B} g (m : prog B) h c Q :
  Q h (Throws (ControllerRefusal ContextObsolete)) c →
  (invalidated c = false → g = epoch c → cok m h c Q) →
  cok (current g ;; m) h c Q.
Proof.
  intros HQ Hm. unfold current. change (cok (refused_when (invalidated c || negb (bool_decide (g = epoch c))) ContextObsolete ;; m) h c Q).
  apply ok_refused_when; [done|]. rewrite orb_false_iff, negb_false_iff, bool_decide_eq_true. intros [? ?]. auto.
Qed.

(** Neither an effect nor the joining of an operation. *)
Definition plain {X} (q : call X) : bool :=
  match q with JoinPending _ => false | _ => negb (isSome (effect_of q)) end.

Lemma plain_allowed X (q : call X) h c : plain q = true → call_allowed X q h c.
Proof. by destruct q. Qed.

(** A call that is no effect: whatever it answers, after whatever the others
    did. *)
Lemma ok_invoke {X B} (q : call X) (f : X → prog B) h c Q :
  plain q = true → controller_inv c →
  (∀ c' e, crely h c c' → Q h (Throws e) c') →
  (∀ c' x, crely h c c' → answers q (Returns x) c' → cok (f x) h c' Q) →
  cok (x ← invoke q; f x) h c Q.
Proof.
  intros He Hi HQ Hf. simpl. split; [by apply plain_allowed|]. intros c' a Hc Ha.
  assert (crely h c c') as Hr by (destruct (yields q); [done|subst; by apply crely_refl]).
  destruct a as [x|e]; simpl; auto.
Qed.

(** An effect: it must be allowed. *)
Lemma ok_effect {X B} (q : call X) (f : X → prog B) e c Q :
  effect_of q = Some e → effect_allowed e c → signing_allowed q c → yields q = true →
  (∀ c' e, crely true c c' → Q true (Throws e) c') →
  (∀ c' x, crely true c c' → cok (f x) true c' Q) →
  cok (x ← invoke q; f x) true c Q.
Proof.
  intros He Ha Hs Hy HQ Hf. simpl. split; [unfold call_allowed; by rewrite He|]. rewrite Hy. intros c' [x|e'] Hc _; simpl; auto.
Qed.

Lemma ok_refused_when_last b r h c Q :
  (b = true → Q h (Throws (ControllerRefusal r)) c) → (b = false → Q h (Returns ()) c) →
  cok (refused_when b r) h c Q.
Proof. unfold refused_when, refuse_when. destruct b; simpl; auto. Qed.

Lemma ok_validateResponse {B} r (m : prog B) h c Q :
  controller_inv c →
  (∀ c' e, crely h c c' → Q h (Throws e) c') →
  (∀ c', crely h c c' → response_identified ctx r = true → response_in_context ctx r = true → validates r = true →
     cok m h c' Q) →
  cok (validateResponse config r ;; m) h c Q.
Proof.
  intros Hi HQ Hm. apply ok_bind. apply ok_refused_when; [intros _; apply HQ; by apply crely_refl|].
  intros Hid%negb_false_iff. apply ok_invoke; [done|done|intros; by apply HQ|].
  intros c1 valid Hc1 Hv. apply ok_refused_when; [intros _; by apply HQ|]. intros ->%negb_false_iff.
  apply ok_refused_when_last; [intros _; by apply HQ|]. intros Hctx%negb_false_iff.
  apply Hm; [done..|]. by symmetry; apply Hv.
Qed.

(** The evidence accepted for the actor known now is accepted for the actor
    expected from the start. *)
Lemma evidence_expected c expected s :
  controller_inv c → evidence_consistent ctx (actor c) expected s = true →
  evidence_consistent ctx (expectedActor ctx) None s = true.
Proof.
  intros Hi. unfold evidence_consistent. rewrite !andb_true_iff. intuition.
  destruct (expectedActor ctx) as [a|] eqn:E; [|done]. destruct (decide (a = "")) as [->|Ha]; [done|].
  rewrite (ci_actor _ Hi a E Ha) in *. done.
Qed.

Lemma ok_checkEvidence {B} s expected (m : prog B) h c Q :
  controller_inv c →
  (∀ c' e, crely h c c' → Q h (Throws e) c') →
  (∀ c', crely h c c' → draft_evidenced s →
     evidence_consistent ctx (actor c) expected s = true → cok m h c' Q) →
  cok (checkEvidence config s expected ;; m) h c Q.
Proof.
  intros Hi HQ Hm. apply ok_bind, ok_get, ok_validateResponse; [done|done|].
  intros c1 Hc1 Hid Hctx Hv. apply ok_refused_when; [intros _; by apply HQ|]. intros Hcons%negb_false_iff.
  apply ok_invoke; [done|by eapply crely_inv|intros; apply HQ; by eapply crely_trans|].
  intros c2 digest Hc2 Hd. assert (crely h c c2) as Hc by (by eapply crely_trans).
  apply ok_refused_when_last; [intros _; by apply HQ|]. intros Hdig%negb_false_iff%String.eqb_eq.
  apply Hm; [done| |done]. split; [done|done|done|by eapply evidence_expected|].
  rewrite Hdig. by apply Hd.
Qed.

(** Telling the host: nothing it does can fail the operation. *)
Lemma ok_afterCommit {B} s (m : prog B) h c Q :
  controller_inv c → (∀ c', crely h c c' → cok m h c' Q) → cok (afterCommit s ;; m) h c Q.
Proof.
  intros Hi Hm. apply ok_bind. unfold afterCommit. apply ok_settle. simpl. split; [done|]. intros c' [] Hc _; simpl; auto.
Qed.

Lemma ok_review {B} p stage source locale (m : prog B) h c Q :
  (∀ e, Q h (Throws e) c) → cok m h c Q → cok (review p stage source locale ;; m) h c Q.
Proof.
  intros HQ Hm. apply ok_bind. apply ok_refused_when; [intros _; apply HQ|]. intros _.
  apply ok_refused_when; [intros _; apply HQ|]. intros _. simpl. split; [done|].
  intros c' a -> _. destruct a as [ready|e]; simpl; [|apply HQ]. destruct ready; simpl; auto.
Qed.

(** Planning reads the state and calls the engine only. *)
Lemma ok_plan {B} role request input response subject (m : prog B) h c Q :
  (∀ e, Q h (Throws e) c) → cok m h c Q → cok (plan config role request input response subject ;; m) h c Q.
Proof.
  intros HQ Hm. apply ok_bind, ok_get. destruct request as [r|]; [|done].
  destruct (_ && _ && _); [|done]. destruct (planServiceRequest _ _) as [planned|e]; [|apply HQ].
  unfold of_outcome. apply ok_refused_when_last; auto.
Qed.

Lemma ok_of_outcome {A B} (o : outcome failure A) (f : A → prog B) h c Q :
  (∀ e, o = Throws e → Q h (Throws e) c) → (∀ a, o = Returns a → cok (f a) h c Q) → cok (x ← of_outcome o; f x) h c Q.
Proof. destruct o; simpl; auto. Qed.

(** ** Writes *)

Lemma alter_none (f : Delivery → Delivery) id : alter f id (∅ : gmap string Delivery) = ∅.
Proof.
  apply map_empty. intros j. destruct (decide (j = id)) as [->|]; [by rewrite lookup_alter_eq|by rewrite lookup_alter_ne].
Qed.

Definition same_core (c c' : Controller) : Prop :=
  completionResult c' = completionResult c ∧ invalidated c' = invalidated c ∧ owned c' = owned c ∧
  actor c' = actor c ∧ saved c' = saved c ∧ prepared c' = prepared c ∧ signed c' = signed c ∧ busy c' = busy c ∧
  deliveries c' = deliveries c ∧ settled c' = settled c ∧ nextPromise c' = nextPromise c ∧
  (invalidated c = true → case_kept c c').

Lemma mono_same c c' :
  invalidated c' = invalidated c → completionResult c' = completionResult c → deliveries c' = deliveries c →
  settled c' = settled c → nextPromise c' = nextPromise c → (invalidated c = true → case_kept c c') →
  controller_mono c c'.
Proof.
  intros Hi Hc Hd Hs Hp Hk. split; [by rewrite Hi|by rewrite Hc; left| |by rewrite Hs|by rewrite Hp|done].
  rewrite Hd. intros id d Hid. right. by exists d.
Qed.

Lemma is_busy_Some c id : controller_inv c → busy c = Some id → is_busy c = true.
Proof. intros Hi Hb. unfold is_busy. rewrite Hb. apply nonempty_spec. by apply (ci_busy _ Hi). Qed.

(** A write that leaves the lock, the deliveries and the completion alone, and
    puts only checked drafts in place. *)
Lemma guar_update h c c' :
  controller_inv c → invalidated c = false → (h = true → is_busy c = true) →
  invalidated c' = invalidated c → busy c' = busy c → deliveries c' = deliveries c →
  completionResult c' = completionResult c → settled c' = settled c → nextPromise c' = nextPromise c →
  (actor c' = actor c ∨ ∃ s, draft_evidenced s ∧ actor c' = Some (saved_actor s)) →
  (∀ s, owned c' = true → saved c' = Some s → (owned c = true ∧ saved c = Some s) ∨ draft_evidenced s) →
  (∀ p, prepared c' = Some p → prepared c = Some p ∨ draft_evidenced p) →
  (∀ s, signed c' = Some s → signed c = Some s ∨ draft_evidenced s) →
  (owned c = true → owned c' = true) →
  (h = false → (∀ s, saved c' = Some s → saved c = Some s ∨ draft_evidenced s) ∧
    (owned c' = true → owned c = true ∨ is_Some (restored config))) →
  cguar h h c c'.
Proof.
  intros Hi Hninv Hh Einv Ebusy Edel Ecomp Eset Enext Hact Hsav Hprep Hsig Hown Hfree. split; [split|split; [by apply mono_same; [..|congruence]|]].
  - intros a Ha Hne. destruct Hact as [->|(s & Hs & ->)]; [by apply (ci_actor _ Hi)|]. f_equal.
    pose proof (de_consistent _ Hs) as Hc. unfold evidence_consistent in Hc. rewrite Ha, !andb_true_iff in Hc.
    destruct Hc as [[[[[[[[[[_ Hc] _] _] _] _] _] _] _] _] _]. rewrite orb_true_iff, negb_true_iff in Hc.
    destruct Hc as [Hc|Hc]; [|by apply String.eqb_eq in Hc]. destruct (nonempty_spec a) as [_ Hn]. by rewrite Hn in Hc.
  - intros s Ho Hs. destruct (Hsav s Ho Hs) as [[? ?]|?]; [by apply (ci_saved _ Hi)|done].
  - intros p Hp. destruct (Hprep p Hp); [by apply (ci_prepared _ Hi)|done].
  - intros s Hs. destruct (Hsig s Hs); [by apply (ci_signed _ Hi)|done].
  - rewrite Einv, Hninv. done.
  - rewrite Edel, Ebusy, Enext. apply (ci_pending _ Hi).
  - unfold is_busy. rewrite Eset, Enext, Ebusy. apply (ci_promises _ Hi).
  - rewrite Ebusy. apply (ci_busy _ Hi).
  - rewrite Einv. intros Hr Hn. apply Hown. by apply (ci_restored _ Hi).
  - assert (is_busy c' = is_busy c) as Hb by (unfold is_busy; by rewrite Ebusy).
    destruct h; simpl; [rewrite Hb; auto|]. split; [intros _|done]. destruct (Hfree eq_refl). split; [done|done|by rewrite Einv| |done|done].
    right. split; [done|]. intros id. by rewrite Edel.
Qed.

Lemma guar_same h c c' :
  controller_inv c → (h = true → is_busy c = true) → same_core c c' → cguar h h c c'.
Proof.
  intros Hi Hh (Ec & Ei & Eo & Ea & Es & Ep & Esg & Eb & Ed & Ese & En & Ek).
  assert (is_busy c' = is_busy c) as Hb by (unfold is_busy; by rewrite Eb).
  split; [|split; [by apply mono_same|]].
  - destruct Hi. split; unfold is_busy; rewrite ?Ea, ?Eo, ?Es, ?Ep, ?Esg, ?Ei, ?Ec, ?Ed, ?Eb, ?Ese, ?En; done.
  - destruct h; simpl; [rewrite Hb; auto|]. split; [intros _|done]. split; [done|done|by rewrite Ei| |rewrite Es; by left|rewrite Eo; by left].
    right. split; [done|]. intros id. by rewrite Ed.
Qed.

(** The holder's own delivery. *)
Lemma guar_delivery c id f :
  controller_inv c → busy c = Some id →
  (∀ d, pending (f d) = pending d) → (∀ d, deliveries c !! id = Some d → delivery_grows d (f d)) →
  cguar true true c (update_delivery id f c).
Proof.
  intros Hi Hb Hp Hf. unfold update_delivery. split; [|split].
  - destruct Hi as [I1 I2 I3 I4 I5 I6 I7 I8 I9]. split; simpl; try done.
    + intros Hinv. destruct (I5 Hinv) as (? & ? & ? & ? & ->). by rewrite alter_none.
    + intros id' d' p. destruct (decide (id' = id)) as [->|Hne]; [|rewrite lookup_alter_ne by done; apply I6].
      rewrite lookup_alter_eq. destruct (deliveries c !! id) as [d|] eqn:E; [|done]. intros [= <-]. rewrite Hp. by apply I6.
  - split; simpl; [done|by left| |done|done|done]. intros id' d Hd. right. destruct (decide (id' = id)) as [->|Hne].
    + exists (f d). split; [by rewrite lookup_alter_eq, Hd|auto].
    + exists d. by rewrite lookup_alter_ne.
  - exact (is_busy_Some c id Hi Hb).
Qed.

(** ** Under the lock *)

Section under_the_lock.
Context (promise : N).

(** The operation of the latest promise holds the lock. *)
Definition lock_of (id : string) (c : Controller) : Prop := busy c = Some id ∧ nextPromise c = (promise + 1)%N.

(** Its delivery is not completed yet. *)
Definition running (id op : string) (c : Controller) : Prop :=
  lock_of id c ∧
  (invalidated c = true ∨ ∃ d, deliveries c !! id = Some d ∧ operationId d = op ∧ completed d = None).

(** It may still have an effect. *)
Definition armed (id op : string) (c : Controller) : Prop :=
  running id op c ∧ (invalidated c = true ∨ completionResult c = None).

Lemma rely_busy c c' : crely true c c' → busy c' = busy c.
Proof. intros (_ & _ & Hh). by apply ch_busy, Hh. Qed.

Lemma rely_lock id c c' : crely true c c' → lock_of id c → lock_of id c'.
Proof.
  intros (_ & _ & Hh) [Hb Hn]. specialize (Hh eq_refl). split; [by rewrite (ch_busy _ _ Hh)|by rewrite (ch_next _ _ Hh)].
Qed.

Lemma kept_delivery c c' id d : deliveries_kept c c' → deliveries c !! id = Some d →
  ∃ d', deliveries c' !! id = Some d' ∧ operationId d' = operationId d ∧ completed d' = completed d.
Proof.
  intros Hk Hd. specialize (Hk id). rewrite Hd in Hk. destruct (deliveries c' !! id) as [d'|]; [|done].
  exists d'. split; [done|]. injection Hk as _ Ho _ _ _ _ Hc. done.
Qed.

Lemma rely_armed id op c c' : crely true c c' → armed id op c → armed id op c'.
Proof.
  intros Hr [[Hb Hd] Hc]. pose proof (rely_lock _ _ _ Hr Hb) as Hb'. destruct Hr as (Hi & Hm & Hh).
  specialize (Hh eq_refl). destruct (ch_kept _ _ Hh) as [Hinv|[Hcr Hk]].
  - split; [split; [done|by left]|by left].
  - split; [split; [done|]|rewrite Hcr; destruct Hc; [left; by apply Hh|by right]].
    destruct Hd as [?|(d & Hd & Ho & Hcm)]; [left; by apply Hh|right].
    destruct (kept_delivery _ _ _ _ Hk Hd) as (d' & Hd' & Ho' & Hc'). exists d'. split; [done|]. split; congruence.
Qed.

Lemma armed_allowed id op e c :
  armed id op c → invalidated c = false → (∀ op', effect_key e = Some op' → op' = op) → effect_allowed e c.
Proof.
  intros [[[Hb _] [Hd|(d & Hd & Ho & _)]] [Hc|Hc]] Hi He; try congruence.
  split; [done|]. split; [done|]. exists id, d. rewrite Ho. done.
Qed.

Lemma running_delivery id op c d : controller_inv c → running id op c → deliveries c !! id = Some d → completed d = None.
Proof.
  intros Hi [_ [Hinv|(d' & Hd' & _ & Hc)]] Hd; [|congruence].
  destruct (ci_invalidated _ Hi Hinv) as (_ & _ & _ & _ & He). rewrite He in Hd. done.
Qed.

(** What an operation leaves behind, failed or not. *)
Definition still_held (id : string) (h : bool) (o : outcome failure jsv) (c : Controller) : Prop :=
  h = true ∧ controller_inv c ∧ lock_of id c.

Lemma still_held_rely id o c c' : lock_of id c → crely true c c' → still_held id true o c'.
Proof. intros Hb Hc. split; [done|]. split; [by eapply crely_inv|by eapply rely_lock]. Qed.

Lemma ok_publish {B} phase (m : prog B) id c Q :
  controller_inv c → busy c = Some id → cok m true (publish_in phase None c) Q → cok (publish phase ;; m) true c Q.
Proof. intros Hi Hb Hm. apply ok_modify with true; [|done]. apply guar_same; [done|intros _; by eapply is_busy_Some|done]. Qed.

Lemma inv_publish phase reason c : controller_inv c → controller_inv (publish_in phase reason c).
Proof. by intros []. Qed.

(** The end of an operation whose draft is committed. *)
Lemma ok_committed role request id op s c :
  controller_inv c → running id op c → cok (committed role request id s) true c (still_held id).
Proof.
  intros Hi Hr. pose proof Hr as [Hb _]. unfold committed. apply ok_of_outcome; [done|]. intros outputs _.
  assert (cguar true true c (update_delivery id (λ d, set_completed (Some outputs) (if retires role then set_retired true d else d)) c)) as Hg.
  { apply guar_delivery; [done|apply Hb|by intros d; destruct (retires role)|]. intros d Hd.
    pose proof (running_delivery _ _ _ _ Hi Hr Hd) as Hc.
    destruct (retires role); split; simpl; try done; rewrite Hc; done. }
  apply ok_modify with true; [done|]. apply ok_afterCommit; [by apply Hg|].
  intros c' Hc'. exact (still_held_rely id (Returns outputs) (update_delivery id _ c) c' Hb Hc').
Qed.

(** A write under a condition [guar_update] or [guar_same] establishes. *)
Lemma ok_write {B} g (m : prog B) h c Q :
  cguar h h c (g c) → (controller_inv (g c) → cok m h (g c) Q) → cok (modify g ;; m) h c Q.
Proof. intros Hg Hm. apply ok_modify with h; [done|]. apply Hm, Hg. Qed.

Lemma armed_lock id op c : armed id op c → lock_of id c.
Proof. by intros [[? _] _]. Qed.

Lemma armed_busy id op c : armed id op c → busy c = Some id.
Proof. intros Ha. apply (armed_lock _ _ _ Ha). Qed.

Lemma armed_held id op o c : controller_inv c → armed id op c → still_held id true o c.
Proof. intros Hi Ha. split; [done|]. split; [done|by eapply armed_lock]. Qed.

Lemma armed_held_rely id op o c c' : armed id op c → crely true c c' → still_held id true o c'.
Proof. intros Ha Hc. eapply still_held_rely; [by eapply armed_lock|done]. Qed.

(** [current(generation)] under the lock. *)
Lemma ok_armed_current g (m : prog jsv) id op c :
  controller_inv c → armed id op c → (invalidated c = false → cok m true c (still_held id)) →
  cok (current g ;; m) true c (still_held id).
Proof. intros Hi Ha Hm. apply ok_current; [by eapply armed_held|auto]. Qed.

(** Checking what a port answered, between two checks of the context. *)
Lemma ok_checked g s expected (m : prog jsv) id op c :
  controller_inv c → armed id op c →
  (∀ c', controller_inv c' → armed id op c' → invalidated c' = false → draft_evidenced s → cok m true c' (still_held id)) →
  cok (current g ;; checkEvidence config s expected ;; current g ;; m) true c (still_held id).
Proof.
  intros Hi Ha Hm. eapply ok_armed_current; [done|done|]. intros _.
  apply ok_checkEvidence; [done|intros; by eapply armed_held_rely|].
  intros c' Hc' Hs _. assert (armed id op c') as Ha' by (by eapply rely_armed).
  pose proof (crely_inv _ _ _ Hc'). eapply ok_armed_current; [done|done|]. intros ?. by apply Hm.
Qed.

Lemma ok_armed_effect {X} (q : call X) (f : X → prog jsv) e id op c :
  effect_of q = Some e → (∀ op', effect_key e = Some op' → op' = op) → signing_allowed q c → yields q = true →
  controller_inv c → armed id op c → invalidated c = false →
  (∀ c' x, controller_inv c' → armed id op c' → cok (f x) true c' (still_held id)) →
  cok (x ← invoke q; f x) true c (still_held id).
Proof.
  intros He Hk Hs Hy Hi Ha Hn Hf. apply (ok_effect _ _ e); [done|by eapply armed_allowed|done|done| |].
  - intros. by eapply armed_held_rely.
  - intros c' x Hc. apply Hf; [by eapply crely_inv|by eapply rely_armed].
Qed.

Lemma ok_armed_publish phase (m : prog jsv) id c :
  controller_inv c → busy c = Some id →
  (controller_inv (publish_in phase None c) → cok m true (publish_in phase None c) (still_held id)) →
  cok (publish phase ;; m) true c (still_held id).
Proof. intros Hi Hb Hm. apply ok_publish with id; [done|done|]. by apply Hm, inv_publish. Qed.

Lemma armed_is_busy id op c : controller_inv c → armed id op c → true = true → is_busy c = true.
Proof. intros Hi Ha _. eapply is_busy_Some; [done|by eapply armed_busy]. Qed.

Lemma ok_perform_save role admission request response id op generation guarded c :
  controller_inv c → armed id op c → invalidated c = false →
  cok (perform_save config role admission request response id op generation guarded) true c (still_held id).
Proof.
  intros Hi Ha Hn. unfold perform_save.
  apply (ok_armed_effect _ _ (SaveEffect op) id op); try done; [by intros ? [= <-]|]. intros c1 s Hi1 Ha1.
  apply (ok_checked _ _ _ _ _ op); [done|done|]. intros c2 Hi2 Ha2 Hn2 Hs. apply ok_write.
  { apply guar_update; try done; [by eapply armed_is_busy|right; by exists s|intros ? _ [= <-]; by right|by left]. }
  intros Hi3. apply ok_armed_publish; [done|apply Ha2|]. intros Hi4. apply (ok_committed _ _ _ op); [done|apply Ha2].
Qed.

Lemma ok_perform_prepare admission request response id op generation source locale c :
  controller_inv c → armed id op c → invalidated c = false →
  cok (perform_prepare config admission request response id generation source locale) true c (still_held id).
Proof.
  intros Hi Ha Hn. unfold perform_prepare.
  apply (ok_armed_effect _ _ PrepareEffect id op); try done. intros c1 p Hi1 Ha1.
  apply (ok_checked _ _ _ _ _ op); [done|done|]. intros c2 Hi2 Ha2 Hn2 Hs.
  apply ok_refused_when; [intros _; by eapply armed_held|]. intros _. apply ok_write.
  { apply guar_update; try done; [by eapply armed_is_busy|right; by exists p|intros ? _ [= <-]; by right| |by left].
    intros ? [= <-]. by right. }
  intros Hi3. apply ok_armed_publish; [done|apply Ha2|]. intros Hi4. apply (ok_committed _ _ _ op); [done|apply Ha2].
Qed.

Lemma armed_update id op f c :
  (∀ d, operationId (f d) = operationId d ∧ completed (f d) = completed d) →
  armed id op c → armed id op (update_delivery id f c).
Proof.
  intros Hf [[Hb Hd] Hc]. split; [split; [done|]|done]. destruct Hd as [?|(d & Hd & Ho & Hcm)]; [by left|right].
  exists (f d). destruct (Hf d) as [Ho' Hc']. unfold update_delivery. simpl. rewrite lookup_alter_eq, Hd.
  split; [done|]. split; congruence.
Qed.

Lemma ok_sign_prepared admission request input id op generation c :
  controller_inv c → armed id op c → invalidated c = false →
  cok (sign_prepared config admission request input id op generation) true c (still_held id).
Proof.
  intros Hi Ha Hn. apply ok_get. apply (ok_armed_effect _ _ (SignEffect op) id op); try done; [by intros ? [= <-]|].
  intros c1 s Hi1 Ha1. apply (ok_checked _ _ _ _ _ op); [done|done|]. intros c2 Hi2 Ha2 Hn2 Hs. apply ok_get.
  destruct (prepared c2) as [p|] eqn:Ep; [|by eapply armed_held].
  apply ok_refused_when; [intros _; by eapply armed_held|]. intros _. apply ok_write.
  { apply guar_update; try done; [by eapply armed_is_busy|by left|intros ? _ [= <-]; by right|by left|].
    intros ? [= <-]. by right. }
  intros Hi3. apply ok_armed_publish; [done|apply Ha2|]. intros Hi4. apply (ok_committed _ _ _ op); [done|apply Ha2].
Qed.

Lemma ok_perform_sign admission request input id op generation source locale recovering retry c :
  controller_inv c → armed id op c → invalidated c = false →
  cok (perform_sign config admission request input id op generation source locale recovering retry) true c (still_held id).
Proof.
  intros Hi Ha Hn. unfold perform_sign. apply ok_get.
  assert (∀ m, cok m true c (still_held id) → cok ((if recovering then mret () else
     match prepared c with None => type_error | Some p => review p false source locale end) ;; m) true c (still_held id)) as Hrev.
  { intros m Hm. destruct recovering; [done|]. destruct (prepared c) as [p|]; [|by eapply armed_held].
    apply ok_review; [intros; by eapply armed_held|done]. }
  apply Hrev. destruct (reconcileSignRetries config && isSome retry); [|by apply ok_sign_prepared].
  apply ok_write; [apply guar_delivery; [done|by eapply armed_busy|done|done]|]. intros Hi'.
  apply ok_sign_prepared; [done| |done]. by apply armed_update.
Qed.

Lemma ok_invoke_last {X} (q : call X) h c (Q : bool → outcome failure X → Controller → Prop) :
  plain q = true → controller_inv c → (∀ c' a, crely h c c' → answers q a c' → Q h a c') → cok (invoke q) h c Q.
Proof.
  intros He Hi HQ. simpl. split; [by apply plain_allowed|]. intros c' a Hc Ha. apply HQ; [|done].
  destruct (yields q); [done|subst; by apply crely_refl].
Qed.

(** A call that is no effect, under the lock. *)
Lemma ok_armed_invoke {X} (q : call X) (f : X → prog jsv) id op c :
  plain q = true → controller_inv c → armed id op c →
  (∀ c' x, controller_inv c' → armed id op c' → cok (f x) true c' (still_held id)) →
  cok (x ← invoke q; f x) true c (still_held id).
Proof.
  intros He Hi Ha Hf. apply ok_invoke; [done|done|intros; by eapply armed_held_rely|].
  intros c' x Hc _. apply Hf; [by eapply crely_inv|by eapply rely_armed].
Qed.

Lemma bind_assoc {A B D} (m : prog A) (f : A → prog B) (g : B → prog D) h c Q :
  cok (x ← m; y ← f x; g y) h c Q → cok (y ← (x ← m; f x); g y) h c Q.
Proof.
  revert h c. unfold mbind, async_mbind. induction m as [[a|e]|k IH|c1 k IH|X q k IH]; simpl; intros h c.
  - done.
  - done.
  - apply IH.
  - intros (h' & Hg & Hk). exists h'. split; [done|by apply IH].
  - intros [Hi Hk]. split; [done|]. intros c' a Hc Ha. by apply IH, Hk.
Qed.

Lemma ok_capture request input id op generation (m : prog jsv) c :
  controller_inv c → armed id op c →
  (∀ c', controller_inv c' → armed id op c' → cok m true c' (still_held id)) →
  cok (capture_completion config request input id generation ;; m) true c (still_held id).
Proof.
  intros Hi Ha Hm. unfold capture_completion. apply bind_assoc, ok_get.
  destruct (signed c) as [s|]; [|by eapply armed_held]. apply bind_assoc.
  assert (∀ c1 options, controller_inv c1 → armed id op c1 →
    cok ((current generation ;;
      refused_when (bool_decide (completion config = Some TaskCompletion) && truthy (prop options "nativeCurrentCheck"))
        BranchMismatch ;;
      c ← get;
      match signed c with
      | None => type_error
      | Some s =>
          preparation ← invoke (CaptureCompletion s (opt_json request) input options);
          modify (update_delivery id (set_completionPreparation (Some preparation)))
      end) ;; m) true c1 (still_held id)) as Hrest.
  { intros c1 options Hi1 Ha1. apply bind_assoc. eapply ok_armed_current; [done|done|]. intros _.
    apply bind_assoc, ok_refused_when; [intros _; by eapply armed_held|]. intros _. apply bind_assoc, ok_get.
    destruct (signed c1) as [s1|]; [|by eapply armed_held]. apply bind_assoc. eapply ok_armed_invoke; [done|done|done|].
    intros c2 p Hi2 Ha2. apply ok_write; [apply guar_delivery; [done|by eapply armed_busy|done|done]|]. intros Hi3.
    apply Hm; [done|]. by apply armed_update. }
  destruct (capturesSubmitOptions config).
  - eapply ok_armed_invoke; [done|done|done|]. auto.
  - apply bind_assoc. eapply ok_armed_invoke; [done|done|done|]. intros c1 [] Hi1 Ha1. by apply Hrest.
Qed.

Lemma guar_complete id r c :
  controller_inv c → invalidated c = false → completionResult c = None → is_busy c = true →
  cguar true true c (set_confirmedDelivery (Some id) (set_completionResult (Some r) c)).
Proof.
  intros Hi Hn Hc Hb. split; [|split].
  - destruct Hi. split; simpl; try done. by rewrite Hn.
  - split; simpl; [done|by rewrite Hc| |done|done|done]. intros id' d Hd. right. by exists d.
  - exact Hb.
Qed.

Lemma ok_perform_submit request input id op generation source locale c :
  controller_inv c → armed id op c →
  cok (perform_submit config request input id op generation source locale) true c (still_held id).
Proof.
  intros Hi Ha. unfold perform_submit. apply ok_get.
  assert (∀ m, (∀ c', controller_inv c' → armed id op c' → cok m true c' (still_held id)) →
    cok ((if isSome (deliveries c !! id ≫= completionPreparation) then mret ()
          else capture_completion config request input id generation) ;; m) true c (still_held id)) as Hcap.
  { intros m Hm. destruct (isSome _); [by apply Hm|]. by eapply ok_capture. }
  apply Hcap. intros c1 Hi1 Ha1. eapply ok_armed_current; [done|done|]. intros Hn1. apply ok_get.
  destruct (signed c1) as [s|] eqn:Es; [|by eapply armed_held].
  apply ok_review; [intros; by eapply armed_held|].
  destruct (deliveries c1 !! id ≫= completionPreparation) as [p|]; [|by eapply armed_held].
  apply (ok_armed_effect _ _ (CompleteEffect op) id op); try done; [by intros ? [= <-]|by exists s|].
  intros c2 r Hi2 Ha2. eapply ok_armed_current; [done|done|]. intros Hn2.
  apply ok_refused_when; [intros _; by eapply armed_held|]. intros _.
  assert (completionResult c2 = None) as Hnone by (destruct Ha2 as [_ [?|?]]; congruence).
  apply ok_write; [apply guar_complete; [done..|by eapply armed_is_busy]|]. intros Hi3.
  apply ok_armed_publish; [done|apply Ha2|]. intros Hi4. apply ok_of_outcome.
  { intros e _. split; [done|]. split; [done|apply Ha2]. }
  intros outputs _. apply ok_write.
  { apply guar_delivery; [done|apply Ha2|done|]. intros d Hd.
    pose proof (running_delivery id op c2 d Hi2 (proj1 Ha2) Hd) as Hcm. split; simpl; try done. by rewrite Hcm. }
  intros Hi5. split; [done|]. split; [done|apply Ha2].
Qed.

(** The start of an application, with the checkpoint it may need first. *)
Lemma saved_kept id op c1 c2 s : armed id op c1 → saved c1 = Some s → draft_evidenced s → crely true c1 c2 →
  ∀ s', saved c2 = Some s' → draft_evidenced s'.
Proof.
  intros Ha Hs He (_ & _ & Hh) s' Hs'. destruct (ch_saved _ _ (Hh eq_refl) s' Hs') as [?|?]; [congruence|done].
Qed.

Lemma guar_saved_unowned s c :
  controller_inv c → owned c = false → is_busy c = true → cguar true true c (set_saved s c).
Proof.
  intros Hi Ho Hb. split; [|split; [by apply mono_same|exact Hb]].
  destruct Hi. split; simpl; try done. by rewrite Ho.
Qed.

Lemma ok_start_checkpoint response id op generation (m : prog jsv) c :
  controller_inv c → armed id op c → invalidated c = false → owned c = false →
  (∀ c', controller_inv c' → armed id op c' → cok m true c' (still_held id)) →
  cok (start_checkpoint config response op generation ;; m) true c (still_held id).
Proof.
  intros Hi Ha Hn Ho Hm. unfold start_checkpoint.
  destruct (roles config SaveInitial) as [checkpoint|]; [|by eapply armed_held].
  apply bind_assoc, ok_refused_when; [intros _; by eapply armed_held|]. intros _.
  apply bind_assoc, ok_of_outcome; [intros; by eapply armed_held|]. intros _ _. apply bind_assoc.
  assert (¬ is_Some (restored config)) as Hnr by (intros Hr; pose proof (ci_restored _ Hi Hr Hn); congruence).
  apply (ok_effect _ _ (SaveEffect op)); [done|by eapply armed_allowed; [done|done|intros ? [= <-]]|done|done| |].
  { intros. by eapply armed_held_rely. }
  intros c1 s Hc1. pose proof (crely_inv _ _ _ Hc1) as Hi1. assert (armed id op c1) as Ha1 by (by eapply rely_armed).
  assert (owned c1 = false) as Ho1.
  { destruct Hc1 as (_ & _ & Hh). destruct (owned c1) eqn:E; [|done]. destruct (ch_owned _ _ (Hh eq_refl) E); [congruence|done]. }
  apply bind_assoc, ok_write.
  { apply guar_saved_unowned; [done|done|by eapply armed_is_busy]. }
  assert (armed id op (set_saved (Some s) c1)) as Ha2 by exact Ha1. intros Hi2.
  apply bind_assoc. eapply ok_armed_current; [done|exact Ha2|]. intros _.
  apply bind_assoc. apply ok_checkEvidence; [done|intros; eapply armed_held_rely; [exact Ha2|done]|].
  intros c3 Hc3 Hs _. pose proof (crely_inv _ _ _ Hc3) as Hi3. pose proof (rely_armed _ _ _ _ Hc3 Ha2) as Ha3.
  apply bind_assoc. eapply ok_armed_current; [done|done|]. intros Hn3. apply bind_assoc, ok_get.
  destruct (saved c3) as [s'|] eqn:Es; [|by eapply armed_held].
  pose proof (saved_kept id op (set_saved (Some s) c1) c3 s Ha1 eq_refl Hs Hc3 s' Es) as Hs'.
  apply bind_assoc, ok_write.
  { apply guar_update; try done; [by eapply armed_is_busy|right; by exists s'| |by left|by left].
    intros s'' _ E. right. simpl in E. congruence. }
  intros Hi4. apply bind_assoc, ok_armed_publish; [done|apply Ha3|]. intros Hi5.
  apply ok_afterCommit; [done|]. intros c5 Hc5. apply Hm; [by eapply crely_inv|].
  eapply rely_armed; [exact Hc5|exact Ha3].
Qed.

Lemma ok_perform_start request response id op generation c :
  controller_inv c → armed id op c → invalidated c = false →
  cok (perform_start config request response op generation) true c (still_held id).
Proof.
  intros Hi Ha Hn. unfold perform_start. apply ok_get.
  assert (∀ m, (∀ c', controller_inv c' → armed id op c' → cok m true c' (still_held id)) →
    cok ((if owned c then mret () else start_checkpoint config response op generation) ;; m) true c (still_held id)) as Hst.
  { intros m Hm. destruct (owned c) eqn:Ho; [by apply Hm|]. by eapply ok_start_checkpoint. }
  apply Hst. intros c1 Hi1 Ha1. eapply ok_armed_current; [done|done|]. intros Hn1.
  apply (ok_armed_effect _ _ (StartEffect op) id op); try done; [by intros ? [= <-]|].
  intros c2 receipt Hi2 Ha2. eapply ok_armed_current; [done|done|]. intros Hn2. apply ok_get.
  apply ok_refused_when; [intros _; by eapply armed_held|]. intros _.
  apply ok_refused_when; [intros _; by eapply armed_held|]. intros _.
  apply ok_write; [apply guar_same; [done|by eapply armed_is_busy|split_and!; [done..|congruence]]|]. intros Hi3.
  apply ok_armed_publish; [done|apply Ha2|]. intros Hi4.
  exact (conj eq_refl (conj Hi4 (armed_lock _ _ _ Ha2))).
Qed.

Lemma ok_run_effect role admission request response input id op generation subject wording recovering retry guarded c :
  controller_inv c → armed id op c →
  cok (run_effect config role admission request response input id op generation subject wording recovering retry guarded)
    true c (still_held id).
Proof.
  intros Hi Ha. unfold run_effect. apply ok_plan; [intros; by eapply armed_held|].
  eapply ok_armed_current; [done|done|]. intros Hn. destruct (default (JUndef, "") wording) as [source locale].
  destruct role; [by apply ok_perform_start|by apply ok_perform_save|by apply ok_perform_save|
    by apply (ok_perform_prepare _ _ _ _ op)|by apply ok_perform_sign|by apply ok_perform_submit|].
  apply ok_armed_publish; [done|apply Ha|]. intros Hi2. split; [done|]. split; [done|apply Ha].
Qed.
End under_the_lock.

(** ** Taking and releasing the lock *)

Lemma not_busy c : controller_inv c → is_busy c = false → busy c = None.
Proof.
  intros Hi Hb. destruct (busy c) as [id|] eqn:E; [|done]. by rewrite (is_busy_Some _ _ Hi E) in Hb.
Qed.

Lemma acquire_deliveries role id c :
  deliveries (acquire role id c) =
    alter (set_pending (Some (nextPromise c))) id
      (if retires role then set_signRetry None <$> deliveries c else deliveries c).
Proof. unfold acquire. by destruct (retires role). Qed.

Lemma acquire_delivery role id c id' d :
  deliveries c !! id' = Some d →
  ∃ d', deliveries (acquire role id c) !! id' = Some d' ∧ delivery_grows d d' ∧ completed d' = completed d.
Proof.
  intros Hd. rewrite acquire_deliveries.
  assert (∃ d1, (if retires role then set_signRetry None <$> deliveries c else deliveries c) !! id' = Some d1 ∧
    delivery_grows d d1 ∧ completed d1 = completed d) as (d1 & Hd1 & Hg & Hc).
  { destruct (retires role); [|by exists d]. rewrite lookup_fmap, Hd. by eexists. }
  destruct (decide (id' = id)) as [->|Hne].
  - exists (set_pending (Some (nextPromise c)) d1). rewrite lookup_alter_eq, Hd1. split; [done|].
    split; [|done]. transitivity d1; [done|by split].
  - exists d1. by rewrite lookup_alter_ne.
Qed.

Lemma acquire_core role id c :
  completionResult (acquire role id c) = completionResult c ∧ invalidated (acquire role id c) = invalidated c ∧
  owned (acquire role id c) = owned c ∧ actor (acquire role id c) = actor c ∧ saved (acquire role id c) = saved c ∧
  prepared (acquire role id c) = prepared c ∧ signed (acquire role id c) = signed c ∧
  busy (acquire role id c) = Some id ∧ settled (acquire role id c) = settled c ∧
  nextPromise (acquire role id c) = (nextPromise c + 1)%N.
Proof. unfold acquire. by destruct (retires role). Qed.

Lemma no_pending_free c id d : controller_inv c → busy c = None → deliveries c !! id = Some d → pending d = None.
Proof.
  intros Hi Hb Hd. destruct (pending d) as [p|] eqn:E; [|done]. destruct (ci_pending _ Hi id d p Hd E). congruence.
Qed.

Lemma acquire_pending role id c id' d p :
  controller_inv c → busy c = None → deliveries (acquire role id c) !! id' = Some d → pending d = Some p →
  id' = id ∧ p = nextPromise c.
Proof.
  intros Hi Hb. rewrite acquire_deliveries. intros Hd Hp.
  assert (∀ d1, (if retires role then set_signRetry None <$> deliveries c else deliveries c) !! id' = Some d1 →
    pending d1 = None) as Hnone.
  { intros d1 Hd1. destruct (retires role); [|by eapply no_pending_free]. rewrite lookup_fmap in Hd1.
    destruct (deliveries c !! id') as [d0|] eqn:E; [|done]. injection Hd1 as <-. by apply (no_pending_free c id' d0). }
  destruct (decide (id' = id)) as [->|Hne].
  - split; [done|]. rewrite lookup_alter_eq in Hd. destruct (_ !! id) as [d1|]; [|done]. injection Hd as <-. simpl in Hp. congruence.
  - rewrite lookup_alter_ne in Hd by done. rewrite (Hnone d Hd) in Hp. done.
Qed.

Lemma settled_free c p : controller_inv c → is_busy c = false → (p < nextPromise c)%N → is_Some (settled c !! p).
Proof. intros Hi Hb Hp. destruct (ci_promises _ Hi p Hp) as [?|[? _]]; [done|congruence]. Qed.

Lemma guar_acquire role id c :
  controller_inv c → invalidated c = false → is_busy c = false → id ≠ "" → cguar false true c (acquire role id c).
Proof.
  intros Hi Hn Hb Hid. pose proof (not_busy c Hi Hb) as Hbn.
  destruct (acquire_core role id c) as (Ec & Ei & Eo & Ea & Es & Ep & Esg & Eb & Ese & En).
  assert (is_busy (acquire role id c) = true) as Hbt by (unfold is_busy; rewrite Eb; by apply nonempty_spec).
  split; [split|split].
  - rewrite Ea. apply (ci_actor _ Hi).
  - rewrite Eo, Es. apply (ci_saved _ Hi).
  - rewrite Ep. apply (ci_prepared _ Hi).
  - rewrite Esg. apply (ci_signed _ Hi).
  - by rewrite Ei, Hn.
  - rewrite Eb, En. intros id' d p Hd Hp. destruct (acquire_pending role id c id' d p Hi Hbn Hd Hp) as [-> ->].
    split; [done|lia].
  - rewrite Ese, En. intros p Hp. destruct (decide (p = nextPromise c)) as [->|]; [by right|left].
    apply settled_free; [done|done|lia].
  - rewrite Eb. by intros ? [= <-].
  - rewrite Ei, Eo. apply (ci_restored _ Hi).
  - split; [by rewrite Ei|by rewrite Ec; left| |by rewrite Ese|rewrite En; lia|by rewrite Hn]. intros id' d Hd. right.
    destruct (acquire_delivery role id c id' d Hd) as (d' & ? & ? & _). by exists d'.
  - done.
Qed.

Lemma guar_settle p o c :
  controller_inv c → is_busy c = true → cguar true true c (settle_promise p o c).
Proof.
  assert (∀ q, is_Some (settled c !! q) → is_Some (settled (settle_promise p o c) !! q)) as Hs.
  { intros q. unfold settle_promise. simpl. destruct (decide (p = q)) as [->|]; [by rewrite lookup_insert_eq|by rewrite lookup_insert_ne]. }
  intros Hi Hb. split; [|split; [|done]].
  - destruct Hi as [I1 I2 I3 I4 I5 I6 I7 I8 I9]. split; try done. intros q Hq.
    destruct (I7 q Hq) as [?|?]; [left; by apply Hs|by right].
  - split; try done; [by left|]. intros id d Hd. right. by exists d.
Qed.

Lemma guar_release p id c :
  controller_inv c → busy c = Some id → nextPromise c = (p + 1)%N → is_Some (settled c !! p) →
  cguar true false c (release id c).
Proof.
  intros Hi Hb Hnext Hset. unfold release. assert (busy (update_delivery id (set_pending None) c) = Some id) as Hb' by done.
  rewrite Hb', bool_decide_true by done. split; [split|split]; simpl.
  - apply (ci_actor _ Hi).
  - apply (ci_saved _ Hi).
  - apply (ci_prepared _ Hi).
  - apply (ci_signed _ Hi).
  - intros Hinv. destruct (ci_invalidated _ Hi Hinv) as (? & ? & ? & ? & ->). by rewrite alter_none.
  - intros id' d q Hd Hp. exfalso. destruct (decide (id' = id)) as [->|Hne].
    + rewrite lookup_alter_eq in Hd. destruct (deliveries c !! id); [|done]. by injection Hd as <-.
    + rewrite lookup_alter_ne in Hd by done. destruct (ci_pending _ Hi _ _ _ Hd Hp). congruence.
  - intros q Hq. left. destruct (ci_promises _ Hi q Hq) as [?|[_ Hq']]; [done|]. by assert (q = p) as -> by lia.
  - done.
  - apply (ci_restored _ Hi).
  - split; simpl; [done|by left| |done|done|done]. intros id' d Hd. right. destruct (decide (id' = id)) as [->|Hne].
    + exists (set_pending None d). rewrite lookup_alter_eq, Hd. done.
    + exists d. by rewrite lookup_alter_ne.
  - done.
Qed.

Definition freed {A} (h : bool) (o : outcome failure A) (c : Controller) : Prop := h = false ∧ controller_inv c.

Lemma ok_run_operation role id d body c :
  controller_inv c → invalidated c = false → completionResult c = None → is_busy c = false → id ≠ "" →
  deliveries c !! id = Some d → completed d = None →
  (∀ p c', controller_inv c' → armed p id (operationId d) c' → cok body true c' (still_held p id)) →
  cok (run_operation role id body) false c freed.
Proof.
  intros Hi Hn Hc Hb Hid Hd Hcm Hbody. unfold run_operation. apply ok_get. set (p := nextPromise c).
  pose proof (guar_acquire role id c Hi Hn Hb Hid) as Hg. apply ok_modify with true; [done|].
  assert (armed p id (operationId d) (acquire role id c)) as Ha.
  { destruct (acquire_core role id c) as (Ec & Ei & _ & _ & _ & _ & _ & Eb & _ & En).
    destruct (acquire_delivery role id c id d Hd) as (d' & Hd' & G & Hc').
    split; [split; [done|right; exists d'; split; [done|split; [apply G|congruence]]]|right; by rewrite Ec]. }
  apply ok_settle. eapply ok_weaken; [|apply (Hbody p); [apply Hg|done]].
  intros h o c1 (-> & Hi1 & Hb1). apply ok_write; [apply guar_settle; [done|by eapply is_busy_Some; [|apply Hb1]]|].
  intros Hi2. simpl. split; [done|]. intros c3 a Hc3 ->. simpl. pose proof (crely_inv _ _ _ Hc3) as Hi3.
  assert (lock_of p id c3) as [Hb3 Hn3] by (by eapply rely_lock).
  assert (is_Some (settled c3 !! p)) as Hs3.
  { destruct Hc3 as (_ & Hm & _). apply (cm_settled _ _ Hm). unfold settle_promise. simpl. by rewrite lookup_insert_eq. }
  pose proof (guar_release p id c3 Hi3 Hb3 Hn3 Hs3) as Hg3.
  exists false. split; [done|]. split; [done|]. apply Hg3.
Qed.

(** ** The whole operation *)

Lemma gate_Resume role id i c d :
  gate role id i c = Resume d →
  deliveries c !! id = Some d ∧ completed d = None ∧ completionResult c = None ∧ is_busy c = false.
Proof.
  unfold gate. destruct (deliveries c !! id) as [d'|].
  - destruct (negb _); [done|]. destruct (pending d'); [done|]. destruct (retired d'); [done|].
    destruct (completed d') eqn:Ec; [done|]. destruct (completionResult c); [done|]. simpl.
    destruct (is_busy c); [done|]. intros [= <-]. done.
  - destruct (isSome _); [done|]. destruct (is_busy c); [done|]. by destruct (wrong_branch role c).
Qed.

Lemma gate_Join role id i c p :
  gate role id i c = Join p → ∃ d, deliveries c !! id = Some d ∧ pending d = Some p.
Proof.
  unfold gate. destruct (deliveries c !! id) as [d|].
  - destruct (negb _); [done|]. destruct (pending d) eqn:E; [intros [= ->]; by exists d|]. destruct (retired d); [done|].
    destruct (completed d); [done|]. destruct (isSome _); [done|]. by destruct (is_busy c).
  - destruct (isSome _); [done|]. destruct (is_busy c); [done|]. by destruct (wrong_branch role c).
Qed.

Lemma gate_Start role id i c :
  gate role id i c = Start →
  deliveries c !! id = None ∧ completionResult c = None ∧ is_busy c = false ∧ wrong_branch role c = false.
Proof.
  unfold gate. destruct (deliveries c !! id) as [d'|].
  - destruct (negb _); [done|]. destruct (pending d'); [done|]. destruct (retired d'); [done|].
    destruct (completed d'); [done|]. destruct (isSome _); [done|]. by destruct (is_busy c).
  - destruct (completionResult c); [done|]. simpl. destruct (is_busy c); [done|].
    destruct (wrong_branch role c) eqn:E; [done|]. done.
Qed.

Lemma guar_insert id d c :
  controller_inv c → invalidated c = false → is_busy c = false → deliveries c !! id = None → pending d = None →
  cguar false false c (set_deliveries (<[id := d]> (deliveries c)) c).
Proof.
  intros Hi Hn Hb Hnone Hp. split; [|split].
  - destruct Hi as [I1 I2 I3 I4 I5 I6 I7 I8 I9]. split; simpl; try done; [by rewrite Hn|].
    intros id' d' p [[<- <-]|[_ Hd]]%lookup_insert_Some Hpd; [congruence|by eapply I6].
  - split; simpl; [done|by left| |done|done|done]. intros id' d' Hd. right. exists d'. rewrite lookup_insert_ne by congruence. done.
  - simpl. rewrite Hb. done.
Qed.

Lemma freed_rely {A} (o : outcome failure A) c c' : crely false c c' → freed false o c'.
Proof. intros Hc. split; [done|by eapply crely_inv]. Qed.

Lemma ok_free_current {B} g (m : prog B) c :
  controller_inv c → (invalidated c = false → cok m false c freed) → cok (current g ;; m) false c freed.
Proof. intros Hi Hm. apply ok_current; [done|auto]. Qed.

Lemma ok_free_invoke {X B} (q : call X) (f : X → prog B) c :
  plain q = true → controller_inv c → (∀ c' x, controller_inv c' → cok (f x) false c' freed) →
  cok (x ← invoke q; f x) false c freed.
Proof.
  intros He Hi Hf. apply ok_invoke; [done|done|intros; by eapply freed_rely|]. intros c' x Hc _.
  apply Hf. by eapply crely_inv.
Qed.

Lemma ok_free_refused {B} b r (m : prog B) c :
  controller_inv c → cok m false c freed → cok (refused_when b r ;; m) false c freed.
Proof. intros Hi Hm. by apply ok_refused_when. Qed.

(** From the gate on. *)
Lemma ok_gated role id i baseline body c :
  controller_inv c → invalidated c = false → id ≠ "" →
  (∀ op p c', controller_inv c' → armed p id op c' → cok (body op) true c' (still_held p id)) →
  cok (match gate role id i c with
       | Join p => invoke (JoinPending p)
       | Replay outputs => mret outputs
       | Stop reason => refused reason
       | Resume d => run_operation role id (body (operationId d))
       | Start =>
           operation ← operation_id;
           modify (λ c, set_deliveries (<[id := new_delivery i operation baseline]> (deliveries c)) c) ;;
           run_operation role id (body operation)
       end) false c freed.
Proof.
  intros Hi Hn Hid Hbody. destruct (gate role id i c) as [p|outputs|reason|d|] eqn:E; try done.
  - apply gate_Join in E as (d & Hd & Hp). destruct (ci_pending _ Hi id d p Hd Hp) as [_ Hlt].
    split; [done|]. intros c' a Hc _. exact (freed_rely a _ _ Hc).
  - apply gate_Resume in E as (Hd & Hcm & Hc & Hb). apply (ok_run_operation role id d); auto.
  - apply gate_Start in E as (Hd & Hc & Hb & _).
    assert (∀ op, cok (modify (λ c, set_deliveries (<[id := new_delivery i op baseline]> (deliveries c)) c) ;;
                       run_operation role id (body op)) false c freed) as Hrun.
    { intros op. apply ok_write; [by apply guar_insert|]. intros Hi1.
      apply (ok_run_operation role id (new_delivery i op baseline)); try done; [apply lookup_insert_eq|]. simpl. auto. }
    unfold operation_id. apply bind_assoc, ok_get. destruct (pendingOperationId c) as [op|]; [by apply Hrun|].
    simpl. split; [done|]. intros c' a -> _. destruct a as [op|e]; [by apply Hrun|done].
Qed.

Lemma ok_perform role admission response input id source generation retry guarded c :
  controller_inv c → id ≠ "" →
  cok (perform config role admission response input id source generation retry guarded) false c freed.
Proof.
  intros Hi Hid. unfold perform. apply ok_get, ok_free_refused; [done|].
  apply ok_of_outcome; [done|]. intros request _. apply ok_validateResponse; [done|intros; by eapply freed_rely|].
  intros c1 Hc1 _ _ _. pose proof (crely_inv _ _ _ Hc1) as Hi1. apply ok_free_current; [done|]. intros _.
  apply ok_get. do 3 (apply ok_free_refused; [done|]).
  assert (∀ f : option (jsv * string) → prog jsv, (∀ w, cok (f w) false c1 freed) →
    cok (w ← (if is_checkpoint role then mret None else Some <$> invoke SigningContext); f w) false c1 freed) as Hword.
  { intros f Hf. destruct (is_checkpoint role); [apply Hf|]. simpl. split; [done|]. intros c' a -> _.
    destruct a as [w|e]; simpl; [apply Hf|done]. }
  apply Hword. intros wording.
  assert (∀ m : prog jsv, cok m false c1 freed → ∀ s wsource locale b1 b2 stage r1,
    cok ((refused_when b1 ContextMismatch ;;
          (if r1 : bool then mret () else review s stage wsource locale) ;;
          refused_when b2 ContextMismatch) ;; m) false c1 freed) as Hrev.
  { intros m Hm s wsource locale b1 b2 stage r1. apply bind_assoc, ok_free_refused; [done|]. apply bind_assoc.
    destruct r1; [by apply ok_free_refused|]. apply ok_review; [done|]. by apply ok_free_refused. }
  match goal with |- cok ((if ?b then _ else _) ;; ?m) _ _ _ =>
    assert (cok m false c1 freed) as Hm; [|destruct b; [|exact Hm]] end.
  - apply ok_free_invoke; [done|done|]. intros c2 digest Hi2. apply ok_free_current; [done|]. intros Hn2. apply ok_get.
    apply (ok_gated role id _ _ (λ op, run_effect config role admission request response input id op generation _ wording _ retry guarded));
      [done|done|done|]. intros op p c3 Hi3 Ha3. by apply ok_run_effect.
  - destruct (reviewed_of role c1) as [s|]; [|done]. destruct wording as [[wsource locale]|]; [|done]. by apply Hrev.
Qed.

(** ** Failing, and the other operations *)

Lemma ok_write_free {B} g (m : prog B) c :
  controller_inv c → same_core c (g c) → (controller_inv (g c) → cok m false (g c) freed) → cok (modify g ;; m) false c freed.
Proof. intros Hi Hs Hm. apply ok_write; [by apply guar_same|done]. Qed.

Lemma ok_dispatch role admission response input id source generation retry guarded c :
  controller_inv c → id ≠ "" →
  cok (dispatch config role admission response input id source generation retry guarded) false c freed.
Proof.
  intros Hi Hid. unfold dispatch. apply ok_settle. eapply ok_weaken; [|by apply ok_perform].
  intros h o c1 [-> Hi1]. destruct o as [outputs|e]; [done|]. unfold fail. apply bind_assoc, ok_get.
  destruct (negb _); [done|]. apply bind_assoc, ok_write_free; [done|done|]. intros Hi2.
  destruct (_ || _).
  - apply bind_assoc, ok_write_free; [done|done|]. intros Hi3. done.
  - apply bind_assoc. destruct (_ && _).
    + apply ok_write_free; [done|done|]. done.
    + done.
Qed.

Lemma guar_invalidate c : controller_inv c → cguar false false c (invalidate_in c).
Proof.
  intros Hi. split; [split|split]; simpl; try done.
  - apply (ci_actor _ Hi).
  - intros p. apply (ci_promises _ Hi).
  - apply (ci_busy _ Hi).
  - split; simpl; auto; done.
  - split; [|done]. intros _. split; simpl; auto; done.
Qed.

Lemma retire_lookup c id : deliveries (retire_retries c) !! id = set_signRetry None <$> deliveries c !! id.
Proof. unfold retire_retries. simpl. by rewrite lookup_fmap. Qed.

Lemma guar_retire c : controller_inv c → cguar false false c (retire_retries c).
Proof.
  intros Hi. split; [split|split].
  - apply (ci_actor _ Hi).
  - apply (ci_saved _ Hi).
  - apply (ci_prepared _ Hi).
  - apply (ci_signed _ Hi).
  - intros Hinv. destruct (ci_invalidated _ Hi Hinv) as (? & ? & ? & ? & E). simpl. by rewrite E, fmap_empty.
  - intros id d p. rewrite retire_lookup. intros Hd Hp. destruct (deliveries c !! id) as [d0|] eqn:E; [|done].
    injection Hd as <-. by apply (ci_pending _ Hi id d0).
  - apply (ci_promises _ Hi).
  - apply (ci_busy _ Hi).
  - apply (ci_restored _ Hi).
  - split; simpl; [done|by left| |done|done|done]. intros id d Hd. right. exists (set_signRetry None d).
    rewrite lookup_fmap, Hd. done.
  - split; [|done]. intros _. split; try done; [|by left|by left]. right. split; [done|]. intros id.
    rewrite retire_lookup. by destruct (deliveries c !! id).
Qed.

Lemma ok_invalidate c : controller_inv c → cok invalidate false c freed.
Proof. intros Hi. apply ok_write; [by apply guar_invalidate|done]. Qed.

Lemma ok_retireSignRetry c : controller_inv c → cok retireSignRetry false c freed.
Proof.
  intros Hi. apply ok_write; [by apply guar_retire|]. intros Hi1. apply ok_write_free; [done|done|done].
Qed.

(** A host operation that takes the lock. *)
Definition no_pending (c : Controller) : Prop := ∀ id d, deliveries c !! id = Some d → pending d = None.

Lemma rely_no_pending c c' : crely true c c' → no_pending c → no_pending c'.
Proof.
  intros (Hi & _ & Hh) Hn id d Hd. destruct (ch_kept _ _ (Hh eq_refl)) as [Hinv|[_ Hk]].
  - destruct (ci_invalidated _ Hi Hinv) as (_ & _ & _ & _ & E). rewrite E in Hd. done.
  - specialize (Hk id). rewrite Hd in Hk. destruct (deliveries c !! id) as [d0|] eqn:E; [|done].
    injection Hk as _ _ Hp _ _ _ _. rewrite Hp. by apply (Hn id).
Qed.

Definition hosting (id : string) (c : Controller) : Prop :=
  controller_inv c ∧ busy c = Some id ∧ no_pending c ∧ ∀ p, (p < nextPromise c)%N → is_Some (settled c !! p).

Lemma rely_hosting id c c' : crely true c c' → hosting id c → hosting id c'.
Proof.
  intros Hc (Hi & Hb & Hn & Hs). split; [by eapply crely_inv|]. split; [by rewrite (rely_busy _ _ Hc)|].
  split; [by eapply rely_no_pending|]. destruct Hc as (_ & Hm & Hh). intros p Hp. apply (cm_settled _ _ Hm), Hs.
  by rewrite (ch_next _ _ (Hh eq_refl)) in Hp.
Qed.

Definition host_held (id : string) {A} (h : bool) (o : outcome failure A) (c : Controller) : Prop :=
  h = true ∧ hosting id c.

Lemma host_held_rely id {A} (o : outcome failure A) c c' : hosting id c → crely true c c' → host_held id true o c'.
Proof. intros Hc Hr. split; [done|by eapply rely_hosting]. Qed.

Lemma hosting_is_busy id c : hosting id c → true = true → is_busy c = true.
Proof. intros (Hi & Hb & _) _. by eapply is_busy_Some. Qed.

Lemma ok_host_current id g (m : prog jsv) c :
  hosting id c → (invalidated c = false → cok m true c (host_held id)) → cok (current g ;; m) true c (host_held id).
Proof. intros Hc Hm. by apply ok_current; [|auto]. Qed.

Lemma ok_host_write id g (m : prog jsv) c :
  hosting id c → cguar true true c (g c) → busy (g c) = busy c → deliveries (g c) = deliveries c →
  settled (g c) = settled c → nextPromise (g c) = nextPromise c →
  (hosting id (g c) → cok m true (g c) (host_held id)) → cok (modify g ;; m) true c (host_held id).
Proof.
  intros (Hi & Hb & Hn & Hs) Hg Eb Ed Es En Hm. apply ok_write; [done|]. intros Hi'. apply Hm. split; [done|].
  split; [congruence|]. split; [intros id' d; rewrite Ed; apply Hn|]. intros p. rewrite Es, En. apply Hs.
Qed.

Lemma inv_set_busy b c :
  controller_inv c → no_pending c → (∀ p, (p < nextPromise c)%N → is_Some (settled c !! p)) →
  (∀ id, b = Some id → id ≠ "") → controller_inv (set_busy b c).
Proof.
  intros [I1 I2 I3 I4 I5 I6 I7 I8 I9] Hn Hs Hb. split; simpl; try done; [|by left; apply Hs].
  intros id d p Hd Hp. by rewrite (Hn id d Hd) in Hp.
Qed.

Lemma ok_locked {A} id (body : prog A) c :
  controller_inv c → is_busy c = false → id ≠ "" →
  (∀ c', hosting id c' → cok body true c' (host_held id)) →
  cok (modify (set_busy (Some id)) ;; finally body (set_busy None)) false c freed.
Proof.
  intros Hi Hb Hid Hbody. pose proof (not_busy _ Hi Hb) as Hbn.
  assert (no_pending c) as Hnp by (intros id' d Hd; by eapply no_pending_free).
  assert (∀ p, (p < nextPromise c)%N → is_Some (settled c !! p)) as Hs by (intros p; by apply settled_free).
  assert (controller_inv (set_busy (Some id) c)) as Hi1 by (apply inv_set_busy; [done|done|done|by intros ? [= <-]]).
  apply ok_modify with true.
  { split; [done|]. split; [by apply mono_same|]. simpl. split; [done|]. by apply (is_busy_Some _ id Hi1). }
  apply ok_settle. eapply ok_weaken; [|by apply Hbody].
  intros h o c1 (-> & Hi2 & Hb2 & Hn2 & Hs2).
  assert (controller_inv (set_busy None c1)) as Hi3 by (by apply inv_set_busy).
  apply ok_modify with false; [|done]. split; [done|]. split; [by apply mono_same|done].
Qed.

Lemma ok_refreshApplication c : controller_inv c → cok (refreshApplication config) false c freed.
Proof.
  intros Hi. unfold refreshApplication. apply ok_get, ok_free_current; [done|]. intros _.
  apply ok_refused_when; [done|]. rewrite !orb_false_iff. intros [_ Hb].
  apply (ok_locked "application-refresh"); [done|done|done|]. intros c1 Hc1.
  apply ok_invoke; [done|apply Hc1|intros; by eapply host_held_rely|]. intros c2 receipt Hr _.
  pose proof (rely_hosting _ _ _ Hr Hc1) as Hc2. apply ok_host_current; [done|]. intros Hn2. apply ok_get.
  apply ok_refused_when; [done|]. intros _.
  apply ok_host_write; [done|by apply guar_same; [apply Hc2|eapply hosting_is_busy|split_and!; [done..|congruence]]|done|done|done|done|]. intros Hc3.
  apply ok_host_write; [done|by apply guar_same; [apply Hc3|intros _; by eapply (hosting_is_busy "application-refresh")|]|done|done|done|done|].
  done.
Qed.

Lemma can_restore_spec c : can_restore config c = true → is_Some (restored config) ∧ is_busy c = false.
Proof.
  unfold can_restore. rewrite !andb_true_iff, !negb_true_iff. destruct (restored config); [|intuition discriminate].
  intuition eauto.
Qed.

Lemma ok_restoreSavedDraft value c : controller_inv c → cok (restoreSavedDraft config value) false c freed.
Proof.
  intros Hi. unfold restoreSavedDraft. apply ok_get, ok_free_current; [done|]. intros _.
  apply ok_refused_when; [done|]. rewrite !orb_false_iff, negb_false_iff. intros [[[[_ Hb]%can_restore_spec _] _] _].
  apply (ok_locked "draft-restoration"); [done|done|done|]. intros c1 Hc1.
  apply ok_refused_when; [done|]. intros _.
  apply ok_checkEvidence; [apply Hc1|intros; by eapply host_held_rely|]. intros c2 Hr Hs _.
  pose proof (rely_hosting _ _ _ Hr Hc1) as Hc2. apply ok_host_current; [done|]. intros Hn2.
  apply ok_host_write; [done| |done|done|done|done|].
  { apply guar_update; try done; [apply Hc2|by eapply hosting_is_busy|right; by exists value|intros ? _ [= <-]; by right|by left|by left]. }
  intros Hc3. apply ok_host_write; [done| |done|done|done|done|].
  { apply guar_same; [apply Hc3|intros _; by eapply (hosting_is_busy "draft-restoration")|done]. }
  intros Hc4. apply ok_afterCommit; [apply Hc4|]. intros c5 Hr5. pose proof (rely_hosting _ _ _ Hr5 Hc4) as Hc5.
  apply ok_host_current; [done|]. done.
Qed.

(** A restoration without the lock commits only what was checked. *)
Lemma ok_free_checked s expected g (m : prog jsv) c :
  controller_inv c →
  (∀ c', controller_inv c' → invalidated c' = false → draft_evidenced s → cok m false c' freed) →
  cok (checkEvidence config s expected ;; current g ;; m) false c freed.
Proof.
  intros Hi Hm. apply ok_checkEvidence; [done|intros; by eapply freed_rely|]. intros c' Hc' Hs _.
  pose proof (crely_inv _ _ _ Hc') as Hi'. apply ok_free_current; [done|]. intros Hn. by apply Hm.
Qed.

Lemma ok_wording (f : jsv * string → prog jsv) c :
  (∀ w, cok (f w) false c freed) → controller_inv c → cok (w ← invoke SigningContext; f w) false c freed.
Proof. intros Hf Hi. simpl. split; [done|]. intros c' a -> _. destruct a; simpl; [apply Hf|done]. Qed.

Lemma ok_restoreSigned value c : controller_inv c → cok (restoreSigned config value) false c freed.
Proof.
  intros Hi. unfold restoreSigned. apply ok_get, ok_free_current; [done|]. intros _.
  apply ok_refused_when; [done|]. rewrite orb_false_iff, negb_false_iff. intros [[Hr _]%can_restore_spec _].
  apply ok_free_checked; [done|]. intros c1 Hi1 Hn1 Hs. apply ok_wording; [|done]. intros [source locale].
  apply ok_free_refused; [done|].
  assert (∀ m : prog jsv, cok m false c1 freed → cok ((if bool_decide (completion config = Some TaskCompletion) then
     match assertSignedTaskDraft (ev_taskDraft (saved_evidence value)) (saved_draft value) with
     | Returns _ => mret () | Throws _ => refused ContextMismatch end else mret ()) ;; m) false c1 freed) as Htask.
  { intros m Hm. destruct (bool_decide _); [|done]. by destruct (assertSignedTaskDraft _ _). }
  apply Htask. apply ok_write.
  { apply guar_update; try done; [right; by exists value|intros ? _ [= <-]; by right|by left|intros ? [= <-]; by right|].
    intros _. split; [intros ? [= <-]; by right|by right]. }
  intros Hi2. apply ok_write_free; [done|done|]. intros Hi3. apply ok_afterCommit; [done|]. intros c4 Hc4.
  by eapply freed_rely.
Qed.

Lemma ok_restorePending `{!UuidPackage} value operation renew c :
  controller_inv c → cok (restorePending config value operation renew) false c freed.
Proof.
  intros Hi. unfold restorePending. apply ok_get, ok_free_current; [done|]. intros _.
  apply ok_free_refused; [done|]. apply ok_free_checked; [done|]. intros c1 Hi1 Hn1 _.
  destruct (roles config Sign) as [admission|]; [|done]. apply ok_free_refused; [done|].
  apply ok_wording; [|done]. intros [source locale]. apply ok_free_invoke; [done|done|]. intros c2 result Hi2.
  apply ok_free_current; [done|]. intros _. apply ok_free_checked; [done|]. intros c3 Hi3 Hn3 Hs.
  apply ok_free_refused; [done|]. destruct result as [p op|s].
  - apply ok_free_refused; [done|]. apply ok_write.
    { apply guar_update; try done; [right; by exists p|intros ? _ [= <-]; by right|intros ? [= <-]; by right|by left|].
      intros _. split; [intros ? [= <-]; by right|by left]. }
    intros Hi4. apply ok_write_free; [done|done|]. done.
  - do 2 (apply ok_free_refused; [done|]). apply ok_write.
    { apply guar_update; try done; [right; by exists s|intros ? _ [= <-]; by right|by left|intros ? [= <-]; by right|].
      intros _. split; [intros ? [= <-]; by right|by left]. }
    intros Hi4. apply ok_write_free; [done|done|]. intros Hi5. apply ok_afterCommit; [done|]. intros c6 Hc6.
    by eapply freed_rely.
Qed.
End conditions.
