(* ===== verification/ResponseActionSafety.v ===== *)
(** * The response action controller, run by its owner

    [ResponseActionTheorems] shows what each operation keeps; this file draws
    the consequences for a running controller: any operations, started and
    settled in any order, against ports that answer anything or fail. *)

From S2P Require Import Prelude JsValue Async AsyncTokens IdempotencyKey DraftKeys ResponseAction ResponseActionController ResponseActionTheorems.

Section safety.
Context `{Can : !Canonicalize, Eng : !Engine, Chk : !ResponseChecks, Uuid : !UuidPackage}.
Context (config : ResponseActionControllerConfig).

Abbreviation cinv := (controller_inv config).
Abbreviation conds := (controller_conditions config).
Abbreviation controller_world_ok recorded kept :=
  (world_ok (@yields) (@answers _) conds recorded kept).

(** ** Every operation meets the conditions *)

Lemma inv_create : cinv (create config).
Proof.
  split; simpl; try done.
  - intros p Hp. lia.
  - by intros [r ->].
Qed.

Lemma operation_ok m c : operation config m → cinv c → ok (@yields) (@answers _) conds m false c released.
Proof.
  intros Hm Hi. apply ok_weaken with (freed config); [by intros h o c' [? _]|].
  destruct Hm; [by apply ok_dispatch|by apply ok_invalidate|by apply ok_retireSignRetry|by apply ok_refreshApplication|
    by apply ok_restoreSavedDraft|by apply ok_restoreSigned|by apply ok_restorePending].
Qed.

(** A thread that waits for an effect holds the lock; one that joins another
    operation does not, and the operation was started. *)
Definition waits (X : Type) (q : call X) (h : bool) (c : Controller) : Prop :=
  (is_Some (effect_of q) → h = true) ∧ joining_allowed q h c.

Lemma waits_issue X (q : call X) h c : cinv c → issue conds q h c → waits X q h c.
Proof.
  intros _. unfold waits. simpl. unfold call_allowed. destruct (effect_of q) as [e|] eqn:E.
  - intros (-> & _ & _). split; [done|]. by destruct q.
  - intros Hj. split; [by intros [? ?]|done].
Qed.

Lemma waits_rely X (q : call X) h c c' : rely conds h c c' → waits X q h c → waits X q h c'.
Proof.
  intros (_ & Hm & _) [He Hj]. split; [done|]. destruct q; try done. destruct Hj as [? ?]. split; [done|].
  pose proof (cm_next _ _ Hm). lia.
Qed.

(** Every effect was asked for by an invocation, with the key of its delivery. *)
Definition keyed (l : list (option string * effect)) (c : Controller) : Prop :=
  ∀ b e, (b, e) ∈ l → ∃ id, b = Some id ∧
    (invalidated c = true ∨ ∃ d, deliveries c !! id = Some d ∧ ∀ op, effect_key e = Some op → op = operationId d).

Definition one_key (l : list (option string * effect)) : Prop :=
  ∀ id e e' op op', (Some id, e) ∈ l → (Some id, e') ∈ l → effect_key e = Some op → effect_key e' = Some op' → op = op'.

Definition recorded (l : list (option string * effect)) (c : Controller) : Prop := keyed l c ∧ one_key l.

Lemma recorded_mono l c c' : cinv c' → mono conds c c' → recorded l c → recorded l c'.
Proof.
  intros _ Hm [Hk Ho]. split; [|done]. intros b e Hbe. destruct (Hk b e Hbe) as (id & -> & Hd). exists id. split; [done|].
  destruct Hd as [?|(d & Hd & Hop)]; [left; by apply (cm_invalidated _ _ Hm)|].
  destruct (cm_deliveries _ _ Hm id d Hd) as [?|(d' & Hd' & G)]; [by left|right]. exists d'.
  rewrite (dg_operation _ _ G). done.
Qed.

Lemma recorded_issue X (q : call X) h c l :
  cinv c → issue conds q h c → (h = true → locked conds c = true) → recorded l c → recorded (l ++ observe X q c) c.
Proof.
  intros Hi Hq _ [Hk Ho]. simpl in Hq. unfold call_allowed in Hq. unfold observe. destruct (effect_of q) as [e|] eqn:E.
  2: { rewrite app_nil_r. by split. }
  destruct Hq as (_ & (Hn & _ & id & d & Hb & Hd & Hop) & _).
  assert (∀ e' op', (Some id, e') ∈ l → effect_key e' = Some op' → op' = operationId d) as Hold.
  { intros e' op' Hin Hkey. destruct (Hk _ _ Hin) as (id' & [= <-] & [?|(d' & Hd' & Hop')]); [congruence|].
    rewrite (Hop' op' Hkey). congruence. }
  split.
  - intros b e' Hbe. apply elem_of_app in Hbe as [Hbe|Hbe]; [by apply Hk|].
    apply list_elem_of_singleton in Hbe as [= -> ->]. exists id. split; [done|]. right. by exists d.
  - intros id' e1 e2 op1 op2 H1 H2 K1 K2. rewrite elem_of_app, list_elem_of_singleton in H1, H2.
    destruct H1 as [H1|[= ? ->]], H2 as [H2|[= ? ->]]; [by apply (Ho id' e1 e2)| | |].
    + assert (id' = id) as -> by congruence. rewrite (Hold _ _ H1 K1), (Hop _ K2). done.
    + assert (id' = id) as -> by congruence. rewrite (Hold _ _ H2 K2), (Hop _ K1). done.
    + by rewrite (Hop _ K1), (Hop _ K2).
Qed.

Lemma reachable_world w : controller_reachable config w → ∃ H, controller_world_ok recorded waits w H.
Proof.
  apply (async_reachable_ok (@yields) (@answers _) observe conds (controller_conditions_ok config) recorded
    recorded_mono recorded_issue waits waits_issue waits_rely (operation config) operation_ok).
  - apply inv_create.
  - done.
  - split; [by intros b e ?%elem_of_nil|by intros id e e' op op' ?%elem_of_nil].
Qed.

Lemma reachable_inv w : controller_reachable config w → cinv (shared w).
Proof. intros Hw. destruct (reachable_world w Hw) as [H Ho]. apply (wo_inv _ _ _ _ _ _ _ Ho). Qed.

(** ** One effect at a time, under one key *)

Lemma waiting_kept (w : controller_world) H i X (q : call X) k :
  controller_world_ok recorded waits w H → threads w i = Some (Waiting q k) → waits X q (H i) (shared w).
Proof. intros Hw Hi. apply (wo_threads _ _ _ _ _ _ _ Hw) in Hi. apply Hi. Qed.

Lemma taken_thread (w : controller_world) H :
  controller_world_ok recorded waits w H → is_busy (shared w) = true →
  ∃ i X (q : call X) k, threads w i = Some (Waiting q k) ∧ waits X q true (shared w).
Proof.
  intros Hw Hb. apply (wo_taken _ _ _ _ _ _ _ Hw) in Hb as [i Hi]. destruct (threads w i) as [t|] eqn:Et.
  - destruct t as [o|X q k]; [pose proof (wo_threads _ _ _ _ _ _ _ Hw i _ Et) as Hf; simpl in Hf; congruence|].
    exists i, X, q, k. split; [done|]. rewrite <- Hi. by eapply waiting_kept.
  - rewrite (wo_absent _ _ _ _ _ _ _ Hw i Et) in Hi. done.
Qed.

(** C7.  In every reachable state of a running controller at most one operation
    waits for an effect on the outside: a save, a preparation, a signature, a
    case start or a submission.  The lock is never left taken: when every
    operation has finished, failed or not, it is free. *)
Theorem controller_effects_exclusive w :
  controller_reachable config w →
  (∀ i j X Y (q : call X) (q' : call Y) k k',
     threads w i = Some (Waiting q k) → threads w j = Some (Waiting q' k') →
     is_Some (effect_of q) → is_Some (effect_of q') → i = j) ∧
  ((∀ i t, threads w i = Some t → ∃ o, t = Finished o) → is_busy (shared w) = false).
Proof.
  intros Hr. destruct (reachable_world w Hr) as [H Hw]. split.
  - intros i j X Y q q' k k' Hi Hj Eq Eq'. apply (wo_unique _ _ _ _ _ _ _ Hw).
    + by apply (waiting_kept _ _ _ _ _ _ Hw Hi).
    + by apply (waiting_kept _ _ _ _ _ _ Hw Hj).
  - intros Hall. destruct (is_busy (shared w)) eqn:Hb; [|done].
    destruct (taken_thread w H Hw Hb) as (i & X & q & k & Hi & _). by destruct (Hall i _ Hi).
Qed.

(** C15.  Every effect a controller ever asks for belongs to an invocation, and
    however often an invocation is repeated all its effects carry one
    idempotency key. *)
Theorem controller_effect_keys w :
  controller_reachable config w →
  (∀ b e, (b, e) ∈ events w → ∃ id, b = Some id) ∧
  (∀ id e e' op op', (Some id, e) ∈ events w → (Some id, e') ∈ events w →
     effect_key e = Some op → effect_key e' = Some op' → op = op').
Proof.
  intros Hr. destruct (reachable_world w Hr) as [H Hw]. destruct (wo_recorded _ _ _ _ _ _ _ Hw) as [Hk Ho].
  split; [|done]. intros b e Hbe. destruct (Hk b e Hbe) as (id & -> & _). by exists id.
Qed.

(** ** What is final *)

Definition closed (c : Controller) : Prop := is_Some (completionResult c) ∨ invalidated c = true.

Lemma closed_mono c c' : controller_mono c c' → closed c → closed c'.
Proof.
  intros Hm [[r Hr]|Hi]; [|by right; apply (cm_invalidated _ _ Hm)].
  destruct (cm_completion _ _ Hm r Hr) as [?|?]; [left; by exists r|by right].
Qed.

(** From a world on, its events only, while it is closed. *)
Lemma later_world w w' :
  controller_reachable config w → rtc (controller_step config) w w' →
  controller_mono (shared w) (shared w') ∧ cinv (shared w') ∧ (closed (shared w) → events w' = events w).
Proof.
  intros Hr Hs. destruct (reachable_world w Hr) as [H Hw].
  set (rec := λ (l : list (option string * effect)) c, controller_mono (shared w) c ∧ (closed (shared w) → l = events w)).
  assert (controller_world_ok rec waits w H) as Hw'.
  { destruct Hw as [W1 W2 W3 W4 W5 W6]. split; try done. }
  destruct (async_steps_ok (R := jsv) (@yields) (@answers _) observe conds (controller_conditions_ok config) rec) with
    (kept := waits) (entries := operation config) (w := w) (w' := w') (H := H) as [Hm [H' Hfin]].
  - intros l c c' _ Hm [Hm0 Hl]. split; [by transitivity c|done].
  - intros X q h c l Hi Hq _ [Hm Hl]. split; [done|]. intros Hc. rewrite (Hl Hc). unfold observe.
    simpl in Hq. unfold call_allowed in Hq. destruct (effect_of q) as [e|]; [|by rewrite app_nil_r].
    destruct Hq as (_ & (Hn & Hcr & _) & _). destruct (closed_mono _ _ Hm Hc) as [[r ?]|?]; congruence.
  - apply waits_issue.
  - apply waits_rely.
  - apply operation_ok.
  - done.
  - done.
  - split; [done|]. split; [apply (wo_inv _ _ _ _ _ _ _ Hfin)|]. apply (wo_recorded _ _ _ _ _ _ _ Hfin).
Qed.

(** C12.  Once a submission is confirmed or the controller is invalidated, no
    operation has another effect, whatever is called or was under way; a
    confirmed result stays until invalidation; after invalidation nothing is
    owned, prepared, signed or confirmed, no delivery is known, and the case and
    the actor stay what they were.  The draft noted last is not covered: that of
    a start's checkpoint under way is noted before the check of the context. *)
Theorem controller_closed_is_final w w' :
  controller_reachable config w → rtc (controller_step config) w w' →
  is_Some (completionResult (shared w)) ∨ invalidated (shared w) = true →
  events w' = events w ∧
  (invalidated (shared w') = false → completionResult (shared w') = completionResult (shared w)) ∧
  (invalidated (shared w) = true →
     invalidated (shared w') = true ∧ owned (shared w') = false ∧ prepared (shared w') = None ∧
     signed (shared w') = None ∧ completionResult (shared w') = None ∧ deliveries (shared w') = ∅ ∧
     case_kept (shared w) (shared w')).
Proof.
  intros Hr Hs Hc. destruct (later_world w w' Hr Hs) as (Hm & Hi & He). split; [by apply He|]. split.
  - intros Hn. destruct Hc as [[r Hc]|Hc]; [|apply (cm_invalidated _ _ Hm) in Hc; congruence].
    rewrite Hc. destruct (cm_completion _ _ Hm r Hc); congruence.
  - intros Hinv. pose proof (cm_case _ _ Hm Hinv) as Hk. apply (cm_invalidated _ _ Hm) in Hinv.
    destruct (ci_invalidated _ _ Hi Hinv) as (? & ? & ? & ? & ?). by split_and!.
Qed.

(** C16.  An invocation whose effect was recorded is never run again: repeated
    when the controller is idle it is answered with the recorded outputs if it
    is the same request and no save or preparation, and refused otherwise. *)
Theorem controller_replays w w' id d outputs role i :
  controller_reachable config w → rtc (controller_step config) w w' →
  deliveries (shared w) !! id = Some d → completed d = Some outputs →
  invalidated (shared w') = false → is_busy (shared w') = false →
  gate role id i (shared w') =
    (if bool_decide (identity d = i) && negb (retired d) then Replay outputs else Stop OperationConflict).
Proof.
  intros Hr Hs Hd Hc Hn Hb. destruct (later_world w w' Hr Hs) as (Hm & Hi & _).
  destruct (cm_deliveries _ _ Hm id d Hd) as [?|(d' & Hd' & G)]; [congruence|].
  unfold gate. rewrite Hd', (dg_identity _ _ G). case_bool_decide; [|done]. simpl.
  rewrite (no_pending_free config (shared w') id d' Hi (not_busy config _ Hi Hb) Hd').
  rewrite (dg_final _ _ G outputs Hc), (dg_completed _ _ G outputs Hc). by destruct (retired d).
Qed.

(** C8.  What the controller holds was checked: a prepared or signed response
    and, once it owns the draft, the saved one are the context's response, valid,
    with consistent evidence, the digest of their bytes and the expected actor;
    an actor expected from the start is never replaced. *)
Theorem controller_checked_drafts w :
  controller_reachable config w →
  (∀ p, prepared (shared w) = Some p → draft_evidenced config p) ∧
  (∀ s, signed (shared w) = Some s → draft_evidenced config s) ∧
  (∀ s, owned (shared w) = true → saved (shared w) = Some s → draft_evidenced config s) ∧
  (∀ a, expectedActor (context config) = Some a → a ≠ "" → actor (shared w) = Some a).
Proof.
  intros Hr. pose proof (reachable_inv w Hr) as Hi. split; [apply (ci_prepared _ _ Hi)|].
  split; [apply (ci_signed _ _ Hi)|]. split; [apply (ci_saved _ _ Hi)|apply (ci_actor _ _ Hi)].
Qed.

(** ** Progress *)

Lemma answer_at_once X (q : call X) c : yields q = false → ∃ a, answers q a c.
Proof. destruct q; try done; intros _; by exists (Throws TaskCompletionOutcomeUnknown). Qed.

(** Only the joining of an operation that has not settled has no answer. *)
Lemma answer_or_join X (q : call X) c :
  (∃ a, answers q a c) ∨ (match q with JoinPending p => settled c !! p = None | _ => False end).
Proof.
  destruct q as [| | | | | | | | | | | |p| | | |]; try (left; by exists (Throws TaskCompletionOutcomeUnknown)).
  - simpl. destruct (settled c !! p) as [o|] eqn:E; [left; by exists o|by right].
  - left. by exists (Returns ()).
Qed.

(** C17.  No operation hangs by the controller's own doing.  Turns that start
    nothing new come to an end, and when none is left to take every operation
    has finished and the lock is free. *)
Theorem controller_settles w :
  controller_reachable config w →
  Acc (settles (@yields) (@answers _) observe) w ∧
  ((∀ w', ¬ settles (@yields) (@answers _) observe w' w) →
   (∀ i t, threads w i = Some t → ∃ o, t = Finished o) ∧ is_busy (shared w) = false).
Proof.
  intros Hr. split; [by eapply reachable_settles|]. intros Hstuck. destruct (reachable_world w Hr) as [H Hw].
  pose proof (reachable_inv w Hr) as Hi.
  assert (∀ i X (q : call X) k, threads w i = Some (Waiting q k) → ∀ h, waits X q h (shared w) →
    h = false ∧ is_busy (shared w) = true) as Hwait.
  { intros i X q k Hiq h [_ Hj]. destruct (answer_or_join X q (shared w)) as [[a Ha]|Hn].
    - destruct (answered_settles (@yields) (@answers _) observe answer_at_once w i X q k a Hiq Ha) as [w' Hw'].
      by destruct (Hstuck w').
    - destruct q; try done. destruct Hj as [-> Hp]. split; [done|].
      destruct (ci_promises _ _ Hi _ Hp) as [[? ?]|[? _]]; [congruence|done]. }
  assert (is_busy (shared w) = false) as Hb.
  { destruct (is_busy (shared w)) eqn:Hb; [|done].
    destruct (taken_thread w H Hw Hb) as (i & X & q & k & Hiq & Hq). by destruct (Hwait i X q k Hiq true Hq). }
  split; [|done]. intros i t Hit. destruct t as [o|X q k]; [by exists o|].
  destruct (Hwait i X q k Hit (H i) (waiting_kept _ _ _ _ _ _ Hw Hit)). congruence.
Qed.
End safety.

(** ** Samples

    A publication whose actions are all admitted, and ports that answer well. *)

Section samples.

Fixpoint sample_text (v : jsv) : string :=
  match v with
  | JUndef => "u" | JNull => "n" | JBool b => if b then "t" else "f" | JNum n => num_text n
  | JStr s => dq +:+ s +:+ dq
  | JArr l => "[" +:+ String.concat "," (map sample_text l) +:+ "]"
  | JObj o => "{" +:+ String.concat "," (map (λ e, e.1 +:+ ":" +:+ sample_text e.2) o) +:+ "}"
  end.

#[local] Instance sample_canonicalize : Canonicalize := λ v, Some (sample_text v).

Definition sample_action (ref : string) : jsv :=
  JObj [("intent", JStr "x-start-application");
        ("tuple", tuple_json "off" "non-blocking" (if String.eqb ref "startApplication" then "none" else "draft-checkpoint"));
        ("effects", JArr [JObj [("type", JStr "serviceRequest"); ("requestRef", JStr "request");
                                ("idempotencyKey", JStr "@invocation.id")]])].

#[local] Instance sample_engine : Engine :=
  {| resolveResponseAction := λ _ ref, {| resolved := true; resolution_action := Some (sample_action ref) |};
     resolveResponseActionValidationTuple := λ action, prop action "tuple";
     resolveServiceRequest := λ _ _, Returns (JObj [("successStatuses", JArr [JNum (NInt 200)])]);
     planServiceRequest := λ _ _, Returns {| planned_method := "POST"; planned_path := "/drafts/draft-1/sign";
                                             planned_headers := []; planned_body := JUndef; planned_successStatuses := JUndef |};
     extractServiceRequestOutputs := λ _ value, Returns (JObj [("status", prop value "status")]);
     admit_request := λ _ _, Returns () |}.

Definition sample_digest64 : string := String.concat "" (repeat "0123456789abcdef" 4).

#[local] Instance sample_checks : ResponseChecks := {| validates := λ _, true; hashOf := λ _, sample_digest64 |}.
#[local] Existing Instance sample_uuid.

Definition sample_definition : jsv := JObj [("url", JStr "urn:form"); ("version", JStr "1")].

Definition sample_context : ResponseActionControllerContext :=
  {| definition := sample_definition;
     draftKey := {| key_formUrl := "urn:form"; key_formVersion := Some "1"; key_subjectRef := None; key_partyRef := None |};
     formId := "form-1"; formVersionId := "version-1"; responseId := "response-1"; context_generation := "g";
     expectedActor := None |}.

Definition sample_role (ref : string) : QualifiedResponseActionRole :=
  {| role_document := JObj [("targetDefinition", sample_definition)]; role_artifactRef := "artifact";
     role_artifactDigest := "digest"; role_actionRef := ref; role_requestRef := Some "request";
     role_widgetSource := None; role_responseSource := None |}.

Definition sample_config : ResponseActionControllerConfig :=
  {| applicationLifecycle := Some {| earlyCaseCreation := true; persistentSaving := true; capabilities_formVersionId := "version-1" |};
     restoredApplication := None; restoredApplicationLookup := false; context := sample_context;
     roles := λ r, Some (sample_role (role_string r)); restored := None; completion := Some IntakeCompletion;
     capturesSubmitOptions := false; reconcileSignRetries := false; restoresPending := false |}.

Definition sample_response : jsv :=
  JObj [("id", JStr "response-1"); ("definitionUrl", JStr "urn:form"); ("definitionVersion", JStr "1");
        ("data", JObj [("name", JStr "Ada")])].

Definition sample_signed_response : jsv :=
  JObj (props_of sample_response ++ [("authoredSignatures", JArr [JObj [("signatureProvider", JStr "provider")]])]).

(** What a well-behaved draft service answers for a response; [version] may
    differ in the evidence. *)
Definition sample_draft (evidence_version : Z) (response : jsv) : SavedResponseDraft :=
  {| saved_draftKey := draftKey sample_context; saved_response := response;
     saved_draft := {| draft_id := "draft-1"; draft_version := NInt 1; draft_responseHash := sample_digest64 |};
     saved_actor := "subject-1";
     saved_evidence := {| ev_draft_id := "draft-1"; ev_form_version_id := "version-1"; ev_subject_ref := "subject-1";
       ev_draft_version := NInt evidence_version; ev_draft_state := prop response "data";
       ev_canonical_response := response; ev_status := "in_progress"; ev_taskDraft := JUndef |} |}.

Definition sample_content : jsv := JObj [("source", JStr "source"); ("locale", JStr "en")].
Definition sample_prepared (response : jsv) : PreparedResponseSigning :=
  {| prepared_saved := sample_draft 1 response; content := sample_content |}.
Definition sample_signature : SignedResponseSigning :=
  {| signed_prepared := sample_prepared sample_signed_response;
     verification := {| verification_mode := "delegated-service-key"; provider := "provider"; keyId := "key" |} |}.

Definition sample_answer (evidence_version : Z) (X : Type) (q : call X) (c : Controller) : option (outcome failure X) :=
  match q in call X return option (outcome failure X) with
  | ValidateResponse _ => Some (Returns true)
  | HashResponse _ => Some (Returns sample_digest64)
  | SaveDraft r _ _ _ => Some (Returns (sample_draft evidence_version r))
  | PrepareSigning r _ _ _ => Some (Returns (sample_prepared r))
  | SignPrepared _ _ _ _ => Some (Returns sample_signature)
  | StartCase _ => Some (Returns {| caseLedgerId := "case"; caseReference := "ref"; receipt_draftRef := "urn:formspec:draft:draft-1"; receipt_submitted := false |})
  | CaptureCompletion _ _ _ _ => Some (Returns 0%N)
  | CompleteResponse _ _ => Some (Returns {| result_kind := IntakeCompletion; result_evidence := JObj [("status", JStr "accepted")]; result_value := JNull |})
  | AfterCommittedDraft _ | Turn => Some (Returns ())
  | JoinPending p => settled c !! p
  | SigningContext => Some (Returns (JStr "source", "en"))
  | ReviewReady _ _ _ _ => Some (Returns true)
  | GenerateKey => Some (Returns ("key-" +:+ pretty (nextPromise c)))
  | _ => Some (Throws (OtherFailure "unused"))
  end.

Definition sample_dispatch (role : ResponseActionRole) (response input : jsv) (id : string) : prog jsv :=
  dispatch sample_config role (sample_role (role_string role)) response input id JNull 0 None false.

Definition sign_input : jsv :=
  JObj [("draftId", JStr "draft-1"); ("draftVersion", JNum (NInt 1)); ("responseId", JStr "response-1");
        ("responseHash", JStr sample_digest64); ("source", JStr "source"); ("locale", JStr "en");
        ("signerName", JStr "Ada"); ("consentAccepted", JBool true)].

Definition submit_input : jsv :=
  JObj [("draftId", JStr "draft-1"); ("draftVersion", JNum (NInt 1)); ("canonical_response", sample_signed_response)].

(** Saving, preparing, signing and submitting, one after the other. *)
Definition sample_steps : list (prog jsv) :=
  [sample_dispatch SaveInitial sample_response (JObj []) "save-1";
   sample_dispatch Prepare sample_response (JObj []) "prepare-1";
   sample_dispatch Sign sample_response sign_input "sign-1";
   sample_dispatch Submit sample_signed_response submit_input "submit-1"].

Definition sample_run (steps : list (prog jsv)) : option (list (outcome failure jsv) * Controller) :=
  alone_all (sample_answer 1) steps (create sample_config).

Definition sample_state (steps : list (prog jsv)) : Controller :=
  match sample_run steps with Some (_, c) => c | None => create sample_config end.

Example sample_submitted :
  sample_run sample_steps =
    Some ([Returns (JObj [("status", JStr "in_progress")]); Returns (JObj [("status", JStr "in_progress")]);
           Returns (JObj [("status", JStr "in_progress")]); Returns (JObj [("status", JStr "accepted")])],
          sample_state sample_steps) ∧
  snap_phase (snapshot (sample_state sample_steps)) = Submitted.
Proof. split; vm_compute; reflexivity. Qed.

Lemma sample_answers v X (q : call X) c a : sample_answer v X q c = Some a → answers q a c.
Proof. destruct q; simpl; intros E; try done; try (injection E as <-); try done; by intros ? [= <-]. Qed.

Lemma sample_dispatch_operation role response input id :
  id ≠ "" → operation sample_config (sample_dispatch role response input id).
Proof. intros Hid. unfold sample_dispatch. exact (op_dispatch _ _ _ _ _ _ _ _ _ _ Hid). Qed.

Lemma sample_steps_operation : Forall (operation sample_config) sample_steps.
Proof. repeat (apply Forall_cons; split; [by apply sample_dispatch_operation|]). by apply Forall_nil. Qed.

(** A world of the sample, idle, with nothing running. *)
Definition idle_at (w : controller_world) (i : N) (c : Controller) : Prop :=
  controller_reachable sample_config w ∧ shared w = c ∧ (∀ j, (i ≤ j)%N → threads w j = None) ∧
  (∀ j t, threads w j = Some t → ∃ o, t = Finished o).

Lemma sample_more w i c v ms os c' :
  idle_at w i c → Forall (operation sample_config) ms → alone_all (sample_answer v) ms c = Some (os, c') →
  ∃ w', rtc (controller_step sample_config) w w' ∧ idle_at w' (i + N.of_nat (length ms)) c'.
Proof.
  intros (Hr & <- & Hfree & Hfin) Hms Ha.
  destruct (alone_all_reachable (@yields) (@answers _) observe (sample_answer v) (sample_answers v)
    (operation sample_config) ms w i os c' Hms Hfree Hfin Ha) as (w' & Hs & Hc & _ & Hfree' & Hfin').
  exists w'. split; [done|]. split; [|done]. unfold controller_reachable, reachable. by transitivity w.
Qed.

Lemma sample_initial : idle_at (initial (create sample_config)) 0 (create sample_config).
Proof. split; [apply rtc_refl|done]. Qed.

Lemma sample_world steps os c :
  Forall (operation sample_config) steps → sample_run steps = Some (os, c) →
  ∃ w, idle_at w (N.of_nat (length steps)) c.
Proof.
  intros Hms Ha. destruct (sample_more _ _ _ 1 steps os c sample_initial Hms Ha) as (w & _ & Hw). by exists w.
Qed.

Lemma submitted_world : ∃ w, idle_at w 4 (sample_state sample_steps).
Proof. exact (sample_world _ _ _ sample_steps_operation (proj1 sample_submitted)). Qed.

Lemma controller_effects_exclusive_witness :
  ∃ w, controller_reachable sample_config w ∧ snap_phase (snapshot (shared w)) = Submitted ∧ is_busy (shared w) = false.
Proof.
  destruct submitted_world as (w & Hr & Hc & _ & Hfin). exists w. split; [exact Hr|].
  split; [rewrite Hc; exact (proj2 sample_submitted)|].
  exact (proj2 (controller_effects_exclusive sample_config w Hr) Hfin).
Defined.

Lemma controller_effect_keys_witness :
  ∃ w, controller_reachable sample_config w ∧ snap_phase (snapshot (shared w)) = Submitted ∧
    ∀ id e e' op op', (Some id, e) ∈ events w → (Some id, e') ∈ events w →
      effect_key e = Some op → effect_key e' = Some op' → op = op'.
Proof.
  destruct submitted_world as (w & Hr & Hc & _). exists w. split; [exact Hr|].
  split; [rewrite Hc; exact (proj2 sample_submitted)|].
  exact (proj2 (controller_effect_keys sample_config w Hr)).
Defined.

Definition again : list (prog jsv) := [sample_dispatch Submit sample_signed_response submit_input "submit-2"; invalidate].

Lemma again_operation : Forall (operation sample_config) again.
Proof.
  apply Forall_cons. split; [by apply sample_dispatch_operation|]. apply Forall_cons. split; [apply op_invalidate|by apply Forall_nil].
Qed.

Lemma controller_closed_is_final_witness :
  ∃ w w', controller_reachable sample_config w ∧ rtc (controller_step sample_config) w w' ∧
    is_Some (completionResult (shared w)) ∧ invalidated (shared w') = true ∧ events w' = events w.
Proof.
  destruct submitted_world as (w & Hw).
  destruct (alone_all (sample_answer 1) again (sample_state sample_steps)) as [[os c']|] eqn:E;
    [|exfalso; vm_compute in E; discriminate E].
  assert (match alone_all (sample_answer 1) again (sample_state sample_steps) with
          | Some (_, c) => invalidated c | None => false end = true) as Hi by (vm_compute; reflexivity).
  rewrite E in Hi.
  destruct (sample_more _ _ _ 1 again os c' Hw again_operation E) as (w' & Hs & Hw').
  assert (is_Some (completionResult (shared w))) as Hc.
  { rewrite (proj1 (proj2 Hw)). vm_compute. by eexists. }
  exists w, w'. split; [exact (proj1 Hw)|]. split; [exact Hs|]. split; [exact Hc|]. split.
  - rewrite (proj1 (proj2 Hw')). exact Hi.
  - exact (proj1 (controller_closed_is_final sample_config w w' (proj1 Hw) Hs (or_introl Hc))).
Defined.

Lemma controller_replays_witness :
  ∃ w d outputs, controller_reachable sample_config w ∧ deliveries (shared w) !! "sign-1" = Some d ∧
    gate Sign "sign-1" (identity d) (shared w) = Replay outputs.
Proof.
  destruct submitted_world as (w & Hr & Hc & _).
  destruct (deliveries (sample_state sample_steps) !! "sign-1") as [d|] eqn:Ed; [|exfalso; vm_compute in Ed; discriminate Ed].
  assert (deliveries (sample_state sample_steps) !! "sign-1" ≫= completed = Some (JObj [("status", JStr "in_progress")])) as Eo
    by (vm_compute; reflexivity).
  assert (retired <$> deliveries (sample_state sample_steps) !! "sign-1" = Some false) as Er by (vm_compute; reflexivity).
  rewrite Ed in Eo, Er. cbn in Eo. injection Er as Er. set (outputs := JObj _) in Eo.
  exists w, d, outputs. split; [exact Hr|]. rewrite Hc. split; [exact Ed|].
  assert (deliveries (shared w) !! "sign-1" = Some d) as Ed' by (rewrite Hc; exact Ed).
  assert (invalidated (shared w) = false) as Hn by (rewrite Hc; vm_compute; reflexivity).
  assert (is_busy (shared w) = false) as Hb by (rewrite Hc; vm_compute; reflexivity).
  pose proof (controller_replays sample_config w w "sign-1" d outputs Sign (identity d) Hr (rtc_refl _ _) Ed' Eo Hn Hb) as Hg.
  rewrite bool_decide_true, Er, Hc in Hg by reflexivity. exact Hg.
Defined.

Lemma controller_checked_drafts_witness :
  ∃ w s, controller_reachable sample_config w ∧ signed (shared w) = Some s ∧ draft_evidenced sample_config s.
Proof.
  destruct submitted_world as (w & Hr & Hc & _). exists w, sample_signature.
  assert (signed (shared w) = Some sample_signature) as Hs by (rewrite Hc; vm_compute; reflexivity).
  split; [exact Hr|]. split; [exact Hs|].
  exact (proj1 (proj2 (controller_checked_drafts sample_config w Hr)) sample_signature Hs).
Defined.

Lemma controller_settles_witness :
  ∃ w, controller_reachable sample_config w ∧ snap_phase (snapshot (shared w)) = Submitted ∧
    Acc (settles (@yields) (@answers _) observe) w.
Proof.
  destruct submitted_world as (w & Hr & Hc & _). exists w. split; [exact Hr|].
  split; [rewrite Hc; exact (proj2 sample_submitted)|]. exact (proj1 (controller_settles sample_config w Hr)).
Defined.

(** A start on a response nobody owns keeps its draft before the draft is
    checked: a draft whose evidence disagrees is refused, and published. *)
Theorem start_publishes_unchecked_draft :
  ∃ w s, controller_reachable sample_config w ∧ snap_phase (snapshot (shared w)) = Refused ∧
    saved (shared w) = Some s ∧ snap_saved (snapshot (shared w)) = Some s ∧ ¬ draft_evidenced sample_config s.
Proof.
  set (start := [sample_dispatch StartApplication sample_response (JObj []) "start-1"]).
  destruct (alone_all (sample_answer 2) start (create sample_config)) as [[os c]|] eqn:E;
    [|exfalso; vm_compute in E; discriminate E].
  assert (Forall (operation sample_config) start) as Hst.
  { apply Forall_cons. split; [by apply sample_dispatch_operation|by apply Forall_nil]. }
  destruct (sample_more _ _ _ 2 start os c sample_initial Hst E) as (w & _ & Hr & Hc & _).
  assert (c = match alone_all (sample_answer 2) start (create sample_config) with Some (_, c) => c | None => c end) as Ec
    by (by rewrite E).
  clear E. exists w, (sample_draft 2 sample_response). rewrite Hc, Ec. split; [done|].
  do 3 (split; [vm_compute; reflexivity|]). intros Hs. pose proof (de_consistent _ _ Hs) as Hcons.
  vm_compute in Hcons. discriminate Hcons.
Qed.
End samples.
