(* ===== verification/ActionLedger.v ===== *)
(** * The response action ledger

    [createHttpResponseActionLedgerInvokerFactory] of
    src/src/adapters/http/response-action-ledger.ts: a response action is run by
    the engine, its lifecycle records and durable effects become one batch, and
    the batch is appended to the session's ledger.  The engine, the host's
    callbacks, the canonical text and the transport are parameters; a run is the
    list of the calls made outside, with its outcome. *)

From S2P Require Import Prelude JsValue Text IdempotencyKey Base64 DraftKeys ResponseAction.
From Stdlib Require Import Ascii.

(** ** Data *)

Record AuthorActor : Set := { actor_id : string; actor_kind : string; actChannel : string }.
Definition actor_json (a : AuthorActor) : jsv :=
  JObj [("id", JStr (actor_id a)); ("kind", JStr (actor_kind a)); ("actChannel", JStr (actChannel a))].

Record AnonymousSession : Set := { sessionId : string; sessionToken : string; session_subjectRef : string }.

Record ResponseActionRuntimeContext : Set := {
  runtimeDefinitionUrl : string;
  definition_url : string;
  definition_version : option string;
  context_draftKey : DraftKey;
  claim_subject : option string
}.

Record EffectOutcome : Set := {
  effect_type : string; effect_status : string;
  effect_idempotencyKey : jsv; effect_outcomeRef : jsv; effect_reason : jsv; effect_replayToken : jsv
}.

(** What the engine's [invokeResponseAction] returns, as far as the ledger
    reads it; [invocation_details] are the optional members it copies. *)
Record Invocation : Set := {
  invocation_resolved : bool;
  invocation_action : option string;
  invocation_status : string;
  invocation_details : jsobj;
  effectTrace : list EffectOutcome
}.

Record LifecycleRecord : Set := { lifecycle_kind : string; lifecycle_payload : jsv }.

Record SessionOpBatchAppendCommand : Set := {
  ledgerScope : string; sessionRef : jsv; branchId : string; opBatch : jsv; opBatchHash : string; command_key : string
}.

Definition command_json (c : SessionOpBatchAppendCommand) : jsv :=
  JObj [("ledgerScope", JStr (ledgerScope c)); ("sessionRef", sessionRef c); ("branchId", JStr (branchId c));
        ("opBatch", opBatch c); ("opBatchHash", JStr (opBatchHash c)); ("idempotencyKey", JStr (command_key c));
        ("mode", JStr "require-anchored")].

(** ** Semantic operations *)

Definition definedProps (o : jsobj) : jsv := JObj (List.filter (λ e, negb (is_undefined e.2)) o).

Definition lifecycleOp (r : LifecycleRecord) : jsv :=
  JObj [("op", JStr "responseAction.lifecycle"); ("kind", JStr (lifecycle_kind r)); ("payload", lifecycle_payload r)].

Definition effectOp (actionId invocationId : string) (effectIndex : nat) (outcome : EffectOutcome) : list jsv :=
  if String.eqb (effect_type outcome) "hostEvent" then [] else
  [definedProps
    [("op", JStr "responseAction.effectOutcome"); ("actionId", JStr actionId); ("invocationId", JStr invocationId);
     ("effectIndex", JNum (NInt (Z.of_nat effectIndex))); ("effectType", JStr (effect_type outcome));
     ("status", JStr (effect_status outcome)); ("idempotencyKey", effect_idempotencyKey outcome);
     ("outcomeRef", effect_outcomeRef outcome); ("reason", effect_reason outcome);
     ("replayToken", effect_replayToken outcome)]].

(** [effectTrace.flatMap((outcome, effectIndex) => ...)] *)
Fixpoint flat_map_index {A B} (f : nat → A → list B) (i : nat) (l : list A) : list B :=
  match l with [] => [] | x :: l' => f i x ++ flat_map_index f (S i) l' end.

Definition effectOutcomeSemanticOps (actionId invocationId : string) (trace : list EffectOutcome) : list jsv :=
  flat_map_index (effectOp actionId invocationId) 0 trace.

Definition invocation_members : list string :=
  ["blockedCause"; "blockedPreconditionId"; "deferredPreconditionId"; "failedPreconditionId"; "failedEffectIndex";
   "deferredEffectIndex"; "failureReason"; "replayToken"].

Definition invocationSemanticOp (invocation : Invocation) (actionId invocationId : string) (durableEffectCount : nat) : jsv :=
  definedProps
    ([("op", JStr "responseAction.invocation"); ("actionId", JStr actionId); ("invocationId", JStr invocationId);
      ("status", JStr (invocation_status invocation))]
     ++ ((λ k, (k, obj_get (invocation_details invocation) k)) <$> invocation_members)
     ++ [("durableEffectCount", JNum (NInt (Z.of_nat durableEffectCount)))]).

(** ** The key of an append *)

(** [s.length]: UTF-16 units of UTF-8 text.  A continuation byte counts for
    nothing, the first byte of a four-byte sequence for two. *)
Definition utf16_units (a : ascii) : nat :=
  let n := nat_of_ascii a in if (n <? 128)%nat then 1 else if (n <? 192)%nat then 0 else if (n <? 240)%nat then 1 else 2.
Fixpoint utf16_length (s : string) : nat :=
  match s with EmptyString => 0 | String a s' => utf16_units a + utf16_length s' end.

Definition framed_part (part : string) : string := pretty (utf16_length part) +:+ ":" +:+ part.

Definition ledger_material (scope branch hash : string) : string :=
  framed_part scope +:+ "|" +:+ framed_part branch +:+ "|" +:+ framed_part hash.

Definition sha256Prefixed `{!Digest} (bytes : string) : string := "sha256:" +:+ hex (sha256 bytes).

Definition studioLedgerIdempotencyKey `{!Digest} (scope branch hash : string) : string :=
  sha256Prefixed (ledger_material scope branch hash).

Definition computeJcsSha256Digest `{!Digest, !Canonicalize} (value : jsv) : outcome string string :=
  match canonicalize value with
  | Some text => Returns (sha256Prefixed text)
  | None => Throws "canonicalize() returned non-string for the supplied value"
  end.

(** ** Replies *)

Definition append_error (tail : string) : string := "Response Actions Ledger append response " +:+ tail.

Definition stringField (value : jsv) (field : string) : outcome string string :=
  match prop value field with
  | JStr s => if nonempty s then Returns s else Throws (append_error ("missing string field: " +:+ field +:+ "."))
  | _ => Throws (append_error ("missing string field: " +:+ field +:+ "."))
  end.

Definition nullableStringField (value : jsv) (field : string) : outcome string (option string) :=
  match prop value field with
  | JNull | JUndef => Returns None
  | JStr s => if nonempty s then Returns (Some s) else Throws (append_error ("has invalid field: " +:+ field +:+ "."))
  | _ => Throws (append_error ("has invalid field: " +:+ field +:+ "."))
  end.

Record LedgerAppendReceipt : Set := {
  receipt_scope : string; priorEventHash : option string; eventHash : string; receipt_key : string
}.

Definition parseAnchoredReceipt (payload : jsv) : outcome string LedgerAppendReceipt :=
  throw_when (negb (isRecord payload) || negb (is_lit (prop payload "status") "anchored"))
    (append_error "must be an anchored JSON object.") ;;
  scope ← stringField payload "ledgerScope";
  prior ← nullableStringField payload "priorEventHash";
  event ← stringField payload "eventHash";
  key ← stringField payload "idempotencyKey";
  Returns {| receipt_scope := scope; priorEventHash := prior; eventHash := event; receipt_key := key |}.

Definition capability_error : string := "Response Actions Ledger capability must be a non-empty trimmed string.".

(** [!s || s.trim() !== s] *)
Definition bad_capability (s : string) : bool := negb (nonempty s) || negb (String.eqb (trim s) s).

Definition parseCapabilityResponse (payload : jsv) (scope : string) : outcome string string :=
  throw_when (negb (isRecord payload)) "Response Actions Ledger capability response must be a JSON object." ;;
  match prop payload "capability" with
  | JStr capability =>
      throw_when (bad_capability capability) capability_error ;;
      (match prop payload "ledgerScope" with
       | JUndef => Returns ()
       | JStr s =>
           throw_when (negb (nonempty s)) "Response Actions Ledger capability response has invalid ledgerScope." ;;
           throw_when (negb (String.eqb s scope)) "Response Actions Ledger capability response ledgerScope mismatch."
       | _ => Throws "Response Actions Ledger capability response has invalid ledgerScope."
       end) ;;
      Returns capability
  | _ => Throws capability_error
  end.

(** [endpoint.replace(/\/+$/, '')] *)
Fixpoint drop_slashes (s : string) : string :=
  match s with
  | EmptyString => ""
  | String a s' =>
      match drop_slashes s' with EmptyString => if Ascii.eqb a "/" then "" else String a "" | r => String a r end
  end.

Definition LEDGER_APPEND_ROUTE : string := "/runtime/response-actions/ledger/session-op-batches".

Record Reply : Set := { ok : bool; status : Z; statusText : string; body : outcome string jsv }.

Definition problemDetail (response : Reply) : string :=
  let fallback := if nonempty (statusText response) then statusText response else "HTTP " +:+ pretty (status response) in
  match body response with
  | Returns value =>
      if isRecord value then
        match prop value "detail", prop value "title" with
        | JStr s, _ => s
        | _, JStr s => s
        | _, _ => fallback
        end
      else fallback
  | Throws _ => fallback
  end.

(** ** The run *)

(** The calls outside, in order. *)
Inductive event : Set :=
  | SessionAsked
  | ActionInvoked
  | CapabilityAsked (command : SessionOpBatchAppendCommand)
  | Posted (url capability : string) (command : SessionOpBatchAppendCommand).

Definition run (A : Type) : Type := list event * outcome string A.

#[export] Instance run_ret : MRet run := λ A a, ([], Returns a).
#[export] Instance run_bind : MBind run := λ A B f m,
  match m with
  | (l, Returns a) => let '(l', o) := f a in (l ++ l', o)
  | (l, Throws e) => (l, Throws e)
  end.

Definition calling {A} (e : event) (o : outcome string A) : run A := ([e], o).
Definition pure_ {A} (o : outcome string A) : run A := ([], o).

(** The engine, the host's callbacks and the transport. *)
Class LedgerHost := {
  sessionForForm : string → option string → outcome string AnonymousSession;
  invokeResponseAction : jsv → option string → outcome string (Invocation * list LifecycleRecord);
  capabilityFor : ResponseActionRuntimeContext → AnonymousSession → SessionOpBatchAppendCommand → outcome string string;
  post : string → string → jsv → outcome string Reply;
  now : string
}.

(** The options that are a value or a function of the context. *)
Record LedgerOptions := {
  endpoint : string;
  branchIdFor : ResponseActionRuntimeContext → option string;
  actorOption : ResponseActionRuntimeContext → AnonymousSession → option AuthorActor;
  artifactRefs : ResponseActionRuntimeContext → option (list string);
  previousHeads : ResponseActionRuntimeContext → option (list string);
  newHeads : ResponseActionRuntimeContext → option (list string);
  changeHashes : ResponseActionRuntimeContext → option (list string);
  invocationIdFor : ResponseActionRuntimeContext → jsv → option string
}.

Section invoker.
Context `{Dig : !Digest, Can : !Canonicalize, Host : !LedgerHost} (options : LedgerOptions).

Definition actorFor (context : ResponseActionRuntimeContext) (session : AnonymousSession) : AuthorActor :=
  match actorOption options context session with
  | Some actor => actor
  | None => {| actor_id := "urn:formspec:actor:human:" +:+ session_subjectRef session; actor_kind := "human"; actChannel := "human" |}
  end.

Definition expected_subject (context : ResponseActionRuntimeContext) : option string :=
  match claim_subject context with Some s => Some s | None => key_subjectRef (context_draftKey context) end.

Definition assertAnonymousSubjectMatches (context : ResponseActionRuntimeContext) (session : AnonymousSession)
    : outcome string unit :=
  throw_when
    (match expected_subject context with
     | Some expected => nonempty expected && negb (String.eqb expected (session_subjectRef session))
     | None => false
     end)
    "Response Actions Ledger anonymous session subject does not match the active respondent subject.".

Definition strings_json (l : list string) : jsv := JArr (JStr <$> l).

Definition session_json (scope : string) (actor : AuthorActor) : jsv :=
  JObj [("id", JStr scope); ("openedAt", JStr now); ("actors", strings_json [actor_id actor])].

(** The id of the invocation: the first lifecycle record's, else the caller's. *)
Definition invocation_id (records : list LifecycleRecord) (given : option string) (actionId : string) : string :=
  match (match records with r :: _ => prop (lifecycle_payload r) "invocationId" | [] => JUndef end) with
  | JStr s => s
  | _ => default (actionId +:+ ":unknown-invocation") given
  end.

Definition semantic_ops (invocation : Invocation) (records : list LifecycleRecord) (actionId invocationId : string)
    : list jsv :=
  let durable := effectOutcomeSemanticOps actionId invocationId (effectTrace invocation) in
  (lifecycleOp <$> records) ++ durable ++ [invocationSemanticOp invocation actionId invocationId (length durable)].

Definition append_command (context : ResponseActionRuntimeContext) (session : AnonymousSession) (ops : list jsv)
    : outcome string SessionOpBatchAppendCommand :=
  let scope := "urn:formspec:session:" +:+ sessionId session in
  let branch := default "branch-main" (branchIdFor options context) in
  let actor := actorFor context session in
  let reference := session_json scope actor in
  let batch := JObj
    [("version", JStr "1.0.0"); ("sessionRef", reference); ("branchId", JStr branch); ("actor", actor_json actor);
     ("artifactRefs", strings_json (default ["formspec-definition:" +:+ definition_url context] (artifactRefs options context)));
     ("previousHeads", strings_json (default [] (previousHeads options context)));
     ("newHeads", strings_json (default [] (newHeads options context))); ("semanticOps", JArr ops);
     ("changeHashes", strings_json (default [] (changeHashes options context)))] in
  hash ← computeJcsSha256Digest batch;
  Returns {| ledgerScope := scope; sessionRef := reference; branchId := branch; opBatch := batch; opBatchHash := hash;
             command_key := studioLedgerIdempotencyKey scope branch hash |}.

Definition invokeWithLedger (context : ResponseActionRuntimeContext) (session : AnonymousSession) (input : jsv)
    : run (Invocation * option SessionOpBatchAppendCommand) :=
  let given := invocationIdFor options context input in
  result ← calling ActionInvoked (invokeResponseAction input given);
  let '(invocation, records) := result in
  match invocation_resolved invocation, invocation_action invocation with
  | true, Some actionId =>
      let id := invocation_id records given actionId in
      command ← pure_ (append_command context session (semantic_ops invocation records actionId id));
      mret (invocation, Some command)
  | _, _ => mret (invocation, None)
  end.

Definition appendSessionOpBatch (capability : string) (command : SessionOpBatchAppendCommand) : run LedgerAppendReceipt :=
  pure_ (throw_when (bad_capability capability) capability_error) ;;
  let url := drop_slashes (endpoint options) +:+ LEDGER_APPEND_ROUTE in
  response ← calling (Posted url capability command) (post url capability (command_json command));
  pure_ (throw_when (negb (ok response))
    ("Response Actions Ledger append failed (" +:+ pretty (status response) +:+ "): " +:+ problemDetail response)) ;;
  payload ← pure_ (body response);
  pure_ (parseAnchoredReceipt payload).

(** [None] where the claim is not an anonymous one: no invoker is made. *)
Definition ledgerInvoker (context : ResponseActionRuntimeContext) (input : jsv) : option (run Invocation) :=
  if match claim_subject context with Some s => negb (starts_with "anon:" s) | None => false end then None else
  Some (
    session ← calling SessionAsked (sessionForForm (runtimeDefinitionUrl context) (definition_version context));
    pure_ (assertAnonymousSubjectMatches context session) ;;
    result ← invokeWithLedger context session input;
    let '(invocation, command) := result in
    match command with
    | None => mret invocation
    | Some command =>
        capability ← calling (CapabilityAsked command) (capabilityFor context session command);
        appendSessionOpBatch capability command ;;
        mret invocation
    end).
End invoker.

(** ** Lemmas *)

Lemma framed_prefix (n n' : nat) x x' : pretty n +:+ ":" +:+ x = pretty n' +:+ ":" +:+ x' → n = n' ∧ x = x'.
Proof.
  intros E. assert (∀ (m : nat) y, split_on ":" (pretty m +:+ ":" +:+ y) = pretty m :: split_on ":" y) as Hs.
  { intros m y. apply split_on_app. by apply has_char_pretty. }
  pose proof (f_equal (split_on ":") E) as Hp. rewrite !Hs in Hp. injection Hp as Hp _.
  apply (inj pretty) in Hp as ->. split; [done|]. by do 2 apply (inj (String.append _)) in E.
Qed.

(** Texts of one length, each followed by a separator, are the same text. *)
Lemma same_length_prefix p p' r r' :
  utf16_length p = utf16_length p' → p +:+ "|" +:+ r = p' +:+ "|" +:+ r' → p = p' ∧ r = r'.
Proof.
  revert p'; induction p as [|a p IH]; intros [|b p'] Hl E.
  - split; [done|]. by injection E.
  - injection E as <- _. simpl in Hl. done.
  - injection E as -> _. simpl in Hl. done.
  - change (String a (p +:+ "|" +:+ r) = String b (p' +:+ "|" +:+ r')) in E. injection E as <- E.
    simpl in Hl. destruct (IH p' ltac:(lia) E) as [-> ->]. done.
Qed.

Lemma framed_part_separated p p' r r' : framed_part p +:+ "|" +:+ r = framed_part p' +:+ "|" +:+ r' → p = p' ∧ r = r'.
Proof.
  unfold framed_part. rewrite !str_app_assoc. intros [Hl E]%framed_prefix. by apply same_length_prefix.
Qed.

(** The text whose digest is the key of an append tells its session,
    branch and batch apart, whatever characters they hold: the parts are framed
    by their lengths. *)
Theorem ledger_material_injective scope branch hash scope' branch' hash' :
  ledger_material scope branch hash = ledger_material scope' branch' hash' ↔
  scope = scope' ∧ branch = branch' ∧ hash = hash'.
Proof.
  split; [|by intros (-> & -> & ->)]. unfold ledger_material.
  intros [-> [-> E]%framed_part_separated]%framed_part_separated. split; [done|]. split; [done|].
  unfold framed_part in E. by apply framed_prefix in E as [_ ->].
Qed.

Section runs.
Context {A B : Type}.

Lemma run_bind_Returns (m : run A) (f : A → run B) l b :
  m ≫= f = (l, Returns b) ↔ ∃ l1 l2 a, m = (l1, Returns a) ∧ f a = (l2, Returns b) ∧ l = l1 ++ l2.
Proof.
  destruct m as [l1 [a|e]]; cbn.
  - destruct (f a) as [l2 o] eqn:E. split; [intros [= <- ->]; by exists l1, l2, a|].
    intros (? & ? & ? & [= <- <-] & Hf & ->). by rewrite E in Hf; injection Hf as -> ->.
  - split; [done|]. by intros (? & ? & ? & ? & _).
Qed.

Lemma run_bind_events (m : run A) (f : A → run B) l o :
  m ≫= f = (l, o) →
  (∃ e, m = (l, Throws e)) ∨ ∃ l1 l2 a, m = (l1, Returns a) ∧ f a = (l2, o) ∧ l = l1 ++ l2.
Proof.
  destruct m as [l1 [a|e]]; cbn; [|intros [= <- _]; left; by exists e].
  destruct (f a) as [l2 o2] eqn:E. intros [= <- <-]. right. by exists l1, l2, a.
Qed.
End runs.

Section safety.
Context `{Dig : !Digest, Can : !Canonicalize, Host : !LedgerHost} (options : LedgerOptions).

Definition ledger_calls (command : SessionOpBatchAppendCommand) (capability : string) : list event :=
  [SessionAsked; ActionInvoked; CapabilityAsked command; Posted (drop_slashes (endpoint options) +:+ LEDGER_APPEND_ROUTE) capability command].

(** The command of a run is the batch of that run's action. *)
Definition command_of (context : ResponseActionRuntimeContext) (input : jsv) (command : SessionOpBatchAppendCommand)
    (invocation : Invocation) : Prop :=
  ∃ session records actionId,
    sessionForForm (runtimeDefinitionUrl context) (definition_version context) = Returns session ∧
    invokeResponseAction input (invocationIdFor options context input) = Returns (invocation, records) ∧
    invocation_resolved invocation = true ∧ invocation_action invocation = Some actionId ∧
    append_command options context session
      (semantic_ops invocation records actionId (invocation_id records (invocationIdFor options context input) actionId))
      = Returns command.

Definition anchored (capability : string) (command : SessionOpBatchAppendCommand) : Prop :=
  ∃ reply payload receipt,
    post (drop_slashes (endpoint options) +:+ LEDGER_APPEND_ROUTE) capability (command_json command) = Returns reply ∧
    ok reply = true ∧ body reply = Returns payload ∧ parseAnchoredReceipt payload = Returns receipt.

Lemma append_returns capability command l receipt :
  appendSessionOpBatch options capability command = (l, Returns receipt) →
  l = [Posted (drop_slashes (endpoint options) +:+ LEDGER_APPEND_ROUTE) capability command] ∧
  bad_capability capability = false ∧ anchored capability command.
Proof.
  intros H. unfold appendSessionOpBatch in H.
  apply run_bind_Returns in H as (l1 & l2 & u & [= <- Hc] & H & ->). apply throw_when_Returns in Hc.
  apply run_bind_Returns in H as (l3 & l4 & reply & [= <- Hp] & H & ->).
  apply run_bind_Returns in H as (l5 & l6 & v & [= <- Ho] & H & ->). apply throw_when_Returns, negb_false_iff in Ho.
  apply run_bind_Returns in H as (l7 & l8 & payload & [= <- Hb] & [= <- Hr] & ->).
  split; [done|]. split; [done|]. by exists reply, payload, receipt.
Qed.

(** A run that returns its invocation has either run an action that did
    not resolve, and asked for nothing else, or had the batch of that very
    action, and of it alone, anchored: one capability, one append, in that
    order. *)
Theorem ledger_run_anchored context input l invocation :
  ledgerInvoker options context input = Some (l, Returns invocation) →
  (l = [SessionAsked; ActionInvoked] ∧ (invocation_resolved invocation = false ∨ invocation_action invocation = None)) ∨
  ∃ command capability, l = ledger_calls command capability ∧ command_of context input command invocation ∧
    bad_capability capability = false ∧ anchored capability command.
Proof.
  unfold ledgerInvoker. destruct (match claim_subject context with Some s => _ | None => false end); [done|].
  intros H%(inj Some). apply run_bind_Returns in H as (l1 & l2 & session & [= <- Hs] & H & ->).
  apply run_bind_Returns in H as (l3 & l4 & u & [= <- Hm] & H & ->).
  apply run_bind_Returns in H as (l5 & l6 & [inv command] & Hi & H & ->).
  unfold invokeWithLedger in Hi. apply run_bind_Returns in Hi as (l7 & l8 & [inv' records] & [= <- Hinv] & Hi & ->).
  destruct (invocation_resolved inv') eqn:Er; [destruct (invocation_action inv') as [actionId|] eqn:Ea|].
  - apply run_bind_Returns in Hi as (l9 & l10 & cmd & [= <- Hcmd] & [= <- <- <-] & ->).
    apply run_bind_Returns in H as (l11 & l12 & capability & [= <- Hcap] & H & ->).
    apply run_bind_Returns in H as (l13 & l14 & receipt & Happ & [= <- <-] & ->).
    apply append_returns in Happ as (-> & Hgood & Hanch). right. exists cmd, capability. split; [done|].
    split; [|done]. by exists session, records, actionId.
  - injection Hi as <- <- <-. injection H as <- <-. left. split; [done|by right].
  - injection Hi as <- <- <-. injection H as <- <-. left. split; [done|by left].
Qed.
End safety.

(** ** A sample run *)

Section samples.
#[local] Instance sample_digest : Digest := λ s, [Z.of_nat (String.length s mod 256)].
#[local] Instance sample_canonical : Canonicalize := λ v, Some (js_to_string v).

Definition sample_trace : list EffectOutcome :=
  [{| effect_type := "hostEvent"; effect_status := "succeeded"; effect_idempotencyKey := JUndef; effect_outcomeRef := JUndef;
      effect_reason := JUndef; effect_replayToken := JUndef |};
   {| effect_type := "serviceRequest"; effect_status := "succeeded"; effect_idempotencyKey := JStr "key"; effect_outcomeRef := JUndef;
      effect_reason := JUndef; effect_replayToken := JUndef |}].

Definition sample_invocation : Invocation :=
  {| invocation_resolved := true; invocation_action := Some "submit"; invocation_status := "completed";
     invocation_details := []; effectTrace := sample_trace |}.

#[local] Instance sample_host : LedgerHost :=
  {| sessionForForm := λ _ _, Returns {| sessionId := "s1"; sessionToken := "t"; session_subjectRef := "anon:1" |};
     invokeResponseAction := λ _ _, Returns (sample_invocation,
       [{| lifecycle_kind := "started"; lifecycle_payload := JObj [("invocationId", JStr "i1")] |}]);
     capabilityFor := λ _ _ _, Returns "capability";
     post := λ _ _ _, Returns {| ok := true; status := 200; statusText := "OK"; body := Returns (JObj
       [("status", JStr "anchored"); ("ledgerScope", JStr "urn:formspec:session:s1"); ("eventHash", JStr "h");
        ("idempotencyKey", JStr "k")]) |};
     now := "2026-01-01T00:00:00Z" |}.

Definition sample_options : LedgerOptions :=
  {| endpoint := "https://ledger.example//"; branchIdFor := λ _, None; actorOption := λ _ _, None; artifactRefs := λ _, None;
     previousHeads := λ _, None; newHeads := λ _, None; changeHashes := λ _, None; invocationIdFor := λ _ _, None |}.

Definition sample_context : ResponseActionRuntimeContext :=
  {| runtimeDefinitionUrl := "urn:form"; definition_url := "urn:form"; definition_version := Some "1";
     context_draftKey := {| key_formUrl := "urn:form"; key_formVersion := None; key_subjectRef := Some "anon:1"; key_partyRef := None |};
     claim_subject := None |}.

Example sample_ops :
  effectOutcomeSemanticOps "submit" "i1" sample_trace =
    [JObj [("op", JStr "responseAction.effectOutcome"); ("actionId", JStr "submit"); ("invocationId", JStr "i1");
           ("effectIndex", JNum (NInt 1)); ("effectType", JStr "serviceRequest"); ("status", JStr "succeeded");
           ("idempotencyKey", JStr "key")]].
Proof. reflexivity. Qed.

Lemma ledger_run_anchored_witness :
  ∃ l command capability,
    ledgerInvoker sample_options sample_context JNull = Some (l, Returns sample_invocation) ∧
    l = ledger_calls sample_options command capability ∧ anchored sample_options capability command.
Proof.
  destruct (ledgerInvoker sample_options sample_context JNull) as [[l o]|] eqn:E; [|exfalso; vm_compute in E; discriminate E].
  assert (o = Returns sample_invocation) as Ho.
  { apply (f_equal (λ r, match r with Some (_, o) => o | None => Throws "" end)) in E. vm_compute in E. symmetry. exact E. }
  subst o. destruct (ledger_run_anchored sample_options sample_context JNull l sample_invocation E)
    as [[_ [H|H]]|(command & capability & Hl & _ & _ & Ha)]; [discriminate H|discriminate H|].
  exists l, command, capability. split; [reflexivity|]. split; [exact Hl|exact Ha].
Defined.
End samples.
