(* ===== verification/ScopeKey.v ===== *)
(** * The deployment scope key

    src/src/shared/scope-key.ts: the names of a scope, the key derived from
    them and the tests a Source payload's scope passes.  The hash library's
    functions are parameters with their documented behaviour. *)

From S2P Require Import Prelude JsValue.
From Stdlib Require Import Ascii.

(** [utf8ToBytes], [concatBytes], [sha256] and [bytesToHex] of the hash
    library; bytes are integers from 0 to 255. *)
Class HashLibrary := {
  utf8ToBytes : string → list Z;
  concatBytes : list (list Z) → list Z;
  hash_sha256 : list Z → list Z;
  bytesToHex : list Z → string
}.

Definition ascii_bytes (s : string) : list Z :=
  (λ c, Z.of_nat (nat_of_ascii c)) <$> String.list_ascii_of_string s.

Definition is_ascii (s : string) : Prop :=
  Forall (λ c, nat_of_ascii c < 128) (String.list_ascii_of_string s).

(** UTF-8 leaves ASCII text as it is, and concatenation is concatenation. *)
Class HashLibraryLaws `{!HashLibrary} : Prop := {
  utf8ToBytes_ascii s : is_ascii s → utf8ToBytes s = ascii_bytes s;
  concatBytes_concat l : concatBytes l = List.concat l
}.

(** ** Names and keys *)

Record ScopeNames : Set := { tenant : string; workspace : string; environment : option string }.

#[export] Instance ScopeNames_eq_dec : EqDecision ScopeNames.
Proof. solve_decision. Defined.

Definition SCOPE_KEY_HEADER : string := "x-stack-scope-key".
Definition SCOPE_KEY_TAG : string := "stack-scope-key-v1".

Definition in_range (lo hi : nat) (c : ascii) : bool := (lo <=? nat_of_ascii c) && (nat_of_ascii c <=? hi).
Definition is_lower (c : ascii) : bool := in_range 97 122 c.
Definition is_lower_digit (c : ascii) : bool := is_lower c || in_range 48 57 c.
Definition is_label_char (c : ascii) : bool := is_lower_digit c || bool_decide (c = "-"%char).
Definition is_lower_hex (c : ascii) : bool := in_range 48 57 c || in_range 97 102 c.

(** [/^[a-z](?:[a-z0-9-]{0,61}[a-z0-9])?$/] *)
Definition DNS_LABEL (s : string) : bool :=
  match String.list_ascii_of_string s with
  | [] => false
  | c :: cs =>
      is_lower c &&
      match List.rev cs with
      | [] => true
      | l :: middle => is_lower_digit l && forallb is_label_char middle && (length middle <=? 61)
      end
  end.

(** [/^[0-9a-f]{64}$/] *)
Definition is_scope_key_text (s : string) : bool :=
  (String.length s =? 64) && forallb is_lower_hex (String.list_ascii_of_string s).

Definition parseScopeKey (value : jsv) : outcome string string :=
  match value with
  | JStr s => if is_scope_key_text s then Returns s else Throws "A scope key is 64 lowercase hex digits"
  | _ => Throws "A scope key is 64 lowercase hex digits"
  end.

(** [view.setUint32(0, n)]: the four bytes of [n] modulo 2^32, big-endian. *)
Definition be32 (n : Z) : list Z :=
  [(n / 2 ^ 24) mod 256; (n / 2 ^ 16) mod 256; (n / 2 ^ 8) mod 256; n mod 256]%Z.

Definition framed (bytes : list Z) : list Z := be32 (Z.of_nat (length bytes)) ++ bytes.

Definition scope_fields (names : ScopeNames) : list string :=
  [tenant names; workspace names; default "" (environment names)].

Section keys.
Context `{!HashLibrary}.

Definition scope_preimage (names : ScopeNames) : list Z :=
  let fields := concatBytes ((λ name, framed (utf8ToBytes name)) <$> scope_fields names) in
  concatBytes [framed (utf8ToBytes SCOPE_KEY_TAG); framed fields].

Definition deriveScopeKey (names : ScopeNames) : outcome string string :=
  let named := [tenant names; workspace names] ++ option_list (environment names) in
  throw_when (negb (forallb DNS_LABEL named)) "Scope names are DNS labels ([a-z][a-z0-9-]*, at most 63)" ;;
  Returns (bytesToHex (hash_sha256 (scope_preimage names))).

Definition selectsScope (key : option string) (scope : jsv) : bool :=
  match key with None => false | Some k => is_lit scope k end.

Definition scopeKeyHeaders (key : option string) : list (string * string) :=
  match key with None => [] | Some k => [(SCOPE_KEY_HEADER, k)] end.
End keys.

(** ** A label is a short ASCII word *)

Lemma in_range_lt lo hi c : hi < 128 → in_range lo hi c = true → nat_of_ascii c < 128.
Proof. unfold in_range. intros Hhi [_ H%Nat.leb_le]%andb_true_iff. lia. Qed.

Lemma is_label_char_ascii c : is_label_char c = true → nat_of_ascii c < 128.
Proof.
  unfold is_label_char, is_lower_digit, is_lower. rewrite !orb_true_iff, bool_decide_eq_true.
  intros [[H|H]| ->]; [| |vm_compute; lia]; eapply in_range_lt; try exact H; lia.
Qed.

Lemma is_lower_digit_label c : is_lower_digit c = true → is_label_char c = true.
Proof. unfold is_label_char. intros ->. done. Qed.

Lemma is_lower_label c : is_lower c = true → is_label_char c = true.
Proof. intros H. apply is_lower_digit_label. unfold is_lower_digit. by rewrite H. Qed.

Lemma DNS_LABEL_chars s :
  DNS_LABEL s = true →
  Forall (λ c, is_label_char c = true) (String.list_ascii_of_string s) ∧
  1 ≤ length (String.list_ascii_of_string s) ≤ 63.
Proof.
  unfold DNS_LABEL. destruct (String.list_ascii_of_string s) as [|c cs]; [done|].
  rewrite andb_true_iff. intros [Hc Hcs]. apply is_lower_label in Hc.
  assert (Forall (λ c, is_label_char c = true) (List.rev cs) ∧ length (List.rev cs) ≤ 62) as [Hall Hlen].
  { destruct (List.rev cs) as [|l middle]; [split; [constructor|simpl; lia]|].
    apply andb_true_iff in Hcs as [[Hl Hm]%andb_true_iff Hn%Nat.leb_le]. simpl.
    split; [|lia]. constructor; [by apply is_lower_digit_label|]. by apply forallb_Forall in Hm. }
  rewrite length_rev in Hlen.
  split; [|simpl; lia]. constructor; [done|].
  apply Forall_rev in Hall. by rewrite rev_involutive in Hall.
Qed.

Lemma ascii_bytes_inj s t : ascii_bytes s = ascii_bytes t → s = t.
Proof.
  unfold ascii_bytes. intros H.
  rewrite <- (String.string_of_list_ascii_of_string s), <- (String.string_of_list_ascii_of_string t).
  f_equal. revert H. apply list_fmap_eq_inj. intros c d Hc%Nat2Z.inj.
  rewrite <- (ascii_nat_embedding c), <- (ascii_nat_embedding d). by rewrite Hc.
Qed.

Lemma ascii_bytes_length s : length (ascii_bytes s) = length (String.list_ascii_of_string s).
Proof. apply length_fmap. Qed.

(** ** Framing is uniquely decodable *)

Lemma be32_inj n m : (0 ≤ n < 2 ^ 32)%Z → (0 ≤ m < 2 ^ 32)%Z → be32 n = be32 m → n = m.
Proof.
  intros Hn Hm [= H1 H2 H3 H4].
  assert (∀ k, (0 ≤ k < 2 ^ 32)%Z →
    k = ((k / 2 ^ 24) mod 256 * 2 ^ 24 + (k / 2 ^ 16) mod 256 * 2 ^ 16 + (k / 2 ^ 8) mod 256 * 2 ^ 8 + k mod 256)%Z)
    as Hk by (intros k Hk; Z.div_mod_to_equations; lia).
  rewrite (Hk n Hn), (Hk m Hm). lia.
Qed.

Definition short (bytes : list Z) : Prop := (Z.of_nat (length bytes) < 2 ^ 32)%Z.

Lemma framed_length x : length (framed x) = 4 + length x.
Proof. done. Qed.

Lemma framed_app_inj x y r s :
  short x → short y → framed x ++ r = framed y ++ s → x = y ∧ r = s.
Proof.
  unfold short, framed. intros Hx Hy H. rewrite <- !app_assoc in H.
  apply app_inj_1 in H as [Hlen H]; [|done].
  apply be32_inj in Hlen; [|lia..]. apply app_inj_1 in H; [done|lia].
Qed.

Lemma framed_concat_inj xs ys :
  length xs = length ys → Forall short xs → Forall short ys →
  List.concat (framed <$> xs) = List.concat (framed <$> ys) → xs = ys.
Proof.
  revert ys. induction xs as [|x xs IH]; intros [|y ys]; simpl; try done.
  intros [= Hlen] [Hx Hxs]%Forall_cons [Hy Hys]%Forall_cons [-> H]%framed_app_inj; [|done..].
  f_equal. by apply IH.
Qed.

Section key_lemmas.
Context `{HashLibraryLaws}.

Definition scope_ok (names : ScopeNames) : Prop :=
  DNS_LABEL (tenant names) = true ∧ DNS_LABEL (workspace names) = true ∧
  ∀ e, environment names = Some e → DNS_LABEL e = true.

Lemma deriveScopeKey_Returns names k :
  deriveScopeKey names = Returns k ↔ scope_ok names ∧ k = bytesToHex (hash_sha256 (scope_preimage names)).
Proof.
  unfold deriveScopeKey, scope_ok. rewrite seq_Returns, throw_when_Returns, negb_false_iff.
  destruct (environment names) as [e|]; simpl; rewrite ?andb_true_r, ?andb_true_iff; naive_solver.
Qed.

(** Every framed field of an accepted scope. *)
Lemma scope_field_ok names f :
  scope_ok names → f ∈ scope_fields names → is_ascii f ∧ length (ascii_bytes f) ≤ 63.
Proof.
  assert (∀ s, DNS_LABEL s = true → is_ascii s ∧ length (ascii_bytes s) ≤ 63) as Hlabel.
  { intros s [Hs Hlen]%DNS_LABEL_chars. rewrite ascii_bytes_length. split; [|lia].
    eapply Forall_impl; [exact Hs|]. exact is_label_char_ascii. }
  intros (Ht & Hw & He). unfold scope_fields. rewrite !elem_of_cons, elem_of_nil.
  intros [->|[->|[->|[]]]]; [by apply Hlabel..|].
  destruct (environment names) as [e|]; simpl; [by apply Hlabel, He|].
  split; [constructor|vm_compute; lia].
Qed.

Lemma scope_preimage_eq names :
  scope_ok names →
  scope_preimage names =
    framed (ascii_bytes SCOPE_KEY_TAG) ++ framed (List.concat (framed <$> (ascii_bytes <$> scope_fields names))).
Proof.
  intros Hok. unfold scope_preimage. rewrite !concatBytes_concat.
  assert (utf8ToBytes SCOPE_KEY_TAG = ascii_bytes SCOPE_KEY_TAG) as ->.
  { apply utf8ToBytes_ascii. unfold is_ascii.
    apply (Forall_impl (λ c, (nat_of_ascii c <? 128) = true)); [by apply forallb_Forall|].
    intros c. by rewrite Nat.ltb_lt. }
  assert ((λ name, framed (utf8ToBytes name)) <$> scope_fields names = framed <$> (ascii_bytes <$> scope_fields names))
    as ->.
  { rewrite <- list_fmap_compose. apply list_fmap_ext. intros i f Hf. unfold compose. f_equal.
    apply utf8ToBytes_ascii. apply (scope_field_ok names); [done|]. by eapply list_elem_of_lookup_2. }
  generalize (framed (List.concat (framed <$> (ascii_bytes <$> scope_fields names)))). intros l.
  simpl List.concat. by rewrite app_nil_r.
Qed.

Lemma concat_framed_length l :
  Forall (λ x, length x ≤ 63) l → length (List.concat (framed <$> l)) ≤ 67 * length l.
Proof. 
  induction 1 as [|x l Hx _ IH]; [done|]. rewrite fmap_cons, List.concat_cons, length_app, framed_length.
  rewrite length_cons. lia.
Qed.

Lemma scope_fields_inj a b :
  scope_ok a → scope_ok b → scope_fields a = scope_fields b → a = b.
Proof.
  intros (_ & _ & Ha) (_ & _ & Hb). destruct a as [ta wa ea], b as [tb wb eb]. unfold scope_fields; simpl.
  intros [= -> -> He]. f_equal. simpl in Ha, Hb.
  destruct ea as [e|], eb as [e'|]; simpl in He; try done.
  - by subst.
  - subst. specialize (Ha _ eq_refl). done.
  - subst. specialize (Hb _ eq_refl). done.
Qed.

Lemma scope_preimage_inj a b :
  scope_ok a → scope_ok b → scope_preimage a = scope_preimage b → a = b.
Proof.
  intros Ha Hb. rewrite !scope_preimage_eq by done. intros Heq%app_inv_head.
  assert (∀ n, scope_ok n → Forall (λ x, length x ≤ 63) (ascii_bytes <$> scope_fields n)) as Hshort.
  { intros n Hn. apply Forall_fmap, Forall_forall. intros f Hf. simpl. by apply (scope_field_ok n f). }
  assert (∀ n, scope_ok n → short (List.concat (framed <$> (ascii_bytes <$> scope_fields n)))) as Hs.
  { intros n Hn. unfold short. pose proof (concat_framed_length _ (Hshort n Hn)) as Hlen. simpl length at 2 in Hlen. lia. }
  rewrite <- (app_nil_r (framed (List.concat _))) in Heq.
  rewrite <- (app_nil_r (framed (List.concat (framed <$> (ascii_bytes <$> scope_fields b))))) in Heq.
  apply framed_app_inj in Heq as [Heq _]; [|by apply Hs..].
  apply framed_concat_inj in Heq; [|done|..].
  - apply scope_fields_inj; [done..|].
    unfold scope_fields in *. simpl in Heq. injection Heq as H1 H2 H3.
    by rewrite (ascii_bytes_inj _ _ H1), (ascii_bytes_inj _ _ H2), (ascii_bytes_inj _ _ H3).
  - eapply Forall_impl; [by apply Hshort|]. intros x Hx. unfold short. simpl in Hx. lia.
  - eapply Forall_impl; [by apply Hshort|]. intros x Hx. unfold short. simpl in Hx. lia.
Qed.
End key_lemmas.

(** Every accepted scope (labels of the DNS grammar, the environment
    optional) has a key, the hash of its preimage, and two accepted scopes
    share a preimage only when they are the same scope: the framing is
    injective, the absent environment included, so keys collide only if
    SHA-256 does. *)
Theorem scope_key_preimage_injective `{HashLibraryLaws} a b k l :
  deriveScopeKey a = Returns k → deriveScopeKey b = Returns l →
  k = bytesToHex (hash_sha256 (scope_preimage a)) ∧ (scope_preimage a = scope_preimage b ↔ a = b).
Proof.
  intros [Ha ->]%deriveScopeKey_Returns [Hb _]%deriveScopeKey_Returns.
  split; [done|]. split; [by apply scope_preimage_inj|by intros ->].
Qed.

(** ASCII text as its bytes, and a digest that is its input. *)
Definition plain_hash : HashLibrary :=
  {| utf8ToBytes := ascii_bytes; concatBytes := @List.concat Z; hash_sha256 := λ b, b; bytesToHex := λ b, pretty (length b) |}.

Lemma plain_hash_laws : @HashLibraryLaws plain_hash.
Proof. split; done. Qed.

Definition bound_scope : ScopeNames := {| tenant := "acme"; workspace := "intake"; environment := Some "prod" |}.
Definition unbound_scope : ScopeNames := {| tenant := "acme"; workspace := "intake"; environment := None |}.

Lemma scope_key_preimage_injective_witness :
  @deriveScopeKey plain_hash bound_scope = Returns "52" ∧
  @deriveScopeKey plain_hash unbound_scope = Returns "48" ∧
  @scope_preimage plain_hash bound_scope ≠ @scope_preimage plain_hash unbound_scope.
Proof.
  assert (@deriveScopeKey plain_hash bound_scope = Returns "52") as Ha by reflexivity.
  assert (@deriveScopeKey plain_hash unbound_scope = Returns "48") as Hb by reflexivity.
  split; [exact Ha|]. split; [exact Hb|].
  rewrite (proj2 (@scope_key_preimage_injective plain_hash plain_hash_laws _ _ _ _ Ha Hb)). discriminate.
Defined.
