(* ===== verification/DefinitionSource.v ===== *)
(** * Published definitions over HTTP

    src/src/adapters/http/definition-source.ts: one runtime payload per form and
    version, requested once and shared by the calls that read a definition, its
    locales, theme, component, graph context or layout evidence from it.  First
    the documents a payload holds, then the source and its cache of promises. *)

From S2P Require Import Prelude JsValue JsMap Text Async AsyncTokens ResponseAction IdempotencyKey DraftBindings ActionLedger.
From Stdlib Require Import Ascii.

(** [s.toLowerCase()] *)
Class LowerCased := toLowerCase : string → string.

(** ** The documents of a payload *)

(** [v.k], which throws on [undefined] and [null]. *)
Definition member (v : jsv) (k : string) : outcome string jsv :=
  if is_nullish v then Throws "TypeError" else Returns (prop v k).

Definition isFormDefinition (value : jsv) : bool :=
  isRecord value && is_lit (prop value "$formspec") "1.0" && is_string (prop value "url") && is_string (prop value "version")
  && is_string (prop value "title") && is_array (prop value "items").

Definition extractDefinition (payload : jsv) : outcome string jsv :=
  if isFormDefinition payload then Returns payload else
  definition ← member payload "definition";
  if truthy definition && isFormDefinition definition then Returns definition
  else Throws "HTTP DefinitionSource response did not include a FormDefinition".

Definition undefined_or_string (v : jsv) : bool := is_undefined v || is_string v.

Definition isComponentDocument (value : jsv) : bool :=
  isRecord value && is_one_of (prop value "$formspecComponent") ["1.0"; "1.1"; "1.2"] && is_string (prop value "version")
  && isRecord (prop value "tree") && is_string (prop (prop value "tree") "component").

Definition isThemeDocument (value : jsv) : bool :=
  isRecord value && is_string (prop value "$formspecTheme") && is_string (prop value "version").

Definition isComponentGraphProjectionContext (value : jsv) : bool :=
  isRecord value && isRecord (prop value "component") && isRecord (prop value "surface")
  && is_string (prop (prop value "component") "handle") && undefined_or_string (prop (prop value "component") "url")
  && undefined_or_string (prop (prop value "component") "version") && is_string (prop (prop value "surface") "url")
  && undefined_or_string (prop (prop value "surface") "version") && is_string (prop value "route").

Definition isAppGraphValidationReport (value : jsv) : bool :=
  isRecord value && is_boolean (prop value "ok") && isRecord (prop value "summary") && is_array (prop value "schemaResults")
  && is_array (prop value "evidenceResults") && is_array (prop value "diagnostics") && is_array (prop value "phases").

Definition isUiGraphPolicyDocument (value : jsv) : bool :=
  isRecord value && isRecord (prop value "targetSurface") && is_array (prop value "routePolicies")
  && is_lit (prop value "$formspecUiGraphPolicy") "0.1" && is_string (prop value "version")
  && is_string (prop (prop value "targetSurface") "url") && undefined_or_string (prop (prop value "targetSurface") "version")
  && negb (bool_decide (arr_of (prop value "routePolicies") = []))
  && forallb (λ routePolicy, isRecord routePolicy && is_string (prop routePolicy "routeId")) (arr_of (prop value "routePolicies")).

Definition isUiGraphPolicyProjectionEvidence (value : jsv) : bool :=
  isRecord value && is_string (prop value "schemaId") && is_string (prop value "source") && isUiGraphPolicyDocument (prop value "document").

Definition isComponentGraphProjectionEvidence (value : jsv) : bool :=
  isRecord value && is_string (prop value "schemaId") && is_string (prop value "source")
  && isComponentGraphProjectionContext (prop value "document").

(** The first of the values that passes. *)
Definition first_passing (p : jsv → bool) (values : list jsv) : option jsv := List.find p values.
Definition firstComponentDocument : list jsv → option jsv := first_passing isComponentDocument.
Definition firstComponentGraphContext : list jsv → option jsv := first_passing isComponentGraphProjectionContext.
Definition firstAppGraphValidationReport : list jsv → option jsv := first_passing isAppGraphValidationReport.

Definition uiGraphPolicyProjectionEvidenceListFromValue (value : jsv) : option (list jsv) :=
  match value with
  | JArr l => match List.filter isUiGraphPolicyProjectionEvidence l with [] => None | entries => Some entries end
  | _ => None
  end.

Definition componentGraphProjectionEvidenceListFromValue (value : jsv) : option (list jsv) :=
  match value with
  | JArr [] => None
  | JArr l => if forallb isComponentGraphProjectionEvidence l then Some l else None
  | _ => None
  end.

(** The first of the values from which a list is read. *)
Fixpoint first_list (f : jsv → option (list jsv)) (values : list jsv) : option (list jsv) :=
  match values with [] => None | v :: values' => match f v with Some l => Some l | None => first_list f values' end end.

Definition firstUiGraphPolicyProjectionEvidenceList : list jsv → option (list jsv) := first_list uiGraphPolicyProjectionEvidenceListFromValue.
Definition firstComponentGraphProjectionEvidenceList : list jsv → option (list jsv) :=
  first_list componentGraphProjectionEvidenceListFromValue.

(** [!l || l.length === 0] *)
Definition some_entries (l : option (list jsv)) : option (list jsv) := match l with Some [] => None | _ => l end.

Definition layoutHostEvidenceFromParts (report : option jsv) (policies contexts : option (list jsv)) : option jsv :=
  match report, some_entries policies, some_entries contexts with
  | None, None, None => None
  | _, _, _ => Some (JObj (
      match report with Some r => [("appGraphReport", r)] | None => [] end ++
      match some_entries policies with Some l => [("uiGraphPolicies", JArr l)] | None => [] end ++
      match some_entries contexts with Some l => [("componentGraphContexts", JArr l)] | None => [] end))
  end.

Definition evidence_parts (v : jsv) (report policies contexts : list string) : option jsv :=
  layoutHostEvidenceFromParts
    (firstAppGraphValidationReport (map (prop v) report))
    (firstUiGraphPolicyProjectionEvidenceList (map (prop v) policies))
    (firstComponentGraphProjectionEvidenceList (map (prop v) contexts)).

Definition layoutHostEvidenceFromValue (value : jsv) : option jsv :=
  if negb (isRecord value) then None
  else evidence_parts value ["appGraphReport"; "app_graph_report"] ["uiGraphPolicies"; "ui_graph_policies"]
         ["componentGraphContexts"; "component_graph_contexts"].

Fixpoint firstLayoutHostEvidence (values : list jsv) : option jsv :=
  match values with
  | [] => None
  | v :: values' => match layoutHostEvidenceFromValue v with Some e => Some e | None => firstLayoutHostEvidence values' end
  end.

(** A payload that is itself a definition carries nothing beside it; reading the
    members of [undefined] or [null] throws. *)
Definition beside {A} (payload : jsv) (none : A) (found : A) : outcome string A :=
  if isFormDefinition payload then Returns none else if is_nullish payload then Throws "TypeError" else Returns found.

Definition extractThemeDocument (payload : jsv) : outcome string (option jsv) :=
  beside payload None (first_passing isThemeDocument [prop payload "theme_document"]).

Definition extractComponentDocument (payload : jsv) : outcome string (option jsv) :=
  beside payload None (firstComponentDocument [prop payload "component_document"; prop payload "componentDocument"]).

Definition extractComponentGraphContext (payload : jsv) : outcome string (option jsv) :=
  beside payload None (firstComponentGraphContext [prop payload "component_graph"; prop payload "componentGraph"]).

Definition extractLayoutHostEvidence (payload : jsv) : outcome string (option jsv) :=
  beside payload None
    match firstLayoutHostEvidence [prop payload "host_evidence"; prop payload "hostEvidence"] with
    | Some direct => Some direct
    | None => evidence_parts payload ["app_graph_validation_report"; "appGraphValidationReport"] ["ui_graph_policies"; "uiGraphPolicies"]
                ["component_graph_contexts"; "componentGraphContexts"]
    end.

Definition isLocaleDocument (value : jsv) : bool :=
  isRecord value && is_lit (prop value "$formspecLocale") "2.0" && is_string (prop value "version") && is_string (prop value "locale")
  && isRecord (prop value "target") && is_lit (prop (prop value "target") "kind") "definition" && is_string (prop (prop value "target") "url")
  && isRecord (prop value "strings") && forallb is_string ((props_of (prop value "strings")).*2).

Definition localeDocumentsFromValue (value : jsv) : list jsv :=
  match value with
  | JArr l => List.filter isLocaleDocument l
  | JObj o => if isLocaleDocument value then [value] else List.filter isLocaleDocument o.*2
  | _ => []
  end.

Definition nul : ascii := "000"%char.

Section locales.
Context `{!LowerCased}.

(** The key a locale document is listed under once. *)
Definition locale_key (document : jsv) : string :=
  join_with nul [toLowerCase (text_of (prop document "locale"));
    (let url := prop document "url" in if is_nullish url then "" else js_to_string url);
    text_of (prop document "version"); text_of (prop (prop document "target") "kind"); text_of (prop (prop document "target") "url")].

Fixpoint unique_by {A} (key : A → string) (seen : gset string) (l : list A) : list A :=
  match l with
  | [] => []
  | x :: l' => if bool_decide (key x ∈ seen) then unique_by key seen l' else x :: unique_by key ({[key x]} ∪ seen) l'
  end.
Definition uniqueLocaleDocuments (documents : list jsv) : list jsv := unique_by locale_key ∅ documents.

Definition extractLocaleDocuments (payload definition : jsv) : outcome string (list jsv) :=
  beside payload []
    (List.filter (λ document, is_lit (prop (prop document "target") "kind") "definition" &&
                              strict_eq (prop (prop document "target") "url") (prop definition "url"))
      (uniqueLocaleDocuments (localeDocumentsFromValue (prop payload "locales") ++ localeDocumentsFromValue (prop payload "locale_documents")
        ++ localeDocumentsFromValue (prop payload "localeDocuments")))).
End locales.

(** ** The source *)

Record HttpPublishedDefinition : Set := {
  form_id : string; form_version_id : string; definition_url : jsv; definition_version : jsv; definition_hash : string; definition : jsv
}.

Inductive operation : Set :=
  | GetDefinition (url : string) (version : option string)
  | GetPublishedDefinition (url : string) (expectedDefinition : jsv)
  | GetLocaleDocuments (url : string) (version : option string)
  | GetThemeDocument (url : string) (version : option string)
  | GetComponentDocument (url : string) (version : option string)
  | GetComponentGraphContext (url : string) (version : option string)
  | GetLayoutHostEvidence (url : string) (version : option string).

Inductive reply : Set :=
  | OneDocument (document : jsv)
  | Published (published : HttpPublishedDefinition)
  | Documents (documents : list jsv)
  | MaybeDocument (document : option jsv).

(** The promises the source made, by number: the cache key each was made for, and
    how it settled; and those the cache holds. *)
Record source_state : Set := {
  runtimePayloads : gmap string N;
  promises : gmap N (string * option (outcome string jsv));
  next_promise : N
}.

(** The request of the HTTP client, the await of a promise of the cache, the await
    of a digest; and a promise of the caller that settles. *)
Inductive source_call : Type → Type :=
  | RequestJson (path : string) : source_call jsv
  | AwaitPayload (promise : N) : source_call jsv
  | AwaitDigest (value : jsv) : source_call string
  | Settle (op : operation) (result : outcome string reply) : source_call unit.

Abbreviation prog := (async source_state string source_call).

Section source.
Context `{!FormIds, !LowerCased, !Digest, !Canonicalize}.

Definition cache_key (url : string) (version : option string) : string :=
  resolveFormId url version +:+ "@" +:+ default "latest" version.

Definition with_promise (key : string) (c : source_state) : source_state := {|
  runtimePayloads := <[key := next_promise c]> (runtimePayloads c);
  promises := <[next_promise c := (key, None)]> (promises c);
  next_promise := N.succ (next_promise c)
|}.

(** The promise settles; where the request failed, the cache forgets it first. *)
Definition settle_promise (key : string) (p : N) (o : outcome string jsv) (c : source_state) : source_state := {|
  runtimePayloads := match o with Returns _ => runtimePayloads c | Throws _ => delete key (runtimePayloads c) end;
  promises := <[p := (key, Some o)]> (promises c);
  next_promise := next_promise c
|}.

Definition getRuntimePayload (url : string) (version : option string) : prog jsv :=
  c ← get;
  match runtimePayloads c !! cache_key url version with
  | Some cached => invoke (AwaitPayload cached)
  | None =>
      modify (with_promise (cache_key url version)) ;;
      settle (invoke (RequestJson ("/runtime/forms/" +:+ encodeURIComponent (resolveFormId url version)))) (λ o,
        modify (settle_promise (cache_key url version) (next_promise c) o) ;;
        of_outcome o)
  end.

Definition nonblankString (v : jsv) : bool := match v with JStr s => nonempty (trim s) | _ => false end.

Definition published_metadata_ok (formId : string) (payload expected : jsv) : bool :=
  isRecord payload && negb (isFormDefinition payload) && nonblankString (prop payload "form_id") && nonblankString (prop payload "form_version_id")
  && is_lit (prop payload "form_id") formId && strict_eq (prop payload "definition_url") (prop expected "url")
  && strict_eq (prop payload "definition_version") (prop expected "version") && is_sha256 (prop payload "definition_hash")
  && isFormDefinition (prop payload "definition").

Definition published_content_ok (definition expected : jsv) : bool :=
  strict_eq (prop definition "url") (prop expected "url") && strict_eq (prop definition "version") (prop expected "version")
  && bool_decide (canonicalize definition = canonicalize expected).

Definition getPublishedDefinition (url : string) (expected : jsv) : prog HttpPublishedDefinition :=
  payload ← getRuntimePayload url None;
  refuse_when (negb (published_metadata_ok (resolveFormId url None) payload expected))
    "HTTP published Definition metadata does not match the expected publication" ;;
  let definition := prop payload "definition" in
  refuse_when (negb (published_content_ok definition expected))
    "HTTP published Definition content does not match its pins and hash" ;;
  digest ← invoke (AwaitDigest definition);
  refuse_when (negb (is_lit (prop payload "definition_hash") digest))
    "HTTP published Definition content does not match its pins and hash" ;;
  mret {| form_id := text_of (prop payload "form_id"); form_version_id := text_of (prop payload "form_version_id");
          definition_url := prop expected "url"; definition_version := prop expected "version";
          definition_hash := text_of (prop payload "definition_hash"); DefinitionSource.definition := definition |}.

Definition perform (op : operation) : prog reply :=
  match op with
  | GetDefinition url version => payload ← getRuntimePayload url version; OneDocument <$> of_outcome (extractDefinition payload)
  | GetPublishedDefinition url expected => Published <$> getPublishedDefinition url expected
  | GetLocaleDocuments url version =>
      payload ← getRuntimePayload url version;
      definition ← of_outcome (extractDefinition payload);
      Documents <$> of_outcome (extractLocaleDocuments payload definition)
  | GetThemeDocument url version => payload ← getRuntimePayload url version; MaybeDocument <$> of_outcome (extractThemeDocument payload)
  | GetComponentDocument url version => payload ← getRuntimePayload url version; MaybeDocument <$> of_outcome (extractComponentDocument payload)
  | GetComponentGraphContext url version =>
      payload ← getRuntimePayload url version; MaybeDocument <$> of_outcome (extractComponentGraphContext payload)
  | GetLayoutHostEvidence url version =>
      payload ← getRuntimePayload url version; MaybeDocument <$> of_outcome (extractLayoutHostEvidence payload)
  end.

(** An operation, up to its caller's promise. *)
Definition operate (op : operation) : prog unit := settle (perform op) (λ o, invoke (Settle op o)).
End source.

(** * What published definitions callers get

    However calls of the source interleave, a cache key has one request under way
    or one payload, and every call that succeeds is answered from the payload of
    its key, by a document that is what its name says. *)

(** ** What the replies are *)

Section replies.
Context `{!FormIds, !LowerCased, !Digest, !Canonicalize}.

(** The locale documents that a payload lists, in its order. *)
Definition listed_locales (payload : jsv) : list jsv :=
  localeDocumentsFromValue (prop payload "locales") ++ localeDocumentsFromValue (prop payload "locale_documents")
  ++ localeDocumentsFromValue (prop payload "localeDocuments").

(** The payload itself where it is a definition, else its member. *)
Definition definition_of (payload d : jsv) : Prop :=
  isFormDefinition d = true ∧ d = if isFormDefinition payload then payload else prop payload "definition".

Definition targets (d document : jsv) : Prop := prop (prop document "target") "url" = prop d "url".

(** The document listed at a place is the first with its key. *)
Definition first_listed (payload : jsv) (i : nat) (x : jsv) : Prop :=
  listed_locales payload !! i = Some x ∧ ∀ j y, j < i → listed_locales payload !! j = Some y → locale_key y ≠ locale_key x.

(** In the order of the list, the documents that are the first with their key and for
    the definition. *)
Record locales_of (payload d : jsv) (documents : list jsv) : Prop := {
  locales_first : ∃ places, StronglySorted lt places ∧ Forall2 (λ i x, listed_locales payload !! i = Some x) places documents ∧
    ∀ i, i ∈ places ↔ ∃ x, first_listed payload i x ∧ targets d x;
  locales_valid : Forall (λ x, isLocaleDocument x = true) documents
}.

Record published_from (url : string) (expected payload : jsv) (r : HttpPublishedDefinition) : Prop := {
  published_form : form_id r = resolveFormId url None;
  published_named : prop payload "form_id" = JStr (form_id r) ∧ prop payload "form_version_id" = JStr (form_version_id r) ∧
    prop payload "definition_hash" = JStr (definition_hash r);
  published_content : canonicalize (definition r) = canonicalize expected;
  published_definition : definition r = prop payload "definition" ∧ isFormDefinition (definition r) = true;
  published_pins : prop (definition r) "url" = prop expected "url" ∧ prop (definition r) "version" = prop expected "version" ∧
    definition_url r = prop expected "url" ∧ definition_version r = prop expected "version" ∧
    prop payload "definition_url" = prop expected "url" ∧ prop payload "definition_version" = prop expected "version";
  published_digest : computeJcsSha256Digest (definition r) = Returns (definition_hash r)
}.

(** What the first of the values gives that gives anything. *)
Definition first_given {A} (R : jsv → A → Prop) (values : list jsv) (r : option A) : Prop :=
  match r with
  | Some x => ∃ i v, values !! i = Some v ∧ R v x ∧ ∀ j w y, j < i → values !! j = Some w → ¬ R w y
  | None => ∀ v y, v ∈ values → ¬ R v y
  end.
Definition members (v : jsv) (names : list string) : list jsv := map (prop v) names.

(** A value that passes, and lists of what passes: of the policies those that do, of
    the contexts only all. *)
Definition passing (p : jsv → bool) (v x : jsv) : Prop := p v = true ∧ x = v.
Definition policy_list (v : jsv) (l : list jsv) : Prop :=
  l ≠ [] ∧ ∃ l0, v = JArr l0 ∧ l = List.filter isUiGraphPolicyProjectionEvidence l0.
Definition context_list (v : jsv) (l : list jsv) : Prop :=
  l ≠ [] ∧ v = JArr l ∧ Forall (λ x, isComponentGraphProjectionEvidence x = true) l.

(** What a payload carries beside a definition: nothing, where it is itself one. *)
Definition carried (p : jsv → bool) (payload : jsv) (names : list string) (r : option jsv) : Prop :=
  if isFormDefinition payload then r = None else first_given (passing p) (members payload names) r.

(** Evidence of three parts, each under the first of its names; of none, no evidence. *)
Definition entry {A} (name : string) (json : A → jsv) (v : option A) : jsobj := match v with Some x => [(name, json x)] | None => [] end.
Definition evidence_members (v : jsv) (report policies contexts : list string) (r : option jsv) : Prop := ∃ x y z,
  first_given (passing isAppGraphValidationReport) (members v report) x ∧
  first_given policy_list (members v policies) y ∧ first_given context_list (members v contexts) z ∧
  r = match entry "appGraphReport" id x ++ entry "uiGraphPolicies" JArr y ++ entry "componentGraphContexts" JArr z with
      | [] => None | o => Some (JObj o) end.
Definition evidence_record (v x : jsv) : Prop := isRecord v = true ∧
  evidence_members v ["appGraphReport"; "app_graph_report"] ["uiGraphPolicies"; "ui_graph_policies"]
    ["componentGraphContexts"; "component_graph_contexts"] (Some x).

(** The evidence record of a payload comes before parts of its own. *)
Definition layout_evidence (payload : jsv) (r : option jsv) : Prop :=
  if isFormDefinition payload then r = None else
  ∃ direct, first_given evidence_record (members payload ["host_evidence"; "hostEvidence"]) direct ∧
    match direct with
    | Some x => r = Some x
    | None => evidence_members payload ["app_graph_validation_report"; "appGraphValidationReport"] ["ui_graph_policies"; "uiGraphPolicies"]
                ["component_graph_contexts"; "componentGraphContexts"] r
    end.

(** What the payload of its key makes of an operation. *)
Inductive described (payload : jsv) : operation → reply → Prop :=
  | described_definition url version d : definition_of payload d → described payload (GetDefinition url version) (OneDocument d)
  | described_published url expected r : published_from url expected payload r →
      described payload (GetPublishedDefinition url expected) (Published r)
  | described_no_locales url version : isFormDefinition payload = true → described payload (GetLocaleDocuments url version) (Documents [])
  | described_locales url version d l : isFormDefinition payload = false → definition_of payload d → locales_of payload d l →
      described payload (GetLocaleDocuments url version) (Documents l)
  | described_theme url version r : carried isThemeDocument payload ["theme_document"] r →
      described payload (GetThemeDocument url version) (MaybeDocument r)
  | described_component url version r : carried isComponentDocument payload ["component_document"; "componentDocument"] r →
      described payload (GetComponentDocument url version) (MaybeDocument r)
  | described_graph url version r : carried isComponentGraphProjectionContext payload ["component_graph"; "componentGraph"] r →
      described payload (GetComponentGraphContext url version) (MaybeDocument r)
  | described_evidence url version r : layout_evidence payload r → described payload (GetLayoutHostEvidence url version) (MaybeDocument r).

(** ** The documents are what they should be *)

Lemma extractDefinition_spec payload d : extractDefinition payload = Returns d → definition_of payload d.
Proof.
  unfold extractDefinition, member. destruct (isFormDefinition payload) eqn:E; [intros [= <-]; unfold definition_of; by rewrite E|].
  destruct (is_nullish payload); [done|]. simpl. destruct (truthy _ && isFormDefinition (prop payload "definition")) eqn:E2; [|done].
  apply andb_true_iff in E2 as [_ E2]. intros [= <-]. unfold definition_of. by rewrite E.
Qed.

(** The places, in a list, of what a filter keeps of the first elements of their keys. *)
Lemma unique_by_places {A} (key : A → string) (t : A → bool) l seen : ∃ places, StronglySorted lt places ∧
  Forall2 (λ i x, l !! i = Some x) places (List.filter t (unique_by key seen l)) ∧
  ∀ i, i ∈ places ↔ ∃ x, l !! i = Some x ∧ key x ∉ seen ∧ (∀ j y, j < i → l !! j = Some y → key y ≠ key x) ∧ t x = true.
Proof.
  revert seen. induction l as [|z l IH]; intros seen.
  { exists []. split; [constructor|]. split; [constructor|]. intros i. split; [by intros ?%elem_of_nil|by intros (x & ? & _)]. }
  assert (∀ (P : nat → Prop) ps, StronglySorted lt ps → (∀ i, i ∈ ps ↔ P i) →
    StronglySorted lt (S <$> ps) ∧ ∀ i, i ∈ S <$> ps ↔ ∃ j, i = S j ∧ P j) as Hshift.
  { intros P ps Hs Hp. split.
    - clear Hp. induction Hs as [|i ps Hs IHs Hf]; [constructor|]. simpl. constructor; [done|]. apply Forall_fmap.
      eapply Forall_impl; [exact Hf|]. simpl. lia.
    - intros i. rewrite list_elem_of_fmap. split; intros (j & -> & Hj); exists j; (split; [done|]); by apply Hp. }
  assert (∀ (b : bool) seen', (∀ x, key x ∉ seen' ↔ key x ∉ seen ∧ key z ≠ key x) →
    (b = true ↔ key z ∉ seen ∧ t z = true) → ∃ places, StronglySorted lt places ∧
    Forall2 (λ i x, (z :: l) !! i = Some x) places ((if b then [z] else []) ++ List.filter t (unique_by key seen' l)) ∧
    ∀ i, i ∈ places ↔ ∃ x, (z :: l) !! i = Some x ∧ key x ∉ seen ∧ (∀ j y, j < i → (z :: l) !! j = Some y → key y ≠ key x) ∧ t x = true) as Hcons.
  { intros b seen' Hseen Hb. destruct (IH seen') as (ps & Hs & Hl & Hp). destruct (Hshift _ ps Hs Hp) as [Hs' Hp'].
    exists ((if b then [0] else []) ++ (S <$> ps)). split; [|split].
    - destruct b; [|done]. constructor; [done|]. apply Forall_fmap, Forall_true. simpl. lia.
    - apply Forall2_app; [by destruct b; repeat constructor|]. apply Forall2_fmap_l. exact Hl.
    - intros i. rewrite elem_of_app, Hp'. split.
      + intros [Hi|(j & -> & x & Hx & Hk & Hj & Ht)].
        * destruct b; [|by apply elem_of_nil in Hi]. apply list_elem_of_singleton in Hi as ->. destruct (proj1 Hb eq_refl) as [? ?].
          exists z. split; [done|]. split; [done|]. split; [lia|done].
        * apply Hseen in Hk as [Hk Hz]. exists x. split; [done|]. split; [done|]. split; [|done]. intros [|j'] y Hj'; [by intros [= <-]|].
          apply Hj. lia.
      + intros (x & Hx & Hk & Hj & Ht). destruct i as [|i].
        * injection Hx as ->. left. rewrite (proj2 Hb) by done. left.
        * right. exists i. split; [done|]. exists x. split; [done|]. split; [|split; [|done]].
          -- apply Hseen. split; [done|]. apply (Hj 0); [lia|done].
          -- intros j y Hlt. apply (Hj (S j)). lia. }
  simpl. case_bool_decide as Hz.
  - apply (Hcons false seen); [|by split; [|intros [? _]]]. intros x. split; [|by intros [? _]]. intros Hx. split; [done|]. by intros E; rewrite E in Hz.
  - destruct (t z) eqn:Et.
    + cbn [List.filter]. rewrite Et. apply (Hcons true); [set_solver|done].
    + cbn [List.filter]. rewrite Et. apply (Hcons false); [set_solver|]. split; [done|by intros [_ ?]].
Qed.

Lemma listed_valid payload : Forall (λ x, isLocaleDocument x = true) (listed_locales payload).
Proof.
  assert (∀ v, Forall (λ x, isLocaleDocument x = true) (localeDocumentsFromValue v)) as Hv.
  { intros v. apply Forall_forall. intros x. unfold localeDocumentsFromValue. destruct v as [| | | | |l|o]; try by intros ?%elem_of_nil.
    - rewrite list_elem_of_In, filter_In. tauto.
    - destruct (isLocaleDocument (JObj o)) eqn:E; [by intros ->%list_elem_of_singleton|]. rewrite list_elem_of_In, filter_In. tauto. }
  unfold listed_locales. rewrite !Forall_app. auto.
Qed.

Lemma strict_eq_str v s : strict_eq v (JStr s) = true → v = JStr s.
Proof. destruct v; simpl; try done. by intros ->%String.eqb_eq. Qed.

Lemma is_string_str v : is_string v = true → ∃ s, v = JStr s.
Proof. destruct v; try done. by eexists. Qed.

Lemma definition_strings d : isFormDefinition d = true → (∃ u, prop d "url" = JStr u) ∧ ∃ w, prop d "version" = JStr w.
Proof. unfold isFormDefinition. rewrite !andb_true_iff. intros [[[[_ Hu] Hw] _] _]. split; by apply is_string_str. Qed.

Lemma extractLocaleDocuments_spec payload d l : isFormDefinition payload = false → definition_of payload d →
  extractLocaleDocuments payload d = Returns l → locales_of payload d l.
Proof.
  intros Hp [Hd _]. unfold extractLocaleDocuments, beside. rewrite Hp. destruct (is_nullish payload); [done|]. intros [= <-].
  fold (listed_locales payload). destruct (definition_strings d Hd) as [(u & Hu) _].
  pose proof (listed_valid payload) as Hval. rewrite Forall_forall in Hval. unfold uniqueLocaleDocuments.
  set (t := λ document, _). assert (∀ i x, listed_locales payload !! i = Some x → t x = true ↔ targets d x) as Ht.
  { intros i x Hx%list_elem_of_lookup_2%Hval. unfold t, targets. unfold isLocaleDocument in Hx. rewrite !andb_true_iff in Hx.
    destruct Hx as [[[[_ Hk] _] _] _]. rewrite Hk, Hu. simpl.
    split; [apply strict_eq_str|]. intros ->. simpl. apply String.eqb_refl. }
  destruct (unique_by_places locale_key t (listed_locales payload) ∅) as (places & Hs & Hl & Hi). constructor.
  - exists places. split; [done|]. split; [done|]. intros i. rewrite Hi. split.
    + intros (x & Hx & _ & Hf & Htx). exists x. split; [done|]. by apply (Ht i).
    + intros (x & [Hx Hf] & Htx). exists x. split; [done|]. split; [set_solver|]. split; [done|]. by apply (Ht i).
  - apply Forall_forall. intros x Hx. apply Hval. apply list_elem_of_lookup in Hx as [k Hk].
    destruct (Forall2_lookup_r _ _ _ _ _ Hl Hk) as (i & _ & Hx). by eapply list_elem_of_lookup_2.
Qed.

(** The first value from which a function reads anything. *)
Lemma first_given_exact {A} (R : jsv → A → Prop) (f : jsv → option A) (first : list jsv → option A) :
  (∀ v x, f v = Some x ↔ R v x) → first [] = None → (∀ v l, first (v :: l) = match f v with Some x => Some x | None => first l end) →
  ∀ values r, first_given R values r ↔ r = first values.
Proof.
  intros Hf Hnil Hcons values. assert (first_given R values (first values)) as Hfirst.
  { induction values as [|v values IH]; [rewrite Hnil; by intros v y ?%elem_of_nil|]. rewrite Hcons. destruct (f v) as [x|] eqn:E.
    - exists 0, v. split; [done|]. split; [by apply Hf|]. lia.
    - assert (∀ y, ¬ R v y) as Hv by (intros y Hy%Hf; congruence). destruct (first values) as [x|]; simpl in *.
      + destruct IH as (i & w & Hw & Hx & Hj). exists (S i), w. split; [done|]. split; [done|].
        intros [|j] w' y Hlt; [by intros [= <-]|]. apply Hj. lia.
      + intros w y [->|Hw]%elem_of_cons; [apply Hv|by apply IH]. }
  intros r. split; [|by intros ->]. destruct r as [x|], (first values) as [y|]; simpl in *; [| | |done].
  - intros (i & v & Hv & Hx & Hi). destruct Hfirst as (j & w & Hw & Hy & Hj). f_equal.
    destruct (Nat.lt_trichotomy i j) as [Hlt|[->|Hlt]]; [by destruct (Hj i v x Hlt Hv)| |by destruct (Hi j w y Hlt Hw)].
    assert (v = w) as -> by congruence. apply Hf in Hx, Hy. congruence.
  - intros (i & v & Hv & Hx & _). exfalso. eapply Hfirst; [by eapply list_elem_of_lookup_2|exact Hx].
  - intros Hn. exfalso. destruct Hfirst as (j & w & Hw & Hy & _). eapply Hn; [by eapply list_elem_of_lookup_2|exact Hy].
Qed.

Lemma passing_exact p values r : first_given (passing p) values r ↔ r = first_passing p values.
Proof.
  revert values r. apply (first_given_exact _ (λ v, if p v then Some v else None)); [|done|].
  - intros v x. unfold passing. destruct (p v); split; try done; [by intros [= ->]|by intros [_ ->]|by intros [? _]].
  - intros v l. simpl. by destruct (p v).
Qed.

Lemma policy_list_exact v l : uiGraphPolicyProjectionEvidenceListFromValue v = Some l ↔ policy_list v l.
Proof.
  unfold policy_list. destruct v as [| | | | |l0|]; try (split; [done|by intros (_ & ? & ? & _)]). simpl. split.
  - destruct (List.filter _ l0) as [|x l'] eqn:E; [done|]. intros [= <-]. split; [done|]. by exists l0.
  - intros (Hn & l1 & [= <-] & ->). by destruct (List.filter _ l0).
Qed.

Lemma context_list_exact v l : componentGraphProjectionEvidenceListFromValue v = Some l ↔ context_list v l.
Proof.
  unfold context_list. destruct v as [| | | | |l0|]; try (split; [done|by intros (_ & ? & _)]).
  assert (∀ l, forallb isComponentGraphProjectionEvidence l = true ↔ Forall (λ x, isComponentGraphProjectionEvidence x = true) l) as Hall.
  { intros l1. rewrite forallb_forall, Forall_forall. by setoid_rewrite list_elem_of_In. }
  destruct l0 as [|x l0].
  - split; [done|]. by intros (? & [= <-] & _).
  - unfold componentGraphProjectionEvidenceListFromValue. specialize (Hall (x :: l0)). destruct (forallb _ _).
    + split; [intros [= <-]; split_and!; try done; by apply Hall|by intros (_ & [= ->] & _)].
    + split; [done|]. intros (_ & [= <-] & Hf%Hall). done.
Qed.

Lemma first_lists_exact (R : jsv → list jsv → Prop) f : (∀ v l, f v = Some l ↔ R v l) → ∀ values r, first_given R values r ↔ r = first_list f values.
Proof. intros Hf. by apply (first_given_exact R f). Qed.

Lemma evidence_members_exact v a b c r : evidence_members v a b c r ↔ r = evidence_parts v a b c.
Proof.
  unfold evidence_members, evidence_parts, members. setoid_rewrite passing_exact.
  setoid_rewrite (first_lists_exact policy_list _ policy_list_exact). setoid_rewrite (first_lists_exact context_list _ context_list_exact).
  change (first_passing isAppGraphValidationReport) with firstAppGraphValidationReport.
  fold firstUiGraphPolicyProjectionEvidenceList firstComponentGraphProjectionEvidenceList.
  set (x := firstAppGraphValidationReport _). set (y := firstUiGraphPolicyProjectionEvidenceList _).
  set (z := firstComponentGraphProjectionEvidenceList _).
  assert (∀ (l : list jsv) R f values, (∀ v l, f v = Some l ↔ R v l) → (∀ v, ¬ R v []) → first_list f values = Some l → l ≠ []) as Hne.
  { intros l R f values Hf Hn. induction values as [|w values IH]; simpl; [done|]. destruct (f w) eqn:E; [|done]. intros [= <-] ->.
    apply Hf in E. by eapply Hn. }
  assert (some_entries y = y) as Ey.
  { destruct y as [[|]|] eqn:E; try done. by destruct (Hne _ policy_list _ _ policy_list_exact ltac:(intros w [? _]; done) E). }
  assert (some_entries z = z) as Ez.
  { destruct z as [[|]|] eqn:E; try done. by destruct (Hne _ context_list _ _ context_list_exact ltac:(intros w [? _]; done) E). }
  unfold layoutHostEvidenceFromParts. rewrite Ey, Ez. split.
  - intros (x' & y' & z' & -> & -> & -> & ->). by destruct x, y, z.
  - intros ->. exists x, y, z. split_and!; try done. by destruct x, y, z.
Qed.

Lemma evidence_record_exact v x : layoutHostEvidenceFromValue v = Some x ↔ evidence_record v x.
Proof.
  unfold evidence_record. rewrite evidence_members_exact. unfold layoutHostEvidenceFromValue. destruct (isRecord v); cbn [negb]; [naive_solver|].
  split; [done|by intros [? _]].
Qed.

Lemma beside_spec {A} payload (none found r : A) : beside payload none found = Returns r →
  (isFormDefinition payload = true ∧ r = none) ∨ (isFormDefinition payload = false ∧ r = found).
Proof.
  unfold beside. destruct (isFormDefinition payload); [intros [= <-]; by left|]. destruct (is_nullish payload); [done|]. intros [= <-]. by right.
Qed.

Lemma beside_carried p payload names r : beside payload None (first_passing p (members payload names)) = Returns r → carried p payload names r.
Proof. unfold carried. intros [[-> ->]|[-> ->]]%beside_spec; [done|]. by apply passing_exact. Qed.

Lemma layout_evidence_spec payload r : extractLayoutHostEvidence payload = Returns r → layout_evidence payload r.
Proof.
  unfold layout_evidence. intros [[-> ->]|[-> ->]]%beside_spec; [done|]. exists (firstLayoutHostEvidence (members payload ["host_evidence"; "hostEvidence"])).
  split; [by apply (first_given_exact evidence_record layoutHostEvidenceFromValue firstLayoutHostEvidence evidence_record_exact)|].
  unfold members. simpl map. destruct (firstLayoutHostEvidence _); [done|]. by apply evidence_members_exact.
Qed.

(** [perform] without its awaits. *)
Definition extract (op : operation) (payload : jsv) : outcome string reply :=
  match op with
  | GetDefinition _ _ => OneDocument <$> extractDefinition payload
  | GetPublishedDefinition url expected =>
      let d := prop payload "definition" in
      if negb (published_metadata_ok (resolveFormId url None) payload expected) then
        Throws "HTTP published Definition metadata does not match the expected publication"
      else if negb (published_content_ok d expected) then Throws "HTTP published Definition content does not match its pins and hash"
      else digest ← computeJcsSha256Digest d;
        if negb (is_lit (prop payload "definition_hash") digest) then Throws "HTTP published Definition content does not match its pins and hash"
        else Returns (Published {| form_id := text_of (prop payload "form_id"); form_version_id := text_of (prop payload "form_version_id");
          definition_url := prop expected "url"; definition_version := prop expected "version";
          definition_hash := text_of (prop payload "definition_hash"); DefinitionSource.definition := d |})
  | GetLocaleDocuments _ _ => d ← extractDefinition payload; Documents <$> extractLocaleDocuments payload d
  | GetThemeDocument _ _ => MaybeDocument <$> extractThemeDocument payload
  | GetComponentDocument _ _ => MaybeDocument <$> extractComponentDocument payload
  | GetComponentGraphContext _ _ => MaybeDocument <$> extractComponentGraphContext payload
  | GetLayoutHostEvidence _ _ => MaybeDocument <$> extractLayoutHostEvidence payload
  end.

Lemma mapped_Returns {A B} (f : A → B) (m : outcome string A) b : f <$> m = Returns b → ∃ a, m = Returns a ∧ b = f a.
Proof. destruct m; [intros [= <-]; by eexists|done]. Qed.

Lemma published_spec url expected payload r :
  extract (GetPublishedDefinition url expected) payload = Returns (Published r) → published_from url expected payload r.
Proof.
  unfold extract. destruct (published_metadata_ok _ _ _) eqn:Em; [|done]. destruct (published_content_ok _ _) eqn:Ec; [|done]. cbn [negb].
  intros (digest & Hd & Hx)%bind_Returns. destruct (is_lit (prop payload "definition_hash") digest) eqn:Eh; [|done]. injection Hx as <-.
  unfold published_metadata_ok in Em. rewrite !andb_true_iff in Em. destruct Em as [[[[[[[[_ _] Hfi] Hfv] Hf] Hdu] Hdv] Hhash] Hdef].
  unfold published_content_ok in Ec. rewrite !andb_true_iff, bool_decide_eq_true in Ec. destruct Ec as [[Hu Hv] Hc].
  assert (∀ v s, is_lit v s = true → text_of v = s) as Hlit by (intros [] t; simpl; try done; by intros ->%String.eqb_eq).
  destruct (definition_strings _ Hdef) as [(u & Eu) (w & Ew)]. rewrite Eu in Hu. rewrite Ew in Hv.
  constructor; simpl; [by apply Hlit| |done|done| |by rewrite (Hlit _ _ Eh)].
  { assert (∀ v, nonblankString v = true ∨ is_sha256 v = true → v = JStr (text_of v)) as Ht by (by intros [] [?|?]). split_and!; apply Ht; auto. }
  assert (∀ s v, strict_eq (JStr s) v = true → JStr s = v) as Hs by (intros t []; simpl; try done; by intros ->%String.eqb_eq).
  apply Hs in Hu, Hv. rewrite <- Hu in Hdu |- *. rewrite <- Hv in Hdv |- *. apply strict_eq_str in Hdu, Hdv. rewrite Eu, Ew. done.
Qed.

Lemma extract_described op payload r : extract op payload = Returns r → described payload op r.
Proof.
  destruct op as [url v|url expected|url v|url v|url v|url v|url v]; intros Hx.
  - apply mapped_Returns in Hx as (d & Hd & ->). constructor. by apply extractDefinition_spec.
  - destruct r as [|r| |]; try (exfalso; revert Hx; unfold extract; repeat case_match; try done; intros (? & _ & E)%bind_Returns; by repeat case_match).
    constructor. by apply published_spec.
  - apply bind_Returns in Hx as (d & Hd & (l & Hl & ->)%mapped_Returns). destruct (isFormDefinition payload) eqn:E.
    + unfold extractLocaleDocuments, beside in Hl. rewrite E in Hl. injection Hl as <-. by constructor.
    + apply extractDefinition_spec in Hd. econstructor; [done|exact Hd|]. by apply extractLocaleDocuments_spec.
  - apply mapped_Returns in Hx as (x & Hy & ->). constructor. by apply beside_carried.
  - apply mapped_Returns in Hx as (x & Hy & ->). constructor. by apply beside_carried.
  - apply mapped_Returns in Hx as (x & Hy & ->). constructor. by apply beside_carried.
  - apply mapped_Returns in Hx as (x & Hy & ->). constructor. by apply layout_evidence_spec.
Qed.
End replies.

(** ** The cache *)

Inductive source_event : Type := Requested (path : string) | Settled (op : operation) (result : outcome string reply).

Section cache.
Context `{!FormIds, !LowerCased, !Digest, !Canonicalize}.

Definition source_yields (X : Type) (q : source_call X) : bool := match q with Settle _ _ => false | _ => true end.

(** A promise of the cache gives what it settled to; a request gives anything. *)
Definition source_answers (X : Type) (q : source_call X) : outcome string X → source_state → Prop :=
  match q in source_call X return outcome string X → source_state → Prop with
  | RequestJson _ => λ _ _, True
  | AwaitPayload p => λ a c, ∃ key, promises c !! p = Some (key, Some a)
  | AwaitDigest v => λ a _, a = computeJcsSha256Digest v
  | Settle _ _ => λ a _, a = Returns ()
  end.

Definition source_observe (X : Type) (q : source_call X) (_ : source_state) : list source_event :=
  match q with RequestJson path => [Requested path] | Settle op r => [Settled op r] | _ => [] end.

Definition key_of (op : operation) : string :=
  match op with
  | GetPublishedDefinition url _ => cache_key url None
  | GetDefinition url v | GetLocaleDocuments url v | GetThemeDocument url v | GetComponentDocument url v | GetComponentGraphContext url v
  | GetLayoutHostEvidence url v => cache_key url v
  end.

(** A promise under way, or fulfilled. *)
Definition live (s : option (outcome string jsv)) : Prop := s = None ∨ ∃ v, s = Some (Returns v).

Record source_inv (c : source_state) : Prop := {
  si_fresh p x : promises c !! p = Some x → (p < next_promise c)%N;
  si_cached key p : runtimePayloads c !! key = Some p → ∃ s, promises c !! p = Some (key, s) ∧ live s;
  si_only p key s : promises c !! p = Some (key, s) → live s → runtimePayloads c !! key = Some p
}.

Definition source_mono (c c' : source_state) : Prop :=
  ∀ p key s, promises c !! p = Some (key, s) → ∃ s', promises c' !! p = Some (key, s') ∧ ∀ o, s = Some o → s' = Some o.

(** The payload of a key, once it is there. *)
Definition payload_of (c : source_state) (key : string) : option jsv :=
  p ← runtimePayloads c !! key;
  match promises c !! p with Some (_, Some (Returns v)) => Some v | _ => None end.

(** A promise for the key was fulfilled with the payload. *)
Definition paid (c : source_state) (key : string) (v : jsv) : Prop := ∃ p, promises c !! p = Some (key, Some (Returns v)).

(** The thread that made a promise holds it until it settles. *)
Definition source_conditions : token_conditions source_state N source_call := {|
  tinv := source_inv;
  tmono := source_mono;
  tlocked := λ p c, match promises c !! p with Some (_, None) => true | _ => false end;
  theld := λ p c c', promises c !! p = promises c' !! p;
  tissue := λ X q h c, match q with
    | Settle op (Returns r) => ∃ v, paid c (key_of op) v ∧ extract op v = Returns r
    | _ => True
    end
|}.

#[local] Instance source_mono_preorder : PreOrder source_mono.
Proof.
  split.
  - intros c p key s Hp. by exists s.
  - intros c1 c2 c3 H12 H23 p key s Hp. destruct (H12 p key s Hp) as (s2 & Hp2 & Hs2). destruct (H23 p key s2 Hp2) as (s3 & Hp3 & Hs3).
    exists s3. split; [done|]. intros o Ho. by apply Hs3, Hs2.
Qed.

Lemma source_conditions_ok : token_conditions_ok source_conditions.
Proof. split; [apply _|]. intros p. split; [done|]. intros c1 c2 c3. simpl. congruence. Qed.


Lemma paid_mono c c' key v : source_mono c c' → paid c key v → paid c' key v.
Proof. intros Hm (p & Hp). destruct (Hm _ _ _ Hp) as (s & Hs & Ho). exists p. by rewrite Hs, (Ho _ eq_refl). Qed.

Lemma paid_payload c key v : source_inv c → paid c key v → payload_of c key = Some v.
Proof.
  intros Hi (p & Hp). unfold payload_of. rewrite (si_only c Hi p key _ Hp) by (right; by eexists). simpl. by rewrite Hp.
Qed.

Abbreviation stok := (tok source_yields source_answers source_conditions).

Lemma with_promise_guarantee key c : source_inv c → runtimePayloads c !! key = None →
  tguarantee source_conditions None (Some (next_promise c)) c (with_promise key c).
Proof.
  intros [Hf Hc Ho] Hk. assert (promises c !! next_promise c = None) as Hn.
  { destruct (promises c !! next_promise c) eqn:E; [|done]. apply Hf in E. lia. }
  split; [|split]; simpl.
  - split; simpl.
    + intros p x. destruct (decide (p = next_promise c)) as [->|Hp]; [lia|]. rewrite lookup_insert_ne by done. intros E%Hf. lia.
    + intros k p. destruct (decide (k = key)) as [->|Hne].
      * rewrite lookup_insert_eq. intros [= <-]. exists None. rewrite lookup_insert_eq. split; [done|by left].
      * rewrite lookup_insert_ne by done. intros Hp. destruct (Hc k p Hp) as (s & Hs & Hl). exists s. split; [|done].
        rewrite lookup_insert_ne; [done|]. intros <-. congruence.
    + intros p k s. destruct (decide (p = next_promise c)) as [->|Hp].
      * rewrite lookup_insert_eq. intros [= <- <-] _. by rewrite lookup_insert_eq.
      * rewrite lookup_insert_ne by done. intros Hs Hl. pose proof (Ho p k s Hs Hl) as Hr.
        rewrite lookup_insert_ne; [done|]. intros ->. congruence.
  - intros p k s Hp. exists s. split; [|auto]. simpl. rewrite lookup_insert_ne; [done|]. intros <-. congruence.
  - intros p. unfold token_moves. destruct (decide (Some (next_promise c) = Some p)) as [[= <-]|Hp]; simpl.
    + rewrite lookup_insert_eq, Hn. done.
    + rewrite !lookup_insert_ne by congruence. done.
Qed.

Lemma settle_promise_guarantee key p o c : source_inv c → promises c !! p = Some (key, None) →
  tguarantee source_conditions (Some p) None c (settle_promise key p o c).
Proof.
  intros [Hf Hc Ho] Hp. pose proof (Ho p key None Hp (or_introl eq_refl)) as Hr.
  split; [|split]; simpl.
  - split; simpl.
    + intros q x. destruct (decide (q = p)) as [->|Hq]; [intros _; by eapply Hf|]. rewrite lookup_insert_ne by done. apply Hf.
    + intros k q Hq. assert (runtimePayloads c !! k = Some q ∧ (k = key → ∃ v, o = Returns v)) as [Hk Hv].
      { destruct o as [v|e]; [split; [done|by eexists]|]. apply lookup_delete_Some in Hq as [Hne Hq]. done. }
      destruct (Hc k q Hk) as (s & Hs & Hl). destruct (decide (q = p)) as [->|Hne].
      * rewrite lookup_insert_eq. assert (k = key) as -> by congruence. exists (Some o). split; [done|]. right.
        destruct Hv as [v ->]; [done|]. by eexists.
      * rewrite lookup_insert_ne by done. by exists s.
    + intros q k s. destruct (decide (q = p)) as [->|Hne].
      * rewrite lookup_insert_eq. intros [= <- <-] [?|[v [= ->]]]; done.
      * rewrite lookup_insert_ne by done. intros Hs Hl. pose proof (Ho q k s Hs Hl) as Hk. destruct o; [done|].
        rewrite lookup_delete_ne; [done|]. intros ->. congruence.
  - intros q k s Hs. simpl. destruct (decide (q = p)) as [->|Hne].
    + rewrite lookup_insert_eq. exists (Some o). split; [congruence|]. intros o' E. congruence.
    + rewrite lookup_insert_ne by done. by exists s.
  - intros q. unfold token_moves. rewrite decide_False by done. destruct (decide (Some p = Some q)) as [[= <-]|Hne]; simpl.
    + by rewrite lookup_insert_eq.
    + rewrite !lookup_insert_ne by congruence. done.
Qed.

Lemma getRuntimePayload_tok url version c : source_inv c →
  stok (getRuntimePayload url version) None c (λ h o c', h = None ∧ source_inv c' ∧ ∀ v, o = Returns v → paid c' (cache_key url version) v).
Proof.
  intros Hi. unfold getRuntimePayload. apply tok_bind. cbn [AsyncTokens.tok get]. set (key := cache_key url version).
  destruct (runtimePayloads c !! key) as [p|] eqn:E.
  - simpl. split; [done|]. intros c' a (Hi' & Hm & _) [k Hk]. split; [done|]. split; [done|]. intros v ->.
    destruct (si_cached c Hi key p E) as (s & Hs & _). destruct (Hm p key s Hs) as (s' & Hs' & _). exists p. congruence.
  - apply tok_bind. unfold modify at 1. cbn [AsyncTokens.tok]. exists (Some (next_promise c)). split; [by apply with_promise_guarantee|].
    apply tok_settle. cbn [AsyncTokens.tok invoke source_yields]. split; [done|].
    intros c' a (Hi' & Hm & Hh) _. specialize (Hh _ eq_refl). simpl in Hh. rewrite lookup_insert_eq in Hh. symmetry in Hh.
    exists None. split; [by apply settle_promise_guarantee|]. unfold of_outcome. simpl. split; [done|].
    split; [by apply (settle_promise_guarantee _ _ a c' Hi' Hh)|]. intros v ->. exists (next_promise c). simpl. by rewrite lookup_insert_eq.
Qed.

(** What is read from a payload without an await. *)
Lemma read_tok {A} (op : operation) (m : outcome string A) (f : A → reply) c v : source_inv c → paid c (key_of op) v → extract op v = f <$> m →
  stok (f <$> of_outcome m : prog reply) None c
    (λ h o c', h = None ∧ source_inv c' ∧ ∀ r, o = Returns r → ∃ v, paid c' (key_of op) v ∧ extract op v = Returns r).
Proof.
  intros Hi Hp He. destruct m as [a|e]; (split; [done|]; split; [done|]); [|done]. intros r [= <-]. by exists v.
Qed.

Lemma perform_tok op c : source_inv c →
  stok (perform op) None c (λ h o c', h = None ∧ source_inv c' ∧ ∀ r, o = Returns r → ∃ v, paid c' (key_of op) v ∧ extract op v = Returns r).
Proof.
  intros Hi. destruct op as [url w|url expected|url w|url w|url w|url w|url w]; cbn [perform];
    [|unfold fmap, async_fmap; apply (tok_bind _ _ _ (getPublishedDefinition url expected)); unfold getPublishedDefinition|..]; apply tok_bind; (eapply tok_weaken; [|by apply getRuntimePayload_tok]); intros h [v|e] c' (-> & Hi' & Hp); try (by split); specialize (Hp v eq_refl).
  1, 4, 5, 6, 7: by eapply read_tok.
  - unfold refuse_when. destruct (published_metadata_ok _ _ _) eqn:Em; [|by split]. destruct (published_content_ok _ _) eqn:Ec; [|by split].
    split; [done|]. intros c2 a (Hi2 & Hm2 & _) ->. apply (paid_mono _ _ _ _ Hm2) in Hp.
    destruct (computeJcsSha256Digest (prop v "definition")) as [digest|e] eqn:Ed; [|by split]. unfold async_mbind. cbn [async_bind].
    destruct (is_lit (prop v "definition_hash") digest) eqn:Eh; [|by split]. split; [done|]. split; [done|]. intros r [= <-]. exists v.
    split; [done|]. unfold extract. rewrite Em, Ec. cbn [negb]. rewrite Ed. simpl. by rewrite Eh.
  - destruct (extractDefinition v) as [d|e] eqn:E; [|by split]. eapply read_tok; [done|done|]. simpl. by rewrite E.
Qed.

Lemma operate_tok op c : source_inv c → stok (operate op) None c (empty_handed (F := string)).
Proof.
  intros Hi. apply tok_settle. eapply tok_weaken; [|by apply perform_tok]. intros h o c' (-> & Hi' & Hp). split.
  - destruct o as [r|e]; [by apply Hp|done].
  - by intros c2 a -> ->.
Qed.

Definition source_recorded (l : list source_event) (c : source_state) : Prop :=
  ∀ op r, Settled op (Returns r) ∈ l → ∃ v, paid c (key_of op) v ∧ extract op v = Returns r.

Definition no_payloads : source_state := {| runtimePayloads := ∅; promises := ∅; next_promise := 0 |}.

Abbreviation source_world := (world (C := source_state) (F := string) (call := source_call) (Ev := source_event) unit).
Definition source_reachable : source_world → Prop :=
  reachable source_yields source_answers source_observe (λ m, ∃ op, m = operate op) no_payloads.

Lemma source_world_ok w : source_reachable w → source_inv (shared w) ∧ source_recorded (events w) (shared w).
Proof.
  intros Hw. eapply (tokens_reachable_ok source_yields source_answers source_observe source_conditions source_conditions_ok source_recorded)
    with (kept := λ _ _ _ _, True) in Hw as [H' [Hi _ _ _ _ Hr]]; try done.
  - intros l c c' _ Hm Hr op r Hin. destruct (Hr op r Hin) as (v & Hv & He). exists v. split; [by eapply paid_mono|done].
  - intros X q h c l Hi Hiss _ Hr op r. rewrite elem_of_app. intros [Hin|Hin]; [by apply Hr|].
    destruct q as [path|p|v|op' r']; simpl in Hin; try (by apply elem_of_nil in Hin); apply list_elem_of_singleton in Hin; [done|].
    injection Hin as -> <-. exact Hiss.
  - intros m c [op ->] Hi. by apply operate_tok.
  - intros op r Hin. by apply elem_of_nil in Hin.
Qed.

(** C27. However calls of the source interleave and whatever its requests answer, a
    cache key has at most one promise that is pending or fulfilled; and every
    call that succeeds is answered from the one payload of its key: by its
    definition; by the publication whose canonical form, pins and digest match;
    by the listed locale documents for the definition, in order, of each key the
    first; by the theme, component or graph context that it carries first under
    its names and that passes its guard, by none where none does; by the
    evidence put together of what passes.  A payload that is itself a definition
    carries nothing beside. *)
Theorem definitions_served_from_payload w : source_reachable w →
  (∀ p q key s s', promises (shared w) !! p = Some (key, s) → promises (shared w) !! q = Some (key, s') → live s → live s' → p = q) ∧
  ∀ op r, Settled op (Returns r) ∈ events w → ∃ payload, payload_of (shared w) (key_of op) = Some payload ∧ described payload op r.
Proof.
  intros [Hi Hr]%source_world_ok. split.
  - intros p q key s s' Hp Hq Hs Hs'. pose proof (si_only _ Hi _ _ _ Hp Hs). pose proof (si_only _ Hi _ _ _ Hq Hs'). congruence.
  - intros op r (v & Hv & He)%Hr. exists v. split; [by apply paid_payload|by apply extract_described].
Qed.
End cache.

(** ** A run *)

Module DefinitionSample.

#[export] Instance form_ids : FormIds := λ url _, url.
#[export] Instance lower : LowerCased := λ s, s.
#[export] Instance digest : Digest := λ _, repeat 0%Z 32.
#[export] Instance canonical : Canonicalize := λ _, Some "".

Definition d : jsv := JObj [("$formspec", JStr "1.0"); ("url", JStr "u"); ("version", JStr "1"); ("title", JStr "t"); ("items", JArr [])].
Definition locale (version : string) : jsv := JObj [("$formspecLocale", JStr "2.0"); ("version", JStr version); ("locale", JStr "fr");
  ("target", JObj [("kind", JStr "definition"); ("url", JStr "u")]); ("strings", JObj [])].
Definition payload : jsv := JObj [("definition", d); ("locales", JArr [locale "1"; locale "2"; locale "1"; JNull])].

(** The requests are answered by [body], in every other call as it must. *)
Definition answer (body : outcome string jsv) (X : Type) (q : source_call X) : source_state → option (outcome string X) :=
  match q in source_call X return source_state → option (outcome string X) with
  | RequestJson _ => λ _, Some body
  | AwaitPayload p => λ c, match promises c !! p with Some (_, s) => s | None => None end
  | AwaitDigest v => λ _, Some (computeJcsSha256Digest v)
  | Settle _ _ => λ _, Some (Returns ())
  end.

Lemma source_answer_ok body X (q : source_call X) c a : answer body X q c = Some a → source_answers X q a c.
Proof.
  destruct q as [path|p|v|op r]; simpl; [done| |by intros [= <-]|by intros [= <-]].
  destruct (promises c !! p) as [[key s]|]; [|done]. intros ->. by exists key.
Qed.

(** Two calls for one form, the second before the request is answered: one request,
    and each is answered from its payload. *)
Definition schedule : list (prog unit + nat) :=
  [inl (operate (GetDefinition "f" None)); inl (operate (GetLocaleDocuments "f" None)); inr 0; inr 1].

Lemma definitions_served_from_payload_witness :
  ∃ w, source_reachable w ∧
    events w = [Requested "/runtime/forms/f"; Settled (GetDefinition "f" None) (Returns (OneDocument d));
                Settled (GetLocaleDocuments "f" None) (Returns (Documents [locale "1"; locale "2"]))] ∧
    ∃ payload, payload_of (shared w) "f@latest" = Some payload ∧
      described payload (GetLocaleDocuments "f" None) (Documents [locale "1"; locale "2"]).
Proof.
  destruct (play source_yields source_observe (answer (Returns payload)) schedule [] no_payloads) as [[[ts c] l]|] eqn:E; [|by vm_compute in E].
  destruct (play_reachable source_yields source_answers source_observe (answer (Returns payload)) (source_answer_ok (Returns payload))
    (λ m, ∃ op, m = operate op) 0%N schedule (initial no_payloads) [] ts c l) as (w & Hw & _ & _ & He).
  - repeat (apply Forall_cons; split; [by eexists|]). by apply Forall_nil.
  - intros i. by rewrite lookup_nil.
  - exact E.
  - exists w. split; [exact Hw|]. assert (events w = l) as Hl by exact He.
    assert (l = [Requested "/runtime/forms/f"; Settled (GetDefinition "f" None) (Returns (OneDocument d));
      Settled (GetLocaleDocuments "f" None) (Returns (Documents [locale "1"; locale "2"]))]) as El by (vm_compute in E; by injection E as _ _ <-).
    rewrite Hl, El. split; [reflexivity|]. 
    destruct (definitions_served_from_payload w Hw) as [_ Hserved].
    destruct (Hserved (GetLocaleDocuments "f" None) (Documents [locale "1"; locale "2"])) as (v & Hv & Hd); [rewrite Hl, El; right; right; left|].
    exists v. split; [exact Hv|exact Hd].
Defined.
End DefinitionSample.
