(* ===== verification/Routes.v ===== *)
(** * Routes

    What a location selects: src/src/app/form-route.ts, status-route.ts (with
    src/src/shared/status-case-id.ts), screener-route.ts, obligations-route.ts,
    documents-route.ts and history-route.ts.  The composition that is made for it
    is chosen in [CompositionRoots]. *)

From S2P Require Import Prelude JsValue Text ResponseAction FeatureKeys Coherence ActionLedger Url.
From Stdlib Require Import Ascii.

Section routes.
Context `{Urls : !UrlLibrary}.

(** ** Forms *)

Record RootSurfaceRouteState : Set := {
  surfaceUrl : string; surfaceVersion : option string; routeId : string; nextRouteId : option string; triggerActionId : option string
}.

Record SelectedForm : Set := {
  initialDefinitionUrl : string; packageUrl : option string; selectedResponseId : option string; surfaceRoute : option RootSurfaceRouteState
}.

Inductive RootFormRouteSelection : Set := DefaultForm | SelectedRoute (form : SelectedForm).

Inductive route_error : Set :=
  | AmbiguousFormRouteError (formValues : list string)
  | InvalidFormRouteError (message : string)
  | InvalidStatusCase
  | InvalidUrl.

Definition assertSingleOptionalParam (values : list string) (name : string) : outcome route_error unit :=
  throw_when (1 <? length values) (InvalidFormRouteError ("The " +:+ name +:+ " route parameter must appear at most once.")).

Definition blank (s : string) : bool := negb (nonempty (trim s)).

Definition optionalNonEmptyParam (values : list string) (name : string) : outcome route_error (option string) :=
  match values with
  | [] => Returns None
  | value :: _ =>
      throw_when (blank value) (InvalidFormRouteError ("The " +:+ name +:+ " route parameter is empty.")) ;;
      Returns (Some value)
  end.

Definition surfaceRouteState (surface version route next trigger : list string) : outcome route_error (option RootSurfaceRouteState) :=
  if bool_decide (surface = [] ∧ version = [] ∧ route = [] ∧ next = [] ∧ trigger = []) then Returns None else
  url ← optionalNonEmptyParam surface "surface";
  id ← optionalNonEmptyParam route "surfaceRoute";
  match url, id with
  | Some url, Some id =>
      v ← optionalNonEmptyParam version "surfaceVersion";
      n ← optionalNonEmptyParam next "surfaceNextRoute";
      t ← optionalNonEmptyParam trigger "surfaceTriggerAction";
      throw_when (negb (Bool.eqb (isSome n) (isSome t)))
        (InvalidFormRouteError "Surface route transitions require surfaceNextRoute and surfaceTriggerAction parameters.") ;;
      Returns (Some {| surfaceUrl := url; surfaceVersion := v; routeId := id; nextRouteId := n; triggerActionId := t |})
  | _, _ => Throws (InvalidFormRouteError "Surface route state requires surface and surfaceRoute parameters.")
  end.

Definition form_base : string := "https://formspec.local".

(** [None] for a path that is not the root's. *)
Definition parseRootFormRoute (href : string) : outcome route_error (option RootFormRouteSelection) :=
  match new_URL_at href form_base with
  | None => Throws InvalidUrl
  | Some url =>
      if negb (String.eqb (url_pathname url) "/") then Returns None else
      let values := get_all url in
      match values "form" with
      | [] =>
          throw_when (negb (bool_decide (values "response" = [] ∧ values "package" = [])))
            (InvalidFormRouteError "The response route parameter requires a form parameter.") ;;
          Returns (Some DefaultForm)
      | form :: others =>
          throw_when (negb (bool_decide (others = []))) (AmbiguousFormRouteError (form :: others)) ;;
          for_each (λ name, assertSingleOptionalParam (values name) name)
            ["response"; "package"; "surface"; "surfaceVersion"; "surfaceRoute"; "surfaceNextRoute"; "surfaceTriggerAction"] ;;
          throw_when (blank form) (InvalidFormRouteError "The form route parameter is empty.") ;;
          response ← optionalNonEmptyParam (values "response") "response";
          package ← optionalNonEmptyParam (values "package") "package";
          surface ← surfaceRouteState (values "surface") (values "surfaceVersion") (values "surfaceRoute") (values "surfaceNextRoute")
                      (values "surfaceTriggerAction");
          Returns (Some (SelectedRoute {| initialDefinitionUrl := form; packageUrl := package; selectedResponseId := response;
                                          surfaceRoute := surface |}))
      end
  end.

Definition formRouteErrorCopy (e : route_error) : string :=
  match e with
  | AmbiguousFormRouteError _ => "This link names more than one form. Open a link that names exactly one form."
  | _ => "This link does not name a valid form. Open a link that names exactly one form."
  end.

Definition isFormRouteError (e : route_error) : bool :=
  match e with AmbiguousFormRouteError _ | InvalidFormRouteError _ => true | _ => false end.

(** ** Cases *)

(** [ch.charCodeAt(0) < 32 || ch.charCodeAt(0) === 127] *)
Definition is_control (a : ascii) : bool := let n := nat_of_ascii a in (n <? 32)%nat || (n =? 127)%nat.

(** [encodeURIComponent] of well-formed text does not throw. *)
Definition captureStatusCaseLedgerId (value : jsv) : option string :=
  match value with
  | JStr s =>
      if negb (nonempty s) || (2048 <? utf16_length s)%nat || negb (String.eqb (trim s) s)
         || existsb is_control (String.list_ascii_of_string s) then None else
      let rawId := if starts_with "urn:wos:" s then String.substring 8 (String.length s - 8) s else s in
      if negb (nonempty rawId) || String.eqb rawId "." || String.eqb rawId ".." then None else Some s
  | _ => None
  end.

Definition secure_or_local (url : Url) : bool :=
  String.eqb (url_protocol url) "https:"
  || String.eqb (url_protocol url) "http:" && str_in (url_hostname url) ["localhost"; "127.0.0.1"; "[::1]"].

(** The case of a status link. *)
Definition parseStatusRoute (href : string) : option string :=
  url ← new_URL href;
  if negb (String.eqb (url_pathname url) "/status") || nonempty (url_hash url) || nonempty (url_username url) || nonempty (url_password url)
     || negb (secure_or_local url) then None else
  match decodeURIComponent (url_search url), search_entries (url_search url) with
  | Some _, [(name, value)] => if String.eqb name "caseLedgerId" then captureStatusCaseLedgerId (JStr value) else None
  | _, _ => None
  end.

Definition buildStatusTrackingUri (caseLedgerId : jsv) : outcome route_error string :=
  match captureStatusCaseLedgerId caseLedgerId with
  | None => Throws InvalidStatusCase
  | Some id =>
      let path := "/status?" +:+ search_text [("caseLedgerId", id)] in
      match parseStatusRoute ("https://status.invalid" +:+ path) with
      | None => Throws InvalidStatusCase
      | Some _ => Returns path
      end
  end.

(** ** The other routes *)

(** The parser of a route without parameters. *)
Definition parse_bare_route (path href : string) : bool :=
  match new_URL href with Some url => String.eqb (url_pathname url) path | None => false end.
Definition parseObligationsRoute : string → bool := parse_bare_route "/obligations".
Definition parseDocumentsRoute : string → bool := parse_bare_route "/documents".
Definition parseHistoryRoute : string → bool := parse_bare_route "/history".

(** The document of a screener link, empty where there is none. *)
Definition parseScreenerRoute (href : string) : option string :=
  url ← new_URL href;
  if negb (String.eqb (url_pathname url) "/screener") then None else Some (default "" (get_param url "doc")).

Definition STATUS_ROUTE_NARROWING : RouteNarrowing := {|
  routeCite := "/status"; initialDefinitionUrlSentinel := "about:not-constructed#fw-0068";
  consumes := {[Status; RecordLifecycle]}; identityBound := true |}.
Definition OBLIGATIONS_ROUTE_NARROWING : RouteNarrowing := {|
  routeCite := "/obligations"; initialDefinitionUrlSentinel := "about:not-constructed#fw-0055";
  consumes := {[RespondentPlace]}; identityBound := true |}.
Definition DOCUMENTS_ROUTE_NARROWING : RouteNarrowing := {|
  routeCite := "/documents"; initialDefinitionUrlSentinel := "about:not-constructed#fw-0056";
  consumes := {[RespondentPlace]}; identityBound := true |}.
Definition HISTORY_ROUTE_NARROWING : RouteNarrowing := {|
  routeCite := "/history"; initialDefinitionUrlSentinel := "about:not-constructed#fw-0057";
  consumes := {[CrossIssuerHistory]}; identityBound := true |}.
Definition SCREENER_ROUTE_NARROWING : RouteNarrowing := {|
  routeCite := "/screener"; initialDefinitionUrlSentinel := "about:not-constructed#fw-0046";
  consumes := {[Screener]}; identityBound := false |}.
End routes.

(** * What a location selects *)

Section theorems.
Context `{Urls : !UrlLibrary}.

(** The errors a form route ends in. *)
Definition form_failing {A} (o : outcome route_error A) : Prop := ∀ e, o = Throws e → isFormRouteError e = true.

Lemma form_failing_Returns {A} (x : A) : form_failing (Returns x).
Proof. by intros e. Qed.
Lemma form_failing_Throws {A} m : form_failing (Throws (A:=A) (InvalidFormRouteError m)).
Proof. by intros e [= <-]. Qed.
Lemma form_failing_bind {A B} (o : outcome route_error A) (k : A → outcome route_error B) :
  form_failing o → (∀ x, form_failing (k x)) → form_failing (o ≫= k).
Proof. intros Ho Hk e [Hx|(x & _ & Hx)]%bind_Throws; [by apply Ho|by apply (Hk x)]. Qed.
Lemma form_failing_when b m : form_failing (throw_when b (InvalidFormRouteError m)).
Proof. by intros e [_ ->]%throw_when_Throws. Qed.
Lemma form_failing_each {A} (f : A → outcome route_error unit) l : (∀ x, form_failing (f x)) → form_failing (for_each f l).
Proof. intros Hf. induction l as [|x l IH]; simpl; [apply form_failing_Returns|]. by apply form_failing_bind. Qed.
Hint Resolve form_failing_Returns form_failing_Throws form_failing_when form_failing_bind form_failing_each : core.

Lemma form_failing_optional l name : form_failing (optionalNonEmptyParam l name).
Proof. destruct l; simpl; auto. Qed.
Hint Resolve form_failing_optional : core.

Lemma form_failing_surface s v r n t : form_failing (surfaceRouteState s v r n t).
Proof.
  unfold surfaceRouteState. case_bool_decide; auto. apply form_failing_bind; [done|]. intros u. apply form_failing_bind; [done|]. intros i.
  destruct u, i; auto 10.
Qed.
Hint Resolve form_failing_surface : core.

Lemma form_failing_parse href url : new_URL_at href form_base = Some url → form_failing (parseRootFormRoute href).
Proof.
  intros Hu. unfold parseRootFormRoute. rewrite Hu. destruct (negb _); [auto|]. destruct (get_all url "form") as [|f l]; [auto|].
  apply form_failing_bind; [by intros e [_ ->]%throw_when_Throws|]. intros _. apply form_failing_bind; [apply form_failing_each; unfold assertSingleOptionalParam; auto|].
  auto 10.
Qed.

(** ** Forms *)

(** A parameter that may be left out. *)
Inductive optional_param : list string → option string → Prop :=
  | param_absent : optional_param [] None
  | param_present v : blank v = false → optional_param [v] (Some v).

(** The surface parameters: none, or a surface with its route, and a transition
    with its action. *)
Inductive surface_params : list string → list string → list string → list string → list string → option RootSurfaceRouteState → Prop :=
  | no_surface : surface_params [] [] [] [] [] None
  | some_surface url id version next trigger v n t : blank url = false → blank id = false →
      optional_param version v → optional_param next n → optional_param trigger t → isSome n = isSome t →
      surface_params [url] version [id] next trigger
        (Some {| surfaceUrl := url; surfaceVersion := v; routeId := id; nextRouteId := n; triggerActionId := t |}).

Record selects (values : string → list string) (form : SelectedForm) : Prop := {
  selects_form : values "form" = [initialDefinitionUrl form];
  selects_nonblank : blank (initialDefinitionUrl form) = false;
  selects_response : optional_param (values "response") (selectedResponseId form);
  selects_package : optional_param (values "package") (packageUrl form);
  selects_surface : surface_params (values "surface") (values "surfaceVersion") (values "surfaceRoute") (values "surfaceNextRoute")
    (values "surfaceTriggerAction") (surfaceRoute form)
}.

Lemma optional_spec l name r : length l ≤ 1 → optionalNonEmptyParam l name = Returns r ↔ optional_param l r.
Proof.
  intros Hl. destruct l as [|v [|]]; simpl in *; [| |lia].
  - split; [intros [= <-]; constructor|by inversion 1].
  - destruct (blank v) eqn:E; simpl; split; try done; try (inversion 1; congruence). intros [= <-]. by constructor.
Qed.

Lemma optional_short l r : optional_param l r → length l ≤ 1.
Proof. destruct 1; simpl; lia. Qed.

Lemma single_spec l name : assertSingleOptionalParam l name = Returns () ↔ length l ≤ 1.
Proof. unfold assertSingleOptionalParam. rewrite throw_when_Returns, Nat.ltb_ge. lia. Qed.

Lemma surface_spec s v r n t res : length s ≤ 1 → length v ≤ 1 → length r ≤ 1 → length n ≤ 1 → length t ≤ 1 →
  surfaceRouteState s v r n t = Returns res ↔ surface_params s v r n t res.
Proof.
  intros Hs Hv Hr Hn Ht. unfold surfaceRouteState. case_bool_decide as E.
  - destruct E as (-> & -> & -> & -> & ->). split; [intros [= <-]; constructor|]. by inversion 1.
  - rewrite bind_Returns. setoid_rewrite bind_Returns. setoid_rewrite (optional_spec s "surface" _ Hs). setoid_rewrite (optional_spec r "surfaceRoute" _ Hr). split.
    + intros (url & Hu & id & Hi & H). destruct Hu as [|url Hu], Hi as [|id Hi]; try done.
      apply bind_Returns in H as (v' & Hv' & (n' & Hn' & (t' & Ht' & H)%bind_Returns)%bind_Returns).
      apply optional_spec in Hv', Hn', Ht'; [|done..]. apply seq_Returns in H as [Hnt [= <-]]. apply throw_when_Returns, negb_false_iff, eqb_prop in Hnt.
      by constructor.
    + intros Hp. inversion Hp; subst; [by destruct E|]. exists (Some url). split; [by constructor|]. exists (Some id). split; [by constructor|].
      rewrite bind_Returns. exists v0. split; [by apply optional_spec|]. rewrite bind_Returns. exists n0. split; [by apply optional_spec|].
      rewrite bind_Returns. exists t0. split; [by apply optional_spec|]. rewrite seq_Returns, throw_when_Returns, negb_false_iff. split; [|done].
      rewrite H4. apply eqb_reflx.
Qed.

Lemma surface_short s v r n t res : surface_params s v r n t res → length s ≤ 1 ∧ length v ≤ 1 ∧ length r ≤ 1 ∧ length n ≤ 1 ∧ length t ≤ 1.
Proof. destruct 1 as [|url id v n t v' n' t' _ _ ?%optional_short ?%optional_short ?%optional_short]; simpl; repeat split; lia. Qed.

Lemma optional_not_ambiguous l name l' : optionalNonEmptyParam l name ≠ Throws (AmbiguousFormRouteError l').
Proof. destruct l as [|v l]; [done|]. simpl. by destruct (blank v). Qed.

Lemma surface_not_ambiguous s v r n t l : surfaceRouteState s v r n t ≠ Throws (AmbiguousFormRouteError l).
Proof.
  unfold surfaceRouteState. case_bool_decide; [done|].
  intros [Hx|(u & _ & [Hx|(i & _ & Hx)]%bind_Throws)]%bind_Throws; try by apply optional_not_ambiguous in Hx.
  destruct u, i; try done. apply bind_Throws in Hx as [Hx|(v' & _ & [Hx|(n' & _ & [Hx|(t' & _ & Hx)]%bind_Throws)]%bind_Throws)];
    try by apply optional_not_ambiguous in Hx. by apply bind_Throws in Hx as [[_ Hx]%throw_when_Throws|(? & _ & Hx)].
Qed.

Section values.
Context (values : string → list string) (form : string).

(** What follows once one form is named. *)
Definition named_form : outcome route_error (option RootFormRouteSelection) :=
  for_each (λ name, assertSingleOptionalParam (values name) name)
    ["response"; "package"; "surface"; "surfaceVersion"; "surfaceRoute"; "surfaceNextRoute"; "surfaceTriggerAction"] ;;
  throw_when (blank form) (InvalidFormRouteError "The form route parameter is empty.") ;;
  response ← optionalNonEmptyParam (values "response") "response";
  package ← optionalNonEmptyParam (values "package") "package";
  surface ← surfaceRouteState (values "surface") (values "surfaceVersion") (values "surfaceRoute") (values "surfaceNextRoute")
              (values "surfaceTriggerAction");
  Returns (Some (SelectedRoute {| initialDefinitionUrl := form; packageUrl := package; selectedResponseId := response; surfaceRoute := surface |})).

Lemma named_form_selects f : values "form" = [form] → named_form = Returns (Some (SelectedRoute f)) ↔ selects values f.
Proof.
  intros Ef. unfold named_form. rewrite !seq_Returns, for_each_Returns, throw_when_Returns, bind_Returns. setoid_rewrite bind_Returns.
  setoid_rewrite bind_Returns. split.
  - intros (Hall & Hb & r & Hr & p & Hpk & s & Hs & [= <-]).
    rewrite !Forall_cons in Hall. setoid_rewrite single_spec in Hall. destruct Hall as (H1 & H2 & H3 & H4 & H5 & H6 & H7 & _).
    apply optional_spec in Hr, Hpk; [|done..]. apply surface_spec in Hs; [|done..]. by constructor.
  - intros [Hf Hb Hr Hpk Hs]. rewrite Ef in Hf. injection Hf as ->.
    pose proof (surface_short _ _ _ _ _ _ Hs) as (H1 & H2 & H3 & H4 & H5). pose proof (optional_short _ _ Hr). pose proof (optional_short _ _ Hpk).
    split; [repeat (apply Forall_cons; split; [by apply single_spec|]); by apply Forall_nil|]. split; [done|].
    exists (selectedResponseId f). split; [by apply optional_spec|]. exists (packageUrl f). split; [by apply optional_spec|].
    exists (surfaceRoute f). split; [by apply surface_spec|]. by destruct f.
Qed.

Lemma named_not_ambiguous l : named_form ≠ Throws (AmbiguousFormRouteError l).
Proof.
  unfold named_form. intros [Hx|([] & _ & Hx)]%bind_Throws.
  { apply for_each_Throws in Hx as (l1 & x & l2 & _ & _ & Hx). unfold assertSingleOptionalParam in Hx. by apply throw_when_Throws in Hx as [_ Hx]. }
  apply bind_Throws in Hx as [[_ Hx]%throw_when_Throws|([] & _ & Hx)]; [done|].
  apply bind_Throws in Hx as [Hx|(r & _ & [Hx|(p & _ & [Hx|(s & _ & Hx)]%bind_Throws)]%bind_Throws)]; try by apply optional_not_ambiguous in Hx.
  - by apply surface_not_ambiguous in Hx.
  - done.
Qed.
End values.

(** A location selects a form exactly when its path is the root and its
    parameters name one form that is not blank, at most one response and one
    package, and none or a whole surface route; it is ambiguous exactly when it
    names more than one form. *)
Theorem form_route_exact href :
  (∀ form, parseRootFormRoute href = Returns (Some (SelectedRoute form)) ↔
    ∃ url, new_URL_at href form_base = Some url ∧ url_pathname url = "/" ∧ selects (get_all url) form) ∧
  (∀ l, parseRootFormRoute href = Throws (AmbiguousFormRouteError l) ↔
    ∃ url, new_URL_at href form_base = Some url ∧ url_pathname url = "/" ∧ l = get_all url "form" ∧ 1 < length l).
Proof.
  unfold parseRootFormRoute. destruct (new_URL_at href form_base) as [url|]; [|split; (split; [done|]; by intros (? & ? & _))].
  destruct (String.eqb_spec (url_pathname url) "/") as [Hp|Hp]; cbn [negb]; [|split; (split; [done|]; intros (u & [= <-] & ? & _); done)].
  set (values := get_all url). destruct (values "form") as [|form others] eqn:Ef.
  { split.
    - intros f. rewrite seq_Returns. split; [by intros [_ ?]|]. intros (u & [= <-] & _ & Hs). apply selects_form in Hs. fold values in Hs. congruence.
    - intros l. split; [by case_bool_decide|]. intros (u & [= <-] & _ & -> & Hl). fold values in Hl. rewrite Ef in Hl. simpl in Hl. lia. }
  fold (named_form values form). destruct others as [|form' others].
  - rewrite bool_decide_eq_true_2 by done. change (throw_when (negb true) (AmbiguousFormRouteError [form]) ;; named_form values form) with (named_form values form).
    split; intros f.
    + rewrite named_form_selects by done. split; [intros Hs; by exists url|]. by intros (u & [= <-] & _ & Hs).
    + split; [by intros Hx%named_not_ambiguous|]. intros (u & [= <-] & _ & -> & Hl). fold values in Hl. rewrite Ef in Hl. simpl in Hl. lia.
  - rewrite bool_decide_eq_false_2 by done. split; intros f.
    + split; [done|]. intros (u & [= <-] & _ & [Hf _ _ _ _]). fold values in Hf. congruence.
    + split; [intros [= <-]; exists url; fold values; rewrite Ef; split; [done|]; split; [done|]; split; [done|simpl; lia]|].
      intros (u & [= <-] & _ & -> & _). fold values. by rewrite Ef.
Qed.

(** ** Cases *)

(** The locations of the case of a status link, by the origin the links of the
    builder are checked against. *)
Definition status_location (search : string) : string := "https://status.invalid/status" +:+ search.

(** What the URL standard documents of a path with a query under that origin. *)
Definition status_location_parses : Prop := ∀ l, l ≠ [] → ∃ u,
  new_URL (status_location ("?" +:+ search_text l)) = Some u ∧ url_protocol u = "https:" ∧ url_pathname u = "/status" ∧
  url_search u = "?" +:+ search_text l ∧ url_hash u = "" ∧ url_username u = "" ∧ url_password u = "".

(** What a case id may be. *)
Record case_id (s : string) : Prop := {
  case_nonempty : s ≠ "";
  case_short : utf16_length s ≤ 2048;
  case_trimmed : trim s = s;
  case_printable : ∀ a, a ∈ String.list_ascii_of_string s → is_control a = false;
  case_no_dots : s ∉ ["."; ".."; "urn:wos:"; "urn:wos:."; "urn:wos:.."]
}.

Lemma nonempty_false s : nonempty s = false ↔ s = "".
Proof. by destruct s. Qed.

Lemma capture_exact v s : captureStatusCaseLedgerId v = Some s ↔ v = JStr s ∧ case_id s.
Proof.
  destruct v as [| | | |x| |]; try (split; [done|by intros [? _]]). unfold captureStatusCaseLedgerId.
  set (raw := if starts_with "urn:wos:" x then _ else x).
  assert (x ≠ "" → (nonempty raw = false ∨ raw = "." ∨ raw = "..") ↔ x ∈ ["."; ".."; "urn:wos:"; "urn:wos:."; "urn:wos:.."]) as Hraw.
  { intros Hx. unfold raw. rewrite !elem_of_cons, elem_of_nil, nonempty_false. destruct (starts_with "urn:wos:" x) eqn:E.
    - apply starts_with_spec in E as [t ->]. assert (String.substring 8 (String.length ("urn:wos:" +:+ t) - 8) ("urn:wos:" +:+ t) = t) as ->.
      { change (String.substring 0 (String.length t - 0) t = t). rewrite Nat.sub_0_r. induction t as [|a t IH]; simpl; [done|]. by rewrite IH. }
      split; [intros [-> |[->| ->]]; auto 6|]. intros [?|[?|[Ht|[Ht|[Ht|[]]]]]]; try done.
      + apply (inj (String.append "urn:wos:") t "") in Ht as ->. auto.
      + apply (inj (String.append "urn:wos:") t ".") in Ht as ->. auto.
      + apply (inj (String.append "urn:wos:") t "..") in Ht as ->. auto.
    - split; [intros [?|[?|?]]; auto; done|]. intros [?|[?|[->|[->|[->|[]]]]]]; auto; done. }
  destruct (nonempty x) eqn:En; cbn [negb orb].
  2: { apply nonempty_false in En as ->. split; [done|]. intros [[= <-] [Hn _ _ _ _]]. done. }
  assert (x ≠ "") as Hx by (intros ->; done). specialize (Hraw Hx).
  destruct (Nat.ltb_spec 2048 (utf16_length x)); [split; [done|intros [[= <-] [_ Hs _ _ _]]; lia]|].
  destruct (String.eqb_spec (trim x) x); [|split; [done|by intros [[= <-] [_ _ Ht _ _]]]].
  destruct (existsb is_control (String.list_ascii_of_string x)) eqn:Ec; cbn [negb orb].
  { split; [done|]. intros [[= <-] [_ _ _ Hp _]]. apply existsb_exists in Ec as (a & Ha%list_elem_of_In & Hc). rewrite Hp in Hc; done. }
  assert (∀ a, a ∈ String.list_ascii_of_string x → is_control a = false) as Hp.
  { intros a Ha. destruct (is_control a) eqn:E; [|done]. rewrite <- Ec. symmetry. apply existsb_exists. exists a. split; [by apply list_elem_of_In|done]. }
  destruct (negb (nonempty raw) || String.eqb raw "." || String.eqb raw "..") eqn:E.
  - split; [done|]. intros [[= <-] [_ _ _ _ Hd]]. exfalso. apply Hd, Hraw.
    apply orb_true_iff in E as [[E%negb_true_iff|E%String.eqb_eq]%orb_true_iff|E%String.eqb_eq]; auto.
  - rewrite !orb_false_iff, negb_false_iff, !String.eqb_neq in E. destruct E as [[E1 E2] E3]. split; [|by intros [[= <-] _]].
    intros [= <-]. split; [done|]. constructor; try done. intros [?|[?|?]]%Hraw; congruence.
Qed.

(** C32. A status link selects a case only over HTTPS or on the local host, without
    credentials or fragment, by the one parameter of that name, whose value is a
    bounded, printable, trimmed case id; every such id has a link, which selects
    it; and nothing else has one. *)
Theorem status_links_round_trip `{!UrlLaws} : status_location_parses →
  (∀ href id, parseStatusRoute href = Some id → case_id id ∧ ∃ url, new_URL href = Some url ∧ url_pathname url = "/status" ∧
    secure_or_local url = true ∧ url_hash url = "" ∧ url_username url = "" ∧ url_password url = "" ∧
    search_entries (url_search url) = [("caseLedgerId", id)]) ∧
  (∀ id, case_id id → ∃ path, buildStatusTrackingUri (JStr id) = Returns path ∧ parseStatusRoute ("https://status.invalid" +:+ path) = Some id) ∧
  (∀ v path, buildStatusTrackingUri v = Returns path → ∃ id, v = JStr id ∧ case_id id).
Proof.
  intros Hparse. split; [|split].
  - intros href id. unfold parseStatusRoute. destruct (new_URL href) as [u|]; [|done]. cbn [mbind option_bind].
    destruct (negb (String.eqb (url_pathname u) "/status") || nonempty (url_hash u) || nonempty (url_username u) || nonempty (url_password u)
      || negb (secure_or_local u)) eqn:E; [done|]. rewrite !orb_false_iff, !negb_false_iff, !nonempty_false, String.eqb_eq in E.
    destruct E as [[[[Hp Hh] Hu] Hw] Hs]. destruct (decodeURIComponent (url_search u)); [|done].
    destruct (search_entries (url_search u)) as [|[name value] [|]] eqn:Es; try done.
    destruct (String.eqb_spec name "caseLedgerId") as [->|]; [|done]. intros [[= ->] Hid]%capture_exact. split; [done|]. by exists u.
  - intros id Hid. unfold buildStatusTrackingUri. rewrite (proj2 (capture_exact (JStr id) id)) by done. set (l := [("caseLedgerId", id)]).
    destruct (Hparse l) as (u & Hu & Hpr & Hp & Hs & Hh & Hus & Hw); [done|].
    assert (parseStatusRoute ("https://status.invalid" +:+ ("/status?" +:+ search_text l)) = Some id) as Hb.
    { unfold parseStatusRoute. change ("https://status.invalid" +:+ ("/status?" +:+ search_text l)) with (status_location ("?" +:+ search_text l)).
      rewrite Hu. cbn [mbind option_bind]. rewrite Hp, Hh, Hus, Hw, Hs. unfold secure_or_local. rewrite Hpr.
      destruct (entries_decodable l) as [d ->]. rewrite entries_read_back. unfold l. cbn [String.eqb negb orb andb nonempty].
      by apply capture_exact. }
    rewrite Hb. by eexists.
  - intros v path. unfold buildStatusTrackingUri. destruct (captureStatusCaseLedgerId v) as [id|] eqn:E; [|done]. intros _. exists id.
    by apply capture_exact.
Qed.

(** ** The narrowed routes *)

Definition narrowings : list RouteNarrowing :=
  [STATUS_ROUTE_NARROWING; OBLIGATIONS_ROUTE_NARROWING; DOCUMENTS_ROUTE_NARROWING; HISTORY_ROUTE_NARROWING; SCREENER_ROUTE_NARROWING].

Lemma narrowings_in r : r ∈ narrowings ↔ r = STATUS_ROUTE_NARROWING ∨ r = OBLIGATIONS_ROUTE_NARROWING ∨ r = DOCUMENTS_ROUTE_NARROWING ∨
  r = HISTORY_ROUTE_NARROWING ∨ r = SCREENER_ROUTE_NARROWING.
Proof. unfold narrowings. rewrite !elem_of_cons, elem_of_nil. tauto. Qed.

(** Two routes have no path in common. *)
Lemma narrowings_apart r r' : r ∈ narrowings → r' ∈ narrowings → routeCite r = routeCite r' → r = r'.
Proof. intros [->|[->|[->|[->| ->]]]]%narrowings_in [->|[->|[->|[->| ->]]]]%narrowings_in; done. Qed.

Lemma narrowings_no_root r : r ∈ narrowings → routeCite r ≠ "/".
Proof. by intros [->|[->|[->|[->| ->]]]]%narrowings_in. Qed.

Lemma narrowings_identity r : r ∈ narrowings → identityBound r = false → r = SCREENER_ROUTE_NARROWING.
Proof. by intros [->|[->|[->|[->| ->]]]]%narrowings_in. Qed.

(** Where the root selects a form. *)
Lemma root_form `{!UrlLaws} href url form : new_URL href = Some url → url_href url = href →
  parseRootFormRoute href = Returns (Some (SelectedRoute form)) ↔ url_pathname url = "/" ∧ selects (get_all url) form.
Proof.
  intros Hu Hh. rewrite (proj1 (form_route_exact href)), (url_serialised href url Hu Hh form_base).
  split; [by intros (u & [= <-] & ?)|]. intros [? ?]. by exists url.
Qed.

(** Anything the parser throws for a location is a form route's error. *)
Lemma root_failing `{!UrlLaws} href url e : new_URL href = Some url → url_href url = href →
  parseRootFormRoute href = Throws e → isFormRouteError e = true.
Proof. intros Hu Hh. exact (form_failing_parse href url (url_serialised href url Hu Hh form_base) e). Qed.
End theorems.

(** ** Locations *)

Module RouteSample.

(** A parser of two sites; entries are kept as a numeral of their code. *)
Definition site (host path : string) : string := "https://" +:+ host +:+ path.
Definition after_prefix (p s : string) : option string :=
  if starts_with p s then Some (String.substring (String.length p) (String.length s - String.length p) s) else None.
Definition location (host path s search : string) : Url := {|
  url_href := s; url_origin_of := "https://" +:+ host; url_protocol := "https:"; url_hostname := host; url_pathname := path;
  url_search := search; url_hash := ""; url_username := ""; url_password := ""
|}.
Definition read_url (s : string) : option Url :=
  match after_prefix (site "status.invalid" "/status") s with
  | Some search => Some (location "status.invalid" "/status" s search)
  | None => location "h" "/" s <$> after_prefix (site "h" "/") s
  end.

Definition entries_text (l : list (string * string)) : string := pretty (N.pos (encode l)).
Definition text_entries (s : string) : list (string * string) :=
  match parse_digits (match s with String "?" s' => s' | _ => s end) with
  | Some (Zpos p) => default [] (decode p)
  | _ => []
  end.

#[export] Instance library : UrlLibrary := {|
  new_URL := read_url; new_URL_at := λ s _, read_url s; search_entries := text_entries; search_text := entries_text
|}.

Lemma whole_substring s : String.substring 0 (String.length s) s = s.
Proof. induction s as [|a s IH]; simpl; [done|]. by rewrite IH. Qed.

Lemma after_prefix_app p s : after_prefix p (p +:+ s) = Some s.
Proof.
  unfold after_prefix. assert (starts_with p (p +:+ s) = true) as -> by (apply starts_with_spec; by exists s). f_equal.
  induction p as [|a p IH]; [cbn; rewrite Nat.sub_0_r; apply whole_substring|exact IH].
Qed.

Lemma digits_text p : pretty (N.pos p) = pretty_N_go (N.pos p) "".
Proof. unfold pretty, pretty_N. by rewrite decide_False. Qed.

Lemma parse_digits_pretty p : parse_digits (pretty (N.pos p)) = Some (Z.pos p).
Proof.
  rewrite digits_text. destruct (pretty_N_go_head (N.pos p) "" ltac:(done)) as (d & r & Hd & E).
  pose proof (leading_digits_pretty (N.pos p) "") as Hl. rewrite E in Hl |- *. unfold parse_digits. by rewrite (pretty_digit d Hd), Hl.
Qed.

Lemma pretty_N_go_decodes x s : is_Some (decode_from no_rest s) → is_Some (decode_from no_rest (pretty_N_go x s)).
Proof.
  revert s. induction (N.lt_wf_0 x) as [x _ IH]; intros s Hs. destruct (decide (x = 0)%N) as [->|Hx]; [by rewrite pretty_N_go_0|].
  rewrite pretty_N_go_step by lia. apply IH; [apply N.div_lt; lia|].
  assert (Ascii.eqb (pretty_N_char (x `mod` 10)) "%" = false) as Hc.
  { pose proof (N.mod_lt x 10 ltac:(done)) as Hd. pose proof (pretty_digit _ Hd) as Hp.
    destruct (Ascii.eqb_spec (pretty_N_char (x `mod` 10)) "%") as [E|]; [|done]. rewrite E in Hp. by destruct (Z.of_N _). }
  cbn [decode_from]. rewrite Hc. cbn [rest_bytes no_rest Nat.eqb]. by apply fmap_is_Some.
Qed.

#[export] Instance laws : UrlLaws.
Proof.
  constructor.
  - by intros s u Hu _ base.
  - intros l. change (text_entries (String "?" (entries_text l)) = l). unfold text_entries, entries_text.
    by rewrite parse_digits_pretty, decode_encode.
  - intros l. change (is_Some (String "?" <$> decode_from no_rest (entries_text l))). apply fmap_is_Some. unfold entries_text. rewrite digits_text.
    by apply pretty_N_go_decodes.
Qed.

Lemma sample_status_parses : status_location_parses.
Proof.
  intros l _. set (search := "?" +:+ search_text l). exists (location "status.invalid" "/status" (status_location search) search).
  split; [|done]. change (read_url (status_location search) = Some (location "status.invalid" "/status" (status_location search) search)).
  unfold read_url. change (status_location search) with (site "status.invalid" "/status" +:+ search). by rewrite after_prefix_app.
Qed.

Lemma sample_case_id : case_id "c1".
Proof. apply (capture_exact (JStr "c1") "c1"). by vm_compute. Qed.

(** The link of a case that selects it. *)
Theorem status_links_round_trip_witness : ∃ path,
  buildStatusTrackingUri (JStr "c1") = Returns path ∧ parseStatusRoute ("https://status.invalid" +:+ path) = Some "c1".
Proof. exact (proj1 (proj2 (status_links_round_trip sample_status_parses)) "c1" sample_case_id). Defined.

Definition form_link : string := "https://h/?" +:+ entries_text [("form", "f")].
Definition selected : SelectedForm := {| initialDefinitionUrl := "f"; packageUrl := None; selectedResponseId := None; surfaceRoute := None |}.
Definition form_location : Url := location "h" "/" form_link ("?" +:+ entries_text [("form", "f")]).

Lemma form_link_url : new_URL form_link = Some form_location.
Proof. by vm_compute. Qed.

Lemma form_selected : selects (get_all form_location) selected.
Proof. constructor; [by vm_compute|by vm_compute|constructor..]. Qed.

End RouteSample.
