(* ===== verification/AuthCallback.v ===== *)
(** * Authentication callbacks

    src/src/shared/browser-auth-callback.ts and src/src/app/auth-callback.ts: which
    locations are the callbacks of the OIDC provider, what is done at one, and the
    navigation that is kept in the tab's storage while the provider is visited, so
    that the respondent comes back to the form. *)

From S2P Require Import Prelude JsValue Text BrowserStorage ScopedMetadata Url Oracle.
From Stdlib Require Import Ascii.

Inductive AuthCallbackKind : Set := Signin | Silent | Signout.
#[export] Instance AuthCallbackKind_eq_dec : EqDecision AuthCallbackKind.
Proof. solve_decision. Defined.

(** What is read of the OIDC client's configuration, and of the deployment's. *)
Record OidcClientConfig : Set := {
  oidc_issuer : string; oidc_clientId : string;
  redirectUri : option string; silentRedirectUri : option string; postLogoutRedirectUri : option string
}.

Record AuthConfig : Set := { identityProvider : string; config_oidc : option OidcClientConfig; scopeKey : option string }.

(** ** Calls *)

(** Those of the session are awaited; the others are made within the turn:
    [SessionStorage] is the tab's storage as it is found, [KeepStorage] what is
    left of it. *)
Inductive auth_query : Set → Type :=
  | CreateSession : auth_query unit
  | CompleteCallback (href : string) : auth_query unit
  | CompleteSilentCallback (href : string) : auth_query unit
  | CompleteLogoutCallback (href : string) : auth_query unit
  | DisposeSession : auth_query unit
  | SessionStorage : auth_query (gmap string string)
  | KeepStorage (m : gmap string string) : auth_query unit
  | Navigate (href : string) : auth_query unit.

Local Abbreviation event := (Oracle.event string auth_query).
Definition auth_program (A : Type) : Type := tree string auth_query (outcome string A).

Definition invalid_url : string := "Invalid URL".
Definition invalid_navigation : string := "Stored form navigation is invalid.".

Section callbacks.
Context `{Urls : !UrlLibrary, Json : !JsonText, Storage : !StoragePolicy}.

Definition parsed (u : option Url) : outcome string Url := match u with Some u => Returns u | None => Throws invalid_url end.

(** ** Matching *)

Definition callback_paths (uris : OidcClientConfig) : list (AuthCallbackKind * option string) :=
  [(Signin, redirectUri uris); (Silent, silentRedirectUri uris); (Signout, postLogoutRedirectUri uris)].

(** The loop: the paths seen and the callback matched so far. *)
Fixpoint match_paths (url : Url) (seen : list string) (found : option AuthCallbackKind) (paths : list (AuthCallbackKind * option string)) :
    outcome string (option AuthCallbackKind) :=
  match paths with
  | [] => Returns found
  | (kind, uri) :: paths' =>
      let uri := default "" uri in
      if negb (nonempty uri) then match_paths url seen found paths' else
      target ← parsed (new_URL_at uri (url_origin_of url));
      throw_when (negb (String.eqb (url_origin_of target) (url_origin_of url)) || String.eqb (url_pathname target) "/"
                  || nonempty (url_search target) || nonempty (url_hash target))
        "Authentication callbacks require distinct same-origin paths separate from the home page" ;;
      throw_when (str_in (url_pathname target) seen) "Authentication callback paths must be distinct" ;;
      match_paths url (seen ++ [url_pathname target]) (if String.eqb (url_pathname target) (url_pathname url) then Some kind else found) paths'
  end.

Definition matchBrowserAuthCallback (href : string) (uris : OidcClientConfig) : outcome string (option AuthCallbackKind) :=
  url ← parsed (new_URL href);
  match_paths url [] None (callback_paths uris).

Definition configuredAuthCallback (href : string) (config : AuthConfig) : outcome string (option AuthCallbackKind) :=
  match config_oidc config with
  | Some oidc => if String.eqb (identityProvider config) "oidc" then matchBrowserAuthCallback href oidc else Returns None
  | None => Returns None
  end.

(** ** The navigation that is kept *)

Inductive navigation_slot : Set := ReturnSlot | SignoutReturnSlot.
#[export] Instance navigation_slot_eq_dec : EqDecision navigation_slot.
Proof. solve_decision. Defined.
Definition slot_name (slot : navigation_slot) : string := match slot with ReturnSlot => "return" | SignoutReturnSlot => "signout-return" end.

(** Properties that are [undefined] are dropped when the context is serialised,
    and so left out here. *)
Definition given (name : string) (v : option string) : jsobj := match v with Some s => [(name, JStr s)] | None => [] end.

Definition navigation_context (url : Url) (oidc : OidcClientConfig) (config : AuthConfig) : jsobj :=
  [("origin", JStr (url_origin_of url)); ("issuer", JStr (oidc_issuer oidc)); ("clientId", JStr (oidc_clientId oidc))]
  ++ given "redirectUri" (redirectUri oidc) ++ given "postLogoutRedirectUri" (postLogoutRedirectUri oidc) ++ given "scopeKey" (scopeKey config).

Definition navigationStore (url : Url) (config : AuthConfig) : outcome string BrowserMetadata :=
  match config_oidc config with
  | None => Throws "Native sign-in requires the selected OIDC configuration."
  | Some oidc => createBrowserScopedMetadataStore "formspec-web:signin-navigation" (JObj (navigation_context url oidc config))
  end.

(** A parameter that is there and not empty. *)
Definition has_param (url : Url) (name : string) : bool := nonempty (default "" (get_param url name)).
Definition nativeSelection (url : Url) : bool := negb (nonempty (url_hash url)) && has_param url "form" && has_param url "package".

(** The setter of [pathname], on a location with a hierarchical path. *)
Definition at_root (url : Url) : Url := {|
  url_href := url_href url; url_origin_of := url_origin_of url; url_protocol := url_protocol url; url_hostname := url_hostname url;
  url_pathname := "/"; url_search := url_search url; url_hash := url_hash url; url_username := url_username url; url_password := url_password url
|}.

(** The computations that use the tab's storage return it as they leave it. *)
Definition with_storage {A B} (o : outcome string A) (m : gmap string string)
    (k : A → outcome string B * gmap string string) : outcome string B * gmap string string :=
  match o with Returns a => k a | Throws e => (Throws e, m) end.

Definition rememberNativeReturn (href : string) (config : AuthConfig) (slot : navigation_slot) (m : gmap string string) :
    outcome string bool * gmap string string :=
  with_storage (parsed (new_URL href)) m (λ url,
    let target := match slot with SignoutReturnSlot => at_root url | ReturnSlot => url end in
    if nonempty (url_hash url) then (Returns false, m) else
    with_storage (configuredAuthCallback href config) m (λ callback,
      if isSome callback || negb (nativeSelection target) then (Returns false, m) else
      with_storage (navigationStore url config) m (λ store,
        let '(o, m) := browser_write store (slot_name slot) (JStr (url_pathname target +:+ url_search target)) m in
        (o ;; Returns true, m)))).

Definition rememberNativeSignInReturn (href : string) (config : AuthConfig) := rememberNativeReturn href config ReturnSlot.
Definition rememberNativeSignOutReturn (href : string) (config : AuthConfig) := rememberNativeReturn href config SignoutReturnSlot.

Definition clear_return (slot : navigation_slot) (href : string) (config : AuthConfig) (m : gmap string string) :
    outcome string unit * gmap string string :=
  with_storage (parsed (new_URL href)) m (λ url,
  with_storage (navigationStore url config) m (λ store, browser_remove store (slot_name slot) m)).
Definition clearNativeSignInReturn := clear_return ReturnSlot.
Definition clearNativeSignOutReturn := clear_return SignoutReturnSlot.

(** What a stored text leads to. *)
Definition navigation_target (callback : Url) (config : AuthConfig) (slot : navigation_slot) (value : jsv) : outcome string string :=
  match value with
  | JStr text =>
      throw_when (negb (starts_with "/" text) || starts_with "//" text) invalid_navigation ;;
      target ← parsed (new_URL_at text (url_origin_of callback));
      throw_when (negb (String.eqb (url_origin_of target) (url_origin_of callback)) || negb (nativeSelection target)
                  || bool_decide (slot = SignoutReturnSlot) && negb (String.eqb (url_pathname target) "/")) invalid_navigation ;;
      again ← configuredAuthCallback (url_href target) config;
      throw_when (isSome again) invalid_navigation ;;
      Returns (url_href target)
  | _ => Throws invalid_navigation
  end.

(** [None] is [undefined]: nothing is stored. *)
Definition consumeNativeReturn (href : string) (config : AuthConfig) (slot : navigation_slot) (m : gmap string string) :
    outcome string (option string) * gmap string string :=
  with_storage (parsed (new_URL href)) m (λ callback,
  with_storage (navigationStore callback config) m (λ store,
  with_storage (browser_read store (slot_name slot) m) m (λ value,
    match value with
    | JUndef => (Returns None, m)
    | _ =>
        let '(o, m) := browser_remove store (slot_name slot) m in
        (o ;; Some <$> navigation_target callback config slot value, m)
    end))).

(** ** At a callback *)

(** [try { ... } finally { session.dispose(); }] *)
Definition disposing {A} (body : auth_program A) : auth_program A :=
  after body (λ r, _ ⇐ ask DisposeSession; Done r).

Definition completion (kind : AuthCallbackKind) (href : string) : auth_query unit :=
  match kind with Signin => CompleteCallback href | Silent => CompleteSilentCallback href | Signout => CompleteLogoutCallback href end.

Definition completeBrowserAuthCallback (href : string) (uris : OidcClientConfig) (navigate : string → auth_program unit) : auth_program bool :=
  kind ⇐ Done (matchBrowserAuthCallback href uris);
  match kind with
  | None => Done (Returns false)
  | Some kind =>
      _ ⇐ ask CreateSession;
      disposing (
        _ ⇐ ask (completion kind href);
        match kind with
        | Silent => Done (Returns true)
        | _ =>
            home ⇐ Done (parsed (new_URL_at "/" href));
            _ ⇐ navigate (url_href home);
            Done (Returns true)
        end)
  end.

Definition consume_stored (href : string) (config : AuthConfig) (slot : navigation_slot) : auth_program (option string) :=
  Ask SessionStorage (λ a, match a with
    | Returns m => let '(o, m') := consumeNativeReturn href config slot m in Ask (KeepStorage m') (λ _, Done o)
    | Throws _ => Done (Throws unavailable)
    end).

Definition navigate_back (href : string) (config : AuthConfig) (home : string) : auth_program unit :=
  kind ⇐ Done (configuredAuthCallback href config);
  target ⇐ match kind with
           | Some Signin => consume_stored href config ReturnSlot
           | Some Signout => consume_stored href config SignoutReturnSlot
           | _ => Done (Returns None)
           end;
  ask (Navigate (default home target)).

Definition completeConfiguredAuthCallback (href : string) (config : AuthConfig) : auth_program bool :=
  match config_oidc config with
  | Some oidc =>
      if String.eqb (identityProvider config) "oidc" then completeBrowserAuthCallback href oidc (navigate_back href config)
      else Done (Returns false)
  | None => Done (Returns false)
  end.
End callbacks.

(** * What happens at a callback *)

Section theorems.
Context `{Urls : !UrlLibrary, Json : !JsonText, Storage : !StoragePolicy}.

(** ** Matching *)

(** A callback's path: that of the same origin, not the home page's, and bare. *)
Definition callback_path (url : Url) (uri path : string) : Prop := ∃ target,
  new_URL_at uri (url_origin_of url) = Some target ∧ url_origin_of target = url_origin_of url ∧ url_pathname target = path ∧
  path ≠ "/" ∧ url_search target = "" ∧ url_hash target = "".

Definition configured_uris (paths : list (AuthCallbackKind * option string)) : list (AuthCallbackKind * string) :=
  omap (λ e, if nonempty (default "" e.2) then Some (e.1, default "" e.2) else None) paths.

(** The paths of the callbacks that are configured. *)
Definition callbacks (url : Url) (uris : list (AuthCallbackKind * string)) (paths : list (AuthCallbackKind * string)) : Prop :=
  Forall2 (λ u p, u.1 = p.1 ∧ callback_path url u.2 p.2) uris paths ∧ NoDup paths.*2.

Definition last_match (path : string) (found : option AuthCallbackKind) (paths : list (AuthCallbackKind * string)) : option AuthCallbackKind :=
  foldl (λ f p, if String.eqb p.2 path then Some p.1 else f) found paths.

Lemma blank_string s : nonempty s = false → s = "".
Proof. by destruct s. Qed.

Lemma match_paths_exact url paths seen found r : NoDup seen →
  match_paths url seen found paths = Returns r ↔
    ∃ ps, Forall2 (λ u p, u.1 = p.1 ∧ callback_path url u.2 p.2) (configured_uris paths) ps ∧ NoDup (seen ++ ps.*2) ∧
      r = last_match (url_pathname url) found ps.
Proof.
  revert seen found. induction paths as [|[kind uri] paths IH]; intros seen found Hseen; simpl.
  { split; [intros [= ->]; exists []; simpl; by rewrite app_nil_r|]. intros (ps & ->%Forall2_nil_inv_l & _ & ->). done. }
  destruct (nonempty (default "" uri)) eqn:En; cbn [negb]; [|by apply IH].
  rewrite bind_Returns. split.
  - intros (target & Ht & [Hok [Hnew Hr]%seq_Returns]%seq_Returns). destruct (new_URL_at _ _) as [u|] eqn:Eu; [|done]. injection Ht as ->.
    apply throw_when_Returns in Hok, Hnew. rewrite !orb_false_iff, negb_false_iff, String.eqb_eq, String.eqb_neq in Hok. destruct Hok as [[[Ho Hp] Hs] Hh].
    assert (url_pathname target ∉ seen) as Hfresh by (rewrite <- str_in_spec, Hnew; done).
    apply IH in Hr as (ps & Hps & Hnd & ->).
    + exists ((kind, url_pathname target) :: ps). split; [|split; [by rewrite <- app_assoc in Hnd|done]]. constructor; [|done]. split; [done|].
      exists target. apply blank_string in Hs, Hh. done.
    + apply NoDup_app. split; [done|]. split; [by intros x Hx ->%list_elem_of_singleton|apply NoDup_singleton].
  - intros (ps & Hps & Hnd & ->). apply Forall2_cons_inv_l in Hps as ([kind' path] & ps' & [Ek (target & Hu & Ho & Htp & Hp & Hs & Hh)] & Hps & ->). simpl in Ek, Htp, Hp. subst kind' path.
    exists target. simpl in *. rewrite Hu. split; [done|]. rewrite !seq_Returns, !throw_when_Returns, Ho, Hs, Hh, String.eqb_refl.
    apply NoDup_app in Hnd as (_ & Hdis & Hnd'). apply NoDup_cons in Hnd' as [Hni Hnd'].
    split; [by apply String.eqb_neq in Hp as ->|]. split.
    { destruct (str_in (url_pathname target) seen) eqn:E; [|done]. apply str_in_spec in E. destruct (Hdis _ E). left. }
    apply IH.
    + apply NoDup_app. split; [done|]. split; [|apply NoDup_singleton]. intros x Hx ->%list_elem_of_singleton. destruct (Hdis _ Hx). left.
    + exists ps'. split; [done|]. split; [|done]. rewrite <- app_assoc. apply NoDup_app. split; [done|]. split; [|by apply NoDup_cons].
      intros x Hx Hin. by apply (Hdis x Hx).
Qed.

Lemma last_match_in path ps kind : NoDup ps.*2 → last_match path None ps = Some kind ↔ (kind, path) ∈ ps.
Proof.
  assert (∀ found, NoDup ps.*2 → last_match path found ps = Some kind ↔ (kind, path) ∈ ps ∨ (path ∉ ps.*2 ∧ found = Some kind)) as Hg.
  { induction ps as [|[k p] ps IH]; intros found Hnd; simpl; [set_solver|]. apply NoDup_cons in Hnd as [Hni Hnd]. rewrite (IH _ Hnd). simpl.
    destruct (String.eqb_spec p path) as [->|Hne].
    - split.
      + intros [?|[_ [= ->]]]; [left; by right|left; left].
      + intros [[Heq|Hin]%elem_of_cons|[Hni' _]]; [|by left|set_solver]. injection Heq as ->. by right.
    - split.
      + intros [?|[? ->]]; [left; by right|right; split; [set_solver|done]].
      + intros [[Heq|Hin]%elem_of_cons|[Hni' ->]]; [congruence|by left|right; split; [set_solver|done]]. }
  intros Hnd. rewrite (Hg None Hnd). naive_solver.
Qed.

(** A location is matched exactly if every configured callback has a bare path
    of its own on the location's origin, which is not that of the home page; it
    is then the callback whose path it has. *)
Theorem auth_callback_match_exact href uris :
  (∀ kind, matchBrowserAuthCallback href uris = Returns (Some kind) ↔
    ∃ url ps, new_URL href = Some url ∧ callbacks url (configured_uris (callback_paths uris)) ps ∧ (kind, url_pathname url) ∈ ps) ∧
  (matchBrowserAuthCallback href uris = Returns None ↔
    ∃ url ps, new_URL href = Some url ∧ callbacks url (configured_uris (callback_paths uris)) ps ∧ url_pathname url ∉ ps.*2).
Proof.
  unfold matchBrowserAuthCallback, callbacks. destruct (new_URL href) as [url|]; [|split; [intros kind|]; (split; [done|by intros (? & ? & ? & _)])]. cbn [parsed mbind outcome_bind].
  split; [intros kind|]; rewrite (match_paths_exact url _ [] None _ ltac:(constructor)); simpl.
  - split.
    + intros (ps & Hps & Hnd & Hm). exists url, ps. split; [done|]. split; [done|]. by apply last_match_in.
    + intros (u & ps & [= <-] & [Hps Hnd] & Hin). exists ps. split; [done|]. split; [done|]. symmetry. by apply last_match_in.
  - split.
    + intros (ps & Hps & Hnd & Hm). exists url, ps. split; [done|]. split; [done|]. intros ([k p] & E & Hin)%list_elem_of_fmap. simpl in E. subst p.
      apply last_match_in in Hin; [congruence|done].
    + intros (u & ps & [= <-] & [Hps Hnd] & Hin). exists ps. split; [done|]. split; [done|]. destruct (last_match _ _ ps) as [kind|] eqn:E; [|done].
      apply last_match_in in E; [|done]. destruct Hin. apply list_elem_of_fmap. by exists (kind, url_pathname url).
Qed.

(** ** What is done at one *)

Definition navigations (l : list event) : list string := flat_map (λ e, match question e with Navigate h => [h] | _ => [] end) l.
Definition session_calls (l : list event) : list event :=
  List.filter (λ e, match question e with SessionStorage | KeepStorage _ | Navigate _ => false | _ => true end) l.

Lemma navigations_app l l' : navigations (l ++ l') = navigations l ++ navigations l'.
Proof. apply flat_map_app. Qed.

Definition slot_of (kind : AuthCallbackKind) : navigation_slot := match kind with Signout => SignoutReturnSlot | _ => ReturnSlot end.

(** A location that was kept: on the origin of the callback, it selects a form with
    its package, and is no callback. *)
Record kept_target (callback : Url) (config : AuthConfig) (slot : navigation_slot) (href : string) : Prop := {
  kept_at : ∃ text u, new_URL_at text (url_origin_of callback) = Some u ∧ url_href u = href ∧ starts_with "/" text = true ∧
    starts_with "//" text = false ∧ url_origin_of u = url_origin_of callback ∧ nativeSelection u = true ∧
    (slot = SignoutReturnSlot → url_pathname u = "/");
  kept_no_callback : configuredAuthCallback href config = Returns None
}.

Lemma navigation_target_kept callback config slot v href :
  navigation_target callback config slot v = Returns href → kept_target callback config slot href.
Proof.
  destruct v as [| | | |text| |]; try done. simpl. rewrite seq_Returns, throw_when_Returns, orb_false_iff, negb_false_iff.
  intros [[Hs1 Hs2] (u & Hu & [Hok (again & Ha & [Hn [= <-]]%seq_Returns)%bind_Returns]%seq_Returns)%bind_Returns].
  apply throw_when_Returns in Hok, Hn. rewrite !orb_false_iff, !negb_false_iff, String.eqb_eq in Hok. destruct Hok as [[Ho Hsel] Hroot].
  destruct again; [done|]. split; [|done]. exists text, u. destruct (new_URL_at _ _); [|done]. injection Hu as ->. do 6 (split; [done|]).
  intros ->. rewrite bool_decide_eq_true_2 in Hroot by done. by apply negb_false_iff, String.eqb_eq in Hroot.
Qed.

Lemma browser_remove_Returns store slot m m' u : browser_remove store slot m = (Returns u, m') → m' = delete (slot_key store slot) m.
Proof. unfold browser_remove. destruct (_ || _); [done|]. by intros [= _ <-]. Qed.

(** What is kept is read once. *)
Lemma consume_Some href config slot m target m' : consumeNativeReturn href config slot m = (Returns (Some target), m') →
  ∃ callback store, new_URL href = Some callback ∧ navigationStore callback config = Returns store ∧
    m' = delete (slot_key store (slot_name slot)) m ∧ kept_target callback config slot target.
Proof.
  unfold consumeNativeReturn. destruct (new_URL href) as [cb|]; [|done]. cbn [parsed with_storage].
  destruct (navigationStore cb config) as [store|] eqn:Es; [|done]. cbn [with_storage]. destruct (browser_read store _ m) as [v|]; [|done]. cbn [with_storage].
  intros Hv. exists cb, store. split; [done|]. split; [done|].
  assert ((let '(o, m1) := browser_remove store (slot_name slot) m in (o ;; Some <$> navigation_target cb config slot v, m1)) = (Returns (Some target), m')) as Hr
    by (destruct v; done || exact Hv). clear Hv.
  destruct (browser_remove store (slot_name slot) m) as [o m1] eqn:Er. injection Hr as [Ho Ht]%seq_Returns <-. subst o. apply browser_remove_Returns in Er.
  split; [done|]. destruct (navigation_target cb config slot v) as [t|] eqn:E; [|done]. injection Ht as ->. by apply navigation_target_kept in E.
Qed.

(** Where a callback may lead: to the home page, or back to what was kept, which is
    forgotten. *)
Inductive leads_back (href : string) (config : AuthConfig) (kind : AuthCallbackKind) (l : list event) (target : string) : Prop :=
  | leads_home h : new_URL_at "/" href = Some h → target = url_href h → leads_back href config kind l target
  | leads_kept callback store m : new_URL href = Some callback → navigationStore callback config = Returns store →
      kept_target callback config (slot_of kind) target →
      (∃ a a', l = [Asked SessionStorage (Returns m); Asked (KeepStorage (delete (slot_key store (slot_name (slot_of kind))) m)) a;
                    Asked (Navigate target) a']) →
      leads_back href config kind l target.

(** The calls of a navigation after the session's callback was completed. *)
Record led_back (href : string) (config : AuthConfig) (kind : AuthCallbackKind) (l : list event) (done : bool) : Prop := {
  led_no_session : session_calls l = [];
  led_once : if done then length (navigations l) = 1 else length (navigations l) ≤ 1;
  led_to target : target ∈ navigations l → leads_back href config kind l target
}.

Lemma led_nowhere href config kind l : session_calls l = [] → navigations l = [] → led_back href config kind l false.
Proof. intros Hs Hn. split; rewrite ?Hn; [done|simpl; lia|by intros t ?%elem_of_nil]. Qed.

Lemma consume_led href config kind home (h : Url) : kind ≠ Silent → new_URL_at "/" href = Some h → home = url_href h →
  configuredAuthCallback href config = Returns (Some kind) →
  sat (navigate_back href config home) (λ l r, led_back href config kind l (match r with Returns _ => true | Throws _ => false end)).
Proof.
  intros Hk Hh -> Hc. unfold navigate_back. rewrite Hc. apply sat_and_then, sat_done. cbn [app].
  assert (∀ slot, slot = slot_of kind → sat (target ⇐ consume_stored href config slot; ask (Navigate (default (url_href h) target)))
    (λ l r, led_back href config kind l (match r with Returns _ => true | Throws _ => false end))) as Hs.
  { intros slot ->. apply sat_and_then. unfold consume_stored. apply sat_ask. intros [m|e].
    2: { apply sat_done. by apply led_nowhere. }
    destruct (consumeNativeReturn href config (slot_of kind) m) as [o m'] eqn:E. apply sat_ask. intros a. apply sat_done.
    destruct o as [t|e]; [|by apply led_nowhere]. apply sat_ask. intros b. apply sat_done. cbn [app].
    split; [done|by destruct b|]. intros target Ht. apply list_elem_of_singleton in Ht as ->. destruct t as [t|]; [|by eapply leads_home].
    apply consume_Some in E as (cb & store & Hcb & Hst & -> & Hkept). eapply leads_kept; [done|done|exact Hkept|]. by eexists _, _. }
  destruct kind; [by apply Hs|done|by apply Hs].
Qed.

(** A session that was made at a callback: what was called, until it was disposed of. *)
Definition session_run (href : string) (config : AuthConfig) (kind : AuthCallbackKind) (l : list event) (r : outcome string bool) : Prop :=
  ∃ completed body disposed, l = Asked (completion kind href) completed :: body ++ [Asked DisposeSession disposed] ∧
    session_calls body = [] ∧ r ≠ Returns false ∧
    (body ≠ [] → kind ≠ Silent ∧ completed = Returns ()) ∧
    (r = Returns true → completed = Returns () ∧ disposed = Returns () ∧ length (navigations body) = if decide (kind = Silent) then 0 else 1) ∧
    length (navigations body) ≤ 1 ∧
    (∀ target, target ∈ navigations body → leads_back href config kind body target).

(** The calls of a start and its result. *)
Definition callback_run (href : string) (config : AuthConfig) (l : list event) (r : outcome string bool) : Prop :=
  match configuredAuthCallback href config with
  | Throws e => l = [] ∧ r = Throws e
  | Returns None => l = [] ∧ r = Returns false
  | Returns (Some kind) => ∃ created l', l = Asked CreateSession created :: l' ∧
      match created with
      | Throws e => l' = [] ∧ r = Throws e
      | Returns _ => session_run href config kind l' r
      end
  end.

(** What is done between the completion and the disposal. *)
Lemma disposing_runs href config kind (body : unit → auth_program bool) :
  (∀ u, sat (body u) (λ l r, r ≠ Returns false ∧ (l ≠ [] → kind ≠ Silent) ∧ (r = Returns true → length (navigations l) = if decide (kind = Silent) then 0 else 1) ∧
     led_back href config kind l false)) →
  sat (disposing (u ⇐ ask (completion kind href); body u)) (session_run href config kind).
Proof.
  intros Hb. apply sat_after, sat_and_then, sat_ask. intros [u|e]; apply sat_done.
  - generalize (Hb u). apply sat_weaken. intros l r (Hf & Hk & Hn & [Hs Hl Ht]). apply sat_and_then, sat_ask. intros d. apply sat_done.
    assert (∀ r', r' ≠ Returns false → (r' = Returns true → r = Returns true ∧ d = Returns ()) →
      session_run href config kind ([Asked (completion kind href) (Returns u)] ++ l ++ [Asked DisposeSession d]) r') as Hall.
    { intros r' Hf' Hr'. exists (Returns u), l, d. split; [done|]. split; [done|]. split; [done|]. destruct u.
      split; [intros Hne; split; [by apply Hk|done]|]. split; [|done]. intros [Hr ->]%Hr'. split; [done|]. split; [done|]. by apply Hn. }
    destruct d as [[]|e]; [apply sat_done|]; simpl; rewrite ?app_nil_r; by apply Hall.
  - apply sat_and_then, sat_ask. intros d. apply sat_done.
    assert (∀ r', r' ≠ Returns false → r' ≠ Returns true →
      session_run href config kind [Asked (completion kind href) (Throws e); Asked DisposeSession d] r') as Hall.
    { intros r' Hf Ht. exists (Throws e), [], d. split; [done|]. split; [done|]. split; [done|]. split; [done|]. split; [done|]. split; [simpl; lia|].
      by intros t ?%elem_of_nil. }
    destruct d as [[]|e']; [apply sat_done|]; by apply Hall.
Qed.

(** C23. Only the location of a configured callback starts a session, at most one,
    which is disposed of in the end, whatever happens.  Its own callback is
    completed once; only after that, and never at a silent callback, a sign-in or
    sign-out leads on, once: to the home page, or to the kept location, which is
    then forgotten, is on the same origin, selects a form, is no callback and
    after a sign-out is the home page's. *)
Theorem auth_callback_confined href config o n :
  let '(l, r) := run o n (completeConfiguredAuthCallback href config) in callback_run href config l r.
Proof.
  rewrite (surjective_pairing (run o n _)). apply (sat_run _ (callback_run href config)).
  assert (∀ oidc, config_oidc config = Some oidc → String.eqb (identityProvider config) "oidc" = true →
    matchBrowserAuthCallback href oidc = configuredAuthCallback href config) as Hm.
  { intros oidc Ho Hp. unfold configuredAuthCallback. by rewrite Ho, Hp. }
  unfold completeConfiguredAuthCallback.
  destruct (config_oidc config) as [oidc|] eqn:Ho; [|apply sat_done; unfold callback_run, configuredAuthCallback; by rewrite Ho].
  destruct (String.eqb (identityProvider config) "oidc") eqn:Hp; [|apply sat_done; unfold callback_run, configuredAuthCallback; by rewrite Ho, Hp].
  specialize (Hm oidc eq_refl eq_refl). unfold completeBrowserAuthCallback. rewrite Hm. apply sat_and_then, sat_done. unfold callback_run.
  destruct (configuredAuthCallback href config) as [[kind|]|e] eqn:Hc; [|by apply sat_done|done].
  apply sat_and_then, sat_ask. intros [u|e]; apply sat_done; [|by exists (Throws e), []].
  generalize (disposing_runs href config kind). intros Hd. eapply sat_weaken; [|apply Hd].
  { intros l r Hl. cbn [app]. by exists (Returns u), l. }
  clear u. intros u. destruct (decide (kind = Silent)) as [->|Hk].
  { apply sat_done. split; [done|]. split; [done|]. split; [done|]. by apply led_nowhere. }
  assert (sat (home ⇐ Done (parsed (new_URL_at "/" href)); _ ⇐ navigate_back href config (url_href home); Done (Returns true))
    (λ l r, r ≠ Returns false ∧ (l ≠ [] → kind ≠ Silent) ∧ (r = Returns true → length (navigations l) = 1) ∧ led_back href config kind l false)) as Hn.
  { apply sat_and_then, sat_done. destruct (new_URL_at "/" href) as [h|] eqn:Eh; simpl.
    - apply sat_and_then. generalize (consume_led href config kind (url_href h) h Hk Eh eq_refl Hc). apply sat_weaken.
      intros l r [Hs Hl Ht]. destruct r as [[]|e]; [apply sat_done; rewrite app_nil_r|]; (split; [done|]; split; [done|]; split; [done|]);
        split; [done| |done|done|done|done]; lia.
    - split; [done|]. split; [done|]. split; [done|]. by apply led_nowhere. }
  by destruct kind.
Qed.

(** ** Coming back *)

Section round_trip.
Context `{!JsonTextLaws, !ReliableStorage}.

(** The path and query of a location, which are what is kept of it. *)
Definition place_text (url : Url) : string := url_pathname url +:+ url_search url.

(** What the URL standard documents of the path and query of a location, read on its
    own origin, where they do not begin like a host. *)
Record reads_back (url target : Url) : Prop := {
  reads_local : starts_with "/" (place_text url) = true;
  reads_target : new_URL_at (place_text url) (url_origin_of url) = Some target;
  reads_origin : url_origin_of target = url_origin_of url;
  reads_path : url_pathname target = url_pathname url;
  reads_search : url_search target = url_search url;
  reads_hash : url_hash target = "";
  reads_again : new_URL (url_href target) = Some target
}.

Lemma context_value url oidc config : json_value (JObj (navigation_context url oidc config)) = true.
Proof.
  unfold navigation_context, given. destruct (redirectUri oidc), (postLogoutRedirectUri oidc), (scopeKey config); cbn;
    rewrite bool_decide_eq_true_2; try done; repeat constructor; set_solver.
Qed.

Lemma navigationStore_same url url' config : url_origin_of url = url_origin_of url' → navigationStore url config = navigationStore url' config.
Proof. intros E. unfold navigationStore, navigation_context. by rewrite E. Qed.

Lemma text_record_parses store slot text : parse_json (stringify (slot_record store slot (JStr text))) = Some (slot_record store slot (JStr text)).
Proof. by apply parse_stringify. Qed.

Lemma written_text store slot text m : nonempty slot = true →
  browser_write store slot (JStr text) m = (Returns (), <[slot_key store slot := stringify (slot_record store slot (JStr text))]> m).
Proof. intros Hs. unfold browser_write. rewrite Hs, text_record_parses. cbn. by rewrite storage_writes, storage_reads. Qed.

Lemma read_text store slot text m : nonempty slot = true →
  browser_read store slot (<[slot_key store slot := stringify (slot_record store slot (JStr text))]> m) = Returns (JStr text).
Proof.
  intros Hs. unfold browser_read. rewrite Hs, storage_reads, lookup_insert_eq. cbn [negb orb throw_when mbind outcome_bind].
  unfold read_record. rewrite text_record_parses. cbn. by rewrite !String.eqb_refl.
Qed.

Lemma removed store slot m : nonempty slot = true → browser_remove store slot m = (Returns (), delete (slot_key store slot) m).
Proof. intros Hs. unfold browser_remove. by rewrite Hs, storage_removes, storage_reads. Qed.

Lemma slot_name_nonempty slot : nonempty (slot_name slot) = true.
Proof. by destruct slot. Qed.

Lemma store_exists url config oidc : config_oidc config = Some oidc → ∃ store, navigationStore url config = Returns store.
Proof.
  intros Ho. unfold navigationStore, createBrowserScopedMetadataStore. rewrite Ho. rewrite parse_stringify by apply context_value. by eexists.
Qed.

(** A location on the same origin with the same path, or the home page's, is as little
    a callback. *)
Lemma no_callback url url' paths : url_origin_of url' = url_origin_of url → url_pathname url' = url_pathname url ∨ url_pathname url' = "/" →
  match_paths url [] None paths = Returns None → match_paths url' [] None paths = Returns None.
Proof.
  intros Ho Hp. rewrite !match_paths_exact by constructor. intros (ps & Hps & Hnd & Hm). simpl in *. exists ps. split; [|split; [done|]].
  - eapply Forall2_impl; [exact Hps|]. intros u p [? Hc]. split; [done|]. unfold callback_path in *. by rewrite Ho.
  - destruct (last_match (url_pathname url') None ps) as [k|] eqn:E; [|done]. exfalso. apply last_match_in in E; [|done].
    destruct Hp as [Hp|Hp]; rewrite Hp in E.
    + apply last_match_in in E; [|done]. congruence.
    + apply list_elem_of_lookup in E as [i E]. destruct (Forall2_lookup_r _ _ _ _ _ Hps E) as (u & _ & _ & (? & _ & _ & _ & Hr & _)). done.
Qed.

Lemma no_configured_callback href url href' url' config : new_URL href = Some url → new_URL href' = Some url' →
  url_origin_of url' = url_origin_of url → url_pathname url' = url_pathname url ∨ url_pathname url' = "/" →
  configuredAuthCallback href config = Returns None → configuredAuthCallback href' config = Returns None.
Proof.
  intros Hu Hu' Ho Hp. unfold configuredAuthCallback, matchBrowserAuthCallback. destruct (config_oidc config) as [oidc|]; [|done].
  destruct (String.eqb (identityProvider config) "oidc"); [|done]. rewrite Hu, Hu'. cbn [parsed mbind outcome_bind]. by apply no_callback.
Qed.

Lemma nativeSelection_same u u' : url_search u = url_search u' → url_hash u = "" → url_hash u' = "" → nativeSelection u = nativeSelection u'.
Proof. intros Hs Hh Hh'. unfold nativeSelection, has_param, get_param, get_all. by rewrite Hs, Hh, Hh'. Qed.

(** What is kept of a location that was remembered. *)
Definition kept_place (slot : navigation_slot) (url : Url) : Url := match slot with SignoutReturnSlot => at_root url | ReturnSlot => url end.

Lemma remembered_text href url config slot m m1 :
  new_URL href = Some url → rememberNativeReturn href config slot m = (Returns true, m1) →
  url_hash url = "" ∧ configuredAuthCallback href config = Returns None ∧ nativeSelection (kept_place slot url) = true ∧
  ∃ store, navigationStore url config = Returns store ∧
    m1 = <[slot_key store (slot_name slot) := stringify (slot_record store (slot_name slot) (JStr (place_text (kept_place slot url))))]> m.
Proof.
  intros Hu. unfold rememberNativeReturn. rewrite Hu. cbn [parsed with_storage]. fold (kept_place slot url).
  destruct (nonempty (url_hash url)) eqn:Eh; [done|]. apply blank_string in Eh.
  destruct (configuredAuthCallback href config) as [c|] eqn:Ec; [|done]. cbn [with_storage].
  destruct c; [done|]. destruct (nativeSelection (kept_place slot url)) eqn:Esel; [|done]. cbn [isSome negb orb].
  destruct (navigationStore url config) as [store|] eqn:Es; [|done]. cbn [with_storage].
  rewrite written_text by apply slot_name_nonempty. intros [= <-]. split_and!; [done..|]. by exists store.
Qed.

Lemma consume_text callback config slot m store cburl text : new_URL callback = Some cburl → navigationStore cburl config = Returns store →
  consumeNativeReturn callback config slot (<[slot_key store (slot_name slot) := stringify (slot_record store (slot_name slot) (JStr text))]> m) =
    (Some <$> navigation_target cburl config slot (JStr text), delete (slot_key store (slot_name slot)) m).
Proof.
  intros Hcb Es. unfold consumeNativeReturn. rewrite Hcb. cbn [parsed with_storage]. rewrite Es. cbn [with_storage].
  rewrite read_text by apply slot_name_nonempty. cbn [with_storage]. rewrite removed by apply slot_name_nonempty.
  by rewrite delete_insert_eq.
Qed.

Lemma target_returned href url config slot cburl target :
  new_URL href = Some url → url_hash url = "" → configuredAuthCallback href config = Returns None →
  nativeSelection (kept_place slot url) = true → url_origin_of cburl = url_origin_of url →
  reads_back (kept_place slot url) target → starts_with "//" (place_text (kept_place slot url)) = false →
  navigation_target cburl config slot (JStr (place_text (kept_place slot url))) = Returns (url_href target).
Proof.
  intros Hu Eh Ec Esel Ho [Hl Ht Hto Htp Hts Hth Hta] Hs. set (kept := kept_place slot url) in *.
  assert (url_origin_of kept = url_origin_of url) as Hko by by destruct slot.
  assert (url_hash kept = url_hash url) as Hkh by by destruct slot.
  assert (url_pathname kept = url_pathname url ∨ url_pathname kept = "/") as Hkp by (destruct slot; auto).
  assert (slot = SignoutReturnSlot → url_pathname kept = "/") as Hroot by (by intros ->).
  cbn [navigation_target]. rewrite Hl, Hs, Ho, <- Hko, Ht. cbn [negb orb throw_when mbind outcome_bind parsed].
  rewrite Hto, String.eqb_refl. rewrite (nativeSelection_same target kept), Esel by (done || congruence). cbn [negb orb].
  assert (bool_decide (slot = SignoutReturnSlot) && negb (String.eqb (url_pathname target) "/") = false) as ->.
  { case_bool_decide as E; [|done]. by rewrite Htp, Hroot. }
  by rewrite (no_configured_callback href url (url_href target) target config Hu Hta) by (congruence || by rewrite Htp).
Qed.

(** C24. A form selection that was kept before the provider was visited is what a
    callback on the same origin leads back to: the same path and query, or after
    a sign-out the home page with the query.  If what is kept begins with two
    slashes, which [rememberNativeReturn] does not refuse, the callback throws
    instead.  Either way it is forgotten then, and read back only once. *)
Theorem native_return_round_trip href url config slot m m1 callback cburl :
  new_URL href = Some url → rememberNativeReturn href config slot m = (Returns true, m1) →
  new_URL callback = Some cburl → url_origin_of cburl = url_origin_of url →
  let kept := kept_place slot url in
  ∃ key text, m1 = <[key := text]> m ∧
    (starts_with "//" (place_text kept) = false → ∀ target, reads_back kept target →
      consumeNativeReturn callback config slot m1 = (Returns (Some (url_href target)), delete key m)) ∧
    (starts_with "//" (place_text kept) = true →
      consumeNativeReturn callback config slot m1 = (Throws invalid_navigation, delete key m)) ∧
    consumeNativeReturn callback config slot (delete key m) = (Returns None, delete key m).
Proof.
  intros Hu Hr Hcb Ho kept. subst kept. apply (remembered_text _ _ _ _ _ _ Hu) in Hr as (Eh & Ec & Esel & store & Es & ->).
  set (key := slot_key store (slot_name slot)). eexists key, _. split; [done|].
  pose proof Es as Es'. rewrite (navigationStore_same url cburl) in Es' by done.
  pose proof (consume_text callback config slot m store cburl (place_text (kept_place slot url)) Hcb Es') as Hread. fold key in Hread.
  split; [|split].
  - intros Hl target Hb. rewrite Hread. f_equal. by rewrite (target_returned href url config slot cburl target).
  - intros Hl. rewrite Hread. f_equal. cbn [navigation_target]. by rewrite Hl, orb_true_r.
  - unfold consumeNativeReturn. rewrite Hcb. cbn [parsed with_storage]. rewrite Es'. cbn [with_storage].
    unfold browser_read. rewrite slot_name_nonempty, storage_reads. fold key. by rewrite lookup_delete_eq.
Qed.
End round_trip.
End theorems.

(** ** A sign-in from a form's link *)

Module CallbackSample.
#[local] Existing Instance coded_json.
#[local] Existing Instance coded_json_laws.

Definition place (path search : string) : Url := {|
  url_href := "https://h" +:+ path +:+ search; url_origin_of := "https://h"; url_protocol := "https:"; url_hostname := "h";
  url_pathname := path; url_search := search; url_hash := ""; url_username := ""; url_password := ""
|}.
Definition form_place : Url := place "/" "?q".
Definition callback_place : Url := place "/cb" "".
(** A link whose path begins with two slashes. *)
Definition slashed_place : Url := place "//form" "?q".

Definition find_place (s : string) : option Url :=
  List.find (λ u, String.eqb (url_href u) s) [form_place; callback_place; slashed_place].
#[local] Instance places : UrlLibrary := {|
  new_URL := find_place; new_URL_at := λ s base, find_place (base +:+ s);
  search_entries := λ s, if String.eqb s "?q" then [("form", "f"); ("package", "p")] else []; search_text := λ _, ""
|}.
#[local] Instance permissive : StoragePolicy := {| readable := λ _ _, true; writable := λ _ _ _, true; removable := λ _ _, true |}.
#[local] Instance permissive_reliable : ReliableStorage.
Proof. by constructor. Qed.

Definition client : OidcClientConfig :=
  {| oidc_issuer := "i"; oidc_clientId := "c"; redirectUri := Some "/cb"; silentRedirectUri := None; postLogoutRedirectUri := None |}.
Definition deployment : AuthConfig := {| identityProvider := "oidc"; config_oidc := Some client; scopeKey := None |}.
Definition remembered : outcome string bool * gmap string string := rememberNativeSignInReturn "https://h/?q" deployment ∅.

Lemma callback_matched : configuredAuthCallback "https://h/cb" deployment = Returns (Some Signin).
Proof. reflexivity. Qed.

Lemma form_remembered : remembered = (Returns true, remembered.2).
Proof.
  reflexivity.
Qed.

Lemma form_parsed : new_URL "https://h/?q" = Some form_place.
Proof. reflexivity. Qed.
Lemma callback_parsed : new_URL "https://h/cb" = Some callback_place.
Proof. reflexivity. Qed.

Lemma slashed_parsed : new_URL "https://h//form?q" = Some slashed_place.
Proof. reflexivity. Qed.

Lemma form_reads_back : reads_back form_place form_place.
Proof. split; done. Qed.

(** The callback leads back to the link, once; to a link whose path begins with two
    slashes it throws. *)
Theorem native_return_round_trip_witness :
  (∃ key,
    consumeNativeReturn "https://h/cb" deployment ReturnSlot remembered.2 = (Returns (Some "https://h/?q"), delete key ∅) ∧
    consumeNativeReturn "https://h/cb" deployment ReturnSlot (delete key ∅) = (Returns None, delete key ∅)) ∧
  (∃ m key, rememberNativeSignInReturn "https://h//form?q" deployment ∅ = (Returns true, m) ∧
    consumeNativeReturn "https://h/cb" deployment ReturnSlot m = (Throws "Stored form navigation is invalid.", delete key ∅)).
Proof.
  split.
  - destruct (native_return_round_trip "https://h/?q" form_place deployment ReturnSlot ∅ remembered.2 "https://h/cb" callback_place
      form_parsed form_remembered callback_parsed eq_refl) as (key & text & _ & Hkept & _ & Hgone).
    exists key. split; [exact (Hkept eq_refl form_place form_reads_back)|exact Hgone].
  - assert (rememberNativeSignInReturn "https://h//form?q" deployment ∅ =
      (Returns true, (rememberNativeSignInReturn "https://h//form?q" deployment ∅).2)) as Hm by reflexivity.
    destruct (native_return_round_trip "https://h//form?q" slashed_place deployment ReturnSlot ∅ _ "https://h/cb" callback_place
      slashed_parsed Hm callback_parsed eq_refl) as (key & text & _ & _ & Hrefused & _).
    exists (rememberNativeSignInReturn "https://h//form?q" deployment ∅).2, key. split; [exact Hm|exact (Hrefused eq_refl)].
Defined.
End CallbackSample.
