(* ===== verification/AnonymousSession.v ===== *)
(** * Anonymous sessions

    src/src/adapters/http/anonymous-session.ts: the sessions that the server issues
    to respondents without an account, one request at a time for a form, kept in
    the tab's metadata between loads and forgotten when the computer is cleared.
    An issue that was under way when its form was cleared is thrown away: each
    form has a generation, and each promise the one it was made in. *)

From S2P Require Import Prelude JsValue Text Async AsyncTokens ResponseAction IdempotencyKey ScopedMetadata DraftKeys DraftBindings EntryGates OidcSession ActionLedger HttpClient.

Record AnonymousSession : Set := {
  sessionId : string; sessionToken : string; session_subjectRef : string; session_formId : string; session_expiresAt : string
}.
#[export] Instance AnonymousSession_eq_dec : EqDecision AnonymousSession.
Proof. solve_decision. Defined.

(** An object of the map of sessions, with the form it was made for; and a promise
    of an issue, with the slot, the form and the generation it was made for. *)
Record SessionSlot : Set := { slot_form : string; slot_session : option AnonymousSession; slot_inFlight : option N }.
Record issue_promise : Set := {
  promise_slot : N; promise_form : string; promise_generation : N; promise_result : option (outcome string AnonymousSession)
}.

Record bridge_state : Set := {
  sessions : gmap string N;
  slots : gmap N SessionSlot;
  generations : gmap string N;
  issues : gmap N issue_promise;
  metadata : gmap string jsv;
  next_slot : N;
  next_issue : N
}.

Inductive bridge_operation : Set :=
  | SessionForForm (formUrl : string) (version : option string) (requireExisting : bool)
  | TokenForDraftKey (key : DraftKey) (requireExisting : bool)
  | TokenForHandoff (handoff : IntakeHandoff) (requireExisting : bool)
  | ClearForForm (formUrl : string) (version : option string) (preserveGrant : bool)
  | Authenticate (opt : IdpOption) (formUrl : string) (version : option string)
  | Revoke (formUrl : string) (version : option string).

Inductive bridge_reply : Set :=
  | SessionReply (session : AnonymousSession)
  | TokenReply (token : option string)
  | ClaimReply (claim : IdentityClaim)
  | Done_.

(** The calls out: validating the form's context, the post of the HTTP client, the
    await of a promise, the turn between a promise and what is chained to it; and,
    within the turn, the time, the identity provider's claim and the settling of
    a caller's promise. *)
Inductive bridge_call : Type → Type :=
  | ValidateFormContext (formUrl : string) (version : option string) : bridge_call unit
  | PostJson (path : string) : bridge_call jsv
  | AwaitIssue (promise : N) : bridge_call AnonymousSession
  | NextTurn : bridge_call unit
  | Now : bridge_call Z
  | SetClaim (claim : option IdentityClaim) : bridge_call unit
  | SettleBridge (op : bridge_operation) (result : outcome string bridge_reply) : bridge_call unit.

Abbreviation prog := (async bridge_state string bridge_call).

(** ** The state *)

Definition with_slots (f : gmap N SessionSlot → gmap N SessionSlot) (c : bridge_state) : bridge_state := {|
  sessions := sessions c; slots := f (slots c); generations := generations c; issues := issues c; metadata := metadata c;
  next_slot := next_slot c; next_issue := next_issue c |}.
Definition with_metadata (m : gmap string jsv) (c : bridge_state) : bridge_state := {|
  sessions := sessions c; slots := slots c; generations := generations c; issues := issues c; metadata := m;
  next_slot := next_slot c; next_issue := next_issue c |}.

Definition generation (formId : string) (c : bridge_state) : N := default 0%N (generations c !! formId).
Definition next_generation (formId : string) (c : bridge_state) : bridge_state := {|
  sessions := sessions c; slots := slots c; generations := <[formId := N.succ (generation formId c)]> (generations c);
  issues := issues c; metadata := metadata c; next_slot := next_slot c; next_issue := next_issue c |}.

Definition new_slot (formId : string) (session : option AnonymousSession) (c : bridge_state) : bridge_state := {|
  sessions := <[formId := next_slot c]> (sessions c);
  slots := <[next_slot c := {| slot_form := formId; slot_session := session; slot_inFlight := None |}]> (slots c);
  generations := generations c; issues := issues c; metadata := metadata c; next_slot := N.succ (next_slot c); next_issue := next_issue c |}.
Definition forget_slot (formId : string) (c : bridge_state) : bridge_state := {|
  sessions := delete formId (sessions c); slots := slots c; generations := generations c; issues := issues c; metadata := metadata c;
  next_slot := next_slot c; next_issue := next_issue c |}.

Definition no_slot : SessionSlot := {| slot_form := ""; slot_session := None; slot_inFlight := None |}.
Definition slot_of (s : N) (c : bridge_state) : SessionSlot := default no_slot (slots c !! s).

Definition set_flight (p : option N) (s : SessionSlot) : SessionSlot :=
  {| slot_form := slot_form s; slot_session := slot_session s; slot_inFlight := p |}.
Definition set_session (x : AnonymousSession) (s : SessionSlot) : SessionSlot :=
  {| slot_form := slot_form s; slot_session := Some x; slot_inFlight := slot_inFlight s |}.

(** [slot.inFlight = ...], with the promise. *)
Definition start_issue (s : N) (formId : string) (g : N) (c : bridge_state) : bridge_state := {|
  sessions := sessions c; slots := alter (set_flight (Some (next_issue c))) s (slots c); generations := generations c;
  issues := <[next_issue c := {| promise_slot := s; promise_form := formId; promise_generation := g; promise_result := None |}]> (issues c);
  metadata := metadata c; next_slot := next_slot c; next_issue := N.succ (next_issue c) |}.
Definition set_result (o : outcome string AnonymousSession) (p : issue_promise) : issue_promise := {|
  promise_slot := promise_slot p; promise_form := promise_form p; promise_generation := promise_generation p; promise_result := Some o |}.
Definition settle_issue (p : N) (o : outcome string AnonymousSession) (c : bridge_state) : bridge_state := {|
  sessions := sessions c; slots := slots c; generations := generations c; issues := alter (set_result o) p (issues c);
  metadata := metadata c; next_slot := next_slot c; next_issue := next_issue c |}.
(** [slot.session = ...] where the await returned, and [slot.inFlight = undefined]. *)
Definition end_flight (s : N) (o : outcome string AnonymousSession) : bridge_state → bridge_state :=
  with_slots (alter (λ x, set_flight None (match o with Returns session => set_session session x | Throws _ => x end)) s).

(** ** Sessions *)

Section bridge.
Context `{Forms : !FormIds, Dates : !DateParse, Policy : !MetadataPolicy}.
(** Whether the bridge was given the tab's metadata. *)
Context (has_metadata : bool).

Definition grant_slot (formId : string) : string := "grant:" +:+ formId.

Definition nonblank (v : jsv) : bool := match v with JStr s => nonempty (trim s) | _ => false end.
Definition anon_subject (v : jsv) : bool := match v with JStr s => starts_with "anon:" s && (5 <? utf16_length s)%nat | _ => false end.
Definition dated (v : jsv) : bool := match v with JStr s => isSome (parse_date s) | _ => false end.

Definition isSession (value : jsv) (formId : string) : bool :=
  isRecord value && nonblank (prop value "sessionId") && nonblank (prop value "sessionToken") && anon_subject (prop value "subjectRef")
  && is_lit (prop value "formId") formId && dated (prop value "expiresAt").

Definition read_session (value : jsv) : AnonymousSession := {|
  sessionId := text_of (prop value "sessionId"); sessionToken := text_of (prop value "sessionToken");
  session_subjectRef := text_of (prop value "subjectRef"); session_formId := text_of (prop value "formId");
  session_expiresAt := text_of (prop value "expiresAt") |}.
Definition session_value (s : AnonymousSession) : jsv := JObj [
  ("sessionId", JStr (sessionId s)); ("sessionToken", JStr (sessionToken s)); ("subjectRef", JStr (session_subjectRef s));
  ("formId", JStr (session_formId s)); ("expiresAt", JStr (session_expiresAt s))].

Definition EXPIRY_SKEW_MS : Z := 60000.
Definition expiresSoon (expiresAt : string) (now : Z) : bool :=
  match parse_date expiresAt with Some t => (t - now <=? EXPIRY_SKEW_MS)%Z | None => true end.

Definition assertSubjectMatches (serverSubjectRef : string) (requested : option string) : outcome string unit :=
  throw_when (nonempty (default "" requested) && negb (String.eqb (default "" requested) serverSubjectRef))
    "Anonymous session subject does not match the active respondent subject".

(** [typeof view === 'object'] and not null. *)
Definition is_object (v : jsv) : bool := match v with JObj _ | JArr _ => true | _ => false end.

(** All but the check of the time. *)
Definition view_ok (formId : string) (view : jsv) : bool :=
  nonblank (prop view "session_token") && anon_subject (prop view "subject_ref") && is_lit (prop view "form_id") formId
  && dated (prop view "expires_at").
Definition invalid_view : string := "Anonymous session response has invalid authentication or form binding".

Definition issueSession (formId : string) : prog AnonymousSession :=
  view ← invoke (PostJson ("/runtime/forms/" +:+ encodeURIComponent formId +:+ "/sessions/anonymous"));
  refuse_when (negb (is_object view)) "Anonymous session response is invalid" ;;
  refuse_when (negb (nonblank (prop view "session_id"))) "Anonymous session response is missing its server-issued session ID" ;;
  refuse_when (negb (view_ok formId view)) invalid_view ;;
  now ← invoke Now;
  refuse_when (default 0 (parse_date (text_of (prop view "expires_at"))) <=? now)%Z invalid_view ;;
  mret {| sessionId := text_of (prop view "session_id"); sessionToken := text_of (prop view "session_token");
          session_subjectRef := text_of (prop view "subject_ref"); session_formId := text_of (prop view "form_id");
          session_expiresAt := text_of (prop view "expires_at") |}.

(** What is chained to an issue: the session is kept if its form was not cleared. *)
Definition keep_issued (formId : string) (g : N) (session : AnonymousSession) : prog AnonymousSession :=
  c ← get;
  refuse_when (negb (g =? generation formId c)%N) "Anonymous session was cleared while it was being issued" ;;
  if has_metadata then
    let '(o, m) := slot_write (grant_slot formId) (session_value session) (metadata c) in
    modify (with_metadata m) ;; of_outcome o ;; mret session
  else mret session.

(** The slot of a form, made from what the metadata holds if there is none. *)
Definition open_slot (formId : string) : prog N :=
  c ← get;
  match sessions c !! formId with
  | Some s => mret s
  | None =>
      saved ← of_outcome (if has_metadata then slot_read (grant_slot formId) (metadata c) else Returns JUndef);
      refuse_when (negb (is_undefined saved) && negb (isSession saved formId))
        "Stored anonymous grant is invalid or bound to another form" ;;
      modify (new_slot formId (if is_undefined saved then None else Some (read_session saved))) ;;
      mret (next_slot c)
  end.

Definition sessionForForm (formUrl : string) (version : option string) (requireExisting : bool) : prog AnonymousSession :=
  let formId := resolveFormId formUrl version in
  c ← get;
  let g := generation formId c in
  invoke (ValidateFormContext formUrl version) ;;
  c ← get;
  refuse_when (negb (g =? generation formId c)%N) "Anonymous session context was cleared" ;;
  s ← open_slot formId;
  c ← get;
  match slot_session (slot_of s c), slot_inFlight (slot_of s c) with
  | Some session, _ =>
      now ← invoke Now;
      refuse_when (expiresSoon (session_expiresAt session) now)
        "Anonymous session is nearing expiration; renewal is required to preserve the active respondent" ;;
      mret session
  | None, Some p => invoke (AwaitIssue p)
  | None, None =>
      refuse_when requireExisting
        "The saved draft has no anonymous owner grant. Clear this computer before starting again." ;;
      modify (start_issue s formId g) ;;
      settle (session ← issueSession formId; invoke NextTurn ;; keep_issued formId g session) (λ o,
        modify (settle_issue (next_issue c) o) ;;
        settle (invoke (AwaitIssue (next_issue c))) (λ o,
          modify (end_flight s o) ;;
          of_outcome o))
  end.

(** Not the server's anonymous respondent: a subject of another provider. *)
Definition other_subject (subjectRef : option string) : bool :=
  match subjectRef with Some s => nonempty s && negb (starts_with "anon:" s) | None => false end.

Definition token_for (subjectRef : option string) (formUrl : string) (version : option string) (requireExisting : bool) : prog (option string) :=
  if other_subject subjectRef then mret None else
  session ← sessionForForm formUrl version requireExisting;
  of_outcome (assertSubjectMatches (session_subjectRef session) subjectRef) ;;
  mret (Some (sessionToken session)).

Definition tokenForDraftKey (key : DraftKey) (requireExisting : bool) : prog (option string) :=
  token_for (key_subjectRef key) (key_formUrl key) (key_formVersion key) requireExisting.
Definition tokenForHandoff (handoff : IntakeHandoff) (requireExisting : bool) : prog (option string) :=
  token_for (handoff_subjectRef handoff) (handoff_definitionUrl handoff) (Some (handoff_definitionVersion handoff)) requireExisting.

Definition clearForForm (formUrl : string) (version : option string) (preserveGrant : bool) : prog unit :=
  let formId := resolveFormId formUrl version in
  modify (next_generation formId) ;;
  c ← get;
  match s ← sessions c !! formId; slot_inFlight (slot_of s c) with
  | Some p => settle (invoke (AwaitIssue p)) (λ _, mret ())
  | None => mret ()
  end ;;
  if preserveGrant then mret () else
  c ← get;
  (if has_metadata then
     let '(o, m) := slot_remove (grant_slot formId) (metadata c) in
     modify (with_metadata m) ;; of_outcome o
   else mret ()) ;;
  modify (forget_slot formId).

(** ** The identity provider *)

Definition anonymous_discover (required : option AssuranceLevel) : list IdpOption :=
  if meetsAssurance L1 required then [AnonymousOption] else [].

Definition anonymous_claim (session : AnonymousSession) : IdentityClaim := {|
  provider := "formspec-server-anonymous-session"; adapter := "formspec-server-anonymous-session@0";
  subjectRef := session_subjectRef session; did := None; verificationMethod := None; credentialType := "provider-assertion";
  credentialRef := Some ("anonymous-session:" +:+ session_formId session); personhoodCheck := Some "not-performed";
  subjectBinding := "respondent"; assuranceLevel := L1; privacyTier := Some "anonymous"; selectiveDisclosureProfile := None;
  evidenceRef := None; expiresAt := Some (session_expiresAt session); nistAssurance := None |}.

Definition anonymous_authenticate (opt : IdpOption) (formUrl : string) (version : option string) : prog IdentityClaim :=
  refuse_when (negb (is_anonymous opt)) "HttpAnonymousIdentityProvider can only authenticate anonymous options" ;;
  session ← sessionForForm formUrl version false;
  invoke (SetClaim (Some (anonymous_claim session))) ;;
  mret (anonymous_claim session).

Definition anonymous_revoke (formUrl : string) (version : option string) : prog unit :=
  clearForForm formUrl version false ;;
  invoke (SetClaim None).

Definition bridge_perform (op : bridge_operation) : prog bridge_reply :=
  match op with
  | SessionForForm formUrl version requireExisting => SessionReply <$> sessionForForm formUrl version requireExisting
  | TokenForDraftKey key requireExisting => TokenReply <$> tokenForDraftKey key requireExisting
  | TokenForHandoff handoff requireExisting => TokenReply <$> tokenForHandoff handoff requireExisting
  | ClearForForm formUrl version preserveGrant => clearForForm formUrl version preserveGrant ;; mret Done_
  | Authenticate opt formUrl version => ClaimReply <$> anonymous_authenticate opt formUrl version
  | Revoke formUrl version => anonymous_revoke formUrl version ;; mret Done_
  end.

(** An operation, up to its caller's promise. *)
Definition bridge_operate (op : bridge_operation) : prog unit := settle (bridge_perform op) (λ o, invoke (SettleBridge op o)).
End bridge.

(** * What anonymous sessions callers get

    However calls of the bridge interleave, a session is its form's, a form that is
    not cleared has one session, whoever asks, and an issue that a clearing
    overtook is never fulfilled. *)

Inductive bridge_event : Type := Issuing (path : string) | BridgeSettled (op : bridge_operation) (result : outcome string bridge_reply).

Section bridge.
Context `{Forms : !FormIds, Dates : !DateParse, Policy : !MetadataPolicy} (has_metadata : bool).

Definition bridge_yields (X : Type) (q : bridge_call X) : bool :=
  match q with ValidateFormContext _ _ | PostJson _ | AwaitIssue _ | NextTurn => true | _ => false end.

Definition bridge_answers (X : Type) (q : bridge_call X) : outcome string X → bridge_state → Prop :=
  match q in bridge_call X return outcome string X → bridge_state → Prop with
  | AwaitIssue p => λ a c, ∃ r, issues c !! p = Some r ∧ promise_result r = Some a
  | NextTurn | SettleBridge _ _ => λ a _, a = Returns ()
  | Now => λ a _, ∃ t, a = Returns t
  | _ => λ _ _, True
  end.

Definition bridge_observe (X : Type) (q : bridge_call X) (_ : bridge_state) : list bridge_event :=
  match q with PostJson path => [Issuing path] | SettleBridge op r => [BridgeSettled op r] | _ => [] end.

(** ** The invariant *)

(** A session of a form. *)
Record session_valid (f : string) (x : AnonymousSession) : Prop := {
  valid_form : session_formId x = f;
  valid_id : nonblank (JStr (sessionId x)) = true;
  valid_token : nonblank (JStr (sessionToken x)) = true;
  valid_subject : anon_subject (JStr (session_subjectRef x)) = true;
  valid_date : is_Some (parse_date (session_expiresAt x))
}.

(** Under way, or fulfilled. *)
Definition live (r : issue_promise) : Prop := promise_result r = None ∨ ∃ x, promise_result r = Some (Returns x).

Record bridge_inv (c : bridge_state) : Prop := {
  bi_slot_fresh s sl : slots c !! s = Some sl → (s < next_slot c)%N;
  bi_issue_fresh p r : issues c !! p = Some r → (p < next_issue c)%N;
  bi_sessions f s : sessions c !! f = Some s → ∃ sl, slots c !! s = Some sl ∧ slot_form sl = f;
  bi_valid s sl x : slots c !! s = Some sl → slot_session sl = Some x → session_valid (slot_form sl) x;
  bi_flight s sl p : slots c !! s = Some sl → slot_inFlight sl = Some p →
    slot_session sl = None ∧ ∃ r, issues c !! p = Some r ∧ promise_slot r = s;
  bi_issue p r : issues c !! p = Some r → ∃ sl, slots c !! promise_slot r = Some sl ∧ slot_form sl = promise_form r ∧
    (promise_result r = None → slot_inFlight sl = Some p) ∧
    (∀ x, promise_result r = Some (Returns x) → session_valid (promise_form r) x ∧ (slot_inFlight sl = Some p ∨ slot_session sl = Some x));
  bi_one p q r r' : issues c !! p = Some r → issues c !! q = Some r' → live r → live r' → promise_slot r = promise_slot r' → p = q;
  bi_uncleared f s sl : generation f c = 0%N → slots c !! s = Some sl → slot_form sl = f → sessions c !! f = Some s
}.

(** What the bridge holds for a form, in a slot or a promise. *)
Definition held (c : bridge_state) (f : string) (x : AnonymousSession) : Prop :=
  ∃ s sl, slots c !! s = Some sl ∧ slot_form sl = f ∧
    (slot_session sl = Some x ∨ ∃ p r, issues c !! p = Some r ∧ promise_slot r = s ∧ promise_result r = Some (Returns x)).

Lemma held_valid c f x : bridge_inv c → held c f x → session_valid f x.
Proof.
  intros Hi (s & sl & Hs & <- & [Hx|(p & r & Hr & Hps & Hx)]); [by apply (bi_valid c Hi s)|].
  destruct (bi_issue c Hi p r Hr) as (sl' & Hs' & Hf & _ & Hv). assert (sl' = sl) as -> by congruence. rewrite Hf. by apply Hv.
Qed.

Lemma held_one c f x y : bridge_inv c → generation f c = 0%N → held c f x → held c f y → x = y.
Proof.
  intros Hi Hg (s & sl & Hs & Hf & Hx) (s' & sl' & Hs' & Hf' & Hy).
  pose proof (bi_uncleared c Hi f s sl Hg Hs Hf). pose proof (bi_uncleared c Hi f s' sl' Hg Hs' Hf'). assert (s' = s) as -> by congruence.
  assert (sl' = sl) as -> by congruence.
  assert (∀ z p r, issues c !! p = Some r → promise_slot r = s → promise_result r = Some (Returns z) → ∀ w, slot_session sl = Some w → w = z) as Hslot.
  { intros z p r Hr Hps Hz w Hw. destruct (bi_issue c Hi p r Hr) as (sl' & Hsl & _ & _ & Hv). assert (sl' = sl) as -> by congruence.
    destruct (Hv z Hz) as [_ [Hfl|?]]; [|congruence]. destruct (bi_flight c Hi s sl p Hs Hfl). congruence. }
  destruct Hx as [Hx|(p & r & Hr & Hps & Hx)], Hy as [Hy|(q & r' & Hr' & Hqs & Hy)].
  - congruence.
  - by eapply Hslot.
  - symmetry. by eapply Hslot.
  - assert (p = q) as <- by (eapply (bi_one c Hi); [done|done|right; by eexists|right; by eexists|congruence]). congruence.
Qed.

(** ** What the others do *)

Record bridge_mono (c c' : bridge_state) : Prop := {
  m_generation f : (generation f c ≤ generation f c')%N;
  m_slot s sl : slots c !! s = Some sl → ∃ sl', slots c' !! s = Some sl' ∧ slot_form sl' = slot_form sl ∧
    ∀ x, slot_session sl = Some x → slot_session sl' = Some x;
  m_issue p r : issues c !! p = Some r → ∃ r', issues c' !! p = Some r' ∧ promise_slot r' = promise_slot r ∧ promise_form r' = promise_form r ∧
    promise_generation r' = promise_generation r ∧ (∀ o, promise_result r = Some o → promise_result r' = Some o) ∧
    ((promise_generation r < generation (promise_form r) c)%N → promise_result r = None → ∀ x, promise_result r' ≠ Some (Returns x))
}.

#[local] Instance bridge_mono_preorder : PreOrder bridge_mono.
Proof.
  split.
  - intros c. split; [done|by intros s sl ?; exists sl|]. intros p r Hr. exists r. repeat (split; [done|]). intros _ -> x. done.
  - intros c1 c2 c3 [Hg Hs Hp] [Hg' Hs' Hp']. split.
    + intros f. etrans; [apply Hg|apply Hg'].
    + intros s sl (sl2 & H2 & Hf2 & Hx2)%Hs. destruct (Hs' s sl2 H2) as (sl3 & H3 & Hf3 & Hx3). exists sl3. split; [done|]. split; [congruence|]. auto.
    + intros p r (r2 & H2 & Hs2 & Hf2 & Hg2 & Ho2 & Hn2)%Hp. destruct (Hp' p r2 H2) as (r3 & H3 & Hs3 & Hf3 & Hg3 & Ho3 & Hn3).
      exists r3. split; [done|]. do 3 (split; [congruence|]). split; [auto|]. intros Hlt Hnone x.
      destruct (promise_result r2) as [o|] eqn:E; [|apply Hn3; [|done]; rewrite Hf2, Hg2; specialize (Hg (promise_form r)); lia].
      rewrite (Ho3 o eq_refl). intros [= ->]. by apply (Hn2 Hlt Hnone x).
Qed.

Lemma held_mono c c' f x : bridge_mono c c' → held c f x → held c' f x.
Proof.
  intros [_ Hs Hp] (s & sl & Hsl & <- & Hx). destruct (Hs s sl Hsl) as (sl' & Hsl' & Hf & Hx'). exists s, sl'. split; [done|]. split; [done|].
  destruct Hx as [Hx|(p & r & Hr & Hps & Hx)]; [left; auto|]. right. destruct (Hp p r Hr) as (r' & Hr' & Hps' & _ & _ & Ho & _).
  exists p, r'. split; [done|]. split; [congruence|auto].
Qed.

(** ** What is answered *)

Definition token_granted (c : bridge_state) (f : string) (subject token : option string) : Prop :=
  match token with
  | None => other_subject subject = true
  | Some t => ∃ x, held c f x ∧ t = sessionToken x ∧ subject ∈ [None; Some ""; Some (session_subjectRef x)]
  end.

Definition granted (c : bridge_state) (op : bridge_operation) (r : bridge_reply) : Prop :=
  match op, r with
  | SessionForForm url v _, SessionReply x => held c (resolveFormId url v) x
  | TokenForDraftKey key _, TokenReply t => token_granted c (resolveFormId (key_formUrl key) (key_formVersion key)) (key_subjectRef key) t
  | TokenForHandoff h _, TokenReply t =>
      token_granted c (resolveFormId (handoff_definitionUrl h) (Some (handoff_definitionVersion h))) (handoff_subjectRef h) t
  | Authenticate opt url v, ClaimReply claim => opt = AnonymousOption ∧ ∃ x, held c (resolveFormId url v) x ∧ claim = anonymous_claim x
  | ClearForForm _ _ _, Done_ | Revoke _ _, Done_ => True
  | _, _ => False
  end.

Lemma granted_mono c c' op r : bridge_mono c c' → granted c op r → granted c' op r.
Proof.
  intros Hm. assert (∀ f s t, token_granted c f s t → token_granted c' f s t) as Ht.
  { intros f s [t|]; [|done]. intros (x & Hx & Hr). exists x. split; [by eapply held_mono|done]. }
  destruct op, r; simpl; auto.
  - by apply held_mono.
  - intros [? (x & Hx & ?)]. split; [done|]. exists x. split; [by eapply held_mono|done].
Qed.

(** ** Who may do what *)

(** Whoever started the issue of a slot holds it until it is no longer under way. *)
Definition bridge_conditions : token_conditions bridge_state N bridge_call := {|
  tinv := bridge_inv;
  tmono := bridge_mono;
  tlocked := λ s c, isSome (slot_inFlight (slot_of s c));
  theld := λ s c c', slots c !! s = slots c' !! s ∧ ∀ p, slot_inFlight (slot_of s c) = Some p → issues c !! p = issues c' !! p;
  tissue := λ X q h c, match q with SettleBridge op (Returns r) => granted c op r | _ => True end
|}.

Lemma bridge_conditions_ok : token_conditions_ok bridge_conditions.
Proof.
  split; [apply _|]. intros s. split; [done|]. intros c1 c2 c3 [H12 Hp12] [H23 Hp23]. split; [congruence|]. intros p Hp.
  etrans; [by apply Hp12|]. apply Hp23. unfold slot_of in *. by rewrite <- H12.
Qed.

Abbreviation btok := (tok bridge_yields bridge_answers bridge_conditions).

Lemma slot_of_lookup s sl c : slots c !! s = Some sl → slot_of s c = sl.
Proof. unfold slot_of. by intros ->. Qed.

(** What leaves slots and promises alone. *)
Lemma quiet_moves h c c' : slots c' = slots c → issues c' = issues c → owns bridge_conditions h c → ∀ k, token_moves bridge_conditions h h k c c'.
Proof.
  intros Hs Hp Hh k. assert (∀ k, slot_of k c' = slot_of k c) as Hk by (intros k'; unfold slot_of; by rewrite Hs).
  unfold token_moves. cbn [tlocked theld bridge_conditions]. rewrite Hk, Hs, Hp. destruct (decide (h = Some k)) as [->|Hne]; [|done]. split; [by apply Hh|done].
Qed.

Lemma with_metadata_guarantee h m c : bridge_inv c → owns bridge_conditions h c → tguarantee bridge_conditions h h c (with_metadata m c).
Proof.
  intros Hi Hh. split; [|split; [|by apply quiet_moves]].
  - destruct Hi. split; done.
  - split; [done|by intros s sl ?; exists sl|]. intros p r Hr. exists r. repeat (split; [done|]). intros _ -> x. done.
Qed.

Lemma generation_next f f' c : generation f (next_generation f' c) = if decide (f = f') then N.succ (generation f c) else generation f c.
Proof.
  unfold generation at 1, next_generation. simpl. case_decide as E; [subst; by rewrite lookup_insert_eq|]. by rewrite lookup_insert_ne.
Qed.

Lemma next_generation_guarantee f c : bridge_inv c → tguarantee bridge_conditions None None c (next_generation f c).
Proof.
  intros Hi. split; [|split; [|by apply quiet_moves]].
  - destruct Hi as [Hsf Hif Hse Hv Hfl His Ho Hu]. split; try done. intros f' s sl Hg. apply Hu. rewrite generation_next in Hg. case_decide; lia.
  - split; [intros f'; rewrite generation_next; case_decide; lia|by intros s sl ?; exists sl|].
    intros p r Hr. exists r. repeat (split; [done|]). intros _ -> x. done.
Qed.

Lemma forget_slot_guarantee f c : bridge_inv c → generation f c ≠ 0%N → tguarantee bridge_conditions None None c (forget_slot f c).
Proof.
  intros Hi Hg. split; [|split; [|by apply quiet_moves]].
  - destruct Hi as [Hsf Hif Hse Hv Hfl His Ho Hu]. split; try done; simpl.
    + intros f' s [_ Hs]%lookup_delete_Some. by apply Hse.
    + intros f' s sl Hg' Hs Hf. rewrite lookup_delete_ne; [by eapply Hu|]. intros ->. done.
  - split; [done|by intros s sl ?; exists sl|]. intros p r Hr. exists r. repeat (split; [done|]). intros _ -> x. done.
Qed.

Lemma no_slot_yet c : bridge_inv c → slots c !! next_slot c = None.
Proof. intros Hi. destruct (slots c !! next_slot c) eqn:E; [|done]. apply (bi_slot_fresh c Hi) in E. lia. Qed.

Lemma new_slot_guarantee f session c : bridge_inv c → sessions c !! f = None → (∀ x, session = Some x → session_valid f x) →
  tguarantee bridge_conditions None None c (new_slot f session c).
Proof.
  intros Hi Hf Hx. pose proof (no_slot_yet c Hi) as Hn. destruct Hi as [Hsf Hif Hse Hv Hfl His Ho Hu].
  assert (∀ s sl, slots c !! s = Some sl → s ≠ next_slot c) as Hne by (intros s sl Hs ->; congruence).
  split; [|split].
  - split; simpl.
    + intros s sl. destruct (decide (s = next_slot c)) as [->|Hs]; [lia|]. rewrite lookup_insert_ne by done. intros ?%Hsf. lia.
    + done.
    + intros f' s. destruct (decide (f' = f)) as [->|Hff].
      * rewrite lookup_insert_eq. intros [= <-]. rewrite lookup_insert_eq. by eexists.
      * rewrite lookup_insert_ne by done. intros (sl & Hsl & E)%Hse. exists sl. rewrite lookup_insert_ne; [done|]. intros <-. by apply (Hne _ _ Hsl).
    + intros s sl x. destruct (decide (s = next_slot c)) as [->|Hs]; [rewrite lookup_insert_eq; intros [= <-]; apply Hx|].
      rewrite lookup_insert_ne by done. apply Hv.
    + intros s sl p. destruct (decide (s = next_slot c)) as [->|Hs]; [rewrite lookup_insert_eq; by intros [= <-]|].
      rewrite lookup_insert_ne by done. apply Hfl.
    + intros p r (sl & Hsl & Hr)%His. exists sl. rewrite lookup_insert_ne; [done|]. intros E. by apply (Hne _ _ Hsl).
    + done.
    + intros f' s sl Hg. destruct (decide (s = next_slot c)) as [->|Hs].
      * rewrite lookup_insert_eq. intros [= <-] <-. by rewrite lookup_insert_eq.
      * rewrite (lookup_insert_ne (slots c)) by done. intros Hsl E. pose proof (Hu f' s sl Hg Hsl E). rewrite lookup_insert_ne; [done|]. congruence.
  - split; simpl; [done| |].
    + intros s sl Hs. exists sl. rewrite lookup_insert_ne; [done|]. intros <-. by apply (Hne _ _ Hs).
    + intros p r Hr. exists r. repeat (split; [done|]). intros _ -> x. done.
  - intros k. unfold token_moves. rewrite !decide_False by done. cbn [tlocked theld bridge_conditions]. unfold slot_of. simpl.
    destruct (decide (k = next_slot c)) as [->|Hk]; [rewrite lookup_insert_eq, Hn; done|]. by rewrite lookup_insert_ne.
Qed.

(** ** An issue *)

(** The thread that issues for slot [s] holds it, with its promise. *)
Record issuing (f : string) (g s p : N) (c : bridge_state) : Prop := {
  is_slot : slots c !! s = Some {| slot_form := f; slot_session := None; slot_inFlight := Some p |};
  is_promise : issues c !! p = Some {| promise_slot := s; promise_form := f; promise_generation := g; promise_result := None |}
}.

Lemma alter_self {A} (f : A → A) (m : gmap N A) i x : m !! i = Some x → alter f i m !! i = Some (f x).
Proof. intros Hx. by rewrite lookup_alter_eq, Hx. Qed.

Lemma start_issue_guarantee s sl g c : bridge_inv c → slots c !! s = Some sl → slot_session sl = None → slot_inFlight sl = None →
  tguarantee bridge_conditions None (Some s) c (start_issue s (slot_form sl) g c) ∧ issuing (slot_form sl) g s (next_issue c) (start_issue s (slot_form sl) g c).
Proof.
  intros Hi Hs Hx Hn. assert (issues c !! next_issue c = None) as Hp.
  { destruct (issues c !! next_issue c) eqn:E; [|done]. apply (bi_issue_fresh c Hi) in E. lia. }
  destruct Hi as [Hsf Hif Hse Hv Hfl His Ho Hu].
  assert (∀ p r, issues c !! p = Some r → p ≠ next_issue c) as Hne by (intros p r Hr ->; congruence).
  assert (∀ s', slots (start_issue s (slot_form sl) g c) !! s' = if decide (s' = s) then Some (set_flight (Some (next_issue c)) sl) else slots c !! s') as Hsl.
  { intros s'. simpl. case_decide as E; [subst; by apply alter_self|by rewrite lookup_alter_ne]. }
  assert (∀ p, issues (start_issue s (slot_form sl) g c) !! p = if decide (p = next_issue c)
    then Some {| promise_slot := s; promise_form := slot_form sl; promise_generation := g; promise_result := None |} else issues c !! p) as Hpl.
  { intros p. simpl. case_decide as E; [subst; by rewrite lookup_insert_eq|by rewrite lookup_insert_ne]. }
  assert (∀ p r, issues c !! p = Some r → live r → promise_slot r ≠ s) as Hdead.
  { intros p r Hr Hlive Hps. destruct (His p r Hr) as (sl' & Hs' & _ & Hnone & Hsome). rewrite Hps in Hs'. assert (sl' = sl) as -> by congruence.
    destruct Hlive as [Hl|[x Hl]]; [specialize (Hnone Hl)|destruct (Hsome x Hl) as [_ [?|?]]]; congruence. }
  split; [|split; [rewrite Hsl, decide_True by done; unfold set_flight; by rewrite Hx|by rewrite Hpl, decide_True]].
  split; [|split].
  - split.
    + intros s' sl'. rewrite Hsl. case_decide; [intros _; subst; by eapply Hsf|apply Hsf].
    + intros p r. rewrite Hpl. simpl. case_decide; [lia|]. intros ?%Hif. lia.
    + intros f s' (sl' & Hs' & Hf)%Hse. rewrite Hsl. case_decide as E; [|by exists sl']. subst s'. assert (sl' = sl) as -> by congruence. by eexists.
    + intros s' sl' x. rewrite Hsl. case_decide; [intros [= <-]; simpl; congruence|apply Hv].
    + intros s' sl' p. rewrite Hsl. case_decide as E.
      * subst s'. intros [= <-] [= <-]. simpl. split; [done|]. rewrite Hpl, decide_True by done. by eexists.
      * intros Hs' Hf. destruct (Hfl s' sl' p Hs' Hf) as (? & r & Hr & ?). split; [done|]. exists r. rewrite Hpl, decide_False; [done|]. by eapply Hne.
    + intros p r. rewrite Hpl. case_decide as E.
      * intros [= <-]. simpl. exists (set_flight (Some (next_issue c)) sl). subst p. rewrite alter_self with (x := sl) by done. done.
      * intros Hr. destruct (His p r Hr) as (sl' & Hs' & Hf & Hnone & Hsome). rewrite Hsl. case_decide as E'; [|by exists sl'].
        rewrite E' in Hs'. assert (sl' = sl) as -> by congruence. eexists. split; [done|]. split; [done|].
        split; [intros Hl; destruct (Hdead p r Hr); [by left|done]|]. intros x Hl. destruct (Hdead p r Hr); [right; by eexists|done].
    + intros p q r r'. rewrite !Hpl. repeat case_decide; subst; try done.
      * intros [= <-] Hr' _ Hl E. by destruct (Hdead q r' Hr' Hl).
      * intros Hr [= <-] Hl _ E. by destruct (Hdead p r Hr Hl).
      * apply Ho.
    + intros f s' sl' Hg. rewrite Hsl. case_decide as E; [|by apply Hu]. intros [= <-] <-. subst s'. by eapply Hu.
  - split; [done| |].
    + intros s' sl' Hs'. rewrite Hsl. case_decide as E; [|by exists sl']. subst s'. assert (sl' = sl) as -> by congruence. eexists. split; [done|]. split; [done|]. simpl. congruence.
    + intros p r Hr. exists r. rewrite Hpl, decide_False by by eapply Hne. repeat (split; [done|]). intros _ -> x. done.
  - intros k. unfold token_moves. cbn [tlocked theld bridge_conditions]. unfold slot_of. rewrite Hsl. destruct (decide (Some s = Some k)) as [[= <-]|Hk].
    + rewrite decide_True, Hs by done. simpl. by rewrite Hn.
    + rewrite !decide_False by congruence. split; [done|]. intros _. split; [done|]. intros p Hp'. rewrite Hpl, decide_False; [done|].
      destruct (slots c !! k) as [sl'|] eqn:E; [|done]. destruct (Hfl k sl' p E Hp') as (_ & r & Hr & _). by eapply Hne.
Qed.

Lemma settle_issue_guarantee f g s p o c : bridge_inv c → issuing f g s p c → (∀ x, o = Returns x → session_valid f x ∧ generation f c = g) →
  tguarantee bridge_conditions (Some s) (Some s) c (settle_issue p o c).
Proof.
  intros Hi [Hs Hp] Hx. destruct Hi as [Hsf Hif Hse Hv Hfl His Ho Hu].
  set (old := {| promise_slot := s; promise_form := f; promise_generation := g; promise_result := None |}) in *.
  assert (∀ q, issues (settle_issue p o c) !! q = if decide (q = p) then Some (set_result o old) else issues c !! q) as Hpl.
  { intros q. simpl. case_decide as E; [subst q; by apply alter_self|by rewrite lookup_alter_ne]. }
  split; [|split].
  - split; try done.
    + intros q r. rewrite Hpl. simpl. case_decide; [intros _; subst; by eapply Hif|apply Hif].
    + intros s' sl q Hs' Hq. destruct (Hfl s' sl q Hs' Hq) as (? & r & Hr & E). split; [done|]. rewrite Hpl. case_decide; [|by exists r].
      exists (set_result o old). split; [done|]. subst q. assert (r = old) as -> by congruence. done.
    + intros q r. rewrite Hpl. case_decide as E; [|apply His]. intros [= <-]. subst q. destruct (His p old Hp) as (sl & Hsl & Hf & Hfly & _).
      exists sl. split; [done|]. split; [done|]. split; [done|]. simpl. intros x [= ->]. split; [by apply Hx|left; by apply Hfly].
    + intros q q' r r'. rewrite !Hpl. intros Hr Hr' Hl Hl' E.
      assert (∀ q r, (if decide (q = p) then Some (set_result o old) else issues c !! q) = Some r → live r → ∃ r0, issues c !! q = Some r0 ∧ live r0 ∧ promise_slot r0 = promise_slot r) as Hback.
      { intros q0 r0 Hq0 Hl0. case_decide as E0; [|by exists r0]. exists old. injection Hq0 as <-. subst q0. by split; [|split; [left|]]. }
      destruct (Hback q r Hr Hl) as (r0 & Hr0 & Hl0 & E0), (Hback q' r' Hr' Hl') as (r1 & Hr1 & Hl1 & E1). eapply Ho; [done..|congruence].
  - split; [done|by intros s' sl ?; exists sl|]. intros q r Hr. rewrite Hpl. case_decide as E.
    + subst q. assert (r = old) as -> by congruence. exists (set_result o old). do 5 (split; [done|]). simpl. intros Hlt _ x [= ->].
      destruct (Hx x eq_refl). lia.
    + exists r. repeat (split; [done|]). intros _ -> x. done.
  - intros k. unfold token_moves. cbn [tlocked theld bridge_conditions]. unfold slot_of. cbn [slots settle_issue].
    destruct (decide (Some s = Some k)) as [[= <-]|Hk]; [by rewrite Hs|]. split; [done|]. intros _. split; [done|]. intros q Hq. rewrite Hpl, decide_False; [done|].
    intros ->. destruct (slots c !! k) as [sl|] eqn:E; [|done]. destruct (Hfl k sl p E Hq) as (_ & r & Hr & <-). assert (r = old) as -> by congruence. done.
Qed.

Lemma end_flight_guarantee f g s p o c : bridge_inv c →
  slots c !! s = Some {| slot_form := f; slot_session := None; slot_inFlight := Some p |} →
  issues c !! p = Some {| promise_slot := s; promise_form := f; promise_generation := g; promise_result := Some o |} →
  tguarantee bridge_conditions (Some s) None c (end_flight s o c).
Proof.
  intros Hi Hs Hp. destruct Hi as [Hsf Hif Hse Hv Hfl His Ho Hu].
  set (sl0 := {| slot_form := f; slot_session := None; slot_inFlight := Some p |}) in *.
  set (r0 := {| promise_slot := s; promise_form := f; promise_generation := g; promise_result := Some o |}) in *.
  set (sl1 := set_flight None (match o with Returns x => set_session x sl0 | Throws _ => sl0 end)).
  assert (slot_form sl1 = f) as Hf1 by by destruct o.
  assert (∀ s', slots (end_flight s o c) !! s' = if decide (s' = s) then Some sl1 else slots c !! s') as Hsl.
  { intros s'. simpl. case_decide as E; [subst s'; rewrite (alter_self _ _ _ sl0) by done; by destruct o|by rewrite lookup_alter_ne]. }
  split; [|split].
  - split; try done.
    + intros s' sl. rewrite Hsl. case_decide as E; [intros _; subst s'; by eapply Hsf|apply Hsf].
    + intros f' s' (sl & Hs' & Hf)%Hse. rewrite Hsl. case_decide as E; [|by exists sl]. subst s'. assert (sl = sl0) as -> by congruence. exists sl1. split; [done|]. by rewrite Hf1, <- Hf.
    + intros s' sl x. rewrite Hsl. case_decide; [|apply Hv]. intros [= <-]. rewrite Hf1. destruct o as [y|e]; simpl; [|done]. intros [= <-].
      destruct (His p r0 Hp) as (sl' & _ & _ & _ & Hval). by destruct (Hval y eq_refl).
    + intros s' sl q. rewrite Hsl. case_decide; [by intros [= <-]|apply Hfl].
    + intros q r Hr. change (issues c !! q = Some r) in Hr. destruct (His q r Hr) as (sl & Hslr & Hf & Hnone & Hsome). rewrite Hsl. case_decide as E; [|by exists sl].
      rewrite E in Hslr. assert (sl = sl0) as -> by congruence. exists sl1. split; [done|]. split; [by rewrite Hf1|].
      assert (live r → q = p ∧ r = r0) as Hone.
      { intros Hl. assert (slot_inFlight sl0 = Some q) as Hq; [|simpl in Hq; assert (q = p) as -> by congruence; split; [done|congruence]].
        destruct Hl as [Hl|[x Hl]]; [by apply Hnone|]. by destruct (Hsome x Hl) as [_ [?|?]]. }
      split; [intros Hl; by destruct (Hone (or_introl Hl)) as [_ ->]|]. intros x Hl. destruct (Hone (or_intror (ex_intro _ x Hl))) as [-> ->].
      split; [by apply Hsome|right]. injection Hl as ->. done.
    + intros f' s' sl Hg. rewrite Hsl. case_decide as E; [|by apply Hu]. intros [= <-] <-. subst s'. rewrite Hf1 in *. by eapply Hu.
  - split; [done| |].
    + intros s' sl Hs'. rewrite Hsl. case_decide as E; [|by exists sl]. subst s'. assert (sl = sl0) as -> by congruence. exists sl1. by split; [|split].
    + intros q r Hr. exists r. repeat (split; [done|]). intros _ -> x. done.
  - intros k. unfold token_moves. rewrite (decide_False (P := None = Some k)) by done. cbn [tlocked theld bridge_conditions]. unfold slot_of. rewrite Hsl.
    destruct (decide (Some s = Some k)) as [[= <-]|Hk]; [by rewrite decide_True; [destruct o|]|]. rewrite decide_False by congruence. done.
Qed.

(** ** The operations *)

Lemma tok_refuse {A} b e (m : prog A) h c Q : (b = true → Q h (Throws e) c) → (b = false → btok m h c Q) → btok (refuse_when b e ;; m) h c Q.
Proof. intros Ht Hf. apply tok_bind. unfold refuse_when. destruct b; [by apply Ht|by apply Hf]. Qed.

(** A call that ends the turn. *)
Lemma tok_wait {X} (q : bridge_call X) h c Q : bridge_yields X q = true →
  (match q with SettleBridge _ _ => False | _ => True end) →
  (∀ c' a, bridge_inv c' → bridge_mono c c' → (∀ k, h = Some k → theld bridge_conditions k c c') → bridge_answers X q a c' → Q h a c') →
  btok (invoke q) h c Q.
Proof.
  intros Hy Hq HQ. split; [by destruct q|]. intros c' a Hr Ha. rewrite Hy in Hr. destruct Hr as (Hi & Hm & Hh). simpl. by apply HQ.
Qed.

Lemma issuing_held f g s p c c' : bridge_inv c → theld bridge_conditions s c c' → issuing f g s p c → issuing f g s p c'.
Proof.
  intros Hi [Hs Hp] [H1 H2]. split; [by rewrite <- Hs|]. rewrite <- Hp; [done|]. by rewrite (slot_of_lookup _ _ _ H1).
Qed.

Lemma issuing_owns f g s p c : issuing f g s p c → owns bridge_conditions (Some s) c.
Proof. intros [Hs _] k [= <-]. cbn [tlocked bridge_conditions]. by rewrite (slot_of_lookup _ _ _ Hs). Qed.

(** What holds as long as the issue is under way. *)
Definition under_way {A} (f : string) (g s p : N) (R : A → bridge_state → Prop) (h : option N) (o : outcome string A) (c : bridge_state) : Prop :=
  h = Some s ∧ bridge_inv c ∧ issuing f g s p c ∧ ∀ x, o = Returns x → R x c.

Lemma nonblank_text v : nonblank v = true → nonblank (JStr (text_of v)) = true.
Proof. by destruct v. Qed.
Lemma anon_text v : anon_subject v = true → anon_subject (JStr (text_of v)) = true.
Proof. by destruct v. Qed.
Lemma dated_text v : dated v = true → is_Some (parse_date (text_of v)).
Proof. destruct v; try done. simpl. by destruct (parse_date s). Qed.
Lemma lit_text v s : is_lit v s = true → text_of v = s.
Proof. destruct v; try done. by intros ->%String.eqb_eq. Qed.

Lemma issueSession_tok f g s p c : bridge_inv c → issuing f g s p c →
  btok (issueSession f) (Some s) c (under_way f g s p (λ x _, session_valid f x)).
Proof.
  intros Hi His. unfold issueSession. apply tok_bind, tok_wait; [done|done|]. intros c' a Hi' _ Hh _.
  apply (issuing_held _ _ _ _ _ _ Hi (Hh s eq_refl)) in His. destruct a as [view|e]; [|by split].
  apply tok_refuse; [by split|]. intros _. apply tok_refuse; [by split|]. intros Hid. apply tok_refuse; [by split|]. intros Hok.
  apply tok_bind. split; [done|]. intros c2 a -> [now ->]. simpl. apply tok_refuse; [by split|]. intros Hnow. split; [done|]. split; [done|]. split; [done|].
  intros x [= <-]. apply negb_false_iff in Hid, Hok. unfold view_ok in Hok. rewrite !andb_true_iff in Hok. destruct Hok as [[[Ht Hs] Hf] Hd].
  constructor; [by apply lit_text|by apply nonblank_text|by apply nonblank_text|by apply anon_text|by apply dated_text].
Qed.

Lemma keep_issued_tok f g s p x c : bridge_inv c → issuing f g s p c → session_valid f x →
  btok (keep_issued has_metadata f g x) (Some s) c (under_way f g s p (λ y c, session_valid f y ∧ generation f c = g)).
Proof.
  intros Hi His Hx. unfold keep_issued. apply tok_bind. cbn [AsyncTokens.tok get]. apply tok_refuse; [by split|].
  intros Hg%negb_false_iff%N.eqb_eq. destruct has_metadata.
  2: { split; [done|]. split; [done|]. split; [done|]. by intros y [= <-]. }
  destruct (slot_write _ _ _) as [o m]. apply tok_bind. unfold modify at 1. cbn [AsyncTokens.tok]. exists (Some s).
  split; [apply with_metadata_guarantee; [done|by eapply issuing_owns]|]. assert (bridge_inv (with_metadata m c)) as Hi' by (destruct Hi; by split).
  assert (issuing f g s p (with_metadata m c)) as His' by by destruct His.
  apply tok_bind. unfold of_outcome. destruct o as [u|e]; [|by split]. split; [done|]. split; [done|]. split; [done|]. by intros y [= <-].
Qed.

Lemma read_session_valid f v : isSession v f = true → session_valid f (read_session v).
Proof.
  unfold isSession. rewrite !andb_true_iff. intros [[[[[_ Hi] Ht] Hs] Hf] Hd].
  constructor; [by apply lit_text|by apply nonblank_text|by apply nonblank_text|by apply anon_text|by apply dated_text].
Qed.

Lemma open_slot_tok f c : bridge_inv c →
  btok (open_slot has_metadata f) None c (λ h o c', h = None ∧ bridge_inv c' ∧ ∀ s, o = Returns s → ∃ sl, slots c' !! s = Some sl ∧ slot_form sl = f).
Proof.
  intros Hi. unfold open_slot. apply tok_bind. cbn [AsyncTokens.tok get]. destruct (sessions c !! f) as [s|] eqn:E.
  { split; [done|]. split; [done|]. intros s' [= <-]. by apply (bi_sessions c Hi). }
  apply tok_bind. unfold of_outcome at 1. destruct (if has_metadata then _ else _) as [saved|e]; [|by split].
  cbn [AsyncTokens.tok]. apply tok_refuse; [by split|]. intros Hok. apply tok_bind. unfold modify at 1. cbn [AsyncTokens.tok]. exists None.
  assert (tguarantee bridge_conditions None None c (new_slot f (if is_undefined saved then None else Some (read_session saved)) c)) as Hg.
  { apply new_slot_guarantee; [done|done|]. intros x Hx. destruct (is_undefined saved); [done|]. injection Hx as <-.
    apply read_session_valid. by apply negb_false_iff in Hok. }
  split; [done|]. split; [done|]. split; [apply Hg|]. intros s [= <-]. simpl. rewrite lookup_insert_eq. by eexists.
Qed.

Definition session_answered (f : string) (h : option N) (o : outcome string AnonymousSession) (c : bridge_state) : Prop :=
  h = None ∧ bridge_inv c ∧ ∀ x, o = Returns x → held c f x.

(** The issue of the slot, up to what its caller gets. *)
Lemma flight_tok f g s p c : bridge_inv c → issuing f g s p c →
  btok (settle (session ← issueSession f; invoke NextTurn ;; keep_issued has_metadata f g session) (λ o,
         modify (settle_issue p o) ;;
         settle (invoke (AwaitIssue p)) (λ o, modify (end_flight s o) ;; of_outcome o))) (Some s) c (session_answered f).
Proof.
  intros Hi His. apply tok_settle.
  assert (btok (session ← issueSession f; invoke NextTurn ;; keep_issued has_metadata f g session) (Some s) c
    (under_way f g s p (λ y c, session_valid f y ∧ generation f c = g))) as Hrun.
  { apply tok_bind. eapply tok_weaken; [|by apply issueSession_tok]. intros h o c1 (-> & Hi1 & His1 & Hx). destruct o as [x|e]; [|by split].
    specialize (Hx x eq_refl). apply tok_bind, tok_wait; [done|done|]. intros c2 a Hi2 _ Hh ->.
    apply (issuing_held _ _ _ _ _ _ Hi1 (Hh s eq_refl)) in His1. by apply keep_issued_tok. }
  eapply tok_weaken; [|exact Hrun]. clear c Hi His Hrun. intros h o c (-> & Hi & His & Hx).
  apply tok_bind. unfold modify at 1. cbn [AsyncTokens.tok]. exists (Some s).
  assert (tguarantee bridge_conditions (Some s) (Some s) c (settle_issue p o c)) as Hg by by eapply settle_issue_guarantee.
  split; [exact Hg|]. destruct Hg as (Hi' & _ & _). destruct His as [Hs Hp].
  assert (slots (settle_issue p o c) !! s = Some {| slot_form := f; slot_session := None; slot_inFlight := Some p |}) as Hs1 by exact Hs.
  assert (issues (settle_issue p o c) !! p = Some {| promise_slot := s; promise_form := f; promise_generation := g; promise_result := Some o |}) as Hp'
    by (simpl; by rewrite (alter_self _ _ _ _ Hp)).
  apply tok_settle, tok_wait; [done|done|]. intros c2 a Hi2 _ Hh (r & Hr & Ha). destruct (Hh s eq_refl) as [Hs2 Hp2].
  assert (slots c2 !! s = Some {| slot_form := f; slot_session := None; slot_inFlight := Some p |}) as Hsl2 by by rewrite <- Hs2.
  specialize (Hp2 p). rewrite (slot_of_lookup _ _ _ Hs1) in Hp2. specialize (Hp2 eq_refl). rewrite <- Hp2, Hp' in Hr. injection Hr as <-.
  simpl in Ha. injection Ha as <-. rewrite Hp2 in Hp'.
  apply tok_bind. unfold modify at 1. cbn [AsyncTokens.tok]. exists None.
  assert (tguarantee bridge_conditions (Some s) None c2 (end_flight s o c2)) as Hg by by eapply end_flight_guarantee.
  split; [exact Hg|]. split; [done|]. split; [apply Hg|]. intros x [= ->].
  exists s. eexists. split; [simpl; by rewrite (alter_self _ _ _ _ Hsl2)|]. split; [done|by left].
Qed.

Lemma sessionForForm_tok url v existing c : bridge_inv c → btok (sessionForForm has_metadata url v existing) None c (session_answered (resolveFormId url v)).
Proof.
  intros Hi. unfold sessionForForm. set (f := resolveFormId url v). apply tok_bind. cbn [AsyncTokens.tok get]. set (g := generation f c).
  apply tok_bind, tok_wait; [done|done|]. intros c1 a Hi1 _ _ _. destruct a as [u|e]; [|by split]. apply tok_bind. cbn [AsyncTokens.tok get].
  apply tok_refuse; [by split|]. intros _. apply tok_bind. eapply tok_weaken; [|by apply open_slot_tok]. intros h o c2 (-> & Hi2 & Ho).
  destruct o as [s|e]; [|by split]. destruct (Ho s eq_refl) as (sl & Hs & Hf). apply tok_bind. cbn [AsyncTokens.tok get]. rewrite (slot_of_lookup _ _ _ Hs).
  destruct (slot_session sl) as [x|] eqn:Ex; [|destruct (slot_inFlight sl) as [p|] eqn:Ep].
  - apply tok_bind. split; [done|]. intros c3 b -> [now ->]. simpl. apply tok_refuse; [by split|]. intros _. split; [done|]. split; [done|].
    intros y [= <-]. exists s, sl. auto.
  - destruct (bi_flight c2 Hi2 s sl p Hs Ep) as (_ & r & Hr & Hps). apply tok_wait; [done|done|]. intros c3 b Hi3 [_ Hms Hmp] _ (r' & Hr' & Hb).
    split; [done|]. split; [done|]. intros y ->. destruct (Hms s sl Hs) as (sl' & Hs' & Hf' & _). destruct (Hmp p r Hr) as (r2 & Hr2 & Hps2 & _).
    exists s, sl'. split; [done|]. split; [congruence|]. right. exists p, r'. split; [done|]. split; [congruence|done].
  - apply tok_refuse; [by split|]. intros _. apply tok_bind. unfold modify at 1. cbn [AsyncTokens.tok]. exists (Some s).
    destruct (start_issue_guarantee s sl g c2 Hi2 Hs Ex Ep) as [Hg His]. rewrite Hf in Hg, His. split; [exact Hg|].
    apply flight_tok; [apply Hg|done].
Qed.

Lemma token_tok subject url v existing c : bridge_inv c →
  btok (token_for has_metadata subject url v existing) None c
    (λ h o c', h = None ∧ bridge_inv c' ∧ ∀ t, o = Returns t → token_granted c' (resolveFormId url v) subject t).
Proof.
  intros Hi. unfold token_for. destruct (other_subject subject) eqn:Eo; [split; [done|]; split; [done|]; by intros t [= <-]|].
  apply tok_bind. eapply tok_weaken; [|by apply sessionForForm_tok]. intros h o c1 (-> & Hi1 & Hx). destruct o as [x|e]; [|by split].
  apply tok_bind. unfold assertSubjectMatches, of_outcome, throw_when.
  destruct (nonempty (default "" subject) && negb (String.eqb (default "" subject) (session_subjectRef x))) eqn:E; [by split|].
  split; [done|]. split; [done|]. intros t [= <-]. exists x. split; [by apply Hx|]. split; [done|]. destruct subject as [[|a s]|]; [right; left| |left].
  apply andb_false_iff in E as [E|E]; [done|]. apply negb_false_iff, String.eqb_eq in E. simpl in E. rewrite <- E. right. right. left.
Qed.

Lemma clearForForm_tok url v preserve c : bridge_inv c →
  btok (clearForForm has_metadata url v preserve) None c (λ h o c', h = None ∧ bridge_inv c').
Proof.
  intros Hi. unfold clearForForm. set (f := resolveFormId url v). apply tok_bind. unfold modify at 1. cbn [AsyncTokens.tok]. exists None.
  pose proof (next_generation_guarantee f c Hi) as Hg. split; [exact Hg|]. destruct Hg as (Hi1 & _ & _). set (c1 := next_generation f c) in *.
  assert (generation f c1 ≠ 0%N) as Hgen by (unfold c1; rewrite generation_next, decide_True by done; lia).
  apply tok_bind. cbn [AsyncTokens.tok get]. apply tok_bind.
  assert (∀ c2, bridge_inv c2 → generation f c2 ≠ 0%N → btok (if preserve then mret () else
    c ← get;
    (if has_metadata then let '(o, m) := slot_remove (grant_slot f) (metadata c) in modify (with_metadata m) ;; of_outcome o else mret ()) ;;
    modify (forget_slot f)) None c2 (λ h o c', h = None ∧ bridge_inv c')) as Hrest.
  { intros c2 Hi2 Hg2. destruct preserve; [done|]. apply tok_bind. cbn [AsyncTokens.tok get]. apply tok_bind.
    assert (∀ c3, bridge_inv c3 → generation f c3 ≠ 0%N → btok (modify (forget_slot f) : prog unit) None c3 (λ h o c', h = None ∧ bridge_inv c')) as Hforget.
    { intros c3 Hi3 Hg3. exists None. pose proof (forget_slot_guarantee f c3 Hi3 Hg3) as Hg. split; [exact Hg|]. split; [done|apply Hg]. }
    destruct has_metadata; [|by apply Hforget]. destruct (slot_remove _ _) as [o m]. apply tok_bind. unfold modify at 1. cbn [AsyncTokens.tok]. exists None.
    pose proof (with_metadata_guarantee None m c2 Hi2 ltac:(by intros k)) as Hg. split; [exact Hg|]. unfold of_outcome. destruct o; [|split; [done|apply Hg]].
    apply Hforget; [apply Hg|done]. }
  destruct (s ← sessions c1 !! f; slot_inFlight (slot_of s c1)) as [p|]; [|by apply Hrest].
  apply tok_settle, tok_wait; [done|done|]. intros c2 a Hi2 [Hm _ _] _ _. apply Hrest; [done|]. specialize (Hm f). lia.
Qed.

Lemma bridge_perform_tok op c : bridge_inv c →
  btok (bridge_perform has_metadata op) None c (λ h o c', h = None ∧ bridge_inv c' ∧ ∀ r, o = Returns r → granted c' op r).
Proof.
  intros Hi. destruct op as [url v existing|key existing|h existing|url v preserve|opt url v|url v]; cbn [bridge_perform]; apply tok_bind.
  - eapply tok_weaken; [|by apply sessionForForm_tok]. intros h [x|e] c' (-> & Hi' & Hx); (split; [done|]; split; [done|]); [|done].
    intros r [= <-]. by apply Hx.
  - eapply tok_weaken; [|by apply token_tok]. intros h [x|e] c' (-> & Hi' & Hx); (split; [done|]; split; [done|]); [|done].
    intros r [= <-]. by apply Hx.
  - eapply tok_weaken; [|by apply token_tok]. intros h' [x|e] c' (-> & Hi' & Hx); (split; [done|]; split; [done|]); [|done].
    intros r [= <-]. by apply Hx.
  - eapply tok_weaken; [|by apply clearForForm_tok]. intros h [x|e] c' (-> & Hi'); (split; [done|]; split; [done|]); [|done].
    by intros r [= <-].
  - unfold anonymous_authenticate. apply tok_refuse; [by split|]. intros Ho. apply tok_bind. eapply tok_weaken; [|by apply sessionForForm_tok].
    intros h [x|e] c' (-> & Hi' & Hx); [|by split]. apply tok_bind. split; [done|]. intros c2 [u|e] -> _; [|by split].
    split; [done|]. split; [done|]. intros r [= <-]. split; [by destruct opt|]. exists x. split; [by apply Hx|done].
  - unfold anonymous_revoke. apply tok_bind. eapply tok_weaken; [|by apply clearForForm_tok]. intros h [x|e] c' (-> & Hi'); [|by split].
    split; [done|]. intros c2 [u|e] -> _; [|by split]. split; [done|]. split; [done|]. by intros r [= <-].
Qed.

Lemma bridge_operate_tok op c : bridge_inv c → btok (bridge_operate has_metadata op) None c (empty_handed (F := string)).
Proof.
  intros Hi. apply tok_settle. eapply tok_weaken; [|by apply bridge_perform_tok]. intros h o c' (-> & Hi' & Hp). split.
  - destruct o as [r|e]; [by apply Hp|done].
  - by intros c2 a -> ->.
Qed.

(** ** Every run *)

Definition bridge_recorded (l : list bridge_event) (c : bridge_state) : Prop :=
  ∀ op r, BridgeSettled op (Returns r) ∈ l → granted c op r.

(** A bridge that is new, with what the tab keeps. *)
Definition fresh_bridge (m : gmap string jsv) : bridge_state := {|
  sessions := ∅; slots := ∅; generations := ∅; issues := ∅; metadata := m; next_slot := 0; next_issue := 0 |}.

Abbreviation bridge_world := (world (C := bridge_state) (F := string) (call := bridge_call) (Ev := bridge_event) unit).
Definition bridge_entry (p : prog unit) : Prop := ∃ op, p = bridge_operate has_metadata op.
Definition bridge_step : bridge_world → bridge_world → Prop := step bridge_yields bridge_answers bridge_observe bridge_entry.
Definition bridge_reachable (m : gmap string jsv) : bridge_world → Prop :=
  reachable bridge_yields bridge_answers bridge_observe bridge_entry (fresh_bridge m).

Lemma bridge_recorded_mono l c c' : bridge_inv c' → bridge_mono c c' → bridge_recorded l c → bridge_recorded l c'.
Proof. intros _ Hm Hr op r Hin. by eapply granted_mono, Hr. Qed.

Lemma bridge_recorded_issue X (q : bridge_call X) h c l : bridge_inv c → tissue bridge_conditions q h c → owns bridge_conditions h c →
  bridge_recorded l c → bridge_recorded (l ++ bridge_observe X q c) c.
Proof.
  intros Hi Hiss _ Hr op r. rewrite elem_of_app. intros [Hin|Hin]; [by apply Hr|].
  destruct q; simpl in Hin; try (by apply elem_of_nil in Hin); apply list_elem_of_singleton in Hin; [done|]. injection Hin as -> <-. exact Hiss.
Qed.

Lemma bridge_reachable_ok m w : bridge_reachable m w → ∃ H, tworld_ok bridge_yields bridge_answers bridge_conditions bridge_recorded (λ _ _ _ _, True) w H.
Proof.
  intros Hw. eapply (tokens_reachable_ok bridge_yields bridge_answers bridge_observe bridge_conditions bridge_conditions_ok bridge_recorded
    bridge_recorded_mono bridge_recorded_issue) in Hw; try done.
  - intros p c [op ->] Hi. by apply bridge_operate_tok.
  - by intros op r ?%elem_of_nil.
Qed.

Lemma bridge_steps_mono m w w' : bridge_reachable m w → rtc bridge_step w w' → bridge_mono (shared w) (shared w').
Proof.
  intros [H Hw]%bridge_reachable_ok Hs.
  eapply (tokens_steps_ok bridge_yields bridge_answers bridge_observe bridge_conditions bridge_conditions_ok bridge_recorded
    bridge_recorded_mono bridge_recorded_issue) with (kept := λ _ _ _ _, True) in Hs as [Hm _]; try first [exact Hm|exact Hw|done].
  intros p c [op ->] Hi. by apply bridge_operate_tok.
Qed.

(** C21. However calls of the bridge interleave, whatever the server answers and the
    tab kept: a session that a call gets, or whose token or claim it gets, is a
    valid one of its form and of the subject it asked for; as long as a form is
    not cleared, all its calls get the one session, and one issue is under way or
    fulfilled; and an issue that a clearing overtook is never fulfilled. *)
Theorem anonymous_sessions_sound m w : bridge_reachable m w →
  (∀ op r, BridgeSettled op (Returns r) ∈ events w → granted (shared w) op r) ∧
  (∀ f x, held (shared w) f x → session_valid f x) ∧
  (∀ f, generation f (shared w) = 0%N →
    (∀ x y, held (shared w) f x → held (shared w) f y → x = y) ∧
    (∀ p q r r', issues (shared w) !! p = Some r → issues (shared w) !! q = Some r' → live r → live r' →
      promise_form r = f → promise_form r' = f → p = q)) ∧
  (∀ p r, issues (shared w) !! p = Some r → promise_result r = None → (promise_generation r < generation (promise_form r) (shared w))%N →
    ∀ w' r' x, rtc bridge_step w w' → issues (shared w') !! p = Some r' → promise_result r' ≠ Some (Returns x)).
Proof.
  intros Hw. pose proof Hw as [H [Hi _ _ _ _ Hr]]%bridge_reachable_ok. simpl in Hi. split; [exact Hr|]. split; [intros f x; by apply held_valid|]. split.
  - intros f Hg. split; [intros x y; by apply held_one|]. intros p q r r' Hp Hq Hl Hl' Hf Hf'.
    destruct (bi_issue _ Hi p r Hp) as (sl & Hs & Hfs & _), (bi_issue _ Hi q r' Hq) as (sl' & Hs' & Hfs' & _).
    eapply (bi_one _ Hi); [exact Hp|exact Hq|done|done|].
    pose proof (bi_uncleared _ Hi f _ sl Hg Hs ltac:(congruence)). pose proof (bi_uncleared _ Hi f _ sl' Hg Hs' ltac:(congruence)). congruence.
  - intros p r Hp Hn Hlt w' r' x Hsteps Hp'. destruct (bridge_steps_mono _ _ _ Hw Hsteps) as [_ _ Hm].
    destruct (Hm p r Hp) as (r2 & Hr2 & _ & _ & _ & _ & Hno). assert (r' = r2) as -> by congruence. by apply Hno.
Qed.
End bridge.

(** ** A run *)

Module AnonymousSample.

#[export] Instance form_ids : FormIds := λ url _, url.
#[export] Instance dates : DateParse := λ s, if String.eqb s "later" then Some 1000000%Z else None.
#[export] Instance open_metadata : MetadataPolicy := {|
  slot_readable := λ _ _, true; slot_writable := λ _ _ _, true; slot_removable := λ _ _, true |}.

Definition view : jsv := JObj [("session_id", JStr "i"); ("session_token", JStr "t"); ("subject_ref", JStr "anon:1"); ("form_id", JStr "f");
  ("expires_at", JStr "later")].
Definition session : AnonymousSession := {|
  sessionId := "i"; sessionToken := "t"; session_subjectRef := "anon:1"; session_formId := "f"; session_expiresAt := "later" |}.

(** The server issues the session, at time zero. *)
Definition answer (X : Type) (q : bridge_call X) : bridge_state → option (outcome string X) :=
  match q in bridge_call X return bridge_state → option (outcome string X) with
  | PostJson _ => λ _, Some (Returns view)
  | AwaitIssue p => λ c, match issues c !! p with Some r => promise_result r | None => None end
  | Now => λ _, Some (Returns 0%Z)
  | ValidateFormContext _ _ | NextTurn | SetClaim _ | SettleBridge _ _ => λ _, Some (Returns ())
  end.

Lemma bridge_answer_ok X (q : bridge_call X) c a : answer X q c = Some a → bridge_answers X q a c.
Proof.
  destruct q; simpl; try (by intros [= <-]); try (intros [= <-]; by eexists); try done.
  destruct (issues c !! promise) as [r|]; [|done]. intros Hr. by exists r.
Qed.

Definition operations : list bridge_operation :=
  [SessionForForm "f" None false; TokenForDraftKey {| key_formUrl := "f"; key_formVersion := None; key_subjectRef := None; key_partyRef := None |} false].
(** Two calls for one form: their forms are validated, the first issues, the second
    waits for it. *)
Definition schedule : list (prog unit + nat) := (inl ∘ bridge_operate true <$> operations) ++ (inr <$> [0; 1; 0; 0; 0; 1]).

Lemma anonymous_sessions_sound_witness :
  ∃ w, bridge_reachable true ∅ w ∧
    events w = [Issuing "/runtime/forms/f/sessions/anonymous"; BridgeSettled (SessionForForm "f" None false) (Returns (SessionReply session));
                BridgeSettled (TokenForDraftKey {| key_formUrl := "f"; key_formVersion := None; key_subjectRef := None; key_partyRef := None |} false)
                  (Returns (TokenReply (Some "t")))] ∧
    held (shared w) "f" session ∧ session_valid "f" session.
Proof.
  destruct (play bridge_yields bridge_observe answer schedule [] (fresh_bridge ∅)) as [[[ts c] l]|] eqn:E; [|by vm_compute in E].
  destruct (play_reachable bridge_yields bridge_answers bridge_observe answer bridge_answer_ok (bridge_entry true) 0%N schedule
    (initial (fresh_bridge ∅)) [] ts c l) as (w & Hw & _ & _ & He).
  - repeat (apply Forall_cons; split; [by eexists|]). by apply Forall_nil.
  - intros i. by rewrite lookup_nil.
  - exact E.
  - exists w. split; [exact Hw|]. assert (events w = l) as Hl by exact He.
    assert (l = [Issuing "/runtime/forms/f/sessions/anonymous"; BridgeSettled (SessionForForm "f" None false) (Returns (SessionReply session));
      BridgeSettled (TokenForDraftKey {| key_formUrl := "f"; key_formVersion := None; key_subjectRef := None; key_partyRef := None |} false)
        (Returns (TokenReply (Some "t")))]) as El by (vm_compute in E; by injection E as _ _ <-).
    rewrite Hl, El. split; [reflexivity|].
    destruct (anonymous_sessions_sound true ∅ w Hw) as (Hgranted & Hvalid & _).
    assert (held (shared w) "f" session) as Hheld by (apply (Hgranted (SessionForForm "f" None false) (SessionReply session)); rewrite Hl, El; right; left).
    split; [exact Hheld|]. apply Hvalid, Hheld.
Defined.
End AnonymousSample.
