(* ===== verification/ReceiptStore.v ===== *)
(** * Receipts of a session

    src/src/verifying-surface/respondent/session-store.ts: the confirmation a
    respondent got, kept for the app, the release and the case it was given for,
    in the browser's session storage or in memory.  Both stores keep one contract,
    a map of checked records. *)

From S2P Require Import Prelude JsValue Text BrowserStorage ResponseAction CohortState.
From Stdlib Require Import Ascii.

(** ** Records *)

Section records.
Context `{!DateParse}.

Definition optional_text (v : jsv) : bool := is_undefined v || is_string v.

Definition isSubmitConfirmation (value : jsv) : bool :=
  isRecord value
  && match prop value "referenceNumber" with JStr s => nonempty s | _ => false end
  && is_one_of (prop value "status") ["accepted"; "queued"; "rejected"]
  && optional_text (prop value "trackingUri")
  && optional_text (prop value "caseUrn").

(** The address of a record. *)
Record receipt_address : Set := { address_app : string; address_release : string; address_case : string }.

Definition assertReceiptRecord (value : jsv) (expected : receipt_address) : outcome string unit :=
  throw_when (negb (isRecord value)) "Receipt session record must be an object." ;;
  throw_when (negb (is_lit (prop value "appId") (address_app expected)) || negb (is_lit (prop value "releaseIdentity") (address_release expected))
              || negb (is_lit (prop value "caseRef") (address_case expected)))
    "Receipt session record identity does not match its storage address." ;;
  throw_when (match prop value "submittedAt" with JStr s => match parse_date s with Some _ => false | None => true end | _ => true end
              || negb (isSubmitConfirmation (prop value "confirmation"))
              || negb (is_lit (prop (prop value "confirmation") "referenceNumber") (address_case expected)))
    "Receipt session record is malformed.".

(** The shallow copies that are frozen. *)
Definition freezeReceiptRecord (record : jsv) : jsv := JObj (obj_set (props_of record) "confirmation" (JObj (props_of (prop record "confirmation")))).

Definition parseReceiptRecord (value : jsv) (expected : receipt_address) : option jsv :=
  match assertReceiptRecord value expected with Returns _ => Some (freezeReceiptRecord value) | Throws _ => None end.

Definition STORAGE_PREFIX : string := "formspec-web:respondent-receipt:v1".
Definition storageKey (a : receipt_address) : string :=
  STORAGE_PREFIX +:+ ":" +:+ encodeURIComponent (address_app a) +:+ ":" +:+ encodeURIComponent (address_release a) +:+ ":"
    +:+ encodeURIComponent (address_case a).

(** The address in a typed record. *)
Definition address_of (record : jsv) : receipt_address := {|
  address_app := text_of (prop record "appId"); address_release := text_of (prop record "releaseIdentity");
  address_case := text_of (prop record "caseRef") |}.

Definition receiptRecordFromConfirmation (appId releaseIdentity : string) (confirmation : jsv) (submittedAt : string) : outcome string jsv :=
  let referenceNumber := prop confirmation "referenceNumber" in
  let given k := if truthy (prop confirmation k) then [(k, prop confirmation k)] else [] in
  let record := JObj [
    ("appId", JStr appId); ("releaseIdentity", JStr releaseIdentity); ("caseRef", referenceNumber); ("submittedAt", JStr submittedAt);
    ("confirmation", JObj ([("referenceNumber", referenceNumber); ("status", prop confirmation "status")] ++ given "trackingUri" ++ given "caseUrn"))] in
  assertReceiptRecord record {| address_app := appId; address_release := releaseIdentity; address_case := text_of referenceNumber |} ;;
  Returns (freezeReceiptRecord record).

(** ** The stores *)

Inductive write_result : Set := StoredReceipt | UnavailableReceipt.

Section browser.
Context `{!JsonText, !StoragePolicy}.

Definition browser_receipt_read (a : receipt_address) (m : gmap string string) : option jsv :=
  if negb (readable m (storageKey a)) then None else
  match m !! storageKey a with
  | None => None
  | Some raw => value ← parse_json raw; parseReceiptRecord value a
  end.

Definition browser_receipt_write (record : jsv) (m : gmap string string) : write_result * gmap string string :=
  match assertReceiptRecord record (address_of record) with
  | Throws _ => (UnavailableReceipt, m)
  | Returns _ =>
      let key := storageKey (address_of record) in
      if writable m key (stringify record) then (StoredReceipt, <[key := stringify record]> m) else (UnavailableReceipt, m)
  end.
End browser.

Definition memory_receipt_read (a : receipt_address) (m : gmap string jsv) : option jsv := m !! storageKey a.

Definition memory_receipt_write (record : jsv) (m : gmap string jsv) : outcome string write_result * gmap string jsv :=
  match assertReceiptRecord record (address_of record) with
  | Throws e => (Throws e, m)
  | Returns _ => (Returns StoredReceipt, <[storageKey (address_of record) := freezeReceiptRecord record]> m)
  end.

(** [createMemoryRespondentReceiptSessionStore(seed)] *)
Definition memory_receipts (seed : list jsv) : outcome string (gmap string jsv) :=
  fold_each (λ m record, let '(o, m') := memory_receipt_write record m in o ;; Returns m') ∅ seed.
End records.

(** * The contract *)

#[export] Instance receipt_address_eq_dec : EqDecision receipt_address.
Proof. solve_decision. Defined.
#[export] Program Instance receipt_address_countable : Countable receipt_address :=
  inj_countable' (λ a, (address_app a, address_release a, address_case a))
    (λ t, {| address_app := t.1.1; address_release := t.1.2; address_case := t.2 |}) _.
Next Obligation. by intros []. Qed.

(** ** Addresses are kept apart *)

Lemma upper_hex_inj d d' : d < 16 → d' < 16 → upper_hex d = upper_hex d' → d = d'.
Proof. intros Hd Hd' E. do 16 (destruct d as [|d]; [do 16 (destruct d' as [|d']; [done|]); lia|]). lia. Qed.

Lemma string_cons_eq a b s t : String a s = String b t → a = b ∧ s = t.
Proof. by intros [= -> ->]. Qed.

Lemma encodeURIComponent_inj s t : encodeURIComponent s = encodeURIComponent t → s = t.
Proof.
  revert t. induction s as [|a s IH]; intros [|b t]; cbn [encodeURIComponent]; [done| | |].
  - by destruct (uri_unreserved b).
  - by destruct (uri_unreserved a).
  - destruct (uri_unreserved a) eqn:Ea, (uri_unreserved b) eqn:Eb.
    + intros [= -> E]. by rewrite (IH t E).
    + intros [= -> E]. by vm_compute in Ea.
    + intros [= <- E]. by vm_compute in Eb.
    + intros [_ [Eh [El E]%string_cons_eq]%string_cons_eq]%string_cons_eq. rewrite (IH t E). f_equal.
      pose proof (nat_ascii_bounded a). pose proof (nat_ascii_bounded b).
      apply upper_hex_inj in Eh; [|apply Nat.Div0.div_lt_upper_bound; lia..]. apply upper_hex_inj in El; [|apply Nat.mod_upper_bound; lia..].
      rewrite <- (ascii_nat_embedding a), <- (ascii_nat_embedding b). f_equal.
      rewrite (Nat.div_mod_eq (nat_of_ascii a) 16), (Nat.div_mod_eq (nat_of_ascii b) 16). congruence.
Qed.

Lemma encodeURIComponent_colon s : has_char ":" (encodeURIComponent s) = false.
Proof.
  induction s as [|a s IH]; [done|]. cbn [encodeURIComponent]. destruct (uri_unreserved a) eqn:Ea; cbn [has_char].
  - rewrite IH, orb_false_r. apply Ascii.eqb_neq. intros ->. by vm_compute in Ea.
  - rewrite IH. cbn [orb]. rewrite orb_false_r. assert (∀ d, d < 16 → Ascii.eqb (upper_hex d) ":" = false) as Hh.
    { intros d Hd. do 16 (destruct d as [|d]; [done|]). lia. }
    pose proof (nat_ascii_bounded a). rewrite !Hh; [done|apply Nat.mod_upper_bound; lia|apply Nat.Div0.div_lt_upper_bound; lia].
Qed.

#[export] Instance storageKey_inj : Inj (=) (=) storageKey.
Proof.
  intros [a r c] [a' r' c'] E. unfold storageKey in E. simpl in E. do 2 apply (inj (String.append _)) in E.
  assert (∀ x y z, x +:+ ":" +:+ y +:+ ":" +:+ z = join_with ":" [x; y; z]) as Hj by done. rewrite !Hj in E.
  apply join_inj in E; [|done|done|by rewrite !Forall_cons, !encodeURIComponent_colon..].
  injection E as Ea Er Ec. apply encodeURIComponent_inj in Ea, Er, Ec. congruence.
Qed.

Section refinement.
Context `{Dates : !DateParse, Json : !JsonText, Laws : !JsonTextLaws, Policy : !StoragePolicy} (base : gmap string string).

(** Reading is never refused; writing may be. *)
Hypothesis (reads : ∀ m k, readable m k = true).
(** What other code keeps in the storage is under other keys. *)
Hypothesis (foreign : ∀ a, base !! storageKey a = None).

(** The contract: records by their addresses. *)
Definition receipt_ok (record : jsv) : Prop := assertReceiptRecord record (address_of record) = Returns () ∧ json_value record = true.
Definition receipts_ok (m : gmap receipt_address jsv) : Prop := map_Forall (λ a record, receipt_ok record ∧ address_of record = a) m.

(** What the stores keep of it. *)
Definition in_memory (m : gmap receipt_address jsv) : gmap string jsv := kmap storageKey m.
Definition in_browser (m : gmap receipt_address jsv) : gmap string string := (stringify <$> in_memory m) ∪ base.

Lemma in_memory_lookup m a : in_memory m !! storageKey a = m !! a.
Proof. apply (lookup_kmap storageKey). Qed.
Lemma in_browser_lookup m a : in_browser m !! storageKey a = stringify <$> m !! a.
Proof. unfold in_browser. rewrite lookup_union, lookup_fmap, in_memory_lookup, foreign. by destruct (m !! a). Qed.
Lemma in_memory_insert m a r : <[storageKey a := r]> (in_memory m) = in_memory (<[a := r]> m).
Proof. symmetry. apply (kmap_insert storageKey). Qed.
Lemma in_browser_insert m a r : <[storageKey a := stringify r]> (in_browser m) = in_browser (<[a := r]> m).
Proof. unfold in_browser. by rewrite insert_union_l, <- fmap_insert, in_memory_insert. Qed.

Lemma obj_set_same o k v : own_get o k = Some v → obj_set o k v = o.
Proof.
  induction o as [|[k' v'] o IH]; simpl; [done|]. destruct (String.eqb_spec k k') as [<-|]; [by intros [= ->]|]. intros E. by rewrite IH.
Qed.

(** A checked record is its own shallow copy. *)
Lemma freeze_checked r a u : assertReceiptRecord r a = Returns u → freezeReceiptRecord r = r.
Proof.
  unfold assertReceiptRecord. rewrite !seq_Returns, !throw_when_Returns. intros (Hr & _ & Hm). apply negb_false_iff in Hr.
  rewrite !orb_false_iff, !negb_false_iff in Hm. destruct Hm as [[_ Hc] _]. unfold isSubmitConfirmation in Hc. rewrite !andb_true_iff in Hc.
  destruct Hc as [[[[Hc _] _] _] _]. apply isRecord_spec in Hr as [o ->]. unfold freezeReceiptRecord. apply isRecord_spec in Hc as [c Hc].
  assert (own_get o "confirmation" = Some (JObj c)) as Ho by (change (prop (JObj o) "confirmation") with (obj_get o "confirmation") in Hc; unfold obj_get in Hc; by destruct (own_get o "confirmation"); simpl in Hc; subst).
  rewrite Hc. simpl. by rewrite obj_set_same.
Qed.

(** C38. Both stores of receipts keep one contract, a map from addresses to checked
    records: they read what was last written under an address and nothing else,
    keep a record exactly if it passes the check, and leave what other code keeps
    alone; where the browser answers [unavailable] for a record that does not
    pass, the memory throws. *)
Theorem receipt_stores_refine m r a : receipts_ok m → json_value r = true →
  browser_receipt_read a (in_browser m) = m !! a ∧
  memory_receipt_read a (in_memory m) = m !! a ∧
  match assertReceiptRecord r (address_of r) with
  | Returns _ =>
      receipts_ok (<[address_of r := r]> m) ∧
      memory_receipt_write r (in_memory m) = (Returns StoredReceipt, in_memory (<[address_of r := r]> m)) ∧
      browser_receipt_write r (in_browser m) =
        if writable (in_browser m) (storageKey (address_of r)) (stringify r)
        then (StoredReceipt, in_browser (<[address_of r := r]> m)) else (UnavailableReceipt, in_browser m)
  | Throws e =>
      memory_receipt_write r (in_memory m) = (Throws e, in_memory m) ∧
      browser_receipt_write r (in_browser m) = (UnavailableReceipt, in_browser m)
  end.
Proof.
  intros Hm Hr. split; [|split; [by apply in_memory_lookup|]].
  - unfold browser_receipt_read. rewrite reads, in_browser_lookup. cbn [negb]. destruct (m !! a) as [w|] eqn:E; simpl; [|done].
    destruct (Hm a w E) as [[Hok Hj] <-]. rewrite parse_stringify by done. simpl. unfold parseReceiptRecord. rewrite Hok. f_equal. by eapply freeze_checked.
  - unfold memory_receipt_write, browser_receipt_write. destruct (assertReceiptRecord r (address_of r)) as [[]|e] eqn:E; [|done].
    split; [by apply map_Forall_insert_2|]. rewrite (freeze_checked _ _ _ E), in_memory_insert. split; [done|]. by rewrite in_browser_insert.
Qed.
End refinement.

(** ** Samples *)

Module ReceiptSample.
#[local] Existing Instance coded_json.
#[local] Existing Instance coded_json_laws.
#[local] Instance open_storage : StoragePolicy := {| readable := λ _ _, true; writable := λ _ _ _, true; removable := λ _ _, true |}.

#[local] Instance dates : DateParse := λ s, if String.eqb s "today" then Some 0%Z else None.
Definition confirmation : jsv := JObj [("referenceNumber", JStr "R"); ("status", JStr "accepted")].
Definition receipt : jsv := JObj [("appId", JStr "a"); ("releaseIdentity", JStr "r"); ("caseRef", JStr "R"); ("submittedAt", JStr "today");
  ("confirmation", confirmation)].

Lemma receipt_made : receiptRecordFromConfirmation "a" "r" confirmation "today" = Returns receipt.
Proof. reflexivity. Qed.

(** The receipt of a confirmation is kept. *)
Lemma receipt_stores_refine_witness :
  let empty := in_browser ∅ (∅ : gmap receipt_address jsv) in
  browser_receipt_write receipt empty = (StoredReceipt, in_browser ∅ {[address_of receipt := receipt]}) ∧
  browser_receipt_read (address_of receipt) (in_browser ∅ {[address_of receipt := receipt]}) = Some receipt.
Proof.
  intros empty. pose proof (receipt_stores_refine (Laws := coded_json_laws) ∅ (λ _ _, eq_refl) (λ _, lookup_empty _)) as Hrefines.
  destruct (Hrefines ∅ receipt (address_of receipt) (map_Forall_empty _) eq_refl) as (_ & _ & Hw).
  assert (assertReceiptRecord receipt (address_of receipt) = Returns ()) as Hok by reflexivity. rewrite Hok in Hw. destruct Hw as (Hkept & _ & Hw).
  split; [exact Hw|]. destruct (Hrefines _ receipt (address_of receipt) Hkept eq_refl) as (Hread & _). etransitivity; [exact Hread|]. apply lookup_insert_eq.
Defined.
End ReceiptSample.
