(* ===== verification/PublicTerminal.v ===== *)
(** * Leaving a public terminal

    src/src/app/public-terminal-hygiene.ts: the receipt a respondent may have sent
    by SMS, and the drafts that are deleted when the terminal is cleared. *)

From S2P Require Import Prelude JsValue JsMap Text DraftKeys DraftStore MultiPartyPolicy MultiPartyFlow ResponseAction Url.
From Stdlib Require Import Ascii.

(** ** The receipt *)

(** What is read of a [SubmitReceiptReference]. *)
Record SubmitReceiptReference : Set := { referenceNumber : string; trackingUri : option string }.

Record sms_message : Set := { sms_to : string; sms_body : string }.

Definition filter_chars (p : ascii → bool) (s : string) : string := String.string_of_list_ascii (List.filter p (String.list_ascii_of_string s)).

(** [toUpperCase()] on letters and digits. *)
Definition upper_char (a : ascii) : ascii :=
  let n := nat_of_ascii a in if ((97 <=? n) && (n <=? 122))%nat then ascii_of_nat (n - 32) else a.
Definition upper (s : string) : string := String.string_of_list_ascii (upper_char <$> String.list_ascii_of_string s).

Definition publicTerminalVerifierCode (confirmation : SubmitReceiptReference) : string :=
  let normalized := upper (filter_chars (λ a, is_letter a || is_digit a) (referenceNumber confirmation)) in
  let n := String.length normalized in
  if negb (nonempty normalized) then "RECEIVED"
  else if (6 <? n)%nat then String.substring (n - 6) 6 normalized else normalized.

Section receipt.
Context `{Urls : !UrlLibrary}.
(** The origin of the location, or of the fallback. *)
Context (origin : string).

Definition publicTerminalTrackingUrl (confirmation : SubmitReceiptReference) : option string :=
  match trackingUri confirmation with
  | Some (String a s) => Some (match new_URL_at (String a s) origin with Some url => url_href url | None => String a s end)
  | _ => None
  end.

Definition publicTerminalReceiptSmsBody (confirmation : SubmitReceiptReference) : string :=
  let base := "Form submitted. Reference " +:+ referenceNumber confirmation +:+ ". Verifier code " +:+ publicTerminalVerifierCode confirmation +:+ "." in
  match publicTerminalTrackingUrl confirmation with
  | Some (String a s) => base +:+ " Track: " +:+ String a s
  | _ => base
  end.

Definition PUBLIC_TERMINAL_SMS_INVALID_COPY : string := "Enter a phone number that can receive SMS.".

Definition normalizeSmsDestination (input : string) : outcome string string :=
  let trimmed := trim input in
  let digits := filter_chars is_digit trimmed in
  throw_when (String.length digits <? 7)%nat PUBLIC_TERMINAL_SMS_INVALID_COPY ;;
  Returns (if starts_with "+" trimmed then "+" +:+ digits else digits).

(** [notificationDelivery.capabilities?.sms === 'real'] *)
Definition canSendPublicTerminalReceiptSms (sms : option string) : bool := match sms with Some s => String.eqb s "real" | None => false end.

(** [send] is the port's, a function from its state. *)
Definition sendPublicTerminalReceiptSms {S} (send : sms_message → string → S → outcome string unit * S)
    (confirmation : SubmitReceiptReference) (phone idempotencyKey : string) (s : S) : outcome string unit * S :=
  match normalizeSmsDestination phone with
  | Throws e => (Throws e, s)
  | Returns to => send {| sms_to := to; sms_body := publicTerminalReceiptSmsBody confirmation |} idempotencyKey s
  end.
End receipt.

(** ** The drafts *)

Definition nul : string := String "000" "".

Definition draft_fingerprint (key : DraftKey) : string :=
  default "" (key_subjectRef key) +:+ nul +:+ default "" (key_partyRef key) +:+ nul +:+ key_formUrl key +:+ nul +:+ default "" (key_formVersion key).

(** The loop, with the fingerprints seen. *)
Fixpoint dedupe_keys (seen : list string) (keys : list DraftKey) : list DraftKey :=
  match keys with
  | [] => []
  | key :: keys' =>
      if str_in (draft_fingerprint key) seen then dedupe_keys seen keys' else key :: dedupe_keys (draft_fingerprint key :: seen) keys'
  end.
Definition dedupeDraftKeys (keys : list DraftKey) : list DraftKey := dedupe_keys [] keys.

Definition publicTerminalDraftKeysToClear (draftKey : DraftKey) (policy : option MultiPartyRuntimeConfig) : list DraftKey :=
  dedupeDraftKeys (draftKey ::
    match policy with
    | Some policy => multiPartyProgressDraftKey draftKey ::
        ((λ slot, multiPartyDraftKey draftKey (Some (slot_partyRef slot))) <$> requiredMultiPartySlots policy)
    | None => []
    end).

(** The deletions are issued in the order of the keys, within one turn. *)
Definition clearPublicTerminalDraftState {S} `{!DraftStoreOps S} (draftKey : DraftKey) (policy : option MultiPartyRuntimeConfig) (s : S) : S :=
  foldl (λ s key, (draft_step (Delete key) s).2) s (publicTerminalDraftKeysToClear draftKey policy).

(** * What is deleted *)

(** The drafts of the respondent and, where several parties sign, of each party and
    of their progress. *)
Definition terminal_keys (draftKey : DraftKey) (policy : option MultiPartyRuntimeConfig) : list DraftKey :=
  draftKey :: match policy with
    | Some policy => multiPartyProgressDraftKey draftKey ::
        ((λ slot, multiPartyDraftKey draftKey (Some (slot_partyRef slot))) <$> requiredMultiPartySlots policy)
    | None => []
    end.

Lemma str_app_cancel_r s t u : s +:+ u = t +:+ u → s = t.
Proof.
  assert (∀ s t, String.length (s +:+ t) = String.length s + String.length t) as Hlen.
  { clear. intros s t. induction s as [|a s IH]; simpl; [done|]. by rewrite IH. }
  revert t. induction s as [|a s IH]; intros [|b t] E; [done| | |].
  - apply (f_equal String.length) in E. rewrite !Hlen in E. simpl in E. lia.
  - apply (f_equal String.length) in E. rewrite !Hlen in E. simpl in E. lia.
  - injection E as -> E. by rewrite (IH t E).
Qed.

(** Around a separator that one side does not hold, texts are read apart. *)
Lemma separated_inj c x y x' y' : has_char c x' = false → has_char c y' = false →
  x +:+ String c y = x' +:+ String c y' → x = x' ∧ y = y'.
Proof.
  revert x'. induction x as [|a x IH]; intros [|b x'] Hx Hy E; simpl in *.
  - by injection E as ->.
  - injection E as <- _. by rewrite Ascii.eqb_refl in Hx.
  - injection E as -> E. change (x +:+ String c y = y') in E. rewrite <- E, has_char_app in Hy. simpl in Hy. by rewrite Ascii.eqb_refl, orb_true_r in Hy.
  - injection E as -> E. apply orb_false_iff in Hx as [_ Hx]. by destruct (IH x' Hx Hy E) as [-> ->].
Qed.

Lemma hex_digit_no_nul n : (0 ≤ n < 16)%Z → Ascii.eqb (IdempotencyKey.hex_digit n) "000" = false.
Proof.
  intros Hn. assert (n = 0 ∨ n = 1 ∨ n = 2 ∨ n = 3 ∨ n = 4 ∨ n = 5 ∨ n = 6 ∨ n = 7 ∨ n = 8 ∨ n = 9 ∨ n = 10 ∨ n = 11 ∨ n = 12 ∨ n = 13 ∨ n = 14 ∨ n = 15)%Z as Hc by lia.
  clear Hn. repeat destruct Hc as [->|Hc]; [reflexivity..|]. by subst.
Qed.

Lemma hex_digits_no_nul fuel n acc : (0 ≤ n)%Z → has_char "000" acc = false → has_char "000" (hex_digits fuel n acc) = false.
Proof.
  revert n acc. induction fuel as [|fuel IH]; intros n acc Hn Hacc; simpl; [done|]. destruct (Z.ltb_spec n 16).
  - cbn [has_char]. by rewrite hex_digit_no_nul by lia.
  - apply IH; [apply Z.div_pos; lia|]. cbn [has_char]. rewrite hex_digit_no_nul; [done|]. apply Z.mod_pos_bound. lia.
Qed.

Lemma fallbackHash_no_nul s : has_char "000" (fallbackHash s) = false.
Proof.
  unfold fallbackHash. generalize (foldl fnv_step 2166136261%Z ((λ c, Z.of_nat (nat_of_ascii c)) <$> String.list_ascii_of_string s)). intros z.
  assert (has_char "000" (int_to_hex z) = false) as Hz.
  { unfold int_to_hex. destruct (Z.ltb_spec z 0); [change (has_char "000" (hex_digits 8 (- z) "") = false)|]; apply hex_digits_no_nul; (done || lia). }
  unfold pad_hex. generalize (8 - String.length (int_to_hex z)). intros n. by induction n.
Qed.

Section terminal.
Context (draftKey : DraftKey) (policy : option MultiPartyRuntimeConfig).

Definition progress_key (key : DraftKey) : Prop := key = multiPartyProgressDraftKey draftKey.
(** The respondent's own draft, or a party's. *)
Definition party_key (key : DraftKey) : Prop :=
  key_formUrl key = key_formUrl draftKey ∧ key_formVersion key = key_formVersion draftKey ∧ key_subjectRef key = key_subjectRef draftKey ∧
  (key_partyRef key = key_partyRef draftKey ∨ ∃ a s, key_partyRef key = Some (String a s)).

Lemma terminal_key_cases key : key ∈ terminal_keys draftKey policy → progress_key key ∨ party_key key.
Proof.
  unfold terminal_keys. assert (party_key draftKey) as Hbase by by repeat split; left.
  intros [->|Hk]%elem_of_cons; [by right|]. destruct policy as [p|]; [|by apply elem_of_nil in Hk].
  apply elem_of_cons in Hk as [->|Hk]; [by left|]. apply list_elem_of_fmap in Hk as (slot & -> & _). right.
  unfold multiPartyDraftKey. destruct (slot_partyRef slot) as [|a s]; [done|]. repeat split. right. by exists a, s.
Qed.

Lemma fingerprint_split k k' : key_formUrl k = key_formUrl k' → key_formVersion k = key_formVersion k' → draft_fingerprint k = draft_fingerprint k' →
  default "" (key_subjectRef k) +:+ String "000" (default "" (key_partyRef k)) =
  default "" (key_subjectRef k') +:+ String "000" (default "" (key_partyRef k')).
Proof.
  unfold draft_fingerprint. intros Hu Hv. rewrite Hu, Hv. set (rest := nul +:+ key_formUrl k' +:+ nul +:+ default "" (key_formVersion k')).
  intros E. apply (str_app_cancel_r _ _ rest). rewrite !str_app_assoc. exact E.
Qed.

Lemma party_progress k k' : party_key k → progress_key k' → draft_fingerprint k = draft_fingerprint k' → k = k'.
Proof.
  intros (Hu & Hv & Hs & Hp) -> E. apply fingerprint_split in E; [|done|done].
  apply separated_inj in E as [Es Ep]; [| |done].
  - destruct k as [u v s p]. simpl in *. subst u v. unfold multiPartyProgressDraftKey. simpl in Es, Ep. f_equal.
    + destruct s as [s|]; [by rewrite <- Es|done].
    + destruct p as [p|]; [by rewrite <- Ep|done].
  - simpl. rewrite has_char_app. apply fallbackHash_no_nul.
Qed.

Lemma party_inj k k' : party_key k → party_key k' → draft_fingerprint k = draft_fingerprint k' → k = k'.
Proof.
  intros (Hu & Hv & Hs & Hp) (Hu' & Hv' & Hs' & Hp') E. apply fingerprint_split in E; [|congruence..]. rewrite Hs, Hs' in E.
  apply (inj (String.append _)) in E. injection E as E. destruct k as [u v s p], k' as [u' v' s' p']. simpl in *. subst. f_equal.
  destruct Hp as [->|(a & t & ->)], Hp' as [->|(b & t' & ->)]; simpl in *; [done| | |congruence].
  - by destruct (key_partyRef draftKey); simpl in E; subst.
  - by destruct (key_partyRef draftKey); simpl in E; subst.
Qed.

Lemma fingerprint_inj k k' : k ∈ terminal_keys draftKey policy → k' ∈ terminal_keys draftKey policy → draft_fingerprint k = draft_fingerprint k' → k = k'.
Proof.
  intros [Hk|Hk]%terminal_key_cases [Hk'|Hk']%terminal_key_cases E.
  - unfold progress_key in *. congruence.
  - symmetry. by apply party_progress.
  - by apply party_progress.
  - by apply party_inj.
Qed.
End terminal.

Lemma dedupe_keys_elem (l : list DraftKey) seen k : (∀ x y, x ∈ l → y ∈ l → draft_fingerprint x = draft_fingerprint y → x = y) →
  k ∈ dedupe_keys seen l ↔ k ∈ l ∧ draft_fingerprint k ∉ seen.
Proof.
  revert seen. induction l as [|h l IH]; intros seen Hinj; simpl; [set_solver|].
  assert (∀ x y, x ∈ l → y ∈ l → draft_fingerprint x = draft_fingerprint y → x = y) as Hl by (intros x y Hx Hy; apply Hinj; by right).
  destruct (str_in (draft_fingerprint h) seen) eqn:E.
  - apply str_in_spec in E. rewrite (IH _ Hl), elem_of_cons. split; [tauto|]. intros [[->|?] ?]; done.
  - assert (draft_fingerprint h ∉ seen) as Hh by (rewrite <- str_in_spec, E; done). rewrite !elem_of_cons, (IH _ Hl), not_elem_of_cons. split.
    + intros [->|(Hk & _ & Hs)]; auto.
    + intros [[->|Hk] Hs]; [by left|]. destruct (decide (k = h)) as [->|Hne]; [by left|]. right. split; [done|]. split; [|done].
      intros E'. apply Hne, Hinj; [by right|left|done].
Qed.

Lemma dedupe_keys_NoDup (l : list DraftKey) seen : NoDup (dedupe_keys seen l) ∧ ∀ k, k ∈ dedupe_keys seen l → draft_fingerprint k ∉ seen.
Proof.
  revert seen. induction l as [|h l IH]; intros seen; simpl; [split; [constructor|by intros k ?%elem_of_nil]|].
  destruct (str_in (draft_fingerprint h) seen) eqn:E; [apply IH|]. destruct (IH (draft_fingerprint h :: seen)) as [Hnd Hs].
  assert (draft_fingerprint h ∉ seen) as Hh by (rewrite <- str_in_spec, E; done). split.
  - apply NoDup_cons. split; [|done]. intros Hin%Hs. apply Hin. left.
  - intros k [->|Hk]%elem_of_cons; [done|]. apply Hs in Hk. by apply not_elem_of_cons in Hk as [_ ?].
Qed.

Lemma foldl_delete (keys : list DraftKey) (drafts : list (DraftKey * jsv)) key :
  map_get (foldl (λ s k, (draft_step (Delete k) s).2) drafts keys) key = if decide (key ∈ keys) then None else map_get drafts key.
Proof.
  revert drafts. induction keys as [|k keys IH]; intros drafts; cbn [foldl].
  - by rewrite decide_False by apply not_elem_of_nil.
  - rewrite IH. change ((draft_step (Delete k) drafts).2) with (map_delete drafts k). rewrite map_get_delete. destruct (decide (key ∈ keys)); [by rewrite decide_True by by right|].
    destruct (decide (key = k)) as [->|]; [by rewrite decide_True by by left|]. rewrite decide_False; [done|]. by intros [?|?]%elem_of_cons.
Qed.

(** Clearing a terminal deletes the respondent's draft and, where several parties
    sign, the progress and the draft of every party, each once, and nothing else;
    and so does the in-memory store that keeps drafts under composed texts, for
    keys it can tell apart. *)
Theorem public_terminal_cleared draftKey policy (drafts : list (DraftKey * jsv)) store :
  stored_as drafts store → Forall (λ key, plain_key key = true) (terminal_keys draftKey policy) →
  NoDup (publicTerminalDraftKeysToClear draftKey policy) ∧
  (∀ key, map_get (clearPublicTerminalDraftState draftKey policy drafts) key =
     if decide (key ∈ terminal_keys draftKey policy) then None else map_get drafts key) ∧
  stored_as (clearPublicTerminalDraftState draftKey policy drafts) (clearPublicTerminalDraftState draftKey policy store).
Proof.
  intros Hst Hplain. assert (∀ k, k ∈ publicTerminalDraftKeysToClear draftKey policy ↔ k ∈ terminal_keys draftKey policy) as Hk.
  { intros k. unfold publicTerminalDraftKeysToClear, dedupeDraftKeys. fold (terminal_keys draftKey policy).
    rewrite dedupe_keys_elem by apply fingerprint_inj. split; [by intros [? _]|]. intros ?. split; [done|apply not_elem_of_nil]. }
  split; [apply dedupe_keys_NoDup|]. split.
  - intros key. unfold clearPublicTerminalDraftState. rewrite foldl_delete. apply decide_ext, Hk.
  - unfold clearPublicTerminalDraftState. assert (Forall (λ key, plain_key key = true) (publicTerminalDraftKeysToClear draftKey policy)) as Hp.
    { apply Forall_forall. intros k Hin%Hk. by apply (proj1 (Forall_forall _ _) Hplain). }
    clear Hk Hplain. revert drafts store Hst Hp. generalize (publicTerminalDraftKeysToClear draftKey policy). intros keys.
    induction keys as [|k keys IH]; intros drafts store Hst Hp; simpl; [done|]. apply Forall_cons in Hp as [Hkp Hp].
    apply IH; [|done]. by apply (draft_step_refines (Delete k)).
Qed.

Module TerminalSample.
Definition key : DraftKey := {| key_formUrl := "f"; key_formVersion := None; key_subjectRef := Some "s"; key_partyRef := None |}.
Definition other : DraftKey := {| key_formUrl := "g"; key_formVersion := None; key_subjectRef := Some "s"; key_partyRef := None |}.
Definition drafts : list (DraftKey * jsv) := [(key, JNull); (other, JNull)].

(** The draft of another form stays. *)
Lemma public_terminal_cleared_witness :
  let store := rename keyStr drafts in
  map_get (clearPublicTerminalDraftState key None drafts) key = None ∧ map_get (clearPublicTerminalDraftState key None drafts) other = Some JNull ∧
  stored_as (clearPublicTerminalDraftState key None drafts) (clearPublicTerminalDraftState key None store).
Proof.
  intros store. assert (stored_as drafts store) as Hst by (split; [reflexivity|repeat constructor]).
  destruct (public_terminal_cleared key None drafts store Hst ltac:(repeat constructor)) as (_ & Hget & Hkept).
  split; [etransitivity; [exact (Hget key)|reflexivity]|]. split; [etransitivity; [exact (Hget other)|reflexivity]|]. exact Hkept.
Defined.
End TerminalSample.
