(* ===== verification/Configuration.v ===== *)
(** * Configuration

    How a deployment is configured: the closed_record configuration of native signing
    (src/src/config/native-package-signing.ts), the attachment limit
    (attachment-policy.ts), the runtime configuration of the environment and the
    window (runtime.ts), the profiles it is laid over
    (src/src/profiles/profiles.ts) and the activation of the signed respondent
    surface (respondent-surface.ts).  What a resolved configuration guarantees,
    whatever it was given. *)

From S2P Require Import Prelude JsValue Text BrowserStorage EntryGates ResponseAction Url ScopeKey.
From Stdlib Require Import Ascii.

(** The copy of finite JSON that the surface package takes, the locales that
    [Intl] knows, the URI format of the schemas and the inputs of the signing
    widgets. *)
Class ConfigPackages := {
  snapshotFiniteJson : jsv → outcome string jsv;
  known_locale : string → bool;
  uri_format : string → bool;
  inputNames : list string
}.

(** [Number(s)] *)
Class NumberOf := number_of : string → jsnum.

Section configuration.
Context `{Packages : !ConfigPackages, Urls : !UrlLibrary, Json : !JsonText, Numbers : !NumberOf}.

(** ** Native signing *)

Definition malformed : string := "Native package signing configuration is malformed".
Definition require (b : bool) : outcome string unit := throw_when (negb b) malformed.

Definition closed_object (v : jsv) (keys : list string) : bool :=
  match v with JObj o => (length o =? length keys)%nat && forallb (has_own o) keys | _ => false end.
Definition closed_record (v : jsv) (keys : list string) : outcome string unit := require (closed_object v keys).

Definition exact_text (v : jsv) : bool := match v with JStr s => nonempty (trim s) && String.eqb s (trim s) | _ => false end.
Definition nonblank_text (v : jsv) : outcome string unit := require (exact_text v).

Definition absolute_text (v : jsv) : bool :=
  match v with
  | JStr s => match new_URL s with
      | Some url => str_in (url_protocol url) ["https:"; "http:"; "urn:"] && negb (nonempty (url_username url)) && negb (nonempty (url_password url))
      | None => false
      end
  | _ => false
  end.
Definition absoluteUrl (v : jsv) : outcome string unit := nonblank_text v ;; require (absolute_text v).

(** A text that is not among those seen; the JSON text of a pair names the pair. *)
Definition unique_name {A} `{EqDecision A} (seen : list A) (x : A) : outcome string (list A) :=
  require (negb (bool_decide (x ∈ seen))) ;; Returns (x :: seen).

Definition check_issuer (v : jsv) : outcome string unit :=
  throw_when (negb (match v with JStr s => nonempty s && uri_format s | _ => false end)) "Delegated signing issuer must be an absolute URI".

Definition items (v : jsv) : list jsv := match v with JArr l => l | _ => [] end.
Definition nonempty_array (v : jsv) : outcome string unit := require (match v with JArr (_ :: _) => true | _ => false end).
Definition has (config : jsv) (key : string) : bool := has_own (props_of config) key.
(** [if (Object.hasOwn(config, key)) { ... }] *)
Definition when_has (config : jsv) (key : string) (check : jsv → outcome string unit) : outcome string unit :=
  if has config key then check (prop config key) else Returns ().
Definition optional_key (config : jsv) (key : string) : list string := if has config key then [key] else [].

Definition check_pin (identity : string) (absolute : bool) (pin : jsv) : outcome string unit :=
  closed_record pin [identity; "version"] ;; nonblank_text (prop pin identity) ;; nonblank_text (prop pin "version") ;;
  if absolute then absoluteUrl (prop pin identity) else Returns ().

Definition same_pin (a b : jsv) : bool := strict_eq (prop a "id") (prop b "id") && strict_eq (prop a "version") (prop b "version").

Definition check_modules (config modules : jsv) : outcome string unit :=
  nonempty_array modules ;;
  fold_each (λ seen pin, closed_record pin ["id"; "version"] ;; nonblank_text (prop pin "id") ;; nonblank_text (prop pin "version") ;;
    unique_name seen (text_of (prop pin "id"))) [] (items modules) ;;
  require (length (List.filter (same_pin (prop config "module")) (items modules)) =? 1)%nat.

Definition check_widgets (config widgets : jsv) : outcome string unit :=
  nonempty_array widgets ;;
  let selected := match prop config "modules" with JArr l => l | _ => [prop config "module"] end in
  fold_each (λ seen pin, closed_record pin ["moduleId"; "registryEntryVersion"] ;; nonblank_text (prop pin "moduleId") ;;
    seen ← unique_name seen (text_of (prop pin "moduleId"));
    require (is_one_of (prop pin "registryEntryVersion") ["0.1.0"; "0.1.1"; "0.1.2"]
             && existsb (λ module, strict_eq (prop module "id") (prop pin "moduleId")) selected) ;;
    Returns seen) [] (items widgets) ;;
  Returns ().

Definition check_scope (scope : jsv) : outcome string unit :=
  closed_record scope ["surface"; "route"; "ceremonySlot"; "reviewSlot"] ;;
  closed_record (prop scope "surface") ["url"; "version"] ;; absoluteUrl (prop (prop scope "surface") "url") ;;
  nonblank_text (prop (prop scope "surface") "version") ;;
  nonblank_text (prop scope "route") ;; nonblank_text (prop scope "ceremonySlot") ;; nonblank_text (prop scope "reviewSlot") ;;
  require (negb (strict_eq (prop scope "ceremonySlot") (prop scope "reviewSlot"))).

Definition image_source (v : jsv) : bool :=
  match v with
  | JStr s => match new_URL s with
      | Some url => String.eqb (url_protocol url) "https:" && negb (nonempty (url_username url)) && negb (nonempty (url_password url))
                    && negb (nonempty (url_hash url))
      | None => false
      end
  | _ => false
  end.

Definition check_assets (assets : jsv) : outcome string unit :=
  nonempty_array assets ;;
  fold_each (λ seen pin, closed_record pin ["kind"; "source"] ;; require (is_lit (prop pin "kind") "image") ;; nonblank_text (prop pin "source") ;;
    require (image_source (prop pin "source")) ;; unique_name seen (text_of (prop pin "source"))) [] (items assets) ;;
  Returns ().

Definition check_component (component : jsv) : outcome string unit :=
  closed_record component ["handle"; "url"; "version"] ;; nonblank_text (prop component "handle") ;; absoluteUrl (prop component "url") ;;
  nonblank_text (prop component "version").

(** The members of a record, as [Object.values] lists them. *)
Definition values_of (v : jsv) : list jsv := (props_of v).*2.

Definition check_lifecycle (lifecycle : jsv) : outcome string unit :=
  closed_record lifecycle ["instance"; "canStartPath"; "startedPath"; "persistentSavingPath"] ;;
  for_each nonblank_text (values_of lifecycle) ;;
  require (bool_decide (NoDup (text_of ∘ prop lifecycle <$> ["canStartPath"; "startedPath"; "persistentSavingPath"]))).

(** References of one record, each pair once. *)
Definition check_references (first second : string) (record : jsv) : outcome string unit :=
  fold_each (λ seen entry, closed_record entry [first; second] ;; absoluteUrl (prop entry first) ;; nonblank_text (prop entry second) ;;
    unique_name seen (text_of (prop entry first), text_of (prop entry second))) [] (values_of record) ;;
  Returns ().

Definition check_readiness (readiness : jsv) : outcome string unit :=
  closed_record readiness (["instance"; "readyPath"; "ownedPath"] ++ optional_key readiness "prepareReadyPath") ;;
  for_each nonblank_text (values_of readiness) ;;
  require (bool_decide (NoDup (text_of ∘ prop readiness <$> ["readyPath"; "ownedPath"] ++ optional_key readiness "prepareReadyPath"))).

Definition signing_roles : list string := ["saveInitial"; "saveOwned"; "prepare"; "sign"; "submit"; "paper"].

Definition check_signing (config : jsv) : outcome string unit :=
  closed_record config (["keyId"; "expectedIssuer"; "definition"; "bundle"; "module"; "initialLocale"; "roles"; "bindings"; "readiness"]
    ++ flat_map (optional_key config) ["signingScope"; "modules"; "structuredPanelWidgets"; "component"; "staticAssets"; "applicationLifecycle"]) ;;
  nonblank_text (prop config "keyId") ;;
  check_issuer (prop config "expectedIssuer") ;;
  check_pin "url" true (prop config "definition") ;; check_pin "id" true (prop config "bundle") ;; check_pin "id" false (prop config "module") ;;
  when_has config "modules" (check_modules config) ;;
  when_has config "structuredPanelWidgets" (check_widgets config) ;;
  when_has config "signingScope" check_scope ;;
  nonblank_text (prop config "initialLocale") ;;
  when_has config "staticAssets" check_assets ;;
  when_has config "component" check_component ;;
  require (known_locale (text_of (prop config "initialLocale"))) ;;
  closed_record (prop config "roles") (signing_roles ++ (if has config "applicationLifecycle" then ["startApplication"] else [])) ;;
  when_has config "applicationLifecycle" check_lifecycle ;;
  check_references "artifactRef" "actionRef" (prop config "roles") ;;
  closed_record (prop config "bindings") inputNames ;;
  check_references "catalogRef" "sourceRef" (prop config "bindings") ;;
  check_readiness (prop config "readiness").

Definition nativePackageSigningConfig (value : jsv) : outcome string jsv :=
  config ← snapshotFiniteJson value;
  check_signing config ;;
  Returns config.

(** On data objects, whose properties are own, enumerable and no accessors. *)
Definition readNativePackageSigningConfig (owner : option jsobj) : outcome string (option jsv) :=
  match owner with
  | Some o => match own_get o "nativePackageSigning" with
      | Some v => Some <$> nativePackageSigningConfig v
      | None => Returns None
      end
  | None => Returns None
  end.

(** ** The attachment limit *)

Definition validatedAttachmentMaxUploadBytes (value : jsv) : outcome string (option Z) :=
  match value with
  | JUndef => Returns None
  | JNum n => match safe_integer n with
      | Some z => if (0 <? z)%Z then Returns (Some z) else Throws "attachmentMaxUploadBytes must be a positive safe integer number of bytes"
      | None => Throws "attachmentMaxUploadBytes must be a positive safe integer number of bytes"
      end
  | _ => Throws "attachmentMaxUploadBytes must be a positive safe integer number of bytes"
  end.

(** ** Profiles *)

Record OidcClientConfig : Set := {
  issuer : string; clientId : string; redirectUri : option string; scope : option string; silentRedirectUri : option string;
  postLogoutRedirectUri : option string; acrValues : option string; acrAssuranceMap : option (list (string * AssuranceLevel));
  resource : option string; oidc_minAssurance : AssuranceLevel
}.
Record MagicLinkConfig : Set := { callbackPath : string; magic_minAssurance : AssuranceLevel }.

Inductive IdentityPolicyConfig : Set :=
  | OidcRequiredPolicy (oidc : OidcClientConfig)
  | AnonymousAllowedPolicy (oidc : option OidcClientConfig) (magicLink : option MagicLinkConfig).

Inductive PortAdapterKind : Set := StubAdapter | ReferenceHttp.
Record PortCompositionConfig : Set := {
  definitionSource : PortAdapterKind; draftStore : PortAdapterKind; submitTransport : PortAdapterKind; identityProvider : string;
  notificationDelivery : string
}.

Record StackConfig : Set := {
  nativePackageSigning : option jsv; maxUploadBytes : option jsv; formspecServerUrl : option string;
  responseActionLedgerCapabilityUrl : option string; stack_oidc : option OidcClientConfig; magicLinkCallbackPath : option string;
  surfaceBundle : option jsv
}.

(** [formspecStack] is that of [referenceAdapters], its only member. *)
Record FormspecWebConfig : Set := {
  profileName : string; scopeKey : option string; identity : IdentityPolicyConfig; brand : jsv; ports : PortCompositionConfig;
  formspecStack : option StackConfig
}.

Definition brand_of (name : string) (tokens : list (string * string)) : jsv :=
  JObj [("name", JStr name); ("tokens", JObj ((λ t, (t.1, JStr t.2)) <$> tokens))].

Definition department_oidc : OidcClientConfig := {|
  issuer := "https://idp.example.gov/realms/formspec"; clientId := "formspec-web-department"; redirectUri := Some "/auth/callback"; scope := None;
  silentRedirectUri := None; postLogoutRedirectUri := None; acrValues := None; acrAssuranceMap := None; resource := None; oidc_minAssurance := L2 |}.
Definition no_stack : StackConfig := {|
  nativePackageSigning := None; maxUploadBytes := None; formspecServerUrl := None; responseActionLedgerCapabilityUrl := None; stack_oidc := None;
  magicLinkCallbackPath := None; surfaceBundle := None |}.
Definition stub_ports (provider : string) : PortCompositionConfig := {|
  definitionSource := StubAdapter; draftStore := StubAdapter; submitTransport := StubAdapter; identityProvider := provider;
  notificationDelivery := "stub" |}.

Definition departmentAppProfile : FormspecWebConfig := {|
  profileName := "departmentApp"; scopeKey := None; identity := OidcRequiredPolicy department_oidc;
  brand := brand_of "formspec-department" [
    ("color.primary", "#155e56"); ("color.primaryForeground", "#ffffff"); ("color.foreground", "#1f2933"); ("color.background", "#f7f8f5");
    ("color.border", "#c9d3cd"); ("color.card", "#ffffff"); ("color.muted", "#5d6b66"); ("color.mutedForeground", "#66736f");
    ("color.ring", "#155e56"); ("color.surface", "#edf3ef"); ("radius.sm", "0.5rem"); ("radius.md", "0.75rem")];
  ports := stub_ports "oidc";
  formspecStack := Some {| nativePackageSigning := None; maxUploadBytes := None; formspecServerUrl := None;
    responseActionLedgerCapabilityUrl := None; stack_oidc := Some department_oidc; magicLinkCallbackPath := None; surfaceBundle := None |} |}.

Definition publicPortalProfile : FormspecWebConfig := {|
  profileName := "publicPortal"; scopeKey := None;
  identity := AnonymousAllowedPolicy None (Some {| callbackPath := "/magic-link/callback"; magic_minAssurance := L2 |});
  brand := brand_of "formspec-public" [
    ("color.primary", "#2f6f8f"); ("color.primaryForeground", "#ffffff"); ("color.foreground", "#26333d"); ("color.background", "#fbfcfd");
    ("color.border", "#cfdae2"); ("color.card", "#ffffff"); ("color.muted", "#60717d"); ("color.mutedForeground", "#6c7c86");
    ("color.ring", "#2f6f8f"); ("color.surface", "#eef5f8"); ("radius.sm", "0.375rem"); ("radius.md", "0.5rem")];
  ports := stub_ports "anonymous";
  formspecStack := Some {| nativePackageSigning := None; maxUploadBytes := None; formspecServerUrl := None;
    responseActionLedgerCapabilityUrl := None; stack_oidc := None; magicLinkCallbackPath := Some "/magic-link/callback"; surfaceBundle := None |} |}.

(** The own members of [referenceProfiles]; a name that every object inherits is
    found as well. *)
Definition object_prototype : list string := [
  "constructor"; "__defineGetter__"; "__defineSetter__"; "hasOwnProperty"; "__lookupGetter__"; "__lookupSetter__"; "isPrototypeOf";
  "propertyIsEnumerable"; "toString"; "valueOf"; "__proto__"; "toLocaleString"].
Definition getReferenceProfile (name : string) : option FormspecWebConfig :=
  if String.eqb name "departmentApp" then Some departmentAppProfile
  else if String.eqb name "publicPortal" then Some publicPortalProfile else None.

(** ** The runtime configuration *)

Definition env_names (key : string) : list string := [ "FORMSPEC_WEB_" +:+ key; "VITE_FORMSPEC_WEB_" +:+ key ].
Definition runtimeEnvMap : list (string * list string) := [
  ("profileName", env_names "PROFILE");
  ("formspecServerUrl", env_names "SERVER_URL");
  ("responseActionLedgerCapabilityUrl", env_names "RESPONSE_ACTION_LEDGER_CAPABILITY_URL");
  ("oidcIssuer", env_names "OIDC_ISSUER");
  ("oidcClientId", env_names "OIDC_CLIENT_ID");
  ("oidcRedirectUri", env_names "OIDC_REDIRECT_URI");
  ("oidcScope", env_names "OIDC_SCOPE");
  ("oidcSilentRedirectUri", env_names "OIDC_SILENT_REDIRECT_URI");
  ("oidcPostLogoutRedirectUri", env_names "OIDC_POST_LOGOUT_REDIRECT_URI");
  ("oidcAcrValues", env_names "OIDC_ACR_VALUES");
  ("oidcMinAssurance", env_names "OIDC_MIN_ASSURANCE");
  ("oidcAcrAssuranceMapJson", env_names "OIDC_ACR_ASSURANCE_MAP_JSON");
  ("oidcResource", env_names "OIDC_RESOURCE");
  ("magicLinkCallbackPath", env_names "MAGIC_LINK_CALLBACK_PATH")].

Definition firstPresent (env : jsobj) (names : list string) : option string :=
  head (omap (λ name, match obj_get env name with JStr s => if nonempty s then Some s else None | _ => None end) names).

Definition runtimeConfigFromEnvRecord (env : jsobj) : outcome string jsobj :=
  let scope := nullish_or (obj_get env "FORMSPEC_WEB_SCOPE_KEY") (obj_get env "VITE_FORMSPEC_WEB_SCOPE_KEY") in
  start ← (if is_undefined scope then Returns [] else key ← parseScopeKey scope; Returns [("scopeKey", JStr key)]);
  let config := foldl (λ config e, match firstPresent env e.2 with Some value => obj_set config e.1 (JStr value) | None => config end) start runtimeEnvMap in
  match firstPresent env (env_names "ATTACHMENT_MAX_UPLOAD_BYTES") with
  | Some limit =>
      _ ← validatedAttachmentMaxUploadBytes (JNum (number_of limit));
      Returns (obj_set config "attachmentMaxUploadBytes" (JNum (number_of limit)))
  | None => Returns config
  end.

Definition nonempty_text (v : jsv) : bool := match v with JStr s => nonempty s | _ => false end.

(** Whether an entry of the joined configuration is kept. *)
Definition keeps_entry (signing : option jsv) (key : string) (value : jsv) : bool :=
  if String.eqb key "nativePackageSigning" then isSome signing
  else if str_in key ["attachmentMaxUploadBytes"; "scopeKey"] then negb (is_undefined value)
  else if String.eqb key "surfaceBundle" then match value with JObj _ | JArr _ => true | _ => false end
  else nonempty_text value.

Definition compactRuntimeConfig (config : jsobj) : outcome string jsobj :=
  _ ← validatedAttachmentMaxUploadBytes (obj_get config "attachmentMaxUploadBytes");
  signing ← readNativePackageSigningConfig (Some config);
  Returns ((λ e, (e.1, if String.eqb e.1 "nativePackageSigning" then opt_json signing else e.2))
           <$> List.filter (λ e, keeps_entry signing e.1 e.2) config).

(** From the build's environment, the window's configuration and its defaults. *)
Definition readRuntimeConfig (env : jsobj) (windowConfig defaults : option jsobj) : outcome string jsobj :=
  vite ← runtimeConfigFromEnvRecord env;
  signing ← readNativePackageSigningConfig windowConfig;
  compactRuntimeConfig (obj_spread (obj_spread (obj_spread (default [] defaults) vite) (default [] windowConfig)) (opt_member "nativePackageSigning" signing)).

(** ** Overrides *)

(** A string of the runtime configuration; [??] and [||] on one. *)
Definition setting (runtime : jsobj) (key : string) : option string := match obj_get runtime key with JStr s => Some s | _ => None end.
Definition truthy_setting (runtime : jsobj) (key : string) : bool := nonempty (default "" (setting runtime key)).
Definition or_else {A} (a b : option A) : option A := match a with Some x => Some x | None => b end.

Definition assurance (v : jsv) : outcome string AssuranceLevel :=
  if is_lit v "L1" then Returns L1 else if is_lit v "L2" then Returns L2 else if is_lit v "L3" then Returns L3 else if is_lit v "L4" then Returns L4
  else Throws "OIDC minimum and ACR mappings must use Formspec L1-L4".

Definition acrMap (text : string) : outcome string (list (string * AssuranceLevel)) :=
  match parse_json text with
  | None => Throws "SyntaxError"
  | Some (JObj (e :: o)) =>
      map_each (λ e : string * jsv,
        throw_when (negb (nonempty e.1) || negb (String.eqb e.1 (trim e.1))) "OIDC ACR mapping keys must be exact nonblank_text strings" ;;
        level ← assurance e.2; Returns (e.1, level)) (e :: o)
  | Some _ => Throws "OIDC ACR mapping must be a nonempty JSON object"
  end.

Definition oidc_texts : list string :=
  ["oidcIssuer"; "oidcClientId"; "oidcRedirectUri"; "oidcScope"; "oidcSilentRedirectUri"; "oidcPostLogoutRedirectUri"; "oidcAcrValues"; "oidcResource"].
Definition oidc_overridden (runtime : jsobj) : bool :=
  existsb (truthy_setting runtime) oidc_texts || isSome (setting runtime "oidcMinAssurance") || isSome (setting runtime "oidcAcrAssuranceMapJson").

Definition applyOidcRuntimeOverrides (oidc : option OidcClientConfig) (runtime : jsobj) : outcome string (option OidcClientConfig) :=
  if negb (oidc_overridden runtime) then Returns oidc else
  minimum ← (match setting runtime "oidcMinAssurance" with
             | None => Returns (default L2 (oidc_minAssurance <$> oidc))
             | Some level => assurance (JStr level)
             end);
  acr ← (match setting runtime "oidcAcrAssuranceMapJson" with
         | None => Returns (o ← oidc; acrAssuranceMap o)
         | Some text => Some <$> acrMap text
         end);
  Returns (Some {|
    issuer := default "" (or_else (setting runtime "oidcIssuer") (issuer <$> oidc));
    clientId := default "" (or_else (setting runtime "oidcClientId") (clientId <$> oidc));
    redirectUri := or_else (setting runtime "oidcRedirectUri") (o ← oidc; redirectUri o);
    scope := or_else (setting runtime "oidcScope") (o ← oidc; scope o);
    silentRedirectUri := or_else (setting runtime "oidcSilentRedirectUri") (o ← oidc; silentRedirectUri o);
    postLogoutRedirectUri := or_else (setting runtime "oidcPostLogoutRedirectUri") (o ← oidc; postLogoutRedirectUri o);
    acrValues := or_else (setting runtime "oidcAcrValues") (o ← oidc; acrValues o);
    acrAssuranceMap := acr;
    resource := or_else (setting runtime "oidcResource") (o ← oidc; resource o);
    oidc_minAssurance := minimum |}).

Definition identityMagicLink (policy : IdentityPolicyConfig) : option MagicLinkConfig :=
  match policy with AnonymousAllowedPolicy _ magicLink => magicLink | OidcRequiredPolicy _ => None end.
Definition identityOidc (policy : IdentityPolicyConfig) : option OidcClientConfig :=
  match policy with AnonymousAllowedPolicy oidc _ => oidc | OidcRequiredPolicy oidc => Some oidc end.

Definition applyMagicLinkRuntimeOverrides (magicLink : option MagicLinkConfig) (runtime : jsobj) : option MagicLinkConfig :=
  match setting runtime "magicLinkCallbackPath" with
  | Some (String a s) => Some {| callbackPath := String a s; magic_minAssurance := default L2 (magic_minAssurance <$> magicLink) |}
  | _ => magicLink
  end.

Definition applyIdentityRuntimeOverrides (policy : IdentityPolicyConfig) (oidc : option OidcClientConfig) (magicLink : option MagicLinkConfig) :
    IdentityPolicyConfig :=
  match policy with
  | OidcRequiredPolicy own => OidcRequiredPolicy (default own oidc)
  | AnonymousAllowedPolicy own own_magic => AnonymousAllowedPolicy (or_else oidc own) (or_else magicLink own_magic)
  end.

Definition portsForRuntime (p : PortCompositionConfig) (server : option string) : PortCompositionConfig :=
  if negb (nonempty (default "" server)) then p else {|
    definitionSource := ReferenceHttp; draftStore := ReferenceHttp; submitTransport := ReferenceHttp; identityProvider := identityProvider p;
    notificationDelivery := notificationDelivery p |}.

(** Whether anything the stack holds is given at runtime. *)
Definition stack_overridden (runtime : jsobj) (limit : option Z) (signing : option jsv) : bool :=
  existsb (truthy_setting runtime) ["formspecServerUrl"; "responseActionLedgerCapabilityUrl"; "magicLinkCallbackPath"]
  || oidc_overridden runtime || truthy (obj_get runtime "surfaceBundle") || isSome limit || isSome signing.

Definition applyRuntimeOverrides (profile : FormspecWebConfig) (runtime : jsobj) : outcome string FormspecWebConfig :=
  let stack := default no_stack (formspecStack profile) in
  fromRuntime ← readNativePackageSigningConfig (Some runtime);
  signing ← (match fromRuntime with
             | Some s => Returns (Some s)
             | None => match nativePackageSigning stack with Some v => Some <$> nativePackageSigningConfig v | None => Returns None end
             end);
  runtimeLimit ← validatedAttachmentMaxUploadBytes (obj_get runtime "attachmentMaxUploadBytes");
  limit ← (match runtimeLimit with
           | Some z => Returns (Some z)
           | None => validatedAttachmentMaxUploadBytes (opt_json (maxUploadBytes stack))
           end);
  oidc ← applyOidcRuntimeOverrides (or_else (stack_oidc stack) (identityOidc (identity profile))) runtime;
  let magicLink := applyMagicLinkRuntimeOverrides (identityMagicLink (identity profile)) runtime in
  let active :=
    if isSome (formspecStack profile) || stack_overridden runtime limit signing then Some {|
      nativePackageSigning := or_else signing (nativePackageSigning stack);
      maxUploadBytes := match limit with Some z => Some (JNum (NInt z)) | None => maxUploadBytes stack end;
      formspecServerUrl := or_else (setting runtime "formspecServerUrl") (formspecServerUrl stack);
      responseActionLedgerCapabilityUrl := or_else (setting runtime "responseActionLedgerCapabilityUrl") (responseActionLedgerCapabilityUrl stack);
      stack_oidc := oidc;
      magicLinkCallbackPath := or_else (setting runtime "magicLinkCallbackPath") (magicLinkCallbackPath stack);
      surfaceBundle := if is_nullish (obj_get runtime "surfaceBundle") then surfaceBundle stack else Some (obj_get runtime "surfaceBundle") |}
    else None in
  let server := s ← active; formspecServerUrl s in
  key ← (if is_undefined (obj_get runtime "scopeKey") then Returns (scopeKey profile) else Some <$> parseScopeKey (obj_get runtime "scopeKey"));
  throw_when (nonempty (default "" server) && negb (isSome key))
    "A backend-connected deployment requires an explicit scopeKey from config-check" ;;
  Returns {| profileName := profileName profile; scopeKey := key;
             identity := applyIdentityRuntimeOverrides (identity profile) oidc magicLink; brand := brand profile;
             ports := portsForRuntime (ports profile) server; formspecStack := active |}.

Definition profileConfig (baseConfig : FormspecWebConfig) (runtime : jsobj) : FormspecWebConfig :=
  if truthy_setting runtime "profileName" then default baseConfig (getReferenceProfile (default "" (setting runtime "profileName"))) else baseConfig.

(** An inherited member is no profile: reading [identity.oidc] of it throws. *)
Definition resolveActiveConfig (baseConfig : FormspecWebConfig) (runtime : jsobj) : outcome string FormspecWebConfig :=
  if str_in (default "" (setting runtime "profileName")) object_prototype then
    _ ← readNativePackageSigningConfig (Some runtime);
    _ ← validatedAttachmentMaxUploadBytes (obj_get runtime "attachmentMaxUploadBytes");
    Throws "TypeError"
  else applyRuntimeOverrides (profileConfig baseConfig runtime) runtime.

(** ** The signed respondent surface *)

Definition kid_char (a : Ascii.ascii) : bool :=
  is_letter a || is_digit a || bool_decide (a = "_"%char) || bool_decide (a = "-"%char).
Definition kid_text (s : string) : bool := forallb kid_char (String.list_ascii_of_string s).
(** [/^[A-Za-z0-9_-]+$/u] and [/^[A-Za-z0-9_-]{43}$/u] *)
Definition isSurfaceBundleKeyConfig (value : jsv) : bool :=
  match value with
  | JObj o => match obj_get o "kid", obj_get o "publicKey" with
      | JStr kid, JStr key => nonempty kid && kid_text kid && (String.length key =? 43)%nat && kid_text key
      | _, _ => false
      end
  | _ => false
  end.

Definition isAbsoluteUrl (value : string) : bool := match new_URL value with Some url => String.eqb (url_href url) value | None => false end.
Definition isAbsoluteHttpUrl (value : jsv) : bool :=
  match value with
  | JStr s => match new_URL s with Some url => str_in (url_protocol url) ["https:"; "http:"] && String.eqb (url_href url) s | None => false end
  | _ => false
  end.

Definition positive_integer (v : jsv) : bool :=
  match v with JNum n => match safe_integer n with Some z => (0 <? z)%Z | None => false end | _ => false end.
Definition filled_array (v : jsv) : bool := match v with JArr (_ :: _) => true | _ => false end.

Definition isRespondentSurfaceBundleConfig (value : jsv) : bool :=
  let verification := if isRecord (prop value "verification") then prop value "verification" else JUndef in
  let registry := if isRecord (prop verification "methodRegistry") then prop verification "methodRegistry" else JUndef in
  isRecord value && is_string (prop value "locator")
  && filled_array (prop value "allowedOrigins") && forallb is_string (items (prop value "allowedOrigins"))
  && positive_integer (prop value "maxBytes") && positive_integer (prop value "timeoutMs")
  && is_one_of (prop value "redirectPolicy") ["refuse"; "same-origin"]
  && nonempty_text (prop value "starterModuleId") && isAbsoluteHttpUrl (prop value "receiptResourceUrl")
  && match prop verification "expectedAppId" with JStr s => isAbsoluteUrl s | _ => false end
  && filled_array (prop registry "entries") && is_string (prop registry "version")
  && filled_array (prop verification "keys") && forallb isSurfaceBundleKeyConfig (items (prop verification "keys"))
  && filled_array (prop verification "authorities") && filled_array (prop verification "pinnedReleases").

Definition respondentSurfaceBundleConfig (config : FormspecWebConfig) : option jsv :=
  candidate ← (stack ← formspecStack config; surfaceBundle stack);
  if isRespondentSurfaceBundleConfig candidate then Some candidate else None.

Definition respondentSurfaceDeploymentIsConfigured (config : FormspecWebConfig) : bool :=
  String.eqb (profileName config) "publicPortal"
  && match identity config with AnonymousAllowedPolicy _ _ => true | OidcRequiredPolicy _ => false end
  && String.eqb (identityProvider (ports config)) "anonymous" && isSome (respondentSurfaceBundleConfig config)
  && nonempty (default "" (stack ← formspecStack config; formspecServerUrl stack)).
End configuration.

(** * What a configuration may be *)

Section theorems.
Context `{Packages : !ConfigPackages, Urls : !UrlLibrary, Json : !JsonText, Numbers : !NumberOf}.

(** ** Native signing *)

(** A reference by an absolute URL and a name. *)
Record reference (first second : string) (v : jsv) : Prop := {
  reference_closed : closed_object v [first; second] = true;
  reference_first : exact_text (prop v first) = true ∧ absolute_text (prop v first) = true;
  reference_second : exact_text (prop v second) = true
}.

(** References of a record, each once. *)
Definition references (first second : string) (record : jsv) : Prop :=
  Forall (reference first second) (values_of record) ∧
  NoDup ((λ v, (text_of (prop v first), text_of (prop v second))) <$> values_of record).

Record version_pin (identity : string) (v : jsv) : Prop := {
  pin_closed : closed_object v [identity; "version"] = true;
  pin_identity : exact_text (prop v identity) = true;
  pin_version : exact_text (prop v "version") = true
}.

(** A list that is not empty, of entries that pass, each under its own name. *)
Definition named_entries (ok : jsv → Prop) (name : string) (v : jsv) : Prop :=
  items v ≠ [] ∧ Forall ok (items v) ∧ NoDup ((λ x, text_of (prop x name)) <$> items v).

Record widget_pin (modules : list jsv) (v : jsv) : Prop := {
  widget_closed : closed_object v ["moduleId"; "registryEntryVersion"] = true;
  widget_module : exact_text (prop v "moduleId") = true;
  widget_version : is_one_of (prop v "registryEntryVersion") ["0.1.0"; "0.1.1"; "0.1.2"] = true;
  widget_selected : ∃ m, m ∈ modules ∧ strict_eq (prop m "id") (prop v "moduleId") = true
}.

Record image_pin (v : jsv) : Prop := {
  image_closed : closed_object v ["kind"; "source"] = true;
  image_kind : prop v "kind" = JStr "image";
  image_url : exact_text (prop v "source") = true ∧ image_source (prop v "source") = true
}.

Record signing_scope (v : jsv) : Prop := {
  scope_closed : closed_object v ["surface"; "route"; "ceremonySlot"; "reviewSlot"] = true;
  scope_surface : closed_object (prop v "surface") ["url"; "version"] = true ∧ exact_text (prop (prop v "surface") "url") = true ∧
    absolute_text (prop (prop v "surface") "url") = true ∧ exact_text (prop (prop v "surface") "version") = true;
  scope_names : exact_text (prop v "route") = true ∧ exact_text (prop v "ceremonySlot") = true ∧ exact_text (prop v "reviewSlot") = true;
  scope_apart : strict_eq (prop v "ceremonySlot") (prop v "reviewSlot") = false
}.

Record lifecycle_paths (v : jsv) : Prop := {
  lifecycle_closed : closed_object v ["instance"; "canStartPath"; "startedPath"; "persistentSavingPath"] = true;
  lifecycle_texts : Forall (λ x, exact_text x = true) (values_of v);
  lifecycle_apart : NoDup (text_of ∘ prop v <$> ["canStartPath"; "startedPath"; "persistentSavingPath"])
}.

Record readiness_paths (v : jsv) : Prop := {
  readiness_closed : closed_object v (["instance"; "readyPath"; "ownedPath"] ++ optional_key v "prepareReadyPath") = true;
  readiness_texts : Forall (λ x, exact_text x = true) (values_of v);
  readiness_apart : NoDup (text_of ∘ prop v <$> ["readyPath"; "ownedPath"] ++ optional_key v "prepareReadyPath")
}.

Definition component_pin (v : jsv) : Prop :=
  closed_object v ["handle"; "url"; "version"] = true ∧ exact_text (prop v "handle") = true ∧
  (exact_text (prop v "url") = true ∧ absolute_text (prop v "url") = true) ∧ exact_text (prop v "version") = true.

(** The modules that are selected: those listed, or the signing module. *)
Definition selected_modules (c : jsv) : list jsv := match prop c "modules" with JArr l => l | _ => [prop c "module"] end.

Record signing_config (c : jsv) : Prop := {
  signing_closed : closed_object c (["keyId"; "expectedIssuer"; "definition"; "bundle"; "module"; "initialLocale"; "roles"; "bindings"; "readiness"]
    ++ flat_map (optional_key c) ["signingScope"; "modules"; "structuredPanelWidgets"; "component"; "staticAssets"; "applicationLifecycle"]) = true;
  signing_key : exact_text (prop c "keyId") = true;
  signing_issuer : ∃ s, prop c "expectedIssuer" = JStr s ∧ s ≠ "" ∧ uri_format s = true;
  signing_definition : version_pin "url" (prop c "definition") ∧ absolute_text (prop (prop c "definition") "url") = true;
  signing_bundle : version_pin "id" (prop c "bundle") ∧ absolute_text (prop (prop c "bundle") "id") = true;
  signing_module : version_pin "id" (prop c "module");
  signing_modules : has c "modules" = true → named_entries (version_pin "id") "id" (prop c "modules") ∧
    ∃ m, m ∈ items (prop c "modules") ∧ same_pin (prop c "module") m = true;
  signing_widgets : has c "structuredPanelWidgets" = true →
    named_entries (widget_pin (selected_modules c)) "moduleId" (prop c "structuredPanelWidgets");
  signing_slots : has c "signingScope" = true → signing_scope (prop c "signingScope");
  signing_locale : exact_text (prop c "initialLocale") = true ∧ known_locale (text_of (prop c "initialLocale")) = true;
  signing_assets : has c "staticAssets" = true → named_entries image_pin "source" (prop c "staticAssets");
  signing_component : has c "component" = true → component_pin (prop c "component");
  signing_roles_closed : closed_object (prop c "roles") (signing_roles ++ (if has c "applicationLifecycle" then ["startApplication"] else [])) = true;
  signing_lifecycle : has c "applicationLifecycle" = true → lifecycle_paths (prop c "applicationLifecycle");
  signing_actions : references "artifactRef" "actionRef" (prop c "roles");
  signing_bindings : closed_object (prop c "bindings") inputNames = true ∧ references "catalogRef" "sourceRef" (prop c "bindings");
  signing_readiness : readiness_paths (prop c "readiness")
}.

Lemma require_Returns b u : require b = Returns u ↔ b = true.
Proof. unfold require. rewrite throw_when_Returns. apply negb_false_iff. Qed.

Lemma absolute_Returns v u : absoluteUrl v = Returns u ↔ exact_text v = true ∧ absolute_text v = true.
Proof. unfold absoluteUrl, nonblank_text. by rewrite seq_Returns, !require_Returns. Qed.

Lemma when_has_Returns c k check u : when_has c k check = Returns u ↔ (has c k = true → check (prop c k) = Returns ()).
Proof. unfold when_has. destruct u, (has c k); naive_solver. Qed.

(** A loop that checks its entries and takes each name once. *)
Lemma named_loop {A B} `{EqDecision B} (check : A → outcome string unit) (name : A → B) l seen s :
  fold_each (λ seen x, check x ;; unique_name seen (name x)) seen l = Returns s ↔
  Forall (λ x, check x = Returns ()) l ∧ NoDup (name <$> l) ∧ Forall (λ x, x ∉ seen) (name <$> l) ∧ s = rev (name <$> l) ++ seen.
Proof.
  revert seen. induction l as [|x l IH]; intros seen; simpl.
  - split; [intros [= <-]; repeat split; constructor|by intros (_ & _ & _ & ->)].
  - rewrite bind_Returns. setoid_rewrite seq_Returns. unfold unique_name. setoid_rewrite seq_Returns. setoid_rewrite require_Returns.
    rewrite !Forall_cons, NoDup_cons. split.
    + intros (s' & (Hc & Hf & [= <-]) & (Hcs & Hnd & Hfs & ->)%IH). apply negb_true_iff, bool_decide_eq_false in Hf.
      assert (name x ∉ name <$> l) as Hx by (intros Hin; apply (proj1 (Forall_forall _ _) Hfs) in Hin; apply Hin; left).
      split; [done|]. split; [done|]. split; [split; [done|]|by rewrite <- app_assoc].
      eapply Forall_impl; [exact Hfs|]. intros y Hy Hin. apply Hy. by right.
    + intros ([Hc Hcs] & [Hx Hnd] & [Hf Hfs] & ->). exists (name x :: seen). split; [split; [done|split; [|done]]; by apply negb_true_iff, bool_decide_eq_false|].
      apply IH. split; [done|]. split; [done|]. split; [|by rewrite <- app_assoc]. apply Forall_forall. intros y Hy [->|Hin]%elem_of_cons; [done|].
      by apply (proj1 (Forall_forall _ _) Hfs y).
Qed.

Lemma named_loop_ok {A B} `{EqDecision B} (check : A → outcome string unit) (name : A → B) l :
  (∃ s, fold_each (λ seen x, check x ;; unique_name seen (name x)) [] l = Returns s) ↔ Forall (λ x, check x = Returns ()) l ∧ NoDup (name <$> l).
Proof.
  setoid_rewrite named_loop. split; [by intros (s & ? & ? & _)|]. intros [? ?]. eexists. split; [done|]. split; [done|]. split; [|done].
  apply Forall_forall. intros x _. apply not_elem_of_nil.
Qed.

Lemma nonempty_items v u : nonempty_array v = Returns u ↔ items v ≠ [].
Proof. unfold nonempty_array. rewrite require_Returns. destruct v as [| | | | |[|x l]|]; simpl; naive_solver. Qed.

Lemma fold_each_ext {E S A} (f g : S → A → outcome E S) s l : (∀ s x, f s x = g s x) → fold_each f s l = fold_each g s l.
Proof. intros Hfg. revert s. induction l as [|x l IH]; intros s; simpl; [done|]. rewrite Hfg. destruct (g s x); simpl; auto. Qed.

Lemma seq_assoc {E A} (m n : outcome E unit) (k : outcome E A) : ((m ;; n) ;; k) = (m ;; n ;; k).
Proof. by destruct m. Qed.

Lemma bind_ignored {E A B} (m : outcome E A) (k : outcome E B) b : (m ≫= λ _, k) = Returns b ↔ (∃ a, m = Returns a) ∧ k = Returns b.
Proof. destruct m; simpl; naive_solver. Qed.

Lemma check_references_exact first second v u : check_references first second v = Returns u ↔ references first second v.
Proof.
  unfold check_references, references. rewrite bind_ignored.
  erewrite (fold_each_ext _ (λ seen x, (closed_record x [first; second] ;; absoluteUrl (prop x first) ;; nonblank_text (prop x second)) ;;
    unique_name seen (text_of (prop x first), text_of (prop x second)))) by (intros; by rewrite !seq_assoc).
  rewrite named_loop_ok. destruct u. split.
  - intros [[Hc Hn] _]. split; [|done]. eapply Forall_impl; [exact Hc|]. intros x. unfold closed_record, nonblank_text. rewrite !seq_Returns, !require_Returns, absolute_Returns.
    intros (? & ? & ?). by constructor.
  - intros [Hc Hn]. split; [|done]. split; [|done]. eapply Forall_impl; [exact Hc|]. intros x [? ? ?]. unfold closed_record, nonblank_text.
    by rewrite !seq_Returns, !require_Returns, absolute_Returns.
Qed.

Lemma check_pin_exact identity absolute v u : check_pin identity absolute v = Returns u ↔
  version_pin identity v ∧ (absolute = true → absolute_text (prop v identity) = true).
Proof.
  unfold check_pin, closed_record, nonblank_text. rewrite !seq_Returns, !require_Returns. destruct u, absolute; [rewrite absolute_Returns|]; split.
  - intros (? & ? & ? & _ & ?). by split; [constructor|].
  - intros [[? Hi ?] Ha]. specialize (Ha eq_refl). by split_and!.
  - intros (? & ? & ? & _). by split; [constructor|].
  - by intros [[? ? ?] _].
Qed.

Lemma check_modules_exact c v u : check_modules c v = Returns u ↔
  named_entries (version_pin "id") "id" v ∧ ∃ m, m ∈ items v ∧ same_pin (prop c "module") m = true.
Proof.
  unfold check_modules, named_entries. rewrite seq_Returns, nonempty_items, bind_ignored, require_Returns.
  erewrite (fold_each_ext _ (λ seen x, (closed_record x ["id"; "version"] ;; nonblank_text (prop x "id") ;; nonblank_text (prop x "version")) ;; unique_name seen (text_of (prop x "id"))))
    by (intros; by rewrite !seq_assoc).
  rewrite named_loop_ok.
  assert (∀ x, (closed_record x ["id"; "version"] ;; nonblank_text (prop x "id") ;; nonblank_text (prop x "version")) = Returns () ↔ version_pin "id" x) as Hpin.
  { intros x. unfold closed_record, nonblank_text. rewrite !seq_Returns, !require_Returns. split; [intros (? & ? & ?); by constructor|by intros []]. }
  setoid_rewrite Hpin. split.
  - intros (Hne & [Hok Hnd] & Hone). split; [done|]. apply Nat.eqb_eq in Hone. destruct (List.filter _ _) as [|m l] eqn:E; [done|].
    exists m. rewrite list_elem_of_In. apply filter_In. rewrite E. by left.
  - intros [(Hne & Hok & Hnd) (m & Hm & Hs)]. split; [done|]. split; [done|]. apply Nat.eqb_eq.
    assert (∀ l, Forall (version_pin "id") l → NoDup ((λ x, text_of (prop x "id")) <$> l) → m ∈ l → length (List.filter (same_pin (prop c "module")) l) = 1) as Hl; [|by apply Hl].
    assert (∀ x, version_pin "id" x → same_pin (prop c "module") x = true → text_of (prop x "id") = text_of (prop (prop c "module") "id")) as Hid.
    { intros x [_ Hx _] Hsx. unfold same_pin in Hsx. apply andb_true_iff in Hsx as [Hsx _]. destruct (prop x "id"); try done.
      destruct (prop (prop c "module") "id"); try done. by apply String.eqb_eq in Hsx as ->. }
    clear -Hs Hid. induction l as [|x l IH]; [by intros _ _ ?%elem_of_nil|]. rewrite Forall_cons. simpl. rewrite NoDup_cons.
    intros [Hx Hok] [Hni Hnd] Hm. destruct (decide (m = x)) as [<-|Hne].
    + rewrite Hs. simpl. f_equal. apply length_zero_iff_nil. destruct (List.filter _ l) as [|y l'] eqn:E; [done|]. exfalso.
      assert (In y (List.filter (same_pin (prop c "module")) l)) as [Hy Hsy]%filter_In by (rewrite E; by left). apply list_elem_of_In in Hy.
      apply Hni, list_elem_of_fmap. exists y. split; [|done]. rewrite (Hid m Hx Hs), (Hid y); [done| |done]. by apply (proj1 (Forall_forall _ _) Hok).
    + apply elem_of_cons in Hm as [?|Hm]; [done|]. destruct (same_pin (prop c "module") x) eqn:Ex; [|by apply IH]. exfalso. apply Hni, list_elem_of_fmap.
      exists m. split; [|done]. rewrite (Hid x Hx Ex), (Hid m); [done| |done]. by apply (proj1 (Forall_forall _ _) Hok).
Qed.

Lemma check_widgets_exact c v u : check_widgets c v = Returns u ↔ named_entries (widget_pin (selected_modules c)) "moduleId" v.
Proof.
  unfold check_widgets, named_entries. fold (selected_modules c). rewrite seq_Returns, nonempty_items. cbn zeta. rewrite bind_ignored.
  erewrite (fold_each_ext _ (λ seen x, (closed_record x ["moduleId"; "registryEntryVersion"] ;; nonblank_text (prop x "moduleId") ;;
    require (is_one_of (prop x "registryEntryVersion") ["0.1.0"; "0.1.1"; "0.1.2"]
             && existsb (λ module, strict_eq (prop module "id") (prop x "moduleId")) (selected_modules c))) ;; unique_name seen (text_of (prop x "moduleId")))).
  2:{ intros seen x. unfold unique_name. rewrite !seq_assoc. unfold require, throw_when.
      by destruct (closed_record x _), (nonblank_text _), (negb (bool_decide _)), (negb (_ && _)). }
  rewrite named_loop_ok. destruct u.
  assert (∀ x, (closed_record x ["moduleId"; "registryEntryVersion"] ;; nonblank_text (prop x "moduleId") ;;
    require (is_one_of (prop x "registryEntryVersion") ["0.1.0"; "0.1.1"; "0.1.2"]
             && existsb (λ module, strict_eq (prop module "id") (prop x "moduleId")) (selected_modules c))) = Returns () ↔
    widget_pin (selected_modules c) x) as Hpin.
  { intros x. unfold closed_record, nonblank_text. rewrite !seq_Returns, !require_Returns, andb_true_iff, existsb_exists. split.
    - intros (? & ? & ? & m & Hm & ?). constructor; [done..|]. exists m. by rewrite list_elem_of_In.
    - intros [? ? ? (m & Hm & ?)]. split_and!; [done..|]. exists m. by rewrite <- list_elem_of_In. }
  setoid_rewrite Hpin. naive_solver.
Qed.

Lemma check_assets_exact v u : check_assets v = Returns u ↔ named_entries image_pin "source" v.
Proof.
  unfold check_assets, named_entries. rewrite seq_Returns, nonempty_items, bind_ignored.
  erewrite (fold_each_ext _ (λ seen x, (closed_record x ["kind"; "source"] ;; require (is_lit (prop x "kind") "image") ;; nonblank_text (prop x "source") ;;
    require (image_source (prop x "source"))) ;; unique_name seen (text_of (prop x "source")))) by (intros; by rewrite !seq_assoc).
  rewrite named_loop_ok. destruct u.
  assert (∀ x, (closed_record x ["kind"; "source"] ;; require (is_lit (prop x "kind") "image") ;; nonblank_text (prop x "source") ;;
    require (image_source (prop x "source"))) = Returns () ↔ image_pin x) as Hpin.
  { intros x. unfold closed_record, nonblank_text. rewrite !seq_Returns, !require_Returns, is_lit_spec. split.
    - intros (? & ? & ? & ?). by constructor.
    - by intros [? ? []]. }
  setoid_rewrite Hpin. naive_solver.
Qed.

Lemma check_scope_exact v u : check_scope v = Returns u ↔ signing_scope v.
Proof.
  unfold check_scope, closed_record, nonblank_text. rewrite !seq_Returns, absolute_Returns, !require_Returns, negb_true_iff. destruct u. split.
  - intros (? & ? & [? ?] & ? & ? & ? & ? & ?). by constructor.
  - by intros [? (? & ? & ? & ?) (? & ? & ?) ?].
Qed.

Lemma check_component_exact v u : check_component v = Returns u ↔ component_pin v.
Proof. unfold check_component, component_pin, closed_record, nonblank_text. rewrite !seq_Returns, absolute_Returns, !require_Returns. tauto. Qed.

Lemma texts_Returns l u : for_each nonblank_text l = Returns u ↔ Forall (λ x, exact_text x = true) l.
Proof.
  destruct u. induction l as [|x l IH]; cbn [for_each]; [by split|]. rewrite seq_Returns, IH, Forall_cons. unfold nonblank_text. by rewrite require_Returns.
Qed.

Lemma check_lifecycle_exact v u : check_lifecycle v = Returns u ↔ lifecycle_paths v.
Proof.
  unfold check_lifecycle, closed_record. rewrite !seq_Returns, !require_Returns, texts_Returns, bool_decide_eq_true. destruct u.
  split; [intros (? & ? & ?); by constructor|by intros []].
Qed.

Lemma check_readiness_exact v u : check_readiness v = Returns u ↔ readiness_paths v.
Proof.
  unfold check_readiness, closed_record. rewrite !seq_Returns, !require_Returns, texts_Returns, bool_decide_eq_true. destruct u.
  split; [intros (? & ? & ?); by constructor|by intros []].
Qed.

Lemma issuer_Returns v u : check_issuer v = Returns u ↔ ∃ s, v = JStr s ∧ s ≠ "" ∧ uri_format s = true.
Proof.
  unfold check_issuer. rewrite throw_when_Returns, negb_false_iff. destruct v; try naive_solver.
  rewrite andb_true_iff. unfold nonempty. rewrite negb_true_iff, String.eqb_neq. naive_solver.
Qed.

Lemma check_signing_exact c u : check_signing c = Returns u ↔ signing_config c.
Proof.
  unfold check_signing, closed_record, nonblank_text.
  rewrite !seq_Returns, !when_has_Returns, !require_Returns, issuer_Returns, !check_pin_exact, !check_references_exact, check_readiness_exact.
  setoid_rewrite check_modules_exact. setoid_rewrite check_widgets_exact. setoid_rewrite check_scope_exact. setoid_rewrite check_assets_exact.
  setoid_rewrite check_component_exact. setoid_rewrite check_lifecycle_exact. split.
  - intros (? & ? & ? & [? ?] & [? ?] & [? ?] & ? & ? & ? & ? & ? & ? & ? & ? & ? & ? & ? & ? & ?). constructor; auto.
  - intros []. destruct_and?. split_and!; auto; by intros.
Qed.

(** A native signing configuration is accepted exactly when it is a
    finite-JSON object of the described shape, and what is kept is the detached
    copy that was checked: every pin, reference, path and asset is closed_record and
    exact, the modules contain the signing module, and no name is given twice. *)
Theorem signing_config_exact v c : nativePackageSigningConfig v = Returns c ↔ snapshotFiniteJson v = Returns c ∧ signing_config c.
Proof.
  unfold nativePackageSigningConfig. rewrite bind_Returns. setoid_rewrite seq_Returns. setoid_rewrite check_signing_exact. split.
  - by intros (c' & ? & ? & [= <-]).
  - intros [? ?]. by exists c.
Qed.

(** ** The runtime configuration *)

Lemma parseScopeKey_Returns v k : parseScopeKey v = Returns k ↔ v = JStr k ∧ is_scope_key_text k = true.
Proof. destruct v as [| | | |s| |]; cbn; try naive_solver. destruct (is_scope_key_text s) eqn:E; split; [by intros [= <-]|by intros [[= ->] _]|done|intros [[= ->] ?]; congruence]. Qed.

(** An upload limit is a positive safe integer. *)
Definition upload_limit (z : Z) : Prop := (0 < z ≤ 9007199254740991)%Z.

Lemma limit_Returns v o : validatedAttachmentMaxUploadBytes v = Returns o ↔
  match o with None => v = JUndef | Some z => v = JNum (NInt z) ∧ upload_limit z end.
Proof.
  unfold upload_limit. destruct v as [| | |[z|t]| | |]; cbn; try (destruct o; naive_solver).
  destruct (Z.leb_spec (Z.abs z) 9007199254740991), (Z.ltb_spec 0 z), o as [z'|]; cbn; naive_solver lia.
Qed.

Lemma own_signing_Returns o s : readNativePackageSigningConfig (Some o) = Returns s ↔
  match s with
  | Some c => ∃ v, own_get o "nativePackageSigning" = Some v ∧ snapshotFiniteJson v = Returns c ∧ signing_config c
  | None => own_get o "nativePackageSigning" = None
  end.
Proof.
  cbn. destruct (own_get o "nativePackageSigning") as [v|]; [|destruct s; naive_solver].
  destruct (nativePackageSigningConfig v) as [c|] eqn:E; cbn.
  - apply signing_config_exact in E as [? ?]. destruct s; [|naive_solver]. split; [intros [= <-]; eauto|]. intros (v' & [= <-] & ? & _). congruence.
  - destruct s; [|done]. split; [done|]. intros (v' & [= <-] & ? & ?). assert (nativePackageSigningConfig v = Returns j) as E' by (by apply signing_config_exact).
    congruence.
Qed.

(** What the boot reads keeps no blank text and nothing that is malformed. *)
Definition clean_setting (key : string) (value : jsv) : Prop :=
  if String.eqb key "nativePackageSigning" then signing_config value
  else if String.eqb key "attachmentMaxUploadBytes" then ∃ z, value = JNum (NInt z) ∧ upload_limit z
  else if String.eqb key "scopeKey" then value ≠ JUndef
  else if String.eqb key "surfaceBundle" then (∃ o, value = JObj o) ∨ (∃ l, value = JArr l)
  else ∃ s, value = JStr s ∧ s ≠ "".

Lemma compact_get config c k : compactRuntimeConfig config = Returns c → NoDup (obj_keys config) →
  ∃ signing limit, readNativePackageSigningConfig (Some config) = Returns signing ∧
    validatedAttachmentMaxUploadBytes (obj_get config "attachmentMaxUploadBytes") = Returns limit ∧
    own_get c k = (v ← own_get config k; if keeps_entry signing k v
                   then Some (if String.eqb k "nativePackageSigning" then opt_json signing else v) else None).
Proof.
  unfold compactRuntimeConfig. rewrite bind_Returns. intros (limit & Hl & Hc) Hnd. apply bind_Returns in Hc as (signing & Hs & [= <-]).
  exists signing, limit. split; [done|]. split; [done|]. clear Hs Hl. induction config as [|[k' v] config IH]; [done|]. simpl in Hnd. apply NoDup_cons in Hnd as [Hni Hnd].
  specialize (IH Hnd). simpl. destruct (String.eqb k k') eqn:E; simpl.
  - apply String.eqb_eq in E as <-. apply own_get_None in Hni. rewrite Hni in IH. simpl in IH.
    destruct (keeps_entry signing k v); simpl; [by rewrite String.eqb_refl|done].
  - destruct (keeps_entry signing k' v); simpl; by rewrite ?E.
Qed.

Lemma keys_set o k v : obj_keys (obj_set o k v) = if has_own o k then obj_keys o else obj_keys o ++ [k].
Proof.
  unfold has_own. induction o as [|[k' v'] o IH]; simpl; [done|]. destruct (String.eqb k k') eqn:E; simpl.
  - by apply String.eqb_eq in E as ->.
  - change (k' :: obj_keys (obj_set o k v) = if isSome (own_get o k) then k' :: obj_keys o else k' :: obj_keys o ++ [k]). rewrite IH. by destruct (own_get o k).
Qed.

Lemma keys_set_NoDup o k v : NoDup (obj_keys o) → NoDup (obj_keys (obj_set o k v)).
Proof.
  intros Hnd. rewrite keys_set. unfold has_own. destruct (own_get o k) eqn:E; [done|]. apply own_get_None in E. apply NoDup_app.
  split; [done|]. split; [by intros x Hx ->%list_elem_of_singleton|apply NoDup_singleton].
Qed.

Lemma keys_spread_NoDup a b : NoDup (obj_keys a) → NoDup (obj_keys (obj_spread a b)).
Proof. unfold obj_spread. generalize b.*1. intros ks. revert a. induction ks as [|k ks IH]; intros a Ha; simpl; [done|]. by apply IH, keys_set_NoDup. Qed.

(** The value that the last of several layers gives a key. *)
Definition last_layer (layers : list jsobj) (k : string) : option jsv := last (omap (λ o, own_get o k) layers).

(** What the boot reads is the last layer that has the setting (the
    defaults of the window, the build's environment, the window), kept when it
    is not blank or malformed: a blank text of a later layer hides an earlier
    one, every kept text is not empty, a kept limit is a positive safe integer
    and a kept signing configuration was validated. *)
Theorem runtime_config_read env window defaults c : readRuntimeConfig env window defaults = Returns c →
  NoDup (obj_keys (default [] defaults)) →
  ∃ vite, runtimeConfigFromEnvRecord env = Returns vite ∧
    let layer := last_layer [default [] defaults; vite; default [] window] in
    (∀ k v, own_get c k = Some v → clean_setting k v ∧ (k ≠ "nativePackageSigning" → layer k = Some v)) ∧
    (∀ k v, k ∉ ["nativePackageSigning"; "surfaceBundle"] → layer k = Some v → v ≠ JUndef →
      (∀ s, v = JStr s → s ≠ "") → (k ∉ ["scopeKey"; "attachmentMaxUploadBytes"] → is_string v = true) → own_get c k = Some v).
Proof.
  intros Hr Hnd. unfold readRuntimeConfig in Hr. apply bind_Returns in Hr as (vite & Hv & Hr). apply bind_Returns in Hr as (signing & _ & Hr).
  exists vite. split; [done|]. cbn zeta. set (joined := obj_spread _ (opt_member _ _)) in Hr.
  assert (NoDup (obj_keys joined)) as Hj by (by apply keys_spread_NoDup, keys_spread_NoDup, keys_spread_NoDup).
  assert (∀ k, k ≠ "nativePackageSigning" → own_get joined k = last_layer [default [] defaults; vite; default [] window] k) as Hlayer.
  { intros k Hk. subst joined. rewrite !own_get_spread. unfold last_layer. apply String.eqb_neq in Hk.
    destruct signing; simpl; rewrite ?Hk; by destruct (own_get (default [] defaults) k), (own_get vite k), (own_get (default [] window) k). }
  clearbody joined. split.
  - intros k v Hc. destruct (compact_get _ _ k Hr Hj) as (s & l & Hs & Hl & Hk). rewrite Hk in Hc. apply bind_Some in Hc as (v0 & Hv0 & Hc).
    destruct (keeps_entry s k v0) eqn:Hkeep; [|done]. injection Hc as <-. unfold clean_setting, keeps_entry in *. split.
    + destruct (String.eqb k "nativePackageSigning") eqn:E1.
      { destruct s as [s|]; [|done]. apply own_signing_Returns in Hs as (? & _ & _ & ?). done. }
      destruct (String.eqb k "attachmentMaxUploadBytes") eqn:E2.
      { apply String.eqb_eq in E2 as ->. change (negb (is_undefined v0) = true) in Hkeep. unfold obj_get in Hl. rewrite Hv0 in Hl. apply limit_Returns in Hl. destruct l as [z|]; [by exists z|]. simpl in Hl. by rewrite Hl in Hkeep. }
      destruct (String.eqb k "scopeKey") eqn:E3.
      { apply String.eqb_eq in E3 as ->. change (negb (is_undefined v0) = true) in Hkeep. by intros ->. }
      apply String.eqb_neq in E2, E3. destruct (str_in k _) eqn:E4; [apply str_in_spec in E4; set_solver|]. destruct (String.eqb k "surfaceBundle"); [destruct v0; naive_solver|].
      destruct v0 as [| | | |t| |]; try done. exists t. split; [done|]. by intros ->.
    + intros Hne. rewrite <- Hlayer by done. rewrite Hv0. by apply String.eqb_neq in Hne as ->.
  - intros k v [Hn Hk]%not_elem_of_cons Hl Hv0 Ht Hs. apply not_elem_of_cons in Hk as [Hb _]. destruct (compact_get _ _ k Hr Hj) as (s & l & _ & _ & ->).
    rewrite Hlayer, Hl by done. simpl. unfold keeps_entry. rewrite (proj2 (String.eqb_neq _ _) Hn), (proj2 (String.eqb_neq _ _) Hb).
    destruct (str_in k _) eqn:E; [by destruct v|]. assert (k ∉ ["scopeKey"; "attachmentMaxUploadBytes"]) as Hk.
    { intros Hin. assert (str_in k ["attachmentMaxUploadBytes"; "scopeKey"] = true) by (apply str_in_spec; set_solver). congruence. }
    specialize (Hs Hk). destruct v as [| | | |t| |]; try done. simpl. specialize (Ht t eq_refl). by destruct t.
Qed.

Lemma env_fold env l start k names : NoDup l.*1 → (k, names) ∈ l → own_get start k = None →
  own_get (foldl (λ config e, match firstPresent env e.2 with Some value => obj_set config e.1 (JStr value) | None => config end) start l) k =
    JStr <$> firstPresent env names.
Proof.
  assert (∀ l start, k ∉ l.*1 →
    own_get (foldl (λ config e, match firstPresent env e.2 with Some value => obj_set config e.1 (JStr value) | None => config end) start l) k = own_get start k) as Hother.
  { intros l'. induction l' as [|[k' ns] l' IH]; intros st; [done|]. intros [Hk Hl]%not_elem_of_cons. cbn [foldl fst snd]. rewrite IH by done.
    destruct (firstPresent env ns); [|done]. by rewrite own_get_set_ne. }
  revert start. induction l as [|[k' ns] l IH]; intros st; [by intros _ ?%elem_of_nil|]. intros [Hni Hnd]%NoDup_cons Hin Hst. cbn [foldl fst snd].
  apply elem_of_cons in Hin as [[= -> ->]|Hin].
  - rewrite Hother by done. destruct (firstPresent env ns); [by rewrite own_get_set_eq|done].
  - apply IH; [done..|]. destruct (firstPresent env ns); [|done]. rewrite own_get_set_ne; [done|]. intros ->. apply Hni.
    apply list_elem_of_fmap. by exists (k, names).
Qed.

Lemma env_keys : Forall (λ e : string * list string, e.1 ≠ "scopeKey" ∧ e.1 ≠ "attachmentMaxUploadBytes") runtimeEnvMap.
Proof. apply (bool_decide_unpack _). vm_compute. exact I. Qed.

(** The environment gives each setting under its own name, the unprefixed
    variable before the build's, and nothing blank. *)
Lemma runtime_env_exact env c k names : runtimeConfigFromEnvRecord env = Returns c → (k, names) ∈ runtimeEnvMap →
  own_get c k = JStr <$> firstPresent env names.
Proof.
  unfold runtimeConfigFromEnvRecord. cbn zeta. rewrite bind_Returns. intros (start & Hs & Hc) Hin.
  assert (k ≠ "scopeKey" ∧ k ≠ "attachmentMaxUploadBytes") as [Hk1 Hk2] by (pose proof (proj1 (Forall_forall _ _) env_keys _ Hin) as Hk; exact Hk).
  assert (own_get start k = None) as Hst.
  { destruct (is_undefined _); [by injection Hs as <-|]. apply bind_Returns in Hs as (key & _ & [= <-]). simpl. by apply String.eqb_neq in Hk1 as ->. }
  assert (NoDup runtimeEnvMap.*1) as Hnd by (apply (bool_decide_unpack _); vm_compute; exact I).
  pose proof (env_fold env runtimeEnvMap start k names Hnd Hin Hst) as Hf. revert Hf Hc. generalize (foldl (λ config e, match firstPresent env e.2 with
    Some value => obj_set config e.1 (JStr value) | None => config end) start runtimeEnvMap). intros config Hf.
  destruct (firstPresent env (env_names "ATTACHMENT_MAX_UPLOAD_BYTES")); [|by intros [= <-]]. rewrite bind_Returns. intros (_ & _ & [= <-]). by rewrite own_get_set_ne.
Qed.

(** ** The active configuration *)

Definition same_mode (p q : IdentityPolicyConfig) : bool :=
  match p, q with OidcRequiredPolicy _, OidcRequiredPolicy _ | AnonymousAllowedPolicy _ _, AnonymousAllowedPolicy _ _ => true | _, _ => false end.

Definition server_of (c : FormspecWebConfig) : string := default "" (s ← formspecStack c; formspecServerUrl s).

(** What a stack holds was checked. *)
Definition checked_stack (s : StackConfig) : Prop :=
  (∀ v, nativePackageSigning s = Some v → signing_config v) ∧
  (∀ v, maxUploadBytes s = Some v → v = JUndef ∨ ∃ z, v = JNum (NInt z) ∧ upload_limit z).

(** The configuration that the selected profile and the runtime give. *)
Record active_config (base : FormspecWebConfig) (runtime : jsobj) (c : FormspecWebConfig) : Prop := {
  active_profile : profileName c = profileName (profileConfig base runtime) ∧ brand c = brand (profileConfig base runtime) ∧
    same_mode (identity c) (identity (profileConfig base runtime)) = true;
  active_adapters : identityProvider (ports c) = identityProvider (ports (profileConfig base runtime)) ∧
    notificationDelivery (ports c) = notificationDelivery (ports (profileConfig base runtime));
  active_server : server_of c = default "" (or_else (setting runtime "formspecServerUrl")
    (s ← formspecStack (profileConfig base runtime); formspecServerUrl s));
  active_ports : if nonempty (server_of c) then definitionSource (ports c) = ReferenceHttp ∧ draftStore (ports c) = ReferenceHttp ∧
      submitTransport (ports c) = ReferenceHttp ∧ isSome (scopeKey c) = true
    else ports c = ports (profileConfig base runtime);
  active_reference : profileConfig base runtime ∈ [departmentAppProfile; publicPortalProfile] →
    Forall (λ port, port (ports c) = ReferenceHttp ↔ nonempty (server_of c) = true) [definitionSource; draftStore; submitTransport];
  active_scope : if is_undefined (obj_get runtime "scopeKey") then scopeKey c = scopeKey (profileConfig base runtime)
    else ∃ k, scopeKey c = Some k ∧ obj_get runtime "scopeKey" = JStr k ∧ is_scope_key_text k = true;
  active_stack : ∀ s, formspecStack c = Some s → checked_stack s
}.

Lemma resolve_overrides base runtime c : resolveActiveConfig base runtime = Returns c →
  str_in (default "" (setting runtime "profileName")) object_prototype = false ∧ applyRuntimeOverrides (profileConfig base runtime) runtime = Returns c.
Proof. unfold resolveActiveConfig. destruct (str_in _ _); [|done]. rewrite bind_Returns. intros (? & _ & (? & _ & [=])%bind_Returns). Qed.

(** A profile name that every object inherits fails the boot instead of leaving
    the base configuration in place, as any other unknown name does. *)
Lemma inherited_profile_fails base runtime c : str_in (default "" (setting runtime "profileName")) object_prototype = true →
  resolveActiveConfig base runtime ≠ Returns c.
Proof. intros Hin [Hout _]%resolve_overrides. congruence. Qed.

(** What the signed respondent surface is given when it is activated. *)
Record surface_ready (c : FormspecWebConfig) : Prop := {
  surface_anonymous : profileName c = "publicPortal" ∧ same_mode (identity c) (AnonymousAllowedPolicy None None) = true ∧
    identityProvider (ports c) = "anonymous";
  surface_cohort : definitionSource (ports c) = ReferenceHttp ∧ draftStore (ports c) = ReferenceHttp ∧ submitTransport (ports c) = ReferenceHttp;
  surface_scope : isSome (scopeKey c) = true;
  surface_bundle : ∃ s b, formspecStack c = Some s ∧ surfaceBundle s = Some b ∧ isRespondentSurfaceBundleConfig b = true
}.

Lemma surface_ready_of base runtime c : active_config base runtime c → respondentSurfaceDeploymentIsConfigured c = true → surface_ready c.
Proof.
  intros Ha Hc. unfold respondentSurfaceDeploymentIsConfigured in Hc. rewrite !andb_true_iff in Hc. destruct Hc as ((((Hn & Hi) & Hp) & Hb) & Hs).
  pose proof (active_ports _ _ _ Ha) as Hports. unfold server_of in Hports. rewrite Hs in Hports. destruct Hports as (? & ? & ? & ?).
  apply String.eqb_eq in Hn, Hp. constructor; [|done|done|].
  - split_and!; [done| |done]. by destruct (identity c).
  - unfold respondentSurfaceBundleConfig in Hb. destruct (formspecStack c) as [s|]; [|done]. cbn in Hb. destruct (surfaceBundle s) as [b|] eqn:E; [|done].
    cbn in Hb. exists s, b. by destruct (isRespondentSurfaceBundleConfig b).
Qed.

Lemma resolve_active base runtime c : resolveActiveConfig base runtime = Returns c → active_config base runtime c.
Proof.
  intros Hr.
  apply resolve_overrides in Hr as [_ Hr]. set (p := profileConfig base runtime) in *. unfold applyRuntimeOverrides in Hr. cbn zeta in Hr.
  apply bind_Returns in Hr as (fromRuntime & Hs1 & Hr). apply bind_Returns in Hr as (signing & Hs2 & Hr).
  apply bind_Returns in Hr as (runtimeLimit & Hl1 & Hr). apply bind_Returns in Hr as (limit & Hl2 & Hr).
  apply bind_Returns in Hr as (oidc & _ & Hr). set (active := if _ || _ then _ else _) in Hr.
  apply bind_Returns in Hr as (key & Hkey & Hr). apply seq_Returns in Hr as (Hthrow & [= <-]). apply throw_when_Returns in Hthrow.
  assert (s_of : (s ← active; formspecServerUrl s) = or_else (setting runtime "formspecServerUrl") (s ← formspecStack p; formspecServerUrl s)
    ∨ (s ← active; formspecServerUrl s) = None ∧ setting runtime "formspecServerUrl" = Some "" ∧ formspecStack p = None).
  { subst active. destruct (formspecStack p) as [stack|]; [by left|]. cbn [isSome orb]. unfold stack_overridden, truthy_setting. cbn [existsb].
    destruct (setting runtime "formspecServerUrl") as [[|a u]|]; cbn; try (match goal with |- context [if ?b then Some _ else None] => destruct b end); (by left) || (by right). }
  assert (nonempty (default "" (s ← active; formspecServerUrl s)) = true → isSome key = true) as Hserver.
  { intros Hs. rewrite Hs in Hthrow. by destruct key. }
  assert (∀ s, active = Some s → checked_stack s) as Hchecked.
  { intros s Hs. subst active. destruct (isSome _ || _); [|done]. injection Hs as <-. split; cbn.
    - intros v Hv. apply own_signing_Returns in Hs1. destruct fromRuntime as [c|].
      + injection Hs2 as <-. injection Hv as <-. by destruct Hs1 as (? & _ & _ & ?).
      + destruct (formspecStack p) as [stack|]; cbn in Hs2, Hv; [|by injection Hs2 as <-].
        destruct (nativePackageSigning stack) as [v0|]; [|by injection Hs2 as <-]. destruct (nativePackageSigningConfig v0) as [c|] eqn:E; [|done].
        injection Hs2 as <-. injection Hv as <-. by apply signing_config_exact in E as [_ ?].
    - intros v Hv. destruct limit as [z|].
      + injection Hv as <-. right. exists z. split; [done|]. apply limit_Returns in Hl1. destruct runtimeLimit as [z'|].
        * injection Hl2 as <-. by destruct Hl1.
        * apply limit_Returns in Hl2. by destruct Hl2.
      + left. destruct runtimeLimit as [z'|]; [done|]. apply limit_Returns in Hl2. unfold opt_json in Hl2.
        destruct (maxUploadBytes _); [|done]. by injection Hv as <-. }
  constructor; fold p; clearbody p; unfold server_of; cbn [profileName brand identity ports scopeKey formspecStack]; split_and?; try done.
  - by destruct (identity p).
  - unfold portsForRuntime. by destruct (nonempty _).
  - unfold portsForRuntime. by destruct (nonempty _).
  - destruct s_of as [->|(-> & -> & ->)]; done.
  - unfold portsForRuntime. destruct (nonempty _); cbn; [|done]. split_and!; try done. by apply Hserver.
  - intros Hp. unfold portsForRuntime. destruct (nonempty _); cbn; [by repeat constructor|].
    apply elem_of_cons in Hp as [Hp|Hp%list_elem_of_singleton]; rewrite Hp; by repeat constructor.
  - destruct (is_undefined _); [by injection Hkey as <-|]. destruct (parseScopeKey _) as [k|] eqn:E; [|done]. injection Hkey as <-.
    exists k. by apply parseScopeKey_Returns in E as [? ?].
Qed.

(** C28. A resolved configuration is that of the selected profile with the
    runtime's settings over it.  The profile's name, brand, identity mode and
    identity provider are never changed; with a server the three data ports are
    the HTTP ones, without one they are the profile's own, so that over a
    reference profile they are HTTP exactly with a server; a server needs a
    scope key, and one given at runtime is well formed; what the stack holds of
    signing and of limits was validated, wherever it came from.  The signed
    respondent surface is activated only over the HTTP cohort, with a scope key, for anonymous
    respondents, and with a complete bundle configuration. *)
Theorem active_config_resolved base runtime c : resolveActiveConfig base runtime = Returns c →
  active_config base runtime c ∧ (respondentSurfaceDeploymentIsConfigured c = true → surface_ready c).
Proof. intros Ha%resolve_active. split; [done|by eapply surface_ready_of]. Qed.
End theorems.

(** * A deployment *)

Module SampleDeployment.
#[local] Instance packages : ConfigPackages := {|
  snapshotFiniteJson := λ v, if is_undefined v then Throws "not JSON" else Returns v;
  known_locale := λ s, str_in s ["en"; "es"]; uri_format := λ s, String.prefix "https://" s; inputNames := ["response"; "status"] |}.
#[local] Instance absolute : UrlLibrary := {|
  new_URL := λ s, if String.prefix "https://" s
    then Some {| url_href := s; url_origin_of := "https://f.example"; url_protocol := "https:"; url_hostname := "f.example"; url_pathname := "/";
                 url_search := ""; url_hash := ""; url_username := ""; url_password := "" |}
    else None;
  new_URL_at := λ _ _, None; search_entries := λ _, []; search_text := λ _, "" |}.
#[local] Instance json : JsonText := coded_json.
#[local] Instance numbers : NumberOf := λ s, NOther s.

Definition text (k v : string) : string * jsv := (k, JStr v).
Definition action (name : string) : string * jsv :=
  (name, JObj [text "artifactRef" "https://f.example/actions"; text "actionRef" name]).
Definition binding (name : string) : string * jsv :=
  (name, JObj [text "catalogRef" "https://f.example/sources"; text "sourceRef" name]).

Definition signing : jsv := JObj [
  text "keyId" "key-1"; text "expectedIssuer" "https://f.example/issuer";
  ("definition", JObj [text "url" "https://f.example/form"; text "version" "1.0.0"]);
  ("bundle", JObj [text "id" "https://f.example/bundle"; text "version" "1.0.0"]);
  ("module", JObj [text "id" "signing"; text "version" "1.0.0"]);
  ("modules", JArr [JObj [text "id" "review"; text "version" "1.0.0"]; JObj [text "id" "signing"; text "version" "1.0.0"]]);
  ("staticAssets", JArr [JObj [text "kind" "image"; text "source" "https://f.example/seal.png"]]);
  text "initialLocale" "en"; ("roles", JObj (action <$> signing_roles)); ("bindings", JObj (binding <$> ["response"; "status"]));
  ("readiness", JObj [text "instance" "host"; text "readyPath" "ready"; text "ownedPath" "owned"])].

Definition bundle : jsv := JObj [
  text "locator" "/bundle"; ("allowedOrigins", JArr [JStr "https://f.example"]); ("maxBytes", JNum (NInt 1000)); ("timeoutMs", JNum (NInt 5000));
  text "redirectPolicy" "refuse"; text "starterModuleId" "start"; text "receiptResourceUrl" "https://f.example/receipt";
  ("verification", JObj [text "expectedAppId" "https://f.example/app";
    ("methodRegistry", JObj [("entries", JArr [JNull]); text "version" "1"]);
    ("keys", JArr [JObj [text "kid" "k"; text "publicKey" "abcdefghijklmnopqrstuvwxyzABCDEFGHIJKLMNOPQ"]]);
    ("authorities", JArr [JNull]); ("pinnedReleases", JArr [JNull])])].

Definition key : string := "0123456789abcdef0123456789abcdef0123456789abcdef0123456789abcdef".
Definition runtime : jsobj := [
  text "profileName" "publicPortal"; text "formspecServerUrl" "https://f.example"; text "scopeKey" key;
  ("attachmentMaxUploadBytes", JNum (NInt 1000000)); ("nativePackageSigning", signing); ("surfaceBundle", bundle)].

Lemma active_config_resolved_witness : ∃ c,
  resolveActiveConfig departmentAppProfile runtime = Returns c ∧ profileName c = "publicPortal" ∧ scopeKey c = Some key ∧
  active_config departmentAppProfile runtime c ∧ surface_ready c.
Proof.
  destruct (resolveActiveConfig departmentAppProfile runtime) as [c|] eqn:E; [|vm_compute in E; discriminate E]. exists c.
  pose proof (active_config_resolved departmentAppProfile runtime c E) as [Ha Hs].
  split; [done|]. vm_compute in E. injection E as E. split; [by rewrite <- E|]. split; [by rewrite <- E|]. split; [done|].
  apply Hs. by rewrite <- E.
Defined.
End SampleDeployment.
