(* ===== verification/CompositionRoots.v ===== *)
(** * The composition roots

    Which adapters a deployment is wired with: the reference composition of
    src/src/composition/default.ts, the deferred composition of a native package
    (src/src/composition/native-package.ts), and the demo composition of
    src/src/composition/stub.ts.  A composition is the data the runtime decides
    by: the marked slots and declarations that [Coherence] checks, and for the
    other ports which adapter they hold. *)

From S2P Require Import Prelude JsValue Text FeatureKeys Resolver ResolverTheorems ExtractForm Composing Coherence CoherenceTheorems BrowserStorage EntryGates ResponseAction Url ScopeKey Configuration Routes.
From Stdlib Require Import Ascii.

(** ** What is wired *)

Inductive ProviderWiring : Set :=
  | GivenProvider (adapter : slot)
  | LocalPreview
  | HttpAnonymous (formUrl : string)
  | OidcProvider (oidc : OidcClientConfig)
  | NoProvider.

(** [IdentityBinding]: the provider, and whether it comes with credentials for
    the server and with a browser session. *)
Record Binding : Set := { provider : ProviderWiring; accessToken : bool; browserAuthSession : bool }.

Inductive BearerWiring : Set :=
  | NoBearer
  | BindingBearer
  | RequiredBearer
  | AnonymousBearer (formUrl : string).

Inductive DefinitionWiring : Set :=
  | HttpDefinitions
  | PackageDefinitions (manifestUrl : string) (allowed : list string)
  | DemoDefinitions
  | NoDefinitions.

Inductive DraftWiring : Set := HttpDrafts | PublishedDrafts (manifestUrl : string) | DemoDrafts | NoDrafts.

Record AttachmentWiring : Set := { uploads_limit : option Z; uploads_formId : string; uploads_bearer : BearerWiring }.

Record Wired : Type := {
  like : CompositionLike;
  wired_initialDefinitionUrl : string;
  localPackagePreview : bool;
  definitions : DefinitionWiring;
  drafts : DraftWiring;
  wired_provider : ProviderWiring;
  wired_session : bool;
  bearer : BearerWiring;
  uploads : option AttachmentWiring;
  responseActionInvoker : option string;
  surfaceRouter : bool;
  orgRuntimePolicy : OrgRuntimePolicy;
  formRuntimePolicyExtractor : FormRuntimePolicyExtractor
}.

(** No marker is put on an identity adapter of the runtime. *)
Definition provider_slot (p : ProviderWiring) : slot := match p with GivenProvider s => s | _ => plain_adapter end.

(** ** The options *)

(** The members of the correction of a task that are checked. *)
Record NativeTask : Set := { wos_scopeKey : jsv; attachmentFieldPaths : list (string * string) }.

Record DefaultCompositionOptions : Type := {
  initialDefinitionUrl : option string;
  packageUrl : option string;
  surfaceRoute : bool;
  identityBinding : option Binding;
  screenerCompletion : bool;
  nativeScreener : bool;
  nativeTask : option NativeTask;
  ownedDraftResume : option jsv
}.

(** A text that is there and not empty. *)
Definition given (s : option string) : option string := t ← s; if nonempty t then Some t else None.

(** ** Form ids *)

(** The pattern for runtime forms selects the last segment as well. *)
Definition pathFor `{UrlLibrary} (formUrl : string) : string :=
  match new_URL_at formUrl "https://formspec.local" with Some url => url_pathname url | None => formUrl end.
Definition last_segment (path : string) : option string := last (List.filter nonempty (split_on "/" path)).
Definition defaultFormIdResolver `{UrlLibrary} (formUrl : string) : outcome string string :=
  match last_segment (pathFor formUrl) with
  | Some segment => match decodeURIComponent segment with Some id => Returns id | None => Throws "URIError" end
  | None => Returns (encodeURIComponent formUrl)
  end.

(** ** Paths of attachments *)

(** [field.replace(/\[(\d+)\]/g, '.$1')], with the index being read. *)
Fixpoint dotted (pending : option string) (s : string) : string :=
  match s with
  | EmptyString => match pending with Some d => "[" +:+ d | None => "" end
  | String a s' =>
      match pending with
      | Some d =>
          if is_digit a then dotted (Some (d +:+ String a "")) s'
          else if Ascii.eqb a "]" && nonempty d then "." +:+ d +:+ dotted None s'
          else "[" +:+ d +:+ (if Ascii.eqb a "[" then dotted (Some "") s' else String a (dotted None s'))
      | None => if Ascii.eqb a "[" then dotted (Some "") s' else String a (dotted None s')
      end
  end.

(** [part.replace(/~/g, '~0').replace(/\//g, '~1')] *)
Fixpoint pointer_part (s : string) : string :=
  match s with
  | EmptyString => EmptyString
  | String a s' => (if Ascii.eqb a "~" then "~0" else if Ascii.eqb a "/" then "~1" else String a "") +:+ pointer_part s'
  end.
Definition field_pointer (field : string) : string := "/" +:+ String.concat "/" (pointer_part <$> split_on "." (dotted None field)).

(** ** The selection of a draft to resume *)

(** The number of code points of a text in UTF-8. *)
Definition code_points (s : string) : nat :=
  length (List.filter (λ a, negb ((128 <=? nat_of_ascii a) && (nat_of_ascii a <? 192))%nat) (String.list_ascii_of_string s)).
(** A member of owned-draft-resume.schema.json: no white space at either end. *)
Definition resume_text (v : jsv) : bool :=
  match v with JStr s => exact_text v && (code_points s <=? 2048)%nat | _ => false end.
Definition ownedDraftResumeSelection `{ConfigPackages} (input : jsv) : outcome string (string * string) :=
  selected ← snapshotFiniteJson input;
  throw_when (negb (closed_object selected ["draftId"; "expectedResponseId"] && resume_text (prop selected "draftId")
                    && resume_text (prop selected "expectedResponseId"))) "Owned draft resume selection is invalid" ;;
  Returns (text_of (prop selected "draftId"), text_of (prop selected "expectedResponseId")).

(** ** Declarations *)

(** [features]: every feature is allowed. *)
Definition allowed_features : jsobj := (λ k, (key_string k, JStr "allowed")) <$> RUNTIME_FEATURE_KEYS.
Definition default_policy : OrgRuntimePolicy :=
  {| org_features := allowed_features; org_recordLifecycle := JUndef;
     org_limits := JObj [("embed", JObj [("allowedOrigins", JArr [])])] |}.

(** Making the driver of a sign-in session can fail: the SDK rejects its
    settings, or the driver has an owner. *)
Class BrowserSessions := open_session : OidcClientConfig → outcome string unit.

Section roots.
Context `{Packages : !ConfigPackages, Urls : !UrlLibrary, Sessions : !BrowserSessions}.

Definition createOidcIdentityBinding (oidc : OidcClientConfig) : outcome string Binding :=
  open_session oidc ;; Returns {| provider := OidcProvider oidc; accessToken := true; browserAuthSession := true |}.

Definition assertReferenceHttpDataPorts (config : FormspecWebConfig) : outcome string unit :=
  let mismatches := omap (λ p : string * PortAdapterKind, match p.2 with StubAdapter => Some p.1 | ReferenceHttp => None end)
    [("definitionSource", definitionSource (ports config)); ("draftStore", draftStore (ports config));
     ("submitTransport", submitTransport (ports config))] in
  match mismatches with
  | [] => Returns ()
  | _ => Throws ("formspecServerUrl requires reference-http data ports: " +:+ String.concat ", " mismatches)
  end.

Definition requiredInitialDefinitionUrl (value : option string) : outcome string string :=
  match value with
  | Some url => if nonempty (trim url) then Returns url else Throws "Form composition requires an explicit initialDefinitionUrl"
  | None => Throws "Form composition requires an explicit initialDefinitionUrl"
  end.

(** The constructor of the HTTP client, where [fetch] exists. *)
Definition newHttpClient (baseUrl : string) (scope : option string) : outcome string unit :=
  throw_when (negb (nonempty (trim baseUrl))) "HttpClient baseUrl is required" ;;
  match scope with Some key => _ ← parseScopeKey (JStr key); Returns () | None => Returns () end.

Definition oidc_required (config : FormspecWebConfig) : bool :=
  match identity config with OidcRequiredPolicy _ => true | AnonymousAllowedPolicy _ _ => false end.

(** [identityProviderFor] with the context of a production composition. *)
Definition identityProviderFor (config : FormspecWebConfig) (formUrl : string) : outcome string Binding :=
  let selected := identityProvider (ports config) in
  throw_when (oidc_required config && negb (String.eqb selected "oidc")) "OIDC-required identity policy requires the OIDC provider" ;;
  if String.eqb selected "anonymous" then
    Returns {| provider := HttpAnonymous formUrl; accessToken := false; browserAuthSession := false |}
  else match identityOidc (identity config) with
       | Some oidc => if String.eqb selected "oidc" then createOidcIdentityBinding oidc
                      else Throws ("Selected identity provider is not configured: " +:+ selected)
       | None => Throws ("Selected identity provider is not configured: " +:+ selected)
       end.

(** [buildRealIdentityProvider], for narrowed routes. *)
Definition buildRealIdentityProvider (config : FormspecWebConfig) (serverUrl : string) (initial : option string) : outcome string Binding :=
  throw_when (String.eqb (identityProvider (ports config)) "anonymous" && negb (isSome (given initial)))
    "Anonymous identity requires an explicit initialDefinitionUrl" ;;
  newHttpClient serverUrl (scopeKey config) ;;
  identityProviderFor config (default "" initial).

Definition lift_incoherent {A} (m : outcome CompositionIncoherenceError A) : outcome string A :=
  match m with Returns a => Returns a | Throws e => Throws (inc_message e) end.

Definition with_ports (c : CompositionLike) (f : CompositionPortName → option slot) : CompositionPortName → slot :=
  λ p, default (comp_port c p) (f p).

(** ** Native packages *)

Record NativePackageCompositionOptions : Type := {
  native_initialDefinitionUrl : string;
  native_packageUrl : string;
  native_signing : jsv;
  native_binding : option Binding;
  native_screener : bool;
  native_completion : bool;
  native_task : option NativeTask;
  native_resume : option jsv
}.

(** The session and the bearer of a sign-in. *)
Definition signed_in (binding : option Binding) : bool :=
  match binding with Some b => accessToken b && browserAuthSession b | None => false end.
Definition has_session (binding : option Binding) : bool := match binding with Some b => browserAuthSession b | None => false end.
Definition has_oidc (config : FormspecWebConfig) : bool := isSome (identityOidc (identity config)).

Definition check_native_task (config : FormspecWebConfig) (options : NativePackageCompositionOptions) (signing : jsv) (task : NativeTask) :
    outcome string unit :=
  throw_when (native_screener options || native_completion options || truthy (prop signing "applicationLifecycle"))
    "Native task correction cannot select initial application capabilities" ;;
  limit ← validatedAttachmentMaxUploadBytes (opt_json (s ← formspecStack config; maxUploadBytes s));
  throw_when (negb (isSome limit)
      || existsb (λ e : string * string, negb (nonempty (trim e.1)) || negb (String.eqb e.2 (field_pointer e.1))) (attachmentFieldPaths task))
    "Native task attachments require actual authored paths and a finite limit" ;;
  throw_when (negb (signed_in (native_binding options) && has_oidc config))
    "Native task correction requires the selected authenticated session".

(** The composition before the package is admitted. *)
Definition deferred_composition (initial : string) (binding : option Binding) (preview : CompositionLike) : CompositionLike :=
  {| comp_mode := comp_mode preview;
     instanceCapabilities := λ k, match k with FileUpload | OfflineSubmit => Unavailable | _ => instanceCapabilities preview k end;
     comp_port := with_ports preview (λ p, match p with
       | attachmentStore => Some unavailableAttachmentStore
       | offlineSubmitQueue => Some unavailableOfflineSubmitQueue
       | Coherence.identityProvider => Some (match binding with Some b => provider_slot (provider b) | None => plain_adapter end)
       | Coherence.draftStore | Coherence.submitTransport => Some plain_adapter
       | _ => None
       end) |}.

Definition createNativePackageComposition (config : FormspecWebConfig) (options : NativePackageCompositionOptions) : outcome string Wired :=
  let task := native_task options in
  scope ← (match task with
           | Some _ => Some <$> parseScopeKey (opt_str (scopeKey config))
           | None => Returns (scopeKey config)
           end);
  (match task with Some t => _ ← parseScopeKey (wos_scopeKey t); Returns () | None => Returns () end) ;;
  throw_when (negb (nonempty (trim (native_initialDefinitionUrl options)))) "Native package composition requires an explicit initialDefinitionUrl" ;;
  signing ← nativePackageSigningConfig (native_signing options);
  (match task with Some t => check_native_task config options signing t | None => Returns () end) ;;
  throw_when (native_screener options && native_completion options) "Native Screener completion policies are ambiguous" ;;
  throw_when (native_screener options && negb (has_session (native_binding options) && has_oidc config))
    "Native Screener requires the selected authenticated session" ;;
  (match native_resume options with
   | Some selection =>
       throw_when (isSome task || negb (oidc_required config) || negb (signed_in (native_binding options)))
         "Owned draft resume requires the ordinary authenticated native entry" ;;
       _ ← ownedDraftResumeSelection selection; Returns ()
   | None => Returns ()
   end) ;;
  throw_when (negb (isSome (given (s ← formspecStack config; formspecServerUrl s)))) "Native package signing requires the configured package service" ;;
  throw_when ((oidc_required config || String.eqb (identityProvider (ports config)) "oidc") && negb (signed_in (native_binding options)))
    "Native package signing requires the selected OIDC session and bearer provider" ;;
  preview ← lift_incoherent createUnavailableComposition;
  deferred ← lift_incoherent (freezeComposition (deferred_composition (native_initialDefinitionUrl options) (native_binding options) preview));
  Returns {|
    like := deferred; wired_initialDefinitionUrl := native_initialDefinitionUrl options; localPackagePreview := true;
    definitions := NoDefinitions; drafts := NoDrafts;
    wired_provider := default NoProvider (provider <$> native_binding options); wired_session := has_session (native_binding options);
    bearer := NoBearer; uploads := None; responseActionInvoker := None; surfaceRouter := false; orgRuntimePolicy := default_policy;
    formRuntimePolicyExtractor := EmptyFormRuntimePolicyExtractor |}.

(** ** The reference composition *)

(** The bearer of the HTTP adapters. *)
Definition bearer_of (authenticatedPackage : bool) (binding : Binding) : BearerWiring :=
  if authenticatedPackage then RequiredBearer else if accessToken binding then BindingBearer else NoBearer.

(** A local preview of an authored package, over the server's drafts and
    submission. *)
Definition preview_composition (preview : CompositionLike) (binding : Binding) : CompositionLike :=
  {| comp_mode := comp_mode preview;
     instanceCapabilities := λ k, match k with OfflineSubmit => Unavailable | FileUpload => Available | _ => instanceCapabilities preview k end;
     comp_port := with_ports preview (λ p, match p with
       | offlineSubmitQueue => Some unavailableOfflineSubmitQueue
       | attachmentStore | Coherence.draftStore | Coherence.submitTransport => Some plain_adapter
       | Coherence.identityProvider => Some (provider_slot (provider binding))
       | _ => None
       end) |}.

Definition package_preview (config : FormspecWebConfig) (initial manifest : string) (binding : Binding) (credentials : BearerWiring) :
    outcome string Wired :=
  preview ← lift_incoherent createUnavailableComposition;
  formId ← defaultFormIdResolver initial;
  limit ← validatedAttachmentMaxUploadBytes (opt_json (s ← formspecStack config; maxUploadBytes s));
  composition ← lift_incoherent (freezeComposition (preview_composition preview binding));
  Returns {|
    like := composition; wired_initialDefinitionUrl := initial; localPackagePreview := true;
    definitions := PackageDefinitions manifest [initial]; drafts := PublishedDrafts manifest;
    wired_provider := provider binding; wired_session := browserAuthSession binding; bearer := credentials;
    uploads := Some {| uploads_limit := limit; uploads_formId := formId;
                       uploads_bearer := match credentials with NoBearer => AnonymousBearer initial | b => b end |};
    responseActionInvoker := None; surfaceRouter := false; orgRuntimePolicy := default_policy;
    formRuntimePolicyExtractor := EmptyFormRuntimePolicyExtractor |}.

(** Every declared feature is unavailable, with the sentinels to match. *)
Definition reference_composition (binding : Binding) : CompositionLike :=
  {| comp_mode := Production;
     instanceCapabilities := λ _, Unavailable;
     comp_port := λ p, match p with
       | respondentPlaceSource => unavailableRespondentPlaceSource
       | statusReader => unavailableStatusReader
       | attachmentStore => unavailableAttachmentStore
       | respondentHistorySource => unavailableRespondentHistorySource
       | offlineSubmitQueue => unavailableOfflineSubmitQueue
       | paymentRailAdapter => unavailablePaymentRailAdapter
       | embedTransport => unavailableEmbedTransport
       | screenerDocumentSource => unavailableScreenerDocumentSource
       | safeAddressDirectory => unavailableSafeAddressDirectory
       | lifecycleActionClient => unavailableLifecycleActionClient
       | Coherence.identityProvider => provider_slot (provider binding)
       | Coherence.draftStore | Coherence.submitTransport => plain_adapter
       end |}.

Definition form_composition (config : FormspecWebConfig) (options : DefaultCompositionOptions) (initial : string) (binding : Binding)
    (credentials : BearerWiring) : outcome string Wired :=
  let capability := given (s ← formspecStack config; responseActionLedgerCapabilityUrl s) in
  (match capability with
   | Some endpoint => throw_when (negb (nonempty (trim endpoint))) "Response Actions Ledger capability endpoint is required."
   | None => Returns ()
   end) ;;
  composition ← lift_incoherent (freezeComposition (reference_composition binding));
  Returns {|
    like := composition; wired_initialDefinitionUrl := initial; localPackagePreview := false;
    definitions := HttpDefinitions; drafts := HttpDrafts;
    wired_provider := provider binding; wired_session := browserAuthSession binding; bearer := credentials; uploads := None;
    responseActionInvoker := capability; surfaceRouter := surfaceRoute options; orgRuntimePolicy := default_policy;
    formRuntimePolicyExtractor := CompositeFormRuntimePolicyExtractor referenceExtractors |}.

(** The identity of an authored preview, whatever the profile manages. *)
Definition preview_binding : Binding := {| provider := LocalPreview; accessToken := false; browserAuthSession := false |}.

Definition selected_binding (config : FormspecWebConfig) (options : DefaultCompositionOptions) (initial : string) (authenticatedPackage : bool) :
    outcome string Binding :=
  if isSome (given (packageUrl options)) && negb authenticatedPackage then Returns preview_binding
  else match identityBinding options with Some b => Returns b | None => identityProviderFor config initial end.

Definition http_composition (config : FormspecWebConfig) (options : DefaultCompositionOptions) (server : string) : outcome string Wired :=
  assertReferenceHttpDataPorts config ;;
  throw_when (oidc_required config && negb (String.eqb (identityProvider (ports config)) "oidc"))
    "OIDC-required identity policy requires the OIDC provider" ;;
  initial ← requiredInitialDefinitionUrl (initialDefinitionUrl options);
  throw_when (isSome (given (packageUrl options)) && negb (isSome (new_URL server))) "Invalid URL" ;;
  newHttpClient server (scopeKey config) ;;
  let authenticatedPackage := isSome (given (packageUrl options)) && String.eqb (identityProvider (ports config)) "oidc" in
  binding ← selected_binding config options initial authenticatedPackage;
  throw_when (authenticatedPackage && (negb (accessToken binding) || negb (browserAuthSession binding)))
    "Authenticated package requires the selected OIDC session and bearer provider" ;;
  let credentials := bearer_of authenticatedPackage binding in
  match given (packageUrl options) with
  | Some manifest => package_preview config initial manifest binding credentials
  | None => form_composition config options initial binding credentials
  end.

Definition native_composition (config : FormspecWebConfig) (options : DefaultCompositionOptions) (signing : jsv) (server : option string) :
    outcome string Wired :=
  throw_when (respondentSurfaceDeploymentIsConfigured config) "Native package and signed Surface deployments cannot both be active" ;;
  match server, given (packageUrl options) with
  | Some _, Some manifest =>
      assertReferenceHttpDataPorts config ;;
      binding ← (if String.eqb (identityProvider (ports config)) "oidc" then
                   match identityBinding options, identityOidc (identity config) with
                   | Some b, _ => Returns (Some b)
                   | None, Some oidc => Some <$> createOidcIdentityBinding oidc
                   | None, None => Returns None
                   end
                 else Returns None);
      initial ← requiredInitialDefinitionUrl (initialDefinitionUrl options);
      createNativePackageComposition config {|
        native_initialDefinitionUrl := initial; native_packageUrl := manifest; native_signing := signing; native_binding := binding;
        native_screener := nativeScreener options; native_completion := screenerCompletion options; native_task := nativeTask options;
        native_resume := ownedDraftResume options |}
  | _, _ => Throws "Native package signing requires an explicit package URL and server"
  end.

Definition createDefaultComposition (config : FormspecWebConfig) (options : DefaultCompositionOptions) : outcome string Wired :=
  let server := given (s ← formspecStack config; formspecServerUrl s) in
  signing ← (match s ← formspecStack config; nativePackageSigning s with
             | Some v => Some <$> nativePackageSigningConfig v
             | None => Returns None
             end);
  throw_when (isSome (ownedDraftResume options) && negb (isSome signing)) "Owned draft resume requires native package admission" ;;
  throw_when (isSome (nativeTask options) && negb (isSome signing)) "Native task correction requires explicit native signing configuration" ;;
  match signing with
  | Some s => native_composition config options s server
  | None => match server with
      | Some url => http_composition config options url
      | None => Throws "Reference composition requires an explicit formspecServerUrl"
      end
  end.

(** ** The demo composition *)

Definition demo_stub (k : RuntimeFeatureKey) (reason : string) : slot := Adapter None (Some {| meta_featureKey := k; meta_reason := reason |}).

Definition demo_ports (p : CompositionPortName) : slot :=
  match p with
  | respondentPlaceSource => demo_stub RespondentPlace "demo-only respondent-place fixture; not valid for production"
  | statusReader => demo_stub Status "demo-only status fixture; not valid for production"
  | attachmentStore => demo_stub FileUpload "demo-only localStorage attachment store; not valid for production"
  | respondentHistorySource => demo_stub CrossIssuerHistory "demo-only respondent-history fixture; not valid for production"
  | offlineSubmitQueue => demo_stub OfflineSubmit "in-memory queue; pending entries lost on page reload"
  | paymentRailAdapter => demo_stub Payment "in-memory payment rail; demo only — authorizations lost on page reload"
  | embedTransport => demo_stub Embed "in-memory embed transport; demo only — no real host page wired"
  | screenerDocumentSource => demo_stub Screener "demo-only screener fixture; not valid for production"
  | safeAddressDirectory => demo_stub SafeAddress "in-memory safe-address directory; demo only"
  | lifecycleActionClient => demo_stub RecordLifecycle "in-memory lifecycle action client; demo only - events reset on reload"
  | Coherence.identityProvider | Coherence.draftStore | Coherence.submitTransport => plain_adapter
  end.

Definition demo_capabilities (k : RuntimeFeatureKey) : CapabilityAvailability :=
  match k with
  | RespondentPlace | Status | FileUpload | CrossIssuerHistory | OfflineSubmit | Payment | Embed | Screener | SafeAddress | RecordLifecycle => DemoStub
  | DocumentPresentation | TrustedReviewer | PreparerFiling | BringYourOwnAssistant | DuressAware | MultiParty => Unavailable
  end.

Definition demo_policy : OrgRuntimePolicy :=
  {| org_features := allowed_features;
     org_recordLifecycle := JObj [
       ("correctable", JObj [("enabled", JBool true);
         ("correctableFieldSet", JArr [JStr "/fullName"; JStr "/householdSize"; JStr "/address/street"]);
         ("window", JObj [("state", JStr "open")]); ("requiresReason", JBool true); ("requiresEvidence", JBool false)]);
       ("withdrawable", JObj [("enabled", JBool true);
         ("window", JObj [("state", JStr "closes-at"); ("closesAt", JStr "2026-06-24T23:59:59.000Z")]); ("requiresReason", JBool true);
         ("preDeterminationKernelMode", JStr "applicant-withdrawn"); ("partyScope", JStr "any-party")]);
       ("disputable", JObj [("enabled", JBool true); ("signerOnly", JBool true); ("requiresReason", JBool true)])];
     org_limits := JObj [
       ("embed", JObj [("allowedOrigins", JArr [])]);
       ("safeAddress", JObj [("receiptPostureTier", JStr "phase-1-fallback");
         ("acpJurisdictionsAccepted", JArr [JStr "CA-ACP"; JStr "WA-ACP"; JStr "USMS-WitSec"]);
         ("authorizedAudiences", JArr [JStr "issuer_verification"])])] |}.

(** [DemoFormPolicyExtractor]; whether the definition is the demo form. *)
Definition DemoFormPolicyExtractor (is_demo_form : bool) : FormRuntimePolicyExtractor := λ _,
  if is_demo_form then
    {| form_features := [("respondentPlace", JStr "optional"); ("status", JStr "optional")]; form_limits := JUndef; form_recordLifecycle := JUndef |}
  else {| form_features := []; form_limits := JUndef; form_recordLifecycle := JUndef |}.

Definition createStubComposition (demoSampleFormUrl : string) (is_demo_form : bool) : outcome string Wired :=
  composition ← lift_incoherent (freezeComposition {| comp_mode := Demo; instanceCapabilities := demo_capabilities; comp_port := demo_ports |});
  Returns {|
    like := composition; wired_initialDefinitionUrl := demoSampleFormUrl; localPackagePreview := false;
    definitions := DemoDefinitions; drafts := DemoDrafts; wired_provider := GivenProvider plain_adapter; wired_session := false;
    bearer := NoBearer; uploads := None; responseActionInvoker := None; surfaceRouter := false; orgRuntimePolicy := demo_policy;
    formRuntimePolicyExtractor := CompositeFormRuntimePolicyExtractor (DemoFormPolicyExtractor is_demo_form :: referenceExtractors) |}.
(** ** The composition of a location *)

(** What a choice throws, and what the factory of bindings may throw: a route's
    error, or that of a factory. *)
Inductive choice_error : Set :=
  | RouteFailure (e : route_error)
  | NarrowingFailure (e : NarrowingError)
  | FactoryFailure (message : string).

(** What [chooseComposition] is given beside the location. *)
Record choice_input : Type := {
  choice_config : FormspecWebConfig;
  identityBindingFactory : option (outcome choice_error Binding);
  choice_statusReader : option slot
}.

(** The composition, with the factory that made it and what it was selected for. *)
Inductive composition_choice : Type :=
  | NarrowedTo (route : RouteNarrowing) (composition : CompositionLike)
  | DefaultFor (form : SelectedForm) (composition : Wired).

Definition fails_as {E A} (f : E → choice_error) (m : outcome E A) : outcome choice_error A :=
  match m with Returns a => Returns a | Throws e => Throws (f e) end.

(** [identityBindingFactory?.()] *)
Definition make_binding (factory : option (outcome choice_error Binding)) : outcome choice_error (option Binding) :=
  match factory with Some make => Some <$> make | None => Returns None end.

Definition narrowed_config (config : FormspecWebConfig) : NarrowedConfig := {|
  Coherence.formspecServerUrl := s ← formspecStack config; formspecServerUrl s;
  identity_mode_oidc_required := oidc_required config; identity_oidc := has_oidc config |}.
Definition narrowed_binding (b : Binding) : IdentityBinding := {|
  binding_provider := provider_slot (provider b); has_accessToken := accessToken b; has_browserAuthSession := browserAuthSession b |}.

(** The call of the narrowed factory.  No real identity is made in it: the
    respondent's place, which it depends on, is never declared. *)
Definition narrowed_to (config : FormspecWebConfig) (route : RouteNarrowing) (reader : option slot) (binding : option Binding) :
    outcome choice_error composition_choice :=
  composition ← fails_as NarrowingFailure
    (createRouteNarrowedComposition (narrowed_config config) route reader (narrowed_binding <$> binding) plain_adapter);
  Returns (NarrowedTo route composition).

(** The options that a form of a location selects. *)
Definition location_options (form : SelectedForm) (binding : option Binding) : DefaultCompositionOptions := {|
  initialDefinitionUrl := Some (Routes.initialDefinitionUrl form); packageUrl := Routes.packageUrl form;
  surfaceRoute := isSome (Routes.surfaceRoute form); identityBinding := binding;
  screenerCompletion := false; nativeScreener := false; nativeTask := None; ownedDraftResume := None |}.

(** Whether a form gets an identity binding of the host. *)
Definition binds_form (config : FormspecWebConfig) (form : SelectedForm) : bool :=
  String.eqb (identityProvider (ports config)) "oidc" || negb (isSome (Routes.packageUrl form)).

Definition chooseComposition (input : choice_input) (href : string) : outcome choice_error composition_choice :=
  let config := choice_config input in
  match new_URL href with
  | None => Throws (RouteFailure InvalidUrl)
  | Some url =>
      if String.eqb (url_pathname url) "/status" then
        match parseStatusRoute href with
        | None => Throws (RouteFailure InvalidStatusCase)
        | Some _ =>
            binding ← (if isSome (choice_statusReader input) then make_binding (identityBindingFactory input) else Returns None);
            narrowed_to config STATUS_ROUTE_NARROWING (choice_statusReader input) binding
        end
      else if parseObligationsRoute href then narrowed_to config OBLIGATIONS_ROUTE_NARROWING None None
      else if parseDocumentsRoute href then narrowed_to config DOCUMENTS_ROUTE_NARROWING None None
      else if parseHistoryRoute href then narrowed_to config HISTORY_ROUTE_NARROWING None None
      else if isSome (parseScreenerRoute href) then narrowed_to config SCREENER_ROUTE_NARROWING None None
      else
        selection ← fails_as RouteFailure (parseRootFormRoute href);
        match selection with
        | Some (SelectedRoute form) =>
            binding ← (if binds_form config form then make_binding (identityBindingFactory input) else Returns None);
            composition ← fails_as FactoryFailure (createDefaultComposition config (location_options form binding));
            Returns (DefaultFor form composition)
        | _ => Throws (RouteFailure (InvalidFormRouteError "A form must be selected by its publisher link."))
        end
  end.

(** [chooseComposition] as it is called at boot and after every transition,
    without a status reader. *)
Inductive RoutedCompositionState : Type := Ready (composition : composition_choice) | ConfigurationError | FormRouteFailure (error : route_error).

Definition bootCompositionForHref (config : FormspecWebConfig) (factory : option (outcome choice_error Binding)) (href : string) :
    outcome choice_error RoutedCompositionState :=
  if negb (nonempty (server_of config)) then Returns ConfigurationError else
  match chooseComposition {| choice_config := config; identityBindingFactory := factory; choice_statusReader := None |} href with
  | Returns composition => Returns (Ready composition)
  | Throws (RouteFailure e) => if isFormRouteError e then Returns (FormRouteFailure e) else Throws (RouteFailure e)
  | Throws e => Throws e
  end.
End roots.

(** * What a root wires *)

Section theorems.
Context `{Packages : !ConfigPackages, Urls : !UrlLibrary, Sessions : !BrowserSessions}.

Definition served (c : CompositionLike) (k : RuntimeFeatureKey) : Prop := instanceCapabilities c k ≠ Unavailable.

Lemma lift_incoherent_Returns {A} (m : outcome CompositionIncoherenceError A) a : lift_incoherent m = Returns a ↔ m = Returns a.
Proof. destruct m; cbn; naive_solver. Qed.

(** The composition that nothing is admitted to, and what is laid over it. *)
Lemma unavailable_built c : createUnavailableComposition = Returns c ↔
  c = {| comp_mode := Production; instanceCapabilities := λ _, Unavailable; comp_port := unavailable_ports |}.
Proof.
  unfold createUnavailableComposition. rewrite freezeComposition_spec. split; [by intros [_ ->]|]. intros ->. split; [|done].
  intros k. unfold key_honest. destruct k; cbn; try done; try (by left); right; (apply Forall_cons_2; [|apply Forall_nil_2]);
    unfold port_honest; cbn; (split; [done|by right]).
Qed.

Ltac honest :=
  intros k; unfold key_honest; destruct k; cbn; try done; try (by left); right; (apply Forall_cons_2; [|apply Forall_nil_2]);
  unfold port_honest; cbn; (split; [done|first [by right|done]]).

Lemma reference_honest binding k : key_honest (reference_composition binding) k.
Proof. revert k. honest. Qed.

Lemma preview_honest c binding k : createUnavailableComposition = Returns c → key_honest (preview_composition c binding) k.
Proof. intros ->%unavailable_built. revert k. honest. Qed.

Lemma deferred_honest c initial binding k : createUnavailableComposition = Returns c → key_honest (deferred_composition initial binding c) k.
Proof. intros ->%unavailable_built. revert k. honest. Qed.

Lemma demo_honest k : key_honest {| comp_mode := Demo; instanceCapabilities := demo_capabilities; comp_port := demo_ports |} k.
Proof.
  destruct (decide (k = DocumentPresentation)) as [->|Hk]; [|revert k Hk; intros k Hk; destruct k; try done; revert Hk; intros _;
    unfold key_honest; cbn; try done; try (by left); right; (apply Forall_cons_2; [|apply Forall_nil_2]); unfold port_honest; cbn; done].
  unfold key_honest. cbn. right. apply Forall_cons_2; [|apply Forall_nil_2]. unfold port_honest. cbn. split; [done|]. left.
  unfold sibling_live. split; [vm_compute; lia|]. exists RespondentPlace. split; [apply (bool_decide_unpack _); vm_compute; exact I|done].
Qed.






Lemma assert_ports_Returns config u : assertReferenceHttpDataPorts config = Returns u ↔
  definitionSource (ports config) = ReferenceHttp ∧ draftStore (ports config) = ReferenceHttp ∧ submitTransport (ports config) = ReferenceHttp.
Proof.
  unfold assertReferenceHttpDataPorts. destruct u, (definitionSource (ports config)), (draftStore (ports config)), (submitTransport (ports config));
    cbn; naive_solver.
Qed.








(** What the composition of a form needs. *)
Record form_ready (config : FormspecWebConfig) (options : DefaultCompositionOptions) : Prop := {
  ready_server : nonempty (trim (server_of config)) = true;
  ready_scope : ∀ k, scopeKey config = Some k → is_scope_key_text k = true;
  ready_form : ∃ url, initialDefinitionUrl options = Some url ∧ nonempty (trim url) = true;
  ready_policy : oidc_required config = true → identityProvider (ports config) = "oidc";
  ready_identity : identityBinding options ≠ None ∨ identityProvider (ports config) = "anonymous" ∨
    (identityProvider (ports config) = "oidc" ∧ ∃ oidc, identityOidc (identity config) = Some oidc ∧ open_session oidc = Returns ());
  ready_ledger : ∀ endpoint, given (s ← formspecStack config; responseActionLedgerCapabilityUrl s) = Some endpoint → nonempty (trim endpoint) = true
}.

Lemma given_Some s t : given s = Some t ↔ s = Some t ∧ nonempty t = true.
Proof.
  unfold given. destruct s as [u|]; cbn; [|by split; [|intros [? _]]]. destruct (nonempty u) eqn:E.
  - by split; [intros [= <-]|intros [[= <-] _]].
  - split; [done|]. intros [[= ->] ?]. congruence.
Qed.

Lemma given_server config : given (s ← formspecStack config; formspecServerUrl s) = if nonempty (server_of config) then Some (server_of config) else None.
Proof. unfold given, server_of. by destruct (s ← formspecStack config; formspecServerUrl s). Qed.

Lemma trim_nonempty s : nonempty (trim s) = true → nonempty s = true.
Proof. by destruct s. Qed.

Lemma client_Returns base scope u : newHttpClient base scope = Returns u ↔
  nonempty (trim base) = true ∧ ∀ k, scope = Some k → is_scope_key_text k = true.
Proof.
  unfold newHttpClient. rewrite seq_Returns, throw_when_Returns, negb_false_iff. destruct u, scope as [k|]; [|naive_solver].
  rewrite bind_Returns. setoid_rewrite parseScopeKey_Returns. naive_solver.
Qed.

Lemma identity_Returns config formUrl : (oidc_required config = true → identityProvider (ports config) = "oidc") →
  (∃ b, identityProviderFor config formUrl = Returns b) ↔
  identityProvider (ports config) = "anonymous" ∨
  (identityProvider (ports config) = "oidc" ∧ ∃ oidc, identityOidc (identity config) = Some oidc ∧ open_session oidc = Returns ()).
Proof.
  intros Ho. unfold identityProviderFor. cbn zeta.
  assert (oidc_required config && negb (String.eqb (identityProvider (ports config)) "oidc") = false) as ->.
  { destruct (oidc_required config); [|done]. by rewrite (Ho eq_refl). }
  cbn. clear Ho. destruct (String.eqb_spec (identityProvider (ports config)) "anonymous") as [->|Ha].
  { split; [by left|]. intros _. by eexists. }
  destruct (String.eqb_spec (identityProvider (ports config)) "oidc") as [->|Hn].
  - destruct (identityOidc (identity config)) as [oidc|]; cbn.
    + unfold createOidcIdentityBinding. destruct (open_session oidc) as [[]|] eqn:E; cbn; split.
      * intros _. right. split; [done|]. by exists oidc.
      * intros _. by eexists.
      * by intros [b ?].
      * intros [?|(_ & o & [= <-] & Ho)]; congruence.
    + split; [by intros [b ?]|]. by intros [?|(_ & o & ? & _)].
  - split; [|by intros [?|[? _]]]. destruct (identityOidc (identity config)); by intros [b ?].
Qed.

Lemma binding_Returns config options initial : given (packageUrl options) = None → (oidc_required config = true → identityProvider (ports config) = "oidc") →
  (∃ b, selected_binding config options initial false = Returns b) ↔
  identityBinding options ≠ None ∨ identityProvider (ports config) = "anonymous" ∨
  (identityProvider (ports config) = "oidc" ∧ ∃ oidc, identityOidc (identity config) = Some oidc ∧ open_session oidc = Returns ()).
Proof.
  intros Hg Ho. unfold selected_binding. rewrite Hg. cbn. destruct (identityBinding options) as [b|]; [naive_solver|].
  rewrite identity_Returns by done. naive_solver.
Qed.

Lemma form_Returns config options initial binding credentials : (∃ w, form_composition config options initial binding credentials = Returns w) ↔
  ∀ endpoint, given (s ← formspecStack config; responseActionLedgerCapabilityUrl s) = Some endpoint → nonempty (trim endpoint) = true.
Proof.
  unfold form_composition. cbn zeta. setoid_rewrite seq_Returns.
  assert (lift_incoherent (freezeComposition (reference_composition binding)) = Returns (reference_composition binding)) as ->.
  { apply lift_incoherent_Returns, freezeComposition_spec. split; [|done]. apply reference_honest. }
  cbn. destruct (given _) as [e|]; [|naive_solver]. setoid_rewrite throw_when_Returns. destruct (nonempty (trim e)) eqn:E; naive_solver.
Qed.

(** C30. A resolved configuration without a package boots the form of a location
    exactly when it names a server and a form, its scope key is well formed,
    an identity can be made that its policy admits, and the ledger's endpoint is
    not blank: no mismatch of its ports remains to fail on. *)
Theorem resolved_form_boots `{!JsonText} base runtime c options : resolveActiveConfig base runtime = Returns c →
  (s ← formspecStack c; nativePackageSigning s) = None → given (packageUrl options) = None →
  ownedDraftResume options = None → nativeTask options = None →
  (∃ w, createDefaultComposition c options = Returns w) ↔ form_ready c options.
Proof.
  intros Hr Hn Hg Hresume Htask. apply resolve_active in Hr. unfold createDefaultComposition. cbn zeta.
  assert ((match s ← formspecStack c; nativePackageSigning s with Some v => Some <$> nativePackageSigningConfig v | None => Returns None end)
    = @Returns string (option jsv) None) as -> by (by rewrite Hn).
  rewrite Hresume, Htask, given_server. cbn. destruct (nonempty (server_of c)) eqn:Hserver.
  2:{ split; [by intros [w Hw]|]. intros [Hs _ _ _ _ _]. apply trim_nonempty in Hs. congruence. }
  pose proof (active_ports _ _ _ Hr) as Hports. rewrite Hserver in Hports. destruct Hports as (Hp1 & Hp2 & Hp3 & _).
  unfold http_composition. assert (assertReferenceHttpDataPorts c = Returns ()) as -> by (by apply assert_ports_Returns). rewrite Hg. cbn.
  split.
  - intros (w & Hw). apply seq_Returns in Hw as (Ho%throw_when_Returns & Hw). apply bind_Returns in Hw as (initial & Hi & Hw).
    apply seq_Returns in Hw as ([Hs Hk]%client_Returns & Hw). apply bind_Returns in Hw as (binding & Hb & Hw).
    assert (oidc_required c = true → identityProvider (ports c) = "oidc") as Hpolicy.
    { intros Hreq. rewrite Hreq in Ho. cbn in Ho. by apply negb_false_iff, String.eqb_eq in Ho. }
    constructor; [done|done| |done| |].
    + unfold requiredInitialDefinitionUrl in Hi. destruct (initialDefinitionUrl options) as [url|]; [|done]. exists url. by destruct (nonempty (trim url)).
    + apply (binding_Returns c options initial Hg Hpolicy). by exists binding.
    + eapply form_Returns. by exists w.
  - intros [Hs Hk (url & Hurl & Hblank) Hpolicy Hid Hledger].
    assert (oidc_required c && negb (String.eqb (identityProvider (ports c)) "oidc") = false) as ->.
    { destruct (oidc_required c); [|done]. by rewrite (Hpolicy eq_refl). }
    unfold requiredInitialDefinitionUrl. rewrite Hurl, Hblank. cbn.
    assert (newHttpClient (server_of c) (scopeKey c) = Returns ()) as -> by (by apply client_Returns). cbn.
    destruct (proj2 (binding_Returns c options url Hg Hpolicy) Hid) as [b ->]. cbn. by apply form_Returns.
Qed.

(** ** The demo composition *)

(** The demo boots and shows its stubs; a production composition could not. *)
Lemma demo_composition_boots url is_demo_form : ∃ w, createStubComposition url is_demo_form = Returns w ∧ comp_mode (like w) = Demo ∧
  assertCompositionCoherence (like w) = Returns () ∧ ∀ k, served (like w) k ↔ demo_capabilities k = DemoStub.
Proof.
  unfold createStubComposition.
  set (c := {| comp_mode := Demo; instanceCapabilities := demo_capabilities; comp_port := demo_ports |}).
  assert (freezeComposition c = Returns c) as Hc by (by apply freezeComposition_spec; split; [apply demo_honest|]).
  rewrite Hc. cbn. eexists. split; [done|]. cbn. split; [done|]. split; [apply assert_spec, demo_honest|].
  intros k. unfold served. cbn. by destruct k; cbn.
Qed.
(** ** The composition of a location *)

Lemma fails_as_Returns {E A} (f : E → choice_error) (m : outcome E A) a : fails_as f m = Returns a ↔ m = Returns a.
Proof. destruct m; cbn; naive_solver. Qed.
Lemma fails_as_Throws {E A} (f : E → choice_error) (m : outcome E A) e : fails_as f m = Throws e ↔ ∃ e', m = Throws e' ∧ e = f e'.
Proof. destruct m; cbn; naive_solver. Qed.

(** The binding a choice is given: none, or what the host's factory returns. *)
Definition bound (wanted : bool) (factory : option (outcome choice_error Binding)) (binding : option Binding) : Prop :=
  match factory with
  | Some make => if wanted then ∃ b, make = Returns b ∧ binding = Some b else binding = None
  | None => binding = None
  end.

Lemma bound_spec (wanted : bool) factory binding :
  (if wanted then make_binding factory else Returns None) = Returns binding ↔ bound wanted factory binding.
Proof. unfold bound. destruct wanted, factory as [[b|e]|]; cbn; naive_solver. Qed.

Lemma unbound_spec (wanted : bool) factory e :
  (if wanted then make_binding factory else Returns None) = Throws e ↔ wanted = true ∧ factory = Some (Throws e).
Proof. destruct wanted, factory as [[b|e']|]; cbn; naive_solver. Qed.

(** What the composition of a narrowed route needs and is: a server; and for a
    status reader, which only /status is given, a profile that requires OIDC and
    a binding of the host with a bearer and a session. *)
Definition narrowed_by (input : choice_input) (route : RouteNarrowing) (c : CompositionLike) : Prop :=
  nonempty (server_of (choice_config input)) = true ∧
  match choice_statusReader input with
  | Some reader =>
      if String.eqb (routeCite route) "/status" then
        unmarked reader ∧ oidc_required (choice_config input) = true ∧
        ∃ b, identityBindingFactory input = Some (Returns b) ∧ accessToken b = true ∧ browserAuthSession b = true ∧
          c = narrowed_composition route (Some reader) (Some (narrowed_binding b)) plain_adapter
      else c = narrowed_composition route None None plain_adapter
  | None => c = narrowed_composition route None None plain_adapter
  end.

Lemma narrowed_server config : (∃ url, Coherence.formspecServerUrl (narrowed_config config) = Some url ∧ url ≠ "") ↔ nonempty (server_of config) = true.
Proof.
  unfold server_of. cbn. rewrite nonempty_spec. destruct (s ← formspecStack config; formspecServerUrl s) as [u|]; cbn; naive_solver.
Qed.

Lemma narrowed_session config b : status_session_selected (narrowed_config config) STATUS_ROUTE_NARROWING (narrowed_binding <$> b) = true ↔
  oidc_required config = true ∧ ∃ b', b = Some b' ∧ accessToken b' = true ∧ browserAuthSession b' = true.
Proof.
  unfold status_session_selected. cbn [narrowed_config identity_mode_oidc_required identity_oidc identityBound STATUS_ROUTE_NARROWING consumes].
  rewrite bool_decide_eq_true_2 by set_solver. cbn [andb]. rewrite !andb_true_iff. unfold has_oidc, oidc_required.
  destruct (identity config) as [oidc|]; cbn; [|naive_solver]. destruct b as [b'|]; cbn; [rewrite andb_true_iff|]; naive_solver.
Qed.

Lemma narrowed_to_Returns config route reader binding x : narrowed_to config route reader binding = Returns x ↔
  nonempty (server_of config) = true ∧
  (∀ s, reader = Some s → unmarked s ∧ status_session_selected (narrowed_config config) route (narrowed_binding <$> binding) = true) ∧
  x = NarrowedTo route (narrowed_composition route reader (narrowed_binding <$> binding) plain_adapter).
Proof.
  unfold narrowed_to. rewrite bind_Returns, <- narrowed_server. setoid_rewrite fails_as_Returns. setoid_rewrite narrowed_Returns. naive_solver.
Qed.

(** A choice at the path of a narrowed route. *)
Definition chosen_narrowing (input : choice_input) (href : string) (r : RouteNarrowing) : outcome choice_error composition_choice :=
  if String.eqb (routeCite r) "/status" then
    match parseStatusRoute href with
    | None => Throws (RouteFailure InvalidStatusCase)
    | Some _ =>
        binding ← (if isSome (choice_statusReader input) then make_binding (identityBindingFactory input) else Returns None);
        narrowed_to (choice_config input) r (choice_statusReader input) binding
    end
  else narrowed_to (choice_config input) r None None.

Lemma chosen_narrowed input href url r : new_URL href = Some url → r ∈ narrowings → url_pathname url = routeCite r →
  chooseComposition input href = chosen_narrowing input href r.
Proof.
  intros Hu Hr Hp. unfold chooseComposition, chosen_narrowing, parseObligationsRoute, parseDocumentsRoute, parseHistoryRoute, parse_bare_route, parseScreenerRoute.
  rewrite Hu. cbn [mbind option_bind]. rewrite Hp. by apply narrowings_in in Hr as [->|[->|[->|[->| ->]]]].
Qed.

Lemma chosen_narrowing_Returns input href r x : r ∈ narrowings → chosen_narrowing input href r = Returns x ↔
  (routeCite r = "/status" → is_Some (parseStatusRoute href)) ∧ ∃ c, narrowed_by input r c ∧ x = NarrowedTo r c.
Proof.
  intros Hr. unfold chosen_narrowing, narrowed_by. destruct (String.eqb_spec (routeCite r) "/status") as [Hs|Hs].
  - assert (r = STATUS_ROUTE_NARROWING) as -> by (apply narrowings_apart; [done|by apply narrowings_in; left|done]).
    destruct (parseStatusRoute href) as [id|]; [|split; [done|intros [Hid _]; by destruct (Hid Hs)]].
    rewrite bind_Returns. setoid_rewrite bound_spec. setoid_rewrite narrowed_to_Returns. setoid_rewrite narrowed_session.
    destruct (choice_statusReader input) as [reader|]; cbn [isSome].
    + split.
      * intros (binding & Hb & Hv & Hn & ->). destruct (Hn reader eq_refl) as (Hm & Ho & b & -> & Ht & Hses). split; [by eexists|].
        eexists. split; [|done]. split; [done|]. split; [done|]. split; [done|]. exists b. split; [|done].
        unfold bound in Hb. destruct (identityBindingFactory input) as [make|]; [|done]. destruct Hb as (b' & -> & [= ->]). done.
      * intros (_ & c & (Hv & Hm & Ho & b & Hf & Ht & Hses & ->) & ->). exists (Some b). unfold bound. rewrite Hf. split; [by exists b|].
        split; [done|]. split; [|done]. intros s [= <-]. split; [done|]. split; [done|]. by exists b.
    + split.
      * intros (binding & Hb & Hv & _ & ->). split; [by eexists|]. eexists. split; [|done]. split; [done|].
        unfold bound in Hb. by destruct (identityBindingFactory input); subst binding.
      * intros (_ & c & (Hv & ->) & ->). exists None. split; [unfold bound; by destruct (identityBindingFactory input)|]. done.
  - rewrite narrowed_to_Returns. split.
    + intros (Hv & _ & ->). split; [done|]. eexists. split; [|done]. split; [done|]. by destruct (choice_statusReader input).
    + intros (_ & c & (Hv & Hc) & ->). split; [done|]. split; [done|]. by destruct (choice_statusReader input); subst c.
Qed.

(** A choice at any other path. *)
Lemma chosen_default input href url : new_URL href = Some url → (∀ r, r ∈ narrowings → url_pathname url ≠ routeCite r) →
  chooseComposition input href =
    (selection ← fails_as RouteFailure (parseRootFormRoute href);
     match selection with
     | Some (SelectedRoute form) =>
         binding ← (if binds_form (choice_config input) form then make_binding (identityBindingFactory input) else Returns None);
         composition ← fails_as FactoryFailure (createDefaultComposition (choice_config input) (location_options form binding));
         Returns (DefaultFor form composition)
     | _ => Throws (RouteFailure (InvalidFormRouteError "A form must be selected by its publisher link."))
     end).
Proof.
  intros Hu Hp. unfold chooseComposition, parseObligationsRoute, parseDocumentsRoute, parseHistoryRoute, parse_bare_route, parseScreenerRoute.
  rewrite Hu. cbn [mbind option_bind]. setoid_rewrite narrowings_in in Hp.
  rewrite (proj2 (String.eqb_neq _ "/status") (Hp STATUS_ROUTE_NARROWING ltac:(auto 8))),
    (proj2 (String.eqb_neq _ "/obligations") (Hp OBLIGATIONS_ROUTE_NARROWING ltac:(auto 8))),
    (proj2 (String.eqb_neq _ "/documents") (Hp DOCUMENTS_ROUTE_NARROWING ltac:(auto 8))),
    (proj2 (String.eqb_neq _ "/history") (Hp HISTORY_ROUTE_NARROWING ltac:(auto 8))),
    (proj2 (String.eqb_neq _ "/screener") (Hp SCREENER_ROUTE_NARROWING ltac:(auto 8))).
  done.
Qed.

(** What is thrown for a selected form: what the host's factory throws, or
    what the reference root does with the binding it made. *)
Definition form_refused (config : FormspecWebConfig) (factory : option (outcome choice_error Binding)) (form : SelectedForm) (e : choice_error) : Prop :=
  binds_form config form = true ∧ factory = Some (Throws e) ∨
  ∃ binding m, bound (binds_form config form) factory binding ∧ createDefaultComposition config (location_options form binding) = Throws m ∧
    e = FactoryFailure m.

Lemma chosen_default_Throws `{!UrlLaws} input href url e : new_URL href = Some url → url_href url = href →
  (∀ r, r ∈ narrowings → url_pathname url ≠ routeCite r) → chooseComposition input href = Throws e →
  (∃ r, e = RouteFailure r ∧ isFormRouteError r = true) ∧ (∀ form, ¬ (url_pathname url = "/" ∧ selects (get_all url) form)) ∨
  ∃ form, url_pathname url = "/" ∧ selects (get_all url) form ∧ form_refused (choice_config input) (identityBindingFactory input) form e.
Proof.
  intros Hu Hh Hne. rewrite (chosen_default input href url Hu Hne), bind_Throws, fails_as_Throws. intros [(r & Hr & ->)|(s & Hs%fails_as_Returns & He)].
  - left. split; [exists r; split; [done|by eapply root_failing]|]. intros form Hf. apply (root_form href url form Hu Hh) in Hf. congruence.
  - destruct s as [[|form]|].
    + injection He as <-. left. split; [by eexists|]. intros form Hf. apply (root_form href url form Hu Hh) in Hf. congruence.
    + right. exists form. apply (root_form href url form Hu Hh) in Hs as [Hp Hsel]. split; [done|]. split; [done|].
      apply bind_Throws in He as [He%unbound_spec|(binding & Hb%bound_spec & He)]; [by left|]. right.
      apply bind_Throws in He as [(m & Hm & ->)%fails_as_Throws|(w & _ & He)]; [|done]. by exists binding, m.
    + injection He as <-. left. split; [by eexists|]. intros form Hf. apply (root_form href url form Hu Hh) in Hf. congruence.
Qed.

Lemma refused_Throws `{!UrlLaws} input href url form e : new_URL href = Some url → url_href url = href → url_pathname url = "/" →
  selects (get_all url) form → form_refused (choice_config input) (identityBindingFactory input) form e → chooseComposition input href = Throws e.
Proof.
  intros Hu Hh Hp Hsel Hr. assert (∀ r, r ∈ narrowings → url_pathname url ≠ routeCite r) as Hne.
  { intros r Hin. rewrite Hp. intros E. by apply (narrowings_no_root r Hin). }
  rewrite (chosen_default input href url Hu Hne), (proj2 (root_form href url form Hu Hh) (conj Hp Hsel)). cbn [fails_as]. cbn.
  destruct Hr as [Hr|(binding & m & Hb & Hm & ->)].
  - by rewrite (proj2 (unbound_spec _ _ e) Hr).
  - rewrite (proj2 (bound_spec _ _ binding) Hb). cbn. by rewrite Hm.
Qed.
(** A boot is the choice without a status reader, over a server. *)
Lemma boot_spec config factory href : nonempty (server_of config) = true →
  bootCompositionForHref config factory href =
    match chooseComposition {| choice_config := config; identityBindingFactory := factory; choice_statusReader := None |} href with
    | Returns composition => Returns (Ready composition)
    | Throws (RouteFailure e) => if isFormRouteError e then Returns (FormRouteFailure e) else Throws (RouteFailure e)
    | Throws e => Throws e
    end.
Proof. intros Hv. unfold bootCompositionForHref. by rewrite Hv. Qed.

(** The errors that a boot does not show as a failed form link. *)
Definition escapes (e : choice_error) : Prop := ∀ r, e = RouteFailure r → isFormRouteError r = false.

Lemma boot_Throws config factory href e : bootCompositionForHref config factory href = Throws e ↔
  nonempty (server_of config) = true ∧ escapes e ∧
  chooseComposition {| choice_config := config; identityBindingFactory := factory; choice_statusReader := None |} href = Throws e.
Proof.
  unfold escapes. destruct (nonempty (server_of config)) eqn:Hv.
  - rewrite boot_spec by done. destruct (chooseComposition _ href) as [x|[r|n|m]]; [naive_solver| |naive_solver..].
    destruct (isFormRouteError r) eqn:E; [|naive_solver]. split; [done|]. intros (_ & He & [= <-]). specialize (He r eq_refl). congruence.
  - unfold bootCompositionForHref. rewrite Hv. by split; [|intros [? _]].
Qed.

(** What escapes a boot. *)
Lemma boot_escapes `{!UrlLaws} config factory href url e : new_URL href = Some url → url_href url = href →
  bootCompositionForHref config factory href = Throws e ↔ nonempty (server_of config) = true ∧
    (url_pathname url = "/status" ∧ parseStatusRoute href = None ∧ e = RouteFailure InvalidStatusCase ∨
     ∃ form, url_pathname url = "/" ∧ selects (get_all url) form ∧ form_refused config factory form e ∧ escapes e).
Proof.
  intros Hu Hh. rewrite boot_Throws. set (input := {| choice_config := config; identityBindingFactory := factory; choice_statusReader := None |}).
  split.
  - intros (Hv & He & Hc). split; [done|]. destruct (decide (url_pathname url ∈ map routeCite narrowings)) as [Hin|Hout].
    + left. apply list_elem_of_fmap in Hin as (r & Hr & Hin). rewrite (chosen_narrowed input href url r Hu Hin Hr) in Hc.
      destruct (decide (routeCite r = "/status" ∧ parseStatusRoute href = None)) as [[Hs Hn]|Hok].
      * unfold chosen_narrowing in Hc. rewrite Hs, Hn in Hc. injection Hc as <-. by rewrite Hr, Hs.
      * assert (∃ c, chosen_narrowing input href r = Returns (NarrowedTo r c)) as [c Hr']; [|congruence].
        exists (narrowed_composition r None None plain_adapter). apply (chosen_narrowing_Returns input href r _ Hin). split.
        -- intros Hs. destruct (parseStatusRoute href) eqn:E; [by eexists|by destruct Hok].
        -- eexists. by split; [split; [exact Hv|]|].
    + assert (∀ r, r ∈ narrowings → url_pathname url ≠ routeCite r) as Hne by (intros r Hr E; apply Hout, list_elem_of_fmap; by exists r).
      destruct (chosen_default_Throws input href url e Hu Hh Hne Hc) as [[(r & Hr & Hf) _]|(form & Hp & Hs & Hf)].
      * specialize (He r Hr). congruence.
      * right. by exists form.
  - intros (Hv & [(Hp & Hn & ->)|(form & Hp & Hs & Hf & He)]); (split; [done|]); (split; [try done|]).
    + by intros r [= <-].
    + assert (STATUS_ROUTE_NARROWING ∈ narrowings) as Hin by (by apply narrowings_in; left).
      rewrite (chosen_narrowed input href url _ Hu Hin Hp). unfold chosen_narrowing. by rewrite Hn.
    + exact (refused_Throws input href url form e Hu Hh Hp Hs Hf).
Qed.

(** Where no form and no other route is selected. *)
Lemma boot_unselected `{!UrlLaws} config factory href url : new_URL href = Some url → url_href url = href → nonempty (server_of config) = true →
  (∀ r, r ∈ narrowings → url_pathname url ≠ routeCite r) → (∀ form, ¬ (url_pathname url = "/" ∧ selects (get_all url) form)) →
  ∃ e, bootCompositionForHref config factory href = Returns (FormRouteFailure e).
Proof.
  intros Hu Hh Hv Hne Hno. rewrite boot_spec by done. rewrite (chosen_default _ href url Hu Hne).
  destruct (parseRootFormRoute href) as [[[|form]|]|r] eqn:E; cbn.
  - by eexists.
  - apply (root_form href url form Hu Hh) in E. by destruct (Hno form).
  - by eexists.
  - rewrite (root_failing href url r Hu Hh E). by eexists.
Qed.

(** C31. The composition of a location, as the browser spells it, is the one the
    reference root makes, exactly where the location is the root and selects a
    form, with the options the form gives; and a narrowed one exactly where its
    path is that of the one route, for /status if the link selects a case, and a
    server is configured.  A status reader is taken only on /status, by a profile
    that requires OIDC and with a binding of the host that has both a bearer and
    a session; the host's factory is asked for a binding only then, or for a form
    that OIDC signs in or that names no package.  Only the screener's route is
    not bound to an identity.  With a server, what escapes a boot is: the error
    of a status link that selects no case, what the host's factory throws for
    the selected form, and what the reference root refuses it for; a location
    that selects neither a form nor a route ends as a failed form link. *)
Theorem composition_choice_exact `{!UrlLaws} input href url : new_URL href = Some url → url_href url = href →
  (∀ r c, chooseComposition input href = Returns (NarrowedTo r c) ↔
    r ∈ narrowings ∧ url_pathname url = routeCite r ∧ (routeCite r = "/status" → is_Some (parseStatusRoute href)) ∧ narrowed_by input r c) ∧
  (∀ form w, chooseComposition input href = Returns (DefaultFor form w) ↔
    url_pathname url = "/" ∧ selects (get_all url) form ∧ ∃ binding,
      bound (String.eqb (identityProvider (ports (choice_config input))) "oidc" || negb (isSome (Routes.packageUrl form)))
        (identityBindingFactory input) binding ∧
      createDefaultComposition (choice_config input) (location_options form binding) = Returns w) ∧
  (∀ r, r ∈ narrowings → identityBound r = false → r = SCREENER_ROUTE_NARROWING) ∧
  (∀ config factory e, bootCompositionForHref config factory href = Throws e ↔ nonempty (server_of config) = true ∧
    (url_pathname url = "/status" ∧ parseStatusRoute href = None ∧ e = RouteFailure InvalidStatusCase ∨
     ∃ form, url_pathname url = "/" ∧ selects (get_all url) form ∧ form_refused config factory form e ∧ escapes e)) ∧
  (∀ config factory, nonempty (server_of config) = true → (∀ r, r ∈ narrowings → url_pathname url ≠ routeCite r) →
    (∀ form, ¬ (url_pathname url = "/" ∧ selects (get_all url) form)) →
    ∃ e, bootCompositionForHref config factory href = Returns (FormRouteFailure e)).
Proof.
  intros Hu Hh. split_and!; [| |exact narrowings_identity|by intros; apply boot_escapes|by intros; eapply boot_unselected].
  - intros r c. destruct (decide (url_pathname url ∈ map routeCite narrowings)) as [Hin|Hout].
    + apply list_elem_of_fmap in Hin as (r0 & Hr0 & Hin). rewrite (chosen_narrowed input href url r0 Hu Hin Hr0), chosen_narrowing_Returns by done. split.
      * by intros (Hs & c' & Hc & [= -> ->]).
      * intros (Hr & Hp & Hs & Hc). assert (r = r0) as -> by (apply narrowings_apart; congruence). split; [done|]. by exists c.
    + assert (∀ r', r' ∈ narrowings → url_pathname url ≠ routeCite r') as Hne by (intros r' Hr E; apply Hout, list_elem_of_fmap; by exists r').
      split; [|intros (Hr & Hp & _); by destruct (Hne r Hr)]. rewrite (chosen_default input href url Hu Hne).
      intros (s & _ & E)%bind_Returns. destruct s as [[|f]|]; try done. by apply bind_Returns in E as (? & _ & (? & _ & E)%bind_Returns).
  - intros form w. destruct (decide (url_pathname url ∈ map routeCite narrowings)) as [Hin|Hout].
    + apply list_elem_of_fmap in Hin as (r0 & Hr0 & Hin). split.
      * rewrite (chosen_narrowed input href url r0 Hu Hin Hr0), chosen_narrowing_Returns by done. by intros (_ & c & _ & ?).
      * intros (Hp & _). destruct (narrowings_no_root r0 Hin). congruence.
    + assert (∀ r', r' ∈ narrowings → url_pathname url ≠ routeCite r') as Hne by (intros r' Hr E; apply Hout, list_elem_of_fmap; by exists r').
      rewrite (chosen_default input href url Hu Hne), bind_Returns. setoid_rewrite fails_as_Returns. split.
      * intros (s & Hs & E). destruct s as [[|f]|]; try done. apply bind_Returns in E as (b & Hb%bound_spec & (w' & Hw%fails_as_Returns & [= <- <-])%bind_Returns).
        apply (root_form href url f Hu Hh) in Hs as [Hp Hsel]. split; [done|]. split; [done|]. by exists b.
      * intros (Hp & Hsel & b & Hb & Hw). exists (Some (SelectedRoute form)). split; [by apply (root_form href url form Hu Hh)|].
        apply bind_Returns. exists b. split; [by apply bound_spec|]. apply bind_Returns. exists w. split; [by apply fails_as_Returns|done].
Qed.
End theorems.

(** * Two deployments *)

Module SampleRoots.
#[local] Instance packages : ConfigPackages := SampleDeployment.packages.
#[local] Instance absolute : UrlLibrary := {|
  new_URL := λ s, if String.prefix "https://" s
    then Some {| url_href := s; url_origin_of := "https://f.example"; url_protocol := "https:"; url_hostname := "f.example"; url_pathname := "/forms/intake";
                 url_search := ""; url_hash := ""; url_username := ""; url_password := "" |}
    else None;
  new_URL_at := λ s _, if String.prefix "https://" s
    then Some {| url_href := s; url_origin_of := "https://f.example"; url_protocol := "https:"; url_hostname := "f.example"; url_pathname := "/forms/intake";
                 url_search := ""; url_hash := ""; url_username := ""; url_password := "" |}
    else None;
  search_entries := λ _, []; search_text := λ _, "" |}.
#[local] Instance json : JsonText := coded_json.
#[local] Instance opened : BrowserSessions := λ _, Returns ().

Definition runtime : jsobj := [
  ("formspecServerUrl", JStr "https://f.example"); ("scopeKey", JStr SampleDeployment.key)].
Definition resolved (base : FormspecWebConfig) : FormspecWebConfig :=
  match resolveActiveConfig base runtime with Returns c => c | Throws _ => base end.
Definition form_options (package : option string) : DefaultCompositionOptions := {|
  initialDefinitionUrl := Some "https://f.example/forms/intake"; packageUrl := package; surfaceRoute := false; identityBinding := None;
  screenerCompletion := false; nativeScreener := false; nativeTask := None; ownedDraftResume := None |}.


(** The department's profile boots a form of its server. *)
Lemma resolved_form_boots_witness : ∃ w,
  createDefaultComposition (resolved departmentAppProfile) (form_options None) = Returns w.
Proof.
  apply (resolved_form_boots departmentAppProfile runtime (resolved departmentAppProfile) (form_options None));
    [vm_compute; reflexivity|vm_compute; reflexivity|reflexivity|reflexivity|reflexivity|].
  constructor.
  - vm_compute. reflexivity.
  - intros k Hk. vm_compute in Hk. injection Hk as <-. vm_compute. reflexivity.
  - exists "https://f.example/forms/intake". split; [reflexivity|vm_compute; reflexivity].
  - intros _. vm_compute. reflexivity.
  - right. right. split; [vm_compute; reflexivity|]. eexists. split; [vm_compute; reflexivity|reflexivity].
  - intros e He. vm_compute in He. discriminate He.
Defined.
End SampleRoots.

(** * Two locations *)

Module SampleLocations.
#[local] Instance packages : ConfigPackages := SampleDeployment.packages.
#[local] Instance urls : UrlLibrary := RouteSample.library.
#[local] Instance opened : BrowserSessions := λ _, Returns ().

Definition portal : FormspecWebConfig := SampleRoots.resolved publicPortalProfile.
Definition host_binding : Binding := {| provider := GivenProvider plain_adapter; accessToken := true; browserAuthSession := true |}.
Definition input_of (factory : outcome choice_error Binding) : choice_input := {|
  choice_config := portal; identityBindingFactory := Some factory; choice_statusReader := None |}.

Lemma form_link_href : url_href RouteSample.form_location = RouteSample.form_link.
Proof. reflexivity. Qed.
Lemma portal_server : nonempty (server_of portal) = true.
Proof. vm_compute. reflexivity. Qed.
Lemma portal_binds : binds_form portal RouteSample.selected = true.
Proof. vm_compute. reflexivity. Qed.
Lemma portal_makes : returned (createDefaultComposition portal (location_options RouteSample.selected (Some host_binding))) = true.
Proof. vm_compute. reflexivity. Qed.

(** The portal's composition of a form that is selected by its link, with the
    binding of the host; and a boot that throws what the host's factory does. *)
Theorem composition_choice_exact_witness :
  (∃ w, chooseComposition (input_of (Returns host_binding)) RouteSample.form_link = Returns (DefaultFor RouteSample.selected w)) ∧
  bootCompositionForHref portal (Some (Throws (FactoryFailure "no host"))) RouteSample.form_link = Throws (FactoryFailure "no host").
Proof.
  destruct (@composition_choice_exact packages urls opened RouteSample.laws (input_of (Returns host_binding)) RouteSample.form_link
    RouteSample.form_location RouteSample.form_link_url form_link_href) as (_ & Hform & _ & Hboot & _). split.
  - pose proof portal_makes as Hm. destruct (createDefaultComposition portal (location_options RouteSample.selected (Some host_binding))) as [w|] eqn:E;
      [|discriminate Hm]. exists w. refine (proj2 (Hform RouteSample.selected w) _). split; [reflexivity|]. split; [exact RouteSample.form_selected|].
    exists (Some host_binding). split; [|exact E]. exists host_binding. split; reflexivity.
  - refine (proj2 (Hboot portal (Some (Throws (FactoryFailure "no host"))) (FactoryFailure "no host")) _).
    split; [exact portal_server|]. right. exists RouteSample.selected. split; [reflexivity|]. split; [exact RouteSample.form_selected|].
    split; [left; split; [exact portal_binds|reflexivity]|]. intros r Hr. discriminate Hr.
Defined.
End SampleLocations.
