(* ===== verification/NativeScreener.v ===== *)
(** * The native screener

    src/src/shared/native-screener-coordinator.ts: the sequence in which a
    screener is completed, its run retained by the server, associated with a
    saved draft and turned into facts, and the route that a completed screener
    opens until its validity ends.  One operation is in force at a time: a new
    one retires the last, whose awaits then fail. *)

From S2P Require Import Prelude JsValue Text Async AsyncTokens ResponseAction.

(** ** Data *)

Inductive Qualification : Set := ReadyFor (target : string) | PendingFor (reason : string).

(** The members of a retained run that the coordinator reads. *)
Record RunView : Set := {
  selection_url : string; selection_version : string; selectionHash : string; runId : string; run_revision : Z;
  run_qualification : Qualification; validUntil : option string; acceptance : option (string * Qualification)
}.

Record ScreenerDocument : Set := { document_url : option string; document_version : string; resultValidity : bool }.
Record CompletionRequest : Set := {
  completionId : string; request_selectionKey : string; document : ScreenerDocument; answers_given : list (string * jsv); target : string
}.

(** A saved draft: whether it is signed, and has content to sign. *)
Record SavedDraft : Set := { saved_id : string; saved_signed : bool; saved_content : bool }.

(** A captured owner: the JSON text of its identity, and which capture it is. *)
Record Owner : Set := { owner_identity : string; capture : N }.
Record Facts : Set := { facts_id : N; facts_check : jsv }.

(** An operation: what it captured, and its caller's guard. *)
Record Operation : Set := { op_id : N; op_parent : Owner; op_caller : option N }.
Record Candidate : Set := { candidate_operation : Operation; candidate_facts : Facts; candidate_check : option jsv }.

(** The time for which a result stays valid. *)
Inductive span : Set := Forever | Millis (z : Z) | NotATime.
Inductive deadline : Set := Never | At (z : Z).

Record Route : Set := {
  route_run : RunView; route_identity : string; route_deadline : deadline; route_owner : Owner;
  route_operation : N; route_started : Z; route_document : ScreenerDocument; route_target : string
}.

(** The state of a coordinator.  [identity_seen] is the identity last captured
    for a route and [latest] the last operation of a completion; no program
    branches on them, nor on the members [route_operation], [route_started],
    [route_document] and [route_target] of a route. *)
Record coordinator : Set := {
  run : option RunView; active : option N; disposed : bool; uncertainRefresh : bool; lastElapsed : option Z; route : option Route;
  expiry : bool; next_op : N; aborted : gset N; identity_seen : option string; latest : option N
}.

Inductive CompletionResult : Set := Accepted | Refused (reason : string).

Inductive screener_operation : Set :=
  | Complete (request : CompletionRequest)
  | QualifySaved (saved : SavedDraft) (caller : option N) (allowRefresh : bool)
  | RefreshSaved (saved : SavedDraft) (caller : N)
  | PreSignCandidate (saved : SavedDraft) (caller : N)
  | UseFacts (candidate : Candidate) (ready : bool)
  | RouteAllowed (target : string) (document : ScreenerDocument)
  | RetireFactsNow
  | RetireAuthority
  | RouteTimer
  | Dispose.

Inductive screener_reply : Set :=
  | CompletionReply (r : CompletionResult)
  | CandidateReply (c : Candidate)
  | RouteReply (b : bool)
  | DoneReply.

(** The calls out.  Those of the retention and the hydration are awaited; the
    clock, the host's contexts, the guards and the callbacks are made within the
    turn, and the callbacks do not call back. *)
Inductive screener_call : Type → Type :=
  | Retain (op : N) (request : CompletionRequest) (answers : list (string * jsv)) : screener_call RunView
  | Recover (op : N) (saved : SavedDraft) : screener_call RunView
  | Refresh (op : N) (view : RunView) : screener_call RunView
  | Load (op : N) (view : RunView) : screener_call RunView
  | Associate (op : N) (saved : SavedDraft) (view : RunView) : screener_call jsv
  | Hydrate (op : N) (saved : SavedDraft) (view : RunView) (check : option jsv) : screener_call Facts
  | ElapsedNow : screener_call (option Z)
  | CaptureContext : screener_call Owner
  | CaptureRoute : screener_call Owner
  | AssertOwner (owner : Owner) : screener_call unit
  | AssertCaller (caller : N) : screener_call unit
  | Signals (op : N) : screener_call unit
  | AssertFacts (facts : Facts) (ready : bool) : screener_call unit
  | RouteChanged : screener_call unit
  | RetireHydration : screener_call unit
  | DisposeHydration : screener_call unit
  | SettleScreener (op : screener_operation) (result : outcome string screener_reply) : screener_call unit.

Abbreviation prog := (async coordinator string screener_call).

(** ** The state *)

Definition set_run (r : option RunView) (c : coordinator) : coordinator := {|
  run := r; active := active c; disposed := disposed c; uncertainRefresh := uncertainRefresh c; lastElapsed := lastElapsed c; route := route c;
  expiry := expiry c; next_op := next_op c; aborted := aborted c; identity_seen := identity_seen c; latest := latest c |}.
Definition set_uncertain (b : bool) (c : coordinator) : coordinator := {|
  run := run c; active := active c; disposed := disposed c; uncertainRefresh := b; lastElapsed := lastElapsed c; route := route c;
  expiry := expiry c; next_op := next_op c; aborted := aborted c; identity_seen := identity_seen c; latest := latest c |}.
Definition set_elapsed (z : Z) (c : coordinator) : coordinator := {|
  run := run c; active := active c; disposed := disposed c; uncertainRefresh := uncertainRefresh c; lastElapsed := Some z; route := route c;
  expiry := expiry c; next_op := next_op c; aborted := aborted c; identity_seen := identity_seen c; latest := latest c |}.
Definition set_route (r : option Route) (c : coordinator) : coordinator := {|
  run := run c; active := active c; disposed := disposed c; uncertainRefresh := uncertainRefresh c; lastElapsed := lastElapsed c; route := r;
  expiry := expiry c; next_op := next_op c; aborted := aborted c; identity_seen := identity_seen c; latest := latest c |}.
Definition set_expiry (b : bool) (c : coordinator) : coordinator := {|
  run := run c; active := active c; disposed := disposed c; uncertainRefresh := uncertainRefresh c; lastElapsed := lastElapsed c; route := route c;
  expiry := b; next_op := next_op c; aborted := aborted c; identity_seen := identity_seen c; latest := latest c |}.
Definition set_disposed (c : coordinator) : coordinator := {|
  run := None; active := active c; disposed := true; uncertainRefresh := uncertainRefresh c; lastElapsed := lastElapsed c; route := None;
  expiry := false; next_op := next_op c; aborted := aborted c; identity_seen := identity_seen c; latest := latest c |}.
Definition set_identity (s : string) (c : coordinator) : coordinator := {|
  run := run c; active := active c; disposed := disposed c; uncertainRefresh := uncertainRefresh c; lastElapsed := lastElapsed c; route := route c;
  expiry := expiry c; next_op := next_op c; aborted := aborted c; identity_seen := Some s; latest := latest c |}.
(** A new operation is in force. *)
Definition start_operation (completes : bool) (c : coordinator) : coordinator := {|
  run := run c; active := Some (next_op c); disposed := disposed c; uncertainRefresh := uncertainRefresh c; lastElapsed := lastElapsed c;
  route := route c; expiry := expiry c; next_op := N.succ (next_op c); aborted := aborted c; identity_seen := identity_seen c;
  latest := if completes then Some (next_op c) else latest c |}.
(** [operation.retire()], and whether the operation stays the active one. *)
Definition abort_operation (i : N) (c : coordinator) : coordinator := {|
  run := run c; active := active c; disposed := disposed c; uncertainRefresh := uncertainRefresh c; lastElapsed := lastElapsed c; route := route c;
  expiry := expiry c; next_op := next_op c; aborted := {[i]} ∪ aborted c; identity_seen := identity_seen c; latest := latest c |}.
Definition finish_operation (i : N) (c : coordinator) : coordinator := {|
  run := run c; active := if bool_decide (active c = Some i) then None else active c; disposed := disposed c;
  uncertainRefresh := uncertainRefresh c; lastElapsed := lastElapsed c; route := route c; expiry := expiry c; next_op := next_op c;
  aborted := {[i]} ∪ aborted c; identity_seen := identity_seen c; latest := latest c |}.
Definition retire_active (c : coordinator) : coordinator := {|
  run := run c; active := None; disposed := disposed c; uncertainRefresh := uncertainRefresh c; lastElapsed := lastElapsed c; route := route c;
  expiry := expiry c; next_op := next_op c; aborted := match active c with Some i => {[i]} ∪ aborted c | None => aborted c end;
  identity_seen := identity_seen c; latest := latest c |}.

(** ** Operations *)

Section screener.
Context `{Dates : !DateParse, Canonical : !Canonicalize}.
(** The configured selection, and the optional members of the retention. *)
Context (selectionKey : string) (has_recover has_refresh has_load : bool).

Definition clock : prog Z :=
  value ← invoke ElapsedNow;
  c ← get;
  match value with
  | Some z =>
      refuse_when (match lastElapsed c with Some last => (z <? last)%Z | None => false end) "Screener elapsed clock unavailable" ;;
      modify (set_elapsed z) ;; mret z
  | None => refuse "Screener elapsed clock unavailable"
  end.

Definition passed (d : deadline) (now : Z) : bool := match d with Never => false | At z => (z <=? now)%Z end.

(** The timer that is pending is cleared; the host may be told. *)
Definition retireRoute (notify : bool) : prog unit :=
  modify (set_route None) ;; modify (set_expiry false) ;; if notify then invoke RouteChanged else mret ().

Definition retireFacts : prog unit := modify retire_active ;; invoke RetireHydration.

Definition capture_route : prog Owner :=
  owner ← invoke CaptureRoute; modify (set_identity (owner_identity owner)) ;; invoke (AssertOwner owner) ;; mret owner.

(** [operation.assertCurrent()]: a refusal retires the operation. *)
Definition assertCurrent (op : Operation) : prog unit :=
  settle (invoke (Signals (op_id op)) ;;
          c ← get;
          refuse_when (bool_decide (op_id op ∈ aborted c)) "Native Screener operation retired" ;;
          refuse_when (disposed c || negb (bool_decide (active c = Some (op_id op)))) "Native Screener operation retired" ;;
          invoke (AssertOwner (op_parent op)) ;;
          match op_caller op with Some g => invoke (AssertCaller g) | None => mret () end)
    (λ o, match o with Returns _ => mret () | Throws e => modify (abort_operation (op_id op)) ;; refuse e end).

(** [operation.wait(task)]: the await of a retired operation fails; when it is
    retired while it waits, the answer of its turn is that rejection. *)
Definition wait {X} (op : Operation) (q : screener_call X) : prog X :=
  settle (invoke q) (λ o, c ← get; refuse_when (bool_decide (op_id op ∈ aborted c)) "Native Screener operation retired" ;; of_outcome o).

Definition begin_operation (completes : bool) (caller : option N) : prog Operation :=
  retireFacts ;;
  c ← get;
  refuse_when (disposed c) "Native Screener coordinator disposed" ;;
  parent ← invoke CaptureContext;
  c ← get;
  let op := {| op_id := next_op c; op_parent := parent; op_caller := caller |} in
  modify (start_operation completes) ;;
  settle (assertCurrent op) (λ o, match o with Returns _ => mret op | Throws e => retireFacts ;; refuse e end).

(** [routeAllowed]: whatever throws refuses, and retires the route. *)
Definition routeAllowed (target : string) (document : ScreenerDocument) : prog bool :=
  settle (c ← get;
          refuse_when (disposed c) "Screener route expired" ;;
          match route c with
          | None => refuse "Screener route expired"
          | Some r =>
              now ← clock;
              refuse_when (passed (route_deadline r) now) "Screener route expired" ;;
              invoke (AssertOwner (route_owner r)) ;;
              owner ← capture_route;
              refuse_when (negb (String.eqb (owner_identity owner) (route_identity r))) "Screener route owner changed" ;;
              mret (match document_url document with Some u => String.eqb u (selection_url (route_run r)) | None => false end
                    && String.eqb (selection_version (route_run r)) (document_version document)
                    && match acceptance (route_run r) with Some (_, ReadyFor t) => String.eqb t target | _ => false end)
          end)
    (λ o, match o with Returns b => mret b | Throws _ => retireRoute false ;; mret false end).

(** Only flat answers are retained. *)
Definition primitive (v : jsv) : bool :=
  match v with JStr _ | JBool _ => true | JNum (NInt _) => true | JNum (NOther t) => negb (str_in t ["NaN"; "Infinity"; "-Infinity"]) | _ => false end.
Definition primitiveAnswers (answers : list (string * jsv)) : outcome string (list (string * jsv)) :=
  map_each (λ e : string * jsv, throw_when (negb (primitive e.2)) "Native Screener flat answers required" ;; Returns e) answers.

(** What is left of the validity, a millisecond short. *)
Definition remaining (document : ScreenerDocument) (retained : RunView) (checkedAt : string) : span :=
  match validUntil retained, resultValidity document with
  | None, false => Forever
  | until, _ => match parse_date (default "" until), parse_date checkedAt with
      | Some u, Some s => Millis (u - s - 1)
      | _, _ => NotATime
      end
  end.
Definition positive_span (s : span) : bool := match s with Forever => true | Millis z => (0 <? z)%Z | NotATime => false end.
Definition deadline_of (started : Z) (s : span) : deadline := match s with Millis z => At (started + z) | _ => Never end.

Definition ready_for (q : Qualification) (target : string) : bool := match q with ReadyFor t => String.eqb t target | PendingFor _ => false end.

(** The route that a retained run opens, unless its time is over. *)
Definition open_route (request : CompletionRequest) (retained : RunView) (checkedAt : string) (started : Z) (routeOwner : Owner) (op : Operation) :
    prog CompletionResult :=
  let left := remaining (document request) retained checkedAt in
  let until := deadline_of started left in
  invoke (AssertOwner routeOwner) ;;
  owner ← capture_route;
  let expired := modify (set_run None) ;; mret (Refused "native-screener-route-expired") in
  if negb (String.eqb (owner_identity owner) (owner_identity routeOwner)) || negb (positive_span left) then expired else
  now ← clock;
  if passed until now then expired else
  modify (set_route (Some {| route_run := retained; route_identity := owner_identity routeOwner; route_deadline := until; route_owner := routeOwner;
    route_operation := op_id op; route_started := started; route_document := document request; route_target := target request |})) ;;
  (match until with At _ => clock ;; modify (set_expiry true) | Never => mret () end) ;;
  invoke RouteChanged ;;
  mret Accepted.

Definition complete (request : CompletionRequest) : prog CompletionResult :=
  modify (set_run None) ;;
  retireRoute true ;;
  started ← clock;
  routeOwner ← capture_route;
  op ← begin_operation true None;
  finally
    (refuse_when (negb (String.eqb (request_selectionKey request) selectionKey)) "Native Screener selection mismatch" ;;
     answers ← of_outcome (primitiveAnswers (answers_given request));
     retained ← wait op (Retain (op_id op) request answers);
     assertCurrent op ;;
     match acceptance retained with
     | Some (checkedAt, q) =>
         if ready_for q (target request) && ready_for (run_qualification retained) (target request) then
           modify (set_run (Some retained)) ;; open_route request retained checkedAt started routeOwner op
         else mret (Refused (match q with PendingFor reason => reason | ReadyFor _ => "native-screener-acceptance-unavailable" end))
     | None => mret (Refused "native-screener-acceptance-unavailable")
     end)
    (finish_operation (op_id op)).

Definition accepted_ready (view : RunView) : bool := match acceptance view with Some (_, ReadyFor _) => true | _ => false end.
Definition qualified_ready (view : RunView) : bool := match run_qualification view with ReadyFor _ => true | PendingFor _ => false end.

(** The run of a saved draft, as the retention recovers it. *)
Definition recover_run (op : Operation) (saved : SavedDraft) : prog RunView :=
  refuse_when (negb has_recover) "Native Screener retained recovery unavailable" ;;
  recovered ← wait op (Recover (op_id op) saved);
  assertCurrent op ;; modify (set_run (Some recovered)) ;; mret recovered.

(** A refresh whose answer was not seen is first looked up. *)
Definition refresh_run (op : Operation) (issued : RunView) : prog RunView :=
  c ← get;
  latest ← (if uncertainRefresh c then
              refuse_when (negb has_load) "Native Screener refresh recovery unavailable" ;;
              loaded ← wait op (Load (op_id op) issued);
              assertCurrent op ;; modify (set_run (Some loaded)) ;; mret loaded
            else mret issued);
  modify (set_uncertain true) ;;
  fresh ← wait op (Refresh (op_id op) latest);
  assertCurrent op ;;
  modify (set_run (Some fresh)) ;; modify (set_uncertain false) ;;
  refuse_when (negb (accepted_ready fresh) || negb (qualified_ready fresh)) "Native Screener refreshed acceptance unavailable" ;;
  mret fresh.

(** What the draft's check selects. *)
Definition check_of (view : RunView) : jsv :=
  JObj [("selectionHash", JStr (selectionHash view)); ("runId", JStr (runId view)); ("runRevision", JNum (NInt (run_revision view)))].

(** The run a draft is qualified with. *)
Definition select_run (op : Operation) (saved : SavedDraft) (refreshable : bool) : prog RunView :=
  c ← get;
  (match run c with
   | None =>
       if saved_signed saved then recover_run op saved ;; mret ()
       else if refreshable && has_recover && has_refresh then
         view ← recover_run op saved;
         if accepted_ready view then mret () else refresh_run op view ;; mret ()
       else mret ()
   | Some view =>
       if refreshable && negb (accepted_ready view) && has_recover && has_refresh then refresh_run op view ;; mret () else mret ()
   end) ;;
  c ← get;
  match run c with Some view => mret view | None => refuse "Native Screener retained run unavailable" end.

Definition qualifySaved (saved : SavedDraft) (caller : option N) (allowRefresh : bool) : prog Candidate :=
  op ← begin_operation false caller;
  settle
    (let refreshable := allowRefresh && negb (saved_signed saved) && negb (saved_content saved) in
     view ← select_run op saved refreshable;
     let check := if saved_signed saved then Some (check_of view) else None in
     (if saved_signed saved then mret () else wait op (Associate (op_id op) saved view) ;; mret ()) ;;
     assertCurrent op ;;
     facts ← wait op (Hydrate (op_id op) saved view check);
     assertCurrent op ;;
     invoke (AssertFacts facts false) ;;
     refuse_when (match check with
                  | Some v => negb (bool_decide (canonicalize (facts_check facts) = canonicalize v))
                  | None => false
                  end) "Native current check proof selector mismatch" ;;
     mret {| candidate_operation := op; candidate_facts := facts; candidate_check := check |})
    (λ o, match o with Returns c => mret c | Throws e => modify (finish_operation (op_id op)) ;; refuse e end).

Definition refreshSaved (saved : SavedDraft) (caller : N) : prog unit :=
  op ← begin_operation false (Some caller);
  finally
    (c ← get;
     issued ← (match run c with Some view => mret view | None => recover_run op saved end);
     refuse_when (negb has_refresh) "Native Screener refresh unavailable" ;;
     refresh_run op issued ;; mret ())
    (finish_operation (op_id op)).

(** The guards of a candidate. *)
Definition use_facts (candidate : Candidate) (ready : bool) : prog unit :=
  assertCurrent (candidate_operation candidate) ;; invoke (AssertFacts (candidate_facts candidate) ready).

Definition preSignCandidate (saved : SavedDraft) (caller : N) : prog Candidate :=
  candidate ← qualifySaved saved (Some caller) false;
  use_facts candidate true ;; mret candidate.

Definition dispose : prog unit :=
  c ← get;
  if disposed c then mret () else
  modify set_disposed ;; invoke RouteChanged ;; retireFacts ;; invoke DisposeHydration.

Definition screener_perform (op : screener_operation) : prog screener_reply :=
  match op with
  | Complete request => CompletionReply <$> complete request
  | QualifySaved saved caller allowRefresh => CandidateReply <$> qualifySaved saved caller allowRefresh
  | RefreshSaved saved caller => refreshSaved saved caller ;; mret DoneReply
  | PreSignCandidate saved caller => CandidateReply <$> preSignCandidate saved caller
  | UseFacts candidate ready => use_facts candidate ready ;; mret DoneReply
  | RouteAllowed target document => RouteReply <$> routeAllowed target document
  | RetireFactsNow => retireFacts ;; mret DoneReply
  | RetireAuthority => modify (set_run None) ;; retireRoute false ;; retireFacts ;; mret DoneReply
  | RouteTimer => c ← get; (if expiry c then retireRoute true else mret ()) ;; mret DoneReply
  | Dispose => dispose ;; mret DoneReply
  end.

Definition screener_operate (op : screener_operation) : prog unit :=
  settle (screener_perform op) (λ o, invoke (SettleScreener op o)).

(** [createNativeScreenerCoordinator] *)
Definition create_coordinator : outcome string coordinator :=
  throw_when (trim_empty selectionKey) "Native Screener selection key unavailable" ;;
  Returns {| run := None; active := None; disposed := false; uncertainRefresh := false; lastElapsed := None; route := None; expiry := false;
             next_op := 0; aborted := ∅; identity_seen := None; latest := None |}.

End screener.
(** * What is in force *)

Section theorems.
Context `{Dates : !DateParse, Canonical : !Canonicalize}.
Context (selectionKey : string) (has_recover has_refresh has_load : bool).

(** The operation may act. *)
Definition in_force (i : N) (c : coordinator) : Prop := active c = Some i ∧ disposed c = false ∧ i ∉ aborted c.

(** What made a route: an accepted run for its target, and a time that had not
    passed. *)
Record opened (r : Route) : Prop := {
  opened_run : ∃ checkedAt, acceptance (route_run r) = Some (checkedAt, ReadyFor (route_target r)) ∧
    run_qualification (route_run r) = ReadyFor (route_target r) ∧
    route_deadline r = deadline_of (route_started r) (remaining (route_document r) (route_run r) checkedAt) ∧
    positive_span (remaining (route_document r) (route_run r) checkedAt) = true;
  opened_owner : route_identity r = owner_identity (route_owner r)
}.

Definition elapsed_at_least (z : Z) (c : coordinator) : Prop := ∃ z', lastElapsed c = Some z' ∧ (z ≤ z')%Z.
Definition latest_at_least (i : N) (c : coordinator) : Prop := ∃ j, latest c = Some j ∧ (i ≤ j)%N.

Record screener_inv (c : coordinator) : Prop := {
  si_active : ∀ i, active c = Some i → next_op c = N.succ i;
  si_latest : ∀ i, latest c = Some i → (i < next_op c)%N;
  si_route : ∀ r, route c = Some r → disposed c = false ∧ latest c = Some (route_operation r) ∧ opened r ∧ elapsed_at_least (route_started r) c;
  si_disposed : disposed c = true → run c = None
}.

Record screener_mono (c c' : coordinator) : Prop := {
  sm_next : (next_op c ≤ next_op c')%N;
  sm_latest : ∀ i, latest_at_least i c → latest_at_least i c';
  sm_elapsed : ∀ z, elapsed_at_least z c → elapsed_at_least z c';
  sm_disposed : disposed c = true → disposed c' = true;
  sm_aborted : aborted c ⊆ aborted c'
}.

#[local] Instance screener_mono_preorder : PreOrder screener_mono.
Proof.
  split; [by intros c; split|]. intros c1 c2 c3 [? ? ? ? ?] [? ? ? ? ?]. split; [lia|auto|auto|auto|]. by etrans.
Qed.

(** What an allowed route is. *)
Definition route_granted (target : string) (document : ScreenerDocument) (c : coordinator) : Prop :=
  ∃ r, route c = Some r ∧ (∃ now, lastElapsed c = Some now ∧ passed (route_deadline r) now = false) ∧
    identity_seen c = Some (route_identity r) ∧ route_target r = target ∧
    document_url document = Some (selection_url (route_run r)) ∧ selection_version (route_run r) = document_version document.

(** What an accepted completion has opened. *)
Definition opened_for (request : CompletionRequest) (c : coordinator) : Prop :=
  ∃ r, route c = Some r ∧ route_document r = document request ∧ route_target r = target request ∧ run c = Some (route_run r).

(** What a qualified draft's candidate is. *)
Definition candidate_granted (saved : SavedDraft) (cand : Candidate) (c : coordinator) : Prop :=
  in_force (op_id (candidate_operation cand)) c ∧
  (saved_signed saved = true → ∃ v, candidate_check cand = Some v ∧ canonicalize (facts_check (candidate_facts cand)) = canonicalize v).

(** What a refresh has left. *)
Definition refreshed (c : coordinator) : Prop :=
  uncertainRefresh c = false ∧ ∃ view, run c = Some view ∧ accepted_ready view = true ∧ qualified_ready view = true.

(** What an answered operation was granted, in the state of its answer. *)
Definition granted (c : coordinator) (op : screener_operation) (r : screener_reply) : Prop :=
  match op, r with
  | Complete request, CompletionReply Accepted => opened_for request c
  | QualifySaved saved _ _, CandidateReply cand | PreSignCandidate saved _, CandidateReply cand => candidate_granted saved cand c
  | RefreshSaved _ _, DoneReply => refreshed c
  | UseFacts cand _, DoneReply => in_force (op_id (candidate_operation cand)) c
  | Dispose, DoneReply => disposed c = true
  | RouteAllowed target document, RouteReply true => route_granted target document c
  | _, _ => True
  end.

Definition screener_yields (X : Type) (q : screener_call X) : bool :=
  match q with Retain _ _ _ | Recover _ _ | Refresh _ _ | Load _ _ | Associate _ _ _ | Hydrate _ _ _ _ => true | _ => false end.

(** The ports, the host and its clock may answer anything. *)
Definition screener_answers (X : Type) (q : screener_call X) (a : outcome string X) (c : coordinator) : Prop := True.

(** The operation that calls a port. *)
Definition port_of {X} (q : screener_call X) : option N :=
  match q with
  | Retain op _ _ | Recover op _ | Refresh op _ | Load op _ | Associate op _ _ | Hydrate op _ _ _ => Some op
  | _ => None
  end.

(** What is seen of a run: a call of a port by an operation, a refresh or not, and
    an answer, with the state at that time. *)
Inductive screener_event : Type :=
  | PortCalled (op : N) (refreshes : bool) (at_state : coordinator)
  | ScreenerSettled (op : screener_operation) (result : outcome string screener_reply) (at_state : coordinator).

Definition screener_observe (X : Type) (q : screener_call X) (c : coordinator) : list screener_event :=
  match q with
  | Retain op _ _ | Recover op _ | Load op _ | Associate op _ _ | Hydrate op _ _ _ => [PortCalled op false c]
  | Refresh op _ => [PortCalled op true c]
  | SettleScreener op r => [ScreenerSettled op r c]
  | _ => []
  end.

Definition seen_in (e : screener_event) : coordinator := match e with PortCalled _ _ c | ScreenerSettled _ _ c => c end.

(** The operation that an event is an act of. *)
Definition acted (e : screener_event) : option N :=
  match e with
  | PortCalled i _ _ => Some i
  | ScreenerSettled (QualifySaved _ _ _ | PreSignCandidate _ _) (Returns (CandidateReply cand)) _ => Some (op_id (candidate_operation cand))
  | ScreenerSettled (UseFacts cand _) (Returns DoneReply) _ => Some (op_id (candidate_operation cand))
  | _ => None
  end.

Definition event_granted (e : screener_event) : Prop :=
  match e with
  | PortCalled i refreshes c => in_force i c ∧ (refreshes = true → uncertainRefresh c = true)
  | ScreenerSettled op (Returns r) c => granted c op r
  | ScreenerSettled _ (Throws _) _ => True
  end.

Definition screener_conditions : token_conditions coordinator unit screener_call := {|
  tinv := screener_inv;
  tmono := screener_mono;
  tlocked := λ _ _, false;
  theld := λ _ _ _, True;
  tissue := λ X q _ c, match q with
    | SettleScreener op (Returns r) => granted c op r
    | Refresh op _ => in_force op c ∧ uncertainRefresh c = true
    | _ => ∀ op, port_of q = Some op → in_force op c
    end
|}.

Lemma screener_conditions_ok : token_conditions_ok screener_conditions.
Proof. split; [apply _|]. intros k. by split. Qed.

Abbreviation stok := (tok screener_yields screener_answers screener_conditions).

(** A program from a state: it keeps the invariant, and what it returns with. *)
Definition holds {A} (m : prog A) (c : coordinator) (R : A → coordinator → Prop) : Prop :=
  stok m None c (λ h o c', h = None ∧ screener_inv c' ∧ screener_mono c c' ∧ ∀ a, o = Returns a → R a c').

Lemma holds_bind {A B} (m : prog A) (f : A → prog B) c R S : holds m c R →
  (∀ a c', screener_inv c' → screener_mono c c' → R a c' → holds (f a) c' S) → holds (m ≫= f) c S.
Proof.
  intros Hm Hf. apply tok_bind. eapply tok_weaken; [|exact Hm]. intros h o c' (-> & Hi & Hmono & Ha). destruct o as [a|e]; [|done].
  eapply tok_weaken; [|by apply (Hf a c' Hi Hmono); apply Ha]. intros h o c2 (-> & Hi2 & Hmono2 & Hs). split; [done|]. split; [done|]. split; [|done].
  by etrans.
Qed.

Lemma holds_settle {A B} (m : prog A) (f : outcome string A → prog B) c R S : holds m c R →
  (∀ o c', screener_inv c' → screener_mono c c' → (∀ a, o = Returns a → R a c') → holds (f o) c' S) → holds (settle m f) c S.
Proof.
  intros Hm Hf. apply tok_settle. eapply tok_weaken; [|exact Hm]. intros h o c' (-> & Hi & Hmono & Ha).
  eapply tok_weaken; [|by apply (Hf o c' Hi Hmono)]. intros h o' c2 (-> & Hi2 & Hmono2 & Hs). split; [done|]. split; [done|]. split; [|done].
  by etrans.
Qed.

Lemma holds_weaken {A} (m : prog A) c (R S : A → coordinator → Prop) :
  (∀ a c', screener_inv c' → screener_mono c c' → R a c' → S a c') → holds m c R → holds m c S.
Proof. intros H. apply tok_weaken. intros h o c' (-> & Hi & Hm & Ha). split; [done|]. split; [done|]. split; [done|]. auto. Qed.

Lemma holds_ret {A} (a : A) c (R : A → coordinator → Prop) : screener_inv c → R a c → holds (mret a) c R.
Proof. intros Hi HR. split; [done|]. split; [done|]. split; [done|]. by intros b [= <-]. Qed.

Lemma holds_outcome {A} (o : outcome string A) c (R : A → coordinator → Prop) : screener_inv c → (∀ a, o = Returns a → R a c) → holds (of_outcome o) c R.
Proof. intros Hi HR. split; [done|]. split; [done|]. split; [done|]. exact HR. Qed.

Lemma holds_refuse {A} e c (R : A → coordinator → Prop) : screener_inv c → holds (refuse e) c R.
Proof. intros Hi. by split. Qed.

Lemma holds_refuse_when b e c : screener_inv c → holds (refuse_when b e) c (λ _ c', b = false ∧ c' = c).
Proof. intros Hi. split; [done|]. split; [done|]. split; [done|]. intros u. by destruct b. Qed.

Lemma holds_get {A} (f : coordinator → prog A) c R : holds (f c) c R → holds (x ← get; f x) c R.
Proof. intros H. apply tok_bind. exact H. Qed.

Lemma screener_guarantee c c' : screener_inv c' → screener_mono c c' → tguarantee screener_conditions None None c c'.
Proof. intros Hi Hm. split; [done|]. split; [done|]. intros k. unfold token_moves. by rewrite !decide_False. Qed.

Lemma holds_modify f c : screener_inv (f c) → screener_mono c (f c) → holds (modify f) c (λ _ c', c' = f c).
Proof. intros Hi Hm. exists None. split; [by apply screener_guarantee|]. split; [done|]. split; [done|]. by split. Qed.

(** A call within the turn, and one that ends it. *)
Lemma holds_call {X} (q : screener_call X) c : screener_inv c → screener_yields X q = false → (match q with SettleScreener _ _ => False | _ => True end) →
  holds (invoke q) c (λ _ c', c' = c).
Proof.
  intros Hi Hy Hq. split; [by destruct q|]. intros c' a Hr _. rewrite Hy in Hr. subst c'. split; [done|]. split; [done|]. by split.
Qed.

Lemma holds_port {X} (q : screener_call X) c : screener_yields X q = true → tissue screener_conditions q None c →
  holds (invoke q) c (λ _ _, True).
Proof. intros Hy Hq. split; [done|]. intros c' a Hr _. rewrite Hy in Hr. destruct Hr as (Hi & Hm & _). split; [done|]. split; [done|]. by split. Qed.

Lemma holds_finally {A} (m : prog A) f c R S : holds m c R → (∀ c', screener_inv c' → screener_inv (f c') ∧ screener_mono c' (f c')) →
  (∀ a c', screener_inv c' → R a c' → S a (f c')) → holds (finally m f) c S.
Proof.
  intros Hm Hf HS. unfold finally. eapply holds_settle; [exact Hm|]. intros o c' Hi _ Ha. destruct (Hf c' Hi) as [Hi' Hm'].
  eapply holds_bind; [by apply holds_modify|]. intros _ c2 Hi2 _ ->. split; [done|]. split; [done|]. split; [done|]. intros a Ho. apply HS; [done|by apply Ha].
Qed.

(** ** What a turn may do *)

(** Nothing but the clock and the identity last seen changes. *)
Record calm (c c' : coordinator) : Prop := {
  calm_run : run c' = run c; calm_active : active c' = active c; calm_disposed : disposed c' = disposed c;
  calm_uncertain : uncertainRefresh c' = uncertainRefresh c; calm_route : route c' = route c; calm_next : next_op c' = next_op c;
  calm_aborted : aborted c' = aborted c; calm_latest : latest c' = latest c
}.
Lemma calm_trans c1 c2 c3 : calm c1 c2 → calm c2 c3 → calm c1 c3.
Proof. intros [] []. split; congruence. Qed.

Lemma set_run_None_ok c : screener_inv c → screener_inv (set_run None c) ∧ screener_mono c (set_run None c).
Proof. intros [Ha Hl Hr Hd]. split; split; cbn; try done; lia. Qed.

Lemma set_run_ok r c : disposed c = false → screener_inv c → screener_inv (set_run r c) ∧ screener_mono c (set_run r c).
Proof. intros Hn [Ha Hl Hr Hd]. split; split; cbn; try done; try lia. congruence. Qed.

Lemma set_uncertain_ok b c : screener_inv c → screener_inv (set_uncertain b c) ∧ screener_mono c (set_uncertain b c).
Proof. intros [Ha Hl Hr Hd]. split; split; cbn; try done; lia. Qed.

Lemma set_expiry_ok b c : screener_inv c → screener_inv (set_expiry b c) ∧ screener_mono c (set_expiry b c).
Proof. intros [Ha Hl Hr Hd]. split; split; cbn; try done; lia. Qed.

Lemma set_identity_ok s c : screener_inv c → screener_inv (set_identity s c) ∧ screener_mono c (set_identity s c).
Proof. intros [Ha Hl Hr Hd]. split; split; cbn; try done; lia. Qed.

Lemma set_elapsed_ok z c : (∀ last, lastElapsed c = Some last → (last ≤ z)%Z) → screener_inv c → screener_inv (set_elapsed z c) ∧ screener_mono c (set_elapsed z c).
Proof.
  intros Hz [Ha Hl Hr Hd]. assert (∀ x, elapsed_at_least x c → elapsed_at_least x (set_elapsed z c)) as He.
  { intros x (y & Hy & ?). exists z. split; [done|]. specialize (Hz y Hy). lia. }
  split; split; cbn; try done; try lia. intros r Hroute. destruct (Hr r Hroute) as (? & ? & ? & ?). auto.
Qed.

Lemma set_route_None_ok c : screener_inv c → screener_inv (set_route None c) ∧ screener_mono c (set_route None c).
Proof. intros [Ha Hl Hr Hd]. split; split; cbn; try done; lia. Qed.

Lemma set_route_ok r c : disposed c = false → latest c = Some (route_operation r) → opened r → elapsed_at_least (route_started r) c →
  screener_inv c → screener_inv (set_route (Some r) c) ∧ screener_mono c (set_route (Some r) c).
Proof. intros ? ? ? ? [Ha Hl Hr Hd]. split; split; cbn; try done; try lia. by intros r' [= <-]. Qed.

Lemma set_disposed_ok c : screener_inv c → screener_inv (set_disposed c) ∧ screener_mono c (set_disposed c).
Proof. intros [Ha Hl Hr Hd]. split; split; cbn; try done; lia. Qed.

Lemma abort_ok i c : screener_inv c → screener_inv (abort_operation i c) ∧ screener_mono c (abort_operation i c).
Proof. intros [Ha Hl Hr Hd]. split; split; cbn; try done; try lia. set_solver. Qed.

Lemma finish_ok i c : screener_inv c → screener_inv (finish_operation i c) ∧ screener_mono c (finish_operation i c).
Proof. intros [Ha Hl Hr Hd]. split; split; cbn; try done; try lia; [|set_solver]. intros j. case_bool_decide; [done|apply Ha]. Qed.

Lemma retire_ok c : screener_inv c → screener_inv (retire_active c) ∧ screener_mono c (retire_active c).
Proof. intros [Ha Hl Hr Hd]. split; split; cbn; try done; try lia. destruct (active c); set_solver. Qed.

Lemma start_ok b c : (b = true → route c = None) → screener_inv c → screener_inv (start_operation b c) ∧ screener_mono c (start_operation b c).
Proof.
  intros Hb [Ha Hl Hr Hd]. split; split; cbn; try done; try lia.
  - by intros i [= <-].
  - intros i. destruct b; [intros [= <-]; lia|]. intros ?%Hl. lia.
  - intros r Hroute. destruct b; [specialize (Hb eq_refl); congruence|auto].
  - intros i (j & Hj & Hij). destruct b; [|by exists j]. exists (next_op c). split; [done|]. specialize (Hl j Hj). lia.
Qed.

Lemma holds_mod f c R : screener_inv c → (screener_inv c → screener_inv (f c) ∧ screener_mono c (f c)) → R () (f c) → holds (modify f) c R.
Proof.
  intros Hi Hf HR. destruct (Hf Hi) as [Hi' Hm]. eapply holds_weaken; [|by apply holds_modify]. by intros [] c' _ _ ->.
Qed.

(** ** The parts *)

Lemma clock_holds c : screener_inv c → holds clock c (λ z c', calm c c' ∧ lastElapsed c' = Some z ∧ identity_seen c' = identity_seen c).
Proof.
  intros Hi. unfold clock. eapply holds_bind; [by apply holds_call|]. intros v c1 Hi1 _ ->. apply holds_get. destruct v as [z|]; [|by apply holds_refuse].
  eapply holds_bind; [by apply holds_refuse_when|]. intros _ c2 _ _ [Hz ->].
  eapply holds_bind; [apply (holds_mod _ _ (λ _ c', c' = set_elapsed z c)); [done| |done]|].
  - apply set_elapsed_ok. intros last Hlast. rewrite Hlast in Hz. lia.
  - intros _ c3 Hi3 _ ->. apply holds_ret; [done|]. by split.
Qed.

Lemma capture_holds c : screener_inv c →
  holds capture_route c (λ o c', calm c c' ∧ lastElapsed c' = lastElapsed c ∧ identity_seen c' = Some (owner_identity o)).
Proof.
  intros Hi. unfold capture_route. eapply holds_bind; [by apply holds_call|]. intros o c1 _ _ ->.
  eapply holds_bind; [apply (holds_mod _ _ (λ _ c', c' = set_identity (owner_identity o) c)); [done|apply set_identity_ok|done]|]. intros _ c2 Hi2 _ ->.
  eapply holds_bind; [by apply holds_call|]. intros _ c3 Hi3 _ ->. apply holds_ret; [done|]. by split.
Qed.

Lemma retireFacts_holds c : screener_inv c → holds retireFacts c (λ _ c', c' = retire_active c).
Proof.
  intros Hi. unfold retireFacts. eapply holds_bind; [apply (holds_mod _ _ (λ _ c', c' = retire_active c)); [done|apply retire_ok|done]|].
  intros _ c1 Hi1 _ ->. by apply holds_call.
Qed.

Lemma retireRoute_holds notify c : screener_inv c → holds (retireRoute notify) c (λ _ c', c' = set_expiry false (set_route None c)).
Proof.
  intros Hi. unfold retireRoute. eapply holds_bind; [apply (holds_mod _ _ (λ _ c', c' = set_route None c)); [done|apply set_route_None_ok|done]|].
  intros _ c1 Hi1 _ ->. eapply holds_bind; [apply (holds_mod _ _ (λ _ c', c' = set_expiry false (set_route None c))); [done|apply set_expiry_ok|done]|].
  intros _ c2 Hi2 _ ->. destruct notify; [by apply holds_call|by apply holds_ret].
Qed.

Lemma assertCurrent_holds op c : screener_inv c → holds (assertCurrent op) c (λ _ c', c' = c ∧ in_force (op_id op) c).
Proof.
  intros Hi. unfold assertCurrent. eapply (holds_settle _ _ _ (λ _ c', c' = c ∧ in_force (op_id op) c)).
  - eapply holds_bind; [by apply holds_call|]. intros _ c1 _ _ ->. apply holds_get.
    eapply holds_bind; [by apply holds_refuse_when|]. intros _ c2 _ _ [Ha ->]. eapply holds_bind; [by apply holds_refuse_when|].
    intros _ c3 _ _ [Hd ->]. apply orb_false_iff in Hd as [Hd Hact%negb_false_iff%bool_decide_eq_true]. apply bool_decide_eq_false in Ha.
    eapply holds_bind; [by apply holds_call|]. intros _ c4 _ _ ->. destruct (op_caller op) as [g|]; [|by apply holds_ret].
    eapply holds_weaken; [|by apply holds_call]. by intros _ c5 _ _ ->.
  - intros [u|e] c' Hi' Hm Ho.
    + destruct (Ho u eq_refl) as [-> ?]. by apply holds_ret.
    + eapply holds_bind; [apply (holds_mod _ _ (λ _ _, True)); [done|apply abort_ok|done]|]. intros _ c2 Hi2 _ _. by apply holds_refuse.
Qed.

Lemma wait_holds {X} op (q : screener_call X) c : screener_yields X q = true → tissue screener_conditions q None c →
  holds (wait op q) c (λ _ _, True).
Proof.
  intros Hy Hq. unfold wait. eapply holds_settle; [by apply holds_port|]. intros o c' Hi _ _. apply holds_get.
  eapply holds_bind; [by apply holds_refuse_when|]. intros _ c2 Hi2 _ _. by apply holds_outcome.
Qed.

Lemma begin_holds completes caller c : screener_inv c → (completes = true → route c = None) →
  holds (begin_operation completes caller) c (λ op c', in_force (op_id op) c' ∧ route c' = route c ∧ run c' = run c ∧
    lastElapsed c' = lastElapsed c ∧ (completes = true → latest c' = Some (op_id op))).
Proof.
  intros Hi Hroute. unfold begin_operation. eapply holds_bind; [by apply retireFacts_holds|]. intros _ c1 Hi1 _ ->. apply holds_get.
  eapply holds_bind; [by apply holds_refuse_when|]. intros _ c2 _ _ [Hd ->]. eapply holds_bind; [by apply holds_call|].
  intros parent c3 _ _ ->. apply holds_get. cbn zeta. set (op := {| op_id := _; op_parent := parent; op_caller := caller |}).
  set (started := start_operation completes (retire_active c)).
  eapply holds_bind; [apply (holds_mod _ _ (λ _ c', c' = started)); [done|by apply start_ok|done]|]. intros _ c4 Hi4 _ ->.
  eapply holds_settle; [by apply assertCurrent_holds|]. intros [u|e] c5 Hi5 _ Ho.
  - destruct (Ho u eq_refl) as [-> Hf]. apply holds_ret; [done|]. split; [done|]. repeat (split; [done|]). cbn. by intros ->.
  - eapply holds_bind; [by apply retireFacts_holds|]. intros _ c6 Hi6 _ _. by apply holds_refuse.
Qed.

(** ** The operations *)

Lemma routeAllowed_holds t d c : screener_inv c → holds (routeAllowed t d) c (λ b c', b = true → route_granted t d c').
Proof.
  intros Hi. unfold routeAllowed. eapply (holds_settle _ _ _ (λ b c', b = true → route_granted t d c')).
  - apply holds_get. eapply holds_bind; [by apply holds_refuse_when|]. intros _ c1 _ _ [_ ->].
    destruct (route c) as [r|] eqn:Er; [|by apply holds_refuse].
    eapply holds_bind; [by apply clock_holds|]. intros now c2 Hi2 _ (Hc2 & Hnow & _).
    eapply holds_bind; [by apply holds_refuse_when|]. intros _ c3 _ _ [Hpassed ->].
    eapply holds_bind; [by apply holds_call|]. intros _ c4 _ _ ->.
    eapply holds_bind; [by apply capture_holds|]. intros o c5 Hi5 _ (Hc5 & Hl5 & Hid).
    eapply holds_bind; [by apply holds_refuse_when|]. intros _ c6 _ _ [Hsame ->].
    apply negb_false_iff, String.eqb_eq in Hsame. apply holds_ret; [done|]. rewrite !andb_true_iff. intros ((Hu & Hv) & Ht).
    pose proof (calm_trans _ _ _ Hc2 Hc5) as Hc. exists r. split; [by rewrite (calm_route _ _ Hc)|]. split; [exists now; split; [by rewrite Hl5|done]|].
    split; [by rewrite Hid, Hsame|]. split; [|split].
    + destruct (si_route _ Hi r Er) as (_ & _ & [(checkedAt & Hacc & _) _] & _). rewrite Hacc in Ht. by apply String.eqb_eq in Ht.
    + destruct (document_url d) as [u|]; [|done]. by apply String.eqb_eq in Hu as ->.
    + by apply String.eqb_eq in Hv.
  - intros [b|e] c' Hi' _ Ho; [apply holds_ret; [done|by apply Ho]|].
    eapply holds_bind; [by apply retireRoute_holds|]. intros _ c2 Hi2 _ _. by apply holds_ret.
Qed.

Lemma latest_of_active i c : screener_inv c → active c = Some i → latest_at_least i c → latest c = Some i.
Proof.
  intros Hi Ha (j & Hj & Hij). pose proof (si_active _ Hi i Ha). pose proof (si_latest _ Hi j Hj). assert (j = i) as -> by lia. done.
Qed.

Lemma open_route_holds request retained checkedAt started owner op c : screener_inv c → in_force (op_id op) c → latest_at_least (op_id op) c →
  elapsed_at_least started c → run c = Some retained → acceptance retained = Some (checkedAt, ReadyFor (target request)) →
  run_qualification retained = ReadyFor (target request) →
  holds (open_route request retained checkedAt started owner op) c (λ r c', r = Accepted → opened_for request c').
Proof.
  intros Hi (Hact & Hdis & _) Hlat Hel Hrun Hacc Hq. unfold open_route. cbn zeta. set (left := remaining (document request) retained checkedAt).
  eapply holds_bind; [by apply holds_call|]. intros _ c1 _ _ ->. eapply holds_bind; [by apply capture_holds|]. intros o c2 Hi2 _ (Hc2 & Hl2 & _).
  assert (∀ c', screener_inv c' → holds (modify (set_run None) ;; mret (Refused "native-screener-route-expired")) c'
    (λ r c', r = Accepted → opened_for request c')) as Hexpired.
  { intros c' Hi'. eapply holds_bind; [apply (holds_mod _ _ (λ _ _, True)); [done|apply set_run_None_ok|done]|]. intros _ c3 Hi3 _ _. by apply holds_ret. }
  destruct (negb _ || negb _) eqn:E; [by apply Hexpired|]. apply orb_false_iff in E as [_ Hpos%negb_false_iff].
  eapply holds_bind; [by apply clock_holds|]. intros now c3 Hi3 Hm3 (Hc3 & Hnow & _). destruct (passed _ now); [by apply Hexpired|].
  pose proof (calm_trans _ _ _ Hc2 Hc3) as Hc.
  set (r := {| route_run := retained; route_identity := _; route_deadline := _; route_owner := _; route_operation := _; route_started := _;
    route_document := _; route_target := _ |}).
  assert (opened r) as Hopened by (split; [by exists checkedAt|done]).
  eapply holds_bind; [apply (holds_mod _ _ (λ _ c', c' = set_route (Some r) c3)); [done| |done]|].
  - apply set_route_ok; [by rewrite (calm_disposed _ _ Hc)| |done|].
    + rewrite (calm_latest _ _ Hc). by apply latest_of_active.
    + destruct Hel as (z & Hz & Hle). apply (sm_elapsed _ _ Hm3). exists z. split; [by rewrite Hl2|done].
  - intros _ c4 Hi4 _ ->.
    eapply (holds_bind _ _ _ (λ _ c', route c' = Some r ∧ run c' = run c3)).
    + destruct (deadline_of started left); [by apply holds_ret|]. eapply holds_bind; [by apply clock_holds|]. intros now' c5 Hi5 _ (Hc5 & _).
      apply holds_mod; [done|apply set_expiry_ok|]. split; [exact (calm_route _ _ Hc5)|exact (calm_run _ _ Hc5)].
    + intros _ c5 Hi5 _ [Hr5 Hrun5]. eapply holds_bind; [by apply holds_call|]. intros _ c6 _ _ ->. apply holds_ret; [done|]. intros _.
      exists r. split; [done|]. split; [done|]. split; [done|]. rewrite Hrun5, (calm_run _ _ Hc). done.
Qed.

Lemma complete_holds request c : screener_inv c →
  holds (complete selectionKey request) c (λ r c', r = Accepted → opened_for request c').
Proof.
  intros Hi. unfold complete. eapply holds_bind; [apply (holds_mod _ _ (λ _ c', c' = set_run None c)); [done|apply set_run_None_ok|done]|].
  intros _ c1 Hi1 _ ->. eapply holds_bind; [by apply retireRoute_holds|]. intros _ c2 Hi2 _ ->.
  eapply holds_bind; [by apply clock_holds|]. intros started c3 Hi3 _ (Hc3 & Hs3 & _).
  eapply holds_bind; [by apply capture_holds|]. intros owner c4 Hi4 _ (Hc4 & Hl4 & _).
  eapply holds_bind; [apply begin_holds; [done|]|].
  { intros _. rewrite (calm_route _ _ Hc4), (calm_route _ _ Hc3). done. }
  intros op c5 Hi5 _ (Hf & _ & _ & Hl5 & Hlatest). specialize (Hlatest eq_refl).
  eapply (holds_finally _ _ _ (λ r c', r = Accepted → opened_for request c')); [|intros c' Hi'; by apply finish_ok|].
  2:{ intros r c' _ Hr Hacc. destruct (Hr Hacc) as (ro & ? & ? & ? & ?). by exists ro. }
  eapply holds_bind; [by apply holds_refuse_when|]. intros _ c6 _ _ [_ ->].
  eapply holds_bind; [by apply (holds_outcome _ _ (λ _ c', c' = c5))|]. intros answers c7 _ _ ->.
  eapply holds_bind; [apply wait_holds; [done|]; by intros ? [= <-]|]. intros retained c8 Hi8 Hm8 _.
  eapply holds_bind; [by apply assertCurrent_holds|]. intros _ c9 _ _ [-> Hf8].
  destruct (acceptance retained) as [[checkedAt q]|] eqn:Eacc; [|by apply holds_ret].
  destruct (ready_for q _ && ready_for _ _) eqn:Eready; [|by apply holds_ret]. apply andb_true_iff in Eready as [Hq Horig].
  assert (∀ x, ready_for x (target request) = true → x = ReadyFor (target request)) as Hready by (by intros [u|] Hu; [apply String.eqb_eq in Hu as ->|]).
  apply Hready in Hq, Horig. subst q.
  eapply holds_bind; [apply (holds_mod _ _ (λ _ c', c' = set_run (Some retained) c8)); [done|apply set_run_ok, Hf8|done]|]. intros _ c10 Hi10 _ ->.
  apply open_route_holds; try done.
  - apply (sm_latest _ _ Hm8). by exists (op_id op).
  - apply (sm_elapsed _ _ Hm8). exists started. split; [by rewrite Hl5, Hl4|lia].
Qed.

Lemma recover_holds op saved c : screener_inv c → in_force (op_id op) c →
  holds (recover_run has_recover op saved) c (λ _ c', in_force (op_id op) c').
Proof.
  intros Hi Hf. unfold recover_run. eapply holds_bind; [by apply holds_refuse_when|]. intros _ c1 _ _ [_ ->].
  eapply holds_bind; [apply wait_holds; [done|]; by intros ? [= <-]|]. intros view c2 Hi2 _ _.
  eapply holds_bind; [by apply assertCurrent_holds|]. intros _ c3 _ _ [-> Hf2].
  eapply holds_bind; [apply (holds_mod _ _ (λ _ c', c' = set_run (Some view) c2)); [done|apply set_run_ok, Hf2|done]|].
  intros _ c4 Hi4 _ ->. by apply holds_ret.
Qed.

Lemma refresh_holds op issued c : screener_inv c → in_force (op_id op) c →
  holds (refresh_run has_load op issued) c (λ _ c', in_force (op_id op) c' ∧ refreshed c').
Proof.
  intros Hi Hf. unfold refresh_run. apply holds_get. eapply (holds_bind _ _ _ (λ _ c', in_force (op_id op) c')).
  - destruct (uncertainRefresh c); [|by apply holds_ret]. eapply holds_bind; [by apply holds_refuse_when|]. intros _ c1 _ _ [_ ->].
    eapply holds_bind; [apply wait_holds; [done|]; by intros ? [= <-]|]. intros view c2 Hi2 _ _.
    eapply holds_bind; [by apply assertCurrent_holds|]. intros _ c3 _ _ [-> Hf2].
    eapply holds_bind; [apply (holds_mod _ _ (λ _ c', c' = set_run (Some view) c2)); [done|apply set_run_ok, Hf2|done]|].
    intros _ c4 Hi4 _ ->. by apply holds_ret.
  - intros view c1 Hi1 _ Hf1. eapply holds_bind; [apply (holds_mod _ _ (λ _ c', c' = set_uncertain true c1)); [done|apply set_uncertain_ok|done]|].
    intros _ c2 Hi2 _ ->. eapply holds_bind; [apply wait_holds; [done|by split]|]. intros fresh c3 Hi3 _ _.
    eapply holds_bind; [by apply assertCurrent_holds|]. intros _ c4 _ _ [-> Hf3].
    eapply holds_bind; [apply (holds_mod _ _ (λ _ c', c' = set_run (Some fresh) c3)); [done|apply set_run_ok, Hf3|done]|]. intros _ c5 Hi5 _ ->.
    eapply holds_bind; [apply (holds_mod _ _ (λ _ c', c' = set_uncertain false (set_run (Some fresh) c3))); [done|apply set_uncertain_ok|done]|].
    intros _ c6 Hi6 _ ->. eapply holds_bind; [by apply holds_refuse_when|]. intros _ c7 _ _ [Hready ->].
    apply orb_false_iff in Hready as [Ha%negb_false_iff Hq%negb_false_iff]. apply holds_ret; [done|]. split; [exact Hf3|]. split; [done|]. by exists fresh.
Qed.

Lemma select_holds op saved refreshable c : screener_inv c → in_force (op_id op) c →
  holds (select_run has_recover has_refresh has_load op saved refreshable) c (λ view c', in_force (op_id op) c' ∧ run c' = Some view).
Proof.
  intros Hi Hf. unfold select_run. apply holds_get. eapply (holds_bind _ _ _ (λ _ c', in_force (op_id op) c')).
  - assert (∀ view c', screener_inv c' → in_force (op_id op) c' →
      holds (refresh_run has_load op view ;; mret ()) c' (λ _ c', in_force (op_id op) c')) as Hrefresh.
    { intros view c1 Hi1 Hf1. eapply holds_bind; [by apply refresh_holds|]. intros fresh c2 Hi2 _ [Hf2 _]. by apply holds_ret. }
    destruct (run c) as [view|]; [destruct (_ && _); [by apply Hrefresh|by apply holds_ret]|].
    destruct (saved_signed saved).
    { eapply holds_bind; [by apply recover_holds|]. intros view c2 Hi2 _ Hf2. by apply holds_ret. }
    destruct (refreshable && _ && _); [|by apply holds_ret]. eapply holds_bind; [by apply recover_holds|]. intros view c2 Hi2 _ Hf2.
    destruct (accepted_ready view); [by apply holds_ret|by apply Hrefresh].
  - intros _ c1 Hi1 _ Hf1. apply holds_get. destruct (run c1) as [view|] eqn:E; [by apply holds_ret|by apply holds_refuse].
Qed.

Lemma qualify_holds saved caller allow c : screener_inv c →
  holds (qualifySaved has_recover has_refresh has_load saved caller allow) c (candidate_granted saved).
Proof.
  intros Hi. unfold qualifySaved. eapply holds_bind; [by apply begin_holds|]. intros op c1 Hi1 _ (Hf & _).
  eapply (holds_settle _ _ _ (candidate_granted saved)).
  - cbn zeta. eapply holds_bind; [by apply select_holds|]. intros view c2 Hi2 _ [Hf2 _].
    eapply (holds_bind _ _ _ (λ _ _, True)).
    { destruct (saved_signed saved); [by apply holds_ret|]. eapply holds_bind; [apply wait_holds; [done|]; by intros ? [= <-]|].
      intros _ c3 Hi3 _ _. by apply holds_ret. }
    intros _ c3 Hi3 _ _. eapply holds_bind; [by apply assertCurrent_holds|]. intros _ c4 _ _ [-> Hf3].
    eapply holds_bind; [apply wait_holds; [done|]; by intros ? [= <-]|]. intros facts c5 Hi5 _ _.
    eapply holds_bind; [by apply assertCurrent_holds|]. intros _ c6 _ _ [-> Hf5]. eapply holds_bind; [by apply holds_call|]. intros _ c7 _ _ ->.
    eapply holds_bind; [by apply holds_refuse_when|]. intros _ c8 _ _ [Hcheck ->]. apply holds_ret; [done|]. split; [done|]. intros Hs.
    cbn [candidate_check candidate_facts]. rewrite Hs in Hcheck |- *. eexists. split; [done|]. by apply negb_false_iff, bool_decide_eq_true in Hcheck.
  - intros [cand|e] c2 Hi2 _ Ho; [apply holds_ret; [done|by apply Ho]|].
    eapply holds_bind; [apply (holds_mod _ _ (λ _ _, True)); [done|apply finish_ok|done]|]. intros _ c3 Hi3 _ _. by apply holds_refuse.
Qed.

Lemma use_facts_holds cand ready c : screener_inv c → holds (use_facts cand ready) c (λ _ c', c' = c ∧ in_force (op_id (candidate_operation cand)) c).
Proof.
  intros Hi. unfold use_facts. eapply holds_bind; [by apply assertCurrent_holds|]. intros _ c1 _ _ [-> Hf].
  eapply holds_weaken; [|by apply holds_call]. by intros _ c2 _ _ ->.
Qed.

Lemma refreshSaved_holds saved caller c : screener_inv c → holds (refreshSaved has_recover has_refresh has_load saved caller) c (λ _ c', refreshed c').
Proof.
  intros Hi. unfold refreshSaved. eapply holds_bind; [by apply begin_holds|]. intros op c1 Hi1 _ (Hf & _).
  eapply (holds_finally _ _ _ (λ _ c', refreshed c')); [|intros c' Hi'; by apply finish_ok|done]. apply holds_get.
  eapply (holds_bind _ _ _ (λ _ c', in_force (op_id op) c')).
  { destruct (run c1) as [view|]; [by apply holds_ret|by apply recover_holds]. }
  intros view c2 Hi2 _ Hf2. eapply holds_bind; [by apply holds_refuse_when|]. intros _ c3 _ _ [_ ->].
  eapply holds_bind; [by apply refresh_holds|]. intros _ c4 Hi4 _ [_ ?]. by apply holds_ret.
Qed.

Lemma dispose_holds c : screener_inv c → holds dispose c (λ _ c', disposed c' = true).
Proof.
  intros Hi. unfold dispose. apply holds_get. destruct (disposed c) eqn:Ed; [by apply holds_ret|].
  eapply holds_bind; [apply (holds_mod _ _ (λ _ c', c' = set_disposed c)); [done|apply set_disposed_ok|done]|]. intros _ c1 Hi1 _ ->.
  eapply holds_bind; [by apply holds_call|]. intros _ c2 _ _ ->. eapply holds_bind; [by apply retireFacts_holds|]. intros _ c3 Hi3 _ ->.
  eapply holds_weaken; [|by apply holds_call]. by intros _ c4 _ _ ->.
Qed.

(** ** An operation, and its answer *)

Lemma holds_map {A B} (g : A → B) (m : prog A) c (R : A → coordinator → Prop) (S : B → coordinator → Prop) :
  (∀ a c', R a c' → S (g a) c') → holds m c R → holds (g <$> m) c S.
Proof. intros HS Hm. eapply holds_bind; [exact Hm|]. intros a c' Hi _ HR. by apply holds_ret; [|apply HS]. Qed.

Lemma perform_holds op c : screener_inv c →
  holds (screener_perform selectionKey has_recover has_refresh has_load op) c (λ r c', granted c' op r).
Proof.
  intros Hi. destruct op as [request|saved caller allow|saved caller|saved caller|cand ready|t d| | | |]; cbn [screener_perform].
  - eapply holds_map; [|by apply complete_holds]. intros [|reason] c' Hr; [by apply Hr|done].
  - eapply holds_map; [|by apply qualify_holds]. done.
  - eapply holds_bind; [by apply refreshSaved_holds|]. intros u c' Hi' _ Hr. by apply holds_ret.
  - eapply holds_map; [by intros a c' Ha; exact Ha|]. unfold preSignCandidate.
    eapply holds_bind; [by apply qualify_holds|]. intros cand c1 Hi1 _ Hc.
    eapply holds_bind; [by apply use_facts_holds|]. intros u c2 Hi2 _ [-> _]. by apply holds_ret.
  - eapply holds_bind; [by apply use_facts_holds|]. intros u c' Hi' _ [-> Hf]. by apply holds_ret.
  - eapply holds_map; [|by apply routeAllowed_holds]. intros [] c' Hb; [by apply Hb|done].
  - eapply holds_bind; [by apply retireFacts_holds|]. intros _ c' Hi' _ _. by apply holds_ret.
  - eapply holds_bind; [apply (holds_mod _ _ (λ _ c', c' = set_run None c)); [done|apply set_run_None_ok|done]|]. intros _ c1 Hi1 _ ->.
    eapply holds_bind; [by apply retireRoute_holds|]. intros _ c2 Hi2 _ ->.
    eapply holds_bind; [by apply retireFacts_holds|]. intros _ c3 Hi3 _ ->. by apply holds_ret.
  - apply holds_get. eapply (holds_bind _ _ _ (λ _ _, True)).
    + destruct (expiry c); [|by apply holds_ret]. eapply holds_weaken; [|by apply retireRoute_holds]. done.
    + intros _ c' Hi' _ _. by apply holds_ret.
  - eapply holds_bind; [by apply dispose_holds|]. intros u c' Hi' _ Hd. by apply holds_ret.
Qed.

Lemma screener_operate_tok op c : screener_inv c →
  stok (screener_operate selectionKey has_recover has_refresh has_load op) None c (empty_handed (F := string)).
Proof.
  intros Hi. apply tok_settle. eapply tok_weaken; [|by apply perform_holds]. intros h o c' (-> & Hi' & _ & Hr). split.
  - destruct o as [r|e]; [by apply Hr|]. by intros i.
  - by intros c2 a -> _.
Qed.

(** ** Every run *)

Definition screener_recorded (l : list screener_event) (c : coordinator) : Prop :=
  (∀ e, e ∈ l → screener_inv (seen_in e) ∧ event_granted e ∧ screener_mono (seen_in e) c) ∧
  (∀ l1 e l2 e', l = l1 ++ e :: l2 → e' ∈ l2 → screener_mono (seen_in e) (seen_in e')).

Lemma screener_recorded_mono l c c' : screener_inv c' → screener_mono c c' → screener_recorded l c → screener_recorded l c'.
Proof. intros _ Hm [He Ho]. split; [|done]. intros e (? & ? & ?)%He. split; [done|]. split; [done|]. by etrans. Qed.

Lemma screener_recorded_event e c l : screener_inv c → seen_in e = c → event_granted e → screener_recorded l c → screener_recorded (l ++ [e]) c.
Proof.
  intros Hi <- Hg [He Ho]. split.
  - intros e'. rewrite elem_of_app, list_elem_of_singleton. intros [?| ->]; [by apply He|]. by split.
  - intros l1 e1 l2 e2 E Hin. destruct (exists_last (l := l2)) as (l3 & e3 & ->); [by intros ->; apply elem_of_nil in Hin|].
    rewrite app_comm_cons, app_assoc in E. apply app_inj_tail in E as [-> <-]. apply elem_of_app in Hin as [Hin|Hin%list_elem_of_singleton].
    + by eapply Ho.
    + subst e2. apply He. set_solver.
Qed.

Lemma screener_recorded_issue X (q : screener_call X) h c l : screener_inv c → tissue screener_conditions q h c → owns screener_conditions h c →
  screener_recorded l c → screener_recorded (l ++ screener_observe X q c) c.
Proof.
  intros Hi Hq _ Hr. destruct q; cbn [screener_observe]; try (by rewrite app_nil_r); apply screener_recorded_event; try done.
  all: cbn [tissue screener_conditions port_of] in Hq; try (by split; [apply Hq|]).
  all: try (by destruct Hq). by destruct result.
Qed.

Abbreviation screener_world := (world (C := coordinator) (F := string) (call := screener_call) (Ev := screener_event) unit).
Definition screener_entry (p : prog unit) : Prop := ∃ op, p = screener_operate selectionKey has_recover has_refresh has_load op.
Definition screener_reachable (w : screener_world) : Prop :=
  ∃ c, create_coordinator selectionKey = Returns c ∧ reachable screener_yields screener_answers screener_observe screener_entry c w.

Lemma screener_reachable_ok w : screener_reachable w → screener_inv (shared w) ∧ screener_recorded (events w) (shared w).
Proof.
  intros (c & Hc & Hw). unfold create_coordinator in Hc. destruct (trim_empty selectionKey); [done|]. injection Hc as <-.
  eapply (tokens_reachable_ok screener_yields screener_answers screener_observe screener_conditions screener_conditions_ok screener_recorded
    screener_recorded_mono screener_recorded_issue) with (kept := λ _ _ _ _, True) in Hw as [H [Hi _ _ _ _ Hr]]; try done.
  - by intros p c [op ->] Hi; apply screener_operate_tok.
  - split; [by intros e ?%elem_of_nil|]. by intros [].
Qed.

(** An event shows the operation in force that acts. *)
Lemma acted_in_force e i : event_granted e → acted e = Some i → in_force i (seen_in e).
Proof.
  destruct e as [j refreshes c|op [r|e] c]; simpl; [by intros [? _] [= <-]|..].
  - destruct op, r; try done; intros Hg [= <-]; try exact Hg; by apply Hg.
  - by destruct op.
Qed.

Lemma in_force_order i j c c' : screener_inv c → screener_inv c' → screener_mono c c' → in_force i c → in_force j c' → (i ≤ j)%N.
Proof. intros Hi Hi' Hm (Ha%(si_active _ Hi) & _) (Ha'%(si_active _ Hi') & _). pose proof (sm_next _ _ Hm). lia. Qed.

(** C22. However the operations of a native screener interleave, whatever its ports
    answer and its clock shows: only the operation in force calls a port, in the
    order in which the operations began, so one that was overtaken neither calls
    again nor passes the guard of its facts; a refresh is never sent with its
    uncertainty unrecorded; a route is allowed only for the target, the document
    and the owner of the latest completion, whose retained run was accepted for
    that target, before its deadline; a signed draft's facts prove its check; and
    a disposed coordinator calls no port, passes no guard and holds no route and
    no run. *)
Theorem screener_authority_sound w : screener_reachable w →
  (∀ e, e ∈ events w → event_granted e ∧ ∀ i, acted e = Some i → in_force i (seen_in e)) ∧
  (∀ t d c, ScreenerSettled (RouteAllowed t d) (Returns (RouteReply true)) c ∈ events w →
    disposed c = false ∧ ∃ r, route c = Some r ∧ latest c = Some (route_operation r) ∧ opened r ∧ route_granted t d c) ∧
  (∀ l1 e l2 e', events w = l1 ++ e :: l2 → e' ∈ l2 →
    (∀ i j, acted e = Some i → acted e' = Some j → (i ≤ j)%N) ∧
    (disposed (seen_in e) = true → acted e' = None ∧ route (seen_in e') = None ∧ run (seen_in e') = None)).
Proof.
  intros [Hi [He Ho]]%screener_reachable_ok. split; [|split].
  - intros e (_ & Hg & _)%He. split; [done|]. intros i. by apply acted_in_force.
  - intros t d c (Hic & Hg & _)%He. pose proof Hg as (r & Hr & _). destruct (si_route _ Hic r Hr) as (Hd & Hl & Hop & _).
    split; [done|]. by exists r.
  - intros l1 e l2 e' E Hin. pose proof (Ho _ _ _ _ E Hin) as Hm.
    destruct (He e) as (Hi1 & Hg1 & _); [rewrite E; apply elem_of_app; right; left|].
    destruct (He e') as (Hi2 & Hg2 & _); [rewrite E; apply elem_of_app; by right; right|]. split.
    + intros i j Ha Hb. apply acted_in_force in Ha, Hb; [|done..]. exact (in_force_order _ _ _ _ Hi1 Hi2 Hm Ha Hb).
    + intros Hd. apply (sm_disposed _ _ Hm) in Hd. split; [|split; [|by apply (si_disposed _ Hi2)]].
      * destruct (acted e') as [i|] eqn:Ha; [|done]. apply acted_in_force in Ha as (_ & Hd' & _); [congruence|done].
      * destruct (route (seen_in e')) as [r|] eqn:Hr; [|done]. destruct (si_route _ Hi2 r Hr) as [Hd' _]. congruence.
Qed.
End theorems.

(** ** A run *)

Module ScreenerSample.

#[export] Instance dates : DateParse := λ s, if String.eqb s "later" then Some 5000%Z else if String.eqb s "now" then Some 0%Z else None.
#[export] Instance canonical : Canonicalize := λ v, match v with JStr s => Some s | _ => None end.

Definition owner : Owner := {| owner_identity := "{}"; capture := 0 |}.
Definition view : RunView := {|
  selection_url := "https://screener"; selection_version := "1"; selectionHash := "h"; runId := "r"; run_revision := 1;
  run_qualification := ReadyFor "apply"; validUntil := Some "later"; acceptance := Some ("now", ReadyFor "apply") |}.
Definition screener : ScreenerDocument := {| document_url := Some "https://screener"; document_version := "1"; resultValidity := true |}.
Definition request : CompletionRequest := {|
  completionId := "c"; request_selectionKey := "k"; document := screener; answers_given := [("age", JNum (NInt 40))]; target := "apply" |}.
Definition saved : SavedDraft := {| saved_id := "d"; saved_signed := false; saved_content := false |}.
Definition facts : Facts := {| facts_id := 1; facts_check := JNull |}.

(** The run is retained and ready, at time zero. *)
Definition answer (X : Type) (q : screener_call X) (_ : coordinator) : option (outcome string X) :=
  match q in screener_call X return option (outcome string X) with
  | Retain _ _ _ | Recover _ _ | Refresh _ _ | Load _ _ => Some (Returns view)
  | Associate _ _ _ => Some (Returns JNull)
  | Hydrate _ _ _ _ => Some (Returns facts)
  | ElapsedNow => Some (Returns (Some 0%Z))
  | CaptureContext | CaptureRoute => Some (Returns owner)
  | AssertOwner _ | AssertCaller _ | Signals _ | AssertFacts _ _ | RouteChanged | RetireHydration | DisposeHydration
  | SettleScreener _ _ => Some (Returns ())
  end.

(** A completion is overtaken by another, which opens the route; a draft is
    qualified, and the coordinator disposed. *)
Definition call : screener_operation → prog unit := screener_operate "k" true true true.
Definition schedule : list (prog unit + nat) :=
  [inl (call (Complete request)); inl (call (Complete request)); inr 0; inr 1; inl (call (RouteAllowed "apply" screener));
   inl (call (QualifySaved saved None false)); inr 3; inr 3; inl (call Dispose); inl (call (RouteAllowed "apply" screener))].

Definition start : coordinator := {|
  run := None; active := None; disposed := false; uncertainRefresh := false; lastElapsed := None; route := None; expiry := false;
  next_op := 0; aborted := ∅; identity_seen := None; latest := None |}.

(** What the events show, less the states. *)
Definition shown (e : screener_event) : option (outcome string screener_reply) :=
  match e with PortCalled _ _ _ => None | ScreenerSettled _ r _ => Some r end.

Lemma screener_authority_sound_witness :
  ∃ w, screener_reachable "k" true true true w ∧
    (acted <$> events w) = [Some 0; Some 1; None; None; None; Some 2; Some 2; Some 2; None; None]%N ∧
    (∃ c r, ScreenerSettled (RouteAllowed "apply" screener) (Returns (RouteReply true)) c ∈ events w ∧ route c = Some r ∧ latest c = Some 1%N ∧ opened r).
Proof.
  destruct (play screener_yields screener_observe answer schedule [] start) as [[[ts c] l]|] eqn:E; [|by vm_compute in E].
  destruct (play_reachable screener_yields screener_answers screener_observe answer (λ X q c a _, I) (screener_entry "k" true true true) 0%N schedule
    (initial start) [] ts c l) as (w & Hw & _ & _ & He).
  - repeat (apply Forall_cons; split; [by first [eexists|exact I]|]). by apply Forall_nil.
  - intros i. by rewrite lookup_nil.
  - exact E.
  - assert (events w = l) as Hl by exact He. assert (screener_reachable "k" true true true w) as Hreach by (exists start; split; [reflexivity|exact Hw]).
    exists w. split; [exact Hreach|]. rewrite Hl. vm_compute in E. injection E as _ _ El. split; [by rewrite <- El|].
    assert (∃ c, ScreenerSettled (RouteAllowed "apply" screener) (Returns (RouteReply true)) c ∈ l ∧ latest c = Some 1%N) as (c' & Hin & Hc).
    { eexists. rewrite <- El. split; [by do 4 right; left|reflexivity]. }
    destruct (screener_authority_sound "k" true true true w Hreach) as (_ & Hroute & _).
    destruct (Hroute "apply" screener c') as (_ & r & Hr & _ & Hop & _); [by rewrite Hl|]. exists c', r. by split_and!.
Defined.
End ScreenerSample.
